(* ===== verification/_CoqProject ===== *)
-Q . S2P
Prelude.v
Crc.v
Utf8.v
Text.v
RecordFormat.v
SegmentScan.v
Disk.v
Manifest.v
Open.v
Retention.v
Sequencer.v
Stream.v
Appender.v
Restart.v
Journal.v
Pump.v
Wire.v
ProgramStatus.v
Signals.v
Scanner.v
Replay.v
Registry.v
Recorder.v
Runtime.v
Session.v
Mouse.v
Client.v
Resize.v
Attach.v
Attached.v
Relay.v
Link.v
LogRecords.v
LogTail.v
Stop.v
Auth.v
DiskGuard.v
Lifecycle.v
Federation.v
Nodes.v
Notify.v
Supervision.v
Send.v
Console.v
Proxy.v
ProxyStream.v
