(* ===== verification/Prelude.v ===== *)
(** * open-relay: the session supervisor

    This library models the Rust program under [src/src/]: a daemon that runs
    commands on pseudo-terminals, records what they write, shows it to any
    number of clients and survives crashes without losing what it promised.
    Definitions carry the names of the code and are executable; they are
    translated function by function, and the theorems are about them.

    ** The program and its model

    A child writes to its terminal.  The reader thread scans the bytes
    ([Scanner]), answers and removes capability probes, remembers titles,
    progress and program status ([Signals], [ProgramStatus]), publishes the
    filtered bytes to the clients and hands the raw bytes to the journal.  The
    journal sequences events and caches them ([Sequencer]), a bounded queue
    carries them to the appender thread ([Journal], [Appender]), which writes
    records ([RecordFormat], [Crc]) into segment parts ([Disk]), rolls parts
    over, seals them in a manifest ([Manifest]) and deletes what a checkpoint
    makes superfluous ([Retention]).  After a crash the next daemon repairs
    the directory ([Open], [Restart]).  Clients read the journal back through
    streams ([Stream]) and the display derivation ([Replay], [LogRecords],
    [LogTail]), attach through the store ([Attach], [Registry], [Resize]) and
    are fed by an output pump ([Pump]) that the daemon relays ([Relay]) over a
    local socket ([Wire], [Link]) to the attach client ([Client], [Mouse]),
    which on Windows reads console records ([Console]); [oly send] gives a
    session keys, text and files without attaching ([Send]).
    The store starts, restarts, stops, deletes and evicts sessions ([Lifecycle],
    [Stop]) and asks the disk monitor before it starts one ([DiskGuard]); the
    web interface has tokens and a lockout ([Auth]).  Daemons join one another
    as nodes: two handshakes over a socket ([Nodes]) end in the two halves of an
    encrypted channel ([Federation]), and the registry of connections follows
    the node configuration.  Over the channel they run each other's requests
    ([Proxy]) and serve each other's attaches ([ProxyStream]).  A monitor
    announces the sessions that went silent ([Notify]); the daemon's own tasks
    are supervised, and old sessions are swept away ([Supervision]).

    - Generic vocabulary: [Prelude] (bytes, fixed-width integers, slices,
      results, tactics), [Utf8] and [Text] (the [str] functions used).
    - Journal, [src/src/session/journal/]: [Crc] and [RecordFormat] are
      record.rs and codec.rs; [SegmentScan] scan.rs; [Disk] segment.rs;
      [Manifest] manifest.rs; [Open] open.rs; [Retention] checkpoint.rs;
      [Sequencer] and [Appender] appender.rs; [Stream] stream.rs; [Journal]
      shadow.rs over both; [Restart] composes open, run, crash and open.
    - Session, [src/src/session/]: [ProgramStatus] program_status.rs; [Signals]
      pty.rs; [Scanner] scan.rs; [Replay] replay.rs; [Registry] registry.rs;
      [Runtime] and [Session] runtime.rs; [Resize] resize.rs.  [Recorder] is
      the interface through which the runtime sees its journal, with the
      journal of [Journal] as its instance.
    - Store, [src/src/session/store/]: [Pump] pump.rs; [Attach] attach.rs with
      the look-ups of mod.rs and query.rs; [Attached] puts store, session,
      journal and pump together; [Stop] lifecycle.rs ([terminate_runtime]);
      [Lifecycle] the rest of lifecycle.rs with the statements of db.rs it
      runs.
    - Daemon: [DiskGuard] disk.rs; [Supervision] daemon/components.rs,
      daemon/health.rs and daemon/journal_retention.rs; [Notify] the modules of
      notification/ with session/store/notify.rs and activity.rs.
    - Logs, [src/src/session/logs/]: [LogRecords] index.rs; [LogTail] render.rs.
    - Clients and transport: [Mouse] mouse.rs; [Client] client/attach.rs and
      client/cursor.rs; [Console] client/attach_input.rs; [Send]
      client/send.rs; [Wire] ipc.rs, protocol.rs and error.rs; [Relay]
      daemon/rpc_attach.rs; [Link] both ends of an attach stream.
    - Web: [Auth] http/auth.rs with the watches of http/ws.rs and http/sse.rs.
    - Federation: [Federation] federation_crypto.rs with the node messages of
      protocol.rs; [Nodes] node/config.rs, node/registry.rs,
      daemon/node_manager.rs, the joining part of http/nodes.rs and the
      connecting part of daemon/rpc_nodes.rs; [Proxy] the calls of
      node/registry.rs with the relay loops of http/nodes.rs and
      daemon/rpc_nodes.rs, [ProxyStream] the streams among them.

    ** How the state is modelled

    Sizes, offsets and sequence numbers are [N]; additions that can wrap or
    saturate at 64 bits are written with [u64_add] and [u64_sat_add].  Bytes
    are [Byte.byte], a Rust [&str] is its UTF-8 bytes.  A directory maps file
    names to contents; code that writes it runs in the monad [disk] of [Disk],
    which keeps the log of its operations, so that a crash can be any prefix
    of that log.  The appender runs over a device that may fail at every
    operation; a crash cuts unsynced bytes anywhere, and may undo a truncation
    or a removal that no directory sync followed.  Shared cells (the cursors
    of attached clients, the modes a pump watches) live in a store of their
    own.  Threads and tasks are steps of one relation, each the body of one locked section,
    interleaved in any order.  Readings of the clock, answers of the operating
    system and of the database, and the order in which messages arrive are
    arguments of the steps, so the theorems hold for all of them.

    Third-party code is a class with the laws the code relies on: [Crc32Fast],
    [ManifestSerde] and [serde_json], [Base64], the terminal [Engine], the
    cryptographic primitives of [Federation], the [RegexEngine].  Each
    class has an instance in this library, and the witnesses use it.

    Loops whose length the data do not bound structurally carry fuel that the
    definitions compute from their input, a turn for every byte, record or
    part that is left; lemmas beside them say that it is enough
    ([Stream.stream_reads_all], [SegmentScan.scan_segment_sound]), and loops
    that wait run over the turns the world gives them, with a bound on how many
    they need ([Stop.stop_ends], [Journal.left_alone_catches_up],
    [Appender.clean_shutdown]).

    ** What is shown

    - End to end: a client, however it attached, is sent the stream of its
      session without a gap ([Attached.clients_see_the_session]) and draws
      consecutive bytes of it, whatever breaks: the socket, a write to the
      terminal, the terminal itself ([Link.link_draws_the_session]); the
      journal records what was broadcast
      ([Session.recording_matches_broadcast]).
    - Crashes: acknowledged records survive ([Appender.durable_survives_crash],
      [Journal.fully_durable_survives]), opening repairs and loses nothing
      that decodes ([Open.open_heals], [Open.open_loses_nothing]), and a crash
      leaves a journal to open again, but for two cuts that are named
      ([Restart.crash_and_restart]); retention deletes only below the newest
      checkpoint, and can be interrupted anywhere ([Retention.retention_safe]).
    - Refinement and equivalence: journal and cache are one append-only log
      ([Journal.journal_refines_log]); replay from any anchor is the filter of
      the whole recording ([Replay.replay_exact]); filtering does not depend on
      how the output was cut ([Scanner.scan_chunk_independent]); tails from
      checkpoints are tails of the whole ([LogTail.tail_is_exact]); the cache
      of stream lengths is transparent ([Attach.cache_is_transparent]).
    - The store: a start leaves a live session or nothing
      ([Lifecycle.start_leaves_session_or_nothing]), starts side by side give
      back what they reserved ([Lifecycle.starts_return_reservations]), a sweep
      evicts the settled sessions and no others
      ([Lifecycle.sweep_evicts_settled_sessions]), a deletion leaves nothing
      ([Lifecycle.delete_leaves_nothing]); the scan of the state directory is
      exact or says that it is not ([DiskGuard.scan_is_exact_or_partial]).
    - Authority: tokens fence attachments ([Registry.token_fences]), observers
      never drive ([Attach.observers_never_drive]), protected requests need a
      standing token ([Auth.requests_need_standing_token]); two daemons that end
      a handshake agree on names, keys and nonces ([Nodes.accepting_agrees],
      [Nodes.connecting_agrees]), what one sends the other receives in order and
      once ([Federation.channel_delivers_in_order]), and whoever is connected is
      authorized by the configuration ([Nodes.registry_follows_configuration]).
    - Other nodes: a call has the answer to its own request, or an error, and
      no request is run twice ([Proxy.answers_are_genuine]); a remote attach is
      the nested one, frame by frame and message by message
      ([ProxyStream.streams_are_relayed]).
    - Input: [oly send] reaches the session once per argument and in order, up
      to the first argument that cannot be sent ([Send.input_in_order]); the
      console decoder loses no text, splits no escape sequence and keeps pastes
      whole ([Console.console_text_is_kept], [Console.pastes_are_verbatim]).
    - Round trips: records, wire frames and requests
      ([SegmentScan.scan_torn_segment], [Wire.frames_arrive],
      [Wire.requests_arrive]); log pages tile the records
      ([LogRecords.log_pages_tile]).
    - Attention: what is announced was left alone, and what was left alone is
      announced, with settings that may change at every tick
      ([Notify.announcements_are_due], [Notify.silence_is_announced],
      [Notify.announced_once]); hooks get their words
      ([Notify.hook_gets_its_words]).
    - The daemon: components are started a bounded number of times and readiness
      says which run ([Supervision.components_are_supervised]); a retention
      sweep deletes old sessions only
      ([Supervision.retention_sweep_spares_live]).
    - Progress and bounds: queue, flight and stop
      ([Journal.queue_stays_bounded], [Pump.credit_bounds_flight],
      [Stop.stop_ends], [Stop.stop_escalates]).
    - Errors, and the places where the code does less than it means to: a cut
      manifest line blocks every later open
      ([Restart.torn_manifest_blocks_open]), a status poll can hide a journal
      failure ([Session.poll_silences_failure]), an attach whose first response
      cannot be written is never taken back ([Link.unwritten_init_stays]), a backlog ends an attach
      ([Link.backlog_ends_attach]), a logout leaves local attaches open
      ([Auth.logout_closes_streams]), parallel guesses escape the lockout
      ([Auth.lockout_bounds_serial_guesses]), starts that count together exceed
      the limit of sessions ([Lifecycle.limit_holds_one_start_at_a_time]), a row
      whose update failed is never written again
      ([Lifecycle.missed_update_is_final]), a remote attach whose node cannot
      write a message ends without a word ([ProxyStream.end_is_not_told]), a call
      that comes while a connection ends waits for its deadline
      ([Proxy.late_call_waits]).

    ** Not modelled

    The terminal emulator adapter ([terminal/]), SQLite ([db.rs]), spawning
    processes, sockets and raw terminal mode are I/O or third-party code.  The
    screen history cache of the logs, the cryptography of web pushes, the
    remaining HTTP handlers, the list TUI, configuration files and command-line
    parsing are left for later extensions.  Logging and metrics change no state
    that is modelled and are left out.  Where a build has variants, the
    non-Windows one is modelled, except in [Console]. *)

(** * Prelude

    Shared vocabulary of the development: bytes and byte strings, little-endian
    integers, fixed-width unsigned arithmetic, slices, the result type in
    which fallible Rust functions are modelled, and the tactics and hint
    databases the component files use.  Everything here is generic; nothing
    in this file models a particular source file of the repository. *)

From Stdlib Require Export NArith ZArith.
From Stdlib.Strings Require Export Byte.
From Stdlib.Strings Require String.
Export String.StringSyntax.
From stdpp Require Export base list option numbers gmap sorting.

Global Open Scope N_scope.

Declare Scope oly_scope.
Delimit Scope oly_scope with oly.
Global Open Scope oly_scope.

(** ** Tactics *)

(** Split every [if]/[match] of the goal and simplify. *)
Ltac split_cases :=
  repeat (case_match; simplify_eq/=).

(** Decide a comparison of the goal by arithmetic and rewrite it away. *)
Ltac ltb_to b :=
  match goal with
  | |- context [ ?x <? ?y ] =>
      replace (x <? y) with b by (symmetry; first [apply N.ltb_lt; lia | apply N.ltb_ge; lia])
  end.
Ltac leb_to b :=
  match goal with
  | |- context [ ?x <=? ?y ] =>
      replace (x <=? y) with b by (symmetry; first [apply N.leb_le; lia | apply N.leb_gt; lia])
  end.
Ltac eqb_to b :=
  match goal with
  | |- context [ ?x =? ?y ] =>
      replace (x =? y) with b by (symmetry; first [apply N.eqb_eq; lia | apply N.eqb_neq; lia])
  end.

(** ** Results

    [Result<T, E>] of the source. *)

Inductive result (E A : Type) : Type :=
  | Ok (a : A)
  | Err (e : E).
Arguments Ok {E A} a.
Arguments Err {E A} e.

(** The [?] operator is the monadic bind: [x ← r; k] binds the success value
    or returns the error early. *)
#[export] Instance result_ret {E} : MRet (result E) := λ A a, Ok a.
#[export] Instance result_bind {E} : MBind (result E) := λ A B f r,
  match r with Ok a => f a | Err e => Err e end.
#[export] Instance result_fmap {E} : FMap (result E) := λ A B f r,
  match r with Ok a => Ok (f a) | Err e => Err e end.

Definition is_ok {E A} (r : result E A) : bool :=
  match r with Ok _ => true | Err _ => false end.

(** [Option::ok_or]. *)
Definition ok_or {E A} (o : option A) (e : E) : result E A :=
  match o with Some a => Ok a | None => Err e end.

Lemma result_bind_ok {E A B} (r : result E A) (f : A → result E B) b :
  (r ≫= f) = Ok b ↔ ∃ a, r = Ok a ∧ f a = Ok b.
Proof. unfold mbind, result_bind. destruct r; naive_solver. Qed.

(** The kinds of [std::io::Error] the modelled code distinguishes. *)
Inductive io_error_kind :=
  | NotFound
  | InvalidData
  | InvalidInput
  | UnexpectedEof
  | Other.

#[export] Instance io_error_kind_eq_dec : EqDecision io_error_kind.
Proof. solve_decision. Defined.

Abbreviation io_result := (result io_error_kind).

(** ** Record update

    [r <| field := v |>] for a record with an eta expansion in [Settable]; the
    setter of a field is found by abstracting its projection. *)

Class Settable (R : Type) := eta : R → R.
Class Setter {R T : Type} (proj : R → T) := setter : (T → T) → R → R.

Ltac find_setter R proj :=
  let inst := constr:(_ : Settable R) in
  let body := eval hnf in inst in
  let abstracted := eval pattern proj in body in
  match abstracted with
  | ?update proj => let t := constr:(λ f r, update (λ x, f (proj x)) r) in let t := eval cbv beta in t in exact t
  end.
#[export] Hint Extern 1 (@Setter ?R _ ?proj) => find_setter R proj : typeclass_instances.

Notation "r <| proj := v |>" := (setter (proj:=proj) (λ _, v) r)
  (at level 12, proj at next level, v at level 99, left associativity) : oly_scope.

(** ** Fixed-width unsigned integers *)

Definition u8_max : N := 255.
Definition u16_max : N := 65535.
Definition u32_max : N := 4294967295.
Definition u64_max : N := 18446744073709551615.

(** Addition at width 64, as the release build performs it. *)
Definition u64_add (a b : N) : N := (a + b) mod 18446744073709551616.

(** [u64::saturating_add]. *)
Definition u64_sat_add (a b : N) : N := N.min (a + b) u64_max.

Lemma u64_add_bound a b : u64_add a b <= u64_max.
Proof. unfold u64_add, u64_max. pose proof (N.mod_lt (a + b) 18446744073709551616). lia. Qed.

Lemma u64_add_small a b : a + b <= u64_max → u64_add a b = a + b.
Proof. intros. unfold u64_add, u64_max in *. apply N.mod_small. lia. Qed.

Lemma u64_sat_add_small a b : a + b <= u64_max → u64_sat_add a b = a + b.
Proof. unfold u64_sat_add. lia. Qed.

Lemma u64_sat_add_ge a b : a <= u64_max → a <= u64_sat_add a b.
Proof. unfold u64_sat_add. lia. Qed.

(** ** Bytes *)

Abbreviation bytes := (list byte).

#[export] Instance byte_eq_dec : EqDecision byte := Byte.byte_eq_dec.

(** The byte with the low eight bits of [n]. *)
Definition byte_of (n : N) : byte := default x00 (Byte.of_N (n mod 256)).

Abbreviation byte_val := Byte.to_N.

(** Byte-string literals [b"..."] of the source. *)
Definition bs (s : String.string) : bytes := String.list_byte_of_string s.
Arguments bs s%_string_scope.

Lemma byte_val_of n : byte_val (byte_of n) = n mod 256.
Proof.
  unfold byte_of. destruct (Byte.of_N (n mod 256)) as [b|] eqn:E; simpl.
  - by apply Byte.to_of_N in E.
  - apply Byte.of_N_None_iff in E. pose proof (N.mod_lt n 256). lia.
Qed.

Lemma byte_of_val b : byte_of (byte_val b) = b.
Proof.
  unfold byte_of. pose proof (Byte.to_N_bounded b).
  rewrite N.mod_small by lia. by rewrite Byte.of_to_N.
Qed.

Lemma byte_val_lt b : byte_val b < 256.
Proof. pose proof (Byte.to_N_bounded b). lia. Qed.

Lemma byte_val_inj b c : byte_val b = byte_val c → b = c.
Proof. intros H. by rewrite <- (byte_of_val b), H, byte_of_val. Qed.

(** Byte comparison, [==] on [u8]. *)
Notation "a =b b" := (Byte.eqb a b) (at level 70, no associativity) : oly_scope.

Lemma byte_eqb_eq a b : (a =b b) = true ↔ a = b.
Proof. split; [apply Byte.byte_dec_bl | apply Byte.byte_dec_lb]. Qed.
Lemma byte_eqb_neq a b : (a =b b) = false ↔ a ≠ b.
Proof. rewrite <- byte_eqb_eq. destruct (a =b b); naive_solver. Qed.
Lemma byte_eqb_refl a : (a =b a) = true.
Proof. by apply byte_eqb_eq. Qed.
#[export] Hint Rewrite byte_eqb_refl : oly.

(** Byte-slice comparison. *)
Definition bytes_eqb (l k : bytes) : bool := bool_decide (l = k).

(** Turn the boolean comparisons of the context into propositions. *)
Ltac bool_prop :=
  repeat match goal with
  | H : (_ <? _) = true |- _ => apply N.ltb_lt in H
  | H : (_ <? _) = false |- _ => apply N.ltb_ge in H
  | H : (_ <=? _) = true |- _ => apply N.leb_le in H
  | H : (_ <=? _) = false |- _ => apply N.leb_gt in H
  | H : (_ =? _) = true |- _ => apply N.eqb_eq in H
  | H : (_ =? _) = false |- _ => apply N.eqb_neq in H
  | H : _ && _ = true |- _ => apply andb_true_iff in H as [? ?]
  | H : _ || _ = false |- _ => apply orb_false_iff in H as [? ?]
  | H : negb _ = true |- _ => apply negb_true_iff in H
  | H : negb _ = false |- _ => apply negb_false_iff in H
  | H : (_ =b _) = true |- _ => apply byte_eqb_eq in H
  | H : (_ =b _) = false |- _ => apply byte_eqb_neq in H
  | H : bool_decide _ = true |- _ => apply bool_decide_eq_true in H
  | H : bool_decide _ = false |- _ => apply bool_decide_eq_false in H
  end.

(** ** Lengths and slices *)

(** Length of a slice as a [usize]. *)
Definition len {A} (l : list A) : N := N.of_nat (length l).

(** [&l[i..j]]. *)
Definition slice {A} (i j : N) (l : list A) : list A :=
  take (N.to_nat (j - i)) (drop (N.to_nat i) l).

Notation "l @[ i , j ]" := (slice i j l)
  (at level 8, left associativity, i at level 50, j at level 50, format "l @[ i ,  j ]") : oly_scope.

Lemma len_nil {A} : len (@nil A) = 0.
Proof. done. Qed.
Lemma len_cons {A} (x : A) l : len (x :: l) = len l + 1.
Proof. unfold len. simpl. lia. Qed.
Lemma len_app {A} (l k : list A) : len (l ++ k) = len l + len k.
Proof. unfold len. rewrite length_app. lia. Qed.
Lemma len_take {A} n (l : list A) : len (take n l) = N.min (N.of_nat n) (len l).
Proof. unfold len. rewrite length_take. lia. Qed.
Lemma len_drop {A} n (l : list A) : len (drop n l) = len l - N.of_nat n.
Proof. unfold len. rewrite length_drop. lia. Qed.
Lemma len_map {A B} (f : A → B) l : len (map f l) = len l.
Proof. unfold len. by rewrite length_map. Qed.
Lemma len_0 {A} (l : list A) : len l = 0 ↔ l = [].
Proof. unfold len. destruct l; simpl; split; intros; try done; lia. Qed.
Lemma len_nonempty {A} (l : list A) : len l ≠ 0 ↔ l ≠ [].
Proof. by rewrite len_0. Qed.
Lemma to_nat_len {A} (l : list A) : N.to_nat (len l) = length l.
Proof. unfold len. lia. Qed.

Create HintDb oly discriminated.
#[export] Hint Rewrite @len_nil @len_cons @len_app @len_take @len_drop : oly.

Ltac len_simpl := autorewrite with oly in *; cbn [length N.of_nat] in *.

Lemma take_len_app {A} (l k : list A) n : n = len l → take (N.to_nat n) (l ++ k) = l.
Proof. intros ->. rewrite to_nat_len. apply take_app_length. Qed.

Lemma drop_len_app {A} (l k : list A) n : n = len l → drop (N.to_nat n) (l ++ k) = k.
Proof. intros ->. rewrite to_nat_len. apply drop_app_length. Qed.

Lemma slice_app_l {A} (l k : list A) i j : j <= len l → slice i j (l ++ k) = slice i j l.
Proof.
  intros H. unfold slice, len in *.
  destruct (decide (i <= j)).
  - rewrite drop_app_le by lia. rewrite take_app_le; [done|]. rewrite length_drop. lia.
  - replace (N.to_nat (j - i)) with 0%nat by lia. done.
Qed.

Lemma slice_app_r {A} (l k : list A) i j :
  len l <= i → slice i j (l ++ k) = slice (i - len l) (j - len l) k.
Proof.
  intros H. unfold slice, len in *. rewrite drop_app_ge by lia.
  f_equal; [lia|]. f_equal. lia.
Qed.

Lemma slice_all {A} (l : list A) j : j = len l → slice 0 j l = l.
Proof. intros ->. unfold slice. rewrite N.sub_0_r, to_nat_len. simpl. apply firstn_all. Qed.

Lemma slice_app_exact {A} (l k : list A) i j :
  i = 0 → j = len l → slice i j (l ++ k) = l.
Proof. intros -> ->. rewrite slice_app_l by lia. by apply slice_all. Qed.

Lemma len_slice {A} (l : list A) i j : i <= j → j <= len l → len (slice i j l) = j - i.
Proof. intros. unfold slice. rewrite len_take, len_drop. lia. Qed.

(** ** Little-endian integers: [to_le_bytes] and [from_le_bytes] *)

Fixpoint le_bytes (n : nat) (x : N) : bytes :=
  match n with
  | O => []
  | S n => byte_of x :: le_bytes n (x / 256)
  end.

Fixpoint le_value (l : bytes) : N :=
  match l with
  | [] => 0
  | b :: l => byte_val b + 256 * le_value l
  end.

Lemma length_le_bytes n x : length (le_bytes n x) = n.
Proof. revert x. induction n; intros; simpl; [done|]. by rewrite IHn. Qed.

Lemma len_le_bytes n x : len (le_bytes n x) = N.of_nat n.
Proof. unfold len. by rewrite length_le_bytes. Qed.
#[export] Hint Rewrite len_le_bytes : oly.

Lemma le_value_bytes n x : x < 256 ^ N.of_nat n → le_value (le_bytes n x) = x.
Proof.
  revert x. induction n as [|n IH]; intros x H.
  - simpl in *. lia.
  - cbn [le_bytes le_value]. rewrite byte_val_of.
    rewrite Nat2N.inj_succ, N.pow_succ_r' in H.
    rewrite IH by (apply N.Div0.div_lt_upper_bound; lia).
    pose proof (N.div_mod' x 256). lia.
Qed.

Lemma le_value_lt l : le_value l < 256 ^ len l.
Proof.
  induction l as [|b l IH]; [simpl; lia|].
  rewrite len_cons. cbn [le_value]. rewrite N.pow_add_r.
  pose proof (byte_val_lt b). change (256 ^ 1) with 256. nia.
Qed.

Lemma le_bytes_value l : le_bytes (length l) (le_value l) = l.
Proof.
  induction l as [|b l IH]; [done|]. cbn [le_value length le_bytes].
  pose proof (byte_val_lt b). f_equal.
  - apply byte_val_inj. rewrite byte_val_of.
    rewrite (N.mul_comm 256), N.Div0.mod_add. by apply N.mod_small.
  - rewrite (N.mul_comm 256), N.div_add by lia. by rewrite N.div_small.
Qed.

Lemma le_value_inj l k : length l = length k → le_value l = le_value k → l = k.
Proof. intros Hl Hv. rewrite <- (le_bytes_value l), <- (le_bytes_value k). congruence. Qed.

Arguments le_bytes : simpl never.
Arguments le_value : simpl never.

Abbreviation u16_le := (le_bytes 2).
Abbreviation u32_le := (le_bytes 4).
Abbreviation u64_le := (le_bytes 8).

Lemma le_value_u16 x : x <= u16_max → le_value (u16_le x) = x.
Proof. intros. apply le_value_bytes. change (256 ^ N.of_nat 2) with 65536. unfold u16_max in *. lia. Qed.
Lemma le_value_u32 x : x <= u32_max → le_value (u32_le x) = x.
Proof. intros. apply le_value_bytes. change (256 ^ N.of_nat 4) with 4294967296. unfold u32_max in *. lia. Qed.
Lemma le_value_u64 x : x <= u64_max → le_value (u64_le x) = x.
Proof. intros. apply le_value_bytes. change (256 ^ N.of_nat 8) with 18446744073709551616. unfold u64_max in *. lia. Qed.

(** ** Lists *)

(** [Vec::last]. *)
Lemma last_snoc_len {A} (l : list A) x : last (l ++ [x]) = Some x.
Proof. apply last_snoc. Qed.

Lemma forallb_Forall {A} (p : A → bool) l : forallb p l = true ↔ Forall (λ x, p x = true) l.
Proof. rewrite forallb_forall, Forall_forall. setoid_rewrite list_elem_of_In. done. Qed.

Lemma Forall_sublist {A} (P : A → Prop) l k : Forall P k → l `sublist_of` k → Forall P l.
Proof. rewrite !Forall_forall. intros Hk Hs x Hx. apply Hk. by eapply elem_of_sublist. Qed.

Lemma Forall_filter {A} (P Q : A → Prop) `{∀ x, Decision (Q x)} l :
  Forall P l → Forall P (filter Q l).
Proof. intros HP. eapply Forall_sublist; [exact HP|]. apply sublist_filter. Qed.

Lemma filter_all_len {A} (P : A → Prop) `{∀ x, Decision (P x)} (l : list A) :
  len (filter P l) = len l → filter P l = l.
Proof.
  unfold len. intros Hl%Nat2N.inj. induction l as [|x l IH]; [done|].
  rewrite filter_cons in *. destruct (decide (P x)); cbn [length] in Hl.
  - rewrite IH; [done|lia].
  - pose proof (length_filter P l). lia.
Qed.

Lemma list_filter_all {A} (P : A → Prop) `{∀ x, Decision (P x)} (l : list A) :
  (∀ x, x ∈ l → P x) → filter P l = l.
Proof.
  induction l as [|x l IH]; intros Ha; [done|].
  rewrite filter_cons_True by (apply Ha; by left). rewrite IH; [done|]. intros y Hy. apply Ha. by right.
Qed.

(** Ascending list of consecutive numbers starting at [n]. *)
Fixpoint seqN (n : N) (k : nat) : list N :=
  match k with O => [] | S k => n :: seqN (n + 1) k end.

Lemma length_seqN n k : length (seqN n k) = k.
Proof. revert n. induction k; intros; simpl; auto. Qed.

Lemma seqN_app n j k : seqN n (j + k) = seqN n j ++ seqN (n + N.of_nat j) k.
Proof.
  revert n. induction j as [|j IH]; intros n; simpl.
  - f_equal. lia.
  - f_equal. rewrite IH. do 2 f_equal. lia.
Qed.

Lemma elem_of_seqN x n k : x ∈ seqN n k ↔ n <= x < n + N.of_nat k.
Proof.
  revert n. induction k as [|k IH]; intros n; simpl.
  - split; [by intros ?%elem_of_nil | lia].
  - rewrite elem_of_cons, IH. lia.
Qed.

Lemma lookup_seqN m n i : (i < n)%nat → seqN m n !! i = Some (m + N.of_nat i).
Proof.
  revert m i. induction n as [|n IH]; intros m i Hi; [lia|]. destruct i as [|i]; cbn [seqN lookup list_lookup].
  - f_equal. lia.
  - change (list_lookup i (seqN (m + 1) n)) with (seqN (m + 1) n !! i). rewrite IH by lia. f_equal. lia.
Qed.
