(* ===== verification/Crc.v ===== *)
(** * CRC-32

    The checksum of the journal ([src/src/session/journal/record.rs]).  The
    production hasher is the third-party crate [crc32fast], so it is a
    parameter: the class [Crc32Fast] lists the operations the [Crc32] wrapper
    calls and [Crc32FastLaws] the documented behaviour the journal relies on
    (streaming updates compose, a digest is a [u32], [hash] is the one-shot
    digest).  The table-driven oracle the repository keeps beside it is
    modelled in full and shown to be an instance, so every theorem that is
    stated over the interface can be evaluated. *)

From S2P Require Import Prelude.

(** ** The interface to [crc32fast] *)

Class Crc32Fast := {
  hasher : Type;
  hasher_new : hasher;
  hasher_update : hasher → bytes → hasher;
  hasher_finalize : hasher → N;
  crc32fast_hash : bytes → N;
}.

Class Crc32FastLaws `{Crc32Fast} : Prop := {
  hasher_update_nil h : hasher_update h [] = h;
  hasher_update_app h a b :
    hasher_update (hasher_update h a) b = hasher_update h (a ++ b);
  hasher_finalize_u32 l : hasher_finalize (hasher_update hasher_new l) <= u32_max;
  crc32fast_hash_spec l :
    crc32fast_hash l = hasher_finalize (hasher_update hasher_new l);
}.

(** ** The wrapper [Crc32] *)

Section Wrapper.
Context `{Crc32Fast}.

Definition Crc32_new : hasher := hasher_new.
Definition Crc32_update (h : hasher) (l : bytes) : hasher := hasher_update h l.
(** [finish(&self)] clones the hasher, so the caller keeps using it. *)
Definition Crc32_finish (h : hasher) : N := hasher_finalize h.
Definition Crc32_of (l : bytes) : N := crc32fast_hash l.

Definition crc32_two (first second : bytes) : N :=
  Crc32_finish (Crc32_update (Crc32_update Crc32_new first) second).

Context `{!Crc32FastLaws}.

Lemma crc32_two_of a b : crc32_two a b = Crc32_of (a ++ b).
Proof.
  unfold crc32_two, Crc32_of, Crc32_update, Crc32_finish, Crc32_new.
  by rewrite hasher_update_app, crc32fast_hash_spec.
Qed.

Lemma Crc32_of_u32 l : Crc32_of l <= u32_max.
Proof. unfold Crc32_of. rewrite crc32fast_hash_spec. apply hasher_finalize_u32. Qed.
End Wrapper.

(** ** The table oracle *)

(** One reflected shift step with the IEEE 802.3 polynomial [0xEDB8_8320]. *)
Definition crc32_bit (crc : N) : N :=
  if negb (N.land crc 1 =? 0) then N.lxor (N.shiftr crc 1) 3988292384
  else N.shiftr crc 1.

Definition crc32_table : list N := map (λ i, Nat.iter 8 crc32_bit i) (seqN 0 256).

Definition crc32_step (crc : N) (b : byte) : N :=
  N.lxor (nth (N.to_nat (N.land (N.lxor crc (byte_val b)) 255)) crc32_table 0)
    (N.shiftr crc 8).

(** [!x] at width 32. *)
Definition u32_not (x : N) : N := N.lxor x u32_max.

Definition crc32 (l : bytes) : N := u32_not (foldl crc32_step (u32_not 0) l).

#[export] Instance table_crc32 : Crc32Fast := {
  hasher := N;
  hasher_new := u32_not 0;
  hasher_update := foldl crc32_step;
  hasher_finalize := u32_not;
  crc32fast_hash := crc32;
}.

(** Values below [2^32] are closed under the bit operations of the step. *)
Lemma lt_pow2_bits x n : x < 2 ^ n ↔ ∀ i, n <= i → N.testbit x i = false.
Proof.
  split.
  - intros Hx i Hi. destruct (decide (x = 0)) as [->|]; [apply N.bits_0|].
    apply N.bits_above_log2. apply N.log2_lt_pow2 in Hx; lia.
  - intros Hb. destruct (decide (x = 0)) as [->|Hne].
    { apply N.neq_0_lt_0, N.pow_nonzero. lia. }
    apply N.log2_lt_pow2; [lia|].
    destruct (decide (N.log2 x < n)); [done|].
    pose proof (N.bit_log2 x Hne) as Ht. rewrite Hb in Ht by lia. done.
Qed.

Lemma lxor_lt_pow2 x y n : x < 2 ^ n → y < 2 ^ n → N.lxor x y < 2 ^ n.
Proof.
  rewrite !lt_pow2_bits. intros Hx Hy i Hi.
  by rewrite N.lxor_spec, Hx, Hy by done.
Qed.

Lemma shiftr_lt_pow2 x k n : x < 2 ^ n → N.shiftr x k < 2 ^ n.
Proof.
  rewrite !lt_pow2_bits. intros Hx i Hi. rewrite N.shiftr_spec'. apply Hx. lia.
Qed.

Lemma crc32_table_u32 : forallb (λ x, x <? 2 ^ 32) crc32_table = true.
Proof. vm_compute. reflexivity. Qed.

Lemma nth_table_u32 i : nth i crc32_table 0 < 2 ^ 32.
Proof.
  destruct (nth_in_or_default i crc32_table 0) as [Hin| ->]; [|done].
  pose proof crc32_table_u32 as Hall. rewrite forallb_forall in Hall.
  by apply N.ltb_lt, Hall.
Qed.

Lemma crc32_step_u32 c b : c < 2 ^ 32 → crc32_step c b < 2 ^ 32.
Proof. intros. apply lxor_lt_pow2; [apply nth_table_u32|by apply shiftr_lt_pow2]. Qed.

Lemma crc32_fold_u32 l c : c < 2 ^ 32 → foldl crc32_step c l < 2 ^ 32.
Proof. revert c. induction l; simpl; auto using crc32_step_u32. Qed.

#[export] Instance table_crc32_laws : Crc32FastLaws.
Proof.
  split; try done.
  - intros. simpl. by rewrite foldl_app.
  - intros l. simpl. unfold u32_not.
    assert (N.lxor (foldl crc32_step (N.lxor 0 u32_max) l) u32_max < 2 ^ 32).
    { apply lxor_lt_pow2; [apply crc32_fold_u32|]; done. }
    unfold u32_max in *. change (2 ^ 32) with 4294967296 in *. lia.
Qed.

(** The standard check value of CRC-32/ISO-HDLC. *)
Example crc32_check_value : crc32 (bs "123456789") = 3421780262.
Proof. vm_compute. reflexivity. Qed.
