(* ===== verification/Utf8.v ===== *)
(** * UTF-8

    The Unicode functions of the Rust standard library the source uses:
    [std::str::from_utf8] / [String::from_utf8] as [utf8_decode], which
    accepts exactly the well-formed byte sequences of the Unicode standard
    (no surrogates, no overlong forms, nothing above [U+10FFFF]), and the
    encoder behind [String] collection from [char]s. *)

From S2P Require Import Prelude.

(** Is [b] in [lo..=hi]? *)
Definition in_range (lo hi : N) (b : byte) : bool :=
  (lo <=? byte_val b) && (byte_val b <=? hi).

Definition cont (b : byte) : bool := in_range 128 191 b.

(** Low six bits of a continuation byte. *)
Definition low6 (b : byte) : N := byte_val b - 128.

(** Is [b] an allowed second byte after the lead byte [a]? *)
Definition second_ok (a b : byte) : bool :=
  if byte_val a =? 224 then in_range 160 191 b
  else if byte_val a =? 237 then in_range 128 159 b
  else if byte_val a =? 240 then in_range 144 191 b
  else if byte_val a =? 244 then in_range 128 143 b
  else cont b.

(** The scalar values of a well-formed UTF-8 string, [None] otherwise. *)
Fixpoint utf8_decode (l : bytes) : option (list N) :=
  match l with
  | [] => Some []
  | a :: l1 =>
      if byte_val a <? 128 then cons (byte_val a) <$> utf8_decode l1
      else match l1 with
      | [] => None
      | b :: l2 =>
          if in_range 194 223 a && cont b then
            cons ((byte_val a - 192) * 64 + low6 b) <$> utf8_decode l2
          else match l2 with
          | [] => None
          | c :: l3 =>
              if in_range 224 239 a && second_ok a b && cont c then
                cons ((byte_val a - 224) * 4096 + low6 b * 64 + low6 c) <$> utf8_decode l3
              else match l3 with
              | [] => None
              | d :: l4 =>
                  if in_range 240 244 a && second_ok a b && cont c && cont d then
                    cons ((byte_val a - 240) * 262144 + low6 b * 4096 + low6 c * 64 + low6 d)
                      <$> utf8_decode l4
                  else None
              end
          end
      end
  end.

Definition utf8_valid (l : bytes) : bool :=
  match utf8_decode l with Some _ => true | None => false end.

(** [char::encode_utf8]. *)
Definition utf8_encode1 (c : N) : bytes :=
  if c <? 128 then [byte_of c]
  else if c <? 2048 then [byte_of (192 + c / 64); byte_of (128 + c mod 64)]
  else if c <? 65536 then
    [byte_of (224 + c / 4096); byte_of (128 + (c / 64) mod 64); byte_of (128 + c mod 64)]
  else
    [byte_of (240 + c / 262144); byte_of (128 + (c / 4096) mod 64);
     byte_of (128 + (c / 64) mod 64); byte_of (128 + c mod 64)].

Definition utf8_encode (cs : list N) : bytes := concat (map utf8_encode1 cs).

(** [String::from_utf8_lossy]: every maximal ill-formed part becomes one
    replacement character. *)
Definition REPLACEMENT : bytes := [xef; xbf; xbd].

Fixpoint utf8_lossy (l : bytes) : bytes :=
  match l with
  | [] => []
  | a :: l1 =>
      if byte_val a <? 128 then a :: utf8_lossy l1
      else if in_range 194 223 a then
        match l1 with
        | b :: l2 => if cont b then a :: b :: utf8_lossy l2 else REPLACEMENT ++ utf8_lossy l1
        | [] => REPLACEMENT
        end
      else if in_range 224 244 a then
        match l1 with
        | b :: l2 =>
            if second_ok a b then
              match l2 with
              | c :: l3 =>
                  if cont c then
                    if in_range 224 239 a then a :: b :: c :: utf8_lossy l3
                    else match l3 with
                         | d :: l4 =>
                             if cont d then a :: b :: c :: d :: utf8_lossy l4
                             else REPLACEMENT ++ utf8_lossy l3
                         | [] => REPLACEMENT
                         end
                  else REPLACEMENT ++ utf8_lossy l2
              | [] => REPLACEMENT
              end
            else REPLACEMENT ++ utf8_lossy l1
        | [] => REPLACEMENT
        end
      else REPLACEMENT ++ utf8_lossy l1
  end.

(** [char::is_control]: general category Cc. *)
Definition is_control (c : N) : bool := (c <? 32) || ((127 <=? c) && (c <=? 159)).

Lemma utf8_decode_ascii l :
  forallb (λ b, byte_val b <? 128) l = true → utf8_decode l = Some (map byte_val l).
Proof.
  induction l as [|b l IH]; simpl; [done|]. intros [Hb Hl]%andb_true_iff.
  rewrite Hb. by rewrite IH.
Qed.

Lemma utf8_valid_ascii l : forallb (λ b, byte_val b <? 128) l = true → utf8_valid l = true.
Proof. intros H. unfold utf8_valid. by rewrite utf8_decode_ascii. Qed.

Example utf8_accepts : utf8_decode [xe2; x82; xac; x41] = Some [8364; 65].
Proof. reflexivity. Qed.
Example utf8_rejects_overlong : utf8_decode [xc0; x80] = None.
Proof. reflexivity. Qed.
Example utf8_rejects_surrogate : utf8_decode [xed; xa0; x80] = None.
Proof. reflexivity. Qed.

(** ** Decoding and encoding are inverse *)

Lemma div_mod_64 x y : y < 64 → (x * 64 + y) / 64 = x ∧ (x * 64 + y) mod 64 = y.
Proof.
  intros Hy. split.
  - rewrite N.div_add_l by done. rewrite N.div_small by done. lia.
  - rewrite N.add_comm, N.Div0.mod_add. by apply N.mod_small.
Qed.

Lemma in_range_iff lo hi b : in_range lo hi b = true ↔ lo <= byte_val b <= hi.
Proof. unfold in_range. rewrite andb_true_iff, !N.leb_le. done. Qed.

Lemma second_ok_cont a b : second_ok a b = true → cont b = true.
Proof.
  unfold second_ok, cont. rewrite in_range_iff.
  repeat case_match; rewrite in_range_iff; bool_prop; lia.
Qed.

Lemma cont_byte b : cont b = true → low6 b < 64 ∧ byte_of (128 + low6 b) = b.
Proof.
  unfold cont, low6. rewrite in_range_iff. intros Hb. split; [lia|].
  replace (128 + (byte_val b - 128)) with (byte_val b) by lia. apply byte_of_val.
Qed.

Lemma lead_byte n a : n <= byte_val a → byte_of (n + (byte_val a - n)) = a.
Proof. intros. replace (n + (byte_val a - n)) with (byte_val a) by lia. apply byte_of_val. Qed.

(** A valid nonempty string is one encoded character and a valid rest. *)
Lemma utf8_decode_step a l cs :
  utf8_decode (a :: l) = Some cs →
  ∃ c l' cs', a :: l = utf8_encode1 c ++ l' ∧ cs = c :: cs' ∧ utf8_decode l' = Some cs'
    ∧ ∀ k, utf8_decode (utf8_encode1 c ++ k) = cons c <$> utf8_decode k.
Proof.
  cbn [utf8_decode]. pose proof (byte_val_lt a) as Ha.
  destruct (byte_val a <? 128) eqn:E1.
  { intros (cs' & Hd & ->)%fmap_Some. exists (byte_val a), l, cs'.
    assert (utf8_encode1 (byte_val a) = [a]) as ->
      by (unfold utf8_encode1; by rewrite E1, byte_of_val).
    split_and!; [done..|]. intros k. cbn [app utf8_decode]. by rewrite E1. }
  bool_prop. destruct l as [|b l2]; [done|].
  destruct (in_range 194 223 a && cont b) eqn:E2.
  { pose proof E2 as [Ha2 Hb]%andb_true_iff. apply in_range_iff in Ha2.
    apply cont_byte in Hb as [Hlb Hbb].
    intros (cs' & Hd & ->)%fmap_Some. set (c := _ + low6 b). exists c, l2, cs'.
    destruct (div_mod_64 (byte_val a - 192) (low6 b) Hlb) as [Hdiv Hmod].
    assert (utf8_encode1 c = [a; b]) as ->.
    { unfold utf8_encode1. ltb_to false. ltb_to true.
      unfold c. rewrite Hdiv, Hmod, Hbb, lead_byte by lia. done. }
    split_and!; [done..|]. intros k. cbn [app utf8_decode]. ltb_to false. by rewrite E2. }
  destruct l2 as [|c l3]; [done|].
  destruct (in_range 224 239 a && second_ok a b && cont c) eqn:E3.
  { pose proof E3 as [[Ha3 Hb]%andb_true_iff Hc]%andb_true_iff. apply in_range_iff in Ha3.
    pose proof (second_ok_cont _ _ Hb) as [Hlb Hbb]%cont_byte. apply cont_byte in Hc as [Hlc Hcc].
    intros (cs' & Hd & ->)%fmap_Some. set (x := _ + low6 c). exists x, l3, cs'.
    set (hi := (byte_val a - 224) * 64 + low6 b).
    assert (x = hi * 64 + low6 c) as Hx by (unfold x, hi; lia).
    destruct (div_mod_64 hi (low6 c) Hlc) as [Hd1 Hm1].
    destruct (div_mod_64 (byte_val a - 224) (low6 b) Hlb) as [Hd2 Hm2].
    assert (2048 <= x) as Hge.
    { unfold second_ok in Hb. destruct (byte_val a =? 224) eqn:Ez; bool_prop; [|unfold x; lia].
      apply in_range_iff in Hb. unfold x, low6. lia. }
    assert (utf8_encode1 x = [a; b; c]) as ->.
    { unfold utf8_encode1. do 2 ltb_to false. ltb_to true.
      replace (x / 4096) with (x / 64 / 64) by (by rewrite N.Div0.div_div).
      rewrite Hx, Hd1, Hm1. unfold hi. rewrite Hd2, Hm2, Hbb, Hcc, lead_byte by lia. done. }
    split_and!; [done..|]. intros k. cbn [app utf8_decode]. ltb_to false. by rewrite E2, E3. }
  destruct l3 as [|d l4]; [done|].
  destruct (in_range 240 244 a && second_ok a b && cont c && cont d) eqn:E4; [|done].
  pose proof E4 as [[[Ha4 Hb]%andb_true_iff Hc]%andb_true_iff Hdd]%andb_true_iff.
  apply in_range_iff in Ha4.
  pose proof (second_ok_cont _ _ Hb) as [Hlb Hbb]%cont_byte. apply cont_byte in Hc as [Hlc Hcc].
  apply cont_byte in Hdd as [Hld Hdd].
  intros (cs' & Hd & ->)%fmap_Some. set (x := _ + low6 d). exists x, l4, cs'.
  set (h1 := (byte_val a - 240) * 64 + low6 b). set (h2 := h1 * 64 + low6 c).
  assert (x = h2 * 64 + low6 d) as Hx by (unfold x, h2, h1; lia).
  destruct (div_mod_64 h2 (low6 d) Hld) as [Hd1 Hm1].
  destruct (div_mod_64 h1 (low6 c) Hlc) as [Hd2 Hm2].
  destruct (div_mod_64 (byte_val a - 240) (low6 b) Hlb) as [Hd3 Hm3].
  assert (65536 <= x) as Hge.
  { unfold second_ok in Hb. destruct (byte_val a =? 224) eqn:Ez; bool_prop; [lia|].
    destruct (byte_val a =? 237) eqn:Ez2; bool_prop; [lia|].
    destruct (byte_val a =? 240) eqn:Ez3; bool_prop; [|unfold x; lia].
    apply in_range_iff in Hb. unfold x, low6. lia. }
  assert (utf8_encode1 x = [a; b; c; d]) as ->.
  { unfold utf8_encode1. do 3 ltb_to false.
    replace (x / 262144) with (x / 64 / 64 / 64) by (by rewrite !N.Div0.div_div).
    replace (x / 4096) with (x / 64 / 64) by (by rewrite N.Div0.div_div).
    rewrite Hx, Hd1, Hm1. fold h2. unfold h2. rewrite Hd2, Hm2. unfold h1.
    rewrite Hd3, Hm3, Hbb, Hcc, Hdd, lead_byte by lia. done. }
  split_and!; [done..|]. intros k. cbn [app utf8_decode]. ltb_to false. by rewrite E2, E3, E4.
Qed.

(** Scalar values that encode to what decodes to them. *)
Definition scalar (c : N) : Prop :=
  ∀ k, utf8_decode (utf8_encode1 c ++ k) = cons c <$> utf8_decode k.

Lemma utf8_encode_decode l cs : utf8_decode l = Some cs → utf8_encode cs = l ∧ Forall scalar cs.
Proof.
  remember (length l) as n eqn:Hn. revert l cs Hn.
  induction (lt_wf n) as [n _ IH]. intros [|a l] cs -> Hd; [by injection Hd as <-|].
  apply utf8_decode_step in Hd as (c & l' & cs' & Heq & -> & Hd & Hk).
  assert (length l' < length (a :: l))%nat as Hlt.
  { rewrite Heq, length_app. assert (0 < length (utf8_encode1 c))%nat; [|lia].
    unfold utf8_encode1. repeat case_match; simpl; lia. }
  destruct (IH _ Hlt l' cs' eq_refl Hd) as [He Hs]. rewrite Heq. split; [|by constructor].
  unfold utf8_encode in *. simpl. by rewrite He.
Qed.

Lemma utf8_decode_encode cs : Forall scalar cs → utf8_decode (utf8_encode cs) = Some cs.
Proof.
  induction 1 as [|c cs Hc Hcs IH]; [done|].
  unfold utf8_encode in *. cbn [map concat]. rewrite Hc, IH. done.
Qed.

Lemma len_utf8_encode_filter (p : N → Prop) `{∀ c, Decision (p c)} cs :
  len (utf8_encode (filter p cs)) <= len (utf8_encode cs).
Proof.
  induction cs as [|c cs IH]; [done|]. unfold utf8_encode in *. rewrite filter_cons.
  cbn [map concat]. destruct (decide _); cbn [map concat]; rewrite ?len_app; lia.
Qed.
