(* ===== verification/Text.v ===== *)
(** * Text

    The [str] operations of the Rust standard library that the modelled code
    uses, on UTF-8 byte strings: splitting, trimming, prefixes, and decimal
    formatting and parsing.  Generic; no source file is modelled here. *)

From S2P Require Import Prelude Utf8.

(** ** ASCII classes *)

Definition in_byte_range (lo hi : byte) (b : byte) : bool :=
  (byte_val lo <=? byte_val b) && (byte_val b <=? byte_val hi).

(** [u8::is_ascii_digit] and its siblings. *)
Definition is_ascii_digit (b : byte) : bool := in_byte_range x30 x39 b.
Definition is_ascii_lowercase (b : byte) : bool := in_byte_range x61 x7a b.
Definition is_ascii_uppercase (b : byte) : bool := in_byte_range x41 x5a b.
Definition is_ascii_alphanumeric (b : byte) : bool :=
  is_ascii_digit b || is_ascii_lowercase b || is_ascii_uppercase b.
Definition is_ascii_whitespace (b : byte) : bool :=
  existsb (Byte.eqb b) [x20; x09; x0a; x0c; x0d].

(** ** Splitting *)

(** [split(c)]: always at least one piece. *)
Fixpoint split_on (c : byte) (l : bytes) : list bytes :=
  match l with
  | [] => [[]]
  | b :: l =>
      if b =b c then [] :: split_on c l
      else match split_on c l with
           | p :: ps => (b :: p) :: ps
           | [] => [[b]]
           end
  end.

(** [str::split_once] on an ASCII character. *)
Fixpoint split_once (c : byte) (l : bytes) : option (bytes * bytes) :=
  match l with
  | [] => None
  | b :: l =>
      if b =b c then Some ([], l)
      else '(x, y) ← split_once c l; Some (b :: x, y)
  end.

(** [slice::contains] for one byte. *)
Definition contains_byte (c : byte) (l : bytes) : bool := existsb (λ b, b =b c) l.

(** [rsplit_once(c)]. *)
Fixpoint rsplit_once (c : byte) (l : bytes) : option (bytes * bytes) :=
  match l with
  | [] => None
  | b :: l =>
      match rsplit_once c l with
      | Some (p, s) => Some (b :: p, s)
      | None => if b =b c then Some ([], l) else None
      end
  end.

Fixpoint starts_with (p l : bytes) : bool :=
  match p, l with
  | [], _ => true
  | a :: p, b :: l => (a =b b) && starts_with p l
  | _ :: _, [] => false
  end.

Definition strip_prefix (p l : bytes) : option bytes :=
  if starts_with p l then Some (drop (length p) l) else None.

Definition strip_suffix (s l : bytes) : option bytes :=
  rest ← strip_prefix (rev s) (rev l); Some (rev rest).

Fixpoint trim_start {A} (p : A → bool) (l : list A) : list A :=
  match l with
  | b :: l' => if p b then trim_start p l' else l
  | [] => []
  end.

(** [trim_matches(p)]. *)
Definition trim_matches {A} (p : A → bool) (l : list A) : list A :=
  rev (trim_start p (rev (trim_start p l))).

(** [char::is_whitespace]. *)
Definition is_whitespace (c : N) : bool :=
  ((9 <=? c) && (c <=? 13)) || (c =? 32) || (c =? 0x85) || (c =? 0xa0) || (c =? 0x1680)
  || ((0x2000 <=? c) && (c <=? 0x200a)) || (c =? 0x2028) || (c =? 0x2029) || (c =? 0x202f)
  || (c =? 0x205f) || (c =? 0x3000).

(** [str::trim]. *)
Definition trim (l : bytes) : bytes :=
  match utf8_decode l with
  | Some cs => utf8_encode (trim_matches is_whitespace cs)
  | None => l
  end.

(** [str::trim_end]. *)
Definition trim_end (l : bytes) : bytes :=
  match utf8_decode l with
  | Some cs => utf8_encode (rev (trim_start is_whitespace (rev cs)))
  | None => l
  end.

(** [to_ascii_lowercase] and [eq_ignore_ascii_case]. *)
Definition lower (b : byte) : byte := if is_ascii_uppercase b then byte_of (byte_val b + 32) else b.
Definition ascii_lowercase (l : bytes) : bytes := map lower l.
Definition eq_ignore_ascii_case (a b : bytes) : bool := bytes_eqb (ascii_lowercase a) (ascii_lowercase b).

(** [<=] on strings and on arrays of bytes. *)
Fixpoint bytes_leb (a b : bytes) : bool :=
  match a, b with
  | [], _ => true
  | _ :: _, [] => false
  | x :: a, y :: b => (byte_val x <? byte_val y) || ((x =b y) && bytes_leb a b)
  end.

(** The longest prefix of bytes satisfying [p], and the rest. *)
Fixpoint span (p : byte → bool) (l : bytes) : bytes * bytes :=
  match l with
  | b :: l' => if p b then let '(x, y) := span p l' in (b :: x, y) else ([], l)
  | [] => ([], [])
  end.

Lemma span_app p l x y : span p l = (x, y) → l = x ++ y.
Proof.
  revert x y. induction l as [|b l IH]; intros x y; simpl; [by intros [= <- <-]|].
  destruct (p b); [|by intros [= <- <-]].
  destruct (span p l) as [x' y']. intros [= <- <-]. simpl. by rewrite (IH x' y').
Qed.

Lemma span_all p l x y : span p l = (x, y) → forallb p x = true.
Proof.
  revert x y. induction l as [|b l IH]; intros x y; simpl; [by intros [= <- <-]|].
  destruct (p b) eqn:E; [|by intros [= <- <-]].
  destruct (span p l) as [x' y']. intros [= <- <-]. simpl. rewrite E. by eapply IH.
Qed.

Lemma span_stop p l x b y : span p l = (x, b :: y) → p b = false.
Proof.
  revert x. induction l as [|c l IH]; intros x; simpl; [done|].
  destruct (p c) eqn:E; [|by intros [= <- <- <-]].
  destruct (span p l) as [x' y']. intros [= <- ->]. by eapply IH.
Qed.

(** [span] of a run followed by a byte outside the class. *)
Lemma span_run p x b y : forallb p x = true → p b = false → span p (x ++ b :: y) = (x, b :: y).
Proof.
  induction x as [|c x IH]; simpl; intros Hx Hb; [by rewrite Hb|].
  apply andb_true_iff in Hx as [-> Hx]. by rewrite IH.
Qed.

Lemma span_run_nil p x : forallb p x = true → span p x = (x, []).
Proof.
  induction x as [|c x IH]; simpl; intros Hx; [done|].
  apply andb_true_iff in Hx as [-> Hx]. by rewrite IH.
Qed.

(** A stop that was found stays where it is when more bytes arrive. *)
Lemma span_extend p l x b y k : span p l = (x, b :: y) → span p (l ++ k) = (x, b :: y ++ k).
Proof.
  intros Hs. pose proof (span_app _ _ _ _ Hs) as ->. pose proof (span_all _ _ _ _ Hs).
  pose proof (span_stop _ _ _ _ _ Hs). rewrite <- app_assoc. by apply span_run.
Qed.

Lemma split_once_spec c l k :
  contains_byte c l = false → split_once c (l ++ c :: k) = Some (l, k).
Proof.
  induction l as [|b l IH]; simpl; [by rewrite byte_eqb_refl|].
  intros [Hb Hl]%orb_false_iff. rewrite Hb. by rewrite (IH Hl).
Qed.

Lemma split_once_none c l : contains_byte c l = false → split_once c l = None.
Proof.
  induction l as [|b l IH]; simpl; [done|]. intros [Hb Hl]%orb_false_iff. by rewrite Hb, (IH Hl).
Qed.

Lemma split_on_none c l : existsb (Byte.eqb c) l = false → split_on c l = [l].
Proof.
  induction l as [|b l IH]; simpl; [done|]. intros [Hb Hl]%orb_false_iff.
  rewrite (IH Hl). replace (b =b c) with false; [done|].
  symmetry. apply byte_eqb_neq. intros ->. by rewrite byte_eqb_refl in Hb.
Qed.

Lemma starts_with_spec p l : starts_with p l = true ↔ p `prefix_of` l.
Proof.
  revert l. induction p as [|a p IH]; intros l; simpl; [split; intros; [apply prefix_nil|done]|].
  destruct l as [|b l]; [split; [done|by intros ?%prefix_nil_inv]|].
  rewrite andb_true_iff, byte_eqb_eq, IH. split.
  - intros [-> ?]. by apply prefix_cons.
  - intros Hp. split; [by eapply prefix_cons_inv_1|by eapply prefix_cons_inv_2].
Qed.

Lemma strip_prefix_app p l : strip_prefix p (p ++ l) = Some l.
Proof.
  unfold strip_prefix. replace (starts_with p (p ++ l)) with true; [by rewrite drop_app_length|].
  symmetry. apply starts_with_spec. by exists l.
Qed.

Lemma strip_suffix_app s l : strip_suffix s (l ++ s) = Some l.
Proof.
  unfold strip_suffix. rewrite rev_app_distr, strip_prefix_app. simpl. by rewrite rev_involutive.
Qed.

(** ** Trimming *)

Lemma trim_start_all_out {A} (p : A → bool) l : forallb (λ x, negb (p x)) l = true → trim_start p l = l.
Proof. destruct l as [|x l]; [done|]. cbn. intros [Hx%negb_true_iff _]%andb_true_iff. by rewrite Hx. Qed.

Lemma trim_start_map {A B} (f : A → B) (p : B → bool) l : trim_start p (map f l) = map f (trim_start (λ x, p (f x)) l).
Proof. induction l as [|x l IH]; [done|]. cbn. by case_match. Qed.

Lemma trim_start_in {A} (p : A → bool) l x : In x (trim_start p l) → In x l.
Proof. induction l as [|y l IH]; [done|]. cbn. case_match; [by right; apply IH|done]. Qed.

Lemma trim_matches_in {A} (p : A → bool) l x : In x (trim_matches p l) → In x l.
Proof. unfold trim_matches. by intros Hx%in_rev%trim_start_in%in_rev%trim_start_in. Qed.

Lemma trim_matches_all_out {A} (p : A → bool) l : forallb (λ x, negb (p x)) l = true → trim_matches p l = l.
Proof.
  intros Hl. unfold trim_matches. rewrite (trim_start_all_out _ _ Hl), trim_start_all_out; [apply rev_involutive|].
  rewrite forallb_forall in *. intros x Hx. apply Hl. by apply in_rev.
Qed.

Definition ascii_bytes (l : bytes) : bool := forallb (λ b, byte_val b <? 128) l.

(** Trimming of ASCII goes byte by byte. *)
Lemma trim_ascii l : ascii_bytes l = true → trim l = trim_matches (λ b, is_whitespace (byte_val b)) l.
Proof.
  intros Hl. unfold trim. rewrite (utf8_decode_ascii _ Hl).
  replace (trim_matches is_whitespace (map byte_val l))
    with (map byte_val (trim_matches (λ b, is_whitespace (byte_val b)) l)).
  - apply (utf8_encode_decode _ _), utf8_decode_ascii. unfold ascii_bytes in Hl. rewrite forallb_forall in *.
    intros b Hb%trim_matches_in. by apply Hl.
  - unfold trim_matches. by rewrite trim_start_map, <- map_rev, trim_start_map, map_rev.
Qed.

(** ** Decimal numbers *)

Definition digit_val (b : byte) : N := byte_val b - 48.
Definition digit_byte (d : N) : byte := byte_of (48 + d).

(** The accumulating loop of [from_str_radix]: overflow is an error. *)
Fixpoint dec_value (max acc : N) (l : bytes) : option N :=
  match l with
  | [] => Some acc
  | b :: l =>
      if is_ascii_digit b then
        let acc := acc * 10 + digit_val b in
        if acc <=? max then dec_value max acc l else None
      else None
  end.

(** [str::parse] into an unsigned integer with the given maximum. *)
Definition parse_unsigned (max : N) (l : bytes) : option N :=
  match l with
  | [] => None
  | b :: l' =>
      if b =b x2b then match l' with [] => None | _ => dec_value max 0 l' end
      else dec_value max 0 l
  end.

Fixpoint show_digits (fuel : nat) (n : N) (acc : bytes) : bytes :=
  match fuel with
  | O => acc
  | S fuel =>
      if n <? 10 then digit_byte n :: acc
      else show_digits fuel (n / 10) (digit_byte (n mod 10) :: acc)
  end.

(** [format!("{n}")]; twenty digits hold every [u64]. *)
Definition show_dec (n : N) : bytes := show_digits 20 n [].

(** [Display] of a signed integer. *)
Definition show_int (z : Z) : bytes :=
  match z with
  | Z.neg p => bs "-" ++ show_dec (N.pos p)
  | _ => show_dec (Z.to_N z)
  end.

(** [format!("{n:0w}")]. *)
Definition show_padded (w : nat) (n : N) : bytes :=
  let s := show_dec n in replicate (w - length s) x30 ++ s.

Lemma digit_byte_digit d : d < 10 → is_ascii_digit (digit_byte d) = true.
Proof.
  intros. unfold is_ascii_digit, in_byte_range, digit_byte. rewrite byte_val_of.
  rewrite N.mod_small by lia. simpl. apply andb_true_iff. split; apply N.leb_le; lia.
Qed.

Lemma digit_val_byte d : d < 10 → digit_val (digit_byte d) = d.
Proof.
  intros. unfold digit_val, digit_byte. rewrite byte_val_of, N.mod_small by lia. lia.
Qed.

Lemma dec_value_zeros max n l : dec_value max 0 (replicate n x30 ++ l) = dec_value max 0 l.
Proof.
  induction n as [|n IH]; [done|]. cbn [replicate app dec_value].
  change (is_ascii_digit x30) with true. cbv iota.
  change (0 * 10 + digit_val x30) with 0. by rewrite (proj2 (N.leb_le 0 max)) by lia.
Qed.

Lemma dec_value_show max fuel n acc :
  n < 10 ^ N.of_nat fuel → (0 < fuel)%nat → n <= max →
  dec_value max 0 (show_digits fuel n acc) = dec_value max n acc.
Proof.
  revert n acc. induction fuel as [|fuel IH]; intros n acc Hn Hf Hmax; [lia|].
  cbn [show_digits]. destruct (N.ltb_spec n 10) as [Hlt|Hge].
  - cbn [dec_value]. rewrite digit_byte_digit, digit_val_byte by done. cbv zeta.
    rewrite N.mul_0_l, N.add_0_l. by leb_to true.
  - rewrite Nat2N.inj_succ, N.pow_succ_r' in Hn. pose proof (N.div_mod' n 10).
    pose proof (N.mod_lt n 10 ltac:(done)).
    assert (n / 10 < 10 ^ N.of_nat fuel) as Hd by (apply N.Div0.div_lt_upper_bound; lia).
    assert (n / 10 <= max) as Hdm by (etrans; [apply N.Div0.div_le_upper_bound with (q := n); lia|done]).
    rewrite IH; [|done| |done].
    2:{ destruct fuel; [change (10 ^ N.of_nat 0) with 1 in Hd; lia|lia]. }
    cbn [dec_value]. rewrite digit_byte_digit, digit_val_byte by done.
    replace (n / 10 * 10 + n mod 10) with n by lia. by leb_to true.
Qed.

Lemma show_digits_digits fuel n acc :
  forallb is_ascii_digit acc = true → forallb is_ascii_digit (show_digits fuel n acc) = true.
Proof.
  revert n acc. induction fuel as [|fuel IH]; intros n acc Ha; [done|]. cbn [show_digits].
  destruct (N.ltb_spec n 10).
  - simpl. by rewrite digit_byte_digit.
  - apply IH. simpl. rewrite digit_byte_digit; [done|]. by apply N.mod_lt.
Qed.

Lemma show_digits_length fuel n acc : (0 < fuel)%nat → (length acc < length (show_digits fuel n acc))%nat.
Proof.
  revert n acc. induction fuel as [|fuel IH]; intros n acc Hf; [lia|]. cbn [show_digits].
  case_match; [simpl; lia|]. destruct fuel as [|fuel]; [simpl; lia|].
  pose proof (IH (n / 10) (digit_byte (n mod 10) :: acc) ltac:(lia)) as Hl. cbn [length] in Hl. lia.
Qed.

(** What a formatted number consists of. *)
Lemma show_padded_digits w n : forallb is_ascii_digit (show_padded w n) = true.
Proof.
  unfold show_padded. rewrite forallb_app. apply andb_true_iff. split.
  - induction (w - _)%nat; [done|]. done.
  - by apply show_digits_digits.
Qed.

Lemma show_padded_nonempty w n : show_padded w n ≠ [].
Proof.
  unfold show_padded, show_dec. pose proof (show_digits_length 20 n [] ltac:(lia)) as Hl.
  intros [_ E]%app_nil. rewrite E in Hl. simpl in Hl. lia.
Qed.

Lemma digits_no_byte c l :
  forallb is_ascii_digit l = true → is_ascii_digit c = false → existsb (λ b, b =b c) l = false.
Proof.
  intros Hl Hc. induction l as [|b l IH]; [done|]. simpl in *.
  apply andb_true_iff in Hl as [Hb Hl]. rewrite (IH Hl), orb_false_r.
  apply byte_eqb_neq. intros ->. congruence.
Qed.

(** Parsing a formatted number gives the number back. *)
Lemma parse_show_padded w n max : n <= max → n <= u64_max → parse_unsigned max (show_padded w n) = Some n.
Proof.
  intros Hmax Hn. pose proof (show_padded_nonempty w n) as Hne.
  pose proof (show_padded_digits w n) as Hd.
  assert (dec_value max 0 (show_padded w n) = Some n) as Hv.
  { unfold show_padded, show_dec. rewrite dec_value_zeros, dec_value_show; [done| |lia|done].
    change (10 ^ N.of_nat 20) with 100000000000000000000. unfold u64_max in Hn. lia. }
  destruct (show_padded w n) as [|b l]; [done|]. simpl in Hd.
  apply andb_true_iff in Hd as [Hb _]. cbn [parse_unsigned].
  replace (b =b x2b) with false; [done|]. symmetry. apply byte_eqb_neq. by intros ->.
Qed.

(** The same without padding. *)
Lemma show_dec_digits n : forallb is_ascii_digit (show_dec n) = true.
Proof. exact (show_padded_digits 0 n). Qed.

Lemma show_dec_nonempty n : show_dec n ≠ [].
Proof. exact (show_padded_nonempty 0 n). Qed.

Lemma parse_show_dec n max : n <= max → n <= u64_max → parse_unsigned max (show_dec n) = Some n.
Proof. exact (parse_show_padded 0 n max). Qed.

(** A formatted number ends where something else begins. *)
Lemma span_show_dec n b l :
  is_ascii_digit b = false → span is_ascii_digit (show_dec n ++ b :: l) = (show_dec n, b :: l).
Proof. apply span_run, show_dec_digits. Qed.

(** ** Line ends *)

(** A closing brace is no part of a longer character. *)
Lemma utf8_encode1_brace c x : utf8_encode1 c = x ++ [x7d] → c = 125.
Proof.
  intros Hc. apply (f_equal last) in Hc. rewrite last_snoc in Hc.
  assert (∀ n, byte_of n = x7d → n < 256 → n = 125) as Hb.
  { intros n Hn Hlt. apply (f_equal byte_val) in Hn. by rewrite byte_val_of, N.mod_small in Hn. }
  pose proof (N.mod_lt c 64 ltac:(lia)) as Hm. unfold utf8_encode1 in Hc.
  destruct (N.ltb_spec c 128); [|destruct (c <? 2048); [|destruct (c <? 65536)]];
    cbn [last] in Hc; injection Hc as Hc; apply Hb in Hc; revert Hc Hm; generalize (c mod 64); lia.
Qed.

(** Trimming the line break off a line that ends in a brace. *)
Lemma trim_end_brace l x : utf8_valid l = true → l = x ++ [x7d] → trim_end (l ++ [x0a]) = l.
Proof.
  unfold utf8_valid, trim_end. destruct (utf8_decode l) as [cs|] eqn:E; [|done]. intros _ Hl.
  apply utf8_encode_decode in E as [He Hs].
  assert (utf8_decode (l ++ [x0a]) = Some (cs ++ [10])) as ->.
  { replace (l ++ [x0a]) with (utf8_encode (cs ++ [10])).
    - apply utf8_decode_encode, Forall_app. split; [done|]. constructor; [|done]. by intros k.
    - unfold utf8_encode in *. rewrite map_app, concat_app, He. done. }
  rewrite rev_app_distr. cbn [rev app trim_start]. change (is_whitespace 10) with true.
  destruct cs as [|c cs _] using rev_ind; [by destruct x; subst|].
  unfold utf8_encode in He. rewrite map_app, concat_app in He. cbn [map concat] in He. rewrite app_nil_r in He.
  assert (c = 125) as ->.
  { destruct (utf8_encode1 c) as [|b k _] eqn:Ec using rev_ind.
    - exfalso. unfold utf8_encode1 in Ec. by repeat case_match.
    - apply (utf8_encode1_brace c k). rewrite Ec. f_equal. rewrite Hl, app_assoc in He.
      by apply app_inj_tail in He as [_ ->]. }
  rewrite rev_app_distr. cbn [rev app trim_start]. change (is_whitespace 125) with false. cbv match.
  change (125 :: rev cs) with (rev [125] ++ rev cs). rewrite <- rev_app_distr, rev_involutive.
  unfold utf8_encode. rewrite map_app, concat_app. cbn [map concat]. by rewrite app_nil_r.
Qed.

Lemma bytes_leb_total a b : bytes_leb a b = true ∨ bytes_leb b a = true.
Proof.
  revert b. induction a as [|x a IH]; intros [|y b]; cbn; auto.
  destruct (N.lt_trichotomy (byte_val x) (byte_val y)) as [Hl|[->%byte_val_inj|Hl]].
  - left. by ltb_to true.
  - rewrite byte_eqb_refl, N.ltb_irrefl. cbn. apply IH.
  - right. by ltb_to true.
Qed.

Lemma bytes_leb_antisym a b : bytes_leb a b = true → bytes_leb b a = true → a = b.
Proof.
  revert b. induction a as [|x a IH]; intros [|y b]; cbn; try done.
  intros [Hx%N.ltb_lt|[->%byte_eqb_eq Ha]%andb_true_iff]%orb_true_iff [Hy%N.ltb_lt|[He%byte_eqb_eq Hb]%andb_true_iff]%orb_true_iff;
    subst; try lia. f_equal. by apply IH.
Qed.
