(* ===== verification/RecordFormat.v ===== *)
(** * The on-disk record format and the typed payload codecs

    [src/src/session/journal/record.rs], [codec.rs] and the checkpoint payload
    codec of [checkpoint.rs].  A record is a 36-byte header followed by its
    payload; all integers are little-endian.  The codecs are proved to be
    inverses on the values the code can hold and to reject everything else. *)

From S2P Require Import Prelude Crc Utf8 Text.

(** ** Constants *)

Definition RECORD_MAGIC : bytes := bs "OJRN".
Definition RECORD_VERSION : N := 1.
Definition HEADER_LEN : N := 4 + 2 + 2 + 4 + 8 + 8 + 4 + 4.
Definition MAX_PAYLOAD_LEN : N := 64 * 1024 * 1024.

(** ** Record kinds *)

Inductive RecordKind :=
  | Output
  | Resize
  | Lifecycle
  | CheckpointRef
  | Policy.

#[export] Instance RecordKind_eq_dec : EqDecision RecordKind.
Proof. solve_decision. Defined.

(** The [repr(u16)] discriminants: [kind as u16]. *)
Definition kind_u16 (k : RecordKind) : N :=
  match k with
  | Output => 1
  | Resize => 2
  | Lifecycle => 3
  | CheckpointRef => 4
  | Policy => 5
  end.

Definition from_u16 (value : N) : option RecordKind :=
  match value with
  | 1 => Some Output
  | 2 => Some Resize
  | 3 => Some Lifecycle
  | 4 => Some CheckpointRef
  | 5 => Some Policy
  | _ => None
  end.

Lemma from_u16_kind k : from_u16 (kind_u16 k) = Some k.
Proof. by destruct k. Qed.

Lemma from_u16_Some v k : from_u16 v = Some k → v = kind_u16 k.
Proof.
  destruct v as [|p]; [done|].
  do 3 try destruct p as [p|p|]; intros [= <-]; reflexivity.
Qed.

(** ** Records *)

Record Rec := mk_record {
  rec_kind : RecordKind;
  rec_seq : N;
  rec_elapsed_ms : N;
  rec_payload : bytes;
}.

#[export] Instance Rec_eq_dec : EqDecision Rec.
Proof. solve_decision. Defined.

(** A record whose fields fit their wire widths, with an admissible payload. *)
Definition rec_wf (r : Rec) : Prop :=
  rec_seq r <= u64_max ∧ rec_elapsed_ms r <= u64_max ∧ len (rec_payload r) <= MAX_PAYLOAD_LEN.

Section Format.
Context `{Crc32Fast}.

(** The header bytes before the checksum field, for any value of the
    reserved flags field. *)
Definition header_prefix (flags : bytes) (kind : RecordKind) (seq elapsed_ms : N)
    (payload : bytes) : bytes :=
  RECORD_MAGIC ++ u16_le RECORD_VERSION ++ u16_le (kind_u16 kind) ++ flags
    ++ u64_le seq ++ u64_le elapsed_ms ++ u32_le (len payload).

(** [flags [8..12] stay zero until a feature needs them.] *)
Definition encode_record_header (kind : RecordKind) (seq elapsed_ms : N)
    (payload : bytes) : bytes :=
  let header := header_prefix (u32_le 0) kind seq elapsed_ms payload in
  header ++ u32_le (crc32_two header payload).

(** The exact bytes of one record as the segment writer lays them out. *)
Definition encode_record (r : Rec) : bytes :=
  encode_record_header (rec_kind r) (rec_seq r) (rec_elapsed_ms r) (rec_payload r)
    ++ rec_payload r.

Definition encode_records (rs : list Rec) : bytes := concat (map encode_record rs).

(** Header plus payload length. *)
Definition rec_len (r : Rec) : N := HEADER_LEN + len (rec_payload r).

(** A record whose reserved flags hold any four bytes: what a reader accepts. *)
Definition encode_record_with (flags : bytes) (r : Rec) : bytes :=
  let header := header_prefix flags (rec_kind r) (rec_seq r) (rec_elapsed_ms r)
    (rec_payload r) in
  (header ++ u32_le (crc32_two header (rec_payload r))) ++ rec_payload r.

Lemma len_header_prefix fl k s e p : length fl = 4%nat → len (header_prefix fl k s e p) = 32.
Proof.
  intros Hf. unfold header_prefix. len_simpl. unfold len at 1 2. by rewrite Hf.
Qed.

Lemma len_encode_header k s e p : len (encode_record_header k s e p) = HEADER_LEN.
Proof. unfold encode_record_header. rewrite len_app, len_header_prefix by done. by len_simpl. Qed.

Lemma len_encode_record r : len (encode_record r) = rec_len r.
Proof. unfold encode_record, rec_len. by rewrite len_app, len_encode_header. Qed.

Lemma encode_records_app a b : encode_records (a ++ b) = encode_records a ++ encode_records b.
Proof. unfold encode_records. by rewrite map_app, concat_app. Qed.

Lemma encode_records_cons r rs : encode_records (r :: rs) = encode_record r ++ encode_records rs.
Proof. done. Qed.

Lemma encode_records_snoc rs r : encode_records (rs ++ [r]) = encode_records rs ++ encode_record r.
Proof. rewrite encode_records_app. f_equal. apply app_nil_r. Qed.

(** *** Reading the header fields back *)

Definition hdr_magic (h : bytes) : bytes := h@[0, 4].
Definition hdr_version (h : bytes) : N := le_value h@[4, 6].
Definition hdr_kind (h : bytes) : N := le_value h@[6, 8].
Definition hdr_seq (h : bytes) : N := le_value h@[12, 20].
Definition hdr_elapsed_ms (h : bytes) : N := le_value h@[20, 28].
Definition hdr_payload_len (h : bytes) : N := le_value h@[28, 32].
Definition hdr_crc (h : bytes) : N := le_value h@[32, 36].

#[local] Lemma slice_skip {A} (l k : list A) i j n :
  len l = n → n <= i → slice i j (l ++ k) = slice (i - n) (j - n) k.
Proof. intros <- ?. by apply slice_app_r. Qed.

Lemma header_fields fl k s e p (pre := header_prefix fl k s e p)
    (h := pre ++ u32_le (crc32_two pre p)) :
  length fl = 4%nat →
  hdr_magic h = RECORD_MAGIC ∧ h@[4, 6] = u16_le RECORD_VERSION ∧ h@[6, 8] = u16_le (kind_u16 k)
  ∧ h@[12, 20] = u64_le s ∧ h@[20, 28] = u64_le e ∧ h@[28, 32] = u32_le (len p)
  ∧ h@[0, 32] = pre ∧ h@[32, 36] = u32_le (crc32_two pre p).
Proof.
  intros Hf. pose proof (len_header_prefix fl k s e p Hf) as Hlen. fold pre in Hlen.
  do 5 (destruct fl as [|? fl]; try discriminate).
  unfold h, hdr_magic.
  split_and!; try (rewrite slice_app_l by lia; reflexivity).
  rewrite (slice_skip _ _ _ _ 32) by lia. by apply slice_all.
Qed.

(** What a reader gets from the header of a well-formed record. *)
Lemma header_values fl r `{!Crc32FastLaws}
    (pre := header_prefix fl (rec_kind r) (rec_seq r) (rec_elapsed_ms r) (rec_payload r))
    (h := pre ++ u32_le (crc32_two pre (rec_payload r))) :
  length fl = 4%nat → rec_wf r →
  hdr_magic h = RECORD_MAGIC ∧ hdr_version h = RECORD_VERSION
  ∧ hdr_kind h = kind_u16 (rec_kind r) ∧ hdr_seq h = rec_seq r
  ∧ hdr_elapsed_ms h = rec_elapsed_ms r ∧ hdr_payload_len h = len (rec_payload r)
  ∧ h@[0, 32] = pre ∧ hdr_crc h = crc32_two pre (rec_payload r).
Proof.
  intros Hf (Hs & He & Hp).
  destruct (header_fields fl (rec_kind r) (rec_seq r) (rec_elapsed_ms r) (rec_payload r) Hf)
    as (Hm & Hv & Hk & Hsq & Hel & Hpl & Hpre & Hcrc).
  fold pre h in Hm, Hv, Hk, Hsq, Hel, Hpl, Hpre, Hcrc.
  unfold hdr_version, hdr_kind, hdr_seq, hdr_elapsed_ms, hdr_payload_len, hdr_crc.
  rewrite Hpre, Hv, Hk, Hsq, Hel, Hpl, Hcrc, crc32_two_of.
  pose proof (Crc32_of_u32 (pre ++ rec_payload r)) as Hu.
  rewrite !le_value_u16, !le_value_u32, !le_value_u64;
    unfold u16_max, u32_max, MAX_PAYLOAD_LEN, RECORD_VERSION in *;
    first [done | lia | by destruct (rec_kind r)].
Qed.

(** Conversely, thirty-six bytes whose fields read back as those of [r] and
    whose checksum matches are the header of [r] with some flags. *)
Lemma header_inv h r `{!Crc32FastLaws} :
  len h = HEADER_LEN → hdr_magic h = RECORD_MAGIC → hdr_version h = RECORD_VERSION →
  hdr_kind h = kind_u16 (rec_kind r) → hdr_seq h = rec_seq r →
  hdr_elapsed_ms h = rec_elapsed_ms r → hdr_payload_len h = len (rec_payload r) →
  hdr_crc h = crc32_two h@[0, 32] (rec_payload r) →
  ∃ fl, length fl = 4%nat ∧ h ++ rec_payload r = encode_record_with fl r.
Proof.
  intros Hl Hm Hv Hk Hs He Hp Hc. exists h@[8, 12].
  assert (length h = 36%nat) as Hlen by (unfold len, HEADER_LEN in Hl; lia).
  do 36 (destruct h as [|? h]; [discriminate|]). destruct h; [|discriminate].
  split; [done|]. unfold encode_record_with, header_prefix. f_equal.
  rewrite <- Hk, <- Hs, <- He, <- Hp. unfold hdr_version in Hv. rewrite <- Hv.
  unfold hdr_kind, hdr_seq, hdr_elapsed_ms, hdr_payload_len, hdr_magic in *. rewrite <- Hm.
  repeat match goal with |- context [le_bytes ?n (le_value ?l)] =>
    replace (le_bytes n (le_value l)) with l
      by (symmetry; exact (le_bytes_value l)) end.
  match type of Hc with hdr_crc ?h = crc32_two ?p _ =>
    match goal with |- context [crc32_two ?q ?r] => change q with p end end.
  rewrite <- Hc. unfold hdr_crc.
  match goal with |- context [le_bytes ?n (le_value ?l)] =>
    replace (le_bytes n (le_value l)) with l by (symmetry; exact (le_bytes_value l)) end.
  reflexivity.
Qed.

Lemma len_encode_with fl r : length fl = 4%nat → len (encode_record_with fl r) = rec_len r.
Proof.
  intros. unfold encode_record_with, rec_len. rewrite !len_app, len_header_prefix by done.
  by len_simpl.
Qed.
End Format.

(** ** Typed payload codecs ([codec.rs]) *)

Definition encode_resize_payload (rows cols : N) : bytes := u16_le rows ++ u16_le cols.

Definition decode_resize_payload (payload : bytes) : option (N * N) :=
  if negb (len payload =? 4) then None
  else
    let rows := le_value payload@[0, 2] in
    let cols := le_value payload@[2, 4] in
    if (0 <? rows) && (0 <? cols) then Some (rows, cols) else None.

(** [format!("{key}={value}")]; [&str] values are UTF-8 byte strings. *)
Definition policy_payload (key value : bytes) : bytes := key ++ bs "=" ++ value.

Definition parse_policy (payload : bytes) : option (bytes * bytes) :=
  _ ← utf8_decode payload;
  '(key, value) ← split_once x3d payload;
  if (len key =? 0) || contains_byte x0a value then None else Some (key, value).

Inductive LifecycleCode :=
  | Started
  | Stopped
  | Killed
  | Failed
  | OutputClosed.

Definition lifecycle_u8 (c : LifecycleCode) : N :=
  match c with
  | Started => 1
  | Stopped => 2
  | Killed => 3
  | Failed => 4
  | OutputClosed => 5
  end.

Definition LifecycleCode_from_u8 (value : N) : option LifecycleCode :=
  match value with
  | 1 => Some Started
  | 2 => Some Stopped
  | 3 => Some Killed
  | 4 => Some Failed
  | 5 => Some OutputClosed
  | _ => None
  end.

(** [i32::to_le_bytes] and [i32::from_le_bytes], in two's complement. *)
Definition i32_min : Z := -2147483648.
Definition i32_le (z : Z) : bytes := u32_le (Z.to_N (z mod 4294967296)).
Definition i32_of_le (l : bytes) : Z :=
  let u := Z.of_N (le_value l) in
  if (u <? 2147483648)%Z then u else (u - 4294967296)%Z.

Definition encode_lifecycle_payload (code : LifecycleCode) (exit_code : option Z)
    (detail : bytes) : bytes :=
  byte_of (lifecycle_u8 code) :: i32_le (default i32_min exit_code) ++ detail.

Definition decode_lifecycle_payload (payload : bytes)
    : option (LifecycleCode * option Z * bytes) :=
  if len payload <? 5 then None
  else
    code ← LifecycleCode_from_u8 (le_value payload@[0, 1]);
    let raw_exit := i32_of_le payload@[1, 5] in
    let exit_code := if (raw_exit =? i32_min)%Z then None else Some raw_exit in
    let detail := drop 5 payload in
    _ ← utf8_decode detail;
    Some (code, exit_code, detail).

(** ** Checkpoint payloads ([checkpoint.rs]) *)

Definition CHECKPOINT_VERSION : N := 2.
Definition CHECKPOINT_MAGIC : bytes := bs "OJCK".

Record Checkpoint := mk_checkpoint {
  cp_rows : N;
  cp_cols : N;
  cp_cursor : N * N;
  cp_alt_screen : bool;
  cp_app_cursor_keys : bool;
  cp_bracketed_paste : bool;
  cp_filtered_offset : N;
  cp_program : bytes;
}.

Definition cp_flags (c : Checkpoint) : N :=
  N.lor (N.lor (N.b2n (cp_alt_screen c)) (N.shiftl (N.b2n (cp_app_cursor_keys c)) 1))
    (N.shiftl (N.b2n (cp_bracketed_paste c)) 2).

Definition encode_checkpoint (c : Checkpoint) : bytes :=
  CHECKPOINT_MAGIC ++ u16_le CHECKPOINT_VERSION ++ u16_le (cp_rows c) ++ u16_le (cp_cols c)
    ++ u16_le (cp_cursor c).1 ++ u16_le (cp_cursor c).2 ++ [byte_of (cp_flags c)]
    ++ u64_le (cp_filtered_offset c) ++ u32_le (len (cp_program c)) ++ cp_program c.

(** The local [take] of [decode_checkpoint]: split [n] bytes off the front. *)
Definition take_bytes (n : N) (payload : bytes) : io_result (bytes * bytes) :=
  if len payload <? n then Err InvalidData
  else Ok (take (N.to_nat n) payload, drop (N.to_nat n) payload).

Definition decode_checkpoint (payload : bytes) : io_result Checkpoint :=
  '(magic, rest) ← take_bytes 4 payload;
  if negb (bool_decide (magic = CHECKPOINT_MAGIC)) then Err InvalidData else
  '(v, rest) ← take_bytes 2 rest;
  let version := le_value v in
  if negb ((1 <=? version) && (version <=? CHECKPOINT_VERSION)) then Err InvalidData else
  '(rows, rest) ← take_bytes 2 rest;
  '(cols, rest) ← take_bytes 2 rest;
  '(cursor_row, rest) ← take_bytes 2 rest;
  '(cursor_col, rest) ← take_bytes 2 rest;
  '(f, rest) ← take_bytes 1 rest;
  let flags := le_value f in
  '(filtered_offset, rest) ←
    (if 2 <=? version then '(o, rest) ← take_bytes 8 rest; Ok (le_value o, rest)
     else Ok (0, rest));
  '(pl, rest) ← take_bytes 4 rest;
  '(program, rest) ← take_bytes (le_value pl) rest;
  if negb (len rest =? 0) then Err InvalidData
  else Ok {|
    cp_rows := le_value rows;
    cp_cols := le_value cols;
    cp_cursor := (le_value cursor_row, le_value cursor_col);
    cp_alt_screen := negb (N.land flags 1 =? 0);
    cp_app_cursor_keys := negb (N.land flags 2 =? 0);
    cp_bracketed_paste := negb (N.land flags 4 =? 0);
    cp_filtered_offset := filtered_offset;
    cp_program := program;
  |}.

(** A checkpoint whose fields fit their Rust types and whose program length
    fits the [u32] length field. *)
Definition cp_wf (c : Checkpoint) : Prop :=
  cp_rows c <= u16_max ∧ cp_cols c <= u16_max ∧ (cp_cursor c).1 <= u16_max
  ∧ (cp_cursor c).2 <= u16_max ∧ cp_filtered_offset c <= u64_max ∧ len (cp_program c) <= u32_max.

(** ** Codec theorems *)

Lemma take_bytes_app n l k : n = len l → take_bytes n (l ++ k) = Ok (l, k).
Proof.
  intros ->. unfold take_bytes. rewrite len_app. ltb_to false.
  by rewrite take_len_app, drop_len_app.
Qed.

Lemma take_bytes_ok n l x y : take_bytes n l = Ok (x, y) → l = x ++ y ∧ len x = n.
Proof.
  unfold take_bytes. case_match; [done|]. intros [= <- <-]. bool_prop.
  rewrite take_drop, len_take. split; [done|lia].
Qed.

Lemma i32_of_le_bytes z : (-2147483648 <= z < 2147483648)%Z → i32_of_le (i32_le z) = z.
Proof.
  intros Hz. unfold i32_of_le, i32_le.
  pose proof (Z.mod_pos_bound z 4294967296 ltac:(lia)).
  rewrite le_value_u32 by (unfold u32_max; lia). rewrite Z2N.id by lia.
  destruct (decide (0 <= z)%Z).
  - rewrite Z.mod_small by lia. replace (z <? 2147483648)%Z with true by lia. done.
  - assert (z mod 4294967296 = z + 4294967296)%Z as ->.
    { rewrite <- (Z.mod_small (z + 4294967296) 4294967296) by lia.
      by rewrite <- Zplus_mod_idemp_r, Z_mod_same_full, Z.add_0_r. }
    replace (z + 4294967296 <? 2147483648)%Z with false by lia. lia.
Qed.

(** The resize payload of a record decodes to the geometry that was encoded. *)
Lemma decode_encode_resize rows cols :
  0 < rows <= u16_max → 0 < cols <= u16_max →
  decode_resize_payload (encode_resize_payload rows cols) = Some (rows, cols).
Proof.
  intros Hr Hc. unfold decode_resize_payload, encode_resize_payload. len_simpl.
  eqb_to true. cbn [negb].
  rewrite slice_app_exact, slice_app_r by (len_simpl; lia).
  rewrite slice_all by (len_simpl; lia). rewrite !le_value_u16 by lia.
  ltb_to true. ltb_to true. done.
Qed.

(** Every policy line [record_policy] accepts parses back to its key and
    value; the key has no [=], the value no newline, both are UTF-8. *)
Lemma parse_policy_payload key value cs :
  key ≠ [] → contains_byte x3d key = false → contains_byte x0a value = false →
  utf8_decode (key ++ bs "=" ++ value) = Some cs →
  parse_policy (policy_payload key value) = Some (key, value).
Proof.
  intros Hk Heq Hnl Hu. unfold parse_policy, policy_payload. rewrite Hu. simpl.
  change (bs "=" ++ value) with (x3d :: value). rewrite split_once_spec by done. simpl.
  destruct key; [done|]. rewrite len_cons. eqb_to false. by rewrite Hnl.
Qed.

Lemma lifecycle_code_roundtrip c : LifecycleCode_from_u8 (lifecycle_u8 c) = Some c.
Proof. by destruct c. Qed.

Lemma decode_encode_lifecycle code exit_code detail cs :
  (∀ z, exit_code = Some z → (-2147483648 < z < 2147483648)%Z) →
  utf8_decode detail = Some cs →
  decode_lifecycle_payload (encode_lifecycle_payload code exit_code detail)
  = Some (code, exit_code, detail).
Proof.
  intros Hz Hu. unfold decode_lifecycle_payload, encode_lifecycle_payload.
  assert (∀ z, len (i32_le z) = 4) as Hlen by (intros; unfold i32_le; by len_simpl).
  rewrite len_cons, len_app, Hlen. ltb_to false.
  assert (∀ l, le_value ((byte_of (lifecycle_u8 code) :: l)@[0, 1]) = lifecycle_u8 code) as ->.
  { intros. unfold slice, le_value; simpl. rewrite byte_val_of. by destruct code. }
  rewrite lifecycle_code_roundtrip. cbn [mbind option_bind].
  assert (∀ x (l : bytes), (x :: l)@[1, 5] = l@[0, 4]) as -> by done.
  rewrite slice_app_exact by (rewrite ?Hlen; done).
  rewrite i32_of_le_bytes.
  2:{ destruct exit_code as [z|]; simpl; [specialize (Hz z eq_refl); lia|done]. }
  replace (drop 5 _) with detail by (symmetry; exact (drop_len_app (i32_le (default i32_min exit_code)) detail 4 eq_refl)).
  rewrite Hu. simpl. destruct exit_code as [z|]; simpl; [|done].
  specialize (Hz z eq_refl). unfold i32_min.
  by replace (z =? -2147483648)%Z with false by lia.
Qed.

(** A checkpoint survives its own encoding. *)
Lemma decode_encode_checkpoint c : cp_wf c → decode_checkpoint (encode_checkpoint c) = Ok c.
Proof.
  intros (Hr & Hc & H1 & H2 & Ho & Hp). unfold decode_checkpoint, encode_checkpoint.
  rewrite take_bytes_app by done. cbn [mbind result_bind].
  rewrite bool_decide_eq_true_2 by done. cbn [negb].
  do 5 (rewrite take_bytes_app by (by rewrite len_le_bytes); cbn [mbind result_bind]).
  rewrite !le_value_u16 by (done || unfold u16_max, CHECKPOINT_VERSION in *; lia). cbn [negb N.leb].
  change (negb ((1 <=? CHECKPOINT_VERSION) && (CHECKPOINT_VERSION <=? CHECKPOINT_VERSION))) with false.
  cbv iota. rewrite take_bytes_app by done. cbn [mbind result_bind].
  change (2 <=? CHECKPOINT_VERSION) with true. cbv iota.
  rewrite take_bytes_app by (by rewrite len_le_bytes). cbn [mbind result_bind].
  rewrite take_bytes_app by (by rewrite len_le_bytes). cbn [mbind result_bind].
  rewrite le_value_u32, le_value_u64 by done.
  rewrite <- (app_nil_r (cp_program c)) at 2.
  rewrite take_bytes_app by done. cbn [mbind result_bind]. simpl.
  destruct c as [r0 c0 [u v] a k b o p]; unfold cp_flags; simpl in *.
  by destruct a, k, b.
Qed.
