(* ===== verification/SegmentScan.v ===== *)
(** * Segment scanning and torn-tail recovery

    [src/src/session/journal/scan.rs].  A segment part is a byte string; a scan
    walks it record by record and stops at the first thing it cannot vouch
    for.  [scan_impl] follows the source's loop statement by statement; the
    lemmas reduce one turn of the loop to decoding one record, from which the
    theorems of the readers and of recovery follow. *)

From S2P Require Import Prelude Crc RecordFormat.

(** ** Data *)

Definition SCAN_HASH_WINDOW : N := 1024 * 1024.
Definition SCAN_INLINE_PAYLOAD_BYTES : N := 64 * 1024.
Definition SPARSE_INDEX_STRIDE_BYTES : N := 1024 * 1024.

Inductive ScanStop :=
  | CleanEof
  | PartialTail
  | InvalidHeader
  | UnsupportedVersion
  | UnknownKind
  | OversizeLength
  | CrcMismatch
  | SequenceDiscontinuity.

#[export] Instance ScanStop_eq_dec : EqDecision ScanStop.
Proof. solve_decision. Defined.

Definition may_rewind (s : ScanStop) : bool :=
  match s with PartialTail => true | _ => false end.

(** Window/budget of a range read ([stream.rs]). *)
Record CollectWindow := mk_window {
  from_seq : N;
  to_seq : N;
  max_buffered_bytes : N;
}.

Inductive ScanMode :=
  | All
  | Window (w : CollectWindow)
  | Index
  | Stats.

Record IndexEntry := mk_index_entry {
  ie_seq : N;
  ie_offset : N;
  ie_record_len : N;
}.

Record ScanStart := mk_start {
  start_offset : N;
  start_seq : N;
}.

(** [ScanResult] with its [ScanOutcome] inlined. *)
Record ScanResult := mk_result {
  sr_records : list Rec;
  sr_valid_len : N;
  sr_stop : ScanStop;
  sr_truncated : bool;
  sr_index : list IndexEntry;
  sr_record_count : N;
  sr_last_seq : option N;
}.

(** The locals of [scan_impl]; [ss_rest] is what the reader has not read. *)
Record ScanState := mk_scan {
  ss_rest : bytes;
  ss_records : list Rec;
  ss_index : list IndexEntry;
  ss_buffered : N;
  ss_truncated : bool;
  ss_offset : N;
  ss_expected : option N;
  ss_count : N;
  ss_last : option N;
}.

(** ** Reading *)

Inductive ReadPiece := Complete | Partial | Empty.

(** Fill a buffer of [n] bytes; returns the piece, the bytes read and the
    unread rest.  Interrupted reads are retried by the source, so the outcome
    only depends on what the file holds. *)
Definition read_exact_or_partial (n : N) (rest : bytes) : ReadPiece * bytes * bytes :=
  if n =? 0 then (Complete, [], rest)
  else if len rest =? 0 then (Empty, [], rest)
  else if len rest <? n then (Partial, rest, [])
  else (Complete, take (N.to_nat n) rest, drop (N.to_nat n) rest).

Section Scan.
Context `{Crc32Fast}.

Inductive HashOutcome :=
  | HashFuel
  | HashTorn
  | HashDone (h : hasher) (rest : bytes).

(** The bounded-scratch CRC loop over a payload of [remaining] bytes. *)
Fixpoint hash_windows (fuel : nat) (remaining : N) (h : hasher) (rest : bytes) : HashOutcome :=
  match fuel with
  | O => HashFuel
  | S fuel =>
      if remaining =? 0 then HashDone h rest
      else
        let want := N.min SCAN_HASH_WINDOW remaining in
        match read_exact_or_partial want rest with
        | (Complete, scratch, rest) =>
            hash_windows fuel (remaining - want) (Crc32_update h scratch) rest
        | _ => HashTorn
        end
  end.

Definition hash_fuel (remaining : N) : nat := S (S (N.to_nat (remaining / SCAN_HASH_WINDOW))).

Inductive PayloadRead :=
  | PayloadFuel
  | PayloadStop (s : ScanStop)
  | PayloadGot (payload rest : bytes).

(** Read one payload: small retained payloads in one read; everything else
    is checksummed through the scratch first and, if retained, re-read from
    [offset + HEADER_LEN] once the checksum has passed. *)
Definition read_payload (file : bytes) (keep : bool) (offset : N) (header rest : bytes)
    : PayloadRead :=
  let payload_len := hdr_payload_len header in
  let stored_crc := hdr_crc header in
  let inline_keep := keep && (payload_len <=? SCAN_INLINE_PAYLOAD_BYTES) in
  let h := Crc32_update Crc32_new header@[0, 32] in
  if inline_keep then
    match read_exact_or_partial payload_len rest with
    | (Complete, payload, rest) =>
        if negb (Crc32_finish (Crc32_update h payload) =? stored_crc)
        then PayloadStop CrcMismatch
        else PayloadGot payload rest
    | _ => PayloadStop PartialTail
    end
  else
    match hash_windows (hash_fuel payload_len) payload_len h rest with
    | HashFuel => PayloadFuel
    | HashTorn => PayloadStop PartialTail
    | HashDone h rest =>
        if negb (Crc32_finish h =? stored_crc) then PayloadStop CrcMismatch
        else if keep then
          match read_exact_or_partial payload_len
                  (drop (N.to_nat (offset + HEADER_LEN)) file) with
          | (Complete, payload, rest) => PayloadGot payload rest
          | _ => PayloadStop PartialTail
          end
        else PayloadGot [] rest
    end.

(** The [stop!] macro. *)
Definition stop_scan (st : ScanState) (truncated : bool) (reason : ScanStop) : ScanResult :=
  {| sr_records := ss_records st; sr_valid_len := ss_offset st; sr_stop := reason;
     sr_truncated := truncated; sr_index := ss_index st;
     sr_record_count := ss_count st; sr_last_seq := ss_last st |}.

(** Record count, last sequence and expectation after an accepted record. *)
Definition note_record (st : ScanState) (seq : N) (rest : bytes) : ScanState :=
  {| ss_rest := rest; ss_records := ss_records st; ss_index := ss_index st;
     ss_buffered := ss_buffered st; ss_truncated := ss_truncated st;
     ss_offset := ss_offset st; ss_expected := Some (u64_add seq 1);
     ss_count := ss_count st + 1; ss_last := Some seq |}.

Definition push_record (st : ScanState) (r : Rec) : ScanState :=
  {| ss_rest := ss_rest st; ss_records := ss_records st ++ [r]; ss_index := ss_index st;
     ss_buffered := ss_buffered st + len (rec_payload r); ss_truncated := ss_truncated st;
     ss_offset := ss_offset st; ss_expected := ss_expected st;
     ss_count := ss_count st; ss_last := ss_last st |}.

Definition push_index (st : ScanState) (e : IndexEntry) : ScanState :=
  {| ss_rest := ss_rest st; ss_records := ss_records st; ss_index := ss_index st ++ [e];
     ss_buffered := ss_buffered st; ss_truncated := ss_truncated st;
     ss_offset := ss_offset st; ss_expected := ss_expected st;
     ss_count := ss_count st; ss_last := ss_last st |}.

Definition advance (st : ScanState) (n : N) : ScanState :=
  {| ss_rest := ss_rest st; ss_records := ss_records st; ss_index := ss_index st;
     ss_buffered := ss_buffered st; ss_truncated := ss_truncated st;
     ss_offset := ss_offset st + n; ss_expected := ss_expected st;
     ss_count := ss_count st; ss_last := ss_last st |}.

(** Past the requested window: nothing beyond it needs validation here. *)
Definition past_window (mode : ScanMode) (seq : N) : bool :=
  match mode with Window w => to_seq w <? seq | _ => false end.

(** The budget stop taken before a payload is read. *)
Definition over_budget (mode : ScanMode) (st : ScanState) (payload_len : N) : bool :=
  match mode with
  | Window w =>
      negb (len (ss_records st) =? 0)
      && (max_buffered_bytes w <? ss_buffered st + payload_len)
  | _ => false
  end.

Definition keeps (mode : ScanMode) (seq : N) : bool :=
  match mode with
  | Window w => from_seq w <=? seq
  | All => true
  | Index => false
  | Stats => false
  end.

Definition index_due (st : ScanState) : bool :=
  match last (ss_index st) with
  | None => true
  | Some e => ie_offset e + SPARSE_INDEX_STRIDE_BYTES <=? ss_offset st
  end.

(** What the mode retains of an accepted record; [inl] when the window's
    byte budget stops the scan after all. *)
Definition collect (mode : ScanMode) (st : ScanState) (r : Rec) (payload_len : N)
    : ScanResult + ScanState :=
  match mode with
  | All => inr (push_record st r)
  | Window w =>
      if from_seq w <=? rec_seq r then
        if negb (len (ss_records st) =? 0)
           && (max_buffered_bytes w <? ss_buffered st + len (rec_payload r))
        then inl (stop_scan st true CleanEof)
        else inr (push_record st r)
      else inr st
  | Index =>
      if index_due st then
        inr (push_index st {| ie_seq := rec_seq r; ie_offset := ss_offset st;
                              ie_record_len := HEADER_LEN + payload_len |})
      else inr st
  | Stats => inr st
  end.

(** One turn of the loop; [None] only if the CRC loop ran out of fuel. *)
Definition scan_step (file : bytes) (mode : ScanMode) (st : ScanState)
    : option (ScanResult + ScanState) :=
  let stop s := Some (inl (stop_scan st (ss_truncated st) s)) in
  match read_exact_or_partial HEADER_LEN (ss_rest st) with
  | (Partial, _, _) => stop PartialTail
  | (Empty, _, _) => stop CleanEof
  | (Complete, header, rest) =>
      if negb (bytes_eqb (hdr_magic header) RECORD_MAGIC) then stop InvalidHeader
      else if negb (hdr_version header =? RECORD_VERSION) then stop UnsupportedVersion
      else match from_u16 (hdr_kind header) with
      | None => stop UnknownKind
      | Some kind =>
          let payload_len := hdr_payload_len header in
          if MAX_PAYLOAD_LEN <? payload_len then stop OversizeLength
          else
            let seq := hdr_seq header in
            if past_window mode seq then stop CleanEof
            else if over_budget mode st payload_len then
              Some (inl (stop_scan st true CleanEof))
            else
              match read_payload file (keeps mode seq) (ss_offset st) header rest with
              | PayloadFuel => None
              | PayloadStop s => stop s
              | PayloadGot payload rest =>
                  if match ss_expected st with
                     | Some expected => negb (seq =? expected)
                     | None => false
                     end
                  then stop SequenceDiscontinuity
                  else
                    let r := {| rec_kind := kind; rec_seq := seq;
                                rec_elapsed_ms := hdr_elapsed_ms header;
                                rec_payload := payload |} in
                    match collect mode (note_record st seq rest) r payload_len with
                    | inl res => Some (inl res)
                    | inr st => Some (inr (advance st (HEADER_LEN + payload_len)))
                    end
              end
      end
  end.

Fixpoint scan_loop (fuel : nat) (file : bytes) (mode : ScanMode) (st : ScanState)
    : option ScanResult :=
  match fuel with
  | O => None
  | S fuel =>
      match scan_step file mode st with
      | None => None
      | Some (inl res) => Some res
      | Some (inr st) => scan_loop fuel file mode st
      end
  end.

Definition initial_scan (file : bytes) (expected_first_seq : option N)
    (start : option ScanStart) : ScanState :=
  {| ss_rest := match start with
                | Some s => drop (N.to_nat (start_offset s)) file
                | None => file
                end;
     ss_records := []; ss_index := []; ss_buffered := 0; ss_truncated := false;
     ss_offset := match start with Some s => start_offset s | None => 0 end;
     ss_expected := match start with
                    | Some s => Some (start_seq s)
                    | None => expected_first_seq
                    end;
     ss_count := 0; ss_last := None |}.

(** Every record takes at least [HEADER_LEN] bytes, so one turn per byte of
    the file (and one for the end) is enough fuel: [scan_impl_total]. *)
Definition scan_impl (file : bytes) (mode : ScanMode) (expected_first_seq : option N)
    (start : option ScanStart) : option ScanResult :=
  scan_loop (S (length file)) file mode (initial_scan file expected_first_seq start).

Record SegmentStats := mk_stats {
  st_records : N;
  st_last_seq : option N;
  st_valid_len : N;
  st_stop : ScanStop;
}.

Definition scan_segment_stats_from (file : bytes) (expected_first_seq : option N)
    : option SegmentStats :=
  res ← scan_impl file Stats expected_first_seq None;
  Some {| st_records := sr_record_count res; st_last_seq := sr_last_seq res;
          st_valid_len := sr_valid_len res; st_stop := sr_stop res |}.

(** [scan_segment]: every record, any first sequence. *)
Definition scan_segment (file : bytes) : option ScanResult :=
  scan_impl file All None None.
End Scan.

(** ** One turn of the loop *)

Section Step.
Context `{Crc32Fast, !Crc32FastLaws}.

Lemma read_complete n rest :
  n <= len rest →
  read_exact_or_partial n rest = (Complete, take (N.to_nat n) rest, drop (N.to_nat n) rest).
Proof.
  intros Hn. unfold read_exact_or_partial.
  destruct (N.eqb_spec n 0) as [->|Hne]; [done|].
  eqb_to false. ltb_to false. done.
Qed.

Lemma read_incomplete n rest :
  len rest < n →
  ∃ p a b, read_exact_or_partial n rest = (p, a, b) ∧ p ≠ Complete ∧ (p = Empty ↔ rest = []).
Proof.
  intros Hn. unfold read_exact_or_partial. eqb_to false.
  destruct (N.eqb_spec (len rest) 0) as [Hz|Hz].
  - exists Empty, [], rest. apply len_0 in Hz. naive_solver.
  - ltb_to true. exists Partial, rest, []. split_and!; [done..|].
    rewrite <- len_0. naive_solver.
Qed.

(** The chunked checksum is the checksum of the whole payload. *)
Lemma hash_windows_spec fuel remaining h rest :
  remaining + SCAN_HASH_WINDOW <= SCAN_HASH_WINDOW * N.of_nat fuel →
  hash_windows fuel remaining h rest =
    if len rest <? remaining then HashTorn
    else HashDone (Crc32_update h (take (N.to_nat remaining) rest))
           (drop (N.to_nat remaining) rest).
Proof.
  unfold Crc32_update. revert remaining h rest.
  induction fuel as [|fuel IH]; intros remaining h rest Hf; [unfold SCAN_HASH_WINDOW in *; lia|].
  cbn [hash_windows]. destruct (N.eqb_spec remaining 0) as [->|Hne].
  { ltb_to false. by rewrite hasher_update_nil. }
  set (want := N.min SCAN_HASH_WINDOW remaining).
  assert (0 < want <= remaining) by (unfold want, SCAN_HASH_WINDOW; lia).
  destruct (decide (want <= len rest)) as [Hle|Hgt].
  - rewrite read_complete by done. rewrite IH.
    2:{ unfold want, SCAN_HASH_WINDOW in *. destruct fuel; lia. }
    rewrite len_drop. destruct (N.ltb_spec (len rest) remaining).
    { by ltb_to true. }
    ltb_to false. unfold Crc32_update. rewrite hasher_update_app, drop_drop. f_equal.
    + f_equal. replace (N.to_nat remaining) with (N.to_nat want + N.to_nat (remaining - want))%nat
        by lia. by rewrite take_take_drop || rewrite <- take_take_drop.
    + f_equal. lia.
  - destruct (read_incomplete want rest) as (p & a & b & -> & Hp & _); [lia|].
    ltb_to true. by destruct p.
Qed.

Lemma read_payload_spec file keep offset header rest :
  (keep = true → rest = drop (N.to_nat (offset + HEADER_LEN)) file) →
  read_payload file keep offset header rest =
    let n := N.to_nat (hdr_payload_len header) in
    if len rest <? hdr_payload_len header then PayloadStop PartialTail
    else if negb (crc32_two header@[0, 32] (take n rest) =? hdr_crc header)
    then PayloadStop CrcMismatch
    else PayloadGot (if keep then take n rest else []) (drop n rest).
Proof.
  intros Hrest. unfold read_payload, crc32_two. set (pl := hdr_payload_len header).
  destruct (keep && (pl <=? SCAN_INLINE_PAYLOAD_BYTES)) eqn:Hi.
  - apply andb_true_iff in Hi as [-> _].
    destruct (N.ltb_spec (len rest) pl) as [Hlt|Hge].
    + destruct (read_incomplete pl rest Hlt) as (p & a & b & -> & Hp & _). by destruct p.
    + by rewrite read_complete.
  - rewrite hash_windows_spec.
    2:{ unfold hash_fuel. pose proof (N.div_mod' pl SCAN_HASH_WINDOW).
        pose proof (N.mod_lt pl SCAN_HASH_WINDOW). unfold SCAN_HASH_WINDOW in *. lia. }
    destruct (N.ltb_spec (len rest) pl) as [Hlt|Hge]; [done|].
    destruct (negb _); [done|]. destruct keep; [|done].
    rewrite <- Hrest by done. by rewrite read_complete.
Qed.

(** The reader sits at the current offset of the file. *)
Definition positioned (file : bytes) (st : ScanState) : Prop :=
  ss_rest st = drop (N.to_nat (ss_offset st)) file.

Lemma positioned_initial file exp start : positioned file (initial_scan file exp start).
Proof. unfold positioned, initial_scan. simpl. by destruct start. Qed.

(** A retained copy of [r] in [mode]. *)
Definition kept (mode : ScanMode) (r : Rec) : Rec :=
  {| rec_kind := rec_kind r; rec_seq := rec_seq r; rec_elapsed_ms := rec_elapsed_ms r;
     rec_payload := if keeps mode (rec_seq r) then rec_payload r else [] |}.

Lemma kept_id mode r : keeps mode (rec_seq r) = true → kept mode r = r.
Proof. intros Hk. unfold kept. rewrite Hk. by destruct r. Qed.

Definition unexpected (st : ScanState) (seq : N) : bool :=
  match ss_expected st with Some expected => negb (seq =? expected) | None => false end.

(** The loop body on a well-formed record at the reader's position. *)
Lemma scan_step_record file mode st fl r rest :
  positioned file st → length fl = 4%nat → rec_wf r →
  ss_rest st = encode_record_with fl r ++ rest →
  scan_step file mode st =
    if past_window mode (rec_seq r) then Some (inl (stop_scan st (ss_truncated st) CleanEof))
    else if over_budget mode st (len (rec_payload r)) then
      Some (inl (stop_scan st true CleanEof))
    else if unexpected st (rec_seq r) then
      Some (inl (stop_scan st (ss_truncated st) SequenceDiscontinuity))
    else
      match collect mode (note_record st (rec_seq r) rest) (kept mode r)
              (len (rec_payload r)) with
      | inl res => Some (inl res)
      | inr st => Some (inr (advance st (rec_len r)))
      end.
Proof.
  intros Hpos Hf Hwf Hrest. unfold scan_step. rewrite Hrest.
  unfold encode_record_with. rewrite <- app_assoc.
  set (pre := header_prefix _ _ _ _ _). set (h := pre ++ _).
  assert (len h = HEADER_LEN) as Hh.
  { unfold h, pre. rewrite len_app, len_header_prefix by done. by len_simpl. }
  rewrite read_complete by (rewrite len_app; lia).
  rewrite take_len_app, drop_len_app by done.
  destruct (header_values fl r Hf Hwf) as (Hm & Hv & Hk & Hs & He & Hp & Hpre & Hc).
  fold pre h in Hm, Hv, Hk, Hs, He, Hp, Hpre, Hc.
  rewrite Hm, Hv, Hk, Hs, He, Hp, from_u16_kind. unfold bytes_eqb.
  rewrite bool_decide_eq_true_2, N.eqb_refl by done. cbn [negb].
  destruct Hwf as (? & ? & Hmax). ltb_to false.
  destruct (past_window _ _); [done|]. destruct (over_budget _ _ _); [done|].
  rewrite read_payload_spec.
  2:{ intros _. unfold positioned in Hpos. rewrite N2Nat.inj_add, <- drop_drop, <- Hpos, Hrest.
      unfold encode_record_with. fold pre. fold h. rewrite <- app_assoc.
      by rewrite drop_len_app. }
  cbv zeta. rewrite Hp, len_app. ltb_to false. rewrite Hpre, Hc, take_len_app, drop_len_app by done.
  rewrite N.eqb_refl. cbn [negb]. done.
Qed.
End Step.

(** ** The reference: decoding one record, and a scan over decoded records

    [decode_record] says what the bytes at a position are, independently of
    any scan mode; [scan_records] is the scan loop with decoding taken out.
    [scan_loop_spec] proves that [scan_impl] is their composition. *)

Section Reference.
Context `{Crc32Fast}.

Definition decode_record (l : bytes) : ScanStop + (bytes * Rec * bytes) :=
  match read_exact_or_partial HEADER_LEN l with
  | (Partial, _, _) => inl PartialTail
  | (Empty, _, _) => inl CleanEof
  | (Complete, header, rest) =>
      if negb (bytes_eqb (hdr_magic header) RECORD_MAGIC) then inl InvalidHeader
      else if negb (hdr_version header =? RECORD_VERSION) then inl UnsupportedVersion
      else match from_u16 (hdr_kind header) with
      | None => inl UnknownKind
      | Some kind =>
          if MAX_PAYLOAD_LEN <? hdr_payload_len header then inl OversizeLength
          else if len rest <? hdr_payload_len header then inl PartialTail
          else
            let n := N.to_nat (hdr_payload_len header) in
            if negb (crc32_two header@[0, 32] (take n rest) =? hdr_crc header)
            then inl CrcMismatch
            else inr (header@[8, 12],
                      {| rec_kind := kind; rec_seq := hdr_seq header;
                         rec_elapsed_ms := hdr_elapsed_ms header;
                         rec_payload := take n rest |},
                      drop n rest)
      end
  end.

(** Flagged records, and their bytes on disk. *)
Abbreviation FRec := (bytes * Rec)%type.

Definition encode_frecs (frs : list FRec) : bytes :=
  concat (map (λ fr, encode_record_with fr.1 fr.2) frs).

Definition frec_wf (fr : FRec) : Prop := length fr.1 = 4%nat ∧ rec_wf fr.2.

Fixpoint scan_records (mode : ScanMode) (tail : bytes) (st : ScanState) (frs : list FRec)
    : ScanResult + ScanState :=
  match frs with
  | [] => inr st
  | (_, r) :: frs =>
      if past_window mode (rec_seq r) then inl (stop_scan st (ss_truncated st) CleanEof)
      else if over_budget mode st (len (rec_payload r)) then inl (stop_scan st true CleanEof)
      else if unexpected st (rec_seq r) then
        inl (stop_scan st (ss_truncated st) SequenceDiscontinuity)
      else
        match collect mode (note_record st (rec_seq r) (encode_frecs frs ++ tail))
                (kept mode r) (len (rec_payload r)) with
        | inl res => inl res
        | inr st => scan_records mode tail (advance st (rec_len r)) frs
        end
  end.

(** Maximal decoding of a byte string. *)
Fixpoint decode_all (fuel : nat) (l : bytes) : list FRec * bytes * ScanStop :=
  match fuel with
  | O => ([], l, PartialTail)
  | S fuel =>
      match decode_record l with
      | inl s => ([], l, s)
      | inr (fl, r, k) =>
          let '(frs, tail, s) := decode_all fuel k in ((fl, r) :: frs, tail, s)
      end
  end.

(** The records of a segment, the undecodable tail and why it is one. *)
Definition decode_segment (l : bytes) : list FRec * bytes * ScanStop :=
  decode_all (S (length l)) l.
End Reference.

Section ReferenceFacts.
Context `{Crc32Fast, !Crc32FastLaws}.
Abbreviation FRec := (bytes * Rec)%type.

Lemma le_value_take n l : le_value (take n l) < 256 ^ N.of_nat n.
Proof.
  eapply N.lt_le_trans; [apply le_value_lt|]. apply N.pow_le_mono_r; [done|].
  rewrite len_take. lia.
Qed.

Lemma slice_value_lt i j l : le_value l@[i, j] < 256 ^ (j - i).
Proof. unfold slice. pose proof (le_value_take (N.to_nat (j - i)) (drop (N.to_nat i) l)) as Hl.
  by rewrite N2Nat.id in Hl. Qed.

Lemma decode_record_inr l fl r k :
  decode_record l = inr (fl, r, k) →
  l = encode_record_with fl r ++ k ∧ length fl = 4%nat ∧ rec_wf r.
Proof.
  unfold decode_record. destruct (decide (HEADER_LEN <= len l)) as [Hle|Hgt].
  2:{ destruct (read_incomplete HEADER_LEN l) as (p & a & b & -> & Hp & _); [lia|].
      by destruct p. }
  rewrite read_complete by done. set (h := take _ l). set (rest := drop _ l).
  assert (len h = HEADER_LEN) as Hh by (unfold h; rewrite len_take; lia).
  destruct (negb (bytes_eqb _ _)) eqn:Hm; [done|].
  destruct (negb (hdr_version h =? _)) eqn:Hv; [done|].
  destruct (from_u16 (hdr_kind h)) as [kind|] eqn:Hk; [|done].
  destruct (MAX_PAYLOAD_LEN <? _) eqn:Hmax; [done|].
  destruct (len rest <? _) eqn:Hlen; [done|].
  destruct (negb (crc32_two _ _ =? _)) eqn:Hcrc; [done|]. intros [= <- <- <-].
  unfold bytes_eqb in Hm. bool_prop. apply from_u16_Some in Hk.
  set (n := N.to_nat (hdr_payload_len h)) in *. set (r := mk_record _ _ _ _).
  assert (len (take n rest) = hdr_payload_len h) as Hpl by (unfold n; rewrite len_take; lia).
  destruct (header_inv h r) as (fl & Hf & Heq); try done.
  assert (fl = h@[8, 12]) as <-.
  { pose proof (f_equal (slice 8 12) Heq) as Hs. rewrite slice_app_l in Hs by (rewrite Hh; done).
    rewrite Hs. unfold encode_record_with. rewrite slice_app_l.
    2:{ rewrite len_app, len_header_prefix by done. by len_simpl. }
    rewrite slice_app_l by (rewrite len_header_prefix; done).
    do 5 (destruct fl as [|? fl]; try discriminate). reflexivity. }
  split_and!; [|done|].
  - rewrite <- Heq. unfold r. simpl. rewrite <- app_assoc, take_drop. unfold h, rest.
    by rewrite take_drop.
  - unfold rec_wf, r. simpl. rewrite Hpl.
    pose proof (slice_value_lt 12 20 h) as H1. pose proof (slice_value_lt 20 28 h) as H2.
    change (256 ^ (20 - 12)) with 18446744073709551616 in H1.
    change (256 ^ (28 - 20)) with 18446744073709551616 in H2.
    unfold hdr_seq, hdr_elapsed_ms, u64_max. lia.
Qed.

Lemma decode_encoded fl r k :
  length fl = 4%nat → rec_wf r → decode_record (encode_record_with fl r ++ k) = inr (fl, r, k).
Proof.
  intros Hf Hwf. unfold decode_record, encode_record_with. rewrite <- app_assoc.
  set (pre := header_prefix _ _ _ _ _). set (h := pre ++ _).
  assert (len h = HEADER_LEN) as Hh.
  { unfold h, pre. rewrite len_app, len_header_prefix by done. by len_simpl. }
  rewrite read_complete by (rewrite len_app; lia).
  rewrite take_len_app, drop_len_app by done.
  destruct (header_values fl r Hf Hwf) as (Hm & Hv & Hk & Hs & He & Hp & Hpre & Hc).
  fold pre h in Hm, Hv, Hk, Hs, He, Hp, Hpre, Hc.
  rewrite Hm, Hv, Hk, Hs, He, Hp, from_u16_kind. unfold bytes_eqb.
  rewrite bool_decide_eq_true_2, N.eqb_refl by done. cbn [negb].
  destruct Hwf as (? & ? & Hmax). ltb_to false. rewrite len_app. ltb_to false.
  rewrite Hpre, Hc, take_len_app, drop_len_app, N.eqb_refl by done. cbn [negb].
  replace (h@[8, 12]) with fl; [by destruct r|].
  unfold h. rewrite slice_app_l by (unfold pre; rewrite len_header_prefix; done).
  unfold pre. do 5 (destruct fl as [|? fl]; try discriminate). reflexivity.
Qed.

(** The loop body on undecodable bytes stops, for the reason [decode_record]
    gives unless the window ends first. *)
Lemma scan_step_stop file mode st s :
  positioned file st → decode_record (ss_rest st) = inl s →
  ∃ t s', scan_step file mode st = Some (inl (stop_scan st t s'))
    ∧ ((t = ss_truncated st ∧ s' = s) ∨ (s' = CleanEof ∧ (∃ w, mode = Window w) ∧ HEADER_LEN <= len (ss_rest st))).
Proof.
  intros Hpos Hd. unfold scan_step, decode_record in *.
  destruct (decide (HEADER_LEN <= len (ss_rest st))) as [Hle|Hgt].
  2:{ destruct (read_incomplete HEADER_LEN (ss_rest st)) as (p & a & b & Hr & Hp & _); [lia|].
      rewrite Hr in *. destruct p; simplify_eq; eauto 10. }
  rewrite read_complete in * by done.
  set (h := take _ (ss_rest st)) in *. set (rest := drop _ (ss_rest st)) in *.
  destruct (negb (bytes_eqb _ _)) eqn:Hm; [simplify_eq; eauto 10|].
  destruct (negb (hdr_version h =? _)) eqn:Hv; [simplify_eq; eauto 10|].
  destruct (from_u16 (hdr_kind h)) as [kind|] eqn:Hk; [|simplify_eq; eauto 10].
  cbv zeta in *. destruct (MAX_PAYLOAD_LEN <? _) eqn:Hmax; [simplify_eq; eauto 10|].
  destruct (past_window _ _) eqn:Hpw.
  { destruct mode; try discriminate. eauto 10. }
  destruct (over_budget _ _ _) eqn:Hob.
  { destruct mode; try discriminate. eauto 10. }
  rewrite read_payload_spec.
  2:{ intros _. unfold positioned in Hpos. unfold rest.
      by rewrite N2Nat.inj_add, <- drop_drop, <- Hpos. }
  cbv zeta. destruct (len rest <? _) eqn:Hlen; [simplify_eq; eauto 10|].
  destruct (negb (crc32_two _ _ =? _)) eqn:Hcrc; [simplify_eq; eauto 10|done].
Qed.

Lemma encode_frecs_cons fr frs :
  encode_frecs (fr :: frs) = encode_record_with fr.1 fr.2 ++ encode_frecs frs.
Proof. done. Qed.

Lemma decode_all_spec fuel l frs tail s :
  (length l < fuel)%nat → decode_all fuel l = (frs, tail, s) →
  l = encode_frecs frs ++ tail ∧ Forall frec_wf frs ∧ decode_record tail = inl s.
Proof.
  revert l frs tail s. induction fuel as [|fuel IH]; intros l frs tail s Hf; [lia|].
  simpl. destruct (decode_record l) as [s'|[[fl r] k]] eqn:Hd.
  - intros [= <- <- <-]. split_and!; [done|constructor|done].
  - destruct (decode_all fuel k) as [[frs' tail'] s'] eqn:Ha. intros [= <- <- <-].
    apply decode_record_inr in Hd as (-> & Hfl & Hwf).
    assert (length k < fuel)%nat as Hk.
    { rewrite length_app in Hf. pose proof (len_encode_with fl r Hfl) as Hl.
      unfold len, rec_len, HEADER_LEN in Hl. lia. }
    destruct (IH _ _ _ _ Hk Ha) as (-> & Hall & Hs). split_and!; [|by constructor; [split|]|done].
    rewrite encode_frecs_cons. by rewrite <- app_assoc.
Qed.

(** Every byte string is a sequence of well-formed records followed by an
    undecodable tail (empty at a clean end). *)
Lemma decode_segment_spec l frs tail s :
  decode_segment l = (frs, tail, s) →
  l = encode_frecs frs ++ tail ∧ Forall frec_wf frs ∧ decode_record tail = inl s.
Proof. apply decode_all_spec. lia. Qed.

Lemma len_encode_frecs_ge frs : Forall frec_wf frs → (length frs <= length (encode_frecs frs))%nat.
Proof.
  induction 1 as [|[fl r] frs [Hfl _] _ IH]; [simpl; lia|].
  rewrite encode_frecs_cons, length_app. cbn [length fst snd] in *.
  pose proof (len_encode_with fl r Hfl) as Hl. unfold len, rec_len, HEADER_LEN in Hl. lia.
Qed.
End ReferenceFacts.

(** ** The scan is the reference *)

Section Refinement.
Context `{Crc32Fast, !Crc32FastLaws}.

(** Skipping a decoded record keeps the reader positioned. *)
Lemma positioned_advance file st fl r rest st' :
  positioned file st → length fl = 4%nat →
  ss_rest st = encode_record_with fl r ++ rest →
  ss_rest st' = rest → ss_offset st' = ss_offset st →
  positioned file (advance st' (rec_len r)).
Proof.
  unfold positioned. intros Hp Hf Hr Hr' Ho. simpl.
  rewrite Ho, N2Nat.inj_add, <- drop_drop, <- Hp, Hr, Hr'.
  rewrite <- (len_encode_with fl r Hf). by rewrite drop_len_app.
Qed.

Lemma collect_frame mode st r n st' :
  collect mode st r n = inr st' →
  ss_rest st' = ss_rest st ∧ ss_offset st' = ss_offset st ∧ ss_truncated st' = ss_truncated st
  ∧ ss_expected st' = ss_expected st ∧ ss_count st' = ss_count st ∧ ss_last st' = ss_last st.
Proof.
  unfold collect. destruct mode; repeat case_match; intros; simplify_eq; done.
Qed.

(** Running the loop over decoded records is [scan_records]. *)
Lemma scan_loop_records frs fuel file mode st tail :
  positioned file st → Forall frec_wf frs → ss_rest st = encode_frecs frs ++ tail →
  scan_loop (length frs + fuel) file mode st =
    match scan_records mode tail st frs with
    | inl res => Some res
    | inr st' => scan_loop fuel file mode st'
    end.
Proof.
  revert st. induction frs as [|[fl r] frs IH]; intros st Hp Hwf Hr; [done|].
  apply Forall_cons in Hwf as [[Hfl Hrwf] Hwf]. cbn [fst snd] in *.
  rewrite encode_frecs_cons, <- app_assoc in Hr. cbn [fst snd] in Hr.
  cbn [length Nat.add scan_loop scan_records].
  rewrite (scan_step_record _ _ _ _ _ _ Hp Hfl Hrwf Hr).
  destruct (past_window _ _); [done|]. destruct (over_budget _ _ _); [done|].
  destruct (unexpected _ _); [done|].
  destruct (collect _ _ _ _) as [res|st'] eqn:Hc; [done|].
  apply collect_frame in Hc as (Hc1 & Hc2 & _).
  apply IH; [|done|by simpl]. by eapply positioned_advance.
Qed.

Lemma scan_records_inr mode tail st frs st' :
  scan_records mode tail st frs = inr st' → ss_rest st = encode_frecs frs ++ tail →
  Forall frec_wf frs → ∀ file, positioned file st → positioned file st' ∧ ss_rest st' = tail.
Proof.
  revert st. induction frs as [|[fl r] frs IH]; intros st; cbn [scan_records].
  { intros [= <-] -> _ file Hp. by split. }
  repeat (case_match; [done|]). rename select (ScanState) into st1.
  intros Hs Hr [[Hfl _] Hwf]%Forall_cons file Hp. cbn [fst snd] in *.
  rename select (collect _ _ _ _ = _) into Hc. apply collect_frame in Hc as (Hc1 & Hc2 & _).
  rewrite encode_frecs_cons, <- app_assoc in Hr.
  eapply IH; [done|by simpl|done|]. by eapply positioned_advance.
Qed.

(** Every scan of every file is the reference scan over the decoded records
    from its start, ended by the undecodable tail if nothing stops it
    earlier.  In particular the scan always returns. *)
Lemma scan_impl_spec file mode exp start frs tail s (st := initial_scan file exp start) :
  decode_segment (ss_rest st) = (frs, tail, s) →
  (∃ res, scan_records mode tail st frs = inl res ∧ scan_impl file mode exp start = Some res)
  ∨ (∃ st' t s', scan_records mode tail st frs = inr st'
     ∧ scan_impl file mode exp start = Some (stop_scan st' t s')
     ∧ ((t = ss_truncated st' ∧ s' = s) ∨ (s' = CleanEof ∧ (∃ w, mode = Window w) ∧ HEADER_LEN <= len tail))).
Proof.
  intros Hd. apply decode_segment_spec in Hd as (Hr & Hwf & Hs).
  pose proof (positioned_initial file exp start) as Hp. fold st in Hp.
  assert (length frs + S (length file - length frs) = S (length file))%nat as Hfuel.
  { pose proof (len_encode_frecs_ge _ Hwf) as Hge.
    pose proof (f_equal length Hp) as Hle. rewrite length_drop in Hle.
    rewrite Hr, length_app in Hle. lia. }
  unfold scan_impl. fold st. rewrite <- Hfuel, (scan_loop_records _ _ _ _ _ _ Hp Hwf Hr).
  destruct (scan_records _ _ _ _) as [res|st'] eqn:Hsr; [by eauto|]. right.
  destruct (scan_records_inr _ _ _ _ _ Hsr Hr Hwf _ Hp) as [Hp' Hrest].
  cbn [scan_loop]. rewrite <- Hrest in Hs.
  destruct (scan_step_stop _ mode _ _ Hp' Hs) as (t & s' & -> & Ht).
  rewrite Hrest in Ht. by exists st', t, s'.
Qed.

Lemma scan_impl_returns file mode exp start : ∃ res, scan_impl file mode exp start = Some res.
Proof.
  destruct (decode_segment (ss_rest (initial_scan file exp start))) as [[frs tail] s] eqn:Hd.
  destruct (scan_impl_spec file mode exp start _ _ _ Hd) as [(res & _ & ->)|(? & ? & ? & _ & -> & _)];
    eauto.
Qed.
End Refinement.

(** ** What a scan returns, in closed form *)

Section Results.
Context `{Crc32Fast, !Crc32FastLaws}.
Abbreviation FRec := (bytes * Rec)%type.

(** The longest prefix of records whose sequences continue [exp]. *)
Fixpoint linked (exp : option N) (frs : list FRec) : list FRec :=
  match frs with
  | [] => []
  | fr :: frs =>
      if match exp with Some e => negb (rec_seq fr.2 =? e) | None => false end then []
      else fr :: linked (Some (u64_add (rec_seq fr.2) 1)) frs
  end.

(** Sequences continue [exp] throughout. *)
Fixpoint chained (exp : option N) (rs : list Rec) : Prop :=
  match rs with
  | [] => True
  | r :: rs =>
      match exp with Some e => rec_seq r = e | None => True end
      ∧ chained (Some (u64_add (rec_seq r) 1)) rs
  end.

Lemma linked_prefix exp frs : linked exp frs `prefix_of` frs.
Proof.
  revert exp. induction frs as [|fr frs IH]; intros exp; cbn [linked]; [done|].
  case_match; [apply prefix_nil|]. by apply prefix_cons.
Qed.

Lemma linked_chained exp frs : chained exp (map snd (linked exp frs)).
Proof.
  revert exp. induction frs as [|fr frs IH]; intros exp; cbn [linked]; [done|].
  case_match eqn:E; [done|]. cbn [map chained]. split; [|apply IH].
  destruct exp; [|done]. by bool_prop.
Qed.

Lemma chained_linked exp frs : chained exp (map snd frs) → linked exp frs = frs.
Proof.
  revert exp. induction frs as [|fr frs IH]; intros exp; cbn [linked]; [done|].
  cbn [map chained]. intros [Hs Hc]. rewrite IH by done.
  destruct exp; [|done]. by rewrite Hs, N.eqb_refl.
Qed.

Lemma chained_app exp a b :
  chained exp (a ++ b) ↔
    chained exp a ∧
    chained (match last a with Some r => Some (u64_add (rec_seq r) 1) | None => exp end) b.
Proof.
  revert exp. induction a as [|r a IH]; intros exp; [simpl; tauto|].
  rewrite last_cons. cbn [app chained]. rewrite IH.
  destruct (last a); tauto.
Qed.

Lemma chained_take exp n rs : chained exp rs → chained exp (take n rs).
Proof. intros Hc. rewrite <- (take_drop n rs) in Hc. by apply chained_app in Hc as [? _]. Qed.

(** What a scan that keeps everything ([All]) or nothing ([Stats]) reports
    after accepting exactly [l]. *)
Definition summary (mode : ScanMode) (st : ScanState) (l : list FRec) (s : ScanStop)
    : ScanResult :=
  {| sr_records := ss_records st ++ match mode with All => map snd l | _ => [] end;
     sr_valid_len := ss_offset st + len (encode_frecs l);
     sr_stop := s;
     sr_truncated := ss_truncated st;
     sr_index := ss_index st;
     sr_record_count := ss_count st + len l;
     sr_last_seq := match last l with Some fr => Some (rec_seq fr.2) | None => ss_last st end |}.

Lemma last_cons_default {A B} (f : A → B) (x : A) l (d : option B) :
  match last (x :: l) with Some y => Some (f y) | None => d end
  = match last l with Some y => Some (f y) | None => Some (f x) end.
Proof. rewrite last_cons. by destruct (last l). Qed.

Lemma scan_records_plain mode tail st frs (l := linked (ss_expected st) frs) :
  mode = All ∨ mode = Stats → Forall frec_wf frs →
  match scan_records mode tail st frs with
  | inl res => l ≠ frs ∧ res = summary mode st l SequenceDiscontinuity
  | inr st' => l = frs ∧ ss_truncated st' = ss_truncated st
               ∧ ∀ s, stop_scan st' (ss_truncated st) s = summary mode st l s
  end.
Proof.
  intros Hm. revert st l. induction frs as [|[fl r] frs IH]; intros st l Hwf.
  { split_and!; [done..|]. intros s. unfold stop_scan, summary, l.
    destruct st, Hm as [-> | ->]; simpl; by rewrite app_nil_r, !N.add_0_r. }
  apply Forall_cons in Hwf as [[Hfl _] Hwf]. cbn [fst snd] in Hfl.
  unfold l. cbn [scan_records linked fst snd].
  replace (past_window mode (rec_seq r)) with false by (by destruct Hm as [-> | ->]).
  replace (over_budget mode st (len (rec_payload r))) with false by (by destruct Hm as [-> | ->]).
  change (match ss_expected st with Some e => negb (rec_seq r =? e) | None => false end)
    with (unexpected st (rec_seq r)).
  destruct (unexpected st (rec_seq r)) eqn:Hu.
  { split; [done|]. unfold stop_scan, summary.
    destruct st, Hm as [-> | ->]; simpl; by rewrite app_nil_r, !N.add_0_r. }
  set (st0 := note_record st (rec_seq r) (encode_frecs frs ++ tail)).
  assert (∃ st1, collect mode st0 (kept mode r) (len (rec_payload r)) = inr st1
    ∧ ss_expected st1 = Some (u64_add (rec_seq r) 1) ∧ ss_truncated st1 = ss_truncated st
    ∧ ∀ l s, summary mode (advance st1 (rec_len r)) l s = summary mode st ((fl, r) :: l) s)
    as (st1 & -> & He & Ht & Hsum).
  { destruct Hm as [-> | ->]; eexists; (split; [done|]);
      (split_and!; [done..|]); intros l' s; unfold summary; simpl;
      rewrite encode_frecs_cons, len_app, len_encode_with, len_cons by done;
      rewrite (last_cons_default (λ fr : FRec, rec_seq fr.2)), <- ?app_assoc;
      cbn [fst snd]; f_equal; try lia.
    all: destruct r; done. }
  specialize (IH (advance st1 (rec_len r))). cbn [advance ss_expected ss_truncated] in IH.
  rewrite He, Ht in IH. specialize (IH Hwf).
  destruct (scan_records _ _ _ _) as [res|st2].
  - destruct IH as [Hne ->]. split; [congruence|]. apply Hsum.
  - destruct IH as (Heq & Ht2 & IH). split_and!; [congruence|done|]. intros s. by rewrite IH, Hsum.
Qed.

(** The closed form of a full scan and of a statistics scan. *)
Lemma scan_impl_plain file mode exp start frs tail s (st := initial_scan file exp start)
    (l := linked (ss_expected st) frs) :
  mode = All ∨ mode = Stats → decode_segment (ss_rest st) = (frs, tail, s) →
  scan_impl file mode exp start =
    Some (summary mode st l (if bool_decide (l = frs) then s else SequenceDiscontinuity)).
Proof.
  intros Hm Hd. pose proof (decode_segment_spec _ _ _ _ Hd) as (_ & Hwf & _).
  pose proof (scan_records_plain mode tail st frs Hm Hwf) as Hp. fold l in Hp.
  destruct (scan_impl_spec file mode exp start _ _ _ Hd) as
    [(res & Hr & ->)|(st' & t & s' & Hr & -> & Ht)]; unfold st, l in *; rewrite Hr in Hp.
  - destruct Hp as [Hne ->]. by rewrite bool_decide_eq_false_2.
  - destruct Hp as (Heq & Htr & Hs). rewrite bool_decide_eq_true_2 by done.
    destruct Ht as [[-> ->]|(_ & [w ->] & _)]; [|by destruct Hm].
    by rewrite Htr, Hs.
Qed.

(** Records written by this code decode to themselves. *)
Lemma decode_all_encoded fuel frs tail s :
  Forall frec_wf frs → decode_record tail = inl s → (length frs < fuel)%nat →
  decode_all fuel (encode_frecs frs ++ tail) = (frs, tail, s).
Proof.
  intros Hwf Hs. revert fuel. induction Hwf as [|[fl r] frs [Hfl Hr] Hwf IH]; intros fuel Hf.
  - destruct fuel; [simpl in Hf; lia|]. cbn [encode_frecs map concat app decode_all]. by rewrite Hs.
  - cbn [length] in Hf. destruct fuel as [|fuel]; [lia|]. cbn [decode_all fst snd] in *.
    rewrite encode_frecs_cons, <- app_assoc, decode_encoded by done. by rewrite IH by lia.
Qed.

Lemma decode_segment_encoded frs tail s :
  Forall frec_wf frs → decode_record tail = inl s →
  decode_segment (encode_frecs frs ++ tail) = (frs, tail, s).
Proof.
  intros Hwf Hs. apply decode_all_encoded; [done..|].
  pose proof (len_encode_frecs_ge _ Hwf). rewrite length_app. lia.
Qed.

(** The writer leaves the flags zero. *)
Definition plain (rs : list Rec) : list FRec := map (λ r, (u32_le 0, r)) rs.

Lemma encode_plain rs : encode_frecs (plain rs) = encode_records rs.
Proof.
  induction rs as [|r rs IH]; [done|].
  unfold plain. cbn [map]. rewrite encode_frecs_cons, encode_records_cons.
  f_equal. apply IH.
Qed.

Lemma plain_wf rs : Forall rec_wf rs → Forall frec_wf (plain rs).
Proof. induction 1; constructor; [by split|done]. Qed.

Lemma snd_plain rs : map snd (plain rs) = rs.
Proof. induction rs; simpl; congruence. Qed.

Lemma decode_nil : decode_record [] = inl CleanEof.
Proof. done. Qed.

(** A strict, nonempty prefix of one record is an incomplete record. *)
Lemma decode_torn r n :
  rec_wf r → 0 < N.of_nat n < rec_len r →
  decode_record (take n (encode_record r)) = inl PartialTail.
Proof.
  intros Hwf Hn. unfold decode_record. pose proof (len_encode_record r) as Hl.
  destruct (decide (N.of_nat n < HEADER_LEN)) as [Hlt|Hge].
  { destruct (read_incomplete HEADER_LEN (take n (encode_record r))) as (p & a & b & -> & Hp & Hi).
    { rewrite len_take. lia. }
    destruct p; [done|done|]. destruct Hi as [Hi _]. specialize (Hi eq_refl).
    apply (f_equal len) in Hi. rewrite len_take, len_nil in Hi. unfold rec_len, HEADER_LEN in *. lia. }
  rewrite read_complete by (rewrite len_take; unfold rec_len in *; lia).
  unfold encode_record. rewrite take_app_ge.
  2:{ pose proof (len_encode_header (rec_kind r) (rec_seq r) (rec_elapsed_ms r) (rec_payload r)).
      unfold len, rec_len in *. lia. }
  set (h := encode_record_header _ _ _ _).
  assert (len h = HEADER_LEN) as Hh by apply len_encode_header.
  rewrite take_len_app, drop_len_app by done.
  destruct (header_values (u32_le 0) r eq_refl Hwf) as (Hm & Hv & Hk & Hs & He & Hp & _).
  change (header_prefix (u32_le 0) (rec_kind r) (rec_seq r) (rec_elapsed_ms r) (rec_payload r)
    ++ u32_le (crc32_two (header_prefix (u32_le 0) (rec_kind r) (rec_seq r) (rec_elapsed_ms r)
      (rec_payload r)) (rec_payload r))) with h in Hm, Hv, Hk, Hs, He, Hp.
  rewrite Hm, Hv, Hk, Hp, from_u16_kind. unfold bytes_eqb.
  rewrite bool_decide_eq_true_2, N.eqb_refl by done. cbn [negb].
  destruct Hwf as (_ & _ & Hmax). ltb_to false.
  rewrite len_take. unfold rec_len in Hn. unfold len in Hh.
  replace (_ <? _) with true; [done|]. symmetry. apply N.ltb_lt. lia.
Qed.
End Results.

(** ** Windowed scans *)

Section Windows.
Context `{Crc32Fast, !Crc32FastLaws}.
Abbreviation FRec := (bytes * Rec)%type.

(** Payload bytes a list of records buffers. *)
Fixpoint payload_bytes (rs : list Rec) : N :=
  match rs with [] => 0 | r :: rs => len (rec_payload r) + payload_bytes rs end.

Lemma payload_bytes_app a b : payload_bytes (a ++ b) = payload_bytes a + payload_bytes b.
Proof. induction a; simpl; lia. Qed.

Definition in_window (w : CollectWindow) (r : Rec) : bool :=
  (from_seq w <=? rec_seq r) && (rec_seq r <=? to_seq w).

(** The records a window scan keeps of [rs], starting with [acc] buffered:
    [true] when the budget ended it, with the records not reached. *)
Fixpoint window_fill (w : CollectWindow) (acc : list Rec) (rs : list Rec)
    : list Rec * bool * list Rec :=
  match rs with
  | [] => (acc, false, [])
  | r :: rs' =>
      if to_seq w <? rec_seq r then (acc, false, rs)
      else if negb (len acc =? 0)
              && (max_buffered_bytes w <? payload_bytes acc + len (rec_payload r))
      then (acc, true, rs)
      else window_fill w (if from_seq w <=? rec_seq r then acc ++ [r] else acc) rs'
  end.

(** Sequences count up by one from [e], below the wrap-around. *)
Definition counting (e : N) (rs : list Rec) : Prop :=
  map rec_seq rs = seqN e (length rs) ∧ e + len rs <= u64_max.

Lemma counting_cons e r rs :
  counting e (r :: rs) ↔ rec_seq r = e ∧ e + 1 + len rs <= u64_max ∧ counting (e + 1) rs.
Proof.
  unfold counting. rewrite len_cons. cbn [map length seqN]. split.
  - intros [[= ? ?] ?]. split_and!; [done|lia|done|lia].
  - intros (-> & ? & -> & ?). split; [done|lia].
Qed.

Lemma counting_chained e rs : counting e rs → chained (Some e) rs.
Proof.
  revert e. induction rs as [|r rs IH]; intros e; [done|].
  rewrite counting_cons. intros (Hs & ? & Hc). cbn [chained]. split; [done|].
  rewrite Hs, u64_add_small by lia. by apply IH.
Qed.

Lemma counting_app e a b : counting e (a ++ b) ↔ counting e a ∧ counting (e + len a) b.
Proof.
  revert e. induction a as [|r a IH]; intros e.
  - cbn [app]. rewrite len_nil, N.add_0_r. split; [|tauto].
    intros Hc. split; [|done]. split; [done|]. destruct Hc as [_ ?]. rewrite len_nil. lia.
  - rewrite <- app_comm_cons, !counting_cons, IH, len_app, len_cons.
    replace (e + 1 + len a) with (e + (len a + 1)) by lia.
    split; [intuition lia|]. intros [(? & ? & ?) Hb]. pose proof (proj2 Hb). intuition lia.
Qed.

Lemma counting_last e rs r : counting e rs → last rs = Some r → rec_seq r + 1 = e + len rs.
Proof.
  intros Hc (rs' & ->)%last_Some. apply counting_app in Hc as [_ Hc].
  apply counting_cons in Hc as (-> & _). len_simpl. lia.
Qed.

Lemma scan_records_window w tail frs st e :
  counting e (map snd frs) → Forall frec_wf frs →
  ss_expected st = None ∨ ss_expected st = Some e →
  ss_buffered st = payload_bytes (ss_records st) →
  let '(kept, more, rest) := window_fill w (ss_records st) (map snd frs) in
  match scan_records (Window w) tail st frs with
  | inl res => sr_records res = kept ∧ sr_truncated res = (more || ss_truncated st)
               ∧ sr_stop res = CleanEof
  | inr st' => ss_records st' = kept ∧ ss_truncated st' = ss_truncated st ∧ more = false
               ∧ rest = []
  end.
Proof.
  revert st e. induction frs as [|[fl r] frs IH]; intros st e Hc Hwf He Hb; [done|].
  cbn [map snd] in *. apply counting_cons in Hc as (Hs & Hmax & Hc).
  apply Forall_cons in Hwf as [[Hfl _] Hwf].
  cbn [scan_records window_fill past_window over_budget]. rewrite Hb.
  destruct (to_seq w <? rec_seq r) eqn:Hto; [done|].
  destruct (negb _ && _) eqn:Hbud; [done|].
  replace (unexpected st (rec_seq r)) with false.
  2:{ unfold unexpected. destruct He as [-> | ->]; [done|]. by rewrite Hs, N.eqb_refl. }
  set (st0 := note_record _ _ _). unfold collect. cbn [kept rec_seq].
  destruct (from_seq w <=? rec_seq r) eqn:Hfrom.
  - rewrite kept_id by done. change (ss_records st0) with (ss_records st).
    change (ss_buffered st0) with (ss_buffered st). rewrite Hb, Hbud.
    specialize (IH (advance (push_record st0 r) (rec_len r)) (e + 1) Hc Hwf).
    apply IH; cbn; [right; rewrite u64_add_small by lia; by rewrite Hs|].
    rewrite payload_bytes_app, Hb. simpl. lia.
  - specialize (IH (advance st0 (rec_len r)) (e + 1) Hc Hwf).
    apply IH; cbn; [right; rewrite u64_add_small by lia; by rewrite Hs|done].
Qed.

(** What [window_fill] keeps: the window's records of a prefix, within the
    budget unless it is one oversized record, and everything in the window
    unless it says there is more. *)
Lemma window_fill_spec w e acc rs kept more rest :
  counting e rs → window_fill w acc rs = (kept, more, rest) →
  ∃ pre, rs = pre ++ rest ∧ kept = acc ++ filter (in_window w) pre
    ∧ (more = false → filter (in_window w) rest = [])
    ∧ (more = true → kept ≠ [])
    ∧ (payload_bytes acc <= max_buffered_bytes w ∨ length acc = 1%nat →
       payload_bytes kept <= max_buffered_bytes w ∨ length kept = 1%nat).
Proof.
  revert e acc. induction rs as [|r rs IH]; intros e acc Hc; cbn [window_fill].
  { intros [= <- <- <-]. exists []. change (filter _ []) with (@nil Rec). rewrite !app_nil_r.
    by split_and!. }
  apply counting_cons in Hc as (Hs & Hmax & Hc).
  destruct (to_seq w <? rec_seq r) eqn:Hto.
  { intros [= <- <- <-]. exists []. change (filter _ []) with (@nil Rec). rewrite app_nil_r.
    split_and!; [done..| |done|done].
    intros _. bool_prop. clear IH.
    assert (∀ x, x ∈ r :: rs → to_seq w < rec_seq x) as Hbig.
    { intros x [->|Hx]%elem_of_cons; [done|]. destruct Hc as [Hc _].
      apply (list_elem_of_fmap_2 rec_seq) in Hx. change (rec_seq <$> rs) with (map rec_seq rs) in Hx.
      rewrite Hc in Hx. apply elem_of_seqN in Hx. lia. }
    revert Hbig. generalize (r :: rs). induction l as [|x l IHl]; intros Hbig; [done|].
    rewrite filter_cons. pose proof (Hbig x ltac:(constructor)).
    assert (in_window w x = false) as -> by (unfold in_window; apply andb_false_iff; right; apply N.leb_gt; lia).
    simpl. apply IHl. intros y Hy. apply Hbig. by constructor. }
  destruct (negb _ && _) eqn:Hbud.
  { intros [= <- <- <-]. exists []. change (filter _ []) with (@nil Rec). rewrite app_nil_r. bool_prop.
    split_and!; [done..| |tauto]. intros _ ->. done. }
  intros Hf. destruct (IH _ _ Hc Hf) as (pre & -> & Hk & Hfalse & Htrue & Hbound).
  exists (r :: pre). split_and!; [done| |done|done|].
  - rewrite Hk, filter_cons.
    assert (in_window w r = (from_seq w <=? rec_seq r)) as ->
      by (unfold in_window; bool_prop; leb_to true; apply andb_true_r).
    destruct (from_seq w <=? rec_seq r); simpl; [by rewrite <- app_assoc|done].
  - intros Ha. apply Hbound. destruct (from_seq w <=? rec_seq r); [|done].
    apply andb_false_iff in Hbud as [Hz|Hle].
    + bool_prop. apply len_0 in Hz as ->. by right.
    + bool_prop. left. rewrite payload_bytes_app. simpl. lia.
Qed.
End Windows.

(** ** Theorems *)

Section Theorems.
Context `{Crc32Fast, !Crc32FastLaws}.

(** [stop] is the reason the bytes after the valid prefix give. *)
Definition stop_justified (exp : option N) (rs : list Rec) (tail : bytes) (stop : ScanStop)
    : Prop :=
  match stop with
  | SequenceDiscontinuity =>
      ∃ fl r k, tail = encode_record_with fl r ++ k ∧ rec_wf r ∧ ¬ chained exp (rs ++ [r])
  | stop => decode_record tail = inl stop
  end.

(** The records of a scan are the first [n] decoded ones. *)
Lemma linked_stop exp frs tail s (l := linked exp frs) :
  Forall frec_wf frs → decode_record tail = inl s → s ≠ SequenceDiscontinuity →
  ∃ rest, encode_frecs frs ++ tail = encode_frecs l ++ rest
    ∧ stop_justified exp (map snd l) rest
        (if bool_decide (l = frs) then s else SequenceDiscontinuity).
Proof.
  intros Hwf Hs Hne. destruct (linked_prefix exp frs) as [k Hk]. fold l in Hk.
  exists (encode_frecs k ++ tail). split.
  { rewrite Hk. unfold encode_frecs. by rewrite map_app, concat_app, <- app_assoc. }
  case_bool_decide as Heq.
  - assert (k = []) as ->.
    { rewrite Heq in Hk. rewrite <- (app_nil_r frs) in Hk at 1. by apply app_inv_head in Hk. }
    simpl. destruct s; done.
  - destruct k as [|[fl r] k]; [by rewrite app_nil_r in Hk|].
    assert (rec_wf r) as Hr.
    { rewrite Hk in Hwf. apply Forall_app in Hwf as [_ [[_ Hr] _]%Forall_cons]. done. }
    exists fl, r, (encode_frecs k ++ tail). split_and!; [|done|].
    + rewrite encode_frecs_cons. by rewrite <- app_assoc.
    + unfold l in *. clear -Hk. revert exp Hk. induction frs as [|fr frs IH]; intros exp;
        cbn [linked]; [done|]. case_match eqn:E; cbn [app map chained].
      * intros [= -> ->]. cbn [snd] in E. destruct exp as [e|]; [|done].
        intros [Hc _]. rewrite Hc, N.eqb_refl in E. done.
      * intros [= Hk] [_ Hc]. by eapply IH.
Qed.

Lemma decode_record_not_discontinuity l : decode_record l ≠ inl SequenceDiscontinuity.
Proof.
  unfold decode_record, read_exact_or_partial.
  repeat (case_match; simplify_eq/=; try done).
Qed.

(** Scanning any byte string returns, and what it returns is exactly
    right: the records are the decodings of consecutive stretches of the
    file, in order and with consecutive sequences; the valid length is the
    length of those stretches; and the stop reason is the one the first
    byte after them gives (incomplete record, bad magic, version, kind,
    length or checksum, a break in the sequence, or a clean end). *)
Theorem scan_segment_sound file :
  ∃ res frs tail, scan_segment file = Some res
    ∧ file = encode_frecs frs ++ tail ∧ Forall frec_wf frs
    ∧ sr_records res = map snd frs ∧ chained None (map snd frs)
    ∧ sr_valid_len res = len (encode_frecs frs)
    ∧ stop_justified None (map snd frs) tail (sr_stop res).
Proof.
  destruct (decode_segment file) as [[frs tail] s] eqn:Hd.
  pose proof (decode_segment_spec _ _ _ _ Hd) as (Hf & Hwf & Hs).
  unfold scan_segment. rewrite (scan_impl_plain file All None None frs tail s) by auto.
  cbn [initial_scan ss_expected]. set (l := linked None frs).
  destruct (linked_stop None frs tail s Hwf Hs) as (rest & Hr & Hj).
  { intros ->. by apply (decode_record_not_discontinuity tail). }
  eexists _, l, rest. split; [done|]. split_and!; [by etrans| | | | |done].
  - destruct (linked_prefix None frs) as [k Hk]. rewrite Hk in Hwf. by apply Forall_app in Hwf as [? _].
  - done.
  - apply linked_chained.
  - simpl. lia.
Qed.

(** Any prefix of a written segment is a written prefix of its records, the
    longest that fits, and an incomplete record. *)
Lemma torn_split rs n :
  Forall rec_wf rs → n <= len (encode_records rs) →
  ∃ k tail s, take (N.to_nat n) (encode_records rs) = encode_records (take k rs) ++ tail
    ∧ len (encode_records (take k rs)) + len tail = n
    ∧ decode_record tail = inl s
    ∧ s = (if len tail =? 0 then CleanEof else PartialTail)
    ∧ (∀ j, len (encode_records (take j rs)) <= n → (length (take j rs) <= length (take k rs))%nat).
Proof.
  intros Hwf Hn. revert n Hn. induction Hwf as [|r rs Hr Hwf IH]; intros n Hn.
  { exists 0%nat, [], CleanEof. change (n <= 0) in Hn. split_and!; [cbn; by rewrite take_nil|change (0 = n); lia|done|done|].
    intros j _. rewrite take_nil. simpl. lia. }
  rewrite encode_records_cons, len_app, len_encode_record in Hn.
  destruct (decide (rec_len r <= n)) as [Hle|Hgt].
  - destruct (IH (n - rec_len r)) as (k & tail & s & Heq & Hlen & Hs & Hs' & Hmax); [lia|].
    exists (S k), tail, s. cbn [take]. rewrite !encode_records_cons, len_app, len_encode_record.
    split_and!; [|lia|done|done|].
    + rewrite take_app_ge.
      2:{ pose proof (len_encode_record r) as Hlr. unfold len in *. lia. }
      replace (N.to_nat n - length (encode_record r))%nat with (N.to_nat (n - rec_len r)).
      2:{ pose proof (len_encode_record r) as Hlr. unfold len in *. lia. }
      by rewrite Heq, <- app_assoc.
    + intros [|j]; [simpl; lia|]. cbn [take length].
      rewrite encode_records_cons, len_app, len_encode_record. intros Hj.
      specialize (Hmax j). lia.
  - assert (∀ j, len (encode_records (take j (r :: rs))) <= n → length (take j (r :: rs)) = 0%nat)
      as Hj.
    { intros [|j]; [done|]. cbn [take]. rewrite encode_records_cons, len_app, len_encode_record. lia. }
    exists 0%nat, (take (N.to_nat n) (encode_records (r :: rs))). eexists.
    rewrite encode_records_cons, take_app_le.
    2:{ pose proof (len_encode_record r) as Hlr. unfold len in Hlr. lia. }
    rewrite len_take, len_encode_record. change (encode_records (take 0 _)) with (@nil byte).
    rewrite len_nil. split_and!; [done|lia| |done|].
    + destruct (N.eqb_spec (N.min (N.of_nat (N.to_nat n)) (rec_len r)) 0).
      * replace (N.to_nat n) with 0%nat by lia. done.
      * apply decode_torn; [done|lia].
    + intros j Hle. rewrite (Hj j Hle). simpl. lia.
Qed.

(** C16: Torn-tail recovery. Whatever prefix of a written segment survives a
    crash, a scan recovers exactly the records that survived whole, its
    valid length is where the last of them ends, and it stops with a clean
    end if the cut is on a record boundary and with a rewindable partial
    tail otherwise: never with a reason that reports corruption. *)
Theorem scan_torn_segment rs n :
  Forall rec_wf rs → chained None rs → n <= len (encode_records rs) →
  ∃ k res, scan_segment (take (N.to_nat n) (encode_records rs)) = Some res
    ∧ sr_records res = take k rs ∧ sr_valid_len res = len (encode_records (take k rs))
    ∧ sr_valid_len res <= n
    ∧ (∀ j, len (encode_records (take j rs)) <= n → (length (take j rs) <= length (take k rs))%nat)
    ∧ sr_stop res = (if sr_valid_len res =? n then CleanEof else PartialTail).
Proof.
  intros Hwf Hc Hn.
  destruct (torn_split rs n Hwf Hn) as (k & tail & s & Heq & Hlen & Hs & -> & Hmax).
  exists k. rewrite Heq, <- encode_plain.
  assert (Forall frec_wf (plain (take k rs))) as Hwk by (by apply plain_wf, Forall_take).
  unfold scan_segment. rewrite (scan_impl_plain _ All None None (plain (take k rs)) tail _)
    by first [by left | by apply decode_segment_encoded].
  cbn [initial_scan ss_expected].
  rewrite chained_linked by (rewrite snd_plain; by apply chained_take).
  rewrite bool_decide_eq_true_2 by done. eexists. split; [done|]. simpl.
  rewrite snd_plain, encode_plain. split_and!; [done|done|lia|done|].
  rewrite N.add_0_l.
  destruct (N.eqb_spec (len tail) 0), (N.eqb_spec (len (encode_records (take k rs))) n); try done; lia.
Qed.

(** A windowed scan of a written segment returns the window's records of
    a prefix of the segment, in order; it buffers at most the byte budget
    unless it returns a single oversized record; if it does not report
    truncation no record of the window is missing, and if it does it has
    made progress. *)
Theorem window_scan_spec w e rs :
  Forall rec_wf rs → counting e rs →
  ∃ res pre rest, scan_impl (encode_records rs) (Window w) None None = Some res
    ∧ rs = pre ++ rest ∧ sr_records res = filter (in_window w) pre ∧ sr_stop res = CleanEof
    ∧ (payload_bytes (sr_records res) <= max_buffered_bytes w ∨ length (sr_records res) = 1%nat)
    ∧ (sr_truncated res = false → filter (in_window w) rest = [])
    ∧ (sr_truncated res = true → sr_records res ≠ []).
Proof.
  intros Hwf Hc. rewrite <- encode_plain. pose proof (plain_wf _ Hwf) as Hfwf.
  assert (decode_segment (encode_frecs (plain rs)) = (plain rs, [], CleanEof)) as Hd.
  { rewrite <- (app_nil_r (encode_frecs _)). by apply decode_segment_encoded. }
  set (file := encode_frecs (plain rs)) in *.
  destruct (window_fill w [] rs) as [[kept more] rest] eqn:Hf.
  destruct (window_fill_spec w e [] rs kept more rest Hc Hf) as (pre & Hpre & Hk & Hno & Hyes & Hb).
  pose proof (scan_records_window w [] (plain rs) (initial_scan file None None) e) as Hsw.
  rewrite snd_plain in Hsw. specialize (Hsw Hc Hfwf (or_introl eq_refl) eq_refl).
  change (ss_records (initial_scan _ _ _)) with (@nil Rec) in Hsw.
  change (ss_truncated (initial_scan _ _ _)) with false in Hsw.
  rewrite Hf, orb_false_r in Hsw.
  assert (payload_bytes [] <= max_buffered_bytes w ∨ @length Rec [] = 1%nat) as Hstart by (left; simpl; lia).
  destruct (scan_impl_spec file (Window w) None None _ _ _ Hd) as
    [(res & Hr & ->)|(st' & t & s' & Hr & -> & Ht)].
  - rewrite Hr in Hsw. destruct Hsw as (Hrec & Htr & Hst).
    exists res, pre, rest. rewrite Hrec, Htr. split_and!; auto.
  - rewrite Hr in Hsw. destruct Hsw as (Hrec & Htr & -> & ->).
    exists (stop_scan st' t s'), pre, []. cbn [stop_scan sr_records sr_truncated sr_stop].
    rewrite Hrec, app_nil_r in *. split_and!; auto.
    + by destruct Ht as [[_ ->]|[-> _]].
    + destruct Ht as [[-> _]|(_ & _ & Hl)]; [intros; congruence|]. rewrite len_nil in Hl. unfold HEADER_LEN in Hl. lia.
Qed.
End Theorems.

(** ** Witnesses *)

Definition sample_records : list Rec :=
  [ mk_record Output 7 0 (bs "abc"); mk_record Resize 8 5 (encode_resize_payload 24 80);
    mk_record Output 9 9 (bs "defg") ].

Lemma sample_records_wf : Forall rec_wf sample_records.
Proof. repeat constructor; by vm_compute. Qed.

Lemma scan_segment_sound_witness :
  ∃ res frs tail, scan_segment (bs "not a journal") = Some res
    ∧ bs "not a journal" = encode_frecs frs ++ tail ∧ Forall frec_wf frs
    ∧ sr_records res = map snd frs ∧ chained None (map snd frs)
    ∧ sr_valid_len res = len (encode_frecs frs)
    ∧ stop_justified None (map snd frs) tail (sr_stop res).
Proof. exact (scan_segment_sound (bs "not a journal")). Defined.

Lemma scan_torn_segment_witness :
  ∃ k res, scan_segment (take (N.to_nat 90) (encode_records sample_records)) = Some res
    ∧ sr_records res = take k sample_records
    ∧ sr_valid_len res = len (encode_records (take k sample_records))
    ∧ sr_valid_len res <= 90
    ∧ (∀ j, len (encode_records (take j sample_records)) <= 90 →
         (length (take j sample_records) <= length (take k sample_records))%nat)
    ∧ sr_stop res = (if sr_valid_len res =? 90 then CleanEof else PartialTail).
Proof.
  apply (scan_torn_segment sample_records 90); [apply sample_records_wf| |by vm_compute].
  by vm_compute.
Defined.

Lemma window_scan_spec_witness :
  ∃ res pre rest, scan_impl (encode_records sample_records) (Window (mk_window 8 9 4)) None None
      = Some res
    ∧ sample_records = pre ++ rest
    ∧ sr_records res = filter (in_window (mk_window 8 9 4)) pre ∧ sr_stop res = CleanEof
    ∧ (payload_bytes (sr_records res) <= 4 ∨ length (sr_records res) = 1%nat)
    ∧ (sr_truncated res = false → filter (in_window (mk_window 8 9 4)) rest = [])
    ∧ (sr_truncated res = true → sr_records res ≠ []).
Proof.
  apply (window_scan_spec (mk_window 8 9 4) 7); [apply sample_records_wf|].
  split; by vm_compute.
Defined.
