(* ===== verification/Disk.v ===== *)
(** * The journal directory

    [src/src/session/journal/segment.rs], the part listing of [stream.rs] and
    [sync_dir] of [open.rs].  A journal directory maps file names to contents;
    segment parts are the files whose names [parse_segment_name] accepts.
    Code that writes the directory runs in the monad [disk], which threads the
    directory and logs every durable step in order, so that a crash can be
    placed between any two of them.  Device errors are not injected here: the
    operations fail exactly for the reasons the directory's contents give. *)

From S2P Require Import Prelude Crc Text RecordFormat SegmentScan.

(** ** Names *)

Definition SEGMENT_PREFIX : bytes := bs "seg-".
Definition SEGMENT_SUFFIX : bytes := bs ".ojrn".
Definition MANIFEST_FILE_NAME : bytes := bs "manifest.log".
Definition DEFAULT_SEGMENT_MAX_BYTES : N := 64 * 1024 * 1024.

(** The file name of [segment_path]. *)
Definition segment_path (incarnation part : N) : bytes :=
  SEGMENT_PREFIX ++ show_padded 8 incarnation ++ bs "-" ++ show_padded 4 part ++ SEGMENT_SUFFIX.

Definition parse_segment_name (name : bytes) : option (N * N) :=
  rest ← strip_prefix SEGMENT_PREFIX name;
  rest ← strip_suffix SEGMENT_SUFFIX rest;
  '(incarnation, part) ← split_once x2d rest;
  i ← parse_unsigned u64_max incarnation;
  p ← parse_unsigned u64_max part;
  Some (i, p).

(** ** The directory *)

#[export] Instance byte_countable : Countable byte.
Proof. apply (inj_countable Byte.to_N Byte.of_N). intros b. apply Byte.of_to_N. Defined.

Abbreviation Dir :=
  (@gmap bytes (@list_eq_dec byte byte_eq_dec) (@list_countable byte byte_eq_dec byte_countable) bytes).

(** One step that changes the directory. *)
Inductive DiskOp :=
  | Create (name : bytes)
  | Remove (name : bytes)
  | Truncate (name : bytes) (n : N)
  | Append (name data : bytes)
  | SyncData (name : bytes)
  | SyncDir.

Definition exec_op (d : Dir) (op : DiskOp) : Dir :=
  match op with
  | Create name => <[name := []]> d
  | Remove name => delete name d
  | Truncate name n => alter (take (N.to_nat n)) name d
  | Append name data => <[name := default [] (d !! name) ++ data]> d
  | SyncData _ | SyncDir => d
  end.

Definition exec (d : Dir) (ops : list DiskOp) : Dir := foldl exec_op d ops.

(** ** The monad: directory in, steps taken, result *)

Definition disk (A : Type) : Type := Dir → list DiskOp * io_result A.

#[export] Instance disk_ret : MRet disk := λ A a d, ([], Ok a).
#[export] Instance disk_bind : MBind disk := λ A B k m d,
  match m d with
  | (ops, Ok a) => let '(ops', r) := k a (exec d ops) in (ops ++ ops', r)
  | (ops, Err e) => (ops, Err e)
  end.

Definition fail {A} (e : io_error_kind) : disk A := λ d, ([], Err e).
Definition reads {A} (f : Dir → io_result A) : disk A := λ d, ([], f d).
Definition step (op : DiskOp) : disk unit := λ d, ([op], Ok ()).

(** [std::fs] as the source uses it. *)
Definition fs_read (name : bytes) : disk bytes := reads (λ d, ok_or (d !! name) NotFound).
Definition remove_file (name : bytes) : disk unit :=
  _ ← fs_read name; step (Remove name).
Definition set_len (name : bytes) (n : N) : disk unit :=
  _ ← fs_read name; step (Truncate name n).
Definition sync_dir : disk unit := step SyncDir.

(** [create_new(true)]: an existing file is an error. *)
Definition create_new (name : bytes) : disk unit :=
  exists_ ← reads (λ d, Ok (bool_decide (is_Some (d !! name))));
  if exists_ : bool then fail Other else step (Create name).

(** [for x in l { body(x)? }]. *)
Fixpoint for_each {A} (l : list A) (body : A → disk unit) : disk unit :=
  match l with
  | [] => mret ()
  | x :: l => body x ≫= λ _, for_each l body
  end.

(** ** Listing *)

Definition pair_le (a b : N * N) : Prop := a.1 < b.1 ∨ (a.1 = b.1 ∧ a.2 <= b.2).

#[export] Instance pair_le_dec a b : Decision (pair_le a b).
Proof. unfold pair_le. apply _. Defined.
#[export] Instance pair_le_total : Total pair_le.
Proof. intros [a b] [c d]. unfold pair_le. cbn. lia. Qed.
#[export] Instance pair_le_trans : Transitive pair_le.
Proof. intros [a b] [c d] [e f]. unfold pair_le. cbn. lia. Qed.
#[export] Instance pair_le_refl : Reflexive pair_le.
Proof. intros [a b]. unfold pair_le. cbn. lia. Qed.

(** The file names, in the (unspecified) order the directory yields them. *)
Definition names (d : Dir) : list bytes := (map_to_list d).*1.

Definition list_segments (d : Dir) : list (N * N) :=
  merge_sort pair_le (omap parse_segment_name (names d)).

(** [Vec::dedup]: consecutive duplicates. *)
Fixpoint dedup (l : list N) : list N :=
  match l with
  | x :: l' =>
      match l' with
      | y :: _ => if x =? y then dedup l' else x :: dedup l'
      | [] => [x]
      end
  | [] => []
  end.

Definition list_incarnations (d : Dir) : list N := dedup (map fst (list_segments d)).

Definition part_first_seq (name : bytes) (d : Dir) : io_result (option N) :=
  file ← ok_or (d !! name) NotFound;
  match read_exact_or_partial HEADER_LEN file with
  | (Empty, _, _) => Ok None
  | (Partial, _, _) => Err InvalidData
  | (Complete, header, _) =>
      if negb (bytes_eqb (hdr_magic header) RECORD_MAGIC) then Err InvalidData
      else Ok (Some (hdr_seq header))
  end.

(** ** Facts about names *)

Lemma parse_segment_path i p :
  i <= u64_max → p <= u64_max → parse_segment_name (segment_path i p) = Some (i, p).
Proof.
  intros Hi Hp. unfold parse_segment_name, segment_path.
  rewrite strip_prefix_app. cbn [mbind option_bind].
  rewrite !app_assoc, strip_suffix_app. cbn [mbind option_bind].
  rewrite <- app_assoc. change (bs "-" ++ show_padded 4 p) with (x2d :: show_padded 4 p).
  rewrite split_once_spec.
  2:{ apply digits_no_byte; [apply show_padded_digits|done]. }
  cbn [mbind option_bind]. rewrite !parse_show_padded by done. done.
Qed.

Lemma segment_path_inj i p j q :
  i <= u64_max → p <= u64_max → j <= u64_max → q <= u64_max →
  segment_path i p = segment_path j q → i = j ∧ p = q.
Proof.
  intros Hi Hp Hj Hq Heq. pose proof (parse_segment_path i p Hi Hp) as H1.
  rewrite Heq, parse_segment_path in H1 by done. by injection H1.
Qed.

Arguments segment_path : simpl never.

Lemma manifest_not_segment : parse_segment_name MANIFEST_FILE_NAME = None.
Proof. by vm_compute. Qed.

Lemma dec_value_bound max acc l n : acc <= max → dec_value max acc l = Some n → n <= max.
Proof.
  revert acc. induction l as [|b l IH]; intros acc Ha; cbn [dec_value]; [by intros [= <-]|].
  destruct (is_ascii_digit b); [|done]. cbv zeta. destruct (_ <=? max) eqn:E; [|done].
  bool_prop. by apply IH.
Qed.

Lemma parse_unsigned_bound max l n : parse_unsigned max l = Some n → n <= max.
Proof.
  unfold parse_unsigned. destruct l as [|b l]; [done|].
  destruct (b =b x2b); [destruct l; [done|]|]; apply dec_value_bound; lia.
Qed.

Lemma parse_segment_name_bound n i p : parse_segment_name n = Some (i, p) → i <= u64_max ∧ p <= u64_max.
Proof.
  unfold parse_segment_name. intros (r & _ & H)%bind_Some. apply bind_Some in H as (r' & _ & H).
  apply bind_Some in H as ([a b] & _ & H). apply bind_Some in H as (x & Hx & H).
  apply bind_Some in H as (y & Hy & [= <- <-]). split; by eapply parse_unsigned_bound.
Qed.

(** Every segment file has the name this code would give it. *)
Definition canonical (d : Dir) : Prop :=
  ∀ name i p, is_Some (d !! name) → parse_segment_name name = Some (i, p) → name = segment_path i p.

Lemma elem_of_names d n : n ∈ names d ↔ is_Some (d !! n).
Proof.
  unfold names. rewrite list_elem_of_fmap. split.
  - intros ([k v] & -> & Hk). apply elem_of_map_to_list in Hk. by exists v.
  - intros [v Hv]. exists (n, v). split; [done|]. by apply elem_of_map_to_list.
Qed.

Lemma elem_of_list_segments d i p :
  (i, p) ∈ list_segments d ↔ ∃ n, is_Some (d !! n) ∧ parse_segment_name n = Some (i, p).
Proof.
  unfold list_segments. rewrite merge_sort_Permutation, list_elem_of_omap.
  split; intros (n & Hn & Hp); exists n; (split; [by apply elem_of_names|done]).
Qed.

Lemma elem_of_canonical d i p :
  canonical d → (i, p) ∈ list_segments d ↔ i <= u64_max ∧ p <= u64_max ∧ is_Some (d !! segment_path i p).
Proof.
  intros Hc. rewrite elem_of_list_segments. split.
  - intros (n & Hn & Hp). destruct (parse_segment_name_bound _ _ _ Hp) as [Hi Hq].
    rewrite (Hc n i p Hn Hp) in Hn. done.
  - intros (Hi & Hq & Hn). exists (segment_path i p). split; [done|]. by apply parse_segment_path.
Qed.

Lemma list_segments_sorted d : Sorted pair_le (list_segments d).
Proof. apply Sorted_merge_sort, _. Qed.

Lemma list_segments_strongly_sorted d : StronglySorted pair_le (list_segments d).
Proof. apply Sorted_StronglySorted; [apply _|apply list_segments_sorted]. Qed.

Lemma sorted_last_max (l : list (N * N)) x y :
  StronglySorted pair_le l → last l = Some x → y ∈ l → pair_le y x.
Proof.
  induction 1 as [|z l Hl IH Hz]; [done|]. rewrite last_cons. intros Hlast Hy.
  destruct (last l) as [x'|] eqn:E.
  - injection Hlast as <-. apply elem_of_cons in Hy as [->|Hy]; [|by apply IH].
    rewrite Forall_forall in Hz. apply Hz. apply last_Some in E as [l' ->].
    apply elem_of_app. right. by left.
  - injection Hlast as <-. apply last_None in E as ->.
    apply list_elem_of_singleton in Hy as ->. done.
Qed.

Lemma list_segments_last d x y :
  last (list_segments d) = Some x → y ∈ list_segments d → pair_le y x.
Proof. apply sorted_last_max, list_segments_strongly_sorted. Qed.

Lemma elem_of_dedup x l : x ∈ dedup l ↔ x ∈ l.
Proof.
  induction l as [|a l IH]; [done|]. cbn [dedup]. destruct l as [|b l]; [done|].
  destruct (N.eqb_spec a b) as [->|Hne].
  - rewrite IH. rewrite !elem_of_cons. tauto.
  - rewrite elem_of_cons, IH. by rewrite (elem_of_cons _ x a).
Qed.

Lemma elem_of_list_incarnations d i :
  i ∈ list_incarnations d ↔ ∃ p, (i, p) ∈ list_segments d.
Proof.
  unfold list_incarnations. rewrite elem_of_dedup, list_elem_of_fmap. split.
  - intros ([j p] & -> & Hj). by exists p.
  - intros (p & Hp). by exists (i, p).
Qed.

Lemma dedup_last l : last (dedup l) = last l.
Proof.
  induction l as [|a l IH]; [done|]. cbn [dedup]. destruct l as [|b l]; [done|].
  destruct (a =? b); [by rewrite IH|]. rewrite last_cons, IH. rewrite (last_cons a).
  by destruct (last (b :: l)).
Qed.

(** The incarnation no other is above is the one listed last. *)
Lemma newest_listed d i p :
  canonical d → i <= u64_max → p <= u64_max → is_Some (d !! segment_path i p) →
  (∀ j q, j <= u64_max → q <= u64_max → is_Some (d !! segment_path j q) → j <= i) →
  last (list_incarnations d) = Some i.
Proof.
  intros Hc Hi Hp Hs Htop. unfold list_incarnations. rewrite dedup_last.
  assert ((i, p) ∈ list_segments d) as Hin by by apply elem_of_canonical.
  change (map fst (list_segments d)) with (fst <$> list_segments d). rewrite fmap_last.
  destruct (last (list_segments d)) as [[j q]|] eqn:El.
  2:{ apply last_None in El. rewrite El in Hin. by apply elem_of_nil in Hin. }
  pose proof (list_segments_last d _ _ El Hin) as Hle. unfold pair_le in Hle. cbn in Hle |- *. f_equal.
  assert ((j, q) ∈ list_segments d) as Hjq by (apply last_Some in El as [l ->]; apply elem_of_app; right; by left).
  apply elem_of_canonical in Hjq as (Hj & Hq & Hs'); [|done]. pose proof (Htop j q Hj Hq Hs'). lia.
Qed.

Lemma list_segments_nodup d : canonical d → NoDup (list_segments d).
Proof.
  intros Hc. unfold list_segments. rewrite merge_sort_Permutation.
  assert (∀ l, NoDup l → (∀ n, n ∈ l → is_Some (d !! n)) → NoDup (omap parse_segment_name l)) as Hl.
  { induction l as [|n l IH]; intros Hn Hin; [constructor|]. apply NoDup_cons in Hn as [Hni Hn].
    assert (NoDup (omap parse_segment_name l)) as Hrec by (apply IH; [done|]; intros; apply Hin; by right).
    cbn [omap list_omap]. destruct (parse_segment_name n) as [[i p]|] eqn:E; [|done].
    apply NoDup_cons. split; [|done]. intros (n' & Hn' & E')%list_elem_of_omap.
    apply Hni. rewrite (Hc n i p), <- (Hc n' i p); try done; apply Hin; [by right|by left]. }
  apply Hl; [apply NoDup_fst_map_to_list|]. intros n. by apply elem_of_names.
Qed.

(** ** Facts about the monad *)

Lemma exec_app d a b : exec d (a ++ b) = exec (exec d a) b.
Proof. apply foldl_app. Qed.

Lemma disk_bind_ok {A B} (m : disk A) (k : A → disk B) d ops b :
  (m ≫= k) d = (ops, Ok b) →
  ∃ o1 a o2, m d = (o1, Ok a) ∧ k a (exec d o1) = (o2, Ok b) ∧ ops = o1 ++ o2.
Proof.
  unfold mbind, disk_bind. destruct (m d) as [o1 [a|e]]; [|done].
  destruct (k a (exec d o1)) as [o2 r] eqn:E. intros [= <- ->]. eauto 10.
Qed.

Lemma disk_bind_intro {A B} (m : disk A) (k : A → disk B) d o1 a o2 r :
  m d = (o1, Ok a) → k a (exec d o1) = (o2, r) → (m ≫= k) d = (o1 ++ o2, r).
Proof. unfold mbind, disk_bind. intros -> ->. done. Qed.

Lemma fs_read_some name d v : d !! name = Some v → fs_read name d = ([], Ok v).
Proof. unfold fs_read, reads. by intros ->. Qed.

(** ** Reasoning about disk computations

    [wp m d P]: what holds of the final directory and result.  [traced m d P]:
    what holds of every step [m] takes, in the directory it is taken in; since
    a crash keeps a prefix of the steps, it says what a crash can leave. *)

Definition wp {A : Type} (m : disk A) (d : Dir) (P : Dir → io_result A → Prop) : Prop :=
  P (exec d (m d).1) (m d).2.

Fixpoint trace_ok (P : Dir → DiskOp → Prop) (d : Dir) (ops : list DiskOp) : Prop :=
  match ops with
  | [] => True
  | op :: ops => P d op ∧ trace_ok P (exec_op d op) ops
  end.

Definition traced {A : Type} (P : Dir → DiskOp → Prop) (m : disk A) (d : Dir) : Prop :=
  trace_ok P d (m d).1.

Lemma wp_mono {A : Type} (m : disk A) (d : Dir) (P Q : Dir → io_result A → Prop) :
  wp m d P → (∀ d r, P d r → Q d r) → wp m d Q.
Proof. unfold wp. eauto. Qed.

Lemma wp_ret {A : Type} (a : A) (d : Dir) (P : Dir → io_result A → Prop) : P d (Ok a) → wp (mret a) d P.
Proof. done. Qed.

Lemma wp_bind {A B : Type} (m : disk A) (k : A → disk B) (d : Dir) (P : Dir → io_result B → Prop) :
  wp m d (λ d r, match r with Ok a => wp (k a) d P | Err e => P d (Err e) end) →
  wp (m ≫= k) d P.
Proof.
  unfold wp, mbind, disk_bind. destruct (m d) as [o1 [a|e]]; cbn [fst snd]; [|done].
  destruct (k a (exec d o1)) as [o2 r]. cbn [fst snd]. by rewrite exec_app.
Qed.

Lemma wp_reads {A : Type} (f : Dir → io_result A) (d : Dir) (P : Dir → io_result A → Prop) :
  P d (f d) → wp (reads f) d P.
Proof. done. Qed.

Lemma wp_step op (d : Dir) (P : Dir → io_result unit → Prop) : P (exec_op d op) (Ok ()) → wp (step op) d P.
Proof. done. Qed.

Lemma wp_remove_file name (d : Dir) c (P : Dir → io_result unit → Prop) :
  d !! name = Some c → P (delete name d) (Ok ()) → wp (remove_file name) d P.
Proof. intros Hd HP. apply wp_bind, wp_reads. by rewrite Hd. Qed.

Lemma wp_for_each {A : Type} (l : list A) (body : A → disk unit) (d : Dir) (I : list A → Dir → Prop)
    (P : Dir → io_result unit → Prop) :
  I l d →
  (∀ x l' d, I (x :: l') d → wp (body x) d (λ d r, match r with Ok _ => I l' d | Err e => P d (Err e) end)) →
  (∀ d, I [] d → P d (Ok ())) →
  wp (for_each l body) d P.
Proof.
  intros HI Hb Hnil. revert d HI. induction l as [|x l IH]; intros d HI; [by apply Hnil|].
  cbn [for_each]. apply wp_bind. eapply wp_mono; [by apply Hb|]. intros d' [[]|e]; eauto.
Qed.

Lemma trace_ok_app P (d : Dir) a b : trace_ok P d (a ++ b) ↔ trace_ok P d a ∧ trace_ok P (exec d a) b.
Proof.
  revert d. induction a as [|op a IH]; intros d; cbn [app trace_ok]; [tauto|].
  rewrite IH. change (exec d (op :: a)) with (exec (exec_op d op) a). tauto.
Qed.

Lemma traced_bind {A B : Type} (P : Dir → DiskOp → Prop) (m : disk A) (k : A → disk B) (d : Dir) :
  traced P m d →
  (∀ a, (m d).2 = Ok a → traced P (k a) (exec d (m d).1)) →
  traced P (m ≫= k) d.
Proof.
  unfold traced, mbind, disk_bind. destruct (m d) as [o1 [a|e]]; cbn [fst snd]; [|done].
  intros Ho Hk. specialize (Hk a eq_refl). destruct (k a (exec d o1)) as [o2 r]. cbn [fst snd] in *.
  by apply trace_ok_app.
Qed.

Lemma traced_reads {A B : Type} (P : Dir → DiskOp → Prop) (f : Dir → io_result A) (k : A → disk B) (d : Dir) :
  (∀ a, f d = Ok a → traced P (k a) d) → traced P (reads f ≫= k) d.
Proof. intros Hk. by apply traced_bind. Qed.

Lemma traced_step P op (d : Dir) : P d op → traced P (step op) d.
Proof. done. Qed.

Lemma traced_for_each {A : Type} (P : Dir → DiskOp → Prop) (l : list A) (body : A → disk unit) (d : Dir) (I : Dir → Prop) :
  I d →
  (∀ x d, x ∈ l → I d → traced P (body x) d ∧ I (exec d (body x d).1)) →
  traced P (for_each l body) d ∧ I (exec d (for_each l body d).1).
Proof.
  intros HI. revert d HI. induction l as [|x l IH]; intros d HI Hb; [done|].
  destruct (Hb x d ltac:(by left) HI) as [Ht Hi].
  assert (∀ y d, y ∈ l → I d → traced P (body y) d ∧ I (exec d (body y d).1)) as Hb'.
  { intros y d' Hy. apply Hb. by right. }
  destruct (IH _ Hi Hb') as [Ht' Hi']. cbn [for_each]. split.
  - apply traced_bind; [done|]. by intros [] _.
  - unfold mbind, disk_bind. destruct (body x d) as [o1 [[]|e]]; cbn [fst] in *; [|done].
    destruct (for_each l body (exec d o1)) as [o2 r]. cbn [fst] in *. by rewrite exec_app.
Qed.

Lemma reads_bind {A B : Type} (f : Dir → io_result A) (k : A → disk B) (d : Dir) a :
  f d = Ok a → (reads f ≫= k) d = k a d.
Proof.
  intros Hf. unfold mbind, disk_bind, reads. rewrite Hf. cbn. by destruct (k a d).
Qed.
