(* ===== verification/Manifest.v ===== *)
(** * The sealed-part manifest

    [src/src/session/journal/manifest.rs].  [manifest.log] holds one JSON line
    per sealed part and per retired incarnation.  JSON encoding is the
    third-party crate [serde_json], so it is the class [ManifestSerde] with
    the behaviour the code relies on as [ManifestSerdeLaws]; everything around
    it (appending, line splitting, reading, verification) is modelled. *)

From S2P Require Import Prelude Crc Utf8 Text RecordFormat SegmentScan Disk.

(** ** Data *)

Record SegmentManifestEntry := mk_entry {
  me_incarnation : N;
  me_part : N;
  me_first_seq : N;
  me_last_seq : N;
  me_bytes : N;
  me_crc32 : N;
}.

#[export] Instance SegmentManifestEntry_eq_dec : EqDecision SegmentManifestEntry.
Proof. solve_decision. Defined.

Inductive ManifestLine :=
  | Sealed (e : SegmentManifestEntry)
  | Retired (incarnation : N).

#[export] Instance ManifestLine_eq_dec : EqDecision ManifestLine.
Proof. solve_decision. Defined.

(** Fields within their Rust types. *)
Definition entry_wf (e : SegmentManifestEntry) : Prop :=
  me_incarnation e <= u64_max ∧ me_part e <= u64_max ∧ me_first_seq e <= u64_max
  ∧ me_last_seq e <= u64_max ∧ me_bytes e <= u64_max ∧ me_crc32 e <= u32_max.

Definition line_wf (l : ManifestLine) : Prop :=
  match l with Sealed e => entry_wf e | Retired i => i <= u64_max end.

(** [serde_json::to_vec] and [serde_json::from_str] on [ManifestLine]. *)
Class ManifestSerde := {
  json_to_vec : ManifestLine → bytes;
  json_from_str : bytes → option ManifestLine;
}.

(** One line of printable ASCII that parses back. *)
Class ManifestSerdeLaws `{ManifestSerde} : Prop := {
  json_roundtrip l : line_wf l → json_from_str (json_to_vec l) = Some l;
  json_printable l : forallb (in_byte_range x20 x7e) (json_to_vec l) = true;
  json_not_blank l : ∃ b, b ∈ json_to_vec l ∧ b ≠ x20;
}.

(** ** Reading *)

(** [str::lines]: pieces ended by a newline lose a carriage return; an
    unterminated last piece counts if it is not empty. *)
Definition strip_cr (l : bytes) : bytes := default l (strip_suffix [x0d] l).

Definition lines (text : bytes) : list bytes :=
  let pieces := split_on x0a text in
  let tail := List.last pieces [] in
  map strip_cr (removelast pieces) ++ (if len tail =? 0 then [] else [tail]).

Definition blank (line : bytes) : bool := len (trim line) =? 0.

Section Manifest.
Context `{ManifestSerde}.

(** [.map(from_str).collect::<io::Result<_>>()]. *)
Fixpoint parse_lines (l : list bytes) : io_result (list ManifestLine) :=
  match l with
  | [] => Ok []
  | line :: l =>
      x ← ok_or (json_from_str line) InvalidData;
      xs ← parse_lines l;
      Ok (x :: xs)
  end.

Definition read_manifest_lines (d : Dir) : io_result (list ManifestLine) :=
  match d !! MANIFEST_FILE_NAME with
  | None => Ok []
  | Some text =>
      if utf8_valid text then parse_lines (filter (λ l, negb (blank l)) (lines text))
      else Err InvalidData
  end.

Definition sealed_of (l : ManifestLine) : option SegmentManifestEntry :=
  match l with Sealed e => Some e | Retired _ => None end.
Definition retired_of (l : ManifestLine) : option N :=
  match l with Retired i => Some i | Sealed _ => None end.

Definition read_manifest (d : Dir) : io_result (list SegmentManifestEntry) :=
  ls ← read_manifest_lines d; Ok (omap (M:=list) sealed_of ls).

Definition retired_incarnations (d : Dir) : io_result (gset N) :=
  ls ← read_manifest_lines d; Ok (list_to_set (omap (M:=list) retired_of ls)).

(** ** Writing *)

Definition append_manifest_line (line : ManifestLine) : disk unit :=
  _ ← step (Append MANIFEST_FILE_NAME (json_to_vec line ++ [x0a]));
  step (SyncData MANIFEST_FILE_NAME).

Definition SegmentManifestEntry_append_to (e : SegmentManifestEntry) : disk unit :=
  append_manifest_line (Sealed e).
Definition RetiredIncarnation_append_to (i : N) : disk unit := append_manifest_line (Retired i).

(** ** Verification *)

Inductive Issue :=
  | ManifestUnreadable (e : io_error_kind)
  | DuplicateEntry (incarnation part : N)
  | PartUnreadable (incarnation part : N)
  | LengthMismatch (incarnation part actual manifest : N)
  | CrcMismatchIssue (incarnation part manifest actual : N)
  | LeftoverRetired (incarnation part : N)
  | Unmanifested (incarnation part : N).

(** The first loop: duplicates reported, sealed entries and tombstones
    collected. *)
Record Sorted_lines := mk_sorted {
  v_issues : list Issue;
  v_seen : gset (N * N);
  v_retired : gset N;
  v_sealed : list SegmentManifestEntry;
}.

Definition sort_line (s : Sorted_lines) (l : ManifestLine) : Sorted_lines :=
  match l with
  | Sealed e =>
      let key := (me_incarnation e, me_part e) in
      if bool_decide (key ∈ v_seen s) then
        mk_sorted (v_issues s ++ [DuplicateEntry (me_incarnation e) (me_part e)])
          (v_seen s) (v_retired s) (v_sealed s)
      else mk_sorted (v_issues s) ({[key]} ∪ v_seen s) (v_retired s) (v_sealed s ++ [e])
  | Retired i => mk_sorted (v_issues s) (v_seen s) ({[i]} ∪ v_retired s) (v_sealed s)
  end.

Context `{Crc32Fast}.

Definition check_sealed (d : Dir) (e : SegmentManifestEntry) : list Issue :=
  let i := me_incarnation e in let p := me_part e in
  match d !! segment_path i p with
  | None => [PartUnreadable i p]
  | Some content =>
      if negb (len content =? me_bytes e) then [LengthMismatch i p (len content) (me_bytes e)]
      else
        let crc := Crc32_of content in
        if negb (crc =? me_crc32 e) then [CrcMismatchIssue i p (me_crc32 e) crc] else []
  end.

Definition check_on_disk (seen : gset (N * N)) (retired : gset N) (active_tail : option (N * N))
    (ip : N * N) : list Issue :=
  if bool_decide (ip.1 ∈ retired) then [LeftoverRetired ip.1 ip.2]
  else if negb (bool_decide (ip ∈ seen)) && negb (bool_decide (Some ip = active_tail))
  then [Unmanifested ip.1 ip.2]
  else [].

Definition verify_manifest (d : Dir) : list Issue :=
  match read_manifest_lines d with
  | Err e => [ManifestUnreadable e]
  | Ok ls =>
      let s := foldl sort_line (mk_sorted [] ∅ ∅ []) ls in
      let segments := list_segments d in
      v_issues s
      ++ concat (map (check_sealed d)
           (filter (λ e, negb (bool_decide (me_incarnation e ∈ v_retired s))) (v_sealed s)))
      ++ concat (map (check_on_disk (v_seen s) (v_retired s) (last segments)) segments)
  end.
End Manifest.

(** ** Reading what was written *)

Section Roundtrip.
Context `{ManifestSerde, !ManifestSerdeLaws}.

(** The manifest text of a list of lines. *)
Definition manifest_text (ls : list ManifestLine) : bytes :=
  concat (map (λ l, json_to_vec l ++ [x0a]) ls).

Lemma split_on_app c a b :
  existsb (λ x, x =b c) a = false → split_on c (a ++ c :: b) = a :: split_on c b.
Proof.
  induction a as [|x a IH]; cbn [existsb app split_on]; [by rewrite byte_eqb_refl|].
  intros [Hx Ha]%orb_false_iff. rewrite Hx. by rewrite (IH Ha).
Qed.

Lemma printable_no c l :
  forallb (in_byte_range x20 x7e) l = true → in_byte_range x20 x7e c = false →
  existsb (λ x, x =b c) l = false.
Proof.
  intros Hl Hc. induction l as [|b l IH]; [done|]. cbn [forallb existsb] in *.
  apply andb_true_iff in Hl as [Hb Hl]. rewrite (IH Hl), orb_false_r.
  apply byte_eqb_neq. intros ->. congruence.
Qed.

Lemma strip_suffix_none s l x : last l = Some x → x ≠ s → strip_suffix [s] l = None.
Proof.
  intros (l' & ->)%last_Some Hx. unfold strip_suffix. rewrite rev_app_distr. cbn.
  unfold strip_prefix. cbn. replace (s =b x) with false; [done|].
  symmetry. apply byte_eqb_neq. congruence.
Qed.

Lemma strip_cr_printable l : forallb (in_byte_range x20 x7e) l = true → strip_cr l = l.
Proof.
  intros Hl. unfold strip_cr. destruct (last l) as [x|] eqn:E.
  - rewrite (strip_suffix_none _ _ x E); [done|]. intros ->. apply last_Some in E as [l' ->].
    rewrite forallb_app in Hl. apply andb_true_iff in Hl as [_ Hl]. by vm_compute in Hl.
  - apply last_None in E as ->. done.
Qed.

Lemma json_pieces ls :
  split_on x0a (manifest_text ls) = map json_to_vec ls ++ [[]].
Proof.
  induction ls as [|l ls IH]; [done|]. cbn [manifest_text map concat]. rewrite <- app_assoc.
  cbn [app]. rewrite split_on_app by (eapply printable_no; [apply json_printable|done]).
  unfold manifest_text in IH. by rewrite IH.
Qed.

Lemma lines_manifest ls : lines (manifest_text ls) = map json_to_vec ls.
Proof.
  unfold lines. rewrite json_pieces, removelast_last, last_last. cbn. rewrite app_nil_r.
  induction ls as [|l ls IH]; [done|]. cbn [map]. rewrite IH.
  by rewrite strip_cr_printable by apply json_printable.
Qed.

Lemma printable_ascii l :
  forallb (in_byte_range x20 x7e) l = true → forallb (λ b, byte_val b <? 128) l = true.
Proof.
  rewrite !forallb_forall. intros Hl x Hx. apply Hl in Hx. unfold in_byte_range in Hx.
  apply andb_true_iff in Hx as [_ Hx]. apply N.leb_le in Hx. apply N.ltb_lt.
  change (byte_val x7e) with 126 in Hx. lia.
Qed.

Lemma trim_start_none {A} (p : A → bool) l x : x ∈ l → p x = false → trim_start p l ≠ [].
Proof.
  intros Hx Hp. induction l as [|y l IH]; [by apply elem_of_nil in Hx|]. cbn [trim_start].
  destruct (p y) eqn:E; [|done]. apply IH. apply elem_of_cons in Hx as [->|Hx]; [congruence|done].
Qed.

Lemma trim_start_elem {A} (p : A → bool) l x : x ∈ l → p x = false → x ∈ trim_start p l.
Proof.
  intros Hx Hp. induction l as [|y l IH]; [done|]. cbn [trim_start].
  destruct (p y) eqn:E; [|done]. apply IH. apply elem_of_cons in Hx as [->|Hx]; [congruence|done].
Qed.

Lemma json_line_not_blank l : blank (json_to_vec l) = false.
Proof.
  destruct (json_not_blank l) as (b & Hb & Hne). unfold blank, trim.
  pose proof (json_printable l) as Hp.
  rewrite (utf8_decode_ascii _ (printable_ascii _ Hp)).
  apply N.eqb_neq. rewrite len_0. intros Hnil.
  assert (is_whitespace (byte_val b) = false) as Hw.
  { rewrite forallb_forall in Hp. pose proof (Hp b ltac:(by apply list_elem_of_In)) as Hr.
    unfold in_byte_range in Hr. apply andb_true_iff in Hr as [H1 H2].
    assert (byte_val b ≠ 32) as Hn by (intros Hx; apply Hne, byte_val_inj; by rewrite Hx).
    apply N.leb_le in H1, H2. change (byte_val x20) with 32 in H1. change (byte_val x7e) with 126 in H2.
    unfold is_whitespace. repeat (apply orb_false_iff; split);
      try apply andb_false_iff; rewrite ?N.leb_gt, ?N.eqb_neq; lia. }
  assert (byte_val b ∈ trim_matches is_whitespace (map byte_val (json_to_vec l))) as Hin.
  { unfold trim_matches. apply list_elem_of_In, in_rev. rewrite rev_involutive.
    apply list_elem_of_In, trim_start_elem; [|done].
    apply list_elem_of_In, in_rev. rewrite rev_involutive.
    apply list_elem_of_In, trim_start_elem; [|done].
    change (map byte_val (json_to_vec l)) with (fmap byte_val (json_to_vec l)).
    by apply list_elem_of_fmap_2. }
  destruct (trim_matches is_whitespace (map byte_val (json_to_vec l))) as [|c cs]; [by apply elem_of_nil in Hin|].
  unfold utf8_encode in Hnil. cbn [map concat] in Hnil. apply app_nil in Hnil as [Hnil _].
  unfold utf8_encode1 in Hnil. by repeat case_match.
Qed.

Lemma parse_written ls :
  Forall line_wf ls → parse_lines (map json_to_vec ls) = Ok ls.
Proof.
  induction 1 as [|l ls Hl _ IH]; [done|]. cbn [map parse_lines]. rewrite json_roundtrip by done.
  cbn [ok_or mbind result_bind]. by rewrite IH.
Qed.

Lemma manifest_text_ascii ls : forallb (λ b, byte_val b <? 128) (manifest_text ls) = true.
Proof.
  induction ls as [|l ls IH]; [done|]. unfold manifest_text in *. cbn [map concat].
  by rewrite !forallb_app, IH, andb_true_r, (printable_ascii _ (json_printable l)).
Qed.

(** The manifest file holds exactly the lines [ls]. *)
Definition manifest_is (d : Dir) (ls : list ManifestLine) : Prop :=
  default [] (d !! MANIFEST_FILE_NAME) = manifest_text ls ∧ Forall line_wf ls.

Lemma read_manifest_is d ls : manifest_is d ls → read_manifest_lines d = Ok ls.
Proof.
  intros [Hd Hwf]. unfold read_manifest_lines.
  destruct (d !! MANIFEST_FILE_NAME) as [text|] eqn:E; cbn in Hd.
  - subst text. replace (utf8_valid (manifest_text ls)) with true.
    2:{ symmetry. apply utf8_valid_ascii, manifest_text_ascii. }
    rewrite lines_manifest, list_filter_all; [by apply parse_written|].
    intros x Hx. change (map json_to_vec ls) with (json_to_vec <$> ls) in Hx.
    apply list_elem_of_fmap in Hx as (l & -> & _). by rewrite json_line_not_blank.
  - destruct ls as [|l ls]; [done|]. exfalso. unfold manifest_text in Hd. cbn [map concat] in Hd.
    symmetry in Hd. apply app_nil in Hd as [Hd _]. by apply app_nil in Hd as [_ Hd].
Qed.

Lemma append_manifest_is d ls l :
  manifest_is d ls → line_wf l →
  ∃ ops, append_manifest_line l d = (ops, Ok ()) ∧ manifest_is (exec d ops) (ls ++ [l])
    ∧ ∀ n, n ≠ MANIFEST_FILE_NAME → exec d ops !! n = d !! n.
Proof.
  intros [Hd Hwf] Hl.
  exists [Append MANIFEST_FILE_NAME (json_to_vec l ++ [x0a]); SyncData MANIFEST_FILE_NAME].
  split; [done|]. cbn [exec foldl exec_op]. split.
  - split; [|apply Forall_app; split; [done|by constructor]].
    rewrite lookup_insert_eq. cbn [default]. unfold default, id in *. rewrite Hd. unfold manifest_text.
    rewrite map_app, concat_app. cbn. by rewrite app_nil_r.
  - intros n Hn. by rewrite lookup_insert_ne.
Qed.
End Roundtrip.

(** ** A concrete encoding, to evaluate the interface *)

Definition line_fields (l : ManifestLine) : list N :=
  match l with
  | Sealed e => [me_incarnation e; me_part e; me_first_seq e; me_last_seq e; me_bytes e; me_crc32 e]
  | Retired i => [i]
  end.

Definition csv_to_vec (l : ManifestLine) : bytes :=
  concat (map (λ n, show_padded 1 n ++ bs ",") (line_fields l)).

Definition csv_from_str (l : bytes) : option ManifestLine :=
  let num := parse_unsigned u64_max in
  match removelast (split_on x2c l) with
  | [a; b; c; d; e; f] =>
      a ← num a; b ← num b; c ← num c; d ← num d; e ← num e; f ← num f;
      Some (Sealed (mk_entry a b c d e f))
  | [i] => i ← num i; Some (Retired i)
  | _ => None
  end.

Definition csv_serde : ManifestSerde := {| json_to_vec := csv_to_vec; json_from_str := csv_from_str |}.

Lemma csv_pieces ns :
  split_on x2c (concat (map (λ n, show_padded 1 n ++ bs ",") ns)) = map (show_padded 1) ns ++ [[]].
Proof.
  induction ns as [|n ns IH]; [done|]. cbn [map concat]. rewrite <- app_assoc.
  change (bs "," ++ ?k) with (x2c :: k).
  rewrite split_on_app by (apply digits_no_byte; [apply show_padded_digits|done]). by rewrite IH.
Qed.

Lemma csv_laws : @ManifestSerdeLaws csv_serde.
Proof.
  split; cbn [json_to_vec json_from_str csv_serde].
  - intros [e|i] Hwf; cbn [line_wf] in Hwf; unfold csv_from_str, csv_to_vec; rewrite csv_pieces, removelast_last;
      cbn [line_fields map].
    + destruct Hwf as (H1 & H2 & H3 & H4 & H5 & H6).
      assert (me_crc32 e <= u64_max) by (unfold u32_max, u64_max in *; lia).
      rewrite !parse_show_padded by done. by destruct e.
    + rewrite parse_show_padded by done. done.
  - intros l. unfold csv_to_vec. generalize (line_fields l). induction l0 as [|n ns IH]; [done|].
    cbn [map concat]. rewrite !forallb_app, IH, andb_true_r. apply andb_true_iff. split; [|done].
    pose proof (show_padded_digits 1 n) as Hd. rewrite forallb_forall in *. intros x Hx.
    apply Hd in Hx. unfold is_ascii_digit, in_byte_range in *. apply andb_true_iff in Hx as [H1 H2].
    apply N.leb_le in H1, H2. apply andb_true_iff. split; apply N.leb_le.
    + etrans; [|exact H1]. by vm_compute.
    + etrans; [exact H2|]. by vm_compute.
  - intros l. exists x2c. split; [|done]. unfold csv_to_vec.
    destruct l as [e|i]; cbn [line_fields map concat]; rewrite !elem_of_app; cbn; left; right; by left.
Qed.
