(* ===== verification/Open.v ===== *)
(** * Opening a journal and recovering from a crash

    [src/src/session/journal/open.rs].  A daemon restart opens a new
    incarnation: retention interrupted by a crash is completed, the newest
    part's torn tail is rewound, parts the appender did not get to seal are
    sealed, and a fresh segment is created. *)

From S2P Require Import Prelude Crc Text RecordFormat SegmentScan Disk Manifest.

Section Open.
Context `{ManifestSerde, Crc32Fast}.

Record RecoveryReport := mk_report {
  rr_incarnation : N;
  rr_records : N;
  rr_last_seq : option N;
  rr_stop : ScanStop;
  rr_rewound : bool;
}.

(** The writer is the empty file at [(oj_incarnation, 1)]. *)
Record OpenedJournal := mk_opened {
  oj_incarnation : N;
  oj_report : option RecoveryReport;
}.

Definition complete_retired_retention (retired : gset N) : disk unit :=
  if bool_decide (retired = ∅) then mret ()
  else
    segments ← reads (λ d, Ok (list_segments d));
    let leftover := filter (λ ip : N * N, ip.1 ∈ retired) segments in
    _ ← for_each leftover (λ ip, remove_file (segment_path ip.1 ip.2));
    if len leftover =? 0 then mret () else sync_dir.

Definition seal_validated_part (incarnation part first_seq last_seq : N) : disk unit :=
  content ← fs_read (segment_path incarnation part);
  _ ← SegmentManifestEntry_append_to
        {| me_incarnation := incarnation; me_part := part; me_first_seq := first_seq;
           me_last_seq := last_seq; me_bytes := len content; me_crc32 := Crc32_of content |};
  sync_dir.

(** [part_first_seq], with a bad first header left to the scanner. *)
Definition expected_first_or_none (name : bytes) : disk (option N) :=
  reads (λ d, match part_first_seq name d with
              | Err InvalidData => Ok None
              | r => r
              end).

Definition segment_stats (name : bytes) (expected_first : option N) : disk SegmentStats :=
  reads (λ d, file ← ok_or (d !! name) NotFound;
              ok_or (scan_segment_stats_from file expected_first) Other).

(** The newest part of the newest incarnation. *)
Definition recover_tail (manifested : gset (N * N)) (previous part : N) : disk RecoveryReport :=
  let path := segment_path previous part in
  expected_first ← expected_first_or_none path;
  if (part =? 1) && match expected_first with Some first => negb (first =? 1) | None => false end
  then fail InvalidData
  else
    stats ← segment_stats path expected_first;
    let rewound := may_rewind (st_stop stats) in
    _ ← (if rewound then _ ← set_len path (st_valid_len stats); sync_dir else mret ());
    _ ← (if bool_decide ((previous, part) ∈ manifested) then mret ()
         else match expected_first, st_last_seq stats, st_stop stats with
              | Some first, Some last, CleanEof | Some first, Some last, PartialTail =>
                  seal_validated_part previous part first last
              | None, None, CleanEof =>
                  if st_valid_len stats =? 0 then _ ← remove_file path; sync_dir else mret ()
              | _, _, _ => mret ()
              end);
    mret {| rr_incarnation := previous; rr_records := st_records stats;
            rr_last_seq := st_last_seq stats; rr_stop := st_stop stats; rr_rewound := rewound |}.

(** Any other part the appender did not get to seal. *)
Definition reconcile_part (manifested : gset (N * N)) (previous_tail : option (N * N))
    (ip : N * N) : disk unit :=
  if bool_decide (Some ip = previous_tail) || bool_decide (ip ∈ manifested) then mret ()
  else
    let path := segment_path ip.1 ip.2 in
    first ← reads (λ d, match part_first_seq path d with
                        | Ok first => Ok (Some first)
                        | Err InvalidData => Ok None
                        | Err e => Err e
                        end);
    match first with
    | None => mret ()
    | Some expected_first =>
        stats ← segment_stats path expected_first;
        match expected_first, st_last_seq stats, st_stop stats with
        | Some first, Some last, CleanEof => seal_validated_part ip.1 ip.2 first last
        | None, None, CleanEof =>
            if st_valid_len stats =? 0 then _ ← remove_file path; sync_dir else mret ()
        | _, _, _ => mret ()
        end
    end.

Definition entry_key (e : SegmentManifestEntry) : N * N := (me_incarnation e, me_part e).

(** [retired.iter().copied().max().unwrap_or(0)]. *)
Definition highest (s : gset N) : N := set_fold N.max 0 s.

Definition next_incarnation (segments : list (N * N)) (retired : gset N) : N :=
  u64_add (N.max (default 0 (fst <$> last segments)) (highest retired)) 1.

Definition open : disk OpenedJournal :=
  retired ← reads retired_incarnations;
  _ ← complete_retired_retention retired;
  segments ← reads (λ d, Ok (list_segments d));
  manifest ← reads read_manifest;
  let manifested : gset (N * N) := list_to_set (map entry_key manifest) in
  report ← (match last segments with
            | Some (previous, part) =>
                r ← recover_tail manifested previous part; mret (Some r)
            | None => mret None
            end);
  _ ← for_each segments (reconcile_part manifested (last segments));
  let incarnation := next_incarnation segments retired in
  _ ← create_new (segment_path incarnation 1);
  _ ← sync_dir;
  mret {| oj_incarnation := incarnation; oj_report := report |}.
End Open.

(** ** What the stats of a part say about its content *)

Section Stats.
Context `{Crc32Fast, !Crc32FastLaws}.

Definition frecs_of (content : bytes) : list (bytes * Rec) := (decode_segment content).1.1.

Lemma stats_spec file exp stats :
  scan_segment_stats_from file exp = Some stats →
  ∃ frs tail s, decode_segment file = (frs, tail, s)
    ∧ st_records stats = len (linked exp frs)
    ∧ st_valid_len stats = len (encode_frecs (linked exp frs))
    ∧ st_last_seq stats = rec_seq ∘ snd <$> last (linked exp frs)
    ∧ st_stop stats = (if bool_decide (linked exp frs = frs) then s else SequenceDiscontinuity).
Proof.
  destruct (decode_segment file) as [[frs tail] s] eqn:Hd. unfold scan_segment_stats_from.
  rewrite (scan_impl_plain file Stats exp None frs tail s) by (try done; by right).
  cbn [mbind option_bind]. intros [= <-]. exists frs, tail, s.
  cbn [summary st_records st_valid_len st_last_seq st_stop sr_record_count sr_valid_len
       sr_last_seq sr_stop initial_scan ss_expected ss_count ss_offset ss_last].
  rewrite !N.add_0_l. by destruct (last (linked exp frs)).
Qed.

Lemma decode_clean tail : decode_record tail = inl CleanEof → tail = [].
Proof.
  unfold decode_record, read_exact_or_partial. change (HEADER_LEN =? 0) with false. cbv iota.
  destruct (N.eqb_spec (len tail) 0) as [Hz|Hne]; [intros _; by apply len_0|].
  repeat (case_match; simplify_eq/=; try done).
Qed.

Lemma stop_not_discontinuity file frs tail s : decode_segment file = (frs, tail, s) → s ≠ SequenceDiscontinuity.
Proof.
  intros Hd ->. apply decode_segment_spec in Hd as (_ & _ & Hs).
  by apply (decode_record_not_discontinuity tail).
Qed.

(** A part whose stats end cleanly with nothing in it is empty. *)
Lemma stats_empty file exp stats :
  scan_segment_stats_from file exp = Some stats → st_stop stats = CleanEof →
  st_valid_len stats = 0 → file = [].
Proof.
  intros Hst Hs Hv. apply stats_spec in Hst as (frs & tail & s & Hd & _ & Hvl & _ & Hstop).
  rewrite Hs in Hstop. case_bool_decide as Hl; [|done]. subst s.
  rewrite Hl in Hvl. rewrite Hv in Hvl. apply decode_segment_spec in Hd as (-> & Hwf & Ht).
  apply decode_clean in Ht as ->. symmetry in Hvl. apply len_0 in Hvl as ->. done.
Qed.

(** A part whose stats end in a torn tail: the valid prefix is all that
    decodes. *)
Lemma stats_torn file exp stats :
  scan_segment_stats_from file exp = Some stats → st_stop stats = PartialTail →
  ∃ frs tail, decode_segment file = (frs, tail, PartialTail)
    ∧ st_valid_len stats = len (encode_frecs frs).
Proof.
  intros Hst Hs. apply stats_spec in Hst as (frs & tail & s & Hd & _ & Hvl & _ & Hstop).
  rewrite Hs in Hstop. case_bool_decide as Hl; [|done]. subst s. rewrite Hl in Hvl. eauto.
Qed.

Lemma stats_total file exp : ∃ stats, scan_segment_stats_from file exp = Some stats.
Proof.
  unfold scan_segment_stats_from. destruct (scan_impl_returns file Stats exp None) as [res ->].
  by eexists.
Qed.

Lemma frecs_of_encoded frs : Forall frec_wf frs → frecs_of (encode_frecs frs) = frs.
Proof.
  intros Hwf. unfold frecs_of. rewrite <- (app_nil_r (encode_frecs frs)).
  by rewrite (decode_segment_encoded frs [] CleanEof).
Qed.

Lemma frecs_of_torn file frs tail s :
  decode_segment file = (frs, tail, s) →
  frecs_of (take (N.to_nat (len (encode_frecs frs))) file) = frs
  ∧ take (N.to_nat (len (encode_frecs frs))) file `prefix_of` file.
Proof.
  intros Hd. apply decode_segment_spec in Hd as (-> & Hwf & _).
  rewrite take_len_app by done. split; [by apply frecs_of_encoded|by exists tail].
Qed.
End Stats.

(** ** Every step is safe *)

Section Safety.
Context `{ManifestSerde, Crc32Fast, !Crc32FastLaws}.

(** The only steps recovery takes: syncs, append to the manifest, remove a part of
    a retired incarnation or an empty file, and cut a torn record off a part. *)
Definition safe_op (retired : gset N) (d : Dir) (op : DiskOp) : Prop :=
  match op with
  | Create _ => False
  | Remove n => (∃ i p, parse_segment_name n = Some (i, p) ∧ i ∈ retired) ∨ d !! n = Some []
  | Truncate n k =>
      ∃ c frs tail, d !! n = Some c ∧ decode_segment c = (frs, tail, PartialTail)
                    ∧ k = len (encode_frecs frs)
  | Append n _ => n = MANIFEST_FILE_NAME
  | SyncData _ | SyncDir => True
  end.

(** Opening also creates a file that does not exist. *)
Definition open_op (retired : gset N) (d : Dir) (op : DiskOp) : Prop :=
  safe_op retired d op ∨ ∃ n, op = Create n ∧ d !! n = None.

Definition content (d : Dir) (n : bytes) : bytes := default [] (d !! n).

Lemma safe_op_keeps retired d op n i p :
  open_op retired d op → parse_segment_name n = Some (i, p) → i ∉ retired →
  content (exec_op d op) n `prefix_of` content d n
  ∧ frecs_of (content (exec_op d op) n) = frecs_of (content d n).
Proof.
  intros [Hs|(m & -> & Hm)] Hn Hi; unfold content.
  2:{ cbn [exec_op]. destruct (decide (m = n)) as [->|Hne]; [|by rewrite lookup_insert_ne].
      by rewrite lookup_insert_eq, Hm. }
  destruct op as [m|m|m k|m x|m|]; cbn [exec_op safe_op] in *; [done|..|done|done].
  - destruct (decide (m = n)) as [->|Hne]; [|by rewrite lookup_delete_ne].
    rewrite lookup_delete_eq. destruct Hs as [(j & q & Hp & Hj)|Hs]; [congruence|]. by rewrite Hs.
  - destruct Hs as (c & frs & tail & Hc & Hd & ->).
    destruct (decide (m = n)) as [->|Hne]; [|by rewrite lookup_alter_ne].
    rewrite lookup_alter_eq, Hc. cbn. destruct (frecs_of_torn _ _ _ _ Hd) as [Hf Hp].
    split; [done|]. rewrite Hf. unfold frecs_of. by rewrite Hd.
  - subst m. destruct (decide (n = MANIFEST_FILE_NAME)) as [->|Hne].
    { by rewrite manifest_not_segment in Hn. }
    by rewrite lookup_insert_ne.
Qed.

Lemma safe_trace_keeps retired d ops n i p :
  trace_ok (open_op retired) d ops → parse_segment_name n = Some (i, p) → i ∉ retired →
  ∀ k, content (exec d (take k ops)) n `prefix_of` content d n
       ∧ frecs_of (content (exec d (take k ops)) n) = frecs_of (content d n).
Proof.
  intros Ht Hn Hi. revert d Ht. induction ops as [|op ops IH]; intros d Ht k; [by rewrite take_nil|].
  destruct k as [|k]; [done|]. destruct Ht as [Hop Ht]. cbn [take].
  change (exec d (op :: ?l)) with (exec (exec_op d op) l).
  destruct (IH _ Ht k) as [Hp Hf]. destruct (safe_op_keeps _ _ _ _ _ _ Hop Hn Hi) as [Hp' Hf'].
  split; [by etrans|congruence].
Qed.

Abbreviation safe ret m d := (traced (safe_op ret) m d).

Lemma safe_remove_empty ret path d stats exp :
  scan_segment_stats_from (content d path) exp = Some stats → is_Some (d !! path) →
  st_stop stats = CleanEof → st_valid_len stats = 0 →
  safe ret (_ ← remove_file path; sync_dir) d.
Proof.
  intros Hst [c Hc] Hs Hv. pose proof (stats_empty _ _ _ Hst Hs Hv) as He.
  unfold content in He. rewrite Hc in He. cbn in He. subst c.
  apply traced_bind; [|done]. apply traced_reads. intros a Ha.
  apply traced_step. by right.
Qed.

Lemma safe_seal ret i p f l d : safe ret (seal_validated_part i p f l) d.
Proof. apply traced_reads. intros a _. by repeat (apply traced_bind; [|intros ? _]). Qed.

Lemma safe_reconcile ret m tail ip d : safe ret (reconcile_part m tail ip) d.
Proof.
  unfold reconcile_part. destruct (_ || _); [done|]. apply traced_reads. intros [e|] _; [|done].
  unfold segment_stats. apply traced_reads. intros stats Hst.
  apply result_bind_ok in Hst as (file & Hf & Hst).
  destruct (d !! segment_path ip.1 ip.2) as [c|] eqn:Hc; [|done]. injection Hf as <-.
  destruct (scan_segment_stats_from c e) as [stats'|] eqn:Hs'; [|done]. injection Hst as <-.
  destruct e as [f|], (st_last_seq stats') as [l|], (st_stop stats') eqn:Hs; try done.
  - apply safe_seal.
  - destruct (N.eqb_spec (st_valid_len stats') 0); [|done].
    eapply safe_remove_empty; [|by rewrite Hc|exact Hs|done]. unfold content. by rewrite Hc.
Qed.

Lemma safe_recover ret m i p d : safe ret (recover_tail m i p) d.
Proof.
  unfold recover_tail. apply traced_reads. intros e _. destruct (_ && _); [done|].
  unfold segment_stats. apply traced_reads. intros stats Hst.
  apply result_bind_ok in Hst as (file & Hf & Hst).
  destruct (d !! segment_path i p) as [c|] eqn:Hc; [|done]. injection Hf as <-.
  destruct (scan_segment_stats_from c e) as [stats'|] eqn:Hs'; [|done]. injection Hst as <-.
  apply traced_bind.
  { destruct (may_rewind (st_stop stats')) eqn:Hr; [|done].
    destruct (st_stop stats') eqn:Hs; try done.
    destruct (stats_torn _ _ _ Hs' Hs) as (frs & tail & Hd & Hv).
    apply traced_bind; [|done]. apply traced_reads. intros a _. apply traced_step.
    exists c, frs, tail. done. }
  intros [] Hset. apply traced_bind; [|done]. case_bool_decide; [done|].
  destruct e as [f|], (st_last_seq stats') as [l|], (st_stop stats') eqn:Hs; try done;
    try apply safe_seal.
  destruct (N.eqb_spec (st_valid_len stats') 0); [|done]. cbn [may_rewind].
  change (exec d _) with d.
  eapply safe_remove_empty; [|by rewrite Hc|exact Hs|done]. unfold content. by rewrite Hc.
Qed.

Lemma safe_complete ret d : safe ret (complete_retired_retention ret) d.
Proof.
  unfold complete_retired_retention. case_bool_decide; [done|]. apply traced_reads.
  intros segs [= <-]. apply traced_bind; [|by destruct (_ =? 0)].
  apply (traced_for_each (safe_op ret) _ _ d (λ _, True)); [done|].
  intros [i p] d' [Hi Hin]%list_elem_of_filter _. split; [|done].
  apply traced_reads. intros c _. apply traced_step. left. exists i, p. split; [|done].
  apply elem_of_list_segments in Hin as (n & _ & Hn).
  destruct (parse_segment_name_bound _ _ _ Hn). by apply parse_segment_path.
Qed.

Lemma trace_ok_mono (P Q : Dir → DiskOp → Prop) d ops :
  (∀ d op, P d op → Q d op) → trace_ok P d ops → trace_ok Q d ops.
Proof. intros HPQ. revert d. induction ops as [|op ops IH]; intros d; [done|]. intros [? ?]. split; auto. Qed.

(** Recovery adds no file but the manifest. *)
Lemma safe_names ret d ops n :
  trace_ok (safe_op ret) d ops → n ≠ MANIFEST_FILE_NAME → is_Some (exec d ops !! n) → is_Some (d !! n).
Proof.
  revert d. induction ops as [|op ops IH]; intros d; [done|]. intros [Hop Ht] Hn Hs.
  apply (IH _ Ht Hn) in Hs. destruct op as [m|m|m k|m x|m|]; cbn [safe_op exec_op] in *; [done|..|done|done].
  - by apply lookup_delete_is_Some in Hs as [_ ?].
  - apply lookup_alter_is_Some in Hs. done.
  - subst m. by rewrite lookup_insert_ne in Hs.
Qed.

Lemma safe_open d ret :
  retired_incarnations d = Ok ret → traced (open_op ret) open d.
Proof.
  intros Hret. unfold open.
  assert (∀ A (m : disk A) d, safe ret m d → traced (open_op ret) m d) as Hsafe.
  { intros A m d'. apply trace_ok_mono. by left. }
  apply traced_reads. rewrite Hret. intros r [= <-].
  apply traced_bind; [apply Hsafe, safe_complete|]. intros [] _.
  apply traced_reads. intros segs _. apply traced_reads. intros man _.
  apply traced_bind.
  { destruct (last segs) as [[i p]|]; [|done]. apply traced_bind; [apply Hsafe, safe_recover|done]. }
  intros rep _. apply traced_bind.
  { apply (traced_for_each (open_op ret) _ _ _ (λ _, True)); [done|].
    intros ip d' _ _. split; [apply Hsafe, safe_reconcile|done]. }
  intros [] _. apply traced_bind; [|intros [] _; apply traced_bind; [apply traced_step; by left|done]].
  unfold create_new. apply traced_reads. intros b [= <-].
  case_bool_decide as He; [done|]. apply traced_step. right. eexists. split; [done|].
  by apply eq_None_not_Some.
Qed.
End Safety.

(** ** Healthy journals *)

Section Healthy.
Context `{ManifestSerde, !ManifestSerdeLaws, Crc32Fast, !Crc32FastLaws}.

Definition keys (ls : list ManifestLine) : list (N * N) := map entry_key (omap sealed_of ls).
Definition tombs (ls : list ManifestLine) : gset N := list_to_set (omap retired_of ls).

(** A part that ends on a record boundary and holds consecutive sequences. *)
Definition part_clean (c : bytes) : Prop :=
  ∃ frs, decode_segment c = (frs, [], CleanEof) ∧ linked None frs = frs ∧ len c <= u64_max.

(** A part cut inside a record that is not its first. *)
Definition part_torn (c : bytes) : Prop :=
  ∃ frs tail, decode_segment c = (frs, tail, PartialTail) ∧ linked None frs = frs
              ∧ frs ≠ [] ∧ len c <= u64_max.

(** The manifest tells the truth about the directory. *)
Record sound (ls : list ManifestLine) (d : Dir) : Prop := {
  so_canonical : canonical d;
  so_manifest : manifest_is d ls;
  so_keys : NoDup (keys ls);
  so_sealed e : Sealed e ∈ ls → me_incarnation e ∉ tombs ls →
    ∃ c, d !! segment_path (me_incarnation e) (me_part e) = Some c
         ∧ me_bytes e = len c ∧ me_crc32 e = Crc32_of c ∧ part_clean c;
}.

Lemma elem_of_keys ls e : Sealed e ∈ ls → entry_key e ∈ keys ls.
Proof.
  intros He. unfold keys. change (entry_key e ∈ entry_key <$> omap sealed_of ls).
  apply list_elem_of_fmap_2, list_elem_of_omap. by exists (Sealed e).
Qed.

Lemma keys_snoc ls e : keys (ls ++ [Sealed e]) = keys ls ++ [entry_key e].
Proof. unfold keys. by rewrite omap_app, map_app. Qed.

Lemma tombs_snoc ls e : tombs (ls ++ [Sealed e]) = tombs ls.
Proof. unfold tombs. rewrite omap_app. cbn. by rewrite app_nil_r. Qed.

(** Only the part [(i, p)], which has no entry, changes. *)
Lemma sound_change ls d d' i p :
  sound ls d → (i, p) ∉ keys ls → i <= u64_max → p <= u64_max →
  (∀ n, n ≠ segment_path i p → d' !! n = d !! n) →
  sound ls d'.
Proof.
  intros [Hc [Ht Hwf] Hk Hs] Hni Hi Hp Hsame.
  assert (segment_path i p ≠ MANIFEST_FILE_NAME) as Hnm.
  { intros He. pose proof (parse_segment_path i p Hi Hp) as Hpp. rewrite He in Hpp.
    by rewrite manifest_not_segment in Hpp. }
  split; [| |done|].
  - intros n j q Hn Hparse. destruct (decide (n = segment_path i p)) as [->|Hne].
    + rewrite parse_segment_path in Hparse by done. by injection Hparse as <- <-.
    + rewrite Hsame in Hn by done. by eapply Hc.
  - split; [|done]. by rewrite Hsame by congruence.
  - intros e He Hr. destruct (Hs e He Hr) as (c & Hcc & ?). exists c. split; [|done].
    rewrite Hsame; [done|]. intros Heq.
    assert (entry_wf e) as (? & ? & _).
    { rewrite Forall_forall in Hwf. by apply (Hwf _ He). }
    apply segment_path_inj in Heq as [E1 E2]; try done.
    apply Hni. rewrite <- E1, <- E2. by apply (elem_of_keys ls e).
Qed.

Definition entry_for (i p f l : N) (c : bytes) : SegmentManifestEntry :=
  mk_entry i p f l (len c) (Crc32_of c).

Lemma sound_seal ls d d' i p f l c :
  sound ls d → (i, p) ∉ keys ls → i <= u64_max → p <= u64_max → f <= u64_max → l <= u64_max →
  d !! segment_path i p = Some c → part_clean c →
  manifest_is d' (ls ++ [Sealed (entry_for i p f l c)]) →
  (∀ n, n ≠ MANIFEST_FILE_NAME → d' !! n = d !! n) →
  sound (ls ++ [Sealed (entry_for i p f l c)]) d'.
Proof.
  intros [Hc Hm Hk Hs] Hni Hi Hp Hf Hl Hd Hcl Hm' Hsame.
  assert (∀ n a b, parse_segment_name n = Some (a, b) → d' !! n = d !! n) as Hseg.
  { intros n a b Hn. apply Hsame. intros ->. by rewrite manifest_not_segment in Hn. }
  split; [|done| |].
  - intros n a b Hn Hparse. eapply Hc; [|done]. by rewrite <- (Hseg n a b).
  - rewrite keys_snoc. apply NoDup_app. split_and!; [done| |apply NoDup_singleton].
    intros x Hx Hx'. apply list_elem_of_singleton in Hx' as ->. done.
  - rewrite tombs_snoc. intros e [He|He%list_elem_of_singleton]%elem_of_app Hr.
    + destruct (Hs e He Hr) as (c' & Hc' & ?). exists c'. split; [|done].
      assert (entry_wf e) as (? & ? & _).
      { destruct Hm as [_ Hwf]. rewrite Forall_forall in Hwf. by apply (Hwf _ He). }
      by rewrite (Hseg _ _ _ (parse_segment_path (me_incarnation e) (me_part e) ltac:(done) ltac:(done))).
    + injection He as ->. exists c. unfold entry_for. cbn [me_incarnation me_part me_bytes me_crc32].
      by rewrite (Hseg _ _ _ (parse_segment_path _ _ Hi Hp)).
Qed.

(** What the first header of a part says. *)
Lemma first_seq_cons n d c fl r frs tail s :
  d !! n = Some c → decode_segment c = ((fl, r) :: frs, tail, s) →
  part_first_seq n d = Ok (Some (rec_seq r)).
Proof.
  intros Hd Hdec. apply decode_segment_spec in Hdec as (-> & Hwf & _).
  apply Forall_cons in Hwf as [[Hfl Hr] _]. cbn [fst snd] in *.
  unfold part_first_seq. rewrite Hd. cbn [ok_or mbind result_bind].
  rewrite encode_frecs_cons, <- app_assoc. cbn [fst snd]. unfold encode_record_with.
  rewrite <- app_assoc. set (pre := header_prefix _ _ _ _ _). set (h := pre ++ _).
  assert (len h = HEADER_LEN) as Hh.
  { unfold h, pre. rewrite len_app, len_header_prefix by done. by len_simpl. }
  rewrite read_complete by (rewrite len_app; lia). rewrite take_len_app by done.
  destruct (header_values fl r Hfl Hr) as (Hm & _ & _ & Hs & _). fold pre h in Hm, Hs.
  rewrite Hm, Hs. unfold bytes_eqb. by rewrite bool_decide_eq_true_2.
Qed.

Lemma first_seq_empty n d : d !! n = Some [] → part_first_seq n d = Ok None.
Proof. intros Hd. unfold part_first_seq. by rewrite Hd. Qed.

Lemma linked_from fr frs : linked None (fr :: frs) = fr :: frs → linked (Some (rec_seq fr.2)) (fr :: frs) = fr :: frs.
Proof. cbn [linked]. by rewrite N.eqb_refl. Qed.

Lemma last_cons_some {A} (x : A) l : ∃ y, last (x :: l) = Some y.
Proof. destruct (last (x :: l)) as [y|] eqn:E; [by exists y|]. by apply last_None in E. Qed.

(** The stats of a clean or torn part from the first sequence it shows. *)
Lemma stats_of c fl r frs tail s :
  decode_segment c = ((fl, r) :: frs, tail, s) → linked None ((fl, r) :: frs) = (fl, r) :: frs →
  ∃ stats l, scan_segment_stats_from c (Some (rec_seq r)) = Some stats
    ∧ st_stop stats = s ∧ st_last_seq stats = Some l ∧ l <= u64_max
    ∧ st_valid_len stats = len (encode_frecs ((fl, r) :: frs)).
Proof.
  intros Hd Hl. destruct (stats_total c (Some (rec_seq r))) as [stats Hst].
  destruct (stats_spec _ _ _ Hst) as (frs' & tail' & s' & Hd' & _ & Hv & Hlast & Hstop).
  rewrite Hd in Hd'. injection Hd' as <- <- <-. apply linked_from in Hl. cbn [snd] in Hl.
  rewrite Hl in Hv, Hlast, Hstop. rewrite bool_decide_eq_true_2 in Hstop by done.
  destruct (last_cons_some (fl, r) frs) as [[fl' r'] Hla]. rewrite Hla in Hlast.
  exists stats, (rec_seq r'). split_and!; try done.
  apply decode_segment_spec in Hd as (_ & Hwf & _). rewrite Forall_forall in Hwf.
  apply last_Some in Hla as [l' Hla]. rewrite Hla in Hwf.
  destruct (Hwf (fl', r')) as [_ [Hseq _]]; [apply elem_of_app; right; by left|done].
Qed.

Lemma stats_nil : ∃ stats, scan_segment_stats_from [] None = Some stats
  ∧ st_stop stats = CleanEof ∧ st_last_seq stats = None ∧ st_valid_len stats = 0.
Proof. by eexists. Qed.

Lemma clean_nil c : part_clean c → frecs_of c = [] → c = [].
Proof.
  intros (frs & Hd & _ & _) Hf. unfold frecs_of in Hf. rewrite Hd in Hf. cbn in Hf. subst frs.
  by apply decode_segment_spec in Hd as (-> & _ & _).
Qed.

Lemma wp_seal ls d i p f l c (P : Dir → io_result unit → Prop) :
  manifest_is d ls → d !! segment_path i p = Some c →
  i <= u64_max → p <= u64_max → f <= u64_max → l <= u64_max → len c <= u64_max →
  (∀ d', manifest_is d' (ls ++ [Sealed (entry_for i p f l c)]) →
     (∀ n, n ≠ MANIFEST_FILE_NAME → d' !! n = d !! n) → P d' (Ok ())) →
  wp (seal_validated_part i p f l) d P.
Proof.
  intros Hm Hd Hi Hp Hf Hl Hlen HP. unfold seal_validated_part. apply wp_bind, wp_reads.
  rewrite Hd. cbn [ok_or]. apply wp_bind.
  assert (line_wf (Sealed (entry_for i p f l c))) as Hwf.
  { cbn. unfold entry_wf, entry_for. cbn. pose proof (Crc32_of_u32 c). done. }
  destruct (append_manifest_is d ls _ Hm Hwf) as (ops & Ha & Hm' & Hsame).
  unfold wp, SegmentManifestEntry_append_to. fold (entry_for i p f l c). rewrite Ha. cbn [fst snd].
  by apply HP.
Qed.

(** While the unsealed parts are being reconciled: everything on disk is
    live, and sealed or still to be visited. *)
Record visiting (m0 : gset (N * N)) (tail : option (N * N)) (ret : gset N)
    (todo : list (N * N)) (d : Dir) : Prop := {
  vi_ls : list ManifestLine;
  vi_sound : sound vi_ls d;
  vi_tombs : tombs vi_ls = ret;
  vi_nodup : NoDup todo;
  vi_bounds i p : (i, p) ∈ todo → i <= u64_max ∧ p <= u64_max;
  vi_m0 k : k ∈ m0 → k ∈ keys vi_ls;
  vi_disk i p c : i <= u64_max → p <= u64_max → d !! segment_path i p = Some c →
    i ∉ ret ∧ ((i, p) ∈ keys vi_ls ∨ ((i, p) ∈ todo ∧ Some (i, p) ≠ tail ∧ part_clean c));
  vi_todo i p : (i, p) ∈ todo → (i, p) ∉ m0 → Some (i, p) ≠ tail →
    (i, p) ∉ keys vi_ls ∧ is_Some (d !! segment_path i p);
}.

Lemma visiting_skip m0 tail ret x l d :
  visiting m0 tail ret (x :: l) d → Some x = tail ∨ x ∈ m0 → visiting m0 tail ret l d.
Proof.
  intros [ls Hs Ht Hn Hb Hm Hd Ho] Hx. exists ls; try done.
  - by apply NoDup_cons in Hn as [_ ?].
  - intros i p Hip. apply Hb. by right.
  - intros i p c Hi Hp Hc. destruct (Hd i p c Hi Hp Hc) as [Hr [Hk|([->|Hin]%elem_of_cons & Hne & Hcl)]].
    + by split; [|left].
    + destruct Hx as [Hx|Hx]; [done|]. split; [done|]. left. by apply Hm.
    + split; [done|]. right. done.
  - intros i p Hip. apply Ho. by right.
Qed.

Lemma path_ne i p j q :
  i <= u64_max → p <= u64_max → j <= u64_max → q <= u64_max → (i, p) ≠ (j, q) →
  segment_path i p ≠ segment_path j q.
Proof. intros Hi Hp Hj Hq Hne Heq. apply segment_path_inj in Heq as [-> ->]; done. Qed.

(** The part [(i, p)] disappears. *)
Lemma visiting_removed m0 tail ret i p l d :
  visiting m0 tail ret ((i, p) :: l) d → (i, p) ∉ m0 → Some (i, p) ≠ tail →
  visiting m0 tail ret l (delete (segment_path i p) d).
Proof.
  intros [ls Hs Ht Hn Hb Hm Hd Ho] Hx1 Hx2.
  destruct (Hb i p ltac:(by left)) as [Hi Hp].
  destruct (Ho i p ltac:(by left) Hx1 Hx2) as [Hk _].
  apply NoDup_cons in Hn as [Hni Hn].
  exists ls; try done.
  - eapply sound_change; eauto. intros n Hne. by rewrite lookup_delete_ne.
  - intros j q Hjq. apply Hb. by right.
  - intros j q c Hj Hq Hc. apply lookup_delete_Some in Hc as [Hne Hc].
    destruct (Hd j q c Hj Hq Hc) as [Hr [Hkq|([[= -> ->]|Hin]%elem_of_cons & Hne' & Hcl)]];
      [by split; [|left]|done|by split; [|right]].
  - intros j q Hjq Hjm Hjt. destruct (Hb j q ltac:(by right)) as [Hj Hq].
    destruct (Ho j q ltac:(by right) Hjm Hjt) as [Hkq Hsome]. split; [done|].
    rewrite lookup_delete_ne; [done|]. apply path_ne; try done. by intros [= -> ->].
Qed.

(** The part [(i, p)] is sealed. *)
Lemma visiting_sealed m0 tail ret i p l d d' f la c :
  visiting m0 tail ret ((i, p) :: l) d → (i, p) ∉ m0 → Some (i, p) ≠ tail →
  f <= u64_max → la <= u64_max → d !! segment_path i p = Some c → part_clean c →
  (∀ ls, sound ls d → manifest_is d ls → manifest_is d' (ls ++ [Sealed (entry_for i p f la c)])) →
  (∀ n, n ≠ MANIFEST_FILE_NAME → d' !! n = d !! n) →
  visiting m0 tail ret l d'.
Proof.
  intros [ls Hs Ht Hn Hb Hm Hd Ho] Hx1 Hx2 Hf Hla Hc Hcl Hm' Hsame.
  destruct (Hb i p ltac:(by left)) as [Hi Hp].
  destruct (Ho i p ltac:(by left) Hx1 Hx2) as [Hk _].
  apply NoDup_cons in Hn as [Hni Hn].
  assert (∀ j q, j <= u64_max → q <= u64_max → d' !! segment_path j q = d !! segment_path j q) as Hseg.
  { intros j q Hj Hq. apply Hsame. intros He. pose proof (parse_segment_path j q Hj Hq) as Hpp.
    rewrite He in Hpp. by rewrite manifest_not_segment in Hpp. }
  exists (ls ++ [Sealed (entry_for i p f la c)]).
  - eapply sound_seal; eauto. apply Hm'; [done|apply Hs].
  - by rewrite tombs_snoc.
  - done.
  - intros j q Hjq. apply Hb. by right.
  - intros k Hkm. rewrite keys_snoc. apply elem_of_app. left. by apply Hm.
  - intros j q c' Hj Hq Hc'. rewrite Hseg in Hc' by done. rewrite keys_snoc, elem_of_app.
    destruct (Hd j q c' Hj Hq Hc') as [Hr [Hkq|([[= -> ->]|Hin]%elem_of_cons & Hne' & Hcl')]];
      (split; [done|]); [left; by left| |by right].
    left. right. by left.
  - intros j q Hjq Hjm Hjt. destruct (Hb j q ltac:(by right)) as [Hj Hq].
    destruct (Ho j q ltac:(by right) Hjm Hjt) as [Hkq Hsome]. rewrite Hseg by done.
    split; [|done]. rewrite keys_snoc, elem_of_app, list_elem_of_singleton. intros [?|[= -> ->]]; done.
Qed.

Lemma wp_reconcile m0 tail ret x l d :
  visiting m0 tail ret (x :: l) d →
  wp (reconcile_part m0 tail x) d (λ d' r, r = Ok () ∧ visiting m0 tail ret l d').
Proof.
  intros Hv. unfold reconcile_part. destruct (_ || _) eqn:Hskip.
  { apply wp_ret. split; [done|]. eapply visiting_skip; [done|].
    apply orb_true_iff in Hskip as [Hk|Hk]; bool_prop; auto. }
  bool_prop. destruct x as [i p]. cbn [fst snd]. pose proof Hv as [ls Hs Ht Hn Hb Hm Hd Ho].
  destruct (Hb i p ltac:(by left)) as [Hi Hp].
  destruct (Ho i p ltac:(by left) ltac:(done) ltac:(done)) as [Hk [c Hc]].
  destruct (Hd i p c Hi Hp Hc) as [Hr [?|(_ & _ & Hcl)]]; [done|].
  pose proof Hcl as (frs & Hdec & Hl & Hlen). destruct frs as [|[fl r] frs].
  - assert (c = []) as -> by (by apply decode_segment_spec in Hdec as (-> & _ & _)).
    apply wp_bind, wp_reads. rewrite (first_seq_empty _ _ Hc).
    apply wp_bind, wp_reads. rewrite Hc. cbn [ok_or mbind result_bind].
    destruct stats_nil as (stats & -> & Hst & Hla & Hva). cbn [ok_or]. rewrite Hst, Hla, Hva.
    change (0 =? 0) with true. cbv iota. apply wp_bind. eapply wp_remove_file; [done|].
    apply wp_step. split; [done|]. by apply visiting_removed.
  - apply wp_bind, wp_reads. rewrite (first_seq_cons _ _ _ _ _ _ _ _ Hc Hdec).
    apply wp_bind, wp_reads. rewrite Hc. cbn [ok_or mbind result_bind].
    destruct (stats_of _ _ _ _ _ _ Hdec Hl) as (stats & la & -> & Hst & Hla & Hlab & _).
    cbn [ok_or]. rewrite Hst, Hla.
    assert (rec_seq r <= u64_max) as Hseq.
    { apply decode_segment_spec in Hdec as (_ & [[_ [Hq _]] _]%Forall_cons & _). done. }
    eapply wp_seal; try done; [apply Hs|]. intros d' Hm' Hsame. split; [done|].
    eapply (visiting_sealed m0 tail ret i p l d d' (rec_seq r) la c); try done.
    intros ls' Hs' Hml. assert (ls' = ls) as ->; [|done].
    pose proof (read_manifest_is _ _ Hml) as E1. pose proof (read_manifest_is _ _ (so_manifest _ _ Hs)) as E2.
    congruence.
Qed.

(** The directory after completed retention, before recovery: everything on
    disk is live, sealed or clean, except that the newest part may be torn. *)
Definition pending_recovery (ls : list ManifestLine) (d : Dir) : Prop :=
  sound ls d ∧ ∀ i p c, i <= u64_max → p <= u64_max → d !! segment_path i p = Some c →
    i ∉ tombs ls ∧ ((i, p) ∈ keys ls ∨ part_clean c
                    ∨ (last (list_segments d) = Some (i, p) ∧ part_torn c)).

Definition starts_at_one (i p : N) (c : bytes) : Prop :=
  p = 1 → ∀ fl r frs tail s, decode_segment c = ((fl, r) :: frs, tail, s) → rec_seq r = 1.

Lemma visiting_start ls d i p rest c :
  sound ls d → list_segments d ≡ₚ (i, p) :: rest →
  d !! segment_path i p = Some c → (i, p) ∈ keys ls ∨ part_clean c →
  (∀ j q c, j <= u64_max → q <= u64_max → d !! segment_path j q = Some c →
    j ∉ tombs ls ∧ ((j, q) = (i, p) ∨ (j, q) ∈ keys ls ∨ part_clean c)) →
  visiting (list_to_set (keys ls)) None (tombs ls) ((i, p) :: rest) d.
Proof.
  intros Hs Hperm Hc Hcl Hd. exists ls; try done.
  - rewrite <- Hperm. apply list_segments_nodup, Hs.
  - intros j q. rewrite <- Hperm, elem_of_canonical by apply Hs. tauto.
  - intros k. by rewrite elem_of_list_to_set.
  - intros j q c' Hj Hq Hc'. destruct (Hd j q c' Hj Hq Hc') as [Hr Hx]. split; [done|].
    assert ((j, q) ∈ (i, p) :: rest) as Hin.
    { rewrite <- Hperm, elem_of_canonical by apply Hs. done. }
    destruct Hx as [[= -> ->]|[Hx|Hx]]; [|by left|by right].
    assert (c' = c) as -> by congruence. destruct Hcl; [by left|by right].
  - intros j q Hin Hm _. rewrite elem_of_list_to_set in Hm. split; [done|].
    rewrite <- Hperm, elem_of_canonical in Hin by apply Hs. tauto.
Qed.

Lemma visiting_tail m0 ret i p rest d :
  visiting m0 None ret rest d → NoDup (rest ++ [(i, p)]) → i <= u64_max → p <= u64_max →
  visiting m0 (Some (i, p)) ret (rest ++ [(i, p)]) d.
Proof.
  intros [ls Hs Ht Hn Hb Hm Hd Ho] Hnd Hi Hp. apply NoDup_app in Hnd as (_ & Hdis & _).
  exists ls; try done.
  - apply NoDup_app. split_and!; [done|done|apply NoDup_singleton].
  - intros j q. rewrite elem_of_app, list_elem_of_singleton. intros [?|[= -> ->]]; [by apply Hb|done].
  - intros j q c Hj Hq Hc. destruct (Hd j q c Hj Hq Hc) as [Hr [Hk|(Hin & _ & Hcl)]];
      (split; [done|]); [by left|]. right. split_and!; [by apply elem_of_app; left| |done].
    intros [= -> ->]. by apply (Hdis _ Hin), list_elem_of_singleton.
  - intros j q Hin Hm' Hne. apply Ho; [|done|done].
    apply elem_of_app in Hin as [?|Hin%list_elem_of_singleton]; [done|]. by rewrite Hin in Hne.
Qed.

Lemma wp_recover ls d i p c :
  pending_recovery ls d → last (list_segments d) = Some (i, p) →
  d !! segment_path i p = Some c → starts_at_one i p c →
  wp (recover_tail (list_to_set (keys ls)) i p) d (λ d' r, is_ok r = true ∧
    visiting (list_to_set (keys ls)) (Some (i, p)) (tombs ls) (list_segments d) d').
Proof.
  intros [Hs Hd] Hlast Hc Hone. pose proof (so_canonical _ _ Hs) as Hcan.
  apply last_Some in Hlast as Hsplit. destruct Hsplit as [rest Hsplit].
  pose proof (list_segments_nodup d Hcan) as Hnd.
  assert ((i, p) ∈ list_segments d) as Hin by (rewrite Hsplit; apply elem_of_app; right; by left).
  apply elem_of_canonical in Hin as (Hi & Hp & _); [|done].
  assert (list_segments d ≡ₚ (i, p) :: rest) as Hperm by (rewrite Hsplit; by rewrite Permutation_app_comm).
  rewrite Hsplit in Hnd |- *.
  assert (∀ j q c, j <= u64_max → q <= u64_max → d !! segment_path j q = Some c →
    j ∉ tombs ls ∧ ((j, q) = (i, p) ∨ (j, q) ∈ keys ls ∨ part_clean c)) as Hdisk.
  { intros j q c' Hj Hq Hc'. destruct (Hd j q c' Hj Hq Hc') as [Hr [?|[?|[Hla _]]]];
      (split; [done|]); auto. left. congruence. }
  set (m0 := list_to_set (keys ls)).
  assert (∀ (m : disk unit) d0, wp m d0 (λ d' r, r = Ok () ∧ visiting m0 None (tombs ls) rest d') →
    ∀ rep : RecoveryReport, wp (m ≫= λ _, mret rep) d0 (λ d' r, is_ok r = true ∧
      visiting m0 (Some (i, p)) (tombs ls) (rest ++ [(i, p)]) d')) as Hfinish.
  { intros m d0 Hm rep. apply wp_bind. eapply wp_mono; [exact Hm|]. intros d' r [-> Hv].
    apply wp_ret. split; [done|]. by apply visiting_tail. }
  destruct (Hd i p c Hi Hp Hc) as [Hr Hcase].
  assert (((i, p) ∈ keys ls → part_clean c)) as Hsealed.
  { intros Hk. unfold keys in Hk. change (map entry_key (omap sealed_of ls)) with (entry_key <$> omap sealed_of ls) in Hk.
    apply list_elem_of_fmap in Hk as (e & He & Hel). apply list_elem_of_omap in Hel as ([e'|] & Hl & [= ->]).
    unfold entry_key in He. injection He as -> ->.
    destruct (so_sealed _ _ Hs e Hl Hr) as (c' & Hc' & _ & _ & Hcl). congruence. }
  assert (part_clean c ∨ (part_torn c ∧ (i, p) ∉ keys ls)) as Hct.
  { destruct (decide ((i, p) ∈ keys ls)); [auto|]. destruct Hcase as [?|[?|[_ ?]]]; auto. }
  unfold recover_tail, expected_first_or_none, segment_stats.
  destruct Hct as [Hcl|[Ht Hnk]].
  - pose proof Hcl as (frs & Hdec & Hl & Hlen). destruct frs as [|[fl r] frs].
    + assert (c = []) as -> by (by apply decode_segment_spec in Hdec as (-> & _ & _)).
      apply wp_bind, wp_reads. rewrite (first_seq_empty _ _ Hc), andb_false_r.
      apply wp_bind, wp_reads. rewrite Hc. cbn [ok_or mbind result_bind].
      destruct stats_nil as (stats & -> & Hst & Hla & Hva). cbn [ok_or]. rewrite Hst, Hla, Hva.
      cbn [may_rewind]. apply wp_bind, wp_ret. apply Hfinish. case_bool_decide as Hk.
      * apply wp_ret. split; [done|]. eapply visiting_skip; [|by right].
        apply (visiting_start ls d i p rest []); auto.
      * change (0 =? 0) with true. cbv iota. apply wp_bind. eapply wp_remove_file; [done|].
        apply wp_step. split; [done|]. eapply visiting_removed; [|done|done].
        apply (visiting_start ls d i p rest []); auto.
    + apply wp_bind, wp_reads. rewrite (first_seq_cons _ _ _ _ _ _ _ _ Hc Hdec).
      replace ((p =? 1) && negb (rec_seq r =? 1)) with false.
      2:{ symmetry. destruct (N.eqb_spec p 1) as [Hp1|]; [|done]. by rewrite (Hone Hp1 _ _ _ _ _ Hdec). }
      apply wp_bind, wp_reads. rewrite Hc. cbn [ok_or mbind result_bind].
      destruct (stats_of _ _ _ _ _ _ Hdec Hl) as (stats & la & -> & Hst & Hla & Hlab & _).
      cbn [ok_or]. rewrite Hst, Hla. cbn [may_rewind]. apply wp_bind, wp_ret. apply Hfinish.
      assert (rec_seq r <= u64_max) as Hseq.
      { apply decode_segment_spec in Hdec as (_ & [[_ [Hq _]] _]%Forall_cons & _). done. }
      case_bool_decide as Hk.
      * apply wp_ret. split; [done|]. eapply visiting_skip; [|by right].
        apply (visiting_start ls d i p rest c); auto.
      * eapply wp_seal; try done; [apply Hs|]. intros d' Hm' Hsame. split; [done|].
        eapply (visiting_sealed m0 None (tombs ls) i p rest d d' (rec_seq r) la c); try done.
        { apply (visiting_start ls d i p rest c); auto. }
        intros ls' Hs' Hml. assert (ls' = ls) as ->; [|done].
        pose proof (read_manifest_is _ _ Hml) as E1.
        pose proof (read_manifest_is _ _ (so_manifest _ _ Hs)) as E2. congruence.
  - pose proof Ht as (frs & tail & Hdec & Hl & Hne & Hlen). destruct frs as [|[fl r] frs]; [done|].
    apply wp_bind, wp_reads. rewrite (first_seq_cons _ _ _ _ _ _ _ _ Hc Hdec).
    replace ((p =? 1) && negb (rec_seq r =? 1)) with false.
    2:{ symmetry. destruct (N.eqb_spec p 1) as [Hp1|]; [|done]. by rewrite (Hone Hp1 _ _ _ _ _ Hdec). }
    apply wp_bind, wp_reads. rewrite Hc. cbn [ok_or mbind result_bind].
    destruct (stats_of _ _ _ _ _ _ Hdec Hl) as (stats & la & -> & Hst & Hla & Hlab & Hvl).
    cbn [ok_or]. rewrite Hst, Hla, Hvl. cbn [may_rewind].
    pose proof (decode_segment_spec _ _ _ _ Hdec) as (Hcd & Hwf & _).
    assert (rec_seq r <= u64_max) as Hseq by (by apply Forall_cons in Hwf as [[_ [Hq _]] _]).
    set (path := segment_path i p) in *. set (c1 := encode_frecs ((fl, r) :: frs)) in *.
    set (d1 := alter (take (N.to_nat (len c1))) path d).
    assert (d1 !! path = Some c1) as Hc1.
    { unfold d1. rewrite lookup_alter_eq, Hc. cbn. by rewrite Hcd, take_len_app. }
    assert (∀ n, n ≠ path → d1 !! n = d !! n) as Hd1 by (intros; unfold d1; by rewrite lookup_alter_ne).
    assert (part_clean c1) as Hcl1.
    { exists ((fl, r) :: frs). split_and!; [|done|].
      - rewrite <- (app_nil_r c1). by apply decode_segment_encoded.
      - rewrite Hcd, len_app in Hlen. lia. }
    assert (sound ls d1) as Hs1 by (by apply (sound_change ls d d1 i p)).
    assert (list_segments d1 ≡ₚ (i, p) :: rest) as Hperm1.
    { rewrite <- Hperm. apply NoDup_Permutation; [apply list_segments_nodup, Hs1|by apply list_segments_nodup|].
      intros [j q]. rewrite !elem_of_canonical by (done || apply Hs1).
      destruct (decide (segment_path j q = path)) as [->|Hneq]; [rewrite Hc1, Hc; split; intros (? & ? & _); split_and!; by eauto|by rewrite Hd1]. }
    apply wp_bind, wp_bind. unfold set_len. apply wp_bind, wp_reads. rewrite Hc. cbn [ok_or].
    apply wp_step. cbn [exec_op]. fold d1. apply wp_step. cbn [exec_op]. apply Hfinish.
    case_bool_decide as Hk; [unfold m0 in Hk; by rewrite elem_of_list_to_set in Hk|].
    eapply (wp_seal ls d1 i p (rec_seq r) la c1); try done; [apply Hs1| |].
    { rewrite Hcd, len_app in Hlen. lia. }
    intros d' Hm' Hsame. split; [done|].
    eapply (visiting_sealed m0 None (tombs ls) i p rest d1 d' (rec_seq r) la c1); try done.
    { apply (visiting_start ls d1 i p rest c1); auto. intros j q c' Hj Hq Hc'.
      destruct (decide (segment_path j q = path)) as [Heq|Hneq].
      - apply segment_path_inj in Heq as [-> ->]; try done. split; [done|by left].
      - rewrite Hd1 in Hc' by done. by apply Hdisk. }
    intros ls' Hs' Hml. assert (ls' = ls) as ->; [|done].
    pose proof (read_manifest_is _ _ Hml) as E1.
    pose proof (read_manifest_is _ _ (so_manifest _ _ Hs1)) as E2. congruence.
Qed.

(** *** Completed retention *)

Definition purged (ret : gset N) (d d1 : Dir) : Prop :=
  ∀ n, d1 !! n = match parse_segment_name n with
                 | Some (i, _) => if decide (i ∈ ret) then None else d !! n
                 | None => d !! n
                 end.

Lemma wp_complete ret d :
  canonical d → wp (complete_retired_retention ret) d (λ d1 r, r = Ok () ∧ purged ret d d1).
Proof.
  intros Hc. unfold complete_retired_retention. case_bool_decide as He.
  { apply wp_ret. split; [done|]. intros n. subst ret.
    destruct (parse_segment_name n) as [[i p]|]; [|done]. by rewrite decide_False by set_solver. }
  apply wp_bind, wp_reads. set (left := filter _ (list_segments d)).
  assert (NoDup left) as Hnd by (apply NoDup_filter; by apply list_segments_nodup).
  assert (∀ i p, (i, p) ∈ left ↔ i ∈ ret ∧ (i, p) ∈ list_segments d) as Hleft.
  { intros i p. unfold left. by rewrite list_elem_of_filter. }
  apply wp_bind.
  eapply (wp_for_each left _ d (λ todo d', NoDup todo ∧ (∀ x, x ∈ todo → x ∈ left)
    ∧ ∀ n, d' !! n = match parse_segment_name n with
                     | Some ip => if decide (ip ∈ left ∧ ip ∉ todo) then None else d !! n
                     | None => d !! n
                     end)).
  - split_and!; [done..|]. intros n. destruct (parse_segment_name n); [|done].
    by rewrite decide_False by tauto.
  - intros [i p] todo d' (Hn & Hsub & Hd'). apply NoDup_cons in Hn as [Hni Hn].
    destruct (proj1 (Hleft i p) (Hsub _ ltac:(by left))) as [Hi Hin].
    apply elem_of_canonical in Hin as (Hib & Hpb & [c Hcc]); [|done].
    pose proof (parse_segment_path i p Hib Hpb) as Hpp.
    cbn [fst snd]. eapply wp_remove_file.
    { rewrite Hd', Hpp, decide_False; [exact Hcc|]. intros [_ Hnin]. apply Hnin. by left. }
    split_and!; [done| |].
    + intros x Hx. apply Hsub. by right.
    + intros n. destruct (decide (n = segment_path i p)) as [->|Hne].
      * rewrite lookup_delete_eq. cbn [fst snd]. rewrite Hpp, decide_True; [done|].
        split; [|done]. apply Hsub. by left.
      * cbn [fst snd]. rewrite lookup_delete_ne, Hd' by done.
        destruct (parse_segment_name n) as [[j q]|] eqn:En; [|done].
        destruct (decide (is_Some (d !! n))) as [Hs|Hs].
        2:{ apply eq_None_not_Some in Hs. rewrite Hs. by repeat case_decide. }
        apply decide_ext. rewrite not_elem_of_cons.
        assert ((j, q) ≠ (i, p)) as Hjq.
        { intros [= -> ->]. apply Hne. by apply Hc. }
        tauto.
  - intros d' (_ & _ & Hd').
    assert (purged ret d d') as Hp.
    { intros n. rewrite Hd'. destruct (parse_segment_name n) as [[i p]|] eqn:En; [|done].
      destruct (decide (is_Some (d !! n))) as [Hs|Hs].
      2:{ apply eq_None_not_Some in Hs. rewrite Hs. by repeat case_decide. }
      apply decide_ext. rewrite Hleft. split; [tauto|].
      intros Hi. split; [split; [done|]|apply not_elem_of_nil]. apply elem_of_list_segments. eauto. }
    destruct (len left =? 0); [by apply wp_ret|by apply wp_step].
Qed.

(** The newest part of an incarnation that is not retired. *)
Definition newest_live (ret : gset N) (d : Dir) (i p : N) : Prop :=
  ∀ j q, j <= u64_max → q <= u64_max → is_Some (d !! segment_path j q) → j ∉ ret →
         pair_le (j, q) (i, p).

(** A journal as the appender and most crashes leave it: the manifest is
    truthful, every live part is sealed or ends on a record boundary, except
    that the newest may be torn (but not inside its first record); and the
    newest part, if it is a first one, starts at sequence 1. *)
Record healthy (ls : list ManifestLine) (d : Dir) : Prop := {
  he_sound : sound ls d;
  he_disk i p c : i <= u64_max → p <= u64_max → d !! segment_path i p = Some c → i ∉ tombs ls →
    ((i, p) ∈ keys ls ∨ part_clean c ∨ (newest_live (tombs ls) d i p ∧ part_torn c))
    ∧ (newest_live (tombs ls) d i p → starts_at_one i p c);
}.

(** Incarnation numbers in use are below [b]. *)
Definition incarnations_below (b : N) (ls : list ManifestLine) (d : Dir) : Prop :=
  (∀ i p, i <= u64_max → p <= u64_max → is_Some (d !! segment_path i p) → i < b)
  ∧ ∀ i, i ∈ tombs ls → i < b.

Lemma purged_sound ls d d1 : sound ls d → purged (tombs ls) d d1 → sound ls d1.
Proof.
  intros [Hc [Ht Hwf] Hk Hs] Hp.
  assert (∀ n, is_Some (d1 !! n) → d1 !! n = d !! n) as Hsub.
  { intros n. rewrite Hp. destruct (parse_segment_name n) as [[i q]|]; [|done].
    case_decide; [by intros [? ?]|done]. }
  split; [| |done|].
  - intros n i p Hn. rewrite Hsub in Hn by done. by apply Hc.
  - split; [|done]. by rewrite Hp, manifest_not_segment.
  - intros e He Hr. destruct (Hs e He Hr) as (c & Hcc & ?). exists c. split; [|done].
    assert (entry_wf e) as (? & ? & _).
    { rewrite Forall_forall in Hwf. by apply (Hwf _ He). }
    by rewrite Hp, parse_segment_path, decide_False by done.
Qed.

Lemma purged_path ret d d1 i p :
  purged ret d d1 → i <= u64_max → p <= u64_max →
  d1 !! segment_path i p = if decide (i ∈ ret) then None else d !! segment_path i p.
Proof. intros Hp Hi Hpb. by rewrite Hp, parse_segment_path by done. Qed.

Lemma last_newest ret d d1 i p :
  canonical d1 → purged ret d d1 → last (list_segments d1) = Some (i, p) →
  newest_live ret d i p ∧ i <= u64_max ∧ p <= u64_max ∧ i ∉ ret
  ∧ is_Some (d !! segment_path i p).
Proof.
  intros Hc Hp Hl.
  assert ((i, p) ∈ list_segments d1) as Hin.
  { apply last_Some in Hl as [l ->]. apply elem_of_app. right. by left. }
  apply elem_of_canonical in Hin as (Hi & Hpb & Hs); [|done].
  rewrite (purged_path _ _ _ _ _ Hp) in Hs by done. case_decide; [by destruct Hs|].
  split_and!; try done. intros j q Hj Hq Hd Hr. apply (list_segments_last d1 (i, p)); [done|].
  apply elem_of_canonical; [done|]. split_and!; try done.
  rewrite (purged_path _ _ _ _ _ Hp) by done. by rewrite decide_False.
Qed.

Lemma purged_pending ls d d1 :
  healthy ls d → purged (tombs ls) d d1 → pending_recovery ls d1.
Proof.
  intros [Hs Hd] Hp. split; [by eapply purged_sound|]. intros i p c Hi Hpb Hc.
  rewrite (purged_path _ _ _ _ _ Hp) in Hc by done. case_decide as Hr; [done|].
  split; [done|]. destruct (proj1 (Hd i p c Hi Hpb Hc Hr)) as [?|[?|[Hn ?]]]; auto.
  right. right. split; [|done].
  pose proof (purged_sound _ _ _ Hs Hp) as Hs1.
  assert ((i, p) ∈ list_segments d1) as Hin.
  { apply elem_of_canonical; [apply Hs1|]. split_and!; try done.
    rewrite (purged_path _ _ _ _ _ Hp) by done. rewrite decide_False by done. by rewrite Hc. }
  destruct (last (list_segments d1)) as [[j q]|] eqn:El.
  2:{ apply last_None in El. rewrite El in Hin. by apply elem_of_nil in Hin. }
  destruct (last_newest _ _ _ _ _ (so_canonical _ _ Hs1) Hp El) as (Hnj & Hj & Hq & Hjr & Hjs).
  pose proof (list_segments_last d1 (j, q) (i, p) El Hin) as Hle1.
  pose proof (Hn j q Hj Hq Hjs Hjr) as Hle2. unfold pair_le in *. cbn in *.
  f_equal. f_equal; lia.
Qed.

Lemma highest_spec (x : gset N) : (∀ i, i ∈ x → i <= highest x) ∧ (highest x = 0 ∨ highest x ∈ x).
Proof.
  unfold highest. apply (set_fold_ind_L (λ r (y : gset N), (∀ i, i ∈ y → i <= r) ∧ (r = 0 ∨ r ∈ y))).
  - split; [|by left]. intros i. set_solver.
  - intros i y r Hi [Hle Hr]. split.
    + intros j [Hj|Hj]%elem_of_union; [apply elem_of_singleton in Hj as ->; lia|].
      specialize (Hle j Hj). lia.
    + destruct (N.max_spec i r) as [[_ ->]|[_ ->]]; [|right; set_solver].
      destruct Hr; [by left|right; set_solver].
Qed.

(** The next incarnation is above every one on disk and every retired one. *)
Lemma next_incarnation_fresh b ls d d1 :
  sound ls d1 → purged (tombs ls) d d1 → incarnations_below b ls d → 0 < b <= u64_max →
  let inc := next_incarnation (list_segments d1) (tombs ls) in
  inc <= b ∧ (∀ i, i ∈ tombs ls → i < inc)
  ∧ (∀ i p, (i, p) ∈ list_segments d1 → i < inc) ∧ 0 < inc.
Proof.
  intros Hs Hp [Hb Ht] Hbm. cbv zeta. unfold next_incarnation.
  destruct (highest_spec (tombs ls)) as [Hle Hh].
  assert (default 0 (fst <$> last (list_segments d1)) + 1 <= b ∨ default 0 (fst <$> last (list_segments d1)) = 0) as Hl.
  { destruct (last (list_segments d1)) as [[i p]|] eqn:El; [left|by right]. cbn.
    destruct (last_newest _ _ _ _ _ (so_canonical _ _ Hs) Hp El) as (_ & Hi & Hq & _ & Hsm).
    specialize (Hb i p Hi Hq Hsm). lia. }
  assert (highest (tombs ls) + 1 <= b).
  { destruct Hh as [->|Hh]; [lia|]. specialize (Ht _ Hh). lia. }
  rewrite u64_add_small by lia. split_and!; [lia| | |lia].
  - intros i Hi. specialize (Hle i Hi). lia.
  - intros i p Hin. destruct (last (list_segments d1)) as [[j q]|] eqn:El.
    + pose proof (list_segments_last d1 _ _ El Hin) as Hpl. unfold pair_le in Hpl. cbn in *. lia.
    + apply last_None in El. rewrite El in Hin. by apply elem_of_nil in Hin.
Qed.

Lemma sort_lines ls is0 seen ret sl :
  NoDup (keys ls) → (∀ k, k ∈ keys ls → k ∉ seen) →
  foldl sort_line (mk_sorted is0 seen ret sl) ls
  = mk_sorted is0 (seen ∪ list_to_set (keys ls)) (ret ∪ tombs ls) (sl ++ omap sealed_of ls).
Proof.
  revert is0 seen ret sl. induction ls as [|l ls IH]; intros is0 seen ret sl Hn Hd.
  { cbn. rewrite app_nil_r. f_equal; set_solver. }
  cbn [foldl]. destruct l as [e|i]; cbn [sort_line v_seen v_issues v_retired v_sealed].
  - unfold keys in *. cbn [omap list_omap sealed_of map] in *. apply NoDup_cons in Hn as [Hni Hn].
    change (me_incarnation e, me_part e) with (entry_key e).
    rewrite bool_decide_eq_false_2 by (apply Hd; by left).
    rewrite IH; [|done|].
    + cbn [omap list_omap sealed_of list_to_set]. unfold tombs. cbn [omap list_omap retired_of].
      rewrite <- app_assoc. f_equal; set_solver.
    + intros k Hk [Hk'|Hk']%elem_of_union; [|by eapply Hd; [right|]].
      apply elem_of_singleton in Hk' as ->. done.
  - rewrite IH; [|done..]. unfold tombs, keys. cbn [omap list_omap sealed_of retired_of list_to_set].
    f_equal; set_solver.
Qed.

Lemma concat_map_nil {A B} (f : A → list B) l : (∀ x, x ∈ l → f x = []) → concat (map f l) = [].
Proof.
  induction l as [|x l IH]; intros Hf; [done|]. cbn. rewrite Hf by by left.
  apply IH. intros y Hy. apply Hf. by right.
Qed.

(** A truthful manifest whose every live part but the newest is sealed
    verifies without an issue. *)
Lemma verify_sound ls d :
  sound ls d →
  (∀ i p, (i, p) ∈ list_segments d → i ∉ tombs ls ∧
     ((i, p) ∈ keys ls ∨ last (list_segments d) = Some (i, p))) →
  verify_manifest d = [].
Proof.
  intros Hs Hd. unfold verify_manifest. rewrite (read_manifest_is d ls) by apply Hs.
  rewrite sort_lines by (apply Hs || set_solver). cbn [v_issues v_sealed v_seen v_retired app].
  rewrite !(left_id_L ∅ (∪)), !concat_map_nil; [done|..].
  - intros [i p] Hin. destruct (Hd i p Hin) as [Hr Hk]. unfold check_on_disk. cbn [fst].
    rewrite bool_decide_eq_false_2 by done. destruct Hk as [Hk|Hk].
    + by rewrite bool_decide_eq_true_2 by by apply elem_of_list_to_set.
    + rewrite (bool_decide_eq_true_2 (Some (i, p) = _)) by done. by rewrite andb_false_r.
  - intros e [Hr He]%list_elem_of_filter. 
    apply list_elem_of_omap in He as ([e'|] & He & [= ->]).
    destruct (so_sealed _ _ Hs e He) as (c & Hc & Hlen & Hcrc & _).
    { destruct (bool_decide_reflect (me_incarnation e ∈ tombs ls)); done. }
    unfold check_sealed. by rewrite Hc, Hlen, Hcrc, !N.eqb_refl.
Qed.

Lemma wp_names {A : Type} (m : disk A) (d : Dir) ret (P : Dir → io_result A → Prop) :
  traced (safe_op ret) m d → wp m d P →
  wp m d (λ d' r, P d' r ∧ ∀ n, n ≠ MANIFEST_FILE_NAME → is_Some (d' !! n) → is_Some (d !! n)).
Proof. intros Ht HP. split; [done|]. intros n. by apply (safe_names ret). Qed.

(** What the new segment adds to a reconciled directory. *)
Lemma healthy_created ls d2 inc b :
  sound ls d2 → inc <= b → b < u64_max → (∀ i, i ∈ tombs ls → i < inc) →
  (∀ i p c, i <= u64_max → p <= u64_max → d2 !! segment_path i p = Some c →
     i < inc ∧ i ∉ tombs ls ∧ (i, p) ∈ keys ls) →
  let d3 := <[segment_path inc 1 := []]> d2 in
  healthy ls d3 ∧ incarnations_below (b + 1) ls d3 ∧ verify_manifest d3 = [].
Proof.
  intros Hs Hib Hb Ht Hd d3. assert (1 <= u64_max) as H1u by (unfold u64_max; lia).
  assert (inc <= u64_max) as Hiu by lia.
  assert ((inc, 1) ∉ keys ls) as Hnk.
  { intros Hk. unfold keys in Hk.
    change (map entry_key (omap sealed_of ls)) with (entry_key <$> omap sealed_of ls) in Hk.
    apply list_elem_of_fmap in Hk as (e & He & Hel). apply list_elem_of_omap in Hel as ([e'|] & Hl & [= ->]).
    unfold entry_key in He. injection He as Hei Hep.
    destruct (so_sealed _ _ Hs e Hl) as (c & Hc & _).
    { rewrite <- Hei. intros Hin. specialize (Ht _ Hin). lia. }
    rewrite <- Hei, <- Hep in Hc. destruct (Hd _ _ _ Hiu H1u Hc). lia. }
  assert (sound ls d3) as Hs3.
  { eapply (sound_change ls d2 d3 inc 1); try done. intros n Hn. unfold d3. by rewrite lookup_insert_ne. }
  assert (∀ i p c, i <= u64_max → p <= u64_max → d3 !! segment_path i p = Some c →
    (i = inc ∧ p = 1 ∧ c = []) ∨ (i < inc ∧ i ∉ tombs ls ∧ (i, p) ∈ keys ls)) as Hd3.
  { intros i p c Hi Hp Hc. unfold d3 in Hc. apply lookup_insert_Some in Hc as [[Heq <-]|[_ Hc]].
    - apply segment_path_inj in Heq as [-> ->]; auto.
    - right. by eapply Hd. }
  assert (d3 !! segment_path inc 1 = Some []) as Hnew by apply lookup_insert_eq.
  split_and!.
  - split; [done|]. intros i p c Hi Hp Hc Hr.
    destruct (Hd3 i p c Hi Hp Hc) as [(-> & -> & ->)|(Hlt & _ & Hk)].
    + split; [right; left|by intros _ _ ? ? ? ? ? [=]]. exists []. split_and!; [done..|by vm_compute].
    + split; [by left|]. intros Hn. exfalso.
      pose proof (Hn inc 1 Hiu H1u ltac:(by rewrite Hnew)) as Hle.
      unfold pair_le in Hle. cbn in Hle. destruct Hle as [?|[? _]]; [|lia..].
      intros Hin. specialize (Ht _ Hin). lia.
  - split; [|intros i Hi; specialize (Ht i Hi); lia].
    intros i p Hi Hp [c Hc]. destruct (Hd3 i p c Hi Hp Hc) as [(-> & _)|(? & _)]; lia.
  - apply (verify_sound ls); [done|]. intros i p Hin.
    apply elem_of_canonical in Hin as (Hi & Hp & [c Hc]); [|apply Hs3].
    destruct (Hd3 i p c Hi Hp Hc) as [(-> & -> & ->)|(Hlt & Hr & Hk)]; [|by split; [|left]].
    split; [intros Hin; specialize (Ht _ Hin); lia|]. right.
    assert ((inc, 1) ∈ list_segments d3) as Hin.
    { apply elem_of_canonical; [apply Hs3|]. by rewrite Hnew. }
    destruct (last (list_segments d3)) as [[j q]|] eqn:El.
    2:{ apply last_None in El. rewrite El in Hin. by apply elem_of_nil in Hin. }
    assert ((j, q) ∈ list_segments d3) as Hjq.
    { apply last_Some in El as [l ->]. apply elem_of_app. right. by left. }
    apply elem_of_canonical in Hjq as (Hj & Hq & [c' Hc']); [|apply Hs3].
    pose proof (list_segments_last d3 _ _ El Hin) as Hle. unfold pair_le in Hle. cbn in Hle.
    destruct (Hd3 j q c' Hj Hq Hc') as [(-> & -> & _)|(? & _)]; [done|lia].
Qed.
End Healthy.

(** ** Theorems *)

Section Theorems.
Context `{ManifestSerde, !ManifestSerdeLaws, Crc32Fast, !Crc32FastLaws}.

Lemma read_manifest_ok ls d : sound ls d → read_manifest d = Ok (omap sealed_of ls).
Proof. intros Hs. unfold read_manifest. by rewrite (read_manifest_is d ls) by apply Hs. Qed.

Lemma retired_ok ls d : sound ls d → retired_incarnations d = Ok (tombs ls).
Proof. intros Hs. unfold retired_incarnations. by rewrite (read_manifest_is d ls) by apply Hs. Qed.

(** Recovery of the newest part, if there is one, leaves every other part to
    be visited. *)
Lemma wp_report ls d d1 :
  healthy ls d → purged (tombs ls) d d1 →
  wp (match last (list_segments d1) with
      | Some (i, p) => recover_tail (list_to_set (keys ls)) i p ≫= λ r, mret (Some r)
      | None => mret None
      end) d1
    (λ d' r, is_ok r = true ∧
       visiting (list_to_set (keys ls)) (last (list_segments d1)) (tombs ls) (list_segments d1) d').
Proof.
  intros Hh Hp. pose proof (purged_pending _ _ _ Hh Hp) as Hpend. pose proof Hpend as [Hs1 Hd1].
  pose proof (so_canonical _ _ Hs1) as Hcan.
  destruct (last (list_segments d1)) as [[i p]|] eqn:El.
  - destruct (last_newest _ _ _ _ _ Hcan Hp El) as (Hn & Hi & Hq & Hr & [c Hc]).
    apply wp_bind. eapply wp_mono.
    + eapply (wp_recover ls d1 i p c); try done.
      * rewrite (purged_path _ _ _ _ _ Hp) by done. by rewrite decide_False.
      * by apply (proj2 (he_disk _ _ Hh i p c Hi Hq Hc Hr)).
    + intros d' [r|e] [Hok Hv]; [|done]. apply wp_ret. split; [done|]. by rewrite <- El in Hv |- *.
  - apply wp_ret. split; [done|]. apply last_None in El. rewrite El. exists ls; try done.
    + by apply NoDup_nil_2.
    + intros i p Hin. by apply elem_of_nil in Hin.
    + intros k. by rewrite elem_of_list_to_set.
    + intros i p c Hi Hq Hc. exfalso.
      assert ((i, p) ∈ list_segments d1) as Hin by (apply elem_of_canonical; [done|]; by rewrite Hc).
      rewrite El in Hin. by apply elem_of_nil in Hin.
    + intros i p Hin. by apply elem_of_nil in Hin.
Qed.

(** What [open] leaves: the directory [d'] of manifest [ls] with the new
    segment, every older part sealed and listed. *)
Record opened (b : N) (ls : list ManifestLine) (d' : Dir) (incarnation : N) : Prop := {
  op_healthy : healthy ls d';
  op_below : incarnations_below (b + 1) ls d';
  op_verified : verify_manifest d' = [];
  op_new : d' !! segment_path incarnation 1 = Some [];
  op_inc : 0 < incarnation <= b;
  op_tombs i : i ∈ tombs ls → i < incarnation;
  op_keys i p : (i, p) ∈ keys ls → i < incarnation;
  op_old i p : i <= u64_max → p <= u64_max → is_Some (d' !! segment_path i p) →
    (i = incarnation ∧ p = 1) ∨ (i < incarnation ∧ i ∉ tombs ls ∧ (i, p) ∈ keys ls);
}.

Lemma keys_below ls d inc :
  sound ls d → (∀ i, i ∈ tombs ls → i < inc) →
  (∀ i p c, i <= u64_max → p <= u64_max → d !! segment_path i p = Some c → i < inc) →
  ∀ i p, (i, p) ∈ keys ls → i < inc.
Proof.
  intros Hs Ht Hd i p Hk. unfold keys in Hk.
  change (map entry_key (omap sealed_of ls)) with (entry_key <$> omap sealed_of ls) in Hk.
  apply list_elem_of_fmap in Hk as (e & He & Hel). apply list_elem_of_omap in Hel as ([e'|] & Hl & [= ->]).
  unfold entry_key in He. injection He as -> ->.
  destruct (decide (me_incarnation e ∈ tombs ls)) as [Hin|Hni]; [by apply Ht|].
  destruct (so_sealed _ _ Hs e Hl Hni) as (c & Hc & _).
  pose proof (proj2 (so_manifest _ _ Hs)) as Hwf. rewrite Forall_forall in Hwf.
  destruct (Hwf _ Hl) as (? & ? & _). by eapply Hd.
Qed.

Lemma wp_open ls d b :
  healthy ls d → incarnations_below b ls d → 0 < b < u64_max →
  wp open d (λ d' r, ∃ o ls', r = Ok o ∧ opened b ls' d' (oj_incarnation o)
    ∧ (∀ i p, i <= u64_max → p <= u64_max → is_Some (d !! segment_path i p) → i < oj_incarnation o)
    ∧ (∀ i, i ∈ tombs ls → i < oj_incarnation o) ∧ tombs ls' = tombs ls).
Proof.
  intros Hh Hb Hb0. pose proof (he_sound _ _ Hh) as Hs.
  unfold open. apply wp_bind, wp_reads. rewrite (retired_ok _ _ Hs).
  apply wp_bind. eapply wp_mono; [apply wp_complete, Hs|]. intros d1 r [-> Hp].
  pose proof (purged_sound _ _ _ Hs Hp) as Hs1. pose proof (so_canonical _ _ Hs1) as Hcan.
  destruct (next_incarnation_fresh b ls d d1 Hs1 Hp Hb ltac:(lia)) as (Hle & Ht & Hf & Hpos).
  apply wp_bind, wp_reads, wp_bind, wp_reads. rewrite (read_manifest_ok _ _ Hs1).
  fold (keys ls). set (inc := next_incarnation (list_segments d1) (tombs ls)) in *.
  apply wp_bind. eapply wp_mono.
  { eapply (wp_names _ d1 (tombs ls)); [|by apply (wp_report ls d)].
    destruct (last (list_segments d1)) as [[i p]|]; [|done].
    apply traced_bind; [apply safe_recover|done]. }
  intros d2 [rep|e] [[Hok Hv] Hn2]; [|done]. apply wp_bind. eapply wp_mono.
  { eapply (wp_names _ d2 (tombs ls)).
    - apply (traced_for_each (safe_op (tombs ls)) _ _ _ (λ _, True)); [done|].
      intros ip d' _ _. split; [apply safe_reconcile|done].
    - eapply (wp_for_each _ _ d2 (λ todo d', visiting (list_to_set (keys ls))
        (last (list_segments d1)) (tombs ls) todo d') (λ d' r, r = Ok () ∧
        visiting (list_to_set (keys ls)) (last (list_segments d1)) (tombs ls) [] d')); [done| |done].
      intros x l' d' Hx. eapply wp_mono; [by apply wp_reconcile|]. by intros d'' r [-> ?]. }
  intros d3 r [[-> [ls3 Hs3 Ht3 _ _ _ Hd3 _]] Hn3].
  assert (∀ i p c, i <= u64_max → p <= u64_max → d3 !! segment_path i p = Some c →
    i < inc ∧ i ∉ tombs ls3 ∧ (i, p) ∈ keys ls3) as Hdisk.
  { intros i p c Hi Hq Hc. destruct (Hd3 i p c Hi Hq Hc) as [Hr [Hk|(Hin & _)]]; [|by apply elem_of_nil in Hin].
    rewrite Ht3. split_and!; try done. apply (Hf i p). apply elem_of_canonical; [done|]. split_and!; try done.
    assert (segment_path i p ≠ MANIFEST_FILE_NAME) as Hnm.
    { intros Heq. pose proof (parse_segment_path i p Hi Hq) as Hpp. rewrite Heq in Hpp.
      by rewrite manifest_not_segment in Hpp. }
    by apply Hn2, Hn3; rewrite ?Hc. }
  assert (d3 !! segment_path inc 1 = None) as Hnone.
  { destruct (d3 !! segment_path inc 1) as [c|] eqn:E; [|done]. exfalso.
    destruct (Hdisk inc 1 c) as [? _]; [lia|unfold u64_max; lia|done|lia]. }
  apply wp_bind. unfold create_new. apply wp_bind, wp_reads. rewrite Hnone.
  rewrite bool_decide_eq_false_2 by (by intros []). apply wp_step. cbn [exec_op].
  apply wp_bind, wp_step, wp_ret. cbn [exec_op].
  destruct (healthy_created ls3 d3 inc b) as (H1' & H2' & H3'); [done|lia|lia|by rewrite Ht3|done|].
  eexists _, ls3. split; [done|]. cbn [oj_incarnation]. split_and!; [|clear H1' H2' H3'|exact Ht|exact Ht3].
  { split; try done; [apply lookup_insert_eq|by rewrite Ht3| |].
    - eapply (keys_below ls3 d3); [done|by rewrite Ht3|]. intros i p c Hi Hq Hc. by destruct (Hdisk i p c Hi Hq Hc).
    - intros i p Hi Hq [c [[Heq _]|[_ Hc]]%lookup_insert_Some]; [left|right; by eapply Hdisk].
      by apply segment_path_inj in Heq as [-> ->]; [|lia|unfold u64_max; lia|..]. }
  intros i p Hi Hq Hsm. destruct (decide (i ∈ tombs ls)) as [Hin|Hni]; [by apply Ht|].
  apply (Hf i p). apply elem_of_canonical; [done|]. split_and!; try done.
  rewrite (purged_path _ _ _ _ _ Hp) by done. by rewrite decide_False.
Qed.

(** What becomes of a part [c] at [(i, p)] under the manifest [ls']: what does
    not decode is cut off, and what is left is sealed and listed; a part that
    holds no record is removed. *)
Definition recovered_part (ls' : list ManifestLine) (d' : Dir) (i p : N) (c : bytes) : Prop :=
  let kept := encode_frecs (frecs_of c) in
  kept `prefix_of` c
  ∧ (d' !! segment_path i p = None ∧ kept = []
     ∨ d' !! segment_path i p = Some kept
       ∧ ∃ e, Sealed e ∈ ls' ∧ entry_key e = (i, p) ∧ me_bytes e = len kept ∧ me_crc32 e = Crc32_of kept).

Lemma sealed_kept ls d i p c :
  sound ls d → i ∉ tombs ls → (i, p) ∈ keys ls → d !! segment_path i p = Some c →
  c = encode_frecs (frecs_of c) ∧ ∃ e, Sealed e ∈ ls ∧ entry_key e = (i, p) ∧ me_bytes e = len c ∧ me_crc32 e = Crc32_of c.
Proof.
  intros Hs Hi Hk Hc. unfold keys in Hk.
  change (map entry_key (omap sealed_of ls)) with (entry_key <$> omap sealed_of ls) in Hk.
  apply list_elem_of_fmap in Hk as (e & He & Hel). apply list_elem_of_omap in Hel as ([e'|] & Hl & [= ->]).
  unfold entry_key in He. injection He as -> ->.
  destruct (so_sealed _ _ Hs e Hl Hi) as (c' & Hc' & Hlen & Hcrc & frs & Hd & _). assert (c' = c) as -> by congruence.
  split; [|by exists e]. unfold frecs_of. rewrite Hd. by apply decode_segment_spec in Hd as (-> & _); rewrite app_nil_r.
Qed.

Lemma decoded_prefix c : encode_frecs (frecs_of c) `prefix_of` c.
Proof.
  unfold frecs_of. destruct (decode_segment c) as [[frs tail] s] eqn:Hd. apply decode_segment_spec in Hd as (-> & _). by exists tail.
Qed.


(** Opening a journal never loses a record, wherever it stops: after
    any number of its steps, and so after a crash in the middle of it, every
    part of every incarnation that retention had not already retired still
    begins with its old bytes and still decodes to the same records. *)
Theorem open_loses_nothing d n i p k :
  parse_segment_name n = Some (i, p) →
  (∀ ret, retired_incarnations d = Ok ret → i ∉ ret) →
  let d' := exec d (take k (open d).1) in
  content d' n `prefix_of` content d n ∧ frecs_of (content d' n) = frecs_of (content d n).
Proof.
  intros Hn Hi. destruct (retired_incarnations d) as [ret|e] eqn:Hret.
  - by apply (safe_trace_keeps ret d (open d).1 n i p (safe_open d ret Hret) Hn (Hi ret eq_refl)).
  - assert ((open d).1 = []) as ->; [|by rewrite take_nil].
    unfold open, reads, mbind, disk_bind. by rewrite Hret.
Qed.
End Theorems.

(** ** Witnesses *)

#[local] Existing Instance csv_serde.
#[local] Existing Instance csv_laws.

Definition crash_records : list Rec :=
  [mk_record Resize 1 0 (encode_resize_payload 24 80); mk_record Output 2 5 (bs "hi")].

(** A journal whose only part lost the end of its third record. *)
Definition crashed : Dir :=
  {[ segment_path 1 1 := encode_records crash_records
                         ++ take 50 (encode_record (mk_record Output 3 9 (bs "lost at the crash"))) ]}.

Lemma crashed_lookup i p c :
  i <= u64_max → p <= u64_max → crashed !! segment_path i p = Some c →
  i = 1 ∧ p = 1 ∧ crashed !! segment_path 1 1 = Some c.
Proof.
  intros Hi Hp Hc. pose proof Hc as Hc'. unfold crashed in Hc'. apply lookup_singleton_Some in Hc' as [Heq _].
  apply segment_path_inj in Heq as [<- <-]; try done; by vm_compute.
Qed.

Lemma crashed_healthy : healthy [] crashed.
Proof.
  split.
  - split.
    + intros n i p [c Hc] Hn. unfold crashed in Hc. apply lookup_singleton_Some in Hc as [<- _].
      by rewrite parse_segment_path in Hn by (by vm_compute); injection Hn as <- <-.
    + split; [by vm_compute|constructor].
    + apply NoDup_nil_2.
    + intros e He. by apply elem_of_nil in He.
  - intros i p c Hi Hp Hc _. destruct (crashed_lookup i p c Hi Hp Hc) as (-> & -> & Hc'). split.
    + right. right. split.
      * intros j q Hj Hq [c' Hc''] _. destruct (crashed_lookup j q c' Hj Hq Hc'') as (-> & -> & _). done.
      * vm_compute in Hc'. injection Hc' as <-. eexists _, _. split_and!; [by vm_compute|by vm_compute|done|by vm_compute].
    + intros _ _ fl r frs tail s Hd. vm_compute in Hc'. injection Hc' as <-. vm_compute in Hd.
      by injection Hd as _ <- _ _ _.
Qed.

Lemma crashed_below : incarnations_below 2 [] crashed.
Proof.
  split.
  - intros i p Hi Hp [c Hc]. destruct (crashed_lookup i p c Hi Hp Hc) as (-> & _). by vm_compute.
  - intros i Hi. set_solver.
Qed.


Lemma open_loses_nothing_witness :
  let d' := exec crashed (take 1 (open crashed).1) in
  content d' (segment_path 1 1) `prefix_of` content crashed (segment_path 1 1)
  ∧ frecs_of (content d' (segment_path 1 1)) = frecs_of (content crashed (segment_path 1 1)).
Proof.
  apply (open_loses_nothing crashed (segment_path 1 1) 1 1 1).
  - by apply parse_segment_path.
  - intros ret Hret. rewrite (retired_ok [] crashed) in Hret by apply crashed_healthy.
    injection Hret as <-. set_solver.
Defined.

(** A crash inside the very first record of a part leaves, after [open], an
    empty part that is neither sealed, nor removed, nor the active tail: the
    state verification reports until the journal is opened once more. *)
Definition torn_first : Dir :=
  {[ segment_path 1 1 := take 10 (encode_record (mk_record Output 1 0 (bs "hi"))) ]}.

Lemma torn_first_left_behind :
  let d1 := exec torn_first (open torn_first).1 in
  let d2 := exec d1 (open d1).1 in
  is_ok (open torn_first).2 = true ∧ d1 !! segment_path 1 1 = Some []
  ∧ verify_manifest d1 = [Unmanifested 1 1] ∧ verify_manifest d2 = [].
Proof. vm_compute. done. Qed.
