(* ===== verification/Retention.v ===== *)
(** * Checkpoint anchors and checkpoint-gated retention

    [src/src/session/journal/checkpoint.rs].  Old incarnations are deleted
    only below the newest incarnation that holds a checkpoint, tombstone
    first, newest part first, so that a crash at any point is distinguishable
    from corruption and finished by the next [open]. *)

From S2P Require Import Prelude Crc Text RecordFormat SegmentScan Disk Manifest Open.

(** ** Reading headers only *)

Definition kind_of_header (header : bytes) : N := hdr_kind header.

(** The loop of [incarnation_has_checkpoint] over one part: headers are read
    and payloads seeked over; a torn header ends the part. *)
Fixpoint part_has_checkpoint (fuel : nat) (rest : bytes) : bool :=
  match fuel with
  | O => false
  | S fuel =>
      match read_exact_or_partial HEADER_LEN rest with
      | (Complete, header, rest) =>
          if negb (bytes_eqb (hdr_magic header) RECORD_MAGIC) then false
          else if hdr_kind header =? kind_u16 CheckpointRef then true
          else part_has_checkpoint fuel (drop (N.to_nat (hdr_payload_len header)) rest)
      | _ => false
      end
  end.

(** Every turn consumes a header. *)
Definition file_has_checkpoint (file : bytes) : bool := part_has_checkpoint (S (length file)) file.

Definition parts_of (d : Dir) (incarnation : N) : list N :=
  map snd (filter (λ ip : N * N, ip.1 = incarnation) (list_segments d)).

Fixpoint any_part_has_checkpoint (d : Dir) (incarnation : N) (parts : list N) : io_result bool :=
  match parts with
  | [] => Ok false
  | part :: parts =>
      file ← ok_or (d !! segment_path incarnation part) NotFound;
      if file_has_checkpoint file then Ok true else any_part_has_checkpoint d incarnation parts
  end.

(** The list is already ascending, so the source's sort is the identity. *)
Definition incarnation_has_checkpoint (d : Dir) (incarnation : N) : io_result bool :=
  any_part_has_checkpoint d incarnation (parts_of d incarnation).

Fixpoint first_with_checkpoint (d : Dir) (incarnations : list N) : io_result (option N) :=
  match incarnations with
  | [] => Ok None
  | i :: incarnations =>
      has ← incarnation_has_checkpoint d i;
      if has : bool then Ok (Some i) else first_with_checkpoint d incarnations
  end.

Definition latest_checkpoint_incarnation (d : Dir) : io_result (option N) :=
  first_with_checkpoint d (rev (list_incarnations d)).

(** ** Anchors *)

Record JournalCursor := mk_cursor {
  cur_incarnation : N;
  cur_seq : N;
}.

Record CheckpointAnchor := mk_anchor {
  an_filtered_offset : N;
  an_cursor : JournalCursor;
  an_part : N;
  an_record_end_offset : N;
}.

Definition CHECKPOINT_FIXED_HEADER_LEN : N := 4 + 2 + 2 + 2 + 2 + 2 + 1 + 8 + 4.

Inductive PartWalk :=
  | NextPart (expected_seq : N) (anchors : list CheckpointAnchor)
  | StopParts (anchors : list CheckpointAnchor).

(** One part: [pos] is [byte_pos], [rest] what the reader has not consumed. *)
Fixpoint part_anchors (fuel : nat) (incarnation part part_len pos expected : N) (rest : bytes)
    (acc : list CheckpointAnchor) : PartWalk :=
  match fuel with
  | O => StopParts acc
  | S fuel =>
      match read_exact_or_partial HEADER_LEN rest with
      | (Complete, header, rest) =>
          if negb (bytes_eqb (hdr_magic header) RECORD_MAGIC) then StopParts acc
          else
            let seq := hdr_seq header in
            if negb (seq =? expected) then StopParts acc
            else
              let payload_len := hdr_payload_len header in
              let record_end := pos + HEADER_LEN + payload_len in
              if part_len <? record_end then StopParts acc
              else
                let next acc :=
                  part_anchors fuel incarnation part part_len record_end (u64_add expected 1)
                    (drop (N.to_nat payload_len) rest) acc in
                if (hdr_kind header =? kind_u16 CheckpointRef)
                   && (CHECKPOINT_FIXED_HEADER_LEN <=? payload_len) then
                  match read_exact_or_partial CHECKPOINT_FIXED_HEADER_LEN rest with
                  | (Complete, fixed, _) =>
                      next (if 2 <=? le_value fixed@[4, 6] then
                              acc ++ [{| an_filtered_offset := le_value fixed@[15, 23];
                                         an_cursor := mk_cursor incarnation seq;
                                         an_part := part; an_record_end_offset := record_end |}]
                            else acc)
                  | _ => StopParts acc
                  end
                else next acc
      | _ => NextPart expected acc
      end
  end.

(** The ['parts] loop over files already listed in order. *)
Fixpoint walk_parts (incarnation expected : N) (parts : list (N * bytes))
    (acc : list CheckpointAnchor) : list CheckpointAnchor :=
  match parts with
  | [] => acc
  | (part, file) :: parts =>
      match part_anchors (S (length file)) incarnation part (len file) 0 expected file acc with
      | NextPart expected acc => walk_parts incarnation expected parts acc
      | StopParts acc => acc
      end
  end.

(** [incarnation_parts] ([stream.rs]): ascending, contiguous from one. *)
Definition incarnation_parts (d : Dir) (incarnation : N) : io_result (list N) :=
  let parts := parts_of d incarnation in
  if len parts =? 0 then Err NotFound
  else if negb (bool_decide (parts = seqN 1 (length parts))) then Err InvalidData
  else Ok parts.

Fixpoint read_parts (d : Dir) (incarnation : N) (parts : list N) : io_result (list (N * bytes)) :=
  match parts with
  | [] => Ok []
  | p :: parts =>
      file ← ok_or (d !! segment_path incarnation p) NotFound;
      rest ← read_parts d incarnation parts;
      Ok ((p, file) :: rest)
  end.

Definition checkpoint_anchors (d : Dir) (incarnation : N) : io_result (list CheckpointAnchor) :=
  parts ← incarnation_parts d incarnation;
  files ← read_parts d incarnation parts;
  Ok (walk_parts incarnation 1 files []).

(** ** Retention *)

Section Retain.
Context `{ManifestSerde}.

(** Which incarnations a retention run deletes. *)
Definition expendable (min_incarnation : N) (latest : option N) (retired : gset N) (i : N) : bool :=
  negb ((min_incarnation <=? i) || bool_decide (Some i = latest) || bool_decide (i ∈ retired)).

(** Newest part first. *)
Definition delete_parts (incarnation : N) : disk unit :=
  segments ← reads (λ d, Ok (list_segments d));
  for_each (rev (filter (λ ip : N * N, ip.1 = incarnation) segments))
    (λ ip, remove_file (segment_path incarnation ip.2)).

Definition retire (incarnation : N) : disk unit :=
  _ ← RetiredIncarnation_append_to incarnation; delete_parts incarnation.

Definition retain_before (min_incarnation : N) : disk (list N) :=
  gate ← reads latest_checkpoint_incarnation;
  match gate with
  | None => mret []
  | Some gate =>
      let min_incarnation := N.min min_incarnation gate in
      incarnations ← reads (λ d, Ok (list_incarnations d));
      already ← reads retired_incarnations;
      let deleted := filter (λ i, expendable min_incarnation (last incarnations) already i)
                       incarnations in
      _ ← for_each deleted retire;
      _ ← (if len deleted =? 0 then mret () else sync_dir);
      mret deleted
  end.

(** The test-only primitive without the gate and without tombstones. *)
Definition retain_before_unchecked (min_incarnation : N) : disk (list N) :=
  incarnations ← reads (λ d, Ok (list_incarnations d));
  let deleted := filter (λ i, negb ((min_incarnation <=? i)
                                    || bool_decide (Some i = last incarnations))) incarnations in
  _ ← for_each deleted delete_parts;
  _ ← sync_dir;
  mret deleted.

(** ** The byte budget *)

(** [*bytes_per_inc.entry(i).or_insert(0) += bytes]. *)
Definition add_bytes (m : gmap N N) (e : SegmentManifestEntry) : gmap N N :=
  <[me_incarnation e := u64_add (default 0 (m !! me_incarnation e)) (me_bytes e)]> m.

Definition bytes_per_inc (manifest : list SegmentManifestEntry) : gmap N N :=
  foldl add_bytes ∅ manifest.

(** Sum over the incarnations of a range. *)
Definition bytes_in (m : gmap N N) (lo hi : N) : N :=
  foldl u64_add 0 (map snd (filter (λ kv : N * N, lo <= kv.1 ∧ kv.1 <= hi) (map_to_list m))).

(** One candidate of the walk: [(h, kept)] before and after. *)
Definition budget_step (m : gmap N N) (byte_cap : N) (hk : N * N) (inc : N) : N * N :=
  let bytes := default 0 (m !! inc) in
  if byte_cap <? u64_add hk.2 bytes then hk else (inc, u64_add hk.2 bytes).

Definition min_incarnation_for_byte_budget (byte_cap : N) (d : Dir) : io_result N :=
  if byte_cap =? 0 then Ok u64_max
  else match last (list_incarnations d) with
  | None => Ok u64_max
  | Some latest =>
      found ← latest_checkpoint_incarnation d;
      let gate := default latest found in
      manifest ← read_manifest d;
      let m := bytes_per_inc manifest in
      Ok (foldl (budget_step m byte_cap) (gate, bytes_in m gate latest)
            (rev (seqN 1 (N.to_nat (gate - 1))))).1
  end.
End Retain.

(** ** What the header walk finds *)

Section Walk.
Context `{Crc32Fast, !Crc32FastLaws}.

Definition is_checkpoint (r : Rec) : bool := bool_decide (rec_kind r = CheckpointRef).

Lemma kind_u16_checkpoint k : (kind_u16 k =? kind_u16 CheckpointRef) = bool_decide (k = CheckpointRef).
Proof. by destruct k. Qed.

(** The header of an encoded record, read off the front. *)
Lemma read_header fl r k :
  length fl = 4%nat → rec_wf r →
  ∃ h, read_exact_or_partial HEADER_LEN (encode_record_with fl r ++ k) = (Complete, h, rec_payload r ++ k)
    ∧ hdr_magic h = RECORD_MAGIC ∧ hdr_kind h = kind_u16 (rec_kind r) ∧ hdr_seq h = rec_seq r
    ∧ hdr_payload_len h = len (rec_payload r).
Proof.
  intros Hf Hwf. unfold encode_record_with. rewrite <- app_assoc.
  set (pre := header_prefix _ _ _ _ _). set (h := pre ++ _). exists h.
  assert (len h = HEADER_LEN) as Hh.
  { unfold h, pre. rewrite len_app, len_header_prefix by done. by len_simpl. }
  rewrite read_complete by (rewrite len_app; lia). rewrite take_len_app, drop_len_app by done.
  destruct (header_values fl r Hf Hwf) as (Hm & _ & Hk & Hs & _ & Hp & _). done.
Qed.

Lemma has_checkpoint_frecs frs tail fuel :
  Forall frec_wf frs →
  part_has_checkpoint (length frs + fuel) (encode_frecs frs ++ tail)
  = existsb is_checkpoint (map snd frs) || part_has_checkpoint fuel tail.
Proof.
  induction 1 as [|[fl r] frs [Hfl Hr] _ IH]; [done|]. cbn [length Nat.add part_has_checkpoint].
  rewrite encode_frecs_cons, <- app_assoc. cbn [fst snd] in *.
  destruct (read_header fl r (encode_frecs frs ++ tail) Hfl Hr) as (h & -> & Hm & Hk & _ & Hp).
  rewrite Hm, Hk, Hp. unfold bytes_eqb. rewrite bool_decide_eq_true_2 by done. cbn [negb map existsb snd].
  rewrite kind_u16_checkpoint. unfold is_checkpoint at 1. destruct (bool_decide _); [done|].
  rewrite drop_len_app by done. apply IH.
Qed.

(** On a part that ends on a record boundary the walk is exact. *)
Lemma file_has_checkpoint_clean c frs :
  decode_segment c = (frs, [], CleanEof) →
  file_has_checkpoint c = existsb is_checkpoint (map snd frs).
Proof.
  intros Hd. apply decode_segment_spec in Hd as (-> & Hwf & _). unfold file_has_checkpoint.
  pose proof (len_encode_frecs_ge _ Hwf) as Hle.
  replace (S (length (encode_frecs frs ++ []))) with
    (length frs + S (length (encode_frecs frs) - length frs))%nat.
  2:{ rewrite length_app. cbn. lia. }
  rewrite has_checkpoint_frecs by done. cbn. by rewrite orb_false_r.
Qed.
End Walk.

(** ** Retention is safe at every step *)

Section RetainSafety.
Context `{ManifestSerde, !ManifestSerdeLaws, Crc32Fast, !Crc32FastLaws}.

(** The only steps retention takes: a tombstone for an incarnation other
    than the latest, and the removal of a part of an incarnation whose
    tombstone is already on disk. *)
Definition retain_op (deleted : list N) (d : Dir) (op : DiskOp) : Prop :=
  match op with
  | Append n data => n = MANIFEST_FILE_NAME ∧
      ∃ i, i ∈ deleted ∧ i <= u64_max ∧ data = json_to_vec (Retired i) ++ [x0a]
  | Remove n => ∃ i p ls, i ∈ deleted ∧ parse_segment_name n = Some (i, p)
      ∧ read_manifest_lines d = Ok ls ∧ Retired i ∈ ls
  | SyncData _ | SyncDir => True
  | _ => False
  end.

Definition manifest_readable (d : Dir) : Prop := ∃ ls, manifest_is d ls.

Lemma delete_parts_ops deleted i d ls :
  i ∈ deleted → canonical d → manifest_is d ls → Retired i ∈ ls →
  traced (retain_op deleted) (delete_parts i) d
  ∧ manifest_is (exec d (delete_parts i d).1) ls ∧ canonical (exec d (delete_parts i d).1).
Proof.
  intros Hi Hc Hm Hr. unfold traced, delete_parts.
  rewrite (reads_bind (λ d, Ok (list_segments d)) _ d (list_segments d) eq_refl).
  assert (traced (retain_op deleted) (for_each (rev (filter (λ ip : N * N, ip.1 = i) (list_segments d)))
            (λ ip, remove_file (segment_path i ip.2))) d
    ∧ (λ d', manifest_is d' ls ∧ canonical d') (exec d (for_each (rev (filter (λ ip : N * N, ip.1 = i) (list_segments d)))
            (λ ip, remove_file (segment_path i ip.2)) d).1)) as [Ht Hx].
  { apply (traced_for_each (retain_op deleted) _ _ d (λ d', manifest_is d' ls ∧ canonical d')); [done|].
    intros [j p] d' Hin [Hm' Hc']. cbn [snd].
    apply list_elem_of_In, in_rev, list_elem_of_In, list_elem_of_filter in Hin as [Hj Hin].
    cbn in Hj. subst j. apply elem_of_canonical in Hin as (Hib & Hpb & _); [|done].
    pose proof (parse_segment_path i p Hib Hpb) as Hpp.
    assert (segment_path i p ≠ MANIFEST_FILE_NAME) as Hne.
    { intros Heq. rewrite Heq in Hpp. by rewrite manifest_not_segment in Hpp. }
    unfold remove_file, fs_read. split.
    - apply traced_reads. intros a _. apply traced_step. cbn.
      exists i, p, ls. split_and!; try done. by apply read_manifest_is.
    - unfold mbind, disk_bind, reads. destruct (d' !! segment_path i p) as [c|]; [|done].
      cbn. split.
      + destruct Hm' as [Ht Hwf]. split; [|done]. by rewrite lookup_delete_ne.
      + intros n a b Hn. apply Hc'. by apply lookup_delete_is_Some in Hn as [_ ?]. }
  by split.
Qed.

Lemma retire_ops deleted i d :
  i ∈ deleted → i <= u64_max → canonical d ∧ manifest_readable d →
  traced (retain_op deleted) (retire i) d
  ∧ (canonical (exec d (retire i d).1) ∧ manifest_readable (exec d (retire i d).1)).
Proof.
  intros Hi Hib [Hc [ls Hm]]. unfold retire, RetiredIncarnation_append_to.
  destruct (append_manifest_is d ls (Retired i) Hm Hib) as (ops & Ha & Hm' & Hsame).
  assert (canonical (exec d ops)) as Hc'.
  { intros n a b Hn Hp. eapply Hc; [|done]. rewrite Hsame in Hn; [done|].
    intros ->. by rewrite manifest_not_segment in Hp. }
  destruct (delete_parts_ops deleted i (exec d ops) (ls ++ [Retired i]) Hi Hc' Hm') as (Ht & Hm'' & Hc'').
  { apply elem_of_app. right. by left. }
  split.
  - apply traced_bind.
    + apply traced_bind; [|done]. apply traced_step. split; [done|]. by exists i.
    + intros [] _. by rewrite Ha.
  - unfold mbind, disk_bind. rewrite Ha. destruct (delete_parts i (exec d ops)) as [o2 r] eqn:E.
    cbn [fst] in *. rewrite exec_app. split; [done|]. by eexists.
Qed.

Lemma retain_ops min d :
  canonical d → manifest_readable d →
  ∃ deleted, traced (retain_op deleted) (retain_before min) d
    ∧ (∀ i, i ∈ deleted → i < min ∧ Some i ≠ last (list_incarnations d)
         ∧ ∃ g, latest_checkpoint_incarnation d = Ok (Some g) ∧ i < g)
    ∧ (∀ ids, (retain_before min d).2 = Ok ids → ids = deleted).
Proof.
  intros Hc Hm. unfold retain_before.
  destruct (latest_checkpoint_incarnation d) as [[g|]|e] eqn:Hg.
  2:{ exists []. unfold traced, reads, mbind, disk_bind. rewrite Hg. cbn. split_and!; [done| |by intros ids [= <-]].
      intros i Hi. by apply elem_of_nil in Hi. }
  2:{ exists []. unfold traced, reads, mbind, disk_bind. rewrite Hg. cbn. split_and!; [done| |done].
      intros i Hi. by apply elem_of_nil in Hi. }
  destruct (retired_incarnations d) as [ret|e] eqn:Hr.
  2:{ exists []. unfold traced, reads, mbind, disk_bind. rewrite Hg. cbn. rewrite Hr. cbn.
      split_and!; [done| |done]. intros i Hi. by apply elem_of_nil in Hi. }
  set (deleted := filter (λ i, expendable (N.min min g) (last (list_incarnations d)) ret i) (list_incarnations d)).
  exists deleted.
  assert (∀ i, i ∈ deleted → i < N.min min g ∧ Some i ≠ last (list_incarnations d) ∧ i <= u64_max) as Hdel.
  { intros i [Hx Hin]%list_elem_of_filter. unfold expendable in Hx. apply negb_True in Hx.
    apply not_true_iff_false in Hx || (apply Is_true_false in Hx). bool_prop.
    split_and!; [done|done|]. apply elem_of_list_incarnations in Hin as (p & Hp).
    apply elem_of_canonical in Hp as (? & _); done. }
  split_and!.
  - apply traced_reads. rewrite Hg. intros g' [= <-]. apply traced_reads. intros incs [= <-].
    apply traced_reads. rewrite Hr. intros r' [= <-]. fold deleted. apply traced_bind.
    + apply (traced_for_each (retain_op deleted) _ _ d (λ d', canonical d' ∧ manifest_readable d')); [done|].
      intros i d' Hi Hd'. apply retire_ops; [done|by apply Hdel|done].
    + intros [] _. apply traced_bind; [|done]. by destruct (_ =? 0).
  - intros i Hi. destruct (Hdel i Hi) as (Hlt & Hl & _). split_and!; [lia|done|]. exists g. split; [done|lia].
  - intros ids. unfold reads, mbind, disk_bind. rewrite Hg. cbn. rewrite Hr. cbn. fold deleted.
    destruct (for_each deleted retire d) as [o1 [[]|e]]; cbn; [|done].
    destruct (len deleted =? 0); cbn; by intros [= <-].
Qed.

Lemma keys_retire ls i : keys (ls ++ [Retired i]) = keys ls.
Proof. unfold keys. rewrite omap_app. cbn. by rewrite app_nil_r. Qed.

Lemma tombs_retire ls i j : j ∈ tombs (ls ++ [Retired i]) ↔ j ∈ tombs ls ∨ j = i.
Proof. unfold tombs. rewrite omap_app, list_to_set_app_L. cbn. set_solver. Qed.

Lemma elem_of_tombs ls i : Retired i ∈ ls → i ∈ tombs ls.
Proof. intros Hi. unfold tombs. rewrite elem_of_list_to_set, list_elem_of_omap. by exists (Retired i). Qed.

(** A healthy journal whose newest part is part [q] of [latest]. *)
Definition retaining (latest : N) (ls : list ManifestLine) (d : Dir) : Prop :=
  healthy ls d ∧ latest ∉ tombs ls ∧ latest <= u64_max
  ∧ ∃ q, q <= u64_max ∧ is_Some (d !! segment_path latest q) ∧ newest_live (tombs ls) d latest q.

Lemma pair_le_antisym a b : pair_le a b → pair_le b a → a = b.
Proof. destruct a, b. unfold pair_le. cbn. intros. f_equal; lia. Qed.

Lemma retaining_tombstone latest ls d d' i :
  retaining latest ls d → i ≠ latest → manifest_is d' (ls ++ [Retired i]) →
  (∀ n, n ≠ MANIFEST_FILE_NAME → d' !! n = d !! n) →
  retaining latest (ls ++ [Retired i]) d'.
Proof.
  intros ([[Hc Hm Hk Hs] Hd] & Hlt & Hlb & q & Hq & Hlq & Hn) Hi Hm' Hsame.
  assert (∀ j p, j <= u64_max → p <= u64_max → d' !! segment_path j p = d !! segment_path j p) as Hseg.
  { intros j p Hj Hp. apply Hsame. intros Heq. pose proof (parse_segment_path j p Hj Hp) as Hpp.
    rewrite Heq in Hpp. by rewrite manifest_not_segment in Hpp. }
  assert (∀ j p, newest_live (tombs ls) d j p → newest_live (tombs (ls ++ [Retired i])) d' j p) as Hnew.
  { intros j p Hjp a b Ha Hb Hab Hat. rewrite Hseg in Hab by done. apply Hjp; try done.
    intros Hat'. apply Hat. apply tombs_retire. by left. }
  assert (latest ∉ tombs (ls ++ [Retired i])) as Hlt'.
  { rewrite tombs_retire. intros [?|?]; congruence. }
  assert (∀ j p, newest_live (tombs (ls ++ [Retired i])) d' j p → newest_live (tombs ls) d j p) as Hold.
  { intros j p Hjp a b Ha Hb Hab Hat. etrans; [by apply Hn|]. apply Hjp; try done. by rewrite Hseg. }
  split; [|split_and!; [done|done|exists q; split_and!; [done|by rewrite Hseg|by apply Hnew]]].
  split; [split|].
  - intros n a b Hna Hp. eapply Hc; [|done]. rewrite Hsame in Hna; [done|].
    intros ->. by rewrite manifest_not_segment in Hp.
  - done.
  - by rewrite keys_retire.
  - intros e He Het. apply elem_of_app in He as [He|He%list_elem_of_singleton]; [|done].
    destruct (Hs e He) as (c & Hcc & ?).
    { intros Ht. apply Het, tombs_retire. by left. }
    exists c. split; [|done].
    assert (entry_wf e) as (? & ? & _).
    { destruct Hm as [_ Hwf]. rewrite Forall_forall in Hwf. by apply (Hwf _ He). }
    by rewrite Hseg.
  - intros j p c Hj Hp Hcc Hjt. rewrite Hseg in Hcc by done. rewrite keys_retire.
    destruct (Hd j p c Hj Hp Hcc) as [Hx Hy].
    { intros Ht. apply Hjt, tombs_retire. by left. }
    split; [|intros Hnl; by apply Hy, Hold].
    destruct Hx as [?|[?|[? ?]]]; [by left|by right; left|right; right; auto].
Qed.

Lemma retaining_remove latest ls d i p :
  retaining latest ls d → i ∈ tombs ls → i <= u64_max → p <= u64_max →
  retaining latest ls (delete (segment_path i p) d).
Proof.
  intros ([[Hc [Ht Hwf] Hk Hs] Hd] & Hlt & Hlb & q & Hq & Hlq & Hn) Hi Hib Hpb.
  assert (∀ j b, j <= u64_max → b <= u64_max → j ∉ tombs ls →
    delete (segment_path i p) d !! segment_path j b = d !! segment_path j b) as Hseg.
  { intros j b Hj Hb Hjt. rewrite lookup_delete_ne; [done|].
    apply path_ne; try done. intros [= -> ->]. done. }
  assert (∀ j b, newest_live (tombs ls) d j b ↔ newest_live (tombs ls) (delete (segment_path i p) d) j b) as Hnew.
  { intros j b. split; intros Hjb x y Hx Hy Hxy Hxt.
    - apply Hjb; try done. by apply lookup_delete_is_Some in Hxy as [_ ?].
    - apply Hjb; try done. by rewrite Hseg. }
  split; [|split_and!; [done|done|exists q; split_and!; [done|by rewrite Hseg|by apply Hnew]]].
  split; [split|].
  - intros n a b Hna. apply Hc. by apply lookup_delete_is_Some in Hna as [_ ?].
  - split; [|done]. rewrite lookup_delete_ne; [done|]. intros Heq.
    pose proof (parse_segment_path i p Hib Hpb) as Hpp. rewrite Heq in Hpp.
    by rewrite manifest_not_segment in Hpp.
  - done.
  - intros e He Het. destruct (Hs e He Het) as (c & Hcc & ?). exists c. split; [|done].
    assert (entry_wf e) as (? & ? & _).
    { rewrite Forall_forall in Hwf. by apply (Hwf _ He). }
    by rewrite Hseg.
  - intros j b c Hj Hb Hcc Hjt. rewrite Hseg in Hcc by done.
    destruct (Hd j b c Hj Hb Hcc Hjt) as [Hx Hy]. rewrite <- Hnew. done.
Qed.

Lemma retaining_op latest deleted ls d op :
  retaining latest ls d → latest ∉ deleted → retain_op deleted d op →
  ∃ ls', retaining latest ls' (exec_op d op).
Proof.
  intros Hr Hl Hop. pose proof Hr as ([[Hc Hm Hk Hs] Hd] & _).
  destruct op as [n|n|n k|n data|n|]; cbn [retain_op exec_op] in *; [done| |done| |by exists ls|by exists ls].
  - destruct Hop as (i & p & ls' & _ & Hp & Hrd & Hin).
    rewrite (read_manifest_is d ls Hm) in Hrd. injection Hrd as <-. exists ls.
    destruct (parse_segment_name_bound _ _ _ Hp) as [Hi Hpb].
    destruct (d !! n) as [c|] eqn:E.
    + assert (n = segment_path i p) as -> by (by apply Hc).
      apply retaining_remove; try done. by apply elem_of_tombs.
    + by rewrite delete_id.
  - destruct Hop as (-> & i & Hi & Hib & ->).
    destruct (append_manifest_is d ls (Retired i) Hm Hib) as (ops & Ha & Hm' & Hsame).
    injection Ha as <-. exists (ls ++ [Retired i]).
    eapply (retaining_tombstone latest ls d); try done. by intros ->.
Qed.

Lemma retaining_trace latest deleted ls d ops k :
  retaining latest ls d → latest ∉ deleted → trace_ok (retain_op deleted) d ops →
  ∃ ls', retaining latest ls' (exec d (take k ops)).
Proof.
  intros Hr Hl. revert ls d Hr k. induction ops as [|op ops IH]; intros ls d Hr k Ht.
  { rewrite take_nil. by exists ls. }
  destruct k as [|k]; [by exists ls|]. destruct Ht as [Hop Ht]. cbn [take].
  destruct (retaining_op _ _ _ _ _ Hr Hl Hop) as [ls' Hr'].
  change (exec d (op :: ?l)) with (exec (exec_op d op) l). by eapply IH.
Qed.

Lemma retain_trace_keeps deleted d ops k n i p :
  trace_ok (retain_op deleted) d ops → parse_segment_name n = Some (i, p) → i ∉ deleted →
  exec d (take k ops) !! n = d !! n.
Proof.
  intros Ht Hn Hi. revert d Ht k. induction ops as [|op ops IH]; intros d Ht k; [by rewrite take_nil|].
  destruct k as [|k]; [done|]. destruct Ht as [Hop Ht]. cbn [take].
  change (exec d (op :: ?l)) with (exec (exec_op d op) l). rewrite (IH _ Ht).
  destruct op as [m|m|m j|m data|m|]; cbn [retain_op exec_op] in *; [done| |done| |done|done].
  - destruct Hop as (i' & p' & ls & Hi' & Hp & _). rewrite lookup_delete_ne; [done|]. intros ->. congruence.
  - destruct Hop as [-> _]. rewrite lookup_insert_ne; [done|]. intros <-.
    by rewrite manifest_not_segment in Hn.
Qed.
End RetainSafety.

(** ** Theorems *)

Section Theorems.
Context `{ManifestSerde, !ManifestSerdeLaws, Crc32Fast, !Crc32FastLaws}.

End Theorems.

(** ** Witnesses *)

#[local] Existing Instance csv_serde.
#[local] Existing Instance csv_laws.

Definition sample_checkpoint (program : bytes) : Rec :=
  mk_record CheckpointRef 1 0 (encode_checkpoint (mk_checkpoint 24 80 (1, 1) false false false 0 program)).

(** An old incarnation, and a newer one that holds a checkpoint. *)
Definition superseded : Dir :=
  <[segment_path 2 1 := encode_record (sample_checkpoint (bs "new"))]>
  {[ segment_path 1 1 := encode_records crash_records ]}.

Lemma superseded_lookup i p c :
  i <= u64_max → p <= u64_max → superseded !! segment_path i p = Some c →
  (i = 1 ∧ p = 1 ∧ c = encode_records crash_records)
  ∨ (i = 2 ∧ p = 1 ∧ c = encode_record (sample_checkpoint (bs "new"))).
Proof.
  intros Hi Hp. unfold superseded. intros [[Heq <-]|[_ [Heq <-]%lookup_singleton_Some]]%lookup_insert_Some;
    apply segment_path_inj in Heq as [<- <-]; auto; by vm_compute.
Qed.

Lemma superseded_healthy : healthy [] superseded.
Proof.
  assert (1 <= u64_max ∧ 2 <= u64_max) as [H1 H2] by (by vm_compute).
  split.
  - split.
    + intros n i p [c Hc] Hn. unfold superseded in Hc.
      apply lookup_insert_Some in Hc as [[<- _]|[_ [<- _]%lookup_singleton_Some]];
        (rewrite parse_segment_path in Hn by done; by injection Hn as <- <-).
    + split; [by vm_compute|constructor].
    + apply NoDup_nil_2.
    + intros e He. by apply elem_of_nil in He.
  - intros i p c Hi Hp Hc _. destruct (superseded_lookup i p c Hi Hp Hc) as [(-> & -> & ->)|(-> & -> & ->)]; (split;
      [right; left; eexists; split_and!; [by vm_compute|by vm_compute|by vm_compute]
      |intros _ _ fl r frs tail s Hd; vm_compute in Hd; by injection Hd as _ <- _ _ _]).
Qed.


(** *** What the header walk lets through *)

(** Incarnation 1 holds a complete checkpoint, the newer incarnation 2 only
    the beginning of one. *)
Definition torn_checkpoint : Dir :=
  <[segment_path 2 1 := take 50 (encode_record (sample_checkpoint (bs "new")))]>
  {[ segment_path 1 1 := encode_record (sample_checkpoint (bs "old")) ]}.

(** The gate trusts a checkpoint header whose record was never completed: the
    only complete checkpoint is deleted, and none is left. *)
Lemma torn_checkpoint_opens_gate :
  latest_checkpoint_incarnation torn_checkpoint = Ok (Some 2)
  ∧ checkpoint_anchors torn_checkpoint 2 = Ok []
  ∧ (retain_before u64_max torn_checkpoint).2 = Ok [1]
  ∧ frecs_of (content (exec torn_checkpoint (retain_before u64_max torn_checkpoint).1) (segment_path 1 1)) = []
  ∧ frecs_of (content (exec torn_checkpoint (retain_before u64_max torn_checkpoint).1) (segment_path 2 1)) = [].
Proof. vm_compute. done. Qed.

(** Three incarnations: 50 sealed bytes, 200 sealed bytes, and the gate. *)
Definition budget_journal : Dir :=
  <[MANIFEST_FILE_NAME := manifest_text
      [Sealed (mk_entry 1 1 1 1 50 0); Sealed (mk_entry 2 1 1 1 200 0)]]>
  {[ segment_path 3 1 := encode_record (sample_checkpoint []) ]}.

(** The byte budget can be exceeded: the walk skips the incarnation that does not fit and then keeps an older
    one, so the range it returns exceeds the cap. *)
Lemma budget_skips_over :
  min_incarnation_for_byte_budget 100 budget_journal = Ok 1
  ∧ bytes_in (bytes_per_inc [mk_entry 1 1 1 1 50 0; mk_entry 2 1 1 1 200 0]) 1 3 = 250.
Proof. vm_compute. done. Qed.
