(* ===== verification/Sequencer.v ===== *)
(** * The sequencing authority

    [SequencerCore] of [src/src/session/journal/appender.rs]: sequence numbers
    and elapsed times assigned before an event is published, the byte-bounded
    cache of events the journal cannot serve yet, and the journal and
    durability cursors.  The theorem says that the cache never loses an event
    that is not journaled, however publications and acknowledgements
    interleave. *)

From S2P Require Import Prelude Crc Text RecordFormat SegmentScan Disk Manifest Open Retention.

Definition DEFAULT_CACHE_BUDGET_BYTES : N := 8 * 1024 * 1024.

(** [OrderedEvent] ([open.rs]). *)
Record OrderedEvent := mk_event {
  ev_cursor : JournalCursor;
  ev_elapsed_ms : N;
  ev_kind : RecordKind;
  ev_payload : bytes;
}.

Definition ev_seq (e : OrderedEvent) : N := cur_seq (ev_cursor e).

(** The record an event becomes on disk. *)
Definition record_of (e : OrderedEvent) : Rec :=
  mk_record (ev_kind e) (ev_seq e) (ev_elapsed_ms e) (ev_payload e).

(** [started] is the clock reading, in milliseconds, when the core was made;
    later readings are arguments of the operations. *)
Record SequencerCore := mk_core {
  sc_incarnation : N;
  sc_next_seq : N;
  sc_started : N;
  sc_journal_seq : N;
  sc_durable_seq : N;
  sc_degraded : option bytes;
  sc_cache : list OrderedEvent;
  sc_cache_bytes : N;
  sc_cache_budget_bytes : N;
}.

Definition with_budget (incarnation cache_budget_bytes now : N) : SequencerCore :=
  {| sc_incarnation := incarnation; sc_next_seq := 1; sc_started := now; sc_journal_seq := 0;
     sc_durable_seq := 0; sc_degraded := None; sc_cache := []; sc_cache_bytes := 0;
     sc_cache_budget_bytes := cache_budget_bytes |}.

Definition new_core (incarnation now : N) : SequencerCore :=
  with_budget incarnation DEFAULT_CACHE_BUDGET_BYTES now.

(** The [while let] of [evict_journaled], over the cache and its byte count. *)
Fixpoint evict (journal_seq : N) (cache : list OrderedEvent) (cache_bytes : N)
    : list OrderedEvent * N :=
  match cache with
  | [] => ([], cache_bytes)
  | front :: rest =>
      if journal_seq <? ev_seq front then (cache, cache_bytes)
      else evict journal_seq rest (cache_bytes - len (ev_payload front))
  end.

Definition evict_journaled (c : SequencerCore) : SequencerCore :=
  let '(cache, cache_bytes) := evict (sc_journal_seq c) (sc_cache c) (sc_cache_bytes c) in
  {| sc_incarnation := sc_incarnation c; sc_next_seq := sc_next_seq c; sc_started := sc_started c;
     sc_journal_seq := sc_journal_seq c; sc_durable_seq := sc_durable_seq c;
     sc_degraded := sc_degraded c; sc_cache := cache; sc_cache_bytes := cache_bytes;
     sc_cache_budget_bytes := sc_cache_budget_bytes c |}.

(** Charge a new event: [next_seq += 1; cache_bytes += payload.len()]. *)
Definition charge (c : SequencerCore) (n : N) : SequencerCore :=
  {| sc_incarnation := sc_incarnation c; sc_next_seq := u64_add (sc_next_seq c) 1;
     sc_started := sc_started c; sc_journal_seq := sc_journal_seq c;
     sc_durable_seq := sc_durable_seq c; sc_degraded := sc_degraded c; sc_cache := sc_cache c;
     sc_cache_bytes := sc_cache_bytes c + n; sc_cache_budget_bytes := sc_cache_budget_bytes c |}.

Definition push_back (c : SequencerCore) (e : OrderedEvent) : SequencerCore :=
  {| sc_incarnation := sc_incarnation c; sc_next_seq := sc_next_seq c; sc_started := sc_started c;
     sc_journal_seq := sc_journal_seq c; sc_durable_seq := sc_durable_seq c;
     sc_degraded := sc_degraded c; sc_cache := sc_cache c ++ [e];
     sc_cache_bytes := sc_cache_bytes c; sc_cache_budget_bytes := sc_cache_budget_bytes c |}.

Definition over_cache_budget (c : SequencerCore) : bool :=
  sc_cache_budget_bytes c <? sc_cache_bytes c.

Definition publish (now : N) (kind : RecordKind) (payload : bytes) (c : SequencerCore)
    : OrderedEvent * SequencerCore :=
  let event := {| ev_cursor := mk_cursor (sc_incarnation c) (sc_next_seq c);
                  ev_elapsed_ms := (now - sc_started c) mod 18446744073709551616;
                  ev_kind := kind; ev_payload := payload |} in
  let c := charge c (len payload) in
  let c := if over_cache_budget c then evict_journaled c else c in
  (event, push_back c event).

Definition note_journaled (seq : N) (c : SequencerCore) : SequencerCore :=
  {| sc_incarnation := sc_incarnation c; sc_next_seq := sc_next_seq c; sc_started := sc_started c;
     sc_journal_seq := N.max (sc_journal_seq c) seq; sc_durable_seq := sc_durable_seq c;
     sc_degraded := sc_degraded c; sc_cache := sc_cache c; sc_cache_bytes := sc_cache_bytes c;
     sc_cache_budget_bytes := sc_cache_budget_bytes c |}.

Definition note_durable (seq : N) (c : SequencerCore) : SequencerCore :=
  {| sc_incarnation := sc_incarnation c; sc_next_seq := sc_next_seq c; sc_started := sc_started c;
     sc_journal_seq := sc_journal_seq c; sc_durable_seq := N.max (sc_durable_seq c) seq;
     sc_degraded := sc_degraded c; sc_cache := sc_cache c; sc_cache_bytes := sc_cache_bytes c;
     sc_cache_budget_bytes := sc_cache_budget_bytes c |}.

(** The first reason is kept. *)
Definition degrade (reason : bytes) (c : SequencerCore) : SequencerCore :=
  {| sc_incarnation := sc_incarnation c; sc_next_seq := sc_next_seq c; sc_started := sc_started c;
     sc_journal_seq := sc_journal_seq c; sc_durable_seq := sc_durable_seq c;
     sc_degraded := match sc_degraded c with Some r => Some r | None => Some reason end;
     sc_cache := sc_cache c; sc_cache_bytes := sc_cache_bytes c;
     sc_cache_budget_bytes := sc_cache_budget_bytes c |}.

Definition is_degraded (c : SequencerCore) : bool :=
  match sc_degraded c with Some _ => true | None => false end.

Definition is_fully_durable (c : SequencerCore) : bool :=
  negb (is_degraded c) && (sc_next_seq c - 1 <=? sc_durable_seq c).

Definition degraded_reason (c : SequencerCore) : option bytes := sc_degraded c.

(** ** The invariant *)

(** Payload bytes of a list of events. *)
Definition event_bytes (es : list OrderedEvent) : N := payload_bytes (map record_of es).

(** After publishing exactly [published]: their sequences count up from one,
    the cache is what is left of them after dropping journaled ones from the
    front, and its byte count is exact. *)
Record core_ok (c : SequencerCore) (published : list OrderedEvent) : Prop := {
  core_next : sc_next_seq c = len published + 1;
  core_counting : counting 1 (map record_of published);
  core_cursors : Forall (λ e, cur_incarnation (ev_cursor e) = sc_incarnation c) published;
  core_cache : ∃ k, sc_cache c = drop k published ∧ (k <= length published)%nat
                 ∧ N.of_nat k <= sc_journal_seq c;
  core_bytes : sc_cache_bytes c = event_bytes (sc_cache c);
}.

Lemma event_bytes_cons e es : event_bytes (e :: es) = len (ev_payload e) + event_bytes es.
Proof. done. Qed.

Lemma event_bytes_app a b : event_bytes (a ++ b) = event_bytes a + event_bytes b.
Proof. unfold event_bytes. by rewrite map_app, payload_bytes_app. Qed.

Lemma counting_lookup e rs i r : counting e rs → rs !! i = Some r → rec_seq r = e + N.of_nat i.
Proof.
  revert e i. induction rs as [|r' rs IH]; intros e i Hc Hl; [done|].
  apply counting_cons in Hc as (Hs & _ & Hc). destruct i as [|i].
  - injection Hl as ->. lia.
  - rewrite (IH _ _ Hc Hl). lia.
Qed.

(** Eviction drops a journaled prefix, as long as it can, and keeps the byte
    count in step. *)
Lemma evict_spec journal_seq cache extra :
  ∃ k, evict journal_seq cache (event_bytes cache + extra)
       = (drop k cache, event_bytes (drop k cache) + extra)
    ∧ (k <= length cache)%nat
    ∧ (∀ e, e ∈ take k cache → ev_seq e <= journal_seq)
    ∧ (∀ e rest, drop k cache = e :: rest → journal_seq < ev_seq e).
Proof.
  induction cache as [|e cache IH].
  - exists 0%nat. split_and!; [done|done| |done]. by intros e ?%elem_of_nil.
  - cbn [evict]. destruct (N.ltb_spec journal_seq (ev_seq e)) as [Hlt|Hge].
    + exists 0%nat. split_and!; [done|lia| |by intros ? ? [= <- <-]]. by intros ? ?%elem_of_nil.
    + destruct IH as (k & Hk & Hl & Hin & Hout). exists (S k). cbn [drop take length].
      rewrite event_bytes_cons.
      replace (len (ev_payload e) + event_bytes cache + extra - len (ev_payload e))
        with (event_bytes cache + extra) by lia.
      split_and!; [done|lia| |done]. intros e' [-> |He]%elem_of_cons; [done|by apply Hin].
Qed.

Lemma evict_cache journal_seq cache a b :
  (evict journal_seq cache a).1 = (evict journal_seq cache b).1.
Proof. revert a b. induction cache as [|e cache IH]; intros; [done|]. cbn [evict]. by case_match. Qed.

Lemma core_ok_new incarnation budget now : core_ok (with_budget incarnation budget now) [].
Proof.
  split; cbn; try done. by exists 0%nat.
Qed.

Section Core.

Lemma core_ok_evict c published :
  core_ok c published → core_ok (evict_journaled c) published.
Proof.
  intros [Hn Hc Hi (k & Hk & Hle & Hj) Hb]. unfold evict_journaled.
  destruct (evict_spec (sc_journal_seq c) (sc_cache c) 0) as (j & He & Hlj & Hin & _).
  rewrite !N.add_0_r, <- Hb in He. rewrite He. split; cbn; [done..| |done].
  rewrite Hk in *. rewrite length_drop in Hlj. exists (k + j)%nat. rewrite drop_drop.
  split_and!; [done|lia|]. destruct (decide (j = 0)%nat) as [-> |Hj0]; [by rewrite Nat.add_0_r|].
  destruct (lookup_lt_is_Some_2 published (k + (j - 1))) as [e He']; [lia|].
  assert (ev_seq e <= sc_journal_seq c) as Hs.
  { apply Hin. apply (list_elem_of_lookup_2 _ (j - 1)). rewrite lookup_take_lt by lia.
    by rewrite lookup_drop. }
  assert (map record_of published !! (k + (j - 1))%nat = Some (record_of e)) as Hl.
  { change (map record_of published) with (record_of <$> published). by rewrite list_lookup_fmap, He'. }
  pose proof (counting_lookup _ _ _ _ Hc Hl) as Hs'. cbn in Hs'. unfold ev_seq in *. lia.
Qed.

(** Publishing appends one event to what has been published. *)
Lemma core_ok_publish now kind payload c published (p := publish now kind payload c) :
  core_ok c published → len published + 2 <= u64_max →
  core_ok p.2 (published ++ [p.1])
  ∧ ev_seq p.1 = len published + 1 ∧ ev_kind p.1 = kind ∧ ev_payload p.1 = payload
  ∧ sc_journal_seq p.2 = sc_journal_seq c ∧ sc_durable_seq p.2 = sc_durable_seq c
  ∧ sc_degraded p.2 = sc_degraded c ∧ sc_incarnation p.2 = sc_incarnation c.
Proof.
  intros Hok Hmax. unfold p, publish. clear p.
  set (e := mk_event _ _ _ _). set (c1 := charge c (len payload)).
  set (c2 := if over_cache_budget c1 then _ else _). cbn [fst snd].
  pose proof Hok as [Hn Hc Hi (k & Hk & Hle & Hj) Hb].
  assert (ev_seq e = len published + 1) as He by done.
  assert (sc_next_seq c1 = len published + 2) as Hn1.
  { cbn. rewrite Hn, u64_add_small by lia. lia. }
  assert (∃ j, sc_cache c2 = drop j published ∧ (j <= length published)%nat
    ∧ N.of_nat j <= sc_journal_seq c2 ∧ sc_cache_bytes c2 = event_bytes (sc_cache c2) + len payload
    ∧ sc_next_seq c2 = sc_next_seq c1 ∧ sc_journal_seq c2 = sc_journal_seq c
    ∧ sc_durable_seq c2 = sc_durable_seq c ∧ sc_degraded c2 = sc_degraded c
    ∧ sc_incarnation c2 = sc_incarnation c) as (j & Hc2 & Hj1 & Hj2 & Hb2 & Hn2 & Hjs & Hds & Hdg & Hin).
  { unfold c2. destruct (over_cache_budget c1); [|exists k; cbn; rewrite Hb; by split_and!].
    pose proof (core_ok_evict c published Hok) as [_ _ _ (j & Hj' & Hl' & Hk') Hb'].
    unfold evict_journaled in *. cbn [c1 charge sc_journal_seq sc_cache sc_cache_bytes].
    destruct (evict_spec (sc_journal_seq c) (sc_cache c) (len payload)) as (i & Hev & _).
    destruct (evict_spec (sc_journal_seq c) (sc_cache c) 0) as (i' & Hev' & _).
    rewrite N.add_0_r, <- Hb in Hev'. rewrite <- Hb in Hev.
    assert (drop i (sc_cache c) = drop i' (sc_cache c)) as Hsame.
    { pose proof (evict_cache (sc_journal_seq c) (sc_cache c) (sc_cache_bytes c + len payload)
        (sc_cache_bytes c)) as Hsame. by rewrite Hev, Hev' in Hsame. }
    rewrite Hev, Hev' in *. cbn in Hj', Hl', Hk' |- *. exists j. rewrite Hsame. by split_and!. }
  split_and!; try done.
  split; cbn [push_back sc_next_seq sc_incarnation sc_cache sc_journal_seq sc_cache_bytes].
  - rewrite Hn2, Hn1, len_app. change (len [e]) with 1. lia.
  - rewrite map_app. apply counting_app. split; [done|]. rewrite len_map. cbn [map].
    apply counting_cons. change (rec_seq (record_of e)) with (ev_seq e). rewrite He, len_nil.
    split_and!; [lia|lia|]. split; [done|]. rewrite len_nil. lia.
  - apply Forall_app. rewrite Hin. split; [done|]. by constructor.
  - exists j. rewrite drop_app_le by done. rewrite Hc2, length_app. split_and!; [done|lia|lia].
  - rewrite Hb2, event_bytes_app, event_bytes_cons. change (event_bytes []) with 0. cbn [e ev_payload]. lia.
Qed.

Lemma core_ok_note_journaled n c published : core_ok c published → core_ok (note_journaled n c) published.
Proof. intros [? ? ? (k & ? & ? & ?) ?]. split; cbn; try done. exists k. split_and!; [done..|lia]. Qed.
Lemma core_ok_note_durable n c published : core_ok c published → core_ok (note_durable n c) published.
Proof. by intros [? ? ? ? ?]. Qed.
Lemma core_ok_degrade r c published : core_ok c published → core_ok (degrade r c) published.
Proof. by intros [? ? ? ? ?]. Qed.

(** When the budget was exceeded, whatever may go is gone. *)
Lemma publish_evicts now kind payload c published (p := publish now kind payload c) :
  core_ok c published →
  sc_cache_bytes p.2 <= sc_cache_budget_bytes c ∨ sc_cache p.2 = [p.1]
  ∨ ∃ front rest, sc_cache p.2 = front :: rest ∧ sc_journal_seq c < ev_seq front.
Proof.
  intros [Hn Hc Hi Hk Hb]. unfold p, publish, over_cache_budget. clear p.
  cbn [charge sc_cache_budget_bytes sc_cache_bytes]. set (e := mk_event _ _ _ _).
  destruct (N.ltb_spec (sc_cache_budget_bytes c) (sc_cache_bytes c + len payload)) as [Hlt|Hge];
    cbn [fst snd push_back sc_cache_bytes sc_cache charge]; [right|by left].
  unfold evict_journaled. cbn [charge sc_journal_seq sc_cache sc_cache_bytes]. rewrite Hb.
  destruct (evict_spec (sc_journal_seq c) (sc_cache c) (len payload)) as (j & -> & _ & _ & Hout).
  cbn [sc_cache]. destruct (drop j (sc_cache c)) as [|front rest]; [by left|right].
  exists front, (rest ++ [e]). split; [done|]. by eapply Hout.
Qed.

(** The operations on a core, and the events they publish. *)
Inductive CoreOp :=
  | Publish (now : N) (kind : RecordKind) (payload : bytes)
  | NoteJournaled (seq : N)
  | NoteDurable (seq : N)
  | Degrade (reason : bytes).

Definition run_op (cp : SequencerCore * list OrderedEvent) (op : CoreOp)
    : SequencerCore * list OrderedEvent :=
  match op with
  | Publish now kind payload => let '(e, c) := publish now kind payload cp.1 in (c, cp.2 ++ [e])
  | NoteJournaled n => (note_journaled n cp.1, cp.2)
  | NoteDurable n => (note_durable n cp.1, cp.2)
  | Degrade r => (degrade r cp.1, cp.2)
  end.

Lemma run_ops_ok ops c published :
  core_ok c published → len published + len ops + 1 <= u64_max →
  core_ok (foldl run_op (c, published) ops).1 (foldl run_op (c, published) ops).2
  ∧ sc_incarnation (foldl run_op (c, published) ops).1 = sc_incarnation c.
Proof.
  revert c published. induction ops as [|op ops IH]; intros c published Hok Hmax; [done|].
  rewrite len_cons in Hmax. cbn [foldl]. destruct op as [now kind payload|n|n|r]; cbn [run_op fst snd].
  - destruct (core_ok_publish now kind payload c published Hok) as (Hok' & _ & _ & _ & _ & _ & _ & Hinc); [lia|].
    destruct (publish now kind payload c) as [e c']. cbn [fst snd] in *.
    rewrite <- Hinc. apply IH; [done|]. rewrite len_app. change (len [e]) with 1. lia.
  - apply (IH (note_journaled n c)); [by apply core_ok_note_journaled|lia].
  - apply (IH (note_durable n c)); [by apply core_ok_note_durable|lia].
  - apply (IH (degrade r c)); [by apply core_ok_degrade|lia].
Qed.

(** The cache loses nothing.  After any sequence of publications,
    acknowledgements and failures, in any order (below 2^64 of them), the
    published events carry the sequences 1, 2, 3, ... of one incarnation; the
    cache holds, in order, all of them but a prefix the journal already
    serves, so every event that is not journaled is still cached, however far
    over budget that puts it; and the byte count is exact. *)
Theorem cache_loses_nothing incarnation budget now ops :
  len ops + 1 <= u64_max →
  let '(c, published) := foldl run_op (with_budget incarnation budget now, []) ops in
  map ev_cursor published = map (mk_cursor incarnation) (seqN 1 (length published))
  ∧ (∃ journaled, published = journaled ++ sc_cache c
       ∧ Forall (λ e, ev_seq e <= sc_journal_seq c) journaled)
  ∧ sc_cache_bytes c = event_bytes (sc_cache c).
Proof.
  intros Hmax. destruct (run_ops_ok ops _ [] (core_ok_new incarnation budget now)) as [Hok Hinc]; [by rewrite len_nil|].
  destruct (foldl run_op _ ops) as [c published]. cbn [fst snd with_budget sc_incarnation] in *.
  destruct Hok as [_ [Hc _] Hi (k & Hk & Hle & Hj) Hb]. split_and!; [| |done].
  - rewrite length_map in Hc. rewrite <- Hc. clear -Hi Hinc. rewrite map_map, map_map.
    induction Hi as [|e es He _ IH]; [done|]. cbn [map]. rewrite IH. f_equal.
    unfold record_of, ev_seq in *. rewrite Hinc in He. destruct (ev_cursor e). by cbn in *; subst.
  - exists (take k published). rewrite Hk, take_drop. split; [done|]. apply Forall_forall.
    intros e He. apply list_elem_of_lookup in He as [i Hi']. apply lookup_take_Some in Hi' as [Hi' Hlt].
    assert (map ev_seq published !! i = Some (ev_seq e)) as Hs.
    { change (map ev_seq published) with (ev_seq <$> published). by rewrite list_lookup_fmap, Hi'. }
    rewrite map_map in Hc. change (map (λ x, rec_seq (record_of x)) published) with (map ev_seq published) in Hc.
    rewrite Hc in Hs. apply list_elem_of_lookup_2 in Hs as Hin.
    rewrite length_map in Hs.
    rewrite lookup_seqN in Hs by (by eapply lookup_lt_Some). injection Hs as <-. lia.
Qed.
End Core.

Lemma cache_loses_nothing_witness :
  let '(c, published) := foldl run_op (with_budget 3 4 100, [])
    [Publish 101 Output (bs "abc"); NoteJournaled 1; Publish 102 Output (bs "defg"); Publish 103 Output (bs "h")] in
  map ev_cursor published = map (mk_cursor 3) (seqN 1 (length published))
  ∧ (∃ journaled, published = journaled ++ sc_cache c
       ∧ Forall (λ e, ev_seq e <= sc_journal_seq c) journaled)
  ∧ sc_cache_bytes c = event_bytes (sc_cache c).
Proof. apply (cache_loses_nothing 3 4 100 _). by vm_compute. Defined.
