(* ===== verification/Stream.v ===== *)
(** * Streaming reads of one incarnation

    [SegmentStream] of [src/src/session/journal/stream.rs]: bounded batches of
    validated records pulled from a resume position, across the parts of one
    incarnation, over a journal that may still be growing.  The theorems say
    that a stream delivers every record of the incarnation exactly once, in
    order, whatever the batch size; that a torn live tail ends it without an
    error; and that a refreshed stream goes on exactly where it stopped. *)

From S2P Require Import Prelude Crc Text RecordFormat SegmentScan Disk Manifest Open Retention.

(** ** The stream *)

Record SegmentStream := mk_stream {
  sm_parts : list (N * bytes);
  sm_part_index : nat;
  sm_byte_offset : N;
  sm_next_seq : N;
  sm_done : bool;
}.

(** [incarnation_parts] with the paths it pairs the parts with. *)
Definition part_paths (d : Dir) (incarnation : N) : io_result (list (N * bytes)) :=
  parts ← incarnation_parts d incarnation;
  Ok (map (λ part, (part, segment_path incarnation part)) parts).

Definition open_stream (d : Dir) (incarnation : N) : io_result SegmentStream :=
  parts ← part_paths d incarnation;
  Ok {| sm_parts := parts; sm_part_index := 0; sm_byte_offset := 0; sm_next_seq := 1;
        sm_done := false |}.

Definition open_at (d : Dir) (incarnation : N) (anchor : CheckpointAnchor)
    : io_result SegmentStream :=
  parts ← part_paths d incarnation;
  '(part_index, _) ← ok_or (list_find (λ p : N * bytes, p.1 = an_part anchor) parts) InvalidData;
  Ok {| sm_parts := parts; sm_part_index := part_index;
        sm_byte_offset := an_record_end_offset anchor;
        sm_next_seq := u64_add (cur_seq (an_cursor anchor)) 1; sm_done := false |}.

Definition refresh (d : Dir) (incarnation : N) (s : SegmentStream)
    : SegmentStream * io_result unit :=
  match part_paths d incarnation with
  | Err e => (s, Err e)
  | Ok parts =>
      ({| sm_parts := parts; sm_part_index := sm_part_index s; sm_byte_offset := sm_byte_offset s;
          sm_next_seq := sm_next_seq s; sm_done := false |}, Ok ())
  end.

Definition set_done (s : SegmentStream) : SegmentStream :=
  mk_stream (sm_parts s) (sm_part_index s) (sm_byte_offset s) (sm_next_seq s) true.
Definition set_offset (s : SegmentStream) (n : N) : SegmentStream :=
  mk_stream (sm_parts s) (sm_part_index s) n (sm_next_seq s) (sm_done s).
Definition set_next_seq (s : SegmentStream) (n : N) : SegmentStream :=
  mk_stream (sm_parts s) (sm_part_index s) (sm_byte_offset s) n (sm_done s).
Definition next_part (s : SegmentStream) : SegmentStream :=
  mk_stream (sm_parts s) (S (sm_part_index s)) 0 (sm_next_seq s) (sm_done s).

Section Batches.
Context `{Crc32Fast}.

(** The scan of one loop turn, from the stream's position. *)
Definition scan_from (s : SegmentStream) (file : bytes) (max_bytes : N) : option ScanResult :=
  scan_impl file
    (Window {| from_seq := sm_next_seq s; to_seq := u64_max; max_buffered_bytes := max_bytes |})
    (if sm_byte_offset s =? 0 then Some (sm_next_seq s) else None)
    (if 0 <? sm_byte_offset s
     then Some {| start_offset := sm_byte_offset s; start_seq := sm_next_seq s |} else None).

(** [while !self.done && records.is_empty()]. *)
Fixpoint batch_loop (fuel : nat) (d : Dir) (max_bytes : N) (s : SegmentStream)
    (records : list Rec) : option (SegmentStream * io_result (list Rec)) :=
  match fuel with
  | O => None
  | S fuel =>
      if sm_done s || negb (len records =? 0) then Some (s, Ok records)
      else match sm_parts s !! sm_part_index s with
      | None => Some (set_done s, Ok records)
      | Some (_, path) =>
          match d !! path with
          | None => Some (s, Err NotFound)
          | Some file =>
              res ← scan_from s file max_bytes;
              let s := match last (sr_records res) with
                       | Some r => set_next_seq s (u64_add (rec_seq r) 1)
                       | None => s
                       end in
              match sr_stop res, sr_truncated res with
              | CleanEof, true =>
                  batch_loop fuel d max_bytes (set_offset s (sr_valid_len res)) (sr_records res)
              | CleanEof, false =>
                  let s := set_offset s (sr_valid_len res) in
                  batch_loop fuel d max_bytes
                    (if (S (sm_part_index s) <? length (sm_parts s))%nat then next_part s
                     else set_done s) (sr_records res)
              | PartialTail, _ =>
                  batch_loop fuel d max_bytes (set_done (set_offset s (sr_valid_len res)))
                    (sr_records res)
              | _, _ => Some (set_done s, Err InvalidData)
              end
          end
      end
  end.

(** A turn that neither returns nor fails moves to the next part, so one turn
    per part (and two more) is enough fuel: [next_batch_spec]. *)
Definition next_batch (d : Dir) (max_bytes : N) (s : SegmentStream)
    : option (SegmentStream * io_result (list Rec)) :=
  batch_loop (S (S (length (sm_parts s)))) d max_bytes s [].

(** A consumer: batches until an empty one, at most [fuel]. *)
Fixpoint drain (fuel : nat) (d : Dir) (max_bytes : N) (s : SegmentStream)
    : option (SegmentStream * io_result (list (list Rec))) :=
  match fuel with
  | O => None
  | S fuel =>
      '(s, r) ← next_batch d max_bytes s;
      match r with
      | Err e => Some (s, Err e)
      | Ok [] => Some (s, Ok [])
      | Ok batch =>
          '(s, r) ← drain fuel d max_bytes s;
          Some (s, rest ← r; Ok (batch :: rest))
      end
  end.
End Batches.

(** ** A scan from the stream's position *)

Section ScanFacts.
Context `{Crc32Fast, !Crc32FastLaws}.

Definition within (max_bytes : N) (batch : list Rec) : Prop :=
  payload_bytes batch <= max_bytes ∨ (length batch <= 1)%nat.

(** A window that starts at the next record and has no end keeps everything
    up to its budget. *)
Lemma scan_records_from w tail rs st e :
  counting e rs → from_seq w <= e → to_seq w = u64_max →
  ss_expected st = Some e → ss_buffered st = payload_bytes (ss_records st) →
  ∃ pre post, rs = pre ++ post
    ∧ match scan_records (Window w) tail st (plain rs) with
      | inl res => sr_records res = ss_records st ++ pre ∧ sr_records res ≠ []
          ∧ sr_valid_len res = ss_offset st + len (encode_records pre)
          ∧ sr_stop res = CleanEof ∧ sr_truncated res = true
      | inr st' => post = [] ∧ ss_records st' = ss_records st ++ pre
          ∧ ss_offset st' = ss_offset st + len (encode_records pre)
          ∧ ss_truncated st' = ss_truncated st
      end
    ∧ (within (max_buffered_bytes w) (ss_records st) →
       within (max_buffered_bytes w) (ss_records st ++ pre)).
Proof.
  intros Hc Hf Ht He Hb. revert st e Hc Hf He Hb. induction rs as [|r rs IH]; intros st e Hc Hf He Hb.
  { exists [], []. cbn [plain map scan_records]. rewrite !app_nil_r, N.add_0_r. by split_and!. }
  apply counting_cons in Hc as (Hs & Hmax & Hc).
  unfold plain. cbn [map scan_records past_window over_budget]. fold (plain rs). rewrite Ht, Hb.
  unfold u64_max in *. ltb_to false.
  destruct (negb _ && _) eqn:Hbud.
  { exists [], (r :: rs). cbn [stop_scan sr_records sr_valid_len sr_stop sr_truncated].
    rewrite !app_nil_r, N.add_0_r. bool_prop. split_and!; try done. by apply len_nonempty. }
  replace (unexpected st (rec_seq r)) with false by (unfold unexpected; by rewrite He, Hs, N.eqb_refl).
  assert (keeps (Window w) (rec_seq r) = true) as Hk by (cbn [keeps]; apply N.leb_le; lia).
  unfold collect. cbn [keeps] in Hk. rewrite (kept_id (Window w)) by exact Hk. rewrite Hk.
  cbn [note_record ss_records ss_buffered]. rewrite Hb, Hbud.
  set (st1 := advance _ _).
  destruct (IH st1 (e + 1)) as (pre & post & -> & Hm & Hw); clear IH.
  - done.
  - lia.
  - cbn. f_equal. rewrite u64_add_small; unfold u64_max; lia.
  - cbn. rewrite payload_bytes_app, Hb. simpl. lia.
  - exists (r :: pre), post. split; [done|]. change (ss_records st1) with (ss_records st ++ [r]) in *.
    change (ss_offset st1) with (ss_offset st + rec_len r) in *.
    change (ss_truncated st1) with (ss_truncated st) in *.
    rewrite encode_records_cons, len_app, len_encode_record.
    replace (ss_records st ++ r :: pre) with ((ss_records st ++ [r]) ++ pre) by (by rewrite <- app_assoc).
    split.
    + destruct (scan_records _ _ _ _); intuition lia.
    + intros Ha. apply Hw. unfold within in *. rewrite payload_bytes_app, length_app. simpl.
      apply andb_false_iff in Hbud as [Hz|Hle].
      * bool_prop. apply len_0 in Hz. rewrite Hz. simpl. right. lia.
      * bool_prop. left. lia.
Qed.

(** A scan reports truncation only after it kept a record. *)
Lemma scan_step_truncated file mode st :
  ss_truncated st = false →
  match scan_step file mode st with
  | Some (inl res) => sr_truncated res = true → sr_records res ≠ []
  | Some (inr st') => ss_truncated st' = false
  | None => True
  end.
Proof.
  intros Ht. unfold scan_step.
  destruct (read_exact_or_partial _ _) as [[[] h] rest]; cbn [stop_scan sr_truncated]; try congruence.
  destruct (negb _); [cbn; congruence|]. destruct (negb _); [cbn; congruence|].
  destruct (from_u16 _); [|cbn; congruence]. cbv zeta. destruct (_ <? _); [cbn; congruence|].
  destruct (past_window _ _); [cbn; congruence|].
  destruct (over_budget _ _ _) eqn:Hob.
  { destruct mode; try discriminate. cbn in *. bool_prop. by rewrite <- len_nonempty. }
  destruct (read_payload _ _ _ _ _); [done|cbn; congruence|].
  destruct (match ss_expected st with Some _ => _ | None => _ end); [cbn; congruence|].
  destruct (collect _ _ _ _) eqn:Hc.
  - unfold collect in Hc. destruct mode; repeat case_match; simplify_eq. cbn. bool_prop.
    by rewrite <- len_nonempty.
  - apply collect_frame in Hc as (_ & _ & Hc & _). cbn in *. congruence.
Qed.

Lemma scan_loop_truncated fuel file mode st res :
  ss_truncated st = false → scan_loop fuel file mode st = Some res →
  sr_truncated res = true → sr_records res ≠ [].
Proof.
  revert st. induction fuel as [|fuel IH]; intros st Ht; cbn [scan_loop]; [done|].
  pose proof (scan_step_truncated file mode st Ht) as Hs.
  destruct (scan_step _ _ _) as [[res'|st']|]; [|by apply IH|done]. by intros [= <-].
Qed.

(** The scan of written records with an undecodable end, from where they
    start. *)
Lemma stream_scan file exp start e max_bytes rs tail stop (st := initial_scan file exp start)
    (w := mk_window e u64_max max_bytes) :
  ss_rest st = encode_records rs ++ tail → ss_expected st = Some e →
  counting e rs → Forall rec_wf rs → decode_record tail = inl stop →
  ∃ res pre post, scan_impl file (Window w) exp start = Some res
    ∧ rs = pre ++ post ∧ sr_records res = pre
    ∧ sr_valid_len res = ss_offset st + len (encode_records pre) ∧ within max_bytes pre
    ∧ ((sr_truncated res = true ∧ sr_stop res = CleanEof ∧ pre ≠ [])
       ∨ (sr_truncated res = false ∧ post = []
          ∧ (sr_stop res = stop ∨ (sr_stop res = CleanEof ∧ tail ≠ [])))).
Proof.
  intros Hr He Hc Hwf Hs.
  assert (decode_segment (ss_rest st) = (plain rs, tail, stop)) as Hd.
  { rewrite Hr, <- encode_plain. apply decode_segment_encoded; [by apply plain_wf|done]. }
  destruct (scan_records_from w tail rs st e Hc ltac:(cbn; lia) eq_refl He eq_refl)
    as (pre & post & Hsplit & Hm & Hw).
  assert (within max_bytes pre) as Hb by (apply Hw; left; cbn; lia).
  destruct (scan_impl_spec file (Window w) exp start _ _ _ Hd) as
    [(res & Hsr & Hres)|(st' & t & s' & Hsr & Hres & Ht)]; fold st in Hsr; rewrite Hsr in Hm.
  - destruct Hm as (Hrec & Hne & Hv & Hst & Htr). exists res, pre, post.
    change (ss_records st) with (@nil Rec) in Hrec. cbn [app] in Hrec. rewrite Hrec in *.
    split_and!; try done. by left.
  - destruct Hm as (-> & Hrec & Ho & Htr). change (ss_records st) with (@nil Rec) in Hrec.
    cbn [app] in Hrec. exists (stop_scan st' t s'), pre, []. split; [done|]. split; [done|].
    cbn [stop_scan sr_records sr_valid_len sr_stop sr_truncated]. split_and!; try done.
    destruct t; [left|right].
    + assert (pre ≠ []) as Hne.
      { rewrite <- Hrec. unfold scan_impl in Hres.
        by refine (scan_loop_truncated _ _ _ _ _ _ Hres _). }
      split_and!; try done. destruct Ht as [[Htt _]|[-> _]]; [|done]. rewrite Htr in Htt. done.
    + split_and!; try done. destruct Ht as [[_ ->]|(-> & _ & Hl)]; [by left|right].
      split; [done|]. intros ->. rewrite len_nil in Hl. unfold HEADER_LEN in Hl. lia.
Qed.
End ScanFacts.

(** ** Journals on disk, and a stream's position in one *)

Section Streaming.
Context `{Crc32Fast, !Crc32FastLaws}.

(** The newest part may end in an incomplete record. *)
Definition tail_of {A} (rss : list A) (tail : bytes) (i : nat) : bytes :=
  if (S i =? length rss)%nat then tail else [].

(** [d] holds the records [concat rss] of [incarnation], one part per list. *)
Record holds (d : Dir) (incarnation : N) (rss : list (list Rec)) (tail : bytes) : Prop := {
  holds_some : rss ≠ [];
  holds_parts : parts_of d incarnation = seqN 1 (length rss);
  holds_files : ∀ i rs, rss !! i = Some rs →
    d !! segment_path incarnation (N.of_nat i + 1) = Some (encode_records rs ++ tail_of rss tail i);
  holds_wf : Forall rec_wf (concat rss);
  holds_counting : counting 1 (concat rss);
  holds_tail : decode_record tail = inl CleanEof ∨ decode_record tail = inl PartialTail;
}.

Definition listed (incarnation : N) (n : nat) : list (N * bytes) :=
  map (λ part, (part, segment_path incarnation part)) (seqN 1 n).

(** The stream has delivered everything before [rest]. *)
Definition at_pos (incarnation : N) (rss : list (list Rec)) (s : SegmentStream) (rest : list Rec)
    : Prop :=
  sm_parts s = listed incarnation (length rss)
  ∧ (∃ a b, rss !! sm_part_index s = Some (a ++ b)
      ∧ sm_byte_offset s = len (encode_records a)
      ∧ sm_next_seq s = 1 + len (concat (take (sm_part_index s) rss) ++ a)
      ∧ rest = b ++ concat (drop (S (sm_part_index s)) rss)).

Lemma lookup_listed incarnation n i :
  (i < n)%nat →
  listed incarnation n !! i = Some (N.of_nat i + 1, segment_path incarnation (N.of_nat i + 1)).
Proof.
  intros Hi. unfold listed. change (map ?f ?l) with (f <$> l). rewrite list_lookup_fmap, lookup_seqN by done.
  cbn. by rewrite N.add_comm.
Qed.

Lemma length_listed incarnation n : length (listed incarnation n) = n.
Proof. unfold listed. by rewrite length_map, length_seqN. Qed.

Lemma Forall_concat_lookup {A} (P : A → Prop) (ls : list (list A)) i l :
  Forall P (concat ls) → ls !! i = Some l → Forall P l.
Proof.
  intros Hp Hl. rewrite Forall_forall in *. intros x Hx. apply Hp. apply list_elem_of_In, in_concat.
  exists l. split; apply list_elem_of_In; [by eapply list_elem_of_lookup_2|done].
Qed.

Lemma tail_nil tail : decode_record tail = inl CleanEof → tail = [].
Proof.
  destruct (decide (tail = [])) as [|Hne]; [done|]. unfold decode_record, read_exact_or_partial.
  apply len_nonempty in Hne. eqb_to false. intros. repeat (case_match; simplify_eq/=).
Qed.

(** What a turn of the loop scans at a position. *)
Lemma scan_at d incarnation rss tail s max_bytes a b :
  holds d incarnation rss tail → counting (sm_next_seq s) b →
  rss !! sm_part_index s = Some (a ++ b) → sm_byte_offset s = len (encode_records a) →
  ∃ file res pre post,
    d !! segment_path incarnation (N.of_nat (sm_part_index s) + 1) = Some file
    ∧ scan_from s file max_bytes = Some res
    ∧ b = pre ++ post ∧ sr_records res = pre ∧ sr_valid_len res = len (encode_records (a ++ pre))
    ∧ within max_bytes pre
    ∧ ((sr_truncated res = true ∧ sr_stop res = CleanEof ∧ pre ≠ [])
       ∨ (sr_truncated res = false ∧ post = []
          ∧ (sr_stop res = CleanEof
             ∨ (sr_stop res = PartialTail ∧ (length rss <= S (sm_part_index s))%nat)))).
Proof.
  intros Hd Hc Hl Ho. exists (encode_records (a ++ b) ++ tail_of rss tail (sm_part_index s)).
  set (file := encode_records _ ++ _). set (tl := tail_of rss tail (sm_part_index s)).
  assert (∃ stop, decode_record tl = inl stop
    ∧ (stop = CleanEof ∨ (stop = PartialTail ∧ (length rss <= S (sm_part_index s))%nat))) as (stop & Hs & Hstop).
  { unfold tl, tail_of. destruct (Nat.eqb_spec (S (sm_part_index s)) (length rss)); [|by eauto].
    destruct (holds_tail _ _ _ _ Hd) as [->| ->]; eexists; (split; [done|]); [by left|right; split; [done|lia]]. }
  set (start := if 0 <? sm_byte_offset s then Some (mk_start (sm_byte_offset s) (sm_next_seq s)) else None).
  set (exp := if sm_byte_offset s =? 0 then Some (sm_next_seq s) else None).
  assert (ss_rest (initial_scan file exp start) = encode_records b ++ tl
    ∧ ss_expected (initial_scan file exp start) = Some (sm_next_seq s)
    ∧ ss_offset (initial_scan file exp start) = len (encode_records a)) as (Hr & He & Hoff).
  { unfold start, exp. destruct (N.ltb_spec 0 (sm_byte_offset s)) as [Hpos|Hz].
    - cbn. split_and!; [|done|done]. unfold file. rewrite encode_records_app, <- app_assoc.
      by rewrite drop_len_app.
    - assert (sm_byte_offset s = 0) as Hz' by lia. rewrite Hz'. cbn.
      rewrite Hz' in Ho. symmetry in Ho. unfold file.
      rewrite encode_records_app, (proj1 (len_0 (encode_records a)) Ho). done. }
  assert (Forall rec_wf b) as Hwf.
  { pose proof (Forall_concat_lookup _ _ _ _ (holds_wf _ _ _ _ Hd) Hl) as Hw.
    by apply Forall_app in Hw as [_ ?]. }
  destruct (stream_scan file exp start (sm_next_seq s) max_bytes b tl stop Hr He Hc Hwf Hs)
    as (res & pre & post & Hres & Hb & Hrec & Hv & Hw & Hcase).
  exists res, pre, post. split_and!; try done.
  - by apply (holds_files _ _ _ _ Hd).
  - rewrite Hv, Hoff, encode_records_app, len_app. done.
  - destruct Hcase as [?|(? & ? & [-> |[-> ?]])]; [by left|right..]; (split_and!; [done..|]); [done|by left].
Qed.

(** The position after the scan of a turn has been taken over. *)
Definition advanced (s : SegmentStream) (res : ScanResult) : SegmentStream :=
  set_offset (match last (sr_records res) with
              | Some r => set_next_seq s (u64_add (rec_seq r) 1)
              | None => s
              end) (sr_valid_len res).

Lemma advanced_fields s res :
  sm_parts (advanced s res) = sm_parts s ∧ sm_part_index (advanced s res) = sm_part_index s
  ∧ sm_byte_offset (advanced s res) = sr_valid_len res ∧ sm_done (advanced s res) = sm_done s
  ∧ sm_next_seq (advanced s res)
    = match last (sr_records res) with Some r => u64_add (rec_seq r) 1 | None => sm_next_seq s end.
Proof. unfold advanced. by destruct (last _). Qed.

Lemma batch_loop_return fuel d max_bytes s records :
  sm_done s = true ∨ records ≠ [] →
  batch_loop (S fuel) d max_bytes s records = Some (s, Ok records).
Proof.
  intros Hd. cbn [batch_loop]. destruct Hd as [-> |Hne]; [done|].
  apply len_nonempty in Hne. eqb_to false. by rewrite orb_true_r.
Qed.

Lemma batch_loop_scan fuel d max_bytes s part path file res :
  sm_done s = false → sm_parts s !! sm_part_index s = Some (part, path) → d !! path = Some file →
  scan_from s file max_bytes = Some res →
  sr_stop res = CleanEof ∨ sr_stop res = PartialTail →
  batch_loop (S fuel) d max_bytes s [] =
    batch_loop fuel d max_bytes
      (match sr_stop res, sr_truncated res with
       | CleanEof, true => advanced s res
       | CleanEof, false =>
           if (S (sm_part_index s) <? length (sm_parts s))%nat then next_part (advanced s res)
           else set_done (advanced s res)
       | _, _ => set_done (advanced s res)
       end) (sr_records res).
Proof.
  intros Hd Hp Hf Hs Hstop. cbn [batch_loop]. rewrite Hd, Hp, Hf, Hs. cbn [orb negb mbind option_bind].
  unfold advanced. change (len (@nil Rec) =? 0) with true. cbn [negb].
  destruct Hstop as [-> | ->]; [destruct (sr_truncated res); [done|]|done].
  by destruct (last (sr_records res)).
Qed.

(** The records before, at and after a position. *)
Lemma concat_at {A} (rss : list (list A)) i l :
  rss !! i = Some l → concat rss = concat (take i rss) ++ l ++ concat (drop (S i) rss).
Proof. intros Hl. rewrite <- (take_drop_middle rss i l Hl) at 1. by rewrite concat_app, concat_cons. Qed.

Lemma at_pos_counting d incarnation rss tail s rest :
  holds d incarnation rss tail → at_pos incarnation rss s rest → counting (sm_next_seq s) rest.
Proof.
  intros Hd (_ & a & b & Hl & _ & -> & ->). pose proof (holds_counting _ _ _ _ Hd) as Hc.
  rewrite (concat_at rss _ _ Hl), <- app_assoc, app_assoc in Hc. by apply counting_app in Hc as [_ Hc].
Qed.

Lemma advanced_next_seq s res a pre :
  sm_next_seq s = 1 + len a → sr_records res = pre → counting (sm_next_seq s) pre →
  sm_next_seq (advanced s res) = 1 + len (a ++ pre).
Proof.
  intros Hn Hr Hc. destruct (advanced_fields s res) as (_ & _ & _ & _ & ->).
  rewrite Hr, len_app, N.add_assoc, <- Hn. destruct (last pre) as [r|] eqn:El.
  - pose proof (counting_last _ _ _ Hc El). destruct Hc as [_ ?]. rewrite u64_add_small; lia.
  - apply last_None in El as ->. rewrite len_nil. lia.
Qed.

Lemma at_pos_advanced incarnation rss s res a pre post :
  sm_parts s = listed incarnation (length rss) → rss !! sm_part_index s = Some (a ++ pre ++ post) →
  sm_next_seq s = 1 + len (concat (take (sm_part_index s) rss) ++ a) →
  sr_records res = pre → sr_valid_len res = len (encode_records (a ++ pre)) →
  counting (sm_next_seq s) pre →
  at_pos incarnation rss (advanced s res) (post ++ concat (drop (S (sm_part_index s)) rss)).
Proof.
  intros Hp Hl Hn Hr Hv Hc. destruct (advanced_fields s res) as (Hf1 & Hf2 & Hf3 & _ & _).
  pose proof (advanced_next_seq s res _ pre Hn Hr Hc) as Hnext. rewrite <- app_assoc in Hnext.
  unfold at_pos. rewrite Hf1, Hf2, Hf3. split; [done|].
  exists (a ++ pre), post. rewrite <- app_assoc. by split_and!.
Qed.

Lemma at_pos_next incarnation rss s a :
  sm_parts s = listed incarnation (length rss) → rss !! sm_part_index s = Some a →
  sm_next_seq s = 1 + len (concat (take (sm_part_index s) rss) ++ a) →
  (S (sm_part_index s) < length rss)%nat →
  at_pos incarnation rss (next_part s) (concat (drop (S (sm_part_index s)) rss)).
Proof.
  intros Hp Hl Hn Hlt. split; [done|].
  destruct (lookup_lt_is_Some_2 rss (S (sm_part_index s)) Hlt) as [b Hb].
  exists [], b. cbn [next_part sm_part_index sm_byte_offset sm_next_seq app].
  split_and!; [done|done| |by rewrite (drop_S rss b) by done].
  by rewrite (take_S_r rss _ a Hl), concat_app, concat_cons, !app_nil_r.
Qed.

Lemma at_pos_done incarnation rss s rest :
  at_pos incarnation rss s rest → at_pos incarnation rss (set_done s) rest.
Proof. by intros Hp. Qed.

Lemma batch_loop_spec fuel d incarnation rss tail s rest max_bytes :
  holds d incarnation rss tail → at_pos incarnation rss s rest → sm_done s = false →
  (length rss - sm_part_index s < fuel)%nat →
  ∃ s' batch rest', batch_loop fuel d max_bytes s [] = Some (s', Ok batch)
    ∧ rest = batch ++ rest' ∧ at_pos incarnation rss s' rest' ∧ within max_bytes batch
    ∧ (sm_done s' = true → rest' = []) ∧ (batch = [] → sm_done s' = true).
Proof.
  intros Hd. revert s rest. induction fuel as [|fuel IH]; intros s rest Hpos Hdone Hfuel; [lia|].
  pose proof (at_pos_counting _ _ _ _ _ _ Hd Hpos) as Hc.
  pose proof Hpos as (Hp & a & b & Hl & Ho & Hn & ->).
  pose proof (lookup_lt_Some _ _ _ Hl) as Hlt. destruct fuel as [|fuel]; [lia|].
  pose proof Hc as [Hcb _]%counting_app.
  destruct (scan_at d incarnation rss tail s max_bytes a b Hd Hcb Hl Ho)
    as (file & res & pre & post & Hfile & Hscan & -> & Hrec & Hv & Hw & Hcase).
  pose proof Hcb as [Hcpre _]%counting_app.
  pose proof (at_pos_advanced incarnation rss s res a pre post Hp Hl Hn Hrec Hv Hcpre) as Hadv.
  destruct (advanced_fields s res) as (_ & Hidx & _ & Hdn & _).
  rewrite (batch_loop_scan _ _ _ _ (N.of_nat (sm_part_index s) + 1)
    (segment_path incarnation (N.of_nat (sm_part_index s) + 1)) file res Hdone); try done.
  2:{ rewrite Hp. by apply lookup_listed. }
  2:{ destruct Hcase as [(_ & -> & _)|(_ & _ & [-> |[-> _]])]; auto. }
  rewrite <- app_assoc, Hrec. destruct Hcase as [(-> & -> & Hne)|(-> & -> & Hend)].
  { rewrite batch_loop_return by by right. eexists _, _, _. split_and!; try done.
    rewrite Hdn, Hdone. done. }
  cbn [app] in *. rewrite Hp, length_listed.
  assert (sr_stop res = CleanEof ∧ (S (sm_part_index s) < length rss)%nat
          ∨ (length rss <= S (sm_part_index s))%nat) as [[-> Hmore]|Hlast].
  { destruct (Nat.lt_ge_cases (S (sm_part_index s)) (length rss)); [|by right].
    destruct Hend as [-> |[_ ?]]; [by left|lia]. }
  - rewrite (proj2 (Nat.ltb_lt _ _)) by done.
    assert (at_pos incarnation rss (next_part (advanced s res))
              (concat (drop (S (sm_part_index s)) rss))) as Hnext.
    { rewrite <- Hidx in Hl, Hmore |- *. apply (at_pos_next _ _ _ (a ++ pre)); [|by rewrite app_nil_r in Hl| |done].
      - rewrite <- Hp. apply advanced_fields.
      - rewrite Hidx, app_assoc. by apply advanced_next_seq. }
    destruct (decide (pre = [])) as [-> |Hne].
    + destruct (IH (next_part (advanced s res)) _ Hnext) as (s' & batch & rest' & Hb).
      * by rewrite <- Hdone, <- Hdn.
      * cbn [next_part sm_part_index]. lia.
      * exists s', batch, rest'. exact Hb.
    + rewrite batch_loop_return by by right. eexists _, _, _.
      split_and!; try done. cbn [next_part sm_done]. rewrite Hdn, Hdone. done.
  - assert (concat (drop (S (sm_part_index s)) rss) = []) as Hnil by (by rewrite drop_ge).
    rewrite Hnil in *.
    replace (match sr_stop res with CleanEof => _ | _ => _ end) with (set_done (advanced s res)).
    2:{ destruct Hend as [-> |[-> _]]; [|done]. by rewrite (proj2 (Nat.ltb_ge _ _)). }
    rewrite batch_loop_return by by left. eexists _, _, []. split_and!; try done.
Qed.

Lemma next_batch_spec d incarnation rss tail s rest max_bytes :
  holds d incarnation rss tail → at_pos incarnation rss s rest → (sm_done s = true → rest = []) →
  ∃ s' batch rest', next_batch d max_bytes s = Some (s', Ok batch)
    ∧ rest = batch ++ rest' ∧ at_pos incarnation rss s' rest' ∧ within max_bytes batch
    ∧ (sm_done s' = true → rest' = []) ∧ (batch = [] → sm_done s' = true).
Proof.
  intros Hd Hpos Hdone. unfold next_batch. destruct (sm_done s) eqn:E.
  - rewrite Hdone in * by done. rewrite batch_loop_return by by left.
    exists s, [], []. split_and!; try done. right. simpl. lia.
  - eapply batch_loop_spec; try done. destruct Hpos as (-> & _). rewrite length_listed. lia.
Qed.

Lemma drain_spec fuel d incarnation rss tail s rest max_bytes :
  holds d incarnation rss tail → at_pos incarnation rss s rest → (sm_done s = true → rest = []) →
  (length rest < fuel)%nat →
  ∃ s' batches, drain fuel d max_bytes s = Some (s', Ok batches)
    ∧ concat batches = rest ∧ Forall (λ b, b ≠ [] ∧ within max_bytes b) batches
    ∧ at_pos incarnation rss s' [] ∧ sm_done s' = true.
Proof.
  intros Hd. revert s rest. induction fuel as [|fuel IH]; intros s rest Hpos Hdone Hf; [lia|].
  destruct (next_batch_spec d incarnation rss tail s rest max_bytes Hd Hpos Hdone)
    as (s1 & batch & rest' & Hb & -> & Hpos' & Hw & Hdone' & Hempty).
  cbn [drain]. rewrite Hb. cbn [mbind option_bind]. destruct batch as [|r batch].
  - specialize (Hempty eq_refl). rewrite (Hdone' Hempty) in *. exists s1, []. by split_and!.
  - destruct (IH s1 rest' Hpos' Hdone') as (s' & batches & -> & Hc & Hall & Hp & Hd').
    { rewrite length_app in Hf. simpl in Hf. lia. }
    exists s', ((r :: batch) :: batches). cbn [mbind option_bind result_bind].
    split_and!; try done.
    + rewrite concat_cons. by f_equal.
    + by constructor.
Qed.

Lemma part_paths_holds d incarnation rss tail :
  holds d incarnation rss tail → part_paths d incarnation = Ok (listed incarnation (length rss)).
Proof.
  intros Hd. unfold part_paths, incarnation_parts. rewrite (holds_parts _ _ _ _ Hd), length_seqN.
  pose proof (holds_some _ _ _ _ Hd). unfold len. rewrite length_seqN.
  replace (N.of_nat (length rss) =? 0) with false by (symmetry; apply N.eqb_neq; by destruct rss).
  by rewrite bool_decide_eq_true_2.
Qed.

Lemma at_pos_start d incarnation rss tail :
  holds d incarnation rss tail →
  at_pos incarnation rss (mk_stream (listed incarnation (length rss)) 0 0 1 false) (concat rss).
Proof.
  intros Hd. split; [done|]. pose proof (holds_some _ _ _ _ Hd). destruct rss as [|rs rss]; [done|].
  exists [], rs. by split_and!.
Qed.

(** The journal has grown: records appended to the newest part, or new parts. *)
Definition grown (rss rss' : list (list Rec)) (more : list Rec) : Prop :=
  ∃ front newest appended new,
    rss = front ++ [newest] ∧ rss' = front ++ (newest ++ appended) :: new
    ∧ more = appended ++ concat new.

Lemma refresh_spec d' incarnation rss rss' tail' s rest more :
  holds d' incarnation rss' tail' → grown rss rss' more → at_pos incarnation rss s rest →
  ∃ s', refresh d' incarnation s = (s', Ok ()) ∧ sm_done s' = false
    ∧ at_pos incarnation rss' s' (rest ++ more).
Proof.
  intros Hd (front & newest & appended & new & -> & -> & ->) (_ & a & b & Hl & Ho & Hn & ->).
  unfold refresh. rewrite (part_paths_holds _ _ _ _ Hd). eexists. split_and!; [done..|].
  split; [done|]. cbn [sm_part_index sm_byte_offset sm_next_seq].
  set (i := sm_part_index s) in *. pose proof (lookup_lt_Some _ _ _ Hl) as Hi.
  rewrite length_app in Hi. simpl in Hi. destruct (decide (i < length front)%nat) as [Hlt|Hge].
  - rewrite lookup_app_l in Hl by done. exists a, b. rewrite lookup_app_l by done.
    rewrite take_app_le in * by lia. rewrite !drop_app_le by lia. split_and!; try done.
    rewrite !concat_app, concat_cons. cbn [concat]. rewrite app_nil_r.
    by rewrite <- !app_assoc.
  - assert (i = length front) as -> by lia.
    rewrite list_lookup_middle in Hl |- * by done. injection Hl as ->.
    exists a, (b ++ appended). rewrite take_app_length in *. rewrite app_assoc.
    split_and!; try done. change (S (length front)) with (1 + length front)%nat.
    rewrite !drop_app_ge by lia. rewrite !Nat.add_sub. cbn [drop concat].
    by rewrite !app_nil_r, <- app_assoc.
Qed.
End Streaming.

(** ** Anchors *)

Section Anchors.
Context `{Crc32Fast, !Crc32FastLaws}.

(** The records the anchor scan takes for restorable checkpoints. *)
Definition anchored (r : Rec) : bool :=
  bool_decide (rec_kind r = CheckpointRef)
  && (CHECKPOINT_FIXED_HEADER_LEN <=? len (rec_payload r))
  && (2 <=? le_value (rec_payload r)@[4, 6]).

Definition anchor_of (incarnation part pos : N) (r : Rec) : CheckpointAnchor :=
  {| an_filtered_offset := le_value (rec_payload r)@[15, 23];
     an_cursor := mk_cursor incarnation (rec_seq r);
     an_part := part; an_record_end_offset := pos + rec_len r |}.

Fixpoint anchors_in (incarnation part pos : N) (rs : list Rec) : list CheckpointAnchor :=
  match rs with
  | [] => []
  | r :: rs =>
      (if anchored r then [anchor_of incarnation part pos r] else [])
        ++ anchors_in incarnation part (pos + rec_len r) rs
  end.

Lemma slice_of_take {A} (l : list A) i j n : j <= n → (take (N.to_nat n) l)@[i, j] = l@[i, j].
Proof.
  intros Hj. unfold slice. rewrite skipn_firstn_comm, firstn_firstn. f_equal. lia.
Qed.

Lemma part_anchors_records incarnation part part_len tail rs fuel pos expected acc :
  Forall rec_wf rs → counting expected rs →
  part_len = pos + len (encode_records rs ++ tail) →
  part_anchors (length rs + fuel) incarnation part part_len pos expected (encode_records rs ++ tail) acc
  = part_anchors fuel incarnation part part_len (pos + len (encode_records rs))
      (expected + len rs) tail (acc ++ anchors_in incarnation part pos rs).
Proof.
  intros Hwf. revert pos expected acc. induction Hwf as [|r rs Hr Hwf IH]; intros pos expected acc Hc Hl.
  { cbn [anchors_in]. change (len (encode_records [])) with 0. change (len (@nil Rec)) with 0.
    by rewrite app_nil_r, !N.add_0_r. }
  apply counting_cons in Hc as (Hs & Hmax & Hc). cbn [length Nat.add part_anchors].
  rewrite encode_records_cons, len_app, len_encode_record in *. rewrite <- app_assoc in *.
  destruct (read_header (u32_le 0) r (encode_records rs ++ tail) eq_refl Hr) as (h & Hh & Hm & Hk & Hq & Hp).
  change (encode_record_with (u32_le 0) r) with (encode_record r) in Hh. rewrite Hh, Hm, Hk, Hq, Hp.
  unfold bytes_eqb. rewrite bool_decide_eq_true_2, Hs, N.eqb_refl, kind_u16_checkpoint by done. cbn [negb].
  cbv zeta. rewrite len_app, len_encode_record in Hl.
  replace (part_len <? pos + HEADER_LEN + len (rec_payload r)) with false.
  2:{ symmetry. apply N.ltb_ge. unfold rec_len in Hl. lia. }
  rewrite drop_len_app, u64_add_small by (done || lia).
  replace (pos + HEADER_LEN + len (rec_payload r)) with (pos + rec_len r) by (unfold rec_len; lia).
  assert (∀ acc', part_anchors (length rs + fuel) incarnation part part_len (pos + rec_len r) (expected + 1)
      (encode_records rs ++ tail) acc'
    = part_anchors fuel incarnation part part_len (pos + (rec_len r + len (encode_records rs)))
        (expected + len (r :: rs)) tail (acc' ++ anchors_in incarnation part (pos + rec_len r) rs)) as Hrest.
  { intros acc'. rewrite IH by (done || lia). rewrite len_cons. f_equal; lia. }
  cbn [anchors_in]. unfold anchored.
  destruct (bool_decide _); cbn [andb]; [|by rewrite Hrest].
  destruct (N.leb_spec CHECKPOINT_FIXED_HEADER_LEN (len (rec_payload r))) as [Hle|]; cbn [andb]; [|by rewrite Hrest].
  rewrite read_complete by (rewrite len_app; lia).
  rewrite take_app_le.
  2:{ unfold len in Hle. lia. }
  rewrite !slice_of_take by (unfold CHECKPOINT_FIXED_HEADER_LEN; lia).
  rewrite Hrest. destruct (2 <=? _); [|done]. rewrite <- app_assoc. cbn [app].
  unfold anchor_of. by rewrite Hs.
Qed.

(** An incomplete last record adds no anchor. *)
Lemma part_anchors_torn fuel incarnation part part_len pos expected tail acc :
  decode_record tail = inl CleanEof ∨ decode_record tail = inl PartialTail →
  part_len = pos + len tail →
  part_anchors (S fuel) incarnation part part_len pos expected tail acc = StopParts acc
  ∨ (∃ e, part_anchors (S fuel) incarnation part part_len pos expected tail acc = NextPart e acc).
Proof.
  intros Hd Hl. cbn [part_anchors]. unfold decode_record in Hd.
  destruct (decide (HEADER_LEN <= len tail)) as [Hle|Hgt].
  2:{ destruct (read_incomplete HEADER_LEN tail) as (p & a & b & Hr & Hp & _); [lia|].
      rewrite Hr in *. destruct p; [done|eauto|eauto]. }
  rewrite read_complete in * by done.
  set (h := take _ tail) in *. set (rest := drop _ tail) in *.
  destruct (negb (bytes_eqb _ _)); [by left|]. destruct (negb (_ =? expected)); [by left|].
  destruct (negb (hdr_version h =? _)); [by destruct Hd|].
  destruct (from_u16 _); [|by destruct Hd]. destruct (MAX_PAYLOAD_LEN <? _); [by destruct Hd|].
  destruct (N.ltb_spec (len rest) (hdr_payload_len h)) as [Hlt|_].
  - cbv zeta. left. unfold rest in Hlt. rewrite len_drop in Hlt. ltb_to true. done.
  - destruct (negb _); by destruct Hd.
Qed.

Fixpoint parts_from (part : N) (rss : list (list Rec)) (tail : bytes) : list (N * bytes) :=
  match rss with
  | [] => []
  | rs :: rss =>
      (part, encode_records rs ++ match rss with [] => tail | _ => [] end)
        :: parts_from (part + 1) rss tail
  end.

Fixpoint all_anchors (incarnation part : N) (rss : list (list Rec)) : list CheckpointAnchor :=
  match rss with
  | [] => []
  | rs :: rss => anchors_in incarnation part 0 rs ++ all_anchors incarnation (part + 1) rss
  end.

Lemma read_parts_from (d : Dir) incarnation part rss tail :
  (∀ i rs, rss !! i = Some rs →
    d !! segment_path incarnation (N.of_nat i + part) = Some (encode_records rs ++ tail_of rss tail i)) →
  read_parts d incarnation (seqN part (length rss)) = Ok (parts_from part rss tail).
Proof.
  revert part. induction rss as [|rs rss IH]; intros part Hf; [done|]. cbn [length seqN read_parts parts_from].
  pose proof (Hf 0%nat rs eq_refl) as H0'. rewrite N.add_0_l in H0'. rewrite H0'. cbn [ok_or mbind result_bind].
  rewrite IH.
  - cbn [mbind result_bind]. unfold tail_of. cbn [length]. by destruct rss.
  - intros i rs' Hi. specialize (Hf (S i) rs' Hi).
    replace (N.of_nat i + (part + 1)) with (N.of_nat (S i) + part) by lia. exact Hf.
Qed.

Lemma walk_parts_from incarnation expected part rss tail acc :
  Forall rec_wf (concat rss) → counting expected (concat rss) →
  decode_record tail = inl CleanEof ∨ decode_record tail = inl PartialTail →
  walk_parts incarnation expected (parts_from part rss tail) acc
  = acc ++ all_anchors incarnation part rss.
Proof.
  intros Hwf Hc Ht. revert part expected acc Hc. induction rss as [|rs rss IH]; intros part expected acc Hc.
  { cbn. by rewrite app_nil_r. }
  rewrite concat_cons in *. apply Forall_app in Hwf as [Hw Hwf]. apply counting_app in Hc as [Hcr Hc].
  cbn [parts_from walk_parts all_anchors]. set (tl := match rss with [] => tail | _ => [] end).
  assert (decode_record tl = inl CleanEof ∨ decode_record tl = inl PartialTail) as Htl
    by (unfold tl; destruct rss; [done|by left]).
  assert (length rs + S (length (encode_records rs ++ tl) - length rs) = S (length (encode_records rs ++ tl)))%nat
    as <-.
  { pose proof (len_encode_frecs_ge _ (plain_wf _ Hw)) as Hge.
    rewrite encode_plain in Hge. unfold plain in Hge. rewrite length_map in Hge. rewrite length_app. lia. }
  rewrite part_anchors_records by done.
  destruct rss as [|rs' rss].
  - cbn [parts_from all_anchors]. rewrite app_nil_r.
    destruct (part_anchors_torn (length (encode_records rs ++ tl) - length rs) incarnation part
      (len (encode_records rs ++ tl)) (0 + len (encode_records rs)) (expected + len rs) tl
      (acc ++ anchors_in incarnation part 0 rs) Htl) as [-> |[e ->]]; [|done|done].
    by rewrite len_app.
  - cbn [part_anchors]. change (read_exact_or_partial HEADER_LEN tl) with (Empty, @nil byte, @nil byte).
    cbn iota beta. rewrite (IH Hwf) by done. by rewrite <- app_assoc.
Qed.

Lemma checkpoint_anchors_holds d incarnation rss tail :
  holds d incarnation rss tail → checkpoint_anchors d incarnation = Ok (all_anchors incarnation 1 rss).
Proof.
  intros Hd. unfold checkpoint_anchors.
  pose proof (part_paths_holds _ _ _ _ Hd) as Hp. unfold part_paths in Hp.
  apply result_bind_ok in Hp as (parts & Hp & _). pose proof Hp as Hp'. unfold incarnation_parts in Hp'.
  rewrite (holds_parts _ _ _ _ Hd) in Hp'. repeat (case_match; [done|]). injection Hp' as <-.
  rewrite Hp. cbn [mbind result_bind].
  rewrite (read_parts_from _ _ _ _ tail) by apply (holds_files _ _ _ _ Hd). cbn [mbind result_bind].
  rewrite walk_parts_from; [done| | |]; apply Hd.
Qed.

Lemma elem_of_anchors_in incarnation part pos rs a :
  a ∈ anchors_in incarnation part pos rs ↔
  ∃ x r y, rs = x ++ r :: y ∧ anchored r = true
    ∧ a = anchor_of incarnation part (pos + len (encode_records x)) r.
Proof.
  revert pos. induction rs as [|r rs IH]; intros pos; cbn [anchors_in].
  { split; [by intros ?%elem_of_nil|]. by intros ([|] & ? & ? & ? & _). }
  rewrite elem_of_app, IH. split.
  - intros [Ha|(x & r' & y & -> & Hr & ->)].
    + exists [], r, rs. change (len (encode_records [])) with 0. rewrite N.add_0_r.
      destruct (anchored r); [|by apply elem_of_nil in Ha]. by apply list_elem_of_singleton in Ha.
    + exists (r :: x), r', y. rewrite encode_records_cons, len_app, len_encode_record, N.add_assoc. done.
  - intros ([|r0 x] & r' & y & Heq & Hr & ->); injection Heq as <- ->.
    + left. rewrite Hr. change (len (encode_records [])) with 0. rewrite N.add_0_r. by left.
    + right. exists x, r', y. rewrite encode_records_cons, len_app, len_encode_record, N.add_assoc. done.
Qed.

Lemma elem_of_all_anchors incarnation part rss a :
  a ∈ all_anchors incarnation part rss ↔
  ∃ i x r y, rss !! i = Some (x ++ r :: y) ∧ anchored r = true
    ∧ a = anchor_of incarnation (part + N.of_nat i) (len (encode_records x)) r.
Proof.
  revert part. induction rss as [|rs rss IH]; intros part; cbn [all_anchors].
  { split; [by intros ?%elem_of_nil|]. intros (? & ? & ? & ? & ? & _). done. }
  rewrite elem_of_app, elem_of_anchors_in, IH. split.
  - intros [(x & r & y & -> & Hr & ->)|(i & x & r & y & Hl & Hr & ->)].
    + exists 0%nat, x, r, y. by rewrite N.add_0_r, N.add_0_l.
    + exists (S i), x, r, y. split_and!; [done..|]. f_equal. lia.
  - intros ([|i] & x & r & y & Hl & Hr & ->).
    + left. injection Hl as ->. exists x, r, y. by rewrite N.add_0_r, N.add_0_l.
    + right. exists i, x, r, y. split_and!; [done..|]. f_equal. lia.
Qed.

Lemma find_listed incarnation n i :
  (i < n)%nat →
  list_find (λ p : N * bytes, p.1 = 1 + N.of_nat i) (listed incarnation n)
  = Some (i, (N.of_nat i + 1, segment_path incarnation (N.of_nat i + 1))).
Proof.
  intros Hi. apply list_find_Some. rewrite lookup_listed by done. split_and!; [done|cbn; lia|].
  intros j y Hj Hlt. rewrite lookup_listed in Hj by lia. injection Hj as <-. cbn. lia.
Qed.

Lemma open_at_anchor d incarnation rss tail i x r y :
  holds d incarnation rss tail → rss !! i = Some (x ++ r :: y) →
  ∃ s, open_at d incarnation (anchor_of incarnation (1 + N.of_nat i) (len (encode_records x)) r) = Ok s
    ∧ sm_done s = false ∧ at_pos incarnation rss s (y ++ concat (drop (S i) rss)).
Proof.
  intros Hd Hl. pose proof (lookup_lt_Some _ _ _ Hl) as Hi. unfold open_at.
  rewrite (part_paths_holds _ _ _ _ Hd). cbn [mbind result_bind anchor_of an_part].
  rewrite (find_listed incarnation _ _ Hi). cbn [ok_or mbind result_bind].
  eexists. split_and!; [done..|]. split; [done|]. cbn [sm_part_index sm_byte_offset sm_next_seq an_record_end_offset].
  exists (x ++ [r]), y. rewrite <- app_assoc. split_and!; [done| | |done].
  - rewrite encode_records_snoc, len_app, len_encode_record. done.
  - cbn [anchor_of an_cursor cur_seq]. pose proof (holds_counting _ _ _ _ Hd) as Hc.
    rewrite (concat_at rss _ _ Hl), <- app_assoc, app_assoc in Hc. cbn [app] in Hc.
    apply counting_app in Hc as [_ Hc]. apply counting_cons in Hc as (-> & Hm & _).
    rewrite u64_add_small by lia. rewrite app_assoc, (len_app _ [r]). change (len [r]) with 1. lia.
Qed.
End Anchors.

(** ** Theorems *)

Section StreamTheorems.
Context `{Crc32Fast, !Crc32FastLaws}.

(** C15: A stream delivers the whole incarnation.  Opened on a journal that
    holds the records [concat rss], split into parts in any way and possibly
    with a torn newest record, the stream opens; pulling batches until an
    empty one ends within one pull per record (and the last); no pull fails;
    the batches in order are exactly the records, each batch within the byte
    budget unless it is a single record. *)
Theorem stream_reads_all d incarnation rss tail max_bytes :
  holds d incarnation rss tail →
  ∃ s s' batches, open_stream d incarnation = Ok s
    ∧ drain (S (length (concat rss))) d max_bytes s = Some (s', Ok batches)
    ∧ concat batches = concat rss
    ∧ Forall (λ b, b ≠ [] ∧ within max_bytes b) batches ∧ sm_done s' = true.
Proof.
  intros Hd. unfold open_stream. rewrite (part_paths_holds _ _ _ _ Hd). cbn [mbind result_bind].
  destruct (drain_spec (S (length (concat rss))) d incarnation rss tail _ (concat rss) max_bytes Hd
    (at_pos_start _ _ _ _ Hd)) as (s' & batches & Hr & Hc & Hall & _ & Hdone); [done|lia|]. eauto 10.
Qed.

(** A live reader neither loses nor repeats a record.  A stream that was
    drained while the journal held [concat rss] and is refreshed after the
    journal has grown, in the newest part, by new parts or both, delivers
    exactly the records that were added. *)
Theorem stream_follows d d' incarnation rss rss' tail tail' more max_bytes :
  holds d incarnation rss tail → holds d' incarnation rss' tail' → grown rss rss' more →
  ∃ s s1 s2 s3 b b', open_stream d incarnation = Ok s
    ∧ drain (S (length (concat rss))) d max_bytes s = Some (s1, Ok b) ∧ concat b = concat rss
    ∧ refresh d' incarnation s1 = (s2, Ok ())
    ∧ drain (S (length more)) d' max_bytes s2 = Some (s3, Ok b') ∧ concat b' = more.
Proof.
  intros Hd Hd' Hg. unfold open_stream. rewrite (part_paths_holds _ _ _ _ Hd). cbn [mbind result_bind].
  destruct (drain_spec (S (length (concat rss))) d incarnation rss tail _ (concat rss) max_bytes Hd
    (at_pos_start _ _ _ _ Hd)) as (s1 & b & Hr & Hc & _ & Hpos & _); [done|lia|].
  destruct (refresh_spec d' incarnation rss rss' tail' s1 [] more Hd' Hg Hpos) as (s2 & Hf & Hdone & Hpos2).
  destruct (drain_spec (S (length more)) d' incarnation rss' tail' s2 more max_bytes Hd' Hpos2)
    as (s3 & b' & Hr' & Hc' & _); [by rewrite Hdone|lia|]. eauto 15.
Qed.

(** Anchored replay skips exactly the prefix before its checkpoint.  The
    anchors found in an incarnation are those of its complete checkpoint
    records of the current version, and the stream opened at one of them
    delivers exactly the records after that checkpoint record. *)
Theorem anchors_resume d incarnation rss tail max_bytes :
  holds d incarnation rss tail →
  ∃ anchors, checkpoint_anchors d incarnation = Ok anchors
    ∧ (∀ r, r ∈ concat rss → anchored r = true →
        ∃ a, a ∈ anchors ∧ an_cursor a = mk_cursor incarnation (rec_seq r))
    ∧ (∀ a, a ∈ anchors →
        ∃ before r after s s' batches, concat rss = before ++ r :: after
          ∧ rec_kind r = CheckpointRef
          ∧ an_cursor a = mk_cursor incarnation (rec_seq r)
          ∧ an_filtered_offset a = le_value (rec_payload r)@[15, 23]
          ∧ open_at d incarnation a = Ok s
          ∧ drain (S (length after)) d max_bytes s = Some (s', Ok batches)
          ∧ concat batches = after).
Proof.
  intros Hd. exists (all_anchors incarnation 1 rss). split; [by eapply checkpoint_anchors_holds|]. split.
  - intros r Hr Ha. apply list_elem_of_In, in_concat in Hr as (rs & Hrs & Hr).
    apply list_elem_of_In, list_elem_of_lookup in Hrs as [i Hl].
    apply list_elem_of_In, list_elem_of_split in Hr as (x & y & ->).
    eexists. split; [apply elem_of_all_anchors; by exists i, x, r, y|done].
  - intros a (i & x & r & y & Hl & Hr & ->)%elem_of_all_anchors.
    destruct (open_at_anchor d incarnation rss tail i x r y Hd Hl) as (s & Hs & Hdone & Hpos).
    destruct (drain_spec (S (length (y ++ concat (drop (S i) rss)))) d incarnation rss tail s
      (y ++ concat (drop (S i) rss)) max_bytes Hd Hpos) as (s' & batches & Hb & Hc & _);
      [by rewrite Hdone|lia|].
    exists (concat (take i rss) ++ x), r, (y ++ concat (drop (S i) rss)), s, s', batches.
    split_and!; try done.
    + rewrite (concat_at rss i _ Hl). by rewrite <- !app_assoc.
    + unfold anchored in Hr. by bool_prop.
Qed.
End StreamTheorems.

(** ** Witnesses *)

Definition sample_rss : list (list Rec) :=
  [[mk_record Output 1 0 (bs "hello");
    mk_record CheckpointRef 2 4
      (encode_checkpoint (mk_checkpoint 24 80 (1, 6) false false true 5 (bs "program")))];
   [mk_record Resize 3 5 (encode_resize_payload 24 80)]].

Definition sample_torn : bytes := take 40 (encode_record (mk_record Output 4 9 (bs "torn"))).

Definition sample_journal : Dir :=
  <[segment_path 7 1 := encode_records (default [] (sample_rss !! 0%nat))]>
  {[ segment_path 7 2 := encode_records (default [] (sample_rss !! 1%nat)) ++ take 38 sample_torn ]}.

Definition sample_more : list Rec := [mk_record Output 4 9 (bs "torn"); mk_record Output 5 9 (bs "next")].

Definition sample_grown : Dir :=
  <[segment_path 7 3 := encode_records (drop 1 sample_more)]>
  (<[segment_path 7 2 := encode_records (default [] (sample_rss !! 1%nat) ++ take 1 sample_more)]> sample_journal).

Definition sample_rss' : list (list Rec) :=
  [default [] (sample_rss !! 0%nat); default [] (sample_rss !! 1%nat) ++ take 1 sample_more; drop 1 sample_more].

Lemma sample_holds : holds sample_journal 7 sample_rss (take 38 sample_torn).
Proof.
  split; [done|by vm_compute| |by repeat constructor|by vm_compute|right; by vm_compute].
  intros i rs Hi. do 2 (destruct i as [|i]; [injection Hi as <-; by vm_compute|]). done.
Qed.

Lemma sample_grown_holds : holds sample_grown 7 sample_rss' [].
Proof.
  split; [done|by vm_compute| |by repeat constructor|by vm_compute|left; by vm_compute].
  intros i rs Hi. do 3 (destruct i as [|i]; [injection Hi as <-; by vm_compute|]). done.
Qed.

Lemma stream_reads_all_witness :
  ∃ s s' batches, open_stream sample_journal 7 = Ok s
    ∧ drain 4 sample_journal 6 s = Some (s', Ok batches)
    ∧ concat batches = concat sample_rss
    ∧ Forall (λ b, b ≠ [] ∧ within 6 b) batches ∧ sm_done s' = true.
Proof. apply (stream_reads_all sample_journal 7 sample_rss _ 6 sample_holds). Defined.

Lemma stream_follows_witness :
  ∃ s s1 s2 s3 b b', open_stream sample_journal 7 = Ok s
    ∧ drain 4 sample_journal 6 s = Some (s1, Ok b) ∧ concat b = concat sample_rss
    ∧ refresh sample_grown 7 s1 = (s2, Ok ())
    ∧ drain 3 sample_grown 6 s2 = Some (s3, Ok b') ∧ concat b' = sample_more.
Proof.
  apply (stream_follows sample_journal sample_grown 7 sample_rss sample_rss' _ _ sample_more 6
    sample_holds sample_grown_holds).
  by exists [default [] (sample_rss !! 0%nat)], (default [] (sample_rss !! 1%nat)),
    (take 1 sample_more), [drop 1 sample_more].
Defined.

Lemma anchors_resume_witness :
  ∃ a, checkpoint_anchors sample_journal 7 = Ok [a] ∧ an_filtered_offset a = 5
    ∧ ∃ before r after s s' batches, concat sample_rss = before ++ r :: after
          ∧ rec_kind r = CheckpointRef
          ∧ an_cursor a = mk_cursor 7 (rec_seq r)
          ∧ an_filtered_offset a = le_value (rec_payload r)@[15, 23]
          ∧ open_at sample_journal 7 a = Ok s
          ∧ drain (S (length after)) sample_journal 6 s = Some (s', Ok batches)
          ∧ concat batches = after.
Proof.
  destruct (anchors_resume sample_journal 7 sample_rss _ 6 sample_holds) as (l & Hl & _ & Hall).
  exists (mk_anchor 5 (mk_cursor 7 2) 1 111). split; [by vm_compute|]. split; [done|]. apply Hall.
  assert (checkpoint_anchors sample_journal 7 = Ok [mk_anchor 5 (mk_cursor 7 2) 1 111]) as Hs by by vm_compute.
  rewrite Hs in Hl. injection Hl as <-. by left.
Defined.
