(* ===== verification/Appender.v ===== *)
(** * The journal appender

    [RollingSegmentWriter] and [appender_loop] of
    [src/src/session/journal/appender.rs], over a storage device that may fail
    at every operation and may lose what was not synced.  A failing write may
    have written any part of its bytes.  The theorems say that an
    acknowledged record is on disk, that a durable one survives every crash,
    and that the loop stops touching the disk at its first failure. *)

From S2P Require Import Prelude Crc Text RecordFormat SegmentScan Disk Manifest Open Retention.
From S2P Require Import Sequencer Stream.

(** ** State with errors

    A method on [&mut self] returning [io::Result]: what it did to the state
    stays when it fails. *)

Definition method (S A : Type) : Type := S → S * io_result A.

#[export] Instance method_ret {S} : MRet (method S) := λ A a s, (s, Ok a).
#[export] Instance method_bind {S} : MBind (method S) := λ A B k m s,
  match m s with
  | (s, Ok a) => k a s
  | (s, Err e) => (s, Err e)
  end.

Definition get {S} : method S S := λ s, (s, Ok s).
Definition modify {S} (f : S → S) : method S unit := λ s, (f s, Ok ()).

(** ** Storage

    [st_files] is what readers see, [st_synced] what [sync_data] has promised
    of each file, [st_entries] the names whose directory entry is durable.  A
    truncation or a removal is durable once the directory is synced, which is
    why [open.rs] syncs it after them; until then a crash may bring back what
    the file held before, which [st_former] keeps. *)

Record Storage := mk_storage {
  st_files : Dir;
  st_synced : Dir;
  st_entries : list bytes;
  st_former : Dir;
}.

(** The outcome of one operation: success, or an error after some bytes. *)
Definition Fault : Type := option (N * io_error_kind).

(** The operations to come fail as [w_faults] says, and then no more. *)
Record World := mk_world {
  w_store : Storage;
  w_faults : list Fault;
}.

Definition next_fault (w : World) : Fault * World :=
  match w_faults w with
  | [] => (None, w)
  | f :: fs => (f, mk_world (w_store w) fs)
  end.

(** The file is about to lose bytes: what it holds may come back. *)
Definition keep_former (name : bytes) (s : Storage) : Dir :=
  match st_files s !! name with
  | Some c => <[name := default c (st_former s !! name)]> (st_former s)
  | None => st_former s
  end.

Definition apply_op (op : DiskOp) (s : Storage) : Storage :=
  {| st_files := exec_op (st_files s) op;
     st_synced := match op with
                  | Remove name => delete name (st_synced s)
                  | Truncate name n => alter (take (N.to_nat n)) name (st_synced s)
                  | SyncData name => <[name := default [] (st_files s !! name)]> (st_synced s)
                  | _ => st_synced s
                  end;
     st_entries := match op with
                   | SyncDir => names (st_files s)
                   | Remove name => filter (λ n, n ≠ name) (st_entries s)
                   | _ => st_entries s
                   end;
     st_former := match op with
                  | Remove name | Truncate name _ => keep_former name s
                  | SyncDir => ∅
                  | _ => st_former s
                  end |}.

(** Nothing is left to come back. *)
Definition settled (s : Storage) : Prop := st_former s = ∅.

(** What a failing operation leaves behind: a write, some of its bytes. *)
Definition partial_op (k : N) (op : DiskOp) (s : Storage) : Storage :=
  match op with
  | Append name data => apply_op (Append name (take (N.to_nat k) data)) s
  | _ => s
  end.

Definition perform (op : DiskOp) : method World unit := λ w,
  let '(fault, w) := next_fault w in
  match fault with
  | None => (mk_world (apply_op op (w_store w)) (w_faults w), Ok ())
  | Some (k, e) => (mk_world (partial_op k op (w_store w)) (w_faults w), Err e)
  end.

Fixpoint perform_all (ops : list DiskOp) : method World unit :=
  match ops with
  | [] => mret ()
  | op :: ops => perform op ≫= λ _, perform_all ops
  end.

(** A computation of [Disk], its operations performed on this device. *)
Definition on_device {A} (m : disk A) : method World A := λ w,
  let '(ops, r) := m (st_files (w_store w)) in
  match perform_all ops w with
  | (w, Ok ()) => (w, r)
  | (w, Err e) => (w, Err e)
  end.

(** ** The segment writer ([segment.rs]) *)

Record SegmentWriter := mk_writer {
  sw_path : bytes;
  sw_written : N;
}.

Definition SegmentWriter_create (path : bytes) : method World SegmentWriter :=
  _ ← on_device (create_new path);
  mret {| sw_path := path; sw_written := 0 |}.

Definition write_encoded (header payload : bytes) (sw : SegmentWriter)
    : method World SegmentWriter :=
  _ ← perform (Append (sw_path sw) header);
  _ ← perform (Append (sw_path sw) payload);
  mret {| sw_path := sw_path sw; sw_written := sw_written sw + (HEADER_LEN + len payload) |}.

(** [File::sync_data]. *)
Definition SegmentWriter_sync (sw : SegmentWriter) : method World unit := perform (SyncData (sw_path sw)).

(** ** The rolling writer *)

Section Rolling.
Context `{Crc32Fast, ManifestSerde}.

Record RollingSegmentWriter := mk_rolling {
  rw_incarnation : N;
  rw_part : N;
  rw_writer : SegmentWriter;
  rw_part_bytes : N;
  rw_max_part_bytes : N;
  rw_part_first_seq : option N;
  rw_part_last_seq : N;
  rw_part_crc : hasher;
}.

Definition new_rolling (incarnation : N) (writer : SegmentWriter) (max_part_bytes : N)
    : RollingSegmentWriter :=
  {| rw_incarnation := incarnation; rw_part := 1; rw_writer := writer; rw_part_bytes := 0;
     rw_max_part_bytes := max_part_bytes; rw_part_first_seq := None; rw_part_last_seq := 0;
     rw_part_crc := Crc32_new |}.

Definition set_part (n : N) (r : RollingSegmentWriter) : RollingSegmentWriter :=
  mk_rolling (rw_incarnation r) n (rw_writer r) (rw_part_bytes r) (rw_max_part_bytes r)
    (rw_part_first_seq r) (rw_part_last_seq r) (rw_part_crc r).
Definition set_writer (w : SegmentWriter) (r : RollingSegmentWriter) : RollingSegmentWriter :=
  mk_rolling (rw_incarnation r) (rw_part r) w (rw_part_bytes r) (rw_max_part_bytes r)
    (rw_part_first_seq r) (rw_part_last_seq r) (rw_part_crc r).
Definition set_part_bytes (n : N) (r : RollingSegmentWriter) : RollingSegmentWriter :=
  mk_rolling (rw_incarnation r) (rw_part r) (rw_writer r) n (rw_max_part_bytes r)
    (rw_part_first_seq r) (rw_part_last_seq r) (rw_part_crc r).
Definition set_part_first_seq (o : option N) (r : RollingSegmentWriter) : RollingSegmentWriter :=
  mk_rolling (rw_incarnation r) (rw_part r) (rw_writer r) (rw_part_bytes r) (rw_max_part_bytes r)
    o (rw_part_last_seq r) (rw_part_crc r).
Definition set_part_last_seq (n : N) (r : RollingSegmentWriter) : RollingSegmentWriter :=
  mk_rolling (rw_incarnation r) (rw_part r) (rw_writer r) (rw_part_bytes r) (rw_max_part_bytes r)
    (rw_part_first_seq r) n (rw_part_crc r).
Definition set_part_crc (h : hasher) (r : RollingSegmentWriter) : RollingSegmentWriter :=
  mk_rolling (rw_incarnation r) (rw_part r) (rw_writer r) (rw_part_bytes r) (rw_max_part_bytes r)
    (rw_part_first_seq r) (rw_part_last_seq r) h.

(** The writer and the device together: the state of the writer's methods. *)
Abbreviation rolling := (method (RollingSegmentWriter * World)).

Definition self : rolling RollingSegmentWriter := λ s, (s, Ok s.1).
Definition set (f : RollingSegmentWriter → RollingSegmentWriter) : rolling unit :=
  modify (λ s, (f s.1, s.2)).
Definition device {A} (m : method World A) : rolling A := λ s,
  let '(w, r) := m s.2 in ((s.1, w), r).

(** Sync the active part, then list it in the manifest.  The part's first
    sequence is taken first: a second call does nothing. *)
Definition seal_part : rolling unit :=
  r ← self;
  match rw_part_first_seq r with
  | None => mret ()
  | Some first_seq =>
      _ ← set (set_part_first_seq None);
      _ ← device (SegmentWriter_sync (rw_writer r));
      let entry := {| me_incarnation := rw_incarnation r; me_part := rw_part r;
                      me_first_seq := first_seq; me_last_seq := rw_part_last_seq r;
                      me_bytes := rw_part_bytes r; me_crc32 := Crc32_finish (rw_part_crc r) |} in
      _ ← device (on_device (SegmentManifestEntry_append_to entry));
      _ ← device (on_device sync_dir);
      set (set_part_crc Crc32_new)
  end.

(** Seal the full part and begin the next one. *)
Definition roll_over : rolling unit :=
  _ ← seal_part;
  _ ← set (λ r, set_part (u64_add (rw_part r) 1) r);
  r ← self;
  writer ← device (SegmentWriter_create (segment_path (rw_incarnation r) (rw_part r)));
  _ ← set (set_writer writer);
  _ ← device (on_device sync_dir);
  set (set_part_bytes 0).

(** The rest of [append_record]: the record goes to the active part. *)
Definition write_record (kind : RecordKind) (seq elapsed_ms : N) (payload : bytes)
    : rolling unit :=
  let record_bytes := HEADER_LEN + len payload in
  let header := encode_record_header kind seq elapsed_ms payload in
  _ ← set (λ r, set_part_crc (Crc32_update (Crc32_update (rw_part_crc r) header) payload) r);
  r ← self;
  writer ← device (write_encoded header payload (rw_writer r));
  _ ← set (set_writer writer);
  _ ← set (λ r, match rw_part_first_seq r with
                | None => set_part_first_seq (Some seq) r
                | Some _ => r
                end);
  _ ← set (set_part_last_seq seq);
  set (λ r, set_part_bytes (rw_part_bytes r + record_bytes) r).

Definition append_record (kind : RecordKind) (seq elapsed_ms : N) (payload : bytes)
    : rolling unit :=
  let record_bytes := HEADER_LEN + len payload in
  r ← self;
  _ ← (if (0 <? rw_part_bytes r) && (rw_max_part_bytes r <? rw_part_bytes r + record_bytes)
       then roll_over else mret ());
  write_record kind seq elapsed_ms payload.

Definition rolling_sync : rolling unit :=
  r ← self;
  device (SegmentWriter_sync (rw_writer r)).
End Rolling.
Arguments RollingSegmentWriter {_}.

(** ** The appender loop *)

Inductive JournalAck :=
  | Journaled (seq : N)
  | Durable (seq : N)
  | AckFailed (reason : bytes).

(** [std::io::Error]'s text for the kinds the model distinguishes. *)
Definition error_text (e : io_error_kind) : bytes :=
  match e with
  | NotFound => bs "entity not found"
  | InvalidData => bs "invalid data"
  | InvalidInput => bs "invalid input parameter"
  | UnexpectedEof => bs "unexpected end of file"
  | Other => bs "other error"
  end.

Section Loop.
Context `{Crc32Fast, ManifestSerde}.

(** The locals of [appender_loop]; the world and the acknowledgements sent so
    far travel beside them. *)
Record Appender := mk_appender {
  ap_writer : RollingSegmentWriter;
  ap_expected_seq : N;
  ap_last_written : N;
  ap_last_durable : N;
  ap_dead : option bytes;
  ap_sync_deadline : option N;
}.

Definition start_appender (writer : RollingSegmentWriter) : Appender :=
  {| ap_writer := writer; ap_expected_seq := 1; ap_last_written := 0; ap_last_durable := 0;
     ap_dead := None; ap_sync_deadline := None |}.

Definition Step : Type := Appender * World * list JournalAck.

Definition put_writer (r : RollingSegmentWriter) (a : Appender) : Appender :=
  mk_appender r (ap_expected_seq a) (ap_last_written a) (ap_last_durable a) (ap_dead a)
    (ap_sync_deadline a).

Lemma eta_appender (a : Appender) : put_writer (ap_writer a) a = a.
Proof. by destruct a. Qed.

(** The [fail] closure. *)
Definition fail_with (reason : bytes) (s : Step) : Step :=
  let '(a, w, acks) := s in
  (mk_appender (ap_writer a) (ap_expected_seq a) (ap_last_written a) (ap_last_durable a)
     (Some reason) (ap_sync_deadline a), w, acks ++ [AckFailed reason]).

(** The [do_sync] closure. *)
Definition do_sync (s : Step) : Step :=
  let '(a, w, acks) := s in
  match rolling_sync (ap_writer a, w) with
  | ((r, w), Ok _) =>
      (mk_appender r (ap_expected_seq a) (ap_last_written a) (ap_last_written a) (ap_dead a) None,
       w, acks ++ [Durable (ap_last_written a)])
  | ((r, w), Err e) => fail_with (bs "journal sync failed: " ++ error_text e) (put_writer r a, w, acks)
  end.

Definition dirty (a : Appender) : bool :=
  match ap_dead a with None => ap_last_durable a <? ap_last_written a | Some _ => false end.

(** How long the loop waits for a message: forever when everything is synced,
    else until the deadline. *)
Definition recv_wait (now sync_interval : N) (a : Appender) : option N :=
  if dirty a then Some (default (now + sync_interval) (ap_sync_deadline a) - now) else None.

Definition on_timeout (s : Step) : Step := if dirty s.1.1 then do_sync s else s.

Definition on_sync (s : Step) : Step :=
  match ap_dead s.1.1 with
  | Some reason => (s.1, s.2 ++ [AckFailed reason])
  | None => do_sync s
  end.

(** [now] is the reading taken after a successful append. *)
Definition on_record (now sync_interval : N) (event : OrderedEvent) (s : Step) : Step :=
  let '(a, w, acks) := s in
  match ap_dead a with
  | Some reason => (a, w, acks ++ [AckFailed reason])
  | None =>
      if negb (ev_seq event =? ap_expected_seq a) then
        fail_with (bs "journal contiguity violation: expected seq " ++ show_dec (ap_expected_seq a)
                   ++ bs ", got " ++ show_dec (ev_seq event)) (a, w, acks)
      else
        match append_record (ev_kind event) (ev_seq event) (ev_elapsed_ms event) (ev_payload event)
                (ap_writer a, w) with
        | ((r, w), Ok _) =>
            (mk_appender r (u64_add (ap_expected_seq a) 1) (ev_seq event) (ap_last_durable a)
               (ap_dead a)
               (if ap_last_written a <=? ap_last_durable a then Some (now + sync_interval)
                else ap_sync_deadline a),
             w, acks ++ [Journaled (ev_seq event)])
        | ((r, w), Err e) =>
            fail_with (bs "journal append failed: " ++ error_text e) (put_writer r a, w, acks)
        end
  end.

(** After the loop: the last sync, then the tail part is sealed. *)
Definition finish (s : Step) : Step :=
  let s := if dirty s.1.1 then do_sync s else s in
  let '(a, w, acks) := s in
  match ap_dead a with
  | Some _ => s
  | None =>
      match seal_part (ap_writer a, w) with
      | ((r, w), Ok _) => (put_writer r a, w, acks)
      | ((r, w), Err e) =>
          fail_with (bs "journal seal failed: " ++ error_text e) (put_writer r a, w, acks)
      end
  end.

(** What the loop's receive can yield while it runs. *)
Inductive Received :=
  | GotRecord (now : N) (event : OrderedEvent)
  | GotSync
  | GotTimeout.

Definition turn (sync_interval : N) (s : Step) (m : Received) : Step :=
  match m with
  | GotRecord now event => on_record now sync_interval event s
  | GotSync => on_sync s
  | GotTimeout => on_timeout s
  end.

(** The whole loop over what it receives before the queue is disconnected. *)
Definition appender_loop (sync_interval : N) (writer : RollingSegmentWriter) (w : World)
    (received : list Received) : Step :=
  finish (foldl (turn sync_interval) (start_appender writer, w, []) received).
End Loop.

(** ** Reasoning about methods *)

Definition mwp {S A} (m : method S A) (s : S) (Q : S → io_result A → Prop) : Prop :=
  Q (m s).1 (m s).2.

Lemma mwp_bind {S A B} (m : method S A) (k : A → method S B) (s : S) Q :
  mwp m s (λ s r, match r with Ok a => mwp (k a) s Q | Err e => Q s (Err e) end) →
  mwp (m ≫= k) s Q.
Proof. unfold mwp, mbind, method_bind. by destruct (m s) as [s' [a|e]]. Qed.

Lemma mwp_ret {S A} (a : A) (s : S) Q : Q s (Ok a) → mwp (mret a) s Q.
Proof. done. Qed.

Lemma mwp_mono {S A} (m : method S A) (s : S) (P Q : S → io_result A → Prop) :
  mwp m s P → (∀ s r, P s r → Q s r) → mwp m s Q.
Proof. unfold mwp. auto. Qed.

(** Without faults to come, a call succeeds and there are none after it. *)
Definition calm {A} (w w' : World) (res : io_result A) : Prop :=
  w_faults w = [] → w_faults w' = [] ∧ is_ok res = true.

Lemma calm_err {A} (w w' : World) (e : io_error_kind) : w_faults w ≠ [] → @calm A w w' (Err e).
Proof. by intros Hf ?. Qed.

(** An operation takes effect, or takes part of its effect and fails. *)
Lemma mwp_perform op w Q :
  (∀ fs, (w_faults w = [] → fs = []) → Q (mk_world (apply_op op (w_store w)) fs) (Ok ())) →
  (∀ fs k e, w_faults w ≠ [] → Q (mk_world (partial_op k op (w_store w)) fs) (Err e)) →
  mwp (perform op) w Q.
Proof.
  intros Hok Herr. unfold mwp, perform, next_fault.
  destruct (w_faults w) as [|[[k e]|] fs] eqn:E; cbn [fst snd w_store w_faults];
    (apply Hok || apply Herr); congruence.
Qed.

Lemma mwp_sync_data name w Q :
  (∀ fs, (w_faults w = [] → fs = []) → Q (mk_world (mk_storage (st_files (w_store w))
              (<[name := default [] (st_files (w_store w) !! name)]> (st_synced (w_store w)))
              (st_entries (w_store w)) (st_former (w_store w))) fs) (Ok ())) →
  (∀ fs e, w_faults w ≠ [] → Q (mk_world (w_store w) fs) (Err e)) →
  mwp (perform (SyncData name)) w Q.
Proof. intros Hok Herr. by apply mwp_perform; auto. Qed.

(** A computation that takes at most one step. *)
Lemma mwp_on_device_one {A} (m : disk A) op (r : io_result A) w Q :
  m (st_files (w_store w)) = ([op], r) →
  mwp (perform op) w (λ w' r', Q w' (match r' with Ok _ => r | Err e => Err e end)) →
  mwp (on_device m) w Q.
Proof.
  intros Hm Hp. unfold mwp, on_device in *. rewrite Hm. unfold perform_all, mbind, method_bind.
  by destruct (perform op w) as [w' [[]|e]].
Qed.

(** An append to a file followed by its sync. *)
Lemma mwp_append_sync name data w Q :
  (∀ fs, (w_faults w = [] → fs = []) →
     Q (mk_world (apply_op (SyncData name) (apply_op (Append name data) (w_store w))) fs) (Ok ())) →
  (∀ fs e k, w_faults w ≠ [] →
     Q (mk_world (apply_op (Append name (take k data)) (w_store w)) fs) (Err e)) →
  mwp (on_device (_ ← step (Append name data); step (SyncData name))) w Q.
Proof.
  intros Hok Herr.
  assert (mwp (perform_all [Append name data; SyncData name]) w Q) as Hall.
  { cbn [perform_all]. apply mwp_bind, mwp_perform; cbv beta iota.
    - intros fs Hfs. apply mwp_bind, mwp_perform; cbv beta iota; cbn [w_store w_faults partial_op].
      + intros fs' Hfs'. apply mwp_ret, Hok. auto.
      + intros fs' k e Hf. rewrite <- (take_ge data (length data)) by done. apply Herr.
        intros Hn. by destruct (Hf (Hfs Hn)).
    - intros fs k e Hf. by apply Herr. }
  unfold mwp, on_device in *. change ((_ ← step _; step _) _) with ([Append name data; SyncData name], @Ok io_error_kind unit ()).
  cbv iota beta. by destruct (perform_all _ w) as [w' [[]|e]].
Qed.

Lemma mwp_device {C : Crc32Fast} {A} (m : method World A) (r : RollingSegmentWriter) (w : World) Q :
  mwp m w (λ w' x, Q (r, w') x) → mwp (device m) (r, w) Q.
Proof. unfold mwp, device. cbn [fst snd]. by destruct (m w). Qed.

(** ** What is on the device *)

Section Stored.
Context `{Crc32Fast, !Crc32FastLaws}.

(** The first [length sealed] parts of the incarnation are sealed and durable,
    the next one holds [c], and there is no other. *)
Record stored_as (inc : N) (st : Storage) (sealed : list (list Rec)) (c : bytes) : Prop := {
  sa_canonical : canonical (st_files st);
  sa_bound : N.of_nat (length sealed) + 1 <= u64_max;
  sa_inc : inc <= u64_max;
  sa_sealed : ∀ i rs, sealed !! i = Some rs → rs ≠ [] ∧
    let p := segment_path inc (N.of_nat i + 1) in
    st_files st !! p = Some (encode_records rs) ∧ st_synced st !! p = Some (encode_records rs)
    ∧ p ∈ st_entries st;
  sa_open : st_files st !! segment_path inc (N.of_nat (length sealed) + 1) = Some c;
  sa_only : ∀ p, p <= u64_max → is_Some (st_files st !! segment_path inc p) →
    1 <= p <= N.of_nat (length sealed) + 1;
  sa_synced : ∀ name s, st_synced st !! name = Some s →
    ∃ f, st_files st !! name = Some f ∧ s `prefix_of` f;
  sa_settled : settled st;
}.

Definition open_path (inc : N) (sealed : list (list Rec)) : bytes :=
  segment_path inc (N.of_nat (length sealed) + 1).

(** The beginning [b] of the open part survives a crash. *)
Definition kept_open (inc : N) (st : Storage) (sealed : list (list Rec)) (b : bytes) : Prop :=
  open_path inc sealed ∈ st_entries st
  ∧ ∃ s, st_synced st !! open_path inc sealed = Some s ∧ b `prefix_of` s.

(** The first [k] records survive a crash. *)
Definition survives (inc : N) (st : Storage) (sealed : list (list Rec)) (open_ : list Rec) (k : N)
    : Prop :=
  k <= len (concat sealed)
  ∨ kept_open inc st sealed (encode_records (take (N.to_nat (k - len (concat sealed))) open_)).

(** Less than one record's bytes. *)
Definition torn (t : bytes) : Prop :=
  t = [] ∨ ∃ r n, rec_wf r ∧ t = take n (encode_record r) ∧ N.of_nat n < rec_len r.

(** The device holds the records [concat sealed ++ open_] and a torn end. *)
Record stored (inc : N) (st : Storage) (sealed : list (list Rec)) (open_ : list Rec) (t : bytes)
    : Prop := {
  stored_disk : stored_as inc st sealed (encode_records open_ ++ t);
  stored_wf : Forall rec_wf (concat sealed ++ open_);
  stored_counting : counting 1 (concat sealed ++ open_);
  stored_torn : torn t;
}.

(** Names the writer may also write to. *)
Definition foreign (name : bytes) : Prop := parse_segment_name name = None.

Lemma foreign_ne name i p : foreign name → i <= u64_max → p <= u64_max → name ≠ segment_path i p.
Proof. intros Hf Hi Hp ->. unfold foreign in Hf. by rewrite parse_segment_path in Hf. Qed.

Lemma sealed_path_ne inc i n : inc <= u64_max → (i < n)%nat → N.of_nat n + 1 <= u64_max →
  segment_path inc (N.of_nat i + 1) ≠ segment_path inc (N.of_nat n + 1).
Proof. intros ? ? ? [_ Heq]%segment_path_inj; lia. Qed.

Lemma canonical_insert d name c : canonical d → is_Some (d !! name) → canonical (<[name := c]> d).
Proof.
  intros Hc Hs n i p Hn Hp. destruct (decide (n = name)) as [-> |Hne]; [by apply Hc|].
  rewrite lookup_insert_ne in Hn by done. by apply Hc.
Qed.

Lemma canonical_foreign d name c : canonical d → foreign name → canonical (<[name := c]> d).
Proof.
  intros Hc Hf n i p Hn Hp. destruct (decide (n = name)) as [-> |Hne].
  - unfold foreign in Hf. congruence.
  - rewrite lookup_insert_ne in Hn by done. by apply Hc.
Qed.

(** Appending to the open part. *)
Lemma stored_as_append inc st sealed c data :
  stored_as inc st sealed c →
  stored_as inc (apply_op (Append (open_path inc sealed) data) st) sealed (c ++ data).
Proof.
  intros [Hcan Hb Hi Hse Ho Hon Hsy Hset]. fold (open_path inc sealed) in Ho.
  split; cbn [apply_op exec_op st_files st_synced st_entries]; try done.
  - apply canonical_insert; [done|]. by rewrite Ho.
  - intros i rs Hl. destruct (Hse i rs Hl) as (Hne & Hf & Hs & He). split_and!; try done.
    rewrite lookup_insert_ne; [done|]. apply not_eq_sym, sealed_path_ne; [done| |done].
    by eapply lookup_lt_Some.
  - rewrite Ho. by rewrite lookup_insert_eq.
  - intros p Hp. destruct (decide (segment_path inc p = open_path inc sealed)) as [Heq|Hne].
    + intros _. apply segment_path_inj in Heq as [_ ->]; [lia|done|done|done|lia].
    + rewrite lookup_insert_ne by done. by apply Hon.
  - intros name s Hs. destruct (Hsy name s Hs) as (f & Hf & Hpre).
    destruct (decide (name = open_path inc sealed)) as [-> |Hne].
    + rewrite lookup_insert_eq, Ho. eexists. split; [done|]. cbn [default]. rewrite Ho in Hf.
      injection Hf as ->. by apply prefix_app_r.
    + rewrite lookup_insert_ne by done. by exists f.
Qed.

(** Appending elsewhere. *)
Lemma stored_as_foreign inc st sealed c name data :
  stored_as inc st sealed c → foreign name →
  stored_as inc (apply_op (Append name data) st) sealed c.
Proof.
  intros [Hcan Hb Hi Hse Ho Hon Hsy Hset] Hf. split; cbn [apply_op exec_op st_files st_synced st_entries]; try done.
  - by apply canonical_foreign.
  - intros i rs Hl. destruct (Hse i rs Hl) as (Hne & Hfi & Hs & He). split_and!; try done.
    rewrite lookup_insert_ne; [done|]. apply foreign_ne; [done|done|].
    apply lookup_lt_Some in Hl. lia.
  - rewrite lookup_insert_ne; [done|]. by apply foreign_ne.
  - intros p Hp. rewrite lookup_insert_ne; [by apply Hon|]. by apply foreign_ne.
  - intros n s Hs. destruct (Hsy n s Hs) as (f & Hfi & Hpre).
    destruct (decide (n = name)) as [-> |Hne].
    + rewrite lookup_insert_eq, Hfi. eexists. split; [done|]. by apply prefix_app_r.
    + rewrite lookup_insert_ne by done. by exists f.
Qed.

Lemma stored_as_sync_dir inc st sealed c :
  stored_as inc st sealed c → stored_as inc (apply_op SyncDir st) sealed c.
Proof.
  intros [Hcan Hb Hi Hse Ho Hon Hsy Hset]. split; try done. intros i rs Hl.
  destruct (Hse i rs Hl) as (Hne & Hf & Hs & _). split; [done|].
  cbv zeta. split_and!; [done..|]. cbn [apply_op st_entries]. apply elem_of_names. by rewrite Hf.
Qed.

Lemma stored_as_sync_foreign inc st sealed c name :
  stored_as inc st sealed c → foreign name → is_Some (st_files st !! name) →
  stored_as inc (apply_op (SyncData name) st) sealed c.
Proof.
  intros [Hcan Hb Hi Hse Ho Hon Hsy Hset] Hf [f Hn]. split; cbn [apply_op exec_op st_files st_synced st_entries]; try done.
  - intros i rs Hl. destruct (Hse i rs Hl) as (Hne & Hfi & Hs & He). split_and!; try done.
    rewrite lookup_insert_ne; [done|]. apply foreign_ne; [done|done|]. apply lookup_lt_Some in Hl. lia.
  - intros n s. destruct (decide (n = name)) as [-> |Hne].
    + rewrite lookup_insert_eq, Hn. intros [= <-]. by exists f.
    + rewrite lookup_insert_ne by done. apply Hsy.
Qed.

Lemma stored_as_sync_data inc st sealed c :
  stored_as inc st sealed c →
  stored_as inc (mk_storage (st_files st)
    (<[open_path inc sealed := default [] (st_files st !! open_path inc sealed)]> (st_synced st))
    (st_entries st) (st_former st)) sealed c.
Proof.
  intros [Hcan Hb Hi Hse Ho Hon Hsy Hset]. fold (open_path inc sealed) in Ho.
  split; cbn [st_files st_synced st_entries]; try done.
  - intros i rs Hl. destruct (Hse i rs Hl) as (Hne & Hf & Hs & He). split_and!; try done.
    rewrite lookup_insert_ne; [done|]. apply not_eq_sym, sealed_path_ne; [done| |done].
    by eapply lookup_lt_Some.
  - intros name s. destruct (decide (name = open_path inc sealed)) as [-> |Hne].
    + rewrite lookup_insert_eq, Ho. cbn [default]. intros [= <-]. by exists c.
    + rewrite lookup_insert_ne by done. apply Hsy.
Qed.

(** Beginning the next part, once the open one is sealed. *)
Lemma stored_as_create inc st sealed rs :
  stored_as inc st sealed (encode_records rs) → rs ≠ [] → kept_open inc st sealed (encode_records rs) →
  N.of_nat (length sealed) + 2 <= u64_max →
  stored_as inc (apply_op (Create (open_path inc (sealed ++ [rs]))) st) (sealed ++ [rs]) [].
Proof.
  intros [Hcan Hb Hi Hse Ho Hon Hsy Hset] Hne (Hent & s & Hs & Hpre) Hb2.
  fold (open_path inc sealed) in Ho.
  assert (s = encode_records rs) as ->.
  { destruct (Hsy _ _ Hs) as (f & Hf & Hp). rewrite Ho in Hf. injection Hf as <-.
    by apply (anti_symm prefix). }
  assert (∀ i, (i <= length sealed)%nat →
    segment_path inc (N.of_nat i + 1) ≠ open_path inc (sealed ++ [rs])) as Hfresh.
  { intros i Hlt. unfold open_path. rewrite length_app. cbn [length].
    apply sealed_path_ne; [done|lia|lia]. }
  assert (st_files st !! open_path inc (sealed ++ [rs]) = None) as Hnone.
  { destruct (st_files st !! open_path inc (sealed ++ [rs])) eqn:E; [|done].
    assert (1 <= N.of_nat (length (sealed ++ [rs])) + 1 <= N.of_nat (length sealed) + 1) as Hp.
    { apply Hon; [rewrite length_app; cbn [length]; lia|]. unfold open_path in E. by rewrite E. }
    rewrite length_app in Hp. cbn [length] in Hp. lia. }
  split; cbn [apply_op exec_op st_files st_synced st_entries].
  - intros n i p Hn Hp. destruct (decide (n = open_path inc (sealed ++ [rs]))) as [-> |Hd].
    + unfold open_path in Hp |- *. rewrite parse_segment_path in Hp by (done || rewrite length_app; cbn [length]; lia).
      by injection Hp as <- <-.
    + rewrite lookup_insert_ne in Hn by done. by apply Hcan.
  - rewrite length_app. cbn [length]. lia.
  - done.
  - intros i rs' Hl. destruct (decide (i < length sealed)%nat) as [Hlt|Hge].
    + rewrite lookup_app_l in Hl by done. destruct (Hse i rs' Hl) as (Hne' & Hf & Hs' & He).
      split; [done|]. cbv zeta. split_and!; [|done..].
      rewrite lookup_insert_ne; [done|]. apply not_eq_sym, Hfresh. lia.
    + apply lookup_snoc_Some in Hl as [[Hl _]|[-> <-]]; [lia|]. split; [done|]. cbv zeta.
      split_and!; [|done..]. rewrite lookup_insert_ne; [done|]. apply not_eq_sym, Hfresh. lia.
  - fold (open_path inc (sealed ++ [rs])). by rewrite lookup_insert_eq.
  - intros p Hp. rewrite length_app. cbn [length].
    destruct (decide (segment_path inc p = open_path inc (sealed ++ [rs]))) as [Heq|Hd].
    + intros _. apply segment_path_inj in Heq as [_ ->]; rewrite ?length_app; cbn [length]; lia.
    + rewrite lookup_insert_ne by done. intros Hsome. specialize (Hon p Hp Hsome). lia.
  - intros name f Hf. destruct (Hsy _ _ Hf) as (g & Hg & Hp). exists g. split; [|done].
    rewrite lookup_insert_ne; [done|]. intros <-. congruence.
  - done.
Qed.

(** ** What survives, as the device changes *)

Definition preserved (inc : N) (st : Storage) (sealed : list (list Rec)) (open_ : list Rec)
    (st' : Storage) (sealed' : list (list Rec)) (open_' : list Rec) : Prop :=
  ∀ k, k <= len (concat sealed ++ open_) → survives inc st sealed open_ k →
       survives inc st' sealed' open_' k.

Lemma preserved_refl inc st sealed open_ : preserved inc st sealed open_ st sealed open_.
Proof. by intros k. Qed.

Lemma preserved_trans inc st1 se1 o1 st2 se2 o2 st3 se3 o3 :
  preserved inc st1 se1 o1 st2 se2 o2 → preserved inc st2 se2 o2 st3 se3 o3 →
  len (concat se1 ++ o1) <= len (concat se2 ++ o2) → preserved inc st1 se1 o1 st3 se3 o3.
Proof. intros H1' H2' Hl k Hk Hs. apply H2'; [lia|]. by apply H1'. Qed.

(** Writes promise nothing new and take nothing back. *)
Lemma preserved_append inc st sealed open_ name data :
  preserved inc st sealed open_ (apply_op (Append name data) st) sealed open_.
Proof. by intros k _. Qed.

Lemma preserved_sync_dir inc st sealed open_ c :
  stored_as inc st sealed c → preserved inc st sealed open_ (apply_op SyncDir st) sealed open_.
Proof.
  intros Hs k _ [Hk|(_ & s & Hs' & Hp)]; [by left|right]. split; [|by exists s].
  cbn [apply_op st_entries]. apply elem_of_names. unfold open_path. by rewrite (sa_open _ _ _ _ Hs).
Qed.

Lemma preserved_sync_data inc st sealed open_ c :
  stored_as inc st sealed c →
  preserved inc st sealed open_ (mk_storage (st_files st)
    (<[open_path inc sealed := default [] (st_files st !! open_path inc sealed)]> (st_synced st))
    (st_entries st) (st_former st)) sealed open_.
Proof.
  intros Hs k _ [Hk|(He & s & Hs' & Hp)]; [by left|right]. split; [done|].
  cbn [st_synced]. rewrite lookup_insert_eq. eexists. split; [done|].
  destruct (sa_synced _ _ _ _ Hs _ _ Hs') as (f & -> & Hpf). cbn [default]. by etrans.
Qed.

(** The next record joins the open part. *)
Lemma preserved_snoc inc st sealed open_ r : preserved inc st sealed open_ st sealed (open_ ++ [r]).
Proof.
  intros k Hk [Hs|Hs]; [by left|right]. rewrite take_app_le; [done|].
  rewrite len_app in Hk. unfold len in Hk |- *. lia.
Qed.

(** A sealed part is beyond loss. *)
Lemma preserved_seal inc st sealed open_ st' :
  preserved inc st sealed open_ st' (sealed ++ [open_]) [].
Proof. intros k Hk _. left. rewrite concat_app. cbn [concat]. by rewrite app_nil_r. Qed.

Lemma stored_kept inc st sealed open_ t :
  stored inc st sealed open_ t → kept_open inc st sealed (encode_records open_) →
  survives inc st sealed open_ (len (concat sealed ++ open_)).
Proof.
  intros _ (He & s & Hs & Hp). right. split; [done|]. exists s. split; [done|].
  rewrite take_ge; [done|]. rewrite len_app. unfold len. lia.
Qed.
End Stored.

(** ** The rolling writer at work *)

Section Writing.
Context `{Crc32Fast, !Crc32FastLaws, ManifestSerde, !ManifestSerdeLaws}.

(** The manifest entry a part deserves. *)
Definition entry_of (inc part : N) (rs : list Rec) : SegmentManifestEntry :=
  {| me_incarnation := inc; me_part := part;
     me_first_seq := from_option rec_seq 0 (head rs); me_last_seq := from_option rec_seq 0 (last rs);
     me_bytes := len (encode_records rs); me_crc32 := Crc32_of (encode_records rs) |}.

Fixpoint sealed_lines (inc part : N) (sealed : list (list Rec)) : list ManifestLine :=
  match sealed with
  | [] => []
  | rs :: sealed => Sealed (entry_of inc part rs) :: sealed_lines inc (part + 1) sealed
  end.

(** No part outgrows the limit unless it is a single record. *)
Definition sized (max_part_bytes : N) (rs : list Rec) : Prop :=
  len (encode_records rs) <= max_part_bytes ∨ (length rs <= 1)%nat.

Definition manifest_bytes (st : Storage) : bytes := default [] (st_files st !! MANIFEST_FILE_NAME).

(** The lines [ls] survive a crash. *)
Definition manifest_kept (ls : list ManifestLine) (st : Storage) : Prop :=
  manifest_text ls `prefix_of` default [] (st_synced st !! MANIFEST_FILE_NAME)
  ∧ (ls ≠ [] → MANIFEST_FILE_NAME ∈ st_entries st).

(** The manifest lists the sealed parts after [ls], and some bytes of the line
    of the open part only once that part is whole and durable. *)
Record listed (ls : list ManifestLine) (inc : N) (st : Storage) (sealed : list (list Rec))
    (open_ : list Rec) (t : bytes) : Prop := {
  li_kept : manifest_kept ls st;
  li_wf : Forall line_wf (ls ++ sealed_lines inc 1 sealed);
  li_from : manifest_text (ls ++ sealed_lines inc 1 sealed) `prefix_of` manifest_bytes st;
  li_to : manifest_bytes st `prefix_of` manifest_text (ls ++ sealed_lines inc 1 (sealed ++ [open_]));
  li_open : manifest_bytes st = manifest_text (ls ++ sealed_lines inc 1 sealed)
    ∨ open_ ≠ [] ∧ t = [] ∧ kept_open inc st sealed (encode_records open_)
      ∧ Forall line_wf (ls ++ sealed_lines inc 1 (sealed ++ [open_]));
}.

(** The configured part size. *)
Context (limit : N).

(** A working writer of incarnation [inc]: its fields describe the open part,
    the manifest lists the sealed ones after [ls]. *)
Record writing (inc : N) (ls : list ManifestLine) (r : RollingSegmentWriter) (w : World)
    (sealed : list (list Rec)) (open_ : list Rec) : Prop := {
  wr_stored : stored inc (w_store w) sealed open_ [];
  wr_entry : open_path inc sealed ∈ st_entries (w_store w);
  wr_inc : rw_incarnation r = inc;
  wr_part : rw_part r = N.of_nat (length sealed) + 1;
  wr_path : sw_path (rw_writer r) = open_path inc sealed;
  wr_bytes : rw_part_bytes r = len (encode_records open_);
  wr_first : rw_part_first_seq r = rec_seq <$> head open_;
  wr_last : ∀ x, last open_ = Some x → rw_part_last_seq r = rec_seq x;
  wr_crc : rw_part_crc r = Crc32_update Crc32_new (encode_records open_);
  wr_max : rw_max_part_bytes r = limit ∧ limit <= u64_max;
  wr_sized : Forall (sized limit) (sealed ++ [open_]);
  wr_manifest : manifest_is (st_files (w_store w)) (ls ++ sealed_lines inc 1 sealed);
  wr_kept : manifest_kept ls (w_store w);
}.

Lemma sealed_lines_snoc inc part sealed rs :
  sealed_lines inc part (sealed ++ [rs])
  = sealed_lines inc part sealed ++ [Sealed (entry_of inc (part + N.of_nat (length sealed)) rs)].
Proof.
  revert part. induction sealed as [|x sealed IH]; intros part; cbn [app sealed_lines length].
  - by rewrite N.add_0_r.
  - rewrite IH. cbn [app]. by replace (part + 1 + N.of_nat (length sealed)) with (part + N.of_nat (S (length sealed))) by lia.
Qed.

Lemma manifest_text_app a b : manifest_text (a ++ b) = manifest_text a ++ manifest_text b.
Proof. unfold manifest_text. by rewrite map_app, concat_app. Qed.

Lemma manifest_text_one l : manifest_text [l] = json_to_vec l ++ [x0a].
Proof. unfold manifest_text. cbn. by rewrite app_nil_r. Qed.

Lemma manifest_text_prefix a b : manifest_text a `prefix_of` manifest_text (a ++ b).
Proof. rewrite manifest_text_app. by apply prefix_app_r. Qed.

(** Nothing of the open part is listed yet. *)
Lemma listed_unlisted ls inc st sealed open_ t :
  manifest_is (st_files st) (ls ++ sealed_lines inc 1 sealed) → manifest_kept ls st →
  listed ls inc st sealed open_ t.
Proof.
  intros [Hm Hw] Hk. split; try done; unfold manifest_bytes; rewrite Hm; [done| |by left].
  rewrite sealed_lines_snoc, app_assoc. apply manifest_text_prefix.
Qed.

(** The open part is. *)
Lemma listed_open ls inc st sealed open_ :
  manifest_is (st_files st) (ls ++ sealed_lines inc 1 (sealed ++ [open_])) → manifest_kept ls st →
  open_ ≠ [] → kept_open inc st sealed (encode_records open_) → listed ls inc st sealed open_ [].
Proof.
  intros [Hm Hw] Hk Hne Ho. pose proof Hw as Hw'. rewrite sealed_lines_snoc, app_assoc in Hw'.
  apply Forall_app in Hw' as [Hw' _]. split; try done; unfold manifest_bytes; rewrite Hm; [|done|by right].
  rewrite sealed_lines_snoc, app_assoc. apply manifest_text_prefix.
Qed.

Lemma manifest_kept_same ls st st' :
  st_synced st' !! MANIFEST_FILE_NAME = st_synced st !! MANIFEST_FILE_NAME →
  (MANIFEST_FILE_NAME ∈ st_entries st → MANIFEST_FILE_NAME ∈ st_entries st') →
  manifest_kept ls st → manifest_kept ls st'.
Proof. intros He Hi [Hk Hn]. split; [by rewrite He|auto]. Qed.

Lemma manifest_is_some d ls : manifest_is d ls → is_Some (d !! MANIFEST_FILE_NAME) ∨ ls = [].
Proof.
  intros [Hm _]. destruct (d !! MANIFEST_FILE_NAME); [by left; eexists|right]. destruct ls as [|l ls]; [done|].
  exfalso. unfold manifest_text in Hm. cbn [default map concat] in Hm. symmetry in Hm.
  apply app_nil in Hm as [Hm _]. by apply app_nil in Hm as [_ Hm].
Qed.

Lemma manifest_kept_sync_dir ls more st :
  manifest_is (st_files st) (ls ++ more) → manifest_kept ls st → manifest_kept ls (apply_op SyncDir st).
Proof.
  intros Hs [Hk Hn]. split; [done|]. intros Hne. cbn [apply_op st_entries]. apply elem_of_names.
  destruct (manifest_is_some _ _ Hs) as [?|[? _]%app_nil]; done.
Qed.

Lemma manifest_foreign : foreign MANIFEST_FILE_NAME.
Proof. apply manifest_not_segment. Qed.

Lemma manifest_is_other d ls name c :
  manifest_is d ls → name ≠ MANIFEST_FILE_NAME → manifest_is (<[name := c]> d) ls.
Proof. intros [Hm Hw] Hn. split; [|done]. by rewrite lookup_insert_ne. Qed.

Lemma open_path_manifest inc sealed :
  inc <= u64_max → N.of_nat (length sealed) + 1 <= u64_max → open_path inc sealed ≠ MANIFEST_FILE_NAME.
Proof. intros ? ?. apply not_eq_sym, foreign_ne; [apply manifest_foreign|done..]. Qed.

Lemma counting_part e sealed open_ :
  counting e (concat sealed ++ open_) → (∀ i rs, sealed !! i = Some rs → rs ≠ []) →
  N.of_nat (length sealed) + len open_ + e <= u64_max.
Proof.
  intros [_ Hl] Hne. rewrite len_app in Hl.
  enough (N.of_nat (length sealed) <= len (concat sealed)) by lia. clear Hl.
  induction sealed as [|rs sealed IH]; [cbn; lia|]. rewrite concat_cons, len_app. cbn [length].
  assert (rs ≠ []) as Hrs by (by apply (Hne 0%nat)). apply len_nonempty in Hrs.
  specialize (IH (λ i rs' Hl, Hne (S i) rs' Hl)). lia.
Qed.

Lemma stored_parts inc st sealed open_ t :
  stored inc st sealed open_ t → N.of_nat (length sealed) + len open_ + 1 <= u64_max.
Proof.
  intros Hs. apply (counting_part 1 _ _ (stored_counting _ _ _ _ _ Hs)).
  intros i rs Hl. by destruct (sa_sealed _ _ _ _ (stored_disk _ _ _ _ _ Hs) i rs Hl).
Qed.

Lemma elem_seq_bound rs x e : counting e rs → x ∈ rs → rec_seq x <= u64_max.
Proof.
  intros Hc Hx. apply list_elem_of_lookup in Hx as [i Hi].
  rewrite (counting_lookup _ _ _ _ Hc Hi). apply lookup_lt_Some in Hi. destruct Hc as [_ Hl].
  unfold len in Hl. lia.
Qed.

Lemma entry_of_wf inc (sealed : list (list Rec)) rs max_part_bytes :
  inc <= u64_max → N.of_nat (length sealed) + 1 <= u64_max → max_part_bytes <= u64_max →
  sized max_part_bytes rs → Forall rec_wf rs → (∀ x, x ∈ rs → rec_seq x <= u64_max) →
  line_wf (Sealed (entry_of inc (N.of_nat (length sealed) + 1) rs)).
Proof.
  intros Hi Hp Hm Hs Hwf Hseq. split_and!; cbn [entry_of me_incarnation me_part me_first_seq me_last_seq me_bytes me_crc32];
    try done.
  - destruct rs as [|x rs]; [cbn; unfold u64_max; lia|]. apply Hseq. by left.
  - destruct (last rs) as [x|] eqn:E; [|cbn; unfold u64_max; lia]. apply Hseq.
    apply last_Some in E as [l ->]. apply elem_of_app. right. by left.
  - destruct Hs as [|Hl]; [lia|]. destruct rs as [|x [|]]; cbn [length] in Hl; [done| |lia].
    apply Forall_cons in Hwf as [(_ & _ & Hx) _]. rewrite encode_records_cons, len_app, len_encode_record.
    change (len (encode_records [])) with 0. unfold rec_len, HEADER_LEN, MAX_PAYLOAD_LEN, u64_max in *. lia.
  - apply Crc32_of_u32.
Qed.

(** The steps of a method, one at a time. *)
Lemma mwp_self (r : RollingSegmentWriter) (w : World) Q : Q (r, w) (Ok r) → mwp self (r, w) Q.
Proof. done. Qed.
Lemma mwp_set f (r : RollingSegmentWriter) (w : World) Q : Q (f r, w) (Ok ()) → mwp (set f) (r, w) Q.
Proof. done. Qed.

(** While the open part is being sealed: it is synced in full. *)
Definition sealing (inc : N) (st0 st : Storage) (sealed : list (list Rec)) (open_ : list Rec) : Prop :=
  stored inc st sealed open_ [] ∧ preserved inc st0 sealed open_ st sealed open_
  ∧ kept_open inc st sealed (encode_records open_).

Lemma stored_foreign inc st sealed open_ t name data :
  stored inc st sealed open_ t → foreign name →
  stored inc (apply_op (Append name data) st) sealed open_ t.
Proof. intros [? ? ? ?] ?. split; try done. by apply stored_as_foreign. Qed.

Lemma stored_sync_dir inc st sealed open_ t :
  stored inc st sealed open_ t → stored inc (apply_op SyncDir st) sealed open_ t.
Proof. intros [? ? ? ?]. split; try done. by apply stored_as_sync_dir. Qed.

Lemma sealing_start inc st sealed open_ :
  stored inc st sealed open_ [] → open_path inc sealed ∈ st_entries st →
  sealing inc st (mk_storage (st_files st)
    (<[open_path inc sealed := default [] (st_files st !! open_path inc sealed)]> (st_synced st))
    (st_entries st) (st_former st)) sealed open_.
Proof.
  intros [Hd Hw Hc Ht] He. split_and!.
  - split; try done. by apply stored_as_sync_data.
  - by eapply preserved_sync_data.
  - split; [done|]. cbn [st_synced]. rewrite lookup_insert_eq. eexists. split; [done|].
    unfold open_path. rewrite (sa_open _ _ _ _ Hd). cbn [default]. by rewrite app_nil_r.
Qed.

Lemma sealing_manifest inc st0 st sealed open_ data :
  sealing inc st0 st sealed open_ →
  sealing inc st0 (apply_op (Append MANIFEST_FILE_NAME data) st) sealed open_.
Proof.
  intros (Hs & Hp & Hk). split_and!; [|done|done]. apply stored_foreign; [done|apply manifest_foreign].
Qed.

Lemma sealing_sync_manifest inc st0 st sealed open_ :
  sealing inc st0 st sealed open_ → is_Some (st_files st !! MANIFEST_FILE_NAME) → inc <= u64_max →
  sealing inc st0 (apply_op (SyncData MANIFEST_FILE_NAME) st) sealed open_.
Proof.
  intros ([Hs Hw Hc Ht] & Hp & (He & s & Hsy & Hpre)) Hm Hi.
  assert (MANIFEST_FILE_NAME ≠ open_path inc sealed) as Hne.
  { apply foreign_ne; [apply manifest_foreign|done|apply Hs]. }
  split_and!.
  - split; try done. apply stored_as_sync_foreign; [done|apply manifest_foreign|done].
  - intros k Hk Hsv. destruct (Hp k Hk Hsv) as [?|(? & s' & ? & ?)]; [by left|right]. split; [done|].
    exists s'. cbn [apply_op st_synced]. by rewrite lookup_insert_ne.
  - split; [done|]. exists s. cbn [apply_op st_synced]. by rewrite lookup_insert_ne.
Qed.

Lemma sealing_sync_dir inc st0 st sealed open_ :
  sealing inc st0 st sealed open_ → sealing inc st0 (apply_op SyncDir st) sealed open_.
Proof.
  intros (Hs & Hp & (He & s & Hsy & Hpre)). split_and!.
  - by apply stored_sync_dir.
  - eapply preserved_trans; [done| |lia]. eapply preserved_sync_dir, stored_disk, Hs.
  - split; [|by exists s]. cbn [apply_op st_entries]. apply elem_of_names. unfold open_path.
    by rewrite (sa_open _ _ _ _ (stored_disk _ _ _ _ _ Hs)).
Qed.

Lemma manifest_appended d ls l :
  manifest_is d ls → line_wf l →
  manifest_is (exec_op d (Append MANIFEST_FILE_NAME (json_to_vec l ++ [x0a]))) (ls ++ [l]).
Proof. intros Hm Hl. by destruct (append_manifest_is d ls l Hm Hl) as (ops & [= <-] & Hr & _). Qed.

(** Some of the line of the open part, written while it is being sealed. *)
Lemma sealing_listed inc ls st0 st sealed open_ k (e := entry_of inc (N.of_nat (length sealed) + 1) open_) :
  sealing inc st0 st sealed open_ → manifest_kept ls st →
  manifest_is (st_files st) (ls ++ sealed_lines inc 1 sealed) → line_wf (Sealed e) → open_ ≠ [] →
  let st' := apply_op (Append MANIFEST_FILE_NAME (take k (json_to_vec (Sealed e) ++ [x0a]))) st in
  sealing inc st0 st' sealed open_ ∧ listed ls inc st' sealed open_ [].
Proof.
  intros Hg Hk [Hm Hw] He Hne st'. split; [by apply sealing_manifest|].
  assert (sealed_lines inc 1 (sealed ++ [open_]) = sealed_lines inc 1 sealed ++ [Sealed e]) as Hl
    by (by rewrite sealed_lines_snoc, (N.add_comm 1)).
  assert (manifest_bytes st' = manifest_text (ls ++ sealed_lines inc 1 sealed) ++ take k (json_to_vec (Sealed e) ++ [x0a])) as Hb.
  { unfold manifest_bytes, st'. cbn [apply_op exec_op st_files]. rewrite lookup_insert_eq. cbn [default]. by rewrite <- Hm. }
  split; [done|done|rewrite Hb; by apply prefix_app_r| |].
  - rewrite Hb, Hl, app_assoc, (manifest_text_app (ls ++ _)), manifest_text_one. apply prefix_app, prefix_take.
  - right. destruct Hg as (_ & _ & Hko). split_and!; [done|done|done|]. rewrite Hl, app_assoc.
    apply Forall_app. split; [done|]. by constructor.
Qed.

(** The whole of it, synced. *)
Lemma sealing_whole inc ls st0 st sealed open_ (e := entry_of inc (N.of_nat (length sealed) + 1) open_) :
  sealing inc st0 st sealed open_ → manifest_kept ls st →
  manifest_is (st_files st) (ls ++ sealed_lines inc 1 sealed) → line_wf (Sealed e) → inc <= u64_max →
  let st' := apply_op (SyncData MANIFEST_FILE_NAME)
    (apply_op (Append MANIFEST_FILE_NAME (json_to_vec (Sealed e) ++ [x0a])) st) in
  sealing inc st0 st' sealed open_ ∧ manifest_kept ls st'
  ∧ manifest_is (st_files st') (ls ++ sealed_lines inc 1 (sealed ++ [open_])).
Proof.
  intros Hg [Hk Hn] Hm He Hi st'.
  assert (manifest_is (st_files st') (ls ++ sealed_lines inc 1 (sealed ++ [open_]))) as Hm'.
  { rewrite sealed_lines_snoc, app_assoc, (N.add_comm 1). by apply manifest_appended. }
  split_and!; [| |done].
  - apply sealing_sync_manifest; [by apply sealing_manifest| |done].
    cbn [apply_op exec_op st_files]. by rewrite lookup_insert_eq.
  - split; [|done]. unfold st'. cbn [apply_op exec_op st_files st_synced]. rewrite lookup_insert_eq. cbn [default].
    destruct Hm' as [Hm' _]. unfold st' in Hm'. cbn [apply_op exec_op st_files] in Hm'.
    unfold default, id in *. rewrite Hm'. apply manifest_text_prefix.
Qed.

(** The entry [seal_part] computes from the fields is the part's. *)
Lemma writing_entry inc ls r w sealed open_ f :
  writing inc ls r w sealed open_ → rw_part_first_seq r = Some f → open_ ≠ [] →
  {| me_incarnation := rw_incarnation r; me_part := rw_part r; me_first_seq := f;
     me_last_seq := rw_part_last_seq r; me_bytes := rw_part_bytes r;
     me_crc32 := Crc32_finish (rw_part_crc r) |}
  = entry_of inc (N.of_nat (length sealed) + 1) open_
  ∧ line_wf (Sealed (entry_of inc (N.of_nat (length sealed) + 1) open_)).
Proof.
  intros [Hst Hent Hin Hpt Hpath Hby Hfi Hla Hcr Hmx Hsz Hma] Hf Hne. split.
  - unfold entry_of. rewrite Hin, Hpt, Hby, Hcr. unfold Crc32_finish, Crc32_update, Crc32_new, Crc32_of.
    rewrite crc32fast_hash_spec. destruct (last open_) as [x|] eqn:E; [|by apply last_None in E].
    rewrite (Hla x eq_refl). rewrite Hfi in Hf. destruct (head open_); [|done].
    injection Hf as <-. done.
  - pose proof Hst as [Hd Hw Hc _]. eapply (entry_of_wf _ _ _ limit); try apply Hd; try apply Hmx; try done.
    + apply Forall_app in Hsz as [_ Hsz]. by apply Forall_cons in Hsz as [? _].
    + by apply Forall_app in Hw as [_ ?].
    + intros x Hx. eapply elem_seq_bound; [done|]. apply elem_of_app. by right.
Qed.

(** Sealing: everything in the open part is synced and listed, or the call
    fails and the records are where they were. *)
Lemma seal_part_spec inc ls r w sealed open_ :
  writing inc ls r w sealed open_ → open_ ≠ [] →
  mwp seal_part (r, w) (λ s res,
    stored inc (w_store s.2) sealed open_ []
    ∧ preserved inc (w_store w) sealed open_ (w_store s.2) sealed open_
    ∧ listed ls inc (w_store s.2) sealed open_ []
    ∧ calm w s.2 res
    ∧ (res = Ok () →
       s.1 = set_part_crc Crc32_new (set_part_first_seq None r)
       ∧ kept_open inc (w_store s.2) sealed (encode_records open_)
       ∧ manifest_is (st_files (w_store s.2)) (ls ++ sealed_lines inc 1 (sealed ++ [open_])))).
Proof.
  intros Hwr Hne. pose proof Hwr as [Hst Hent _ _ Hpath _ Hfi _ _ _ _ Hma Hmk].
  unfold seal_part. apply mwp_bind, mwp_self. cbv beta iota.
  destruct (rw_part_first_seq r) as [f|] eqn:Ef; [|by destruct open_].
  destruct (writing_entry _ _ _ _ _ _ f Hwr Ef Hne) as [Hentry Hline].
  apply mwp_bind, mwp_set. cbv beta iota. apply mwp_bind, mwp_device.
  unfold SegmentWriter_sync. rewrite Hpath. apply mwp_sync_data.
  2:{ intros fs e Hf. split_and!; [done|apply preserved_refl|by apply listed_unlisted|by apply calm_err|done]. }
  pose proof (sealing_start _ _ _ _ Hst Hent) as Hg. intros fs Hfs. cbv beta iota.
  set (st1 := mk_storage _ _ _ _) in *.
  assert (manifest_kept ls st1) as Hmk1.
  { apply (manifest_kept_same ls (w_store w)); [|done|done]. cbn [st1 st_synced]. rewrite lookup_insert_ne; [done|].
    apply open_path_manifest; apply Hst. }
  assert (manifest_is (st_files st1) (ls ++ sealed_lines inc 1 sealed)) as Hma1 by done.
  apply mwp_bind, mwp_device. cbv zeta. rewrite Hentry. unfold SegmentManifestEntry_append_to, append_manifest_line.
  apply mwp_append_sync; cbn [w_store w_faults].
  2:{ intros fs' e k Hf. destruct (sealing_listed _ _ _ _ _ _ k Hg Hmk1 Hma1 Hline Hne) as [(? & ? & _) ?].
      split_and!; try done. intros Hn. by destruct (Hf (Hfs Hn)). }
  intros fs' Hfs'. cbv beta iota.
  destruct (sealing_whole _ _ _ _ _ _ Hg Hmk1 Hma1 Hline ltac:(apply Hst)) as (Hg2 & Hmk2 & Hma2).
  set (st2 := apply_op (SyncData _) _) in *.
  assert (∀ st, sealing inc (w_store w) st sealed open_ → manifest_kept ls st → st_files st = st_files st2 →
    listed ls inc st sealed open_ []) as Hlisted.
  { intros st (_ & _ & ?) ? Hfiles. apply listed_open; [by rewrite Hfiles|done..]. }
  apply mwp_bind, mwp_device. eapply mwp_on_device_one; [done|]. cbn [w_store].
  apply mwp_perform; cbn [w_store partial_op]; [intros fs'' Hfs''|intros fs'' k e Hf].
  2:{ pose proof Hg2 as (? & ? & _). split_and!; try done; [by apply Hlisted|].
      intros Hn. by destruct (Hf (Hfs' (Hfs Hn))). }
  cbv beta iota. apply mwp_set. cbn [fst snd w_store].
  pose proof (manifest_kept_sync_dir _ _ _ Hma2 Hmk2) as Hmk3.
  apply sealing_sync_dir in Hg2 as Hg3. pose proof Hg3 as (? & ? & ?). split_and!; [done|done|by apply Hlisted| |].
  { intros Hn. split; [|done]. cbn [w_faults] in *. auto. }
  by intros _.
Qed.

(** The device holds exactly [rs] and a torn end, and keeps its promises. *)
Definition halted (inc : N) (ls : list ManifestLine) (st0 : Storage) (sealed : list (list Rec))
    (open_ : list Rec) (st : Storage) (rs : list Rec) : Prop :=
  ∃ sealed' open_' t, concat sealed' ++ open_' = rs ∧ stored inc st sealed' open_' t
    ∧ listed ls inc st sealed' open_' t ∧ preserved inc st0 sealed open_ st sealed' open_'.

Lemma create_new_fresh (d : Dir) name : d !! name = None → create_new name d = ([Create name], Ok ()).
Proof.
  intros Hn. unfold create_new. rewrite (reads_bind _ _ _ false); [done|].
  by rewrite Hn, bool_decide_eq_false_2.
Qed.

Lemma next_part_fresh inc st sealed open_ t (rs : list Rec) :
  stored inc st sealed open_ t → N.of_nat (length sealed) + 2 <= u64_max →
  st_files st !! open_path inc (sealed ++ [rs]) = None.
Proof.
  intros [Hd _ _ _] Hb. destruct (st_files st !! _) as [c|] eqn:E; [|done].
  assert (1 <= N.of_nat (length (sealed ++ [rs])) + 1 <= N.of_nat (length sealed) + 1) as Hp.
  { apply (sa_only _ _ _ _ Hd); [rewrite length_app; cbn [length]; lia|].
    unfold open_path in E. by rewrite E. }
  rewrite length_app in Hp. cbn [length] in Hp. lia.
Qed.

Lemma stored_create inc st0 st sealed open_ (sealed' := sealed ++ [open_]) :
  sealing inc st0 st sealed open_ → open_ ≠ [] →
  stored inc (apply_op (Create (open_path inc sealed')) st) sealed' [] [].
Proof.
  intros (Hs & _ & Hk) Hne. pose proof Hs as [Hd Hw Hc _]. rewrite app_nil_r in Hd.
  pose proof (stored_parts _ _ _ _ _ Hs) as Hb. apply len_nonempty in Hne as Hl.
  assert (concat sealed' ++ [] = concat sealed ++ open_) as He.
  { unfold sealed'. rewrite concat_app. cbn [concat]. by rewrite !app_nil_r. }
  split; [|by rewrite He|by rewrite He|by left].
  apply stored_as_create; try done. lia.
Qed.

Lemma created_manifest ls inc st sealed :
  manifest_is (st_files st) (ls ++ sealed_lines inc 1 sealed) → manifest_kept ls st →
  inc <= u64_max → N.of_nat (length sealed) + 1 <= u64_max →
  let st' := apply_op (Create (open_path inc sealed)) st in
  manifest_is (st_files st') (ls ++ sealed_lines inc 1 sealed) ∧ manifest_kept ls st'.
Proof. intros Hm Hk ? ? st'. split; [|done]. apply manifest_is_other; [done|by apply open_path_manifest]. Qed.

Lemma roll_over_spec inc ls r w sealed open_ :
  writing inc ls r w sealed open_ → open_ ≠ [] →
  mwp roll_over (r, w) (λ s res,
    match res with
    | Ok _ => writing inc ls s.1 s.2 (sealed ++ [open_]) []
    | Err _ => halted inc ls (w_store w) sealed open_ (w_store s.2) (concat sealed ++ open_)
    end ∧ calm w s.2 res).
Proof.
  intros Hwr Hne. pose proof Hwr as [Hst Hent Hin Hpt Hpath _ _ _ _ Hmx Hsz _ _].
  pose proof (stored_parts _ _ _ _ _ Hst) as Hb. apply len_nonempty in Hne as Hl.
  unfold roll_over. apply mwp_bind. eapply mwp_mono; [by apply seal_part_spec|].
  intros [r1 w1] res (Hs1 & Hp1 & Hli1 & Hcalm & Hok). cbn [fst snd] in *. destruct res as [[]|e].
  2:{ split; [by exists sealed, open_, []|]. intros Hn. by destruct (Hcalm Hn). }
  assert (w_faults w = [] → w_faults w1 = []) as Hf1 by (intros Hn; by destruct (Hcalm Hn)).
  destruct (Hok eq_refl) as (-> & Hk1 & Hm1). clear Hok.
  assert (sealing inc (w_store w) (w_store w1) sealed open_) as Hg by done.
  apply mwp_bind, mwp_set. cbv beta iota. apply mwp_bind, mwp_self. cbv beta iota.
  cbn [set_part set_part_crc set_part_first_seq rw_incarnation rw_part].
  assert (segment_path (rw_incarnation r) (u64_add (rw_part r) 1) = open_path inc (sealed ++ [open_])) as ->.
  { unfold open_path. rewrite Hin, Hpt, length_app, u64_add_small by lia. cbn [length]. f_equal. lia. }
  apply mwp_bind, mwp_device. unfold SegmentWriter_create. apply mwp_bind.
  eapply mwp_on_device_one; [apply create_new_fresh; eapply next_part_fresh; [exact Hs1|lia]|].
  apply mwp_perform; cbn [partial_op]; [intros fs Hfs|intros fs k e Hf].
  2:{ split; [by exists sealed, open_, []|]. intros Hn. by destruct (Hf (Hf1 Hn)). }
  cbv beta iota. apply mwp_ret. cbv beta iota. apply mwp_bind, mwp_set. cbv beta iota.
  pose proof (stored_create _ _ _ _ _ Hg Hne) as Hs2.
  pose proof (preserved_seal inc (w_store w) sealed open_) as Hp2.
  assert (concat (sealed ++ [open_]) ++ [] = concat sealed ++ open_) as Hsame.
  { rewrite concat_app. cbn [concat]. by rewrite !app_nil_r. }
  destruct (created_manifest ls _ (w_store w1) (sealed ++ [open_]) Hm1 (li_kept _ _ _ _ _ _ Hli1)
    (sa_inc _ _ _ _ (stored_disk _ _ _ _ _ Hs2)) (sa_bound _ _ _ _ (stored_disk _ _ _ _ _ Hs2))) as [Hm2 Hmk2].
  apply mwp_bind, mwp_device. eapply mwp_on_device_one; [done|]. cbn [w_store].
  apply mwp_perform; cbn [w_store partial_op]; [intros fs' Hfs'|intros fs' k e Hf].
  2:{ split; [exists (sealed ++ [open_]), [], []; split_and!; try done; by apply listed_unlisted|]. intros Hn. by destruct (Hf (Hfs (Hf1 Hn))). }
  cbv beta iota. apply mwp_set. cbn [fst snd w_store].
  split; [|intros Hn; split; [cbn [w_faults]; auto|done]].
  split; cbn [fst snd w_store set_writer set_part_bytes set_part set_part_crc set_part_first_seq rw_incarnation rw_part
    rw_writer sw_path rw_part_bytes rw_part_first_seq rw_part_last_seq rw_part_crc rw_max_part_bytes]; try done.
  - by apply stored_sync_dir.
  - cbn [apply_op st_entries]. apply elem_of_names.
    eexists. exact (sa_open _ _ _ _ (stored_disk _ _ _ _ _ Hs2)).
  - rewrite Hpt, length_app, u64_add_small by lia. cbn [length]. lia.
  - unfold Crc32_update, Crc32_new. change (encode_records []) with (@nil byte). by rewrite hasher_update_nil.
  - apply Forall_app. split; [done|]. constructor; [|done]. right. cbn. lia.
  - by eapply manifest_kept_sync_dir.
Qed.

(** Some of one more record's bytes at the end of the open part: either the
    record is whole and the open part has it, or it is a torn end. *)
Lemma stored_grow inc ls st st' sealed open_ rec m :
  stored inc st sealed open_ [] → rec_wf rec → counting 1 ((concat sealed ++ open_) ++ [rec]) →
  manifest_is (st_files st') (ls ++ sealed_lines inc 1 sealed) → manifest_kept ls st →
  st_synced st' = st_synced st → st_entries st' = st_entries st →
  stored_as inc st' sealed (encode_records open_ ++ take m (encode_record rec)) →
  ∃ rs, (rs = concat sealed ++ open_ ∨ rs = (concat sealed ++ open_) ++ [rec])
    ∧ halted inc ls st sealed open_ st' rs.
Proof.
  intros [_ Hw Hc _] Hr Hc' Hma Hmk Hsy Hen Hd.
  assert (∀ o t, listed ls inc st' sealed o t) as Hli.
  { intros o t. apply listed_unlisted; [done|]. destruct Hmk. by split; rewrite ?Hsy, ?Hen. }
  assert (∀ o, preserved inc st sealed open_ st sealed o → preserved inc st sealed open_ st' sealed o) as Hpre.
  { intros o Ho k Hk Hs. specialize (Ho k Hk Hs). unfold survives, kept_open in *. by rewrite Hsy, Hen. }
  destruct (decide (N.of_nat m < rec_len rec)) as [Hlt|Hge].
  - exists (concat sealed ++ open_). split; [by left|].
    exists sealed, open_, (take m (encode_record rec)). split_and!; [done| |done|apply Hpre, preserved_refl].
    split; try done. right. by exists rec, m.
  - exists ((concat sealed ++ open_) ++ [rec]). split; [by right|].
    exists sealed, (open_ ++ [rec]), []. rewrite app_assoc. split_and!; [done| |done|apply Hpre, preserved_snoc].
    split.
    + rewrite take_ge in Hd.
      2:{ pose proof (len_encode_record rec) as Hl. unfold len in Hl. lia. }
      by rewrite encode_records_snoc, app_nil_r.
    + rewrite app_assoc. apply Forall_app. split; [done|]. by constructor.
    + by rewrite app_assoc.
    + by left.
Qed.

Lemma head_snoc {A} (l : list A) x : head (l ++ [x]) = match head l with Some y => Some y | None => Some x end.
Proof. by destruct l. Qed.

Lemma write_record_spec inc ls r w sealed open_ rec :
  writing inc ls r w sealed open_ → rec_wf rec → counting 1 ((concat sealed ++ open_) ++ [rec]) →
  sized limit (open_ ++ [rec]) →
  mwp (write_record (rec_kind rec) (rec_seq rec) (rec_elapsed_ms rec) (rec_payload rec)) (r, w) (λ s res,
    match res with
    | Ok _ => writing inc ls s.1 s.2 sealed (open_ ++ [rec])
              ∧ preserved inc (w_store w) sealed open_ (w_store s.2) sealed (open_ ++ [rec])
    | Err _ => ∃ rs, (rs = concat sealed ++ open_ ∨ rs = (concat sealed ++ open_) ++ [rec])
                 ∧ halted inc ls (w_store w) sealed open_ (w_store s.2) rs
    end ∧ calm w s.2 res).
Proof.
  intros Hwr Hrec Hcnt Hsize.
  pose proof Hwr as [Hst Hent Hin Hpt Hpath Hby Hfi Hla Hcr Hmx Hsz Hma Hmk].
  pose proof (stored_disk _ _ _ _ _ Hst) as Hd. rewrite app_nil_r in Hd.
  assert (∀ st data, manifest_is (st_files st) (ls ++ sealed_lines inc 1 sealed) →
    manifest_is (st_files (apply_op (Append (open_path inc sealed) data) st)) (ls ++ sealed_lines inc 1 sealed)) as Hap.
  { intros st data Hm. apply manifest_is_other; [done|]. apply open_path_manifest; apply Hd. }
  set (h := encode_record_header (rec_kind rec) (rec_seq rec) (rec_elapsed_ms rec) (rec_payload rec)).
  assert (len h = HEADER_LEN) as Hh by apply len_encode_header.
  assert (encode_record rec = h ++ rec_payload rec) as He by done.
  unfold write_record. fold h.
  apply mwp_bind, mwp_set. cbv beta iota. apply mwp_bind, mwp_self. cbv beta iota.
  apply mwp_bind, mwp_device. unfold write_encoded. cbn [set_part_crc rw_writer]. rewrite Hpath.
  apply mwp_bind, mwp_perform; cbn [partial_op]; [intros fs Hfs|intros fs k e Hf]; cbv beta iota.
  2:{ split; [|by apply calm_err]. apply (stored_grow _ _ _ _ _ _ _ (N.to_nat (N.min k HEADER_LEN)) Hst Hrec Hcnt (Hap _ _ Hma) Hmk); [done|done|].
      rewrite He, take_app_le by (unfold len in Hh; lia).
      replace (take (N.to_nat (N.min k HEADER_LEN)) h) with (take (N.to_nat k) h);
        [by apply stored_as_append|].
      destruct (N.min_spec k HEADER_LEN) as [[? ->]|[? ->]]; [done|]. rewrite !take_ge; [done|..];
        unfold len in Hh; lia. }
  pose proof (stored_as_append _ _ _ _ h Hd) as Hd1. cbn [w_store].
  set (st1 := apply_op (Append (open_path inc sealed) h) (w_store w)) in *.
  apply mwp_bind, mwp_perform; cbn [w_store partial_op]; [intros fs' Hfs'|intros fs' k e Hf]; cbv beta iota.
  2:{ split; [|intros Hn; by destruct (Hf (Hfs Hn))]. apply (stored_grow _ _ _ _ _ _ _ (length h + N.to_nat k) Hst Hrec Hcnt (Hap _ _ (Hap _ _ Hma)) Hmk); [done|done|].
      rewrite He, take_app_add, app_assoc. by apply stored_as_append. }
  pose proof (stored_as_append _ _ _ _ (rec_payload rec) Hd1) as Hd2.
  rewrite <- app_assoc, <- He, <- encode_records_snoc in Hd2.
  set (st2 := apply_op (Append (open_path inc sealed) (rec_payload rec)) st1) in *.
  apply mwp_ret. cbv beta iota. do 3 (apply mwp_bind, mwp_set; cbv beta iota). apply mwp_set.
  set (r1 := set_part_last_seq _ _).
  assert (rw_part_first_seq r1 = rec_seq <$> head (open_ ++ [rec])) as Hf1.
  { unfold r1. cbn [set_part_last_seq rw_part_first_seq set_writer set_part_crc]. rewrite head_snoc.
    rewrite Hfi. by destruct (head open_). }
  assert (rw_incarnation r1 = rw_incarnation r ∧ rw_part r1 = rw_part r
    ∧ rw_part_bytes r1 = rw_part_bytes r ∧ rw_max_part_bytes r1 = rw_max_part_bytes r
    ∧ rw_part_crc r1 = Crc32_update (Crc32_update (rw_part_crc r) h) (rec_payload rec)
    ∧ sw_path (rw_writer r1) = open_path inc sealed)
    as (Hi1 & Hp1 & Hb1 & Hm1 & Hc1 & Hw1).
  { unfold r1. cbn [set_writer set_part_crc rw_part_first_seq]. by destruct (rw_part_first_seq r). }
  cbn [fst snd]. split; [|intros Hn; split; [cbn [w_faults]; auto|done]].
  split; [|exact (preserved_snoc inc (w_store w) sealed open_ rec)].
  split; cbn [set_part_bytes rw_incarnation rw_part rw_writer rw_part_bytes rw_part_first_seq
    rw_part_last_seq rw_part_crc rw_max_part_bytes w_store]; rewrite ?Hi1, ?Hp1, ?Hb1, ?Hm1; try done.
  - split; rewrite ?app_assoc, ?app_nil_r; try done; [|by left].
    apply Forall_app. split; [by apply Hst|]. by constructor.
  - rewrite encode_records_snoc, len_app, len_encode_record, Hby. unfold rec_len. lia.
  - intros x Hx. rewrite last_snoc in Hx. injection Hx as <-. done.
  - rewrite Hc1, Hcr. unfold Crc32_update. by rewrite !hasher_update_app, encode_records_snoc, He, app_assoc.
  - apply Forall_app in Hsz as [Hsz _]. apply Forall_app. split; [done|]. by constructor.
  - by apply Hap, Hap.
Qed.

Lemma encode_records_zero rs : len (encode_records rs) = 0 → rs = [].
Proof.
  destruct rs as [|r rs]; [done|]. rewrite encode_records_cons, len_app, len_encode_record.
  unfold rec_len, HEADER_LEN. lia.
Qed.

Lemma append_record_spec inc ls r w sealed open_ rec (evs := concat sealed ++ open_) :
  writing inc ls r w sealed open_ → rec_wf rec → counting 1 (evs ++ [rec]) →
  mwp (append_record (rec_kind rec) (rec_seq rec) (rec_elapsed_ms rec) (rec_payload rec)) (r, w) (λ s res,
    match res with
    | Ok _ => ∃ sealed' open_', writing inc ls s.1 s.2 sealed' open_'
              ∧ concat sealed' ++ open_' = evs ++ [rec]
              ∧ preserved inc (w_store w) sealed open_ (w_store s.2) sealed' open_'
    | Err _ => ∃ rs, (rs = evs ∨ rs = evs ++ [rec])
                 ∧ halted inc ls (w_store w) sealed open_ (w_store s.2) rs
    end ∧ calm w s.2 res).
Proof.
  intros Hwr Hrec Hcnt. pose proof Hwr as [_ _ _ _ _ Hby _ _ _ _ Hsz _ _].
  unfold append_record. apply mwp_bind, mwp_self. cbv beta iota. apply mwp_bind.
  destruct ((0 <? rw_part_bytes r) && _) eqn:Hroll; bool_prop.
  - assert (open_ ≠ []) as Hne by (intros ->; change (len (encode_records [])) with 0 in Hby; lia).
    eapply mwp_mono; [by apply roll_over_spec|]. intros [r1 w1] [[]|e] [Hq Hcalm]; cbn [fst snd] in *.
    2:{ split; [|done]. exists evs. split; [by left|done]. }
    rename Hq into Hwr1.
    assert (concat (sealed ++ [open_]) ++ [] = evs) as He.
    { rewrite concat_app. cbn [concat]. by rewrite !app_nil_r. }
    eapply mwp_mono; [apply (write_record_spec _ _ _ _ _ _ _ Hwr1 Hrec); [by rewrite He|right; cbn; lia]|].
    rewrite He. intros [r2 w2] [[]|e] [Hq Hc2]; cbn [fst snd] in *.
    + split; [|intros Hn; apply Hc2; by destruct (Hcalm Hn)].
      destruct Hq as (Hwr2 & Hp). exists (sealed ++ [open_]), [rec]. split_and!; [done| |].
      * rewrite concat_app. cbn [concat]. by rewrite app_nil_r.
      * eapply preserved_trans; [apply preserved_seal|exact Hp|]. by rewrite He.
    + split; [|intros Hn; apply Hc2; by destruct (Hcalm Hn)].
      destruct Hq as (rs & Hrs & se & o & t & Hse & Hst & Hli & Hp). exists rs. split; [done|].
      exists se, o, t. split_and!; try done. eapply preserved_trans; [apply preserved_seal|exact Hp|]. by rewrite He.
  - apply mwp_ret. cbv beta iota. eapply mwp_mono.
    + apply (write_record_spec _ _ _ _ _ _ _ Hwr Hrec Hcnt).
      apply andb_false_iff in Hroll as [Hz|Hle]; bool_prop.
      * assert (open_ = []) as -> by (apply encode_records_zero; lia). right. cbn. lia.
      * left. rewrite encode_records_snoc, len_app, len_encode_record. unfold rec_len.
        destruct (wr_max _ _ _ _ _ _ Hwr) as [<- _]. lia.
    + intros [r1 w1] [[]|e] [Hq Hcalm]; (split; [|done]); [|done]. destruct Hq as (Hwr1 & Hp).
      exists sealed, (open_ ++ [rec]). split_and!; [done|apply app_assoc|done].
Qed.

(** ** The loop *)

(** No acknowledgement runs ahead of the loop's own counters. *)
Definition ack_ok (a : Appender) (ack : JournalAck) : Prop :=
  match ack with
  | Journaled n => n <= ap_last_written a
  | Durable n => n <= ap_last_durable a
  | AckFailed _ => is_Some (ap_dead a)
  end.

(** The records an appender has accepted, and what its device holds: while it
    is alive, everything it received; after a failure, a prefix. *)
Definition appender_ok (inc : N) (ls : list ManifestLine) (received : list Rec) (s : Step) : Prop :=
  let '(a, w, acks) := s in
  Forall (ack_ok a) acks
  ∧ ap_last_durable a <= ap_last_written a
  ∧ match ap_dead a with
    | None =>
        ∃ sealed open_, writing inc ls (ap_writer a) w sealed open_
          ∧ concat sealed ++ open_ = received
          ∧ ap_expected_seq a = len received + 1 ∧ ap_last_written a = len received
          ∧ survives inc (w_store w) sealed open_ (ap_last_durable a)
    | Some _ =>
        ∃ sealed open_ t, stored inc (w_store w) sealed open_ t
          ∧ listed ls inc (w_store w) sealed open_ t
          ∧ concat sealed ++ open_ `prefix_of` received
          ∧ ap_last_written a <= len (concat sealed ++ open_)
          ∧ survives inc (w_store w) sealed open_ (ap_last_durable a)
    end.

(** The manifest plays no part in what survives. *)
Lemma rolling_sync_spec inc ls r w sealed open_ :
  writing inc ls r w sealed open_ →
  mwp rolling_sync (r, w) (λ s res,
    writing inc ls s.1 s.2 sealed open_ ∧ calm w s.2 res
    ∧ preserved inc (w_store w) sealed open_ (w_store s.2) sealed open_
    ∧ (res = Ok () → survives inc (w_store s.2) sealed open_ (len (concat sealed ++ open_)))).
Proof.
  intros Hwr. pose proof Hwr as [Hst Hent ? ? Hpath ? ? ? ? ? ? ? Hmk].
  unfold rolling_sync. apply mwp_bind, mwp_self. cbv beta iota. apply mwp_device.
  unfold SegmentWriter_sync. rewrite Hpath. apply mwp_sync_data.
  - intros fs Hfs. cbn [fst snd]. destruct (sealing_start _ _ _ _ Hst Hent) as (Hs & Hp & Hk).
    split_and!; [split; try done|by split; auto|done|intros _; by eapply stored_kept].
    apply (manifest_kept_same ls (w_store w)); [|done|done]. cbn [st_synced w_store]. rewrite lookup_insert_ne; [done|].
    apply open_path_manifest; apply Hst.
  - intros fs e Hf. cbn [fst snd]. split_and!; [|by apply calm_err|apply preserved_refl|done].
    by split.
Qed.

Lemma ack_ok_mono (a a' : Appender) acks :
  Forall (ack_ok a) acks → ap_last_written a <= ap_last_written a' →
  ap_last_durable a <= ap_last_durable a' → (is_Some (ap_dead a) → is_Some (ap_dead a')) →
  Forall (ack_ok a') acks.
Proof.
  intros Hf ? ? ?. eapply Forall_impl; [exact Hf|]. intros [n|n|r]; cbn; [lia|lia|auto].
Qed.

Lemma writing_listed inc ls r w sealed open_ t :
  writing inc ls r w sealed open_ → listed ls inc (w_store w) sealed open_ t.
Proof. intros Hw. apply listed_unlisted; apply Hw. Qed.

Lemma writing_stored inc ls r w sealed open_ :
  writing inc ls r w sealed open_ → stored inc (w_store w) sealed open_ [].
Proof. by intros [? _]. Qed.

Lemma do_sync_ok inc ls received a w acks :
  appender_ok inc ls received (a, w, acks) → ap_dead a = None →
  appender_ok inc ls received (do_sync (a, w, acks)).
Proof.
  intros (Hacks & Hle & Hd) Hn. rewrite Hn in Hd.
  destruct Hd as (sealed & open_ & Hwr & Hev & Hexp & Hlw & Hsv). unfold do_sync.
  pose proof (rolling_sync_spec _ _ _ _ _ _ Hwr) as Hs. unfold mwp in Hs.
  destruct (rolling_sync (ap_writer a, w)) as [[r1 w1] [[]|e]]; cbn [fst snd] in Hs;
    destruct Hs as (Hwr1 & _ & Hp & Hall).
  - split_and!; cbn [ap_last_written ap_last_durable ap_dead]; [|lia|].
    + apply Forall_app. split; [|constructor; [cbn [ack_ok ap_last_durable]; lia|done]].
      eapply ack_ok_mono; [exact Hacks|..]; cbn [put_writer ap_last_written ap_last_durable ap_dead]; [lia|lia|done].
    + rewrite Hn. exists sealed, open_. split_and!; try done. cbn [ap_last_durable]. rewrite Hlw, <- Hev. by apply Hall.
  - cbn [fail_with put_writer]. split_and!; cbn [ap_last_written ap_last_durable ap_dead]; [|done|].
    + apply Forall_app. split; [|constructor; [by eexists|done]].
      eapply ack_ok_mono; [exact Hacks|..]; cbn [put_writer ap_last_written ap_last_durable ap_dead]; [lia|lia|by eexists].
    + exists sealed, open_, []. split_and!; [by eapply writing_stored|by eapply writing_listed|by rewrite Hev| |].
      { cbn [put_writer ap_last_written]. rewrite Hev. lia. }
      apply Hp; [|done]. cbn [put_writer ap_last_durable]. rewrite Hev. lia.
Qed.

(** A dead appender stays as it is, whatever else arrives. *)
Lemma dead_ok inc ls received more a w acks acks' reason :
  appender_ok inc ls received (a, w, acks) → ap_dead a = Some reason → Forall (ack_ok a) acks' →
  appender_ok inc ls (received ++ more) (a, w, acks ++ acks').
Proof.
  intros (Hacks & Hle & Hd) Hn Hf. rewrite Hn in Hd.
  destruct Hd as (sealed & open_ & t & Hst & Hli & Hpre & Hlw & Hsv).
  split_and!; [by apply Forall_app|done|]. rewrite Hn. exists sealed, open_, t.
  split_and!; try done. by apply prefix_app_r.
Qed.

(** Dying leaves the records that are on the device. *)
Lemma fail_with_ok inc ls received a r w w0 acks reason sealed open_ rs :
  Forall (ack_ok a) acks → ap_last_durable a <= ap_last_written a →
  halted inc ls (w_store w0) sealed open_ (w_store w) rs → rs `prefix_of` received →
  ap_last_written a <= len (concat sealed ++ open_) → len (concat sealed ++ open_) <= len rs →
  survives inc (w_store w0) sealed open_ (ap_last_durable a) →
  appender_ok inc ls received (fail_with reason (put_writer r a, w, acks)).
Proof.
  intros Hacks Hle (se & o & t & <- & Hst & Hli & Hp) Hpre Hlw Hlen Hsv. cbn [fail_with put_writer].
  split_and!; cbn [ap_last_written ap_last_durable ap_dead]; [|done|].
  - apply Forall_app. split; [|constructor; [by eexists|done]].
    eapply ack_ok_mono; [exact Hacks|..]; cbn [put_writer ap_last_written ap_last_durable ap_dead]; [lia|lia|by eexists].
  - exists se, o, t. cbn [put_writer ap_last_written ap_last_durable].
    split_and!; try done; [lia|]. apply Hp; [lia|done].
Qed.

Lemma counting_snoc rs rec :
  counting 1 rs → rec_seq rec = len rs + 1 → len rs + 2 <= u64_max → counting 1 (rs ++ [rec]).
Proof.
  intros Hc Hs Hl. apply counting_app. split; [done|]. apply counting_cons.
  split_and!; [lia|rewrite len_nil; lia|]. split; [done|]. rewrite len_nil. lia.
Qed.

Lemma on_record_ok inc ls received now interval event s :
  appender_ok inc ls received s → rec_wf (record_of event) → len received + 2 <= u64_max →
  appender_ok inc ls (received ++ [record_of event]) (on_record now interval event s).
Proof.
  destruct s as [[a w] acks]. intros Hok Hrec Hmax. unfold on_record.
  destruct (ap_dead a) as [reason|] eqn:Hn.
  { eapply dead_ok; [done|done|]. constructor; [by eexists|done]. }
  pose proof Hok as (Hacks & Hle & Hd). rewrite Hn in Hd.
  destruct Hd as (sealed & open_ & Hwr & Hev & Hexp & Hlw & Hsv).
  assert (halted inc ls (w_store w) sealed open_ (w_store w) received) as Hhalt.
  { exists sealed, open_, []. split_and!; [done|by eapply writing_stored|by eapply writing_listed|apply preserved_refl]. }
  assert (∀ l : list Rec, received `prefix_of` received ++ l) as Hpre by (intros l; by apply prefix_app_r).
  destruct (N.eqb_spec (ev_seq event) (ap_expected_seq a)) as [Hseq|_]; cbn [negb].
  2:{ rewrite <- (eta_appender a). eapply fail_with_ok; try done; rewrite Hev; [lia|done]. }
  assert (counting 1 (received ++ [record_of event])) as Hcnt.
  { apply counting_snoc; [|cbn; lia|done]. rewrite <- Hev. apply Hwr. }
  rewrite <- Hev in Hcnt.
  pose proof (append_record_spec _ _ _ _ _ _ _ Hwr Hrec Hcnt) as Hsp. unfold mwp in Hsp.
  change (rec_kind (record_of event)) with (ev_kind event) in Hsp.
  change (rec_seq (record_of event)) with (ev_seq event) in Hsp.
  change (rec_elapsed_ms (record_of event)) with (ev_elapsed_ms event) in Hsp.
  change (rec_payload (record_of event)) with (ev_payload event) in Hsp.
  destruct (append_record _ _ _ _ _) as [[r1 w1] [[]|e]]; cbn [fst snd] in Hsp; destruct Hsp as [Hsp _].
  - destruct Hsp as (se & o & Hwr1 & Hev1 & Hp).
    split_and!; cbn [ap_last_written ap_last_durable ap_dead]; [|lia|].
    + apply Forall_app. split; [|constructor; [cbn [ack_ok ap_last_written]; lia|done]].
      eapply ack_ok_mono; [exact Hacks|..]; cbn [ap_last_written ap_last_durable ap_dead]; [lia|lia|].
      by rewrite Hn.
    + exists se, o. cbn [ap_writer ap_expected_seq ap_last_written ap_last_durable].
      rewrite len_app. change (len [record_of event]) with 1. split_and!; [done|by rewrite <- Hev| |lia|].
      * rewrite u64_add_small; lia.
      * apply Hp; [rewrite Hev; lia|done].
  - destruct Hsp as (rs & Hrs & Hh). rewrite Hev in Hrs.
    eapply fail_with_ok; try done; rewrite ?Hev; [|lia|].
    + destruct Hrs as [-> | ->]; [apply Hpre|done].
    + destruct Hrs as [-> | ->]; rewrite ?len_app; lia.
Qed.

Definition record_in (m : Received) : list Rec :=
  match m with GotRecord _ event => [record_of event] | _ => [] end.
Definition records_in (ms : list Received) : list Rec := concat (map record_in ms).

Lemma turn_ok inc ls received interval s m :
  appender_ok inc ls received s → Forall rec_wf (record_in m) → len received + 2 <= u64_max →
  appender_ok inc ls (received ++ record_in m) (turn interval s m).
Proof.
  intros Hok Hwf Hmax. destruct m as [now event| |]; cbn [record_in turn].
  - apply on_record_ok; try done. by apply Forall_cons in Hwf as [? _].
  - rewrite app_nil_r. destruct s as [[a w] acks]. unfold on_sync. cbn [fst snd].
    destruct (ap_dead a) as [reason|] eqn:Hn; [|by apply do_sync_ok].
    rewrite <- (app_nil_r received). eapply dead_ok; [done|done|]. constructor; [by eexists|done].
  - rewrite app_nil_r. destruct s as [[a w] acks]. unfold on_timeout, dirty. cbn [fst snd].
    destruct (ap_dead a) eqn:Hn; [done|]. destruct (_ <? _); [by apply do_sync_ok|done].
Qed.

Lemma turns_ok inc ls interval ms received s :
  appender_ok inc ls received s → Forall rec_wf (records_in ms) →
  len received + len (records_in ms) + 2 <= u64_max →
  appender_ok inc ls (received ++ records_in ms) (foldl (turn interval) s ms).
Proof.
  revert received s. induction ms as [|m ms IH]; intros received s Hok Hwf Hmax.
  { unfold records_in. cbn. by rewrite app_nil_r. }
  unfold records_in in *. cbn [map concat foldl] in *. apply Forall_app in Hwf as [Hm Hwf].
  rewrite len_app in Hmax. rewrite app_assoc. apply IH; [|done|rewrite len_app; lia].
  apply turn_ok; [done|done|lia].
Qed.

(** What holds of the device and the acknowledgements at every moment, dead or
    alive, running or finished. *)
Definition accepted (inc : N) (ls : list ManifestLine) (received : list Rec) (s : Step) : Prop :=
  Forall (ack_ok s.1.1) s.2
  ∧ ∃ sealed open_ t, stored inc (w_store s.1.2) sealed open_ t
      ∧ listed ls inc (w_store s.1.2) sealed open_ t
      ∧ concat sealed ++ open_ `prefix_of` received
      ∧ ap_last_durable s.1.1 <= ap_last_written s.1.1 <= len (concat sealed ++ open_)
      ∧ survives inc (w_store s.1.2) sealed open_ (ap_last_durable s.1.1).

Lemma appender_ok_accepted inc ls received s : appender_ok inc ls received s → accepted inc ls received s.
Proof.
  destruct s as [[a w] acks]. intros (Hacks & Hle & Hd). split; [done|]. cbn [fst snd].
  destruct (ap_dead a).
  - destruct Hd as (se & o & t & ? & ? & ? & ? & ?). by exists se, o, t.
  - destruct Hd as (se & o & Hwr & Hev & _ & Hlw & Hsv). exists se, o, []. rewrite Hev.
    split_and!; [by eapply writing_stored|by eapply writing_listed|done|done|lia|done].
Qed.

(** The final barrier, wherever it fails. *)
Lemma finish_accepted inc ls received s :
  appender_ok inc ls received s → accepted inc ls received (finish s).
Proof.
  intros Hok. unfold finish. set (s1 := if dirty s.1.1 then do_sync s else s).
  assert (appender_ok inc ls received s1) as Hok1.
  { unfold s1, dirty. destruct s as [[a w] acks]. cbn [fst snd].
    destruct (ap_dead a) eqn:Hn; [done|]. destruct (_ <? _); [by apply do_sync_ok|done]. }
  clearbody s1. destruct s1 as [[a w] acks]. pose proof (appender_ok_accepted _ _ _ _ Hok1) as Hacc.
  destruct (ap_dead a) as [reason|] eqn:Hn; [done|]. destruct Hok1 as (Hacks & Hle & Hd). rewrite Hn in Hd.
  destruct Hd as (sealed & open_ & Hwr & Hev & Hexp & Hlw & Hsv).
  assert (mwp seal_part (ap_writer a, w) (λ s res,
    stored inc (w_store s.2) sealed open_ []
    ∧ preserved inc (w_store w) sealed open_ (w_store s.2) sealed open_
    ∧ listed ls inc (w_store s.2) sealed open_ [])) as Hsp.
  { destruct (decide (open_ = [])) as [-> |Hne].
    - unfold seal_part. apply mwp_bind, mwp_self. cbv beta iota. rewrite (wr_first _ _ _ _ _ _ Hwr).
      split_and!; [by eapply writing_stored|apply preserved_refl|by eapply writing_listed].
    - eapply mwp_mono; [by apply (seal_part_spec _ _ _ _ _ _ Hwr)|]. by intros s' res (? & ? & ? & _). }
  unfold mwp in Hsp. destruct (seal_part (ap_writer a, w)) as [[r1 w1] [[]|e]]; cbn [fst snd] in Hsp;
    destruct Hsp as (Hst & Hp & Hli); (assert (survives inc (w_store w1) sealed open_ (ap_last_durable a)) as Hsv1
      by (apply Hp; [rewrite Hev; lia|done])); cbn [fail_with put_writer]; (split; cbn [fst snd];
      [|exists sealed, open_, []; rewrite Hev; cbn [put_writer ap_last_durable ap_last_written];
        split_and!; try done; lia]); [done|].
  apply Forall_app. split; [|constructor; [by eexists|done]].
  eapply ack_ok_mono; [exact Hacks|..]; cbn [put_writer ap_last_written ap_last_durable ap_dead]; [lia|lia|by eexists].
Qed.
End Writing.

(** ** What the appender leaves alone *)

Section Apart.
Context `{Crc32Fast, ManifestSerde} (inc : N).

(** The files the appender of [inc] writes. *)
Definition own (name : bytes) : Prop :=
  foreign name ∨ ∃ p, p <= u64_max ∧ name = segment_path inc p.

Definition own_op (op : DiskOp) : Prop :=
  match op with
  | Create name | Append name _ | SyncData name => own name
  | SyncDir => True
  | _ => False
  end.

(** Durable names stay, and every other file is as it was, and as durable. *)
Definition apart (st st' : Storage) : Prop :=
  (∀ name, is_Some (st_files st !! name) →
     is_Some (st_files st' !! name) ∧ (name ∈ st_entries st → name ∈ st_entries st'))
  ∧ ∀ name, ¬ own name →
      st_files st' !! name = st_files st !! name ∧ st_synced st' !! name = st_synced st !! name.

Lemma apart_refl st : apart st st.
Proof. split; [|done]. by intros name Hs. Qed.

Lemma apart_trans st1 st2 st3 : apart st1 st2 → apart st2 st3 → apart st1 st3.
Proof.
  intros [He H12] [He' H23]. split.
  - intros name Hs. destruct (He name Hs) as [Hs2 Hin]. destruct (He' name Hs2) as [Hs3 Hin']. auto.
  - intros name Hn. destruct (H12 name Hn) as (Hf & Hs), (H23 name Hn) as (Hf' & Hs'). split; congruence.
Qed.

Lemma is_Some_insert (d : Dir) m c name : is_Some (d !! name) → is_Some (<[m := c]> d !! name).
Proof. intros Hs. apply lookup_insert_is_Some. destruct (decide (m = name)); auto. Qed.

Lemma apart_op op st : own_op op → apart st (apply_op op st).
Proof.
  intros Ho. split.
  - intros name Hs. destruct op as [m|m|m k|m x|m|]; cbn [own_op apply_op exec_op st_files st_entries] in *; try done.
    + split; [by apply is_Some_insert|done].
    + split; [by apply is_Some_insert|done].
    + split; [done|]. intros _. by apply elem_of_names.
  - intros name Hn. destruct op as [m|m|m k|m x|m|]; cbn [own_op apply_op exec_op st_files st_synced] in *; try done;
      by rewrite ?lookup_insert_ne by (intros ->; done).
Qed.

Lemma apart_partial k op st : own_op op → apart st (partial_op k op st).
Proof. intros Ho. destruct op; try apply apart_refl. by apply (apart_op (Append _ _)). Qed.

Lemma apart_perform op w : own_op op → mwp (perform op) w (λ w' _, apart (w_store w) (w_store w')).
Proof. intros Ho. apply mwp_perform; intros; [by apply apart_op|by apply apart_partial]. Qed.

Lemma apart_on_device {A} (m : disk A) w :
  Forall own_op (m (st_files (w_store w))).1 → mwp (on_device m) w (λ w' _, apart (w_store w) (w_store w')).
Proof.
  intros Hops. assert (mwp (perform_all (m (st_files (w_store w))).1) w (λ w' _, apart (w_store w) (w_store w'))) as Hall.
  { revert Hops. generalize (m (st_files (w_store w))).1. intros ops. revert w. induction ops as [|op ops IH]; intros w Hops; [apply apart_refl|]. apply Forall_cons in Hops as [Ho Hops].
    cbn [perform_all]. apply mwp_bind. eapply mwp_mono; [by apply apart_perform|]. intros w1 [[]|e] H1; [|done].
    eapply mwp_mono; [by apply IH|]. intros w2 r H2. by eapply apart_trans. }
  unfold mwp, on_device in *. destruct (m _) as [ops r]. cbn [fst] in *. by destruct (perform_all ops w) as [w' [[]|e]].
Qed.

(** The writer's path is one of its own. *)
Definition own_writer (r : RollingSegmentWriter) : Prop :=
  rw_incarnation r = inc ∧ own (sw_path (rw_writer r)).

Definition within (w : World) (s : RollingSegmentWriter * World) : Prop :=
  own_writer s.1 ∧ apart (w_store w) (w_store s.2).

(** A step on the device, then the rest. *)
Lemma within_device {A B} (m : method World A) (k : A → method (RollingSegmentWriter * World) B) (w0 : World) r w :
  own_writer r → apart (w_store w0) (w_store w) →
  mwp m w (λ w' _, apart (w_store w) (w_store w')) →
  (∀ a w', (m w).2 = Ok a → apart (w_store w0) (w_store w') → mwp (k a) (r, w') (λ s _, within w0 s)) →
  mwp (device m ≫= k) (r, w) (λ s _, within w0 s).
Proof.
  intros Hr Hw Hm Hk. apply mwp_bind, mwp_device. unfold mwp in *. destruct (m w) as [w' [a|e]]; cbn [fst snd] in *.
  - apply (Hk a w'); [done|by eapply apart_trans].
  - split; [done|by eapply apart_trans].
Qed.

Lemma within_device_end (m : method World unit) (w0 : World) r w :
  own_writer r → apart (w_store w0) (w_store w) →
  mwp m w (λ w' _, apart (w_store w) (w_store w')) → mwp (device m) (r, w) (λ s _, within w0 s).
Proof.
  intros Hr Hw Hm. apply mwp_device. unfold mwp in *. destruct (m w) as [w' res]. cbn [fst snd] in *.
  split; [done|by eapply apart_trans].
Qed.

Lemma own_manifest : own MANIFEST_FILE_NAME.
Proof. left. apply manifest_not_segment. Qed.

Lemma seal_part_apart w0 r w :
  own_writer r → apart (w_store w0) (w_store w) → mwp seal_part (r, w) (λ s _, within w0 s).
Proof.
  intros [Hi Hp] Hw. unfold seal_part. apply mwp_bind, mwp_self. cbv beta iota.
  destruct (rw_part_first_seq r); [|by apply mwp_ret]. apply mwp_bind, mwp_set. cbv beta iota.
  apply within_device; [done|done|by apply apart_perform|]. intros _ w1 _ Hw1.
  apply within_device; [done|done| |].
  { apply apart_on_device. repeat constructor; apply own_manifest. }
  intros _ w2 _ Hw2. apply within_device; [done|done|by apply apart_on_device; repeat constructor|].
  intros _ w3 _ Hw3. by apply mwp_set.
Qed.

Lemma create_new_ops name (d : Dir) : own name → Forall own_op (create_new name d).1.
Proof.
  intros Hn. unfold create_new, reads, mbind, disk_bind. destruct (bool_decide _); cbn; [done|by constructor].
Qed.

Lemma roll_over_apart w0 r w :
  own_writer r → apart (w_store w0) (w_store w) → mwp roll_over (r, w) (λ s _, within w0 s).
Proof.
  intros Hr Hw. unfold roll_over. apply mwp_bind. eapply mwp_mono; [by apply seal_part_apart|].
  intros [r1 w1] [[]|e] [[Hi Hp] Hw1]; [|done]. cbn [fst snd] in *. apply mwp_bind, mwp_set. cbv beta iota.
  apply mwp_bind, mwp_self. cbv beta iota. cbn [set_part rw_incarnation rw_part].
  set (path := segment_path _ _). assert (own path) as Hpath.
  { right. exists (u64_add (rw_part r1) 1). split; [apply u64_add_bound|]. unfold path. by rewrite Hi. }
  apply within_device; [done|done| |].
  { unfold SegmentWriter_create. apply mwp_bind. eapply mwp_mono; [apply apart_on_device; by apply create_new_ops|].
    by intros w2 [[]|e] H2. }
  intros sw w2 Hsw Hw2. apply mwp_bind, mwp_set. cbv beta iota.
  assert (sw_path sw = path) as Hswp.
  { unfold SegmentWriter_create, mbind, method_bind in Hsw. destruct (on_device _ _) as [? [[]|]]; [|done].
    by injection Hsw as <-. }
  assert (own_writer (set_writer sw (set_part (u64_add (rw_part r1) 1) r1))) as Hr2 by (split; [done|by cbn; rewrite Hswp]).
  apply within_device; [done|done|by apply apart_on_device; repeat constructor|]. intros _ w3 _ Hw3. by apply mwp_set.
Qed.

Lemma write_record_apart kind seq elapsed payload w0 r w :
  own_writer r → apart (w_store w0) (w_store w) →
  mwp (write_record kind seq elapsed payload) (r, w) (λ s _, within w0 s).
Proof.
  intros [Hi Hp] Hw. unfold write_record. apply mwp_bind, mwp_set. cbv beta iota. apply mwp_bind, mwp_self. cbv beta iota.
  cbn [set_part_crc rw_writer]. apply within_device; [done|done| |].
  { unfold write_encoded. apply mwp_bind. eapply mwp_mono; [by apply apart_perform|]. intros w1 [[]|e] H1; [|done].
    apply mwp_bind. eapply mwp_mono; [by apply apart_perform|]. intros w2 [[]|e] H2; by eapply apart_trans. }
  intros sw w1 Hsw Hw1. apply mwp_bind, mwp_set. cbv beta iota.
  assert (sw_path sw = sw_path (rw_writer r)) as Hswp.
  { unfold write_encoded, mbind, method_bind in Hsw. repeat (destruct (perform _ _) as [? [[]|]]; [|done]).
    by injection Hsw as <-. }
  do 2 (apply mwp_bind, mwp_set; cbv beta iota). apply mwp_set. split; [|done].
  cbn [fst set_writer set_part_crc rw_part_first_seq]. destruct (rw_part_first_seq r); split; cbn; by rewrite ?Hswp.
Qed.

Lemma append_record_apart kind seq elapsed payload r w :
  own_writer r → mwp (append_record kind seq elapsed payload) (r, w) (λ s _, within w s).
Proof.
  intros Hr. unfold append_record. apply mwp_bind, mwp_self. cbv beta iota. apply mwp_bind.
  destruct (_ && _).
  - eapply mwp_mono; [apply (roll_over_apart w); [done|apply apart_refl]|]. intros [r1 w1] [[]|e] [? ?]; [|done].
    by apply write_record_apart.
  - apply mwp_ret. apply write_record_apart; [done|apply apart_refl].
Qed.

Lemma rolling_sync_apart r w : own_writer r → mwp rolling_sync (r, w) (λ s _, within w s).
Proof.
  intros Hr. unfold rolling_sync. apply mwp_bind, mwp_self. cbv beta iota.
  apply within_device_end; [done|apply apart_refl|]. apply apart_perform, Hr.
Qed.

(** One turn of the loop, and the end of it. *)
Definition step_apart (s s' : Step) : Prop :=
  own_writer (ap_writer s.1.1) → own_writer (ap_writer s'.1.1) ∧ apart (w_store s.1.2) (w_store s'.1.2).

Lemma do_sync_apart s : step_apart s (do_sync s).
Proof.
  destruct s as [[a w] acks]. intros Hr. pose proof (rolling_sync_apart _ w Hr) as Hs. unfold mwp, do_sync in *.
  cbn [fst snd] in *. by destruct (rolling_sync _) as [[r1 w1] [[]|e]].
Qed.

Lemma turn_apart interval s m : step_apart s (turn interval s m).
Proof.
  destruct m as [now event| |]; cbn [turn].
  - destruct s as [[a w] acks]. intros Hr. unfold on_record. cbn [fst snd] in *.
    destruct (ap_dead a); [by split; [|apply apart_refl]|]. destruct (negb _); [by split; [|apply apart_refl]|].
    pose proof (append_record_apart (ev_kind event) (ev_seq event) (ev_elapsed_ms event) (ev_payload event) _ w Hr) as Hs.
    unfold mwp in Hs. by destruct (append_record _ _ _ _ _) as [[r1 w1] [[]|e]].
  - unfold on_sync. destruct (ap_dead _); [|apply do_sync_apart]. intros Hr. by split; [|apply apart_refl].
  - unfold on_timeout. destruct (dirty _); [apply do_sync_apart|]. intros Hr. by split; [|apply apart_refl].
Qed.

Lemma turns_apart interval ms s : step_apart s (foldl (turn interval) s ms).
Proof.
  revert s. induction ms as [|m ms IH]; intros s Hr; [by split; [|apply apart_refl]|]. cbn [foldl].
  destruct (turn_apart interval s m Hr) as [Hr1 H1'], (IH _ (proj1 (turn_apart interval s m Hr))) as [Hr2 H2'].
  split; [done|by eapply apart_trans].
Qed.

Lemma finish_apart s : step_apart s (finish s).
Proof.
  intros Hr. unfold finish. set (s1 := if dirty s.1.1 then do_sync s else s).
  assert (own_writer (ap_writer s1.1.1) ∧ apart (w_store s.1.2) (w_store s1.1.2)) as [Hr1 Hw1].
  { unfold s1. destruct (dirty _); [by apply do_sync_apart|by split; [|apply apart_refl]]. }
  clearbody s1. destruct s1 as [[a w] acks]. cbn [fst snd] in *. destruct (ap_dead a); [done|].
  pose proof (seal_part_apart s.1.2 _ w Hr1 Hw1) as Hs. unfold mwp in Hs.
  by destruct (seal_part _) as [[r2 w2] [[]|e]].
Qed.

(** No incarnation on the device is above this one. *)
Definition topmost (st : Storage) : Prop :=
  ∀ i p, i <= u64_max → p <= u64_max → is_Some (st_files st !! segment_path i p) → i <= inc.

Lemma not_own i p : inc <= u64_max → i <= u64_max → p <= u64_max → i ≠ inc → ¬ own (segment_path i p).
Proof.
  intros Hinc Hi Hp Hne [Hf|(q & Hq & Heq)].
  - unfold foreign in Hf. by rewrite parse_segment_path in Hf.
  - by apply segment_path_inj in Heq as [-> _].
Qed.

Lemma topmost_apart st st' : inc <= u64_max → apart st st' → topmost st → topmost st'.
Proof.
  intros Hinc Ha Ht i p Hi Hp Hs. destruct (decide (i = inc)) as [->|Hne]; [done|].
  apply (Ht i p Hi Hp). by rewrite <- (proj1 (proj2 Ha _ (not_own i p Hinc Hi Hp Hne))).
Qed.

(** The appender writes its own incarnation, the newest there is. *)
Definition at_home (s : Step) : Prop :=
  inc <= u64_max ∧ own_writer (ap_writer s.1.1) ∧ topmost (w_store s.1.2).

Lemma at_home_apart s s' : step_apart s s' → at_home s → at_home s'.
Proof.
  intros Hs (Hi & Ho & Ht). destruct (Hs Ho) as [Ho' Ha]. split_and!; [done|done|by eapply topmost_apart].
Qed.
End Apart.

(** ** What a crash leaves *)

Section Crash.
Context `{Crc32Fast, !Crc32FastLaws}.

(** Durable entries exist; every file has its synced bytes and perhaps more
    of what was written, or of what it held before it was truncated or removed. *)
Definition crash (st : Storage) (d : Dir) : Prop :=
  (∀ n, n ∈ st_entries st → is_Some (st_files st !! n) → is_Some (d !! n))
  ∧ (∀ n c, d !! n = Some c →
       ∃ f, (st_files st !! n = Some f ∨ st_former st !! n = Some f)
         ∧ default [] (st_synced st !! n) `prefix_of` c ∧ c `prefix_of` f).

(** With nothing left to come back, what is found was in the files. *)
Definition crashed_to (st : Storage) (d : Dir) : Prop :=
  (∀ n, n ∈ st_entries st → is_Some (st_files st !! n) → is_Some (d !! n))
  ∧ (∀ n c, d !! n = Some c →
       ∃ f, st_files st !! n = Some f ∧ default [] (st_synced st !! n) `prefix_of` c ∧ c `prefix_of` f).

Lemma crash_settled st d : settled st → crash st d → crashed_to st d.
Proof.
  intros Hs [He Hd]. split; [done|]. intros n c Hc. destruct (Hd n c Hc) as (f & [Hf|Hf] & ?); [by exists f|].
  by rewrite Hs, lookup_empty in Hf.
Qed.

(** The journal directory holds exactly the records [rs] of [inc]. *)
Definition recovered (inc : N) (d : Dir) (rs : list Rec) : Prop :=
  (rs = [] ∧ ∀ p, p <= u64_max → d !! segment_path inc p = None)
  ∨ ∃ rss t, holds d inc rss t ∧ concat rss = rs.

Lemma NoDup_seqN n k : NoDup (seqN n k).
Proof.
  revert n. induction k as [|k IH]; intros n; [constructor|]. constructor; [|apply IH].
  rewrite elem_of_seqN. lia.
Qed.

Lemma sorted_seqN n k : StronglySorted N.le (seqN n k).
Proof.
  revert n. induction k as [|k IH]; intros n; [constructor|]. constructor; [apply IH|].
  apply Forall_forall. intros x Hx%elem_of_seqN. lia.
Qed.

Lemma sorted_parts inc l :
  StronglySorted pair_le l → StronglySorted N.le (map snd (filter (λ ip : N * N, ip.1 = inc) l)).
Proof.
  induction 1 as [|[i p] l Hl IH Hx]; [constructor|]. rewrite filter_cons. case_decide as Hi; [|done].
  cbn [map snd] in *. constructor; [done|]. apply Forall_forall.
  intros q ([j q'] & -> & Hq)%list_elem_of_fmap. apply list_elem_of_filter in Hq as [Hj Hq].
  rewrite Forall_forall in Hx. specialize (Hx _ Hq). unfold pair_le in Hx. cbn in *. lia.
Qed.

Lemma parts_of_exact d inc n :
  canonical d → inc <= u64_max → N.of_nat n <= u64_max →
  (∀ p, p <= u64_max → is_Some (d !! segment_path inc p) ↔ 1 <= p <= N.of_nat n) →
  parts_of d inc = seqN 1 n.
Proof.
  intros Hc Hi Hn Hp. unfold parts_of.
  apply (StronglySorted_unique N.le); [apply sorted_parts, list_segments_strongly_sorted|apply sorted_seqN|].
  apply NoDup_Permutation; [|apply NoDup_seqN|].
  - apply NoDup_fmap_2_strong; [|by apply NoDup_filter, list_segments_nodup].
    intros [i p] [j q] [Hx _]%list_elem_of_filter [Hy _]%list_elem_of_filter. cbn in *. congruence.
  - intros p. rewrite elem_of_seqN. change (map snd ?l) with (snd <$> l). rewrite list_elem_of_fmap. split.
    + intros ([j q] & -> & [Hj Hin]%list_elem_of_filter). cbn [fst snd] in *. subst j.
      apply elem_of_canonical in Hin as (_ & Hq & Hsome); [|done]. apply Hp in Hsome; [lia|done].
    + intros Hr. exists (inc, p). split; [done|]. apply list_elem_of_filter. split; [done|].
      apply elem_of_canonical; [done|]. split_and!; [done|lia|]. apply Hp; lia.
Qed.

Definition terminal (tail : bytes) : Prop :=
  decode_record tail = inl CleanEof ∨ decode_record tail = inl PartialTail.

Lemma prefix_split rs c :
  Forall rec_wf rs → c `prefix_of` encode_records rs →
  ∃ k tail, c = encode_records (take k rs) ++ tail ∧ terminal tail
    ∧ (∀ i, encode_records (take i rs) `prefix_of` c → (length (take i rs) <= length (take k rs))%nat)
    ∧ (len c < len (encode_records rs) → (k < length rs)%nat).
Proof.
  intros Hwf [x Hx].
  assert (c = take (N.to_nat (len c)) (encode_records rs)) as Hc by (by rewrite Hx, take_len_app).
  destruct (torn_split rs (len c) Hwf) as (k & tail & s & Heq & Hlk & Hs & Hs' & Hmax).
  { rewrite Hx, len_app. lia. }
  exists k, tail. rewrite <- Hc in Heq. split_and!; [done| | |].
  - unfold terminal. rewrite Hs, Hs'. destruct (len tail =? 0); [by left|by right].
  - intros i Hi. apply Hmax. apply prefix_length in Hi. unfold len. lia.
  - intros Hlt. destruct (decide (k < length rs)%nat) as [|Hge]; [done|].
    rewrite take_ge in Hlk by lia. lia.
Qed.

(** A crash in the middle of the open part. *)
Lemma torn_recovers open_ t c :
  Forall rec_wf open_ → torn t → c `prefix_of` encode_records open_ ++ t →
  ∃ j tail, c = encode_records (take j open_) ++ tail ∧ terminal tail
    ∧ (∀ i, encode_records (take i open_) `prefix_of` c →
        (length (take i open_) <= length (take j open_))%nat).
Proof.
  intros Hwf [-> |(r & n & Hr & -> & Hn)] Hc.
  { rewrite app_nil_r in Hc. destruct (prefix_split open_ c Hwf Hc) as (k & tail & ? & ? & ? & _). eauto. }
  assert (Forall rec_wf (open_ ++ [r])) as Hwf' by (apply Forall_app; split; [done|by constructor]).
  assert (len c < len (encode_records (open_ ++ [r]))) as Hlt.
  { apply prefix_length in Hc. rewrite encode_records_snoc, len_app, len_encode_record.
    rewrite length_app, length_take in Hc. unfold len in *. lia. }
  destruct (prefix_split (open_ ++ [r]) c Hwf') as (k & tail & Heq & Htail & Hmax & Hk).
  { rewrite encode_records_snoc. etrans; [exact Hc|]. apply prefix_app, prefix_take. }
  specialize (Hk Hlt). rewrite length_app in Hk. cbn [length] in Hk.
  rewrite take_app_le in Heq, Hmax by lia. exists k, tail. split_and!; [done|done|].
  intros i Hi. specialize (Hmax (Nat.min i (length open_))). rewrite take_app_le in Hmax by lia.
  assert (take (Nat.min i (length open_)) open_ = take i open_) as Hsame.
  { destruct (Nat.min_spec i (length open_)) as [[? ->]|[? ->]]; [done|]. by rewrite !take_ge. }
  rewrite Hsame in Hmax. by apply Hmax.
Qed.

Lemma crash_canonical st d : canonical (st_files st) → crashed_to st d → canonical d.
Proof. intros Hc [_ Hd] n i p [c Hn] Hp. destruct (Hd n c Hn) as (f & Hf & _). apply Hc; [by rewrite Hf|done]. Qed.

(** A sealed part is intact after a crash. *)
Lemma crash_sealed inc st sealed c d i rs :
  stored_as inc st sealed c → crashed_to st d → sealed !! i = Some rs →
  d !! segment_path inc (N.of_nat i + 1) = Some (encode_records rs).
Proof.
  intros Hs [He Hd] Hl. destruct (sa_sealed _ _ _ _ Hs i rs Hl) as (_ & Hf & Hsy & Hen).
  destruct (He _ Hen) as [x Hx]; [by rewrite Hf|]. destruct (Hd _ _ Hx) as (f & Hf' & Hp & Hq).
  rewrite Hf in Hf'. injection Hf' as <-. rewrite Hsy in Hp. cbn [default] in Hp.
  rewrite Hx. f_equal. by apply (anti_symm prefix).
Qed.

(** A recovered directory, part by part. *)
Lemma recovered_parts inc d rss tail :
  canonical d → inc <= u64_max → N.of_nat (length rss) <= u64_max → rss ≠ [] →
  (∀ p, p <= u64_max → is_Some (d !! segment_path inc p) → 1 <= p <= N.of_nat (length rss)) →
  (∀ i rs, rss !! i = Some rs →
     d !! segment_path inc (N.of_nat i + 1) = Some (encode_records rs ++ tail_of rss tail i)) →
  Forall rec_wf (concat rss) → counting 1 (concat rss) → terminal tail → holds d inc rss tail.
Proof.
  intros Hc Hi Hn Hne Honly Hf Hw Hcnt Ht. split; try done.
  apply parts_of_exact; try done. intros p Hp. split; [by apply Honly|]. intros Hr.
  destruct (lookup_lt_is_Some_2 rss (N.to_nat (p - 1))) as [rs Hl]; [lia|].
  specialize (Hf _ _ Hl). replace (N.of_nat (N.to_nat (p - 1)) + 1) with p in Hf by lia. by rewrite Hf.
Qed.

Lemma tail_of_snoc {A} (l : list A) x tail i :
  (i < length l)%nat → tail_of (l ++ [x]) tail i = [].
Proof. intros Hi. unfold tail_of. rewrite length_app. cbn [length]. by rewrite (proj2 (Nat.eqb_neq _ _)) by lia. Qed.

(** After a crash the directory holds a prefix of the records, with all that
    were to survive. *)
Lemma crash_recovers inc st sealed open_ t k d (evs := concat sealed ++ open_) :
  stored inc st sealed open_ t → survives inc st sealed open_ k → k <= len evs → crashed_to st d →
  ∃ m, k <= m <= len evs ∧ recovered inc d (take (N.to_nat m) evs).
Proof.
  intros Hst Hsv Hk Hcr. pose proof (stored_parts _ _ _ _ _ Hst) as Hb.
  destruct Hst as [Hd Hw Hc Ht]. pose proof Hcr as [He Hdf].
  pose proof (crash_canonical _ _ (sa_canonical _ _ _ _ Hd) Hcr) as Hcan.
  pose proof (λ i rs, crash_sealed inc st sealed _ d i rs Hd Hcr) as Hsealed.
  assert (∀ p, p <= u64_max → is_Some (d !! segment_path inc p) → 1 <= p <= N.of_nat (length sealed) + 1) as Honly.
  { intros p Hp [c Hx]. apply (sa_only _ _ _ _ Hd); [done|]. destruct (Hdf _ _ Hx) as (f & -> & _). done. }
  destruct (d !! open_path inc sealed) as [c|] eqn:Eo.
  - destruct (Hdf _ _ Eo) as (f & Hf & Hsy & Hpre). unfold open_path in Hf.
    rewrite (sa_open _ _ _ _ Hd) in Hf. injection Hf as <-.
    apply Forall_app in Hw as Hw'. destruct Hw' as [Hws Hwo].
    destruct (torn_recovers open_ t c Hwo Ht Hpre) as (j & tail & -> & Htail & Hmax).
    set (got := take j open_) in *.
    assert (take (N.to_nat (len (concat sealed ++ got))) evs = concat sealed ++ got) as Hgot.
    { unfold evs, got. rewrite <- (take_drop j open_) at 2. rewrite app_assoc. by apply take_len_app. }
    exists (len (concat sealed ++ got)). rewrite Hgot. split.
    + unfold evs in *. rewrite !len_app in *. split; [|unfold got; rewrite len_take; lia].
      destruct Hsv as [|(_ & s & Hs & Hp)]; [lia|]. rewrite Hs in Hsy. cbn [default] in Hsy.
      specialize (Hmax _ (transitivity Hp Hsy)). unfold len in *. rewrite length_take in Hmax. lia.
    + right. exists (sealed ++ [got]), tail.
      assert (concat (sealed ++ [got]) = concat sealed ++ got) as Hcat
        by (rewrite concat_app; cbn [concat]; by rewrite app_nil_r).
      split; [|done]. apply recovered_parts; rewrite ?Hcat; try done.
      * apply Hd.
      * rewrite length_app. cbn [length]. lia.
      * by destruct sealed.
      * rewrite length_app. cbn [length]. intros p Hp Hsome. specialize (Honly p Hp Hsome). lia.
      * intros i rs [Hl|[-> <-]]%lookup_snoc_Some.
        -- destruct Hl as [Hlt Hl]. rewrite tail_of_snoc, app_nil_r by done. by apply Hsealed.
        -- unfold tail_of. rewrite length_app. cbn [length]. rewrite (proj2 (Nat.eqb_eq _ _)) by lia. done.
      * rewrite <- Hgot. by apply Forall_take.
      * rewrite <- Hgot. unfold evs in *. rewrite <- (take_drop (N.to_nat (len (concat sealed ++ got))) (concat sealed ++ open_)) in Hc.
        by apply counting_app in Hc as [? _].
  - assert (k <= len (concat sealed)) as Hks.
    { destruct Hsv as [|(Hen & _)]; [done|]. destruct (He _ Hen) as [x Hx]; [|congruence].
      unfold open_path. by rewrite (sa_open _ _ _ _ Hd). }
    exists (len (concat sealed)). unfold evs. rewrite take_len_app by done. rewrite len_app. split; [lia|].
    assert (∀ p, p <= u64_max → is_Some (d !! segment_path inc p) → 1 <= p <= N.of_nat (length sealed)) as Honly'.
    { intros p Hp Hsome. specialize (Honly p Hp Hsome).
      destruct (decide (p = N.of_nat (length sealed) + 1)) as [-> |]; [|lia].
      unfold open_path in Eo. rewrite Eo in Hsome. by destruct Hsome. }
    destruct (decide (sealed = [])) as [-> |Hne].
    + left. split; [done|]. intros p Hp. destruct (d !! segment_path inc p) eqn:E; [|done].
      assert (1 <= p <= 0) by (apply Honly'; [done|by rewrite E]). lia.
    + right. exists sealed, []. split; [|done]. apply recovered_parts; try done.
      * apply Hd.
      * lia.
      * intros i rs Hl. rewrite (Hsealed i rs Hl). unfold tail_of. by case_match; rewrite app_nil_r.
      * by apply Forall_app in Hw as [? _].
      * by apply counting_app in Hc as [? _].
      * by left.
Qed.
End Crash.

(** ** Theorems *)

Section AppenderTheorems.
Context `{Crc32Fast, !Crc32FastLaws, ManifestSerde, !ManifestSerdeLaws}.

(** The first part of a new incarnation, as [open] leaves it. *)
Definition first_writer (inc max_part_bytes : N) : RollingSegmentWriter :=
  new_rolling inc (mk_writer (segment_path inc 1) 0) max_part_bytes.

Record fresh (inc : N) (ls : list ManifestLine) (st : Storage) : Prop := {
  fr_inc : inc <= u64_max;
  fr_canonical : canonical (st_files st);
  fr_first : st_files st !! segment_path inc 1 = Some [];
  fr_only : ∀ p, p <= u64_max → is_Some (st_files st !! segment_path inc p) → p = 1;
  fr_entry : segment_path inc 1 ∈ st_entries st;
  fr_synced : ∀ name s, st_synced st !! name = Some s →
    ∃ f, st_files st !! name = Some f ∧ s `prefix_of` f;
  fr_settled : settled st;
  fr_manifest : manifest_is (st_files st) ls;
  fr_kept : manifest_kept ls st;
  fr_top : topmost inc st;
}.

Lemma fresh_writing inc ls w max_part_bytes :
  fresh inc ls (w_store w) → max_part_bytes <= u64_max →
  writing max_part_bytes inc ls (first_writer inc max_part_bytes) w [] [].
Proof.
  intros [Hi Hc Hf Ho He Hs Hset Hm Hk _] Hmax. split; try done.
  - split; cbn [concat app]; [|done|done|by left]. split; try done.
    + intros p Hp Hsome. rewrite (Ho p Hp Hsome). cbn. lia.
  - cbn. unfold Crc32_update, Crc32_new. change (encode_records []) with (@nil byte). by rewrite hasher_update_nil.
  - constructor; [|done]. right. cbn. lia.
  - cbn [sealed_lines]. by rewrite app_nil_r.
Qed.

Lemma start_ok inc ls w max_part_bytes :
  fresh inc ls (w_store w) → max_part_bytes <= u64_max →
  appender_ok max_part_bytes inc ls [] (start_appender (first_writer inc max_part_bytes), w, []).
Proof.
  intros Hf Hm. split_and!; [done|done|]. exists [], []. split_and!; try done.
  - by apply fresh_writing.
  - left. cbn. lia.
Qed.

Lemma start_at_home inc ls w max_part_bytes :
  fresh inc ls (w_store w) → at_home inc (start_appender (first_writer inc max_part_bytes), w, []).
Proof.
  intros Hf. split_and!; [apply Hf| |apply Hf]. split; [done|]. right. exists 1. split; [by vm_compute|done].
Qed.

(** Every crash from here leaves a prefix of [records] with every record whose
    durability was acknowledged. *)
Definition crash_safe (inc : N) (records : list Rec) (s : Step) : Prop :=
  ∀ d, crash (w_store s.1.2) d →
  ∃ m, m <= len records ∧ recovered inc d (take (N.to_nat m) records)
    ∧ ∀ n, Durable n ∈ s.2 → n <= m.

Lemma accepted_crash_safe inc ls received s : accepted inc ls received s → crash_safe inc received s.
Proof.
  intros (Hacks & se & o & t & Hst & _ & [more ->] & Hle & Hsv) d Hd.
  apply (crash_settled _ _ (sa_settled _ _ _ _ (stored_disk _ _ _ _ _ Hst))) in Hd.
  destruct (crash_recovers _ _ _ _ _ _ _ Hst Hsv ltac:(lia) Hd) as (m & [Hm1 Hm2] & Hrec).
  exists m. split_and!.
  - rewrite len_app. lia.
  - rewrite take_app_le; [done|]. unfold len in Hm2. lia.
  - intros n Hn. rewrite Forall_forall in Hacks. specialize (Hacks _ Hn). cbn in Hacks. lia.
Qed.

(** C5: An acknowledged sync is a promise kept through any crash.  The appender
    runs over a device on which any operation may fail, a failing write having
    written any part of its bytes, and is crashed at any moment, in the middle
    of a turn (its later operations never happen), between turns or after its
    shutdown barrier.  The crash keeps of every file what was synced and any
    part of what was not.  What the directory then holds, part by part, is a
    prefix of the records the appender received, in order, and it has every
    record up to the last acknowledged durable sequence. *)
Theorem durable_survives_crash inc ls w max_part_bytes interval ms :
  fresh inc ls (w_store w) → max_part_bytes <= u64_max →
  Forall rec_wf (records_in ms) → len (records_in ms) + 2 <= u64_max →
  let s := foldl (turn interval) (start_appender (first_writer inc max_part_bytes), w, []) ms in
  crash_safe inc (records_in ms) s ∧ crash_safe inc (records_in ms) (finish s)
  ∧ finish s = appender_loop interval (first_writer inc max_part_bytes) w ms.
Proof.
  intros Hf Hm Hwf Hmax s.
  assert (appender_ok max_part_bytes inc ls (records_in ms) s) as Hok.
  { apply (turns_ok max_part_bytes inc ls interval ms []); [by apply start_ok|done|rewrite len_nil; lia]. }
  split_and!; [| |done]; apply (accepted_crash_safe _ ls);
    [by eapply appender_ok_accepted|by eapply finish_accepted].
Qed.

Lemma torn_terminal t : torn t → terminal t.
Proof.
  intros [-> |(r & n & Hr & -> & Hn)]; [by left|]. destruct n as [|n]; [by left|].
  right. apply decode_torn; [done|lia].
Qed.

(** What is on the device can be read back. *)
Lemma stored_holds inc st sealed open_ t :
  stored inc st sealed open_ t → holds (st_files st) inc (sealed ++ [open_]) t.
Proof.
  intros Hst. pose proof (stored_parts _ _ _ _ _ Hst) as Hb. destruct Hst as [Hd Hw Hc Ht].
  assert (concat (sealed ++ [open_]) = concat sealed ++ open_) as Hcat
    by (rewrite concat_app; cbn [concat]; by rewrite app_nil_r).
  apply recovered_parts; rewrite ?Hcat, ?length_app; cbn [length]; try done.
  - apply Hd.
  - apply Hd.
  - lia.
  - by destruct sealed.
  - intros p Hp Hsome. pose proof (sa_only _ _ _ _ Hd p Hp Hsome). lia.
  - intros i rs [[Hlt Hl]|[-> <-]]%lookup_snoc_Some.
    + rewrite tail_of_snoc, app_nil_r by done. by destruct (sa_sealed _ _ _ _ Hd i rs Hl) as (_ & ? & _).
    + unfold tail_of. rewrite length_app. cbn [length]. rewrite (proj2 (Nat.eqb_eq _ _)) by lia. apply Hd.
  - by apply torn_terminal.
Qed.

Lemma stored_recovered inc st sealed open_ t :
  stored inc st sealed open_ t → recovered inc (st_files st) (concat sealed ++ open_).
Proof.
  intros Hst. right. exists (sealed ++ [open_]), t. split; [by apply stored_holds|].
  rewrite concat_app. cbn [concat]. by rewrite app_nil_r.
Qed.

(** A crash may lose nothing at all. *)
Lemma accepted_live inc ls received s : accepted inc ls received s → crash (w_store s.1.2) (st_files (w_store s.1.2)).
Proof.
  intros (_ & se & o & t & Hst & _ & _). split; [done|]. intros n c Hc. exists c. split_and!; [by left| |done].
  destruct (st_synced _ !! n) as [sy|] eqn:Hsy; [|apply prefix_nil].
  destruct (sa_synced _ _ _ _ (stored_disk _ _ _ _ _ Hst) n sy Hsy) as (f & Hf & Hp). cbn [default].
  rewrite Hc in Hf. by injection Hf as <-.
Qed.

(** What the live directory holds. *)
Lemma accepted_readable inc ls received s :
  accepted inc ls received s →
  ∃ m, m <= len received ∧ recovered inc (st_files (w_store s.1.2)) (take (N.to_nat m) received)
    ∧ ap_last_written s.1.1 <= m ∧ ∀ n, Journaled n ∈ s.2 → n <= m.
Proof.
  intros (Hacks & se & o & t & Hst & _ & [more ->] & Hle & _). exists (len (concat se ++ o)).
  rewrite take_len_app by done.
  split_and!; [rewrite (len_app _ more); lia|by eapply stored_recovered|lia|].
  intros n Hn. rewrite Forall_forall in Hacks. specialize (Hacks _ Hn). cbn in Hacks. lia.
Qed.

(** An acknowledged record is readable.  Whatever fails, at every moment the
    live directory holds a prefix of the received records, in order, with
    every record the appender has acknowledged as journaled; and after the
    first failure the appender answers every record and sync request with that
    failure and never touches the device again. *)
Theorem journaled_is_readable inc ls w max_part_bytes interval ms :
  fresh inc ls (w_store w) → max_part_bytes <= u64_max →
  Forall rec_wf (records_in ms) → len (records_in ms) + 2 <= u64_max →
  let '(a, w', acks) := foldl (turn interval) (start_appender (first_writer inc max_part_bytes), w, []) ms in
  (∃ m, m <= len (records_in ms) ∧ recovered inc (st_files (w_store w')) (take (N.to_nat m) (records_in ms))
    ∧ (∀ n, Journaled n ∈ acks → n <= m) ∧ (ap_dead a = None → m = len (records_in ms)))
  ∧ (∀ reason m, ap_dead a = Some reason →
      turn interval (a, w', acks) m
      = (a, w', acks ++ match m with GotTimeout => [] | _ => [AckFailed reason] end)).
Proof.
  intros Hf Hm Hwf Hmax.
  assert (appender_ok max_part_bytes inc ls (records_in ms)
    (foldl (turn interval) (start_appender (first_writer inc max_part_bytes), w, []) ms)) as Hok.
  { apply (turns_ok max_part_bytes inc ls interval ms []); [by apply start_ok|done|rewrite len_nil; lia]. }
  destruct (foldl _ _ _) as [[a w'] acks]. split.
  - destruct (accepted_readable _ _ _ _ (appender_ok_accepted _ _ _ _ _ Hok)) as (m & Hm1 & Hm2 & Hm3 & Hm4).
    exists m. split_and!; try done. intros Hn. destruct Hok as (_ & _ & Hd). rewrite Hn in Hd.
    destruct Hd as (se & o & _ & _ & _ & Hlw & _). cbn [fst] in Hm3. lia.
  - intros reason m Hn. destruct m; cbn [turn]; unfold on_record, on_sync, on_timeout, dirty; cbn [fst snd];
      rewrite Hn; [done|done|by rewrite app_nil_r].
Qed.
(** An appender without faults so far and to come. *)
Record thriving (max_part_bytes inc : N) (ls : list ManifestLine) (received : list Rec) (s : Step) : Prop := {
  th_ok : appender_ok max_part_bytes inc ls received s;
  th_alive : ap_dead s.1.1 = None;
  th_calm : w_faults s.1.2 = [];
  th_journaled : ∀ r, r ∈ received → Journaled (rec_seq r) ∈ s.2;
  th_durable : 0 < ap_last_durable s.1.1 → Durable (ap_last_durable s.1.1) ∈ s.2;
}.

Lemma do_sync_thriving max_part_bytes inc ls received s :
  thriving max_part_bytes inc ls received s →
  thriving max_part_bytes inc ls received (do_sync s) ∧ ap_last_durable (do_sync s).1.1 = ap_last_written s.1.1.
Proof.
  destruct s as [[a w] acks]. intros [Hok Hn Hf Hj Hdu]. cbn [fst snd] in *.
  pose proof (do_sync_ok _ _ _ _ _ _ _ Hok Hn) as Hok'.
  destruct Hok as (_ & _ & Hd). rewrite Hn in Hd. destruct Hd as (se & o & Hwr & _).
  pose proof (rolling_sync_spec _ _ _ _ _ _ _ Hwr) as Hs. unfold mwp in Hs.
  unfold do_sync in *. destruct (rolling_sync (ap_writer a, w)) as [[r1 w1] res]; cbn [fst snd] in *.
  destruct Hs as (_ & Hc & _). destruct (Hc Hf) as [Hf1 Hr]. destruct res as [[]|e]; [|done].
  split; [|done]. split; cbn [fst snd ap_dead ap_last_durable]; try done.
  - intros r Hr'. apply elem_of_app. left. by apply Hj.
  - intros _. apply elem_of_app. right. by left.
Qed.

Lemma on_record_thriving max_part_bytes inc ls received now interval event s :
  thriving max_part_bytes inc ls received s → rec_wf (record_of event) → ev_seq event = len received + 1 →
  len received + 2 <= u64_max →
  thriving max_part_bytes inc ls (received ++ [record_of event]) (on_record now interval event s).
Proof.
  destruct s as [[a w] acks]. intros [Hok Hn Hf Hj Hdu] Hrec Hseq Hmax. cbn [fst snd] in *.
  pose proof (on_record_ok max_part_bytes inc ls received now interval event _ Hok Hrec Hmax) as Hok'.
  destruct Hok as (_ & _ & Hd). rewrite Hn in Hd. destruct Hd as (se & o & Hwr & Hev & Hexp & _).
  assert (counting 1 (received ++ [record_of event])) as Hcnt.
  { apply counting_snoc; [|done|done]. rewrite <- Hev. apply Hwr. }
  rewrite <- Hev in Hcnt.
  pose proof (append_record_spec _ _ _ _ _ _ _ _ Hwr Hrec Hcnt) as Hsp. unfold mwp in Hsp.
  change (rec_kind (record_of event)) with (ev_kind event) in Hsp.
  change (rec_seq (record_of event)) with (ev_seq event) in Hsp.
  change (rec_elapsed_ms (record_of event)) with (ev_elapsed_ms event) in Hsp.
  change (rec_payload (record_of event)) with (ev_payload event) in Hsp.
  unfold on_record in *. rewrite Hn in *. rewrite Hexp, Hseq, N.eqb_refl in *. cbn [negb] in *.
  destruct (append_record _ _ _ _ _) as [[r1 w1] res]; cbn [fst snd] in *. destruct Hsp as [_ Hc].
  destruct (Hc Hf) as [Hf1 Hr]. destruct res as [[]|e]; [|done].
  split; cbn [fst snd ap_dead ap_last_durable]; try done.
  - intros r [Hr'|Hr']%elem_of_app; apply elem_of_app; [left; by apply Hj|right].
    apply list_elem_of_singleton in Hr' as ->. cbn [record_of rec_seq]. rewrite Hseq. by left.
  - intros Hp. apply elem_of_app. left. by apply Hdu.
Qed.

Lemma turns_thriving max_part_bytes inc ls interval ms received s :
  thriving max_part_bytes inc ls received s → Forall rec_wf (records_in ms) → counting 1 (received ++ records_in ms) →
  len received + len (records_in ms) + 2 <= u64_max →
  thriving max_part_bytes inc ls (received ++ records_in ms) (foldl (turn interval) s ms).
Proof.
  revert received s. induction ms as [|m ms IH]; intros received s Hok Hwf Hcnt Hmax.
  { unfold records_in. cbn. by rewrite app_nil_r. }
  unfold records_in in *. cbn [map concat foldl] in *. apply Forall_app in Hwf as [Hm Hwf].
  rewrite len_app in Hmax. rewrite app_assoc in *. apply IH; [|done|done|rewrite len_app; lia].
  destruct m as [now event| |]; cbn [record_in turn] in *.
  - apply on_record_thriving; [done| | |lia]; [by apply Forall_cons in Hm as [? _]|].
    apply counting_app in Hcnt as [Hcnt _]. apply counting_app in Hcnt as [_ Hcnt].
    apply counting_cons in Hcnt as [Hs _]. cbn in Hs. unfold ev_seq in *. lia.
  - rewrite app_nil_r. unfold on_sync. rewrite (th_alive _ _ _ _ _ Hok). by apply do_sync_thriving.
  - rewrite app_nil_r. unfold on_timeout. destruct (dirty _); [by apply do_sync_thriving|done].
Qed.

(** The seal at the end: every part there is is listed. *)
Lemma seal_final max_part_bytes inc ls r w sealed open_ :
  writing max_part_bytes inc ls r w sealed open_ →
  mwp seal_part (r, w) (λ s res, w_faults w = [] → is_ok res = true
    ∧ ∃ parts, concat parts = concat sealed ++ open_
      ∧ manifest_is (st_files (w_store s.2)) (ls ++ sealed_lines inc 1 parts)
      ∧ Forall (λ rs, rs ≠ [] ∧ sized max_part_bytes rs) parts
      ∧ ∀ i rs, parts !! i = Some rs →
          st_files (w_store s.2) !! segment_path inc (N.of_nat i + 1) = Some (encode_records rs)).
Proof.
  intros Hwr. pose proof Hwr as [Hst _ _ _ _ _ _ _ _ _ Hsz Hma _].
  assert (Forall (λ rs, rs ≠ []) sealed) as Hne.
  { apply Forall_lookup. intros i rs Hl.
    by destruct (sa_sealed _ _ _ _ (stored_disk _ _ _ _ _ Hst) i rs Hl). }
  apply Forall_app in Hsz as [Hsz Hszo].
  destruct (decide (open_ = [])) as [-> |Ho].
  - unfold seal_part. apply mwp_bind, mwp_self. cbv beta iota. rewrite (wr_first _ _ _ _ _ _ _ Hwr).
    intros _. split; [done|]. exists sealed. rewrite app_nil_r. split_and!; [done|done| |].
    + by apply Forall_and.
    + intros i rs Hl. by destruct (sa_sealed _ _ _ _ (stored_disk _ _ _ _ _ Hst) i rs Hl) as (_ & ? & _).
  - eapply mwp_mono; [by apply (seal_part_spec _ _ _ _ _ _ _ Hwr)|].
    intros [r1 w1] res (Hs1 & _ & _ & Hc & Hok) Hf. cbn [fst snd] in *. destruct (Hc Hf) as [_ Hr].
    split; [done|]. destruct res as [[]|e]; [|done]. destruct (Hok eq_refl) as (_ & _ & Hm).
    exists (sealed ++ [open_]). rewrite concat_app. cbn [concat]. rewrite app_nil_r. split_and!; [done|done| |].
    + apply Forall_app. split; [by apply Forall_and|]. constructor; [|done].
      split; [done|]. by apply Forall_cons in Hszo as [? _].
    + pose proof (stored_disk _ _ _ _ _ Hs1) as Hd. rewrite app_nil_r in Hd.
      intros i rs [[_ Hl]|[-> <-]]%lookup_snoc_Some.
      * by destruct (sa_sealed _ _ _ _ Hd i rs Hl) as (_ & ? & _).
      * apply (sa_open _ _ _ _ Hd).
Qed.

(** A clean shutdown.  On a device that does not fail, and with records that
    carry the sequences 1, 2, 3, ..., the appender acknowledges every record,
    acknowledges the durability of the last one, survives, and leaves every
    part it wrote sealed: the manifest lists, after what it listed before,
    each part's number, first and last sequence, exact length and checksum,
    and no part is longer than the limit unless it is a single record. *)
Theorem clean_shutdown inc ls w max_part_bytes interval ms :
  fresh inc ls (w_store w) → w_faults w = [] → max_part_bytes <= u64_max →
  Forall rec_wf (records_in ms) → counting 1 (records_in ms) → len (records_in ms) + 2 <= u64_max →
  let '(a, w', acks) := appender_loop interval (first_writer inc max_part_bytes) w ms in
  ap_dead a = None
  ∧ (∀ r, r ∈ records_in ms → Journaled (rec_seq r) ∈ acks)
  ∧ (records_in ms ≠ [] → Durable (len (records_in ms)) ∈ acks)
  ∧ ∃ parts, concat parts = records_in ms
      ∧ manifest_is (st_files (w_store w')) (ls ++ sealed_lines inc 1 parts)
      ∧ Forall (λ rs, rs ≠ [] ∧ sized max_part_bytes rs) parts
      ∧ ∀ i rs, parts !! i = Some rs →
          st_files (w_store w') !! segment_path inc (N.of_nat i + 1) = Some (encode_records rs).
Proof.
  intros Hf Hcalm Hm Hwf Hcnt Hmax. unfold appender_loop.
  set (s0 := (start_appender (first_writer inc max_part_bytes), w, [])).
  assert (thriving max_part_bytes inc ls [] s0) as H0t.
  { split; try done; [by apply start_ok|]. by intros r ?%elem_of_nil. }
  pose proof (turns_thriving max_part_bytes inc ls interval ms [] s0 H0t Hwf Hcnt ltac:(rewrite len_nil; lia)) as Hth.
  rewrite app_nil_l in Hth. set (s := foldl _ _ _) in *. unfold finish.
  set (s1 := if dirty s.1.1 then do_sync s else s).
  assert (thriving max_part_bytes inc ls (records_in ms) s1 ∧ ap_last_durable s1.1.1 = ap_last_written s1.1.1) as [Hth1 Hdur].
  { unfold s1, dirty. rewrite (th_alive _ _ _ _ _ Hth). destruct (N.ltb_spec (ap_last_durable s.1.1) (ap_last_written s.1.1)).
    - destruct (do_sync_thriving _ _ _ _ _ Hth) as [Hd1 Hd2]. split; [done|]. rewrite Hd2.
      destruct Hd1 as [Hok Hn _ _ _]. destruct (do_sync s) as [[a1 w1] acks1]. cbn [fst snd] in *.
      destruct Hok as (_ & _ & Hd). rewrite Hn in Hd. destruct Hd as (? & ? & _ & _ & _ & Hlw & _).
      pose proof (th_ok _ _ _ _ _ Hth) as Hok0. pose proof (th_alive _ _ _ _ _ Hth) as Hn0.
      destruct s as [[a w0] acks]. cbn [fst snd] in *. destruct Hok0 as (_ & _ & Hd0). rewrite Hn0 in Hd0.
      destruct Hd0 as (? & ? & _ & _ & _ & Hlw0 & _). lia.
    - split; [done|]. pose proof (th_ok _ _ _ _ _ Hth) as Hok0. destruct s as [[a w0] acks].
      destruct Hok0 as (_ & ? & _). cbn [fst] in *. lia. }
  clearbody s1. destruct s1 as [[a w1] acks]. destruct Hth1 as [Hok Hn Hfa Hj Hdu]. cbn [fst snd] in *.
  destruct Hok as (_ & _ & Hd). rewrite Hn in *.
  destruct Hd as (sealed & open_ & Hwr & Hev & _ & Hlw & _).
  rewrite Hlw in Hdur. rewrite Hdur in Hdu.
  assert (records_in ms ≠ [] → Durable (len (records_in ms)) ∈ acks) as Hdu'.
  { intros Hne%len_nonempty. apply Hdu. lia. }
  pose proof (seal_final _ _ _ _ _ _ _ Hwr) as Hsp. unfold mwp in Hsp.
  destruct (seal_part (ap_writer a, w1)) as [[r2 w2] res]; cbn [fst snd] in Hsp.
  destruct (Hsp Hfa) as [Hres (parts & Hp1 & Hp2 & Hp3 & Hp4)]. destruct res as [[]|e]; [|done].
  split_and!; try done. exists parts. rewrite Hp1. by split_and!.
Qed.
End AppenderTheorems.

(** ** Witnesses *)

#[local] Existing Instance csv_serde.
#[local] Existing Instance csv_laws.

Definition sample_storage : Storage :=
  mk_storage {[ segment_path 7 1 := [] ]} ∅ [segment_path 7 1] ∅.

Definition sample_event (seq : N) (payload : bytes) : OrderedEvent := mk_event (mk_cursor 7 seq) (10 * seq) Output payload.

(** Three records and a sync: with parts of at most 100 bytes the third record
    opens a second part. *)
Definition sample_messages : list Received :=
  [GotRecord 3 (sample_event 1 (bs "first")); GotRecord 5 (sample_event 2 (bs "second"));
   GotSync; GotRecord 9 (sample_event 3 (bs "third")); GotTimeout].

Lemma sample_fresh : fresh 7 [] sample_storage.
Proof.
  assert (∀ name, is_Some (st_files sample_storage !! name) → name = segment_path 7 1) as Honly.
  { intros name [c Hc]. cbn [sample_storage st_files] in Hc. by apply lookup_singleton_Some in Hc as [<- _]. }
  split; [done| |by vm_compute| |by left|done|done|by split|split; [apply prefix_nil|done]|].
  - intros name i p Hn Hp. rewrite (Honly name Hn) in *. vm_compute in Hp. by injection Hp as <- <-.
  - intros p Hp Hs%Honly. by apply segment_path_inj in Hs as [_ ->].
  - intros i p Hi Hp Hs%Honly. by apply segment_path_inj in Hs as [-> _].
Qed.

Lemma sample_messages_wf : Forall rec_wf (records_in sample_messages).
Proof. by repeat (constructor; [split_and!; by vm_compute|]). Qed.

(** The device fails at the write of the second record's payload, of which
    three bytes reach the file. *)
Definition sample_failing : World := mk_world sample_storage [None; None; None; Some (3, Other)].

Lemma durable_survives_crash_witness :
  let s := foldl (turn 50) (start_appender (first_writer 7 100), sample_failing, []) sample_messages in
  is_Some (ap_dead s.1.1)
  ∧ (crash_safe 7 (records_in sample_messages) s ∧ crash_safe 7 (records_in sample_messages) (finish s)
     ∧ finish s = appender_loop 50 (first_writer 7 100) sample_failing sample_messages).
Proof.
  split; [vm_compute; by eexists|].
  by apply (durable_survives_crash 7 [] sample_failing 100 50 sample_messages sample_fresh); [|apply sample_messages_wf|].
Defined.

Lemma journaled_is_readable_witness :
  let '(a, w', acks) := foldl (turn 50) (start_appender (first_writer 7 100), sample_failing, []) sample_messages in
  (∃ m, m <= 3 ∧ recovered 7 (st_files (w_store w')) (take (N.to_nat m) (records_in sample_messages))
    ∧ (∀ n, Journaled n ∈ acks → n <= m) ∧ (ap_dead a = None → m = 3))
  ∧ (∀ reason m, ap_dead a = Some reason →
      turn 50 (a, w', acks) m
      = (a, w', acks ++ match m with GotTimeout => [] | _ => [AckFailed reason] end)).
Proof.
  by apply (journaled_is_readable 7 [] sample_failing 100 50 sample_messages sample_fresh);
    [|apply sample_messages_wf|].
Defined.

Lemma clean_shutdown_witness :
  let '(a, w', acks) := appender_loop 50 (first_writer 7 100) (mk_world sample_storage []) sample_messages in
  ap_dead a = None
  ∧ (∀ r, r ∈ records_in sample_messages → Journaled (rec_seq r) ∈ acks)
  ∧ (records_in sample_messages ≠ [] → Durable 3 ∈ acks)
  ∧ ∃ parts, concat parts = records_in sample_messages
      ∧ manifest_is (st_files (w_store w')) ([] ++ sealed_lines 7 1 parts)
      ∧ Forall (λ rs, rs ≠ [] ∧ sized 100 rs) parts
      ∧ ∀ i rs, parts !! i = Some rs →
          st_files (w_store w') !! segment_path 7 (N.of_nat i + 1) = Some (encode_records rs).
Proof.
  apply (clean_shutdown 7 [] (mk_world sample_storage []) 100 50 sample_messages sample_fresh);
    [done|done|apply sample_messages_wf|by vm_compute|done].
Defined.

(** A truncation can be undone by a crash until the directory is synced. *)
Definition cut_storage (name : bytes) (f : bytes) : Storage :=
  apply_op (Truncate name 1) (mk_storage {[ name := f ]} {[ name := f ]} [name] ∅).

Example truncation_waits_for_the_directory name :
  crash (cut_storage name (bs "ab")) {[ name := bs "ab" ]}
  ∧ ¬ crash (apply_op SyncDir (cut_storage name (bs "ab"))) {[ name := bs "ab" ]}.
Proof.
  split.
  - split; intros n; cbn; [intros ->%list_elem_of_singleton _; by rewrite lookup_singleton_eq|].
    intros c [<- <-]%lookup_singleton_Some. exists (bs "ab"). unfold keep_former. cbn.
    rewrite lookup_singleton_eq, lookup_insert_eq, lookup_alter_eq, lookup_singleton_eq. split; [by right|]. split; [|done].
    by exists (bs "b").
  - intros Hc. apply crash_settled in Hc as [_ Hd]; [|done]. destruct (Hd name (bs "ab")) as (f & Hf & _ & [x Hx]).
    { apply lookup_singleton_eq. }
    cbn in Hf. rewrite lookup_alter_eq, lookup_singleton_eq in Hf. by injection Hf as <-.
Qed.
