(* ===== verification/Restart.v ===== *)
(** * Crash and restart

    The open path and the appender put together: what a restarted daemon finds
    is what the last one left at its crash.  A device is booted on a
    directory, [open] ([src/src/session/journal/open.rs]) runs on it, the
    appender ([src/src/session/journal/appender.rs]) runs over a device that
    may fail, and it all crashes.  The theorem says that the directory is then
    one that [open] repairs again, unless the crash cut a manifest line or the
    first record of a part; the second, that a cut manifest line keeps the
    journal from ever being opened again. *)

From S2P Require Import Prelude Crc Utf8 Text RecordFormat SegmentScan Disk Manifest Open Retention.
From S2P Require Import Sequencer Stream Appender.

(** ** A device at boot *)

(** All that is on disk is durable. *)
Definition booted (d : Dir) : Storage := mk_storage d d (names d) ∅.

Definition run_ops (ops : list DiskOp) (st : Storage) : Storage := foldl (λ st op, apply_op op st) st ops.

Lemma run_ops_app a b st : run_ops (a ++ b) st = run_ops b (run_ops a st).
Proof. apply foldl_app. Qed.

Lemma run_ops_files ops st : st_files (run_ops ops st) = exec (st_files st) ops.
Proof. revert st. induction ops as [|op ops IH]; intros st; [done|]. apply (IH (apply_op op st)). Qed.

(** Between synced writes: what is synced of a file is the file. *)
Record flushed (st : Storage) : Prop := {
  fl_files n s : st_synced st !! n = Some s → st_files st !! n = Some s;
  fl_synced n c : st_files st !! n = Some c → default [] (st_synced st !! n) = c;
}.

Lemma flushed_booted d : flushed (booted d).
Proof. split; cbn [booted st_files st_synced]; [done|]. by intros n c ->. Qed.

(** A computation whose every write is synced before it returns. *)
Definition tidy {A} (m : disk A) : Prop :=
  ∀ st, flushed st → flushed (run_ops (m (st_files st)).1 st).

Lemma tidy_quiet {A} (m : disk A) : (∀ d, (m d).1 = []) → tidy m.
Proof. intros Hq st Hf. by rewrite Hq. Qed.

Lemma tidy_bind {A B} (m : disk A) (k : A → disk B) : tidy m → (∀ a, tidy (k a)) → tidy (m ≫= k).
Proof.
  intros Hm Hk st Hf. specialize (Hm st Hf). unfold mbind, disk_bind.
  pose proof (run_ops_files (m (st_files st)).1 st) as Hfiles.
  destruct (m (st_files st)) as [ops [a|e]]; cbn [fst] in *; [|done].
  specialize (Hk a _ Hm). rewrite Hfiles in Hk. destruct (k a _) as [ops' r]. cbn [fst] in *. by rewrite run_ops_app.
Qed.

Lemma tidy_for_each {A} (l : list A) body : (∀ x, tidy (body x)) → tidy (for_each l body).
Proof. intros Hb. induction l; cbn [for_each]; [by apply tidy_quiet|]. by apply tidy_bind. Qed.

Lemma tidy_remove name : tidy (remove_file name).
Proof.
  apply tidy_bind; [by apply tidy_quiet|]. intros _ st [Hf Hs]. split; cbn.
  - intros n s [Hne E]%lookup_delete_Some. rewrite lookup_delete_ne by done. by apply Hf.
  - intros n c [Hne E]%lookup_delete_Some. rewrite lookup_delete_ne by done. by apply Hs.
Qed.

Lemma tidy_set_len name k : tidy (set_len name k).
Proof.
  apply tidy_bind; [by apply tidy_quiet|]. intros _ st [Hf Hs]. split; cbn.
  - intros n s E. destruct (decide (name = n)) as [<-|Hne].
    + rewrite lookup_alter_eq in E |- *. apply fmap_Some in E as (s0 & E & ->). by rewrite (Hf _ _ E).
    + rewrite lookup_alter_ne in E |- * by done. by apply Hf.
  - intros n c E. destruct (decide (name = n)) as [<-|Hne].
    + rewrite lookup_alter_eq in E |- *. apply fmap_Some in E as (c0 & E & ->). specialize (Hs _ _ E).
      destruct (st_synced st !! name); cbn in *; subst c0; [done|]. by rewrite take_nil.
    + rewrite lookup_alter_ne in E |- * by done. by apply Hs.
Qed.

Lemma tidy_sync_dir : tidy sync_dir.
Proof. intros st [Hf Hs]. by split. Qed.

Lemma tidy_create name : tidy (create_new name).
Proof.
  intros st [Hf Hs]. unfold create_new, reads, mbind, disk_bind. cbn [exec foldl].
  destruct (bool_decide (is_Some _)) eqn:Eb; [by split|]. apply bool_decide_eq_false_1, eq_None_not_Some in Eb.
  split; cbn.
  - intros n s En. rewrite lookup_insert_ne; [by apply Hf|]. intros <-. apply Hf in En. by rewrite Eb in En.
  - intros n c [[<- <-]|[Hne En]]%lookup_insert_Some; [|by apply Hs].
    destruct (st_synced st !! name) as [s|] eqn:Es; [|done]. apply Hf in Es. by rewrite Eb in Es.
Qed.

Section Boot.
Context `{ManifestSerde, !ManifestSerdeLaws, Crc32Fast, !Crc32FastLaws}.

Lemma tidy_append_line l : tidy (append_manifest_line l).
Proof.
  intros st [Hf Hs]. unfold append_manifest_line, mbind, disk_bind, step. cbn [app fst run_ops foldl].
  split; cbn.
  - intros n s [[<- <-]|[Hne En]]%lookup_insert_Some.
    + by rewrite !lookup_insert_eq.
    + rewrite lookup_insert_ne by done. by apply Hf.
  - intros n c [[<- <-]|[Hne En]]%lookup_insert_Some.
    + by rewrite !lookup_insert_eq.
    + rewrite lookup_insert_ne by done. by apply Hs.
Qed.

Lemma tidy_seal i p first_seq last_seq : tidy (seal_validated_part i p first_seq last_seq).
Proof.
  apply tidy_bind; [by apply tidy_quiet|]. intros content.
  apply tidy_bind; [apply tidy_append_line|]. intros _. apply tidy_sync_dir.
Qed.

Lemma tidy_if_bool {A} (b : bool) (m m' : disk A) : tidy m → tidy m' → tidy (if b then m else m').
Proof. by destruct b. Qed.

Hint Resolve tidy_seal tidy_sync_dir tidy_set_len tidy_remove tidy_create tidy_bind tidy_for_each tidy_if_bool : tidy.
Hint Extern 1 (tidy (mret _)) => apply tidy_quiet; done : tidy.
Hint Extern 1 (tidy (fail _)) => apply tidy_quiet; done : tidy.
Hint Extern 1 (tidy (reads _)) => apply tidy_quiet; done : tidy.

Lemma tidy_removal path : tidy (_ ← remove_file path; sync_dir).
Proof. auto with tidy. Qed.
Hint Resolve tidy_removal : tidy.

Lemma tidy_reconcile manifested tail ip : tidy (reconcile_part manifested tail ip).
Proof.
  unfold reconcile_part. apply tidy_if_bool; [auto with tidy|]. apply tidy_bind; [auto with tidy|].
  intros [expected|]; [|auto with tidy]. apply tidy_bind; [by apply tidy_quiet|]. intros stats.
  destruct expected, (st_last_seq stats), (st_stop stats); auto with tidy.
Qed.

Lemma tidy_recover manifested previous part : tidy (recover_tail manifested previous part).
Proof.
  unfold recover_tail. apply tidy_bind; [by apply tidy_quiet|]. intros expected. apply tidy_if_bool; [auto with tidy|].
  apply tidy_bind; [by apply tidy_quiet|]. intros stats. apply tidy_bind; [auto with tidy|]. intros _.
  apply tidy_bind; [|auto with tidy]. apply tidy_if_bool; [auto with tidy|].
  destruct expected, (st_last_seq stats), (st_stop stats); auto with tidy.
Qed.

Lemma tidy_complete retired : tidy (complete_retired_retention retired).
Proof.
  unfold complete_retired_retention. apply tidy_if_bool; [auto with tidy|]. apply tidy_bind; [auto with tidy|].
  intros segments. apply tidy_bind; [auto with tidy|]. intros _. auto with tidy.
Qed.

(** [open] syncs all it writes, the directory last. *)
Lemma tidy_open : tidy open.
Proof.
  unfold open. apply tidy_bind; [by apply tidy_quiet|]. intros retired.
  apply tidy_bind; [apply tidy_complete|]. intros _. do 2 (apply tidy_bind; [by apply tidy_quiet|]; intros ?).
  apply tidy_bind.
  { destruct (last _) as [[previous part]|]; [|auto with tidy]. apply tidy_bind; [apply tidy_recover|auto with tidy]. }
  intros report. apply tidy_bind; [apply tidy_for_each; intros; apply tidy_reconcile|]. intros _.
  auto with tidy.
Qed.

Definition ends_synced {A} (m : disk A) : Prop :=
  ∀ d, is_ok (m d).2 = true → ∃ ops, (m d).1 = ops ++ [SyncDir].

Lemma ends_synced_bind {A B} (m : disk A) (k : A → disk B) : (∀ a, ends_synced (k a)) → ends_synced (m ≫= k).
Proof.
  intros Hk d. unfold mbind, disk_bind. destruct (m d) as [ops [a|e]]; [|done].
  specialize (Hk a (exec d ops)). destruct (k a _) as [ops' r]. cbn [fst snd] in *. intros Hok.
  destruct (Hk Hok) as [more ->]. exists (ops ++ more). by rewrite app_assoc.
Qed.

Lemma ends_synced_open : ends_synced open.
Proof. unfold open. do 7 (apply ends_synced_bind; intros ?). intros d _. by exists []. Qed.
End Boot.

(** ** A journal after [open] *)

Section Restart.
Context `{Crc32Fast, !Crc32FastLaws, ManifestSerde, !ManifestSerdeLaws}.

(** Everything on the device is durable, and the journal is freshly opened. *)
Record ready (b : N) (ls : list ManifestLine) (inc : N) (st : Storage) : Prop := {
  rd_opened : opened b ls (st_files st) inc;
  rd_fresh : fresh inc ls st;
  rd_flushed : flushed st;
  rd_entries name : is_Some (st_files st !! name) → name ∈ st_entries st;
}.

Lemma opened_fresh b ls inc st :
  opened b ls (st_files st) inc → flushed st → settled st → st_entries st = names (st_files st) → b <= u64_max →
  ready b ls inc st.
Proof.
  intros Ho [Hf Hs] Hset He Hb. pose proof Ho as [Hh _ _ Hnew Hinc Ht Hk Hold].
  assert (∀ name, is_Some (st_files st !! name) → name ∈ st_entries st) as Hent.
  { intros name Hn. rewrite He. by apply elem_of_names. }
  pose proof (he_sound _ _ Hh) as [Hcan Hman _ _].
  split; [done| |by split|done]. split; [lia|done|done| | | |done|done| |].
  - intros p Hp Hsome. destruct (Hold inc p ltac:(lia) Hp Hsome) as [[_ ?]|[? _]]; [done|lia].
  - apply Hent. by rewrite Hnew.
  - intros name s En. exists s. split; [by apply Hf|done].
  - destruct Hman as [Hm _]. split.
    + rewrite <- Hm. destruct (st_files st !! MANIFEST_FILE_NAME) as [c|] eqn:E; [|by apply prefix_nil].
      by rewrite (Hs _ _ E).
    + intros Hne. apply Hent. destruct (manifest_is_some _ _ (he_sound _ _ Hh).(so_manifest _ _)) as [|]; done.
  - intros i p Hi Hp Hsome. destruct (Hold i p Hi Hp Hsome) as [[-> _]|[? _]]; lia.
Qed.

(** [open] on a booted device leaves it so. *)
Lemma boot_ready ls d b :
  healthy ls d → incarnations_below b ls d → 0 < b < u64_max →
  ∃ ops o ls', open d = (ops, Ok o) ∧ ready b ls' (oj_incarnation o) (run_ops ops (booted d))
    ∧ (∀ i p, i <= u64_max → p <= u64_max → is_Some (d !! segment_path i p) → i < oj_incarnation o).
Proof.
  intros Hh Hb Hb0. pose proof (wp_open ls d b Hh Hb Hb0) as Hw. unfold wp in Hw.
  pose proof (tidy_open (booted d) (flushed_booted d)) as Ht. pose proof (ends_synced_open d) as He.
  cbn [booted st_files] in Ht. destruct (open d) as [ops r]. cbn [fst snd] in *.
  destruct Hw as (o & ls' & -> & Ho & Hold & _). exists ops, o, ls'. split; [done|]. split; [|done].
  pose proof (run_ops_files ops (booted d)) as Hfiles. cbn [booted st_files] in Hfiles.
  destruct (He eq_refl) as [ops' ->]. apply opened_fresh; [by rewrite Hfiles|done| | |lia]; by rewrite run_ops_app.
Qed.

(** ** What a crash leaves of the manifest *)

(** The crash cut a manifest line. *)
Definition torn_manifest (d : Dir) : Prop :=
  ∃ lines l n, Forall line_wf lines ∧ line_wf l ∧ (0 < n <= length (json_to_vec l))%nat
    ∧ d !! MANIFEST_FILE_NAME = Some (manifest_text lines ++ take n (json_to_vec l)).

(** The crash cut the first record of a part. *)
Definition torn_first (inc : N) (d : Dir) : Prop :=
  ∃ p c, p <= u64_max ∧ d !! segment_path inc p = Some c ∧ decode_record c = inl PartialTail.

Lemma manifest_cut lines c :
  c `prefix_of` manifest_text lines →
  ∃ k, c = manifest_text (take k lines)
    ∨ ∃ l n, lines !! k = Some l ∧ (0 < n <= length (json_to_vec l))%nat
        ∧ c = manifest_text (take k lines) ++ take n (json_to_vec l).
Proof.
  revert c. induction lines as [|l lines IH]; intros c Hc.
  { exists 0%nat. left. by apply prefix_nil_inv in Hc as ->. }
  change (l :: lines) with ([l] ++ lines) in Hc. rewrite manifest_text_app, manifest_text_one in Hc.
  destruct (decide (length c <= length (json_to_vec l))%nat) as [Hle|Hgt].
  - exists 0%nat. assert (c = take (length c) (json_to_vec l)) as Heq.
    { destruct Hc as [x Hx]. apply (f_equal (take (length c))) in Hx. rewrite take_app_length in Hx.
      rewrite <- app_assoc, take_app_le in Hx by lia. done. }
    destruct c as [|b c]; [by left|]. right. exists l, (length (b :: c)). split_and!; [done|cbn; lia|done|done].
  - assert (json_to_vec l ++ [x0a] `prefix_of` c) as [c' ->].
    { destruct (prefix_weak_total c (json_to_vec l ++ [x0a]) _ Hc ltac:(by eexists)) as [Hp|]; [|done].
      rewrite (prefix_length_eq _ _ Hp); [done|]. rewrite length_app. cbn [length]. lia. }
    apply prefix_app_inv in Hc. destruct (IH c' Hc) as [k Hk]. exists (S k). cbn [take lookup list_lookup].
    change (l :: take k lines) with ([l] ++ take k lines). rewrite manifest_text_app, manifest_text_one.
    destruct Hk as [-> |(l' & n & Hl & Hn & ->)]; [by left|right]. exists l', n. split_and!; [done|apply Hn|apply Hn|]. by rewrite <- !app_assoc.
Qed.

Lemma manifest_text_nonempty l lines : manifest_text (l :: lines) ≠ [].
Proof.
  change (l :: lines) with ([l] ++ lines). rewrite manifest_text_app, manifest_text_one. by destruct (json_to_vec l).
Qed.

(** The lines that were durable are among those found. *)
Lemma manifest_kept_lines ls more k :
  manifest_text ls `prefix_of` manifest_text (take k (ls ++ more)) →
  take k (ls ++ more) = ls ++ take (k - length ls) more.
Proof.
  intros Hp. rewrite take_app. destruct (decide (length ls <= k)%nat) as [Hge|Hlt]; [by rewrite take_ge|].
  exfalso. rewrite take_app_le in Hp by lia. rewrite <- (take_drop k ls) in Hp at 1.
  rewrite manifest_text_app in Hp. apply prefix_length in Hp. rewrite length_app in Hp.
  destruct (drop k ls) as [|l rest] eqn:E; [apply (f_equal length) in E; rewrite length_drop in E; cbn in E; lia|].
  pose proof (manifest_text_nonempty l rest). destruct (manifest_text (l :: rest)); [done|]. cbn in Hp. lia.
Qed.

Lemma take_sealed_lines inc p parts m :
  take m (sealed_lines inc p parts) = sealed_lines inc p (take m parts).
Proof.
  revert p m. induction parts as [|rs parts IH]; intros p [|m]; cbn [take sealed_lines]; [done..|]. by rewrite IH.
Qed.

Lemma keys_app a b : keys (a ++ b) = keys a ++ keys b.
Proof. unfold keys. by rewrite omap_app, map_app. Qed.

Lemma tombs_sealed ls inc p parts : tombs (ls ++ sealed_lines inc p parts) = tombs ls.
Proof.
  unfold tombs. rewrite omap_app.
  assert (omap retired_of (sealed_lines inc p parts) = []) as ->; [|by rewrite app_nil_r].
  revert p. induction parts; intros p; [done|]. apply IHparts.
Qed.

Lemma elem_of_sealed_lines inc p parts l :
  l ∈ sealed_lines inc p parts →
  ∃ i rs, parts !! i = Some rs ∧ l = Sealed (entry_of inc (p + N.of_nat i) rs).
Proof.
  revert p. induction parts as [|rs parts IH]; intros p; cbn [sealed_lines]; [by intros ?%not_elem_of_nil|].
  intros [-> |Hin]%elem_of_cons.
  - exists 0%nat, rs. split; [done|]. by rewrite N.add_0_r.
  - destruct (IH _ Hin) as (i & rs' & Hi & ->). exists (S i), rs'. split; [done|]. do 2 f_equal. lia.
Qed.

Lemma keys_sealed inc p parts i q : (i, q) ∈ keys (sealed_lines inc p parts) → i = inc ∧ p <= q.
Proof.
  revert p. induction parts as [|rs parts IH]; intros p; cbn; [by intros ?%not_elem_of_nil|].
  intros [[= -> ->]|Hin]%elem_of_cons; [split; [done|lia]|]. destruct (IH _ Hin). split; [done|lia].
Qed.

Lemma keys_sealed_in inc p parts i rs :
  parts !! i = Some rs → (inc, p + N.of_nat i) ∈ keys (sealed_lines inc p parts).
Proof.
  revert p i. induction parts as [|rs' parts IH]; intros p i; [done|]. destruct i as [|i]; cbn.
  - intros _. rewrite N.add_0_r. by left.
  - intros Hi. right. replace (p + N.of_nat (S i)) with (p + 1 + N.of_nat i) by lia. by apply (IH (p + 1)%N).
Qed.

Lemma keys_sealed_nodup inc p parts : NoDup (keys (sealed_lines inc p parts)).
Proof.
  revert p. induction parts as [|rs parts IH]; intros p; [by apply NoDup_nil_2|]. cbn. apply NoDup_cons. split; [|apply IH].
  intros Hin. apply keys_sealed in Hin as [_ ?]. unfold entry_key in *. cbn in *. lia.
Qed.

(** ** What a crash leaves of the parts *)

Lemma decode_part rs tail s e :
  Forall rec_wf rs → counting e rs → decode_record tail = inl s →
  decode_segment (encode_records rs ++ tail) = (plain rs, tail, s) ∧ linked None (plain rs) = plain rs.
Proof.
  intros Hwf Hc Hs. rewrite <- encode_plain. split.
  - apply decode_segment_encoded; [by apply plain_wf|done].
  - apply chained_linked. rewrite snd_plain. apply counting_chained in Hc. destruct rs; [done|]. by destruct Hc.
Qed.

Lemma clean_part rs e :
  Forall rec_wf rs → counting e rs → len (encode_records rs) <= u64_max → part_clean (encode_records rs).
Proof.
  intros Hwf Hc Hlen. destruct (decode_part rs [] CleanEof e Hwf Hc decode_nil) as [Hd Hl]. rewrite app_nil_r in Hd.
  by exists (plain rs).
Qed.

(** A part that was cut: on a record boundary, inside a later record, or
    inside its first. *)
Lemma cut_part rs tail e :
  Forall rec_wf rs → counting e rs → terminal tail → len (encode_records rs ++ tail) <= u64_max →
  part_clean (encode_records rs ++ tail) ∨ part_torn (encode_records rs ++ tail)
  ∨ decode_record (encode_records rs ++ tail) = inl PartialTail.
Proof.
  intros Hwf Hc [Ht|Ht] Hlen.
  - left. apply decode_clean in Ht as ->. rewrite app_nil_r in *. by eapply clean_part.
  - destruct (decode_part rs tail PartialTail e Hwf Hc Ht) as [Hd Hl].
    destruct rs as [|r rs]; [by right; right|]. right. left. by exists (plain (r :: rs)), tail.
Qed.

Lemma starts_part i p rs tail s e :
  Forall rec_wf rs → counting e rs → decode_record tail = inl s → (p = 1 → e = 1) →
  starts_at_one i p (encode_records rs ++ tail).
Proof.
  intros Hwf Hc Hs He Hp fl r frs tl s' Hd. destruct (decode_part rs tail s e Hwf Hc Hs) as [Hd' _].
  rewrite Hd in Hd'. destruct rs as [|x rs]; [done|]. injection Hd' as -> -> _ _ _.
  apply counting_cons in Hc as [-> _]. auto.
Qed.

Section Crashed.
Context (b inc : N) (ls : list ManifestLine) (st1 st : Storage) (sealed : list (list Rec)) (open_ : list Rec)
  (t : bytes) (d : Dir).
Context (Hready : ready b ls inc st1) (Hapart : apart inc st1 st) (Htop : topmost inc st)
  (Hstored : stored inc st sealed open_ t) (Hlisted : listed ls inc st sealed open_ t) (Hcrash : crashed_to st d)
  (Hbytes : len (encode_records (concat sealed ++ open_)) + HEADER_LEN + MAX_PAYLOAD_LEN <= u64_max).

Lemma crash_inc : inc <= u64_max.
Proof. apply (fr_inc _ _ _ (rd_fresh _ _ _ _ Hready)). Qed.

(** Files of older incarnations are as [open] left them. *)
Lemma crash_old i p : i <= u64_max → p <= u64_max → i ≠ inc → d !! segment_path i p = st_files st1 !! segment_path i p.
Proof.
  intros Hi Hp Hne. pose proof (not_own inc i p crash_inc Hi Hp Hne) as Hn.
  destruct Hapart as [Hent Hsame]. destruct (Hsame _ Hn) as [Hf Hs]. destruct Hcrash as [He Hd].
  destruct (st_files st1 !! segment_path i p) as [c|] eqn:E.
  - destruct (Hent (segment_path i p)) as [Hsome Hin]; [by rewrite E|].
    destruct (He (segment_path i p)) as [c' Hc']; [|done|].
    { apply Hin, (rd_entries _ _ _ _ Hready). by rewrite E. }
    destruct (Hd _ _ Hc') as (f & Hf' & Hlo & Hhi). rewrite Hf in Hf'. injection Hf' as <-.
    rewrite Hs, (fl_synced _ (rd_flushed _ _ _ _ Hready) _ _ E) in Hlo. rewrite Hc'. f_equal. by apply (anti_symm prefix).
  - destruct (d !! segment_path i p) as [c|] eqn:Ed; [|done]. destruct (Hd _ _ Ed) as (f & Hf' & _). congruence.
Qed.

Lemma crash_first : is_Some (d !! segment_path inc 1).
Proof.
  destruct Hapart as [Hent _]. pose proof (rd_fresh _ _ _ _ Hready) as Hf.
  destruct (Hent (segment_path inc 1)) as [Hsome Hin]; [by rewrite (fr_first _ _ _ Hf)|].
  apply Hcrash; [|done]. apply Hin, (fr_entry _ _ _ Hf).
Qed.

Lemma crash_top i p : i <= u64_max → p <= u64_max → is_Some (d !! segment_path i p) → i <= inc.
Proof. intros Hi Hp [c Hc]. destruct (proj2 Hcrash _ _ Hc) as (f & Hf & _). apply (Htop i p Hi Hp). by rewrite Hf. Qed.

Lemma stored_split : Forall rec_wf (concat sealed) ∧ Forall rec_wf open_ ∧ counting 1 (concat sealed)
  ∧ counting (1 + len (concat sealed)) open_.
Proof.
  destruct Hstored as [_ Hw Hc _]. apply Forall_app in Hw as [? ?]. by apply counting_app in Hc as [? ?].
Qed.

Lemma open_len c : c `prefix_of` encode_records open_ ++ t → len c <= u64_max.
Proof.
  intros [x Hx]. pose proof (f_equal len Hx) as Hl. rewrite encode_records_app, !len_app in *.
  assert (len t <= HEADER_LEN + MAX_PAYLOAD_LEN); [|lia].
  destruct (stored_torn _ _ _ _ _ Hstored) as [-> |(r & n & (_ & _ & Hr) & -> & Hn)]; [rewrite len_nil; lia|].
  rewrite len_take. unfold rec_len in Hn. lia.
Qed.

(** A sealed part [i]: its records, from the sequence it starts at. *)
Lemma sealed_part i rs :
  sealed !! i = Some rs →
  Forall rec_wf rs ∧ (∃ e, counting e rs ∧ (i = 0%nat → e = 1)) ∧ len (encode_records rs) <= u64_max.
Proof.
  intros Hi. destruct stored_split as (Hw & _ & Hc & _).
  rewrite <- (take_drop_middle sealed i rs Hi) in Hw, Hc, Hbytes. rewrite concat_app in Hw, Hc, Hbytes. cbn [concat] in *.
  apply Forall_app in Hw as [_ [? _]%Forall_app]. apply counting_app in Hc as [_ [? _]%counting_app].
  split_and!; [done| |].
  - eexists. split; [done|]. intros ->. done.
  - rewrite !encode_records_app, !len_app in Hbytes. lia.
Qed.

Lemma crash_part p c :
  p <= u64_max → d !! segment_path inc p = Some c →
  (∃ i rs, sealed !! i = Some rs ∧ p = N.of_nat i + 1 ∧ c = encode_records rs)
  ∨ (p = N.of_nat (length sealed) + 1 ∧ len c <= u64_max
     ∧ ∃ j tail, c = encode_records (take j open_) ++ tail ∧ terminal tail).
Proof.
  intros Hp Hc. pose proof (stored_disk _ _ _ _ _ Hstored) as Hd. destruct (proj2 Hcrash _ _ Hc) as (f & Hf & Hlo & Hhi).
  pose proof (sa_only _ _ _ _ Hd p Hp ltac:(by rewrite Hf)) as Hr.
  destruct (decide (p = N.of_nat (length sealed) + 1)) as [->|Hne].
  - right. rewrite (sa_open _ _ _ _ Hd) in Hf. injection Hf as <-. split_and!; [done|by apply open_len|].
    destruct stored_split as (_ & Hwo & _). destruct (torn_recovers open_ t c Hwo (stored_torn _ _ _ _ _ Hstored) Hhi)
      as (j & tail & -> & Ht & _). by exists j, tail.
  - left. destruct (lookup_lt_is_Some_2 sealed (N.to_nat (p - 1))) as [rs Hl]; [lia|]. exists (N.to_nat (p - 1)), rs.
    split_and!; [done|lia|]. pose proof (crash_sealed _ _ _ _ _ _ _ Hd Hcrash Hl) as Hs.
    replace (N.of_nat (N.to_nat (p - 1)) + 1) with p in Hs by lia. congruence.
Qed.

(** The manifest lists the parts of older incarnations and some of the first
    parts of this one, each of them whole. *)
Lemma crash_manifest :
  ¬ torn_manifest d →
  ∃ parts, manifest_is d (ls ++ sealed_lines inc 1 parts) ∧ parts `prefix_of` sealed ++ [open_]
    ∧ ∀ i rs, parts !! i = Some rs → d !! segment_path inc (N.of_nat i + 1) = Some (encode_records rs).
Proof.
  intros Hnt. pose proof (stored_disk _ _ _ _ _ Hstored) as Hdisk. destruct Hlisted as [[Hks Hke] Hwf Hfrom Hto Hopen].
  set (c := default [] (d !! MANIFEST_FILE_NAME)).
  assert (c `prefix_of` manifest_bytes st) as Hhi.
  { unfold c. destruct (d !! MANIFEST_FILE_NAME) as [x|] eqn:E; [|apply prefix_nil].
    destruct (proj2 Hcrash _ _ E) as (f & Hf & _ & Hp). unfold manifest_bytes. by rewrite Hf. }
  assert (manifest_text ls `prefix_of` c) as Hlo.
  { destruct (decide (ls = [])) as [->|Hne]; [apply prefix_nil|]. etrans; [exact Hks|].
    destruct (st_synced st !! MANIFEST_FILE_NAME) as [x|] eqn:E; [|apply prefix_nil].
    destruct (sa_synced _ _ _ _ Hdisk _ _ E) as (f & Hf & _).
    destruct (proj1 Hcrash _ (Hke Hne)) as [y Hy]; [by rewrite Hf|].
    destruct (proj2 Hcrash _ _ Hy) as (f' & Hf' & Hp & _). rewrite E in Hp. unfold c. by rewrite Hy. }
  assert (∃ all, Forall line_wf (ls ++ sealed_lines inc 1 all) ∧ c `prefix_of` manifest_text (ls ++ sealed_lines inc 1 all)
    ∧ all `prefix_of` sealed ++ [open_]
    ∧ ∀ i rs, all !! i = Some rs → d !! segment_path inc (N.of_nat i + 1) = Some (encode_records rs))
    as (all & Hwfa & Hca & Hall & Hfiles).
  { assert (∀ i rs, sealed !! i = Some rs → d !! segment_path inc (N.of_nat i + 1) = Some (encode_records rs)) as Hse.
    { intros i rs. exact (crash_sealed inc st sealed _ d i rs Hdisk Hcrash). }
    destruct Hopen as [Heq|(Hne & Ht & (Hentry & s & Hs & Hp) & Hwfo)].
    - exists sealed. split_and!; [done|by rewrite <- Heq|by eexists|done].
    - exists (sealed ++ [open_]). split_and!; [done|by etrans|done|].
      intros i rs [[_ Hl]|[-> <-]]%lookup_snoc_Some; [by apply Hse|].
      destruct (proj1 Hcrash _ Hentry) as [x Hx]; [unfold open_path; by rewrite (sa_open _ _ _ _ Hdisk)|].
      destruct (proj2 Hcrash _ _ Hx) as (f & Hf & Hlo' & Hhi'). unfold open_path in *. rewrite Hs in Hlo'.
      rewrite (sa_open _ _ _ _ Hdisk), Ht, app_nil_r in Hf. injection Hf as <-. rewrite Hx. f_equal.
      apply (anti_symm prefix); [done|by etrans]. }
  destruct (manifest_cut _ _ Hca) as [k [Hk|(l & n & Hl & Hn & Hk)]].
  - rewrite Hk in Hlo. pose proof (manifest_kept_lines _ _ _ Hlo) as Hlines. rewrite take_sealed_lines in Hlines.
    exists (take (k - length ls) all). split_and!.
    + split; [by rewrite <- Hlines|]. rewrite <- Hlines. by apply Forall_take.
    + etrans; [apply prefix_take|done].
    + intros i rs [Hi _]%lookup_take_Some. by apply Hfiles.
  - exfalso. apply Hnt. exists (take k (ls ++ sealed_lines inc 1 all)), l, n. split_and!; [by apply Forall_take| |lia|lia|].
    + rewrite Forall_forall in Hwfa. apply Hwfa. by eapply list_elem_of_lookup_2.
    + unfold c in Hk. destruct (d !! MANIFEST_FILE_NAME) as [x|]; cbn in Hk; [by rewrite Hk|].
      exfalso. apply (f_equal length) in Hk. rewrite length_app, length_take in Hk. cbn in Hk. lia.
Qed.

Lemma parts_prefix parts i rs :
  parts `prefix_of` sealed ++ [open_] → parts !! i = Some rs →
  Forall rec_wf rs ∧ (∃ e, counting e rs ∧ (i = 0%nat → e = 1)) ∧ len (encode_records rs) <= u64_max.
Proof.
  intros Hp Hi. eapply prefix_lookup_Some in Hp; [|exact Hi]. apply lookup_snoc_Some in Hp as [[_ Hl]|[-> <-]].
  - by apply sealed_part.
  - destruct stored_split as (_ & Hw & _ & Hc). split_and!; [done| |apply open_len; by eexists].
    eexists. split; [exact Hc|]. by destruct sealed.
Qed.

(** The manifest tells the truth. *)
Lemma crash_sound parts :
  manifest_is d (ls ++ sealed_lines inc 1 parts) → parts `prefix_of` sealed ++ [open_] →
  (∀ i rs, parts !! i = Some rs → d !! segment_path inc (N.of_nat i + 1) = Some (encode_records rs)) →
  sound (ls ++ sealed_lines inc 1 parts) d.
Proof.
  intros Hm Hp Hfiles. pose proof (rd_opened _ _ _ _ Hready) as [Hh _ _ _ Hinc Ht Hk Hold].
  pose proof (he_sound _ _ Hh) as Hs. split; [|done| |].
  - eapply crash_canonical; [|exact Hcrash]. apply (sa_canonical _ _ _ _ (stored_disk _ _ _ _ _ Hstored)).
  - rewrite keys_app. apply NoDup_app. split_and!; [apply Hs| |apply keys_sealed_nodup].
    intros [i p] Hin [-> _]%keys_sealed. apply Hk in Hin. lia.
  - rewrite tombs_sealed. intros e [Hin|Hin]%elem_of_app Hr.
    + destruct (so_sealed _ _ Hs e Hin Hr) as (c & Hc & He). exists c. split; [|done].
      pose proof (Hk _ _ (elem_of_keys _ _ Hin)).
      pose proof (proj2 (so_manifest _ _ Hs)) as Hwf. rewrite Forall_forall in Hwf.
      destruct (Hwf _ Hin) as (? & ? & _). rewrite crash_old by (done || lia). done.
    + destruct (elem_of_sealed_lines _ _ _ _ Hin) as (i & rs & Hi & [= ->]). cbn [me_incarnation me_part me_bytes me_crc32 entry_of].
      exists (encode_records rs). destruct (parts_prefix parts i rs Hp Hi) as (Hw & (e0 & Hc & _) & Hl).
      split_and!; [|done|done|by eapply clean_part]. replace (1 + N.of_nat i) with (N.of_nat i + 1) by lia. by apply Hfiles.
Qed.

(** Unless it cut a manifest line or the first record of a part, the crash
    left a journal [open] repairs. *)
Lemma crash_healthy :
  ¬ torn_manifest d → ¬ torn_first inc d →
  ∃ ls', healthy ls' d ∧ incarnations_below (b + 1) ls' d.
Proof.
  intros Hnm Hnf. destruct (crash_manifest Hnm) as (parts & Hm & Hp & Hfiles).
  pose proof (crash_sound parts Hm Hp Hfiles) as Hs.
  pose proof (rd_opened _ _ _ _ Hready) as [Hh _ _ _ Hinc Ht Hk Hold].
  exists (ls ++ sealed_lines inc 1 parts). split; [split; [done|]|split].
  - intros i p c Hi Hq Hc _. pose proof (crash_top i p Hi Hq ltac:(by rewrite Hc)) as Hle.
    rewrite keys_app, tombs_sealed. destruct (decide (i = inc)) as [->|Hne].
    + destruct (crash_part p c Hq Hc) as [(k & rs & Hl & -> & ->)|(-> & Hlen & j & tail & -> & Htail)].
      * destruct (sealed_part k rs Hl) as (Hw & (e & Hce & He) & Hlen). split; [right; left; by eapply clean_part|].
        intros _. rewrite <- (app_nil_r (encode_records rs)). eapply starts_part; [done|exact Hce|done|].
        intros Hone. apply He. lia.
      * destruct stored_split as (_ & Hwo & _ & Hco).
        assert (counting (1 + len (concat sealed)) (take j open_)) as Hcj.
        { rewrite <- (take_drop j open_) in Hco. by apply counting_app in Hco as [? _]. }
        assert (Forall rec_wf (take j open_)) as Hwj by by apply Forall_take.
        split.
        -- destruct (cut_part _ _ _ Hwj Hcj Htail Hlen) as [?|[?|Hcut]]; [by right; left|right; right|].
           ++ split; [|done]. intros i q Hi' Hq' Hsome _. pose proof (crash_top i q Hi' Hq' Hsome) as Hle'.
              destruct (decide (i = inc)) as [->|]; [right|left; cbn; lia]. split; [done|]. cbn.
              destruct Hsome as [x Hx]. destruct (proj2 Hcrash _ _ Hx) as (f & Hf & _).
              apply (sa_only _ _ _ _ (stored_disk _ _ _ _ _ Hstored)); [done|by rewrite Hf].
           ++ exfalso. apply Hnf. do 2 eexists. split_and!; [exact Hq|exact Hc|exact Hcut].
        -- intros _. destruct Htail as [Htl|Htl]; (eapply starts_part; [done|exact Hcj|exact Htl|]);
             intros Hone; (destruct sealed; [done|cbn in Hone; lia]).
    + assert (i < inc) as Hlt by lia. rewrite crash_old in Hc by done.
      destruct (Hold i p Hi Hq ltac:(by rewrite Hc)) as [[? _]|(_ & _ & Hkey)]; [done|]. split.
      * left. apply elem_of_app. by left.
      * intros Hnew. exfalso. pose proof crash_inc as Hib.
        assert (inc ∉ tombs ls) as Hni by (intros Hin; apply Ht in Hin; lia).
        pose proof (Hnew inc 1 Hib ltac:(by vm_compute) crash_first Hni) as Hpl. unfold pair_le in Hpl. cbn in Hpl. lia.
  - intros i p Hi Hq Hsome. pose proof (crash_top i p Hi Hq Hsome). lia.
  - intros i Hin. rewrite tombs_sealed in Hin. apply Ht in Hin. lia.
Qed.
End Crashed.

(** ** From one start to the next *)

Lemma encode_prefix a c : a `prefix_of` c → len (encode_records a) <= len (encode_records c).
Proof. intros [x ->]. rewrite encode_records_app, len_app. lia. Qed.

(** C3: A journal survives its crashes, but for two that are named.  Started
    on a healthy directory, [open] succeeds; the appender then runs over a
    device whose operations may fail, and crashes at any moment.  The directory
    it leaves holds a prefix of the records received with all that were
    acknowledged as durable, and every older incarnation untouched.  Unless the
    crash cut a manifest line or the first record of a part, the directory is
    healthy again, so that the next daemon can start on it. *)
Theorem crash_and_restart ls d b limit interval faults ms :
  healthy ls d → incarnations_below b ls d → 0 < b < u64_max → limit <= u64_max →
  Forall rec_wf (records_in ms) → len (records_in ms) + 2 <= u64_max →
  len (encode_records (records_in ms)) + HEADER_LEN + MAX_PAYLOAD_LEN <= u64_max →
  ∃ ops o, open d = (ops, Ok o) ∧
  let inc := oj_incarnation o in
  let start := (start_appender (first_writer inc limit), mk_world (run_ops ops (booted d)) faults, []) in
  let s := foldl (turn interval) start ms in
  ∀ s' d', s' = s ∨ s' = finish s → crash (w_store s'.1.2) d' →
    (∃ m, m <= len (records_in ms) ∧ recovered inc d' (take (N.to_nat m) (records_in ms))
      ∧ ∀ n, Durable n ∈ s'.2 → n <= m)
    ∧ (∀ i p, i <= u64_max → p <= u64_max → i ≠ inc → d' !! segment_path i p = exec d ops !! segment_path i p)
    ∧ (¬ torn_manifest d' → ¬ torn_first inc d' → ∃ ls', healthy ls' d' ∧ incarnations_below (b + 1) ls' d').
Proof.
  intros Hh Hb Hb0 Hlim Hwf Hmax Hbytes.
  destruct (boot_ready ls d b Hh Hb Hb0) as (ops & o & ls' & Hopen & Hready & _).
  exists ops, o. split; [done|]. intros inc start s. pose proof (rd_fresh _ _ _ _ Hready) as Hfresh.
  assert (fresh inc ls' (w_store start.1.2)) as Hf by done.
  assert (appender_ok limit inc ls' (records_in ms) s) as Hok.
  { apply (turns_ok limit inc ls' interval ms []); [by apply start_ok|done|rewrite len_nil; lia]. }
  destruct (start_at_home inc ls' (mk_world (run_ops ops (booted d)) faults) limit Hf) as (Hinc & Hown & Htop).
  assert (∀ s', s' = s ∨ s' = finish s → accepted inc ls' (records_in ms) s'
    ∧ apart inc (run_ops ops (booted d)) (w_store s'.1.2)) as Hall.
  { pose proof (turns_apart inc interval ms start) as Ha. destruct (Ha Hown) as [Hown' Hap].
    intros s' [-> | ->]; (split; [|]); [by eapply appender_ok_accepted|exact Hap|by eapply finish_accepted|].
    eapply apart_trans; [exact Hap|]. by apply finish_apart. }
  intros s' d' Hs' Hcrash. destruct (Hall s' Hs') as [Hacc Hap].
  pose proof (accepted_crash_safe inc ls' _ s' Hacc d' Hcrash) as Hsafe. split; [exact Hsafe|].
  assert (crashed_to (w_store s'.1.2) d') as Hto.
  { destruct Hacc as (_ & se & op & t & Hst & _). apply crash_settled; [|done].
    apply (sa_settled _ _ _ _ (stored_disk _ _ _ _ _ Hst)). }
  split.
  - intros i p Hi Hp Hne.
    rewrite (crash_old b inc ls' (run_ops ops (booted d)) (w_store s'.1.2) d' Hready Hap Hto i p Hi Hp Hne).
    by rewrite run_ops_files.
  - destruct Hacc as (_ & se & op & t & Hst & Hl & Hpre & _). pose proof (encode_prefix _ _ Hpre).
    eapply (crash_healthy b inc ls' (run_ops ops (booted d)) (w_store s'.1.2) se op t d'); try done; [|lia].
    by eapply topmost_apart.
Qed.
End Restart.

(** ** A manifest line that was cut *)

Section Blocked.
Context `{Crc32Fast, ManifestSerde, !ManifestSerdeLaws}.

Lemma json_pieces_cut ls p :
  forallb (in_byte_range x20 x7e) p = true → split_on x0a (manifest_text ls ++ p) = map json_to_vec ls ++ [p].
Proof.
  intros Hp. induction ls as [|l ls IH].
  - cbn [manifest_text map concat app]. induction p as [|b p IHp]; [done|]. cbn [forallb split_on] in *.
    apply andb_true_iff in Hp as [Hb Hp]. destruct (b =b x0a) eqn:E; [apply byte_eqb_eq in E; subst; by vm_compute in Hb|].
    by rewrite IHp.
  - change (l :: ls) with ([l] ++ ls). rewrite manifest_text_app, manifest_text_one, <- !app_assoc. cbn [app].
    rewrite split_on_app by (eapply printable_no; [apply json_printable|done]). by rewrite IH.
Qed.

Lemma lines_cut ls p :
  forallb (in_byte_range x20 x7e) p = true → p ≠ [] → lines (manifest_text ls ++ p) = map json_to_vec ls ++ [p].
Proof.
  intros Hp Hne. unfold lines. rewrite json_pieces_cut, removelast_last, last_last by done.
  destruct (N.eqb_spec (len p) 0) as [Hz%len_0|_]; [done|]. f_equal.
  clear p Hp Hne. induction ls as [|l ls IH]; [done|]. cbn [map]. rewrite IH. by rewrite strip_cr_printable by apply json_printable.
Qed.

(** C23: A cut manifest line keeps the journal closed for ever.  When the last
    line of the manifest is the beginning of one that does not parse, [open]
    answers [InvalidData] and changes nothing, so that it answers the same
    ever after. *)
Theorem torn_manifest_blocks_open d ls l n (p := take n (json_to_vec l)) :
  Forall line_wf ls → blank p = false → json_from_str p = None →
  d !! MANIFEST_FILE_NAME = Some (manifest_text ls ++ p) →
  open d = ([], Err InvalidData) ∧ exec d (open d).1 = d.
Proof.
  intros Hwf Hb Hp Hd. assert (open d = ([], Err InvalidData)) as Hopen; [|by rewrite Hopen].
  assert (forallb (in_byte_range x20 x7e) p = true) as Hpr.
  { pose proof (json_printable l) as Hj. rewrite <- (take_drop n (json_to_vec l)), forallb_app in Hj.
    by apply andb_true_iff in Hj as [? _]. }
  assert (p ≠ []) as Hne by (intros ->; by vm_compute in Hb).
  assert (read_manifest_lines d = Err InvalidData) as Hread.
  { unfold read_manifest_lines. rewrite Hd. replace (utf8_valid (manifest_text ls ++ p)) with true.
    2:{ symmetry. apply utf8_valid_ascii. by rewrite forallb_app, manifest_text_ascii, printable_ascii. }
    rewrite lines_cut by done. rewrite list_filter_all.
    2:{ intros x Hx. apply elem_of_app in Hx as [Hx|Hx%list_elem_of_singleton].
        - change (map json_to_vec ls) with (json_to_vec <$> ls) in Hx.
          apply list_elem_of_fmap in Hx as (l' & -> & _). by rewrite json_line_not_blank.
        - by rewrite Hx, Hb. }
    clear Hd. induction Hwf as [|l' ls Hl' _ IH]; cbn [map app parse_lines]; [by rewrite Hp|].
    rewrite json_roundtrip by done. cbn [ok_or mbind result_bind]. by rewrite IH. }
  unfold open, retired_incarnations, reads, mbind, disk_bind. by rewrite Hread.
Qed.
End Blocked.

(** ** Witnesses *)

#[local] Existing Instance csv_serde.
#[local] Existing Instance csv_laws.

(** The journal a crash left, opened again; the device fails in the middle of
    the line that seals the first part. *)
Definition cutting : list Fault := [None; None; None; Some (5, Other)].

Definition two_records : list Received :=
  [GotRecord 3 (sample_event 1 (bs "first")); GotRecord 5 (sample_event 2 (bs "second"))].

Definition cut_run (faults : list Fault) : Step :=
  foldl (turn 50)
    (start_appender (first_writer 2 60), mk_world (run_ops (open crashed).1 (booted crashed)) faults, []) two_records.

Lemma crash_and_restart_witness :
  ∃ o, (open crashed).2 = Ok o ∧ oj_incarnation o = 2
    ∧ ∀ d', crash (w_store (cut_run []).1.2) d' → ¬ torn_manifest d' → ¬ torn_first 2 d' →
      ∃ ls', healthy ls' d' ∧ incarnations_below 3 ls' d'.
Proof.
  destruct (crash_and_restart [] crashed 2 60 50 [] two_records) as (ops & o & Hopen & Hrun).
  - apply crashed_healthy.
  - apply crashed_below.
  - by vm_compute.
  - by vm_compute.
  - by repeat (constructor; [split_and!; by vm_compute|]).
  - by vm_compute.
  - by vm_compute.
  - assert (match (open crashed).2 with Ok o => oj_incarnation o =? 2 | Err _ => false end = true) as Hinc by by vm_compute.
    unfold cut_run. rewrite Hopen in Hinc |- *. cbn [fst snd] in *. apply N.eqb_eq in Hinc. rewrite Hinc in Hrun.
    exists o. split_and!; [done|done|]. intros d' Hc. apply (Hrun _ d' (or_introl eq_refl) Hc).
Defined.

Lemma torn_manifest_blocks_open_witness :
  let d' := st_files (w_store (cut_run cutting).1.2) in
  is_Some (ap_dead (cut_run cutting).1.1) ∧ open d' = ([], Err InvalidData).
Proof.
  split; [vm_compute; by eexists|].
  apply (torn_manifest_blocks_open _ [Sealed (mk_entry 1 1 1 2 78 3411218859)] (Sealed (mk_entry 2 1 1 1 41 0)) 5).
  - constructor; [|done]. by repeat (split; [by vm_compute|]).
  - by vm_compute.
  - by vm_compute.
  - by vm_compute.
Defined.
