(* ===== verification/Journal.v ===== *)
(** * The session journal

    [ShadowJournal] of [src/src/session/journal/shadow.rs] and the queue of
    [JournalAppender] ([appender.rs]): a producer that sequences, caches and
    submits events, the appender thread behind a queue bounded in messages and
    in bytes, and the acknowledgements that travel back.  The two threads
    interleave freely, the device fails where it likes and the appender thread
    may vanish.  The theorems say that the events published so far are at
    every moment the journal on disk followed by the cache, that a journal
    that calls itself fully durable survives every crash whole, that both
    queue bounds hold, that a degraded journal refuses everything, and that a
    journal left alone catches up. *)

From S2P Require Import Prelude Crc Text RecordFormat SegmentScan Disk Manifest Open Retention.
From S2P Require Import Sequencer Stream Appender.

Definition DEFAULT_QUEUE_CAPACITY : N := 256.
Definition DEFAULT_QUEUE_BUDGET_BYTES : N := 32 * 1024 * 1024.
(** In milliseconds. *)
Definition DEFAULT_QUEUE_STALL_TIMEOUT : N := 2000.
Definition DEFAULT_SYNC_INTERVAL : N := 50.

Inductive AppenderMsg :=
  | MsgRecord (event : OrderedEvent)
  | MsgSync.

(** [InvalidEvent] carries the key its message shows. *)
Inductive JournalSubmitError :=
  | QueueFull
  | QueueBudgetExhausted
  | AppenderDead
  | InvalidEvent (key : bytes)
  | PersistenceDegraded.

(** [Display], as far as a reason to degrade is made of it. *)
Definition submit_error_text (e : JournalSubmitError) : bytes :=
  match e with
  | QueueFull => bs "journal queue is full"
  | QueueBudgetExhausted => bs "journal queue byte budget exhausted"
  | AppenderDead => bs "journal appender is dead"
  | PersistenceDegraded => bs "journal persistence is degraded"
  | InvalidEvent key => bs "invalid journal event: invalid policy key/value: " ++ key
  end.

Inductive TrySendError := Full | Disconnected.

Section Journal.
Context `{Crc32Fast, ManifestSerde}.

(** The producer's handle and what it shares with the appender thread.
    [sj_waiting] is the event a producer inside [try_submit] is waiting to
    queue, [sj_in_flight] the message the appender has taken and not yet
    handled, [sj_step] the appender's locals, device and every
    acknowledgement it has sent, of which the producer has received the first
    [sj_polled]; [sj_tx] and [sj_rx] say that either end of the queue is
    alive. *)
Record ShadowJournal := mk_journal {
  sj_core : SequencerCore;
  sj_queue : list AppenderMsg;
  sj_queued_bytes : N;
  sj_queue_budget_bytes : N;
  sj_stall_timeout : N;
  sj_waiting : option OrderedEvent;
  sj_polled : nat;
  sj_in_flight : option AppenderMsg;
  sj_step : Step;
  sj_tx : bool;
  sj_rx : bool;
}.

Definition with_core (f : SequencerCore → SequencerCore) (j : ShadowJournal) : ShadowJournal :=
  mk_journal (f (sj_core j)) (sj_queue j) (sj_queued_bytes j) (sj_queue_budget_bytes j)
    (sj_stall_timeout j) (sj_waiting j) (sj_polled j) (sj_in_flight j) (sj_step j) (sj_tx j) (sj_rx j).
Definition with_queue (q : list AppenderMsg) (j : ShadowJournal) : ShadowJournal :=
  mk_journal (sj_core j) q (sj_queued_bytes j) (sj_queue_budget_bytes j)
    (sj_stall_timeout j) (sj_waiting j) (sj_polled j) (sj_in_flight j) (sj_step j) (sj_tx j) (sj_rx j).
Definition with_queued_bytes (n : N) (j : ShadowJournal) : ShadowJournal :=
  mk_journal (sj_core j) (sj_queue j) n (sj_queue_budget_bytes j)
    (sj_stall_timeout j) (sj_waiting j) (sj_polled j) (sj_in_flight j) (sj_step j) (sj_tx j) (sj_rx j).
Definition with_waiting (w : option OrderedEvent) (j : ShadowJournal) : ShadowJournal :=
  mk_journal (sj_core j) (sj_queue j) (sj_queued_bytes j) (sj_queue_budget_bytes j)
    (sj_stall_timeout j) w (sj_polled j) (sj_in_flight j) (sj_step j) (sj_tx j) (sj_rx j).
Definition with_polled (n : nat) (j : ShadowJournal) : ShadowJournal :=
  mk_journal (sj_core j) (sj_queue j) (sj_queued_bytes j) (sj_queue_budget_bytes j)
    (sj_stall_timeout j) (sj_waiting j) n (sj_in_flight j) (sj_step j) (sj_tx j) (sj_rx j).
Definition with_in_flight (m : option AppenderMsg) (j : ShadowJournal) : ShadowJournal :=
  mk_journal (sj_core j) (sj_queue j) (sj_queued_bytes j) (sj_queue_budget_bytes j)
    (sj_stall_timeout j) (sj_waiting j) (sj_polled j) m (sj_step j) (sj_tx j) (sj_rx j).
Definition with_step (f : Step → Step) (j : ShadowJournal) : ShadowJournal :=
  mk_journal (sj_core j) (sj_queue j) (sj_queued_bytes j) (sj_queue_budget_bytes j)
    (sj_stall_timeout j) (sj_waiting j) (sj_polled j) (sj_in_flight j) (f (sj_step j)) (sj_tx j) (sj_rx j).
Definition hang_up_tx (j : ShadowJournal) : ShadowJournal :=
  mk_journal (sj_core j) (sj_queue j) (sj_queued_bytes j) (sj_queue_budget_bytes j)
    (sj_stall_timeout j) (sj_waiting j) (sj_polled j) (sj_in_flight j) (sj_step j) false (sj_rx j).
Definition hang_up_rx (j : ShadowJournal) : ShadowJournal :=
  mk_journal (sj_core j) (sj_queue j) (sj_queued_bytes j) (sj_queue_budget_bytes j)
    (sj_stall_timeout j) (sj_waiting j) (sj_polled j) (sj_in_flight j) (sj_step j) (sj_tx j) false.

(** What [spawn_with_options] and [open_with_options] build over an opened
    incarnation. *)
Definition open_with_options (incarnation max_part_bytes now : N) (w : World) : ShadowJournal :=
  {| sj_core := new_core incarnation now; sj_queue := []; sj_queued_bytes := 0;
     sj_queue_budget_bytes := DEFAULT_QUEUE_BUDGET_BYTES;
     sj_stall_timeout := DEFAULT_QUEUE_STALL_TIMEOUT; sj_waiting := None; sj_polled := 0;
     sj_in_flight := None;
     sj_step := (start_appender (first_writer incarnation max_part_bytes), w, []);
     sj_tx := true; sj_rx := true |}.

(** ** The producer *)

Definition apply_ack (c : SequencerCore) (ack : JournalAck) : SequencerCore :=
  match ack with
  | Journaled seq => note_journaled seq c
  | Durable seq => note_durable seq c
  | AckFailed reason => degrade reason c
  end.

Definition poll_acks (j : ShadowJournal) : ShadowJournal :=
  let acks := (sj_step j).2 in
  with_polled (length acks)
    (with_core (λ c, foldl apply_ack c (drop (sj_polled j) acks)) j).

(** [SyncSender::try_send]. *)
Definition try_send (msg : AppenderMsg) (j : ShadowJournal) : result TrySendError ShadowJournal :=
  if negb (sj_rx j) then Err Disconnected
  else if DEFAULT_QUEUE_CAPACITY <=? len (sj_queue j) then Err Full
  else Ok (with_queue (sj_queue j ++ [msg]) j).

(** How far [try_submit] has come. *)
Inductive Submission :=
  | Submitted (r : result JournalSubmitError unit)
  | Waiting.

Definition uncharge (event : OrderedEvent) (j : ShadowJournal) : ShadowJournal :=
  with_queued_bytes (sj_queued_bytes j - len (ev_payload event)) j.

(** [try_submit] up to the end of its fast path.  The appender only lowers
    [queued_bytes] and shortens the queue, so one step for the charge and the
    first attempt shows every outcome an interleaving of them has. *)
Definition try_submit (event : OrderedEvent) (j : ShadowJournal) : ShadowJournal * Submission :=
  let n := len (ev_payload event) in
  let queued := sj_queued_bytes j in
  let j := with_queued_bytes (queued + n) j in
  if sj_queue_budget_bytes j <? queued + n
  then (uncharge event j, Submitted (Err QueueBudgetExhausted))
  else match try_send (MsgRecord event) j with
       | Ok j => (j, Submitted (Ok ()))
       | Err Disconnected => (uncharge event j, Submitted (Err AppenderDead))
       | Err Full => (j, Waiting)
       end.

(** One turn of the slow path's loop, [elapsed] after it began. *)
Definition retry_submit (elapsed : N) (event : OrderedEvent) (j : ShadowJournal)
    : ShadowJournal * Submission :=
  match try_send (MsgRecord event) j with
  | Ok j => (j, Submitted (Ok ()))
  | Err Disconnected => (uncharge event j, Submitted (Err AppenderDead))
  | Err Full =>
      if sj_stall_timeout j <=? elapsed
      then (uncharge event j, Submitted (Err QueueFull))
      else (j, Waiting)
  end.

(** What [record] does with the outcome; [None] while it waits. *)
Definition submitted (event : OrderedEvent) (js : ShadowJournal * Submission)
    : ShadowJournal * option (result JournalSubmitError JournalCursor) :=
  match js with
  | (j, Submitted (Ok _)) => (with_waiting None j, Some (Ok (ev_cursor event)))
  | (j, Submitted (Err e)) =>
      (with_waiting None (with_core (degrade (submit_error_text e)) j), Some (Err e))
  | (j, Waiting) => (with_waiting (Some event) j, None)
  end.

Definition record (now : N) (kind : RecordKind) (payload : bytes) (j : ShadowJournal)
    : ShadowJournal * option (result JournalSubmitError JournalCursor) :=
  let j := poll_acks j in
  if is_degraded (sj_core j) then (j, Some (Err PersistenceDegraded))
  else
    let '(event, core) := publish now kind payload (sj_core j) in
    submitted event (try_submit event (with_core (λ _, core) j)).

(** The waiting producer's next attempt. *)
Definition record_retry (elapsed : N) (j : ShadowJournal)
    : ShadowJournal * option (result JournalSubmitError JournalCursor) :=
  match sj_waiting j with
  | Some event => submitted event (retry_submit elapsed event j)
  | None => (j, None)
  end.

Definition record_output (now : N) (payload : bytes) := record now Output payload.
Definition record_resize (now rows cols : N) := record now Resize (encode_resize_payload rows cols).
Definition record_checkpoint (now : N) (checkpoint : Checkpoint) :=
  record now CheckpointRef (encode_checkpoint checkpoint).
Definition record_lifecycle (now : N) (code : LifecycleCode) (exit_code : option Z) (detail : bytes) :=
  record now Lifecycle (encode_lifecycle_payload code exit_code detail).

Definition policy_refused (key value : bytes) : bool :=
  match key with [] => true | _ => false end
  || existsb (λ b, Byte.eqb b "="%byte || Byte.eqb b x0a) key
  || existsb (λ b, Byte.eqb b x0a) value.

Definition record_policy (now : N) (key value : bytes) (j : ShadowJournal)
    : ShadowJournal * option (result JournalSubmitError JournalCursor) :=
  if policy_refused key value then (j, Some (Err (InvalidEvent key)))
  else record now Policy (policy_payload key value) j.

(** A full queue, or a dead appender, drops the request. *)
Definition request_sync (j : ShadowJournal) : ShadowJournal :=
  match try_send MsgSync j with Ok j => j | Err _ => j end.

(** ** The appender thread *)

(** Take the next message: a slot is free again. *)
Definition dequeue (j : ShadowJournal) : option ShadowJournal :=
  match sj_rx j, sj_in_flight j, sj_queue j with
  | true, None, msg :: rest => Some (with_in_flight (Some msg) (with_queue rest j))
  | _, _, _ => None
  end.

(** Handle it. *)
Definition handle (now sync_interval : N) (j : ShadowJournal) : option ShadowJournal :=
  match sj_rx j, sj_in_flight j with
  | true, Some (MsgRecord event) =>
      Some (with_in_flight None (with_step (λ s, turn sync_interval s (GotRecord now event))
        (uncharge event j)))
  | true, Some MsgSync =>
      Some (with_in_flight None (with_step (λ s, turn sync_interval s GotSync) j))
  | _, _ => None
  end.

(** The receive timed out. *)
Definition timed_out (sync_interval : N) (j : ShadowJournal) : option ShadowJournal :=
  match sj_rx j, sj_in_flight j with
  | true, None => Some (with_step (λ s, turn sync_interval s GotTimeout) j)
  | _, _ => None
  end.

(** The queue is disconnected and empty: the final barrier. *)
Definition leave (j : ShadowJournal) : option ShadowJournal :=
  match sj_tx j, sj_rx j, sj_in_flight j, sj_queue j with
  | false, true, None, [] => Some (hang_up_rx (with_step finish j))
  | _, _, _, _ => None
  end.

(** ** The interleaving of the two threads *)

(** The event a call of [record] publishes, if it gets that far. *)
Definition published_by (now : N) (kind : RecordKind) (payload : bytes) (j : ShadowJournal)
    : list OrderedEvent :=
  let core := sj_core (poll_acks j) in
  if is_degraded core then [] else [(publish now kind payload core).1].

(** One step of either thread, with the events it publishes. *)
Inductive jstep (sync_interval : N) : ShadowJournal → list OrderedEvent → ShadowJournal → Prop :=
  | step_record now kind payload j j' r :
      sj_tx j = true → sj_waiting j = None → record now kind payload j = (j', r) →
      jstep sync_interval j (published_by now kind payload j) j'
  | step_retry elapsed j j' r :
      record_retry elapsed j = (j', r) → jstep sync_interval j [] j'
  | step_poll j :
      sj_tx j = true → sj_waiting j = None → jstep sync_interval j [] (poll_acks j)
  | step_sync j :
      sj_tx j = true → sj_waiting j = None → jstep sync_interval j [] (request_sync j)
  | step_dequeue j j' : dequeue j = Some j' → jstep sync_interval j [] j'
  | step_handle now j j' : handle now sync_interval j = Some j' → jstep sync_interval j [] j'
  | step_timed_out j j' : timed_out sync_interval j = Some j' → jstep sync_interval j [] j'
  | step_leave j j' : leave j = Some j' → jstep sync_interval j [] j'
  | step_drop j : sj_waiting j = None → jstep sync_interval j [] (hang_up_tx j)
  | step_panic j : jstep sync_interval j [] (hang_up_rx j).

(** A run, with everything it publishes. *)
Inductive jrun (sync_interval : N) (j : ShadowJournal) : list OrderedEvent → ShadowJournal → Prop :=
  | run_here : jrun sync_interval j [] j
  | run_step published j1 events j2 :
      jrun sync_interval j published j1 → jstep sync_interval j1 events j2 →
      jrun sync_interval j (published ++ events) j2.
End Journal.

(** ** The invariant *)

Definition msg_events (msg : AppenderMsg) : list OrderedEvent :=
  match msg with MsgRecord event => [event] | MsgSync => [] end.

Section Invariant.
Context `{Crc32Fast, !Crc32FastLaws, ManifestSerde, !ManifestSerdeLaws}.
Context (limit inc : N) (ls : list ManifestLine).

(** Submitted and not yet handled, in order; then the one that waits. *)
Definition in_queue (j : ShadowJournal) : list OrderedEvent :=
  from_option msg_events [] (sj_in_flight j) ++ concat (map msg_events (sj_queue j)).
Definition waiting_events (j : ShadowJournal) : list OrderedEvent :=
  from_option (λ e, [e]) [] (sj_waiting j).

(** A core's cursors hold what the polled acknowledgements said. *)
Record cursors_ok (c : SequencerCore) (polled acks : list JournalAck) : Prop := {
  cu_journal : sc_journal_seq c = 0 ∨ Journaled (sc_journal_seq c) ∈ acks;
  cu_durable : sc_durable_seq c = 0 ∨ Durable (sc_durable_seq c) ∈ acks;
  cu_polled : ∀ n, Durable n ∈ polled → n <= sc_durable_seq c;
}.

(** The appender's side, having received [received]; on a device without
    faults ([calm]) it thrives. *)
Definition appending (quiet : Prop) (received : list OrderedEvent) (j : ShadowJournal) : Prop :=
  accepted inc ls (map record_of received) (sj_step j) ∧ at_home inc (sj_step j)
  ∧ (sj_rx j = true → appender_ok limit inc ls (map record_of received) (sj_step j))
  ∧ (quiet → sj_rx j = true → thriving limit inc ls (map record_of received) (sj_step j)).

Record journal_ok (quiet : Prop) (published : list OrderedEvent) (j : ShadowJournal) : Prop := {
  jo_core : core_ok (sj_core j) published;
  jo_log : ∃ received lost, published = received ++ in_queue j ++ waiting_events j ++ lost
    ∧ (lost ≠ [] → is_degraded (sj_core j) = true ∧ sj_waiting j = None)
    ∧ appending quiet received j;
  jo_wf : Forall (λ e, rec_wf (record_of e)) (in_queue j ++ waiting_events j);
  jo_bytes : sj_queued_bytes j = event_bytes (in_queue j ++ waiting_events j);
  jo_budget : sj_queued_bytes j <= sj_queue_budget_bytes j;
  jo_budget_fixed : sj_queue_budget_bytes j <= MAX_PAYLOAD_LEN;
  jo_capacity : len (sj_queue j) <= DEFAULT_QUEUE_CAPACITY;
  jo_cursors : cursors_ok (sj_core j) (take (sj_polled j) (sj_step j).2) (sj_step j).2;
  jo_polled : (sj_polled j <= length (sj_step j).2)%nat;
}.

Lemma journal_ok_open quiet now w :
  fresh inc ls (w_store w) → limit <= u64_max → (quiet → w_faults w = []) →
  journal_ok quiet [] (open_with_options inc limit now w).
Proof.
  intros Hf Hl Hq. pose proof (start_ok _ _ _ _ Hf Hl) as Hs. split; try done.
  - apply core_ok_new.
  - exists [], []. split; [done|]. split; [done|]. split; [by eapply appender_ok_accepted|]. split; [by eapply start_at_home|]. split; [done|].
    intros Hq' _. split; cbn; [done|done|by apply Hq| |done]. by intros r ?%elem_of_nil.
  - split; [by left|by left|]. by intros n ?%elem_of_nil.
Qed.

(** *** Acknowledgements *)

Lemma acks_grow_sync s : s.2 `prefix_of` (do_sync s).2.
Proof.
  destruct s as [[a w] acks]. unfold do_sync.
  destruct (rolling_sync _) as [[r w'] [[]|e]]; by eexists.
Qed.

Lemma acks_grow_turn interval s m : s.2 `prefix_of` (turn interval s m).2.
Proof.
  destruct m as [now event| |]; cbn [turn].
  - destruct s as [[a w] acks]. unfold on_record. destruct (ap_dead a); [by eexists|].
    destruct (negb _); [by eexists|]. destruct (append_record _ _ _ _ _) as [[r w'] [[]|e]]; by eexists.
  - unfold on_sync. destruct (ap_dead _); [by eexists|apply acks_grow_sync].
  - unfold on_timeout. destruct (dirty _); [apply acks_grow_sync|done].
Qed.

Lemma acks_grow_finish s : s.2 `prefix_of` (finish s).2.
Proof.
  unfold finish. set (s1 := if dirty s.1.1 then do_sync s else s).
  assert (s.2 `prefix_of` s1.2) as Hp by (unfold s1; destruct (dirty _); [apply acks_grow_sync|done]).
  clearbody s1. destruct s1 as [[a w] acks]. destruct (ap_dead a); [done|].
  destruct (seal_part _) as [[r w'] [[]|e]]; cbn [fail_with snd] in *; [done|]. by apply prefix_app_r.
Qed.

Lemma cursors_ok_grow c polled acks acks' :
  cursors_ok c polled acks → acks `prefix_of` acks' → cursors_ok c polled acks'.
Proof. intros [Hj Hd Hp] [more ->]. split; [destruct Hj; [by left|right; set_solver]|destruct Hd; [by left|right; set_solver]|done]. Qed.

(** What polling does to a core: the same events, and cursors that have seen
    everything. *)
Lemma apply_acks_ok c published seen todo :
  core_ok c published → cursors_ok c seen (seen ++ todo) →
  let c' := foldl apply_ack c todo in
  core_ok c' published ∧ cursors_ok c' (seen ++ todo) (seen ++ todo)
  ∧ sc_cache c' = sc_cache c ∧ (is_degraded c = true → sc_degraded c' = sc_degraded c)
  ∧ ((∀ r, AckFailed r ∉ todo) → sc_degraded c' = sc_degraded c).
Proof.
  revert c seen. induction todo as [|ack todo IH]; intros c seen Hok Hcu; cbv zeta.
  { rewrite app_nil_r in *. by split_and!. }
  cbn [foldl]. rewrite (cons_middle ack seen todo), app_assoc in Hcu |- *.
  assert (core_ok (apply_ack c ack) published ∧ cursors_ok (apply_ack c ack) (seen ++ [ack]) ((seen ++ [ack]) ++ todo)
    ∧ sc_cache (apply_ack c ack) = sc_cache c
    ∧ (is_degraded c = true → sc_degraded (apply_ack c ack) = sc_degraded c)
    ∧ ((∀ r, AckFailed r ≠ ack) → sc_degraded (apply_ack c ack) = sc_degraded c))
    as (Hok1 & Hcu1 & Hca & Hdg & Hnf).
  { destruct Hcu as [Hj Hd Hp].
    assert (∀ x, x ∈ seen ++ [ack] → x ∈ seen ∨ x = ack) as Hin by set_solver.
    assert (ack ∈ (seen ++ [ack]) ++ todo) as Hack by set_solver.
    destruct ack as [n|n|r]; cbn [apply_ack].
    - split_and!; [by apply core_ok_note_journaled| |done|done|done].
      split; cbn; [|done|].
      + destruct (N.max_spec (sc_journal_seq c) n) as [[_ ->]|[_ ->]]; [by right|done].
      + intros k [Hk|[=]]%Hin. by apply Hp.
    - split_and!; [by apply core_ok_note_durable| |done|done|done].
      split; cbn; [done| |].
      + destruct (N.max_spec (sc_durable_seq c) n) as [[_ ->]|[_ ->]]; [by right|done].
      + intros k [Hk|[= ->]]%Hin; [specialize (Hp k Hk)|]; lia.
    - split_and!; [by apply core_ok_degrade| |done| |].
      + split; cbn; [done|done|]. intros k [Hk|[=]]%Hin. by apply Hp.
      + unfold is_degraded. cbn. by destruct (sc_degraded c).
      + intros Hr. by specialize (Hr r). }
  destruct (IH (apply_ack c ack) (seen ++ [ack]) Hok1 Hcu1) as (Hok2 & Hcu2 & Hca2 & Hdg2 & Hnf2).
  split_and!; [done|done|by rewrite Hca2| |].
  - intros Hd. rewrite Hdg2; [by apply Hdg|]. unfold is_degraded in *. by rewrite (Hdg Hd).
  - intros Hr. rewrite Hnf2, Hnf; [done| |]; intros r Heq; apply (Hr r); [subst; by left|by right].
Qed.

Lemma journal_ok_poll quiet published j : journal_ok quiet published j → journal_ok quiet published (poll_acks j).
Proof.
  intros [Hc (rc & lost & Hp & Hl & Ha) Hw Hb Hbu Hbf Hca Hcu Hpo].
  pose proof (apply_acks_ok (sj_core j) published (take (sj_polled j) (sj_step j).2) (drop (sj_polled j) (sj_step j).2) Hc) as Hap.
  rewrite take_drop in Hap. destruct (Hap Hcu) as (Hc' & Hcu' & _ & Hdg & _).
  split; try done.
  - exists rc, lost. split_and!; try done. intros Hne. destruct (Hl Hne) as [Hd ?]. split; [|done].
    cbn. unfold is_degraded in *. by rewrite (Hdg Hd).
  - cbn [poll_acks with_polled with_core sj_core sj_polled sj_step]. by rewrite firstn_all.
Qed.

(** *** Submitting one event *)

(** An event has been published and its bytes charged; it is not queued. *)
Record charged (quiet : Prop) (published : list OrderedEvent) (e : OrderedEvent) (j : ShadowJournal)
    : Prop := {
  ch_core : core_ok (sj_core j) (published ++ [e]);
  ch_log : ∃ received, published = received ++ in_queue j ∧ appending quiet received j;
  ch_wf : Forall (λ e, rec_wf (record_of e)) (in_queue j);
  ch_event : ev_seq e <= u64_max ∧ ev_elapsed_ms e <= u64_max;
  ch_bytes : sj_queued_bytes j = event_bytes (in_queue j) + len (ev_payload e);
  ch_budget : event_bytes (in_queue j) <= sj_queue_budget_bytes j;
  ch_budget_fixed : sj_queue_budget_bytes j <= MAX_PAYLOAD_LEN;
  ch_capacity : len (sj_queue j) <= DEFAULT_QUEUE_CAPACITY;
  ch_cursors : cursors_ok (sj_core j) (take (sj_polled j) (sj_step j).2) (sj_step j).2;
  ch_polled : (sj_polled j <= length (sj_step j).2)%nat;
}.

Lemma charged_wf quiet published e j :
  charged quiet published e j → sj_queued_bytes j <= sj_queue_budget_bytes j → rec_wf (record_of e).
Proof.
  intros Hch Hle. destruct (ch_event _ _ _ _ Hch). split_and!; [done|done|].
  pose proof (ch_bytes _ _ _ _ Hch). pose proof (ch_budget_fixed _ _ _ _ Hch). cbn. lia.
Qed.

Lemma event_bytes_one e : event_bytes [e] = len (ev_payload e).
Proof. rewrite event_bytes_cons. change (event_bytes []) with 0. lia. Qed.

Lemma charged_queued quiet published e j j' :
  charged quiet published e j → sj_queued_bytes j <= sj_queue_budget_bytes j →
  try_send (MsgRecord e) j = Ok j' → journal_ok quiet (published ++ [e]) (with_waiting None j').
Proof.
  intros Hch Hle. pose proof (charged_wf _ _ _ _ Hch Hle) as Hwf.
  destruct Hch as [Hc (rc & -> & Ha) Hw Hev Hb Hbu Hbf Hca Hcu Hpo]. unfold try_send.
  destruct (negb _); [done|]. destruct (N.leb_spec DEFAULT_QUEUE_CAPACITY (len (sj_queue j))); [done|].
  intros [= <-]. assert (in_queue (with_waiting None (with_queue (sj_queue j ++ [MsgRecord e]) j)) = in_queue j ++ [e]) as Hq.
  { unfold in_queue. cbn. rewrite map_app, concat_app. cbn [map concat msg_events app]. by rewrite app_assoc. }
  split; try done.
  - exists rc, []. rewrite Hq. cbn [waiting_events with_waiting with_queue sj_waiting from_option].
    rewrite !app_nil_r, app_assoc. by split_and!.
  - rewrite Hq. cbn. rewrite app_nil_r. apply Forall_app. split; [done|]. by constructor.
  - rewrite Hq. cbn. rewrite app_nil_r, event_bytes_app, event_bytes_one. done.
  - cbn. rewrite len_app. change (len [MsgRecord e]) with 1. lia.
Qed.

Lemma charged_waiting quiet published e j :
  charged quiet published e j → sj_queued_bytes j <= sj_queue_budget_bytes j →
  journal_ok quiet (published ++ [e]) (with_waiting (Some e) j).
Proof.
  intros Hch Hle. pose proof (charged_wf _ _ _ _ Hch Hle) as Hwf.
  destruct Hch as [Hc (rc & -> & Ha) Hw Hev Hb Hbu Hbf Hca Hcu Hpo]. split; try done.
  - exists rc, []. cbn [waiting_events with_waiting sj_waiting from_option]. rewrite app_nil_r, app_assoc. by split_and!.
  - apply Forall_app. split; [done|]. by constructor.
  - cbn [waiting_events with_waiting sj_waiting from_option]. rewrite event_bytes_app, event_bytes_one. done.
Qed.

(** An event that cannot be queued is where the recording ends. *)
Lemma charged_lost quiet published e j reason :
  charged quiet published e j →
  journal_ok quiet (published ++ [e]) (with_waiting None (with_core (degrade reason) (uncharge e j))).
Proof.
  intros [Hc (rc & -> & Ha) Hw Hev Hb Hbu Hbf Hca Hcu Hpo].
  assert (sj_queued_bytes j - len (ev_payload e) = event_bytes (in_queue j)) as Hsub by lia.
  split; try done.
  - by apply core_ok_degrade.
  - exists rc, [e]. cbn [waiting_events with_waiting sj_waiting from_option app]. rewrite app_assoc.
    split_and!; [done| |done]. intros _. split; [|done]. unfold is_degraded. cbn. by destruct (sc_degraded _).
  - change (Forall (λ e, rec_wf (record_of e)) (in_queue j ++ [])). by rewrite app_nil_r.
  - change (sj_queued_bytes j - len (ev_payload e) = event_bytes (in_queue j ++ [])). by rewrite app_nil_r.
  - cbn [with_waiting with_core uncharge with_queued_bytes sj_queued_bytes sj_queue_budget_bytes]. lia.
  - by destruct Hcu.
Qed.

(** A producer that waits stands between the charge and the queue. *)
Lemma waiting_charged quiet published j e :
  journal_ok quiet published j → sj_waiting j = Some e →
  ∃ before, published = before ++ [e] ∧ charged quiet before e j
    ∧ sj_queued_bytes j <= sj_queue_budget_bytes j.
Proof.
  intros [Hc (rc & lost & -> & Hl & Ha) Hw Hb Hbu Hbf Hca Hcu Hpo] Hwait.
  unfold waiting_events in *. rewrite Hwait in *. cbn [from_option] in *.
  destruct lost as [|x lost]; [|by destruct (Hl ltac:(done))].
  rewrite app_nil_r, app_assoc in Hc |- *. apply Forall_app in Hw as [Hw He]. apply Forall_cons in He as [(? & ? & _) _].
  exists (rc ++ in_queue j). split_and!; [done| |done]. rewrite event_bytes_app, event_bytes_one in Hb. split; try done.
  - by exists rc.
  - lia.
Qed.

Lemma submitted_ok quiet published e j elapsed :
  charged quiet published e j → sj_queued_bytes j <= sj_queue_budget_bytes j →
  journal_ok quiet (published ++ [e]) (submitted e (retry_submit elapsed e j)).1.
Proof.
  intros Hch Hle. unfold retry_submit. destruct (try_send (MsgRecord e) j) as [j'|[]] eqn:Hs; cbn [submitted fst].
  - by eapply charged_queued.
  - destruct (_ <=? _); cbn [submitted fst]; [by apply charged_lost|by apply charged_waiting].
  - by apply charged_lost.
Qed.

Lemma publish_charged quiet published j now kind payload :
  journal_ok quiet published j → sj_waiting j = None → is_degraded (sj_core j) = false →
  len published + 2 <= u64_max →
  let '(e, core) := publish now kind payload (sj_core j) in
  charged quiet published e
    (with_queued_bytes (sj_queued_bytes j + len (ev_payload e)) (with_core (λ _, core) j))
  ∧ sj_queued_bytes j = event_bytes (in_queue j).
Proof.
  intros [Hc (rc & lost & -> & Hl & Ha) Hw Hb Hbu Hbf Hca Hcu Hpo] Hwait Hdeg Hmax.
  pose proof (core_ok_publish now kind payload _ _ Hc Hmax) as (Hc' & Hseq & _ & Hpay & Hj & Hd & _ & _).
  assert (ev_elapsed_ms (publish now kind payload (sj_core j)).1 <= u64_max) as Hel.
  { unfold publish. cbn [fst ev_elapsed_ms]. pose proof (N.mod_upper_bound (now - sc_started (sj_core j)) 18446744073709551616 ltac:(done)).
    change u64_max with 18446744073709551615. lia. }
  destruct (publish now kind payload (sj_core j)) as [e core]. cbn [fst snd] in *.
  assert (lost = []) as ->.
  { destruct lost as [|x lost]; [done|]. destruct (Hl ltac:(done)) as [Hx _]. congruence. }
  unfold waiting_events in *. rewrite Hwait in *. cbn [from_option] in *. rewrite ?app_nil_r in *.
  split; [|done]. split; try done.
  - by exists rc.
  - rewrite Hseq. split; [lia|done].
  - cbn [with_queued_bytes sj_queued_bytes with_core]. by rewrite Hb.
  - change (event_bytes (in_queue j) <= sj_queue_budget_bytes j). by rewrite <- Hb.
  - destruct Hcu as [? ? ?]. split; cbn [with_queued_bytes with_core sj_core sj_step sj_polled];
      [by rewrite Hj|by rewrite Hd|]. intros n Hn. rewrite Hd. auto.
Qed.

Lemma journal_ok_record quiet published j now kind payload :
  journal_ok quiet published j → sj_waiting j = None → len published + 2 <= u64_max →
  journal_ok quiet (published ++ published_by now kind payload j) (record now kind payload j).1.
Proof.
  intros Hok Hwait Hmax. apply journal_ok_poll in Hok. unfold record, published_by.
  destruct (is_degraded (sj_core (poll_acks j))) eqn:Hdeg; [by rewrite app_nil_r|].
  pose proof (publish_charged _ _ (poll_acks j) now kind payload Hok Hwait Hdeg Hmax) as Hch.
  destruct (publish now kind payload (sj_core (poll_acks j))) as [e core]. destruct Hch as [Hch Hb]. cbn [fst].
  unfold try_submit. set (j1 := with_queued_bytes _ _) in *.
  change (sj_queued_bytes (with_core (λ _, core) (poll_acks j)) + len (ev_payload e)) with (sj_queued_bytes j1).
  change (with_queued_bytes (sj_queued_bytes j1) (with_core (λ _, core) (poll_acks j))) with j1.
  destruct (N.ltb_spec (sj_queue_budget_bytes j1) (sj_queued_bytes j1)) as [Hlt|Hle];
    cbn [submitted fst]; [by apply charged_lost|].
  destruct (try_send (MsgRecord e) j1) as [j'|[]] eqn:Hs; cbn [submitted fst];
    [by eapply charged_queued|by apply charged_waiting|by apply charged_lost].
Qed.

Lemma journal_ok_retry quiet published j elapsed :
  journal_ok quiet published j → journal_ok quiet published (record_retry elapsed j).1.
Proof.
  intros Hok. unfold record_retry. destruct (sj_waiting j) as [e|] eqn:Hw; [|done].
  destruct (waiting_charged _ _ _ _ Hok Hw) as (before & -> & Hch & Hle). by apply submitted_ok.
Qed.

(** *** The appender's steps *)

Lemma records_in_one now e : records_in [GotRecord now e] = [record_of e].
Proof. done. Qed.

(** One turn on one message. *)
Lemma appending_turn quiet received interval j m events :
  appending quiet received j → sj_rx j = true → records_in [m] = map record_of events →
  Forall (λ e, rec_wf (record_of e)) events → counting 1 (map record_of (received ++ events)) →
  len received + len events + 2 <= u64_max →
  appending quiet (received ++ events) (with_step (λ s, turn interval s m) j).
Proof.
  intros (Hacc & Hhome & Hok & Hth) Hrx Hm Hwf Hcnt Hmax. specialize (Hok Hrx).
  assert (Forall rec_wf (records_in [m])) as Hwf' by (rewrite Hm; by apply Forall_map).
  assert (len (map record_of received) + len (records_in [m]) + 2 <= u64_max) as Hmax'
    by (by rewrite Hm, !len_map).
  assert (appender_ok limit inc ls (map record_of (received ++ events)) (turn interval (sj_step j) m)) as Hok'.
  { rewrite map_app, <- Hm. by apply (turns_ok limit inc ls interval [m]). }
  split; [by eapply appender_ok_accepted|]. split; [eapply at_home_apart; [apply turn_apart|done]|].
  split; [done|]. intros Hq _. cbn [with_step sj_step].
  rewrite map_app, <- Hm. apply (turns_thriving limit inc ls interval [m]); [by apply Hth|done| |done].
  by rewrite Hm, <- map_app.
Qed.

Lemma cursors_ok_step c n acks acks' :
  cursors_ok c (take n acks) acks → acks `prefix_of` acks' → (n <= length acks)%nat →
  cursors_ok c (take n acks') acks'.
Proof.
  intros Hcu Hp Hn. replace (take n acks') with (take n acks); [by eapply cursors_ok_grow|].
  destruct Hp as [more ->]. by rewrite take_app_le.
Qed.

Lemma counting_events (c : SequencerCore) (a b : list OrderedEvent) :
  core_ok c (a ++ b) → counting 1 (map record_of a).
Proof. intros Hc. pose proof (core_counting _ _ Hc) as Hcnt. rewrite map_app in Hcnt. by apply counting_app in Hcnt as [? _]. Qed.

(** The message in flight is handled. *)
Lemma journal_ok_turn quiet published j interval m :
  journal_ok quiet published j → sj_rx j = true → len published + 2 <= u64_max →
  let events := from_option msg_events [] (sj_in_flight j) in
  records_in [m] = map record_of events →
  journal_ok quiet published
    (with_in_flight None (with_step (λ s, turn interval s m)
      (with_queued_bytes (sj_queued_bytes j - event_bytes events) j))).
Proof.
  intros [Hc (rc & lost & -> & Hl & Ha) Hw Hb Hbu Hbf Hca Hcu Hpo] Hrx Hmax events Hm.
  set (j' := with_in_flight _ _).
  assert (in_queue j = events ++ in_queue j') as Hq by done. rewrite Hq, <- (app_assoc events) in *.
  apply Forall_app in Hw as [Hwe Hw]. rewrite event_bytes_app in Hb.
  pose proof (acks_grow_turn interval (sj_step j) m) as Hg. rewrite app_assoc in Hc, Hmax.
  split; try done.
  - by rewrite app_assoc.
  - exists (rc ++ events), lost. rewrite <- !app_assoc. split_and!; [done|done|].
    apply (appending_turn quiet rc interval (with_queued_bytes (sj_queued_bytes j - event_bytes events) j));
      [done|done|done|done|by eapply counting_events|]. rewrite !len_app in Hmax. lia.
  - change (sj_queued_bytes j - event_bytes events = event_bytes (in_queue j' ++ waiting_events j)). lia.
  - change (sj_queued_bytes j - event_bytes events <= sj_queue_budget_bytes j). lia.
  - by apply (cursors_ok_step _ _ (sj_step j).2).
  - change (sj_polled j <= length (turn interval (sj_step j) m).2)%nat. apply prefix_length in Hg. lia.
Qed.

Lemma eta_bytes j : with_queued_bytes (sj_queued_bytes j - 0) j = j.
Proof. rewrite N.sub_0_r. by destruct j. Qed.
Lemma eta_in_flight j : sj_in_flight j = None → with_in_flight None j = j.
Proof. destruct j; cbn. by intros ->. Qed.

Lemma journal_ok_handle quiet published j now interval j' :
  journal_ok quiet published j → len published + 2 <= u64_max →
  handle now interval j = Some j' → journal_ok quiet published j'.
Proof.
  intros Hok Hmax. unfold handle. destruct (sj_rx j) eqn:Hrx; [|done].
  destruct (sj_in_flight j) as [[e|]|] eqn:Hf; [..|done]; intros [= <-].
  - pose proof (journal_ok_turn quiet published j interval (GotRecord now e) Hok Hrx Hmax) as Ht.
    rewrite Hf in Ht. cbn [from_option msg_events] in Ht. rewrite event_bytes_one in Ht. by apply Ht.
  - pose proof (journal_ok_turn quiet published j interval GotSync Hok Hrx Hmax) as Ht.
    rewrite Hf in Ht. cbn [from_option msg_events] in Ht. change (event_bytes []) with 0 in Ht.
    rewrite eta_bytes in Ht. by apply Ht.
Qed.

Lemma journal_ok_timed_out quiet published j interval j' :
  journal_ok quiet published j → len published + 2 <= u64_max →
  timed_out interval j = Some j' → journal_ok quiet published j'.
Proof.
  intros Hok Hmax. unfold timed_out. destruct (sj_rx j) eqn:Hrx; [|done].
  destruct (sj_in_flight j) as [|] eqn:Hf; [done|]; intros [= <-].
  pose proof (journal_ok_turn quiet published j interval GotTimeout Hok Hrx Hmax) as Ht.
  rewrite Hf in Ht. cbn [from_option] in Ht. change (event_bytes []) with 0 in Ht.
  rewrite eta_bytes, eta_in_flight in Ht by done. by apply Ht.
Qed.

Lemma journal_ok_dequeue quiet published j j' :
  journal_ok quiet published j → dequeue j = Some j' → journal_ok quiet published j'.
Proof.
  intros [Hc Hlog Hw Hb Hbu Hbf Hca Hcu Hpo]. unfold dequeue.
  destruct (sj_rx j); [|done]. destruct (sj_in_flight j) eqn:Hf; [done|].
  destruct (sj_queue j) as [|msg rest] eqn:Hq; [done|]. intros [= <-].
  assert (in_queue (with_in_flight (Some msg) (with_queue rest j)) = in_queue j) as Hin.
  { unfold in_queue. by rewrite Hf, Hq. }
  split; rewrite ?Hin; try done. rewrite len_cons in Hca. cbn [with_in_flight with_queue sj_queue]. lia.
Qed.

Lemma journal_ok_request_sync quiet published j :
  journal_ok quiet published j → journal_ok quiet published (request_sync j).
Proof.
  intros [Hc Hlog Hw Hb Hbu Hbf Hca Hcu Hpo]. unfold request_sync, try_send.
  destruct (negb _); [done|]. destruct (N.leb_spec DEFAULT_QUEUE_CAPACITY (len (sj_queue j))); [done|].
  assert (in_queue (with_queue (sj_queue j ++ [MsgSync]) j) = in_queue j) as Hin.
  { unfold in_queue. cbn. rewrite map_app, concat_app. cbn. by rewrite app_nil_r. }
  split; rewrite ?Hin; try done. cbn. rewrite len_app. change (len [MsgSync]) with 1. lia.
Qed.

Lemma journal_ok_panic quiet published j :
  journal_ok quiet published j → journal_ok quiet published (hang_up_rx j).
Proof.
  intros [Hc (rc & lost & Hp & Hl & Ha & Hhome & Hok & Hth) Hw Hb Hbu Hbf Hca Hcu Hpo]. split; try done.
  exists rc, lost. by split_and!.
Qed.

Lemma journal_ok_leave quiet published j j' :
  journal_ok quiet published j → leave j = Some j' → journal_ok quiet published j'.
Proof.
  intros [Hc (rc & lost & Hp & Hl & Ha & Hhome & Hok & Hth) Hw Hb Hbu Hbf Hca Hcu Hpo]. unfold leave.
  destruct (sj_tx j); [done|]. destruct (sj_rx j) eqn:Hrx; [|done]. destruct (sj_in_flight j) eqn:Hf; [done|].
  destruct (sj_queue j) eqn:Hq; [|done]. intros [= <-]. pose proof (acks_grow_finish (sj_step j)) as Hg.
  split; try done.
  - exists rc, lost. split_and!; try done. split; [eapply finish_accepted; by apply Hok|].
    split; [eapply at_home_apart; [apply finish_apart|done]|done].
  - cbn [hang_up_rx with_step sj_queue]. by rewrite Hq.
  - by apply (cursors_ok_step _ _ (sj_step j).2).
  - change (sj_polled j <= length (finish (sj_step j)).2)%nat. apply prefix_length in Hg. lia.
Qed.

Lemma journal_ok_step quiet published interval j events j' :
  journal_ok quiet published j → jstep interval j events j' → len published + 2 <= u64_max →
  journal_ok quiet (published ++ events) j'.
Proof.
  intros Hok Hs Hmax. destruct Hs as
    [now kind payload j j' r _ Hw Hr|elapsed j j' r Hr|j _ _|j _ _|j j' Hd|now j j' Hh|j j' Ht|j j' Hl|j _|j];
    rewrite ?app_nil_r.
  - pose proof (journal_ok_record _ _ _ now kind payload Hok Hw Hmax) as Hok'. by rewrite Hr in Hok'.
  - pose proof (journal_ok_retry _ _ _ elapsed Hok) as Hok'. by rewrite Hr in Hok'.
  - by apply journal_ok_poll.
  - by apply journal_ok_request_sync.
  - by eapply journal_ok_dequeue.
  - by eapply journal_ok_handle.
  - by eapply journal_ok_timed_out.
  - by eapply journal_ok_leave.
  - by destruct Hok.
  - by apply journal_ok_panic.
Qed.

Lemma journal_ok_run quiet interval j0 published j :
  journal_ok quiet [] j0 → jrun interval j0 published j → len published + 2 <= u64_max →
  journal_ok quiet published j.
Proof.
  intros Hok0 Hr. induction Hr as [|published j1 events j2 _ IH Hs]; intros Hmax; [done|].
  rewrite len_app in Hmax. eapply journal_ok_step; [apply IH; lia|done|lia].
Qed.

(** Where a run is, in the terms of the theorems. *)
Lemma journal_run_log quiet interval now w published j :
  fresh inc ls (w_store w) → limit <= u64_max → (quiet → w_faults w = []) →
  jrun interval (open_with_options inc limit now w) published j → len published + 2 <= u64_max →
  journal_ok quiet published j.
Proof. intros Hf Hl Hq Hr Hmax. eapply journal_ok_run; [|done|done]. by apply journal_ok_open. Qed.
End Invariant.

(** ** The theorems *)

Section JournalTheorems.
Context `{Crc32Fast, !Crc32FastLaws, ManifestSerde, !ManifestSerdeLaws}.

(** What a client can replay: the readable journal, then the cached events
    beyond it. *)
Definition replayable (on_disk : list Rec) (cache : list OrderedEvent) : list Rec :=
  on_disk ++ map record_of (filter (λ e, len on_disk < ev_seq e) cache).

Lemma filter_beyond m (events : list OrderedEvent) k :
  counting (N.of_nat k + 1) (map record_of events) →
  filter (λ e, m < ev_seq e) events = drop (N.to_nat m - k) events.
Proof.
  revert k. induction events as [|e events IH]; intros k Hc; [by destruct (N.to_nat m - k)%nat|].
  cbn [map] in *. apply counting_cons in Hc as (Hs & Hb & Hc). cbn in Hs.
  specialize (IH (S k)). replace (N.of_nat k + 1 + 1) with (N.of_nat (S k) + 1) in Hc by lia.
  specialize (IH Hc). unfold ev_seq in *. destruct (decide (m < cur_seq (ev_cursor e))) as [Hlt|Hge].
  - rewrite filter_cons_True, IH by done.
    replace (N.to_nat m - k)%nat with 0%nat by lia. by replace (N.to_nat m - S k)%nat with 0%nat by lia.
  - rewrite filter_cons_False, IH by done. by replace (N.to_nat m - k)%nat with (S (N.to_nat m - S k)) by lia.
Qed.

(** The abstract journal: one append-only log with contiguous sequences. *)
Inductive log_step : list Rec → list Rec → Prop :=
  | log_append l r : rec_seq r = len l + 1 → log_step l (l ++ [r])
  | log_stutter l : log_step l l.

Definition represents (inc : N) (j : ShadowJournal) (l : list Rec) : Prop :=
  ∃ on_disk, recovered inc (st_files (w_store (sj_step j).1.2)) on_disk
    ∧ replayable on_disk (sc_cache (sj_core j)) = l.

Lemma journal_ok_represents limit inc ls quiet published j :
  journal_ok limit inc ls quiet published j → represents inc j (map record_of published).
Proof.
  intros [Hc (rc & lost & Hp & _ & Hacc & _) _ _ _ _ _ [Hj _ _] _].
  destruct (accepted_readable _ _ _ _ Hacc) as (m & Hm & Hrec & _ & Hack).
  assert (sc_journal_seq (sj_core j) <= m) as Hjm by (destruct Hj as [-> |Hj]; [lia|by apply Hack]).
  rewrite len_map in Hm.
  assert (take (N.to_nat m) (map record_of rc) = take (N.to_nat m) (map record_of published)) as Ht.
  { rewrite Hp, map_app, take_app_le; [done|]. rewrite length_map. unfold len in Hm. lia. }
  rewrite Ht in Hrec. eexists. split; [exact Hrec|]. unfold replayable.
  assert (len (take (N.to_nat m) (map record_of published)) = m) as Hlm.
  { rewrite <- Ht. unfold len. rewrite length_take, length_map. unfold len in Hm. lia. }
  rewrite Hlm. destruct (core_cache _ _ Hc) as (k & -> & Hk & Hkj).
  rewrite (filter_beyond m _ k).
  - rewrite drop_drop. replace (k + (N.to_nat m - k))%nat with (N.to_nat m) by lia.
    change (map record_of (drop (N.to_nat m) published)) with (record_of <$> drop (N.to_nat m) published).
    by rewrite fmap_drop, take_drop.
  - pose proof (core_counting _ _ Hc) as Hcnt. rewrite <- (take_drop k published), map_app in Hcnt.
    apply counting_app in Hcnt as [_ Hcnt]. rewrite len_map in Hcnt. unfold len in Hcnt.
    rewrite length_take, Nat.min_l in Hcnt by lia. by rewrite N.add_comm in Hcnt.
Qed.

(** C13: The journal refines an append-only log.  From an opened journal,
    whatever the two threads do and in whatever order, whatever fails on the
    device, the queue or the appender thread, the records a reader finds on
    disk followed by the cached events beyond them are exactly the events
    published so far; and every step leaves that log alone or appends one
    record with the next sequence. *)
Theorem journal_refines_log limit inc ls interval now w published j events j' :
  fresh inc ls (w_store w) → limit <= u64_max →
  jrun interval (open_with_options inc limit now w) published j → jstep interval j events j' →
  len published + len events + 2 <= u64_max →
  represents inc j (map record_of published)
  ∧ represents inc j' (map record_of (published ++ events))
  ∧ log_step (map record_of published) (map record_of (published ++ events)).
Proof.
  intros Hf Hl Hr Hs Hmax.
  pose proof (journal_run_log limit inc ls False interval now w published j Hf Hl ltac:(done) Hr ltac:(lia)) as Hok.
  pose proof (journal_ok_step _ _ _ _ _ _ _ _ _ Hok Hs ltac:(lia)) as Hok'.
  split_and!; [by eapply journal_ok_represents..|].
  pose proof (core_counting _ _ (jo_core _ _ _ _ _ _ Hok')) as Hcnt. rewrite map_app in Hcnt |- *.
  apply counting_app in Hcnt as [_ Hcnt].
  assert (events = [] ∨ ∃ e, events = [e]) as [-> |[e ->]].
  { destruct Hs; try by left. unfold published_by. destruct (is_degraded _); [by left|right; by eexists]. }
  - cbn [map]. rewrite app_nil_r. apply log_stutter.
  - apply log_append. cbn [map] in Hcnt. apply counting_cons in Hcnt as [Hs' _]. lia.
Qed.

(** C7: A journal that calls itself fully durable survives every crash whole.
    Whatever came before, when [is_fully_durable] answers true, a crash of
    the device at that moment leaves a directory with exactly the records of
    all events published. *)
Theorem fully_durable_survives limit inc ls interval now w published j :
  fresh inc ls (w_store w) → limit <= u64_max →
  jrun interval (open_with_options inc limit now w) published j → len published + 2 <= u64_max →
  is_fully_durable (sj_core j) = true →
  ∀ d, crash (w_store (sj_step j).1.2) d → recovered inc d (map record_of published).
Proof.
  intros Hf Hl Hr Hmax Hdur d Hd.
  pose proof (journal_run_log limit inc ls False interval now w published j Hf Hl ltac:(done) Hr Hmax) as Hok.
  destruct Hok as [Hc (rc & lost & Hp & _ & Hacc & _) _ _ _ _ _ [_ Hdu _] _].
  unfold is_fully_durable in Hdur. apply andb_true_iff in Hdur as [_ Hdur]. bool_prop.
  rewrite (core_next _ _ Hc) in Hdur.
  destruct (accepted_crash_safe _ _ _ _ Hacc d Hd) as (m & Hm & Hrec & Hack). rewrite len_map in Hm.
  assert (len published <= m) as Hpm.
  { destruct Hdu as [Hz|Hin]; [lia|]. specialize (Hack _ Hin). lia. }
  assert (len rc = len published ∧ m = len published) as [Hlen ->] by (rewrite Hp, !len_app in Hpm |- *; lia).
  assert (rc = published) as <-.
  { rewrite Hp in Hlen |- *. rewrite len_app in Hlen.
    assert (len (in_queue j ++ waiting_events j ++ lost) = 0) as Hz by lia. apply len_0 in Hz as ->. by rewrite app_nil_r. }
  rewrite <- (len_map record_of) in Hrec. by rewrite to_nat_len, firstn_all in Hrec.
Qed.

Lemma jstep_budget interval j events j' :
  jstep interval j events j' → sj_queue_budget_bytes j' = sj_queue_budget_bytes j.
Proof.
  intros Hs. destruct Hs as
    [now kind payload j j' r _ _ Hr|elapsed j j' r Hr|j _ _|j _ _|j j' Hd|now j j' Hh|j j' Ht|j j' Hl|j _|j];
    try done; unfold record, record_retry, retry_submit, request_sync, dequeue, handle, timed_out, leave, try_submit, try_send in *;
    by repeat case_match; simplify_eq/=.
Qed.

(** The queue's bounds hold and its byte count is exact.  However the
    threads interleave, at most 256 messages are queued, and the bytes
    counted are those of the events submitted and not yet handled (the one
    whose producer still waits included), at most 32 MiB; so no event too
    large for the segment scan ever reaches the disk. *)
Theorem queue_stays_bounded limit inc ls interval now w published j :
  fresh inc ls (w_store w) → limit <= u64_max →
  jrun interval (open_with_options inc limit now w) published j → len published + 2 <= u64_max →
  len (sj_queue j) <= 256
  ∧ sj_queued_bytes j = event_bytes (in_queue j ++ waiting_events j)
  ∧ sj_queued_bytes j <= 32 * 1024 * 1024
  ∧ Forall (λ e, len (ev_payload e) <= MAX_PAYLOAD_LEN) (in_queue j ++ waiting_events j).
Proof.
  intros Hf Hl Hr Hmax.
  pose proof (journal_run_log limit inc ls False interval now w published j Hf Hl ltac:(done) Hr Hmax) as Hok.
  assert (sj_queue_budget_bytes j = DEFAULT_QUEUE_BUDGET_BYTES) as Hb.
  { clear -Hr. induction Hr as [|p j1 ev j2 _ IH Hs]; [done|]. rewrite <- IH. by apply jstep_budget in Hs. }
  destruct Hok as [_ _ Hw Hby Hbu _ Hca _ _]. split_and!; [done|done|by rewrite Hb in Hbu|].
  eapply Forall_impl; [exact Hw|]. by intros e (_ & _ & ?).
Qed.

(** A degraded core stays so, for the same reason, and caches nothing more. *)
Definition same_degraded (c c' : SequencerCore) : Prop :=
  is_degraded c = true → sc_degraded c' = sc_degraded c ∧ sc_cache c' = sc_cache c.

Lemma same_degraded_acks acks c : same_degraded c (foldl apply_ack c acks).
Proof.
  revert c. induction acks as [|ack acks IH]; intros c Hd; [done|]. cbn [foldl].
  assert (sc_degraded (apply_ack c ack) = sc_degraded c ∧ sc_cache (apply_ack c ack) = sc_cache c) as [Ha Hb].
  { unfold is_degraded in Hd. destruct ack; cbn; [done|done|by destruct (sc_degraded c)]. }
  destruct (IH (apply_ack c ack)) as [-> ->]; [by unfold is_degraded in *; rewrite Ha|done].
Qed.

Lemma same_degraded_submitted e j js :
  sj_core js.1 = sj_core j → same_degraded (sj_core j) (sj_core (submitted e js).1).
Proof.
  intros Hc Hd. destruct js as [j' [[[]|err]|]]; cbn in Hc |- *; rewrite Hc; [done| |done].
  unfold is_degraded in Hd. by destruct (sc_degraded (sj_core j)).
Qed.

Lemma jstep_degraded interval j events j' :
  jstep interval j events j' → is_degraded (sj_core j) = true →
  events = [] ∧ sc_degraded (sj_core j') = sc_degraded (sj_core j)
  ∧ sc_cache (sj_core j') = sc_cache (sj_core j).
Proof.
  intros Hs Hd. assert (same_degraded (sj_core j) (sj_core (poll_acks j))) as Hp by apply same_degraded_acks.
  assert (is_degraded (sj_core (poll_acks j)) = true) as Hdp.
  { unfold is_degraded in *. by rewrite (proj1 (Hp Hd)). }
  destruct Hs as
    [now kind payload j j' r _ Hw Hr|elapsed j j' r Hr|j _ _|j _ _|j j' Hq|now j j' Hh|j j' Ht|j j' Hl|j _|j].
  - unfold published_by, record in *. rewrite Hdp in *. injection Hr as <- <-. split; [done|by apply Hp].
  - split; [done|]. unfold record_retry in Hr. destruct (sj_waiting j) as [e|]; [|by injection Hr as <- _].
    pose proof (same_degraded_submitted e j (retry_submit elapsed e j)) as Hsub. rewrite Hr in Hsub.
    apply Hsub; [|done]. unfold retry_submit, try_send. by repeat case_match; simplify_eq/=.
  - split; [done|by apply Hp].
  - split; [done|]. unfold request_sync, try_send. by repeat case_match; simplify_eq/=.
  - split; [done|]. unfold dequeue in Hq. by repeat case_match; simplify_eq/=.
  - split; [done|]. unfold handle in Hh. by repeat case_match; simplify_eq/=.
  - split; [done|]. unfold timed_out in Ht. by repeat case_match; simplify_eq/=.
  - split; [done|]. unfold leave in Hl. by repeat case_match; simplify_eq/=.
  - done.
  - done.
Qed.

(** Degradation is final and bounded.  From any journal whose persistence
    has failed, whatever the threads do next: nothing more is published or
    cached, the first reason stays, and a further record is refused with
    [PersistenceDegraded], which leaves everything but the polled cursors
    alone; an event with a malformed policy key or value is refused at once
    and leaves everything alone. *)
Theorem degraded_refuses interval j published j' :
  is_degraded (sj_core j) = true → jrun interval j published j' →
  published = []
  ∧ degraded_reason (sj_core j') = degraded_reason (sj_core j)
  ∧ sc_cache (sj_core j') = sc_cache (sj_core j)
  ∧ (∀ now kind payload, record now kind payload j' = (poll_acks j', Some (Err PersistenceDegraded)))
  ∧ (∀ now key value, policy_refused key value = true →
       record_policy now key value j' = (j', Some (Err (InvalidEvent key)))).
Proof.
  intros Hd Hr.
  assert (published = [] ∧ sc_degraded (sj_core j') = sc_degraded (sj_core j)
    ∧ sc_cache (sj_core j') = sc_cache (sj_core j)) as (Hp & Hdg & Hca).
  { induction Hr as [|p j1 ev j2 _ IH Hs]; [done|]. destruct IH as (-> & Hdg & Hca).
    destruct (jstep_degraded _ _ _ _ Hs) as (-> & Hdg' & Hca').
    { unfold is_degraded in *. by rewrite Hdg. }
    by rewrite Hdg', Hca', Hdg, Hca. }
  split_and!; [done|done|done| |].
  - intros now kind payload. unfold record.
    assert (is_degraded (sj_core j') = true) as Hd' by (unfold is_degraded in *; by rewrite Hdg).
    assert (is_degraded (sj_core (poll_acks j')) = true) as ->; [|done].
    unfold is_degraded in *. cbn [poll_acks with_polled with_core sj_core].
    by rewrite (proj1 (same_degraded_acks _ _ Hd')).
  - intros now key value Hk. unfold record_policy. by rewrite Hk.
Qed.

(** *** Left alone *)

(** The appender thread's next step, when no more messages come. *)
Definition appender_next (now sync_interval : N) (j : ShadowJournal) : option ShadowJournal :=
  match sj_in_flight j with
  | Some _ => handle now sync_interval j
  | None => match dequeue j with
            | Some j => Some j
            | None => timed_out sync_interval j
            end
  end.

Fixpoint serve (steps : nat) (now sync_interval : N) (j : ShadowJournal) : ShadowJournal :=
  match steps with
  | O => j
  | S steps => match appender_next now sync_interval j with
               | Some j => serve steps now sync_interval j
               | None => j
               end
  end.

(** Steps until the queue is empty. *)
Definition backlog (j : ShadowJournal) : nat :=
  (match sj_in_flight j with Some _ => 1 | None => 0 end + 2 * length (sj_queue j))%nat.

(** An appender step moves one message, and only the appender's side. *)
Lemma appender_next_moves now interval j n :
  sj_rx j = true → backlog j = S n →
  ∃ j', appender_next now interval j = Some j' ∧ backlog j' = n ∧ sj_rx j' = true
    ∧ sj_core j' = sj_core j ∧ sj_waiting j' = sj_waiting j ∧ jstep interval j [] j'.
Proof.
  intros Hrx Hb. unfold appender_next, backlog in *. destruct (sj_in_flight j) as [m|] eqn:Hf.
  - assert (∃ j', handle now interval j = Some j' ∧ sj_in_flight j' = None ∧ sj_queue j' = sj_queue j
      ∧ sj_rx j' = true ∧ sj_core j' = sj_core j ∧ sj_waiting j' = sj_waiting j) as (j' & Hh & Hf' & Hq & ? & ? & ?).
    { unfold handle. rewrite Hrx, Hf. destruct m; eexists; by split_and!. }
    exists j'. rewrite Hf', Hq. split_and!; try done; [lia|by apply (step_handle _ now)].
  - destruct (sj_queue j) as [|msg rest] eqn:Hq; [done|].
    assert (dequeue j = Some (with_in_flight (Some msg) (with_queue rest j))) as Hd
      by (unfold dequeue; by rewrite Hrx, Hf, Hq).
    rewrite Hd. eexists. split; [done|]. cbn in Hb |- *. split_and!; try done; [lia|by apply step_dequeue].
Qed.

Lemma serve_run now interval n j0 published j :
  jrun interval j0 published j → jrun interval j0 published (serve n now interval j).
Proof.
  revert j. induction n as [|n IH]; intros j Hr; [done|]. cbn [serve].
  destruct (appender_next now interval j) as [j'|] eqn:Hn; [|done]. apply IH.
  rewrite <- (app_nil_r published). eapply run_step; [exact Hr|]. unfold appender_next in Hn.
  destruct (sj_in_flight j); [by apply (step_handle _ now)|].
  destruct (dequeue j) eqn:Hd; [injection Hn as <-; by apply step_dequeue|by apply step_timed_out].
Qed.

Section Quiet.
Context (limit inc : N) (ls : list ManifestLine).

Lemma serve_drains now interval published n j :
  journal_ok limit inc ls True published j → sj_rx j = true → backlog j = n → len published + 2 <= u64_max →
  let j' := serve n now interval j in
  journal_ok limit inc ls True published j' ∧ sj_rx j' = true ∧ backlog j' = 0%nat
  ∧ sj_core j' = sj_core j ∧ sj_waiting j' = sj_waiting j.
Proof.
  revert j. induction n as [|n IH]; intros j Hok Hrx Hb Hmax; [done|]. cbn [serve].
  destruct (appender_next_moves now interval j n Hrx Hb) as (j1 & -> & Hb1 & Hrx1 & Hc1 & Hw1 & Hs).
  pose proof (journal_ok_step _ _ _ _ _ _ _ _ _ Hok Hs Hmax) as Hok1. rewrite app_nil_r in Hok1.
  rewrite <- Hc1, <- Hw1. by apply IH.
Qed.

(** With an empty queue, one timeout brings everything to the device. *)
Lemma timeout_syncs interval published j :
  journal_ok limit inc ls True published j → sj_rx j = true → backlog j = 0%nat →
  sj_waiting j = None → is_degraded (sj_core j) = false → len published + 2 <= u64_max →
  ∃ j', timed_out interval j = Some j' ∧ journal_ok limit inc ls True published j'
    ∧ sj_core j' = sj_core j ∧ (published ≠ [] → Durable (len published) ∈ (sj_step j').2)
    ∧ ∀ r, AckFailed r ∉ (sj_step j').2.
Proof.
  intros Hok Hrx Hb Hw Hdg Hmax. unfold backlog in Hb.
  destruct (sj_in_flight j) as [|] eqn:Hf; [done|]. destruct (sj_queue j) as [|] eqn:Hq; [|done].
  assert (timed_out interval j = Some (with_step (λ s, turn interval s GotTimeout) j)) as Ht
    by (unfold timed_out; by rewrite Hrx, Hf).
  eexists. split; [exact Ht|]. pose proof (journal_ok_timed_out _ _ _ _ _ _ _ _ Hok Hmax Ht) as Hok'.
  split_and!; [done|done|..].
  - destruct Hok as [_ (rc & lost & Hp & Hl & Ha & _ & _ & Hth) _ _ _ _ _ _ _]. specialize (Hth I Hrx).
    unfold in_queue, waiting_events in Hp. rewrite Hf, Hq, Hw in Hp. cbn in Hp.
    destruct lost as [|x lost]; [|destruct (Hl ltac:(done)); congruence]. rewrite app_nil_r in Hp. subst rc.
    intros Hne%len_nonempty. cbn [with_step sj_step turn]. unfold on_timeout, dirty. rewrite (th_alive _ _ _ _ _ Hth).
    assert (ap_last_written (sj_step j).1.1 = len published) as Hlw.
    { pose proof (th_ok _ _ _ _ _ Hth) as Hao. pose proof (th_alive _ _ _ _ _ Hth) as Hal.
      destruct (sj_step j) as [[a w] acks]. destruct Hao as (_ & _ & Hd). cbn [fst] in Hal |- *. rewrite Hal in Hd.
      destruct Hd as (? & ? & _ & _ & _ & Hlw & _). by rewrite len_map in Hlw. }
    assert (ap_last_durable (sj_step j).1.1 <= ap_last_written (sj_step j).1.1) as Hle.
    { destruct Ha as (_ & ? & ? & ? & _ & _ & _ & Hle & _). lia. }
    destruct (N.ltb_spec (ap_last_durable (sj_step j).1.1) (ap_last_written (sj_step j).1.1)) as [Hlt|Hge].
    + destruct (do_sync_thriving _ _ _ _ _ Hth) as [Hth' Hd]. pose proof (th_durable _ _ _ _ _ Hth') as Hdu.
      rewrite Hd, Hlw in Hdu. apply Hdu. lia.
    + pose proof (th_durable _ _ _ _ _ Hth) as Hdu. replace (ap_last_durable _) with (len published) in Hdu by lia.
      apply Hdu. lia.
  - destruct Hok' as [_ (rc & lost & _ & _ & (Hacks & _) & _ & _ & Hth) _ _ _ _ _ _ _]. specialize (Hth I Hrx).
    intros r Hin. rewrite Forall_forall in Hacks. destruct (Hacks _ Hin) as [x Hx].
    by rewrite (th_alive _ _ _ _ _ Hth) in Hx.
Qed.
End Quiet.

(** C24: A journal left alone catches up.  On a device that does not fail, with
    the appender thread alive, a producer that is not waiting and a core that
    is not degraded, the appender empties the queue in [backlog] steps; one
    sync timeout and one poll later the core is fully durable, whatever
    happened before. *)
Theorem left_alone_catches_up limit inc ls interval start w published j now :
  fresh inc ls (w_store w) → limit <= u64_max → w_faults w = [] →
  jrun interval (open_with_options inc limit start w) published j → len published + 2 <= u64_max →
  sj_rx j = true → sj_waiting j = None → is_degraded (sj_core j) = false →
  ∃ j', timed_out interval (serve (backlog j) now interval j) = Some j'
    ∧ sj_queue j' = []
    ∧ is_fully_durable (sj_core (poll_acks j')) = true.
Proof.
  intros Hf Hl Hcalm Hr Hmax Hrx Hw Hdg.
  pose proof (journal_run_log limit inc ls True interval start w published j Hf Hl ltac:(done) Hr Hmax) as Hok.
  destruct (serve_drains limit inc ls now interval published _ j Hok Hrx eq_refl Hmax)
    as (Hok1 & Hrx1 & Hb1 & Hc1 & Hw1).
  set (j1 := serve (backlog j) now interval j) in *.
  destruct (timeout_syncs limit inc ls interval published j1) as (j' & Ht & Hok' & Hc' & Hdu & Hnf);
    [done|done|done|by rewrite Hw1|by rewrite Hc1|done|].
  exists j'. split; [done|]. split.
  { unfold timed_out, backlog in *. rewrite Hrx1 in Ht. destruct (sj_in_flight j1); [done|].
    injection Ht as <-. cbn [with_step sj_queue]. destruct (sj_queue j1); [done|cbn in Hb1; lia]. }
  pose proof (apply_acks_ok (sj_core j') published (take (sj_polled j') (sj_step j').2)
    (drop (sj_polled j') (sj_step j').2) (jo_core _ _ _ _ _ _ Hok')) as Hap.
  rewrite take_drop in Hap. destruct (Hap (jo_cursors _ _ _ _ _ _ Hok')) as (Hcore & [_ _ Hpol] & _ & _ & Hsame).
  change (foldl apply_ack (sj_core j') (drop (sj_polled j') (sj_step j').2)) with (sj_core (poll_acks j')) in *.
  unfold is_fully_durable, is_degraded in *. rewrite Hsame, Hc', Hc1.
  - destruct (sc_degraded (sj_core j)); [done|]. cbn [negb andb]. apply N.leb_le.
    rewrite (core_next _ _ Hcore). destruct (decide (published = [])) as [-> |Hne]; [change (len (@nil OrderedEvent)) with 0; lia|].
    specialize (Hpol _ (Hdu Hne)). lia.
  - intros r Hin. apply (Hnf r). rewrite <- (take_drop (sj_polled j') (sj_step j').2). apply elem_of_app. by right.
Qed.
End JournalTheorems.

(** ** Witnesses *)

#[local] Existing Instance csv_serde.
#[local] Existing Instance csv_laws.

(** Two records while the appender is busy with the first. *)
Definition sample_open : ShadowJournal := open_with_options 7 100 0 (mk_world sample_storage []).
Definition sample_one : ShadowJournal := (record 3 Output (bs "first") sample_open).1.
Definition sample_two : ShadowJournal := default sample_one (dequeue sample_one).
Definition sample_three : ShadowJournal := (record 5 Output (bs "second") sample_two).1.
Definition sample_published : list OrderedEvent :=
  published_by 3 Output (bs "first") sample_open ++ published_by 5 Output (bs "second") sample_two.

Lemma sample_run : jrun 50 sample_open sample_published sample_three.
Proof.
  apply (run_step _ _ (published_by 3 Output (bs "first") sample_open) sample_two).
  - rewrite <- (app_nil_r (published_by _ _ _ _)). apply (run_step _ _ _ sample_one).
    + apply (run_step _ _ [] sample_open); [apply run_here|].
      eapply (step_record _ 3 Output (bs "first")); [done|done|by vm_compute].
    + by apply step_dequeue.
  - eapply (step_record _ 5 Output (bs "second")); [done|done|by vm_compute].
Qed.

Lemma journal_refines_log_witness :
  represents 7 sample_three (map record_of sample_published)
  ∧ represents 7 (default sample_three (handle 9 50 sample_three)) (map record_of (sample_published ++ []))
  ∧ log_step (map record_of sample_published) (map record_of (sample_published ++ [])).
Proof.
  by apply (journal_refines_log 100 7 [] 50 0 (mk_world sample_storage []) sample_published sample_three []
    _ sample_fresh ltac:(done) sample_run); [apply (step_handle _ 9)|vm_compute].
Defined.

Lemma queue_stays_bounded_witness :
  len (sj_queue sample_three) <= 256
  ∧ sj_queued_bytes sample_three = event_bytes (in_queue sample_three ++ waiting_events sample_three)
  ∧ sj_queued_bytes sample_three <= 32 * 1024 * 1024
  ∧ Forall (λ e, len (ev_payload e) <= MAX_PAYLOAD_LEN) (in_queue sample_three ++ waiting_events sample_three).
Proof.
  by apply (queue_stays_bounded 100 7 [] 50 0 (mk_world sample_storage []) sample_published sample_three
    sample_fresh ltac:(done) sample_run).
Defined.

Lemma left_alone_catches_up_witness :
  ∃ j', timed_out 50 (serve (backlog sample_three) 20 50 sample_three) = Some j'
    ∧ sj_queue j' = []
    ∧ is_fully_durable (sj_core (poll_acks j')) = true.
Proof.
  by apply (left_alone_catches_up 100 7 [] 50 0 (mk_world sample_storage []) sample_published sample_three 20
    sample_fresh ltac:(done) eq_refl sample_run).
Defined.

(** The same journal caught up, and polled. *)
Definition sample_served : ShadowJournal := serve 3 20 50 sample_three.
Definition sample_synced : ShadowJournal := default sample_served (timed_out 50 sample_served).
Definition sample_caught_up : ShadowJournal := poll_acks sample_synced.

Lemma sample_caught_up_run : jrun 50 sample_open (sample_published ++ [] ++ []) sample_caught_up.
Proof.
  rewrite app_assoc. apply (run_step _ _ (sample_published ++ []) sample_synced);
    [apply (run_step _ _ sample_published sample_served)|].
  - apply serve_run, sample_run.
  - apply step_timed_out. unfold sample_synced.
    assert (is_Some (timed_out 50 sample_served)) as [j' ->]; [|done].
    unfold timed_out. assert (sj_rx sample_served = true) as -> by by vm_compute.
    assert (sj_in_flight sample_served = None) as -> by by vm_compute. by eexists.
  - apply (step_poll _ sample_synced); by vm_compute.
Qed.

Lemma fully_durable_survives_witness :
  let st := w_store (sj_step sample_caught_up).1.2 in
  recovered 7 (st_files st) (map record_of sample_published).
Proof.
  apply (fully_durable_survives 100 7 [] 50 0 (mk_world sample_storage []) sample_published sample_caught_up
    sample_fresh ltac:(done) sample_caught_up_run); [by vm_compute|by vm_compute|].
  pose proof (journal_run_log 100 7 [] False 50 0 (mk_world sample_storage []) _ _ sample_fresh ltac:(done)
    ltac:(done) sample_caught_up_run ltac:(by vm_compute)) as Hok.
  destruct (jo_log _ _ _ _ _ _ Hok) as (rc & lost & _ & _ & Hacc & _). exact (accepted_live _ _ _ _ Hacc).
Defined.

(** A record the appender thread is no longer there to take. *)
Definition sample_degraded : ShadowJournal := (record 6 Output (bs "third") (hang_up_rx sample_three)).1.

Lemma degraded_refuses_witness :
  [] = ([] : list OrderedEvent)
  ∧ degraded_reason (sj_core sample_degraded) = degraded_reason (sj_core sample_degraded)
  ∧ sc_cache (sj_core sample_degraded) = sc_cache (sj_core sample_degraded)
  ∧ (∀ now kind payload, record now kind payload sample_degraded
       = (poll_acks sample_degraded, Some (Err PersistenceDegraded)))
  ∧ (∀ now key value, policy_refused key value = true →
       record_policy now key value sample_degraded = (sample_degraded, Some (Err (InvalidEvent key)))).
Proof. by apply (degraded_refuses 50 sample_degraded [] sample_degraded); [vm_compute|apply run_here]. Defined.
