(* ===== verification/Pump.v ===== *)
(** * The attach output pump

    [AttachPump] of [src/src/session/store/pump.rs] and the terminal modes it
    watches ([SharedModes] of [src/src/session/runtime.rs]).  One turn of the
    loop in [next] is a function of the pump's state and of what the turn
    reads: the client's applied cursor, the persisted stream, the broadcast
    channel, the session's status and the modes.  The theorems say that a
    client sees exactly the session's stream, without a gap or a repetition,
    however those sources race; that a credited client is never sent past its
    budget; that a gap the journal never fills ends the stream within a fixed
    number of turns; and that a completion noticed before the tail was read
    can leave the client waiting for ever. *)

From S2P Require Import Prelude.

(** ** Terminal modes *)

Record ModeSnapshot := mk_modes {
  app_cursor_keys : bool;
  bracketed_paste_mode : bool;
  mouse_report : bool;
  sgr_mouse : bool;
  focus_events : bool;
}.

#[export] Instance ModeSnapshot_eq_dec : EqDecision ModeSnapshot.
Proof. solve_decision. Defined.

Definition MODE_BIT_APP_CURSOR_KEYS : N := N.shiftl 1 0.
Definition MODE_BIT_BRACKETED_PASTE : N := N.shiftl 1 1.
Definition MODE_BIT_MOUSE_REPORT : N := N.shiftl 1 2.
Definition MODE_BIT_SGR_MOUSE : N := N.shiftl 1 3.
Definition MODE_BIT_FOCUS_EVENTS : N := N.shiftl 1 4.

Definition modes_load (bits : N) : ModeSnapshot :=
  {| app_cursor_keys := negb (N.land bits MODE_BIT_APP_CURSOR_KEYS =? 0);
     bracketed_paste_mode := negb (N.land bits MODE_BIT_BRACKETED_PASTE =? 0);
     mouse_report := negb (N.land bits MODE_BIT_MOUSE_REPORT =? 0);
     sgr_mouse := negb (N.land bits MODE_BIT_SGR_MOUSE =? 0);
     focus_events := negb (N.land bits MODE_BIT_FOCUS_EVENTS =? 0) |}.

Definition modes_store (modes : ModeSnapshot) : N :=
  let bits := 0 in
  let bits := if app_cursor_keys modes then N.lor bits MODE_BIT_APP_CURSOR_KEYS else bits in
  let bits := if bracketed_paste_mode modes then N.lor bits MODE_BIT_BRACKETED_PASTE else bits in
  let bits := if mouse_report modes then N.lor bits MODE_BIT_MOUSE_REPORT else bits in
  let bits := if sgr_mouse modes then N.lor bits MODE_BIT_SGR_MOUSE else bits in
  if focus_events modes then N.lor bits MODE_BIT_FOCUS_EVENTS else bits.

(** What the reader publishes is what an attach relay loads. *)
Lemma modes_load_store modes : modes_load (modes_store modes) = modes.
Proof. destruct modes as [[] [] [] [] []]; reflexivity. Qed.

(** ** The pump *)

Definition MAX_COALESCED_CHUNK_BYTES : N := 512 * 1024.
Definition RESYNC_WINDOW_BYTES : N := 8 * 1024 * 1024.
Definition FLUSH_RETRY_MAX : N := 50.

(** Times in milliseconds. *)
Record CreditPolicy := mk_policy {
  budget_bytes : N;
  stall_timeout : N;
  poll_interval : N;
}.

Definition production_policy : CreditPolicy :=
  {| budget_bytes := 4 * 1024 * 1024; stall_timeout := 30000; poll_interval := 25 |}.

Inductive AttachEvent :=
  | Chunk (offset : N) (data : bytes)
  | Modes (modes : ModeSnapshot)
  | Done (exit_code : option Z) (final_offset : N)
  | Closed.

Record SequencedChunk := mk_chunk {
  chunk_offset : N;
  chunk_bytes : bytes;
}.

(** [pm_credit] is the policy of a credited stream; the client's applied
    cursor, a shared cell, is read in every turn. *)
Record AttachPump := mk_pump {
  pm_shared_modes : bool;
  pm_last_modes : ModeSnapshot;
  pm_current_offset : N;
  pm_pending : list AttachEvent;
  pm_resync : bool;
  pm_resync_episode_open : bool;
  pm_held : option SequencedChunk;
  pm_completing : option (option Z);
  pm_flush_retries : N;
  pm_credit : option CreditPolicy;
}.

(** The pump [subscribe_with_policy] returns, at the end of the initial data. *)
Definition subscribed (shared : bool) (modes : ModeSnapshot) (end_offset : N)
    (credit : option CreditPolicy) : AttachPump :=
  {| pm_shared_modes := shared; pm_last_modes := modes; pm_current_offset := end_offset;
     pm_pending := []; pm_resync := false; pm_resync_episode_open := false; pm_held := None;
     pm_completing := None; pm_flush_retries := 0; pm_credit := credit |}.

(** Incarnation fencing: a resume cursor is refused unless it names the
    incarnation the session is writing. *)
Definition resume_allowed (from_offset incarnation current : option N) : bool :=
  match from_offset with
  | None => true
  | Some _ => match incarnation, current with
              | Some req, Some cur => req =? cur
              | _, _ => false
              end
  end.

Definition set_offset (n : N) (p : AttachPump) : AttachPump :=
  mk_pump (pm_shared_modes p) (pm_last_modes p) n (pm_pending p) (pm_resync p)
    (pm_resync_episode_open p) (pm_held p) (pm_completing p) (pm_flush_retries p) (pm_credit p).
Definition set_pending (es : list AttachEvent) (p : AttachPump) : AttachPump :=
  mk_pump (pm_shared_modes p) (pm_last_modes p) (pm_current_offset p) es (pm_resync p)
    (pm_resync_episode_open p) (pm_held p) (pm_completing p) (pm_flush_retries p) (pm_credit p).
Definition set_modes (m : ModeSnapshot) (p : AttachPump) : AttachPump :=
  mk_pump (pm_shared_modes p) m (pm_current_offset p) (pm_pending p) (pm_resync p)
    (pm_resync_episode_open p) (pm_held p) (pm_completing p) (pm_flush_retries p) (pm_credit p).
Definition set_resync (b : bool) (p : AttachPump) : AttachPump :=
  mk_pump (pm_shared_modes p) (pm_last_modes p) (pm_current_offset p) (pm_pending p) b
    (pm_resync_episode_open p) (pm_held p) (pm_completing p) (pm_flush_retries p) (pm_credit p).
Definition set_episode (b : bool) (p : AttachPump) : AttachPump :=
  mk_pump (pm_shared_modes p) (pm_last_modes p) (pm_current_offset p) (pm_pending p) (pm_resync p)
    b (pm_held p) (pm_completing p) (pm_flush_retries p) (pm_credit p).
Definition set_held (h : option SequencedChunk) (p : AttachPump) : AttachPump :=
  mk_pump (pm_shared_modes p) (pm_last_modes p) (pm_current_offset p) (pm_pending p) (pm_resync p)
    (pm_resync_episode_open p) h (pm_completing p) (pm_flush_retries p) (pm_credit p).
Definition set_completing (c : option (option Z)) (p : AttachPump) : AttachPump :=
  mk_pump (pm_shared_modes p) (pm_last_modes p) (pm_current_offset p) (pm_pending p) (pm_resync p)
    (pm_resync_episode_open p) (pm_held p) c (pm_flush_retries p) (pm_credit p).
Definition set_retries (n : N) (p : AttachPump) : AttachPump :=
  mk_pump (pm_shared_modes p) (pm_last_modes p) (pm_current_offset p) (pm_pending p) (pm_resync p)
    (pm_resync_episode_open p) (pm_held p) (pm_completing p) n (pm_credit p).

(** ** What a turn reads *)

Inductive Selected :=
  | Tick (status : option (bool * bool * option Z))
  | Recv (chunk : SequencedChunk)
  | RecvLagged (skipped : N)
  | RecvClosed (exit_code : option Z).

Inductive TryRecv :=
  | TryChunk (chunk : SequencedChunk)
  | TryLagged (skipped : N)
  | TryNone.

(** [rd_applied] is the client's cursor when the turn begins, [rd_polls] the
    later readings of the clock and of that cursor; [rd_window] answers
    [attach_resync_window]; [rd_filtered_len] is [attach_filtered_len];
    [rd_selected] what [select!] picks, if anything is ready; [rd_buffered]
    what [try_recv] then finds; [rd_mode_bits] the shared modes. *)
Record Readings := mk_readings {
  rd_now : N;
  rd_applied : N;
  rd_polls : list (N * N);
  rd_window : N → N → io_result bytes;
  rd_filtered_len : option N;
  rd_selected : option Selected;
  rd_buffered : list TryRecv;
  rd_mode_bits : N;
}.

Inductive TurnResult :=
  | Continue
  | Return (event : AttachEvent)
  | StillWaiting.

(** ** [await_credit] *)

Definition in_flight (p : AttachPump) (applied : N) : N := pm_current_offset p - applied.

(** The polling loop; [None] while the readings last no longer than the wait. *)
Fixpoint poll_credit (p : AttachPump) (budget deadline : N) (polls : list (N * N))
    : option (option AttachEvent) :=
  match polls with
  | [] => None
  | (now, applied) :: polls =>
      if in_flight p applied <=? budget then Some None
      else if deadline <=? now then Some (Some Closed)
      else poll_credit p budget deadline polls
  end.

Definition await_credit (r : Readings) (p : AttachPump) : option (option AttachEvent) :=
  match pm_credit p with
  | None => Some None
  | Some policy =>
      if in_flight p (rd_applied r) <=? budget_bytes policy then Some None
      else poll_credit p (budget_bytes policy) (rd_now r + stall_timeout policy) (rd_polls r)
  end.

(** ** Resynchronisation and forwarding *)

Definition begin_resync (p : AttachPump) : AttachPump := set_resync true (set_episode true p).

Definition observe_modes (r : Readings) (p : AttachPump) : AttachPump :=
  if pm_shared_modes p then
    let modes := modes_load (rd_mode_bits r) in
    if bool_decide (modes = pm_last_modes p) then p
    else set_pending (pm_pending p ++ [Modes modes]) (set_modes modes p)
  else p.

Definition resync_step (r : Readings) (p : AttachPump) : AttachPump * option AttachEvent :=
  let from := pm_current_offset p in
  match rd_window r from RESYNC_WINDOW_BYTES with
  | Err _ => (p, Some Closed)
  | Ok data =>
      if negb (len data =? 0) then
        let p := set_retries 0 (set_offset (from + len data) p) in
        let p := set_resync (len data =? RESYNC_WINDOW_BYTES) p in
        let p := if pm_resync p then p else set_episode false p in
        (observe_modes r p, Some (Chunk from data))
      else
        let held_gap := match pm_held p with
                        | Some chunk => pm_current_offset p <? chunk_offset chunk
                        | None => false
                        end in
        let completing_behind :=
          match pm_completing p, rd_filtered_len r with
          | Some _, Some n => pm_current_offset p <? n
          | _, _ => false
          end in
        if held_gap || completing_behind then
          if pm_flush_retries p <? FLUSH_RETRY_MAX
          then (set_retries (pm_flush_retries p + 1) p, None)
          else (p, Some Closed)
        else
          let p := set_retries 0 p in
          match pm_completing p with
          | Some exit_code =>
              (set_episode false (set_resync false (set_completing None p)),
               Some (Done exit_code (pm_current_offset p)))
          | None => (set_episode false (set_resync false p), None)
          end
  end.

(** The coalescing loop over what is buffered. *)
Fixpoint coalesce (buffered : list TryRecv) (data : bytes) (p : AttachPump) : AttachPump * bytes :=
  if len data <? MAX_COALESCED_CHUNK_BYTES then
    match buffered with
    | TryChunk next :: buffered =>
        let expected := pm_current_offset p + len data in
        if expected <? chunk_offset next
        then (begin_resync (set_held (Some next) p), data)
        else
          let skip := expected - chunk_offset next in
          coalesce buffered
            (if skip <? len (chunk_bytes next)
             then data ++ drop (N.to_nat skip) (chunk_bytes next) else data) p
    | TryLagged _ :: _ => (begin_resync p, data)
    | TryNone :: _ | [] => (p, data)
    end
  else (p, data).

Inductive Forward :=
  | Forwarded (offset : N) (data : bytes)
  | Skip.

Definition forward_chunk (r : Readings) (chunk : SequencedChunk) (p : AttachPump)
    : AttachPump * Forward :=
  let overlap := pm_current_offset p - chunk_offset chunk in
  if (chunk_offset chunk <? pm_current_offset p) && (len (chunk_bytes chunk) <=? overlap)
  then (p, Skip)
  else
    let chunk := if chunk_offset chunk <? pm_current_offset p
                 then mk_chunk (pm_current_offset p) (drop (N.to_nat overlap) (chunk_bytes chunk))
                 else chunk in
    if pm_current_offset p <? chunk_offset chunk
    then (begin_resync (set_held (Some chunk) p), Skip)
    else
      let offset := pm_current_offset p in
      let '(p, data) := coalesce (rd_buffered r) (chunk_bytes chunk) p in
      (observe_modes r (set_offset (pm_current_offset p + len data) p), Forwarded offset data).

(** ** One turn of [next] *)

(** A nonempty forwarded chunk is returned, anything else loops. *)
Definition deliver (pf : AttachPump * Forward) : AttachPump * TurnResult :=
  match pf with
  | (p, Forwarded offset data) =>
      if negb (len data =? 0) then (p, Return (Chunk offset data)) else (p, Continue)
  | (p, Skip) => (p, Continue)
  end.

Definition select_arm (r : Readings) (p : AttachPump) : AttachPump * TurnResult :=
  match rd_selected r with
  | None => (p, StillWaiting)
  | Some (Tick status) =>
      match pm_completing p with
      | Some _ => (p, Continue)
      | None =>
          match status with
          | None => (p, Return Closed)
          | Some (running, output_closed, exit_code) =>
              if negb running && output_closed
              then (set_resync true (set_completing (Some exit_code) p), Continue)
              else (p, Continue)
          end
      end
  | Some (Recv chunk) => deliver (forward_chunk r chunk p)
  | Some (RecvLagged _) => (begin_resync p, Continue)
  | Some (RecvClosed exit_code) => (p, Return (Done exit_code (pm_current_offset p)))
  end.

(** From the held chunk on. *)
Definition after_resync (r : Readings) (p : AttachPump) : AttachPump * TurnResult :=
  match pm_held p with
  | Some chunk => deliver (forward_chunk r chunk (set_held None p))
  | None => select_arm r p
  end.

Definition next_turn (r : Readings) (p : AttachPump) : AttachPump * TurnResult :=
  match await_credit r p with
  | None => (p, StillWaiting)
  | Some (Some closed) => (p, Return closed)
  | Some None =>
      match pm_pending p with
      | event :: pending => (set_pending pending p, Return event)
      | [] =>
          if pm_resync p then
            match resync_step r p with
            | (p, Some event) => (p, Return event)
            | (p, None) => if pm_resync p then (p, Continue) else after_resync r p
            end
          else after_resync r p
      end
  end.

Definition ends (event : AttachEvent) : bool :=
  match event with Done _ _ | Closed => true | _ => false end.

(** What a transport sees, turn after turn, until the stream ends. *)
Fixpoint pump_run (turns : list Readings) (p : AttachPump) : AttachPump * list AttachEvent :=
  match turns with
  | [] => (p, [])
  | r :: turns =>
      match next_turn r p with
      | (p, Return event) =>
          if ends event then (p, [event])
          else let '(p, events) := pump_run turns p in (p, event :: events)
      | (p, _) => pump_run turns p
      end
  end.

(** ** Pieces of a stream *)

Definition piece (stream : bytes) (offset : N) (data : bytes) : Prop :=
  ∃ before after, stream = before ++ data ++ after ∧ len before = offset.

Lemma piece_nil stream offset : piece stream offset [] ↔ offset <= len stream.
Proof.
  split.
  - intros (x & y & -> & <-). rewrite !len_app. lia.
  - intros Hle. exists (take (N.to_nat offset) stream), (drop (N.to_nat offset) stream).
    cbn [app]. rewrite take_drop, len_take. split; [done|]. lia.
Qed.

Lemma piece_app stream offset a b :
  piece stream offset (a ++ b) ↔ piece stream offset a ∧ piece stream (offset + len a) b.
Proof.
  split.
  - intros (x & y & -> & <-). split.
    + exists x, (b ++ y). by rewrite <- app_assoc.
    + exists (x ++ a), y. rewrite len_app, <- !app_assoc. done.
  - intros [(x & y & Hs & <-) (x' & y' & Hs' & Hl)].
    exists x, y'. split; [|done]. rewrite Hs in Hs'. rewrite Hs, <- app_assoc.
    assert (x' = x ++ a) as ->.
    { rewrite app_assoc in Hs'. apply app_inj_1 in Hs' as [-> _]; [done|].
      rewrite <- len_app in Hl. unfold len in Hl. lia. }
    rewrite <- app_assoc in Hs'. do 2 apply app_inv_head in Hs'. by rewrite Hs'.
Qed.

Lemma piece_end stream offset data : piece stream offset data → offset + len data <= len stream.
Proof. intros (x & y & -> & <-). rewrite !len_app. lia. Qed.

(** What is left of a piece after its first bytes. *)
Lemma piece_drop stream offset data n :
  piece stream offset data → n <= len data → piece stream (offset + n) (drop (N.to_nat n) data).
Proof.
  intros Hp Hn. rewrite <- (take_drop (N.to_nat n) data) in Hp. apply piece_app in Hp as [_ Hp].
  rewrite len_take in Hp. by replace (N.min (N.of_nat (N.to_nat n)) (len data)) with n in Hp by lia.
Qed.

(** ** The readings a session gives *)

(** The persisted windows, the broadcast chunks and the stream length are
    those of one stream, of which the turn sees as much as there is. *)
Record reads (stream : bytes) (r : Readings) : Prop := {
  re_window : ∀ from max data, from <= len stream → rd_window r from max = Ok data →
    piece stream from data ∧ len data <= max;
  re_recv : ∀ c, rd_selected r = Some (Recv c) → piece stream (chunk_offset c) (chunk_bytes c);
  re_buffered : ∀ c, TryChunk c ∈ rd_buffered r → piece stream (chunk_offset c) (chunk_bytes c);
}.

Definition is_modes (e : AttachEvent) : Prop := match e with Modes _ => True | _ => False end.

Record pump_ok (stream : bytes) (p : AttachPump) : Prop := {
  po_cursor : pm_current_offset p <= len stream;
  po_held : ∀ c, pm_held p = Some c → piece stream (chunk_offset c) (chunk_bytes c);
  po_pending : Forall is_modes (pm_pending p);
}.

(** The events of one turn or more, from cursor [c] to cursor [c']. *)
Inductive streams (stream : bytes) : N → list AttachEvent → N → Prop :=
  | streams_end c : streams stream c [] c
  | streams_chunk c data events c' :
      data ≠ [] → piece stream c data → streams stream (c + len data) events c' →
      streams stream c (Chunk c data :: events) c'
  | streams_modes c modes events c' :
      streams stream c events c' → streams stream c (Modes modes :: events) c'
  | streams_done c exit_code : streams stream c [Done exit_code c] c
  | streams_closed c : streams stream c [Closed] c.

Lemma observe_modes_fields r p :
  pm_current_offset (observe_modes r p) = pm_current_offset p
  ∧ pm_held (observe_modes r p) = pm_held p
  ∧ (Forall is_modes (pm_pending p) → Forall is_modes (pm_pending (observe_modes r p))).
Proof.
  unfold observe_modes. destruct (pm_shared_modes p); [|done]. destruct (bool_decide _); [done|].
  cbn [set_pending set_modes pm_current_offset pm_held pm_pending]. split_and!; [done|done|].
  intros Hf. apply Forall_app. split; [done|]. by constructor.
Qed.

Lemma pump_ok_observe stream r p : pump_ok stream p → pump_ok stream (observe_modes r p).
Proof.
  intros [Hc Hh Hp]. destruct (observe_modes_fields r p) as (Ho & Hhe & Hpe).
  split; [by rewrite Ho|by rewrite Hhe|by apply Hpe].
Qed.

(** Coalescing extends an aligned piece and keeps the cursor. *)
Lemma coalesce_spec stream buffered data p :
  pump_ok stream p → piece stream (pm_current_offset p) data →
  (∀ c, TryChunk c ∈ buffered → piece stream (chunk_offset c) (chunk_bytes c)) →
  let '(p', data') := coalesce buffered data p in
  pump_ok stream p' ∧ pm_current_offset p' = pm_current_offset p
  ∧ piece stream (pm_current_offset p) data' ∧ (data ≠ [] → data' ≠ []).
Proof.
  revert data. induction buffered as [|t buffered IH]; intros data Hok Hd Hb; cbn [coalesce];
    (destruct (len data <? MAX_COALESCED_CHUNK_BYTES); [|done]); [done|].
  pose proof Hok as [Hc Hh Hp]. destruct t as [next|n|]; [|by split|done].
  assert (piece stream (chunk_offset next) (chunk_bytes next)) as Hn by (apply Hb; by left).
  destruct (N.ltb_spec (pm_current_offset p + len data) (chunk_offset next)) as [Hlt|Hge].
  - split_and!; try done. split; [done| |done]. by intros c [= <-].
  - set (skip := pm_current_offset p + len data - chunk_offset next).
    set (data1 := if skip <? len (chunk_bytes next) then _ else data).
    assert (piece stream (pm_current_offset p) data1 ∧ (data ≠ [] → data1 ≠ [])) as [Hd1 Hne].
    { unfold data1. destruct (N.ltb_spec skip (len (chunk_bytes next))) as [Hs|]; [|done].
      split; [|by intros ? [? _]%app_eq_nil]. apply piece_app. split; [done|].
      replace (pm_current_offset p + len data) with (chunk_offset next + skip) by (unfold skip; lia).
      apply piece_drop; [done|lia]. }
    specialize (IH data1 Hok Hd1 ltac:(intros c Hc'; apply Hb; by right)).
    destruct (coalesce buffered data1 p) as [p' data']. destruct IH as (? & ? & ? & Hne'). split_and!; auto.
Qed.

(** A chunk of the stream is skipped, held or forwarded at the cursor. *)
Lemma forward_chunk_spec stream r chunk p :
  pump_ok stream p → reads stream r → piece stream (chunk_offset chunk) (chunk_bytes chunk) →
  let '(p', f) := forward_chunk r chunk p in
  pump_ok stream p' ∧
  match f with
  | Skip => pm_current_offset p' = pm_current_offset p
  | Forwarded offset data => offset = pm_current_offset p ∧ piece stream offset data
      ∧ pm_current_offset p' = offset + len data
  end.
Proof.
  intros Hok Hr Hch. unfold forward_chunk. pose proof Hok as [Hc Hh Hp].
  destruct ((_ <? _) && _) eqn:Hskip; [done|].
  set (c := if chunk_offset chunk <? pm_current_offset p then _ else chunk).
  assert (piece stream (chunk_offset c) (chunk_bytes c) ∧ pm_current_offset p <= chunk_offset c) as [Hpc Hle].
  { unfold c. destruct (N.ltb_spec (chunk_offset chunk) (pm_current_offset p)) as [Hlt|]; [|done].
    cbn [chunk_offset chunk_bytes andb] in *. split; [|lia]. apply N.leb_gt in Hskip.
    replace (pm_current_offset p) with (chunk_offset chunk + (pm_current_offset p - chunk_offset chunk)) at 1 by lia.
    apply piece_drop; [done|lia]. }
  clearbody c. destruct (N.ltb_spec (pm_current_offset p) (chunk_offset c)) as [Hlt|Hge].
  - split; [|done]. split; [done| |done]. by intros x [= <-].
  - assert (chunk_offset c = pm_current_offset p) as Heq by lia. rewrite Heq in Hpc.
    pose proof (coalesce_spec stream (rd_buffered r) (chunk_bytes c) p Hok Hpc (re_buffered _ _ Hr)) as Hco.
    destruct (coalesce (rd_buffered r) (chunk_bytes c) p) as [p' data]. destruct Hco as (Hok' & Hcur & Hd & _).
    rewrite Hcur. pose proof (piece_end _ _ _ Hd) as Hend.
    split; [|split_and!; [done|done|by rewrite (proj1 (observe_modes_fields _ _))]].
    apply pump_ok_observe. destruct Hok'. by split.
Qed.

(** What a turn may return: [e] leads from cursor [c] to cursor [c']. *)
Definition emits (stream : bytes) (c : N) (e : AttachEvent) (c' : N) : Prop :=
  match e with
  | Chunk offset data => offset = c ∧ data ≠ [] ∧ piece stream c data ∧ c' = c + len data
  | Modes _ => c' = c
  | Done _ final => final = c ∧ c' = c
  | Closed => c' = c
  end.

Definition turn_ok (stream : bytes) (p : AttachPump) (pr : AttachPump * TurnResult) : Prop :=
  pump_ok stream pr.1 ∧
  match pr.2 with
  | Return e => emits stream (pm_current_offset p) e (pm_current_offset pr.1)
  | _ => pm_current_offset pr.1 = pm_current_offset p
  end.

Lemma deliver_ok stream r chunk p p0 :
  pump_ok stream p → reads stream r → piece stream (chunk_offset chunk) (chunk_bytes chunk) →
  pm_current_offset p = pm_current_offset p0 →
  turn_ok stream p0 (deliver (forward_chunk r chunk p)).
Proof.
  intros Hok Hr Hch Heq. pose proof (forward_chunk_spec stream r chunk p Hok Hr Hch) as Hf.
  destruct (forward_chunk r chunk p) as [p' [offset data|]]; destruct Hf as [Hok' Hf]; cbn [deliver].
  - destruct Hf as (-> & Hp & Hc'). destruct (N.eqb_spec (len data) 0) as [Hz|Hne]; cbn [negb]; (split; [done|]); cbn [snd fst].
    + lia.
    + rewrite <- Heq. split_and!; [done|by apply len_nonempty|done|done].
  - split; [done|]. cbn [fst snd]. congruence.
Qed.

Lemma select_arm_ok stream r p : pump_ok stream p → reads stream r → turn_ok stream p (select_arm r p).
Proof.
  intros Hok Hr. pose proof Hok as [Hc Hh Hp]. unfold select_arm.
  destruct (rd_selected r) as [[[[[running closed] code]|]|chunk|n|code]|] eqn:Hs.
  - destruct (pm_completing p); [done|]. destruct (negb running && closed); (split; [by split|done]).
  - by destruct (pm_completing p).
  - apply deliver_ok; [done|done|by apply (re_recv _ _ Hr)|done].
  - done.
  - done.
  - done.
Qed.

Lemma after_resync_ok stream r p : pump_ok stream p → reads stream r → turn_ok stream p (after_resync r p).
Proof.
  intros Hok Hr. pose proof Hok as [Hc Hh Hp]. unfold after_resync.
  destruct (pm_held p) as [chunk|] eqn:Hheld; [|by apply select_arm_ok].
  apply deliver_ok; [by split|done|by apply Hh|done].
Qed.

Lemma resync_step_ok stream r p :
  pump_ok stream p → reads stream r →
  let '(p', res) := resync_step r p in
  turn_ok stream p (p', match res with Some e => Return e | None => Continue end).
Proof.
  intros Hok Hr. pose proof Hok as [Hc Hh Hp]. unfold resync_step.
  destruct (rd_window r _ _) as [data|e] eqn:Hw; [|done].
  destruct (re_window _ _ Hr _ _ _ Hc Hw) as [Hd Hlen]. pose proof (piece_end _ _ _ Hd) as Hend.
  destruct (N.eqb_spec (len data) 0) as [Hz|Hne]; cbn [negb].
  - destruct (_ || _); [destruct (_ <? FLUSH_RETRY_MAX)|cbn [set_retries pm_completing]; destruct (pm_completing p)]; (split; [by split|done]).
  - set (p1 := if pm_resync _ then _ else _).
    assert (pump_ok stream p1 ∧ pm_current_offset p1 = pm_current_offset p + len data) as [Hok1 Hc1].
    { unfold p1. destruct (pm_resync _); by split. }
    split; [by apply pump_ok_observe|]. cbn [fst snd emits].
    rewrite (proj1 (observe_modes_fields r p1)). split_and!; [done|by apply len_nonempty|done|done].
Qed.

Lemma await_credit_closed r p e : await_credit r p = Some (Some e) → e = Closed.
Proof.
  unfold await_credit. destruct (pm_credit p) as [policy|]; [|done]. destruct (_ <=? _); [done|].
  generalize (rd_polls r). intros l. induction l as [|[now applied] l IH]; [done|]. cbn [poll_credit].
  destruct (_ <=? _); [done|]. destruct (_ <=? now); [by intros [= <-]|done].
Qed.

Lemma next_turn_ok stream r p : pump_ok stream p → reads stream r → turn_ok stream p (next_turn r p).
Proof.
  intros Hok Hr. pose proof Hok as [Hc Hh Hp]. unfold next_turn.
  destruct (await_credit r p) as [[e|]|] eqn:Hcr; [by apply await_credit_closed in Hcr as ->| |done].
  destruct (pm_pending p) as [|event pending].
  - destruct (pm_resync p); [|by apply after_resync_ok].
    pose proof (resync_step_ok stream r p Hok Hr) as Hs.
    destruct (resync_step r p) as [p' [e|]]; [done|].
    destruct (pm_resync p'); [done|]. destruct Hs as [Hok' Hcur]. cbn [fst snd] in *.
    destruct (after_resync_ok stream r p' Hok' Hr) as [Hok'' Hres]. split; [done|].
    destruct (after_resync r p').2; congruence || by rewrite <- Hcur.
  - apply Forall_cons in Hp as [He Hp]. split; [done|]. by destruct event.
Qed.

(** C6: A client sees exactly the session's stream.  However the persisted
    stream, the broadcast channel with its overflows and repetitions, the
    completion poll and the client's credit interleave, the chunks a pump
    returns are, from the cursor it was subscribed at, the consecutive pieces
    of the session's one stream: nothing is skipped, repeated or reordered,
    no chunk is empty, mode events never replace bytes, and a final offset is
    exactly where the client is. *)
Theorem pump_streams_exactly stream p turns :
  pump_ok stream p → Forall (reads stream) turns →
  let '(p', events) := pump_run turns p in
  streams stream (pm_current_offset p) events (pm_current_offset p') ∧ pump_ok stream p'.
Proof.
  revert p. induction turns as [|r turns IH]; intros p Hok Hr; cbn [pump_run]; [split; [constructor|done]|].
  apply Forall_cons in Hr as [Hr Hrs]. pose proof (next_turn_ok stream r p Hok Hr) as Ht.
  destruct (next_turn r p) as [p1 res]. destruct Ht as [Hok1 Hres]. cbn [fst snd] in *.
  specialize (IH p1 Hok1 Hrs). destruct (pump_run turns p1) as [p2 events].
  destruct res as [|e|]; [by rewrite Hres in IH| |by rewrite Hres in IH].
  destruct IH as [IH Hok2]. destruct e as [offset data|modes|code final|]; cbn [ends emits] in *.
  - destruct Hres as (-> & Hne & Hp & Hc). rewrite Hc in IH. split; [by constructor|done].
  - rewrite Hres in IH. split; [by constructor|done].
  - destruct Hres as [-> ->]. split; [constructor|done].
  - rewrite Hres. split; [constructor|done].
Qed.

(** ** Credit *)

(** PTY reads are at most 64 KiB, and a broadcast chunk is what one shows with
    the less than 4 KiB an earlier one left pending; a retained chunk is one of
    them. *)
Definition CHUNK_BYTES : N := 64 * 1024 + 4096.

Record small_chunks (r : Readings) : Prop := {
  sc_window : ∀ from max data, rd_window r from max = Ok data → len data <= max;
  sc_recv : ∀ c, rd_selected r = Some (Recv c) → len (chunk_bytes c) <= CHUNK_BYTES;
  sc_buffered : ∀ c, TryChunk c ∈ rd_buffered r → len (chunk_bytes c) <= CHUNK_BYTES;
}.

Definition held_small (p : AttachPump) : Prop :=
  ∀ c, pm_held p = Some c → len (chunk_bytes c) <= CHUNK_BYTES.

Lemma coalesce_small buffered data p :
  held_small p → len data <= MAX_COALESCED_CHUNK_BYTES + CHUNK_BYTES →
  (∀ c, TryChunk c ∈ buffered → len (chunk_bytes c) <= CHUNK_BYTES) →
  let '(p', data') := coalesce buffered data p in
  held_small p' ∧ pm_current_offset p' = pm_current_offset p
  ∧ len data' <= MAX_COALESCED_CHUNK_BYTES + CHUNK_BYTES.
Proof.
  revert data. induction buffered as [|t buffered IH]; intros data Hh Hd Hb; cbn [coalesce];
    (destruct (N.ltb_spec (len data) MAX_COALESCED_CHUNK_BYTES) as [Hlt|]; [|done]); [done|].
  destruct t as [next|n|]; [|done|done].
  assert (len (chunk_bytes next) <= CHUNK_BYTES) as Hn by (apply Hb; by left).
  destruct (_ <? chunk_offset next); [by split_and!; [intros c [= <-]| |]|].
  apply IH; [done| |by intros c Hc; apply Hb; right].
  destruct (_ <? _); [|done]. rewrite len_app, len_drop. lia.
Qed.

Lemma forward_chunk_small r chunk p :
  held_small p → small_chunks r → len (chunk_bytes chunk) <= CHUNK_BYTES →
  let '(p', _) := forward_chunk r chunk p in
  held_small p' ∧ pm_current_offset p' <= pm_current_offset p + MAX_COALESCED_CHUNK_BYTES + CHUNK_BYTES.
Proof.
  intros Hh Hr Hch. unfold forward_chunk. destruct (_ && _); [split; [done|lia]|].
  set (c := if chunk_offset chunk <? pm_current_offset p then _ else chunk).
  assert (len (chunk_bytes c) <= CHUNK_BYTES) as Hc.
  { unfold c. destruct (_ <? _); [|done]. cbn. rewrite len_drop. lia. }
  destruct (_ <? chunk_offset c); [split; [by intros x [= <-]|cbn; lia]|].
  pose proof (coalesce_small (rd_buffered r) (chunk_bytes c) p Hh ltac:(lia) (sc_buffered _ Hr)) as Hco.
  destruct (coalesce _ _ p) as [p' data]. destruct Hco as (Hh' & Hcur & Hd).
  destruct (observe_modes_fields r (set_offset (pm_current_offset p' + len data) p')) as (Ho & Hhe & _).
  unfold held_small. rewrite Ho, Hhe. split; [done|]. cbn. lia.
Qed.

Lemma forward_limit : MAX_COALESCED_CHUNK_BYTES + CHUNK_BYTES <= RESYNC_WINDOW_BYTES.
Proof. by vm_compute. Qed.

(** From [p], a turn's part leads to small held chunks and at most a window on. *)
Definition advances (p p' : AttachPump) : Prop :=
  held_small p' ∧ pm_current_offset p' <= pm_current_offset p + RESYNC_WINDOW_BYTES.

Lemma advances_same p p' :
  held_small p' → pm_current_offset p' = pm_current_offset p → advances p p'.
Proof. intros ? Hc. split; [done|]. rewrite Hc. lia. Qed.

Lemma deliver_advance r chunk p p' :
  held_small p' → pm_current_offset p' = pm_current_offset p → small_chunks r →
  len (chunk_bytes chunk) <= CHUNK_BYTES → advances p (deliver (forward_chunk r chunk p')).1.
Proof.
  intros Hh' Hc' Hr Hl. pose proof forward_limit. pose proof (forward_chunk_small r chunk p' Hh' Hr Hl) as Hf.
  destruct (forward_chunk r chunk p') as [p2 [o d|]]; cbn [deliver]; [destruct (negb _)|]; cbn [fst];
    (split; [apply Hf|]); destruct Hf; lia.
Qed.

Lemma after_resync_advance r p p' :
  held_small p' → pm_current_offset p' = pm_current_offset p → small_chunks r →
  advances p (after_resync r p').1.
Proof.
  intros Hh' Hc' Hr. unfold after_resync.
  destruct (pm_held p') as [c|] eqn:Hc; [by apply deliver_advance; auto|]. unfold select_arm.
  destruct (rd_selected r) as [[[[[running closed] code]|]|chunk|n|code]|] eqn:Hs;
    try by apply advances_same.
  - destruct (pm_completing p'); [by apply advances_same|]. destruct (_ && _); by apply advances_same.
  - destruct (pm_completing p'); by apply advances_same.
  - apply deliver_advance; [done|done|done|by apply (sc_recv _ Hr)].
Qed.

Lemma resync_step_advance r p :
  held_small p → small_chunks r →
  advances p (resync_step r p).1
  ∧ ((resync_step r p).2 = None → pm_current_offset (resync_step r p).1 = pm_current_offset p).
Proof.
  intros Hh Hr. unfold resync_step. destruct (rd_window r _ _) as [data|e] eqn:Hw; [|by split; [apply advances_same|]].
  pose proof (sc_window _ Hr _ _ _ Hw). destruct (negb _).
  - cbn [fst snd]. split; [|done]. set (p1 := if pm_resync _ then _ else _).
    assert (pm_held p1 = pm_held p ∧ pm_current_offset p1 = pm_current_offset p + len data) as [H1 H2]
      by (unfold p1; by destruct (pm_resync _)).
    destruct (observe_modes_fields r p1) as (Ho & Hhe & _). unfold advances, held_small.
    rewrite Ho, Hhe, H1, H2. split; [done|lia].
  - destruct (_ || _); [destruct (_ <? FLUSH_RETRY_MAX)|cbn [set_retries pm_completing]; destruct (pm_completing p)];
      by split; [apply advances_same|].
Qed.

(** One turn advances by at most one window. *)
Lemma turn_advance r p : held_small p → small_chunks r → advances p (next_turn r p).1.
Proof.
  intros Hh Hr. unfold next_turn. destruct (await_credit r p) as [[e|]|]; try by apply advances_same.
  destruct (pm_pending p); [|by apply advances_same].
  destruct (pm_resync p); [|by apply after_resync_advance].
  pose proof (resync_step_advance r p Hh Hr) as [Ha Hn].
  destruct (resync_step r p) as [p' [e|]]; cbn [fst snd] in *; [done|].
  destruct (pm_resync p'); [done|]. apply after_resync_advance; [apply Ha|by apply Hn|done].
Qed.

Lemma await_credit_granted r p policy :
  pm_credit p = Some policy → await_credit r p = Some None →
  ∃ applied, applied ∈ rd_applied r :: map snd (rd_polls r)
    ∧ pm_current_offset p <= applied + budget_bytes policy.
Proof.
  intros Hp. unfold await_credit, in_flight. rewrite Hp.
  destruct (N.leb_spec (pm_current_offset p - rd_applied r) (budget_bytes policy)).
  { exists (rd_applied r). split; [by left|lia]. }
  intros Hpoll. assert (∃ applied, applied ∈ map snd (rd_polls r) ∧ pm_current_offset p <= applied + budget_bytes policy)
    as (a & Ha & Hle).
  { revert Hpoll. generalize (rd_polls r). intros l. induction l as [|[now applied] l IH]; [done|]. cbn [poll_credit].
    unfold in_flight. destruct (N.leb_spec (pm_current_offset p - applied) (budget_bytes policy)) as [Hle|].
    - intros _. exists applied. cbn. split; [by left|lia].
    - destruct (_ <=? now); [done|]. intros (a & Ha & ?)%IH. exists a. cbn. split; [by right|done]. }
  exists a. split; [by right|done].
Qed.

(** C25: A credited client is never sent past its budget.  Whenever a turn of a
    credited pump returns output or moves its cursor, the client had reported
    a cursor within the policy's budget during that very turn, so what is in
    flight afterwards is at most the budget and one replay window (8 MiB);
    and a client that stays behind until the stall deadline gets [Closed],
    with nothing consumed. *)
Theorem credit_bounds_flight r p policy :
  pm_credit p = Some policy → held_small p → small_chunks r →
  (pm_current_offset (next_turn r p).1 ≠ pm_current_offset p
     ∨ (∃ offset data, (next_turn r p).2 = Return (Chunk offset data)) →
   ∃ applied, applied ∈ rd_applied r :: map snd (rd_polls r)
     ∧ pm_current_offset p <= applied + budget_bytes policy
     ∧ pm_current_offset (next_turn r p).1 <= applied + budget_bytes policy + RESYNC_WINDOW_BYTES)
  ∧ ((∀ applied, applied ∈ rd_applied r :: map snd (rd_polls r) →
        applied + budget_bytes policy < pm_current_offset p) →
     (∃ now applied, (now, applied) ∈ rd_polls r ∧ rd_now r + stall_timeout policy <= now) →
     next_turn r p = (p, Return Closed)).
Proof.
  intros Hp Hh Hr. split.
  - intros Hmove. destruct (turn_advance r p Hh Hr) as [_ Hadv].
    destruct (await_credit r p) as [[e|]|] eqn:Hc.
    + exfalso. unfold next_turn in Hmove. rewrite Hc in Hmove. apply await_credit_closed in Hc as ->.
      destruct Hmove as [?|(? & ? & [=])]. done.
    + destruct (await_credit_granted _ _ _ Hp Hc) as (a & Ha & Hle). exists a. split_and!; [done|done|lia].
    + exfalso. unfold next_turn in Hmove. rewrite Hc in Hmove. destruct Hmove as [?|(? & ? & [=])]. done.
  - intros Hbehind (now & applied & Hin & Hdl).
    assert (await_credit r p = Some (Some Closed)) as Hc; [|unfold next_turn; by rewrite Hc].
    unfold await_credit, in_flight. rewrite Hp.
    destruct (N.leb_spec (pm_current_offset p - rd_applied r) (budget_bytes policy)).
    { specialize (Hbehind (rd_applied r) ltac:(by left)). lia. }
    assert (∀ a, a ∈ map snd (rd_polls r) → a + budget_bytes policy < pm_current_offset p) as Hb
      by (intros a Ha; apply Hbehind; by right).
    revert Hin Hb. generalize (rd_polls r). intros l. induction l as [|[n a] l IH]; intros Hin Hb; [by apply elem_of_nil in Hin|].
    cbn [poll_credit map snd] in *. unfold in_flight. specialize (Hb a ltac:(by left)) as Hba.
    destruct (N.leb_spec (pm_current_offset p - a) (budget_bytes policy)); [lia|].
    destruct (N.leb_spec (rd_now r + stall_timeout policy) n) as [|Hlt]; [done|].
    apply IH; [|intros x Hx; apply Hb; by right].
    apply elem_of_cons in Hin as [[= <- <-]|Hin]; [lia|done].
Qed.

(** ** Gaps that stay open *)

(** The journal has not caught up: nothing persisted at the cursor, although
    a retained chunk starts past it or the finished stream is longer. *)
Definition behind (p : AttachPump) (r : Readings) : Prop :=
  rd_window r (pm_current_offset p) RESYNC_WINDOW_BYTES = Ok []
  ∧ ((∃ c, pm_held p = Some c ∧ pm_current_offset p < chunk_offset c)
     ∨ (∃ code n, pm_completing p = Some code ∧ rd_filtered_len r = Some n ∧ pm_current_offset p < n)).

Lemma behind_turn p r :
  pm_credit p = None → pm_pending p = [] → pm_resync p = true → behind p r →
  next_turn r p = if pm_flush_retries p <? FLUSH_RETRY_MAX
                  then (set_retries (pm_flush_retries p + 1) p, Continue) else (p, Return Closed).
Proof.
  intros Hc Hp Hr [Hw Hb]. unfold next_turn, await_credit, resync_step. rewrite Hc, Hp, Hr, Hw.
  change (negb (len (@nil byte) =? 0)) with false. cbv iota zeta.
  assert ((match pm_held p with Some chunk => pm_current_offset p <? chunk_offset chunk | None => false end
    || match pm_completing p, rd_filtered_len r with
       | Some _, Some n => pm_current_offset p <? n | _, _ => false end) = true) as ->.
  { destruct Hb as [(c & -> & Hlt)|(code & n & -> & -> & Hlt)]; ltb_to true; [done|apply orb_true_r]. }
  destruct (pm_flush_retries p <? FLUSH_RETRY_MAX); [|done]. cbn [set_retries pm_resync]. by rewrite Hr.
Qed.

(** Waiting for the journal is bounded.  A pump that is waiting for bytes
    the journal has not persisted keeps waiting through at most
    FLUSH_RETRY_MAX turns that find nothing, and the next one ends the stream
    with [Closed]: never a skipped byte, never an endless wait. *)
Theorem gap_wait_is_bounded p turns :
  pm_credit p = None → pm_pending p = [] → pm_resync p = true →
  pm_flush_retries p <= FLUSH_RETRY_MAX → Forall (behind p) turns →
  (pump_run turns p).2
  = if len turns <=? FLUSH_RETRY_MAX - pm_flush_retries p then [] else [Closed].
Proof.
  revert p. induction turns as [|r turns IH]; intros p Hc Hp Hr Hle Hb; [by rewrite len_nil; leb_to true|].
  apply Forall_cons in Hb as [Hbr Hb]. cbn [pump_run]. rewrite (behind_turn p r Hc Hp Hr Hbr), len_cons.
  destruct (N.ltb_spec (pm_flush_retries p) FLUSH_RETRY_MAX) as [Hlt|Hge].
  - rewrite (IH (set_retries (pm_flush_retries p + 1) p)); [|done|done|done|cbn; lia|done].
    cbn [set_retries pm_flush_retries].
    destruct (N.leb_spec (len turns) (FLUSH_RETRY_MAX - (pm_flush_retries p + 1)));
      [leb_to true|leb_to false]; done.
  - leb_to false. done.
Qed.

(** ** Completion *)

(** Nothing is under way. *)
Definition idle (p : AttachPump) : Prop :=
  pm_credit p = None ∧ pm_pending p = [] ∧ pm_resync p = false ∧ pm_held p = None.

(** A turn without news: nothing ready, a completion tick, or a chunk the
    client already has. *)
Definition no_news (p : AttachPump) (r : Readings) : Prop :=
  match rd_selected r with
  | None | Some (Tick _) => True
  | Some (Recv c) => chunk_offset c + len (chunk_bytes c) <= pm_current_offset p
      ∧ chunk_offset c < pm_current_offset p
  | _ => False
  end.

Lemma stalled p code turns :
  idle p → pm_completing p = Some code → Forall (no_news p) turns → pump_run turns p = (p, []).
Proof.
  intros (Hc & Hp & Hr & Hh) Hco Hn. induction Hn as [|r turns Hn _ IH]; [done|]. cbn [pump_run].
  assert ((next_turn r p).1 = p ∧ ∀ e, (next_turn r p).2 ≠ Return e) as [Hp1 Hp2].
  { unfold next_turn, await_credit, after_resync, select_arm. rewrite Hc, Hp, Hr, Hh. unfold no_news in Hn.
    destruct (rd_selected r) as [[st|c|n|code']|]; try done; [by rewrite Hco|].
    unfold forward_chunk. ltb_to true. leb_to true. done. }
  destruct (next_turn r p) as [p1 [|e|]]; cbn [fst snd] in *; subst p1; [done|by destruct (Hp2 e)|done].
Qed.

(** Completion, at the end and before it.  When an idle pump notices that
    the session has ended and the client already has every byte, the next
    turn returns [Done] with the client's cursor.  When a last piece of the
    stream is still unread, that piece is delivered, and then nothing: as
    long as the broadcast channel stays open and brings no further chunk,
    however many completion ticks pass, [Done] never comes. *)
Theorem completion_depends_on_tail p code tick window turns :
  idle p → pm_completing p = None → pm_shared_modes p = false →
  rd_selected tick = Some (Tick (Some (false, true, code))) →
  (rd_window window (pm_current_offset p) RESYNC_WINDOW_BYTES = Ok [] →
   (∀ n, rd_filtered_len window = Some n → n <= pm_current_offset p) →
   (pump_run [tick; window] p).2 = [Done code (pm_current_offset p)])
  ∧ (∀ tail, rd_window window (pm_current_offset p) RESYNC_WINDOW_BYTES = Ok tail →
     tail ≠ [] → len tail < RESYNC_WINDOW_BYTES →
     Forall (no_news (set_offset (pm_current_offset p + len tail) p)) turns →
     (pump_run (tick :: window :: turns) p).2 = [Chunk (pm_current_offset p) tail]).
Proof.
  intros (Hc & Hp & Hr & Hh) Hco Hsm Ht.
  assert (next_turn tick p = (set_resync true (set_completing (Some code) p), Continue)) as H1.
  { unfold next_turn, await_credit, after_resync, select_arm. by rewrite Hc, Hp, Hr, Hh, Ht, Hco. }
  set (p1 := set_resync true (set_completing (Some code) p)) in *. split.
  - intros Hw Hn. cbn [pump_run]. rewrite H1. unfold next_turn, await_credit, resync_step.
    cbn [p1 set_resync set_completing pm_credit pm_pending pm_resync pm_held pm_completing pm_current_offset].
    rewrite Hc, Hp, Hw, Hh. change (negb (len (@nil byte) =? 0)) with false. cbv iota zeta. cbn [orb].
    destruct (rd_filtered_len window) as [n|]; [|done]. specialize (Hn n eq_refl). ltb_to false. done.
  - intros tail Hw Hne Hlt Hnews. cbn [pump_run]. rewrite H1.
    set (p2 := set_episode false (set_resync false (set_retries 0 (set_offset (pm_current_offset p + len tail) p1)))).
    assert (next_turn window p1 = (p2, Return (Chunk (pm_current_offset p) tail))) as H2.
    { unfold next_turn, await_credit, resync_step.
      cbn [p1 set_resync set_completing pm_credit pm_pending pm_resync pm_held pm_completing pm_current_offset].
      rewrite Hc, Hp, Hw. apply len_nonempty in Hne. eqb_to false. cbn [negb]. eqb_to false.
      unfold observe_modes. cbn. by rewrite Hsm. }
    rewrite H2. cbn [ends]. rewrite (stalled p2 code turns); [done|by split_and!|done|done].
Qed.

(** ** Witnesses *)

Definition sample_stream : bytes := bs "hello, world".

(** Everything is persisted; the turn has [selected] and [buffered]. *)
Definition sample_turn (selected : option Selected) (buffered : list TryRecv) : Readings :=
  {| rd_now := 0; rd_applied := 0; rd_polls := [(25, 0); (30025, 0)];
     rd_window := λ from max, Ok (take (N.to_nat max) (drop (N.to_nat from) sample_stream));
     rd_filtered_len := Some 12; rd_selected := selected; rd_buffered := buffered; rd_mode_bits := 3 |}.

Definition sample_pump (offset : N) (credit : option CreditPolicy) : AttachPump :=
  subscribed true (modes_load 0) offset credit.

(** A burst with a repetition, a lag, the replay and the end. *)
Definition sample_turns : list Readings :=
  [sample_turn (Some (Recv (mk_chunk 0 (bs "hel")))) [TryChunk (mk_chunk 2 (bs "llo")); TryNone];
   sample_turn None []; sample_turn (Some (RecvLagged 2)) []; sample_turn None [];
   sample_turn (Some (Tick (Some (false, true, Some 0%Z)))) []; sample_turn None []].

Example sample_events :
  (pump_run sample_turns (sample_pump 0 None)).2
  = [Chunk 0 (bs "hello"); Modes (modes_load 3); Chunk 5 (bs ", world"); Done (Some 0%Z) 12].
Proof. by vm_compute. Qed.

Lemma sample_piece before data after :
  sample_stream = before ++ data ++ after → piece sample_stream (len before) data.
Proof. intros H. by exists before, after. Qed.

Lemma sample_turn_reads selected buffered :
  (∀ c, selected = Some (Recv c) → piece sample_stream (chunk_offset c) (chunk_bytes c)) →
  (∀ c, TryChunk c ∈ buffered → piece sample_stream (chunk_offset c) (chunk_bytes c)) →
  reads sample_stream (sample_turn selected buffered).
Proof.
  intros Hs Hb. split; [|done|done]. intros from max data Hle. cbn [sample_turn rd_window]. intros [= <-].
  split; [|rewrite len_take; lia].
  exists (take (N.to_nat from) sample_stream), (drop (N.to_nat max) (drop (N.to_nat from) sample_stream)).
  rewrite !take_drop, len_take. split; [done|lia].
Qed.

Lemma sample_reads : Forall (reads sample_stream) sample_turns.
Proof.
  apply Forall_cons. split.
  - apply sample_turn_reads.
    + intros c [= <-]. by apply (sample_piece [] _ (bs "lo, world")).
    + intros c Hc. assert (c = mk_chunk 2 (bs "llo")) as -> by set_solver.
      by apply (sample_piece (bs "he") _ (bs ", world")).
  - repeat (apply Forall_cons; split; [by apply sample_turn_reads; [|intros c ?%elem_of_nil]|]). done.
Qed.

Lemma sample_pump_ok : pump_ok sample_stream (sample_pump 0 None).
Proof. split; cbn; [lia|done|done]. Qed.

Lemma pump_streams_exactly_witness :
  let '(p', events) := pump_run sample_turns (sample_pump 0 None) in
  streams sample_stream 0 events (pm_current_offset p') ∧ pump_ok sample_stream p'.
Proof. apply (pump_streams_exactly sample_stream (sample_pump 0 None) sample_turns sample_pump_ok sample_reads). Defined.

(** A client eight bytes behind, with a budget of four, that never applies. *)
Definition sample_policy : CreditPolicy := mk_policy 4 30000 25.

Lemma credit_bounds_flight_witness :
  let r := sample_turn None [] in let p := sample_pump 8 (Some sample_policy) in
  (pm_current_offset (next_turn r p).1 ≠ 8
     ∨ (∃ offset data, (next_turn r p).2 = Return (Chunk offset data)) →
   ∃ applied, applied ∈ [0; 0; 0] ∧ 8 <= applied + 4
     ∧ pm_current_offset (next_turn r p).1 <= applied + 4 + RESYNC_WINDOW_BYTES)
  ∧ ((∀ applied, applied ∈ [0; 0; 0] → applied + 4 < 8) →
     (∃ now applied, (now, applied) ∈ [(25, 0); (30025, 0)] ∧ 0 + 30000 <= now) →
     next_turn r p = (p, Return Closed)).
Proof.
  apply (credit_bounds_flight (sample_turn None []) (sample_pump 8 (Some sample_policy)) sample_policy eq_refl).
  - by intros c.
  - split; [|done|]; cbn; [|by intros c ?%elem_of_nil].
    intros from max data [= <-]. rewrite len_take. lia.
Defined.

(** A chunk from offset 20 on, of a stream persisted up to 12. *)
Lemma gap_wait_is_bounded_witness :
  (pump_run (replicate 60 (sample_turn None []))
     (begin_resync (set_held (Some (mk_chunk 20 (bs "late"))) (sample_pump 12 None)))).2
  = [Closed].
Proof.
  rewrite (gap_wait_is_bounded _ (replicate 60 (sample_turn None []))); [done|done|done|done|by vm_compute|].
  apply Forall_replicate. split; [done|]. left. by exists (mk_chunk 20 (bs "late")).
Defined.

(** Five bytes forwarded, seven only in the journal when the child ends. *)
Lemma completion_depends_on_tail_witness :
  let p := subscribed false (modes_load 0) 5 None in
  (pump_run (sample_turn (Some (Tick (Some (false, true, None)))) [] :: sample_turn None []
     :: replicate 1000 (sample_turn (Some (Tick (Some (false, true, None)))) [])) p).2
  = [Chunk 5 (bs ", world")].
Proof.
  apply (completion_depends_on_tail (subscribed false (modes_load 0) 5 None) None
    (sample_turn (Some (Tick (Some (false, true, None)))) []) (sample_turn None [])); try done.
  by apply Forall_replicate.
Defined.
