(* ===== verification/Wire.v ===== *)
(** * The local wire protocol

    What a client and the daemon say to each other on the local socket:
    newline-terminated JSON envelopes and, once an attach stream has begun,
    binary frames from the daemon to the client ([src/src/ipc.rs], with the
    attach messages of [src/src/protocol.rs] and the errors of
    [src/src/error.rs]).  A socket delivers bytes in buffers of any size.  The
    theorems say that what was written is what is read, however the socket
    cuts it; that a frame cut short is an error and never another frame; and
    that a frame the daemon may write can be larger than any the client
    accepts. *)

From S2P Require Import Prelude Utf8 Text Disk Pump.

(** ** Errors *)

(** The errors of other crates are their texts. *)
Inductive AppError :=
  | Io (e : io_error_kind)
  | Serde (text : bytes)
  | Sqlx (text : bytes)
  | SqlxMigrate (text : bytes)
  | DaemonAlreadyRunning
  | DaemonUnavailable (text : bytes)
  | RequestFailed (text : bytes)
  | Protocol (text : bytes)
  | NodeNotConnected (text : bytes)
  | MaxSessionsReached (limit : N)
  | DiskGuard (reason : bytes).

#[export] Instance AppError_eq_dec : EqDecision AppError.
Proof. solve_decision. Defined.

(** ** Messages *)

Definition PROTOCOL_VERSION : N := 15.

(** The requests of an attach stream; [OtherRequest] is any other. *)
Inductive RpcRequest :=
  | AttachSubscribe (id : bytes) (from_byte_offset : option N) (credited : bool) (incarnation : option N)
      (role : option bytes) (rows cols : option N)
  | AttachInput (id : bytes) (data : bytes) (wait_for_change : bool) (attachment_id : option N)
  | AttachResize (id : bytes) (rows cols : N)
  | AttachDetach (id : bytes)
  | AttachAppliedCursor (id : bytes) (cursor : N)
  | OtherRequest (name : bytes).

(** The responses of an attach stream; [OtherResponse] is any other. *)
Inductive RpcResponse :=
  | AttachStreamInit (data : bytes) (end_offset : N) (running : bool) (modes : ModeSnapshot)
      (scrollback : bytes) (incarnation attachment_id : N) (role : bytes)
  | AttachStreamChunk (offset : N) (data : bytes)
  | AttachModeChanged (modes : ModeSnapshot)
  | AttachResized (rows cols : N)
  | AttachStreamDone (exit_code : option Z) (final_offset : N)
  | ErrorResponse (message : bytes)
  | OtherResponse (name : bytes).

Record RpcEnvelope (A : Type) := mk_envelope { env_version : N; env_payload : A }.
Arguments mk_envelope {A} env_version env_payload.
Arguments env_version {A} r.
Arguments env_payload {A} r.

(** serde_json: a compact text for each value, and what parsing makes of a
    text.  The documented laws: parsing a value's text gives the value back;
    a message is a JSON object, so its text is UTF-8 that ends in a brace;
    and a compact text has no line break, strings escape theirs. *)
Class Json (A : Type) := {
  to_vec : A → bytes;
  from_slice : bytes → option A;
}.
Class JsonLaws (A : Type) `{Json A} := {
  json_parse a : from_slice (to_vec a) = Some a;
  json_utf8 a : utf8_valid (to_vec a) = true;
  json_object a : ∃ x, to_vec a = x ++ [x7d];
  json_compact a : contains_byte x0a (to_vec a) = false;
}.

Definition parsed {A} (r : option A) : result AppError A := ok_or r (Serde []).

(** ** Lines *)

Definition MAX_IPC_LINE_BYTES : N := 10 * 1024 * 1024.

(** What the successive calls of [fill_buf] find: a buffer with something in
    it, or an error; at the end of the list the peer has closed. *)
Abbreviation Reader := (list (io_result bytes)).

(** [Iterator::position] of the newline. *)
Fixpoint newline_pos (l : bytes) : option N :=
  match l with
  | [] => None
  | b :: l => if b =b x0a then Some 0 else n ← newline_pos l; Some (n + 1)
  end.

(** [consume] *)
Definition consume (used : N) (available : bytes) (reader : Reader) : Reader :=
  let rest := drop (N.to_nat used) available in
  if len rest =? 0 then reader else Ok rest :: reader.

(** The loop over the buffers. *)
Fixpoint fill_line (reader : Reader) (raw : bytes) : Reader * io_result bytes :=
  match reader with
  | [] => ([], Ok raw)
  | Err e :: reader => (reader, Err e)
  | Ok available :: rest =>
      if len available =? 0 then (reader, Ok raw)
      else
        let used := match newline_pos available with Some pos => pos + 1 | None => len available end in
        if MAX_IPC_LINE_BYTES <? len raw + used then (reader, Err InvalidData)
        else
          let raw := raw ++ take (N.to_nat used) available in
          match newline_pos available with
          | Some _ => (consume used available rest, Ok raw)
          | None => fill_line rest raw
          end
  end.

Definition read_line_bounded (reader : Reader) : Reader * io_result bytes :=
  match fill_line reader [] with
  | (reader, Ok raw) =>
      if len raw =? 0 then (reader, Ok [])
      else if utf8_valid raw then (reader, Ok raw) else (reader, Err InvalidData)
  | (reader, Err e) => (reader, Err e)
  end.

Section Envelopes.
Context `{Json (RpcEnvelope RpcRequest), Json (RpcEnvelope RpcResponse)}.

Definition encode_frame {A} `{Json (RpcEnvelope A)} (version : N) (payload : A) : bytes :=
  to_vec (mk_envelope version payload) ++ [x0a].

Definition write_request_to_writer (payload : RpcRequest) : bytes := encode_frame PROTOCOL_VERSION payload.
Definition write_response_to_writer (payload : RpcResponse) : bytes := encode_frame PROTOCOL_VERSION payload.

Definition read_request_from_reader (reader : Reader) : Reader * result AppError RpcRequest :=
  match read_line_bounded reader with
  | (reader, Err e) => (reader, Err (Io e))
  | (reader, Ok line) =>
      (reader,
       if len line =? 0 then Err (Protocol (bs "client disconnected"))
       else
         envelope ← parsed (from_slice (trim_end line));
         if negb (env_version envelope =? PROTOCOL_VERSION)
         then Err (Protocol (bs "protocol version " ++ show_dec (env_version envelope) ++ bs " is not supported"))
         else Ok (env_payload envelope))
  end.

Definition read_response_from_reader (reader : Reader) : Reader * result AppError RpcResponse :=
  match read_line_bounded reader with
  | (reader, Err e) => (reader, Err (Io e))
  | (reader, Ok line) =>
      (reader,
       if len line =? 0 then Err (Protocol (bs "daemon closed the connection"))
       else
         envelope ← parsed (from_slice (trim_end line));
         if negb (env_version envelope =? PROTOCOL_VERSION)
         then Err (Protocol (bs "protocol mismatch: client=" ++ show_dec PROTOCOL_VERSION
                     ++ bs ", daemon=" ++ show_dec (env_version envelope)))
         else Ok (env_payload envelope))
  end.

Definition ensure_success_response (response : RpcResponse) : result AppError RpcResponse :=
  match response with
  | ErrorResponse message => Err (RequestFailed message)
  | other => Ok other
  end.

Definition read_checked_response_from_reader (reader : Reader) : Reader * result AppError RpcResponse :=
  match read_response_from_reader reader with
  | (reader, Ok response) => (reader, ensure_success_response response)
  | (reader, Err e) => (reader, Err e)
  end.

(** What the reader task of a stream collects: every request up to and with
    the first error. *)
Fixpoint read_requests (fuel : nat) (reader : Reader) : list (result AppError RpcRequest) :=
  match fuel with
  | O => []
  | S fuel =>
      match read_request_from_reader reader with
      | (reader, Ok request) => Ok request :: read_requests fuel reader
      | (_, Err e) => [Err e]
      end
  end.
End Envelopes.

(** ** Binary frames *)

Definition ATTACH_FRAME_OUTPUT : byte := x01.
Definition ATTACH_FRAME_CONTROL : byte := x02.
Definition MAX_ATTACH_OUTPUT_FRAME_BYTES : N := 1024 * 1024 + 8.
Definition MAX_ATTACH_CONTROL_FRAME_BYTES : N := 64 * 1024.
Definition ATTACH_FRAME_HEADER_BYTES : N := 5.

Inductive AttachFrame :=
  | FrameOutput (offset : N) (data : bytes)
  | FrameControl (response : RpcResponse).

(** [as u32] *)
Definition as_u32 (n : N) : N := n mod 4294967296.

Definition write_attach_output_frame (offset : N) (data : bytes) : bytes :=
  let payload_len := 8 + len data in
  u32_le (as_u32 payload_len) ++ [ATTACH_FRAME_OUTPUT] ++ u64_le offset ++ data.

Section Frames.
Context `{Json RpcResponse}.

Definition write_attach_control_frame (response : RpcResponse) : result AppError bytes :=
  let payload := to_vec response in
  if MAX_ATTACH_CONTROL_FRAME_BYTES <? as_u32 (len payload)
  then Err (Protocol (bs "attach control frame too large: " ++ show_dec (len payload) ++ bs " bytes"))
  else Ok (u32_le (as_u32 (len payload)) ++ [ATTACH_FRAME_CONTROL] ++ payload).

(** [read_exact]: what is read and what follows, or the end came first. *)
Definition read_exact (n : N) (input : bytes) : option (bytes * bytes) :=
  if len input <? n then None else Some (take (N.to_nat n) input, drop (N.to_nat n) input).

(** The cap of a tag. *)
Definition frame_cap (tag : byte) : option N :=
  if tag =b ATTACH_FRAME_OUTPUT then Some MAX_ATTACH_OUTPUT_FRAME_BYTES
  else if tag =b ATTACH_FRAME_CONTROL then Some MAX_ATTACH_CONTROL_FRAME_BYTES
  else None.

(** What the payload of a frame says. *)
Definition frame_of (tag : byte) (payload : bytes) : result AppError AttachFrame :=
  if tag =b ATTACH_FRAME_OUTPUT then
    if len payload <? 8 then Err (Protocol (bs "attach output frame too short"))
    else Ok (FrameOutput (le_value (take 8 payload)) (drop 8 payload))
  else response ← parsed (from_slice payload); Ok (FrameControl response).

(** One frame off the bytes the peer has sent before it closed. *)
Definition read_attach_frame (input : bytes) : bytes * result AppError AttachFrame :=
  match read_exact ATTACH_FRAME_HEADER_BYTES input with
  | None => ([], Err (Protocol (bs "daemon closed the connection")))
  | Some (header, input) =>
      let payload_len := le_value (take 4 header) in
      let tag := default x00 (header !! 4%nat) in
      match frame_cap tag with
      | None => (input, Err (Protocol (bs "unknown attach frame tag " ++ show_dec (byte_val tag))))
      | Some cap =>
          if cap <? payload_len
          then (input, Err (Protocol (bs "attach frame too large: " ++ show_dec payload_len
                              ++ bs " bytes (cap " ++ show_dec cap ++ bs ")")))
          else match read_exact payload_len input with
               | None => ([], Err (Protocol (bs "attach frame truncated by peer")))
               | Some (payload, input) => (input, frame_of tag payload)
               end
      end
  end.

Definition read_checked_attach_frame (input : bytes) : bytes * result AppError AttachFrame :=
  match read_attach_frame input with
  | (input, Ok (FrameControl response)) =>
      (input, response ← ensure_success_response response; Ok (FrameControl response))
  | (input, r) => (input, r)
  end.

(** The frames read off a stream, up to and with the first error. *)
Fixpoint read_frames (fuel : nat) (input : bytes) : list (result AppError AttachFrame) :=
  match fuel with
  | O => []
  | S fuel =>
      match read_attach_frame input with
      | (input, Ok frame) => Ok frame :: read_frames fuel input
      | (_, Err e) => [Err e]
      end
  end.
End Frames.

(** ** Lines, whatever the buffers *)

Lemma newline_pos_none l : newline_pos l = None ↔ contains_byte x0a l = false.
Proof.
  induction l as [|b l IH]; [done|]. cbn [newline_pos contains_byte existsb]. fold (contains_byte x0a l).
  destruct (b =b x0a); [done|]. cbn [orb]. rewrite <- IH. by destruct (newline_pos l).
Qed.

Lemma newline_pos_some l n :
  newline_pos l = Some n → ∃ x y, l = x ++ x0a :: y ∧ len x = n ∧ contains_byte x0a x = false.
Proof.
  revert n. induction l as [|b l IH]; intros n; [done|]. cbn [newline_pos].
  destruct (b =b x0a) eqn:E.
  - apply byte_eqb_eq in E as ->. intros [= <-]. by exists [], l.
  - destruct (newline_pos l) as [m|]; [|done]. intros [= <-].
    destruct (IH m eq_refl) as (x & y & -> & Hl & Hx). exists (b :: x), y.
    cbn [contains_byte existsb]. rewrite E, len_cons, Hl. by split_and!.
Qed.

Lemma contains_byte_app c x y : contains_byte c (x ++ y) = contains_byte c x || contains_byte c y.
Proof. apply existsb_app. Qed.

(** The first line break of a text is in one place. *)
Lemma first_break x x' y y' :
  contains_byte x0a x = false → contains_byte x0a x' = false →
  x ++ x0a :: y = x' ++ x0a :: y' → x = x' ∧ y = y'.
Proof.
  revert x'. induction x as [|b x IH]; intros [|b' x'] Hx Hx' Heq; cbn [app] in Heq.
  - by injection Heq as ->.
  - injection Heq as <- ->. by cbn in Hx'.
  - injection Heq as -> <-. by cbn in Hx.
  - injection Heq as -> Heq. cbn [contains_byte existsb] in Hx, Hx'. apply orb_false_iff in Hx as [_ Hx], Hx' as [_ Hx'].
    by destruct (IH x' Hx Hx' Heq) as [-> ->].
Qed.

Lemma app_break_cases c k x y :
  c ++ k = x ++ x0a :: y → contains_byte x0a c = false → ∃ x', x = c ++ x' ∧ k = x' ++ x0a :: y.
Proof.
  revert x. induction c as [|b c IH]; intros x Heq Hc; [by exists x|].
  cbn [contains_byte existsb] in Hc. apply orb_false_iff in Hc as [Hb Hc].
  destruct x as [|b' x]; cbn [app] in Heq; injection Heq as -> Heq; [done|].
  destruct (IH x Heq Hc) as (x' & -> & ->). by exists x'.
Qed.

Abbreviation filled := (Forall (λ b : bytes, b ≠ [])).

Lemma fill_line_spec line rest bufs raw :
  contains_byte x0a line = false → filled bufs → concat bufs = line ++ x0a :: rest →
  len raw + len line + 1 <= MAX_IPC_LINE_BYTES →
  ∃ bufs', fill_line (map Ok bufs) raw = (map Ok bufs', Ok (raw ++ line ++ [x0a]))
    ∧ concat bufs' = rest ∧ filled bufs'.
Proof.
  intros Hline. revert line Hline raw.
  induction bufs as [|c bufs IH]; intros line Hline raw Hf Hc Hmax; [by destruct line|].
  apply Forall_cons in Hf as [Hne Hf]. cbn [concat] in Hc. cbn [map fill_line].
  apply len_nonempty in Hne as Hlen. eqb_to false. cbv match.
  destruct (newline_pos c) as [n|] eqn:En.
  - destruct (newline_pos_some c n En) as (x & y & -> & <- & Hx).
    rewrite <- app_assoc in Hc. cbn [app] in Hc. destruct (first_break _ _ _ _ Hx Hline Hc) as [-> <-].
    ltb_to false. cbv match zeta.
    replace (take (N.to_nat (len line + 1)) (line ++ x0a :: y)) with (line ++ [x0a]).
    2: { change (x0a :: y) with ([x0a] ++ y). rewrite app_assoc, take_len_app; [done|]. rewrite len_app. done. }
    unfold consume. change (x0a :: y) with ([x0a] ++ y). rewrite app_assoc, drop_len_app by (rewrite len_app; done).
    destruct (N.eqb_spec (len y) 0) as [Hy%len_0|Hy].
    + exists bufs. subst y. by split_and!.
    + exists (y :: bufs). split_and!; [done|done|]. constructor; [by apply len_nonempty|done].
  - apply newline_pos_none in En. destruct (app_break_cases _ _ _ _ Hc En) as (line' & -> & Hc').
    rewrite len_app in Hmax. ltb_to false. cbv match zeta. rewrite to_nat_len, firstn_all.
    rewrite contains_byte_app in Hline. apply orb_false_iff in Hline as [_ Hline].
    destruct (IH line' Hline (raw ++ c) Hf Hc') as (bufs' & Hr & Hc2 & Hf2); [rewrite len_app; lia|].
    exists bufs'. rewrite Hr. split_and!; [|done|done]. by rewrite <- !app_assoc.
Qed.

(** No line grows past the limit. *)
Lemma fill_line_bounded bufs raw :
  filled bufs → len raw <= MAX_IPC_LINE_BYTES → MAX_IPC_LINE_BYTES < len raw + len (concat bufs) →
  contains_byte x0a (take (N.to_nat (MAX_IPC_LINE_BYTES - len raw)) (concat bufs)) = false →
  ∃ reader, fill_line (map Ok bufs) raw = (reader, Err InvalidData).
Proof.
  revert raw. induction bufs as [|c bufs IH]; intros raw Hf Hle Hlt Hn; [cbn [concat] in Hlt; rewrite len_nil in Hlt; lia|].
  apply Forall_cons in Hf as [Hne Hf]. cbn [concat] in *. cbn [map fill_line].
  apply len_nonempty in Hne as Hlen. eqb_to false. cbv match. rewrite len_app in Hlt.
  destruct (N.ltb_spec MAX_IPC_LINE_BYTES (len raw + match newline_pos c with Some pos => pos + 1 | None => len c end)) as [|Hge];
    [by eexists|]. destruct (newline_pos c) as [n|] eqn:En.
  - exfalso. destruct (newline_pos_some c n En) as (x & y & -> & <- & Hx).
    replace ((x ++ x0a :: y) ++ concat bufs) with ((x ++ [x0a]) ++ y ++ concat bufs) in Hn by by rewrite <- !app_assoc.
    rewrite take_app_ge, !contains_byte_app in Hn by (rewrite length_app; unfold len in *; cbn [length]; lia).
    cbn in Hn. by rewrite orb_true_r in Hn.
  - cbv match zeta. rewrite to_nat_len, firstn_all.
    apply IH; [done|rewrite len_app; lia|rewrite len_app; lia|].
    rewrite take_app_ge, contains_byte_app in Hn by (unfold len in *; lia).
    apply orb_false_iff in Hn as [_ Hn]. rewrite len_app.
    replace (N.to_nat (MAX_IPC_LINE_BYTES - (len raw + len c))) with
      (N.to_nat (MAX_IPC_LINE_BYTES - len raw) - length c)%nat by (unfold len in *; lia). done.
Qed.

Section WireTheorems.
Context `{Jq : Json (RpcEnvelope RpcRequest), !JsonLaws (RpcEnvelope RpcRequest)}.

Lemma frame_utf8 {A} `{Json (RpcEnvelope A), !JsonLaws (RpcEnvelope A)} version (a : A) :
  utf8_valid (encode_frame version a) = true.
Proof.
  unfold encode_frame. pose proof (json_utf8 (mk_envelope version a)) as Hu. unfold utf8_valid in *.
  destruct (utf8_decode _) as [cs|] eqn:E; [|done]. apply utf8_encode_decode in E as [<- Hs].
  replace (utf8_encode cs ++ [x0a]) with (utf8_encode (cs ++ [10])).
  - rewrite utf8_decode_encode; [done|]. apply Forall_app. split; [done|]. constructor; [|done]. by intros k.
  - unfold utf8_encode. by rewrite map_app, concat_app.
Qed.

Lemma read_request_spec request more bufs :
  len (write_request_to_writer request) <= MAX_IPC_LINE_BYTES →
  filled bufs → concat bufs = write_request_to_writer request ++ more →
  ∃ bufs', read_request_from_reader (map Ok bufs) = (map Ok bufs', Ok request)
    ∧ concat bufs' = more ∧ filled bufs'.
Proof.
  intros Hmax Hf Hc. unfold write_request_to_writer, encode_frame in Hmax, Hc. rewrite len_app in Hmax.
  change (len [x0a]) with 1 in Hmax. rewrite <- app_assoc in Hc.
  destruct (fill_line_spec _ more bufs [] (json_compact _) Hf Hc) as (bufs' & Hr & Hc' & Hf'); [rewrite len_nil; lia|].
  exists bufs'. split_and!; [|done|done]. unfold read_request_from_reader, read_line_bounded. rewrite Hr. cbn [app].
  rewrite len_app. change (len [x0a]) with 1. eqb_to false. cbv match.
  fold (encode_frame PROTOCOL_VERSION request). rewrite frame_utf8. cbv match. unfold encode_frame at 1.
  rewrite len_app. change (len [x0a]) with 1. eqb_to false. cbv match. unfold encode_frame.
  destruct (json_object (mk_envelope PROTOCOL_VERSION request)) as [x Hx].
  rewrite (trim_end_brace _ x (json_utf8 _) Hx), json_parse. done.
Qed.

(** Requests arrive, however the socket cuts them.  Whatever requests a
    client writes, as long as each fits a line, and in whatever non-empty
    buffers their bytes come, the daemon's reader gets exactly those requests
    in that order, then the disconnection.  A line longer than the limit is
    refused with [InvalidData], before more than the limit is kept. *)
Theorem requests_arrive requests bufs :
  filled bufs →
  (Forall (λ r, len (write_request_to_writer r) <= MAX_IPC_LINE_BYTES) requests →
   concat bufs = concat (map write_request_to_writer requests) →
   read_requests (S (length requests)) (map Ok bufs)
   = map Ok requests ++ [Err (Protocol (bs "client disconnected"))])
  ∧ (∀ r more, MAX_IPC_LINE_BYTES < len (write_request_to_writer r) →
     concat bufs = write_request_to_writer r ++ more →
     (read_request_from_reader (map Ok bufs)).2 = Err (Io InvalidData)).
Proof.
  intros Hf. split.
  - intros Hfit Hc. revert bufs Hf Hc. induction Hfit as [|r requests Hr Hfit IH]; intros bufs Hf Hc.
    + cbn [map concat] in Hc. destruct bufs as [|c bufs]; [done|]. apply Forall_cons in Hf as [Hne _].
      by destruct c.
    + cbn [map concat] in Hc. destruct (read_request_spec r _ bufs Hr Hf Hc) as (bufs' & Hread & Hc' & Hf').
      cbn [length read_requests map app]. rewrite Hread. f_equal. by apply IH.
  - intros r more Hlong Hc. unfold write_request_to_writer, encode_frame in *. rewrite len_app in Hlong.
    change (len [x0a]) with 1 in Hlong.
    destruct (fill_line_bounded bufs [] Hf) as [reader Hr].
    + done.
    + rewrite Hc, !len_app. cbn. change (len [x0a]) with 1. lia.
    + set (n := N.to_nat _). rewrite Hc, <- app_assoc, take_app_le
        by (unfold n, len in *; cbn [length]; lia).
      pose proof (json_compact (mk_envelope PROTOCOL_VERSION r)) as Hn.
      rewrite <- (take_drop n (to_vec _)), contains_byte_app in Hn. by apply orb_false_iff in Hn as [-> _].
    + unfold read_request_from_reader, read_line_bounded. by rewrite Hr.
Qed.
End WireTheorems.

(** ** Frames *)

Lemma read_exact_app n x more : n = len x → read_exact n (x ++ more) = Some (x, more).
Proof.
  intros ->. unfold read_exact. rewrite len_app. ltb_to false. by rewrite take_len_app, drop_len_app.
Qed.

Lemma read_exact_short n x : len x < n → read_exact n x = None.
Proof. intros. unfold read_exact. by ltb_to true. Qed.

Section FrameTheorems.
Context `{Json RpcResponse, !JsonLaws RpcResponse}.

(** The bytes a frame is written as. *)
Definition frame_bytes (f : AttachFrame) : bytes :=
  match f with
  | FrameOutput offset data => write_attach_output_frame offset data
  | FrameControl response => match write_attach_control_frame response with Ok b => b | Err _ => [] end
  end.

Definition frame_fits (f : AttachFrame) : Prop :=
  match f with
  | FrameOutput offset data => offset <= u64_max ∧ 8 + len data <= MAX_ATTACH_OUTPUT_FRAME_BYTES
  | FrameControl response => len (to_vec response) <= MAX_ATTACH_CONTROL_FRAME_BYTES
  end.

(** The parts of a frame. *)
Definition frame_tag (f : AttachFrame) : byte :=
  match f with FrameOutput _ _ => ATTACH_FRAME_OUTPUT | FrameControl _ => ATTACH_FRAME_CONTROL end.
Definition frame_payload (f : AttachFrame) : bytes :=
  match f with FrameOutput offset data => u64_le offset ++ data | FrameControl response => to_vec response end.

Lemma as_u32_small n : n <= u32_max → as_u32 n = n.
Proof. intros. apply N.mod_small. unfold u32_max in *. lia. Qed.

Lemma frame_bytes_eq f :
  frame_fits f → ∃ cap, frame_cap (frame_tag f) = Some cap ∧ len (frame_payload f) <= cap <= u32_max
    ∧ frame_bytes f = (u32_le (len (frame_payload f)) ++ [frame_tag f]) ++ frame_payload f.
Proof.
  destruct f as [offset data|response]; cbn [frame_fits frame_tag frame_payload frame_bytes]; intros Hf.
  - exists MAX_ATTACH_OUTPUT_FRAME_BYTES. rewrite len_app, len_le_bytes. change (N.of_nat 8) with 8.
    split_and!; [done|lia|done|]. unfold write_attach_output_frame.
    rewrite as_u32_small; [by rewrite <- !app_assoc|]. unfold MAX_ATTACH_OUTPUT_FRAME_BYTES, u32_max in *. lia.
  - exists MAX_ATTACH_CONTROL_FRAME_BYTES. split_and!; [done|done|done|]. unfold write_attach_control_frame.
    rewrite as_u32_small by (unfold MAX_ATTACH_CONTROL_FRAME_BYTES, u32_max in *; lia).
    ltb_to false. by rewrite <- !app_assoc.
Qed.

Lemma frame_of_payload f : frame_fits f → frame_of (frame_tag f) (frame_payload f) = Ok f.
Proof.
  destruct f as [offset data|response]; cbn [frame_tag frame_payload frame_fits]; intros Hf.
  - unfold frame_of. cbv match. change (ATTACH_FRAME_OUTPUT =b ATTACH_FRAME_OUTPUT) with true. cbv match.
    rewrite len_app, len_le_bytes. change (N.of_nat 8) with 8. ltb_to false.
    rewrite take_app_length', drop_app_length' by by rewrite length_le_bytes.
    rewrite le_value_u64 by tauto. done.
  - unfold frame_of. change (ATTACH_FRAME_CONTROL =b ATTACH_FRAME_OUTPUT) with false. cbv match.
    unfold parsed. by rewrite json_parse.
Qed.

(** The header of a frame, whatever follows. *)
Lemma read_frame_header payload_len tag more :
  payload_len <= u32_max →
  read_attach_frame ((u32_le payload_len ++ [tag]) ++ more)
  = match frame_cap tag with
    | None => (more, Err (Protocol (bs "unknown attach frame tag " ++ show_dec (byte_val tag))))
    | Some cap =>
        if cap <? payload_len
        then (more, Err (Protocol (bs "attach frame too large: " ++ show_dec payload_len
                            ++ bs " bytes (cap " ++ show_dec cap ++ bs ")")))
        else match read_exact payload_len more with
             | None => ([], Err (Protocol (bs "attach frame truncated by peer")))
             | Some (payload, more) => (more, frame_of tag payload)
             end
    end.
Proof.
  intros Hp. unfold read_attach_frame. rewrite read_exact_app by (rewrite len_app, len_le_bytes; done).
  rewrite take_app_length' by (rewrite length_le_bytes; done). rewrite le_value_u32 by done.
  rewrite lookup_app_r by (rewrite length_le_bytes; done). rewrite length_le_bytes.
  change (default x00 ([tag] !! (4 - 4)%nat)) with tag. done.
Qed.

Lemma read_frame_spec f more : frame_fits f → read_attach_frame (frame_bytes f ++ more) = (more, Ok f).
Proof.
  intros Hf. destruct (frame_bytes_eq f Hf) as (cap & Hcap & Hlen & ->).
  rewrite <- app_assoc, read_frame_header by lia. rewrite Hcap. ltb_to false.
  rewrite read_exact_app by done. by rewrite frame_of_payload.
Qed.

Definition torn_error (k : N) : AppError :=
  if k <? ATTACH_FRAME_HEADER_BYTES then Protocol (bs "daemon closed the connection")
  else Protocol (bs "attach frame truncated by peer").

Lemma read_frame_torn f k :
  frame_fits f → k < len (frame_bytes f) →
  (read_attach_frame (take (N.to_nat k) (frame_bytes f))).2 = Err (torn_error k).
Proof.
  intros Hf Hk. destruct (frame_bytes_eq f Hf) as (cap & Hcap & Hlen & Heq). rewrite Heq in *.
  rewrite len_app in Hk. set (header := u32_le _ ++ _) in *.
  assert (len header = 5) as Hh by (unfold header; rewrite len_app, len_le_bytes; done).
  unfold torn_error, ATTACH_FRAME_HEADER_BYTES. destruct (N.ltb_spec k 5) as [Hlt|Hge].
  - unfold read_attach_frame, ATTACH_FRAME_HEADER_BYTES. rewrite read_exact_short; [done|].
    rewrite len_take. lia.
  - rewrite take_app_ge by (unfold len in *; lia).
    replace (N.to_nat k - length header)%nat with (N.to_nat (k - 5)) by (unfold len in *; lia).
    unfold header. rewrite read_frame_header, Hcap by lia. ltb_to false.
    rewrite read_exact_short; [done|]. rewrite len_take. lia.
Qed.

(** C26: Frames arrive, and a torn frame is never another one.  Whatever
    frames the daemon writes within the caps, and wherever the connection is
    then cut, the client reads exactly the frames that were sent whole, in
    order, and then an error: that the daemon closed the connection when the
    cut left less than a header, that the frame was truncated otherwise. *)
Theorem frames_arrive frames f k :
  Forall frame_fits frames → frame_fits f → k < len (frame_bytes f) →
  read_frames (S (length frames)) (concat (map frame_bytes frames) ++ take (N.to_nat k) (frame_bytes f))
  = map Ok frames ++ [Err (torn_error k)].
Proof.
  intros Hfs Hf Hk. induction Hfs as [|f0 frames Hf0 Hfs IH].
  - cbn [map concat app length read_frames]. pose proof (read_frame_torn f k Hf Hk) as Hr.
    destruct (read_attach_frame _) as [more r]. cbn in Hr. by rewrite Hr.
  - cbn [map concat length app]. rewrite <- app_assoc. remember (S (length frames)) as n eqn:Hn.
    cbn [read_frames]. rewrite read_frame_spec by done. by rewrite IH.
Qed.

(** The daemon writes output of any size; the client takes at most a MiB of
    it in a frame. *)
Lemma output_frame_read offset data more :
  offset <= u64_max → 8 + len data <= u32_max →
  read_attach_frame (write_attach_output_frame offset data ++ more)
  = if len data <=? 1024 * 1024 then (more, Ok (FrameOutput offset data))
    else (u64_le offset ++ data ++ more,
          Err (Protocol (bs "attach frame too large: " ++ show_dec (8 + len data)
                 ++ bs " bytes (cap " ++ show_dec MAX_ATTACH_OUTPUT_FRAME_BYTES ++ bs ")"))).
Proof.
  intros Ho Hl. destruct (N.leb_spec (len data) (1024 * 1024)) as [Hle|Hgt].
  - apply (read_frame_spec (FrameOutput offset data)). split; [done|]. unfold MAX_ATTACH_OUTPUT_FRAME_BYTES. lia.
  - unfold write_attach_output_frame. rewrite as_u32_small by done.
    replace ((u32_le (8 + len data) ++ [ATTACH_FRAME_OUTPUT] ++ u64_le offset ++ data) ++ more)
      with ((u32_le (8 + len data) ++ [ATTACH_FRAME_OUTPUT]) ++ u64_le offset ++ data ++ more)
      by by rewrite <- !app_assoc.
    rewrite read_frame_header by done. change (frame_cap ATTACH_FRAME_OUTPUT) with (Some MAX_ATTACH_OUTPUT_FRAME_BYTES).
    cbv match. unfold MAX_ATTACH_OUTPUT_FRAME_BYTES at 1. by ltb_to true.
Qed.
End FrameTheorems.

(** ** A concrete JSON

    For the witnesses: the bits of a value's code between braces. *)

Fixpoint code_bits (p : positive) : bytes :=
  match p with
  | xH => []
  | xO p => x61 :: code_bits p
  | xI p => x62 :: code_bits p
  end.

Fixpoint bits_code (l : bytes) : positive :=
  match l with
  | [] => xH
  | b :: l => if b =b x61 then xO (bits_code l) else xI (bits_code l)
  end.

Lemma bits_code_bits p : bits_code (code_bits p) = p.
Proof. induction p as [p IH|p IH|]; cbn; by rewrite ?IH. Qed.

Lemma code_bits_ascii p : forallb (λ b, byte_val b <? 128) (code_bits p) = true.
Proof. induction p as [p IH|p IH|]; [exact IH|exact IH|done]. Qed.

Lemma code_bits_compact p : contains_byte x0a (code_bits p) = false.
Proof. induction p as [p IH|p IH|]; [exact IH|exact IH|done]. Qed.

Definition code_json (A : Type) `{Countable A} : Json A := {|
  to_vec a := code_bits (encode a) ++ [x7d];
  from_slice l := bits ← strip_suffix [x7d] l; decode (bits_code bits);
|}.

Lemma code_json_laws (A : Type) `{Countable A} : @JsonLaws A (code_json A).
Proof.
  split; intros a; cbn [to_vec from_slice code_json].
  - rewrite strip_suffix_app. cbn [mbind option_bind]. by rewrite bits_code_bits, decode_encode.
  - apply utf8_valid_ascii. rewrite forallb_app, code_bits_ascii. done.
  - by eexists.
  - rewrite contains_byte_app, code_bits_compact. done.
Qed.

#[export] Instance ModeSnapshot_countable : Countable ModeSnapshot.
Proof.
  apply (inj_countable' (λ m, (app_cursor_keys m, bracketed_paste_mode m, mouse_report m, sgr_mouse m, focus_events m))
           (λ '(a, b, c, d, e), mk_modes a b c d e)). by intros [].
Defined.

#[export] Instance RpcRequest_eq_dec : EqDecision RpcRequest.
Proof. solve_decision. Defined.
#[export] Instance RpcRequest_countable : Countable RpcRequest.
Proof.
  apply (inj_countable' (λ r, match r with
    | AttachSubscribe id f c i ro rs cs => inl (id, f, c, i, ro, rs, cs)
    | AttachInput id d w a => inr (inl (id, d, w, a))
    | AttachResize id r c => inr (inr (inl (id, r, c)))
    | AttachDetach id => inr (inr (inr (inl id)))
    | AttachAppliedCursor id c => inr (inr (inr (inr (inl (id, c)))))
    | OtherRequest n => inr (inr (inr (inr (inr n))))
    end) (λ x, match x with
    | inl (id, f, c, i, ro, rs, cs) => AttachSubscribe id f c i ro rs cs
    | inr (inl (id, d, w, a)) => AttachInput id d w a
    | inr (inr (inl (id, r, c))) => AttachResize id r c
    | inr (inr (inr (inl id))) => AttachDetach id
    | inr (inr (inr (inr (inl (id, c))))) => AttachAppliedCursor id c
    | inr (inr (inr (inr (inr n)))) => OtherRequest n
    end)). by intros [].
Defined.

#[export] Instance RpcResponse_eq_dec : EqDecision RpcResponse.
Proof. solve_decision. Defined.
#[export] Instance RpcResponse_countable : Countable RpcResponse.
Proof.
  apply (inj_countable' (λ r, match r with
    | AttachStreamInit d e r m s i a ro => inl (d, e, r, m, s, i, a, ro)
    | AttachStreamChunk o d => inr (inl (o, d))
    | AttachModeChanged m => inr (inr (inl m))
    | AttachResized r c => inr (inr (inr (inl (r, c))))
    | AttachStreamDone c o => inr (inr (inr (inr (inl (c, o)))))
    | ErrorResponse m => inr (inr (inr (inr (inr (inl m)))))
    | OtherResponse n => inr (inr (inr (inr (inr (inr n)))))
    end) (λ x, match x with
    | inl (d, e, r, m, s, i, a, ro) => AttachStreamInit d e r m s i a ro
    | inr (inl (o, d)) => AttachStreamChunk o d
    | inr (inr (inl m)) => AttachModeChanged m
    | inr (inr (inr (inl (r, c)))) => AttachResized r c
    | inr (inr (inr (inr (inl (c, o))))) => AttachStreamDone c o
    | inr (inr (inr (inr (inr (inl m))))) => ErrorResponse m
    | inr (inr (inr (inr (inr (inr n))))) => OtherResponse n
    end)). by intros [].
Defined.

#[export] Instance RpcEnvelope_eq_dec {A} `{EqDecision A} : EqDecision (RpcEnvelope A).
Proof. solve_decision. Defined.
#[export] Instance RpcEnvelope_countable {A} `{Countable A} : Countable (RpcEnvelope A).
Proof.
  apply (inj_countable' (λ e, (env_version e, env_payload e)) (λ '(v, p), mk_envelope v p)). by intros [].
Defined.

#[local] Instance request_json : Json (RpcEnvelope RpcRequest) := code_json _.
#[local] Instance request_json_laws : JsonLaws (RpcEnvelope RpcRequest) := code_json_laws _.
#[local] Instance response_json : Json RpcResponse := code_json _.
#[local] Instance response_json_laws : JsonLaws RpcResponse := code_json_laws _.

Definition sample_requests : list RpcRequest :=
  [AttachInput (bs "a1") (bs "ls") false None; AttachAppliedCursor (bs "a1") 1048576; AttachDetach (bs "a1")].

(** Cut into buffers of seven bytes. *)
Fixpoint cut_up (fuel : nat) (l : bytes) : list bytes :=
  match fuel, l with
  | S fuel, _ :: _ => take 7 l :: cut_up fuel (drop 7 l)
  | _, _ => []
  end.

Definition sample_buffers : list bytes :=
  cut_up 1000 (concat (map write_request_to_writer sample_requests)).

Lemma requests_arrive_witness :
  read_requests 4 (map Ok sample_buffers)
  = map Ok sample_requests ++ [Err (Protocol (bs "client disconnected"))].
Proof.
  apply (requests_arrive sample_requests sample_buffers).
  - assert (forallb (λ b : bytes, negb (len b =? 0)) sample_buffers = true) as Hb by by vm_compute.
    apply forallb_Forall in Hb. eapply Forall_impl; [exact Hb|]. intros b Hn. apply len_nonempty.
    apply negb_true_iff in Hn. by apply N.eqb_neq.
  - repeat constructor; apply N.leb_le; by vm_compute.
  - by vm_compute.
Defined.

Definition sample_frames : list AttachFrame :=
  [FrameOutput 5 (bs "hello"); FrameControl (AttachResized 40 120); FrameOutput 10 (bs " world")].

Lemma frames_arrive_witness :
  read_frames 4 (concat (map frame_bytes sample_frames)
                 ++ take (N.to_nat 9) (frame_bytes (FrameControl (AttachStreamDone (Some 0%Z) 16))))
  = map Ok sample_frames ++ [Err (Protocol (bs "attach frame truncated by peer"))].
Proof.
  apply (frames_arrive sample_frames (FrameControl (AttachStreamDone (Some 0%Z) 16)) 9).
  - repeat constructor; apply N.leb_le; by vm_compute.
  - apply N.leb_le; by vm_compute.
  - apply N.ltb_lt; by vm_compute.
Defined.
