(* ===== verification/ProgramStatus.v ===== *)
(** * Program status records (OSC 7501)

    [src/src/session/program_status.rs].  A child reports what it is doing in
    a small textual protocol; the daemon keeps the latest record of every
    program id, least recently updated first, and selects one for display.
    Strings are UTF-8 byte strings; the two base64 engines of the [base64]
    crate are parameters, and [Instant::now()] is the argument [now]. *)

From S2P Require Import Prelude Utf8 Text.

(** ** Data *)

Definition MAX_RECORDS : N := 256.

Definition QUERY_REPLY : bytes :=
  bs "?:states=idle,working,done,blocked,error:kinds=permission,question,auth".

Inductive ProgramState := Idle | Working | Done | Blocked | Error.

Inductive BlockedKind := Permission | Question | Auth.

#[export] Instance ProgramState_eq_dec : EqDecision ProgramState.
Proof. solve_decision. Defined.
#[export] Instance BlockedKind_eq_dec : EqDecision BlockedKind.
Proof. solve_decision. Defined.

Record ProgramStatus := mk_status {
  ps_state : ProgramState;
  ps_id : option bytes;
  ps_kind : option BlockedKind;
  ps_progress : option N;
  ps_app : option bytes;
  ps_title : option bytes;
  ps_msg : option bytes;
}.

#[export] Instance ProgramStatus_eq_dec : EqDecision ProgramStatus.
Proof. solve_decision. Defined.

Record ProgramStatuses := mk_statuses {
  records : list ProgramStatus;
  changed_at : option N;
}.

Definition no_statuses : ProgramStatuses := mk_statuses [] None.

(** ** Parsing a report *)

Definition name_byte (b : byte) : bool :=
  is_ascii_alphanumeric b || existsb (λ c, c =b b) (bs "_.+-").

Definition name (value : bytes) : bool := negb (len value =? 0) && forallb name_byte value.

(** The invisible formatting and direction characters removed from labels. *)
Definition invisible (c : N) : bool :=
  (c =? 0x61c) || ((0x200b <=? c) && (c <=? 0x200f)) || ((0x202a <=? c) && (c <=? 0x202e))
  || ((0x2060 <=? c) && (c <=? 0x206f)) || (c =? 0xfeff).

(** The [base64] engines: padded and unpadded standard alphabet. *)
Class Base64 := {
  STANDARD_decode : bytes → option bytes;
  STANDARD_NO_PAD_decode : bytes → option bytes;
}.

(** The values of the pairs seen so far; [str] slices stay unchecked until the
    end, labels are decoded as they are met. *)
Record Fields := mk_fields {
  f_state : option bytes;
  f_id : option bytes;
  f_kind : option bytes;
  f_progress : option bytes;
  f_app : option bytes;
  f_title : option bytes;
  f_msg : option bytes;
}.

Definition no_fields : Fields := mk_fields None None None None None None None.

(** The [key.len() > 16] … [match key { … }] bounds: [true] rejects the report. *)
Definition pair_rejected (key value : bytes) : bool :=
  if bytes_eqb key (bs "id") then
    (128 <? len value) || (8 <? len (split_on x2f value))
    || existsb (λ s, (32 <? len s) || negb (name s)) (split_on x2f value)
  else if bytes_eqb key (bs "app") then 32 <? len value
  else if bytes_eqb key (bs "title") then 256 <? len value
  else if bytes_eqb key (bs "msg") then 2732 <? len value
  else false.

Definition value_byte (b : byte) : bool :=
  is_ascii_alphanumeric b || existsb (λ c, c =b b) (bs "_.,+/=-").

Section Parse.
Context `{Base64}.

(** [text]: [None] rejects the report, [Some None] is an empty label. *)
Definition text (value : bytes) (max : N) : option (option bytes) :=
  if len value =? 0 then Some None
  else
    bytes ← (if match last value with Some b => b =b x3d | None => false end
             then STANDARD_decode value else STANDARD_NO_PAD_decode value);
    if max <? len bytes then None
    else
      chars ← utf8_decode bytes;
      if existsb is_control chars then None
      else Some (Some (utf8_encode (filter (λ c, negb (invisible c)) chars))).

(** One [pair] of the report: [None] rejects it. *)
Definition parse_pair (f : Fields) (pair : bytes) : option Fields :=
  match split_once x3d pair with
  | None => Some f
  | Some (key, value) =>
      let key := trim_matches is_ascii_whitespace key in
      let value := trim_matches is_ascii_whitespace value in
      if 16 <? len key then None
      else if (len key =? 0) || negb (forallb is_ascii_lowercase key) then Some f
      else if pair_rejected key value then None
      else if negb (forallb value_byte value) then Some f
      else if bytes_eqb key (bs "state") then
        Some (mk_fields (Some value) (f_id f) (f_kind f) (f_progress f) (f_app f) (f_title f) (f_msg f))
      else if bytes_eqb key (bs "id") then
        Some (mk_fields (f_state f) (Some value) (f_kind f) (f_progress f) (f_app f) (f_title f) (f_msg f))
      else if bytes_eqb key (bs "app") then
        Some (mk_fields (f_state f) (f_id f) (f_kind f) (f_progress f) (Some value) (f_title f) (f_msg f))
      else if bytes_eqb key (bs "title") then
        title ← text value 192;
        Some (mk_fields (f_state f) (f_id f) (f_kind f) (f_progress f) (f_app f) title (f_msg f))
      else if bytes_eqb key (bs "msg") then
        msg ← text value 2048;
        Some (mk_fields (f_state f) (f_id f) (f_kind f) (f_progress f) (f_app f) (f_title f) msg)
      else if bytes_eqb key (bs "kind") then
        Some (mk_fields (f_state f) (f_id f) (Some value) (f_progress f) (f_app f) (f_title f) (f_msg f))
      else if bytes_eqb key (bs "progress") then
        Some (mk_fields (f_state f) (f_id f) (f_kind f) (Some value) (f_app f) (f_title f) (f_msg f))
      else Some f
  end.

(** [body.split(':')] folded through [parse_pair]. *)
Fixpoint parse_pairs (f : Fields) (pairs : list bytes) : option Fields :=
  match pairs with
  | [] => Some f
  | p :: pairs => f ← parse_pair f p; parse_pairs f pairs
  end.

Definition parse_state (value : bytes) : option (option ProgramState) :=
  if bytes_eqb value (bs "idle") then Some (Some Idle)
  else if bytes_eqb value (bs "working") then Some (Some Working)
  else if bytes_eqb value (bs "done") then Some (Some Done)
  else if bytes_eqb value (bs "blocked") then Some (Some Blocked)
  else if bytes_eqb value (bs "error") then Some (Some Error)
  else if bytes_eqb value (bs "clear") then Some None
  else None.

Definition parse_kind (state : ProgramState) (kind : option bytes) : option BlockedKind :=
  if bool_decide (state = Blocked) then
    match kind with
    | Some k =>
        if bytes_eqb k (bs "permission") then Some Permission
        else if bytes_eqb k (bs "question") then Some Question
        else if bytes_eqb k (bs "auth") then Some Auth
        else None
    | None => None
    end
  else None.

Definition parse_progress (state : ProgramState) (progress : option bytes) : option N :=
  match progress with
  | Some v =>
      if negb (len v =? 0) && forallb is_ascii_digit v then
        match parse_unsigned u8_max v with
        | Some v =>
            if (v <=? 100) && bool_decide (state = Working ∨ state = Blocked) then Some v
            else None
        | None => None
        end
      else None
  | None => None
  end.

(** [None]: invalid report.  [Some (id, None)]: clear.  Otherwise the
    replacement record of [id]. *)
Definition parse (body : bytes) : option (option bytes * option ProgramStatus) :=
  if 4088 <? len body then None
  else
    _ ← utf8_decode body;
    f ← parse_pairs no_fields (split_on x3a body);
    s ← f_state f;
    state ← parse_state s;
    match state with
    | None => Some (f_id f, None)
    | Some state =>
        Some (f_id f, Some {|
          ps_state := state;
          ps_id := f_id f;
          ps_kind := parse_kind state (f_kind f);
          ps_progress := parse_progress state (f_progress f);
          ps_app := match f_app f with Some v => if name v then Some v else None | None => None end;
          ps_title := f_title f;
          ps_msg := f_msg f;
        |})
    end.
End Parse.

(** ** Selecting the record to display *)

Definition state_rank (s : ProgramState) : N :=
  match s with
  | Blocked => 5
  | Error => 4
  | Working => 3
  | Done => 2
  | Idle => 1
  end.

(** [Iterator::max_by_key]: the last of the maximal elements. *)
Definition max_by_rank (l : list ProgramStatus) : option ProgramStatus :=
  foldl (λ best r,
    match best with
    | Some b => if state_rank (ps_state r) <? state_rank (ps_state b) then Some b else Some r
    | None => Some r
    end) None l.

(** The ancestor walk of [current]; each turn shortens the path. *)
Fixpoint inherited_app (fuel : nat) (l : list ProgramStatus) (id : option bytes) : option bytes :=
  match fuel, id with
  | S fuel, Some path =>
      let parent := fst <$> rsplit_once x2f path in
      match list_find (λ r, ps_id r = parent) l with
      | Some (_, r) =>
          match ps_app r with
          | Some app => Some app
          | None => inherited_app fuel l parent
          end
      | None => inherited_app fuel l parent
      end
  | _, _ => None
  end.

Definition with_app (r : ProgramStatus) (app : option bytes) : ProgramStatus :=
  {| ps_state := ps_state r; ps_id := ps_id r; ps_kind := ps_kind r;
     ps_progress := ps_progress r; ps_app := app; ps_title := ps_title r; ps_msg := ps_msg r |}.

Definition current (s : ProgramStatuses) : option ProgramStatus :=
  record ← max_by_rank (records s);
  Some (match ps_app record with
        | None =>
            with_app record
              (inherited_app (S (length (default [] (ps_id record)))) (records s) (ps_id record))
        | Some _ => record
        end).

(** ** Operations *)

Definition remove_where (now : N) (predicate : ProgramStatus → bool) (s : ProgramStatuses)
    : bool * ProgramStatuses :=
  let records' := filter (λ r, negb (predicate r)) (records s) in
  let changed := negb (len records' =? len (records s)) in
  let s' := mk_statuses records' (changed_at s) in
  (changed,
   if bool_decide (current s' = current s) then s' else mk_statuses records' (Some now)).

(** Clearing [id] clears the records at and below it. *)
Definition below (id : option bytes) (r : ProgramStatus) : bool :=
  match id with
  | None => true
  | Some id =>
      match ps_id r with
      | Some other =>
          bytes_eqb other id
          || match strip_prefix id other with
             | Some tail => starts_with (bs "/") tail
             | None => false
             end
      | None => false
      end
  end.

Definition clear (now : N) (s : ProgramStatuses) : bool * ProgramStatuses :=
  remove_where now (λ _, true) s.

Definition transient (r : ProgramStatus) : bool :=
  match ps_state r with Working | Blocked => true | _ => false end.

Definition drop_transient (now : N) (s : ProgramStatuses) : bool * ProgramStatuses :=
  remove_where now transient s.

(** Forget the previous record of the id and, when full, the least recently
    updated one; append the new one. *)
Definition replace_record (id : option bytes) (record : ProgramStatus) (l : list ProgramStatus)
    : list ProgramStatus :=
  let l := match list_find (λ r, ps_id r = id) l with
           | Some (i, _) => delete i l
           | None => l
           end in
  let l := if len l =? MAX_RECORDS then delete 0%nat l else l in
  l ++ [record].

Section Report.
Context `{Base64}.

Definition report (now : N) (body : bytes) (s : ProgramStatuses) : bool * ProgramStatuses :=
  match parse body with
  | None => (false, s)
  | Some (id, Some record) =>
      let changed :=
        match list_find (λ r, ps_id r = id) (records s) with
        | None => true
        | Some (_, r) => negb (bool_decide (r = record))
        end in
      let records' := replace_record id record (records s) in
      let s' := mk_statuses records' (changed_at s) in
      let selected_changed := negb (bool_decide (current s' = current s)) in
      (changed || selected_changed,
       if selected_changed then mk_statuses records' (Some now) else s')
  | Some (id, None) => remove_where now (below id) s
  end.
End Report.

(** ** What a parsed report guarantees *)

(** A program id: at most 128 bytes, at most eight path segments, each a
    nonempty name of at most 32 bytes. *)
Definition id_ok (id : bytes) : Prop :=
  len id <= 128 ∧ len (split_on x2f id) <= 8
  ∧ Forall (λ s, len s <= 32 ∧ name s = true) (split_on x2f id).

(** A label: bounded, valid UTF-8, nothing invisible and no controls. *)
Definition label_ok (max : N) (t : bytes) : Prop :=
  len t <= max ∧ ∃ cs, utf8_decode t = Some cs
    ∧ Forall (λ c, is_control c = false ∧ invisible c = false) cs.

Definition opt_ok {A} (P : A → Prop) (o : option A) : Prop := ∀ x, o = Some x → P x.

Definition status_ok (r : ProgramStatus) : Prop :=
  opt_ok id_ok (ps_id r)
  ∧ (ps_kind r ≠ None → ps_state r = Blocked)
  ∧ opt_ok (λ p, p <= 100 ∧ (ps_state r = Working ∨ ps_state r = Blocked)) (ps_progress r)
  ∧ opt_ok (λ a, name a = true ∧ len a <= 32) (ps_app r)
  ∧ opt_ok (label_ok 192) (ps_title r)
  ∧ opt_ok (label_ok 2048) (ps_msg r).

Section ParseFacts.
Context `{Base64}.

Lemma text_ok value max t : text value max = Some (Some t) → label_ok max t.
Proof.
  unfold text. case_match; [done|]. intros (b & _ & Hb)%bind_Some.
  destruct (max <? len b) eqn:Hmax; [done|]. apply bind_Some in Hb as (cs & Hcs & Ht).
  destruct (existsb is_control cs) eqn:Hctl; [done|]. injection Ht as <-. bool_prop.
  apply utf8_encode_decode in Hcs as [He Hs].
  set (keep := filter _ cs).
  assert (Forall scalar keep) as Hk by (by apply Forall_filter).
  split.
  - etrans; [apply len_utf8_encode_filter|]. by rewrite He.
  - exists keep. split; [by apply utf8_decode_encode|].
    apply Forall_forall. intros c [Hi Hc]%list_elem_of_filter. split.
    + apply list_elem_of_In in Hc. apply not_true_iff_false. intros Hx.
      apply not_true_iff_false in Hctl. apply Hctl, existsb_exists. eauto.
    + by destruct (invisible c).
Qed.

Definition fields_ok (f : Fields) : Prop :=
  opt_ok id_ok (f_id f) ∧ opt_ok (λ a, len a <= 32) (f_app f)
  ∧ opt_ok (label_ok 192) (f_title f) ∧ opt_ok (label_ok 2048) (f_msg f).

Lemma opt_ok_some {A} (P : A → Prop) x : P x → opt_ok P (Some x).
Proof. by intros ? ? [= <-]. Qed.

Lemma id_pair_ok value : pair_rejected (bs "id") value = false → id_ok value.
Proof.
  unfold pair_rejected. replace (bytes_eqb _ _) with true by done. cbv iota.
  intros [[H1 H2]%orb_false_iff H3]%orb_false_iff. bool_prop. split_and!; [done..|].
  apply Forall_forall. intros s Hs%list_elem_of_In.
  apply not_true_iff_false in H3. rewrite existsb_exists in H3.
  destruct (32 <? len s) eqn:E1; [exfalso; apply H3; exists s; by rewrite E1|].
  destruct (name s) eqn:E2; [by apply N.ltb_ge in E1|].
  exfalso. apply H3. exists s. by rewrite E1, E2.
Qed.

Lemma app_pair_ok value : pair_rejected (bs "app") value = false → len value <= 32.
Proof. by intros H'%N.ltb_ge. Qed.

Lemma text_opt_ok value max o : text value max = Some o → opt_ok (label_ok max) o.
Proof. intros Ht t ->. by eapply text_ok. Qed.

Lemma parse_pair_ok f pair f' : fields_ok f → parse_pair f pair = Some f' → fields_ok f'.
Proof.
  intros Hf. unfold parse_pair.
  destruct (split_once x3d pair) as [[key value]|]; [|by intros [= <-]]. cbv zeta.
  generalize (trim_matches is_ascii_whitespace key), (trim_matches is_ascii_whitespace value).
  clear key value. intros key value.
  destruct (16 <? len key); [done|].
  destruct (_ || negb _); [by intros [= <-]|].
  destruct (pair_rejected key value) eqn:Hrej; [done|].
  destruct (negb _); [by intros [= <-]|].
  destruct Hf as (Hid & Happ & Hti & Hms).
  unfold bytes_eqb in *. repeat case_bool_decide; subst; intros Hp;
    try (apply bind_Some in Hp as (o & Ht & Hp)); injection Hp as <-;
    split_and!; cbn; try done; eauto using opt_ok_some, id_pair_ok, app_pair_ok, text_opt_ok.
Qed.

Lemma parse_pairs_ok f pairs f' : fields_ok f → parse_pairs f pairs = Some f' → fields_ok f'.
Proof.
  revert f. induction pairs as [|p pairs IH]; intros f Hf; cbn [parse_pairs]; [by intros [= <-]|].
  intros (f1 & Hp & Hr)%bind_Some. eauto using parse_pair_ok.
Qed.

Lemma parse_progress_ok state v p :
  parse_progress state v = Some p → p <= 100 ∧ (state = Working ∨ state = Blocked).
Proof.
  unfold parse_progress. destruct v; [|done]. repeat case_match; intros; simplify_eq; [|done..].
  bool_prop. done.
Qed.

(** Every accepted report is within its bounds. *)
Lemma parse_ok body id r :
  parse body = Some (id, r) → opt_ok id_ok id ∧ opt_ok (λ r, status_ok r ∧ ps_id r = id) r.
Proof.
  unfold parse. case_match; [done|]. intros (_ & _ & Hp)%bind_Some.
  apply bind_Some in Hp as (f & Hf & Hp). apply bind_Some in Hp as (s & _ & Hp).
  apply bind_Some in Hp as (st & _ & Hp).
  destruct (parse_pairs_ok no_fields _ _ ltac:(by repeat split) Hf) as (Hid & Happ & Hti & Hms).
  destruct st as [st|]; injection Hp as <- <-; (split; [done|]); [|done].
  apply opt_ok_some. split; [|done]. split_and!; cbn; [done| | | |done|done].
  - unfold parse_kind. by case_bool_decide.
  - intros p. apply parse_progress_ok.
  - intros a. destruct (f_app f) as [v|]; [|done]. destruct (name v) eqn:E; [|done].
    intros [= <-]. split; [done|by apply Happ].
Qed.
End ParseFacts.

(** ** The records *)

Definition statuses_ok (s : ProgramStatuses) : Prop :=
  len (records s) <= MAX_RECORDS ∧ NoDup (map ps_id (records s)) ∧ Forall status_ok (records s).

Definition other_id (id : option bytes) (r : ProgramStatus) : bool := negb (bool_decide (ps_id r = id)).

(** Deleting the first record of an id deletes all of them. *)
Lemma delete_id id l :
  NoDup (map ps_id l) →
  match list_find (λ r, ps_id r = id) l with Some (i, _) => delete i l | None => l end
  = filter (other_id id) l.
Proof.
  induction l as [|r l IH]; [done|]. intros [Hni Hnd]%NoDup_cons. cbn [list_find].
  destruct (decide (ps_id r = id)) as [Heq|Hne].
  - rewrite filter_cons_False by (unfold other_id; rewrite bool_decide_eq_true_2 by done; intros []).
    cbn. symmetry. apply list_filter_all. intros x Hx. unfold other_id.
    rewrite bool_decide_eq_false_2; [done|]. intros Hx'. apply Hni. rewrite Heq, <- Hx'.
    by apply list_elem_of_fmap_2.
  - rewrite filter_cons_True by (unfold other_id; rewrite bool_decide_eq_false_2 by done; exact I).
    rewrite <- (IH Hnd). cbn. by destruct (list_find _ l) as [[i x]|].
Qed.

Lemma replace_record_eq id r l :
  NoDup (map ps_id l) →
  replace_record id r l =
    (let kept := filter (other_id id) l in
     if len kept =? MAX_RECORDS then drop 1 kept else kept) ++ [r].
Proof.
  intros Hnd. unfold replace_record. rewrite delete_id by done. cbv zeta.
  destruct (filter _ l); [done|]. by destruct (_ =? _).
Qed.

Lemma NoDup_map_filter {A B} (f : A → B) (P : A → Prop) `{∀ x, Decision (P x)} l :
  NoDup (map f l) → NoDup (map f (filter P l)).
Proof.
  intros Hn. eapply sublist_NoDup; [exact Hn|]. change (fmap f (filter P l) `sublist_of` fmap f l).
  apply fmap_sublist, sublist_filter.
Qed.

Lemma len_filter {A} (P : A → Prop) `{∀ x, Decision (P x)} (l : list A) : len (filter P l) <= len l.
Proof. unfold len. pose proof (length_filter P l). lia. Qed.

Lemma remove_where_ok now p s : statuses_ok s → statuses_ok (remove_where now p s).2.
Proof.
  intros (Hl & Hn & Hf). assert (statuses_ok (mk_statuses (filter (λ r, negb (p r)) (records s)) (changed_at s))) as H.
  { split_and!; cbn; [|by apply NoDup_map_filter|by apply Forall_filter].
    etrans; [apply len_filter|done]. }
  unfold remove_where. cbn. by case_bool_decide.
Qed.

Lemma replace_record_ok id r s :
  statuses_ok s → status_ok r → ps_id r = id →
  statuses_ok (mk_statuses (replace_record id r (records s)) (changed_at s)).
Proof.
  intros (Hl & Hn & Hf) Hr Hid. cbn. rewrite replace_record_eq by done. cbv zeta.
  set (kept := filter _ _).
  assert (len kept <= MAX_RECORDS) by (etrans; [apply len_filter|done]).
  assert (NoDup (map ps_id kept)) as Hnk by by apply NoDup_map_filter.
  assert (id ∉ map ps_id kept) as Hni.
  { intros (x & -> & [Hx _]%list_elem_of_filter)%list_elem_of_fmap. unfold other_id in Hx.
    by rewrite bool_decide_eq_true_2 in Hx. }
  set (kept' := if len kept =? MAX_RECORDS then drop 1 kept else kept).
  assert (kept' `sublist_of` kept) as Hsub.
  { unfold kept'. case_match; [|done]. apply sublist_drop. }
  split_and!; cbn.
  - rewrite len_app, len_cons, len_nil. unfold kept'. destruct (N.eqb_spec (len kept) MAX_RECORDS).
    + rewrite len_drop. unfold MAX_RECORDS in *. lia.
    + unfold MAX_RECORDS in *. lia.
  - rewrite map_app. apply NoDup_app. split_and!.
    + eapply sublist_NoDup; [exact Hnk|]. by apply fmap_sublist.
    + intros x Hx Hx'. cbn in Hx'. apply list_elem_of_singleton in Hx' as ->. rewrite Hid in Hx.
      apply Hni. eapply elem_of_sublist; [exact Hx|]. by apply fmap_sublist.
    + cbn. apply NoDup_cons. split; [apply not_elem_of_nil|apply NoDup_nil_2].
  - apply Forall_app. split; [|by constructor].
    eapply Forall_sublist; [|exact Hsub]. by apply Forall_filter.
Qed.

(** ** Selection *)

Definition rank (r : ProgramStatus) : N := state_rank (ps_state r).

Lemma max_by_rank_spec l :
  match max_by_rank l with
  | None => l = []
  | Some r => ∃ l1 l2, l = l1 ++ r :: l2 ∧ Forall (λ x, rank x <= rank r) l1
              ∧ Forall (λ x, rank x < rank r) l2
  end.
Proof.
  unfold max_by_rank. induction l as [|x l IH] using rev_ind; [done|].
  rewrite foldl_app. cbn [foldl]. destruct (foldl _ None l) as [b|].
  - destruct IH as (l1 & l2 & -> & H1 & H2).
    destruct (N.ltb_spec (state_rank (ps_state x)) (state_rank (ps_state b))) as [Hlt|Hge].
    + exists l1, (l2 ++ [x]). rewrite <- app_assoc. split_and!; [done..|].
      apply Forall_app. split; [done|]. by constructor.
    + exists (l1 ++ b :: l2), []. split_and!; [done| |done].
      unfold rank in *. apply Forall_app. split; [|constructor; [done|]].
      all: eapply Forall_impl; [eassumption|]; cbn; intros; lia.
  - subst. by exists [], [].
Qed.

(** The parents of an id, nearest first, down to the root. *)
Fixpoint ancestors (fuel : nat) (id : option bytes) : list (option bytes) :=
  match fuel, id with
  | S fuel, Some path =>
      let parent := fst <$> rsplit_once x2f path in parent :: ancestors fuel parent
  | _, _ => []
  end.

(** The app of the record of an id, if there is one and it has one. *)
Definition app_of (l : list ProgramStatus) (id : option bytes) : option bytes :=
  '(_, r) ← list_find (λ r, ps_id r = id) l; ps_app r.

(** The first app along a list of ids. *)
Fixpoint first_app (l : list ProgramStatus) (ids : list (option bytes)) : option bytes :=
  match ids with
  | [] => None
  | id :: ids => match app_of l id with Some a => Some a | None => first_app l ids end
  end.

Lemma rsplit_once_shorter c l p t : rsplit_once c l = Some (p, t) → (length p < length l)%nat.
Proof.
  revert p t. induction l as [|b l IH]; intros p t; [done|]. cbn [rsplit_once length].
  destruct (rsplit_once c l) as [[p' t']|]; [intros [= <- <-]; cbn; specialize (IH _ _ eq_refl); lia|].
  case_match; [|done]. intros [= <- <-]. cbn. lia.
Qed.

Lemma inherited_app_first fuel l id :
  (length (default [] id) < fuel)%nat →
  inherited_app fuel l id = first_app l (ancestors fuel id).
Proof.
  revert id. induction fuel as [|fuel IH]; intros [path|] Hf; [simpl in Hf; lia..| |done].
  cbn [inherited_app ancestors first_app]. unfold app_of.
  assert (inherited_app fuel l (fst <$> rsplit_once x2f path)
    = first_app l (ancestors fuel (fst <$> rsplit_once x2f path))) as Hrec.
  { destruct (rsplit_once x2f path) as [[p t]|] eqn:E; [|by destruct fuel].
    apply IH. apply rsplit_once_shorter in E. cbn in *. lia. }
  destruct (list_find _ l) as [[i r]|]; [|exact Hrec]. cbn. by destruct (ps_app r).
Qed.

(** ** Theorems *)

Section Theorems.
Context `{Base64}.

(** However the child misuses the protocol, the daemon's records stay
    bounded and valid: at most 256 of them, one per program id, ids within
    128 bytes and eight segments, percentages at most 100 and only on live
    states, block reasons only on blocked ones, labels within their byte
    limits, valid UTF-8 and free of control and invisible characters. *)
Theorem statuses_stay_ok now body s :
  statuses_ok s →
  statuses_ok (report now body s).2 ∧ statuses_ok (clear now s).2
  ∧ statuses_ok (drop_transient now s).2.
Proof.
  intros Hs. split_and!; [|by apply remove_where_ok..]. unfold report.
  destruct (parse body) as [[id [r|]]|] eqn:Hp; [|by apply remove_where_ok|done].
  apply parse_ok in Hp as [_ Hr]. destruct (Hr r eq_refl) as [Hok Hid].
  pose proof (replace_record_ok id r s Hs Hok Hid) as Hn. cbn zeta.
  by destruct (negb (bool_decide _)).
Qed.

(** What a report does. A replacement becomes the newest record and
    removes the previous record of its id and, only when 256 others are
    kept, the least recently updated of them; a clear removes exactly the
    records at and below its id, and [drop_transient] exactly the working
    and blocked ones; nothing else changes, an invalid report changes
    nothing, and the selection epoch moves exactly when the selected record
    does. *)
Theorem report_effect now body s (s' := (report now body s).2) :
  statuses_ok s →
  match parse body with
  | None => s' = s ∧ (report now body s).1 = false
  | Some (id, Some r) =>
      let others := filter (other_id id) (records s) in
      records s' = (if len others =? MAX_RECORDS then drop 1 others else others) ++ [r]
  | Some (id, None) =>
      records s' = filter (λ r, negb (below id r)) (records s)
      ∧ ((report now body s).1 = true ↔ records s' ≠ records s)
  end
  ∧ changed_at s' = (if bool_decide (current s' = current s) then changed_at s else Some now)
  ∧ records (drop_transient now s).2 = filter (λ r, negb (transient r)) (records s).
Proof.
  intros (Hl & Hn & Hok). subst s'. unfold report, drop_transient.
  assert (∀ p, records (remove_where now p s).2 = filter (λ r, negb (p r)) (records s)) as Hrw.
  { intros p. unfold remove_where. cbn. by case_bool_decide. }
  assert (∀ l ca ca', current (mk_statuses l ca) = current (mk_statuses l ca')) as Hcur by done.
  split_and!; [| |by rewrite Hrw].
  - destruct (parse body) as [[id [r|]]|]; [| |done].
    + cbn zeta. rewrite <- replace_record_eq by done. by destruct (negb (bool_decide _)).
    + split; [by rewrite Hrw|]. rewrite Hrw. unfold remove_where. cbn.
      set (k := filter _ _). rewrite negb_true_iff, N.eqb_neq. split; [by intros ? ->|].
      intros Hne Hlen. by apply Hne, filter_all_len.
  - destruct (parse body) as [[id [r|]]|]; cbn zeta.
    + destruct (bool_decide _) eqn:E; cbn [negb snd]; [by rewrite E|].
      rewrite (Hcur _ (Some now) (changed_at s)). by rewrite E.
    + unfold remove_where. cbn zeta. destruct (bool_decide _) eqn:E; cbn [snd]; [by rewrite E|].
      rewrite (Hcur _ (Some now) (changed_at s)). by rewrite E.
    + cbn. by rewrite bool_decide_eq_true_2.
Qed.

(** The displayed record is the newest one of the highest priority
    (blocked, error, working, done, idle); it is shown as reported except
    that a missing app name is taken from the nearest ancestor id that has
    one; something is displayed whenever there is a record. *)
Theorem current_spec s :
  match current s with
  | None => records s = []
  | Some shown =>
      ∃ older r newer, records s = older ++ r :: newer
        ∧ Forall (λ x, rank x <= rank r) older ∧ Forall (λ x, rank x < rank r) newer
        ∧ shown = with_app r
            (match ps_app r with
             | Some app => Some app
             | None => first_app (records s)
                         (ancestors (S (length (default [] (ps_id r)))) (ps_id r))
             end)
  end.
Proof.
  unfold current. pose proof (max_by_rank_spec (records s)) as Hm.
  destruct (max_by_rank (records s)) as [r|]; [|done]. cbn [mbind option_bind].
  destruct Hm as (l1 & l2 & Hl & H1 & H2). exists l1, r, l2. split_and!; [done..|].
  destruct (ps_app r) as [a|] eqn:E; [by destruct r; cbn in *; subst|].
  f_equal. apply inherited_app_first. lia.
Qed.
End Theorems.

(** ** Witnesses *)

(** A concrete decoder that accepts nothing but the empty text. *)
Definition no_base64 : Base64 := {|
  STANDARD_decode := λ _, None;
  STANDARD_NO_PAD_decode := λ l, if len l =? 0 then Some [] else None;
|}.

Definition sample_status : ProgramStatus :=
  mk_status Working (Some (bs "build/test")) None (Some 40) None None None.
Definition sample_statuses : ProgramStatuses :=
  mk_statuses [mk_status Done None None None (Some (bs "agent")) None None; sample_status] (Some 3).

Lemma sample_statuses_ok : statuses_ok sample_statuses.
Proof.
  split_and!; [by vm_compute|apply (bool_decide_unpack _); by vm_compute|].
  repeat constructor; intros; cbn in *; simplify_eq; try done; try (by vm_compute; eauto).
  all: repeat constructor; try (by vm_compute).
Qed.

Lemma report_parses :
  @parse no_base64 (bs "state=blocked:id=build/test:kind=permission")
  = Some (Some (bs "build/test"), Some (mk_status Blocked (Some (bs "build/test")) (Some Permission)
      None None None None)).
Proof. vm_compute. reflexivity. Qed.

Lemma statuses_stay_ok_witness :
  let s := sample_statuses in
  statuses_ok (@report no_base64 9 (bs "state=blocked:id=build/test:kind=permission") s).2
  ∧ statuses_ok (clear 9 s).2 ∧ statuses_ok (drop_transient 9 s).2.
Proof. apply (@statuses_stay_ok no_base64), sample_statuses_ok. Defined.

Lemma report_effect_witness :
  let s := sample_statuses in let s' := (@report no_base64 9 (bs "state=clear:id=build") s).2 in
  match @parse no_base64 (bs "state=clear:id=build") with
  | None => s' = s ∧ (@report no_base64 9 (bs "state=clear:id=build") s).1 = false
  | Some (id, Some r) =>
      let others := filter (other_id id) (records s) in
      records s' = (if len others =? MAX_RECORDS then drop 1 others else others) ++ [r]
  | Some (id, None) =>
      records s' = filter (λ r, negb (below id r)) (records s)
      ∧ ((@report no_base64 9 (bs "state=clear:id=build") s).1 = true ↔ records s' ≠ records s)
  end
  ∧ changed_at s' = (if bool_decide (current s' = current s) then changed_at s else Some 9)
  ∧ records (drop_transient 9 s).2 = filter (λ r, negb (transient r)) (records s).
Proof. apply (@report_effect no_base64 9 (bs "state=clear:id=build")), sample_statuses_ok. Defined.
