(* ===== verification/Signals.v ===== *)
(** * Retained terminal signals

    [TerminalQuery], [TerminalSignals] and the colour report of
    [src/src/session/pty.rs]: the one-way notifications (titles, progress,
    cursor style, colours, program status) a session last emitted, and the
    escape sequences that reproduce them on a client that attaches later. *)

From S2P Require Import Prelude Utf8 Text ProgramStatus.

(** ** Queries and colours *)

Inductive TerminalQuery :=
  | CursorPositionReport
  | DeviceStatusReport
  | ForegroundColor
  | BackgroundColor.

#[export] Instance TerminalQuery_eq_dec : EqDecision TerminalQuery.
Proof. solve_decision. Defined.

Definition rgb : Type := N * N * N.

(** The colour-cube levels of [xterm_color_to_rgb]. *)
Definition levels : list N := [0x00; 0x5f; 0x87; 0xaf; 0xd7; 0xff].

Definition ansi_colors : list rgb :=
  [ (0x00, 0x00, 0x00); (0xcd, 0x00, 0x00); (0x00, 0xcd, 0x00); (0xcd, 0xcd, 0x00);
    (0x00, 0x00, 0xee); (0xcd, 0x00, 0xcd); (0x00, 0xcd, 0xcd); (0xe5, 0xe5, 0xe5);
    (0x7f, 0x7f, 0x7f); (0xff, 0x00, 0x00); (0x00, 0xff, 0x00); (0xff, 0xff, 0x00);
    (0x5c, 0x5c, 0xff); (0xff, 0x00, 0xff); (0x00, 0xff, 0xff); (0xff, 0xff, 0xff) ].

(** [None] marks an out-of-range array index, which the source would panic on. *)
Definition xterm_color_to_rgb (index : N) : option rgb :=
  if index <? 16 then ansi_colors !! N.to_nat index
  else if index <=? 231 then
    let value := index - 16 in
    red ← levels !! N.to_nat (value / 36);
    green ← levels !! N.to_nat ((value mod 36) / 6);
    blue ← levels !! N.to_nat (value mod 6);
    Some (red, green, blue)
  else
    let level := 8 + (index - 232) * 10 in
    Some (level, level, level).

(** [terminal_report_rgb]; the [COLORFGBG] variable is an argument. *)
Definition terminal_report_rgb (colorfgbg : option bytes) : option (rgb * rgb) :=
  let default_pair := ((0xff, 0xff, 0xff), (0x00, 0x00, 0x00)) in
  match colorfgbg with
  | None => Some default_pair
  | Some raw =>
      let parsed := omap (λ part, parse_unsigned u8_max (trim part))
                      (split_on x3b raw) in
      if 2 <=? len parsed then
        f ← parsed !! N.to_nat (len parsed - 2);
        b ← parsed !! N.to_nat (len parsed - 1);
        foreground ← xterm_color_to_rgb f;
        background ← xterm_color_to_rgb b;
        Some (foreground, background)
      else Some default_pair
  end.

(** ** Signals *)

Definition MAX_RETAINED_SIGNAL_PAYLOAD_BYTES : N := 1024.

Record TerminalSignals := mk_signals {
  icon_title : option bytes;
  window_title : option bytes;
  progress : option bytes;
  cursor_style : option bytes;
  foreground : option bytes;
  background : option bytes;
  program_statuses : ProgramStatuses;
}.

#[export] Instance ProgramStatuses_eq_dec : EqDecision ProgramStatuses.
Proof. solve_decision. Defined.
#[export] Instance TerminalSignals_eq_dec : EqDecision TerminalSignals.
Proof. solve_decision. Defined.

Definition no_signals : TerminalSignals := mk_signals None None None None None None no_statuses.

Definition set_icon_title (s : TerminalSignals) (v : option bytes) : TerminalSignals :=
  mk_signals v (window_title s) (progress s) (cursor_style s) (foreground s) (background s)
    (program_statuses s).
Definition set_window_title (s : TerminalSignals) (v : option bytes) : TerminalSignals :=
  mk_signals (icon_title s) v (progress s) (cursor_style s) (foreground s) (background s)
    (program_statuses s).
Definition set_progress (s : TerminalSignals) (v : option bytes) : TerminalSignals :=
  mk_signals (icon_title s) (window_title s) v (cursor_style s) (foreground s) (background s)
    (program_statuses s).
Definition put_cursor_style (s : TerminalSignals) (v : option bytes) : TerminalSignals :=
  mk_signals (icon_title s) (window_title s) (progress s) v (foreground s) (background s)
    (program_statuses s).
Definition set_foreground (s : TerminalSignals) (v : option bytes) : TerminalSignals :=
  mk_signals (icon_title s) (window_title s) (progress s) (cursor_style s) v (background s)
    (program_statuses s).
Definition set_background (s : TerminalSignals) (v : option bytes) : TerminalSignals :=
  mk_signals (icon_title s) (window_title s) (progress s) (cursor_style s) (foreground s) v
    (program_statuses s).
Definition set_statuses (s : TerminalSignals) (v : ProgramStatuses) : TerminalSignals :=
  mk_signals (icon_title s) (window_title s) (progress s) (cursor_style s) (foreground s)
    (background s) v.

(** [replace_slot] on the slot read by [get] and written by [set]. *)
Definition replace_slot (get : TerminalSignals → option bytes)
    (set : TerminalSignals → option bytes → TerminalSignals)
    (s : TerminalSignals) (next : option bytes) : bool * TerminalSignals :=
  if bool_decide (get s = next) then (false, s) else (true, set s next).

(** [(!payload.is_empty()).then_some(payload)]. *)
Definition nonempty (payload : bytes) : option bytes :=
  if len payload =? 0 then None else Some payload.

(** First piece of [split(';')]; there always is one. *)
Definition first_piece (l : bytes) : bytes := default [] (head (split_on x3b l)).

Section Signals.
Context `{Base64}.

Definition record_osc (now : N) (ps payload : bytes) (s : TerminalSignals)
    : bool * TerminalSignals :=
  if negb (bytes_eqb ps (bs "7501")) && (MAX_RETAINED_SIGNAL_PAYLOAD_BYTES <? len payload)
  then (false, s)
  else if bytes_eqb ps (bs "7501") then
    let '(changed, st) := report now payload (program_statuses s) in
    (changed, set_statuses s st)
  else if bytes_eqb ps (bs "0") then
    if negb (bool_decide (icon_title s = Some payload))
       || negb (bool_decide (window_title s = Some payload))
    then (true, set_window_title (set_icon_title s (Some payload)) (Some payload))
    else (false, s)
  else if bytes_eqb ps (bs "1") then replace_slot icon_title set_icon_title s (Some payload)
  else if bytes_eqb ps (bs "2") then replace_slot window_title set_window_title s (Some payload)
  else if bytes_eqb ps (bs "10") then replace_slot foreground set_foreground s (nonempty payload)
  else if bytes_eqb ps (bs "11") then replace_slot background set_background s (nonempty payload)
  else if bytes_eqb ps (bs "9") && starts_with (bs "4;") payload then
    let state := first_piece (drop 2 payload) in
    replace_slot progress set_progress s
      (if bytes_eqb state (bs "0") then None else Some payload)
  else (false, s).
End Signals.

Definition foreground_color (s : TerminalSignals) : option bytes := foreground s.
Definition background_color (s : TerminalSignals) : option bytes := background s.

Definition title (s : TerminalSignals) : option bytes :=
  match window_title s with Some t => Some t | None => icon_title s end.

Definition set_cursor_style (s : TerminalSignals) (params : option bytes)
    : bool * TerminalSignals :=
  if bool_decide (cursor_style s = params) then (false, s) else (true, put_cursor_style s params).

Definition push_osc (ps payload : bytes) : bytes :=
  [x1b; x5d] ++ ps ++ bs ";" ++ payload ++ [x07].

Definition opt_bytes (f : bytes → bytes) (o : option bytes) : bytes :=
  match o with Some b => f b | None => [] end.

(** The title part of [restore_bytes]. *)
Definition restore_titles (s : TerminalSignals) : bytes :=
  match icon_title s, window_title s with
  | Some icon, Some window =>
      if bytes_eqb icon window then push_osc (bs "0") icon
      else push_osc (bs "1") icon ++ push_osc (bs "2") window
  | icon, window => opt_bytes (push_osc (bs "1")) icon ++ opt_bytes (push_osc (bs "2")) window
  end.

Definition restore_bytes (s : TerminalSignals) : bytes :=
  restore_titles s
  ++ opt_bytes (push_osc (bs "9")) (progress s)
  ++ opt_bytes (λ style, [x1b; x5b] ++ style ++ bs " q") (cursor_style s).

(** [collect_chunk_bytes]. *)
Definition collect_chunk_bytes (chunks : list (N * bytes)) : bytes := concat (map snd chunks).
