(* ===== verification/Scanner.v ===== *)
(** * The pseudo-terminal output scanner

    [src/src/session/scan.rs].  Every byte the child writes passes through
    [PtyScanner]: terminal-capability probes are answered and removed, other
    terminal-application protocol traffic is removed, one-way notifications
    are remembered, and everything else becomes the canonical filtered stream.
    Where the source passes [(data, start)] the model passes the suffix
    [data[start..]]; a handler returns the number of bytes it consumed, or
    [None] when the sequence is incomplete.  The scratch buffer [joined], whose
    contents never outlive a call, is not part of the state. *)

From S2P Require Import Prelude Utf8 Text ProgramStatus Signals.

(** ** State and output *)

Definition MAX_PENDING_ESCAPE_BYTES : N := 4096.

Record ScanOut := mk_out {
  filtered : bytes;
  queries : list TerminalQuery;
  responses : list bytes;
  signal_bytes : N;
}.

Definition empty_out : ScanOut := mk_out [] [] [] 0.

(** [reset]: the reused buffers are emptied at the start of every call. *)
Definition reset (_ : ScanOut) : ScanOut := empty_out.

(** [saturating_sub] on lengths. *)
Definition meaningful_bytes (o : ScanOut) : N := len (filtered o) - signal_bytes o.

Record PtyScanner := mk_scanner {
  pending : bytes;
  signals : TerminalSignals;
  signals_dirty : bool;
}.

Definition new_scanner : PtyScanner := mk_scanner [] no_signals false.

Definition is_idle (s : PtyScanner) : bool := len (pending s) =? 0.

Definition take_changed_signals (s : PtyScanner) : option TerminalSignals * PtyScanner :=
  if negb (signals_dirty s) then (None, s)
  else (Some (signals s), mk_scanner (pending s) (signals s) false).

(** What the handlers change: the signals, the dirty flag and the output. *)
Record Work := mk_work {
  w_signals : TerminalSignals;
  w_dirty : bool;
  w_out : ScanOut;
}.

Definition with_out (w : Work) (o : ScanOut) : Work := mk_work (w_signals w) (w_dirty w) o.

(** [out.filtered.extend_from_slice]. *)
Definition emit (w : Work) (l : bytes) : Work :=
  let o := w_out w in
  with_out w (mk_out (filtered o ++ l) (queries o) (responses o) (signal_bytes o)).

Definition push_query (w : Work) (q : TerminalQuery) : Work :=
  let o := w_out w in
  with_out w (mk_out (filtered o) (queries o ++ [q]) (responses o) (signal_bytes o)).

Definition push_response (w : Work) (r : bytes) : Work :=
  let o := w_out w in
  with_out w (mk_out (filtered o) (queries o) (responses o ++ [r]) (signal_bytes o)).

Definition add_signal_bytes (w : Work) (n : N) : Work :=
  let o := w_out w in
  with_out w (mk_out (filtered o) (queries o) (responses o) (signal_bytes o + n)).

(** A signal update and its changed flag. *)
Definition note_signals (w : Work) (r : bool * TerminalSignals) : Work :=
  mk_work r.2 (w_dirty w || r.1) (w_out w).

(** ** Classifying control sequences *)

Inductive CsiAction :=
  | Emit
  | Strip
  | StripAndAnswer (q : TerminalQuery).

Definition is_two_numeric_params (digits : bytes) : bool :=
  match split_on x3b digits with
  | [first; second] =>
      negb (len first =? 0) && negb (len second =? 0)
      && forallb is_ascii_digit first && forallb is_ascii_digit second
  | _ => false
  end.

Definition leading_number (digits : bytes) : option N :=
  let first := first_piece digits in
  if (len first =? 0) || negb (forallb is_ascii_digit first) then None
  else parse_unsigned u32_max first.

(** The private marker of the parameters, zero if there is none. *)
Definition private_marker (params : bytes) : N :=
  match params with
  | b :: _ => if in_byte_range x3c x3f b then byte_val b else 0
  | [] => 0
  end.

Definition classify_csi (params intermediates : bytes) (final : byte) : CsiAction :=
  let private := private_marker params in
  let digits := if private =? 0 then params else drop 1 params in
  let question := private =? byte_val x3f in
  if (final =b x52) && ((private =? 0) || question) && is_two_numeric_params digits then Strip
  else if (final =b x6e) && question then Strip
  else if (final =b x6e) && (private =? 0) && negb (len digits =? 0)
          && forallb is_ascii_digit digits then
    if bytes_eqb digits (bs "6") then StripAndAnswer CursorPositionReport
    else if bytes_eqb digits (bs "5") then StripAndAnswer DeviceStatusReport
    else Strip
  else if final =b x63 then Strip
  else if (final =b x70) && question && bytes_eqb intermediates (bs "$") then Strip
  else if (final =b x71) && (private =? byte_val x3e) then Strip
  else if (final =b x75) && question then Strip
  else if (final =b x74) && (private =? 0)
          && match leading_number digits with
             | Some n => (14 <=? n) && (n <=? 19)
             | None => false
             end
  then Strip
  else Emit.

Definition is_passthrough_osc (ps payload : bytes) : bool :=
  existsb (bytes_eqb ps) [bs "0"; bs "1"; bs "2"]
  || (bytes_eqb ps (bs "9") && starts_with (bs "4;") payload).

(** ** The handlers *)

(** [string_sequence] from the payload on: bytes up to and including the
    terminator. *)
Fixpoint string_end (l : bytes) : option nat :=
  match l with
  | [] => None
  | b :: l' =>
      if b =b x07 then Some 1%nat
      else if b =b x1b then
        match l' with
        | [] => None
        | c :: _ => if c =b x5c then Some 2%nat else S <$> string_end l'
        end
      else S <$> string_end l'
  end.

Definition string_sequence (l : bytes) : option nat :=
  n ← string_end (drop 2 l); Some (2 + n)%nat.

(** The terminator loop of [osc]. *)
Inductive OscEnd :=
  | OscIncomplete
  | OscBroken
  | OscAt (payload terminator : bytes).

Fixpoint osc_end (escaped : bool) (l : bytes) : OscEnd :=
  match l with
  | [] => OscIncomplete
  | b :: l' =>
      if b =b x07 then OscAt [] [x07]
      else if b =b x1b then
        match l' with
        | [] => OscIncomplete
        | c :: _ => if escaped && (c =b x5c) then OscAt [] [x1b; x5c] else OscBroken
        end
      else match osc_end escaped l' with
           | OscAt payload t => OscAt (b :: payload) t
           | o => o
           end
  end.

Definition is_param (b : byte) : bool := in_byte_range x30 x3f b.
Definition is_intermediate (b : byte) : bool := in_byte_range x20 x2f b.
Definition is_final (b : byte) : bool := in_byte_range x40 x7e b.

Section Handlers.
Context `{Base64} (now : N).

Definition record_cursor_style (w : Work) (params : bytes) : Work :=
  let next := if (len params =? 0) || bytes_eqb params (bs "0") then None else Some params in
  note_signals w (set_cursor_style (w_signals w) next).

Definition record_osc_signal (w : Work) (ps payload : bytes) : Work :=
  note_signals w (record_osc now ps payload (w_signals w)).

(** [self.signals.program_statuses.…] with its changed flag. *)
Definition update_statuses (w : Work) (f : ProgramStatuses → bool * ProgramStatuses) : Work :=
  let r := f (program_statuses (w_signals w)) in
  note_signals w (r.1, set_statuses (w_signals w) r.2).

Definition csi (l : bytes) (w : Work) : option (nat * Work) :=
  let '(params, l1) := span is_param (drop 2 l) in
  let '(intermediates, l2) := span is_intermediate l1 in
  match l2 with
  | [] => None
  | final :: _ =>
      if negb (is_final final) then Some (2%nat, emit w (take 2 l))
      else
        let end_ := (2 + length params + length intermediates + 1)%nat in
        Some (end_,
          match classify_csi params intermediates final with
          | Emit =>
              let w := if (final =b x71) && bytes_eqb intermediates (bs " ")
                       then record_cursor_style w params else w in
              emit w (take end_ l)
          | Strip => w
          | StripAndAnswer query => push_query w query
          end)
  end.

(** What a complete OSC does: [introduced] is [payload_start != ps_end]. *)
Definition osc_complete (ps : bytes) (introduced : bool) (payload terminator : bytes)
    (total : N) (w : Work) : Work :=
  if bytes_eqb ps (bs "7501") then
    if introduced && (total <=? MAX_PENDING_ESCAPE_BYTES) then
      if bytes_eqb payload (bs "?") then
        push_response w ([x1b] ++ bs "]7501;" ++ QUERY_REPLY ++ terminator)
      else record_osc_signal w ps payload
    else w
  else
    let w := if bytes_eqb ps (bs "133") && bytes_eqb (first_piece payload) (bs "A")
             then update_statuses w (drop_transient now) else w in
    if match payload with b :: _ => b =b x3f | [] => false end then
      if bytes_eqb ps (bs "10") then push_query w ForegroundColor
      else if bytes_eqb ps (bs "11") then push_query w BackgroundColor
      else w
    else if bytes_eqb ps (bs "10") || bytes_eqb ps (bs "11") then record_osc_signal w ps payload
    else if negb introduced || negb (is_passthrough_osc ps payload) then w
    else
      let w := record_osc_signal w ps payload in
      let emitted := [x1b; x5d] ++ ps ++ (if introduced then bs ";" else []) ++ payload
                       ++ terminator in
      add_signal_bytes (emit w emitted) (len emitted).

Definition osc (intro : nat) (escaped : bool) (l : bytes) (w : Work) : option (nat * Work) :=
  let '(ps, l1) := span is_ascii_digit (drop intro l) in
  if (len ps =? 0) || (5 <? len ps) then
    match l1 with
    | [] => None
    | _ => Some (intro, emit w (take intro l))
    end
  else
    let introduced := match l1 with b :: _ => b =b x3b | [] => false end in
    let l2 := if introduced then drop 1 l1 else l1 in
    match osc_end escaped l2 with
    | OscIncomplete => None
    | OscBroken => Some (intro, emit w (take intro l))
    | OscAt payload terminator =>
        let end_ := (intro + length ps + (if introduced then 1 else 0) + length payload
                     + length terminator)%nat in
        Some (end_, osc_complete ps introduced payload terminator (N.of_nat end_) w)
    end.

Definition escape (l : bytes) (w : Work) : option (nat * Work) :=
  match drop 1 l with
  | [] => None
  | introducer :: _ =>
      if introducer =b x5b then csi l w
      else if introducer =b x5d then osc 2 true l w
      else if existsb (Byte.eqb introducer) [x50; x5f; x5e; x58] then
        n ← string_sequence l; Some (n, w)
      else if introducer =b x63 then Some (2%nat, emit (update_statuses w (clear now)) (take 2 l))
      else Some (2%nat, emit w (take 2 l))
  end.

Definition bare_csi_end (l : bytes) : option nat :=
  let '(mark, l0) := match drop 1 l with
                     | b :: l' => if b =b x3f then (1%nat, l') else (0%nat, b :: l')
                     | [] => (0%nat, [])
                     end in
  let '(digits, l1) := span is_ascii_digit l0 in
  if len digits =? 0 then None
  else match l1 with
  | b :: l2 =>
      if b =b x6e then
        if bytes_eqb digits (bs "5") || bytes_eqb digits (bs "6")
        then Some (1 + mark + length digits + 1)%nat else None
      else if b =b x3b then
        let '(second, l3) := span is_ascii_digit l2 in
        match l3 with
        | c :: _ =>
            if negb (len second =? 0) && (c =b x52)
            then Some (1 + mark + length digits + 1 + length second + 1)%nat else None
        | [] => None
        end
      else None
  | [] => None
  end.

(** The literal [\[] is emitted when this is no report after all. *)
Definition bare_csi (l : bytes) (w : Work) : nat * Work :=
  match bare_csi_end l with
  | Some n => (n, w)
  | None => (1%nat, emit w (bs "["))
  end.

Definition bare_osc (l : bytes) (w : Work) : option (nat * Work) := osc 1 false l w.
End Handlers.

(** ** The scan *)

Section Scan.
Context `{Base64} (BARE_CONPTY_FORMS : bool) (now : N).

(** [memchr]'s needles. *)
Definition introduces (b : byte) : bool :=
  (b =b x1b) || (BARE_CONPTY_FORMS && ((b =b x5b) || (b =b x5d))).

Definition plain_byte (b : byte) : bool := negb (introduces b).

(** One sequence starting at an introducing byte. *)
Definition consume (l : bytes) (w : Work) : option (nat * Work) :=
  match l with
  | b :: _ =>
      if b =b x1b then escape now l w
      else if b =b x5b then Some (bare_csi l w)
      else bare_osc now l w
  | [] => None
  end.

(** The loop of [scan_slice]: plain runs are copied, sequences consumed; the
    incomplete sequence it stopped at, if any, is returned. Every turn
    consumes a byte, so the length of the data is enough fuel. *)
Fixpoint slice_loop (fuel : nat) (l : bytes) (w : Work) : bytes * Work :=
  match fuel with
  | O => (l, w)
  | S fuel =>
      let '(run, rest) := span plain_byte l in
      let w := emit w run in
      match rest with
      | [] => ([], w)
      | _ =>
          match consume rest w with
          | Some (n, w) => slice_loop fuel (drop n rest) w
          | None => (rest, w)
          end
      end
  end.

Definition scan_slice (data : bytes) (w : Work) : bytes * Work :=
  let '(rest, w) := slice_loop (S (length data)) data w in
  if MAX_PENDING_ESCAPE_BYTES <=? len rest then ([], emit w rest) else (rest, w).

Definition scan (s : PtyScanner) (data : bytes) : PtyScanner * ScanOut :=
  let w := mk_work (signals s) (signals_dirty s) empty_out in
  let '(rest, w) := scan_slice (if len (pending s) =? 0 then data else pending s ++ data) w in
  (mk_scanner rest (w_signals w) (w_dirty w), w_out w).
End Scan.

(** ** Handlers read no further than the sequence they consume *)

(** A handler that decides keeps its decision when more bytes follow, and
    consumes at least one byte, all of which it has seen. *)
Definition stable (f : bytes → Work → option (nat * Work)) : Prop :=
  ∀ l w n w', f l w = Some (n, w') →
    (0 < n <= length l)%nat ∧ ∀ k, f (l ++ k) w = Some (n, w').

Lemma string_end_stable l n k :
  string_end l = Some n → (0 < n <= length l)%nat ∧ string_end (l ++ k) = Some n.
Proof.
  revert n. induction l as [|b l IH]; intros n; [done|]. cbn [string_end app length].
  destruct (b =b x07); [intros [= <-]; split; [lia|done]|].
  assert (∀ m, S <$> string_end l = Some m →
    (0 < m <= S (length l))%nat ∧ S <$> string_end (l ++ k) = Some m) as Hrec.
  { intros m (m' & Hm & ->)%fmap_Some. destruct (IH m' Hm) as [? ->]. split; [lia|done]. }
  destruct (b =b x1b); [|by apply Hrec].
  destruct l as [|c l]; [done|]. cbn [app]. destruct (c =b x5c); [|by apply Hrec].
  intros [= <-]. cbn. split; [lia|done].
Qed.

Lemma osc_end_stable e l k :
  osc_end e l ≠ OscIncomplete → osc_end e (l ++ k) = osc_end e l.
Proof.
  induction l as [|b l IH]; [done|]. cbn [osc_end app].
  destruct (b =b x07); [done|]. destruct (b =b x1b).
  - destruct l as [|c l]; [done|]. done.
  - intros Hne. rewrite IH; [done|]. by destruct (osc_end e l).
Qed.

Lemma osc_end_at e l p t : osc_end e l = OscAt p t → ∃ k, l = p ++ t ++ k ∧ (0 < length t)%nat.
Proof.
  revert p. induction l as [|b l IH]; intros p; [done|]. cbn [osc_end].
  destruct (b =b x07) eqn:E7; [intros [= <- <-]; bool_prop; subst; exists l; split; [done|cbn; lia]|].
  destruct (b =b x1b) eqn:E1.
  - destruct l as [|c l]; [done|]. destruct (e && (c =b x5c)) eqn:Ec; [|done].
    intros [= <- <-]. apply andb_true_iff in Ec as [_ Ec]. bool_prop. subst.
    exists l. split; [done|cbn; lia].
  - destruct (osc_end e l) as [| |p' t'] eqn:E; [done..|]. intros [= <- <-].
    destruct (IH _ eq_refl) as (k & -> & ?). by exists k.
Qed.

Lemma take_app_le' {A} n (l k : list A) : (n <= length l)%nat → take n (l ++ k) = take n l.
Proof. intros. by rewrite take_app_le. Qed.

Lemma drop_cons_app {A} n (l k : list A) : (n <= length l)%nat → drop n (l ++ k) = drop n l ++ k.
Proof. intros. by rewrite drop_app_le. Qed.

Section Stability.
Context `{Base64} (now : N).

Lemma csi_stable l w n w' :
  (2 <= length l)%nat → csi l w = Some (n, w') →
  (0 < n <= length l)%nat ∧ ∀ k, csi (l ++ k) w = Some (n, w').
Proof.
  intros H2. unfold csi. destruct (span is_param (drop 2 l)) as [ps l1] eqn:E1.
  destruct (span is_intermediate l1) as [im l2] eqn:E2.
  destruct l2 as [|fb l3]; [done|].
  pose proof (span_app _ _ _ _ E1) as Hl. pose proof (span_app _ _ _ _ E2) as ->.
  assert (length l = 2 + length ps + length im + 1 + length l3)%nat as Hlen.
  { pose proof (f_equal length Hl) as Hl'. rewrite length_drop, !length_app in Hl'. cbn in Hl'. lia. }
  assert (∀ k, span is_param (drop 2 (l ++ k)) = (ps, im ++ fb :: l3 ++ k)
            ∧ span is_intermediate (im ++ fb :: l3 ++ k) = (im, fb :: l3 ++ k)) as Hk.
  { intros k. rewrite drop_cons_app by lia.
    pose proof (span_extend _ _ _ _ _ k E2) as Hi. rewrite <- app_assoc in Hi. cbn in Hi.
    split; [|exact Hi]. destruct (im ++ fb :: l3) as [|b y] eqn:Hb; [by destruct im|].
    pose proof (span_extend _ _ _ _ _ k E1) as Hp. rewrite Hp. f_equal.
    rewrite app_comm_cons, <- Hb, <- app_assoc. done. }
  destruct (negb (is_final fb)) eqn:Ef; intros [= <- <-]; (split; [lia|]); intros k;
    destruct (Hk k) as [-> ->]; rewrite Ef, take_app_le' by lia; done.
Qed.

Lemma osc_stable i e l w n w' :
  (0 < i <= length l)%nat → osc now i e l w = Some (n, w') →
  (0 < n <= length l)%nat ∧ ∀ k, osc now i e (l ++ k) w = Some (n, w').
Proof.
  intros Hi. unfold osc. destruct (span is_ascii_digit (drop i l)) as [ps l1] eqn:E1.
  destruct l1 as [|b l1].
  { destruct (_ || _); [done|]. cbn. done. }
  pose proof (span_app _ _ _ _ E1) as Hl.
  assert (length l = i + length ps + 1 + length l1)%nat as Hlen.
  { pose proof (f_equal length Hl) as Hl'. rewrite length_drop, !length_app in Hl'. cbn in Hl'. lia. }
  assert (∀ k, span is_ascii_digit (drop i (l ++ k)) = (ps, b :: l1 ++ k)) as Hk.
  { intros k. rewrite drop_cons_app by lia. by apply span_extend. }
  destruct ((len ps =? 0) || (5 <? len ps)) eqn:Eps.
  { intros [= <- <-]. split; [lia|]. intros k. rewrite Hk, Eps, take_app_le' by lia. done. }
  set (intro := b =b x3b). set (l2 := if intro then drop 1 (b :: l1) else b :: l1).
  assert (∀ k, (if intro then drop 1 (b :: l1 ++ k) else b :: l1 ++ k) = l2 ++ k) as Hl2
    by (intros k; unfold l2; by destruct intro).
  destruct (osc_end e l2) as [| |p t] eqn:Eo; [done|..].
  - intros [= <- <-]. split; [lia|]. intros k. rewrite Hk, Eps. fold intro. rewrite Hl2.
    rewrite osc_end_stable by (by rewrite Eo). rewrite Eo, take_app_le' by lia. done.
  - intros [= <- <-]. destruct (osc_end_at _ _ _ _ Eo) as (r & Hr & Ht). split.
    + assert (length l2 = (if intro then 0 else 1) + length l1)%nat as Hl2len
        by (unfold l2; by destruct intro).
      pose proof (f_equal length Hr) as Hr'. rewrite !length_app in Hr'.
      destruct intro; lia.
    + intros k. rewrite Hk, Eps. fold intro. rewrite Hl2.
      rewrite osc_end_stable by (by rewrite Eo). by rewrite Eo.
Qed.

Lemma escape_stable : stable (escape now).
Proof.
  intros l w n w'. unfold escape. destruct l as [|a [|b l]]; [done..|].
  cbn [drop app]. destruct (b =b x5b).
  { intros Hc. apply csi_stable in Hc; [done|cbn; lia]. }
  destruct (b =b x5d).
  { intros Hc. apply osc_stable in Hc; [done|cbn; lia]. }
  destruct (existsb _ _).
  { unfold string_sequence. intros (m & Hm & Hs)%bind_Some. injection Hs as <- <-.
    apply bind_Some in Hm as (j & Hj & [= <-]). cbn [drop] in *.
    rewrite drop_0 in Hj. split; [apply (string_end_stable _ _ []) in Hj as [? _]; cbn [length]; lia|].
    intros k. rewrite drop_0. by destruct (string_end_stable _ _ k Hj) as [_ ->]. }
  destruct (b =b x63); intros [= <- <-]; (split; [cbn; lia|done]).
Qed.
End Stability.

(** ** The scan does not depend on where the stream is cut *)

Section Chunks.
Context `{Base64} (now : N).

Abbreviation loop l w := (slice_loop false now (S (length l)) l w).

Lemma consume_escape b l w :
  plain_byte false b = false → consume now (b :: l) w = escape now (b :: l) w ∧ b = x1b.
Proof.
  unfold plain_byte, introduces. cbn [consume andb]. rewrite orb_false_r.
  intros Hb. bool_prop. subst. done.
Qed.

(** Any fuel beyond the length of the data gives the same result. *)
Lemma slice_loop_fuel fuel l w :
  (length l < fuel)%nat → slice_loop false now fuel l w = loop l w.
Proof.
  remember (length l) as n eqn:Hn. revert fuel l w Hn.
  induction (lt_wf n) as [n _ IH]. intros fuel l w -> Hf.
  destruct fuel as [|fuel]; [lia|]. cbn [slice_loop].
  destruct (span (plain_byte false) l) as [run rest] eqn:E.
  destruct rest as [|b rest]; [done|].
  pose proof (span_app _ _ _ _ E) as ->. pose proof (span_stop _ _ _ _ _ E) as Hb.
  destruct (consume_escape b rest (emit w run) Hb) as [-> _].
  destruct (escape _ _ _) as [[m w']|] eqn:He; [|done].
  destruct (escape_stable now _ _ _ _ He) as [Hm _].
  rewrite length_app in *. cbn [length] in *.
  assert (length (drop m (b :: rest)) < S (length rest))%nat by (rewrite length_drop; cbn; lia).
  rewrite (IH (length (drop m (b :: rest)))) by (try done; lia).
  symmetry. apply (IH (length (drop m (b :: rest)))); (done || lia).
Qed.

Lemma loop_unfold l w :
  loop l w =
    let '(run, rest) := span (plain_byte false) l in
    match rest with
    | [] => ([], emit w run)
    | _ => match escape now rest (emit w run) with
           | Some (n, w) => loop (drop n rest) w
           | None => (rest, emit w run)
           end
    end.
Proof.
  cbn [slice_loop]. destruct (span (plain_byte false) l) as [run rest] eqn:E.
  destruct rest as [|b rest]; [done|].
  pose proof (span_app _ _ _ _ E) as ->. pose proof (span_stop _ _ _ _ _ E) as Hb.
  destruct (consume_escape b rest (emit w run) Hb) as [-> _].
  destruct (escape _ _ _) as [[m w']|] eqn:He; [|done].
  destruct (escape_stable now _ _ _ _ He) as [Hm _].
  apply slice_loop_fuel. rewrite length_app, length_drop. cbn [length] in *. lia.
Qed.

Lemma emit_app w a b : emit (emit w a) b = emit w (a ++ b).
Proof. destruct w as [s d [f q r n]]. unfold emit, with_out. cbn. by rewrite <- app_assoc. Qed.

Lemma emit_nil w : emit w [] = w.
Proof. destruct w as [s d [f q r n]]. unfold emit, with_out. cbn. by rewrite app_nil_r. Qed.

Lemma span_plain_app p a b run :
  span p a = (run, []) → span p (a ++ b) = let '(x, y) := span p b in (run ++ x, y).
Proof.
  revert run. induction a as [|c a IH]; intros run; cbn [span app].
  - intros [= <-]. by destruct (span p b).
  - destruct (p c); [|done]. destruct (span p a) as [x y]. intros [= <- ->].
    rewrite (IH x eq_refl). by destruct (span p b).
Qed.

(** Scanning a stream in two pieces, carrying the incomplete sequence over,
    is scanning it whole. *)
Lemma loop_app a b w :
  loop (a ++ b) w = let '(rest, w1) := loop a w in loop (rest ++ b) w1.
Proof.
  remember (length a) as n eqn:Hn. revert a w Hn.
  induction (lt_wf n) as [n _ IH]. intros a w ->. rewrite (loop_unfold a).
  destruct (span (plain_byte false) a) as [run rest] eqn:E.
  destruct rest as [|c rest].
  - cbn [app]. rewrite (loop_unfold (a ++ b)), (span_plain_app _ _ b _ E), (loop_unfold b).
    destruct (span (plain_byte false) b) as [x y]. by rewrite emit_app.
  - pose proof (span_extend _ _ _ _ _ b E) as Hx. pose proof (span_app _ _ _ _ E) as Ha.
    pose proof (span_stop _ _ _ _ _ E) as Hc.
    destruct (escape now (c :: rest) (emit w run)) as [[m w1]|] eqn:He.
    + destruct (escape_stable now _ _ _ _ He) as [Hm Hk].
      rewrite (loop_unfold (a ++ b)), Hx, app_comm_cons, Hk.
      rewrite drop_cons_app by lia. apply (IH (length (drop m (c :: rest)))); [|done].
      rewrite Ha, length_app, length_drop. lia.
    + rewrite (loop_unfold (a ++ b)), Hx. rewrite (loop_unfold ((c :: rest) ++ b)).
      cbn [app span]. rewrite Hc. by rewrite emit_nil.
Qed.

(** The candidate carried out of a scan of [l]. *)
Lemma loop_rest l w rest w' : loop l w = (rest, w') → loop rest w' = (rest, w').
Proof.
  remember (length l) as n eqn:Hn. revert l w Hn.
  induction (lt_wf n) as [n _ IH]. intros l w ->. rewrite loop_unfold.
  destruct (span (plain_byte false) l) as [run rest0] eqn:E.
  destruct rest0 as [|c rest0]; [intros [= <- <-]; cbn; by rewrite emit_nil|].
  pose proof (span_app _ _ _ _ E) as Hl. pose proof (span_stop _ _ _ _ _ E) as Hc.
  destruct (escape now (c :: rest0) (emit w run)) as [[m w1]|] eqn:He.
  - destruct (escape_stable now _ _ _ _ He) as [Hm _].
    apply (IH (length (drop m (c :: rest0)))); [|done]. rewrite Hl, length_app, length_drop. lia.
  - intros [= <- <-]. rewrite loop_unfold. cbn [span]. rewrite Hc, emit_nil. by rewrite He.
Qed.
End Chunks.

(** ** Output is only ever appended *)

Definition join_out (a b : ScanOut) : ScanOut :=
  mk_out (filtered a ++ filtered b) (queries a ++ queries b) (responses a ++ responses b)
    (signal_bytes a + signal_bytes b).

Definition prepend (o : ScanOut) (w : Work) : Work := with_out w (join_out o (w_out w)).

Definition prepend_to (o : ScanOut) (r : option (nat * Work)) : option (nat * Work) :=
  '(n, w) ← r; Some (n, prepend o w).

Section Appending.
Context `{Base64} (now : N).

Lemma emit_prepend o w l : emit (prepend o w) l = prepend o (emit w l).
Proof. unfold emit, prepend, with_out, join_out. cbn. by rewrite app_assoc. Qed.

Lemma push_query_prepend o w q : push_query (prepend o w) q = prepend o (push_query w q).
Proof. unfold push_query, prepend, with_out, join_out. cbn. by rewrite app_assoc. Qed.

Lemma push_response_prepend o w r : push_response (prepend o w) r = prepend o (push_response w r).
Proof. unfold push_response, prepend, with_out, join_out. cbn. by rewrite app_assoc. Qed.

Lemma add_signal_bytes_prepend o w n :
  add_signal_bytes (prepend o w) n = prepend o (add_signal_bytes w n).
Proof. unfold add_signal_bytes, prepend, with_out, join_out. cbn. by rewrite N.add_assoc. Qed.

Lemma note_signals_prepend o w r : note_signals (prepend o w) r = prepend o (note_signals w r).
Proof. done. Qed.

Lemma osc_complete_prepend o ps i p t n w :
  osc_complete now ps i p t n (prepend o w) = prepend o (osc_complete now ps i p t n w).
Proof.
  unfold osc_complete, record_osc_signal, update_statuses. cbv zeta.
  change (w_signals (prepend o w)) with (w_signals w).
  destruct (bytes_eqb ps (bs "7501")).
  { destruct (_ && _); [|done]. destruct (bytes_eqb p _); [|done]. apply push_response_prepend. }
  rewrite note_signals_prepend.
  destruct (bytes_eqb ps (bs "133") && _); cbn [negb].
  - repeat first [rewrite push_query_prepend | rewrite note_signals_prepend
      | rewrite emit_prepend | rewrite add_signal_bytes_prepend | case_match | done].
  - repeat first [rewrite push_query_prepend | rewrite note_signals_prepend
      | rewrite emit_prepend | rewrite add_signal_bytes_prepend | case_match | done].
Qed.

Lemma escape_prepend o l w : escape now l (prepend o w) = prepend_to o (escape now l w).
Proof.
  unfold escape, prepend_to. destruct (drop 1 l) as [|b l1]; [done|].
  destruct (b =b x5b).
  { unfold csi. destruct (span is_param _) as [ps r1], (span is_intermediate r1) as [im r2].
    destruct r2 as [|fb r2]; [done|]. destruct (negb (is_final fb)); cbn [mbind option_bind].
    - by rewrite emit_prepend.
    - do 2 f_equal. destruct (classify_csi ps im fb); [|done|by rewrite push_query_prepend].
      destruct (_ && _); by rewrite <- emit_prepend. }
  destruct (b =b x5d).
  { unfold osc. destruct (span is_ascii_digit _) as [ps r1]. destruct (_ || _).
    - destruct r1; [done|]. cbn [mbind option_bind]. by rewrite emit_prepend.
    - destruct (osc_end _ _); [done|cbn [mbind option_bind]; by rewrite emit_prepend|].
      cbn [mbind option_bind]. by rewrite osc_complete_prepend. }
  destruct (existsb _ _).
  { by destruct (string_sequence l). }
  destruct (b =b x63); cbn [mbind option_bind]; by rewrite <- emit_prepend.
Qed.

Lemma slice_loop_prepend fuel o l w :
  slice_loop false now fuel l (prepend o w)
  = let '(rest, w') := slice_loop false now fuel l w in (rest, prepend o w').
Proof.
  revert l w. induction fuel as [|fuel IH]; intros l w; [done|]. cbn [slice_loop].
  destruct (span (plain_byte false) l) as [run rest] eqn:E. rewrite emit_prepend.
  destruct rest as [|b rest]; [done|].
  pose proof (span_stop _ _ _ _ _ E) as Hb.
  rewrite !(proj1 (consume_escape now b rest _ Hb)), escape_prepend.
  destruct (escape now (b :: rest) (emit w run)) as [[n w']|]; [apply IH|done].
Qed.
End Appending.

(** ** Chunk independence *)

Section ChunkTheorem.
Context `{Base64} (now : N).

Definition start_work (s : PtyScanner) : Work := mk_work (signals s) (signals_dirty s) empty_out.

(** What a session's chunks produce one after the other. *)
Fixpoint scan_chunks (s : PtyScanner) (chunks : list bytes) : PtyScanner * ScanOut :=
  match chunks with
  | [] => (s, empty_out)
  | c :: chunks =>
      let '(s, o) := scan false now s c in
      let '(s, o') := scan_chunks s chunks in (s, join_out o o')
  end.

(** The unfinished sequence at the end of what was fed so far. *)
Definition carried (s : PtyScanner) (data : bytes) : bytes :=
  (slice_loop false now (S (length (pending s ++ data))) (pending s ++ data) (start_work s)).1.

(** No candidate reaches the limit at which it is flushed as plain text. *)
Definition no_flush (s : PtyScanner) (chunks : list bytes) : Prop :=
  ∀ i, len (carried s (concat (take i chunks))) < MAX_PENDING_ESCAPE_BYTES.

Lemma scan_eq s data :
  scan false now s data =
    let '(rest, w) := slice_loop false now (S (length (pending s ++ data))) (pending s ++ data)
                        (start_work s) in
    if MAX_PENDING_ESCAPE_BYTES <=? len rest
    then (mk_scanner [] (w_signals w) (w_dirty w), w_out (emit w rest))
    else (mk_scanner rest (w_signals w) (w_dirty w), w_out w).
Proof.
  unfold scan, scan_slice. fold (start_work s).
  assert ((if len (pending s) =? 0 then data else pending s ++ data) = pending s ++ data) as ->.
  { destruct (N.eqb_spec (len (pending s)) 0) as [Hz|]; [|done]. apply len_0 in Hz as ->. done. }
  destruct (slice_loop _ _ _ _ _) as [rest w]. by destruct (_ <=? _).
Qed.

Lemma join_out_assoc a b c : join_out (join_out a b) c = join_out a (join_out b c).
Proof. unfold join_out. cbn. f_equal; [by rewrite app_assoc..|lia]. Qed.

Lemma join_out_nil_r o : join_out o empty_out = o.
Proof. destruct o. unfold join_out. cbn. rewrite !app_nil_r, N.add_0_r. done. Qed.

(** One scan after another that carried everything over. *)
Lemma scan_app s a b :
  len (carried s a) < MAX_PENDING_ESCAPE_BYTES →
  scan false now s (a ++ b) =
    let '(s1, o1) := scan false now s a in
    let '(s2, o2) := scan false now s1 b in (s2, join_out o1 o2).
Proof.
  unfold carried. rewrite !scan_eq. rewrite app_assoc, (loop_app now (pending s ++ a) b).
  destruct (slice_loop false now (S (length (pending s ++ a))) (pending s ++ a) (start_work s))
    as [rest w1] eqn:E.
  cbn [fst]. intros Hlt. leb_to false. rewrite scan_eq. cbn [pending].
  assert (w1 = prepend (w_out w1) (start_work (mk_scanner rest (w_signals w1) (w_dirty w1)))) as Hw.
  { destruct w1 as [sg d o]. unfold start_work, prepend, with_out. cbn. by rewrite join_out_nil_r. }
  rewrite Hw at 1. rewrite slice_loop_prepend.
  destruct (slice_loop _ _ _ (rest ++ b) _) as [rest2 w2].
  rewrite emit_prepend. by destruct (_ <=? _).
Qed.

Lemma scan_chunks_snoc s cs c :
  scan_chunks s (cs ++ [c]) =
    let '(s1, o1) := scan_chunks s cs in
    let '(s2, o2) := scan false now s1 c in (s2, join_out o1 o2).
Proof.
  revert s. induction cs as [|c' cs IH]; intros s; cbn [scan_chunks app].
  - destruct (scan false now s c) as [s2 o2]. rewrite join_out_nil_r. destruct o2. done.
  - destruct (scan false now s c') as [s1 o1]. rewrite IH.
    destruct (scan_chunks s1 cs) as [s2 o2]. destruct (scan false now s2 c) as [s3 o3].
    by rewrite join_out_assoc.
Qed.

(** C18: Chunk independence. However the pipe happens to cut the child's
    output, the filtered stream, the answered probes, the responses, the
    retained signals and the carried prefix are those of scanning it in one
    piece, as long as no unterminated candidate grows to the flush limit. *)
Theorem scan_chunk_independent s chunks :
  chunks ≠ [] → no_flush s chunks →
  scan_chunks s chunks = scan false now s (concat chunks).
Proof.
  induction chunks as [|c cs IH] using rev_ind; [done|]. intros _ Hnf.
  rewrite scan_chunks_snoc, concat_app. cbn [concat]. rewrite app_nil_r.
  destruct cs as [|c0 cs].
  { cbn [scan_chunks concat app]. destruct (scan false now s c) as [s2 o2]. by destruct o2. }
  rewrite IH; [|done|].
  - rewrite scan_app; [done|]. specialize (Hnf (length (c0 :: cs))).
    by rewrite take_app_length in Hnf.
  - intros i. specialize (Hnf (i `min` length (c0 :: cs))%nat).
    rewrite take_app_le in Hnf by lia. replace (take i (c0 :: cs)) with (take (i `min` length (c0 :: cs)) (c0 :: cs)); [done|].
    destruct (decide (i <= length (c0 :: cs))%nat).
    + by rewrite Nat.min_l by done.
    + rewrite Nat.min_r by lia. rewrite !firstn_all2 by lia. done.
Qed.

(** *** No scan makes output *)

#[local] Abbreviation loop l w := (slice_loop false now (S (length l)) l w).
Abbreviation shown_len w := (len (filtered (w_out w))) (only parsing).

Lemma emit_len w l : shown_len (emit w l) = shown_len w + len l.
Proof. cbn. by rewrite len_app. Qed.

Lemma osc_complete_len ps introduced payload terminator total w :
  shown_len (osc_complete now ps introduced payload terminator total w)
  <= shown_len w + (2 + len ps + (if introduced then 1 else 0) + len payload + len terminator).
Proof.
  unfold osc_complete. destruct (bytes_eqb ps (bs "7501")).
  { destruct (_ && _); [|lia]. destruct (bytes_eqb payload _); cbn; lia. }
  set (w0 := if _ && _ then _ else w). assert (shown_len w0 = shown_len w) as <- by (subst w0; by destruct (_ && _)).
  destruct (match payload with b :: _ => b =b x3f | [] => false end).
  { destruct (bytes_eqb ps (bs "10")); [cbn; lia|]. destruct (bytes_eqb ps (bs "11")); cbn; lia. }
  destruct (_ || _); [cbn; lia|]. destruct (_ || _); [lia|].
  unfold add_signal_bytes. cbn [with_out w_out filtered]. rewrite emit_len, !len_app.
  change (shown_len (record_osc_signal now w0 ps payload)) with (shown_len w0).
  change (len [x1b; x5d]) with 2. destruct introduced; [change (len (bs ";")) with 1|rewrite len_nil]; lia.
Qed.

(** A sequence shows no more bytes than it has. *)
Lemma escape_len l w n w' : escape now l w = Some (n, w') → shown_len w' <= shown_len w + N.of_nat n.
Proof.
  assert (∀ k, shown_len (emit w (take k l)) <= shown_len w + N.of_nat k) as Htake.
  { intros k. rewrite emit_len, len_take. lia. }
  unfold escape. destruct (drop 1 l) as [|introducer l1]; [done|].
  destruct (introducer =b x5b); [|destruct (introducer =b x5d)].
  - unfold csi. destruct (span is_param (drop 2 l)) as [params l2]. destruct (span is_intermediate l2) as [im l3].
    destruct l3 as [|final l3]; [done|]. destruct (negb _); [intros [= <- <-]; apply Htake|]. intros [= <- <-].
    destruct (classify_csi params im final); [|lia|cbn; lia].
    set (w0 := if _ && _ then _ else w). assert (shown_len w0 = shown_len w) as <- by (subst w0; by destruct (_ && _)).
    rewrite emit_len, len_take. lia.
  - unfold osc. destruct (span is_ascii_digit (drop 2 l)) as [ps l2].
    destruct (_ || _); [destruct l2; [done|intros [= <- <-]; apply Htake]|].
    destruct (osc_end true _) as [| |payload terminator]; [done|intros [= <- <-]; apply Htake|].
    intros [= <- <-]. etrans; [apply osc_complete_len|]. unfold len.
    destruct (match l2 with b :: _ => b =b x3b | [] => false end); lia.
  - destruct (existsb _ _); [|destruct (introducer =b x63)].
    + destruct (string_sequence l); cbn; [|done]. intros [= <- <-]. lia.
    + intros [= <- <-]. exact (Htake 2%nat).
    + intros [= <- <-]. exact (Htake 2%nat).
Qed.

Lemma loop_len l w : let '(rest, w') := loop l w in shown_len w' + len rest <= shown_len w + len l.
Proof.
  remember (length l) as n eqn:Hn. revert l w Hn. induction (lt_wf n) as [n _ IH]. intros l w ->.
  rewrite loop_unfold. destruct (span (plain_byte false) l) as [run rest] eqn:E.
  pose proof (span_app _ _ _ _ E) as ->. destruct rest as [|b rest].
  { rewrite emit_len, app_nil_r, len_nil. lia. }
  destruct (escape now (b :: rest) (emit w run)) as [[m w1]|] eqn:He; [|rewrite emit_len, len_app; lia].
  pose proof (escape_len _ _ _ _ He) as Hm. destruct (escape_stable now _ _ _ _ He) as [Hb _].
  specialize (IH (length (drop m (b :: rest))) ltac:(rewrite length_drop, length_app; cbn in *; lia) _ w1 eq_refl).
  destruct (loop _ w1) as [rest' w']. rewrite emit_len in Hm. rewrite len_app. rewrite len_drop in IH.
  unfold len in *. cbn [length] in *. lia.
Qed.

(** Nothing is shown that was not read. *)
Lemma scan_len s data :
  let '(s', o) := scan false now s data in len (filtered o) + len (pending s') <= len (pending s) + len data.
Proof.
  rewrite scan_eq. pose proof (loop_len (pending s ++ data) (start_work s)) as Hl.
  destruct (slice_loop _ _ _ _ _) as [rest w]. rewrite len_app in Hl.
  change (shown_len (start_work s)) with (len (@nil byte)) in Hl. rewrite len_nil in Hl.
  destruct (_ <=? _); cbn [pending]; [rewrite emit_len, len_nil|]; lia.
Qed.

(** The memory a scanner pins is bounded: whatever it is fed, the
    incomplete sequence it carries to the next call is shorter than the
    limit, and a scanner that carries nothing is idle. *)
Theorem scan_pending_bounded s data :
  let '(s', _) := scan false now s data in
  len (pending s') < MAX_PENDING_ESCAPE_BYTES ∧ (is_idle s' = true ↔ pending s' = []).
Proof.
  rewrite scan_eq. destruct (slice_loop _ _ _ _ _) as [rest w].
  assert (∀ p sg d, is_idle (mk_scanner p sg d) = true ↔ p = []) as Hi.
  { intros p sg d. unfold is_idle. cbn [pending]. rewrite N.eqb_eq. apply len_0. }
  destruct (N.leb_spec MAX_PENDING_ESCAPE_BYTES (len rest)); (split; [|apply Hi]); cbn [pending];
    [by vm_compute|done].
Qed.
End ChunkTheorem.

(** ** Well-formed streams *)

(** The building blocks of a terminal stream. *)
Inductive token :=
  | Text (l : bytes)
  | Csi (params intermediates : bytes) (final : byte)
  | Osc (ps payload terminator : bytes)
  | Str (kind : byte) (payload terminator : bytes)
  | Esc (b : byte).

Definition string_kinds : bytes := [x50; x5f; x5e; x58].

Definition token_bytes (t : token) : bytes :=
  match t with
  | Text l => l
  | Csi ps im f => [x1b; x5b] ++ ps ++ im ++ [f]
  | Osc ps payload t => [x1b; x5d] ++ ps ++ bs ";" ++ payload ++ t
  | Str k payload t => [x1b; k] ++ payload ++ t
  | Esc b => [x1b; b]
  end.

(** Bytes that can end a string sequence, or begin to. *)
Definition string_byte (b : byte) : bool := negb ((b =b x07) || (b =b x1b)).

Definition terminator_ok (t : bytes) : bool := bytes_eqb t [x07] || bytes_eqb t [x1b; x5c].

Definition token_ok (t : token) : bool :=
  match t with
  | Text l => forallb (plain_byte false) l
  | Csi ps im f => forallb is_param ps && forallb is_intermediate im && is_final f
  | Osc ps payload t =>
      forallb is_ascii_digit ps && (0 <? len ps) && (len ps <=? 5)
      && forallb string_byte payload && terminator_ok t
  | Str k payload t =>
      existsb (Byte.eqb k) string_kinds && forallb string_byte payload && terminator_ok t
  | Esc b => negb (existsb (Byte.eqb b) ([x5b; x5d] ++ string_kinds))
  end.

Definition asks (payload : bytes) : bool :=
  match payload with b :: _ => b =b x3f | [] => false end.

(** What of a token reaches the clients. *)
Definition visible (t : token) : bytes :=
  match t with
  | Text _ | Esc _ => token_bytes t
  | Csi ps im f => match classify_csi ps im f with Emit => token_bytes t | _ => [] end
  | Osc ps payload _ =>
      if is_passthrough_osc ps payload && negb (asks payload) then token_bytes t else []
  | Str _ _ _ => []
  end.

(** The probe of a token that the daemon answers. *)
Definition probe (t : token) : option TerminalQuery :=
  match t with
  | Csi ps im f => match classify_csi ps im f with StripAndAnswer q => Some q | _ => None end
  | Osc ps payload _ =>
      if asks payload then
        if bytes_eqb ps (bs "10") then Some ForegroundColor
        else if bytes_eqb ps (bs "11") then Some BackgroundColor
        else None
      else None
  | _ => None
  end.

Section Tokens.
Context `{Base64} (now : N).

(** The handler of a token: what it does to signals and output. *)
Definition apply_token (w : Work) (t : token) : Work :=
  match t with
  | Text l => emit w l
  | Csi ps im f =>
      match classify_csi ps im f with
      | Emit =>
          emit (if (f =b x71) && bytes_eqb im (bs " ") then record_cursor_style w ps else w)
            (token_bytes t)
      | Strip => w
      | StripAndAnswer q => push_query w q
      end
  | Osc ps payload term =>
      osc_complete now ps true payload term (len (token_bytes t)) w
  | Str _ _ _ => w
  | Esc b => emit (if b =b x63 then update_statuses w (clear now) else w) [x1b; b]
  end.

Lemma osc_end_run payload term k :
  forallb string_byte payload = true → terminator_ok term = true →
  osc_end true (payload ++ term ++ k) = OscAt payload term.
Proof.
  intros Hp Ht. induction payload as [|b l IH].
  - unfold terminator_ok, bytes_eqb in Ht. apply orb_true_iff in Ht as [Ht|Ht]; bool_prop; by subst.
  - cbn [forallb] in Hp. apply andb_true_iff in Hp as [Hb Hl].
    unfold string_byte in Hb. apply negb_true_iff, orb_false_iff in Hb as [H7 H1].
    cbn [app osc_end]. rewrite H7, H1. by rewrite (IH Hl).
Qed.

Lemma string_end_run payload term k :
  forallb string_byte payload = true → terminator_ok term = true →
  string_end (payload ++ term ++ k) = Some (length payload + length term)%nat.
Proof.
  intros Hp Ht. induction payload as [|b l IH].
  - unfold terminator_ok, bytes_eqb in Ht. apply orb_true_iff in Ht as [Ht|Ht]; bool_prop; by subst.
  - cbn [forallb] in Hp. apply andb_true_iff in Hp as [Hb Hl].
    unfold string_byte in Hb. apply negb_true_iff, orb_false_iff in Hb as [H7 H1].
    cbn [app string_end]. rewrite H7, H1. by rewrite (IH Hl).
Qed.

Lemma range_disjoint lo hi lo' hi' b :
  in_byte_range lo hi b = true → byte_val hi < byte_val lo' ∨ byte_val hi' < byte_val lo →
  in_byte_range lo' hi' b = false.
Proof.
  unfold in_byte_range. rewrite andb_true_iff, andb_false_iff, !N.leb_le, !N.leb_gt. lia.
Qed.

(** A complete sequence is consumed exactly, whatever follows. *)
Lemma escape_token t w k :
  token_ok t = true → (∀ l, t ≠ Text l) →
  escape now (token_bytes t ++ k) w = Some (length (token_bytes t), apply_token w t).
Proof.
  intros Hok Hnt. destruct t as [l|ps im f|ps payload term|kd payload term|b];
    cbn [token_ok] in Hok; [by destruct (Hnt l)|..]; unfold escape; cbn [token_bytes app drop].
  - (* Csi *)
    apply andb_true_iff in Hok as [[Hps Him]%andb_true_iff Hf].
    cbn [Byte.eqb]. change (x5b =b x5b) with true. cbv iota. unfold csi. cbn [drop].
    rewrite drop_0.
    assert (is_param f = false ∧ is_intermediate f = false) as [Hfp Hfi].
    { split; eapply range_disjoint; try exact Hf; vm_compute; auto. }
    assert (span is_param ((ps ++ im ++ [f]) ++ k) = (ps, (im ++ [f]) ++ k)) as ->.
    { destruct im as [|b im]; cbn [app] in *; rewrite <- app_assoc; cbn [app].
      - by apply span_run.
      - apply span_run; [done|]. cbn [forallb] in Him. apply andb_true_iff in Him as [Hb _].
        eapply range_disjoint; [exact Hb|]. vm_compute. auto. }
    rewrite <- (app_assoc im). cbn [app]. rewrite span_run by done. rewrite Hf. cbn [negb].
    assert (length (x1b :: x5b :: ps ++ im ++ [f]) = 2 + length ps + length im + 1)%nat as Hlen.
    { cbn [length]. rewrite !length_app. cbn. lia. }
    rewrite Hlen. unfold apply_token.
    assert (take (2 + length ps + length im + 1) (x1b :: x5b :: (ps ++ im ++ [f]) ++ k)
      = x1b :: x5b :: ps ++ im ++ [f]) as ->.
    { rewrite <- Hlen, !app_comm_cons. apply take_app_length. }
    done.
  - (* Osc *)
    apply andb_true_iff in Hok as [[[[Hps H0]%andb_true_iff H5]%andb_true_iff Hp]%andb_true_iff Ht].
    change (x5d =b x5b) with false. change (x5d =b x5d) with true. cbv iota.
    unfold osc. cbn [drop]. rewrite drop_0.
    assert ((ps ++ bs ";" ++ payload ++ term) ++ k = ps ++ x3b :: payload ++ term ++ k) as ->.
    { rewrite <- app_assoc. change (bs ";") with [x3b]. cbn. by rewrite <- app_assoc. }
    rewrite span_run by done. bool_prop. eqb_to false. ltb_to false. cbn [orb].
    change (x3b =b x3b) with true. cbv iota. cbn [drop]. rewrite drop_0, osc_end_run by done.
    assert (2 + length ps + 1 + length payload + length term
      = length (x1b :: x5d :: ps ++ bs ";" ++ payload ++ term))%nat as ->.
    { cbn [length]. rewrite !length_app. cbn. lia. }
    done.
  - (* Str *)
    apply andb_true_iff in Hok as [[Hk Hp]%andb_true_iff Ht].
    assert ((kd =b x5b) = false ∧ (kd =b x5d) = false) as [-> ->].
    { unfold string_kinds in Hk. cbn [existsb] in Hk.
      repeat (apply orb_true_iff in Hk as [Hk|Hk]); bool_prop; by subst. }
    unfold string_kinds in Hk. rewrite Hk. unfold string_sequence. cbn [drop].
    rewrite drop_0, <- app_assoc, string_end_run by done. cbn. by rewrite length_app.
  - (* Esc *)
    apply negb_true_iff in Hok. cbn [app existsb] in Hok.
    apply orb_false_iff in Hok as [H1 [H2 Hs]%orb_false_iff]. rewrite H1, H2.
    unfold string_kinds in Hs. cbn [existsb]. cbn [existsb] in Hs. rewrite Hs.
    cbn [apply_token token_bytes length]. by destruct (b =b x63).
Qed.

Lemma loop_text l k w :
  forallb (plain_byte false) l = true →
  slice_loop false now (S (length (l ++ k))) (l ++ k) w
  = slice_loop false now (S (length k)) k (emit w l).
Proof.
  intros Hl. rewrite (loop_app now l k w), loop_unfold, (span_run_nil _ _ Hl). done.
Qed.

Lemma loop_tokens ts w :
  forallb token_ok ts = true →
  slice_loop false now (S (length (concat (map token_bytes ts)))) (concat (map token_bytes ts)) w
  = ([], foldl apply_token w ts).
Proof.
  revert w. induction ts as [|t ts IH]; intros w Hok.
  - cbn. by rewrite emit_nil.
  - cbn [forallb] in Hok. apply andb_true_iff in Hok as [Ht Hok]. cbn [map concat foldl].
    assert ((∃ l, t = Text l) ∨ ∀ l, t ≠ Text l) as [[l ->]|Hnt] by (destruct t; naive_solver).
    { cbn [token_ok token_bytes] in *. rewrite loop_text by done. by apply IH. }
    rewrite loop_unfold.
    assert (∃ x, token_bytes t = x1b :: x) as [x Hx] by (destruct t; [naive_solver|by eexists..]).
    rewrite Hx. cbn [app span]. change (plain_byte false x1b) with false. cbv iota.
    rewrite emit_nil, app_comm_cons, <- Hx.
    rewrite escape_token by (done || naive_solver). rewrite drop_app_length. by apply IH.
Qed.
End Tokens.

Section TokenTheorems.
Context `{Base64} (now : N).

Definition opt_list {A} (o : option A) : list A := match o with Some x => [x] | None => [] end.

Lemma osc_complete_out ps payload term n w :
  let t := Osc ps payload term in
  let o := w_out (osc_complete now ps true payload term n w) in
  filtered o = filtered (w_out w) ++ visible t
  ∧ queries o = queries (w_out w) ++ opt_list (probe t).
Proof.
  cbv zeta. unfold osc_complete. cbn [visible probe].
  change (match payload with b :: _ => b =b x3f | [] => false end) with (asks payload).
  destruct (bytes_eqb ps (bs "7501")) eqn:E7.
  { unfold bytes_eqb in E7. bool_prop. subst ps. cbn [negb andb].
    replace (is_passthrough_osc _ _) with false by (symmetry; by vm_compute).
    change (bytes_eqb (bs "7501") (bs "10")) with false.
    change (bytes_eqb (bs "7501") (bs "11")) with false. cbv iota.
    assert ((if asks payload then None else None) = @None TerminalQuery) as -> by (by destruct (asks payload)).
    cbn. rewrite !app_nil_r. destruct (n <=? _); [|done]. by destruct (bytes_eqb payload _). }
  set (w1 := if _ && _ then _ else w).
  assert (w_out w1 = w_out w) as Hw1 by (unfold w1; by destruct (_ && _)).
  rewrite <- Hw1. generalize w1. clear w1 Hw1. intros w1.
  destruct (asks payload) eqn:Ea; cbn [negb].
  { rewrite andb_false_r. destruct (bytes_eqb ps (bs "10")); [cbn; by rewrite app_nil_r|].
    destruct (bytes_eqb ps (bs "11")); cbn; by rewrite !app_nil_r. }
  rewrite andb_true_r. destruct (bytes_eqb ps (bs "10")) eqn:E10.
  { unfold bytes_eqb in E10. bool_prop. subst ps.
    replace (is_passthrough_osc _ _) with false by (symmetry; by vm_compute).
    cbn. by rewrite !app_nil_r. }
  destruct (bytes_eqb ps (bs "11")) eqn:E11; cbn [orb].
  { unfold bytes_eqb in E11. bool_prop. subst ps.
    replace (is_passthrough_osc _ _) with false by (symmetry; by vm_compute).
    cbn. by rewrite !app_nil_r. }
  cbn [negb orb]. destruct (is_passthrough_osc ps payload); cbn; by rewrite !app_nil_r.
Qed.

Lemma apply_token_out w t :
  let o := w_out (apply_token now w t) in
  filtered o = filtered (w_out w) ++ visible t
  ∧ queries o = queries (w_out w) ++ opt_list (probe t).
Proof.
  destruct t as [l|ps im f|ps payload term|kd payload term|b];
    [cbn; by rewrite app_nil_r| |apply osc_complete_out|cbn; by rewrite !app_nil_r|].
  - cbn [apply_token visible probe]. destruct (classify_csi ps im f); [|cbn; by rewrite !app_nil_r..].
    destruct (_ && _); cbn; by rewrite app_nil_r.
  - cbn [apply_token visible probe token_bytes opt_list]. rewrite app_nil_r. by destruct (b =b x63).
Qed.

Lemma foldl_tokens_out ts w :
  let o := w_out (foldl (apply_token now) w ts) in
  filtered o = filtered (w_out w) ++ concat (map visible ts)
  ∧ queries o = queries (w_out w) ++ omap probe ts.
Proof.
  revert w. induction ts as [|t ts IH]; intros w; [cbn; by rewrite !app_nil_r|].
  cbn [foldl map concat omap list_omap]. destruct (IH (apply_token now w t)) as [-> ->].
  destruct (apply_token_out w t) as [-> ->]. rewrite <- !app_assoc.
  split; [done|]. f_equal. by destruct (probe t).
Qed.

(** What attached clients see. For any well-formed stream of plain text
    and complete sequences, the filtered stream is exactly the text, the
    renderable control sequences, the two-byte escapes and the title and
    progress notifications, byte for byte and in order; the probes answered
    are exactly the session-global ones, each once and in order; nothing is
    held back. *)
Theorem scan_well_formed s ts :
  pending s = [] → forallb token_ok ts = true →
  let '(s', o) := scan false now s (concat (map token_bytes ts)) in
  filtered o = concat (map visible ts) ∧ queries o = omap probe ts ∧ pending s' = [].
Proof.
  intros Hp Hok. rewrite scan_eq, Hp. cbn [app]. rewrite loop_tokens by done. cbn [len length].
  change (MAX_PENDING_ESCAPE_BYTES <=? len []) with false. cbv iota. cbn [pending].
  destruct (foldl_tokens_out ts (start_work s)) as [-> ->]. done.
Qed.

(** *** Restoring signals on attach *)

(** Signals whose slots hold what the scanner can have put there. *)
Definition payload_ok (p : bytes) : Prop :=
  forallb string_byte p = true ∧ len p <= MAX_RETAINED_SIGNAL_PAYLOAD_BYTES ∧ asks p = false.

Definition progress_ok (p : bytes) : Prop :=
  payload_ok p ∧ starts_with (bs "4;") p = true
  ∧ bytes_eqb (first_piece (drop 2 p)) (bs "0") = false.

Definition style_ok (p : bytes) : Prop :=
  forallb is_param p = true ∧ p ≠ [] ∧ p ≠ bs "0" ∧ classify_csi p (bs " ") x71 = Emit.

Definition restorable (s : TerminalSignals) : Prop :=
  opt_ok payload_ok (icon_title s) ∧ opt_ok payload_ok (window_title s)
  ∧ opt_ok progress_ok (progress s) ∧ opt_ok style_ok (cursor_style s).

Definition osc_token (ps payload : bytes) : token := Osc ps payload [x07].

Definition title_tokens (s : TerminalSignals) : list token :=
  match icon_title s, window_title s with
  | Some icon, Some window =>
      if bytes_eqb icon window then [osc_token (bs "0") icon]
      else [osc_token (bs "1") icon; osc_token (bs "2") window]
  | icon, window =>
      opt_list (osc_token (bs "1") <$> icon) ++ opt_list (osc_token (bs "2") <$> window)
  end.

Definition restore_tokens (s : TerminalSignals) : list token :=
  title_tokens s ++ opt_list (osc_token (bs "9") <$> progress s)
  ++ opt_list ((λ style, Csi style (bs " ") x71) <$> cursor_style s).

Lemma restore_bytes_tokens s : restore_bytes s = concat (map token_bytes (restore_tokens s)).
Proof.
  unfold restore_bytes, restore_tokens, restore_titles, title_tokens.
  rewrite !map_app, !concat_app. f_equal.
  - destruct (icon_title s), (window_title s); try case_match; cbn; rewrite ?app_nil_r; done.
  - destruct (progress s), (cursor_style s); cbn; rewrite ?app_nil_r; done.
Qed.

Lemma osc_token_ok ps p :
  payload_ok p → In ps [bs "0"; bs "1"; bs "2"; bs "9"] → token_ok (osc_token ps p) = true.
Proof.
  intros (Hb & _) Hin. unfold osc_token. cbn [token_ok]. rewrite Hb.
  cbn in Hin. repeat destruct Hin as [<-|Hin]; done.
Qed.

Lemma style_token_ok p : style_ok p → token_ok (Csi p (bs " ") x71) = true.
Proof.
  intros (Hd & _). cbn [token_ok]. by rewrite Hd.
Qed.

Lemma restore_tokens_ok s : restorable s → forallb token_ok (restore_tokens s) = true.
Proof.
  intros (Hi & Hw & Hp & Hc). unfold restore_tokens. rewrite !forallb_app, !andb_true_iff.
  split_and!.
  - unfold title_tokens. destruct (icon_title s) as [i|], (window_title s) as [w|];
      try case_match; cbn [forallb opt_list fmap option_fmap option_map app];
      rewrite ?osc_token_ok; auto; cbn; tauto.
  - destruct (progress s) as [p|]; [|done]. cbn [forallb opt_list fmap option_fmap option_map].
    rewrite osc_token_ok; [done|by apply Hp|cbn; tauto].
  - destruct (cursor_style s) as [p|]; [|done]. cbn [forallb opt_list fmap option_fmap option_map].
    rewrite style_token_ok; [done|by apply Hc].
Qed.

Lemma restorable_slot get set s next :
  restorable (set s next) → restorable s → restorable (replace_slot get set s next).2.
Proof. unfold replace_slot. by case_bool_decide. Qed.

Lemma record_osc_restorable ps payload s :
  forallb string_byte payload = true → asks payload = false →
  restorable s → restorable (record_osc now ps payload s).2.
Proof.
  intros Hb Ha Hs. pose proof Hs as (Hi & Hw & Hp & Hc). unfold record_osc.
  destruct (_ && (_ <? _)) eqn:Hlen; [done|].
  destruct (bytes_eqb ps (bs "7501")) eqn:E; [by destruct (report _ _ _)|].
  cbn [negb andb] in Hlen. bool_prop.
  assert (payload_ok payload) as Hok by done.
  repeat case_match; try done; try apply restorable_slot; try done;
    split_and!; cbn; try done; try (by apply opt_ok_some).
  intros p Hp'. simplify_eq. bool_prop. done.
Qed.

Lemma osc_end_payload e l p t : osc_end e l = OscAt p t → forallb string_byte p = true.
Proof.
  revert p. induction l as [|b l IH]; intros p; [done|]. cbn [osc_end].
  destruct (b =b x07) eqn:E7; [by intros [= <- <-]|]. destruct (b =b x1b) eqn:E1.
  - destruct l as [|c l]; [done|]. destruct (_ && _); [|done]. by intros [= <- <-].
  - destruct (osc_end e l) as [| |p' t'] eqn:E; [done..|]. intros [= <- <-]. cbn [forallb].
    unfold string_byte at 1. rewrite E7, E1. by apply IH.
Qed.

Lemma osc_complete_restorable ps i payload t n w :
  forallb string_byte payload = true → restorable (w_signals w) →
  restorable (w_signals (osc_complete now ps i payload t n w)).
Proof.
  intros Hb Hw. unfold osc_complete.
  change (match payload with b :: _ => b =b x3f | [] => false end) with (asks payload).
  destruct (bytes_eqb ps (bs "7501")) eqn:E7.
  { destruct (_ && _); [|done]. destruct (bytes_eqb payload _); [done|]. cbn.
    unfold record_osc. rewrite E7. cbn. by destruct (report _ _ _). }
  set (w1 := if _ && _ then _ else w).
  assert (restorable (w_signals w1)) as Hw1 by (unfold w1; by destruct (_ && _)).
  generalize dependent w1. intros w1 Hw1. destruct (asks payload) eqn:Ea; [by repeat case_match|].
  repeat case_match; try done; cbn; by apply record_osc_restorable.
Qed.

Lemma escape_restorable l w n w' :
  escape now l w = Some (n, w') → restorable (w_signals w) → restorable (w_signals w').
Proof.
  unfold escape. destruct (drop 1 l) as [|b l1]; [done|]. intros He Hw.
  destruct (b =b x5b).
  { unfold csi in He. destruct (span is_param _) as [ps r1] eqn:Ep, (span is_intermediate r1) as [im r2].
    destruct r2 as [|fb r2]; [done|]. destruct (negb _); [by injection He as <- <-|].
    injection He as <- <-. destruct (classify_csi ps im fb) eqn:Ec; [|done..].
    destruct (_ && _) eqn:Eq; [|done]. cbn.
    apply andb_true_iff in Eq as [Hf Him]. unfold bytes_eqb in Him. bool_prop. subst.
    unfold set_cursor_style. case_bool_decide; [done|]. destruct Hw as (Hi & Hwt & Hp & Hc).
    split_and!; cbn; try done. destruct (_ || _) eqn:E0; [done|].
    apply opt_ok_some. unfold bytes_eqb in E0. bool_prop. rewrite len_0 in *.
    split_and!; [by eapply span_all|done..]. }
  destruct (b =b x5d).
  { unfold osc in He. destruct (span is_ascii_digit _) as [ps r1]. destruct (_ || _).
    - destruct r1; [done|]. by injection He as <- <-.
    - destruct (osc_end _ _) as [| |p t] eqn:Eo; [done|by injection He as <- <-|].
      injection He as <- <-. apply osc_complete_restorable; [by eapply osc_end_payload|done]. }
  destruct (existsb _ _); [by destruct (string_sequence l); [injection He as <- <-|]|].
  by destruct (b =b x63); injection He as <- <-.
Qed.

Lemma slice_loop_restorable fuel l w :
  restorable (w_signals w) → restorable (w_signals (slice_loop false now fuel l w).2).
Proof.
  revert l w. induction fuel as [|fuel IH]; intros l w Hw; [done|]. cbn [slice_loop].
  destruct (span (plain_byte false) l) as [run rest] eqn:E. destruct rest as [|b rest]; [done|].
  pose proof (span_stop _ _ _ _ _ E) as Hb. rewrite (proj1 (consume_escape now b rest _ Hb)).
  destruct (escape now (b :: rest) (emit w run)) as [[n w']|] eqn:He; [|done].
  apply IH. by eapply escape_restorable.
Qed.

Lemma scan_restorable s data :
  restorable (signals s) → restorable (signals (scan false now s data).1).
Proof.
  intros Hs. rewrite scan_eq. pose proof (slice_loop_restorable (S (length (pending s ++ data)))
    (pending s ++ data) (start_work s) Hs) as Hr.
  destruct (slice_loop _ _ _ _ _) as [rest w]. by destruct (_ <=? _).
Qed.

Lemma scan_chunks_restorable s chunks :
  restorable (signals s) → restorable (signals (scan_chunks now s chunks).1).
Proof.
  revert s. induction chunks as [|c cs IH]; intros s Hs; [done|]. cbn [scan_chunks].
  pose proof (scan_restorable s c Hs) as Hc. destruct (scan false now s c) as [s1 o1].
  specialize (IH s1 Hc). by destruct (scan_chunks now s1 cs).
Qed.

Lemma osc_token_signals ps p w :
  payload_ok p → is_passthrough_osc ps p = true →
  w_signals (apply_token now w (osc_token ps p)) = (record_osc now ps p (w_signals w)).2.
Proof.
  intros (_ & _ & Ha) Hpass. cbn [apply_token osc_token]. unfold osc_complete.
  change (match p with b :: _ => b =b x3f | [] => false end) with (asks p). rewrite Ha.
  assert (∀ q, q ∈ [bs "7501"; bs "133"; bs "10"; bs "11"] → bytes_eqb ps q = false) as Hne.
  { intros q Hq. unfold bytes_eqb. apply bool_decide_eq_false_2. intros ->.
    unfold is_passthrough_osc in Hpass.
    repeat (apply elem_of_cons in Hq as [->|Hq]; [by vm_compute in Hpass|]). by apply elem_of_nil in Hq. }
  rewrite !Hne by (repeat constructor). cbn [andb orb negb]. rewrite Hpass. done.
Qed.

Lemma record_title_values s p :
  payload_ok p →
  (record_osc now (bs "0") p s).2 = set_window_title (set_icon_title s (Some p)) (Some p)
  ∧ (record_osc now (bs "1") p s).2 = set_icon_title s (Some p)
  ∧ (record_osc now (bs "2") p s).2 = set_window_title s (Some p).
Proof.
  intros (_ & Hlen & _). unfold record_osc. change (negb (bytes_eqb _ (bs "7501"))) with true.
  rewrite (proj2 (N.ltb_ge _ _) Hlen). cbn [andb].
  destruct s as [i w pr c f b ps]. split_and!; cbn [bytes_eqb].
  - change (bytes_eqb (bs "0") (bs "7501")) with false. change (bytes_eqb (bs "0") (bs "0")) with true.
    cbn. repeat case_bool_decide; cbn; by subst.
  - change (bytes_eqb (bs "1") (bs "7501")) with false. change (bytes_eqb (bs "1") (bs "0")) with false.
    change (bytes_eqb (bs "1") (bs "1")) with true. unfold replace_slot. cbn.
    case_bool_decide; cbn; by subst.
  - change (bytes_eqb (bs "2") (bs "7501")) with false. change (bytes_eqb (bs "2") (bs "0")) with false.
    change (bytes_eqb (bs "2") (bs "1")) with false. change (bytes_eqb (bs "2") (bs "2")) with true.
    unfold replace_slot. cbn. case_bool_decide; cbn; by subst.
Qed.

Lemma record_progress_value s p :
  progress_ok p → (record_osc now (bs "9") p s).2 = set_progress s (Some p).
Proof.
  intros ((_ & Hlen & _) & H4 & H0). unfold record_osc.
  change (negb (bytes_eqb _ (bs "7501"))) with true. rewrite (proj2 (N.ltb_ge _ _) Hlen).
  cbn [andb]. do 6 (match goal with |- context [bytes_eqb (bs "9") ?q] =>
    change (bytes_eqb (bs "9") q) with false end; cbv iota).
  change (bytes_eqb (bs "9") (bs "9")) with true. rewrite H4, H0. cbn [andb].
  unfold replace_slot. case_bool_decide as E; [|done]. destruct s. cbn in *. by subst.
Qed.

Lemma style_token_signals p w :
  style_ok p → w_signals (apply_token now w (Csi p (bs " ") x71))
               = put_cursor_style (w_signals w) (Some p).
Proof.
  intros (Hd & Hne & H0 & Hc). cbn [apply_token]. rewrite Hc.
  change ((x71 =b x71) && bytes_eqb (bs " ") (bs " ")) with true. cbv iota.
  unfold record_cursor_style, emit. cbn [w_signals with_out note_signals snd].
  replace (len p =? 0) with false by (symmetry; apply N.eqb_neq; by rewrite len_0).
  unfold bytes_eqb. rewrite bool_decide_eq_false_2 by done. cbn [orb].
  unfold set_cursor_style. case_bool_decide as E; [|done]. destruct (w_signals w). cbn in *. by subst.
Qed.

Lemma title_passthrough ps p : In ps [bs "0"; bs "1"; bs "2"] → is_passthrough_osc ps p = true.
Proof. intros Hin. repeat destruct Hin as [<-|Hin]; done. Qed.

Lemma progress_passthrough p : progress_ok p → is_passthrough_osc (bs "9") p = true.
Proof.
  intros (_ & H4 & _). unfold is_passthrough_osc. rewrite H4.
  change (bytes_eqb (bs "9") (bs "9")) with true. by rewrite orb_true_r.
Qed.

Lemma title_tokens_signals s w :
  restorable s → icon_title (w_signals w) = None → window_title (w_signals w) = None →
  w_signals (foldl (apply_token now) w (title_tokens s))
  = set_window_title (set_icon_title (w_signals w) (icon_title s)) (window_title s).
Proof.
  intros (Hi & Hw & _) Hni Hnw. unfold title_tokens.
  assert (set_window_title (set_icon_title (w_signals w) None) None = w_signals w) as Hnone.
  { destruct (w_signals w). cbn in *. by subst. }
  destruct (icon_title s) as [i|], (window_title s) as [t|]; [destruct (bytes_eqb i t) eqn:E|..];
    cbn [fmap option_fmap option_map opt_list app foldl]; try done;
    try specialize (Hi _ eq_refl); try specialize (Hw _ eq_refl);
    rewrite ?osc_token_signals by (done || (apply title_passthrough; cbn; tauto)).
  - rewrite (proj1 (record_title_values _ _ Hi)). unfold bytes_eqb in E. bool_prop. by subst.
  - rewrite (proj1 (proj2 (record_title_values _ _ Hi))).
    rewrite (proj2 (proj2 (record_title_values _ _ Hw))). done.
  - rewrite (proj1 (proj2 (record_title_values _ _ Hi))). destruct (w_signals w). cbn in *. by subst.
  - rewrite (proj2 (proj2 (record_title_values _ _ Hw))). destruct (w_signals w). cbn in *. by subst.
Qed.

Lemma restore_tokens_signals s w :
  restorable s → icon_title (w_signals w) = None → window_title (w_signals w) = None →
  progress (w_signals w) = None → cursor_style (w_signals w) = None →
  let s' := w_signals (foldl (apply_token now) w (restore_tokens s)) in
  icon_title s' = icon_title s ∧ window_title s' = window_title s
  ∧ progress s' = progress s ∧ cursor_style s' = cursor_style s.
Proof.
  intros Hr Hi Hw Hp Hc. cbv zeta. unfold restore_tokens. rewrite !foldl_app.
  pose proof (title_tokens_signals s w Hr Hi Hw) as Ht.
  set (w1 := foldl _ w _) in *. destruct Hr as (_ & _ & Hpo & Hso).
  set (w2 := foldl _ w1 _).
  assert (w_signals w2 = set_progress (w_signals w1) (progress s)) as H2.
  { unfold w2. destruct (progress s) as [p|]; cbn [fmap option_fmap option_map opt_list foldl].
    - specialize (Hpo p eq_refl).
      rewrite osc_token_signals by first [apply Hpo | by apply progress_passthrough].
      by apply record_progress_value.
    - rewrite Ht. destruct (w_signals w). cbn in *. by subst. }
  destruct (cursor_style s) as [c|]; cbn [fmap option_fmap option_map opt_list foldl].
  - rewrite style_token_signals by (by apply Hso). rewrite H2, Ht. done.
  - rewrite H2, Ht. done.
Qed.

Lemma restore_tokens_visible s :
  restorable s →
  map visible (restore_tokens s) = map token_bytes (restore_tokens s)
  ∧ omap probe (restore_tokens s) = [].
Proof.
  intros (Hi & Hw & Hp & Hc).
  assert (∀ ps p, payload_ok p → is_passthrough_osc ps p = true →
    visible (osc_token ps p) = token_bytes (osc_token ps p) ∧ probe (osc_token ps p) = None) as Ho.
  { intros ps p (_ & _ & Ha) Hpass. cbn [visible probe osc_token]. by rewrite Hpass, Ha. }
  assert (∀ ts, (∀ t, t ∈ ts → visible t = token_bytes t ∧ probe t = None) →
    map visible ts = map token_bytes ts ∧ omap probe ts = []) as Hall.
  { induction ts as [|t ts IH]; intros Ht; [done|]. cbn [map omap list_omap].
    destruct (Ht t ltac:(by left)) as [-> ->]. destruct IH as [-> ->]; [|done].
    intros t' Ht'. apply Ht. by right. }
  apply Hall. intros t. unfold restore_tokens. rewrite !elem_of_app. intros [Ht|[Ht|Ht]].
  - unfold title_tokens in Ht. destruct (icon_title s) as [i|], (window_title s) as [x|];
      [destruct (bytes_eqb i x)|..]; cbn in Ht; rewrite ?elem_of_cons, ?elem_of_nil in Ht;
      destruct_or?; subst; try done; apply Ho; try (by apply Hi); try (by apply Hw); done.
  - destruct (progress s) as [p|]; cbn in Ht; [|by apply elem_of_nil in Ht].
    apply list_elem_of_singleton in Ht as ->. specialize (Hp p eq_refl).
    apply Ho; [apply Hp|by apply progress_passthrough].
  - destruct (cursor_style s) as [c|]; cbn in Ht; [|by apply elem_of_nil in Ht].
    apply list_elem_of_singleton in Ht. change (t = Csi c (bs " ") x71) in Ht. subst t.
    destruct (Hc c eq_refl) as (_ & _ & _ & He).
    cbn [visible probe]. by rewrite He.
Qed.

(** Attaching restores what the session shows beside its screen.
    Whatever the child has written so far, the restore bytes of the retained
    signals pass through a terminal-side scanner unchanged, ask nothing, and
    leave it with the same icon title, window title, progress indicator and
    cursor style. *)
Theorem attach_restores_signals chunks :
  let s := signals (scan_chunks now new_scanner chunks).1 in
  let '(s', o) := scan false now new_scanner (restore_bytes s) in
  icon_title (signals s') = icon_title s ∧ window_title (signals s') = window_title s
  ∧ progress (signals s') = progress s ∧ cursor_style (signals s') = cursor_style s
  ∧ filtered o = restore_bytes s ∧ queries o = [] ∧ pending s' = [].
Proof.
  cbv zeta. pose proof (scan_chunks_restorable new_scanner chunks) as Hr.
  specialize (Hr ltac:(by repeat split)).
  destruct (scan_chunks now new_scanner chunks) as [sc o']. cbn [fst] in *.
  generalize dependent (signals sc). clear sc o' chunks. intros s Hr.
  destruct (restore_tokens_visible s Hr) as [Hvis Hpr].
  rewrite restore_bytes_tokens, scan_eq. cbn [new_scanner pending app].
  rewrite loop_tokens by by apply restore_tokens_ok.
  change (MAX_PENDING_ESCAPE_BYTES <=? len []) with false. cbv iota. cbn [pending signals].
  destruct (foldl_tokens_out (restore_tokens s) (start_work (mk_scanner [] no_signals false))) as [Hf Hq].
  rewrite Hvis in Hf. rewrite Hpr in Hq.
  destruct (restore_tokens_signals s (start_work (mk_scanner [] no_signals false)) Hr) as (H1 & H2 & H3 & H4);
    [done..|]. tauto.
Qed.

Lemma string_end_open p : forallb string_byte p = true → string_end p = None.
Proof.
  induction p as [|b p IH]; [done|]. cbn [forallb string_end].
  unfold string_byte at 1. intros [Hb Hp]%andb_true_iff.
  apply negb_true_iff, orb_false_iff in Hb as [-> ->]. by rewrite (IH Hp).
Qed.

(** The flush limit makes the result depend on the cut: a device
    control string of at least [MAX_PENDING_ESCAPE_BYTES] bytes is protocol
    traffic and fully removed when it arrives with its terminator, but all
    of it reaches the clients when the terminator comes in the next chunk. *)
Theorem flush_depends_on_cut p :
  forallb string_byte p = true → MAX_PENDING_ESCAPE_BYTES <= len p + 2 →
  let a := [x1b; x50] ++ p in let b := [x1b; x5c] in
  filtered (scan false now new_scanner (a ++ b)).2 = []
  ∧ filtered (scan_chunks now new_scanner [a; b]).2 = a ++ b.
Proof.
  intros Hp Hlen. cbv zeta. split.
  - rewrite scan_eq. cbn [new_scanner pending app].
    assert (x1b :: x50 :: p ++ [x1b; x5c] = concat (map token_bytes [Str x50 p [x1b; x5c]])) as ->.
    { cbn. by rewrite app_nil_r. }
    rewrite loop_tokens; [done|]. cbn [forallb token_ok]. by rewrite Hp.
  - cbn [scan_chunks]. rewrite scan_eq. cbn [new_scanner pending app].
    rewrite loop_unfold. cbn [span]. change (plain_byte false x1b) with false. cbv iota.
    unfold escape. cbn [drop]. change (x50 =b x5b) with false. change (x50 =b x5d) with false.
    change (existsb _ _) with true. cbv iota. unfold string_sequence. cbn [drop].
    rewrite drop_0, (string_end_open p Hp). cbn [mbind option_bind].
    replace (MAX_PENDING_ESCAPE_BYTES <=? len (x1b :: x50 :: p)) with true.
    2:{ symmetry. apply N.leb_le. rewrite !len_cons. lia. }
    done.
Qed.

(** Removing a sequence can splice its surroundings into a new one: here the
    clients receive a live cursor probe that the child never sent whole and
    that the daemon did not answer. *)
Lemma removal_can_splice :
  let o := (scan false now new_scanner
              ([x1b] ++ bs "[" ++ [x1b] ++ bs "Px" ++ [x1b] ++ bs "\6n")).2 in
  filtered o = [x1b] ++ bs "[6n" ∧ queries o = [].
Proof. done. Qed.

(** A title that starts with a question mark is taken for a query of the
    title: it is neither retained nor forwarded. *)
Lemma question_title_dropped :
  let '(s, o) := scan false now new_scanner (token_bytes (Osc (bs "2") (bs "?done") [x07])) in
  filtered o = [] ∧ window_title (signals s) = None.
Proof. done. Qed.
End TokenTheorems.

(** ** Reading a filtered stream back (the Windows attach client) *)

Definition not_esc (b : byte) : bool := negb (b =b x1b).

(** [extract_passthrough_osc_sequences]; every turn consumes an escape. *)
Fixpoint extract_loop (fuel : nat) (data : bytes) : bytes :=
  match fuel with
  | O => []
  | S fuel =>
      match span not_esc data with
      | (_, _ :: rest) =>
          match rest with
          | b :: l =>
              if b =b x5d then
                let '(ps, l1) := span is_ascii_digit l in
                match l1 with
                | c :: l2 =>
                    if negb (len ps =? 0) && (c =b x3b) then
                      match osc_end true l2 with
                      | OscAt payload terminator =>
                          (if is_passthrough_osc ps payload
                           then [x1b; x5d] ++ ps ++ [x3b] ++ payload ++ terminator else [])
                          ++ extract_loop fuel (drop (length payload + length terminator) l2)
                      | _ => extract_loop fuel rest
                      end
                    else extract_loop fuel rest
                | [] => extract_loop fuel rest
                end
              else extract_loop fuel rest
          | [] => extract_loop fuel rest
          end
      | (_, []) => []
      end
  end.

Definition extract_passthrough_osc_sequences (data : bytes) : bytes :=
  extract_loop (S (length data)) data.

Fixpoint cursor_style_loop (fuel : nat) (data : bytes) (found : option bytes) : option bytes :=
  match fuel with
  | O => found
  | S fuel =>
      match span not_esc data with
      | (_, _ :: rest) =>
          match rest with
          | b :: l =>
              if b =b x5b then
                let '(params, l1) := span is_ascii_digit l in
                match l1 with
                | c :: d :: l2 =>
                    if (c =b x20) && (d =b x71) then cursor_style_loop fuel l2 (Some params)
                    else cursor_style_loop fuel l found
                | _ => cursor_style_loop fuel l found
                end
              else cursor_style_loop fuel rest found
          | [] => cursor_style_loop fuel rest found
          end
      | (_, []) => found
      end
  end.

Definition last_cursor_style_params (data : bytes) : option bytes :=
  cursor_style_loop (S (length data)) data None.

Section Readers.
(** Tokens after which no escape is left open. *)
Definition closed (t : token) : bool :=
  token_ok t && match t with Esc b => negb (b =b x1b) | _ => true end.

Definition passthrough_bytes (t : token) : bytes :=
  match t with
  | Osc ps payload _ => if is_passthrough_osc ps payload then token_bytes t else []
  | _ => []
  end.

Definition style_of (t : token) : option bytes :=
  match t with
  | Csi ps im f =>
      if forallb is_ascii_digit ps && bytes_eqb im (bs " ") && (f =b x71) then Some ps else None
  | _ => None
  end.

Lemma extract_skip l k fuel :
  forallb not_esc l = true → extract_loop fuel (l ++ k) = extract_loop fuel k.
Proof.
  destruct fuel as [|fuel]; [done|]. intros Hl. cbn [extract_loop].
  rewrite (span_plain_app _ _ k l (span_run_nil _ _ Hl)). by destruct (span not_esc k) as [x [|y z]].
Qed.

Lemma style_skip l k fuel o :
  forallb not_esc l = true → cursor_style_loop fuel (l ++ k) o = cursor_style_loop fuel k o.
Proof.
  destruct fuel as [|fuel]; [done|]. intros Hl. cbn [cursor_style_loop].
  rewrite (span_plain_app _ _ k l (span_run_nil _ _ Hl)). by destruct (span not_esc k) as [x [|y z]].
Qed.

Lemma forallb_impl {A} (p q : A → bool) l :
  (∀ x, p x = true → q x = true) → forallb p l = true → forallb q l = true.
Proof. rewrite !forallb_forall. auto. Qed.

Lemma string_not_esc b : string_byte b = true → not_esc b = true.
Proof. unfold string_byte, not_esc. by destruct (b =b x07), (b =b x1b). Qed.

Lemma range_not_esc lo hi b : byte_val x1b < byte_val lo → in_byte_range lo hi b = true → not_esc b = true.
Proof.
  unfold in_byte_range, not_esc. intros Hlo [Hb _]%andb_true_iff. apply negb_true_iff, byte_eqb_neq.
  intros ->. apply N.leb_le in Hb. lia.
Qed.

Lemma plain_not_esc l : forallb (plain_byte false) l = true → forallb not_esc l = true.
Proof. apply forallb_impl. intros b. unfold plain_byte, introduces, not_esc. cbn. by rewrite orb_false_r. Qed.

Lemma csi_tail_not_esc ps im f :
  token_ok (Csi ps im f) = true → forallb not_esc (ps ++ im ++ [f]) = true.
Proof.
  cbn [token_ok]. rewrite !andb_true_iff, !forallb_app, !andb_true_iff. intros [[Hp Hi] Hf].
  split_and!; [eapply forallb_impl; [|exact Hp]|eapply forallb_impl; [|exact Hi]|].
  1,2: intros b; by apply range_not_esc.
  cbn. rewrite andb_true_r. by eapply range_not_esc; [|exact Hf].
Qed.

(** An escape that introduces neither an OSC nor, for the style reader, a
    CSI is stepped over. *)
Lemma extract_step b k fuel :
  (b =b x5d) = false → extract_loop (S fuel) (x1b :: b :: k) = extract_loop fuel (b :: k).
Proof. intros Hb. cbn [extract_loop span]. change (not_esc x1b) with false. cbv iota. by rewrite Hb. Qed.

Lemma style_step b k fuel o :
  (b =b x5b) = false → cursor_style_loop (S fuel) (x1b :: b :: k) o = cursor_style_loop fuel (b :: k) o.
Proof. intros Hb. cbn [cursor_style_loop span]. change (not_esc x1b) with false. cbv iota. by rewrite Hb. Qed.

(** Stepping over a terminator takes at most one turn. *)
Lemma extract_terminator t k fuel :
  terminator_ok t = true →
  ∃ fuel', (fuel <= S fuel' ∧ fuel' <= fuel)%nat
    ∧ extract_loop fuel (t ++ k) = extract_loop fuel' k.
Proof.
  unfold terminator_ok, bytes_eqb. intros [Ht|Ht]%orb_true_iff; bool_prop; subst.
  - exists fuel. split; [lia|]. by apply (extract_skip [x07]).
  - destruct fuel as [|fuel]; [exists 0%nat; split; [lia|done]|]. exists fuel. split; [lia|].
    cbn [app]. rewrite extract_step by done. by apply (extract_skip [x5c]).
Qed.

Lemma style_terminator t k fuel o :
  terminator_ok t = true →
  ∃ fuel', (fuel <= S fuel' ∧ fuel' <= fuel)%nat
    ∧ cursor_style_loop fuel (t ++ k) o = cursor_style_loop fuel' k o.
Proof.
  unfold terminator_ok, bytes_eqb. intros [Ht|Ht]%orb_true_iff; bool_prop; subst.
  - exists fuel. split; [lia|]. by apply (style_skip [x07]).
  - destruct fuel as [|fuel]; [exists 0%nat; split; [lia|done]|]. exists fuel. split; [lia|].
    cbn [app]. rewrite style_step by done. by apply (style_skip [x5c]).
Qed.

Lemma extract_osc ps payload term k fuel :
  token_ok (Osc ps payload term) = true →
  extract_loop (S fuel) (token_bytes (Osc ps payload term) ++ k)
  = passthrough_bytes (Osc ps payload term) ++ extract_loop fuel k.
Proof.
  cbn [token_ok]. rewrite !andb_true_iff. intros [[[[Hps H0] H5] Hp] Ht].
  assert (token_bytes (Osc ps payload term) ++ k
    = x1b :: x5d :: ps ++ x3b :: payload ++ term ++ k) as ->.
  { cbn [token_bytes]. change (bs ";") with [x3b]. rewrite <- !app_assoc. done. }
  cbn [extract_loop span]. change (not_esc x1b) with false. cbv iota.
  change (x5d =b x5d) with true. cbv iota. rewrite span_run by done.
  change (x3b =b x3b) with true. apply N.ltb_lt in H0.
  replace (len ps =? 0) with false by (symmetry; apply N.eqb_neq; lia). cbn [negb andb].
  rewrite osc_end_run by done.
  assert (drop (length payload + length term) (payload ++ term ++ k) = k) as ->
    by (by rewrite app_assoc, <- length_app, drop_app_length).
  cbn [passthrough_bytes token_bytes]. by destruct (is_passthrough_osc ps payload).
Qed.

Lemma string_kind_other k b : existsb (Byte.eqb k) string_kinds = true → b = x5b ∨ b = x5d → (k =b b) = false.
Proof.
  unfold string_kinds. cbn [existsb]. intros Hk Hb.
  repeat (apply orb_true_iff in Hk as [Hk|Hk]); bool_prop; subst; by destruct Hb as [-> | ->].
Qed.

Lemma closed_cons t ts : forallb closed (t :: ts) = true → closed t = true ∧ forallb closed ts = true.
Proof. intros Hc. cbn in Hc. by apply andb_true_iff in Hc. Qed.

Lemma extract_tokens ts fuel :
  forallb closed ts = true → (length (concat (map token_bytes ts)) < fuel)%nat →
  extract_loop fuel (concat (map token_bytes ts)) = concat (map passthrough_bytes ts).
Proof.
  revert fuel. induction ts as [|t ts IH]; intros fuel Hc Hf; [by destruct fuel|].
  apply closed_cons in Hc as [Ht Hc]. cbn [map concat] in *. rewrite length_app in Hf.
  destruct fuel as [|fuel]; [lia|]. unfold closed in Ht. apply andb_true_iff in Ht as [Ht Hx].
  destruct t as [l|ps im f|ps payload term|kd payload term|b].
  - cbn [token_ok token_bytes passthrough_bytes app] in *.
    rewrite extract_skip by (by apply plain_not_esc). apply IH; [done|lia].
  - cbn [token_bytes app] in *. rewrite extract_step by done.
    rewrite app_comm_cons, extract_skip. { apply IH; [done|]. cbn [length] in Hf. lia. }
    cbn [forallb]. change (not_esc x5b) with true. by apply csi_tail_not_esc.
  - rewrite extract_osc by done. f_equal. apply IH; [done|]. cbn [token_bytes app length] in Hf. lia.
  - cbn [token_ok token_bytes app] in *. apply andb_true_iff in Ht as [[Hk Hp]%andb_true_iff Ht].
    rewrite extract_step by (apply string_kind_other; auto).
    rewrite <- app_assoc, app_comm_cons, extract_skip.
    2:{ cbn [forallb]. apply andb_true_iff. split; [|by eapply forallb_impl; [apply string_not_esc|]].
        unfold string_kinds in Hk. cbn [existsb] in Hk.
        repeat (apply orb_true_iff in Hk as [Hk|Hk]); bool_prop; by subst. }
    destruct (extract_terminator term (concat (map token_bytes ts)) fuel Ht) as (fuel' & Hf' & ->).
    cbn [passthrough_bytes app]. apply IH; [done|]. cbn [length] in Hf. rewrite length_app in Hf. lia.
  - cbn [token_ok token_bytes app] in *. apply negb_true_iff in Ht. cbn [existsb app] in Ht.
    apply orb_false_iff in Ht as [_ [H2 _]%orb_false_iff]. rewrite extract_step by done.
    rewrite (extract_skip [b] (concat (map token_bytes ts))). { apply IH; [done|]. cbn [length] in Hf. lia. }
    cbn [forallb]. by rewrite andb_true_r.
Qed.

(** The last of two findings. *)
Definition later {A} (a b : option A) : option A := match b with Some _ => b | None => a end.

Lemma digits_param l : forallb is_ascii_digit l = true → forallb is_param l = true.
Proof.
  apply forallb_impl. intros b. unfold is_ascii_digit, is_param, in_byte_range.
  rewrite !andb_true_iff, !N.leb_le. intros [? H2]. split; [done|].
  eapply N.le_trans; [exact H2|by vm_compute].
Qed.

Lemma style_csi ps im f k fuel o :
  token_ok (Csi ps im f) = true →
  ∃ l, (l = k ∨ l = (ps ++ im ++ [f]) ++ k)
    ∧ cursor_style_loop (S fuel) (token_bytes (Csi ps im f) ++ k) o
      = cursor_style_loop fuel l (later o (style_of (Csi ps im f))).
Proof.
  intros Ht. pose proof Ht as Ht'. cbn [token_ok] in Ht'.
  apply andb_true_iff in Ht' as [[Hps Him]%andb_true_iff Hf].
  cbn [token_bytes app cursor_style_loop span]. change (not_esc x1b) with false. cbv iota.
  change (x5b =b x5b) with true. cbv iota. cbn [style_of].
  destruct (forallb is_ascii_digit ps && bytes_eqb im (bs " ") && (f =b x71)) eqn:E.
  - apply andb_true_iff in E as [[Hd Hi]%andb_true_iff Hq]. unfold bytes_eqb in Hi. bool_prop. subst.
    exists k. split; [by left|]. rewrite <- !app_assoc. change (bs " ") with [x20]. cbn [app].
    by rewrite span_run by done.
  - exists ((ps ++ im ++ [f]) ++ k). split; [by right|].
    destruct (span is_ascii_digit ((ps ++ im ++ [f]) ++ k)) as [params l1] eqn:Esp.
    destruct l1 as [|c [|d l2]]; [done..|].
    destruct ((c =b x20) && (d =b x71)) eqn:Ecd; [exfalso|done].
    apply andb_true_iff in Ecd as [Hc Hd]. bool_prop. subst c d.
    (* the run of digits ended at a space, which only an intermediate can be *)
    pose proof (span_app _ _ _ _ Esp) as Heq. pose proof (span_all _ _ _ _ Esp) as Hdig.
    apply digits_param in Hdig.
    assert (is_param f = false ∧ is_intermediate f = false ∧ is_param x20 = false) as (Hfp & Hfi & H20).
    { split_and!; [| |done]; eapply range_disjoint; try exact Hf; vm_compute; auto. }
    destruct im as [|i1 im].
    + assert (span is_param ((ps ++ [] ++ [f]) ++ k) = (ps, f :: k)) as H1.
      { cbn [app]. rewrite <- app_assoc. by apply span_run. }
      rewrite Heq, span_run in H1 by done. injection H1 as _ <- _. done.
    + assert (span is_param ((ps ++ (i1 :: im) ++ [f]) ++ k) = (ps, i1 :: im ++ f :: k)) as H1.
      { rewrite <- !app_assoc. cbn [app]. apply span_run; [done|].
        cbn [forallb] in Him. apply andb_true_iff in Him as [Hb _].
        eapply range_disjoint; [exact Hb|]. vm_compute. auto. }
      rewrite Heq, span_run in H1 by done. injection H1 as -> <- H1.
      assert (is_intermediate x71 = false) as H71 by done.
      destruct im as [|i2 im]; cbn [app] in H1.
      * injection H1 as <- _.
        pose proof (span_all _ _ _ _ Esp) as Hdd. rewrite Hdd in E. done.
      * injection H1 as <- _. cbn [forallb] in Him. by rewrite H71, andb_false_r in Him.
Qed.

Lemma style_tokens ts fuel o :
  forallb closed ts = true → (length (concat (map token_bytes ts)) < fuel)%nat →
  cursor_style_loop fuel (concat (map token_bytes ts)) o = foldl later o (map style_of ts).
Proof.
  revert fuel o. induction ts as [|t ts IH]; intros fuel o Hc Hf; [by destruct fuel|].
  apply closed_cons in Hc as [Ht Hc]. cbn [map concat foldl] in *. rewrite length_app in Hf.
  destruct fuel as [|fuel]; [lia|]. unfold closed in Ht. apply andb_true_iff in Ht as [Ht Hx].
  destruct t as [l|ps im f|ps payload term|kd payload term|b].
  - cbn [token_ok token_bytes style_of later] in *.
    rewrite style_skip by (by apply plain_not_esc). apply IH; [done|lia].
  - destruct (style_csi ps im f (concat (map token_bytes ts)) fuel o Ht) as (l & Hl & ->).
    assert (length (concat (map token_bytes ts)) < fuel)%nat.
    { cbn [token_bytes app length] in Hf. lia. }
    destruct Hl as [-> | ->]; [by apply IH|]. rewrite style_skip by (by apply csi_tail_not_esc).
    by apply IH.
  - assert (token_bytes (Osc ps payload term) ++ concat (map token_bytes ts)
      = x1b :: x5d :: (ps ++ [x3b] ++ payload) ++ term ++ concat (map token_bytes ts)) as ->.
    { cbn [token_bytes]. change (bs ";") with [x3b]. rewrite <- !app_assoc. done. }
    rewrite style_step by done. cbn [token_ok] in Ht.
    rewrite !andb_true_iff in Ht. destruct Ht as [[[[Hps H0] H5] Hp] Ht].
    rewrite app_comm_cons, style_skip.
    2:{ cbn [forallb]. change (not_esc x5d) with true. rewrite !forallb_app. cbn [forallb].
        rewrite !andb_true_iff. split_and!; try done; [|by eapply forallb_impl; [apply string_not_esc|]].
        eapply forallb_impl; [|exact Hps]. intros b. by apply range_not_esc. }
    destruct (style_terminator term (concat (map token_bytes ts)) fuel o Ht) as (fuel' & Hf' & ->).
    apply IH; [done|]. cbn [token_bytes app length] in Hf. rewrite !length_app in Hf.
    cbn in Hf. lia.
  - cbn [token_ok token_bytes app] in *. apply andb_true_iff in Ht as [[Hk Hp]%andb_true_iff Ht].
    rewrite style_step by (apply string_kind_other; auto).
    rewrite <- app_assoc, app_comm_cons, style_skip.
    2:{ cbn [forallb]. apply andb_true_iff. split; [|by eapply forallb_impl; [apply string_not_esc|]].
        unfold string_kinds in Hk. cbn [existsb] in Hk.
        repeat (apply orb_true_iff in Hk as [Hk|Hk]); bool_prop; by subst. }
    destruct (style_terminator term (concat (map token_bytes ts)) fuel o Ht) as (fuel' & Hf' & ->).
    cbn [style_of later]. apply IH; [done|]. cbn [length] in Hf. rewrite length_app in Hf. lia.
  - cbn [token_ok token_bytes app] in *. apply negb_true_iff in Ht. cbn [existsb app] in Ht.
    apply orb_false_iff in Ht as [H1 _]. rewrite style_step by done.
    rewrite (style_skip [b] (concat (map token_bytes ts))).
    { apply IH; [done|]. cbn [length] in Hf. lia. }
    cbn [forallb]. by rewrite andb_true_r.
Qed.

(** A token contributes itself or nothing to the filtered stream. *)
Lemma visible_tokens ts :
  forallb closed ts = true →
  ∃ vs, forallb closed vs = true ∧ concat (map visible ts) = concat (map token_bytes vs)
    ∧ concat (map passthrough_bytes vs)
      = concat (map (λ t, match t with Osc _ _ _ => visible t | _ => [] end) ts)
    ∧ (∀ o, foldl later o (map style_of vs) = foldl later o (map style_of ts)).
Proof.
  induction ts as [|t ts IH]; [by exists []|]. intros [Ht Hc]%closed_cons.
  destruct (IH Hc) as (vs & Hvs & Hb & Hp & Hs). cbn [map concat].
  assert ((visible t = token_bytes t
      ∧ passthrough_bytes t = match t with Osc _ _ _ => visible t | _ => [] end)
    ∨ (visible t = [] ∧ (match t with Osc _ _ _ => visible t | _ => [] end) = [] ∧ style_of t = None))
    as [[Hv Hpt]|(Hv & Hpt & Hst)].
  { destruct t as [l|ps im f|ps payload term|kd payload term|b]; cbn [visible passthrough_bytes style_of].
    - by left.
    - destruct (classify_csi ps im f) eqn:Ec; [by left|right..]; (split_and!; [done..|]);
        (case_match eqn:E; [exfalso|done]);
        (apply andb_true_iff in E as [[Hd Hi]%andb_true_iff Hq]; unfold bytes_eqb in Hi; bool_prop; subst).
      all: unfold classify_csi in Ec.
      all: assert (private_marker ps = 0) as Hpm by
        (destruct ps as [|b ps]; [done|]; cbn [private_marker];
         cbn [forallb] in Hd; apply andb_true_iff in Hd as [Hd _];
         replace (in_byte_range x3c x3f b) with false; [done|]; symmetry;
         eapply range_disjoint; [exact Hd|]; vm_compute; auto).
      all: rewrite Hpm in Ec; cbn in Ec; done.
    - destruct (is_passthrough_osc ps payload); [|right; done].
      destruct (asks payload); [right; done|left; done].
    - right. done.
    - left. done. }
  - exists (t :: vs). cbn [forallb map concat foldl]. rewrite Ht, Hvs, Hpt, Hp, Hb, <- Hv.
    split_and!; [done..|]. intros o. apply Hs.
  - exists vs. rewrite Hpt, Hv. split_and!; [done..|]. intros o. cbn [map foldl]. rewrite Hst. apply Hs.
Qed.

(** The attach client can rebuild from the filtered stream what its
    screen model drops: reading the filtered stream of a well-formed output
    back yields exactly the forwarded title and progress notifications, in
    order, and the parameters of the last cursor-style sequence. *)
Theorem filtered_notifications `{Base64} now s ts :
  pending s = [] → forallb closed ts = true →
  let o := (scan false now s (concat (map token_bytes ts))).2 in
  extract_passthrough_osc_sequences (filtered o)
  = concat (map (λ t, match t with Osc _ _ _ => visible t | _ => [] end) ts)
  ∧ last_cursor_style_params (filtered o) = foldl later None (map style_of ts).
Proof.
  intros Hp Hc. cbv zeta.
  assert (forallb token_ok ts = true) as Hok.
  { eapply forallb_impl; [|exact Hc]. unfold closed. by intros t [? _]%andb_true_iff. }
  assert (filtered (scan false now s (concat (map token_bytes ts))).2 = concat (map visible ts)) as ->.
  { rewrite scan_eq, Hp. cbn [app]. rewrite loop_tokens by done.
    change (MAX_PENDING_ESCAPE_BYTES <=? len []) with false. cbv iota. cbn [snd].
    by destruct (foldl_tokens_out now ts (start_work s)) as [-> _]. }
  destruct (visible_tokens ts Hc) as (vs & Hvs & Hb & Hpt & Hst). rewrite Hb.
  unfold extract_passthrough_osc_sequences, last_cursor_style_params.
  rewrite extract_tokens, style_tokens by (done || lia). by rewrite Hpt, Hst.
Qed.
End Readers.

(** ** Witnesses *)

Definition sample_tokens : list token :=
  [ Text (bs "hello "); Csi (bs "6") [] x6e; Osc (bs "0") (bs "build") [x07];
    Csi (bs "4") (bs " ") x71; Str x50 (bs "1$r") [x1b; x5c]; Csi (bs "31") [] x6d; Esc x37;
    Text (bs "done") ].

Lemma scan_chunk_independent_witness :
  let chunks := [[x1b]; bs "[6"; bs "nhi"] in
  @scan_chunks no_base64 0 new_scanner chunks = @scan no_base64 false 0 new_scanner (concat chunks).
Proof.
  apply (@scan_chunk_independent no_base64); [done|].
  intros [|[|[|i]]]; [by vm_compute..|]. cbn [take]. rewrite take_nil. by vm_compute.
Defined.

Lemma scan_well_formed_witness :
  let '(s', o) := @scan no_base64 false 0 new_scanner (concat (map token_bytes sample_tokens)) in
  filtered o = concat (map visible sample_tokens) ∧ queries o = omap probe sample_tokens
  ∧ pending s' = [].
Proof. apply (@scan_well_formed no_base64); by vm_compute. Defined.

Lemma flush_depends_on_cut_witness :
  let p := replicate 4094 x61 in
  let a := [x1b; x50] ++ p in let b := [x1b; x5c] in
  filtered (@scan no_base64 false 0 new_scanner (a ++ b)).2 = []
  ∧ filtered (@scan_chunks no_base64 0 new_scanner [a; b]).2 = a ++ b.
Proof. apply (@flush_depends_on_cut no_base64 0 (replicate 4094 x61)); by vm_compute. Defined.

Lemma filtered_notifications_witness :
  let o := (@scan no_base64 false 0 new_scanner (concat (map token_bytes sample_tokens))).2 in
  extract_passthrough_osc_sequences (filtered o)
  = concat (map (λ t, match t with Osc _ _ _ => visible t | _ => [] end) sample_tokens)
  ∧ last_cursor_style_params (filtered o) = foldl later None (map style_of sample_tokens).
Proof. apply (filtered_notifications 0 new_scanner sample_tokens); by vm_compute. Defined.
