(* ===== verification/Replay.v ===== *)
(** * Replay of the display stream

    [src/src/session/replay.rs]: the filtered stream clients attach to,
    derived again from the raw records of the journal, from the newest
    checkpoint anchor at or before the wanted offset.  The theorems say that
    the derivation is the filter of the whole recording cut at that offset,
    whatever anchor it starts from and however the records are batched; that
    bounded windows and the resize history agree with it; and that the lazy
    reader of [oly logs] can report the end of the stream too early. *)

From S2P Require Import Prelude Crc Utf8 Text RecordFormat SegmentScan Disk Manifest Open Retention.
From S2P Require Import Stream ProgramStatus Signals Scanner.

Definition REPLAY_BATCH_BYTES : N := 8 * 1024 * 1024.
Definition MAX_RESIZE_EVENTS_SCAN_BYTES : N := 64 * 1024 * 1024.

(** [LogResize] of [protocol.rs]. *)
Record LogResize := mk_resize {
  lr_offset : N;
  lr_rows : N;
  lr_cols : N;
}.

(** [slice::rfind]. *)
Definition rfind {A} (p : A → bool) (l : list A) : option A := find p (rev l).

(** A stable insertion sort by a key, as [sort_by_key] orders. *)
Fixpoint insert_by {A} (key : A → N) (x : A) (l : list A) : list A :=
  match l with
  | [] => [x]
  | y :: l' => if key x <? key y then x :: l else y :: insert_by key x l'
  end.
Definition sort_by_key {A} (key : A → N) (l : list A) : list A :=
  foldl (λ sorted x, insert_by key x sorted) [] l.

(** [now] is what [scan] reads from the clock; it only dates retained program
    statuses, which a replay drops. *)
Section Replay.
Context `{Crc32Fast, Base64} (now : N).

Definition latest_incarnation (d : Dir) : option N := last (list_incarnations d).

Definition replay_start (d : Dir) (incarnation target_offset : N) : option CheckpointAnchor :=
  rfind (λ anchor, (0 <? an_filtered_offset anchor) && (an_filtered_offset anchor <=? target_offset))
    (match checkpoint_anchors d incarnation with Ok anchors => anchors | Err _ => [] end).

Definition replay_stream (d : Dir) (incarnation target_offset : N) : io_result (SegmentStream * N) :=
  match replay_start d incarnation target_offset with
  | Some anchor =>
      stream ← open_at d incarnation anchor; Ok (stream, an_filtered_offset anchor)
  | None => stream ← open_stream d incarnation; Ok (stream, 0)
  end.

Definition replay_anchors (d : Dir) : io_result (list CheckpointAnchor) :=
  match latest_incarnation d with
  | None => Ok []
  | Some incarnation =>
      anchors ← checkpoint_anchors d incarnation;
      Ok (sort_by_key an_filtered_offset (filter (λ a, 0 < an_filtered_offset a) anchors))
  end.

(** The loop every derivation runs: batches until an empty one, or until
    [stop] holds after a batch. *)
Fixpoint replay_loop {A} (fuel : nat) (d : Dir) (step : A → Rec → A) (stop : A → bool)
    (stream : SegmentStream) (acc : A) : option (io_result A) :=
  match fuel with
  | O => None
  | S fuel =>
      '(stream, r) ← next_batch d REPLAY_BATCH_BYTES stream;
      match r with
      | Err e => Some (Err e)
      | Ok [] => Some (Ok acc)
      | Ok records =>
          let acc := foldl step acc records in
          if stop acc then Some (Ok acc) else replay_loop fuel d step stop stream acc
      end
  end.

(** The locals of the derivations. *)
Record Derivation := mk_derivation {
  dv_scanner : PtyScanner;
  dv_filtered_pos : N;
  dv_collected : bytes;
  dv_resizes : list LogResize;
}.

Definition start_derivation (filtered_pos : N) : Derivation :=
  mk_derivation new_scanner filtered_pos [] [].

(** An output record, in [filtered_stream_from]. *)
Definition collect_output (from_offset : N) (v : Derivation) (record : Rec) : Derivation :=
  if bool_decide (rec_kind record = Output) then
    let '(scanner, out) := scan false now (dv_scanner v) (rec_payload record) in
    let batch := filtered out in
    let batch_start := dv_filtered_pos v in
    let filtered_pos := u64_sat_add batch_start (len batch) in
    let collected :=
      if from_offset <? filtered_pos then
        let skip := from_offset - batch_start in
        dv_collected v ++ drop (N.to_nat (N.min skip (len batch))) batch
      else dv_collected v in
    mk_derivation scanner filtered_pos collected (dv_resizes v)
  else v.

Definition filtered_stream_from (fuel : nat) (d : Dir) (from_offset : N)
    : option (io_result (bytes * N)) :=
  match last (list_incarnations d) with
  | None => Some (Ok ([], 0))
  | Some incarnation =>
      match replay_stream d incarnation from_offset with
      | Err e => Some (Err e)
      | Ok (stream, filtered_pos) =>
          r ← replay_loop fuel d (collect_output from_offset) (λ _, false) stream
                (start_derivation filtered_pos);
          Some (v ← r; Ok (dv_collected v, dv_filtered_pos v))
      end
  end.

(** A resize record, at the stream offset reached. *)
Definition note_resize (v : Derivation) (record : Rec) : Derivation :=
  if bool_decide (rec_kind record = Resize) then
    match decode_resize_payload (rec_payload record) with
    | Some (rows, cols) =>
        mk_derivation (dv_scanner v) (dv_filtered_pos v) (dv_collected v)
          (dv_resizes v ++ [mk_resize (dv_filtered_pos v) rows cols])
    | None => v
    end
  else v.

Definition derive_stream_and_resizes (fuel : nat) (d : Dir) (stream : SegmentStream)
    (filtered_pos from_offset : N) : option (io_result (bytes * N * list LogResize)) :=
  r ← replay_loop fuel d (λ v record, note_resize (collect_output from_offset v record) record)
        (λ _, false) stream (start_derivation filtered_pos);
  Some (v ← r; Ok (dv_collected v, dv_filtered_pos v, dv_resizes v)).

Definition filtered_stream_and_resizes_from_anchor (fuel : nat) (d : Dir) (from_offset : N)
    (anchor : option CheckpointAnchor) : option (io_result (bytes * N * list LogResize * N)) :=
  match latest_incarnation d with
  | None => Some (Ok ([], 0, [], 0))
  | Some incarnation =>
      let current := λ a, cur_incarnation (an_cursor a) =? incarnation in
      let stale_anchor := match anchor with Some a => negb (current a) | None => false end in
      let from_offset := if stale_anchor then 0 else from_offset in
      let anchor := match anchor with Some a => if current a then Some a else None | None => None end in
      match (match anchor with
             | Some a => stream ← open_at d incarnation a; Ok (stream, an_filtered_offset a)
             | None => stream ← open_stream d incarnation; Ok (stream, 0)
             end) with
      | Err e => Some (Err e)
      | Ok (stream, filtered_pos) =>
          r ← derive_stream_and_resizes fuel d stream filtered_pos from_offset;
          Some ('(collected, end_, resizes) ← r;
                Ok (collected, end_, resizes, N.max from_offset filtered_pos))
      end
  end.

(** [resize_events_from] only counts the output. *)
Definition pass_output (v : Derivation) (record : Rec) : Derivation :=
  if bool_decide (rec_kind record = Output) then
    let '(scanner, out) := scan false now (dv_scanner v) (rec_payload record) in
    mk_derivation scanner (u64_sat_add (dv_filtered_pos v) (len (filtered out)))
      (dv_collected v) (dv_resizes v)
  else v.

Definition resize_events_from (fuel : nat) (d : Dir) (from_offset : N)
    : option (io_result (list LogResize)) :=
  match latest_incarnation d with
  | None => Some (Ok [])
  | Some incarnation =>
      match replay_stream d incarnation from_offset with
      | Err e => Some (Err e)
      | Ok (stream, filtered_pos) =>
          r ← replay_loop fuel d (λ v record, note_resize (pass_output v record) record)
                (λ v, u64_add from_offset MAX_RESIZE_EVENTS_SCAN_BYTES <? dv_filtered_pos v) stream
                (start_derivation filtered_pos);
          Some (v ← r; Ok (dv_resizes v))
      end
  end.

Definition resize_events (fuel : nat) (d : Dir) := resize_events_from fuel d 0.

(** An output record, in [filtered_stream_window]. *)
Definition collect_window (from_offset max_bytes : N) (v : Derivation) (record : Rec) : Derivation :=
  if bool_decide (rec_kind record = Output) then
    let '(scanner, out) := scan false now (dv_scanner v) (rec_payload record) in
    let batch := filtered out in
    let batch_start := dv_filtered_pos v in
    let filtered_pos := u64_sat_add batch_start (len batch) in
    let collected :=
      if (from_offset <? filtered_pos) && (len (dv_collected v) <? max_bytes) then
        let skip := N.min (from_offset - batch_start) (len batch) in
        let take_ := N.min (len batch - skip) (max_bytes - len (dv_collected v)) in
        dv_collected v ++ take (N.to_nat take_) (drop (N.to_nat skip) batch)
      else dv_collected v in
    mk_derivation scanner filtered_pos collected (dv_resizes v)
  else v.

Definition filtered_stream_window (fuel : nat) (d : Dir) (from_offset max_bytes : N)
    : option (io_result bytes) :=
  match last (list_incarnations d) with
  | None => Some (Ok [])
  | Some incarnation =>
      match replay_stream d incarnation from_offset with
      | Err e => Some (Err e)
      | Ok (stream, filtered_pos) =>
          r ← replay_loop fuel d (collect_window from_offset max_bytes)
                (λ v, max_bytes <=? len (dv_collected v)) stream (start_derivation filtered_pos);
          Some (v ← r; Ok (dv_collected v))
      end
  end.

Definition filtered_stream_len (fuel : nat) (d : Dir) : option (io_result N) :=
  r ← filtered_stream_from fuel d u64_max; Some ('(_, end_) ← r; Ok end_).

(** ** The lazy reader *)

Record ReplayReader := mk_reader {
  rr_stream : option SegmentStream;
  rr_scanner : PtyScanner;
  rr_pending : bytes;
  rr_done : bool;
}.

Definition new_reader (d : Dir) : io_result ReplayReader :=
  stream ← (match latest_incarnation d with
            | Some incarnation => stream ← open_stream d incarnation; Ok (Some stream)
            | None => Ok None
            end);
  Ok (mk_reader stream new_scanner [] false).

(** The scan of one batch, its output queued. *)
Definition queue_output (sp : PtyScanner * bytes) (record : Rec) : PtyScanner * bytes :=
  if bool_decide (rec_kind record = Output) then
    let '(scanner, out) := scan false now sp.1 (rec_payload record) in (scanner, sp.2 ++ filtered out)
  else sp.

Definition fill (d : Dir) (rd : ReplayReader) : option (ReplayReader * io_result unit) :=
  if rr_done rd || negb (len (rr_pending rd) =? 0) then Some (rd, Ok ())
  else
    match rr_stream rd with
    | None => Some (mk_reader None (rr_scanner rd) (rr_pending rd) true, Ok ())
    | Some stream =>
        '(stream, r) ← next_batch d REPLAY_BATCH_BYTES stream;
        match r with
        | Err e => Some (mk_reader (Some stream) (rr_scanner rd) (rr_pending rd) (rr_done rd), Err e)
        | Ok [] => Some (mk_reader (Some stream) (rr_scanner rd) (rr_pending rd) true, Ok ())
        | Ok records =>
            let '(scanner, pending) := foldl queue_output (rr_scanner rd, rr_pending rd) records in
            Some (mk_reader (Some stream) scanner pending (rr_done rd), Ok ())
        end
    end.

(** [io::Read::read] into a buffer of [n] bytes: the bytes it returns. *)
Definition read (d : Dir) (n : N) (rd : ReplayReader) : option (ReplayReader * io_result bytes) :=
  '(rd, r) ← (if len (rr_pending rd) =? 0 then fill d rd else Some (rd, Ok ()));
  match r with
  | Err e => Some (rd, Err e)
  | Ok _ =>
      let n := N.to_nat (N.min (len (rr_pending rd)) n) in
      Some (mk_reader (rr_stream rd) (rr_scanner rd) (drop n (rr_pending rd)) (rr_done rd),
            Ok (take n (rr_pending rd)))
  end.
End Replay.

(** ** The filtered stream depends on the carried bytes only *)

Section Display.
Context `{Base64}.

(** Works with the same output so far. *)
Definition alike (w w' : Work) : Prop := w_out w = w_out w'.

Definition alike_to (r r' : option (nat * Work)) : Prop :=
  match r, r' with
  | Some (n, w), Some (n', w') => n = n' ∧ alike w w'
  | None, None => True
  | _, _ => False
  end.

Lemma alike_emit w w' l : alike w w' → alike (emit w l) (emit w' l).
Proof. unfold alike, emit. cbn. by intros ->. Qed.
Lemma alike_note w w' r r' : alike w w' → alike (note_signals w r) (note_signals w' r').
Proof. done. Qed.

#[local] Hint Resolve alike_emit alike_note : core.

Lemma alike_osc_complete now now' ps i p t n w w' :
  alike w w' → alike (osc_complete now ps i p t n w) (osc_complete now' ps i p t n w').
Proof.
  unfold alike, osc_complete, update_statuses, record_osc_signal. intros Hw.
  repeat case_match; cbn; rewrite ?Hw; done.
Qed.

Lemma alike_escape now now' l w w' :
  alike w w' → alike_to (escape now l w) (escape now' l w').
Proof.
  intros Hw. unfold escape. destruct (drop 1 l) as [|b l1]; [done|].
  destruct (b =b x5b).
  { unfold csi. destruct (span is_param _) as [ps r1], (span is_intermediate r1) as [im r2].
    destruct r2 as [|fb r2]; [done|]. destruct (negb (is_final fb)); [by split; auto|]. split; [done|].
    destruct (classify_csi ps im fb); [|done|].
    - apply alike_emit. destruct (_ && _); [by apply alike_note|done].
    - unfold alike, push_query in *. cbn. by rewrite Hw. }
  destruct (b =b x5d).
  { unfold osc. destruct (span is_ascii_digit _) as [ps r1]. destruct (_ || _).
    - destruct r1; [done|]. by split; auto.
    - destruct (osc_end _ _); [done|by split; auto|]. split; [done|by apply alike_osc_complete]. }
  destruct (existsb _ _); [by destruct (string_sequence l)|].
  destruct (b =b x63); by split; auto.
Qed.

Lemma alike_loop now now' fuel l w w' :
  alike w w' →
  (slice_loop false now fuel l w).1 = (slice_loop false now' fuel l w').1
  ∧ alike (slice_loop false now fuel l w).2 (slice_loop false now' fuel l w').2.
Proof.
  revert l w w'. induction fuel as [|fuel IH]; intros l w w' Hw; [done|]. cbn [slice_loop].
  destruct (span (plain_byte false) l) as [run rest] eqn:E.
  destruct rest as [|b rest]; [split; [done|by apply alike_emit]|].
  pose proof (span_stop _ _ _ _ _ E) as Hb.
  rewrite (proj1 (consume_escape now b rest (emit w run) Hb)), (proj1 (consume_escape now' b rest (emit w' run) Hb)).
  pose proof (alike_escape now now' (b :: rest) _ _ (alike_emit w w' run Hw)) as He.
  destruct (escape now _ _) as [[n w1]|], (escape now' _ _) as [[n' w1']|]; try done.
  - destruct He as [<- He]. by apply IH.
  - split; [done|by apply alike_emit].
Qed.

(** One record's display: the bytes carried on and the bytes shown. *)
Definition display (carried payload : bytes) : bytes * bytes :=
  let '(s, o) := scan false 0 (mk_scanner carried no_signals false) payload in (pending s, filtered o).

Lemma scan_display now s payload :
  display (pending s) payload
  = (pending (scan false now s payload).1, filtered (scan false now s payload).2).
Proof.
  unfold display. rewrite !scan_eq. cbn [pending].
  destruct (alike_loop 0 now (S (length (pending s ++ payload))) (pending s ++ payload)
    (start_work (mk_scanner (pending s) no_signals false)) (start_work s)) as [H1 H2]; [done|].
  destruct (slice_loop false 0 _ _ _) as [rest w], (slice_loop false now _ _ _) as [rest' w'].
  cbn [fst snd] in *. subst rest'. destruct (_ <=? _); cbn [fst snd pending]; [|by rewrite H2].
  pose proof (alike_emit _ _ rest H2) as H3. by rewrite H3.
Qed.

(** The display of a recording: what is carried after it, and all it shows. *)
Fixpoint shown (carried : bytes) (rs : list Rec) : bytes * bytes :=
  match rs with
  | [] => (carried, [])
  | r :: rs =>
      if bool_decide (rec_kind r = Output) then
        let '(carried, out) := display carried (rec_payload r) in
        let '(carried, rest) := shown carried rs in (carried, out ++ rest)
      else shown carried rs
  end.

Lemma shown_app carried rs rs' :
  shown carried (rs ++ rs')
  = let '(c, out) := shown carried rs in let '(c, out') := shown c rs' in (c, out ++ out').
Proof.
  revert carried. induction rs as [|r rs IH]; intros carried; cbn [app shown]; [by destruct (shown _ _)|].
  destruct (bool_decide _); [|apply IH]. destruct (display _ _) as [c out]. rewrite IH.
  destruct (shown c rs) as [c1 o1]. destruct (shown c1 rs') as [c2 o2]. by rewrite app_assoc.
Qed.
End Display.

(** ** The derivations *)

Section Derive.
Context `{Crc32Fast, !Crc32FastLaws, Base64} (now : N).

(** The loop folds over what it reads, which is everything unless it stops. *)
Lemma replay_loop_spec {A} fuel d incarnation rss tail (step : A → Rec → A) stop stream acc rest :
  holds d incarnation rss tail → at_pos incarnation rss stream rest → (sm_done stream = true → rest = []) →
  (length rest < fuel)%nat →
  ∃ seen later, rest = seen ++ later
    ∧ replay_loop fuel d step stop stream acc = Some (Ok (foldl step acc seen))
    ∧ (later = [] ∨ stop (foldl step acc seen) = true).
Proof.
  intros Hd. revert stream rest acc. induction fuel as [|fuel IH]; intros stream rest acc Hpos Hdone Hf; [lia|].
  destruct (next_batch_spec d incarnation rss tail stream rest REPLAY_BATCH_BYTES Hd Hpos Hdone)
    as (s1 & batch & rest' & Hb & -> & Hpos' & _ & Hdone' & Hempty).
  cbn [replay_loop]. rewrite Hb. cbn [mbind option_bind]. destruct batch as [|r batch].
  - rewrite (Hdone' (Hempty eq_refl)). exists [], []. split_and!; [done|done|by left].
  - set (acc1 := foldl step acc (r :: batch)). destruct (stop acc1) eqn:Hs.
    + exists (r :: batch), rest'. split_and!; [done|done|by right].
    + destruct (IH s1 rest' acc1 Hpos' Hdone') as (seen & later & -> & Hr & Hl).
      { rewrite length_app in Hf. simpl in Hf. lia. }
      exists ((r :: batch) ++ seen), later. rewrite foldl_app, <- app_assoc. by split_and!.
Qed.

(** A resize record at a stream offset. *)
Definition resize_at (pos : N) (r : Rec) : list LogResize :=
  if bool_decide (rec_kind r = Resize) then
    match decode_resize_payload (rec_payload r) with
    | Some (rows, cols) => [mk_resize pos rows cols]
    | None => []
    end
  else [].

(** The resizes of a recording, at the stream offsets reached. *)
Fixpoint resize_history (carried : bytes) (pos : N) (rs : list Rec) : list LogResize :=
  match rs with
  | [] => []
  | r :: rs =>
      if bool_decide (rec_kind r = Output) then
        let '(carried, out) := display carried (rec_payload r) in
        resize_history carried (pos + len out) rs
      else resize_at pos r ++ resize_history carried pos rs
  end.

(** Where a derivation is that began at [pos0]: what its scanner carries, what
    was shown since, of which [sel] is collected, and the resizes seen. *)
Record stands (pos0 : N) (sel : bytes → bytes) (carried out : bytes) (resizes : list LogResize)
    (v : Derivation) : Prop := {
  sd_carried : pending (dv_scanner v) = carried;
  sd_pos : dv_filtered_pos v = pos0 + len out;
  sd_collected : dv_collected v = sel out;
  sd_resizes : dv_resizes v = resizes;
}.

(** A derivation's step: output records extend the selection, and resize
    records are noted or not. *)
Record tracks (pos0 : N) (sel : bytes → bytes) (noting : bool)
    (step : Derivation → Rec → Derivation) : Prop := {
  tr_output v r carried out resizes :
    rec_kind r = Output → stands pos0 sel carried out resizes v →
    let '(carried', more) := display carried (rec_payload r) in
    pos0 + len (out ++ more) <= u64_max →
    stands pos0 sel carried' (out ++ more) resizes (step v r);
  tr_other v r : rec_kind r ≠ Output → step v r = if noting then note_resize v r else v;
}.

Lemma fold_stands pos0 sel noting step rs v carried out resizes :
  tracks pos0 sel noting step → stands pos0 sel carried out resizes v →
  pos0 + len (out ++ (shown carried rs).2) <= u64_max →
  stands pos0 sel (shown carried rs).1 (out ++ (shown carried rs).2)
    (resizes ++ if noting then resize_history carried (pos0 + len out) rs else [])
    (foldl step v rs).
Proof.
  intros Ht. revert v carried out resizes. induction rs as [|r rs IH]; intros v carried out resizes Hv Hmax.
  { cbn. rewrite app_nil_r. destruct noting; by rewrite app_nil_r. }
  cbn [foldl shown resize_history] in *. case_bool_decide as Hk.
  - pose proof (tr_output _ _ _ _ Ht v r carried out resizes Hk Hv) as Hs.
    destruct (display carried (rec_payload r)) as [c1 more].
    specialize (IH (step v r) c1 (out ++ more) resizes).
    destruct (shown c1 rs) as [c2 rest]. cbn [fst snd] in *. rewrite app_assoc in Hmax |- *.
    rewrite (len_app out more) in IH. rewrite N.add_assoc in IH. apply IH; [|by rewrite <- app_assoc in *].
    apply Hs. rewrite (len_app (out ++ more) rest) in Hmax. lia.
  - rewrite (tr_other _ _ _ _ Ht v r Hk). destruct noting.
    + rewrite app_assoc. apply IH; [|done]. destruct Hv as [Hc Hp Hco Hr]. unfold note_resize, resize_at.
      case_bool_decide; [|by rewrite app_nil_r]. destruct (decode_resize_payload _) as [[rows cols]|]; [|by rewrite app_nil_r].
      split; cbn; [done|done|done|]. by rewrite Hr, Hp.
    + rewrite (app_nil_r resizes). specialize (IH v carried out resizes Hv Hmax). by rewrite app_nil_r in IH.
Qed.

(** Everything from [from] on. *)
Lemma collect_output_stands pos0 from v r carried out resizes :
  rec_kind r = Output → stands pos0 (drop (N.to_nat (from - pos0))) carried out resizes v →
  let '(carried', more) := display carried (rec_payload r) in
  pos0 + len (out ++ more) <= u64_max →
  stands pos0 (drop (N.to_nat (from - pos0))) carried' (out ++ more) resizes (collect_output now from v r).
Proof.
  intros Hk [Hc Hp Hco Hr]. unfold collect_output. rewrite bool_decide_eq_true_2 by done.
  rewrite <- Hc, (scan_display now). destruct (scan false now (dv_scanner v) (rec_payload r)) as [s o].
  cbn [fst snd]. intros Hmax. rewrite len_app in Hmax. split; cbn; [done| | |done].
  - rewrite u64_sat_add_small by lia. rewrite len_app. lia.
  - rewrite u64_sat_add_small by lia. rewrite drop_app, <- Hco, Hp.
    destruct (N.ltb_spec from (pos0 + len out + len (filtered o))) as [Hlt|Hge].
    + f_equal. destruct (N.le_gt_cases (from - (pos0 + len out)) (len (filtered o))).
      * f_equal. unfold len in *. lia.
      * lia.
    + rewrite (drop_ge (filtered o)) by (unfold len in *; lia). by rewrite app_nil_r.
Qed.

Lemma collect_output_tracks pos0 from :
  tracks pos0 (drop (N.to_nat (from - pos0))) false (collect_output now from).
Proof.
  split; [intros; by apply collect_output_stands|].
  intros v r Hk. unfold collect_output. by rewrite (bool_decide_eq_false_2 (rec_kind r = Output)) by done.
Qed.

Lemma derive_tracks pos0 from :
  tracks pos0 (drop (N.to_nat (from - pos0))) true
    (λ v record, note_resize (collect_output now from v record) record).
Proof.
  split.
  - intros v r carried out resizes Hk Hv. unfold note_resize. rewrite Hk.
    rewrite (bool_decide_eq_false_2 (Output = Resize)) by done. by apply collect_output_stands.
  - intros v r Hk. unfold collect_output. by rewrite (bool_decide_eq_false_2 (rec_kind r = Output)) by done.
Qed.

Lemma pass_output_tracks pos0 :
  tracks pos0 (λ _, []) true (λ v record, note_resize (pass_output now v record) record).
Proof.
  split.
  - intros v r carried out resizes Hk [Hc Hp Hco Hr]. unfold note_resize, pass_output. rewrite Hk.
    rewrite (bool_decide_eq_true_2 (Output = Output)), (bool_decide_eq_false_2 (Output = Resize)) by done.
    rewrite <- Hc, (scan_display now). destruct (scan false now (dv_scanner v) (rec_payload r)) as [s o].
    cbn [fst snd]. intros Hmax. rewrite len_app in Hmax. split; cbn; try done.
    rewrite u64_sat_add_small by lia. rewrite len_app. lia.
  - intros v r Hk. unfold pass_output. by rewrite (bool_decide_eq_false_2 (rec_kind r = Output)) by done.
Qed.

(** At most [max] bytes from [from] on. *)
Lemma collect_window_tracks pos0 from max :
  tracks pos0 (λ out, take (N.to_nat max) (drop (N.to_nat (from - pos0)) out)) false
    (collect_window now from max).
Proof.
  split.
  - intros v r carried out resizes Hk [Hc Hp Hco Hr]. unfold collect_window. rewrite bool_decide_eq_true_2 by done.
    rewrite <- Hc, (scan_display now). destruct (scan false now (dv_scanner v) (rec_payload r)) as [s o].
    cbn [fst snd]. intros Hmax. rewrite len_app in Hmax. split; cbn; [done| | |done].
    + rewrite u64_sat_add_small by lia. rewrite len_app. lia.
    + rewrite u64_sat_add_small by lia. rewrite drop_app, take_app, Hco, Hp.
      set (had := drop (N.to_nat (from - pos0)) out).
      assert (len (take (N.to_nat max) had) = N.min max (len had)) as Hlh by (rewrite len_take; lia).
      assert (len had = len out - (from - pos0)) as Hl by (unfold had; rewrite len_drop; lia).
      rewrite Hlh. destruct (N.ltb_spec from (pos0 + len out + len (filtered o))) as [Hlt|Hge]; cbn [andb].
      * destruct (N.ltb_spec (N.min max (len had)) max) as [Hroom|Hfull].
        -- f_equal. replace (N.to_nat (from - pos0) - length out)%nat
             with (N.to_nat (N.min (from - (pos0 + len out)) (len (filtered o)))) by (unfold len in *; lia).
           set (more := drop _ (filtered o)). assert (len more = len (filtered o) - N.min (from - (pos0 + len out)) (len (filtered o))) as Hlm
             by (unfold more; rewrite len_drop; lia).
           rewrite <- Hlm, (N.min_r max (len had)) by lia. unfold len in *.
           destruct (N.le_gt_cases (N.of_nat (length more)) (max - N.of_nat (length had))).
           ++ rewrite N.min_l by lia. rewrite !firstn_all2; [done|lia|lia].
           ++ rewrite N.min_r by lia. f_equal. lia.
        -- replace (N.to_nat max - length had)%nat with 0%nat by (unfold len in *; lia). by rewrite take_0, app_nil_r.
      * rewrite (drop_ge (filtered o)) by (unfold len in *; lia). by rewrite take_nil, app_nil_r.
  - intros v r Hk. unfold collect_window. by rewrite bool_decide_eq_false_2.
Qed.
End Derive.

(** ** The theorems *)

Section ReplayTheorems.
Context `{Crc32Fast, !Crc32FastLaws, Base64} (now : N).

(** The display stream of a recording. *)
Definition display_stream (rs : list Rec) : bytes := (shown [] rs).2.

(** Checkpoints with an offset are written where the scanner was idle, and the
    offset counts the bytes shown before them. *)
Definition honest (rs : list Rec) : Prop :=
  ∀ before r after, rs = before ++ r :: after → anchored r = true →
    0 < le_value (rec_payload r)@[15, 23] →
    (shown [] before).1 = [] ∧ len (display_stream before) = le_value (rec_payload r)@[15, 23].

(** A stream that has skipped what was shown before [pos0]. *)
Definition resumes (incarnation : N) (rss : list (list Rec)) (stream : SegmentStream) (pos0 : N)
    (after : list Rec) : Prop :=
  at_pos incarnation rss stream after ∧ sm_done stream = false
  ∧ ∃ before, concat rss = before ++ after ∧ (shown [] before).1 = []
      ∧ len (display_stream before) = pos0.

Lemma resumes_open d incarnation rss tail :
  holds d incarnation rss tail →
  ∃ stream, open_stream d incarnation = Ok stream ∧ resumes incarnation rss stream 0 (concat rss).
Proof.
  intros Hd. unfold open_stream. rewrite (part_paths_holds _ _ _ _ Hd). eexists. split; [done|].
  split; [by eapply at_pos_start|]. split; [done|]. by exists [].
Qed.

Lemma anchored_kind r : anchored r = true → rec_kind r = CheckpointRef.
Proof. unfold anchored. intros Ha. by bool_prop. Qed.

Lemma resumes_open_at d incarnation rss tail a :
  holds d incarnation rss tail → honest (concat rss) →
  a ∈ all_anchors incarnation 1 rss → 0 < an_filtered_offset a →
  ∃ stream after, open_at d incarnation a = Ok stream
    ∧ resumes incarnation rss stream (an_filtered_offset a) after.
Proof.
  intros Hd Hh (i & x & r & y & Hl & Ha & ->)%elem_of_all_anchors Hpos.
  destruct (open_at_anchor d incarnation rss tail i x r y Hd Hl) as (stream & Hs & Hdone & Hat).
  exists stream, (y ++ concat (drop (S i) rss)). split; [done|]. split_and!; [done|done|].
  exists (concat (take i rss) ++ x ++ [r]).
  assert (concat rss = (concat (take i rss) ++ x) ++ r :: (y ++ concat (drop (S i) rss))) as Hc
    by (rewrite (concat_at rss i _ Hl), <- !app_assoc; done).
  destruct (Hh _ _ _ Hc Ha Hpos) as [Hidle Hlen].
  assert (shown [] (concat (take i rss) ++ x ++ [r]) = shown [] (concat (take i rss) ++ x)) as Hsame.
  { rewrite app_assoc, shown_app. destruct (shown [] _) as [c out]. cbn [shown].
    rewrite bool_decide_eq_false_2 by (by rewrite (anchored_kind _ Ha)). by rewrite app_nil_r. }
  unfold display_stream in *. rewrite Hsame. split_and!; [|done|done]. rewrite Hc, <- !app_assoc. done.
Qed.

Lemma rfind_spec {A} (p : A → bool) l x : rfind p l = Some x → x ∈ l ∧ p x = true.
Proof.
  intros [Hin Hp]%find_some. split; [|done]. apply list_elem_of_In. by apply in_rev.
Qed.

(** Whatever anchor is taken, it is at or before the target. *)
Lemma replay_stream_resumes d incarnation rss tail target :
  holds d incarnation rss tail → honest (concat rss) →
  ∃ stream pos0 after, replay_stream d incarnation target = Ok (stream, pos0)
    ∧ resumes incarnation rss stream pos0 after ∧ pos0 <= target.
Proof.
  intros Hd Hh. unfold replay_stream, replay_start. rewrite (checkpoint_anchors_holds _ _ _ _ Hd).
  destruct (rfind _ _) as [a|] eqn:Hr.
  - apply rfind_spec in Hr as [Hin Hp]. bool_prop.
    destruct (resumes_open_at d incarnation rss tail a Hd Hh Hin) as (stream & after & Ho & Hres); [done|].
    exists stream, (an_filtered_offset a), after. rewrite Ho. by split_and!.
  - destruct (resumes_open d incarnation rss tail Hd) as (stream & Ho & Hres).
    exists stream, 0, (concat rss). rewrite Ho. split_and!; [done|done|lia].
Qed.

(** A derivation from there, over what it reads. *)
Lemma derivation_spec {d incarnation rss tail stream pos0 after sel noting step stop fuel} :
  holds d incarnation rss tail → resumes incarnation rss stream pos0 after →
  tracks pos0 sel noting step → len (display_stream (concat rss)) <= u64_max →
  (length (concat rss) < fuel)%nat →
  ∃ seen later v, after = seen ++ later
    ∧ replay_loop fuel d step stop stream (start_derivation pos0) = Some (Ok v)
    ∧ (dv_collected (start_derivation pos0) = sel [] →
       stands pos0 sel (shown [] seen).1 (display_stream seen)
         (if noting then resize_history [] pos0 seen else []) v)
    ∧ (later = [] ∨ stop v = true).
Proof.
  intros Hd (Hat & Hdone & before & Hc & Hidle & Hlen) Ht Hmax Hfuel.
  assert (length after < fuel)%nat as Hfu by (rewrite Hc, length_app in Hfuel; lia).
  destruct (replay_loop_spec fuel d incarnation rss tail step stop stream (start_derivation pos0) after Hd Hat
    ltac:(by rewrite Hdone) Hfu) as (seen & later & -> & Hr & Hl).
  exists seen, later, (foldl step (start_derivation pos0) seen). split_and!; [done|done| |done].
  intros Hsel. pose proof (fold_stands pos0 sel noting step seen (start_derivation pos0) [] [] [] Ht) as Hf.
  cbn [app] in Hf. rewrite len_nil, N.add_0_r in Hf. apply Hf.
  - split; cbn; try done. rewrite len_nil. lia.
  - unfold display_stream in *. rewrite Hc, shown_app in Hmax. destruct (shown [] before) as [c0 o0].
    cbn [fst snd] in *. subst c0. rewrite shown_app in Hmax. destruct (shown [] seen) as [c1 o1], (shown c1 later) as [c2 o2]. cbn [fst snd] in *.
    rewrite !len_app in Hmax. lia.
Qed.

(** What was shown before the resume point and after it. *)
Lemma resumes_display incarnation rss stream pos0 after :
  resumes incarnation rss stream pos0 after →
  ∃ x, display_stream (concat rss) = x ++ display_stream after ∧ len x = pos0.
Proof.
  intros (_ & _ & before & -> & Hidle & Hlen). unfold display_stream in *. rewrite shown_app.
  destruct (shown [] before) as [c out]. cbn [fst snd] in *. subst c. destruct (shown [] after) as [c out'].
  by exists out.
Qed.

Lemma drop_beyond {A} (x y : list A) from :
  drop (N.to_nat (from - len x)) y = drop (N.to_nat (N.max from (len x))) (x ++ y).
Proof.
  rewrite drop_app. rewrite (drop_ge x) by (unfold len; lia). cbn [app]. f_equal. unfold len. lia.
Qed.

Lemma filtered_stream_from_spec d incarnation rss tail from fuel :
  holds d incarnation rss tail → latest_incarnation d = Some incarnation → honest (concat rss) →
  len (display_stream (concat rss)) <= u64_max → (length (concat rss) < fuel)%nat →
  filtered_stream_from now fuel d from
  = Some (Ok (drop (N.to_nat from) (display_stream (concat rss)), len (display_stream (concat rss)))).
Proof.
  intros Hd Hi Hh Hmax Hfuel. unfold filtered_stream_from, latest_incarnation in *. rewrite Hi.
  destruct (replay_stream_resumes d incarnation rss tail from Hd Hh) as (stream & pos0 & after & -> & Hres & Hle).
  destruct (derivation_spec Hd Hres (collect_output_tracks now pos0 from) Hmax Hfuel (stop := λ _, false))
    as (seen & later & v & -> & -> & Hv & [-> |[=]]).
  rewrite app_nil_r in Hres. destruct (resumes_display _ _ _ _ _ Hres) as (x & -> & Hx).
  destruct (Hv ltac:(by destruct (N.to_nat (from - pos0)))) as [_ Hpos Hco _]. cbn [mbind option_bind result_bind].
  rewrite Hpos, Hco, <- Hx, drop_beyond, N.max_l by lia. by rewrite len_app.
Qed.

Lemma filtered_stream_window_spec d incarnation rss tail from max fuel :
  holds d incarnation rss tail → latest_incarnation d = Some incarnation → honest (concat rss) →
  len (display_stream (concat rss)) <= u64_max → (length (concat rss) < fuel)%nat →
  filtered_stream_window now fuel d from max
  = Some (Ok (take (N.to_nat max) (drop (N.to_nat from) (display_stream (concat rss))))).
Proof.
  intros Hd Hi Hh Hmax Hfuel. unfold filtered_stream_window, latest_incarnation in *. rewrite Hi.
  destruct (replay_stream_resumes d incarnation rss tail from Hd Hh) as (stream & pos0 & after & -> & Hres & Hle).
  destruct (derivation_spec Hd Hres (collect_window_tracks now pos0 from max) Hmax Hfuel
    (stop := λ v, max <=? len (dv_collected v))) as (seen & later & v & -> & -> & Hv & Hstop).
  destruct (resumes_display _ _ _ _ _ Hres) as (x & -> & Hx).
  destruct (Hv ltac:(cbn; by rewrite drop_nil, take_nil)) as [_ _ Hco _]. cbn [mbind option_bind result_bind].
  rewrite Hco. do 2 f_equal. rewrite <- (N.max_l from pos0) at 2 by done. rewrite <- Hx, <- drop_beyond, Hx.
  destruct Hstop as [-> |Hstop]; [by rewrite app_nil_r|].
  apply N.leb_le in Hstop. rewrite Hco, len_take in Hstop.
  unfold display_stream in *. rewrite shown_app. destruct (shown [] seen) as [c out], (shown c later) as [c' more].
  cbn [snd] in *. rewrite drop_app, take_app_le; [done|]. unfold len in Hstop. lia.
Qed.

(** C14: Replay derives the display stream.  On a journal whose checkpoints are
    honest, reading from any offset gives exactly the rest of the filter of
    the whole recording and its exact length; a bounded window gives the
    first bytes of that rest, and the whole of it when it fits; all this
    whatever anchor the derivation starts from, wherever the batches end,
    and with fuel for one batch per record. *)
Theorem replay_exact d incarnation rss tail from max fuel :
  holds d incarnation rss tail → latest_incarnation d = Some incarnation → honest (concat rss) →
  len (display_stream (concat rss)) <= u64_max → (length (concat rss) < fuel)%nat →
  let stream := display_stream (concat rss) in
  filtered_stream_from now fuel d from = Some (Ok (drop (N.to_nat from) stream, len stream))
  ∧ filtered_stream_window now fuel d from max = Some (Ok (take (N.to_nat max) (drop (N.to_nat from) stream)))
  ∧ filtered_stream_len now fuel d = Some (Ok (len stream)).
Proof.
  intros Hd Hi Hh Hmax Hfuel stream. split_and!.
  - by eapply filtered_stream_from_spec.
  - by eapply filtered_stream_window_spec.
  - unfold filtered_stream_len. by erewrite filtered_stream_from_spec.
Qed.

Lemma elem_of_insert_by {A} (key : A → N) x y l : x ∈ insert_by key y l ↔ x = y ∨ x ∈ l.
Proof.
  induction l as [|z l IH]; cbn [insert_by]; [set_solver|]. destruct (_ <? _); [set_solver|].
  rewrite !elem_of_cons, IH. tauto.
Qed.

Lemma elem_of_sort_by_key {A} (key : A → N) x l : x ∈ sort_by_key key l ↔ x ∈ l.
Proof.
  unfold sort_by_key. assert (∀ acc, x ∈ foldl (λ sorted x, insert_by key x sorted) acc l ↔ x ∈ acc ∨ x ∈ l) as ->.
  2:{ set_solver. }
  induction l as [|y l IH]; intros acc; cbn [foldl]; [set_solver|]. rewrite IH, elem_of_insert_by. set_solver.
Qed.

(** The stream a listed anchor, or none, starts. *)
Lemma from_anchor_resumes d incarnation rss tail anchor anchors :
  holds d incarnation rss tail → latest_incarnation d = Some incarnation → honest (concat rss) →
  replay_anchors d = Ok anchors → (∀ a, anchor = Some a → a ∈ anchors) →
  let pos0 := match anchor with Some a => an_filtered_offset a | None => 0 end in
  ∃ s after, match anchor with
      | Some a => stream ← open_at d incarnation a; Ok (stream, an_filtered_offset a)
      | None => stream ← open_stream d incarnation; Ok (stream, 0)
      end = Ok (s, pos0)
    ∧ resumes incarnation rss s pos0 after
    ∧ (∀ a, anchor = Some a → cur_incarnation (an_cursor a) = incarnation).
Proof.
  intros Hd Hi Hh Hanchors Ha. unfold replay_anchors in Hanchors.
  rewrite Hi, (checkpoint_anchors_holds _ _ _ _ Hd) in Hanchors. cbn [mbind result_bind] in Hanchors.
  injection Hanchors as <-. destruct anchor as [a|].
  - specialize (Ha a eq_refl). apply elem_of_sort_by_key, list_elem_of_filter in Ha as [Hpos Hin].
    destruct (resumes_open_at d incarnation rss tail a Hd Hh Hin Hpos) as (s & after & Ho & Hres).
    exists s, after. rewrite Ho. split_and!; [done|done|]. intros a' [= <-].
    by apply elem_of_all_anchors in Hin as (i & x & r & y & _ & _ & ->).
  - destruct (resumes_open d incarnation rss tail Hd) as (s & Ho & Hres). exists s, (concat rss). rewrite Ho. by split_and!.
Qed.

(** One pass from a listed anchor, or from the start. *)
Lemma from_anchor_spec d incarnation rss tail from anchor fuel anchors :
  holds d incarnation rss tail → latest_incarnation d = Some incarnation → honest (concat rss) →
  len (display_stream (concat rss)) <= u64_max → (length (concat rss) < fuel)%nat →
  replay_anchors d = Ok anchors → (∀ a, anchor = Some a → a ∈ anchors) →
  let stream := display_stream (concat rss) in
  let pos0 := match anchor with Some a => an_filtered_offset a | None => 0 end in
  ∃ before after, concat rss = before ++ after ∧ len (display_stream before) = pos0 ∧ (shown [] before).1 = []
    ∧ filtered_stream_and_resizes_from_anchor now fuel d from anchor
      = Some (Ok (drop (N.to_nat (N.max from pos0)) stream, len stream, resize_history [] pos0 after,
                  N.max from pos0)).
Proof.
  intros Hd Hi Hh Hmax Hfuel Hanchors Ha stream pos0.
  destruct (from_anchor_resumes d incarnation rss tail anchor anchors Hd Hi Hh Hanchors Ha)
    as (s & after & Ho & Hres & Hcur). fold pos0 in Ho, Hres.
  destruct (derivation_spec Hd Hres (derive_tracks now pos0 from) Hmax Hfuel (stop := λ _, false))
    as (seen & later & v & -> & Hloop & Hv & [-> |[=]]). rewrite app_nil_r in Hres.
  destruct (Hv ltac:(cbn; by rewrite drop_nil)) as [_ Hp Hco Hr].
  pose proof (resumes_display _ _ _ _ _ Hres) as (x & Hx & Hlx).
  destruct Hres as (_ & _ & before & Hc & Hidle & Hlen). exists before, seen. split_and!; [done|done|done|].
  unfold filtered_stream_and_resizes_from_anchor, derive_stream_and_resizes. rewrite Hi.
  destruct anchor as [a|]; cbv zeta; rewrite ?(Hcur _ eq_refl), ?N.eqb_refl; cbn [negb];
    rewrite Ho, Hloop; cbn [mbind option_bind result_bind];
    (rewrite Hp, Hco, Hr; unfold stream; rewrite Hx, <- Hlx, drop_beyond, len_app; done).
Qed.

(** The stream and the resizes of a tail agree.  From any anchor
    [replay_anchors] lists, or from the start, one pass returns the rest of
    the display stream from the larger of the wanted and the anchor's offset,
    its end, that offset, and the resizes recorded since the anchor, each at
    the stream offset it was recorded at; and the bounded resize history is
    the same list, ending no earlier than 64 MiB past the wanted offset. *)
Theorem replay_with_resizes d incarnation rss tail from anchor fuel anchors :
  holds d incarnation rss tail → latest_incarnation d = Some incarnation → honest (concat rss) →
  len (display_stream (concat rss)) <= u64_max → (length (concat rss) < fuel)%nat →
  replay_anchors d = Ok anchors → (∀ a, anchor = Some a → a ∈ anchors) →
  let stream := display_stream (concat rss) in
  let pos0 := match anchor with Some a => an_filtered_offset a | None => 0 end in
  (∃ before after, concat rss = before ++ after ∧ len (display_stream before) = pos0
    ∧ filtered_stream_and_resizes_from_anchor now fuel d from anchor
      = Some (Ok (drop (N.to_nat (N.max from pos0)) stream, len stream, resize_history [] pos0 after,
                  N.max from pos0)))
  ∧ (from + MAX_RESIZE_EVENTS_SCAN_BYTES <= u64_max →
     ∃ before seen later, concat rss = before ++ seen ++ later ∧ len (display_stream before) <= from
     ∧ resize_events_from now fuel d from
       = Some (Ok (resize_history [] (len (display_stream before)) seen))
     ∧ (later = [] ∨ from + MAX_RESIZE_EVENTS_SCAN_BYTES < len (display_stream (before ++ seen)))).
Proof.
  intros Hd Hi Hh Hmax Hfuel Hanchors Ha stream pos0. split.
  - destruct (from_anchor_spec d incarnation rss tail from anchor fuel anchors) as (before & after & Hc & Hlen & _ & Hf);
      [done..|]. by exists before, after.
  - intros Hno. unfold resize_events_from. rewrite Hi.
    destruct (replay_stream_resumes d incarnation rss tail from Hd Hh) as (s & p0 & after & -> & Hres & Hle).
    destruct (derivation_spec Hd Hres (pass_output_tracks now p0) Hmax Hfuel
      (stop := λ v, u64_add from MAX_RESIZE_EVENTS_SCAN_BYTES <? dv_filtered_pos v)) as (seen & later & v & -> & -> & Hv & Hstop).
    destruct Hres as (_ & _ & before & Hc & Hidle & Hlen). destruct (Hv eq_refl) as [_ Hp _ Hr].
    exists before, seen, later. rewrite Hlen. split_and!; [done|done|by cbn; rewrite Hr|].
    destruct Hstop as [-> |Hstop]; [by left|right]. apply N.ltb_lt in Hstop.
    rewrite u64_add_small, Hp in Hstop by done. unfold display_stream in *. rewrite shown_app.
    destruct (shown [] before) as [c out]. cbn [fst snd] in *. subst c. destruct (shown [] seen) as [c' out'].
    cbn [snd] in *. rewrite len_app. lia.
Qed.
End ReplayTheorems.

(** ** The lazy reader can stop early *)

(** A part with nothing to show, and the output after it. *)
Definition quiet_rss : list (list Rec) :=
  [[mk_record Resize 1 0 (encode_resize_payload 24 80)]; [mk_record Output 2 5 (bs "hello")]].

Definition quiet_journal : Dir :=
  <[segment_path 3 1 := encode_records (default [] (quiet_rss !! 0%nat))]>
  {[ segment_path 3 2 := encode_records (default [] (quiet_rss !! 1%nat)) ]}.

#[local] Existing Instance no_base64.

Definition quiet_reader : ReplayReader :=
  match new_reader quiet_journal with Ok rd => rd | Err _ => mk_reader None new_scanner [] true end.
Definition quiet_read (rd : ReplayReader) : ReplayReader * io_result bytes :=
  default (rd, Err Other) (read 0 quiet_journal 4096 rd).

Lemma quiet_holds : holds quiet_journal 3 quiet_rss [].
Proof.
  split; [done|by vm_compute| |by repeat (constructor; [split_and!; by vm_compute|])|by vm_compute|by left].
  intros i rs Hi. do 2 (destruct i as [|i]; [injection Hi as <-; by vm_compute|]). done.
Qed.

(** A batch that shows nothing leaves nothing pending, so the read returns no
    bytes, which is how [io::Read] reports the end; the bytes are there for
    whoever reads once more. *)
Lemma reader_stops_early :
  (quiet_read quiet_reader).2 = Ok []
  ∧ rr_done (quiet_read quiet_reader).1 = false
  ∧ (quiet_read (quiet_read quiet_reader).1).2 = Ok (display_stream (concat quiet_rss))
  ∧ display_stream (concat quiet_rss) = bs "hello".
Proof. by vm_compute. Qed.

(** ** Witnesses *)

Definition replay_rss : list (list Rec) :=
  [[mk_record Output 1 0 (bs "hello");
    mk_record CheckpointRef 2 4
      (encode_checkpoint (mk_checkpoint 24 80 (1, 6) false false true 5 (bs "program")))];
   [mk_record Resize 3 5 (encode_resize_payload 30 100); mk_record Output 4 6 (x1b :: bs "[6nworld")]].

Definition replay_journal : Dir :=
  <[segment_path 7 1 := encode_records (default [] (replay_rss !! 0%nat))]>
  {[ segment_path 7 2 := encode_records (default [] (replay_rss !! 1%nat)) ]}.

Lemma replay_holds : holds replay_journal 7 replay_rss [].
Proof.
  split; [done|by vm_compute| |by repeat (constructor; [split_and!; by vm_compute|])|by vm_compute|by left].
  intros i rs Hi. do 2 (destruct i as [|i]; [injection Hi as <-; by vm_compute|]). done.
Qed.

Lemma replay_honest : honest (concat replay_rss).
Proof.
  intros before r after Heq Ha Hpos.
  do 4 (destruct before as [|? before]; [injection Heq as <- _; first [by vm_compute in Ha|by split]|injection Heq as <- Heq]).
  by destruct before.
Qed.

Lemma replay_exact_witness :
  let stream := bs "helloworld" in
  filtered_stream_from 0 9 replay_journal 7 = Some (Ok (drop 7 stream, 10))
  ∧ filtered_stream_window 0 9 replay_journal 7 2 = Some (Ok (take 2 (drop 7 stream)))
  ∧ filtered_stream_len 0 9 replay_journal = Some (Ok 10).
Proof.
  apply (replay_exact 0 replay_journal 7 replay_rss [] 7 2 9 replay_holds);
    [by vm_compute|apply replay_honest|by vm_compute|cbn; lia].
Defined.

Lemma replay_with_resizes_witness :
  let anchor := mk_anchor 5 (mk_cursor 7 2) 1 111 in
  ∃ before after, concat replay_rss = before ++ after ∧ len (display_stream before) = 5
    ∧ filtered_stream_and_resizes_from_anchor 0 9 replay_journal 2 (Some anchor)
      = Some (Ok (drop 5 (bs "helloworld"), 10, resize_history [] 5 after, 5)).
Proof.
  apply (replay_with_resizes 0 replay_journal 7 replay_rss [] 2 (Some (mk_anchor 5 (mk_cursor 7 2) 1 111)) 9
    [mk_anchor 5 (mk_cursor 7 2) 1 111] replay_holds);
    [by vm_compute|apply replay_honest|by vm_compute|cbn; lia|by vm_compute|].
  intros a [= <-]. by left.
Defined.
