(* ===== verification/Registry.v ===== *)
(** * The attachment registry

    [src/src/session/registry.rs]: the attachments of one session, each with a
    fencing token, a role fixed when it registers, and the cell its client's
    applied cursor is reported to.  Cells are shared with the output pumps, so
    they live in a store of their own and outlive the attachment.  The theorem
    says what the tokens promise over any sequence of operations. *)

From S2P Require Import Prelude Text.

Inductive AttachKind := Cli | Web.
Inductive AttachRole := Observer | Controller.

#[export] Instance AttachKind_eq_dec : EqDecision AttachKind.
Proof. solve_decision. Defined.
#[export] Instance AttachRole_eq_dec : EqDecision AttachRole.
Proof. solve_decision. Defined.

(** [AttachRole::parse]; the error carries the token its message quotes. *)
Definition role_parse (role : option bytes) : result bytes AttachRole :=
  match role with
  | None => Ok Controller
  | Some token =>
      if bytes_eqb token (bs "controller") || bytes_eqb token (bs "control") then Ok Controller
      else if bytes_eqb token (bs "observe") || bytes_eqb token (bs "observer") then Ok Observer
      else Err token
  end.

Definition role_as_str (r : AttachRole) : bytes :=
  match r with Observer => bs "observer" | Controller => bs "controller" end.

(** [at_applied_cursor] is the address of the shared cell. *)
Record Attachment := mk_attachment {
  at_id : N;
  at_kind : AttachKind;
  at_role : AttachRole;
  at_connected_at : N;
  at_viewport : option (N * N);
  at_applied_cursor : N;
}.

(** [ar_cells] holds every cell made so far, by address. *)
Record AttachmentRegistry := mk_registry {
  ar_next_id : N;
  ar_attachments : gmap N Attachment;
  ar_cells : gmap N N;
}.

Definition empty_registry : AttachmentRegistry := mk_registry 0 ∅ ∅.

(** A new cell takes the attachment's id for its address: no other one has
    it. *)
Definition register (now : N) (kind : AttachKind) (role : AttachRole) (viewport : option (N * N))
    (r : AttachmentRegistry) : AttachmentRegistry * (N * AttachRole) :=
  let id := u64_add (ar_next_id r) 1 in
  (mk_registry id (<[id := mk_attachment id kind role now viewport id]> (ar_attachments r))
     (<[id := 0]> (ar_cells r)), (id, role)).

Definition unregister (id : N) (r : AttachmentRegistry) : AttachmentRegistry * option Attachment :=
  (mk_registry (ar_next_id r) (delete id (ar_attachments r)) (ar_cells r), ar_attachments r !! id).

Definition can_control (id : N) (r : AttachmentRegistry) : bool :=
  match ar_attachments r !! id with
  | Some a => bool_decide (at_role a = Controller)
  | None => false
  end.

Definition contains (id : N) (r : AttachmentRegistry) : bool :=
  bool_decide (is_Some (ar_attachments r !! id)).

Definition cell_value (address : N) (r : AttachmentRegistry) : N := default 0 (ar_cells r !! address).

Definition report_applied (id cursor : N) (r : AttachmentRegistry) : AttachmentRegistry :=
  match ar_attachments r !! id with
  | Some a =>
      let cell := at_applied_cursor a in
      mk_registry (ar_next_id r) (ar_attachments r)
        (<[cell := N.max (cell_value cell r) cursor]> (ar_cells r))
  | None => r
  end.

Definition credit_cell (id : N) (r : AttachmentRegistry) : option N :=
  at_applied_cursor <$> ar_attachments r !! id.

Definition set_viewport (id rows cols : N) (r : AttachmentRegistry) : AttachmentRegistry :=
  match ar_attachments r !! id with
  | Some a =>
      mk_registry (ar_next_id r)
        (<[id := mk_attachment (at_id a) (at_kind a) (at_role a) (at_connected_at a)
                   (Some (rows, cols)) (at_applied_cursor a)]> (ar_attachments r)) (ar_cells r)
  | None => r
  end.

(** [store] on the shared cell, by the pump that subscribes. *)
Definition store_cell (address value : N) (r : AttachmentRegistry) : AttachmentRegistry :=
  mk_registry (ar_next_id r) (ar_attachments r) (<[address := value]> (ar_cells r)).

Definition registry_len (r : AttachmentRegistry) : N := N.of_nat (size (ar_attachments r)).
Definition is_empty (r : AttachmentRegistry) : bool := registry_len r =? 0.

(** ** Runs of a registry *)

Inductive RegistryOp :=
  | OpRegister (now : N) (kind : AttachKind) (role : AttachRole) (viewport : option (N * N))
  | OpUnregister (id : N)
  | OpReport (id cursor : N)
  | OpArm (id cursor : N)
  | OpViewport (id rows cols : N).

Definition apply_op (r : AttachmentRegistry) (op : RegistryOp) : AttachmentRegistry :=
  match op with
  | OpRegister now kind role viewport => (register now kind role viewport r).1
  | OpUnregister id => (unregister id r).1
  | OpReport id cursor => report_applied id cursor r
  | OpArm id cursor => match credit_cell id r with Some cell => store_cell cell cursor r | None => r end
  | OpViewport id rows cols => set_viewport id rows cols r
  end.

(** The attachments under their ids, none beyond the counter, each with the
    cell of its own id. *)
Record registry_ok (r : AttachmentRegistry) : Prop := {
  ro_id id a : ar_attachments r !! id = Some a → at_id a = id ∧ at_applied_cursor a = id;
  ro_next id a : ar_attachments r !! id = Some a → 1 <= id <= ar_next_id r;
  ro_cells id : is_Some (ar_cells r !! id) → id <= ar_next_id r;
  ro_owned id a : ar_attachments r !! id = Some a → is_Some (ar_cells r !! id);
}.

Lemma registry_ok_empty : registry_ok empty_registry.
Proof. split; intros *; cbn; rewrite lookup_empty; [done|done|by intros []|done]. Qed.

Lemma register_fresh r now kind role viewport :
  registry_ok r → ar_next_id r < u64_max →
  ar_attachments r !! (register now kind role viewport r).2.1 = None
  ∧ registry_ok (register now kind role viewport r).1.
Proof.
  intros [Hi Hn Hc Ho] Hlt. unfold register. rewrite u64_add_small by lia. cbn [fst snd].
  assert (ar_attachments r !! (ar_next_id r + 1) = None) as Hnone.
  { destruct (_ !! _) as [a|] eqn:E; [|done]. apply Hn in E. lia. }
  split; [done|]. split; cbn [ar_attachments ar_next_id ar_cells].
  - intros id a [[<- <-]|[_ E]]%lookup_insert_Some; [done|by apply Hi].
  - intros id a [[<- <-]|[_ E]]%lookup_insert_Some; [lia|]. apply Hn in E. lia.
  - intros id [v [[<- <-]|[_ E]]%lookup_insert_Some]; [lia|].
    assert (is_Some (ar_cells r !! id)) as Hs by (by eexists). apply Hc in Hs. lia.
  - intros id a [[<- <-]|[Hne E]]%lookup_insert_Some; [by rewrite lookup_insert_eq|].
    rewrite lookup_insert_ne by done. by eapply Ho.
Qed.

Definition registers (op : RegistryOp) : bool := match op with OpRegister _ _ _ _ => true | _ => false end.

Lemma store_cell_ok r id a n :
  registry_ok r → ar_attachments r !! id = Some a → registry_ok (store_cell (at_applied_cursor a) n r).
Proof.
  intros [Hi Hn Hc Ho] E. destruct (Hi _ _ E) as [_ Hcell]. rewrite Hcell.
  split; cbn [store_cell ar_attachments ar_next_id ar_cells]; [done|done| |].
  - intros i [v [[<- _]|[_ Ev]]%lookup_insert_Some]; [apply Hn in E; lia|]. apply Hc. by eexists.
  - intros i b Eb. destruct (decide (id = i)) as [<-|]; [by rewrite lookup_insert_eq|].
    rewrite lookup_insert_ne by done. by eapply Ho.
Qed.

Lemma apply_op_ok r op : registry_ok r → (registers op = true → ar_next_id r < u64_max) → registry_ok (apply_op r op).
Proof.
  intros Hok Hlt. destruct op as [now kind role viewport|id|id cursor|id cursor|id rows cols]; cbn [apply_op registers] in *.
  - apply register_fresh; auto.
  - destruct Hok as [Hi Hn Hc Ho]. split; cbn [unregister fst ar_attachments ar_next_id ar_cells]; [| |done|];
      intros i a [_ E]%lookup_delete_Some; eauto.
  - unfold report_applied. destruct (ar_attachments r !! id) as [a|] eqn:E; [|done]. by eapply store_cell_ok.
  - unfold credit_cell. destruct (ar_attachments r !! id) as [a|] eqn:E; [|done]. by eapply store_cell_ok.
  - unfold set_viewport. destruct (ar_attachments r !! id) as [a|] eqn:E; [|done].
    destruct Hok as [Hi Hn Hc Ho].
    split; cbn [ar_attachments ar_next_id ar_cells]; [| |done|];
      intros i b [[<- <-]|[_ Eb]]%lookup_insert_Some; eauto; by apply (Hi _ _ E).
Qed.

Lemma apply_op_next r op :
  (registers op = true → ar_next_id r < u64_max) →
  ar_next_id (apply_op r op) = ar_next_id r + (if registers op then 1 else 0).
Proof.
  intros Hlt. destruct op as [| | | |]; cbn [apply_op registers] in *.
  - cbn. rewrite u64_add_small by (specialize (Hlt eq_refl); lia). lia.
  - cbn. lia.
  - unfold report_applied. destruct (_ !! _); cbn; lia.
  - destruct (credit_cell _ _); cbn; lia.
  - unfold set_viewport. destruct (_ !! _); cbn; lia.
Qed.

(** How many more attachments the operations make. *)
Definition registrations (ops : list RegistryOp) : N := len (filter (λ op, registers op = true) ops).

Lemma registrations_cons op ops :
  registrations (op :: ops) = (if registers op then 1 else 0) + registrations ops.
Proof.
  unfold registrations. destruct (registers op) eqn:E.
  - rewrite filter_cons_True by done. rewrite len_cons. lia.
  - rewrite filter_cons_False by congruence. lia.
Qed.

Lemma registrations_app ops ops' : registrations (ops ++ ops') = registrations ops + registrations ops'.
Proof. unfold registrations. by rewrite filter_app, len_app. Qed.

Lemma run_ok r ops :
  registry_ok r → ar_next_id r + registrations ops <= u64_max →
  registry_ok (foldl apply_op r ops) ∧ ar_next_id (foldl apply_op r ops) = ar_next_id r + registrations ops.
Proof.
  revert r. induction ops as [|op ops IH]; intros r Hok Hmax; cbn [foldl].
  { unfold registrations, len in *. cbn. split; [done|lia]. }
  rewrite registrations_cons in Hmax. destruct (registers op) eqn:Eop.
  - destruct (IH (apply_op r op)) as [H1 H2].
    + apply apply_op_ok; [done|]. intros _. lia.
    + rewrite apply_op_next, Eop by (intros; lia). lia.
    + split; [done|]. rewrite H2, registrations_cons, apply_op_next, Eop by (intros; lia). lia.
  - destruct (IH (apply_op r op)) as [H1 H2].
    + apply apply_op_ok; [done|congruence].
    + rewrite apply_op_next, Eop by congruence. lia.
    + split; [done|]. rewrite H2, registrations_cons, apply_op_next, Eop by congruence. lia.
Qed.

(** ** What a token promises *)

(** The cursor in the cell of an attachment: what its pump stored last, or the
    largest the client reported since, until it goes. *)
Fixpoint credited (id applied : N) (ops : list RegistryOp) : N :=
  match ops with
  | [] => applied
  | OpUnregister i :: ops => if i =? id then applied else credited id applied ops
  | OpReport i cursor :: ops => credited id (if i =? id then N.max applied cursor else applied) ops
  | OpArm i cursor :: ops => credited id (if i =? id then cursor else applied) ops
  | _ :: ops => credited id applied ops
  end.

Definition gone (id : N) (ops : list RegistryOp) : bool :=
  existsb (λ op, match op with OpUnregister i => i =? id | _ => false end) ops.

(** An attachment that is there, or was, and its cell. *)
Definition holds_token (id : N) (role : AttachRole) (there : bool) (applied : N) (r : AttachmentRegistry) : Prop :=
  (at_role <$> ar_attachments r !! id) = (if there then Some role else None)
  ∧ id <= ar_next_id r ∧ cell_value id r = applied.

Lemma cell_value_insert id r a i n :
  registry_ok r → ar_attachments r !! i = Some a →
  cell_value id (store_cell (at_applied_cursor a) n r) = if i =? id then n else cell_value id r.
Proof.
  intros Hok E. rewrite (proj2 (ro_id _ Hok _ _ E)). unfold cell_value. cbn [store_cell ar_cells].
  destruct (N.eqb_spec i id) as [->|Hne]; [by rewrite lookup_insert_eq|by rewrite lookup_insert_ne].
Qed.

Lemma holds_token_op id role there applied r op :
  registry_ok r → (registers op = true → ar_next_id r < u64_max) →
  holds_token id role there applied r →
  holds_token id role (there && negb (gone id [op]))
    (if there then credited id applied [op] else applied) (apply_op r op).
Proof.
  intros Hok Hlt (Hr & Hid & Hc). unfold holds_token. pose proof (apply_op_next r op Hlt) as Hnext.
  rewrite Hnext. split_and!; [|destruct (registers op); lia|].
  - destruct op as [now kind role' viewport|i|i cursor|i cursor|i rows cols]; cbn [gone existsb apply_op orb registers] in *.
    + rewrite andb_true_r. cbn [register fst ar_attachments]. rewrite u64_add_small by (specialize (Hlt eq_refl); lia).
      by rewrite lookup_insert_ne by lia.
    + cbn [unregister fst ar_attachments]. destruct (N.eqb_spec i id) as [->|Hne].
      * rewrite lookup_delete_eq. by destruct there.
      * rewrite lookup_delete_ne by done. by destruct there.
    + unfold report_applied. rewrite andb_true_r. by destruct (ar_attachments r !! i).
    + rewrite andb_true_r. by destruct (credit_cell i r).
    + unfold set_viewport. rewrite andb_true_r. destruct (ar_attachments r !! i) as [a|] eqn:E; [|done].
      cbn [ar_attachments]. destruct (decide (i = id)) as [->|Hne]; [|by rewrite lookup_insert_ne].
      rewrite lookup_insert_eq. by rewrite E in Hr.
  - destruct op as [now kind role' viewport|i|i cursor|i cursor|i rows cols]; cbn [credited apply_op registers] in *.
    + unfold cell_value in *. cbn [register fst ar_cells]. rewrite u64_add_small by (specialize (Hlt eq_refl); lia).
      rewrite lookup_insert_ne by lia. by destruct there.
    + unfold cell_value in *. cbn [unregister fst ar_cells]. by destruct there, (i =? id).
    + unfold report_applied. destruct (ar_attachments r !! i) as [a|] eqn:E.
      * change (mk_registry _ _ _) with (store_cell (at_applied_cursor a) (N.max (cell_value (at_applied_cursor a) r) cursor) r).
        rewrite (cell_value_insert id r a i) by done. rewrite (proj2 (ro_id _ Hok _ _ E)).
        destruct (N.eqb_spec i id) as [->|]; [|by destruct there]. rewrite E in Hr. destruct there; [by rewrite Hc|done].
      * destruct (N.eqb_spec i id) as [->|]; [rewrite E in Hr|]; by destruct there.
    + unfold credit_cell. destruct (ar_attachments r !! i) as [a|] eqn:E; cbn [fmap option_fmap option_map].
      * rewrite (cell_value_insert id r a i) by done.
        destruct (N.eqb_spec i id) as [->|]; [rewrite E in Hr|]; by destruct there.
      * destruct (N.eqb_spec i id) as [->|]; [rewrite E in Hr|]; by destruct there.
    + assert (cell_value id (set_viewport i rows cols r) = cell_value id r) as ->.
      { unfold set_viewport. by destruct (ar_attachments r !! i). }
      by destruct there.
Qed.

Lemma credited_cons id applied op ops :
  credited id applied (op :: ops)
  = if gone id [op] then applied else credited id (credited id applied [op]) ops.
Proof.
  destruct op as [|i|i cursor|i cursor|]; cbn [credited gone existsb orb]; rewrite ?orb_false_r; try done.
  by destruct (i =? id).
Qed.

Lemma credited_gone id applied op : gone id [op] = true → credited id applied [op] = applied.
Proof. destruct op as [|i| | |]; cbn; rewrite ?orb_false_r; try done. by intros ->. Qed.

Lemma holds_token_run id role there applied r ops :
  registry_ok r → ar_next_id r + registrations ops <= u64_max →
  holds_token id role there applied r →
  holds_token id role (there && negb (gone id ops))
    (if there then credited id applied ops else applied) (foldl apply_op r ops).
Proof.
  revert r there applied. induction ops as [|op ops IH]; intros r there applied Hok Hmax Ht.
  { cbn. rewrite andb_true_r. by destruct there. }
  rewrite registrations_cons in Hmax. cbn [foldl].
  assert (registers op = true → ar_next_id r < u64_max) as Hlt by (intros E; rewrite E in Hmax; lia).
  pose proof (holds_token_op _ _ _ _ _ op Hok Hlt Ht) as Ht'.
  eapply IH in Ht'; [|by apply apply_op_ok|by rewrite apply_op_next by done; lia].
  rewrite credited_cons. pose proof (credited_gone id applied op) as Hg.
  replace (gone id (op :: ops)) with (gone id [op] || gone id ops) by (cbn; by rewrite orb_false_r).
  destruct there, (gone id [op]) eqn:E; cbn [negb andb orb] in *; [|done|done|done].
  by rewrite Hg in Ht' by done.
Qed.

(** C10: A fencing token is for one attachment.  Whatever a registry has been
    through, it is well formed, and registering gives an id no attachment
    before it has had, in the role that was asked for.  From then on, through
    any operations by anyone, the id is live until it is unregistered and never
    again; it may control exactly while it is live and a controller; and its
    applied cursor is where its pump armed it or the largest its own client
    reported since, while it was live. *)
Theorem token_fences ops now kind role viewport later :
  registrations (ops ++ OpRegister now kind role viewport :: later) <= u64_max →
  let r := foldl apply_op empty_registry ops in
  let '(r1, (id, granted)) := register now kind role viewport r in
  let r2 := foldl apply_op r1 later in
  registry_ok r2 ∧ granted = role
  ∧ (∀ before after, ops = before ++ after → contains id (foldl apply_op empty_registry before) = false)
  ∧ contains id r2 = negb (gone id later)
  ∧ can_control id r2 = bool_decide (role = Controller) && negb (gone id later)
  ∧ cell_value id r2 = credited id 0 later
  ∧ credit_cell id r2 = (if gone id later then None else Some id).
Proof.
  intros Hmax. rewrite registrations_app, registrations_cons in Hmax. cbn [registers] in Hmax. cbv zeta.
  destruct (run_ok empty_registry ops registry_ok_empty) as [Hok Hnext]; [cbn; lia|].
  set (r := foldl apply_op empty_registry ops) in *. replace (ar_next_id empty_registry) with 0 in Hnext by done.
  destruct (register_fresh r now kind role viewport Hok) as [_ Hok1]; [lia|].
  assert (holds_token (ar_next_id r + 1) role true 0 (register now kind role viewport r).1) as Ht.
  { unfold register. rewrite u64_add_small by lia. split_and!; cbn; [by rewrite lookup_insert_eq|lia|].
    unfold cell_value. cbn. by rewrite lookup_insert_eq. }
  destruct (register now kind role viewport r) as [r1 [id granted]] eqn:E.
  unfold register in E. rewrite u64_add_small in E by lia. injection E as E1 <- <-. cbn [fst] in Ht, Hok1.
  assert (ar_next_id r1 + registrations later <= u64_max) as Hmax' by (rewrite <- E1; cbn [ar_next_id]; lia).
  destruct (run_ok r1 later Hok1 Hmax') as [Hok2 _].
  destruct (holds_token_run _ _ _ _ _ later Hok1 Hmax' Ht) as (Hrole & _ & Hcell). cbn [andb] in *.
  set (r2 := foldl apply_op r1 later) in *.
  split_and!; [done|done| | | |done|].
  - intros before after ->. unfold contains. apply bool_decide_eq_false_2. intros [a Ha].
    rewrite registrations_app in *. destruct (run_ok empty_registry before registry_ok_empty) as [Hokb Hb]; [cbn; lia|].
    apply (ro_next _ Hokb) in Ha. rewrite Hb in Ha. cbn in Ha. lia.
  - unfold contains. destruct (ar_attachments r2 !! _), (gone _ later); cbn in *; simplify_eq; by rewrite ?bool_decide_eq_true_2, ?bool_decide_eq_false_2.
  - unfold can_control. destruct (ar_attachments r2 !! _), (gone _ later); cbn in *; simplify_eq; by rewrite ?andb_true_r, ?andb_false_r.
  - unfold credit_cell. destruct (ar_attachments r2 !! _) as [a|] eqn:Ea, (gone _ later); cbn in *; simplify_eq; [|done].
    by rewrite (proj2 (ro_id _ Hok2 _ _ Ea)).
Qed.

(** ** Witness *)

Lemma token_fences_witness :
  registrations ([OpRegister 1 Cli Observer None; OpUnregister 1] ++
    OpRegister 2 Web Controller (Some (24, 80)) :: [OpArm 2 100; OpReport 2 4096; OpReport 2 1024; OpUnregister 1]) <= u64_max
  ∧ can_control 2 (foldl apply_op (register 2 Web Controller (Some (24, 80))
       (foldl apply_op empty_registry [OpRegister 1 Cli Observer None; OpUnregister 1])).1
       [OpArm 2 100; OpReport 2 4096; OpReport 2 1024; OpUnregister 1]) = true.
Proof.
  split; [by vm_compute|].
  destruct (token_fences [OpRegister 1 Cli Observer None; OpUnregister 1] 2 Web Controller (Some (24, 80))
    [OpArm 2 100; OpReport 2 4096; OpReport 2 1024; OpUnregister 1] ltac:(by vm_compute)) as (_ & _ & _ & _ & Hc & _).
  exact Hc.
Defined.
