(* ===== verification/Recorder.v ===== *)
(** * What a session asks of its journal

    The session runtime records, polls and syncs under its write lock; this
    file states what it relies on as a class, and proves that the session
    journal keeps the promise: [ShadowJournal] of
    [src/src/session/journal/shadow.rs], whose [record] blocks while the
    queue is full and the appender thread goes on. *)

From S2P Require Import Prelude Crc Text RecordFormat SegmentScan Disk Manifest Open Retention.
From S2P Require Import Sequencer Stream Appender Journal.

(** The calls of [SessionRuntime] on its journal, and what the appender thread
    may do on its own between them. *)
Class Recorder (J : Type) := {
  rc_record : N → RecordKind → bytes → J → J * result JournalSubmitError JournalCursor;
  rc_sync : J → J;
  rc_poll : J → J;
  rc_degraded : J → bool;
  rc_fully_durable : J → bool;
  rc_incarnation : J → N;
  rc_move : Type;
  rc_aside : rc_move → J → J;
}.

(** [rc_log j es]: the records sequenced so far are [es].  A record is
    sequenced unless the journal is degraded, the answer is [Ok] exactly when
    it is not degraded afterwards, and a degraded journal sequences nothing any
    more. *)
Class RecorderLaws (J : Type) `{Recorder J} := {
  rc_log : J → list Rec → Prop;
  rc_record_log j es now kind payload :
    rc_log j es → len es + 3 <= u64_max →
    let '(j', r) := rc_record now kind payload j in
    is_ok r = negb (rc_degraded j')
    ∧ ((rc_degraded j = false
        ∧ ∃ seq time, rc_log j' (es ++ [mk_record kind seq time payload]))
       ∨ (rc_degraded j' = true ∧ rc_log j' es));
  rc_sync_log j es : rc_log j es → rc_log (rc_sync j) es;
  rc_sync_degraded j : rc_degraded (rc_sync j) = rc_degraded j;
  rc_poll_log j es : rc_log j es → rc_log (rc_poll j) es;
  rc_poll_degraded j : rc_degraded j = true → rc_degraded (rc_poll j) = true;
  rc_aside_log m j es : rc_log j es → len es + 3 <= u64_max → rc_log (rc_aside m j) es;
  rc_aside_degraded m j : rc_degraded (rc_aside m j) = rc_degraded j;
}.

Section Scheduled.
Context `{Crc32Fast, ManifestSerde}.

(** What the appender thread may do while a producer waits. *)
Inductive Move :=
  | MoveTake
  | MoveHandle (now : N)
  | MoveTimeout
  | MovePanic.

Definition apply_move (j : ShadowJournal) (m : Move) : ShadowJournal :=
  default j (match m with
             | MoveTake => dequeue j
             | MoveHandle now => handle now DEFAULT_SYNC_INTERVAL j
             | MoveTimeout => timed_out DEFAULT_SYNC_INTERVAL j
             | MovePanic => Some (hang_up_rx j)
             end).

(** A journal, and what happens in the calls that have to wait: for each, the
    time at each attempt and the moves before it. *)
Record Scheduled := mk_scheduled {
  sd_journal : ShadowJournal;
  sd_schedule : list (list (N * list Move));
}.

(** The slow path of [try_submit] to its end: the stall timeout at the
    latest. *)
Fixpoint wait_queued (attempts : list (N * list Move)) (j : ShadowJournal)
    : ShadowJournal * result JournalSubmitError JournalCursor :=
  match attempts with
  | [] =>
      match record_retry (sj_stall_timeout j) j with
      | (j, Some r) => (j, r)
      | (j, None) => (j, Err QueueFull)
      end
  | (elapsed, moves) :: attempts =>
      match record_retry elapsed (foldl apply_move j moves) with
      | (j, Some r) => (j, r)
      | (j, None) => wait_queued attempts j
      end
  end.

(** [record], to its return. *)
Definition record_blocking (now : N) (kind : RecordKind) (payload : bytes) (s : Scheduled)
    : Scheduled * result JournalSubmitError JournalCursor :=
  match record now kind payload (sd_journal s) with
  | (j, Some r) => (mk_scheduled j (sd_schedule s), r)
  | (j, None) =>
      let '(j, r) := wait_queued (default [] (head (sd_schedule s))) j in
      (mk_scheduled j (tail (sd_schedule s)), r)
  end.

#[export] Instance scheduled_recorder : Recorder Scheduled := {
  rc_record := record_blocking;
  rc_sync s := mk_scheduled (request_sync (sd_journal s)) (sd_schedule s);
  rc_poll s := mk_scheduled (poll_acks (sd_journal s)) (sd_schedule s);
  rc_degraded s := is_degraded (sj_core (sd_journal s));
  rc_fully_durable s := is_fully_durable (sj_core (sd_journal s));
  rc_incarnation s := sc_incarnation (sj_core (sd_journal s));
  rc_move := list Move;
  rc_aside moves s := mk_scheduled (foldl apply_move (sd_journal s) moves) (sd_schedule s);
}.
End Scheduled.

Section Laws.
Context `{Crc32Fast, !Crc32FastLaws, ManifestSerde, !ManifestSerdeLaws}.
Context (limit inc : N) (ls : list ManifestLine).

(** Between calls: nothing waits and the sender is alive. *)
Definition at_rest (s : Scheduled) (published : list OrderedEvent) : Prop :=
  journal_ok limit inc ls False published (sd_journal s)
  ∧ sj_waiting (sd_journal s) = None ∧ sj_tx (sd_journal s) = true.

(** A move is a step of the appender, or nothing. *)
Lemma apply_move_step j m :
  apply_move j m = j ∨ jstep DEFAULT_SYNC_INTERVAL j [] (apply_move j m).
Proof.
  unfold apply_move. destruct m as [|now| |].
  - destruct (dequeue j) eqn:E; [right; by apply step_dequeue|by left].
  - destruct (handle _ _ j) eqn:E; [right; by eapply step_handle|by left].
  - destruct (timed_out _ j) eqn:E; [right; by apply step_timed_out|by left].
  - right. apply step_panic.
Qed.

(** No move touches the producer. *)
Lemma apply_move_producer j m :
  sj_core (apply_move j m) = sj_core j ∧ sj_waiting (apply_move j m) = sj_waiting j
  ∧ sj_tx (apply_move j m) = sj_tx j ∧ sj_stall_timeout (apply_move j m) = sj_stall_timeout j.
Proof.
  unfold apply_move. destruct m as [|now| |]; [| | |done].
  - unfold dequeue. destruct (sj_rx j), (sj_in_flight j), (sj_queue j); done.
  - unfold handle. destruct (sj_rx j), (sj_in_flight j) as [[]|]; done.
  - unfold timed_out. destruct (sj_rx j), (sj_in_flight j); done.
Qed.

Lemma apply_moves_ok moves j published :
  journal_ok limit inc ls False published j → len published + 2 <= u64_max →
  let j' := foldl apply_move j moves in
  journal_ok limit inc ls False published j'
  ∧ sj_core j' = sj_core j ∧ sj_waiting j' = sj_waiting j ∧ sj_tx j' = sj_tx j
  ∧ sj_stall_timeout j' = sj_stall_timeout j.
Proof.
  revert j. induction moves as [|m moves IH]; intros j Hok Hmax; [done|]. cbn [foldl].
  destruct (apply_move_producer j m) as (Hc & Hw & Ht & Hs).
  assert (journal_ok limit inc ls False published (apply_move j m)) as Hok'.
  { destruct (apply_move_step j m) as [-> |Hstep]; [done|].
    rewrite <- (app_nil_r published). eapply journal_ok_step; [done|done|]. change (len (@nil OrderedEvent)) with 0. lia. }
  destruct (IH _ Hok' Hmax) as (? & -> & -> & -> & ->). done.
Qed.

(** The outcome of an attempt. *)
Lemma record_retry_outcome elapsed j e :
  sj_waiting j = Some e → is_degraded (sj_core j) = false →
  let '(j', o) := record_retry elapsed j in
  sj_tx j' = sj_tx j ∧ sj_stall_timeout j' = sj_stall_timeout j ∧
  match o with
  | Some r => sj_waiting j' = None ∧ is_ok r = negb (is_degraded (sj_core j'))
  | None => sj_waiting j' = Some e ∧ is_degraded (sj_core j') = false ∧ elapsed < sj_stall_timeout j
  end.
Proof.
  intros Hw Hd. unfold record_retry. rewrite Hw. unfold retry_submit, try_send.
  destruct (negb (sj_rx j)); [|destruct (_ <=? _); [destruct (N.leb_spec (sj_stall_timeout j) elapsed)|]];
    cbn [submitted]; split_and!; cbn; try done; unfold is_degraded in *; cbn; destruct (sc_degraded (sj_core j)); done.
Qed.

Lemma wait_queued_ok attempts j published e :
  journal_ok limit inc ls False published j → len published + 2 <= u64_max →
  sj_waiting j = Some e → is_degraded (sj_core j) = false →
  let '(j', r) := wait_queued attempts j in
  journal_ok limit inc ls False published j' ∧ sj_waiting j' = None ∧ sj_tx j' = sj_tx j
  ∧ is_ok r = negb (is_degraded (sj_core j')).
Proof.
  revert j. induction attempts as [|[elapsed moves] attempts IH]; intros j Hok Hmax Hw Hd; cbn [wait_queued].
  - pose proof (journal_ok_retry _ _ _ _ _ j (sj_stall_timeout j) Hok) as Hok'.
    pose proof (record_retry_outcome (sj_stall_timeout j) j e Hw Hd) as Ho.
    destruct (record_retry _ j) as [j' [r|]]; cbn [fst] in *; destruct Ho as (Ht & _ & Ho); [|lia].
    by destruct Ho.
  - destruct (apply_moves_ok moves j published Hok Hmax) as (Hok1 & Hc1 & Hw1 & Ht1 & Hs1).
    set (j1 := foldl apply_move j moves) in *. clearbody j1. rewrite Hw in Hw1. rewrite <- Hc1 in Hd.
    pose proof (journal_ok_retry _ _ _ _ _ j1 elapsed Hok1) as Hok'.
    pose proof (record_retry_outcome elapsed j1 e Hw1 Hd) as Ho.
    destruct (record_retry elapsed j1) as [j' [r|]]; cbn [fst] in *; destruct Ho as (Ht & _ & Ho).
    + destruct Ho. split_and!; [done|done|by rewrite Ht|done].
    + destruct Ho as (Hw' & Hd' & _). specialize (IH j' Hok' Hmax Hw' Hd').
      destruct (wait_queued attempts j') as [j2 r]. by rewrite Ht, Ht1 in IH.
Qed.

(** What the first attempt leaves. *)
Lemma record_outcome now kind payload j :
  sj_waiting j = None →
  let '(j', o) := record now kind payload j in
  sj_tx j' = sj_tx j ∧
  match o with
  | Some r => sj_waiting j' = None ∧ is_ok r = negb (is_degraded (sj_core j'))
  | None => is_Some (sj_waiting j') ∧ is_degraded (sj_core j') = false
  end.
Proof.
  intros Hw. unfold record. cbv zeta. destruct (is_degraded (sj_core (poll_acks j))) eqn:Hd.
  { cbn beta iota. split; [done|]. split; [done|]. by rewrite Hd. }
  destruct (publish now kind payload (sj_core (poll_acks j))) as [e core] eqn:Hp.
  assert (sc_degraded core = sc_degraded (sj_core (poll_acks j))) as Hdc.
  { unfold publish in Hp. injection Hp as _ <-. destruct (over_cache_budget _); [|done].
    unfold evict_journaled. by destruct (evict _ _ _). }
  assert (is_degraded core = false) as Hdc' by (unfold is_degraded in *; by rewrite Hdc).
  unfold try_submit, try_send. destruct (_ <? _); [|destruct (negb _); [|destruct (_ <=? _)]];
    cbn [submitted]; split_and!; cbn; try done;
    unfold is_degraded in *; cbn; destruct (sc_degraded core); done.
Qed.

Lemma sj_core_poll_degraded j : is_degraded (sj_core j) = true → is_degraded (sj_core (poll_acks j)) = true.
Proof.
  intros Hd. destruct (same_degraded_acks (drop (sj_polled j) (sj_step j).2) (sj_core j) Hd) as [He _].
  unfold is_degraded in *. cbn. by rewrite He.
Qed.

Lemma request_sync_producer j :
  sj_core (request_sync j) = sj_core j ∧ sj_waiting (request_sync j) = sj_waiting j
  ∧ sj_tx (request_sync j) = sj_tx j.
Proof. unfold request_sync, try_send. by destruct (negb (sj_rx j)), (DEFAULT_QUEUE_CAPACITY <=? len (sj_queue j)). Qed.

Lemma published_by_len now kind payload j : len (published_by now kind payload j) <= 1.
Proof. unfold published_by. by destruct (is_degraded _). Qed.

(** A call of [record], to its return: the event it publishes, if any, is the
    log's next. *)
Lemma record_blocking_ok s published now kind payload :
  at_rest s published → len published + 3 <= u64_max →
  let '(s', r) := record_blocking now kind payload s in
  at_rest s' (published ++ published_by now kind payload (sd_journal s))
  ∧ is_ok r = negb (is_degraded (sj_core (sd_journal s'))).
Proof.
  intros (Hok & Hw & Ht) Hmax. unfold record_blocking.
  pose proof (journal_ok_record _ _ _ _ _ _ now kind payload Hok Hw ltac:(lia)) as Hok'.
  pose proof (record_outcome now kind payload (sd_journal s) Hw) as Ho.
  destruct (record now kind payload (sd_journal s)) as [j [r|]]; cbn [fst] in Hok'; destruct Ho as [Ht' Ho].
  - destruct Ho. split; [|done]. split_and!; [done|done|]. cbn. by rewrite Ht'.
  - destruct Ho as [[e Hw'] Hd'].
    pose proof (wait_queued_ok (default [] (head (sd_schedule s))) j _ e Hok') as Hwq.
    destruct (wait_queued _ j) as [j' r]. destruct Hwq as (? & ? & Htx & ?); [|done|done|].
    + rewrite len_app. pose proof (published_by_len now kind payload (sd_journal s)). lia.
    + split; [|done]. split_and!; [done|done|]. cbn. by rewrite Htx, Ht'.
Qed.

Lemma published_by_record now kind payload j published :
  core_ok (sj_core (poll_acks j)) published → len published + 3 <= u64_max →
  is_degraded (sj_core (poll_acks j)) = false →
  ∃ seq time, map record_of (published_by now kind payload j) = [mk_record kind seq time payload].
Proof.
  intros Hc Hmax Hd. unfold published_by. cbv zeta. rewrite Hd.
  destruct (core_ok_publish now kind payload _ _ Hc ltac:(lia)) as (_ & _ & Hk & Hp & _).
  cbn [map]. unfold record_of. rewrite Hk, Hp. by do 2 eexists.
Qed.

(** The session journal is what a session asks for. *)
#[refine] Definition scheduled_laws : RecorderLaws Scheduled := {|
  rc_log s es := ∃ published, at_rest s published ∧ es = map record_of published;
|}.
Proof.
  - intros s es now kind payload (published & Hs & ->) Hmax. rewrite len_map in Hmax.
    pose proof (record_blocking_ok s published now kind payload Hs Hmax) as Hr. cbn [rc_record scheduled_recorder].
    destruct (is_degraded (sj_core (poll_acks (sd_journal s)))) eqn:Hd.
    + unfold record_blocking, record in Hr |- *. cbv zeta in Hr |- *. rewrite Hd in Hr |- *.
      destruct Hr as [Hs' Hr]. split; [exact Hr|]. right. split; [exact Hd|]. exists published. split; [|done].
      unfold published_by in Hs'. cbv zeta in Hs'. by rewrite Hd, app_nil_r in Hs'.
    + destruct (record_blocking now kind payload s) as [s' r]. destruct Hr as [Hs' Hr]. split; [exact Hr|]. left.
      split. { destruct (is_degraded (sj_core (sd_journal s))) eqn:Hd0; [|done]. by apply sj_core_poll_degraded in Hd0; rewrite Hd in Hd0. }
      destruct (published_by_record now kind payload (sd_journal s) published) as (seq & time & He); [|done|done|].
      { destruct Hs as (Hok & _). apply journal_ok_poll in Hok. by destruct Hok. }
      exists seq, time, (published ++ published_by now kind payload (sd_journal s)). split; [done|]. by rewrite map_app, He.
  - intros s es (published & (Hok & Hw & Ht) & ->). exists published. split; [|done]. split_and!.
    + by apply journal_ok_request_sync.
    + cbn. by rewrite (proj1 (proj2 (request_sync_producer (sd_journal s)))).
    + cbn. by rewrite (proj2 (proj2 (request_sync_producer (sd_journal s)))).
  - intros s. cbn. by rewrite (proj1 (request_sync_producer (sd_journal s))).
  - intros s es (published & (Hok & Hw & Ht) & ->). exists published. split; [|done].
    split_and!; [by apply journal_ok_poll|done|done].
  - intros s. apply sj_core_poll_degraded.
  - intros moves s es (published & (Hok & Hw & Ht) & ->) Hmax. rewrite len_map in Hmax.
    exists published. split; [|done].
    destruct (apply_moves_ok moves (sd_journal s) published Hok ltac:(lia)) as (? & _ & Hw' & Ht' & _).
    split_and!; cbn; [done|by rewrite Hw'|by rewrite Ht'].
  - intros moves s. cbn. f_equal. induction moves as [|m moves IH] using rev_ind; [done|].
    rewrite foldl_app. cbn [foldl]. by rewrite (proj1 (apply_move_producer _ m)).
Defined.

(** What readers find in the session's directory. *)
Definition live_dir (s : Scheduled) : Dir := st_files (w_store (sj_step (sd_journal s)).1.2).

(** The records on disk are the beginning of the log, in the newest
    incarnation there is. *)
Lemma log_on_disk s es :
  @rc_log _ _ scheduled_laws s es →
  ∃ m rss t, holds (live_dir s) inc rss t ∧ concat rss = take m es
    ∧ last (list_incarnations (live_dir s)) = Some inc.
Proof.
  intros (published & (Hok & _ & _) & ->). destruct Hok as [_ (rc & lost & -> & _ & Hacc & Hhome & _) _ _ _ _ _ _ _].
  destruct Hacc as (_ & se & o & t & Hst & _ & Hpre & _).
  exists (length (concat se ++ o)), (se ++ [o]), t. split_and!; [by apply stored_holds| |].
  - rewrite concat_app. cbn [concat]. rewrite app_nil_r. destruct Hpre as [more Heq].
    rewrite map_app, Heq, <- (app_assoc (concat se ++ o)). by rewrite take_app_length.
  - destruct Hhome as (_ & _ & Htop). pose proof (stored_disk _ _ _ _ _ Hst) as Hd.
    apply (newest_listed _ inc (N.of_nat (length se) + 1)); [apply Hd|apply Hd|apply Hd| |exact Htop].
    unfold live_dir. by rewrite (sa_open _ _ _ _ Hd).
Qed.
End Laws.
