(* ===== verification/Runtime.v ===== *)
(** * The session runtime

    [SessionRuntime] of [src/src/session/runtime.rs] and the PTY reader thread
    [spawn_session] starts: the state one write lock guards, what the reader
    does with a chunk of the child's output, and what attaching clients, the
    status poll and the end of the process do around it.  The journal is any
    [Recorder], the terminal engine an interface; the clock, the child's exit
    and the operating system's answers are arguments.  The theorems say that
    the journal is honest about the stream clients are sent, that the end of a
    session is recorded once and in order, and that a failing journal stops
    the session unless a status poll notices the failure first. *)

From S2P Require Import Prelude Crc Utf8 Text RecordFormat SegmentScan Disk Manifest Open Retention.
From S2P Require Import Sequencer Stream Appender Journal Pump ProgramStatus Signals Scanner Replay Registry Recorder.

(** ** Session metadata, [src/src/session/mod.rs] *)

Inductive SessionStatus := Created | Running | Stopping | Stopped | Killed | Failed.

#[export] Instance SessionStatus_eq_dec : EqDecision SessionStatus.
Proof. solve_decision. Defined.

Definition status_as_str (s : SessionStatus) : bytes :=
  match s with
  | Created => bs "created"
  | Running => bs "running"
  | Stopping => bs "stopping"
  | Stopped => bs "stopped"
  | Killed => bs "killed"
  | Failed => bs "failed"
  end.

Record SessionMeta := mk_meta {
  sm_id : bytes;
  sm_title : option bytes;
  sm_tags : list bytes;
  sm_command : bytes;
  sm_args : list bytes;
  sm_cwd : option bytes;
  sm_created_at : N;
  sm_started_at : option N;
  sm_ended_at : option N;
  sm_resume_command : option bytes;
  sm_status : SessionStatus;
  sm_pid : option N;
  sm_exit_code : option Z;
  sm_notifications_enabled : bool;
  sm_foreground_color : option bytes;
  sm_background_color : option bytes;
}.

#[export] Instance SessionMeta_eta : Settable SessionMeta := λ m,
  mk_meta (sm_id m) (sm_title m) (sm_tags m) (sm_command m) (sm_args m) (sm_cwd m) (sm_created_at m)
    (sm_started_at m) (sm_ended_at m) (sm_resume_command m) (sm_status m) (sm_pid m) (sm_exit_code m)
    (sm_notifications_enabled m) (sm_foreground_color m) (sm_background_color m).

Definition MAX_SESSION_TITLE_LEN : nat := 256.

(** ** The PTY handle, [src/src/session/pty.rs] *)

(** The writer channel's queue and its receiver, the writer thread;
    [ph_open]: the handle's own sender was not replaced by a closed one;
    [ph_master]: the master end is still held; [ph_kills]: kill requests made. *)
Record PtyHandle := mk_pty {
  ph_open : bool;
  ph_queue : list bytes;
  ph_writer_alive : bool;
  ph_master : bool;
  ph_kills : N;
}.

#[export] Instance PtyHandle_eta : Settable PtyHandle := λ p,
  mk_pty (ph_open p) (ph_queue p) (ph_writer_alive p) (ph_master p) (ph_kills p).

Definition PTY_WRITER_QUEUE_CAPACITY : N := 4096.
Definition PTY_READ_BUFFER_BYTES : N := 64 * 1024.
Definition JOURNAL_CHECKPOINT_INTERVAL_BYTES : N := 32 * 1024 * 1024.

(** [TrySendError] of the bounded channel is [Full] or closed. *)
Definition try_write_input (data : bytes) (p : PtyHandle) : result TrySendError PtyHandle :=
  if negb (ph_open p && ph_writer_alive p) then Err Disconnected
  else if PTY_WRITER_QUEUE_CAPACITY <=? len (ph_queue p) then Err Full
  else Ok (p <| ph_queue := ph_queue p ++ [data] |>).

Definition close_writer (p : PtyHandle) : PtyHandle := p <| ph_open := false |>.
Definition take_master (p : PtyHandle) : PtyHandle := p <| ph_master := false |>.
Definition kill (p : PtyHandle) : PtyHandle := p <| ph_kills := ph_kills p + 1 |>.

(** [ok]: the operating system's answer. *)
Definition pty_resize (ok : bool) (p : PtyHandle) : bool := ph_master p && ok.

(** ** The terminal engine, [src/src/terminal/mod.rs] *)

Inductive EngineEvent :=
  | Respond (response : bytes)
  | Title (title : bytes)
  | Bell.

Record EngineModes := mk_engine_modes {
  em_app_cursor_keys : bool;
  em_bracketed_paste : bool;
  em_alt_screen : bool;
  em_mouse_report : bool;
  em_sgr_mouse : bool;
  em_focus_events : bool;
}.

(** The calls of the runtime on [Terminal]; [eng_feed] is [feed] followed by
    [drain_events]. *)
Class Engine := {
  engine : Type;
  eng_feed : bytes → engine → engine * list EngineEvent;
  eng_modes : engine → EngineModes;
  eng_size : engine → N * N;
  eng_cursor_position : engine → N * N;
  eng_resize : N → N → engine → engine;
  eng_snapshot_stream : engine → bytes;
  eng_styled_history_rows : N → engine → list bytes;
}.

(** [RetentionStats]. *)
Record RetentionStats := mk_stats {
  rs_bytes_retained : N;
  rs_sweep_count : N;
  rs_deleted_incarnations_total : N;
}.

(** [run_retention_sweep]: what the thread a checkpoint starts does. *)
Definition retained_bytes (effective_horizon : N) (d : Dir) (manifest : list SegmentManifestEntry) : N :=
  let latest_incarnation := last (list_incarnations d) in
  foldl u64_add 0 (map me_bytes
    (filter (λ entry, effective_horizon <= me_incarnation entry
                      ∨ Some (me_incarnation entry) = latest_incarnation) manifest)).

Section Sweep.
Context `{ManifestSerde}.

Definition effective_horizon (byte_cap : N) (d : Dir) : io_result N :=
  if byte_cap =? 0 then Ok 1
  else match min_incarnation_for_byte_budget byte_cap d with
       | Ok horizon => Ok horizon
       | Err _ => Ok 1
       end.

Definition bytes_after_sweep (horizon : N) (retention : RetentionStats) (d : Dir) : io_result N :=
  match read_manifest d with
  | Ok manifest => Ok (retained_bytes horizon d manifest)
  | Err _ => Ok (rs_bytes_retained retention)
  end.

Definition run_retention_sweep (byte_cap : N) (retention : RetentionStats) : disk RetentionStats :=
  horizon ← Disk.reads (effective_horizon byte_cap);
  deleted ← retain_before horizon;
  retained ← Disk.reads (bytes_after_sweep horizon retention);
  mret {| rs_bytes_retained := retained;
          rs_sweep_count := u64_add (rs_sweep_count retention) 1;
          rs_deleted_incarnations_total :=
            u64_add (rs_deleted_incarnations_total retention) (len deleted) |}.
End Sweep.

Section Runtime.
Context `{Base64, Engine} {J : Type} `{Recorder J}.

(** ** The runtime *)

(** [rt_resizes_sent] is what was sent on [resize_tx] so far. *)
Record SessionRuntime := mk_runtime {
  rt_meta : SessionMeta;
  rt_resizes_sent : list (N * N);
  rt_pty : PtyHandle;
  rt_pty_size : option (N * N);
  rt_resize_history : list LogResize;
  rt_completed_at : option N;
  rt_requested_final_status : option SessionStatus;
  rt_filtered_total_bytes : N;
  rt_last_total_bytes : N;
  rt_spawned_at : N;
  rt_last_output_epoch : option N;
  rt_last_input_at : option N;
  rt_last_attach_activity_at : option N;
  rt_attachments : AttachmentRegistry;
  rt_notified_output_epoch : option N;
  rt_engine : engine;
  rt_screen_scrollback_rows : N;
  rt_terminal_signals : TerminalSignals;
  rt_title_user_set : bool;
  rt_shared_modes : N;
  rt_output_closed : bool;
  rt_pending_journal_completion : option (LifecycleCode * option Z * bytes);
  rt_last_journal_checkpoint_at : N;
  rt_journaled_modes : option ModeSnapshot;
  rt_notifications_enabled : bool;
  rt_journal : option J;
  rt_journal_failed : bool;
  rt_retention : RetentionStats;
}.

#[export] Instance SessionRuntime_eta : Settable SessionRuntime := λ rt,
  mk_runtime (rt_meta rt) (rt_resizes_sent rt) (rt_pty rt) (rt_pty_size rt) (rt_resize_history rt)
    (rt_completed_at rt) (rt_requested_final_status rt) (rt_filtered_total_bytes rt)
    (rt_last_total_bytes rt) (rt_spawned_at rt) (rt_last_output_epoch rt) (rt_last_input_at rt)
    (rt_last_attach_activity_at rt) (rt_attachments rt) (rt_notified_output_epoch rt) (rt_engine rt)
    (rt_screen_scrollback_rows rt) (rt_terminal_signals rt) (rt_title_user_set rt) (rt_shared_modes rt)
    (rt_output_closed rt) (rt_pending_journal_completion rt) (rt_last_journal_checkpoint_at rt)
    (rt_journaled_modes rt) (rt_notifications_enabled rt) (rt_journal rt) (rt_journal_failed rt)
    (rt_retention rt).

(** *** Modes and output *)

Definition mode_snapshot (rt : SessionRuntime) : ModeSnapshot :=
  let modes := eng_modes (rt_engine rt) in
  {| app_cursor_keys := em_app_cursor_keys modes;
     bracketed_paste_mode := em_bracketed_paste modes;
     mouse_report := em_mouse_report modes;
     sgr_mouse := em_sgr_mouse modes;
     focus_events := em_focus_events modes |}.

Definition responses_of (events : list EngineEvent) : list bytes :=
  omap (λ e, match e with Respond r => Some r | Title _ | Bell => None end) events.

Definition feed_engine (raw : bytes) (rt : SessionRuntime) : SessionRuntime * list bytes :=
  let '(e, events) := eng_feed raw (rt_engine rt) in
  let rt := rt <| rt_engine := e |> in
  (rt <| rt_shared_modes := modes_store (mode_snapshot rt) |>, responses_of events).

Definition push_output (now : N) (filtered_data : bytes) (meaningful_len : N) (rt : SessionRuntime)
    : SessionRuntime :=
  if negb (len filtered_data =? 0) then
    let rt := rt <| rt_filtered_total_bytes := u64_sat_add (rt_filtered_total_bytes rt) (len filtered_data) |> in
    if 0 <? meaningful_len then
      rt <| rt_last_total_bytes := u64_sat_add (rt_last_total_bytes rt) meaningful_len |>
         <| rt_last_output_epoch := Some now |>
    else rt
  else rt.

Definition filtered_stream_len (rt : SessionRuntime) : N := rt_filtered_total_bytes rt.

Definition effective_output_epoch (rt : SessionRuntime) : N :=
  let statuses := program_statuses (rt_terminal_signals rt) in
  match ProgramStatus.current statuses with
  | Some _ => default (rt_spawned_at rt) (changed_at statuses)
  | None => default (rt_spawned_at rt) (rt_last_output_epoch rt)
  end.

Definition user_activity_epoch (rt : SessionRuntime) : option N :=
  match rt_last_input_at rt, rt_last_attach_activity_at rt with
  | Some input, Some attach => Some (N.max input attach)
  | Some input, None => Some input
  | None, attach => attach
  end.

Definition is_completed (rt : SessionRuntime) : bool :=
  match sm_status (rt_meta rt) with Stopped | Killed | Failed => true | _ => false end.

Definition input_needed (rt : SessionRuntime) : bool :=
  if negb (bool_decide (sm_status (rt_meta rt) = Running)) then false
  else
    match ProgramStatus.current (program_statuses (rt_terminal_signals rt)) with
    | Some report => match ps_state report with Idle | Done | Blocked | Error => true | _ => false end
    | None =>
        match rt_notified_output_epoch rt with
        | Some epoch => epoch =? effective_output_epoch rt
        | None => false
        end
    end.

(** *** Terminal signals *)

(** [str::chars().take(n)] collected. *)
Definition take_chars (n : nat) (l : bytes) : bytes :=
  match utf8_decode l with Some cs => utf8_encode (take n cs) | None => l end.

Definition apply_terminal_title (payload : bytes) (rt : SessionRuntime) : SessionRuntime * bool :=
  if rt_title_user_set rt then (rt, false)
  else
    let trimmed := trim (utf8_lossy payload) in
    if len trimmed =? 0 then (rt, false)
    else
      let title := take_chars MAX_SESSION_TITLE_LEN trimmed in
      if bool_decide (sm_title (rt_meta rt) = Some title) then (rt, false)
      else (rt <| rt_meta := rt_meta rt <| sm_title := Some title |> |>, true).

Definition apply_terminal_colors (signals : TerminalSignals) (rt : SessionRuntime)
    : SessionRuntime * bool :=
  let foreground := utf8_lossy <$> foreground_color signals in
  let background := utf8_lossy <$> background_color signals in
  let '(rt, changed) :=
    if bool_decide (sm_foreground_color (rt_meta rt) = foreground) then (rt, false)
    else (rt <| rt_meta := rt_meta rt <| sm_foreground_color := foreground |> |>, true) in
  if bool_decide (sm_background_color (rt_meta rt) = background) then (rt, changed)
  else (rt <| rt_meta := rt_meta rt <| sm_background_color := background |> |>, true).

Definition publish_terminal_signals (new : TerminalSignals) (rt : SessionRuntime)
    : SessionRuntime * bool :=
  let '(rt, title_adopted) :=
    match title new with Some t => apply_terminal_title t rt | None => (rt, false) end in
  let '(rt, colors_changed) := apply_terminal_colors new rt in
  let old := program_statuses (rt_terminal_signals rt) in
  let status_changed := negb (bool_decide (old = program_statuses new)) in
  let rt :=
    if bool_decide (ProgramStatus.current old = ProgramStatus.current (program_statuses new)) then rt
    else rt <| rt_notified_output_epoch := None |> in
  (rt <| rt_terminal_signals := new |>, title_adopted || colors_changed || status_changed).

Definition attach_snapshot_bytes (rt : SessionRuntime) : bytes :=
  (if em_alt_screen (eng_modes (rt_engine rt)) then x1b :: bs "[?1049h" else [])
  ++ eng_snapshot_stream (rt_engine rt) ++ restore_bytes (rt_terminal_signals rt).

Definition set_notifications_enabled (enabled : bool) (rt : SessionRuntime) : SessionRuntime :=
  if bool_decide (rt_notifications_enabled rt = enabled) then rt
  else rt <| rt_notifications_enabled := enabled |>
          <| rt_meta := rt_meta rt <| sm_notifications_enabled := enabled |> |>.

(** *** Recording *)

(** [journal_event]: the call on the journal, and the fail-loud flag. *)
Definition journal_event (record : J → J * result JournalSubmitError JournalCursor)
    (rt : SessionRuntime) : SessionRuntime :=
  match rt_journal rt with
  | None => rt
  | Some journal =>
      let was_degraded := rc_degraded journal in
      let '(journal, r) := record journal in
      let rt := rt <| rt_journal := Some journal |> in
      if negb (is_ok r) && negb was_degraded then rt <| rt_journal_failed := true |> else rt
  end.

Definition journal_output (now : N) (payload : bytes) : SessionRuntime → SessionRuntime :=
  journal_event (rc_record now Output payload).

(** [record_policy] refuses what could not be parsed back. *)
Definition record_policy_event (now : N) (key value : bytes) (journal : J)
    : J * result JournalSubmitError JournalCursor :=
  if policy_refused key value then (journal, Err (InvalidEvent key))
  else rc_record now Policy (policy_payload key value) journal.

Definition journal_policy (now : N) (key value : bytes) : SessionRuntime → SessionRuntime :=
  journal_event (record_policy_event now key value).

Definition journal_resize (now rows cols : N) : SessionRuntime → SessionRuntime :=
  journal_event (rc_record now Resize (encode_resize_payload rows cols)).

Definition journal_lifecycle (now : N) (code : LifecycleCode) (exit_code : option Z) (detail : bytes)
    : SessionRuntime → SessionRuntime :=
  journal_event (rc_record now Lifecycle (encode_lifecycle_payload code exit_code detail)).

Definition show_bit (b : bool) : bytes := if b then bs "1" else bs "0".

Definition modes_value (m : ModeSnapshot) : bytes :=
  bs "app_cursor_keys=" ++ show_bit (app_cursor_keys m)
  ++ bs ",bracketed_paste=" ++ show_bit (bracketed_paste_mode m)
  ++ bs ",mouse_report=" ++ show_bit (mouse_report m)
  ++ bs ",sgr_mouse=" ++ show_bit (sgr_mouse m)
  ++ bs ",focus_events=" ++ show_bit (focus_events m).

Definition journal_modes_if_changed (now : N) (rt : SessionRuntime) : SessionRuntime :=
  let current := modes_load (rt_shared_modes rt) in
  if bool_decide (rt_journaled_modes rt = Some current) then rt
  else journal_policy now (bs "modes") (modes_value current) rt <| rt_journaled_modes := Some current |>.

(** The checkpoint of the current state. *)
Definition checkpoint_of (anchored : bool) (rt : SessionRuntime) : Checkpoint :=
  let e := rt_engine rt in
  let modes := eng_modes e in
  {| cp_rows := (eng_size e).1; cp_cols := (eng_size e).2; cp_cursor := eng_cursor_position e;
     cp_alt_screen := em_alt_screen modes; cp_app_cursor_keys := em_app_cursor_keys modes;
     cp_bracketed_paste := em_bracketed_paste modes;
     cp_filtered_offset := if anchored then rt_filtered_total_bytes rt else 0;
     cp_program :=
       concat (map (λ row, row ++ [x0d; x0a])
                 (eng_styled_history_rows (rt_screen_scrollback_rows rt) e))
       ++ eng_snapshot_stream e |}.

(** The sweep it starts runs on a thread of its own: [run_retention_sweep]. *)
Definition journal_checkpoint (now : N) (anchored : bool) (rt : SessionRuntime) : SessionRuntime :=
  match rt_journal rt with
  | None => rt
  | Some _ =>
      let checkpoint := checkpoint_of anchored rt in
      let rt := journal_event (rc_record now CheckpointRef (encode_checkpoint checkpoint)) rt in
      rt <| rt_last_journal_checkpoint_at := rt_filtered_total_bytes rt |>
  end.

Definition journal_checkpoint_if_due (now : N) (scanner_idle : bool) (rt : SessionRuntime)
    : SessionRuntime :=
  if JOURNAL_CHECKPOINT_INTERVAL_BYTES <=? rt_filtered_total_bytes rt - rt_last_journal_checkpoint_at rt
  then journal_checkpoint now scanner_idle rt else rt.

(** *** Geometry *)

Definition resize_pty (now : N) (ok : bool) (rows cols : N) (rt : SessionRuntime)
    : SessionRuntime * bool :=
  if (rows =? 0) || (cols =? 0) then (rt, false)
  else if bool_decide (rt_pty_size rt = Some (rows, cols)) then (rt, true)
  else if pty_resize ok (rt_pty rt) then
    let rt := rt <| rt_pty_size := Some (rows, cols) |>
                 <| rt_engine := eng_resize rows cols (rt_engine rt) |>
                 <| rt_resize_history :=
                      rt_resize_history rt ++ [mk_resize (rt_filtered_total_bytes rt) rows cols] |> in
    let rt := journal_resize now rows cols rt in
    (rt <| rt_resizes_sent := rt_resizes_sent rt ++ [(rows, cols)] |>, true)
  else (rt, false).

(** *** Attachments *)

Definition register_attachment (now : N) (ok : bool) (kind : AttachKind) (role : AttachRole)
    (viewport : option (N * N)) (rt : SessionRuntime) : SessionRuntime * (N * AttachRole * bool) :=
  let rt := rt <| rt_last_attach_activity_at := Some now |> in
  let '(registry, (id, role)) := register now kind role viewport (rt_attachments rt) in
  let rt := rt <| rt_attachments := registry |> in
  match role, viewport with
  | Controller, Some (rows, cols) =>
      if (0 <? rows) && (0 <? cols) then
        let '(rt, resized) := resize_pty now ok rows cols rt in (rt, (id, role, resized))
      else (rt, (id, role, false))
  | _, _ => (rt, (id, role, false))
  end.

Definition mark_attach_activity (now : N) (rt : SessionRuntime) : SessionRuntime :=
  rt <| rt_last_attach_activity_at := Some now |>.

(** Presence leaves no state of its own to clear. *)
Definition clear_attach_state (rt : SessionRuntime) : SessionRuntime := rt.

Definition unregister_attachment (attachment_id : N) (rt : SessionRuntime) : SessionRuntime :=
  let rt := rt <| rt_attachments := (unregister attachment_id (rt_attachments rt)).1 |> in
  if is_empty (rt_attachments rt) then clear_attach_state rt else rt.

(** *** The end of a session *)

Definition journal_terminal_end (now : N) (code : LifecycleCode) (exit_code : option Z) (detail : bytes)
    (rt : SessionRuntime) : SessionRuntime :=
  let rt := journal_lifecycle now code exit_code detail rt in
  match rt_journal rt with
  | Some journal => rt <| rt_journal := Some (rc_sync journal) |>
  | None => rt
  end.

Definition queue_journal_completion (now : N) (code : LifecycleCode) (exit_code : option Z)
    (detail : bytes) (rt : SessionRuntime) : SessionRuntime :=
  if rt_output_closed rt then journal_terminal_end now code exit_code detail rt
  else rt <| rt_pending_journal_completion := Some (code, exit_code, detail) |>.

(** On platforms other than Windows the master is dropped at once. *)
Definition teardown_pty (rt : SessionRuntime) : SessionRuntime :=
  rt <| rt_pty := take_master (close_writer (rt_pty rt)) |>.

Definition end_detail (meta : SessionMeta) : bytes :=
  match sm_status meta with
  | Stopped => bs "session stopped exit_code=" ++ show_int (default 0%Z (sm_exit_code meta))
  | Killed => bs "session killed exit_code=" ++ show_int (default (-1)%Z (sm_exit_code meta))
  | Failed => bs "session failed exit_code=" ++ show_int (default (-1)%Z (sm_exit_code meta))
  | other => bs "session ended status=" ++ status_as_str other
  end.

Definition end_code (status : SessionStatus) : option LifecycleCode :=
  match status with
  | Stopped => Some RecordFormat.Stopped
  | Killed => Some RecordFormat.Killed
  | Failed => Some RecordFormat.Failed
  | _ => None
  end.

Definition mark_completed (now : N) (status : SessionStatus) (exit_code : option Z)
    (rt : SessionRuntime) : SessionRuntime :=
  let newly_ended := bool_decide (sm_ended_at (rt_meta rt) = None) in
  let meta := rt_meta rt in
  let meta := if newly_ended then meta <| sm_ended_at := Some now |> else meta in
  let meta := meta <| sm_status := status |> in
  let meta := match exit_code with
              | Some code => meta <| sm_exit_code := Some code |>
              | None => meta
              end in
  let rt := rt <| rt_meta := meta |> <| rt_requested_final_status := None |> in
  let rt := match rt_completed_at rt with None => rt <| rt_completed_at := Some now |> | Some _ => rt end in
  let rt := teardown_pty rt in
  let event := end_detail (rt_meta rt) in
  if newly_ended then
    match end_code (sm_status (rt_meta rt)) with
    | Some code => queue_journal_completion now code exit_code event rt
    | None => rt
    end
  else rt.

(** [exited]: what [try_wait] finds. *)
Definition refresh_status (now : N) (exited : io_result (option Z)) (rt : SessionRuntime)
    : SessionRuntime * bool :=
  let rt := match rt_journal rt with
            | Some journal => rt <| rt_journal := Some (rc_poll journal) |>
            | None => rt
            end in
  if is_completed rt then
    (match rt_completed_at rt with None => rt <| rt_completed_at := Some now |> | Some _ => rt end, true)
  else
    match exited with
    | Ok (Some code) =>
        let status := default (if (code =? 0)%Z then Stopped else Failed) (rt_requested_final_status rt) in
        (mark_completed now status (Some code) rt, true)
    | Ok None =>
        (if bool_decide (sm_status (rt_meta rt) = Stopping) then rt
         else rt <| rt_meta := rt_meta rt <| sm_status := Running |> |>, false)
    | Err _ => (mark_completed now Failed None rt, true)
    end.

Definition close_output_stream_at_boundary (now : N) (detail : bytes) (scanner_idle : bool)
    (rt : SessionRuntime) : SessionRuntime :=
  if rt_output_closed rt then rt
  else
    let rt := rt <| rt_output_closed := true |> in
    let signals := rt_terminal_signals rt in
    let rt := rt <| rt_terminal_signals :=
                set_statuses signals (drop_transient now (program_statuses signals)).2 |> in
    let rt := journal_lifecycle now OutputClosed None detail rt in
    let rt := journal_checkpoint now scanner_idle rt in
    match rt_pending_journal_completion rt with
    | Some (code, exit_code, completion_detail) =>
        journal_terminal_end now code exit_code completion_detail
          (rt <| rt_pending_journal_completion := None |>)
    | None => rt
    end.

(** *** Summary flags *)

Definition has_active_attach_client (rt : SessionRuntime) : bool := negb (is_empty (rt_attachments rt)).
Definition journal_incarnation (rt : SessionRuntime) : option N := rc_incarnation <$> rt_journal rt.
End Runtime.
