(* ===== verification/Session.v ===== *)
(** * A session at work

    The PTY reader thread of [spawn_session] ([src/src/session/runtime.rs])
    and, between its steps, everything that takes the runtime's lock: clients
    that attach, resize and type, the status poll, the end of the process, the
    writer and the appender threads.  A run is any sequence of such steps.
    The theorems say what a run leaves in the journal and on the broadcast
    channel, in which order a session's end is recorded, and when a failing
    journal stops it. *)

From S2P Require Import Prelude Crc Utf8 Text RecordFormat SegmentScan Disk Manifest Open Retention.
From S2P Require Import Sequencer Stream Appender Journal Pump ProgramStatus Signals Scanner Replay Registry Recorder Runtime.

(** The reader thread: its scanner, what it has still to broadcast and to
    answer for the chunk in hand, and why it left its loop. *)
Record PtyReader := mk_pty_reader {
  pr_scanner : PtyScanner;
  pr_outbox : option SequencedChunk;
  pr_responses : list bytes;
  pr_closing : option bytes;
}.

#[export] Instance PtyReader_eta : Settable PtyReader := λ r,
  mk_pty_reader (pr_scanner r) (pr_outbox r) (pr_responses r) (pr_closing r).

Section Session.
Context `{Base64, Engine} {J : Type} `{Recorder J}.

(** [ss_broadcast]: the chunks sent so far; [ss_stream], which the program
    does not keep: everything the reader's scanner has shown. *)
Record Session := mk_session {
  ss_runtime : SessionRuntime (J:=J);
  ss_reader : PtyReader;
  ss_broadcast : list SequencedChunk;
  ss_stream : bytes;
}.

#[export] Instance Session_eta : Settable Session := λ s,
  mk_session (ss_runtime s) (ss_reader s) (ss_broadcast s) (ss_stream s).

(** The first records of a session; their outcome is ignored. *)
Definition first_records (now rows cols : N) (pid : bytes) (journal : J) : J :=
  let journal := (rc_record now Resize (encode_resize_payload rows cols) journal).1 in
  (rc_record now Lifecycle
     (encode_lifecycle_payload Started None (bs "session started pid=" ++ pid)) journal).1.

(** The runtime [spawn_session] builds once the child runs. *)
Definition spawn_session (now : N) (meta : SessionMeta) (rows cols : N) (notifications : bool)
    (scrollback : N) (e : engine) (journal : J) : SessionRuntime :=
  let pid := match sm_pid meta with Some pid => show_dec pid | None => bs "?" end in
  let meta := meta <| sm_notifications_enabled := notifications |> in
  {| rt_meta := meta; rt_resizes_sent := [];
     rt_pty := mk_pty true [] true true 0; rt_pty_size := Some (rows, cols);
     rt_resize_history := [mk_resize 0 rows cols]; rt_completed_at := None;
     rt_requested_final_status := None; rt_filtered_total_bytes := 0; rt_last_total_bytes := 0;
     rt_spawned_at := now; rt_last_output_epoch := None; rt_last_input_at := None;
     rt_last_attach_activity_at := None; rt_attachments := empty_registry;
     rt_notified_output_epoch := None; rt_engine := e; rt_screen_scrollback_rows := scrollback;
     rt_terminal_signals := no_signals; rt_title_user_set := bool_decide (is_Some (sm_title meta));
     rt_shared_modes := 0; rt_output_closed := false; rt_pending_journal_completion := None;
     rt_last_journal_checkpoint_at := 0; rt_journaled_modes := None;
     rt_notifications_enabled := notifications;
     rt_journal := Some (first_records now rows cols pid journal); rt_journal_failed := false;
     rt_retention := mk_stats 0 0 0 |}.

Definition spawned (rt : SessionRuntime) : Session :=
  mk_session rt (mk_pty_reader new_scanner None [] None) [] [].

(** ** The reader thread *)

(** What the reader does with a chunk under the write lock; [Some] detail when
    a journal failure stops it. *)
Definition ingest (now : N) (data filtered : bytes) (meaningful_len : N)
    (changed_signals : option TerminalSignals) (scanner_idle : bool) (rt : SessionRuntime)
    : SessionRuntime * (list bytes * N * option bytes) :=
  let rt := journal_output now data rt in
  let '(rt, query_responses) := feed_engine data rt in
  let rt := match changed_signals with
            | Some signals => (publish_terminal_signals signals rt).1
            | None => rt
            end in
  let rt := push_output now filtered meaningful_len rt in
  let chunk_offset := filtered_stream_len rt - len filtered in
  let rt := journal_modes_if_changed now rt in
  let rt := journal_checkpoint_if_due now scanner_idle rt in
  if rt_journal_failed rt then
    (rt <| rt_requested_final_status := Some Failed |> <| rt_pty := kill (rt_pty rt) |>,
     (query_responses, chunk_offset, Some (bs "journal failed; stopping session (ADR-0006)")))
  else (rt, (query_responses, chunk_offset, None)).

Definition idle_reader (r : PtyReader) : bool :=
  match pr_outbox r, pr_responses r, pr_closing r with None, [], None => true | _, _, _ => false end.

(** A successful read, up to the end of the locked section. *)
Definition read_chunk (now : N) (data : bytes) (s : Session) : Session :=
  let r := ss_reader s in
  if negb (idle_reader r) then s
  else
    let '(scanner, out) := scan false now (pr_scanner r) data in
    let '(changed_signals, scanner) := take_changed_signals scanner in
    let '(rt, (query_responses, chunk_offset, journal_stop)) :=
      ingest now data (filtered out) (meaningful_bytes out) changed_signals (is_idle scanner) (ss_runtime s) in
    let stream := ss_stream s ++ filtered out in
    match journal_stop with
    | Some detail => mk_session rt (mk_pty_reader scanner None [] (Some detail)) (ss_broadcast s) stream
    | None =>
        let outbox := if len (filtered out) =? 0 then None else Some (mk_chunk chunk_offset (filtered out)) in
        mk_session rt (mk_pty_reader scanner outbox (responses out ++ query_responses) None)
          (ss_broadcast s) stream
    end.

(** The broadcast, after the lock is released. *)
Definition broadcast_chunk (s : Session) : Session :=
  match pr_outbox (ss_reader s) with
  | Some chunk => s <| ss_reader := ss_reader s <| pr_outbox := None |> |>
                    <| ss_broadcast := ss_broadcast s ++ [chunk] |>
  | None => s
  end.

(** One response: [blocking_send] on the reader's own sender waits while the
    queue is full; a writer that is gone drops the rest. *)
Definition answer (s : Session) : Session :=
  match pr_outbox (ss_reader s), pr_responses (ss_reader s) with
  | None, response :: rest =>
      let p := rt_pty (ss_runtime s) in
      if negb (ph_writer_alive p) then s <| ss_reader := ss_reader s <| pr_responses := [] |> |>
      else if PTY_WRITER_QUEUE_CAPACITY <=? len (ph_queue p) then s
      else s <| ss_reader := ss_reader s <| pr_responses := rest |> |>
             <| ss_runtime := ss_runtime s <| rt_pty := p <| ph_queue := ph_queue p ++ [response] |> |> |>
  | _, _ => s
  end.

(** End of file or a read error ends the loop. *)
Definition end_reading (detail : bytes) (s : Session) : Session :=
  if idle_reader (ss_reader s) then s <| ss_reader := ss_reader s <| pr_closing := Some detail |> |> else s.

(** The one close-out every exit path funnels into. *)
Definition close_out (now : N) (s : Session) : Session :=
  match pr_closing (ss_reader s) with
  | Some detail =>
      s <| ss_runtime := close_output_stream_at_boundary now detail (is_idle (pr_scanner (ss_reader s)))
                           (ss_runtime s) |>
  | None => s
  end.

(** ** Everything else that takes the lock *)

Inductive SessionOp :=
  | OpRead (now : N) (data : bytes)
  | OpBroadcast
  | OpAnswer
  | OpEndReading (detail : bytes)
  | OpCloseOut (now : N)
  | OpAside (m : rc_move (J:=J))
  | OpWriterTakes
  | OpWriterGone
  | OpAttach (now : N) (ok : bool) (kind : AttachKind) (role : AttachRole) (viewport : option (N * N))
  | OpDetach (id : N)
  | OpApplied (id cursor : N)
  | OpResize (now : N) (ok : bool) (rows cols : N)
  | OpActivity (now : N)
  | OpInput (now : N) (data : bytes)
  | OpTick (now : N) (exited : io_result (option Z))
  | OpComplete (now : N) (status : SessionStatus) (exit_code : option Z)
  | OpRequest (status : SessionStatus)
  | OpNotify (epoch : N).

Definition on_runtime (f : SessionRuntime → SessionRuntime) (s : Session) : Session :=
  s <| ss_runtime := f (ss_runtime s) |>.

Definition session_step (s : Session) (op : SessionOp) : Session :=
  match op with
  | OpRead now data => read_chunk now data s
  | OpBroadcast => broadcast_chunk s
  | OpAnswer => answer s
  | OpEndReading detail => end_reading detail s
  | OpCloseOut now => close_out now s
  | OpAside m => on_runtime (λ rt, match rt_journal rt with
                                   | Some j => rt <| rt_journal := Some (rc_aside m j) |>
                                   | None => rt
                                   end) s
  | OpWriterTakes => on_runtime (λ rt, rt <| rt_pty := rt_pty rt <| ph_queue := tail (ph_queue (rt_pty rt)) |> |>) s
  | OpWriterGone => on_runtime (λ rt, rt <| rt_pty := rt_pty rt <| ph_writer_alive := false |> |>) s
  | OpAttach now ok kind role viewport => on_runtime (λ rt, (register_attachment now ok kind role viewport rt).1) s
  | OpDetach id => on_runtime (unregister_attachment id) s
  | OpApplied id cursor =>
      on_runtime (λ rt, rt <| rt_attachments := report_applied id cursor (rt_attachments rt) |>) s
  | OpResize now ok rows cols => on_runtime (λ rt, (resize_pty now ok rows cols rt).1) s
  | OpActivity now => on_runtime (mark_attach_activity now) s
  | OpInput now data =>
      on_runtime (λ rt, match try_write_input data (rt_pty rt) with
                        | Ok p => mark_attach_activity now (rt <| rt_pty := p |>) <| rt_last_input_at := Some now |>
                        | Err _ => rt
                        end) s
  | OpTick now exited => on_runtime (λ rt, (refresh_status now exited rt).1) s
  | OpComplete now status exit_code => on_runtime (mark_completed now status exit_code) s
  | OpRequest status =>
      on_runtime (λ rt, if is_completed rt then rt
                        else rt <| rt_requested_final_status := Some status |>
                                <| rt_meta := rt_meta rt <| sm_status := Stopping |> |>) s
  | OpNotify epoch => on_runtime (λ rt, rt <| rt_notified_output_epoch := Some epoch |>) s
  end.

Definition session_run (s : Session) (ops : list SessionOp) : Session := foldl session_step s ops.

Definition final_status (s : SessionStatus) : bool :=
  match s with Stopped | Killed | Failed => true | _ => false end.

(** Rows and columns are 16-bit, and callers ask for a final status. *)
Definition op_ok (op : SessionOp) : Prop :=
  match op with
  | OpResize _ _ rows cols => rows <= u16_max ∧ cols <= u16_max
  | OpAttach _ _ _ _ (Some (rows, cols)) => rows <= u16_max ∧ cols <= u16_max
  | OpComplete _ status _ | OpRequest status => final_status status = true
  | _ => True
  end.
End Session.

(** ** What the journal says about the stream *)

Section Logged.
Context `{Base64}.

(** A log [es] against what happened: the scanner carries [carried] after
    showing [stream], and the geometry changed as in [history].  A degraded
    journal has the beginning of it. *)
Record logged (carried stream : bytes) (history : list LogResize) (es : list Rec) (degraded : bool)
    : Prop := {
  lo_honest : honest es;
  lo_stream : display_stream es `prefix_of` stream;
  lo_history : resize_history [] 0 es `prefix_of` history;
  lo_live : degraded = false → shown [] es = (carried, stream) ∧ resize_history [] 0 es = history;
}.

Lemma logged_degraded carried stream history es d :
  logged carried stream history es d → logged carried stream history es true.
Proof. intros [? ? ? _]. by split. Qed.

(** While degraded, whatever goes on leaves the log behind. *)
Lemma logged_behind carried stream history es carried' more history' :
  logged carried stream history es true → history `prefix_of` history' →
  logged carried' (stream ++ more) history' es true.
Proof.
  intros [Hh Hs Hr _] Hp. split; [done| |by etrans|done]. etrans; [done|]. by eexists.
Qed.

Lemma honest_snoc es r :
  honest es →
  (anchored r = true → 0 < le_value (rec_payload r)@[15, 23] →
     (shown [] es).1 = [] ∧ len (display_stream es) = le_value (rec_payload r)@[15, 23]) →
  honest (es ++ [r]).
Proof.
  intros Hh Hr before x after Heq Ha Hpos. destruct after as [|y after _] using rev_ind.
  - apply app_inj_tail in Heq as [-> ->]. by apply Hr.
  - rewrite app_comm_cons, app_assoc in Heq. apply app_inj_tail in Heq as [-> ->]. by eapply Hh.
Qed.

Lemma resize_history_snoc carried pos es r :
  resize_history carried pos (es ++ [r])
  = resize_history carried pos es ++ resize_at (pos + len (shown carried es).2) r.
Proof.
  revert carried pos. induction es as [|e es IH]; intros carried pos; cbn [app resize_history shown].
  - cbn [snd]. change (len (@nil byte)) with 0. rewrite N.add_0_r. case_bool_decide as Hk; [|by rewrite app_nil_r].
    unfold resize_at. rewrite (bool_decide_eq_false_2 (rec_kind r = Resize)) by congruence. by destruct (display _ _).
  - case_bool_decide; [|by rewrite IH, app_assoc]. destruct (display carried (rec_payload e)) as [c out].
    rewrite IH. destruct (shown c es) as [c' rest]. cbn [snd]. by rewrite len_app, N.add_assoc.
Qed.

Lemma shown_snoc es r carried stream :
  shown [] es = (carried, stream) →
  shown [] (es ++ [r])
  = if bool_decide (rec_kind r = Output)
    then ((display carried (rec_payload r)).1, stream ++ (display carried (rec_payload r)).2)
    else (carried, stream).
Proof.
  intros He. rewrite shown_app, He. cbn [shown]. case_bool_decide; [|by rewrite app_nil_r].
  destruct (display carried _). cbn [fst snd]. by rewrite app_nil_r.
Qed.

(** A record of output is a chunk the scanner took. *)
Lemma logged_output carried stream history es r :
  logged carried stream history es false → rec_kind r = Output →
  logged (display carried (rec_payload r)).1 (stream ++ (display carried (rec_payload r)).2) history
    (es ++ [r]) false.
Proof.
  intros [Hh Hs Hr Hl] Hk. destruct (Hl eq_refl) as [Hsh Hhi].
  assert (resize_history [] 0 (es ++ [r]) = history) as Hhi'.
  { rewrite resize_history_snoc, Hhi. unfold resize_at. rewrite (bool_decide_eq_false_2 (rec_kind r = Resize)) by congruence. apply app_nil_r. }
  pose proof (shown_snoc es r _ _ Hsh) as Hsh'. rewrite bool_decide_eq_true_2 in Hsh' by done.
  split; [|by unfold display_stream; rewrite Hsh'|by rewrite Hhi'|done].
  apply honest_snoc; [done|]. intros Ha%anchored_kind. congruence.
Qed.

(** Any other record shows nothing; a resize enters the history. *)
Lemma logged_other carried stream history es r :
  logged carried stream history es false → rec_kind r ≠ Output →
  (anchored r = true → 0 < le_value (rec_payload r)@[15, 23] →
     carried = [] ∧ len stream = le_value (rec_payload r)@[15, 23]) →
  logged carried stream (history ++ resize_at (len stream) r) (es ++ [r]) false.
Proof.
  intros [Hh Hs Hr Hl] Hk Ha. destruct (Hl eq_refl) as [Hsh Hhi].
  pose proof (shown_snoc es r _ _ Hsh) as Hsh'. rewrite bool_decide_eq_false_2 in Hsh' by done.
  assert (resize_history [] 0 (es ++ [r]) = history ++ resize_at (len stream) r) as Hhi'.
  { rewrite resize_history_snoc, Hhi, Hsh. cbn [snd]. by rewrite N.add_0_l. }
  split; [|by unfold display_stream; rewrite Hsh'|by rewrite Hhi'|done].
  apply honest_snoc; [done|]. unfold display_stream. rewrite Hsh. cbn [fst snd]. done.
Qed.

Lemma logged_silent carried stream history es r :
  logged carried stream history es false → rec_kind r ≠ Output → rec_kind r ≠ Resize →
  (anchored r = true → 0 < le_value (rec_payload r)@[15, 23] →
     carried = [] ∧ len stream = le_value (rec_payload r)@[15, 23]) →
  logged carried stream history (es ++ [r]) false.
Proof.
  intros Hl Hk Hk' Ha. pose proof (logged_other _ _ _ _ _ Hl Hk Ha) as Hl'. unfold resize_at in Hl'.
  by rewrite (bool_decide_eq_false_2 (rec_kind r = Resize)), app_nil_r in Hl'.
Qed.
End Logged.

(** ** How a session's end is recorded *)

(** The code a lifecycle record begins with. *)
Definition lifecycle_code (r : Rec) : option LifecycleCode :=
  if bool_decide (rec_kind r = Lifecycle) then LifecycleCode_from_u8 (le_value (rec_payload r)@[0, 1])
  else None.

Definition codes (es : list Rec) : list LifecycleCode := omap lifecycle_code es.

Definition opt_list {A} (o : option A) : list A := from_option (λ x, [x]) [] o.

(** The lifecycle of a session whose output is closed or not and whose end, if
    it has come, is [ending]. *)
Definition script (closed : bool) (ending : option LifecycleCode) : list LifecycleCode :=
  Started :: if closed then OutputClosed :: opt_list ending else [].

Definition final_codes : list LifecycleCode :=
  [RecordFormat.Stopped; RecordFormat.Killed; RecordFormat.Failed].

(** A log follows the script, with all output before its second line. *)
Record follows (closed : bool) (ending : option LifecycleCode) (es : list Rec) (degraded : bool) : Prop := {
  fo_codes : codes es `prefix_of` script closed ending;
  fo_live : degraded = false → codes es = script closed ending;
  fo_outputs before r after :
    es = before ++ r :: after → rec_kind r = Output → OutputClosed ∉ codes before;
}.

Lemma codes_snoc es r : codes (es ++ [r]) = codes es ++ opt_list (lifecycle_code r).
Proof. unfold codes. rewrite omap_app. cbn. by destruct (lifecycle_code r). Qed.

Lemma follows_degraded closed ending es d : follows closed ending es d → follows closed ending es true.
Proof. intros [? ? ?]. by split. Qed.

Lemma follows_behind closed ending closed' ending' es :
  follows closed ending es true → script closed ending `prefix_of` script closed' ending' →
  follows closed' ending' es true.
Proof. intros [Hc _ Ho] Hp. split; [by etrans|done|done]. Qed.

(** One more record, which adds what the script adds. *)
Lemma follows_snoc closed ending closed' ending' es r :
  follows closed ending es false →
  script closed' ending' = script closed ending ++ opt_list (lifecycle_code r) →
  (rec_kind r = Output → closed = false) →
  follows closed' ending' (es ++ [r]) false.
Proof.
  intros [_ Hl Ho] Hs Hout. specialize (Hl eq_refl).
  assert (codes (es ++ [r]) = script closed' ending') as Hc by (by rewrite codes_snoc, Hl, Hs).
  split; [by rewrite Hc|done|]. intros before x after Heq Hk.
  destruct after as [|y after _] using rev_ind.
  - apply app_inj_tail in Heq as [-> ->]. rewrite Hl, (Hout Hk). cbn. set_solver.
  - rewrite app_comm_cons, app_assoc in Heq. apply app_inj_tail in Heq as [-> ->]. by eapply Ho.
Qed.

Lemma lifecycle_code_other r : rec_kind r ≠ Lifecycle → lifecycle_code r = None.
Proof. intros Hk. unfold lifecycle_code. by rewrite (bool_decide_eq_false_2 (rec_kind r = Lifecycle)). Qed.

Lemma lifecycle_code_encode seq time code exit_code detail :
  lifecycle_code (mk_record Lifecycle seq time (encode_lifecycle_payload code exit_code detail)) = Some code.
Proof. unfold lifecycle_code. rewrite bool_decide_eq_true_2 by done. by destruct code. Qed.

(** ** One call on the journal *)

Section Events.
Context `{Base64, Engine} {J : Type} `{Recorder J, !RecorderLaws J}.

(** What the journal's promises are about. *)
Record View := mk_view {
  vw_journal : option J;
  vw_failed : bool;
  vw_total : N;
  vw_history : list LogResize;
  vw_closed : bool;
  vw_pending : option LifecycleCode;
  vw_ended : option N;
  vw_status : SessionStatus;
  vw_requested : option SessionStatus;
}.

Definition view_of (rt : SessionRuntime (J:=J)) : View :=
  {| vw_journal := rt_journal rt; vw_failed := rt_journal_failed rt;
     vw_total := rt_filtered_total_bytes rt; vw_history := rt_resize_history rt;
     vw_closed := rt_output_closed rt;
     vw_pending := (λ p : LifecycleCode * option Z * bytes, p.1.1) <$> rt_pending_journal_completion rt;
     vw_ended := sm_ended_at (rt_meta rt); vw_status := sm_status (rt_meta rt);
     vw_requested := rt_requested_final_status rt |}.

Definition with_journal (j : J) (failed : bool) (v : View) : View :=
  mk_view (Some j) failed (vw_total v) (vw_history v) (vw_closed v) (vw_pending v) (vw_ended v)
    (vw_status v) (vw_requested v).

(** Nothing but the journal and its fail-loud flag, which stays set. *)
Definition recorded (v v' : View) (j : J) : Prop :=
  ∃ failed, v' = with_journal j failed v ∧ (vw_failed v = true → failed = true).

(** The record is sequenced, or the journal is degraded and stays as it is. *)
Definition sequenced (kind : RecordKind) (payload : bytes) (d d' : bool) (es es' : list Rec) : Prop :=
  (d = false ∧ ∃ seq time, es' = es ++ [mk_record kind seq time payload]) ∨ (d' = true ∧ es' = es).

Lemma journal_event_view now kind payload (rt : SessionRuntime (J:=J)) j es :
  rt_journal rt = Some j → rc_log j es → len es + 3 <= u64_max →
  ∃ j' es',
    view_of (journal_event (rc_record now kind payload) rt)
      = with_journal j' (rt_journal_failed rt || (rc_degraded j' && negb (rc_degraded j))) (view_of rt)
    ∧ rc_log j' es' ∧ sequenced kind payload (rc_degraded j) (rc_degraded j') es es' ∧ len es' <= len es + 1.
Proof.
  intros Hj Hl Hmax. unfold journal_event. rewrite Hj.
  pose proof (rc_record_log j es now kind payload Hl Hmax) as Hr.
  destruct (rc_record now kind payload j) as [j' r]. destruct Hr as [Hok Hr]. rewrite Hok, negb_involutive.
  exists j'. destruct Hr as [(Hd & seq & time & Hl')|(Hd & Hl')].
  - eexists. split_and!; [|exact Hl'|left; split; [done|by do 2 eexists]|rewrite len_app; change (len [_]) with 1; lia].
    rewrite Hd, andb_true_r. destruct (rc_degraded j'); cbn; [by rewrite orb_true_r|by rewrite orb_false_r].
  - exists es. split_and!; [|done|by right|lia].
    rewrite Hd. cbn [andb]. destruct (negb (rc_degraded j)); cbn; [by rewrite orb_true_r|by rewrite orb_false_r].
Qed.

Lemma logged_event carried stream history carried' stream' history' kind payload es es' d d' :
  logged carried stream history es d → sequenced kind payload d d' es es' →
  (logged carried stream history es false →
   ∀ seq time, logged carried' stream' history' (es ++ [mk_record kind seq time payload]) false) →
  stream `prefix_of` stream' → history `prefix_of` history' →
  logged carried' stream' history' es' d'.
Proof.
  intros Hl [(-> & seq & time & ->)|(-> & ->)] Hlive [more ->] Hp.
  - specialize (Hlive Hl seq time). destruct d'; [by eapply logged_degraded|done].
  - apply logged_degraded in Hl. by eapply logged_behind.
Qed.

Lemma follows_event closed ending closed' ending' kind payload es es' d d' :
  follows closed ending es d → sequenced kind payload d d' es es' →
  (∀ seq time, script closed' ending'
     = script closed ending ++ opt_list (lifecycle_code (mk_record kind seq time payload))) →
  (kind = Output → closed = false) →
  follows closed' ending' es' d'.
Proof.
  intros Hf [(-> & seq & time & ->)|(-> & ->)] Hs Hout.
  - pose proof (follows_snoc _ _ _ _ _ _ Hf (Hs seq time) Hout). destruct d'; [by eapply follows_degraded|done].
  - apply follows_degraded in Hf. eapply follows_behind; [done|]. rewrite (Hs 0 0). by eexists.
Qed.
End Events.

(** ** The invariant *)

Fixpoint tiles (offset : N) (chunks : list SequencedChunk) : Prop :=
  match chunks with
  | [] => True
  | c :: chunks =>
      chunk_offset c = offset ∧ chunk_bytes c ≠ [] ∧ tiles (offset + len (chunk_bytes c)) chunks
  end.

Section Invariant.
Context `{Base64, Engine} {J : Type} `{Recorder J, !RecorderLaws J}.

(** The journal [j], of log [es], after the reader showed [stream], the
    geometry went through [history], and the output was closed or not, in a
    session that ends with [ending]. *)
Record records_all (carried stream : bytes) (history : list LogResize) (closed : bool)
    (ending : option LifecycleCode) (j : J) (es : list Rec) : Prop := {
  ra_log : rc_log j es;
  ra_logged : len stream <= u64_max → logged carried stream history es (rc_degraded j);
  ra_follows : follows closed ending es (rc_degraded j);
}.

(** How the runtime stands towards the session's end. *)
Record ends_as (v : View (J:=J)) (ending : option LifecycleCode) : Prop := {
  ea_final : ∀ code, ending = Some code → code ∈ final_codes;
  ea_ended : is_Some (vw_ended v) ↔ is_Some ending;
  ea_pending : vw_pending v = if vw_closed v then None else ending;
  ea_status : final_status (vw_status v) = true → is_Some (vw_ended v);
  ea_requested : ∀ status, vw_requested v = Some status → final_status status = true;
}.

Record runtime_ok (carried stream : bytes) (v : View (J:=J)) (ending : option LifecycleCode) (j : J)
    (es : list Rec) : Prop := {
  rk_journal : vw_journal v = Some j;
  rk_records : records_all carried stream (vw_history v) (vw_closed v) ending j es;
  rk_failed : vw_failed v = true → rc_degraded j = true;
  rk_ends : ends_as v ending;
}.

(** A chunk is on its way until it is broadcast; only a reader that a journal
    failure stopped keeps one back. *)
Record broadcasting (s : Session (J:=J)) : Prop := {
  bc_all : ∃ lost, ss_stream s
      = concat (map chunk_bytes (ss_broadcast s ++ opt_list (pr_outbox (ss_reader s)))) ++ lost
    ∧ (lost ≠ [] → is_Some (pr_closing (ss_reader s)) ∧ rt_journal_failed (ss_runtime s) = true);
  bc_tiles : len (ss_stream s) <= u64_max → tiles 0 (ss_broadcast s ++ opt_list (pr_outbox (ss_reader s)));
  bc_closing : is_Some (pr_closing (ss_reader s)) → pr_outbox (ss_reader s) = None;
}.

Record session_ok (s : Session (J:=J)) (ending : option LifecycleCode) (j : J) (es : list Rec) : Prop := {
  so_runtime : runtime_ok (pending (pr_scanner (ss_reader s))) (ss_stream s) (view_of (ss_runtime s)) ending j es;
  so_total : rt_filtered_total_bytes (ss_runtime s) = N.min (len (ss_stream s)) u64_max;
  so_broadcast : broadcasting s;
  so_closed : rt_output_closed (ss_runtime s) = true → is_Some (pr_closing (ss_reader s));
}.

(** *** Recording *)

Lemma records_event carried stream history closed ending carried' stream' history' closed' ending'
    now kind payload (rt : SessionRuntime) j es :
  records_all carried stream history closed ending j es → rt_journal rt = Some j →
  (rt_journal_failed rt = true → rc_degraded j = true) → len es + 3 <= u64_max →
  (len stream' <= u64_max → logged carried stream history es false →
   ∀ seq time, logged carried' stream' history' (es ++ [mk_record kind seq time payload]) false) →
  stream `prefix_of` stream' → history `prefix_of` history' →
  (∀ seq time, script closed' ending'
     = script closed ending ++ opt_list (lifecycle_code (mk_record kind seq time payload))) →
  (kind = Output → closed = false) →
  ∃ j' es',
    let v' := view_of (journal_event (rc_record now kind payload) rt) in
    recorded (view_of rt) v' j'
    ∧ records_all carried' stream' history' closed' ending' j' es' ∧ len es' <= len es + 1
    ∧ (vw_failed v' = true → rc_degraded j' = true).
Proof.
  intros [Hl Hlo Hfo] Hj Hf Hmax Hlive Hst Hhi Hsc Hout.
  destruct (journal_event_view now kind payload rt j es Hj Hl Hmax) as (j' & es' & Hv & Hl' & Hseq & Hlen).
  exists j', es'. cbv zeta. rewrite Hv. split_and!; [| |done|].
  - eexists. split; [done|]. cbn. by intros ->.
  - split; [done| |by eapply follows_event].
    intros Hle. eapply logged_event; [apply Hlo; apply prefix_length in Hst; unfold len in *; lia|done| |done|done].
    intros Hls. by apply Hlive.
  - intros [Hfl|Hd]%orb_true_iff; [|by apply andb_true_iff in Hd as [? _]].
    destruct Hseq as [[Hd _]|[? _]]; [|done]. specialize (Hf Hfl). congruence.
Qed.

(** The runtime's journal stands as [records_all] says. *)
Record tracked (carried stream : bytes) (history : list LogResize) (closed : bool)
    (ending : option LifecycleCode) (rt : SessionRuntime) (j : J) (es : list Rec) : Prop := {
  tk_journal : rt_journal rt = Some j;
  tk_records : records_all carried stream history closed ending j es;
  tk_failed : rt_journal_failed rt = true → rc_degraded j = true;
}.

Lemma runtime_ok_tracked carried stream (rt : SessionRuntime) ending j es :
  runtime_ok carried stream (view_of rt) ending j es
  ↔ tracked carried stream (rt_resize_history rt) (rt_output_closed rt) ending rt j es
    ∧ ends_as (view_of rt) ending.
Proof. split; [intros [? ? ? ?]; split; [by split|done]|intros [[? ? ?] ?]; by split]. Qed.

Lemma tracked_event carried stream history closed ending carried' stream' history' closed' ending'
    now kind payload (rt : SessionRuntime) j es :
  tracked carried stream history closed ending rt j es → len es + 3 <= u64_max →
  (len stream' <= u64_max → logged carried stream history es false →
   ∀ seq time, logged carried' stream' history' (es ++ [mk_record kind seq time payload]) false) →
  stream `prefix_of` stream' → history `prefix_of` history' →
  (∀ seq time, script closed' ending'
     = script closed ending ++ opt_list (lifecycle_code (mk_record kind seq time payload))) →
  (kind = Output → closed = false) →
  let rt' := journal_event (rc_record now kind payload) rt in
  ∃ j' es', tracked carried' stream' history' closed' ending' rt' j' es'
    ∧ recorded (view_of rt) (view_of rt') j' ∧ len es' <= len es + 1.
Proof.
  intros [Hj Hr Hf] Hmax Hlive Hst Hhi Hsc Hout.
  destruct (records_event carried stream history closed ending carried' stream' history' closed' ending'
    now kind payload rt j es Hr Hj Hf Hmax Hlive Hst Hhi Hsc Hout) as (j' & es' & Hrec & Hr' & Hlen & Hf').
  exists j', es'. split_and!; [|done|done]. pose proof Hrec as (failed & Hv & _). split; [|done|exact Hf'].
  by injection Hv as -> _ _ _ _ _ _ _ _.
Qed.

(** A record that shows nothing and says nothing of the lifecycle. *)
Lemma tracked_quiet carried stream history closed ending (rt : SessionRuntime) j es now kind payload :
  tracked carried stream history closed ending rt j es → len es + 3 <= u64_max →
  kind ∈ [Policy; CheckpointRef] →
  (len stream <= u64_max → kind = CheckpointRef → 0 < le_value payload@[15, 23] →
     carried = [] ∧ len stream = le_value payload@[15, 23]) →
  let rt' := journal_event (rc_record now kind payload) rt in
  ∃ j' es', tracked carried stream history closed ending rt' j' es'
    ∧ recorded (view_of rt) (view_of rt') j' ∧ len es' <= len es + 1.
Proof.
  intros Ht Hmax Hk Hc. apply (tracked_event _ _ _ _ _ _ _ _ _ _ _ _ _ _ _ _ Ht); try done.
  - intros Hle Hlg seq time. apply logged_silent; [done|cbn; set_solver|cbn; set_solver|].
    intros Ha%anchored_kind Hpos. by apply Hc.
  - intros seq time. rewrite lifecycle_code_other by (cbn; set_solver). cbn. by rewrite app_nil_r.
  - set_solver.
Qed.

(** A lifecycle record is the script's next line. *)
Lemma tracked_lifecycle carried stream history closed ending closed' ending' (rt : SessionRuntime) j es
    now code exit_code detail :
  tracked carried stream history closed ending rt j es → len es + 3 <= u64_max →
  script closed' ending' = script closed ending ++ [code] →
  let rt' := journal_lifecycle now code exit_code detail rt in
  ∃ j' es', tracked carried stream history closed' ending' rt' j' es'
    ∧ recorded (view_of rt) (view_of rt') j' ∧ len es' <= len es + 1.
Proof.
  intros Ht Hmax Hs. apply (tracked_event _ _ _ _ _ _ _ _ _ _ _ _ _ _ _ _ Ht); try done.
  - intros _ Hlg seq time. apply logged_silent; [done..|]. by intros ?%anchored_kind.
  - intros seq time. by rewrite lifecycle_code_encode, Hs.
Qed.

(** What is recorded of the runtime otherwise stays. *)
Lemma ends_as_recorded v v' j ending : recorded v v' j → ends_as v ending → ends_as v' ending.
Proof. intros (failed & -> & _) []. by split. Qed.

Lemma runtime_ok_recorded carried stream (rt rt' : SessionRuntime) ending j es carried' stream' j' es' :
  runtime_ok carried stream (view_of rt) ending j es → recorded (view_of rt) (view_of rt') j' →
  tracked carried' stream' (rt_resize_history rt) (rt_output_closed rt) ending rt' j' es' →
  runtime_ok carried' stream' (view_of rt') ending j' es'.
Proof.
  intros [_ He]%runtime_ok_tracked Hrec Ht. apply runtime_ok_tracked.
  split; [|by eapply ends_as_recorded]. destruct Hrec as (failed & Hv & _).
  assert (rt_resize_history rt' = rt_resize_history rt ∧ rt_output_closed rt' = rt_output_closed rt) as [-> ->]
    by (by injection Hv as _ _ _ -> -> _ _ _ _). done.
Qed.

Lemma recorded_refl carried stream (rt : SessionRuntime) ending j es :
  runtime_ok carried stream (view_of rt) ending j es → recorded (view_of rt) (view_of rt) j.
Proof.
  intros Hok. exists (rt_journal_failed rt). split; [|done]. unfold view_of, with_journal. cbn.
  by rewrite <- (rk_journal _ _ _ _ _ _ Hok).
Qed.

(** *** The chunk under the lock *)

Lemma encoded_offset c : cp_filtered_offset c <= u64_max → le_value (encode_checkpoint c)@[15, 23] = cp_filtered_offset c.
Proof.
  intros Hle. unfold encode_checkpoint.
  set (front := CHECKPOINT_MAGIC ++ u16_le CHECKPOINT_VERSION ++ u16_le (cp_rows c) ++ u16_le (cp_cols c)
    ++ u16_le (cp_cursor c).1 ++ u16_le (cp_cursor c).2 ++ [byte_of (cp_flags c)]).
  replace (CHECKPOINT_MAGIC ++ _) with (front ++ u64_le (cp_filtered_offset c) ++ u32_le (len (cp_program c)) ++ cp_program c)
    by (unfold front; by rewrite <- !app_assoc).
  assert (len front = 15) as Hf by (unfold front; by rewrite !len_app, !len_le_bytes).
  rewrite slice_app_r, Hf by lia. rewrite slice_app_exact; [by apply le_value_u64|lia|].
  rewrite len_le_bytes. lia.
Qed.

Lemma modes_not_refused m : policy_refused (bs "modes") (modes_value m) = false.
Proof. by destruct m as [[] [] [] [] []]. Qed.

(** Recording the modes and a checkpoint, when either is due. *)
Lemma modes_ok now carried stream ending (rt : SessionRuntime) j es :
  runtime_ok carried stream (view_of rt) ending j es → len es + 3 <= u64_max →
  let rt' := journal_modes_if_changed now rt in
  ∃ j' es', runtime_ok carried stream (view_of rt') ending j' es'
    ∧ len es' <= len es + 1 ∧ recorded (view_of rt) (view_of rt') j'.
Proof.
  intros Hok Hmax. unfold journal_modes_if_changed. case_bool_decide.
  - exists j, es. split_and!; [done|lia|by eapply recorded_refl].
  - unfold journal_policy, record_policy_event. rewrite modes_not_refused.
    pose proof (proj1 (proj1 (runtime_ok_tracked _ _ _ _ _ _) Hok)) as Ht.
    destruct (tracked_quiet _ _ _ _ _ _ _ _ now Policy (policy_payload (bs "modes") (modes_value (modes_load (rt_shared_modes rt)))) Ht Hmax)
      as (j' & es' & Ht' & Hrec & Hlen); [set_solver|done|].
    exists j', es'. split_and!; [|done|exact Hrec]. by apply (runtime_ok_recorded _ _ _ _ _ _ _ _ _ _ _ Hok Hrec).
Qed.

Lemma checkpoint_tracked now anchored carried stream history closed ending (rt : SessionRuntime) j es :
  tracked carried stream history closed ending rt j es → len es + 3 <= u64_max →
  rt_filtered_total_bytes rt = N.min (len stream) u64_max → (anchored = true → carried = []) →
  let rt' := journal_checkpoint now anchored rt in
  ∃ j' es', tracked carried stream history closed ending rt' j' es'
    ∧ recorded (view_of rt) (view_of rt') j' ∧ len es' <= len es + 1.
Proof.
  intros Ht Hmax Hto Ha. unfold journal_checkpoint. rewrite (tk_journal _ _ _ _ _ _ _ _ Ht).
  destruct (tracked_quiet _ _ _ _ _ _ _ _ now CheckpointRef (encode_checkpoint (checkpoint_of anchored rt)) Ht Hmax)
    as (j' & es' & [Hj Hr Hf] & Hrec & Hlen); [set_solver| |exists j', es'; split_and!; [by split|exact Hrec|done]].
  intros Hle _. rewrite encoded_offset; cbn [checkpoint_of cp_filtered_offset].
  - destruct anchored; [|lia]. intros _. split; [by apply Ha|]. lia.
  - destruct anchored; lia.
Qed.

Lemma checkpoint_due_ok now idle carried stream ending (rt : SessionRuntime) j es :
  runtime_ok carried stream (view_of rt) ending j es → len es + 3 <= u64_max →
  rt_filtered_total_bytes rt = N.min (len stream) u64_max → (idle = true → carried = []) →
  let rt' := journal_checkpoint_if_due now idle rt in
  ∃ j' es', runtime_ok carried stream (view_of rt') ending j' es'
    ∧ len es' <= len es + 1 ∧ recorded (view_of rt) (view_of rt') j'.
Proof.
  intros Hok Hmax Hto Ha. unfold journal_checkpoint_if_due. destruct (_ <=? _).
  - pose proof (proj1 (proj1 (runtime_ok_tracked _ _ _ _ _ _) Hok)) as Ht.
    destruct (checkpoint_tracked now idle _ _ _ _ _ _ _ _ Ht Hmax Hto Ha) as (j' & es' & Ht' & Hrec & Hlen).
    exists j', es'. split_and!; [|done|exact Hrec]. by apply (runtime_ok_recorded _ _ _ _ _ _ _ _ _ _ _ Hok Hrec).
  - exists j, es. split_and!; [done|lia|by eapply recorded_refl].
Qed.

(** The parts of the locked section that are not recorded. *)
Lemma feed_engine_view data (rt : SessionRuntime) : view_of (feed_engine data rt).1 = view_of (J:=J) rt.
Proof. unfold feed_engine. by destruct (eng_feed data (rt_engine rt)). Qed.

Lemma apply_title_view payload (rt : SessionRuntime) : view_of (apply_terminal_title payload rt).1 = view_of (J:=J) rt.
Proof. unfold apply_terminal_title. by repeat case_match. Qed.

Lemma apply_colors_view signals (rt : SessionRuntime) : view_of (apply_terminal_colors signals rt).1 = view_of (J:=J) rt.
Proof. unfold apply_terminal_colors. by repeat case_bool_decide. Qed.

Lemma publish_view signals (rt : SessionRuntime) : view_of (publish_terminal_signals signals rt).1 = view_of (J:=J) rt.
Proof.
  unfold publish_terminal_signals.
  set (r1 := match title signals with Some t => apply_terminal_title t rt | None => (rt, false) end).
  assert (view_of r1.1 = view_of rt) as Hv1 by (unfold r1; destruct (title signals); [apply apply_title_view|done]).
  destruct r1 as [rt1 b1]. cbn [fst] in Hv1. pose proof (apply_colors_view signals rt1) as Hv2.
  destruct (apply_terminal_colors signals rt1) as [rt2 b2]. cbn [fst] in *. rewrite <- Hv1, <- Hv2.
  by case_bool_decide.
Qed.

Lemma push_output_view now data m (rt : SessionRuntime) :
  view_of (push_output now data m rt)
  = mk_view (J:=J) (rt_journal rt) (rt_journal_failed rt)
      (if len data =? 0 then rt_filtered_total_bytes rt else u64_sat_add (rt_filtered_total_bytes rt) (len data))
      (rt_resize_history rt) (rt_output_closed rt) (vw_pending (view_of rt)) (sm_ended_at (rt_meta rt))
      (sm_status (rt_meta rt)) (rt_requested_final_status rt).
Proof. unfold push_output. destruct (len data =? 0); cbn [negb]; [done|]. by destruct (0 <? m). Qed.

Lemma output_ok now data carried stream ending (rt : SessionRuntime) j es :
  runtime_ok carried stream (view_of rt) ending j es → len es + 3 <= u64_max → rt_output_closed rt = false →
  let rt' := journal_output now data rt in
  ∃ j' es', runtime_ok (display carried data).1 (stream ++ (display carried data).2) (view_of rt') ending j' es'
    ∧ len es' <= len es + 1 ∧ recorded (view_of rt) (view_of rt') j'.
Proof.
  intros Hok Hmax Hc. pose proof (proj1 (proj1 (runtime_ok_tracked _ _ _ _ _ _) Hok)) as Ht.
  destruct (tracked_event _ _ _ _ _ (display carried data).1 (stream ++ (display carried data).2) (rt_resize_history rt)
    (rt_output_closed rt) ending now Output data rt j es Ht Hmax) as (j' & es' & Ht' & Hrec & Hlen); try done.
  - intros _ Hlg seq time. by apply (logged_output carried stream _ es (mk_record Output seq time data)).
  - by eexists.
  - intros seq time. rewrite lifecycle_code_other by done. cbn. by rewrite app_nil_r.
  - exists j', es'. split_and!; [|done|exact Hrec]. by apply (runtime_ok_recorded _ _ _ _ _ _ _ _ _ _ _ Hok Hrec).
Qed.

(** Where a locked section leads. *)
Lemma runtime_ok_moved carried stream v v' ending j es :
  runtime_ok carried stream v ending j es →
  vw_journal v' = vw_journal v → vw_failed v' = vw_failed v → vw_history v' = vw_history v →
  vw_closed v' = vw_closed v → ends_as v' ending →
  runtime_ok carried stream v' ending j es.
Proof. intros [Hj Hr Hf He] E1 E2 E3 E4 He'. split; [by rewrite E1|by rewrite E3, E4|by rewrite E2|done]. Qed.

Lemma ingest_ok now data mlen changed idle carried stream ending (rt : SessionRuntime) j es :
  runtime_ok carried stream (view_of rt) ending j es → len es + 5 <= u64_max → rt_output_closed rt = false →
  rt_filtered_total_bytes rt = N.min (len stream) u64_max →
  (idle = true → (display carried data).1 = []) →
  let '(rt', (_, chunk_offset, stop)) := ingest now data (display carried data).2 mlen changed idle rt in
  ∃ j' es', runtime_ok (display carried data).1 (stream ++ (display carried data).2) (view_of rt') ending j' es'
    ∧ len es' <= len es + 3
    ∧ rt_filtered_total_bytes rt' = N.min (len (stream ++ (display carried data).2)) u64_max
    ∧ chunk_offset = rt_filtered_total_bytes rt' - len (display carried data).2
    ∧ rt_output_closed rt' = false
    ∧ (is_Some stop ↔ rt_journal_failed rt' = true).
Proof.
  intros Hok Hmax Hc Ht Hidle. unfold ingest.
  destruct (output_ok now data _ _ _ _ _ _ Hok ltac:(lia) Hc) as (j1 & es1 & Hok1 & Hlen1 & f1 & Hv1 & _).
  set (out := (display carried data).2) in *. set (carried' := (display carried data).1) in *. clearbody out carried'.
  set (rt1 := journal_output now data rt) in *. clearbody rt1.
  pose proof (feed_engine_view data rt1) as Hv2. destruct (feed_engine data rt1) as [rt2 resp]. cbn [fst] in Hv2.
  set (rt3 := match changed with Some signals => (publish_terminal_signals signals rt2).1 | None => rt2 end).
  assert (view_of rt3 = with_journal j1 f1 (view_of rt)) as Hv3.
  { rewrite <- Hv1, <- Hv2. unfold rt3. destruct changed; [apply publish_view|done]. }
  clearbody rt3. pose proof (push_output_view now out mlen rt3) as Hv4.
  set (rt4 := push_output now out mlen rt3) in *. clearbody rt4.
  assert (runtime_ok carried' (stream ++ out) (view_of rt4) ending j1 es1
    ∧ rt_filtered_total_bytes rt4 = N.min (len (stream ++ out)) u64_max ∧ rt_output_closed rt4 = false) as (Hok4 & Ht4 & Hc4).
  { rewrite <- Hv1 in Hv3. injection Hv3 as E1 E2 E3 E4 E5 E6 E7 E8 E9.
    pose proof (rk_ends _ _ _ _ _ _ Hok1) as He1. split_and!.
    - eapply runtime_ok_moved; [exact Hok1| | | | |]; rewrite Hv4; cbn; [done..|].
      destruct He1 as [? ? ? ? ?]. split; cbn in *; rewrite ?E5, ?E6, ?E7, ?E8, ?E9; done.
    - assert (rt_filtered_total_bytes rt4 = vw_total (view_of rt4)) as -> by done. rewrite Hv4. cbn [vw_total].
      rewrite E3. injection Hv1 as _ _ Et _ _ _ _ _ _. rewrite Et, Ht, len_app. unfold u64_sat_add.
      destruct (N.eqb_spec (len out) 0); lia.
    - assert (rt_output_closed rt4 = vw_closed (view_of rt4)) as -> by done. rewrite Hv4. cbn [vw_closed].
      rewrite E5. by injection Hv1 as _ _ _ _ -> _ _ _ _. }
  destruct (modes_ok now _ _ _ _ _ _ Hok4 ltac:(lia)) as (j5 & es5 & Hok5 & Hlen5 & f5 & Hv5 & _).
  assert (rt_filtered_total_bytes (journal_modes_if_changed now rt4) = rt_filtered_total_bytes rt4
    ∧ rt_output_closed (journal_modes_if_changed now rt4) = false) as [Ht5 Hc5].
  { injection Hv5 as _ _ -> _ -> _ _ _ _. done. }
  set (rt5 := journal_modes_if_changed now rt4) in *. clearbody rt5.
  destruct (checkpoint_due_ok now idle _ _ _ rt5 _ _ Hok5 ltac:(lia) ltac:(congruence) Hidle) as (j6 & es6 & Hok6 & Hlen6 & f6 & Hv6 & _).
  assert (rt_filtered_total_bytes (journal_checkpoint_if_due now idle rt5) = rt_filtered_total_bytes rt4
    ∧ rt_output_closed (journal_checkpoint_if_due now idle rt5) = false) as [Ht6 Hc6].
  { injection Hv6 as _ _ -> _ -> _ _ _ _. done. }
  set (rt6 := journal_checkpoint_if_due now idle rt5) in *. clearbody rt6.
  destruct (rt_journal_failed rt6) eqn:Hf; exists j6, es6; split_and!; try done; try lia; try congruence.
  all: try (unfold filtered_stream_len; cbn; by rewrite Ht6).
  - eapply runtime_ok_moved; [exact Hok6|done..|]. destruct (rk_ends _ _ _ _ _ _ Hok6). split; try done.
    cbn. by intros status [= <-].
  - rewrite Hf. by split; [intros []|].
Qed.

(** *** The reader's steps *)

Lemma tiles_app offset a b :
  tiles offset (a ++ b) ↔ tiles offset a ∧ tiles (offset + len (concat (map chunk_bytes a))) b.
Proof.
  revert offset. induction a as [|c a IH]; intros offset; cbn [app tiles map concat].
  - rewrite len_nil, N.add_0_r. naive_solver.
  - rewrite IH, len_app, N.add_assoc. naive_solver.
Qed.

Lemma display_scan now s data scanner out :
  scan false now s data = (scanner, out) → display (pending s) data = (pending scanner, filtered out).
Proof. intros E. by rewrite (scan_display now), E. Qed.

Lemma take_changed_pending s : pending (take_changed_signals s).2 = pending s.
Proof. unfold take_changed_signals. by destruct (signals_dirty s). Qed.

Lemma idle_reader_fields r :
  idle_reader r = true → pr_outbox r = None ∧ pr_responses r = [] ∧ pr_closing r = None.
Proof. unfold idle_reader. by destruct (pr_outbox r), (pr_responses r), (pr_closing r). Qed.

Lemma broadcasting_idle s :
  broadcasting s → pr_outbox (ss_reader s) = None → pr_closing (ss_reader s) = None →
  ss_stream s = concat (map chunk_bytes (ss_broadcast s))
  ∧ (len (ss_stream s) <= u64_max → tiles 0 (ss_broadcast s)).
Proof.
  intros [(lost & Hs & Hl) Ht _] Ho Hc. rewrite Ho in Hs, Ht. cbn in Hs, Ht. rewrite !app_nil_r in *.
  destruct lost as [|b lost]; [by rewrite app_nil_r in Hs|]. destruct (Hl ltac:(done)) as [[? Hx] _]. by rewrite Hc in Hx.
Qed.

Lemma read_chunk_ok now data s ending j es :
  session_ok s ending j es → len es + 5 <= u64_max →
  ∃ j' es', session_ok (read_chunk now data s) ending j' es' ∧ len es' <= len es + 3.
Proof.
  intros Hok Hmax. unfold read_chunk. destruct (idle_reader (ss_reader s)) eqn:Hi; cbn [negb]; [|by exists j, es; split; [|lia]].
  apply idle_reader_fields in Hi as (Ho & _ & Hc). destruct Hok as [Hr Ht Hb Hcl].
  destruct (broadcasting_idle s Hb Ho Hc) as [Hs Hti].
  destruct (scan false now (pr_scanner (ss_reader s)) data) as [scanner out] eqn:Hscan.
  apply display_scan in Hscan. pose proof (take_changed_pending scanner) as Hp.
  destruct (take_changed_signals scanner) as [changed_signals scanner']. cbn [snd] in Hp.
  assert (rt_output_closed (ss_runtime s) = false) as Hopen.
  { destruct (rt_output_closed (ss_runtime s)) eqn:E; [|done]. destruct (Hcl eq_refl) as [? Hx]. by rewrite Hc in Hx. }
  pose proof (ingest_ok now data (meaningful_bytes out) changed_signals (is_idle scanner') _ _ _ _ _ _ Hr Hmax Hopen Ht) as Hin.
  rewrite Hscan in Hin. cbn [fst snd] in Hin.
  destruct (ingest now data (filtered out) _ _ _ _) as [rt' [[resp off] stop]].
  destruct Hin as (j' & es' & Hr' & Hlen & Ht' & Hoff & Hopen' & Hstop).
  { intros Hid. rewrite <- Hp. apply len_0. by apply N.eqb_eq in Hid. }
  exists j', es'. split; [|done]. destruct stop as [detail|].
  - split; cbn; [by rewrite Hp|done| |congruence].
    split; cbn; [|intros Hle; rewrite app_nil_r; apply Hti; rewrite len_app in Hle; lia|done].
    exists (filtered out). rewrite app_nil_r, <- Hs. split; [done|]. intros _. split; [by eexists|]. by apply Hstop.
  - split; cbn; [by rewrite Hp|done| |congruence]. destruct (N.eqb_spec (len (filtered out)) 0) as [Hz|Hnz].
    + apply len_0 in Hz. rewrite Hz, app_nil_r in *. split; cbn; [|by rewrite app_nil_r|done].
      exists []. rewrite !app_nil_r. by split.
    + split; cbn; [|intros Hle|by intros []].
      * exists []. rewrite map_app, concat_app, <- Hs. cbn. rewrite !app_nil_r. by split.
      * rewrite len_app in *. apply tiles_app. rewrite <- Hs. split; [apply Hti; lia|]. cbn. split_and!; [lia| |done].
        intros Hx. by rewrite Hx in Hnz.
Qed.

Lemma broadcast_ok s ending j es : session_ok s ending j es → session_ok (broadcast_chunk s) ending j es.
Proof.
  intros [Hr Ht [(lost & Hs & Hl) Hti Hc] Hcl]. unfold broadcast_chunk.
  destruct (pr_outbox (ss_reader s)) as [chunk|] eqn:E; [|split; [done|done|split; rewrite ?E; [by exists lost|done|done]|done]].
  split; cbn; [done|done| |done]. split; cbn; rewrite ?app_nil_r; [by exists lost|done|done].
Qed.

Lemma answer_ok s ending j es : session_ok s ending j es → session_ok (answer s) ending j es.
Proof.
  intros [Hr Ht [Hb Hti Hc] Hcl]. unfold answer.
  destruct (pr_outbox (ss_reader s)) as [chunk|] eqn:E; [by split; [..|split; rewrite ?E|]|].
  destruct (pr_responses (ss_reader s)); [by split; [..|split; rewrite ?E|]|].
  destruct (negb _); [|destruct (_ <=? _)]; by (split; [done|done|split; cbn; rewrite ?E|done]).
Qed.

Lemma end_reading_ok detail s ending j es : session_ok s ending j es → session_ok (end_reading detail s) ending j es.
Proof.
  intros [Hr Ht Hb Hcl]. unfold end_reading. destruct (idle_reader (ss_reader s)) eqn:Hi; [|done].
  apply idle_reader_fields in Hi as (Ho & _ & Hc). destruct (broadcasting_idle s Hb Ho Hc) as [Hs Hti].
  split; cbn; [done|done| |by eexists]. split; cbn; rewrite Ho; cbn; rewrite ?app_nil_r; [|done|done].
  exists []. by rewrite app_nil_r.
Qed.

(** *** The end *)

Lemma tracked_sync carried stream history closed ending (rt : SessionRuntime) j es :
  tracked carried stream history closed ending rt j es →
  tracked carried stream history closed ending (rt <| rt_journal := Some (rc_sync j) |>) (rc_sync j) es.
Proof.
  intros [Hj [Hl Hlo Hfo] Hf]. split; [done| |cbn; by rewrite rc_sync_degraded].
  split; rewrite ?rc_sync_degraded; [by apply rc_sync_log|done|done].
Qed.

Lemma terminal_end_tracked carried stream history closed ending closed' ending' (rt : SessionRuntime) j es
    now code exit_code detail :
  tracked carried stream history closed ending rt j es → len es + 3 <= u64_max →
  script closed' ending' = script closed ending ++ [code] →
  let rt' := journal_terminal_end now code exit_code detail rt in
  ∃ j' es', tracked carried stream history closed' ending' rt' j' es'
    ∧ recorded (view_of rt) (view_of rt') j' ∧ len es' <= len es + 1.
Proof.
  intros Ht Hmax Hs. unfold journal_terminal_end.
  destruct (tracked_lifecycle _ _ _ _ _ _ _ _ _ _ now code exit_code detail Ht Hmax Hs)
    as (j' & es' & Ht' & Hrec & Hlen).
  rewrite (tk_journal _ _ _ _ _ _ _ _ Ht'). exists (rc_sync j'), es'.
  split_and!; [by apply tracked_sync| |done]. destruct Hrec as (failed & Hv & Hm). exists failed. split; [|done].
  injection Hv as _ Hf Ht1 Hh Hc Hp He Hst Hrq. unfold view_of, with_journal in *. cbn in *. by f_equal.
Qed.

Lemma recorded_trans (v v' v'' : View (J:=J)) j j' : recorded v v' j → recorded v' v'' j' → recorded v v'' j'.
Proof. intros (f & -> & H1') (f' & -> & H2'). exists f'. split; [done|]. intros Hf. by apply H2', H1'. Qed.

Lemma recorded_fields (rt rt' : SessionRuntime (J:=J)) j :
  recorded (view_of rt) (view_of rt') j →
  rt_filtered_total_bytes rt' = rt_filtered_total_bytes rt ∧ rt_resize_history rt' = rt_resize_history rt
  ∧ rt_output_closed rt' = rt_output_closed rt
  ∧ (rt_journal_failed rt = true → rt_journal_failed rt' = true).
Proof. intros (f & Hv & Hm). injection Hv as _ Hf -> -> -> _ _ _ _. cbn in Hm. by rewrite Hf. Qed.

(** What a step of the runtime keeps, beside the invariant. *)
Definition keeps (rt rt' : SessionRuntime (J:=J)) : Prop :=
  rt_filtered_total_bytes rt' = rt_filtered_total_bytes rt
  ∧ rt_output_closed rt' = rt_output_closed rt
  ∧ (rt_journal_failed rt = true → rt_journal_failed rt' = true).

Lemma keeps_recorded (rt rt' : SessionRuntime (J:=J)) j : recorded (view_of rt) (view_of rt') j → keeps rt rt'.
Proof. intros (? & _ & ? & ?)%recorded_fields. by split_and!. Qed.

Lemma queue_completion_ok now code exit_code detail carried stream (rt : SessionRuntime) v0 j es :
  runtime_ok carried stream v0 None j es → code ∈ final_codes → len es + 3 <= u64_max →
  view_of rt = mk_view (vw_journal v0) (vw_failed v0) (vw_total v0) (vw_history v0) (vw_closed v0)
    (vw_pending v0) (sm_ended_at (rt_meta rt)) (sm_status (rt_meta rt)) None →
  is_Some (sm_ended_at (rt_meta rt)) →
  let rt' := queue_journal_completion now code exit_code detail rt in
  ∃ j' es', runtime_ok carried stream (view_of rt') (Some code) j' es' ∧ len es' <= len es + 1 ∧ keeps rt rt'.
Proof.
  intros [Hj Hr Hf [_ _ Hp _ _]] Hcode Hmax Hv He. unfold queue_journal_completion.
  injection Hv as Ej Ef Et Eh Ec Ep Erq.
  assert (tracked carried stream (rt_resize_history rt) (rt_output_closed rt) None rt j es) as Ht
    by (split; [congruence|by rewrite Eh, Ec|by rewrite Ef]).
  destruct (rt_output_closed rt) eqn:Hc.
  - destruct (terminal_end_tracked _ _ _ _ _ true (Some code) _ _ _ now code exit_code detail Ht Hmax eq_refl)
      as (j' & es' & Ht' & Hrec & Hlen).
    exists j', es'. split_and!; [|done|by eapply keeps_recorded].
    pose proof (recorded_fields _ _ _ Hrec) as (_ & Eh' & Ec' & _).
    apply runtime_ok_tracked. rewrite Eh', Ec', Hc. split; [done|]. apply (ends_as_recorded _ _ _ _ Hrec).
    split; cbn; [by intros ? [= <-]|by split|by rewrite Hc, Ep, Hp, <- Ec|done|by rewrite Erq].
  - exists j, es. split_and!; [|lia|by split_and!]. apply runtime_ok_tracked. cbn. rewrite Hc. split.
    + destruct Ht as [? [? ? [? ? ?]] ?]. by repeat (split; try done).
    + split; cbn; [by intros ? [= <-]|by split|by rewrite Hc|done|by rewrite Erq].
Qed.

Lemma end_code_final status : final_status status = true → ∃ code, end_code status = Some code ∧ code ∈ final_codes.
Proof. destruct status; try done; intros _; eexists; (split; [done|unfold final_codes; set_solver]). Qed.

(** A step of the runtime under the invariant: the journal's log grows by at
    most one record, and the end may come. *)
Definition advances (carried stream : bytes) (rt' : SessionRuntime (J:=J)) (es : list Rec)
    (rt : SessionRuntime (J:=J)) : Prop :=
  ∃ ending' j' es', runtime_ok carried stream (view_of rt') ending' j' es'
    ∧ len es' <= len es + 1 ∧ keeps rt rt'.

Lemma unchanged_advances carried stream (rt rt' : SessionRuntime) ending j es :
  runtime_ok carried stream (view_of rt) ending j es → view_of rt' = view_of rt → advances carried stream rt' es rt.
Proof.
  intros Hok Hv. exists ending, j, es. rewrite Hv. split_and!; [done|lia|].
  injection Hv as _ Hf Ht _ Hc _ _ _ _. unfold keeps. by rewrite Hf, Ht, Hc.
Qed.

(** The fields [mark_completed] sets before it records the end. *)
Definition completing_view (now : N) (status : SessionStatus) (v : View (J:=J)) : View :=
  mk_view (vw_journal v) (vw_failed v) (vw_total v) (vw_history v) (vw_closed v) (vw_pending v)
    (Some (default now (vw_ended v))) status None.

Lemma mark_completed_view now status exit_code (rt : SessionRuntime) :
  ∃ rt1 detail, view_of rt1 = completing_view now status (view_of rt)
    ∧ mark_completed now status exit_code rt
      = if bool_decide (sm_ended_at (rt_meta rt) = None) then
          match end_code status with
          | Some code => queue_journal_completion now code exit_code detail rt1
          | None => rt1
          end
        else rt1.
Proof.
  unfold mark_completed. cbv zeta.
  set (rt1 := teardown_pty _). exists rt1, (end_detail (rt_meta rt1)). split.
  - unfold rt1, view_of, completing_view. cbn. destruct (sm_ended_at (rt_meta rt)) eqn:E; cbn;
      destruct (rt_completed_at rt), exit_code; cbn; by rewrite ?E.
  - assert (sm_status (rt_meta rt1) = status) as -> by (unfold rt1; cbn; by destruct (rt_completed_at rt), exit_code). done.
Qed.

Lemma mark_completed_ok now status exit_code carried stream (rt : SessionRuntime) ending j es :
  runtime_ok carried stream (view_of rt) ending j es → final_status status = true → len es + 3 <= u64_max →
  advances carried stream (mark_completed now status exit_code rt) es rt.
Proof.
  intros Hok Hfin Hmax. destruct (mark_completed_view now status exit_code rt) as (rt1 & detail & Hv & ->).
  pose proof (rk_ends _ _ _ _ _ _ Hok) as He. case_bool_decide as Hend.
  - destruct (end_code_final status Hfin) as (code & -> & Hcode).
    assert (ending = None) as ->.
    { destruct ending; [|done]. destruct (proj2 (ea_ended _ _ He)) as [x Hx]; [by eexists|]. cbn in Hx. congruence. }
    destruct (queue_completion_ok now code exit_code detail carried stream rt1 (view_of rt) j es Hok Hcode Hmax)
      as (j' & es' & Hok' & Hlen & Hk).
    + rewrite Hv at 1. unfold completing_view. by injection Hv as _ _ _ _ _ _ -> -> _.
    + injection Hv as _ _ _ _ _ _ -> _ _. by eexists.
    + exists (Some code), j', es'. split_and!; [done|done|]. destruct Hk as (Hk1 & Hk2 & Hk3).
      injection Hv as _ Hf Ht _ Hc _ _ _ _. split_and!; [by rewrite Hk1|by rewrite Hk2|]. by rewrite <- Hf.
  - exists ending, j, es. split_and!; [|lia|].
    + rewrite Hv. eapply runtime_ok_moved; [exact Hok|done..|]. destruct He as [Ha Hb Hc Hd Hr]. split; cbn; try done.
      * split; [intros _; apply Hb|by eexists]. cbn. by destruct (sm_ended_at (rt_meta rt)).
    + injection Hv as _ Hf Ht _ Hc _ _ _ _. unfold keeps. by rewrite Hf, Ht, Hc.
Qed.

Lemma poll_ok carried stream (rt : SessionRuntime) ending j es :
  runtime_ok carried stream (view_of rt) ending j es →
  runtime_ok carried stream (view_of (rt <| rt_journal := Some (rc_poll j) |>)) ending (rc_poll j) es.
Proof.
  intros [Hj [Hl Hlo Hfo] Hf He]. split; [done| |intros Hfl; by apply rc_poll_degraded, Hf|by destruct He].
  destruct (rc_degraded j) eqn:Hd.
  - split; rewrite ?(rc_poll_degraded j Hd); [by apply rc_poll_log|done|done].
  - split; [by apply rc_poll_log| |]; destruct (rc_degraded (rc_poll j)).
    + intros Hle. by eapply logged_degraded, Hlo.
    + done.
    + by eapply follows_degraded.
    + done.
Qed.

Lemma keeps_trans (r1 r2 r3 : SessionRuntime (J:=J)) : keeps r1 r2 → keeps r2 r3 → keeps r1 r3.
Proof. intros (E1 & E2 & F1) (E3 & E4 & F2). split_and!; [by rewrite E3|by rewrite E4|auto]. Qed.

Lemma refresh_ok now exited carried stream (rt : SessionRuntime) ending j es :
  runtime_ok carried stream (view_of rt) ending j es → len es + 3 <= u64_max →
  advances carried stream (refresh_status now exited rt).1 es rt.
Proof.
  intros Hok Hmax. unfold refresh_status. rewrite (rk_journal _ _ _ _ _ _ Hok : rt_journal rt = _).
  pose proof (poll_ok _ _ _ _ _ _ Hok) as Hok1. set (rt1 := rt <| rt_journal := Some (rc_poll j) |>) in *.
  assert (keeps rt rt1) as Hk by done. clearbody rt1.
  assert (∀ rt2, advances carried stream rt2 es rt1 → advances carried stream rt2 es rt) as Hgo.
  { intros rt2 (e & j2 & es2 & ? & ? & ?). exists e, j2, es2. split_and!; [done|done|by eapply keeps_trans]. }
  apply Hgo. destruct (is_completed rt1) eqn:Hc.
  { cbn [fst]. eapply unchanged_advances; [exact Hok1|]. by destruct (rt_completed_at rt1). }
  destruct exited as [[code|]|e]; cbn [fst].
  - eapply mark_completed_ok; [exact Hok1| |done]. destruct (rt_requested_final_status rt1) as [status|] eqn:E; cbn.
    + by apply (ea_requested _ _ (rk_ends _ _ _ _ _ _ Hok1)).
    + by destruct (code =? 0)%Z.
  - case_bool_decide; [by eapply unchanged_advances|]. exists ending, (rc_poll j), es. split_and!; [|lia|done].
    eapply runtime_ok_moved; [exact Hok1|done..|]. by destruct (rk_ends _ _ _ _ _ _ Hok1).
  - by eapply mark_completed_ok.
Qed.

(** *** Geometry and attachments *)

Lemma resize_ok now ok rows cols carried stream (rt : SessionRuntime) ending j es :
  runtime_ok carried stream (view_of rt) ending j es → len es + 3 <= u64_max →
  rt_filtered_total_bytes rt = N.min (len stream) u64_max → rows <= u16_max → cols <= u16_max →
  advances carried stream (resize_pty now ok rows cols rt).1 es rt.
Proof.
  intros Hok Hmax Hto Hrows Hcols. unfold resize_pty.
  destruct (_ || _) eqn:Hz; [by eapply unchanged_advances|]. apply orb_false_iff in Hz as [Hz1%N.eqb_neq Hz2%N.eqb_neq].
  case_bool_decide; [by eapply unchanged_advances|]. destruct (pty_resize _ _); [|by eapply unchanged_advances]. cbn [fst].
  set (r1 := rt <| rt_pty_size := _ |> <| rt_engine := _ |> <| rt_resize_history := _ |>).
  apply runtime_ok_tracked in Hok as [[Hj Hr Hf] He].
  destruct (tracked_event carried stream (rt_resize_history rt) (rt_output_closed rt) ending carried stream
    (rt_resize_history r1) (rt_output_closed rt) ending now Resize (encode_resize_payload rows cols) r1 j es)
    as (j' & es' & Ht & Hrec & Hlen); try done.
  - intros Hle Hlg seq time.
    change (rt_resize_history r1) with (rt_resize_history rt ++ [mk_resize (rt_filtered_total_bytes rt) rows cols]).
    replace [mk_resize (rt_filtered_total_bytes rt) rows cols]
      with (resize_at (len stream) (mk_record Resize seq time (encode_resize_payload rows cols))).
    + apply logged_other; [done|done|]. by intros ?%anchored_kind.
    + unfold resize_at. rewrite bool_decide_eq_true_2 by done. cbn [rec_payload].
      rewrite decode_encode_resize by lia. do 2 f_equal. rewrite Hto. lia.
  - by eexists.
  - intros seq time. rewrite lifecycle_code_other by done. cbn. by rewrite app_nil_r.
  - exists ending, j', es'. change (view_of (_ <| rt_resizes_sent := _ |>)) with (view_of (journal_resize now rows cols r1)).
    pose proof (recorded_fields _ _ _ Hrec) as (_ & Eh & Ec & _).
    split_and!; [|done|by apply (keeps_recorded r1 _ j')].
    apply runtime_ok_tracked. unfold journal_resize. rewrite Eh, Ec. split; [done|]. eapply ends_as_recorded; [exact Hrec|].
    by destruct He.
Qed.

Lemma register_ok now ok kind role viewport carried stream (rt : SessionRuntime) ending j es :
  runtime_ok carried stream (view_of rt) ending j es → len es + 3 <= u64_max →
  rt_filtered_total_bytes rt = N.min (len stream) u64_max → op_ok (J:=J) (OpAttach now ok kind role viewport) →
  advances carried stream (register_attachment now ok kind role viewport rt).1 es rt.
Proof.
  intros Hok Hmax Hto Hop. unfold register_attachment. cbn [register].
  set (r1 := rt <| rt_last_attach_activity_at := _ |> <| rt_attachments := _ |>).
  assert (advances carried stream r1 es rt) as Hsame by by eapply unchanged_advances.
  destruct role, viewport as [[rows cols]|]; cbn [fst]; [done..| |done]. destruct (_ && _); [|done]. destruct Hop.
  pose proof (resize_ok now ok rows cols carried stream r1 ending j es Hok Hmax Hto) as Hres.
  destruct (resize_pty now ok rows cols r1). cbn [fst] in *. by apply Hres.
Qed.

(** *** Closing the output *)

Lemma close_output_ok now detail idle carried stream (rt : SessionRuntime) ending j es :
  runtime_ok carried stream (view_of rt) ending j es → len es + 5 <= u64_max →
  rt_filtered_total_bytes rt = N.min (len stream) u64_max → (idle = true → carried = []) →
  let rt' := close_output_stream_at_boundary now detail idle rt in
  ∃ j' es', runtime_ok carried stream (view_of rt') ending j' es' ∧ len es' <= len es + 3
    ∧ rt_filtered_total_bytes rt' = rt_filtered_total_bytes rt
    ∧ (rt_journal_failed rt = true → rt_journal_failed rt' = true).
Proof.
  intros Hok Hmax Hto Hi. unfold close_output_stream_at_boundary.
  destruct (rt_output_closed rt) eqn:Hc; [exists j, es; by split_and!; [|lia|..]|].
  set (r1 := rt <| rt_output_closed := true |> <| rt_terminal_signals := _ |>).
  apply runtime_ok_tracked in Hok as [[Hj Hr Hf] He]. rewrite Hc in Hr.
  destruct (tracked_lifecycle carried stream (rt_resize_history rt) false ending true None r1 j es
    now OutputClosed None detail) as (j1 & es1 & Ht1 & Hrec1 & Hlen1); [done|lia|done|].
  set (r2 := journal_lifecycle _ _ _ _ r1) in *.
  pose proof (recorded_fields _ _ _ Hrec1) as (Eto & Eh & Ec & Hf1).
  destruct (checkpoint_tracked now idle _ _ _ _ _ _ _ _ Ht1 ltac:(lia) ltac:(by rewrite Eto) Hi)
    as (j2 & es2 & Ht2 & Hrec2 & Hlen2).
  set (r3 := journal_checkpoint now idle r2) in *.
  pose proof (recorded_trans _ _ _ _ _ Hrec1 Hrec2) as Hrec. clearbody r3. clear Hrec1 Hrec2 Ht1 Eto Eh Ec Hf1. clearbody r2.
  pose proof (recorded_fields _ _ _ Hrec) as (Eto & Eh & Ec & Hf3).
  assert (((λ p : LifecycleCode * option Z * bytes, p.1.1) <$> rt_pending_journal_completion r3) = ending) as Hpend.
  { destruct Hrec as (f & Hv & _). injection Hv as _ _ _ _ _ Hp _ _ _. rewrite Hp.
    pose proof (ea_pending _ _ He) as Hp'. cbn in Hp'. by rewrite Hc in Hp'. }
  assert (∀ r4 j' es', tracked carried stream (rt_resize_history rt) true ending r4 j' es' →
    recorded (view_of (r3 <| rt_pending_journal_completion := None |>)) (view_of r4) j' →
    runtime_ok carried stream (view_of r4) ending j' es'
    ∧ rt_filtered_total_bytes r4 = rt_filtered_total_bytes rt
    ∧ (rt_journal_failed rt = true → rt_journal_failed r4 = true)) as Hdone.
  { intros r4 j' es' Ht4 Hrec4. pose proof (recorded_fields _ _ _ Hrec4) as (E1 & E2 & E3 & E4).
    destruct Hrec as (f & Hv & Hm). injection Hv as _ Vf Vt Vh Vc Vp Ve Vs Vr. split_and!.
    - apply runtime_ok_tracked. rewrite E2, E3. cbn. rewrite Vh, Vc. split; [done|].
      apply (ends_as_recorded _ _ _ _ Hrec4). destruct He as [A1 A2 A3 A4 A5].
      split; cbn; rewrite ?Vc, ?Ve, ?Vs, ?Vr; done.
    - by rewrite E1.
    - intros Hfl. apply E4. cbn. rewrite Vf. by apply Hm. }
  destruct (rt_pending_journal_completion r3) as [[[code ex] d]|] eqn:Ep; cbn in Hpend; subst ending.
  - destruct (terminal_end_tracked carried stream (rt_resize_history rt) true None true (Some code)
      (r3 <| rt_pending_journal_completion := None |>) j2 es2 now code ex d) as (j4 & es4 & Ht4 & Hrec4 & Hlen4);
      [by destruct Ht2|lia|done|].
    exists j4, es4. destruct (Hdone _ _ _ Ht4 Hrec4) as (? & ? & ?). split_and!; [done|lia|done|done].
  - exists j2, es2. destruct (Hdone r3 j2 es2 Ht2) as (? & ? & ?); [|split_and!; [done|lia|done|done]].
    exists (rt_journal_failed r3). split; [|done]. unfold view_of, with_journal. cbn.
    by rewrite Ep, (tk_journal _ _ _ _ _ _ _ _ Ht2).
Qed.

(** *** Runs *)

Lemma on_runtime_ok f s ending j es :
  session_ok s ending j es →
  advances (pending (pr_scanner (ss_reader s))) (ss_stream s) (f (ss_runtime s)) es (ss_runtime s) →
  ∃ ending' j' es', session_ok (on_runtime f s) ending' j' es' ∧ len es' <= len es + 3.
Proof.
  intros [Hr Ht [(lost & Hs & Hl) Hti Hc] Hcl] (ending' & j' & es' & Hr' & Hlen & Hk1 & Hk2 & Hk3).
  exists ending', j', es'. split; [|lia]. split; cbn; [done|by rewrite Hk1| |by rewrite Hk2].
  split; cbn; [|done|done]. exists lost. split; [done|]. intros Hne. destruct (Hl Hne) as [? ?]. by split; [|apply Hk3].
Qed.

Lemma aside_advances m carried stream (rt : SessionRuntime) ending j es :
  runtime_ok carried stream (view_of rt) ending j es → len es + 3 <= u64_max →
  advances carried stream (rt <| rt_journal := Some (rc_aside m j) |>) es rt.
Proof.
  intros [Hj [Hl Hlo Hfo] Hf He] Hmax. exists ending, (rc_aside m j), es. split_and!; [|lia|done].
  split; [done| |cbn; by rewrite rc_aside_degraded|by destruct He].
  split; rewrite ?rc_aside_degraded; [by apply rc_aside_log|done|done].
Qed.

Lemma request_advances status carried stream (rt : SessionRuntime) ending j es :
  runtime_ok carried stream (view_of rt) ending j es → final_status status = true →
  advances carried stream (rt <| rt_requested_final_status := Some status |>
                              <| rt_meta := rt_meta rt <| sm_status := Stopping |> |>) es rt.
Proof.
  intros Hok Hfin. exists ending, j, es. split_and!; [|lia|done]. eapply runtime_ok_moved; [exact Hok|done..|].
  destruct (rk_ends _ _ _ _ _ _ Hok). split; try done. cbn. by intros x [= <-].
Qed.

Lemma close_out_ok now s ending j es :
  session_ok s ending j es → len es + 5 <= u64_max →
  ∃ j' es', session_ok (close_out now s) ending j' es' ∧ len es' <= len es + 3.
Proof.
  intros [Hr Ht [(lost & Hs & Hl) Hti Hc] Hcl] Hmax. unfold close_out.
  destruct (pr_closing (ss_reader s)) as [detail|] eqn:E.
  - destruct (close_output_ok now detail (is_idle (pr_scanner (ss_reader s))) _ _ _ _ _ _ Hr Hmax Ht) as (j' & es' & Hr' & Hlen & Ht' & Hf').
    { intros Hid%N.eqb_eq. by apply len_0. }
    exists j', es'. split; [|done]. split; cbn; [done|by rewrite Ht'| |intros _; rewrite E; by eexists].
    split; cbn; [|done|by rewrite E]. exists lost. rewrite E. split; [done|]. intros Hne. destruct (Hl Hne). by split; [|apply Hf'].
  - exists j, es. split; [|lia]. split; [done|done|split; rewrite ?E; [by exists lost|done|done]|by rewrite E].
Qed.

Lemma session_step_ok s op ending j es :
  session_ok s ending j es → op_ok op → len es + 5 <= u64_max →
  ∃ ending' j' es', session_ok (session_step s op) ending' j' es' ∧ len es' <= len es + 3.
Proof.
  intros Hok Hop Hmax. pose proof (so_runtime _ _ _ _ Hok) as Hr. pose proof (so_total _ _ _ _ Hok) as Hto.
  assert (∀ f, view_of (f (ss_runtime s)) = view_of (ss_runtime s) →
    ∃ ending' j' es', session_ok (on_runtime f s) ending' j' es' ∧ len es' <= len es + 3) as Hsame.
  { intros f Hv. eapply on_runtime_ok; [done|]. by eapply unchanged_advances. }
  destruct op; cbn [session_step]; try (apply Hsame; done).
  - destruct (read_chunk_ok now data _ _ _ _ Hok Hmax) as (? & ? & ? & ?). by do 3 eexists.
  - exists ending, j, es. split; [by apply broadcast_ok|lia].
  - exists ending, j, es. split; [by apply answer_ok|lia].
  - exists ending, j, es. split; [by apply end_reading_ok|lia].
  - destruct (close_out_ok now _ _ _ _ Hok Hmax) as (? & ? & ? & ?). by do 3 eexists.
  - eapply on_runtime_ok; [done|]. cbn beta. rewrite (rk_journal _ _ _ _ _ _ Hr : rt_journal _ = _).
    eapply aside_advances; [done|lia].
  - eapply on_runtime_ok; [done|]. eapply register_ok; [done|lia|done|done].
  - apply Hsame. unfold unregister_attachment, clear_attach_state. by destruct (is_empty _).
  - eapply on_runtime_ok; [done|]. destruct Hop. eapply resize_ok; [done|lia|done|done|done].
  - apply Hsame. by destruct (try_write_input _ _).
  - eapply on_runtime_ok; [done|]. eapply refresh_ok; [done|lia].
  - eapply on_runtime_ok; [done|]. eapply mark_completed_ok; [done|done|lia].
  - eapply on_runtime_ok; [done|]. cbn beta. destruct (is_completed _); [by eapply unchanged_advances|by eapply request_advances].
Qed.

Lemma session_run_ok ops s ending j es :
  session_ok s ending j es → Forall op_ok ops → len es + 3 * len ops + 5 <= u64_max →
  ∃ ending' j' es', session_ok (session_run s ops) ending' j' es' ∧ len es' <= len es + 3 * len ops.
Proof.
  revert s ending j es. induction ops as [|op ops IH]; intros s ending j es Hok Hops Hmax.
  { exists ending, j, es. split; [done|]. unfold len. cbn. lia. }
  apply Forall_cons in Hops as [Hop Hops]. rewrite len_cons in Hmax.
  destruct (session_step_ok s op ending j es Hok Hop ltac:(lia)) as (e1 & j1 & es1 & Hok1 & Hlen1).
  destruct (IH _ _ _ _ Hok1 Hops ltac:(lia)) as (e2 & j2 & es2 & Hok2 & Hlen2).
  exists e2, j2, es2. split; [done|]. rewrite len_cons. lia.
Qed.

(** *** The beginning *)

Lemma record_sequenced now kind payload (j : J) es :
  rc_log j es → len es + 3 <= u64_max →
  let j' := (rc_record now kind payload j).1 in
  ∃ es', rc_log j' es' ∧ sequenced kind payload (rc_degraded j) (rc_degraded j') es es'.
Proof.
  intros Hl Hmax. pose proof (rc_record_log j es now kind payload Hl Hmax) as Hr.
  destruct (rc_record now kind payload j) as [j' r]. cbn [fst].
  destruct Hr as [_ [(Hd & seq & time & Hl')|(Hd & Hl')]].
  - eexists. split; [done|]. left. split; [done|by do 2 eexists].
  - exists es. split; [done|by right].
Qed.

Lemma first_records_ok now rows cols pid (j0 : J) :
  rc_log j0 [] → 0 < rows <= u16_max → 0 < cols <= u16_max →
  let j := first_records now rows cols pid j0 in
  ∃ es, records_all [] [] [mk_resize 0 rows cols] false None j es ∧ len es <= 2.
Proof.
  intros Hl Hrows Hcols. unfold first_records. cbv zeta.
  destruct (record_sequenced now Resize (encode_resize_payload rows cols) j0 [] Hl ltac:(done)) as (es1 & Hl1 & Hs1).
  set (j1 := (rc_record now Resize _ j0).1) in *.
  assert (len es1 <= 1 ∧ codes es1 = [] ∧ ∀ r, r ∈ es1 → rec_kind r = Resize) as (Hlen1 & Hc1 & Ho1).
  { destruct Hs1 as [(_ & seq & time & ->)|(_ & ->)]; (split_and!; [done|done|]); set_solver. }
  assert (logged [] [] [mk_resize 0 rows cols] es1 (rc_degraded j1)) as Hlg1.
  { eapply (logged_event [] [] [] [] [] _ Resize _ [] es1 (rc_degraded j0)); [|exact Hs1| |done|by eexists].
    - split; [|done|done|done]. intros before r after Heq. by destruct before.
    - intros Hlg seq time. apply (logged_other _ _ _ _ (mk_record Resize seq time (encode_resize_payload rows cols))) in Hlg; [|done|by intros ?%anchored_kind].
      unfold resize_at in Hlg. rewrite bool_decide_eq_true_2 in Hlg by done. cbn [rec_payload] in Hlg.
      by rewrite decode_encode_resize in Hlg. }
  set (text := encode_lifecycle_payload Started None _).
  destruct (record_sequenced now Lifecycle text j1 es1 Hl1 ltac:(unfold u64_max; lia)) as (es2 & Hl2 & Hs2).
  set (j2 := (rc_record now Lifecycle _ j1).1) in *.
  exists es2. split.
  - split; [done| |].
    + intros _. eapply (logged_event [] [] _ [] [] _ Lifecycle _ es1 es2 (rc_degraded j1)); [exact Hlg1|exact Hs2| |done|done].
      intros Hlg seq time. apply logged_silent; [done..|]. by intros ?%anchored_kind.
    + assert (codes es2 = [Started] ∨ rc_degraded j2 = true ∧ codes es2 = []) as Hc2.
      { destruct Hs2 as [(_ & seq & time & ->)|(Hd & ->)]; [left|by right].
        unfold text. by rewrite codes_snoc, Hc1, lifecycle_code_encode. }
      split.
      * destruct Hc2 as [-> |[_ ->]]; [done|apply prefix_nil].
      * intros Hd. destruct Hc2 as [Hc2|[Hd' _]]; [exact Hc2|congruence].
      * intros before r after -> Hk. assert (r ∈ before ++ r :: after) as Hin by set_solver.
        destruct Hs2 as [(_ & seq & time & Heq)|(_ & Heq)]; rewrite Heq in Hin.
        -- apply elem_of_app in Hin as [Hin%Ho1|Hin]; [congruence|]. apply list_elem_of_singleton in Hin. by subst r.
        -- apply Ho1 in Hin. congruence.
  - destruct Hs2 as [(_ & seq & time & ->)|(_ & ->)]; [rewrite len_app; change (len [_]) with 1|]; lia.
Qed.

Lemma spawn_ok now meta rows cols notifications scrollback e j0 :
  rc_log j0 [] → 0 < rows <= u16_max → 0 < cols <= u16_max →
  sm_ended_at meta = None → final_status (sm_status meta) = false →
  ∃ j es, session_ok (spawned (spawn_session now meta rows cols notifications scrollback e j0)) None j es
    ∧ len es <= 2.
Proof.
  intros Hl Hrows Hcols Hend Hst.
  set (pid := match sm_pid meta with Some pid => show_dec pid | None => bs "?" end).
  destruct (first_records_ok now rows cols pid j0 Hl Hrows Hcols) as (es & Hr & Hlen).
  exists (first_records now rows cols pid j0), es. split; [|done]. split; [|done| |done].
  - split; [done|done|done|]. split; cbn; [done|rewrite Hend; split; by intros []|done|congruence|done].
  - split; cbn; [|done|done]. by exists [].
Qed.
End Invariant.

(** ** The theorems *)

Section SessionTheorems.
Context `{Base64, Engine} {J : Type} `{Recorder J, !RecorderLaws J}.

Lemma reachable_ok now meta rows cols notifications scrollback e (j0 : J) ops :
  rc_log j0 [] → 0 < rows <= u16_max → 0 < cols <= u16_max →
  sm_ended_at meta = None → final_status (sm_status meta) = false →
  Forall op_ok ops → 3 * len ops + 7 <= u64_max →
  ∃ ending j es, session_ok
    (session_run (spawned (spawn_session now meta rows cols notifications scrollback e j0)) ops) ending j es
    ∧ len es <= 3 * len ops + 2.
Proof.
  intros Hl Hrows Hcols Hend Hst Hops Hmax.
  destruct (spawn_ok now meta rows cols notifications scrollback e j0 Hl Hrows Hcols Hend Hst) as (j & es & Hok & Hlen).
  destruct (session_run_ok ops _ None j es Hok Hops ltac:(lia)) as (ending & j' & es' & Hok' & Hlen').
  exists ending, j', es'. split; [done|lia].
Qed.

(** C4: The journal is honest about what clients are sent.  Whatever the child
    prints, whoever attaches, resizes or types, whatever the appender thread
    does meanwhile, the recording is honest: each checkpoint with an offset
    was written between two escape sequences and names the bytes shown before
    it.  Filtered again, the recording is the beginning of the stream the
    reader showed, with the resizes at the offsets they happened at, and all
    of it while the journal is not degraded; the chunks broadcast are
    consecutive pieces of that stream, and all of it once the reader rests. *)
Theorem recording_matches_broadcast now meta rows cols notifications scrollback e (j0 : J) ops :
  rc_log j0 [] → 0 < rows <= u16_max → 0 < cols <= u16_max →
  sm_ended_at meta = None → final_status (sm_status meta) = false →
  Forall op_ok ops → 3 * len ops + 7 <= u64_max →
  let s := session_run (spawned (spawn_session now meta rows cols notifications scrollback e j0)) ops in
  let rt := ss_runtime s in
  len (ss_stream s) <= u64_max →
  ∃ j es, rt_journal rt = Some j ∧ rc_log j es ∧ honest es
    ∧ display_stream es `prefix_of` ss_stream s
    ∧ resize_history [] 0 es `prefix_of` rt_resize_history rt
    ∧ (rc_degraded j = false → display_stream es = ss_stream s ∧ resize_history [] 0 es = rt_resize_history rt)
    ∧ filtered_stream_len rt = len (ss_stream s)
    ∧ tiles 0 (ss_broadcast s) ∧ concat (map chunk_bytes (ss_broadcast s)) `prefix_of` ss_stream s
    ∧ (idle_reader (ss_reader s) = true → concat (map chunk_bytes (ss_broadcast s)) = ss_stream s).
Proof.
  intros Hl Hrows Hcols Hend Hst Hops Hmax s rt Hle.
  destruct (reachable_ok now meta rows cols notifications scrollback e j0 ops) as (ending & j & es & [Hr Ht Hb _] & _); [done..|].
  fold s in Hr, Ht, Hb. destruct (rk_records _ _ _ _ _ _ Hr) as [Hlog Hlg _]. specialize (Hlg Hle).
  pose proof Hb as [(lost & Hs & _) Hti _]. rewrite map_app, concat_app, <- app_assoc in Hs.
  exists j, es. split_and!.
  - exact (rk_journal _ _ _ _ _ _ Hr).
  - exact Hlog.
  - by destruct Hlg.
  - by destruct Hlg.
  - by destruct Hlg.
  - intros Hd. destruct (lo_live _ _ _ _ _ Hlg Hd) as [Hsh Hhi]. unfold display_stream. by rewrite Hsh.
  - unfold filtered_stream_len, rt. rewrite Ht. lia.
  - specialize (Hti Hle). by apply tiles_app in Hti as [? _].
  - rewrite Hs. by eexists.
  - intros (Ho & _ & Hc)%idle_reader_fields. by destruct (broadcasting_idle _ Hb Ho Hc).
Qed.

(** C17: A session's end is recorded once and in order.  At every moment the
    lifecycle a journal holds is, while it is not degraded, that the session
    started, then, once the output is closed, that it closed, and then, once
    the session has ended, how it ended; one that is degraded has the
    beginning of it.  No output follows the closing, however the exit of the
    child, the end of its output, a kill and the status poll race. *)
Theorem end_recorded_in_order now meta rows cols notifications scrollback e (j0 : J) ops :
  rc_log j0 [] → 0 < rows <= u16_max → 0 < cols <= u16_max →
  sm_ended_at meta = None → final_status (sm_status meta) = false →
  Forall op_ok ops → 3 * len ops + 7 <= u64_max →
  let s := session_run (spawned (spawn_session now meta rows cols notifications scrollback e j0)) ops in
  let rt := ss_runtime s in
  ∃ j es ending, rt_journal rt = Some j ∧ rc_log j es
    ∧ (is_Some (sm_ended_at (rt_meta rt)) ↔ is_Some ending)
    ∧ (is_completed rt = true → is_Some ending) ∧ (∀ code, ending = Some code → code ∈ final_codes)
    ∧ codes es `prefix_of` Started :: (if rt_output_closed rt then OutputClosed :: opt_list ending else [])
    ∧ (rc_degraded j = false →
       codes es = Started :: (if rt_output_closed rt then OutputClosed :: opt_list ending else []))
    ∧ (∀ before r after, es = before ++ r :: after → rec_kind r = Output → OutputClosed ∉ codes before).
Proof.
  intros Hl Hrows Hcols Hend Hst Hops Hmax s rt.
  destruct (reachable_ok now meta rows cols notifications scrollback e j0 ops) as (ending & j & es & [Hr _ _ _] & _); [done..|].
  fold s in Hr. destruct (rk_records _ _ _ _ _ _ Hr) as [Hlog _ [Hc Hli Hout]].
  destruct (rk_ends _ _ _ _ _ _ Hr) as [Hfin Hended _ Hstat _].
  exists j, es, ending. split_and!.
  - exact (rk_journal _ _ _ _ _ _ Hr).
  - exact Hlog.
  - exact Hended.
  - intros Hcomp. by apply Hended, Hstat.
  - exact Hfin.
  - exact Hc.
  - exact Hli.
  - exact Hout.
Qed.

(** *** Failure *)

(** The journal is degraded and the fail-loud flag is not set. *)
Definition unnoticed (es : list Rec) (rt : SessionRuntime (J:=J)) : Prop :=
  ∃ j, rt_journal rt = Some j ∧ rc_log j es ∧ rc_degraded j = true ∧ rt_journal_failed rt = false.

(** It is not degraded, or the flag is set; its log has [n] records at most. *)
Definition noticed (n : N) (rt : SessionRuntime (J:=J)) : Prop :=
  ∃ j es, rt_journal rt = Some j ∧ rc_log j es ∧ len es <= n
    ∧ (rc_degraded j = true → rt_journal_failed rt = true).

Lemma unnoticed_event now kind payload es rt :
  unnoticed es rt → len es + 3 <= u64_max → unnoticed es (journal_event (rc_record now kind payload) rt).
Proof.
  intros (j & Hj & Hl & Hd & Hf) Hmax. unfold journal_event. rewrite Hj, Hd.
  pose proof (rc_record_log j es now kind payload Hl Hmax) as Hr.
  destruct (rc_record now kind payload j) as [j' r]. rewrite andb_false_r. exists j'.
  destruct Hr as [_ [[Hd' _]|[Hd' Hl']]]; [congruence|]. by split_and!.
Qed.

Lemma noticed_event now kind payload n rt :
  noticed n rt → n + 3 <= u64_max → noticed (n + 1) (journal_event (rc_record now kind payload) rt).
Proof.
  intros (j & es & Hj & Hl & Hn & Hnt) Hmax.
  destruct (journal_event_view now kind payload rt j es Hj Hl ltac:(lia)) as (j' & es' & Hv & Hl' & _ & Hlen).
  exists j', es'. injection Hv as -> -> _ _ _ _ _ _ _. split_and!; [done|done|lia|]. intros Hd. rewrite Hd.
  destruct (rc_degraded j); [by rewrite Hnt|by rewrite orb_true_r].
Qed.

Lemma unnoticed_view es rt rt' :
  rt_journal rt' = rt_journal rt → rt_journal_failed rt' = rt_journal_failed rt → unnoticed es rt → unnoticed es rt'.
Proof. unfold unnoticed. by intros -> ->. Qed.

Lemma noticed_view n rt rt' :
  rt_journal rt' = rt_journal rt → rt_journal_failed rt' = rt_journal_failed rt → noticed n rt → noticed n rt'.
Proof. unfold noticed. by intros -> ->. Qed.

(** Both pass through a locked section. *)
Lemma ingest_passes (P : N → SessionRuntime (J:=J) → Prop) now data shown mlen changed idle n rt :
  (∀ n r r', rt_journal r' = rt_journal r → rt_journal_failed r' = rt_journal_failed r → P n r → P n r') →
  (∀ n r kind payload, P n r → n + 3 <= u64_max → P (n + 1) (journal_event (rc_record now kind payload) r)) →
  (∀ n m r, P n r → n <= m → P m r) →
  P n rt → n + 5 <= u64_max → P (n + 3) (ingest now data shown mlen changed idle rt).1.
Proof.
  intros Hview Hevent Hmono Hp Hmax. unfold ingest.
  assert (P (n + 1) (journal_output now data rt)) as Hp1 by (apply Hevent; [done|lia]).
  set (rt1 := journal_output now data rt) in *. clearbody rt1.
  pose proof (feed_engine_view data rt1) as Hv2. destruct (feed_engine data rt1) as [rt2 resp]. cbn [fst] in Hv2.
  set (rt3 := match changed with Some signals => (publish_terminal_signals signals rt2).1 | None => rt2 end).
  assert (view_of rt3 = view_of rt1) as Hv3.
  { rewrite <- Hv2. unfold rt3. destruct changed; [apply publish_view|done]. }
  clearbody rt3. pose proof (push_output_view now shown mlen rt3) as Hv4.
  set (rt4 := push_output now shown mlen rt3) in *. clearbody rt4.
  assert (P (n + 1) rt4) as Hp4.
  { eapply Hview; [| |exact Hp1]; [injection Hv3 as <- _ _ _ _ _ _ _ _|injection Hv3 as _ <- _ _ _ _ _ _ _]; by injection Hv4. }
  assert (P (n + 2) (journal_modes_if_changed now rt4)) as Hp5.
  { unfold journal_modes_if_changed. case_bool_decide; [by eapply Hmono; [exact Hp4|lia]|].
    unfold journal_policy, record_policy_event. rewrite modes_not_refused.
    apply (Hview _ (journal_event (rc_record now Policy (policy_payload (bs "modes")
      (modes_value (modes_load (rt_shared_modes rt4))))) rt4)); [done|done|].
    replace (n + 2) with (n + 1 + 1) by lia. apply Hevent; [done|lia]. }
  set (rt5 := journal_modes_if_changed now rt4) in *. clearbody rt5.
  assert (P (n + 3) (journal_checkpoint_if_due now idle rt5)) as Hp6.
  { unfold journal_checkpoint_if_due, journal_checkpoint. destruct (_ <=? _); [|by eapply Hmono; [exact Hp5|lia]].
    destruct (rt_journal rt5) eqn:Ej; [|by eapply Hmono; [exact Hp5|lia]].
    apply (Hview _ (journal_event (rc_record now CheckpointRef (encode_checkpoint (checkpoint_of idle rt5))) rt5));
      [done|done|].
    replace (n + 3) with (n + 2 + 1) by lia. apply Hevent; [done|lia]. }
  destruct (rt_journal_failed (journal_checkpoint_if_due now idle rt5)); [|done].
  by apply (Hview _ (journal_checkpoint_if_due now idle rt5)).
Qed.

Lemma ingest_stop now data shown mlen changed idle (rt : SessionRuntime (J:=J)) :
  let '(rt', (_, _, stop)) := ingest now data shown mlen changed idle rt in
  if rt_journal_failed rt' then is_Some stop ∧ rt_requested_final_status rt' = Some Failed else stop = None.
Proof.
  unfold ingest. destruct (feed_engine data (journal_output now data rt)) as [rt2 resp].
  set (rt3 := match changed with Some _ => _ | None => _ end).
  set (rt6 := journal_checkpoint_if_due _ _ _). destruct (rt_journal_failed rt6) eqn:Hf; cbn; rewrite Hf; [|done].
  split; [by eexists|done].
Qed.

(** A journal failure stops the session, unless the status poll sees it
    first.  A chunk whose recording finds the journal failing stops the reader
    and asks for a failed session, as ADR-0006 wants; a poll of the status
    never sets the fail-loud flag, and once it has let the journal degrade,
    every further chunk is taken and shown with nothing recorded and nothing
    stopped. *)
Theorem poll_silences_failure now data shown mlen changed idle exited (rt : SessionRuntime (J:=J)) j es :
  rt_journal rt = Some j → rc_log j es → len es + 5 <= u64_max →
  let '(rt', (_, _, stop)) := ingest now data shown mlen changed idle rt in
  (rc_degraded j = false → ∀ j', rt_journal rt' = Some j' → rc_degraded j' = true →
     is_Some stop ∧ rt_requested_final_status rt' = Some Failed)
  ∧ (rc_degraded j = true → rt_journal_failed rt = false →
     stop = None ∧ unnoticed es rt'
     ∧ (exited = Ok None → rt_journal_failed (refresh_status now exited rt').1 = false)).
Proof.
  intros Hj Hl Hmax. pose proof (ingest_stop now data shown mlen changed idle rt) as Hstop.
  assert (rc_degraded j = false → noticed (len es + 3) (ingest now data shown mlen changed idle rt).1) as Hnot.
  { intros Hd. apply (ingest_passes noticed); [apply noticed_view|intros; by apply noticed_event| | |lia].
    - intros n m r (k & ks & ? & ? & ? & ?) Hnm. exists k, ks. split_and!; [done|done|lia|done].
    - exists j, es. split_and!; [done|done|lia|congruence]. }
  assert (rc_degraded j = true → rt_journal_failed rt = false →
    unnoticed es (ingest now data shown mlen changed idle rt).1) as Hun.
  { intros Hd Hf. apply (ingest_passes (λ _, unnoticed es) now data shown mlen changed idle (len es) rt);
      [intros _; apply unnoticed_view| |done|by exists j|done].
    intros n r kind payload Hu _. apply unnoticed_event; [done|lia]. }
  destruct (ingest now data shown mlen changed idle rt) as [rt' [[resp off] stop]]. cbn [fst] in *. split.
  - intros Hd j' Hj' Hd'. destruct (Hnot Hd) as (k & ks & Hk & _ & _ & Hn). rewrite Hj' in Hk. injection Hk as <-.
    by rewrite (Hn Hd') in Hstop.
  - intros Hd Hf. specialize (Hun Hd Hf). pose proof Hun as (k & Hk & Hlk & Hdk & Hfk). rewrite Hfk in Hstop.
    split_and!; [done|done|]. intros ->. unfold refresh_status. rewrite Hk.
    destruct (is_completed _); [by destruct (rt_completed_at _)|]. by case_bool_decide.
Qed.
End SessionTheorems.

(** ** Witnesses *)

#[local] Existing Instance csv_serde.
#[local] Existing Instance csv_laws.
#[local] Existing Instance no_base64.

(** An engine that keeps its size and answers a bell. *)
Definition plain_engine : Engine := {|
  engine := N * N;
  eng_feed data e := (e, if existsb (λ b, b =b x07) data then [Bell; Respond (bs "ok")] else []);
  eng_modes _ := mk_engine_modes false false false false false false;
  eng_size e := e;
  eng_cursor_position _ := (0, 0);
  eng_resize rows cols _ := (rows, cols);
  eng_snapshot_stream _ := bs "screen";
  eng_styled_history_rows _ _ := [];
|}.
#[local] Existing Instance plain_engine.

Definition sample_engine : @engine plain_engine := (24, 80).

Definition sample_journal (w : World) : Scheduled :=
  mk_scheduled (open_with_options 7 4096 0 w) [].

Definition sample_laws : RecorderLaws Scheduled := scheduled_laws 4096 7 [].
#[local] Existing Instance sample_laws.

Lemma sample_journal_log w : w_store w = sample_storage → rc_log (sample_journal w) [].
Proof.
  intros Hw. exists []. split; [|done]. split; [|done]. apply journal_ok_open; [|done|done].
  rewrite Hw. apply sample_fresh.
Qed.

Definition sample_meta : SessionMeta :=
  mk_meta (bs "abc1234") None [] (bs "sh") [] None 0 None None None Created (Some 42) None true None None.

#[local] Abbreviation sample_spawn w :=
  (spawned (spawn_session 0 sample_meta 24 80 true 100 sample_engine (sample_journal w))) (only parsing).

(** Output cut inside an escape sequence, a resize between, a stop, the exit
    and the end of the output. *)
Definition sample_ops : list (SessionOp (J:=Scheduled)) :=
  [OpRead 1 (bs "hello" ++ [x1b]); OpAside [MoveTake; MoveHandle 2]; OpResize 2 true 30 100; OpBroadcast;
   OpRead 3 (bs "[1mworld" ++ [x07]); OpBroadcast; OpAnswer; OpAttach 4 true Cli Controller (Some (24, 80));
   OpRequest Stopped; OpTick 5 (Ok (Some 0%Z)); OpEndReading (bs "eof"); OpCloseOut 6].

#[local] Abbreviation sample_session :=
  (session_run (sample_spawn (mk_world sample_storage [])) sample_ops) (only parsing).

Lemma sample_ops_ok : Forall op_ok sample_ops.
Proof. unfold sample_ops. repeat constructor; by vm_compute. Qed.

Lemma recording_matches_broadcast_witness :
  ∃ j es, rt_journal (ss_runtime sample_session) = Some j ∧ rc_log j es ∧ honest es
    ∧ display_stream es = ss_stream sample_session
    ∧ ss_stream sample_session = bs "hello" ++ [x1b] ++ bs "[1mworld" ++ [x07].
Proof.
  destruct (recording_matches_broadcast 0 sample_meta 24 80 true 100 sample_engine (sample_journal (mk_world sample_storage []))
    sample_ops) as (j & es & Hj & Hl & Hh & _ & _ & Hd & _).
  - by apply sample_journal_log.
  - done.
  - done.
  - done.
  - done.
  - exact sample_ops_ok.
  - by vm_compute.
  - by vm_compute.
  - exists j, es. split; [exact Hj|]. split; [exact Hl|]. split; [exact Hh|]. split; [|by vm_compute].
    apply Hd. assert (rc_degraded <$> rt_journal (ss_runtime sample_session) = Some false) as Hc by by vm_compute.
    rewrite Hj in Hc. by injection Hc.
Defined.

Lemma end_recorded_in_order_witness :
  ∃ es, codes es = [Started; OutputClosed; RecordFormat.Stopped] ∨ codes es = [Started; OutputClosed; RecordFormat.Killed]
    ∨ codes es = [Started; OutputClosed; RecordFormat.Failed].
Proof.
  assert (rc_degraded <$> rt_journal (ss_runtime sample_session) = Some false) as Hd by by vm_compute.
  assert (rt_output_closed (ss_runtime sample_session) = true) as Ho by by vm_compute.
  assert (is_completed (ss_runtime sample_session) = true) as Hc by by vm_compute.
  pose proof (end_recorded_in_order 0 sample_meta 24 80 true 100 sample_engine (sample_journal (mk_world sample_storage []))
    sample_ops) as Hend. cbv zeta in Hend. revert Hd Ho Hc Hend. generalize sample_session. intros s Hd Ho Hc Hend.
  destruct Hend as (j & es & ending & Hj & _ & _ & Hcomp & Hf & _ & Hes & _).
  - by apply sample_journal_log.
  - done.
  - done.
  - done.
  - done.
  - exact sample_ops_ok.
  - by vm_compute.
  - exists es. rewrite Hj in Hd. injection Hd as Hd. rewrite Hes, Ho by done. destruct (Hcomp Hc) as [code ->].
    specialize (Hf code eq_refl). unfold final_codes in Hf. set_solver.
Defined.

(** The first write to the device fails; the appender says so, and a status
    poll hears it before the next chunk. *)
#[local] Abbreviation silent_spawn :=
  (sample_spawn (mk_world sample_storage [None; None; Some (0, Other)])) (only parsing).
Definition silent_ops : list (SessionOp (J:=Scheduled)) :=
  [OpAside [MoveTake; MoveHandle 1; MoveTake; MoveHandle 1]; OpTick 2 (Ok None)].
#[local] Abbreviation silent_session := (session_run silent_spawn silent_ops) (only parsing).

Lemma silent_reached :
  ∃ ending j es, session_ok silent_session ending j es ∧ len es <= 8.
Proof.
  destruct (spawn_ok 0 sample_meta 24 80 true 100 sample_engine (sample_journal (mk_world sample_storage [None; None; Some (0, Other)])))
    as (j & es & Hok & Hlen); [by apply sample_journal_log|done..|].
  destruct (session_run_ok silent_ops _ None j es Hok) as (ending & j' & es' & Hok' & Hlen').
  - unfold silent_ops. repeat constructor.
  - change (len silent_ops) with 2. unfold u64_max. lia.
  - exists ending, j', es'. split; [exact Hok'|]. change (len silent_ops) with 2 in Hlen'. lia.
Qed.

Lemma poll_silences_failure_witness :
  ∃ rt es, (ingest 3 (bs "lost") (bs "lost") 4 None true rt).2.2 = None
    ∧ unnoticed es (ingest 3 (bs "lost") (bs "lost") 4 None true rt).1.
Proof.
  destruct silent_reached as (ending & j & es & [Hr _ _ _] & Hlen).
  assert (rc_degraded <$> rt_journal (ss_runtime silent_session) = Some true) as Hd by by vm_compute.
  assert (rt_journal_failed (ss_runtime silent_session) = false) as Hf by by vm_compute.
  revert Hr Hd Hf. generalize silent_session. intros s Hr Hd Hf.
  destruct (rk_records _ _ _ _ _ _ Hr) as [Hlog _ _]. pose proof (rk_journal _ _ _ _ _ _ Hr) as Hj.
  change (rt_journal (ss_runtime s) = Some j) in Hj. rewrite Hj in Hd. injection Hd as Hd. exists (ss_runtime s), es.
  pose proof (poll_silences_failure 3 (bs "lost") (bs "lost") 4 None true (Ok None) (ss_runtime s) j es Hj Hlog
    ltac:(unfold u64_max; lia)) as H.
  destruct (ingest _ _ _ _ _ _ _) as [rt' [[resp off] stop]]. destruct H as [_ H].
  by destruct (H Hd Hf) as (-> & Hu & _).
Defined.
