(* ===== verification/Mouse.v ===== *)
(** * Mouse input

    [src/src/mouse.rs]: the operator's mouse specifications, [mouse:left+2@3,4],
    and their encoding in the reporting form the child has negotiated, SGR or
    legacy X11.  The theorem says that the text of an input parses to that
    input and that what is sent for it decodes, by a reader of SGR reports
    written from the xterm protocol, to exactly the presses, releases and
    ticks asked for, at the position asked for. *)

From S2P Require Import Prelude Text.

(** ** Events, as [crossterm] has them *)

Inductive MouseButton := Left | Right | Middle.

Inductive MouseEventKind :=
  | Down (b : MouseButton)
  | Up (b : MouseButton)
  | Drag (b : MouseButton)
  | Moved
  | ScrollDown
  | ScrollUp
  | ScrollLeft
  | ScrollRight.

Record KeyModifiers := mk_modifiers { shift : bool; control : bool; alt : bool }.
Definition no_modifiers : KeyModifiers := mk_modifiers false false false.

Record MouseEvent := mk_event {
  mo_kind : MouseEventKind;
  mo_column : N;
  mo_row : N;
  mo_modifiers : KeyModifiers;
}.

(** ** Encoding *)

Definition button_code (kind : MouseEventKind) : N :=
  match kind with
  | Down Left | Up Left => 0
  | Down Middle | Up Middle => 1
  | Down Right | Up Right => 2
  | Drag Left => 32
  | Drag Middle => 33
  | Drag Right => 34
  | Moved => 35
  | ScrollUp => 64
  | ScrollDown => 65
  | ScrollLeft => 66
  | ScrollRight => 67
  end.

(** [u8::try_from(x).ok()?.checked_add(n)]. *)
Definition u8_plus (x n : N) : option N :=
  if x + n <=? u8_max then Some (x + n) else None.

Definition encode_mouse_event (mouse : MouseEvent) (sgr : bool) : option bytes :=
  let mods := mo_modifiers mouse in
  let cb := button_code (mo_kind mouse) in
  let cb := if shift mods then cb + 4 else cb in
  let cb := if alt mods then cb + 8 else cb in
  let cb := if control mods then cb + 16 else cb in
  if sgr then
    let cx := mo_column mouse + 1 in
    let cy := mo_row mouse + 1 in
    let suffix := match mo_kind mouse with Up _ => bs "m" | _ => bs "M" end in
    Some ([x1b] ++ bs "[<" ++ show_dec cb ++ bs ";" ++ show_dec cx ++ bs ";" ++ show_dec cy ++ suffix)
  else
    match mo_kind mouse with
    | Drag _ | Moved => None
    | kind =>
        let base := match kind with Up _ => 3 | _ => cb end in
        cb ← u8_plus base 32;
        cx ← u8_plus (mo_column mouse) 33;
        cy ← u8_plus (mo_row mouse) 33;
        Some ([x1b] ++ bs "[M" ++ [byte_of cb; byte_of cx; byte_of cy])
    end.

(** ** Specifications *)

Definition MAX_MOUSE_EVENTS : N := 1000.

Definition MOUSE_USAGE : bytes :=
  bs "use mouse:left@col,row, mouse:middle@col,row, mouse:right@col,row, or mouse:wheel; append +N for 1..1000 clicks/ticks (wheel -N scrolls down); 1-based @col,row is required for clicks and optional for wheel, e.g. mouse:left+2@2,3".

Record MouseInput := mk_input {
  mi_kind : MouseEventKind;
  mi_repeat : N;
  mi_position : option (N * N);
}.

(** [s.is_empty() || !s.bytes().all(is_ascii_digit)], negated. *)
Definition digits (s : bytes) : bool :=
  match s with [] => false | _ => forallb is_ascii_digit s end.

Definition parse_coord (s : bytes) : result bytes N :=
  if negb (digits s) then Err MOUSE_USAGE
  else match parse_unsigned u16_max s with
       | Some n => if 1 <=? n then Ok (n - 1) else Err MOUSE_USAGE
       | None => Err MOUSE_USAGE
       end.

Definition is_sign (b : byte) : bool := (b =b x2b) || (b =b x2d).

Definition parse_count (count : bytes) : result bytes N :=
  match count with
  | [] => Ok 1
  | _ :: digits_ =>
      if negb (digits digits_) then Err MOUSE_USAGE
      else match parse_unsigned u32_max digits_ with
           | Some n => if (1 <=? n) && (n <=? MAX_MOUSE_EVENTS) then Ok n else Err MOUSE_USAGE
           | None => Err MOUSE_USAGE
           end
  end.

Definition parse_kind (button : bytes) (down : bool) : result bytes MouseEventKind :=
  if bool_decide (button = bs "left") && negb down then Ok (Down Left)
  else if bool_decide (button = bs "middle") && negb down then Ok (Down Middle)
  else if bool_decide (button = bs "right") && negb down then Ok (Down Right)
  else if bool_decide (button = bs "wheel") then Ok (if down then ScrollDown else ScrollUp)
  else Err MOUSE_USAGE.

Definition parse_position (spec : bytes) : result bytes (bytes * option (N * N)) :=
  match split_once x40 spec with
  | Some (action, coords) =>
      match split_once x2c coords with
      | None => Err MOUSE_USAGE
      | Some (col, row) =>
          match parse_coord col with
          | Err e => Err e
          | Ok col => match parse_coord row with
                      | Err e => Err e
                      | Ok row => Ok (action, Some (col, row))
                      end
          end
      end
  | None => Ok (spec, None)
  end.

Definition parse_mouse_spec (spec : bytes) : result bytes MouseInput :=
  match parse_position spec with
  | Err e => Err e
  | Ok (action, position) =>
      let '(button, count) := span (λ b, negb (is_sign b)) action in
      let down := starts_with (bs "-") count in
      match parse_count count with
      | Err e => Err e
      | Ok repeat =>
          match parse_kind button down with
          | Err e => Err e
          | Ok kind =>
              match kind, position with
              | Down _, None =>
                  Err (bs "mouse:" ++ button ++ bs " requires @col,row (1-based viewport coordinates), e.g. mouse:"
                       ++ button ++ bs "@2,3")
              | _, _ => Ok (mk_input kind repeat position)
              end
          end
      end
  end.

(** ** Resolving an input against the live modes and geometry *)

Definition legacy_error : bytes :=
  bs "mouse position cannot be represented by legacy X11 encoding (maximum column/row 223); use a smaller position or enable SGR mouse reporting".

(** [slice::repeat]. *)
Definition repeat_bytes (n : N) (l : bytes) : bytes := concat (replicate (N.to_nat n) l).

Definition encode (input : MouseInput) (rows cols : N) (mouse_report sgr : bool) : result bytes bytes :=
  if negb mouse_report then
    Err (bs "mouse reporting is disabled; use the application's keys (for example key:pgup or key:pgdn)")
  else
    let '(column, row) := default (cols / 2, rows / 2) (mi_position input) in
    if (cols <=? column) || (rows <=? row) then
      Err (bs "mouse position is outside the live viewport (" ++ show_dec cols ++ bs " columns, "
           ++ show_dec rows ++ bs " rows)")
    else
      let event kind := mk_event kind column row no_modifiers in
      match encode_mouse_event (event (mi_kind input)) sgr with
      | None => Err legacy_error
      | Some tick =>
          match mi_kind input with
          | Down button =>
              match encode_mouse_event (event (Up button)) sgr with
              | None => Err legacy_error
              | Some release => Ok (repeat_bytes (mi_repeat input) (tick ++ release))
              end
          | _ => Ok (repeat_bytes (mi_repeat input) tick)
          end
      end.

(** ** Reading reports back *)

(** A reader of SGR reports, [ESC \[ < code ; column ; row M|m], 1-based, from
    the xterm protocol. *)
Definition read_report (l : bytes) : option (N * N * N * bool * bytes) :=
  l ← strip_prefix ([x1b] ++ bs "[<") l;
  let '(code, l) := span is_ascii_digit l in
  l ← strip_prefix (bs ";") l;
  let '(column, l) := span is_ascii_digit l in
  l ← strip_prefix (bs ";") l;
  let '(row, l) := span is_ascii_digit l in
  code ← parse_unsigned u64_max code;
  column ← parse_unsigned u64_max column;
  row ← parse_unsigned u64_max row;
  match l with
  | b :: l => if b =b x4d then Some (code, column - 1, row - 1, true, l)
              else if b =b x6d then Some (code, column - 1, row - 1, false, l) else None
  | [] => None
  end.

Fixpoint read_reports (fuel : nat) (l : bytes) : option (list (N * N * N * bool)) :=
  match fuel, l with
  | _, [] => Some []
  | O, _ => None
  | S fuel, _ =>
      '(code, column, row, pressed, l) ← read_report l;
      rest ← read_reports fuel l;
      Some ((code, column, row, pressed) :: rest)
  end.

Definition report (code column row : N) (pressed : bool) : bytes :=
  [x1b] ++ bs "[<" ++ show_dec code ++ bs ";" ++ show_dec (column + 1) ++ bs ";" ++ show_dec (row + 1)
  ++ (if pressed then bs "M" else bs "m").

Lemma read_report_spec code column row pressed l :
  code <= u64_max → column < u64_max → row < u64_max →
  read_report (report code column row pressed ++ l) = Some (code, column, row, pressed, l).
Proof.
  intros Hc Hx Hy. unfold read_report, report. rewrite <- !app_assoc.
  rewrite (app_assoc [x1b]), strip_prefix_app. cbn [mbind option_bind].
  change (bs ";" ++ ?x) with (x3b :: x). rewrite span_show_dec by done.
  change (x3b :: ?x) with (bs ";" ++ x). rewrite strip_prefix_app. cbn [mbind option_bind].
  change (bs ";" ++ ?x) with (x3b :: x). rewrite span_show_dec by done.
  change (x3b :: ?x) with (bs ";" ++ x). rewrite strip_prefix_app. cbn [mbind option_bind].
  destruct pressed; [change (bs "M" ++ l) with (x4d :: l)|change (bs "m" ++ l) with (x6d :: l)];
    rewrite span_show_dec, !parse_show_dec by (done || lia); cbn; by rewrite !N.add_sub.
Qed.

Lemma read_reports_app reports fuel l rest :
  (length reports <= fuel)%nat → read_reports (fuel - length reports) l = Some rest →
  Forall (λ r, r.1.1.1 <= u64_max ∧ r.1.1.2 < u64_max ∧ r.1.2 < u64_max) reports →
  read_reports fuel (concat (map (λ '(code, column, row, pressed), report code column row pressed) reports) ++ l)
  = Some (reports ++ rest).
Proof.
  revert fuel. induction reports as [|[[[code column] row] pressed] reports IH]; intros fuel Hf Hl Hb.
  { cbn in *. by rewrite Nat.sub_0_r in Hl. }
  apply Forall_cons in Hb as [(Hc & Hx & Hy) Hb]. cbn [length fst snd] in *. destruct fuel as [|fuel]; [lia|].
  cbn [map concat app]. rewrite <- app_assoc. set (tail := concat _ ++ l).
  assert (∀ x : bytes, read_reports (S fuel) (report code column row pressed ++ x)
    = '(code, column, row, pressed, l) ← read_report (report code column row pressed ++ x);
      rest ← read_reports fuel l; Some ((code, column, row, pressed) :: rest)) as -> by done.
  rewrite read_report_spec by done. cbn [mbind option_bind]. unfold tail.
  rewrite (IH fuel); [done|lia|done|done].
Qed.

(** *** The text of an input *)

Definition kind_text (kind : MouseEventKind) : bytes :=
  match kind with
  | Down Left => bs "left+"
  | Down Middle => bs "middle+"
  | Down Right => bs "right+"
  | ScrollUp => bs "wheel+"
  | _ => bs "wheel-"
  end.

Definition spec_text (kind : MouseEventKind) (n : N) (position : option (N * N)) : bytes :=
  kind_text kind ++ show_dec n
  ++ match position with
     | Some (column, row) => bs "@" ++ show_dec (column + 1) ++ bs "," ++ show_dec (row + 1)
     | None => []
     end.

(** The kinds an operator can ask for; a click says where. *)
Definition askable (kind : MouseEventKind) (position : option (N * N)) : Prop :=
  match kind with
  | Down _ => is_Some position
  | ScrollUp | ScrollDown => True
  | _ => False
  end.

(** What one unit of an input makes a terminal report. *)
Definition unit_reports (kind : MouseEventKind) (column row : N) : list (N * N * N * bool) :=
  (button_code kind, column, row, true)
  :: match kind with Down b => [(button_code kind, column, row, false)] | _ => [] end.

Lemma parse_coord_spec n : n < u16_max → parse_coord (show_dec (n + 1)) = Ok n.
Proof.
  intros Hn. unfold parse_coord, digits. rewrite show_dec_digits.
  destruct (show_dec (n + 1)) eqn:E; [by apply show_dec_nonempty in E|]. rewrite <- E. cbn [negb].
  rewrite parse_show_dec by (unfold u16_max, u64_max in *; lia). leb_to true. by rewrite N.add_sub.
Qed.

Lemma parse_count_spec b n : 1 <= n <= MAX_MOUSE_EVENTS → parse_count (b :: show_dec n) = Ok n.
Proof.
  intros Hn. unfold parse_count, digits. rewrite show_dec_digits.
  destruct (show_dec n) eqn:E; [by apply show_dec_nonempty in E|]. rewrite <- E. cbn [negb].
  unfold MAX_MOUSE_EVENTS in *. rewrite parse_show_dec by (unfold u32_max, u64_max; lia). by repeat (leb_to true).
Qed.

Lemma no_sign_at n c : is_ascii_digit c = false → contains_byte c (show_dec n) = false.
Proof. intros Hc. apply digits_no_byte; [apply show_dec_digits|done]. Qed.

Lemma parse_position_spec kind n position :
  (∀ column row, position = Some (column, row) → column < u16_max ∧ row < u16_max) →
  parse_position (spec_text kind n position) = Ok (kind_text kind ++ show_dec n, position).
Proof.
  intros Hp. assert (contains_byte x40 (kind_text kind ++ show_dec n) = false) as Hno.
  { unfold contains_byte. rewrite existsb_app. apply orb_false_iff. split; [by destruct kind as [[]|[]|[]| | | | |]|].
    by apply no_sign_at. }
  unfold parse_position, spec_text. destruct position as [[column row]|].
  - destruct (Hp column row eq_refl) as [Hx Hy]. rewrite app_assoc. change (bs "@" ++ ?x) with (x40 :: x).
    rewrite split_once_spec by done. change (bs "," ++ ?x) with (x2c :: x).
    rewrite split_once_spec by (by apply no_sign_at). by rewrite !parse_coord_spec.
  - rewrite app_nil_r. rewrite (split_once_none x40); [done|]. done.
Qed.

Lemma encode_event_sgr kind column row :
  encode_mouse_event (mk_event kind column row no_modifiers) true
  = Some (report (button_code kind) column row (match kind with Up _ => false | _ => true end)).
Proof. by destruct kind as [[]|[]|[]| | | | |]. Qed.

(** The legacy form has a byte for each coordinate. *)
Lemma encode_event_legacy kind column row position :
  askable kind position ∨ (∃ b, kind = Up b) →
  is_Some (encode_mouse_event (mk_event kind column row no_modifiers) false) ↔ column <= 222 ∧ row <= 222.
Proof.
  intros Hk. assert (∀ (c : N) (o : option N), o = Some c →
    is_Some (cb ← o; cx ← u8_plus column 33; cy ← u8_plus row 33;
             Some ([x1b] ++ bs "[M" ++ [byte_of cb; byte_of cx; byte_of cy])) ↔ column <= 222 ∧ row <= 222) as Hgo.
  { intros c o ->. cbn [mbind option_bind]. unfold u8_plus, u8_max.
    destruct (N.leb_spec (column + 33) 255); cbn [mbind option_bind].
    2:{ split; [by intros [? ?]|lia]. }
    destruct (N.leb_spec (row + 33) 255); cbn [mbind option_bind]; (split; intros Hs); first [by destruct Hs|by eexists|lia]. }
  destruct kind as [[]|[]|[]| | | | |]; try (by destruct Hk as [[]|[? ?]]); by eapply Hgo.
Qed.

Lemma legacy_unit kind n column row rows cols position :
  askable kind position → default (cols / 2, rows / 2) position = (column, row) →
  column < cols → row < rows →
  is_ok (encode (mk_input kind n position) rows cols true false) = true ↔ column <= 222 ∧ row <= 222.
Proof.
  intros Hk Hp Hc Hr. unfold encode. cbn [negb mi_position mi_kind mi_repeat]. rewrite Hp.
  leb_to false. leb_to false. cbn [orb].
  pose proof (encode_event_legacy kind column row position (or_introl Hk)) as He.
  destruct (encode_mouse_event (mk_event kind column row no_modifiers) false) as [tick|].
  - assert (column <= 222 ∧ row <= 222) as Hb by (apply He; by eexists).
    destruct kind as [b|b|b| | | | |]; try (by destruct Hk); (split; [done|]); try done. intros _.
    destruct (encode_event_legacy (Up b) column row position) as [_ Hu]; [right; by eexists|].
    by destruct (Hu Hb) as [x ->].
  - split; [done|]. intros Hb. by destruct (proj2 He Hb).
Qed.

(** What an operator asks of the mouse is what the child's terminal
    reports.  The text of a click or a wheel movement parses to it; inside the
    live viewport and with SGR reporting the bytes sent read back as exactly
    the asked number of presses with their releases, or of ticks, at the asked
    position, or in the middle for a wheel without one; the legacy form is
    refused exactly beyond its 223 columns and rows; and outside the viewport,
    or with reporting off, nothing is sent. *)
Theorem mouse_roundtrip kind n position rows cols :
  askable kind position → 1 <= n <= MAX_MOUSE_EVENTS → rows <= u16_max → cols <= u16_max →
  (∀ column row, position = Some (column, row) → column < u16_max ∧ row < u16_max) →
  let input := mk_input kind n position in
  let '(column, row) := default (cols / 2, rows / 2) position in
  parse_mouse_spec (spec_text kind n position) = Ok input
  ∧ (column < cols → row < rows →
     (∃ out, encode input rows cols true true = Ok out
        ∧ read_reports (2 * N.to_nat n) out = Some (concat (replicate (N.to_nat n) (unit_reports kind column row))))
     ∧ (is_ok (encode input rows cols true false) = true ↔ column <= 222 ∧ row <= 222))
  ∧ (∀ report sgr, report = false ∨ cols <= column ∨ rows <= row →
     is_ok (encode input rows cols report sgr) = false).
Proof.
  intros Hk Hn Hrows Hcols Hp input. destruct (default _ position) as [column row] eqn:Hd. split_and!.
  - unfold parse_mouse_spec. rewrite parse_position_spec by done.
    assert (parse_count (x2b :: show_dec n) = Ok n ∧ parse_count (x2d :: show_dec n) = Ok n) as [Hplus Hminus]
      by (split; by apply parse_count_spec).
    destruct kind as [[]|[]|[]| | | | |]; try (by destruct Hk); cbn -[parse_count show_dec];
      rewrite ?Hplus, ?Hminus; cbn -[show_dec]; [by destruct position; [|destruct Hk]..|done|done].
  - intros Hc Hr. split; [|by apply legacy_unit]. unfold encode. cbn [negb mi_position mi_kind mi_repeat input]. rewrite Hd.
    leb_to false. leb_to false. cbn [orb]. rewrite !encode_event_sgr. set (reports := unit_reports kind column row).
    set (out := concat (map (λ '(code, column, row, pressed), report code column row pressed) reports)).
    assert (length reports <= 2)%nat as Hlen by (unfold reports, unit_reports; by destruct kind as [b|b|b| | | | |]; cbn; lia).
    exists (repeat_bytes n out). split.
    { unfold out, reports, unit_reports. destruct kind as [b|b|b| | | | |]; try (by destruct Hk);
        rewrite ?encode_event_sgr; cbn [map concat]; rewrite ?app_nil_r; done. }
    unfold repeat_bytes. rewrite <- (app_nil_r (concat (replicate _ reports))), <- (app_nil_r (concat (replicate _ out))).
    assert (concat (replicate (N.to_nat n) out)
      = concat (map (λ '(code, column, row, pressed), report code column row pressed) (concat (replicate (N.to_nat n) reports)))) as ->.
    { generalize (N.to_nat n). intros m. induction m as [|m IH]; [done|]. cbn [replicate concat].
      by rewrite map_app, concat_app, <- IH. }
    apply read_reports_app.
    + assert (∀ m, length (concat (replicate m reports)) = m * length reports)%nat as ->; [|rewrite (Nat.mul_comm 2); by apply Nat.mul_le_mono_l].
      intros m. induction m as [|m IH]; [done|]. cbn [replicate concat]. rewrite length_app, IH. lia.
    + by destruct (_ - _)%nat.
    + apply Forall_concat, Forall_replicate. unfold reports, unit_reports. unfold u16_max, u64_max in *.
      destruct kind as [[]|[]|[]| | | | |]; repeat constructor; cbn; lia.
  - intros rep sgr Hno. unfold encode. cbn [mi_position input]. rewrite Hd. destruct Hno as [-> |Hno]; [done|].
    destruct rep; [|done]. cbn [negb]. assert ((cols <=? column) || (rows <=? row) = true) as ->; [|done].
    apply orb_true_iff. by rewrite !N.leb_le.
Qed.

(** ** Witness *)

Lemma mouse_roundtrip_witness :
  parse_mouse_spec (bs "left+2@3,4") = Ok (mk_input (Down Left) 2 (Some (2, 3)))
  ∧ ∃ out, encode (mk_input (Down Left) 2 (Some (2, 3))) 24 80 true true = Ok out
      ∧ read_reports 4 out = Some [(0, 2, 3, true); (0, 2, 3, false); (0, 2, 3, true); (0, 2, 3, false)].
Proof.
  assert (∀ column row, Some (2, 3) = Some (column, row) → column < u16_max ∧ row < u16_max) as Hp
    by by intros column row [= <- <-].
  destruct (mouse_roundtrip (Down Left) 2 (Some (2, 3)) 24 80) as (Hparse & Hin & _); [by eexists|done|done|done|done|].
  split; [exact Hparse|]. destruct (Hin ltac:(done) ltac:(done)) as [Hout _]. exact Hout.
Defined.
