(* ===== verification/Client.v ===== *)
(** * The attach client

    The command-line client of an attach stream ([src/src/client/attach.rs]
    with [src/src/client/cursor.rs]): the cursor that checks every chunk, the
    credits it reports, what it draws, and what it sends for the keys, pastes,
    mouse events and resizes of the local terminal.  The build modelled is not
    the Windows one.  The theorems say that a client draws exactly the
    consecutive bytes it was sent, however the frames are batched, or stops
    with an error before the first wrong byte; that an observer never sends
    input; and that the keys a terminal can name are told apart by the
    sequences sent for them. *)

From S2P Require Import Prelude Utf8 Text Disk Pump Mouse Wire.

(** ** The stream cursor *)

(** [expected]: the next expected offset. *)
Abbreviation StreamCursor := N (only parsing).

Definition accept (offset length : N) (expected : StreamCursor) : StreamCursor * result AppError unit :=
  if negb (offset =? expected) then
    (expected, Err (Protocol (bs "attach stream cursor mismatch: expected offset " ++ show_dec expected
       ++ bs ", chunk starts at " ++ show_dec offset ++ bs " ("
       ++ (if offset <? expected then bs "duplicate/overlap" else bs "gap")
       ++ bs "); aborting instead of rendering a corrupt screen")))
  else (u64_sat_add offset length, Ok tt).

Definition abs_diff (a b : N) : N := if a <? b then b - a else a - b.

(** [finish]; no final offset is [0]. *)
Definition finish_cursor (final_offset : N) (expected : StreamCursor) : result AppError unit :=
  if negb (final_offset =? 0) && negb (final_offset =? expected) then
    Err (Protocol (bs "attach stream ended at offset " ++ show_dec final_offset ++ bs " but "
      ++ show_dec (abs_diff final_offset expected) ++ bs " bytes are unaccounted for (applied up to "
      ++ show_dec expected ++ bs ")"))
  else Ok tt.

(** ** Keys *)

(** As [crossterm] has them; characters are scalar values. *)
Inductive KeyCode :=
  | Backspace | Enter | KLeft | KRight | KUp | KDown | Home | End | PageUp | PageDown
  | Tab | BackTab | Delete | Insert | F (n : N) | Char (c : N) | Esc | OtherKey.

Inductive KeyEventKind := Press | Repeat | Release.

Record KeyEvent := mk_key {
  key_code : KeyCode;
  key_modifiers : KeyModifiers;
  key_kind : KeyEventKind;
}.

Definition is_press (key : KeyEvent) : bool := match key_kind key with Press => true | _ => false end.

Definition is_clipboard_paste_key (key : KeyEvent) : bool :=
  is_press key
  && (match key_code key with
      | Char c => (c =? 0x16) || (control (key_modifiers key) && ((c =? 118) || (c =? 86)))
      | Insert => shift (key_modifiers key)
      | _ => false
      end).

Definition is_ctrl_d (key : KeyEvent) : bool :=
  match key_code key with
  | Char c => (c =? 4) || (control (key_modifiers key) && ((c =? 100) || (c =? 68)))
  | _ => false
  end.

Definition ESC : byte := x1b.

(** xterm's modifier parameter: 1 + Shift(1) + Alt(2) + Ctrl(4). *)
Definition modifier_param (mods : KeyModifiers) : option N :=
  let value := 1 in
  let value := if shift mods then value + 1 else value in
  let value := if alt mods then value + 2 else value in
  let value := if control mods then value + 4 else value in
  if 1 <? value then Some value else None.

Definition alt_prefix (mods : KeyModifiers) (data : bytes) : bytes :=
  if alt mods then ESC :: data else data.

(** [CSI 1;{param}{letter}] *)
Definition csi_modified (number : bytes) (param : N) (final : bytes) : bytes :=
  ESC :: bs "[" ++ number ++ bs ";" ++ show_dec param ++ final.

Definition to_ascii_lowercase (c : N) : N := if (65 <=? c) && (c <=? 90) then c + 32 else c.

(** The Ctrl+@/digit family. *)
Definition legacy_control (lower : N) : option byte :=
  if existsb (N.eqb lower) [50; 32] then Some x00
  else if existsb (N.eqb lower) [51; 91] then Some x1b
  else if existsb (N.eqb lower) [52; 92] then Some x1c
  else if existsb (N.eqb lower) [53; 93] then Some x1d
  else if existsb (N.eqb lower) [54; 94; 126] then Some x1e
  else if existsb (N.eqb lower) [55; 95] then Some x1f
  else if existsb (N.eqb lower) [56] then Some x7f
  else None.

Definition map_char (c : N) (mods : KeyModifiers) : option bytes :=
  if control mods then
    let lower := to_ascii_lowercase c in
    match legacy_control lower with
    | Some byte => Some (alt_prefix mods [byte])
    | None =>
        if 128 <=? c then None
        else Some (alt_prefix mods [byte_of (N.land lower 0x1f)])
    end
  else if alt mods then Some (ESC :: utf8_encode1 c)
  else Some (utf8_encode1 c).

Definition map_function (n : N) (mods : KeyModifiers) : bytes :=
  let ss3_letter :=
    if n =? 1 then Some (bs "P") else if n =? 2 then Some (bs "Q")
    else if n =? 3 then Some (bs "R") else if n =? 4 then Some (bs "S") else None in
  match ss3_letter with
  | Some letter =>
      match modifier_param mods with
      | Some param => csi_modified (bs "1") param letter
      | None => ESC :: bs "O" ++ letter
      end
  | None =>
      let number :=
        if n =? 5 then bs "15" else if n =? 6 then bs "17" else if n =? 7 then bs "18"
        else if n =? 8 then bs "19" else if n =? 9 then bs "20" else if n =? 10 then bs "21"
        else if n =? 11 then bs "23" else bs "24" in
      match modifier_param mods with
      | Some param => csi_modified number param (bs "~")
      | None => ESC :: bs "[" ++ number ++ bs "~"
      end
  end.

Definition map_key_to_input (key : KeyEvent) (app_cursor_keys : bool) : option bytes :=
  let mods := key_modifiers key in
  let arrow (letter : bytes) :=
    Some match modifier_param mods with
         | Some param => csi_modified (bs "1") param letter
         | None => if app_cursor_keys then ESC :: bs "O" ++ letter else ESC :: bs "[" ++ letter
         end in
  let edge (letter : bytes) :=
    Some match modifier_param mods with
         | Some param => csi_modified (bs "1") param letter
         | None => ESC :: bs "[" ++ letter
         end in
  let page (number : bytes) :=
    Some match modifier_param mods with
         | Some param => csi_modified number param (bs "~")
         | None => ESC :: bs "[" ++ number ++ bs "~"
         end in
  match key_code key with
  | Enter => Some (alt_prefix mods [x0d])
  | Tab => Some (alt_prefix mods (if shift mods then ESC :: bs "[Z" else [x09]))
  | BackTab => Some (alt_prefix mods (ESC :: bs "[Z"))
  | Backspace => Some (alt_prefix mods (if control mods then [x08] else [x7f]))
  | Esc => Some (if alt mods then [ESC; ESC] else [ESC])
  | KUp => arrow (bs "A")
  | KDown => arrow (bs "B")
  | KRight => arrow (bs "C")
  | KLeft => arrow (bs "D")
  | Home => edge (bs "H")
  | End => edge (bs "F")
  | Insert => page (bs "2")
  | Delete => page (bs "3")
  | PageUp => page (bs "5")
  | PageDown => page (bs "6")
  | F n => Some (map_function n mods)
  | Char c => map_char c mods
  | OtherKey => None
  end.

(** ** Pastes *)

Definition wrap_paste_input (data : bytes) (bracketed_paste_mode : bool) : bytes :=
  if len data =? 0 then []
  else if bracketed_paste_mode then (ESC :: bs "[200~") ++ data ++ (ESC :: bs "[201~")
  else data.

(** [replace]: CRLF first, then what CR is left. *)
Fixpoint normalize_clipboard_text (data : bytes) : bytes :=
  match data with
  | [] => []
  | b :: data =>
      if b =b x0d then
        x0a :: match data with
               | c :: rest => if c =b x0a then normalize_clipboard_text rest else normalize_clipboard_text data
               | [] => []
               end
      else b :: normalize_clipboard_text data
  end.

(** ** The client *)

Definition MAX_BATCHED_FRAME_BYTES : N := 1024 * 1024.
Definition ACK_STRIDE_BYTES : N := 1024 * 1024.

(** [cl_stdout]: the session's bytes written to the terminal; [cl_synced]: the
    mouse and focus modes the local terminal was put in. *)
Record Client := mk_client {
  cl_id : bytes;
  cl_can_drive : bool;
  cl_cursor : StreamCursor;
  cl_last_acked : N;
  cl_stdout : bytes;
  cl_modes : ModeSnapshot;
  cl_synced : list (bool * bool);
  cl_last_sent_size : N * N;
  cl_replaced_paste : bool;
  cl_running : bool;
  cl_detached : bool;
  cl_error : option AppError;
}.

#[export] Instance Client_eta : Settable Client := λ c,
  mk_client (cl_id c) (cl_can_drive c) (cl_cursor c) (cl_last_acked c) (cl_stdout c) (cl_modes c)
    (cl_synced c) (cl_last_sent_size c) (cl_replaced_paste c) (cl_running c) (cl_detached c) (cl_error c).

(** What follows the init frame: nothing has been drawn of the stream yet. *)
Definition started (id role : bytes) (end_offset : N) (running : bool) (modes : ModeSnapshot)
    (size : N * N) : Client := {|
  cl_id := id; cl_can_drive := negb (bytes_eqb role (bs "observer")); cl_cursor := end_offset;
  cl_last_acked := 0; cl_stdout := []; cl_modes := modes;
  cl_synced := [(mouse_report modes, focus_events modes)]; cl_last_sent_size := size;
  cl_replaced_paste := false; cl_running := running; cl_detached := false; cl_error := None;
|}.

Definition maybe_send_ack (c : Client) : Client * list RpcRequest :=
  if u64_add (cl_last_acked c) ACK_STRIDE_BYTES <=? cl_cursor c
  then (c <| cl_last_acked := cl_cursor c |>, [AttachAppliedCursor (cl_id c) (cl_cursor c)])
  else (c, []).

Definition stop_with (e : AppError) (c : Client) : Client :=
  c <| cl_error := Some e |> <| cl_running := false |>.

(** ** Drawing *)

(** A response of the stream on the client, with the batch of output so far;
    [size] is the terminal's.  The flag tells whether the loop over the
    queued frames breaks off here. *)
Definition client_response (size : N * N) (response : RpcResponse) (batch : bytes) (c : Client)
    : Client * bytes * bool :=
  match response with
  | AttachStreamChunk offset data =>
      match accept offset (len data) (cl_cursor c) with
      | (_, Err e) => (stop_with e c, batch, true)
      | (cursor, Ok _) => (c <| cl_cursor := cursor |>, batch ++ data, false)
      end
  | AttachModeChanged modes =>
      let synced := if bool_decide ((mouse_report modes, focus_events modes)
                                    = (mouse_report (cl_modes c), focus_events (cl_modes c)))
                    then cl_synced c else cl_synced c ++ [(mouse_report modes, focus_events modes)] in
      (c <| cl_modes := modes |> <| cl_synced := synced |>, batch, false)
  | AttachResized _ _ => (c <| cl_last_sent_size := size |>, batch, false)
  | AttachStreamDone _ final_offset =>
      (match finish_cursor final_offset (cl_cursor c) with
       | Err e => stop_with e c
       | Ok _ => c <| cl_running := false |>
       end, batch, false)
  | ErrorResponse message => (stop_with (RequestFailed message) c, batch, true)
  | _ => (c, batch, false)
  end.

Definition response_of (frame : AttachFrame) : RpcResponse :=
  match frame with
  | FrameOutput offset data => AttachStreamChunk offset data
  | FrameControl response => response
  end.

(** The drain: the frames already queued are taken as long as the client runs
    and the batch is not full. *)
Fixpoint drain (size : N * N) (response : RpcResponse) (queue : list (result AppError AttachFrame))
    (batch : bytes) (c : Client) : Client * bytes * list (result AppError AttachFrame) :=
  match client_response size response batch c with
  | (c, batch, true) => (c, batch, queue)
  | (c, batch, false) =>
      if negb (cl_running c) || (MAX_BATCHED_FRAME_BYTES <=? len batch) then (c, batch, queue)
      else match queue with
           | Ok next :: queue => drain size (response_of next) queue batch c
           | Err e :: queue => (stop_with e c, batch, queue)
           | [] => (c, batch, [])
           end
  end.

(** [write_bytes_to_stdout], and what follows it: the batch is credited.  A
    write that fails after some bytes is the end of the attach. *)
Definition write_batch (fails : option (N * io_error_kind)) (batch : bytes) (c : Client) : Client * list RpcRequest :=
  match fails with
  | None => maybe_send_ack (c <| cl_stdout := cl_stdout c ++ batch |>)
  | Some (n, kind) => (stop_with (Io kind) (c <| cl_stdout := cl_stdout c ++ take (N.to_nat n) batch |>), [])
  end.

(** The frame arm of the loop: what [frame_rx] holds, the frames at hand
    first; the batch is written.  The frames left stay queued. *)
Definition on_frames (size : N * N) (fails : option (N * io_error_kind)) (queue : list (result AppError AttachFrame)) (c : Client)
    : Client * list RpcRequest * list (result AppError AttachFrame) :=
  match queue with
  | [] => (stop_with (Protocol (bs "daemon closed the connection")) c, [], [])
  | Err e :: queue => (stop_with e c, [], queue)
  | Ok frame :: queue =>
      let '(c, batch, queue) := drain size (response_of frame) queue [] c in
      if len batch =? 0 then (c, [], queue)
      else let '(c, acks) := write_batch fails batch c in (c, acks, queue)
  end.

(** The loop of a client whose input or output is a pipe. *)
Definition on_piped_frame (fails : option (N * io_error_kind)) (frame : result AppError AttachFrame) (c : Client)
    : Client * list RpcRequest :=
  match frame with
  | Err e => (stop_with e c, [])
  | Ok (FrameOutput offset data) =>
      match accept offset (len data) (cl_cursor c) with
      | (_, Err e) => (stop_with e c, [])
      | (cursor, Ok _) => write_batch fails data (c <| cl_cursor := cursor |>)
      end
  | Ok (FrameControl (AttachStreamDone _ final_offset)) =>
      (match finish_cursor final_offset (cl_cursor c) with
       | Err e => stop_with e c
       | Ok _ => c <| cl_running := false |>
       end, [])
  | Ok (FrameControl (ErrorResponse message)) => (stop_with (RequestFailed message) c, [])
  | Ok (FrameControl _) => (c, [])
  end.

(** The reader of the terminal is gone. *)
Definition on_input_end (c : Client) : Client := stop_with (Protocol (bs "terminal input stream ended")) c.

(** ** The local terminal *)

(** [clipboard]: what reading and, if need be, uploading the clipboard gives. *)
Inductive TerminalEvent :=
  | EvPaste (data : bytes)
  | EvFocusGained
  | EvFocusLost
  | EvResize (actual : N * N)
  | EvKey (key : KeyEvent) (clipboard : result AppError (option bytes))
  | EvMouse (mouse : MouseEvent).

Definition send_attach_input (c : Client) (data : bytes) (wait_for_change : bool) : list RpcRequest :=
  if len data =? 0 then [] else [AttachInput (cl_id c) data wait_for_change None].

(** [ClipboardFilePasteHandoff] *)
Definition record_paste (replaced : bool) (c : Client) : Client := c <| cl_replaced_paste := replaced |>.
Definition claim_shortcut (c : Client) : Client * bool :=
  (c <| cl_replaced_paste := false |>, cl_replaced_paste c).

Definition on_key (key : KeyEvent) (clipboard : result AppError (option bytes)) (c : Client)
    : Client * list RpcRequest :=
  if is_clipboard_paste_key key then
    match claim_shortcut c with
    | (c, true) => (c, [])
    | (c, false) =>
        match clipboard with
        | Err e => (stop_with e c, [])
        | Ok None => (c, [])
        | Ok (Some text) =>
            (c, send_attach_input c
                  (wrap_paste_input (normalize_clipboard_text text) (bracketed_paste_mode (cl_modes c))) true)
        end
    end
  else if negb (is_press key) then (c, [])
  else if is_ctrl_d key then (c <| cl_detached := true |> <| cl_running := false |>, [AttachDetach (cl_id c)])
  else if negb (cl_can_drive c) then (c, [])
  else match map_key_to_input key (app_cursor_keys (cl_modes c)) with
       | Some data => (c, send_attach_input c data false)
       | None => (c, [])
       end.

(** No clipboard file is ever replaced outside Windows. *)
Definition on_terminal (event : TerminalEvent) (c : Client) : Client * list RpcRequest :=
  match event with
  | EvPaste data =>
      if cl_can_drive c then
        let c := record_paste false c in
        (c, send_attach_input c (wrap_paste_input data (bracketed_paste_mode (cl_modes c))) false)
      else (c, [])
  | EvFocusGained =>
      (c, if cl_can_drive c && focus_events (cl_modes c)
          then send_attach_input c (ESC :: bs "[I") false else [])
  | EvFocusLost =>
      (c, if cl_can_drive c && focus_events (cl_modes c)
          then send_attach_input c (ESC :: bs "[O") false else [])
  | EvResize (cols, rows) =>
      if bool_decide ((cols, rows) = cl_last_sent_size c) then (c, [])
      else (c <| cl_last_sent_size := (cols, rows) |>, [AttachResize (cl_id c) rows cols])
  | EvKey key clipboard => on_key key clipboard c
  | EvMouse mouse =>
      if negb (cl_can_drive c) || negb (mouse_report (cl_modes c)) then (c, [])
      else match encode_mouse_event mouse (sgr_mouse (cl_modes c)) with
           | Some data => (c, send_attach_input c data false)
           | None => (c, [])
           end
  end.

Definition on_shutdown (c : Client) : Client * list RpcRequest :=
  (c <| cl_detached := true |> <| cl_running := false |>, [AttachDetach (cl_id c)]).

(** ** What a daemon may send, and what the client draws of it *)

(** The frames of one stream from cursor [c] to cursor [c']: output in
    consecutive pieces, notices in between, and at the end the final cursor;
    the flag tells whether they end with it. *)
Inductive flow (stream : bytes) : N → list AttachFrame → N → bool → Prop :=
  | flow_nil c : flow stream c [] c false
  | flow_output c data frames c' fin :
      piece stream c data → flow stream (c + len data) frames c' fin →
      flow stream c (FrameOutput c data :: frames) c' fin
  | flow_modes c modes frames c' fin :
      flow stream c frames c' fin → flow stream c (FrameControl (AttachModeChanged modes) :: frames) c' fin
  | flow_resized c rows cols frames c' fin :
      flow stream c frames c' fin → flow stream c (FrameControl (AttachResized rows cols) :: frames) c' fin
  | flow_refusal c message frames c' fin :
      flow stream c frames c' fin → flow stream c (FrameControl (ErrorResponse message) :: frames) c' fin
  | flow_done c exit_code : flow stream c [FrameControl (AttachStreamDone exit_code c)] c true.

(** What the client has drawn, with the batch it is about to draw, is the
    stream from where it started to its cursor. *)
Definition drawn (stream : bytes) (start : N) (batch : bytes) (c : Client) : Prop :=
  piece stream start (cl_stdout c ++ batch) ∧ cl_cursor c = start + len (cl_stdout c ++ batch).

(** An error the client may end with: one the reader found, or one the daemon
    reported; never a cursor out of step. *)
Definition honest (found : list (result AppError AttachFrame)) (e : AppError) : Prop :=
  Err e ∈ found ∨ ∃ message, e = RequestFailed message.

(** A client that goes on, one that has drawn everything, or one that ended
    with an honest error. *)
Definition status_ok (found : list (result AppError AttachFrame)) (end_ : N) (fin : bool) (c : Client) : Prop :=
  match cl_error c with
  | None => cl_running c = true ∨ (cl_running c = false ∧ cl_cursor c = end_ ∧ fin = true)
  | Some e => cl_running c = false ∧ honest found e
  end.

Lemma accept_ok offset length : offset + length <= u64_max → accept offset length offset = (offset + length, Ok tt).
Proof. intros. unfold accept. rewrite N.eqb_refl. cbn. by rewrite u64_sat_add_small. Qed.

Lemma finish_ok c : finish_cursor c c = Ok tt.
Proof. unfold finish_cursor. rewrite N.eqb_refl. by rewrite andb_false_r. Qed.

(** One response of the flow. *)
Lemma client_response_ok stream start size found frame frames end_ fin batch c :
  len stream <= u64_max → drawn stream start batch c → cl_running c = true → cl_error c = None →
  flow stream (cl_cursor c) (frame :: frames) end_ fin →
  let '(c', batch', stops) := client_response size (response_of frame) batch c in
  drawn stream start batch' c' ∧ cl_last_acked c' = cl_last_acked c ∧ cl_stdout c' = cl_stdout c
  ∧ cl_detached c' = cl_detached c ∧ cl_id c' = cl_id c
  ∧ (cl_running c' = true → flow stream (cl_cursor c') frames end_ fin ∧ stops = false ∧ cl_error c' = None)
  ∧ status_ok found end_ fin c'.
Proof.
  intros Hle [Hp Hc] Hrun Herr Hflow. unfold status_ok. inversion Hflow; subst; cbn [response_of client_response].
  - match goal with H : piece _ _ data |- _ => pose proof (piece_end _ _ _ H) end.
    rewrite accept_ok by lia. cbn. rewrite Herr. split_and!; try done; [split; cbn|by left].
    + rewrite app_assoc. apply piece_app. split; [done|]. by rewrite <- Hc.
    + rewrite app_assoc, len_app, Hc. lia.
  - cbn. rewrite Herr. split_and!; try done. by left.
  - cbn. rewrite Herr. split_and!; try done. by left.
  - cbn. split_and!; try done. right. by eexists.
  - rewrite finish_ok. cbn. rewrite Herr. split_and!; try done. by right.
Qed.

Lemma drain_eq size response queue batch c :
  drain size response queue batch c
  = match client_response size response batch c with
    | (c, batch, true) => (c, batch, queue)
    | (c, batch, false) =>
        if negb (cl_running c) || (MAX_BATCHED_FRAME_BYTES <=? len batch) then (c, batch, queue)
        else match queue with
             | Ok next :: queue => drain size (response_of next) queue batch c
             | Err e :: queue => (stop_with e c, batch, queue)
             | [] => (c, batch, [])
             end
    end.
Proof. by destruct queue. Qed.

Lemma drain_ok stream start size found rest frame frames end_ fin batch c :
  (length found <= 1)%nat → (∀ x, x ∈ found → is_ok x = false) →
  len stream <= u64_max → drawn stream start batch c → cl_running c = true → cl_error c = None →
  flow stream (cl_cursor c) (frame :: frames ++ rest) end_ fin →
  let '(c', batch', queue) := drain size (response_of frame) (map Ok frames ++ found) batch c in
  drawn stream start batch' c' ∧ cl_last_acked c' = cl_last_acked c ∧ cl_stdout c' = cl_stdout c
  ∧ cl_detached c' = cl_detached c ∧ cl_id c' = cl_id c
  ∧ ∃ frames', status_ok found end_ fin c'
    ∧ (cl_running c' = true → queue = map Ok frames' ++ found ∧ cl_error c' = None
        ∧ flow stream (cl_cursor c') (frames' ++ rest) end_ fin).
Proof.
  intros Hone Hbad Hle. revert frame batch c.
  induction frames as [|next frames IH]; intros frame batch c Hd Hrun Herr Hflow;
    pose proof (client_response_ok stream start size found frame _ end_ fin batch c Hle Hd Hrun Herr Hflow) as Hr;
    rewrite drain_eq; cbn [map app] in *; destruct (client_response _ _ _ _) as [[c1 batch1] stops];
    destruct Hr as (Hd1 & Ha & Ho & Hde & Hid & Hgo & Hst).
  - destruct stops; cbv beta iota.
    { split_and!; [done..|]. exists []. split; [exact Hst|]. intros He. by destruct (Hgo He) as (? & ? & ?). }
    destruct (negb (cl_running c1) || _) eqn:Estop; cbv beta iota.
    { split_and!; [done..|]. exists []. split; [exact Hst|]. intros He. by destruct (Hgo He) as (? & ? & ?). }
    apply orb_false_iff in Estop as [Hrun1%negb_false_iff _].
    destruct (Hgo Hrun1) as (Hflow1 & _ & He1).
    destruct found as [|x found]; cbn [app].
    + split_and!; [done..|]. exists []. by split.
    + destruct x as [a|e]; [by specialize (Hbad (Ok a) ltac:(by left))|].
      assert (found = []) as -> by (destruct found; [done|cbn in Hone; lia]).
      cbn. split_and!; [exact Hd1|done..|]. exists []. split; [|done]. unfold status_ok. cbn. split; [done|].
      left. by left.
  - destruct stops; cbv beta iota.
    { split_and!; [done..|]. exists (next :: frames). split; [exact Hst|]. intros He. by destruct (Hgo He) as (? & ? & ?). }
    destruct (negb (cl_running c1) || _) eqn:Estop; cbv beta iota.
    { split_and!; [done..|]. exists (next :: frames). split; [exact Hst|]. intros He. by destruct (Hgo He) as (? & ? & ?). }
    apply orb_false_iff in Estop as [Hrun1%negb_false_iff _].
    destruct (Hgo Hrun1) as (Hflow1 & _ & He1).
    specialize (IH next batch1 c1 Hd1 Hrun1 He1 Hflow1).
    destruct (drain _ _ _ _ _) as [[c' batch'] queue]. destruct IH as (H1 & H2 & H3 & H4 & H5 & H6).
    rewrite H2, H3, H4, H5. by split_and!.
Qed.

(** Everything taken off the queue at once, or frame by frame; [rest] is
    still on its way. *)
Lemma on_frames_ok stream start size found rest frames end_ fin c :
  (length found <= 1)%nat → (∀ x, x ∈ found → is_ok x = false) → frames ≠ [] ∨ found ≠ [] →
  len stream <= u64_max → drawn stream start [] c → cl_running c = true → cl_error c = None →
  flow stream (cl_cursor c) (frames ++ rest) end_ fin →
  let '(c', acks, queue) := on_frames size None (map Ok frames ++ found) c in
  drawn stream start [] c' ∧ cl_detached c' = cl_detached c ∧ cl_id c' = cl_id c
  ∧ (acks = [] ∧ cl_last_acked c' = cl_last_acked c
       ∨ acks = [AttachAppliedCursor (cl_id c) (cl_cursor c')] ∧ cl_last_acked c' = cl_cursor c')
  ∧ (cl_cursor c' = cl_cursor c ∨ cl_cursor c' < u64_add (cl_last_acked c') ACK_STRIDE_BYTES
       ∨ cl_last_acked c' = cl_cursor c')
  ∧ ∃ frames', status_ok found end_ fin c'
    ∧ (cl_running c' = true → queue = map Ok frames' ++ found ∧ cl_error c' = None
        ∧ flow stream (cl_cursor c') (frames' ++ rest) end_ fin).
Proof.
  intros Hone Hbad Hne Hle Hd Hrun Herr Hflow. destruct frames as [|frame frames]; cbn [map app] in *.
  - destruct found as [|[a|e] found]; [by destruct Hne|by specialize (Hbad (Ok a) ltac:(by left))|].
    cbn. split_and!; [exact Hd|done|done|by left|by left|]. exists []. split; [|done].
    unfold status_ok. cbn. split; [done|]. left. by left.
  - cbn [on_frames].
    pose proof (drain_ok stream start size found rest frame frames end_ fin [] c Hone Hbad Hle Hd Hrun Herr Hflow) as Hr.
    destruct (drain _ _ _ _ _) as [[c1 batch] queue].
    destruct Hr as (Hd1 & Ha & Ho & Hde & Hid & frames' & Hst & Hq).
    destruct (N.eqb_spec (len batch) 0) as [->%len_0|Hnz].
    + split_and!; [exact Hd1|done|done|left; by split| |by exists frames'].
      left. destruct Hd as [_ ->], Hd1 as [_ ->]. by rewrite Ho.
    + unfold write_batch, maybe_send_ack.
      change (cl_last_acked (c1 <| cl_stdout := cl_stdout c1 ++ batch |>)) with (cl_last_acked c1).
      change (cl_cursor (c1 <| cl_stdout := cl_stdout c1 ++ batch |>)) with (cl_cursor c1).
      assert (drawn stream start [] (c1 <| cl_stdout := cl_stdout c1 ++ batch |>)) as Hd2.
      { destruct Hd1 as [Hp Hc]. split; cbn; by rewrite app_nil_r. }
      destruct (N.leb_spec (u64_add (cl_last_acked c1) ACK_STRIDE_BYTES) (cl_cursor c1)) as [Hack|Hack]; cbn.
      * split_and!; [exact Hd2|done|done|right; by rewrite Hid|by right; right|exists frames'].
        split; [exact Hst|exact Hq].
      * split_and!; [exact Hd2|done|done|by left|right; left; exact Hack|exists frames'].
        split; [exact Hst|exact Hq].
Qed.

(** The piped client, frame by frame. *)
Lemma on_piped_frame_ok stream start found frames end_ fin c r frames' :
  len stream <= u64_max → drawn stream start [] c → cl_running c = true → cl_error c = None →
  flow stream (cl_cursor c) frames end_ fin →
  (∃ frame, r = Ok frame ∧ frames = frame :: frames') ∨ (is_ok r = false ∧ r ∈ found ∧ frames' = frames) →
  let '(c', acks) := on_piped_frame None r c in
  drawn stream start [] c' ∧ cl_detached c' = cl_detached c ∧ cl_id c' = cl_id c
  ∧ (acks = [] ∧ cl_last_acked c' = cl_last_acked c
       ∨ acks = [AttachAppliedCursor (cl_id c) (cl_cursor c')] ∧ cl_last_acked c' = cl_cursor c')
  ∧ (cl_cursor c' = cl_cursor c ∨ cl_cursor c' < u64_add (cl_last_acked c') ACK_STRIDE_BYTES
       ∨ cl_last_acked c' = cl_cursor c')
  ∧ status_ok found end_ fin c'
  ∧ (cl_running c' = true → cl_error c' = None ∧ flow stream (cl_cursor c') frames' end_ fin).
Proof.
  intros Hle Hd Hrun Herr Hflow [(frame & -> & ->)|(Hbad & Hin & ->)].
  - destruct Hd as [Hp Hc]. rewrite app_nil_r in Hp, Hc. unfold status_ok.
    inversion Hflow; subst; cbn [on_piped_frame].
    + match goal with H : piece _ _ data |- _ => pose proof (piece_end _ _ _ H) end.
      rewrite accept_ok by lia. unfold write_batch, maybe_send_ack.
      set (c1 := c <| cl_cursor := _ |> <| cl_stdout := _ |>).
      assert (drawn stream start [] c1) as Hd1.
      { unfold c1. split; cbn; rewrite app_nil_r; [apply piece_app; split; [done|by rewrite <- Hc]|].
        rewrite len_app, Hc. lia. }
      destruct (N.leb_spec (u64_add (cl_last_acked c1) ACK_STRIDE_BYTES) (cl_cursor c1)) as [Hack|Hack]; cbn;
        rewrite Herr.
      * split_and!; [exact Hd1|done|done|by right|by right; right|by left|done].
      * split_and!; [exact Hd1|done|done|by left|right; left; exact Hack|by left|done].
    + cbn. rewrite Herr. split_and!; try done; [split; by rewrite ?app_nil_r|by left|by left|by left].
    + cbn. rewrite Herr. split_and!; try done; [split; by rewrite ?app_nil_r|by left|by left|by left].
    + cbn. split_and!; try done; [split; cbn; by rewrite ?app_nil_r|by left|by left|]. right. by eexists.
    + rewrite finish_ok. cbn. rewrite Herr. split_and!; try done; [split; cbn; by rewrite ?app_nil_r|by left|by left|by right].
  - destruct r as [a|e]; [done|]. cbn. split_and!; try done; [by left|by left|unfold honest; by left].
Qed.

(** A write that fails draws a part of what it would have drawn. *)
Definition torn (kind : io_error_kind) (c c' : Client) : Prop :=
  cl_error c' = Some (Io kind) ∧ cl_running c' = false ∧ cl_detached c' = cl_detached c
  ∧ cl_stdout c' `prefix_of` cl_stdout c.

Lemma write_batch_torn n kind batch c :
  let '(c0, acks0) := write_batch None batch c in
  let '(c', acks) := write_batch (Some (n, kind)) batch c in torn kind c0 c' ∧ acks = [].
Proof.
  cbn. unfold maybe_send_ack. destruct (_ <=? _); cbn; (split; [|done]); split_and!; try done;
    cbn; apply prefix_app; exists (drop (N.to_nat n) batch); by rewrite take_drop.
Qed.

Lemma on_frames_torn size n kind queue c :
  let '(c0, acks0, queue0) := on_frames size None queue c in
  let '(c', acks, queue') := on_frames size (Some (n, kind)) queue c in
  queue' = queue0 ∧ (c' = c0 ∧ acks = acks0 ∨ torn kind c0 c' ∧ acks = []).
Proof.
  destruct queue as [|[frame|e] queue]; cbn [on_frames]; [by split; [|left]| |by split; [|left]].
  destruct (drain _ _ _ _ _) as [[c1 batch] queue1]. destruct (len batch =? 0); [by split; [|left]|].
  pose proof (write_batch_torn n kind batch c1) as Ht. destruct (write_batch None batch c1) as [c0 acks0].
  destruct (write_batch (Some _) batch c1) as [c' acks]. by split; [|right].
Qed.

Lemma on_piped_frame_torn n kind frame c :
  let '(c0, acks0) := on_piped_frame None frame c in
  let '(c', acks) := on_piped_frame (Some (n, kind)) frame c in c' = c0 ∧ acks = acks0 ∨ torn kind c0 c' ∧ acks = [].
Proof.
  destruct frame as [[offset data|response]|e]; cbn [on_piped_frame]; [| |by left].
  - destruct (accept _ _ _) as [cursor [|e]]; [|by left].
    pose proof (write_batch_torn n kind data (c <| cl_cursor := cursor |>)) as Ht.
    destruct (write_batch None _ _) as [c0 acks0]. destruct (write_batch (Some _) _ _) as [c' acks]. by right.
  - destruct response; by left.
Qed.

(** ** An observer's terminal *)

Definition is_input (request : RpcRequest) : bool :=
  match request with AttachInput _ _ _ _ => true | _ => false end.

(** What an observer's keyboard sends.  Keys, pastes, mouse and focus
    events of a client attached as an observer send no input to the session;
    detaching works.  The clipboard shortcut is the exception: it is handled
    before the role is looked at, so whatever text the clipboard gives is
    sent as input, which the daemon answers with an error that ends the
    observer's own attach. *)
Theorem observer_paste_escapes event c :
  cl_can_drive c = false →
  (match event with EvKey key _ => is_clipboard_paste_key key = false | _ => True end →
   Forall (λ r, is_input r = false) (on_terminal event c).2)
  ∧ (∀ key text, event = EvKey key (Ok (Some text)) → is_clipboard_paste_key key = true →
     cl_replaced_paste c = false → text ≠ [] →
     ∃ data, (on_terminal event c).2 = [AttachInput (cl_id c) data true None]).
Proof.
  intros Hd. split.
  - intros Hkey. destruct event as [data| | |[cols rows]|key clipboard|mouse]; cbn [on_terminal]; rewrite ?Hd; cbn; try done.
    + by case_bool_decide; repeat constructor.
    + unfold on_key. rewrite Hkey. destruct (negb _); [done|]. destruct (is_ctrl_d key); [by repeat constructor|].
      by rewrite Hd.
  - intros key text -> Hkey Hclaim Htext. cbn [on_terminal]. unfold on_key. rewrite Hkey.
    unfold claim_shortcut. rewrite Hclaim. cbn [snd].
    assert (normalize_clipboard_text text ≠ []) as Hn by (destruct text as [|b text]; [done|cbn; by destruct (b =b x0d)]).
    unfold send_attach_input, wrap_paste_input. apply len_nonempty in Hn. eqb_to false.
    destruct (bracketed_paste_mode _); cbv match; eexists.
    + by rewrite (proj2 (N.eqb_neq _ _)) by (rewrite !len_app, len_cons; lia).
    + by rewrite (proj2 (N.eqb_neq _ _)) by done.
Qed.

(** ** Keys *)

#[export] Instance KeyCode_eq_dec : EqDecision KeyCode.
Proof. solve_decision. Defined.
#[export] Instance KeyModifiers_eq_dec : EqDecision KeyModifiers.
Proof. solve_decision. Defined.

(** The keys xterm names by sequences. *)
Definition named_keys : list KeyCode :=
  [KUp; KDown; KRight; KLeft; Home; End; Insert; Delete; PageUp; PageDown] ++ map F (seqN 1 12).

Definition all_modifiers : list KeyModifiers :=
  s ← [true; false]; c ← [true; false]; a ← [true; false]; [mk_modifiers s c a].

Definition told_apart (app : bool) : bool :=
  let presses := k ← named_keys; m ← all_modifiers; [(k, m)] in
  forallb (λ x : KeyCode * KeyModifiers, forallb (λ y : KeyCode * KeyModifiers,
    bool_decide (x = y)
    || negb (bool_decide (map_key_to_input (mk_key x.1 x.2 Press) app
                          = map_key_to_input (mk_key y.1 y.2 Press) app))) presses) presses.

Lemma told_apart_true app : told_apart app = true.
Proof. by destruct app; vm_compute. Qed.

Lemma in_all_modifiers m : m ∈ all_modifiers.
Proof. destruct m as [[] [] []]; apply (bool_decide_unpack _); by vm_compute. Qed.

(** Keys are told apart.  Two presses of cursor, editing or function keys
    up to F12, with any modifiers, that send the same sequence are the same
    key with the same modifiers, in either cursor-key mode.  A control letter
    sends its control code, and a plain character itself. *)
Theorem keys_are_told_apart app k k' m m' :
  (k ∈ named_keys → k' ∈ named_keys →
   map_key_to_input (mk_key k m Press) app = map_key_to_input (mk_key k' m' Press) app → k = k' ∧ m = m')
  ∧ (∀ c, 97 <= c <= 122 → m = mk_modifiers false true false →
     map_key_to_input (mk_key (Char c) m Press) app = Some [byte_of (c - 96)])
  ∧ (∀ c, m = no_modifiers → map_key_to_input (mk_key (Char c) m Press) app = Some (utf8_encode1 c)).
Proof.
  split_and!.
  - intros Hk Hk' Heq. pose proof (told_apart_true app) as Hall. unfold told_apart in Hall.
    assert (∀ x y, x ∈ named_keys → (x, y) ∈ (k ← named_keys; m ← all_modifiers; [(k, m)])) as Hin.
    { intros x y Hx. apply list_elem_of_bind. exists x. split; [|done]. apply list_elem_of_bind. exists y.
      split; [by left|apply in_all_modifiers]. }
    rewrite forallb_forall in Hall. specialize (Hall (k, m) (proj1 (list_elem_of_In _ _) (Hin k m Hk))).
    rewrite forallb_forall in Hall. specialize (Hall (k', m') (proj1 (list_elem_of_In _ _) (Hin k' m' Hk'))).
    apply orb_true_iff in Hall as [He%bool_decide_eq_true|Hne%negb_true_iff%bool_decide_eq_false]; [|done].
    by injection He as -> ->.
  - intros c Hc ->. cbn [map_key_to_input key_code key_modifiers map_char control].
    unfold to_ascii_lowercase. replace ((65 <=? c) && (c <=? 90)) with false
      by (symmetry; apply andb_false_iff; right; apply N.leb_gt; lia).
    assert (∀ n, 97 <= n <= 122 → legacy_control n = None) as Hleg.
    { intros n Hn. unfold legacy_control. cbn [existsb].
      repeat (rewrite (proj2 (N.eqb_neq n _)) by lia). done. }
    rewrite Hleg by done. rewrite (proj2 (N.leb_gt 128 c)) by lia. unfold alt_prefix. cbn [alt]. do 3 f_equal.
    change 0x1f with (N.ones 5). rewrite N.land_ones. change (2 ^ 5) with 32. symmetry. apply (N.mod_unique c 32 3); lia.
  - by intros c ->.
Qed.

(** ** Witnesses *)

Definition sample_modes : ModeSnapshot := mk_modes false true false false true.
Definition sample_observer : Client := started (bs "a1") (bs "observer") 5 true sample_modes (80, 24).

Lemma observer_paste_escapes_witness :
  ∃ data, (on_terminal (EvKey (mk_key (Char 118) (mk_modifiers false true false) Press) (Ok (Some (bs "secret"))))
             sample_observer).2 = [AttachInput (bs "a1") data true None].
Proof.
  apply (observer_paste_escapes
    (EvKey (mk_key (Char 118) (mk_modifiers false true false) Press) (Ok (Some (bs "secret")))) sample_observer)
    with (key := mk_key (Char 118) (mk_modifiers false true false) Press) (text := bs "secret"); by vm_compute.
Defined.

Lemma keys_are_told_apart_witness :
  map_key_to_input (mk_key (F 5) (mk_modifiers true false false) Press) false
  ≠ map_key_to_input (mk_key (F 5) (mk_modifiers false true false) Press) false.
Proof.
  intros He. apply (keys_are_told_apart false (F 5) (F 5)) in He as [_ He]; [done| |];
    apply (bool_decide_unpack _); by vm_compute.
Defined.
