(* ===== verification/Resize.v ===== *)
(** * Resize notifications

    [ResizeSubscriber] of [src/src/session/resize.rs]: a client hears of the
    resizes of the others on the session's broadcast channel, and drops the
    echo of its own.  The theorems say what a subscriber lets through, and
    that a resize to the size the terminal already has, which sends no echo,
    makes the client miss a later resize by someone else. *)

From S2P Require Import Prelude Crc Utf8 Text RecordFormat SegmentScan Disk Manifest Open Retention.
From S2P Require Import Sequencer Stream Appender Journal Pump ProgramStatus Signals Scanner Replay Registry Recorder Runtime Session.

(** What the broadcast receiver yields next. *)
Inductive Received :=
  | RxOk (rows cols : N)
  | RxLagged (skipped : N)
  | RxClosed.

(** [rs_rx]: whether the receiver is held; [rs_last_self_resize]: the most
    recent resize of this client. *)
Record ResizeSubscriber := mk_subscriber {
  rs_rx : bool;
  rs_last_self_resize : option (N * N);
}.

Definition new_subscriber (result : option (option (N * N))) : ResizeSubscriber :=
  mk_subscriber (bool_decide (is_Some result)) None.

Definition mark_sent (rows cols : N) (s : ResizeSubscriber) : ResizeSubscriber :=
  mk_subscriber (rs_rx s) (Some (rows, cols)).

(** [recv_foreign] on what the channel yields: the subscriber, the rest and
    the answer; [None] while it waits. *)
Fixpoint recv_foreign (yields : list Received) (s : ResizeSubscriber)
    : ResizeSubscriber * list Received * option (option (N * N)) :=
  if rs_rx s then
    match yields with
    | [] => (s, [], None)
    | RxOk rows cols :: yields =>
        if bool_decide (rs_last_self_resize s = Some (rows, cols))
        then recv_foreign yields (mk_subscriber (rs_rx s) None)
        else (s, yields, Some (Some (rows, cols)))
    | RxLagged _ :: yields => recv_foreign yields s
    | RxClosed :: yields => (mk_subscriber false (rs_last_self_resize s), yields, Some None)
    end
  else (s, yields, Some None).

(** The resizes a client is told of, until it waits or the channel closes. *)
Fixpoint told (fuel : nat) (yields : list Received) (s : ResizeSubscriber) : list (N * N) * ResizeSubscriber :=
  match fuel with
  | O => ([], s)
  | S fuel =>
      match recv_foreign yields s with
      | (s, yields, Some (Some size)) => let '(sizes, s) := told fuel yields s in (size :: sizes, s)
      | (s, _, _) => ([], s)
      end
  end.

(** ** What is let through *)

(** The sizes among what the channel yields before it closes. *)
Fixpoint sizes_of (yields : list Received) : list (N * N) :=
  match yields with
  | RxOk rows cols :: yields => (rows, cols) :: sizes_of yields
  | RxLagged _ :: yields => sizes_of yields
  | RxClosed :: _ | [] => []
  end.

Fixpoint remove_first (x : N * N) (l : list (N * N)) : list (N * N) :=
  match l with
  | [] => []
  | y :: l => if bool_decide (x = y) then l else y :: remove_first x l
  end.

Definition let_through (own : option (N * N)) (sizes : list (N * N)) : list (N * N) :=
  match own with Some x => remove_first x sizes | None => sizes end.

Lemma recv_foreign_spec yields s :
  rs_rx s = true →
  let '(s', rest, r) := recv_foreign yields s in
  match r with
  | Some (Some size) => rs_rx s' = true ∧ (length rest < length yields)%nat
      ∧ let_through (rs_last_self_resize s) (sizes_of yields)
        = size :: let_through (rs_last_self_resize s') (sizes_of rest)
  | _ => let_through (rs_last_self_resize s) (sizes_of yields) = []
  end.
Proof.
  revert s. induction yields as [|y yields IH]; intros s Hrx; cbn [recv_foreign]; rewrite Hrx.
  { by destruct (rs_last_self_resize s). }
  destruct y as [rows cols|n|]; cbn [sizes_of].
  - case_bool_decide as Hown.
    + specialize (IH (mk_subscriber true None) eq_refl). cbn [rs_last_self_resize] in IH. rewrite Hown. cbn [let_through remove_first].
      rewrite bool_decide_eq_true_2 by done. destruct (recv_foreign _ _) as [[s' rest] [[size|]|]]; [|done|done].
      destruct IH as (? & ? & ?). split_and!; [done|cbn; lia|done].
    + split_and!; [done|cbn; lia|]. destruct (rs_last_self_resize s) as [x|]; [|done]. cbn [let_through remove_first].
      by rewrite bool_decide_eq_false_2 by congruence.
  - specialize (IH s Hrx). destruct (recv_foreign _ _) as [[s' rest] [[size|]|]]; [|done|done].
    destruct IH as (? & ? & ?). split_and!; [done|cbn; lia|done].
  - by destruct (rs_last_self_resize s).
Qed.

Lemma told_spec fuel yields s :
  rs_rx s = true → (length yields < fuel)%nat →
  (told fuel yields s).1 = let_through (rs_last_self_resize s) (sizes_of yields).
Proof.
  revert yields s. induction fuel as [|fuel IH]; intros yields s Hrx Hfuel; [lia|]. cbn [told].
  pose proof (recv_foreign_spec yields s Hrx) as Hr.
  destruct (recv_foreign yields s) as [[s' rest] [[size|]|]]; [|done|done].
  destruct Hr as (Hrx' & Hlen & Heq). specialize (IH rest s' Hrx' ltac:(lia)).
  destruct (told fuel rest s') as [sizes s'']. cbn [fst] in *. by rewrite Heq, IH.
Qed.

Section Resizing.
Context `{Base64, Engine} {J : Type} `{Recorder J}.

(** What a resize puts on the channel. *)
Definition sent_since (rt rt' : SessionRuntime (J:=J)) : list Received :=
  map (λ size, RxOk size.1 size.2) (drop (length (rt_resizes_sent rt)) (rt_resizes_sent rt')).

Lemma journal_event_resizes record (rt : SessionRuntime (J:=J)) :
  rt_resizes_sent (journal_event record rt) = rt_resizes_sent rt
  ∧ rt_pty_size (journal_event record rt) = rt_pty_size rt ∧ rt_pty (journal_event record rt) = rt_pty rt.
Proof.
  unfold journal_event. destruct (rt_journal rt) as [j|]; [|done]. destruct (record j). by destruct (_ && _).
Qed.

(** A resize of a live terminal to another size changes it and is announced. *)
Lemma resize_announced now rows cols (rt : SessionRuntime (J:=J)) :
  0 < rows → 0 < cols → rt_pty_size rt ≠ Some (rows, cols) → ph_master (rt_pty rt) = true →
  let '(rt', resized) := resize_pty now true rows cols rt in
  resized = true ∧ rt_resizes_sent rt' = rt_resizes_sent rt ++ [(rows, cols)]
  ∧ rt_pty_size rt' = Some (rows, cols) ∧ ph_master (rt_pty rt') = true.
Proof.
  intros Hr Hc Hne Hm. unfold resize_pty, pty_resize. rewrite !(proj2 (N.eqb_neq _ 0)) by lia. cbn [orb].
  rewrite bool_decide_eq_false_2 by done. rewrite Hm. cbn [andb].
  set (rt1 := rt <| rt_pty_size := Some (rows, cols) |> <| rt_engine := _ |> <| rt_resize_history := _ |>).
  unfold journal_resize. set (record := rc_record now Resize _).
  destruct (journal_event_resizes record rt1) as (Es & Ep & Em).
  split_and!; [done|by cbn; rewrite Es|by cbn; rewrite Ep|by cbn; rewrite Em].
Qed.

(** A resize to the size it already has makes a client deaf to the next
    one.  A client that marks and sends the current size is answered with
    success and no echo, so its mark stays; when another client then resizes
    the terminal away and back, the client is told of the first resize and
    not of the second: it goes on with the wrong size. *)
Theorem unchanged_resize_hides_foreign now rows cols rows' cols' (rt : SessionRuntime (J:=J)) s fuel :
  rt_pty_size rt = Some (rows, cols) → ph_master (rt_pty rt) = true →
  0 < rows → 0 < cols → 0 < rows' → 0 < cols' → (rows', cols') ≠ (rows, cols) →
  rs_rx s = true → (2 < fuel)%nat →
  let '(rt1, resized) := resize_pty now true rows cols rt in
  let rt2 := (resize_pty now true rows' cols' rt1).1 in
  let rt3 := (resize_pty now true rows cols rt2).1 in
  resized = true ∧ sent_since rt rt1 = []
  ∧ sent_since rt1 rt3 = [RxOk rows' cols'; RxOk rows cols]
  ∧ rt_pty_size rt3 = Some (rows, cols)
  ∧ (told fuel (sent_since rt rt3) (mark_sent rows cols s)).1 = [(rows', cols')].
Proof.
  intros Hsize Hm Hr Hc Hr' Hc' Hne Hrx Hfuel.
  assert (resize_pty now true rows cols rt = (rt, true)) as ->.
  { unfold resize_pty. rewrite !(proj2 (N.eqb_neq _ 0)) by lia. cbn [orb]. by rewrite bool_decide_eq_true_2. }
  pose proof (resize_announced now rows' cols' rt Hr' Hc' ltac:(congruence) Hm) as H2'.
  destruct (resize_pty now true rows' cols' rt) as [rt2 b2]. destruct H2' as (_ & Hs2 & Hp2 & Hm2). cbn [fst].
  pose proof (resize_announced now rows cols rt2 Hr Hc ltac:(congruence) Hm2) as H3'.
  destruct (resize_pty now true rows cols rt2) as [rt3 b3]. destruct H3' as (_ & Hs3 & Hp3 & _). cbn [fst].
  assert (sent_since rt rt3 = [RxOk rows' cols'; RxOk rows cols]) as Hsent.
  { unfold sent_since. rewrite Hs3, Hs2, <- app_assoc, drop_app_length. done. }
  split_and!; [done| |done|done|].
  - unfold sent_since. by rewrite drop_all.
  - rewrite Hsent, told_spec by (cbn; done || lia). cbn [mark_sent rs_last_self_resize let_through sizes_of remove_first].
    rewrite bool_decide_eq_false_2 by congruence. by rewrite bool_decide_eq_true_2.
Qed.
End Resizing.

(** ** Witness *)

#[local] Existing Instance no_base64.
#[local] Existing Instance csv_serde.
#[local] Existing Instance csv_laws.
#[local] Existing Instance plain_engine.

Definition fresh_runtime : SessionRuntime (J:=Scheduled) :=
  spawn_session 0 sample_meta 24 80 true 100 sample_engine (sample_journal (mk_world sample_storage [])).

Lemma unchanged_resize_hides_foreign_witness :
  ∃ rt3, rt_pty_size rt3 = Some (24, 80)
    ∧ (told 3 (sent_since fresh_runtime rt3) (mark_sent 24 80 (new_subscriber (Some (Some (24, 80)))))).1 = [(30, 100)].
Proof.
  pose proof (unchanged_resize_hides_foreign 1 24 80 30 100 fresh_runtime (new_subscriber (Some (Some (24, 80)))) 3) as H.
  destruct (resize_pty 1 true 24 80 fresh_runtime) as [rt1 resized].
  destruct H as (_ & _ & _ & Hsize & Htold); [done|done|done|done|done|done|done|done|lia|].
  eexists. split; [exact Hsize|exact Htold].
Defined.
