(* ===== verification/Attach.v ===== *)
(** * Attaching to a session

    The attach surface of the session store
    ([src/src/session/store/attach.rs], the look-ups of
    [src/src/session/store/mod.rs] and [src/src/session/store/query.rs]) and
    the subscription of an output pump
    ([AttachPump::subscribe_with_policy] of [src/src/session/store/pump.rs]).
    A store maps session ids to runtimes; each operation is its locked section.
    What the database and the session directories answer is given at each
    call.  The theorems say that only a controller's token, or the operator,
    moves a session; that a subscribed client, fresh or resuming, is sent the
    session's stream without a gap while the session goes on; and what the
    cache of stream lengths answers. *)

From S2P Require Import Prelude Crc Utf8 Text RecordFormat SegmentScan Disk Manifest Open Retention.
From S2P Require Import Sequencer Stream Appender Journal Pump ProgramStatus Signals Scanner Replay Registry Recorder Runtime Session Mouse.

Inductive SessionError :=
  | Evicted
  | NotRunning
  | Busy
  | InvalidInput (message : bytes)
  | Persistence (message : bytes)
  | StaleCursor (requested current : option N)
  | ViewOnly
  | StaleAttachment
  | Internal (message : bytes).

(** [{:?}] of an [Option<u64>]. *)
Definition show_option (n : option N) : bytes :=
  match n with Some n => bs "Some(" ++ show_dec n ++ bs ")" | None => bs "None" end.

Definition message (id : bytes) (e : SessionError) : bytes :=
  match e with
  | Evicted => bs "session evicted from memory: " ++ id
  | NotRunning => bs "session not running: " ++ id
  | Busy => bs "session input queue is full: " ++ id
  | InvalidInput message | Persistence message => message
  | StaleCursor requested current =>
      bs "stale resume cursor for " ++ id ++ bs ": cursor names incarnation " ++ show_option requested
      ++ bs ", session incarnation is " ++ show_option current ++ bs "; resnapshot instead of resuming"
  | ViewOnly =>
      bs "session " ++ id ++ bs " is attached in view-only mode (observe): "
      ++ bs "re-attach without --observe to send input or resize"
  | StaleAttachment => bs "attachment is no longer registered for session " ++ id ++ bs "; re-attach"
  | Internal message => bs "session " ++ id ++ bs " internal error: " ++ message
  end.

Definition ATTACH_INPUT_OUTPUT_WAIT_TIMEOUT : N := 3000.
Definition PERSISTED_STREAM_LEN_CACHE_ENTRIES : N := 20000.
Definition DEFAULT_ATTACH_SCROLLBACK_SEED_ROWS : N := 1000.

Abbreviation by_id A :=
  (@gmap bytes (@list_eq_dec byte byte_eq_dec) (@list_countable byte byte_eq_dec byte_countable) A).

Section Store.
Context `{Crc32Fast, Base64, Engine} {J : Type} `{Recorder J}.

Abbreviation Runtime := (SessionRuntime (J:=J)).

Record SessionStore := mk_store {
  st_sessions : by_id Runtime;
  st_evicted_sessions : by_id N;
  st_stream_lens : by_id (N * N);
}.

#[export] Instance SessionStore_eta : Settable SessionStore := λ st,
  mk_store (st_sessions st) (st_evicted_sessions st) (st_stream_lens st).

(** What the database and the disk say of a session at a call: its row, with
    the exit code; whether its directory exists; the journal directory in it. *)
Record Persisted := mk_persisted {
  ps_row : io_result (option (option Z));
  ps_dir : bool;
  ps_journal : option Dir;
}.

(** ** Looking up *)

Definition lookup_runtime (id : bytes) (st : SessionStore) : result SessionError Runtime :=
  match st_sessions st !! id with
  | Some rt => Ok rt
  | None => if bool_decide (is_Some (st_evicted_sessions st !! id)) then Err Evicted else Err NotRunning
  end.

(** The write lock of one session. *)
Definition put (id : bytes) (rt : Runtime) (st : SessionStore) : SessionStore :=
  st <| st_sessions := <[id := rt]> (st_sessions st) |>.

Definition get_exit_code (id : bytes) (st : SessionStore) : option Z :=
  rt ← st_sessions st !! id; sm_exit_code (rt_meta rt).

Definition is_running (id : bytes) (st : SessionStore) : bool :=
  match st_sessions st !! id with Some rt => negb (is_completed rt) | None => false end.

Definition shared_modes (id : bytes) (st : SessionStore) : option N :=
  rt_shared_modes <$> st_sessions st !! id.

Definition disk_incarnation (journal : option Dir) : option N :=
  d ← journal; last (list_incarnations d).

Definition store_incarnation (id : bytes) (disk : Persisted) (st : SessionStore) : option N :=
  match st_sessions st !! id with
  | Some rt =>
      match journal_incarnation rt with
      | Some incarnation => Some incarnation
      | None => disk_incarnation (ps_journal disk)
      end
  | None => disk_incarnation (ps_journal disk)
  end.

Definition subscribe_resize (id : bytes) (st : SessionStore) : option (option (N * N)) :=
  rt_pty_size <$> st_sessions st !! id.

Definition attach_stream_status (id : bytes) (disk : Persisted) (st : SessionStore)
    : result SessionError (bool * bool * option Z) :=
  match lookup_runtime id st with
  | Ok rt => Ok (negb (is_completed rt), rt_output_closed rt, sm_exit_code (rt_meta rt))
  | Err err =>
      match ps_row disk with
      | Ok (Some exit_code) => Ok (false, true, exit_code)
      | _ => Err err
      end
  end.

(** [persisted_session_dir]: the journal in it, when there is such a
    directory. *)
Definition persisted_session_dir (disk : Persisted) : option (option Dir) :=
  match ps_row disk with
  | Ok (Some _) => if ps_dir disk then Some (ps_journal disk) else None
  | _ => None
  end.

(** ** Registering *)

Definition attach_register (now : N) (ok : bool) (id : bytes) (kind : AttachKind) (role : AttachRole)
    (viewport : option (N * N)) (st : SessionStore)
    : SessionStore * result SessionError (N * AttachRole) :=
  match lookup_runtime id st with
  | Err e => (st, Err e)
  | Ok rt =>
      let '(rt, (attachment_id, role, _)) := register_attachment now ok kind role viewport rt in
      (put id rt st, Ok (attachment_id, role))
  end.

Definition attach_detach (id : bytes) (attachment_id : N) (st : SessionStore)
    : SessionStore * result SessionError unit :=
  match lookup_runtime id st with
  | Err e => (st, Err e)
  | Ok rt => (put id (unregister_attachment attachment_id rt) st, Ok tt)
  end.

Definition attach_report_applied (id : bytes) (attachment_id cursor : N) (st : SessionStore)
    : SessionStore :=
  match lookup_runtime id st with
  | Ok rt => put id (rt <| rt_attachments := report_applied attachment_id cursor (rt_attachments rt) |>) st
  | Err _ => st
  end.

Definition attachment_credit_cell (id : bytes) (attachment_id : N) (st : SessionStore) : option N :=
  match lookup_runtime id st with
  | Ok rt => credit_cell attachment_id (rt_attachments rt)
  | Err _ => None
  end.

(** ** Driving *)

Definition check_control (rt : Runtime) (attachment_id : N) : result SessionError unit :=
  if negb (contains attachment_id (rt_attachments rt)) then Err StaleAttachment
  else if can_control attachment_id (rt_attachments rt) then Ok tt
  else Err ViewOnly.

(** [None] is the operator's path, which no token gates. *)
Definition gate (rt : Runtime) (attachment_id : option N) : result SessionError unit :=
  match attachment_id with Some a => check_control rt a | None => Ok tt end.

(** Queueing the input and recording the activity, in one critical section. *)
Definition attach_input_action (now : N) (id : bytes) (attachment_id : option N)
    (resolve : Runtime → result SessionError bytes) (st : SessionStore)
    : SessionStore * result SessionError (N * N) :=
  match lookup_runtime id st with
  | Err e => (st, Err e)
  | Ok rt =>
      match (_ ← gate rt attachment_id; resolve rt) with
      | Err e => (st, Err e)
      | Ok data =>
          let initial_total_bytes := rt_filtered_total_bytes rt in
          let byte_len := len data in
          match try_write_input data (rt_pty rt) with
          | Ok pty =>
              let rt := mark_attach_activity now (rt <| rt_pty := pty |>) <| rt_last_input_at := Some now |> in
              (put id rt st, Ok (initial_total_bytes, byte_len))
          | Err Full => (st, Err Busy)
          | Err Disconnected => (st, Err Evicted)
          end
      end
  end.

(** [wait_for_output_change]: what each poll reads, the time since the start
    and the session's total; [None] while it goes on. *)
Fixpoint wait_for_output_change (initial_total_bytes : N) (polls : list (N * N)) : option bool :=
  match polls with
  | [] => None
  | (elapsed, current_total_bytes) :: polls =>
      if negb (current_total_bytes =? initial_total_bytes) then Some true
      else if ATTACH_INPUT_OUTPUT_WAIT_TIMEOUT <=? elapsed then Some false
      else wait_for_output_change initial_total_bytes polls
  end.

(** The bytes as they are; the wait that may follow changes nothing. *)
Definition attach_input (now : N) (id : bytes) (attachment_id : option N) (data : bytes)
    : SessionStore → SessionStore * result SessionError (N * N) :=
  attach_input_action now id attachment_id (λ _, Ok data).

Definition invalid_input {A} (r : result bytes A) : result SessionError A :=
  match r with Ok a => Ok a | Err message => Err (InvalidInput message) end.

Definition resolve_mouse (input : MouseInput) (rt : Runtime) : result SessionError bytes :=
  if is_completed rt || rt_output_closed rt then Err NotRunning
  else
    let modes := mode_snapshot rt in
    let '(rows, cols) := eng_size (rt_engine rt) in
    invalid_input (encode input rows cols (mouse_report modes) (sgr_mouse modes)).

Definition attach_mouse (now : N) (id : bytes) (spec : bytes) (st : SessionStore)
    : SessionStore * result SessionError (N * N) :=
  match invalid_input (parse_mouse_spec spec) with
  | Err e => (st, Err e)
  | Ok input => attach_input_action now id None (resolve_mouse input) st
  end.

Definition attach_busy (now : N) (id : bytes) (st : SessionStore)
    : SessionStore * result SessionError unit :=
  match lookup_runtime id st with
  | Err e => (st, Err e)
  | Ok rt => (put id (mark_attach_activity now rt <| rt_last_output_epoch := Some now |>) st, Ok tt)
  end.

(** [ok] is the operating system's answer to the resize. *)
Definition attach_resize (now : N) (ok : bool) (id : bytes) (attachment_id : option N) (rows cols : N)
    (st : SessionStore) : SessionStore * result SessionError unit :=
  match lookup_runtime id st with
  | Err e => (st, Err e)
  | Ok rt =>
      match gate rt attachment_id with
      | Err e => (st, Err e)
      | Ok _ =>
          let rt := match attachment_id with
                    | Some a => rt <| rt_attachments := set_viewport a rows cols (rt_attachments rt) |>
                    | None => rt
                    end in
          let rt := mark_attach_activity now rt in
          let '(rt, resized) := resize_pty now ok rows cols rt in
          (put id rt st, if resized then Ok tt else Err Evicted)
      end
  end.

(** ** Reading the stream *)

(** The rows the seed shows, if any: not in the alternate screen, and never
    more than the session retains. *)
Definition seeded_rows (id : bytes) (rows : N) (st : SessionStore) : option (list bytes) :=
  rt ← st_sessions st !! id;
  if em_alt_screen (eng_modes (rt_engine rt)) then None
  else
    let depth := N.min (N.max rows DEFAULT_ATTACH_SCROLLBACK_SEED_ROWS) (rt_screen_scrollback_rows rt) in
    Some (eng_styled_history_rows depth (rt_engine rt)).

(** History rows with explicit carriage returns, then exactly one line feed
    less than there are rows on the screen. *)
Definition scrollback_seed_bytes (seed : bytes) (rows : N) : bytes :=
  x1b :: bs "[r" ++ x1b :: bs "[H" ++ x1b :: bs "[0J"
  ++ concat (map (λ byte, if byte =b x0a then [x0d; x0a] else [byte]) seed)
  ++ replicate (N.to_nat (N.max rows 1 - 1)) x0a
  ++ x1b :: bs "[H".

(** [clock] and [fuel] are the replay's. *)
Context (clock : N) (fuel : nat).

(** A missing journal directory lists as empty. *)
Definition journal_dir (journal : option Dir) : Dir := default ∅ journal.

Definition evicted_on_error {A} (r : io_result A) : result SessionError A :=
  match r with Ok a => Ok a | Err _ => Err Evicted end.

Definition attach_resync_window (id : bytes) (disk : Persisted) (from max_bytes : N) (st : SessionStore)
    : option (result SessionError bytes) :=
  let dir := match lookup_runtime id st with
             | Ok _ => Ok (ps_journal disk)
             | Err err => match persisted_session_dir disk with Some d => Ok d | None => Err err end
             end in
  match dir with
  | Err err => Some (Err err)
  | Ok d => evicted_on_error <$> filtered_stream_window clock fuel (journal_dir d) from max_bytes
  end.

(** [persisted_filtered_len_in]: the cached length of the newest incarnation,
    or a scan that is cached in its turn. *)
Definition persisted_filtered_len_in (id : bytes) (journal : option Dir) (st : SessionStore)
    : option (SessionStore * option N) :=
  match journal with
  | None => Some (st, None)
  | Some d =>
      match last (list_incarnations d) with
      | None => Some (st, None)
      | Some incarnation =>
          let scan :=
            r ← Replay.filtered_stream_len clock fuel d;
            match r with
            | Err _ => Some (st, None)
            | Ok n =>
                let cache := if PERSISTED_STREAM_LEN_CACHE_ENTRIES <=? N.of_nat (size (st_stream_lens st))
                             then ∅ else st_stream_lens st in
                Some (st <| st_stream_lens := <[id := (incarnation, n)]> cache |>, Some n)
            end in
          match st_stream_lens st !! id with
          | Some (cached_incarnation, n) => if cached_incarnation =? incarnation then Some (st, Some n) else scan
          | None => scan
          end
      end
  end.

Definition persisted_filtered_len (id : bytes) (disk : Persisted) (st : SessionStore)
    : option (SessionStore * option N) :=
  match persisted_session_dir disk with
  | Some journal => persisted_filtered_len_in id journal st
  | None => Some (st, None)
  end.

Definition attach_filtered_len (id : bytes) (disk : Persisted) (st : SessionStore)
    : option (SessionStore * option N) :=
  match lookup_runtime id st with
  | Ok rt => Some (st, Some (Runtime.filtered_stream_len rt))
  | Err _ => persisted_filtered_len id disk st
  end.

(** ** Subscribing *)

(** The broadcast receiver is the transport's; what it yields is read turn by
    turn. *)
Definition attach_snapshot_init (id : bytes) (st : SessionStore)
    : result SessionError (bytes * N * ModeSnapshot) :=
  match lookup_runtime id st with
  | Err e => Err e
  | Ok rt => Ok (attach_snapshot_bytes rt, Runtime.filtered_stream_len rt, mode_snapshot rt)
  end.

Definition attach_subscribe_init (id : bytes) (disk : Persisted) (from_byte_offset : option N)
    (st : SessionStore) : option (result SessionError (list (N * bytes) * N * ModeSnapshot)) :=
  match lookup_runtime id st with
  | Err e => Some (Err e)
  | Ok rt =>
      let offset := default 0 from_byte_offset in
      match ps_journal disk with
      | None => Some (Err Evicted)
      | Some d =>
          r ← filtered_stream_from clock fuel d offset;
          match r with
          | Err _ => Some (Err Evicted)
          | Ok (data, end_offset) =>
              let chunks := if len data =? 0 then [] else [(offset, data)] in
              Some (Ok (chunks, end_offset, mode_snapshot rt))
          end
      end
  end.

Record AttachInit := mk_init {
  ai_data : bytes;
  ai_end_offset : N;
  ai_running : bool;
  ai_modes : ModeSnapshot;
  ai_incarnation : N;
}.

Inductive PumpCredit := Uncredited | Credited (attachment_id : N).

(** The initial data and what they come with. *)
Definition subscription (id : bytes) (disk : Persisted) (from_offset : option N) (st : SessionStore)
    : option (result SessionError (bytes * N * ModeSnapshot)) :=
  match from_offset with
  | None => Some (attach_snapshot_init id st)
  | Some offset =>
      r ← attach_subscribe_init id disk (Some offset) st;
      Some (match r with
            | Ok (chunks, end_, modes) => Ok (collect_chunk_bytes chunks, end_, modes)
            | Err e => Err e
            end)
  end.

(** The gate of a credited stream starts where the initial data end. *)
Definition arm_credit (id : bytes) (credit : PumpCredit) (end_offset : N) (credit_policy : CreditPolicy)
    (st : SessionStore) : SessionStore * result SessionError (option CreditPolicy) :=
  match credit with
  | Uncredited => (st, Ok None)
  | Credited attachment_id =>
      match lookup_runtime id st with
      | Err _ => (st, Err StaleAttachment)
      | Ok rt =>
          match credit_cell attachment_id (rt_attachments rt) with
          | None => (st, Err StaleAttachment)
          | Some cell =>
              (put id (rt <| rt_attachments := store_cell cell end_offset (rt_attachments rt) |>) st,
               Ok (Some credit_policy))
          end
      end
  end.

Definition subscribe_with_policy (id : bytes) (disk : Persisted) (from_offset incarnation : option N)
    (credit : PumpCredit) (credit_policy : CreditPolicy) (st : SessionStore)
    : option (SessionStore * result SessionError (AttachPump * AttachInit)) :=
  let current := store_incarnation id disk st in
  if negb (resume_allowed from_offset incarnation current)
  then Some (st, Err (StaleCursor incarnation current))
  else
    let init_incarnation := default 0 current in
    r ← subscription id disk from_offset st;
    match r with
    | Err e => Some (st, Err e)
    | Ok (data, end_offset, modes) =>
        match attach_stream_status id disk st with
        | Err e => Some (st, Err e)
        | Ok (running, output_closed, _) =>
            let init := mk_init data end_offset (running || negb output_closed) modes init_incarnation in
            let shared := bool_decide (is_Some (shared_modes id st)) in
            Some (match arm_credit id credit end_offset credit_policy st with
                  | (st, Ok credit) => (st, Ok (subscribed shared modes end_offset credit, init))
                  | (st, Err e) => (st, Err e)
                  end)
        end
    end.
End Store.

(** ** Who drives *)

Section Driving.
Context `{Base64, Engine} {J : Type} `{Recorder J}.

(** The requests on a store.  [SLocked] is anything else that holds the write
    lock of a session, such as its reader thread: it leaves the attachments
    alone. *)
Inductive StoreOp :=
  | SRegister (now : N) (ok : bool) (id : bytes) (kind : AttachKind) (role : AttachRole) (viewport : option (N * N))
  | SDetach (id : bytes) (attachment_id : N)
  | SApplied (id : bytes) (attachment_id cursor : N)
  | SInput (now : N) (id : bytes) (attachment_id : option N) (data : bytes)
  | SMouse (now : N) (id spec : bytes)
  | SResize (now : N) (ok : bool) (id : bytes) (attachment_id : option N) (rows cols : N)
  | SBusy (now : N) (id : bytes)
  | SArm (id : bytes) (credit : PumpCredit) (end_offset : N)
  | SLocked (id : bytes) (f : SessionRuntime (J:=J) → SessionRuntime (J:=J)).

(** The store after a request, and how it was refused. *)
Definition store_op (op : StoreOp) (st : SessionStore (J:=J)) : SessionStore (J:=J) * option SessionError :=
  let answer {A : Type} (r : SessionStore (J:=J) * result SessionError A) :=
    (r.1, match r.2 with Ok _ => None | Err e => Some e end) in
  match op with
  | SRegister now ok id kind role viewport => answer (attach_register now ok id kind role viewport st)
  | SDetach id a => answer (attach_detach id a st)
  | SApplied id a cursor => (attach_report_applied id a cursor st, None)
  | SInput now id a data => answer (attach_input now id a data st)
  | SMouse now id spec => answer (attach_mouse now id spec st)
  | SResize now ok id a rows cols => answer (attach_resize now ok id a rows cols st)
  | SBusy now id => answer (attach_busy now id st)
  | SArm id credit end_offset => answer (arm_credit id credit end_offset production_policy st)
  | SLocked id f =>
      (match st_sessions st !! id with Some rt => put id (f rt) st | None => st end, None)
  end.

Definition store_run (ops : list StoreOp) (st : SessionStore (J:=J)) : SessionStore (J:=J) :=
  foldl (λ st op, (store_op op st).1) st ops.

Definition locked_ok (op : StoreOp) : Prop :=
  match op with SLocked _ f => ∀ rt, rt_attachments (f rt) = rt_attachments rt | _ => True end.

(** Input or geometry from the client that holds token [a] of session [id]. *)
Definition drives (id : bytes) (a : N) (op : StoreOp) : bool :=
  match op with
  | SInput _ i (Some x) _ | SResize _ _ i (Some x) _ _ => bytes_eqb i id && (x =? a)
  | _ => false
  end.

Definition registering (op : StoreOp) : bool := match op with SRegister _ _ _ _ _ _ => true | _ => false end.

(** Token [a] was issued, and whoever has it only watches. *)
Definition watches (a : N) (r : AttachmentRegistry) : Prop :=
  a <= ar_next_id r ∧ (∀ x, ar_attachments r !! a = Some x → at_role x = Observer).

Definition watched (id : bytes) (a room : N) (st : SessionStore (J:=J)) : Prop :=
  ∃ rt, st_sessions st !! id = Some rt ∧ watches a (rt_attachments rt)
    ∧ ar_next_id (rt_attachments rt) + room <= u64_max.

Lemma journal_event_attachments record (rt : SessionRuntime (J:=J)) :
  rt_attachments (journal_event record rt) = rt_attachments rt.
Proof. unfold journal_event. destruct (rt_journal rt) as [j|]; [|done]. destruct (record j). by destruct (_ && _). Qed.

Lemma resize_pty_attachments now ok rows cols (rt : SessionRuntime (J:=J)) :
  rt_attachments (resize_pty now ok rows cols rt).1 = rt_attachments rt.
Proof.
  unfold resize_pty. destruct (_ || _); [done|]. case_bool_decide; [done|].
  destruct (pty_resize _ _); [|done]. cbn. unfold journal_resize. by rewrite journal_event_attachments.
Qed.

Lemma register_attachment_registry now ok kind role viewport (rt : SessionRuntime (J:=J)) :
  rt_attachments (register_attachment now ok kind role viewport rt).1
  = (register now kind role viewport (rt_attachments rt)).1
  ∧ (register_attachment now ok kind role viewport rt).2.1 = (register now kind role viewport (rt_attachments rt)).2.
Proof.
  unfold register_attachment, register. cbn. destruct role, viewport as [[rows cols]|]; try done.
  destruct (_ && _); [|done].
  match goal with |- context [resize_pty ?n ?o ?r ?c ?t] => pose proof (resize_pty_attachments n o r c t) as Hr;
    destruct (resize_pty n o r c t) as [rt' resized] end.
  by split.
Qed.

Lemma watches_op a r op :
  watches a r → (registers op = true → ar_next_id r < u64_max) → watches a (apply_op r op).
Proof.
  intros [Hn Ho] Hlt. pose proof (apply_op_next r op Hlt) as Hnext. split; [rewrite Hnext; lia|].
  intros x. destruct op as [now kind role viewport|i|i cursor|i cursor|i rows cols]; cbn [apply_op].
  - cbn. rewrite u64_add_small by (specialize (Hlt eq_refl); lia). rewrite lookup_insert_ne by lia. apply Ho.
  - cbn. intros [_ E]%lookup_delete_Some. by apply Ho.
  - unfold report_applied. destruct (_ !! i); apply Ho.
  - destruct (credit_cell i r); apply Ho.
  - unfold set_viewport. destruct (_ !! i) as [b|] eqn:E; [|apply Ho]. cbn.
    intros [[<- <-]|[_ Ex]]%lookup_insert_Some; [exact (Ho b E)|exact (Ho x Ex)].
Qed.

(** A request touches one runtime, and its registry by one operation. *)
Definition touches (op : StoreOp) (st st' : SessionStore (J:=J)) : Prop :=
  st' = st ∨ ∃ i rt rt' ros, st_sessions st !! i = Some rt ∧ st' = put i rt' st
    ∧ rt_attachments rt' = foldl apply_op (rt_attachments rt) ros ∧ (length ros <= 1)%nat
    ∧ Forall (λ ro, registers ro = true → registering op = true) ros.

Lemma lookup_runtime_ok id st rt : lookup_runtime id st = Ok rt → st_sessions (J:=J) st !! id = Some rt.
Proof. unfold lookup_runtime. destruct (_ !! id); [by intros [= ->]|by case_bool_decide]. Qed.

Lemma input_action_touches op now id a resolve st :
  touches op st (attach_input_action now id a resolve st).1.
Proof.
  unfold attach_input_action. destruct (lookup_runtime id st) as [rt|e] eqn:E; [|by left].
  apply lookup_runtime_ok in E. destruct (_ ← _; _) as [data|e]; [|by left].
  destruct (try_write_input data (rt_pty rt)) as [pty|[]]; [|by left|by left].
  right. eexists id, rt, _, []. split_and!; [done|reflexivity|done|cbn; lia|done].
Qed.

Lemma store_op_touches op st : locked_ok op → touches op st (store_op op st).1.
Proof.
  intros Hl. destruct op as [now ok id kind role viewport|id a|id a cursor|now id a data|now id spec
    |now ok id a rows cols|now id|id credit end_offset|id f]; cbn [store_op fst].
  - unfold attach_register. destruct (lookup_runtime id st) as [rt|e] eqn:E; [|by left]. apply lookup_runtime_ok in E.
    pose proof (register_attachment_registry now ok kind role viewport rt) as [Hr _].
    destruct (register_attachment now ok kind role viewport rt) as [rt' [[x y] z]]. right.
    exists id, rt, rt', [OpRegister now kind role viewport]. split_and!; [done|done|done|cbn; lia|by apply Forall_singleton].
  - unfold attach_detach. destruct (lookup_runtime id st) as [rt|e] eqn:E; [|by left]. apply lookup_runtime_ok in E.
    right. eexists id, rt, _, [OpUnregister a].
    split_and!; [done|reflexivity|unfold unregister_attachment; by destruct (is_empty _)|cbn; lia|by apply Forall_singleton].
  - unfold attach_report_applied. destruct (lookup_runtime id st) as [rt|e] eqn:E; [|by left]. apply lookup_runtime_ok in E.
    right. eexists id, rt, _, [OpReport a cursor]. split_and!; [done|reflexivity|done|cbn; lia|by apply Forall_singleton].
  - apply input_action_touches.
  - unfold attach_mouse. destruct (invalid_input _); [apply input_action_touches|by left].
  - unfold attach_resize. destruct (lookup_runtime id st) as [rt|e] eqn:E; [|by left]. apply lookup_runtime_ok in E.
    destruct (gate rt a) as [[]|]; [|by left].
    match goal with |- context [resize_pty ?n ?o ?r ?c ?t] => pose proof (resize_pty_attachments n o r c t) as Hr;
      destruct (resize_pty n o r c t) as [rt' resized] end.
    right. exists id, rt, rt', (match a with Some a => [OpViewport a rows cols] | None => [] end).
    split_and!; [done|done|by destruct a|destruct a; cbn; lia|destruct a; [by apply Forall_singleton|done]].
  - unfold attach_busy. destruct (lookup_runtime id st) as [rt|e] eqn:E; [|by left]. apply lookup_runtime_ok in E.
    right. eexists id, rt, _, []. split_and!; [done|reflexivity|done|cbn; lia|done].
  - unfold arm_credit. destruct credit as [|a]; [by left|].
    destruct (lookup_runtime id st) as [rt|e] eqn:E; [|by left]. apply lookup_runtime_ok in E.
    destruct (credit_cell a (rt_attachments rt)) as [cell|] eqn:Ec; [|by left].
    right. eexists id, rt, _, [OpArm a end_offset]. split_and!; [done|reflexivity| |cbn; lia|by apply Forall_singleton].
    cbn. by rewrite Ec.
  - destruct (st_sessions st !! id) as [rt|] eqn:E; [|by left].
    right. eexists id, rt, _, []. split_and!; [done|reflexivity|apply Hl|cbn; lia|done].
Qed.

Lemma watched_op id a room op st :
  locked_ok op → watched id a ((if registering op then 1 else 0) + room) st →
  watched id a room (store_op op st).1.
Proof.
  intros Hl (rt & Hrt & Hw & Hroom).
  destruct (store_op_touches op st Hl) as [-> |(i & rt0 & rt' & ros & Hi & -> & Ha & Hlen & Hf)].
  { exists rt. split_and!; [done|done|lia]. }
  unfold watched, put. cbn. destruct (decide (i = id)) as [->|Hne].
  - rewrite Hrt in Hi. injection Hi as <-. exists rt'. rewrite lookup_insert_eq. split; [done|]. rewrite Ha.
    destruct ros as [|ro [|]]; cbn in Hlen; [|clear Hlen|lia]; cbn [foldl]; [split; [done|lia]|].
    apply Forall_cons in Hf as [Hf _].
    assert (registers ro = true → ar_next_id (rt_attachments rt) < u64_max) as Hlt.
    { intros Hr. rewrite (Hf Hr) in Hroom. lia. }
    split; [by apply watches_op|]. rewrite apply_op_next by done. destruct (registers ro); [rewrite Hf in Hroom by done|]; lia.
  - exists rt. rewrite lookup_insert_ne by done. split_and!; [done|done|lia].
Qed.

(** An observer's requests are refused, and change nothing. *)
Lemma watched_refuses id a room op st :
  watched id a room st → drives id a op = true →
  (store_op op st).1 = st ∧ ((store_op op st).2 = Some ViewOnly ∨ (store_op op st).2 = Some StaleAttachment).
Proof.
  intros (rt & Hrt & [_ Ho] & _) Hd.
  assert (∃ e, check_control rt a = Err e ∧ (e = ViewOnly ∨ e = StaleAttachment)) as (e & Hc & He).
  { unfold check_control, contains, can_control. destruct (ar_attachments (rt_attachments rt) !! a) as [x|] eqn:E.
    - rewrite bool_decide_eq_true_2 by by eexists. cbn. rewrite (Ho x) by done. eexists. by split; [|left].
    - rewrite bool_decide_eq_false_2 by by intros []. eexists. by split; [|right]. }
  assert (lookup_runtime id st = Ok rt) as Hlook by (unfold lookup_runtime; by rewrite Hrt).
  destruct op as [| | |now i [x|] data| |now ok i [x|] rows cols| | |]; try done; cbn in Hd;
    apply andb_true_iff in Hd as [->%bool_decide_eq_true_1 ->%N.eqb_eq]; cbn [store_op].
  - unfold attach_input, attach_input_action. rewrite Hlook. cbn [gate]. rewrite Hc. cbn. split; [done|].
    destruct He as [-> | ->]; auto.
  - unfold attach_resize. rewrite Hlook. cbn [gate]. rewrite Hc. cbn. split; [done|]. destruct He as [-> | ->]; auto.
Qed.

Definition registrations_of (ops : list StoreOp) : N := len (filter (λ op, registering op = true) ops).

(** C8: Observers never drive.  Once a client has attached as an observer,
    every input and every resize it sends is refused as view-only, or as stale
    after it has detached, whatever the other clients, the operator and the
    session do meanwhile; and leaving all its requests to drive out of the run
    gives exactly the same sessions. *)
Theorem observers_never_drive now ok id kind viewport st rt ops :
  st_sessions (J:=J) st !! id = Some rt → Forall locked_ok ops →
  ar_next_id (rt_attachments rt) + registrations_of ops < u64_max →
  let '(st1, r) := attach_register now ok id kind Observer viewport st in
  ∃ a, r = Ok (a, Observer)
  ∧ store_run ops st1 = store_run (filter (λ op, drives id a op = false) ops) st1
  ∧ ∀ before op after, ops = before ++ op :: after → drives id a op = true →
      let st2 := store_run before st1 in
      (store_op op st2).1 = st2
      ∧ ((store_op op st2).2 = Some ViewOnly ∨ (store_op op st2).2 = Some StaleAttachment).
Proof.
  intros Hrt Hops Hmax. unfold attach_register.
  assert (lookup_runtime id st = Ok rt) as -> by (unfold lookup_runtime; by rewrite Hrt).
  destruct (register_attachment_registry now ok kind Observer viewport rt) as [Hreg Hans].
  destruct (register_attachment now ok kind Observer viewport rt) as [rt1 [[a role] resized]].
  unfold register in Hreg, Hans. rewrite u64_add_small in Hreg, Hans by lia. cbn [fst snd] in *.
  injection Hans as -> ->. exists (ar_next_id (rt_attachments rt) + 1). split; [done|].
  set (a := ar_next_id (rt_attachments rt) + 1) in *.
  assert (watched id a (registrations_of ops) (put id rt1 st)) as Hw.
  { exists rt1. unfold put. cbn. rewrite lookup_insert_eq, Hreg. cbn. split_and!; [done| |lia].
    split; [cbn; lia|]. cbn. intros x. rewrite lookup_insert_eq. by intros [= <-]. }
  generalize dependent (put id rt1 st). clear -Hops. induction ops as [|op ops IH]; intros st Hw.
  { split; [done|]. by intros [|? ?]. }
  apply Forall_cons in Hops as [Hop Hops].
  assert (watched id a (registrations_of ops) (store_op op st).1) as Hw'.
  { apply watched_op; [done|]. unfold registrations_of in *. destruct (registering op) eqn:E.
    - rewrite filter_cons_True in Hw by done. by rewrite len_cons, N.add_comm in Hw.
    - rewrite filter_cons_False in Hw by congruence. done. }
  specialize (IH Hops _ Hw') as [Hrun Hall]. split.
  - destruct (drives id a op) eqn:Hd.
    + rewrite filter_cons_False by congruence. destruct (watched_refuses _ _ _ _ _ Hw Hd) as [Hsame _].
      cbn [store_run foldl]. unfold store_run in Hrun. by rewrite Hsame in *.
    + by rewrite filter_cons_True by done.
  - intros [|x before] y after [= <- ->] Hd; [by eapply watched_refuses|]. by eapply Hall.
Qed.
End Driving.

(** ** The cache of stream lengths *)

Section Cache.
Context `{Crc32Fast, Base64, Engine} {J : Type} `{Recorder J} (clock : N) (fuel : nat).

(** What a scan of the journal finds, if it finds anything. *)
Definition scanned_len (journal : option Dir) : option N :=
  match (d ← journal; _ ← last (list_incarnations d); Replay.filtered_stream_len clock fuel d) with
  | Some (Ok n) => Some n
  | _ => None
  end.

(** [journals] are the journal directories of the sessions.  There are at most
    so many entries, none ahead of its journal, and one for the newest
    incarnation holds what a scan would find. *)
Definition cache_ok (journals : bytes → option Dir) (lens : by_id (N * N)) : Prop :=
  N.of_nat (size lens) <= PERSISTED_STREAM_LEN_CACHE_ENTRIES
  ∧ ∀ id incarnation n, lens !! id = Some (incarnation, n) →
      ∃ d newest, journals id = Some d ∧ last (list_incarnations d) = Some newest ∧ incarnation <= newest
        ∧ (incarnation = newest → Replay.filtered_stream_len clock fuel d = Some (Ok n)).

(** Journals go on: a directory stays, its newest incarnation never goes back,
    and the stream of one that stays the newest does not change. *)
Definition moves_on (journals journals' : bytes → option Dir) : Prop :=
  ∀ id d newest, journals id = Some d → last (list_incarnations d) = Some newest →
    ∃ d' newest', journals' id = Some d' ∧ last (list_incarnations d') = Some newest' ∧ newest <= newest'
      ∧ (newest = newest' → Replay.filtered_stream_len clock fuel d' = Replay.filtered_stream_len clock fuel d).

Lemma cache_moves_on journals journals' lens :
  moves_on journals journals' → cache_ok journals lens → cache_ok journals' lens.
Proof.
  intros Hm [Hs Hc]. split; [done|]. intros id incarnation n He.
  destruct (Hc _ _ _ He) as (d & newest & Hd & Hl & Hle & Hn).
  destruct (Hm _ _ _ Hd Hl) as (d' & newest' & Hd' & Hl' & Hle' & Hn').
  exists d', newest'. split_and!; [done|done|lia|]. intros ->. assert (newest = newest') as -> by lia.
  rewrite Hn' by done. by apply Hn.
Qed.

Lemma cache_insert journals lens id d newest n :
  journals id = Some d → last (list_incarnations d) = Some newest →
  Replay.filtered_stream_len clock fuel d = Some (Ok n) → cache_ok journals lens →
  cache_ok journals (<[id := (newest, n)]>
    (if PERSISTED_STREAM_LEN_CACHE_ENTRIES <=? N.of_nat (size lens) then ∅ else lens)).
Proof.
  intros Hd Hl Hn [Hs Hc].
  assert (∀ i inc m, (if PERSISTED_STREAM_LEN_CACHE_ENTRIES <=? N.of_nat (size lens) then ∅ else lens) !! i
    = Some (inc, m) → lens !! i = Some (inc, m)) as Hsub.
  { intros i inc m. destruct (_ <=? _); [by rewrite lookup_empty|done]. }
  split.
  - set (cache := if _ <=? _ then _ else _). assert (N.of_nat (size cache) + 1 <= PERSISTED_STREAM_LEN_CACHE_ENTRIES) as Hroom.
    { unfold cache. destruct (N.leb_spec PERSISTED_STREAM_LEN_CACHE_ENTRIES (N.of_nat (size lens))); [|lia].
      rewrite map_size_empty. unfold PERSISTED_STREAM_LEN_CACHE_ENTRIES. lia. }
    destruct (cache !! id) eqn:E; [rewrite map_size_insert_Some by done; lia|].
    rewrite map_size_insert_None by done. lia.
  - intros i inc m [[<- [= <- <-]]|[_ E%Hsub]]%lookup_insert_Some; [|by apply Hc].
    exists d, newest. split_and!; [done|done|lia|done].
Qed.

(** The cache of stream lengths is transparent.  While the journals of
    offline sessions go on, with new incarnations but with none rewritten, a
    query answers exactly what a scan of the journal would, whether it finds
    the length in the cache or not, the cache never exceeds its bound, and it
    stays right for the queries after it. *)
Theorem cache_is_transparent journals journals' id (st : SessionStore (J:=J)) :
  cache_ok journals (st_stream_lens st) → moves_on journals journals' →
  (∀ d, journals' id = Some d → is_Some (Replay.filtered_stream_len clock fuel d)) →
  ∃ st', persisted_filtered_len_in clock fuel id (journals' id) st = Some (st', scanned_len (journals' id))
    ∧ cache_ok journals' (st_stream_lens st') ∧ st_sessions st' = st_sessions st.
Proof.
  intros Hc Hm Hfuel. apply (cache_moves_on _ _ _ Hm) in Hc. clear Hm.
  unfold persisted_filtered_len_in, scanned_len. destruct (journals' id) as [d|] eqn:Hd; [|by exists st].
  cbn [mbind option_bind]. destruct (last (list_incarnations d)) as [newest|] eqn:Hl; [|by exists st].
  cbn [mbind option_bind]. destruct (Hfuel d eq_refl) as [r Hr].
  assert (∃ st', (r ← Replay.filtered_stream_len clock fuel d;
      match r with
      | Err _ => Some (st, None)
      | Ok n =>
          let cache := if PERSISTED_STREAM_LEN_CACHE_ENTRIES <=? N.of_nat (size (st_stream_lens st))
                       then ∅ else st_stream_lens st in
          Some (st <| st_stream_lens := <[id := (newest, n)]> cache |>, Some n)
      end) = Some (st', match Replay.filtered_stream_len clock fuel d with Some (Ok n) => Some n | _ => None end)
    ∧ cache_ok journals' (st_stream_lens st') ∧ st_sessions st' = st_sessions st) as Hscan.
  { rewrite Hr. cbn [mbind option_bind]. destruct r as [n|e]; eexists; (split; [reflexivity|]); [|done].
    split; [|done]. by eapply cache_insert. }
  destruct (st_stream_lens st !! id) as [[incarnation n]|] eqn:He; [|exact Hscan].
  destruct (N.eqb_spec incarnation newest) as [->|]; [|exact Hscan].
  destruct Hc as [Hs Hc]. destruct (Hc _ _ _ He) as (d0 & i0 & Hd0 & Hl0 & _ & Hn). simplify_eq.
  exists st. split_and!; [|by split|done]. by rewrite Hn.
Qed.
End Cache.

(** ** Witnesses *)

#[local] Existing Instance no_base64.
#[local] Existing Instance csv_serde.
#[local] Existing Instance csv_laws.
#[local] Existing Instance plain_engine.

(** One session with an operator, a controller and an observer. *)
Definition plain_id : bytes := bs "abc1234".

Definition plain_runtime : SessionRuntime (J:=Scheduled) :=
  spawn_session 0 sample_meta 24 80 true 100 sample_engine (sample_journal (mk_world sample_storage [])).

Definition plain_store : SessionStore (J:=Scheduled) := mk_store {[plain_id := plain_runtime]} ∅ ∅.

Definition plain_requests : list (StoreOp (J:=Scheduled)) :=
  [SRegister 2 true plain_id Web Controller (Some (30, 100)); SInput 3 plain_id (Some 1) (bs "rm -rf /");
   SInput 4 plain_id (Some 2) (bs "ls"); SResize 5 true plain_id (Some 1) 10 10; SDetach plain_id 1;
   SInput 6 plain_id (Some 1) (bs "again"); SLocked plain_id (push_output 7 (bs "out") 3)].

Lemma plain_requests_ok : Forall locked_ok plain_requests.
Proof. unfold plain_requests. repeat constructor. Qed.

Lemma observers_never_drive_witness :
  ∃ a st1, drives (J:=Scheduled) plain_id a (SInput 3 plain_id (Some 1) (bs "rm -rf /")) = true
    ∧ store_run plain_requests st1 = store_run (filter (λ op, drives plain_id a op = false) plain_requests) st1.
Proof.
  pose proof (observers_never_drive 1 true plain_id Cli None plain_store plain_runtime plain_requests) as H.
  destruct (attach_register 1 true plain_id Cli Observer None plain_store) as [st1 r] eqn:E.
  destruct H as (a & Hr & Hrun & _).
  - unfold plain_store. cbn [st_sessions]. apply lookup_singleton_eq.
  - exact plain_requests_ok.
  - by vm_compute.
  - exists a, st1. split; [|exact Hrun].
    assert ((attach_register 1 true plain_id Cli Observer None plain_store).2 = Ok (1, Observer)) as Hone by by vm_compute.
    rewrite E in Hone. cbn [snd] in Hone. rewrite Hone in Hr. by injection Hr as <-.
Defined.

(** The journal of an offline session, and its next incarnation. *)
Definition offline (i : bytes) : option Dir := if bytes_eqb i plain_id then Some replay_journal else None.

Lemma cache_is_transparent_witness :
  ∃ st', persisted_filtered_len_in (J:=Scheduled) 0 10 plain_id (offline plain_id) (mk_store ∅ ∅ ∅)
      = Some (st', scanned_len 0 10 (offline plain_id))
    ∧ is_Some (scanned_len 0 10 (offline plain_id)) ∧ cache_ok 0 10 offline (st_stream_lens st').
Proof.
  destruct (cache_is_transparent 0 10 (λ _, None) offline plain_id (mk_store (J:=Scheduled) ∅ ∅ ∅)) as (st' & Hq & Hc & _).
  - split; [by vm_compute|]. cbn [st_stream_lens]. intros i inc n. by rewrite lookup_empty.
  - done.
  - unfold offline. intros d. case (bytes_eqb _ _); [|done]. intros [= <-].
    assert (match Replay.filtered_stream_len 0 10 replay_journal with Some _ => true | None => false end = true) as Hs
      by by vm_compute.
    by destruct (Replay.filtered_stream_len 0 10 replay_journal); [eexists|].
  - exists st'. split; [exact Hq|]. split; [|exact Hc].
    assert (match scanned_len 0 10 (offline plain_id) with Some _ => true | None => false end = true) as Hs by by vm_compute.
    by destruct (scanned_len 0 10 (offline plain_id)); [eexists|].
Defined.
