(* ===== verification/Attached.v ===== *)
(** * A client and its session

    The store, the session, its journal on disk and the pump of one client put
    together: a client subscribes to a session ([subscribe_with_policy] of
    [src/src/session/store/pump.rs]) and from then on its pump takes turns
    ([AttachPump::next]) whose readings are what the session gives at that
    moment, while the reader thread, the appender and the other clients go on.
    The theorem says that the client is sent the session's stream, from where
    its initial data end and without a gap. *)

From S2P Require Import Prelude Crc Utf8 Text RecordFormat SegmentScan Disk Manifest Open Retention.
From S2P Require Import Sequencer Stream Appender Journal Pump ProgramStatus Signals Scanner Replay Registry Recorder Runtime Session Mouse Attach.

Section Attached.
Context `{Crc32Fast, ManifestSerde, Base64, Engine} (clock : N) (fuel : nat).

Abbreviation Session := (Session (J:=Scheduled)).

(** ** What the session gives *)

(** The store that has this session, and what is on its disk: the directory
    of the live journal. *)
Definition one_session (id : bytes) (s : Session) : SessionStore :=
  mk_store {[id := ss_runtime s]} ∅ ∅.

Definition persisted (s : Session) : Persisted :=
  mk_persisted (Ok (Some (sm_exit_code (rt_meta (ss_runtime s))))) true
    (live_dir <$> rt_journal (ss_runtime s)).

(** A turn's choices: the clock, the polls of the credit gate, which source is
    ready, and which of the chunks sent so far the receiver yields.  The
    channel is bounded and drops chunks on its own account, so any may come. *)
Inductive Pick := PickTick | PickRecv (i : nat) | PickLagged (skipped : N) | PickClosed.
Inductive Buffered := BufChunk (i : nat) | BufLagged (skipped : N).

Record Turn := mk_turn {
  tn_now : N;
  tn_polls : list (N * N);
  tn_pick : option Pick;
  tn_buffered : list Buffered;
}.

Definition picked (id : bytes) (s : Session) (pick : Pick) : option Selected :=
  match pick with
  | PickTick => Some (Tick (match attach_stream_status id (persisted s) (one_session id s) with
                            | Ok status => Some status
                            | Err _ => None
                            end))
  | PickRecv i => Recv <$> ss_broadcast s !! i
  | PickLagged skipped => Some (RecvLagged skipped)
  | PickClosed => Some (RecvClosed (get_exit_code id (one_session id s)))
  end.

Definition buffered (s : Session) (b : Buffered) : option TryRecv :=
  match b with
  | BufChunk i => TryChunk <$> ss_broadcast s !! i
  | BufLagged skipped => Some (TryLagged skipped)
  end.

(** [cell]: the credit cell the pump of a credited stream holds. *)
Definition readings_of (id : bytes) (cell : option N) (s : Session) (t : Turn) : Readings := {|
  rd_now := tn_now t;
  rd_applied := match cell with
                | Some address => cell_value address (rt_attachments (ss_runtime s))
                | None => 0
                end;
  rd_polls := tn_polls t;
  rd_window := λ from max_bytes,
    match attach_resync_window clock fuel id (persisted s) from max_bytes (one_session id s) with
    | Some (Ok data) => Ok data
    | _ => Err Other
    end;
  rd_filtered_len := match attach_filtered_len clock fuel id (persisted s) (one_session id s) with
                     | Some (_, n) => n
                     | None => None
                     end;
  rd_selected := tn_pick t ≫= picked id s;
  rd_buffered := omap (buffered s) (tn_buffered t);
  rd_mode_bits := rt_shared_modes (ss_runtime s);
|}.

(** ** A subscription and what follows *)

(** The subscription leaves its mark in the session: the armed credit cell. *)
Definition marked (id : bytes) (s : Session) (st : SessionStore) : Session :=
  match st_sessions st !! id with Some rt => s <| ss_runtime := rt |> | None => s end.

Definition attach (id : bytes) (from_offset incarnation : option N) (credit : PumpCredit) (s : Session)
    : option (Session * result SessionError (AttachPump * AttachInit)) :=
  '(st, r) ← subscribe_with_policy clock fuel id (persisted s) from_offset incarnation credit
               production_policy (one_session id s);
  Some (marked id s st, r).

(** The cell [AttachmentRegistry::credit_cell] hands out at the subscription. *)
Definition cell_of (credit : PumpCredit) (s : Session) : option N :=
  match credit with Credited a => credit_cell a (rt_attachments (ss_runtime s)) | Uncredited => None end.

Inductive ClientOp :=
  | Goes (op : SessionOp (J:=Scheduled))
  | Turns (t : Turn).

(** The session goes on, or the transport asks its pump for the next event,
    until one ends the stream. *)
Definition client_step (id : bytes) (cell : option N) (c : Session * AttachPump * list AttachEvent)
    (op : ClientOp) : Session * AttachPump * list AttachEvent :=
  let '(s, p, events) := c in
  match op with
  | Goes op => (session_step s op, p, events)
  | Turns t =>
      if existsb ends events then c
      else match next_turn (readings_of id cell s t) p with
           | (p, Return event) => (s, p, events ++ [event])
           | (p, _) => (s, p, events)
           end
  end.

Definition client_run (id : bytes) (cell : option N) (ops : list ClientOp) (s : Session) (p : AttachPump)
    : Session * AttachPump * list AttachEvent := foldl (client_step id cell) (s, p, []) ops.

Definition client_op_ok (op : ClientOp) : Prop := match op with Goes op => op_ok op | Turns _ => True end.
End Attached.

(** ** Pieces of a stream that grows *)

Lemma piece_mono stream stream' offset data :
  piece stream offset data → stream `prefix_of` stream' → piece stream' offset data.
Proof. intros (x & y & -> & Hl) [more ->]. exists x, (y ++ more). by rewrite <- !app_assoc. Qed.

Lemma piece_window stream from max :
  from <= len stream → piece stream from (take (N.to_nat max) (drop (N.to_nat from) stream)).
Proof.
  intros Hle. exists (take (N.to_nat from) stream), (drop (N.to_nat max) (drop (N.to_nat from) stream)).
  rewrite take_drop, take_drop. split; [done|]. rewrite len_take. lia.
Qed.

Lemma streams_mono stream stream' c events c' :
  streams stream c events c' → stream `prefix_of` stream' → streams stream' c events c'.
Proof. intros Hs Hp. induction Hs; constructor; try done; by eapply piece_mono. Qed.

Lemma streams_snoc stream c events e c1 c2 :
  streams stream c events c1 → existsb ends events = false → emits stream c1 e c2 →
  streams stream c (events ++ [e]) c2.
Proof.
  intros Hs. induction Hs; cbn [existsb ends app orb]; intros He Hm; try done.
  - destruct e; cbn in Hm; destruct_and?; subst; by repeat constructor.
  - constructor; auto.
  - constructor; auto.
Qed.

Lemma pump_ok_mono stream stream' p :
  pump_ok stream p → stream `prefix_of` stream' → pump_ok stream' p.
Proof.
  intros [Hc Hh Hp] Hpre. split; [|intros; eapply piece_mono; eauto|done].
  destruct Hpre as [more ->]. rewrite len_app. lia.
Qed.

(** Each chunk of a row of tiles is the piece at its offset. *)
Lemma tiles_piece offset chunks before more c :
  tiles offset chunks → len before = offset → c ∈ chunks →
  piece (before ++ concat (map chunk_bytes chunks) ++ more) (chunk_offset c) (chunk_bytes c).
Proof.
  revert offset before. induction chunks as [|x chunks IH]; intros offset before Ht Hb Hin; [by apply not_elem_of_nil in Hin|].
  destruct Ht as (Ho & _ & Ht). cbn [map concat]. apply elem_of_cons in Hin as [->|Hin].
  - exists before, (concat (map chunk_bytes chunks) ++ more). by rewrite <- app_assoc, Ho.
  - rewrite <- app_assoc, app_assoc. apply (IH (offset + len (chunk_bytes x))); [done|by rewrite len_app, Hb|done].
Qed.

Section Prefixes.
Context `{Base64}.

Lemma honest_prefix a b : honest (a ++ b) → honest a.
Proof. intros Hh before r after ->. apply (Hh before r (after ++ b)). by rewrite <- app_assoc. Qed.

Lemma display_stream_prefix a b : display_stream a `prefix_of` display_stream (a ++ b).
Proof.
  unfold display_stream. rewrite shown_app. destruct (shown [] a) as [c x]. destruct (shown c b) as [c' y].
  by eexists.
Qed.

End Prefixes.

Section AttachedTheorems.
Context `{Crc32Fast, !Crc32FastLaws, ManifestSerde, !ManifestSerdeLaws, Base64, Engine}.
Context (limit inc : N) (ls : list ManifestLine) (clock : N) (fuel : nat).

#[local] Abbreviation Session := (Session.Session (J:=Scheduled)).
#[local] Abbreviation laws := (scheduled_laws limit inc ls).
#[local] Abbreviation ok := (@session_ok _ _ _ _ laws).

(** The stream only grows. *)
Lemma step_stream (s : Session) op : ss_stream s `prefix_of` ss_stream (session_step s op).
Proof.
  destruct op; cbn [session_step on_runtime]; try done.
  - unfold read_chunk. destruct (negb _); [done|]. destruct (scan _ _ _ _) as [scanner out].
    destruct (take_changed_signals scanner) as [changed scanner'].
    destruct (ingest _ _ _ _ _ _ _) as [rt [[resp off] [detail|]]]; by eexists.
  - unfold broadcast_chunk. by destruct (pr_outbox _).
  - unfold answer. destruct (pr_outbox (ss_reader s)), (pr_responses (ss_reader s)); try done. destruct (negb _); [done|]. by destruct (_ <=? _).
  - unfold end_reading. by destruct (idle_reader _).
  - unfold close_out. by destruct (pr_closing _).
Qed.

(** What is on disk, seen from outside: the newest incarnation shows the
    beginning of the stream. *)
Lemma persisted_stream (s : Session) ending j es :
  ok s ending j es → len (ss_stream s) <= u64_max →
  ∃ rss t, rt_journal (ss_runtime s) = Some j ∧ holds (live_dir j) inc rss t
    ∧ latest_incarnation (live_dir j) = Some inc ∧ honest (concat rss)
    ∧ display_stream (concat rss) `prefix_of` ss_stream s
    ∧ (length (concat rss) <= length es)%nat.
Proof.
  intros [Hr _ _ _] Hle. destruct (rk_records _ _ _ _ _ _ Hr) as [Hlog Hlg _]. specialize (Hlg Hle).
  destruct (log_on_disk limit inc ls j es Hlog) as (m & rss & t & Hd & Hc & Hl).
  exists rss, t. rewrite Hc. split_and!.
  - exact (rk_journal _ _ _ _ _ _ Hr).
  - exact Hd.
  - exact Hl.
  - apply (honest_prefix _ (drop m es)). rewrite take_drop. exact (lo_honest _ _ _ _ _ Hlg).
  - etrans; [apply (display_stream_prefix _ (drop m es))|]. rewrite take_drop. exact (lo_stream _ _ _ _ _ Hlg).
  - rewrite length_take. lia.
Qed.

Lemma prefix_len {A} (a b : list A) : a `prefix_of` b → len a <= len b.
Proof. intros [more ->]. rewrite len_app. lia. Qed.

(** The windows a turn reads are those of what the newest incarnation shows. *)
Lemma window_is id cell (s : Session) ending j es t :
  ok s ending j es → len (ss_stream s) <= u64_max → (length es < fuel)%nat →
  ∃ shown, shown `prefix_of` ss_stream s ∧ ∀ from max,
    rd_window (readings_of clock fuel id cell s t) from max = Ok (take (N.to_nat max) (drop (N.to_nat from) shown)).
Proof.
  intros Hok Hle Hfuel. destruct (persisted_stream s ending j es Hok Hle) as (rss & tl & Hj & Hd & Hl & Hh & Hp & Hn).
  pose proof (prefix_len _ _ Hp). exists (display_stream (concat rss)). split; [done|]. intros from max.
  cbn [readings_of rd_window]. unfold attach_resync_window, lookup_runtime, one_session.
  cbn [st_sessions]. rewrite lookup_singleton_eq. cbn [persisted ps_journal]. rewrite Hj.
  cbn [fmap option_fmap option_map journal_dir default from_option Datatypes.id].
  by rewrite (filtered_stream_window_spec clock _ inc rss tl from max fuel Hd Hl Hh) by lia.
Qed.

(** The readings of a turn are of the session's stream. *)
Lemma readings_ok id cell (s : Session) ending j es t :
  ok s ending j es → len (ss_stream s) <= u64_max → (length es < fuel)%nat →
  reads (ss_stream s) (readings_of clock fuel id cell s t).
Proof.
  intros Hok Hle Hfuel. destruct (window_is id cell s ending j es t Hok Hle Hfuel) as (shown & Hp & Hwin).
  assert (∀ c i, ss_broadcast s !! i = Some c → piece (ss_stream s) (chunk_offset c) (chunk_bytes c)) as Hchunk.
  { intros c i Hc. destruct (so_broadcast _ _ _ _ Hok) as [(lost & Hs & _) Hti _]. rewrite Hs.
    apply (tiles_piece 0 _ []); [by apply Hti|done|]. apply elem_of_app. left. by eapply list_elem_of_lookup_2. }
  split.
  - intros from max data Hfrom. rewrite Hwin. intros [= <-]. split; [|rewrite len_take; lia].
    destruct (N.le_gt_cases from (len shown)) as [Hin|Hout].
    + eapply piece_mono; [|exact Hp]. by apply piece_window.
    + rewrite drop_ge by (unfold len in *; lia). rewrite take_nil. by apply piece_nil.
  - intros c. cbn [readings_of rd_selected]. destruct (tn_pick t) as [[|i|n|]|]; cbn; try done.
    destruct (ss_broadcast s !! i) as [x|] eqn:E; cbn; [|done]. intros [= ->]. by eapply Hchunk.
  - intros c (b & Hb & E)%list_elem_of_omap. destruct b as [i|n]; cbn in E; [|done].
    destruct (ss_broadcast s !! i) as [x|] eqn:Ex; cbn in E; [|done]. injection E as ->. by eapply Hchunk.
Qed.

(** They are short if every chunk broadcast is. *)
Lemma readings_short id cell (s : Session) ending j es t :
  ok s ending j es → len (ss_stream s) <= u64_max → (length es < fuel)%nat →
  Forall (λ c, len (chunk_bytes c) <= CHUNK_BYTES) (ss_broadcast s) →
  small_chunks (readings_of clock fuel id cell s t).
Proof.
  intros Hok Hle Hfuel Hall. destruct (window_is id cell s ending j es t Hok Hle Hfuel) as (shown & _ & Hwin).
  rewrite Forall_lookup in Hall. split.
  - intros from max data. rewrite Hwin. intros [= <-]. rewrite len_take. lia.
  - intros c. cbn [readings_of rd_selected]. destruct (tn_pick t) as [[|i|n|]|]; cbn; try done.
    destruct (ss_broadcast s !! i) as [x|] eqn:E; cbn; [|done]. intros [= ->]. by eapply Hall.
  - intros c (b & Hb & E)%list_elem_of_omap. destruct b as [i|n]; cbn in E; [|done].
    destruct (ss_broadcast s !! i) as [x|] eqn:Ex; cbn in E; [|done]. injection E as ->. by eapply Hall.
Qed.

(** What the client has by now is of the stream, and its pump is in step. *)
Definition sees (start : N) (c : Session * AttachPump * list AttachEvent) : Prop :=
  let '(s, p, events) := c in
  pump_ok (ss_stream s) p ∧ streams (ss_stream s) start events (pm_current_offset p).

Lemma sees_grows start s s' p events :
  sees start (s, p, events) → ss_stream s `prefix_of` ss_stream s' → sees start (s', p, events).
Proof. intros [Hok Hs] Hp. split; [by eapply pump_ok_mono|by eapply streams_mono]. Qed.

Lemma client_step_stream id cell s p events op :
  let '(s', _, _) := client_step clock fuel id cell (s, p, events) op in ss_stream s `prefix_of` ss_stream s'.
Proof.
  destruct op as [op|t]; cbn [client_step]; [apply step_stream|]. destruct (existsb _ _); [done|].
  by destruct (next_turn _ p) as [p' []].
Qed.

Lemma client_run_stream id cell ops c :
  ss_stream c.1.1 `prefix_of` ss_stream (foldl (client_step clock fuel id cell) c ops).1.1.
Proof.
  revert c. induction ops as [|op ops IH]; intros [[s p] events]; [done|]. cbn [foldl]. etrans; [|apply IH].
  pose proof (client_step_stream id cell s p events op) as Hs. by destruct (client_step _ _ _ _ _ op) as [[s' p'] events'].
Qed.

Lemma client_turn_sees id cell start s p events ending j es t :
  ok s ending j es → len (ss_stream s) <= u64_max → (length es < fuel)%nat →
  sees start (s, p, events) → sees start (client_step clock fuel id cell (s, p, events) (Turns t)).
Proof.
  intros Hok Hle Hfuel [Hp Hs]. cbn [client_step]. destruct (existsb ends events) eqn:He; [done|].
  pose proof (next_turn_ok (ss_stream s) _ p Hp (readings_ok id cell s ending j es t Hok Hle Hfuel)) as [Hp' Hr].
  destruct (next_turn _ p) as [p' [|event|]]; cbn [fst snd] in *; (split; [done|]); [by rewrite Hr| |by rewrite Hr].
  by eapply streams_snoc.
Qed.

Lemma client_run_sees id cell start ops s p events ending j es :
  ok s ending j es → Forall client_op_ok ops → len es + 3 * len ops + 5 <= u64_max →
  (N.to_nat (len es + 3 * len ops) < fuel)%nat → sees start (s, p, events) →
  let c := foldl (client_step clock fuel id cell) (s, p, events) ops in
  len (ss_stream c.1.1) <= u64_max → sees start c.
Proof.
  revert s p events ending j es. induction ops as [|op ops IH]; intros s p events ending j es Hok Hops Hmax Hfuel Hsee c Hle; [done|].
  apply Forall_cons in Hops as [Hop Hops]. rewrite len_cons in Hmax, Hfuel. subst c. cbn [foldl] in *.
  destruct op as [op|t].
  - destruct (session_step_ok s op ending j es Hok Hop ltac:(lia)) as (e1 & j1 & es1 & Hok1 & Hlen1).
    eapply (IH _ _ _ e1 j1 es1); [done|done|lia|lia|by eapply sees_grows, step_stream|done].
  - pose proof (prefix_len _ _ (client_run_stream id cell ops (client_step clock fuel id cell (s, p, events) (Turns t)))) as Hpre.
    pose proof (client_step_stream id cell s p events (Turns t)) as Hst.
    assert (len (ss_stream s) <= u64_max) as Hle1.
    { destruct (client_step _ _ _ _ _ _) as [[s1 p1] ev1]. apply prefix_len in Hst. cbn [fst] in Hpre. lia. }
    pose proof (client_turn_sees id cell start s p events ending j es t Hok Hle1 ltac:(unfold len in Hfuel; lia) Hsee) as Hsee'.
    assert ((client_step clock fuel id cell (s, p, events) (Turns t)).1.1 = s) as Hsame.
    { cbn [client_step]. destruct (existsb _ _); [done|]. by destruct (next_turn _ p) as [? []]. }
    destruct (client_step _ _ _ _ _ _) as [[s1 p1] ev1]. cbn [fst] in Hsame. subst s1.
    eapply (IH _ _ _ ending j es); [done|done|lia|lia|done|done].
Qed.

(** Arming a credit cell is nothing to the session. *)
Lemma attachments_ok (s : Session) registry ending j es :
  ok s ending j es → ok (s <| ss_runtime := ss_runtime s <| rt_attachments := registry |> |>) ending j es.
Proof. intros [Hr Ht [Hall Hti Hc] Hcl]. by split; [| |split|]. Qed.

(** The initial data of a client, and where its stream starts: a snapshot of
    the screen at the end of what the reader has shown, or the persisted
    stream from the offset it resumes at. *)
Definition starts (stream : bytes) (from_offset : option N) (init : AttachInit) : Prop :=
  match from_offset with
  | None => ai_end_offset init = len stream
  | Some offset =>
      (offset <= ai_end_offset init →
         piece stream offset (ai_data init) ∧ offset + len (ai_data init) = ai_end_offset init)
      ∧ (ai_end_offset init < offset → ai_data init = [])
  end.

(** Why a subscription is refused. *)
Definition refused (from_offset incarnation current : option N) (credit : PumpCredit)
    (registry : AttachmentRegistry) (e : SessionError) : Prop :=
  match e with
  | StaleCursor requested current' =>
      resume_allowed from_offset incarnation current = false ∧ requested = incarnation ∧ current' = current
  | StaleAttachment => ∃ a, credit = Credited a ∧ contains a registry = false
  | _ => False
  end.

Lemma subscription_ok id (s : Session) from_offset ending j es :
  ok s ending j es → len (ss_stream s) <= u64_max → (length es < fuel)%nat →
  ∃ data end_, subscription clock fuel id (persisted s) from_offset (one_session id s)
      = Some (Ok (data, end_, mode_snapshot (ss_runtime s)))
    ∧ end_ <= len (ss_stream s)
    ∧ ∀ running modes incarnation, starts (ss_stream s) from_offset (mk_init data end_ running modes incarnation).
Proof.
  intros Hok Hle Hfuel. destruct (persisted_stream s ending j es Hok Hle) as (rss & tl & Hj & Hd & Hl & Hh & Hp & Hn).
  pose proof (prefix_len _ _ Hp) as Hlen. pose proof (so_total _ _ _ _ Hok) as Ht.
  assert (lookup_runtime id (one_session id s) = Ok (ss_runtime s)) as Hlook.
  { unfold lookup_runtime, one_session. cbn [st_sessions]. by rewrite lookup_singleton_eq. }
  destruct from_offset as [offset|]; cbn [subscription].
  - unfold attach_subscribe_init. rewrite Hlook. cbn [persisted ps_journal]. rewrite Hj.
    cbn [fmap option_fmap option_map mbind option_bind default from_option Datatypes.id].
    rewrite (filtered_stream_from_spec clock _ inc rss tl offset fuel Hd Hl Hh) by lia. cbn [mbind option_bind].
    set (data := drop (N.to_nat offset) (display_stream (concat rss))).
    assert (collect_chunk_bytes (if len data =? 0 then [] else [(offset, data)]) = data) as Hcollect.
    { destruct (N.eqb_spec (len data) 0) as [Hz%len_0|]; [by rewrite Hz|]. cbn. by rewrite app_nil_r. }
    exists data, (len (display_stream (concat rss))). rewrite Hcollect. split_and!; [done|done|].
    intros running modes incarnation. split; cbn [ai_end_offset ai_data]; intros Hoff.
    + split; [|unfold data; rewrite len_drop; lia]. eapply piece_mono; [|exact Hp].
      exists (take (N.to_nat offset) (display_stream (concat rss))), []. rewrite app_nil_r. unfold data.
      rewrite take_drop, len_take. split; [done|lia].
    + unfold data. apply drop_ge. unfold len in Hoff. lia.
  - unfold attach_snapshot_init. rewrite Hlook. do 2 eexists. split; [done|]. unfold Runtime.filtered_stream_len.
    rewrite Ht. split; [lia|]. intros *. cbn. lia.
Qed.

Lemma attach_ok id (s : Session) from_offset incarnation credit ending j es :
  ok s ending j es → len (ss_stream s) <= u64_max → (length es < fuel)%nat →
  ∃ s1 r, attach clock fuel id from_offset incarnation credit s = Some (s1, r)
    ∧ ok s1 ending j es ∧ ss_stream s1 = ss_stream s
    ∧ match r with
      | Err e => s1 = s ∧ refused from_offset incarnation (journal_incarnation (ss_runtime s)) credit
                            (rt_attachments (ss_runtime s)) e
      | Ok (p, init) =>
          pump_ok (ss_stream s) p ∧ pm_held p = None ∧ pm_current_offset p = ai_end_offset init
          ∧ starts (ss_stream s) from_offset init
          ∧ Some (ai_incarnation init) = journal_incarnation (ss_runtime s)
      end.
Proof.
  intros Hok Hle Hfuel. pose proof (rk_journal _ _ _ _ _ _ (so_runtime _ _ _ _ Hok)) as Hj.
  change (rt_journal (ss_runtime s) = Some j) in Hj.
  destruct (subscription_ok id s from_offset ending j es Hok Hle Hfuel) as (data & end_ & Hsub & Hend & Hstarts).
  assert (lookup_runtime id (one_session id s) = Ok (ss_runtime s)) as Hlook.
  { unfold lookup_runtime, one_session. cbn [st_sessions]. by rewrite lookup_singleton_eq. }
  assert (store_incarnation id (persisted s) (one_session id s) = journal_incarnation (ss_runtime s)) as Hinc.
  { unfold store_incarnation, one_session. cbn [st_sessions]. rewrite lookup_singleton_eq.
    unfold journal_incarnation. by rewrite Hj. }
  assert (marked id s (one_session id s) = s) as Hback.
  { unfold marked, one_session. cbn [st_sessions]. rewrite lookup_singleton_eq. by destruct s. }
  unfold attach, subscribe_with_policy. rewrite Hinc.
  destruct (resume_allowed _ _ _) eqn:Hallowed; cbn [negb];
    [|by do 2 eexists; cbn [mbind option_bind]; rewrite Hback].
  rewrite Hsub. cbn [mbind option_bind]. unfold attach_stream_status, arm_credit. rewrite Hlook.
  destruct credit as [|a].
  - do 2 eexists. split; [reflexivity|]. rewrite Hback. split_and!; [done|done| |done|done|apply Hstarts|].
    + by split; [|done|].
    + cbn. unfold journal_incarnation. by rewrite Hj.
  - destruct (credit_cell a _) as [cell|] eqn:Hcell.
    + do 2 eexists. split; [reflexivity|]. unfold marked, put. cbn [st_sessions set]. cbn.
      rewrite lookup_insert_eq. split_and!; [by apply attachments_ok|done|by split|done|done|apply Hstarts|].
      unfold journal_incarnation. by rewrite Hj.
    + do 2 eexists. split; [reflexivity|]. rewrite Hback. split_and!; [done|done|done|].
      exists a. split; [done|]. unfold contains, credit_cell in *. apply bool_decide_eq_false_2.
      intros [x Hx]. by rewrite Hx in Hcell.
Qed.

(** C1: Clients see the session.  A client that attaches to a running session
    at any moment gets either a refusal that names its stale cursor or stale
    token, or initial data and a pump.  A fresh client starts at the end of
    what the session has shown; one that resumes gets the persisted stream
    from its offset to where its pump starts.  From then on, whatever the
    child, the other clients, the appender and the broadcast channel do, the
    events of the pump are consecutive pieces of the session's stream from
    that point, as far as the pump has come: nothing lost, repeated or out of
    order. *)
Theorem clients_see_the_session now meta rows cols notifications scrollback e j0 before id from_offset
    incarnation credit after :
  @rc_log _ _ laws j0 [] → 0 < rows <= u16_max → 0 < cols <= u16_max →
  sm_ended_at meta = None → final_status (sm_status meta) = false →
  Forall op_ok before → Forall client_op_ok after →
  3 * (len before + len after) + 7 <= u64_max → (N.to_nat (3 * (len before + len after) + 2) < fuel)%nat →
  let s0 := session_run (spawned (spawn_session now meta rows cols notifications scrollback e j0)) before in
  len (ss_stream s0) <= u64_max →
  ∃ s1 r, attach clock fuel id from_offset incarnation credit s0 = Some (s1, r) ∧
  match r with
  | Err err => s1 = s0 ∧ refused from_offset incarnation (journal_incarnation (ss_runtime s0)) credit
                            (rt_attachments (ss_runtime s0)) err
  | Ok (p, init) =>
      starts (ss_stream s0) from_offset init
      ∧ let '(s, p', events) := client_run clock fuel id (cell_of credit s1) after s1 p in
        ss_stream s0 `prefix_of` ss_stream s
        ∧ (len (ss_stream s) <= u64_max →
           streams (ss_stream s) (ai_end_offset init) events (pm_current_offset p'))
  end.
Proof.
  intros Hl Hrows Hcols Hend Hst Hops Hafter Hmax Hfuel s0 Hle.
  destruct (reachable_ok (RecorderLaws0:=laws) now meta rows cols notifications scrollback e j0 before) as (ending & j & es & Hok & Hlen);
    [done..|lia|].
  fold s0 in Hok. destruct (attach_ok id s0 from_offset incarnation credit ending j es Hok Hle ltac:(unfold len in *; lia))
    as (s1 & r & Hat & Hok1 & Hs1 & Hr).
  exists s1, r. split; [done|]. destruct r as [[p init]|err]; [|done]. destruct Hr as (Hp & _ & Hcur & Hstarts & _).
  split; [done|]. unfold client_run.
  pose proof (client_run_stream id (cell_of credit s1) after (s1, p, [])) as Hpre.
  pose proof (client_run_sees id (cell_of credit s1) (ai_end_offset init) after s1 p [] ending j es Hok1 Hafter
    ltac:(lia) ltac:(lia)) as Hrun.
  destruct (foldl _ _ after) as [[s p'] events]. cbn [fst] in *. rewrite <- Hs1. split; [done|].
  intros Hle'. apply Hrun; [|done]. split; [by rewrite Hs1|]. rewrite <- Hcur. constructor.
Qed.
End AttachedTheorems.

(** ** Witness *)

#[local] Existing Instance csv_serde.
#[local] Existing Instance csv_laws.
#[local] Existing Instance no_base64.
#[local] Existing Instance plain_engine.

(** A controller attaches after the first output and gets the rest live; the
    chunk it already has is not repeated. *)
Definition watch_before : list (SessionOp (J:=Scheduled)) :=
  [OpRead 1 (bs "hello"); OpBroadcast; OpAttach 2 true Cli Controller None].
Definition watch_after : list ClientOp :=
  [Goes (OpRead 3 (bs " world")); Goes OpBroadcast; Turns (mk_turn 4 [] (Some (PickRecv 0)) []);
   Turns (mk_turn 5 [] (Some (PickRecv 1)) [])].

#[local] Abbreviation watched_session :=
  (session_run (spawned (spawn_session 0 sample_meta 24 80 true 100 sample_engine
     (sample_journal (mk_world sample_storage [])))) watch_before) (only parsing).

Definition delivered (events : list AttachEvent) : bytes :=
  concat (map (λ e, match e with Chunk _ data => data | _ => [] end) events).

Definition watch_outcome : option (N * bytes) :=
  match attach 0 50 (bs "abc1234") None None (Credited 1) watched_session with
  | Some (s1, Ok (p, init)) =>
      let '(_, _, events) := client_run 0 50 (bs "abc1234") (cell_of (Credited 1) s1) watch_after s1 p in
      Some (ai_end_offset init, delivered events)
  | _ => None
  end.

Lemma clients_see_the_session_witness :
  ∃ stream events cursor, streams stream 5 events cursor ∧ delivered events = bs " world".
Proof.
  destruct (clients_see_the_session 4096 7 [] 0 50 0 sample_meta 24 80 true 100 sample_engine
    (sample_journal (mk_world sample_storage [])) watch_before (bs "abc1234") None None (Credited 1) watch_after)
    as (s1 & r & Hat & Hr).
  - by apply sample_journal_log.
  - done.
  - done.
  - done.
  - done.
  - by repeat constructor.
  - by repeat constructor.
  - by vm_compute.
  - apply Nat.ltb_lt. by vm_compute.
  - by vm_compute.
  - assert (watch_outcome = Some (5, bs " world")) as Hout by by vm_compute.
    unfold watch_outcome in Hout. rewrite Hat in Hout. destruct r as [[p init]|e]; [|done].
    destruct Hr as [_ Hr]. destruct (client_run _ _ _ _ _ _ _) as [[s p'] events] eqn:E.
    injection Hout as Hstart Hdel. destruct Hr as [_ Hs]. rewrite Hstart in Hs.
    exists (ss_stream s), events, (pm_current_offset p'). split; [|done]. apply Hs.
    assert (len (ss_stream (match attach 0 50 (bs "abc1234") None None (Credited 1) watched_session with
      | Some (s1, Ok (p, _)) => (client_run 0 50 (bs "abc1234") (cell_of (Credited 1) s1) watch_after s1 p).1.1
      | _ => watched_session end)) <=? u64_max = true) as Hb by by vm_compute.
    rewrite Hat, E in Hb. by apply N.leb_le.
Defined.
