(* ===== verification/Relay.v ===== *)
(** * The attach relay

    The daemon's side of an attach stream ([handle_attach_subscribe] of
    [src/src/daemon/rpc_attach.rs]) between the session and the socket: the
    handshake, and the three arms of its loop, which take a message of the
    client, a turn of the pump or a resize of another client.  The lemmas say
    that a step leaves alone what the session shows, and writes at most one
    frame, which goes on from where the pump was.  [Link] puts the relay
    together with the socket and the client. *)

From S2P Require Import Prelude Crc Utf8 Text RecordFormat SegmentScan Disk Manifest Open Retention.
From S2P Require Import Sequencer Stream Appender Journal Pump Wire ProgramStatus Signals Scanner Replay Registry Recorder Runtime Session Mouse Client Resize Attach Attached.

Section Relay.
Context `{Crc32Fast, ManifestSerde, Base64, Engine} `{Json RpcResponse}.
Context (clock : N) (fuel : nat).

#[local] Abbreviation Session := (Session.Session (J:=Scheduled)).

(** ** The handler *)

(** What the handler holds between two turns of its loop. *)
Record Relay := mk_relay {
  rl_id : bytes;
  rl_attachment : N;
  rl_cell : option N;
  rl_pump : AttachPump;
  rl_resize_sub : ResizeSubscriber;
  rl_running : bool;
}.

#[export] Instance Relay_eta : Settable Relay := λ r,
  mk_relay (rl_id r) (rl_attachment r) (rl_cell r) (rl_pump r) (rl_resize_sub r) (rl_running r).

(** Only a fresh attach brings a size. *)
Definition viewport_of (from_byte_offset initial_rows initial_cols : option N) : option (N * N) :=
  match from_byte_offset, initial_rows, initial_cols with
  | None, Some rows, Some cols => if (0 <? rows) && (0 <? cols) then Some (rows, cols) else None
  | _, _, _ => None
  end.

(** [{:?}] of the unknown role token is given. *)
Definition role_error (quoted : bytes) : bytes :=
  bs "invalid attach mode " ++ quoted ++ bs ": expected observe|controller".

(** A client's requests are on its own session. *)
Definition on_store {A} (s : Session) (r : Relay)
    (f : SessionStore → SessionStore * A) : Session * A :=
  let '(st, a) := f (one_session (rl_id r) s) in (marked (rl_id r) s st, a).

(** The way out: the attachment is gone and the socket closed. *)
Definition relay_stop (s : Session) (r : Relay) : Session * Relay :=
  ((on_store s r (attach_detach (rl_id r) (rl_attachment r))).1, r <| rl_running := false |>).

(** [up]: whether the socket still takes what is written. *)
Definition write_frame (up : bool) (frame : result AppError bytes) : result AppError bytes :=
  bytes ← frame; if up then Ok bytes else Err (Io Other).

(** [?] on a write: the loop ends unless the frame is out. *)
Definition written (up : bool) (frame : result AppError bytes) (s : Session) (r : Relay)
    : Session * Relay * bytes :=
  match write_frame up frame with
  | Ok bytes => (s, r, bytes)
  | Err _ => (relay_stop s r, [])
  end.

(** Observe-mode violations are told to the client. *)
Definition is_refusal (e : SessionError) : bool :=
  match e with ViewOnly | StaleAttachment => true | _ => false end.

(** The first arm of the loop: a message of the client, or how reading one
    failed. *)
Definition relay_message (up : bool) (now : N) (ok : bool) (msg : option (result AppError RpcRequest))
    (s : Session) (r : Relay) : Session * Relay * bytes :=
  match msg with
  | None | Some (Err _) => (relay_stop s r, [])
  | Some (Ok (AttachInput id data _ _)) =>
      if bytes_eqb id (rl_id r) then
        match on_store s r (attach_input now id (Some (rl_attachment r)) data) with
        | (s, Ok _) => (s, r, [])
        | (s, Err err) =>
            if is_refusal err
            then written up (write_attach_control_frame (ErrorResponse (message id err))) s r
            else (relay_stop s r, [])
        end
      else (s, r, [])
  | Some (Ok (AttachResize id rows cols)) =>
      if bytes_eqb id (rl_id r) then
        let r := r <| rl_resize_sub := mark_sent rows cols (rl_resize_sub r) |> in
        match on_store s r (attach_resize now ok id (Some (rl_attachment r)) rows cols) with
        | (s, Ok _) => (s, r, [])
        | (s, Err err) =>
            if is_refusal err
            then (s, r <| rl_resize_sub := mark_sent 0 0 (rl_resize_sub r) |>, [])
            else (relay_stop s r, [])
        end
      else (s, r, [])
  | Some (Ok (AttachAppliedCursor id cursor)) =>
      if bytes_eqb id (rl_id r)
      then ((on_store s r (λ st, (attach_report_applied id (rl_attachment r) cursor st, tt))).1, r, [])
      else (s, r, [])
  | Some (Ok (AttachDetach id)) =>
      if bytes_eqb id (rl_id r) then (relay_stop s r, []) else (s, r, [])
  | Some (Ok _) => (s, r, [])
  end.

(** The second arm: a turn of the pump, and the frame of its event. *)
Definition relay_event (up : bool) (readings : Readings) (s : Session) (r : Relay)
    : Session * Relay * bytes :=
  let '(p, turn) := next_turn readings (rl_pump r) in
  let r := r <| rl_pump := p |> in
  match turn with
  | Return (Chunk offset data) => written up (Ok (write_attach_output_frame offset data)) s r
  | Return (Modes modes) => written up (write_attach_control_frame (AttachModeChanged modes)) s r
  | Return (Pump.Done exit_code final_offset) =>
      (relay_stop s r,
       match write_frame up (write_attach_control_frame (AttachStreamDone exit_code final_offset)) with
       | Ok bytes => bytes
       | Err _ => []
       end)
  | Return Closed => (relay_stop s r, [])
  | Continue | StillWaiting => (s, r, [])
  end.

(** The third arm: what the resize channel yields. *)
Definition relay_resized (up : bool) (yields : list Received) (s : Session) (r : Relay)
    : Session * Relay * bytes :=
  let '(sub, _, size) := recv_foreign yields (rl_resize_sub r) in
  let r := r <| rl_resize_sub := sub |> in
  match size with
  | Some (Some (rows, cols)) => written up (write_attach_control_frame (AttachResized rows cols)) s r
  | _ => (s, r, [])
  end.

(** What comes before the loop: the role, the registration, the subscription
    and the init response.  [scrollback] is what [attach_scrollback_seed]
    gives.  If the init response cannot be written there is no loop, and
    nothing is detached. *)
Definition relay_start (up : bool) (now : N) (ok : bool) (id : bytes) (from_byte_offset incarnation rows cols : option N)
    (role : option bytes) (quoted : bytes) (credited : bool) (scrollback : bytes) (s : Session)
    : option (Session * (RpcResponse * option (Relay * AttachInit))) :=
  match role_parse role with
  | Err _ => Some (s, (ErrorResponse (role_error quoted), None))
  | Ok role =>
      let '(st, registration) :=
        attach_register now ok id Cli role (viewport_of from_byte_offset rows cols) (one_session id s) in
      let s := marked id s st in
      match registration with
      | Err err => Some (s, (ErrorResponse (message id err), None))
      | Ok (attachment_id, current_role) =>
          let credit := if credited then Credited attachment_id else Uncredited in
          '(s, subscription) ← attach clock fuel id from_byte_offset incarnation credit s;
          match subscription with
          | Err err =>
              let st := (attach_detach id attachment_id (one_session id s)).1 in
              Some (marked id s st, (ErrorResponse (message id err), None))
          | Ok (pump, init) =>
              let scrollback := match from_byte_offset, rows, cols with
                                | None, Some rows, Some _ => if 0 <? rows then scrollback else []
                                | _, _, _ => []
                                end in
              Some (s, (AttachStreamInit (ai_data init) (ai_end_offset init) (ai_running init) (ai_modes init)
                          scrollback (ai_incarnation init) attachment_id (role_as_str current_role),
                        if up then
                          Some (mk_relay id attachment_id (cell_of credit s) pump
                                  (new_subscriber (subscribe_resize id (one_session id s))) true, init)
                        else None))
          end
      end
  end.
End Relay.

(** ** The session under the relay *)

Section RelaySession.
Context `{Crc32Fast, !Crc32FastLaws, ManifestSerde, !ManifestSerdeLaws, Base64, Engine}.
Context `{Json RpcResponse}.
Context (limit inc : N) (ls : list ManifestLine).

#[local] Abbreviation Session := (Session.Session (J:=Scheduled)).
#[local] Abbreviation laws := (scheduled_laws limit inc ls).
#[local] Abbreviation ok := (@session_ok _ _ _ _ laws).

(** What the relay does to a session: nothing of what the reader thread has
    shown or is about to. *)
Record behind (n : N) (s s' : Session) : Prop := {
  be_reader : ss_reader s' = ss_reader s;
  be_broadcast : ss_broadcast s' = ss_broadcast s;
  be_stream : ss_stream s' = ss_stream s;
  be_ok ending j es : ok s ending j es → len es + n + 5 <= u64_max →
    ∃ ending' j' es', ok s' ending' j' es' ∧ len es' <= len es + n;
}.

Lemma behind_refl n s : behind n s s.
Proof. split; [done..|]. intros ending j es Hok _. exists ending, j, es. split; [done|lia]. Qed.

Lemma behind_trans n m s1 s2 s3 : behind n s1 s2 → behind m s2 s3 → behind (n + m) s1 s3.
Proof.
  intros [R1 B1 S1 O1] [R2 B2 S2 O2]. split; [congruence..|]. intros ending j es Hok Hmax.
  destruct (O1 _ _ _ Hok ltac:(lia)) as (e1 & j1 & es1 & Hok1 & Hl1).
  destruct (O2 _ _ _ Hok1 ltac:(lia)) as (e2 & j2 & es2 & Hok2 & Hl2).
  exists e2, j2, es2. split; [done|lia].
Qed.

Lemma behind_weaken n m s s' : n <= m → behind n s s' → behind m s s'.
Proof.
  intros Hnm [R B S O]. split; [done..|]. intros ending j es Hok Hmax.
  destruct (O _ _ _ Hok ltac:(lia)) as (e & j1 & es1 & ? & ?). exists e, j1, es1. split; [done|lia].
Qed.

(** The operations that only take the runtime's lock. *)
Definition asks_runtime (op : SessionOp (J:=Scheduled)) : Prop :=
  match op with
  | OpRead _ _ | OpBroadcast | OpAnswer | OpEndReading _ | OpCloseOut _ => False
  | op => op_ok op
  end.

Lemma behind_step s op : asks_runtime op → behind 3 s (session_step s op).
Proof.
  intros Hop. split; [by destruct op..|]. intros ending j es Hok Hmax.
  apply (session_step_ok s op ending j es Hok); [by destruct op|lia].
Qed.

Lemma behind_registry s registry : behind 0 s (s <| ss_runtime := ss_runtime s <| rt_attachments := registry |> |>).
Proof.
  split; [done..|]. intros ending j es Hok _. exists ending, j, es. split; [by apply attachments_ok|lia].
Qed.

Lemma marked_same id (s : Session) : marked id s (one_session id s) = s.
Proof. unfold marked, one_session. cbn. rewrite lookup_singleton_eq. by destruct s. Qed.

Lemma marked_put id (s : Session) rt : marked id s (put id rt (one_session id s)) = s <| ss_runtime := rt |>.
Proof. unfold marked, put, one_session. cbn. by rewrite lookup_insert_eq. Qed.

Lemma lookup_one id (s : Session) : lookup_runtime id (one_session id s) = Ok (ss_runtime s).
Proof. unfold lookup_runtime, one_session. cbn. by rewrite lookup_singleton_eq. Qed.

Lemma stop_behind s r : behind 3 s (relay_stop s r).1.
Proof.
  unfold relay_stop, on_store, attach_detach. rewrite lookup_one. cbn [fst]. rewrite marked_put.
  by apply (behind_step s (OpDetach (rl_attachment r))).
Qed.

Lemma applied_behind s r cursor :
  behind 3 s (on_store s r (λ st, (attach_report_applied (rl_id r) (rl_attachment r) cursor st, tt))).1.
Proof.
  unfold on_store, attach_report_applied. rewrite lookup_one. cbn [fst]. rewrite marked_put.
  by apply (behind_step s (OpApplied (rl_attachment r) cursor)).
Qed.

Lemma input_behind now s r data :
  behind 3 s (on_store s r (attach_input now (rl_id r) (Some (rl_attachment r)) data)).1.
Proof.
  unfold on_store, attach_input, attach_input_action. rewrite lookup_one.
  destruct (gate _ _) as [[]|e]; cbn [mbind result_bind fst]; [|rewrite marked_same; apply behind_refl].
  pose proof (behind_step s (OpInput now data) I) as Hs. cbn [session_step] in Hs. unfold on_runtime in Hs. cbn beta in Hs.
  destruct (try_write_input data _) as [pty|[]]; cbn [fst]; rewrite ?marked_put, ?marked_same; [exact Hs|apply behind_refl..].
Qed.

Lemma resize_behind now good s r rows cols :
  rows <= u16_max → cols <= u16_max →
  behind 6 s (on_store s r (attach_resize now good (rl_id r) (Some (rl_attachment r)) rows cols)).1.
Proof.
  intros Hrows Hcols. unfold on_store, attach_resize. rewrite lookup_one.
  destruct (gate _ _) as [[]|e]; [|cbn [fst]; rewrite marked_same; apply behind_refl].
  set (rt := ss_runtime s <| rt_attachments := _ |>).
  pose proof (behind_registry s (set_viewport (rl_attachment r) rows cols (rt_attachments (ss_runtime s)))) as Hb1.
  pose proof (behind_step (s <| ss_runtime := rt |>) (OpActivity now) I) as Hb2.
  pose proof (behind_step (session_step (s <| ss_runtime := rt |>) (OpActivity now)) (OpResize now good rows cols)
    (conj Hrows Hcols)) as Hb3.
  pose proof (behind_trans _ _ _ _ _ Hb1 (behind_trans _ _ _ _ _ Hb2 Hb3)) as Hall.
  cbn [session_step] in Hall. unfold on_runtime in Hall. cbn beta in Hall. change (ss_runtime (s <| ss_runtime := ?x |>)) with x in Hall.
  destruct (resize_pty now good rows cols _) as [rt' resized]. cbn [fst] in *. rewrite marked_put. exact Hall.
Qed.

Lemma written_behind up frame s r s' r' frames :
  written up frame s r = (s', r', frames) → behind 3 s s'.
Proof.
  unfold written. pose proof (stop_behind s r) as Hs. destruct (write_frame up frame).
  - intros [= <- <- <-]. apply behind_refl.
  - destruct (relay_stop s r) as [s1 r1]. by intros [= <- <- <-].
Qed.
End RelaySession.
(** ** What the relay writes *)

(** What the relay lets out. *)
Definition sendable `{Json RpcResponse} (f : AttachFrame) : Prop :=
  match f with
  | FrameOutput offset data => offset <= u64_max ∧ len data <= RESYNC_WINDOW_BYTES
  | FrameControl response => len (to_vec response) <= MAX_ATTACH_CONTROL_FRAME_BYTES
  end.

Lemma flow_mono stream stream' c frames c' fin :
  flow stream c frames c' fin → stream `prefix_of` stream' → flow stream' c frames c' fin.
Proof. intros Hf Hp. induction Hf; constructor; try done; by eapply piece_mono. Qed.

Lemma flow_app stream c frames c1 more c2 fin :
  flow stream c frames c1 false → flow stream c1 more c2 fin → flow stream c (frames ++ more) c2 fin.
Proof.
  intros Hf. remember false as f eqn:Ef. revert Ef. induction Hf; intros Ef Hm; cbn [app]; try done; constructor; auto.
Qed.

Section RelayTheorems.
Context `{Crc32Fast, !Crc32FastLaws, ManifestSerde, !ManifestSerdeLaws, Base64, Engine}.
Context `{Json RpcResponse, !JsonLaws RpcResponse}.
Context (limit inc : N) (ls : list ManifestLine) (clock : N) (fuel : nat).

#[local] Abbreviation Session := (Session.Session (J:=Scheduled)).
#[local] Abbreviation laws := (scheduled_laws limit inc ls).
#[local] Abbreviation ok := (@session_ok _ _ _ _ laws).
#[local] Abbreviation wire_of frames := (concat (map frame_bytes frames)) (only parsing).
#[local] Abbreviation cursor_of r := (pm_current_offset (rl_pump r)) (only parsing).

(** What a step of the relay does: the pump stays in step with the stream,
    and what is written, if anything, is one frame that goes on from the
    pump's cursor. *)
Record relay_ok (up : bool) (s : Session) (r : Relay) (s' : Session) (r' : Relay) (frames : bytes) : Prop := {
  re_behind : behind limit inc ls 9 s s';
  re_pump : pump_ok (ss_stream s) (rl_pump r');
  re_held : held_small (rl_pump r');
  re_frame :
    (frames = [] ∧ (rl_running r' = true → cursor_of r' = cursor_of r))
    ∨ ∃ f fin, up = true ∧ frames = frame_bytes f ∧ sendable f
        ∧ flow (ss_stream s) (cursor_of r) [f] (cursor_of r') fin ∧ rl_running r' = negb fin;
}.

Lemma relay_ok_stopped up s r r1 :
  pump_ok (ss_stream s) (rl_pump r1) → held_small (rl_pump r1) →
  relay_ok up s r (relay_stop s r1).1 (relay_stop s r1).2 [].
Proof.
  intros Hp Hh. split; [eapply behind_weaken; [|apply stop_behind]; lia|done|done|]. by left.
Qed.

Lemma written_ok up frame f s s1 r r1 :
  behind limit inc ls 3 s s1 → pump_ok (ss_stream s) (rl_pump r1) → held_small (rl_pump r1) →
  rl_running r1 = true →
  (∀ bytes, frame = Ok bytes → bytes = frame_bytes f ∧ sendable f) →
  flow (ss_stream s) (cursor_of r) [f] (cursor_of r1) false →
  let '(s', r', frames) := written up frame s1 r1 in relay_ok up s r s' r' frames.
Proof.
  intros Hb Hp Hh Hrun Hframe Hflow. unfold written, write_frame.
  pose proof (behind_weaken limit inc ls (3 + 3) 9 _ _ ltac:(lia)
    (behind_trans _ _ _ _ _ _ _ _ Hb (stop_behind limit inc ls s1 r1))) as Hstop.
  destruct frame as [bytes|e]; cbn [mbind result_bind].
  - destruct (Hframe bytes eq_refl) as [-> Hs]. destruct up.
    + split; [eapply behind_weaken; [|exact Hb]; lia|done|done|]. right. by exists f, false.
    + split; [exact Hstop|done|done|by left].
  - split; [exact Hstop|done|done|by left].
Qed.

Lemma control_sendable response bytes :
  len (to_vec response) <= u32_max →
  write_attach_control_frame response = Ok bytes →
  bytes = frame_bytes (FrameControl response) ∧ sendable (FrameControl response).
Proof.
  intros Hlen Hw. cbn [frame_bytes sendable]. rewrite Hw. split; [done|]. revert Hw.
  unfold write_attach_control_frame. rewrite as_u32_small by done.
  destruct (N.ltb_spec MAX_ATTACH_CONTROL_FRAME_BYTES (len (to_vec response))); [done|lia].
Qed.

(** A notice under 4 GiB: its length fits the header. *)
Definition fits (response : RpcResponse) : bool := len (to_vec response) <=? u32_max.

Lemma control_ok up response s s1 r r1 :
  behind limit inc ls 3 s s1 → pump_ok (ss_stream s) (rl_pump r1) → held_small (rl_pump r1) →
  rl_running r1 = true → fits response = true →
  flow (ss_stream s) (cursor_of r) [FrameControl response] (cursor_of r1) false →
  let '(s', r', frames) := written up (write_attach_control_frame response) s1 r1 in relay_ok up s r s' r' frames.
Proof.
  intros Hb Hp Hh Hrun Hfit Hflow. apply (written_ok up _ (FrameControl response)); try done.
  intros bytes. apply control_sendable. by apply N.leb_le.
Qed.

Lemma one_notice stream c response :
  match response with AttachModeChanged _ | AttachResized _ _ | ErrorResponse _ => True | _ => False end →
  flow stream c [FrameControl response] c false.
Proof. destruct response; try done; intros _; constructor; constructor. Qed.

(** Requests the client's own types bound. *)
Definition request_ok (request : RpcRequest) : Prop :=
  match request with AttachResize _ rows cols => rows <= u16_max ∧ cols <= u16_max | _ => True end.

Lemma message_ok up now good msg s r :
  pump_ok (ss_stream s) (rl_pump r) → held_small (rl_pump r) → rl_running r = true →
  fits (ErrorResponse (message (rl_id r) ViewOnly)) = true →
  fits (ErrorResponse (message (rl_id r) StaleAttachment)) = true →
  (∀ request, msg = Ok request → request_ok request) →
  let '(s', r', frames) := relay_message up now good (Some msg) s r in relay_ok up s r s' r' frames.
Proof.
  intros Hp Hh Hrun Hv Hst Hreq.
  assert (∀ r1, rl_pump r1 = rl_pump r → relay_ok up s r (relay_stop s r1).1 (relay_stop s r1).2 []) as Hstop.
  { intros r1 E. apply relay_ok_stopped; by rewrite E. }
  assert (∀ r1, rl_pump r1 = rl_pump r → relay_ok up s r s r1 []) as Hstay.
  { intros r1 E. split; [apply behind_refl|by rewrite E..|]. left. by rewrite E. }
  assert (∀ n s1 r1, n <= 9 → behind limit inc ls n s s1 → rl_pump r1 = rl_pump r → relay_ok up s r s1 r1 []) as Hkept.
  { intros n s1 r1 Hn Hb E. split; [by eapply behind_weaken|by rewrite E..|]. left. by rewrite E. }
  unfold relay_message. destruct msg as [[| id data wait a|id rows cols|id|id cursor|name]|e];
    try (destruct (bytes_eqb id (rl_id r)) eqn:Eid; [apply bool_decide_eq_true in Eid as ->|by apply Hstay]);
    [by apply Hstay| | |by apply Hstop| |by apply Hstay|by apply Hstop].
  - pose proof (input_behind limit inc ls now s r data) as Hb.
    destruct (on_store s r _) as [s1 [res|err]]; cbn [fst] in Hb; [by eapply Hkept; [|exact Hb|]|].
    destruct (is_refusal err) eqn:Er.
    + apply control_ok; try done; [|by apply one_notice]. by destruct err.
    + split; [|done|done|by left]. eapply behind_weaken; [|eapply behind_trans; [exact Hb|apply stop_behind]]. lia.
  - destruct (Hreq _ eq_refl) as [Hrows Hcols].
    pose proof (resize_behind limit inc ls now good s (r <| rl_resize_sub := mark_sent rows cols (rl_resize_sub r) |>)
      rows cols Hrows Hcols) as Hb. cbn [rl_id rl_attachment] in Hb.
    destruct (on_store s _ _) as [s1 [res|err]]; cbn [fst] in Hb; [by eapply Hkept; [|exact Hb|]|].
    destruct (is_refusal err) eqn:Er; [by eapply Hkept; [|exact Hb|]|].
    split; [|done|done|by left]. eapply behind_weaken; [|eapply behind_trans; [exact Hb|apply stop_behind]]. lia.
  - eapply (Hkept 3); [lia|apply applied_behind|done].
Qed.

Lemma resized_ok up yields s r :
  pump_ok (ss_stream s) (rl_pump r) → held_small (rl_pump r) → rl_running r = true →
  (match (recv_foreign yields (rl_resize_sub r)).2 with
   | Some (Some (rows, cols)) => fits (AttachResized rows cols) = true
   | _ => True
   end) →
  let '(s', r', frames) := relay_resized up yields s r in relay_ok up s r s' r' frames.
Proof.
  intros Hp Hh Hrun Hfit. unfold relay_resized. destruct (recv_foreign _ _) as [[sub rest] size]. cbn [snd] in Hfit.
  destruct size as [[[rows cols]|]|].
  - apply control_ok; try done; [apply behind_refl|by apply one_notice].
  - split; [apply behind_refl|done|done|by left].
  - split; [apply behind_refl|done|done|by left].
Qed.

(** The frame of an event the pump returns. *)
Definition notice_of (turn : TurnResult) : option RpcResponse :=
  match turn with
  | Return (Modes modes) => Some (AttachModeChanged modes)
  | Return (Pump.Done exit_code final_offset) => Some (AttachStreamDone exit_code final_offset)
  | _ => None
  end.

Lemma event_ok up readings s r :
  pump_ok (ss_stream s) (rl_pump r) → held_small (rl_pump r) → rl_running r = true →
  len (ss_stream s) <= u64_max → reads (ss_stream s) readings → small_chunks readings →
  (∀ response, notice_of (next_turn readings (rl_pump r)).2 = Some response → fits response = true) →
  let '(s', r', frames) := relay_event up readings s r in relay_ok up s r s' r' frames.
Proof.
  intros Hp Hh Hrun Hle Hr Hsm Hfit.
  pose proof (next_turn_ok _ _ _ Hp Hr) as [Hp' Hturn]. pose proof (turn_advance _ _ Hh Hsm) as [Hh' Hadv].
  unfold relay_event. destruct (next_turn readings (rl_pump r)) as [p turn]. cbn [fst snd] in *.
  destruct turn as [|[offset data|modes|code final|]|]; cbn [emits] in Hturn.
  - split; [apply behind_refl|done|done|by left].
  - destruct Hturn as (-> & Hne & Hpc & Hc). pose proof (po_cursor _ _ Hp) as Hcur.
    eapply (written_ok up _ (FrameOutput (cursor_of r) data)); try done; [apply behind_refl| |].
    + intros bytes [= <-]. split; [done|]. cbn. lia.
    + cbn [rl_pump]. change (rl_pump (r <| rl_pump := p |>)) with p. rewrite Hc. by constructor; [|constructor].
  - apply control_ok; try done; [apply behind_refl|by apply Hfit|].
    change (rl_pump (r <| rl_pump := p |>)) with p. rewrite Hturn. by apply one_notice.
  - destruct Hturn as [-> Hc].
    pose proof (control_sendable (AttachStreamDone code (cursor_of r))) as Hsend. specialize (Hfit _ eq_refl).
    apply N.leb_le in Hfit. unfold write_frame.
    destruct (write_attach_control_frame _) as [bytes|e]; cbn [mbind result_bind];
      [|by apply (relay_ok_stopped up s r (r <| rl_pump := p |>))].
    destruct up; [|by apply (relay_ok_stopped false s r (r <| rl_pump := p |>))].
    destruct (Hsend bytes Hfit eq_refl) as [-> Hs].
    pose proof (relay_ok_stopped true s r (r <| rl_pump := p |>) Hp' Hh') as [Hb _ _ _].
    destruct (relay_stop s (r <| rl_pump := p |>)) as [s1 r1] eqn:E.
    assert (rl_pump r1 = p ∧ rl_running r1 = false) as [Hpump Hrun1] by (unfold relay_stop in E; by injection E as _ <-).
    split; [done|by rewrite Hpump..|]. right. eexists _, true. split_and!; [done|done|exact Hs| |done].
    rewrite Hpump, Hc. constructor.
  - by apply (relay_ok_stopped up s r (r <| rl_pump := p |>)).
  - split; [apply behind_refl|done|done|by left].
Qed.
End RelayTheorems.
