(* ===== verification/Link.v ===== *)
(** * The attach link

    An attach stream from end to end: the session, the pump and the relay of
    the daemon, the frames on the socket, the client's reader task
    ([run_attach_inner] of [src/src/client/attach.rs]) and the client.  The
    theorems say that whatever happens on either side and wherever the socket
    breaks, the client draws consecutive bytes of the session's stream, and
    ends either with all of it or with an error that names the transport; and
    that a backlog of more than a MiB ends the attach of a client that could
    go on. *)

From S2P Require Import Prelude Crc Utf8 Text RecordFormat SegmentScan Disk Manifest Open Retention.
From S2P Require Import Sequencer Stream Appender Journal Pump Wire ProgramStatus Signals Scanner Replay Registry Recorder Runtime Session Mouse Client Resize Attach Attached Relay.

Section Link.
Context `{Crc32Fast, ManifestSerde, Base64, Engine} `{Json RpcResponse}.
Context (clock : N) (fuel : nat).

#[local] Abbreviation Session := (Session.Session (J:=Scheduled)).

(** ** The link *)

Definition ATTACH_FRAME_QUEUE_DEPTH : N := 16.

(** [lk_wire]: the frames' bytes the daemon has written and the client has not
    read; [lk_reading]: the client's reader task goes on; [lk_requests]: the
    client's requests on their way.  An interactive client has the reader
    task; one on a pipe reads a frame at a time. *)
Record Link := mk_link {
  lk_session : Session;
  lk_relay : Relay;
  lk_wire : bytes;
  lk_connected : bool;
  lk_reading : bool;
  lk_queue : list (result AppError AttachFrame);
  lk_requests : list RpcRequest;
  lk_interactive : bool;
  lk_client : Client;
}.

#[export] Instance Link_eta : Settable Link := λ l,
  mk_link (lk_session l) (lk_relay l) (lk_wire l) (lk_connected l) (lk_reading l) (lk_queue l)
    (lk_requests l) (lk_interactive l) (lk_client l).

(** The link after the init response. *)
Definition linked (interactive : bool) (size : N * N) (s : Session) (r : Relay) (init : AttachInit)
    (role : bytes) : Link := {|
  lk_session := s; lk_relay := r; lk_wire := []; lk_connected := true; lk_reading := true; lk_queue := [];
  lk_requests := []; lk_interactive := interactive;
  lk_client := started (rl_id r) role (ai_end_offset init) (ai_running init) (ai_modes init) size;
|}.

(** The session goes on; the relay takes a message of the client, a turn of
    its pump or a resize of another client; the socket breaks after some
    bytes; the client's reader takes a frame; the client draws what is
    queued, or a frame off the pipe, and the write may fail after some bytes;
    its user types; its terminal's reader is gone; its process is told to
    end. *)
Inductive LinkOp :=
  | LGoes (op : SessionOp (J:=Scheduled))
  | LMessage (now : N) (ok : bool)
  | LPump (t : Turn)
  | LResized (yields : list Received)
  | LBreaks (n : N)
  | LFetch
  | LDraws (size : N * N) (fails : option (N * io_error_kind))
  | LPiped (fails : option (N * io_error_kind))
  | LTypes (event : TerminalEvent)
  | LInputEnds
  | LShutdown.

(** The relay's part of a step. *)
Definition relayed (l : Link) (step : Session → Relay → Session * Relay * bytes) : Link :=
  if rl_running (lk_relay l) then
    let '(s, r, frames) := step (lk_session l) (lk_relay l) in
    l <| lk_session := s |> <| lk_relay := r |> <| lk_wire := lk_wire l ++ frames |>
      <| lk_connected := lk_connected l && rl_running r |>
  else l.

(** Credits are sent as far as the socket takes them. *)
Definition credits (acks : list RpcRequest) (l : Link) : Link :=
  if lk_connected l then l <| lk_requests := lk_requests l ++ acks |> else l.

(** Input and resizes have to go out. *)
Definition types (event : TerminalEvent) (l : Link) : Link :=
  let '(c, requests) := on_terminal event (lk_client l) in
  if lk_connected l then l <| lk_client := c |> <| lk_requests := lk_requests l ++ requests |>
  else if cl_running c && negb (len requests =? 0) then l <| lk_client := stop_with (Io Other) c |>
  else l <| lk_client := c |>.

(** The next message the relay reads, if there is one. *)
Definition next_message (l : Link) : option (result AppError RpcRequest * list RpcRequest) :=
  match lk_requests l with
  | request :: requests => Some (Ok request, requests)
  | [] =>
      if lk_connected l && cl_running (lk_client l) then None
      else Some (Err (Protocol (bs "client disconnected")), [])
  end.

Definition something_to_read (l : Link) : bool := negb (len (lk_wire l) =? 0) || negb (lk_connected l).

Definition link_step (l : Link) (op : LinkOp) : Link :=
  match op with
  | LGoes op => l <| lk_session := session_step (lk_session l) op |>
  | LMessage now ok =>
      match next_message l with
      | Some (msg, requests) =>
          relayed (l <| lk_requests := requests |>) (relay_message (lk_connected l) now ok (Some msg))
      | None => l
      end
  | LPump t =>
      relayed l (λ s r, relay_event (lk_connected l) (readings_of clock fuel (rl_id r) (rl_cell r) s t) s r)
  | LResized yields => relayed l (relay_resized (lk_connected l) yields)
  | LBreaks n =>
      if lk_connected l then l <| lk_wire := take (N.to_nat n) (lk_wire l) |> <| lk_connected := false |> else l
  | LFetch =>
      if lk_interactive l && lk_reading l && (len (lk_queue l) <? ATTACH_FRAME_QUEUE_DEPTH) && something_to_read l
      then let '(wire, frame) := read_checked_attach_frame (lk_wire l) in
           l <| lk_wire := wire |> <| lk_queue := lk_queue l ++ [frame] |> <| lk_reading := is_ok frame |>
      else l
  | LDraws size fails =>
      if lk_interactive l && cl_running (lk_client l) && (negb (len (lk_queue l) =? 0) || negb (lk_reading l))
      then let '(c, acks, queue) := on_frames size fails (lk_queue l) (lk_client l) in
           credits acks (l <| lk_client := c |> <| lk_queue := queue |>)
      else l
  | LPiped fails =>
      if negb (lk_interactive l) && cl_running (lk_client l) && something_to_read l
      then let '(wire, frame) := read_checked_attach_frame (lk_wire l) in
           let '(c, acks) := on_piped_frame fails frame (lk_client l) in
           credits acks (l <| lk_wire := wire |> <| lk_client := c |>)
      else l
  | LTypes event =>
      if lk_interactive l && cl_running (lk_client l) then types event l else l
  | LInputEnds =>
      if lk_interactive l && cl_running (lk_client l) then l <| lk_client := on_input_end (lk_client l) |> else l
  | LShutdown =>
      if lk_interactive l && cl_running (lk_client l) then
        let '(c, requests) := on_shutdown (lk_client l) in credits requests (l <| lk_client := c |>)
      else l
  end.

Definition link_run (l : Link) (ops : list LinkOp) : Link := foldl link_step l ops.
End Link.

(** ** Small chunks *)

Section Small.
Context `{Crc32Fast, ManifestSerde, Base64, Engine}.

(** What the reader thread is about to broadcast or has broadcast is small. *)
Record small (s : Session (J:=Scheduled)) : Prop := {
  sl_sent : Forall (λ c, len (chunk_bytes c) <= CHUNK_BYTES) (ss_broadcast s);
  sl_outbox c : pr_outbox (ss_reader s) = Some c → len (chunk_bytes c) <= CHUNK_BYTES;
  sl_pending : len (pending (pr_scanner (ss_reader s))) < MAX_PENDING_ESCAPE_BYTES;
}.

(** A read fills at most the buffer. *)
Definition reads_fit (op : SessionOp (J:=Scheduled)) : Prop :=
  match op with OpRead _ data => len data <= PTY_READ_BUFFER_BYTES | _ => True end.

Lemma changed_pending scanner : pending (take_changed_signals scanner).2 = pending scanner.
Proof. unfold take_changed_signals. by destruct (negb _). Qed.

Lemma step_small (s : Session (J:=Scheduled)) op : small s → reads_fit op → small (session_step s op).
Proof.
  intros Hall Hf. pose proof Hall as [Hs Ho Hp]. destruct op as [now data| | |detail|now|m| | |now good kind role viewport|a|a cursor
    |now good rows cols|now|now data|now exited|now status code|status|epoch]; cbn [session_step]; try by split.
  - unfold read_chunk. destruct (negb _); [exact Hall|].
    pose proof (scan_len now (pr_scanner (ss_reader s)) data) as Hlen.
    pose proof (scan_pending_bounded now (pr_scanner (ss_reader s)) data) as Hb.
    destruct (scan _ _ _ data) as [scanner out]. pose proof (changed_pending scanner) as Hc.
    destruct (take_changed_signals scanner) as [changed scanner']. cbn [snd] in Hc.
    destruct Hb as [Hb _]. rewrite <- Hc in Hb. cbn [reads_fit] in Hf.
    destruct (ingest _ _ _ _ _ _ _) as [rt [[responses off] [detail|]]]; split; cbn [ss_broadcast ss_reader pr_outbox pr_scanner];
      [done|done|done|done| |done].
    destruct (_ =? 0); [done|]. intros c [= <-]. cbn [chunk_bytes].
    unfold CHUNK_BYTES, MAX_PENDING_ESCAPE_BYTES, PTY_READ_BUFFER_BYTES in *. lia.
  - unfold broadcast_chunk. destruct (pr_outbox (ss_reader s)) as [c|] eqn:E; [|exact Hall].
    split; cbn; [|done|done]. apply Forall_app. split; [done|]. apply Forall_singleton. by apply Ho.
  - unfold answer. destruct (pr_outbox (ss_reader s)) as [c|] eqn:E; [exact Hall|].
    destruct (pr_responses (ss_reader s)); [exact Hall|].
    destruct (negb _); [|destruct (_ <=? _)]; (exact Hall || (split; [done|cbn; intros ? ?; congruence|done])).
  - unfold end_reading. destruct (idle_reader _); by split.
  - unfold close_out. destruct (pr_closing _); by split.
Qed.

Lemma run_small ops (s : Session (J:=Scheduled)) : small s → Forall reads_fit ops → small (session_run s ops).
Proof.
  revert s. induction ops as [|op ops IH]; intros s Hs Hf; [done|]. apply Forall_cons in Hf as [Hf Hfs].
  apply IH; [by apply step_small|done].
Qed.
End Small.

(** ** Reading the wire *)

Section Fetching.
Context `{Json RpcResponse, !JsonLaws RpcResponse}.

(** The reader's errors on a wire that was cut: the connection ended, or a
    frame was over the cap, or the daemon refused something. *)
Inductive fetch_error : AppError → Prop :=
  | fe_closed : fetch_error (Protocol (bs "daemon closed the connection"))
  | fe_torn : fetch_error (Protocol (bs "attach frame truncated by peer"))
  | fe_large n : 1024 * 1024 < n →
      fetch_error (Protocol (bs "attach frame too large: " ++ show_dec (8 + n) ++ bs " bytes (cap "
                     ++ show_dec MAX_ATTACH_OUTPUT_FRAME_BYTES ++ bs ")"))
  | fe_refused message : fetch_error (RequestFailed message).

Abbreviation wire_of frames := (concat (map frame_bytes frames)) (only parsing).

Lemma torn_fetch_error k : fetch_error (torn_error k).
Proof. unfold torn_error. destruct (_ <? _); constructor. Qed.

(** A frame over the cap, as much of it as came. *)
Lemma read_large offset data more k :
  1024 * 1024 < len data <= RESYNC_WINDOW_BYTES →
  ∃ e, (read_attach_frame (take k (write_attach_output_frame offset data ++ more))).2 = Err e ∧ fetch_error e.
Proof.
  intros Hl. unfold RESYNC_WINDOW_BYTES in Hl. unfold write_attach_output_frame.
  rewrite as_u32_small by (unfold u32_max; lia).
  set (header := u32_le (8 + len data) ++ [ATTACH_FRAME_OUTPUT]).
  assert (len header = 5) as Hh by (unfold header; rewrite len_app, len_le_bytes; done).
  replace ((u32_le (8 + len data) ++ [ATTACH_FRAME_OUTPUT] ++ u64_le offset ++ data) ++ more)
    with (header ++ u64_le offset ++ data ++ more) by (unfold header; by rewrite <- !app_assoc).
  destruct (decide (k < 5)%nat) as [Hk|Hk].
  - unfold read_attach_frame, ATTACH_FRAME_HEADER_BYTES. rewrite read_exact_short; [by eexists; split; [|constructor]|].
    unfold len. rewrite length_take. lia.
  - rewrite take_app_ge by (unfold len in *; lia). unfold header.
    rewrite read_frame_header by (unfold u32_max; lia). change (frame_cap ATTACH_FRAME_OUTPUT) with (Some MAX_ATTACH_OUTPUT_FRAME_BYTES).
    cbv match. unfold MAX_ATTACH_OUTPUT_FRAME_BYTES at 1. ltb_to true. eexists. split; [done|]. constructor. lia.
Qed.

(** The first frame of a wire that was cut somewhere: read whole, or one of
    the reader's errors. *)
Lemma read_first f frames k :
  sendable f →
  let '(rest, r) := read_attach_frame (take k (wire_of (f :: frames))) in
  (r = Ok f ∧ rest = take (k - length (frame_bytes f)) (wire_of frames) ∧ (length (frame_bytes f) <= k)%nat)
  ∨ ∃ e, r = Err e ∧ fetch_error e.
Proof.
  intros Hs. cbn [map concat].
  assert (frame_fits f ∨ ∃ offset data, f = FrameOutput offset data ∧ 1024 * 1024 < len data <= RESYNC_WINDOW_BYTES)
    as [Hf|(offset & data & -> & Hl)].
  { destruct f as [offset data|response]; cbn in *; [|by left].
    destruct (N.leb_spec (len data) (1024 * 1024)); [left; unfold MAX_ATTACH_OUTPUT_FRAME_BYTES; lia|].
    right. exists offset, data. split; [done|lia]. }
  - destruct (decide (length (frame_bytes f) <= k)%nat) as [Hk|Hk].
    + rewrite take_app_ge by done. rewrite read_frame_spec by done. left. done.
    + rewrite take_app_le by lia. pose proof (read_frame_torn f (N.of_nat k) Hf ltac:(unfold len; lia)) as Ht.
      rewrite Nat2N.id in Ht. destruct (read_attach_frame _) as [rest r]. cbn in Ht. subst r. right.
      eexists. split; [done|]. apply torn_fetch_error.
  - destruct (read_large offset data (wire_of frames) k Hl) as (e & He & Hfe).
    destruct (read_attach_frame _) as [rest r]. cbn in He. right. by exists e.
Qed.

Lemma fetch_ok frames k :
  Forall sendable frames →
  let '(rest, r) := read_checked_attach_frame (take k (wire_of frames)) in
  (∃ f frames', r = Ok f ∧ frames = f :: frames' ∧ rest = take (k - length (frame_bytes f)) (wire_of frames')
     ∧ (length (frame_bytes f) <= k)%nat)
  ∨ ∃ e, r = Err e ∧ fetch_error e.
Proof.
  intros Hs. unfold read_checked_attach_frame. destruct frames as [|f frames].
  - cbn [map concat]. rewrite take_nil. right. eexists. split; [reflexivity|constructor].
  - apply Forall_cons in Hs as [Hf Hs]. pose proof (read_first f frames k Hf) as Hr.
    destruct (read_attach_frame _) as [rest r]. destruct Hr as [(-> & -> & Hk)|(e & -> & He)].
    + destruct f as [offset data|response]; [left; by eexists _, _|].
      destruct response; cbn; try (left; by eexists _, _). right. eexists. split; [done|constructor].
    + right. by exists e.
Qed.
End Fetching.

(** ** The link stays in step *)

Section LinkTheorems.
Context `{Crc32Fast, !Crc32FastLaws, ManifestSerde, !ManifestSerdeLaws, Base64, Engine}.
Context `{Json RpcResponse, !JsonLaws RpcResponse}.
Context (limit inc : N) (ls : list ManifestLine) (clock : N) (fuel : nat).

#[local] Abbreviation Session := (Session.Session (J:=Scheduled)).
#[local] Abbreviation laws := (scheduled_laws limit inc ls).
#[local] Abbreviation ok := (@session_ok _ _ _ _ laws).
#[local] Abbreviation wire_of frames := (concat (map frame_bytes frames)) (only parsing).
#[local] Abbreviation cursor_of r := (pm_current_offset (rl_pump r)) (only parsing).

(** *** The client's side *)

Definition typed_ok (event : TerminalEvent) : Prop :=
  match event with EvResize (cols, rows) => rows <= u16_max ∧ cols <= u16_max | _ => True end.

Lemma input_requests c data wait : Forall request_ok (send_attach_input c data wait).
Proof. unfold send_attach_input. destruct (_ =? 0); by repeat constructor. Qed.

(** What the user types leaves what is drawn as it is. *)
Lemma on_terminal_ok event c :
  let '(c', requests) := on_terminal event c in
  cl_cursor c' = cl_cursor c ∧ cl_stdout c' = cl_stdout c ∧ cl_id c' = cl_id c ∧ cl_last_acked c' = cl_last_acked c
  ∧ (typed_ok event → Forall request_ok requests)
  ∧ ((cl_error c' = cl_error c ∧ cl_running c' = cl_running c ∧ cl_detached c' = cl_detached c)
     ∨ (cl_error c' = cl_error c ∧ cl_running c' = false ∧ cl_detached c' = true)
     ∨ ∃ key e, event = EvKey key (Err e) ∧ cl_error c' = Some e ∧ cl_running c' = false).
Proof.
  pose proof input_requests as Hin.
  destruct event as [data| | |[cols rows]|key clipboard|mouse]; cbn [on_terminal].
  - destruct (cl_can_drive c); (split_and!; [done..|by intros _; auto|by left]).
  - split_and!; [done..|intros _; destruct (_ && _); auto|by left].
  - split_and!; [done..|intros _; destruct (_ && _); auto|by left].
  - case_bool_decide; (split_and!; [done..|intros []; by repeat constructor|by left]).
  - unfold on_key, claim_shortcut. destruct (is_clipboard_paste_key key).
    { destruct (cl_replaced_paste c); [split_and!; [done..|by intros _|by left]|].
      destruct clipboard as [[text|]|e]; (split_and!; [done..|by intros _; auto|]); [by left|by left|].
      right. right. by exists key, e. }
    destruct (negb (is_press key)); [split_and!; [done..|by left]|].
    destruct (is_ctrl_d key); [split_and!; [done..|by repeat constructor|by right; left]|].
    destruct (negb (cl_can_drive c)); [split_and!; [done..|by left]|].
    destruct (map_key_to_input _ _); (split_and!; [done..|by intros _; auto|by left]).
  - destruct (_ || _); [split_and!; [done..|by left]|].
    destruct (encode_mouse_event _ _); (split_and!; [done..|by intros _; auto|by left]).
Qed.

(** How an attach may end with an error: what the reader finds, a socket or
    an output that takes nothing more, what the clipboard gave, or a terminal
    that is gone; never a cursor out of step. *)
Inductive transport_error (ops : list LinkOp) : AppError → Prop :=
  | te_fetch e : fetch_error e → transport_error ops e
  | te_io kind : transport_error ops (Io kind)
  | te_clipboard key e : LTypes (EvKey key (Err e)) ∈ ops → transport_error ops e
  | te_input : LInputEnds ∈ ops → transport_error ops (Protocol (bs "terminal input stream ended")).

(** What is on its way to a client that runs: the frames it has queued and,
    while its reader goes on, those on the wire, as much as the socket lets
    through; together they lead from its cursor to the pump's. *)
Definition inflight (ops : list LinkOp) (l : Link) : Prop :=
  ∃ frames found rest end_ fin,
    lk_queue l = map Ok frames ++ found ∧ Forall sendable rest
    ∧ flow (ss_stream (lk_session l)) (cl_cursor (lk_client l)) (frames ++ rest) end_ fin
    ∧ (fin = true → rl_running (lk_relay l) = false ∧ end_ = cursor_of (lk_relay l))
    ∧ (rl_running (lk_relay l) = true → fin = false ∧ end_ = cursor_of (lk_relay l))
    ∧ (if lk_reading l then
         found = [] ∧ ∃ k, lk_wire l = take k (wire_of rest) ∧ (lk_connected l = true → (length (wire_of rest) <= k)%nat)
       else ∃ e, found = [Err e] ∧ transport_error ops e).

Definition status (ops : list LinkOp) (running0 : bool) (l : Link) : Prop :=
  match cl_error (lk_client l) with
  | Some e => cl_running (lk_client l) = false ∧ transport_error ops e
  | None =>
      if cl_running (lk_client l) then inflight ops l
      else cl_detached (lk_client l) = true ∨ running0 = false
           ∨ (rl_running (lk_relay l) = false ∧ cl_cursor (lk_client l) = cursor_of (lk_relay l))
  end.

(** What a client shows is a piece of the stream, up to its cursor unless a
    write failed. *)
Definition shown (stream : bytes) (start : N) (c : Client) : Prop :=
  piece stream start (cl_stdout c) ∧ (cl_error c = None → cl_cursor c = start + len (cl_stdout c)).

Lemma shown_drawn stream start c : cl_error c = None → shown stream start c → drawn stream start [] c.
Proof. intros He [Hp Hc]. split; rewrite app_nil_r; [done|by apply Hc]. Qed.

Lemma drawn_shown stream start c : drawn stream start [] c → shown stream start c.
Proof. intros [Hp Hc]. rewrite app_nil_r in Hp, Hc. by split. Qed.

Lemma torn_shown stream start kind c c' : shown stream start c → torn kind c c' → shown stream start c'.
Proof.
  intros [Hp _] (He & _ & _ & [rest Hpre]). split; [|by rewrite He]. rewrite Hpre in Hp. by apply piece_app in Hp as [? _].
Qed.

Record link_ok (ops : list LinkOp) (running0 : bool) (start : N) (l : Link)
    (ending : option LifecycleCode) (j : Scheduled) (es : list Rec) : Prop := {
  li_session : ok (lk_session l) ending j es;
  li_small : small (lk_session l);
  li_pump : pump_ok (ss_stream (lk_session l)) (rl_pump (lk_relay l));
  li_held : held_small (rl_pump (lk_relay l));
  li_requests : Forall request_ok (lk_requests l);
  li_piped : lk_interactive l = false → lk_queue l = [] ∧ lk_reading l = true;
  li_drawn : shown (ss_stream (lk_session l)) start (lk_client l);
  li_status : status ops running0 l;
}.

Lemma shown_mono stream stream' start c : shown stream start c → stream `prefix_of` stream' → shown stream' start c.
Proof. intros [Hp Hc] Hpre. split; [by eapply piece_mono|done]. Qed.

Lemma goes_ok ops running0 start l op ending j es :
  link_ok ops running0 start l ending j es → op_ok op → reads_fit op → len es + 5 <= u64_max →
  ∃ ending' j' es', link_ok ops running0 start (link_step clock fuel l (LGoes op)) ending' j' es' ∧ len es' <= len es + 3.
Proof.
  intros [Hok Hsm Hp Hh Hreq Hpi Hd Hst] Hop Hfit Hmax.
  destruct (session_step_ok (lk_session l) op ending j es Hok Hop Hmax) as (e1 & j1 & es1 & Hok1 & Hlen).
  exists e1, j1, es1. split; [|done]. pose proof (step_stream (lk_session l) op) as Hpre.
  split; cbn; [done|by apply step_small|by eapply pump_ok_mono|done|done|done|by eapply shown_mono|].
  unfold status in *. cbn. destruct (cl_error _); [done|]. destruct (cl_running _); [|done].
  destruct Hst as (frames & found & rest & end_ & fin & Hq & Hs & Hf & Hrest). exists frames, found, rest, end_, fin.
  split; [done|]. split; [done|]. split; [by eapply flow_mono|exact Hrest].
Qed.

(** A part of the link that the client does not see. *)
Lemma relayed_ok ops running0 start l step ending j es :
  link_ok ops running0 start l ending j es → len es + 14 <= u64_max →
  (rl_running (lk_relay l) = true →
   let '(s', r', frames) := step (lk_session l) (lk_relay l) in
   relay_ok limit inc ls (lk_connected l) (lk_session l) (lk_relay l) s' r' frames) →
  ∃ ending' j' es', link_ok ops running0 start (relayed l step) ending' j' es' ∧ len es' <= len es + 9.
Proof.
  intros Hl Hmax Hstep. unfold relayed. destruct (rl_running (lk_relay l)) eqn:Hrun.
  2: { exists ending, j, es. split; [done|lia]. }
  specialize (Hstep eq_refl). destruct (step _ _) as [[s' r'] out]. destruct Hstep as [Hb Hp' Hh' Hframe].
  destruct Hl as [Hok Hsm Hp Hh Hreq Hpi Hd Hst]. destruct Hb as [Hre Hbr Hss Hses].
  destruct (Hses _ _ _ Hok ltac:(lia)) as (e1 & j1 & es1 & Hok1 & Hlen). exists e1, j1, es1. split; [|done].
  split; cbn; rewrite ?Hss; try done.
  { destruct Hsm as [Hs Ho Hpe]. split; rewrite ?Hre, ?Hbr; done. }
  unfold status in *. cbn. destruct (cl_error _); [done|]. destruct (cl_running _).
  2: { destruct Hst as [Hst|[Hst|[Hst _]]]; [by left|by right; left|congruence]. }
  destruct Hst as (frames & found & rest & end_ & fin & Hq & Hs & Hf & _ & Hend & Hwire).
  destruct (Hend Hrun) as [-> ->]. unfold inflight. cbn. rewrite Hss.
  destruct Hframe as [[-> Hsame]|(f & fin & Hup & -> & Hsend & Hflow & Hrun')].
  - exists frames, found, rest, (cursor_of (lk_relay l)), false. split_and!; [done..| |].
    + intros Hr'. by rewrite (Hsame Hr').
    + rewrite app_nil_r. destruct (lk_reading l); [|done]. destruct Hwire as [-> (k & Hw & Hk)].
      split; [done|]. exists k. split; [done|]. by intros [Hc _]%andb_true_iff; auto.
  - exists frames, found, (rest ++ [f]), (cursor_of r'), fin. split_and!; [done| | | | |].
    + apply Forall_app. by split; [|apply Forall_singleton].
    + rewrite app_assoc. by eapply flow_app.
    + intros ->. by rewrite Hrun'.
    + rewrite Hrun'. by destruct fin.
    + destruct (lk_reading l); [|done]. destruct Hwire as [-> (k & Hw & Hk)]. split; [done|].
      specialize (Hk Hup). rewrite firstn_all2 in Hw by lia. exists (length (wire_of (rest ++ [f]))).
      rewrite map_app, concat_app. cbn [map concat]. rewrite app_nil_r, Hw, firstn_all. done.
Qed.

(** The client's part: what it reads and draws. *)
Lemma client_ok ops running0 start l l' ending j es :
  link_ok ops running0 start l ending j es →
  lk_session l' = lk_session l → lk_relay l' = lk_relay l → Forall request_ok (lk_requests l') →
  (lk_interactive l' = false → lk_queue l' = [] ∧ lk_reading l' = true) →
  shown (ss_stream (lk_session l)) start (lk_client l') → status ops running0 l' →
  ∃ ending' j' es', link_ok ops running0 start l' ending' j' es' ∧ len es' <= len es + 9.
Proof.
  intros [Hok Hsm Hp Hh Hreq Hpi Hd Hst] Hs Hr Hreq' Hpi' Hd' Hst'. exists ending, j, es.
  split; [|lia]. by split; rewrite ?Hs, ?Hr.
Qed.

Lemma breaks_ok ops running0 start l n ending j es :
  link_ok ops running0 start l ending j es →
  ∃ ending' j' es', link_ok ops running0 start (link_step clock fuel l (LBreaks n)) ending' j' es'
    ∧ len es' <= len es + 9.
Proof.
  intros Hl. cbn [link_step]. destruct (lk_connected l) eqn:Hc; [|exists ending, j, es; split; [done|lia]].
  pose proof Hl as [Hok Hsm Hp Hh Hreq Hpi Hd Hst]. eapply client_ok; try done.
  unfold status in *. cbn. destruct (cl_error _); [done|]. destruct (cl_running _); [|done].
  destruct Hst as (frames & found & rest & end_ & fin & Hq & Hs & Hf & Hfin & Hend & Hwire).
  exists frames, found, rest, end_, fin. cbn. split_and!; [done..|].
  destruct (lk_reading l); [|done]. destruct Hwire as [-> (k & -> & Hk)]. split; [done|].
  exists (N.to_nat n `min` k)%nat. by rewrite take_take.
Qed.

Lemma fetch_step_ok ops running0 start l ending j es :
  link_ok ops running0 start l ending j es →
  ∃ ending' j' es', link_ok ops running0 start (link_step clock fuel l LFetch) ending' j' es'
    ∧ len es' <= len es + 9.
Proof.
  intros Hl. cbn [link_step]. destruct (_ && something_to_read l) eqn:Hguard; [|exists ending, j, es; split; [done|lia]].
  apply andb_true_iff in Hguard as [[[Hint Hread]%andb_true_iff _]%andb_true_iff _].
  destruct (read_checked_attach_frame (lk_wire l)) as [wire frame] eqn:Er.
  pose proof Hl as [Hok Hsm Hp Hh Hreq Hpi Hd Hst]. eapply client_ok; try done; [cbn; congruence|].
  unfold status in *. cbn. destruct (cl_error _); [done|]. destruct (cl_running _); [|done].
  destruct Hst as (frames & found & rest & end_ & fin & Hq & Hs & Hf & Hfin & Hend & Hwire).
  rewrite Hread in Hwire. destruct Hwire as [-> (k & Hw & Hk)]. rewrite app_nil_r in Hq.
  pose proof (fetch_ok rest k Hs) as Hfetch. rewrite <- Hw, Er in Hfetch.
  destruct Hfetch as [(f & rest' & -> & -> & -> & Hlen)|(e & -> & He)].
  - apply Forall_cons in Hs as [_ Hs]. exists (frames ++ [f]), [], rest', end_, fin. cbn.
    split_and!; [|done|by rewrite <- app_assoc|done|done|done|].
    + by rewrite Hq, app_nil_r, map_app.
    + eexists. split; [done|]. intros Hc. specialize (Hk Hc). cbn [map concat] in Hk.
      rewrite length_app in Hk. lia.
  - exists frames, [Err e], rest, end_, fin. cbn. split_and!; [by rewrite Hq|done..|]. exists e. split; [done|].
    by constructor.
Qed.

Lemma credits_requests acks l :
  Forall request_ok (lk_requests l) → Forall request_ok acks → Forall request_ok (lk_requests (credits acks l)).
Proof. unfold credits. intros. destruct (lk_connected l); [|done]. cbn. by apply Forall_app. Qed.

(** Sending credits is nothing to the rest. *)
Lemma credits_same acks l :
  lk_session (credits acks l) = lk_session l ∧ lk_relay (credits acks l) = lk_relay l
  ∧ lk_interactive (credits acks l) = lk_interactive l ∧ lk_queue (credits acks l) = lk_queue l
  ∧ lk_reading (credits acks l) = lk_reading l ∧ lk_client (credits acks l) = lk_client l
  ∧ ∀ ops running0, status ops running0 (credits acks l) ↔ status ops running0 l.
Proof. unfold credits. destruct (lk_connected l) eqn:E; [|done]. cbn. split_and!; [done..|]. by unfold status, inflight. Qed.

(** The client's state after some frames. *)
Lemma status_after ops running0 l found frames rest end_ fin :
  (∀ x, x ∈ found → ∃ e, x = Err e ∧ transport_error ops e) →
  status_ok found end_ fin (lk_client l) →
  (fin = true → rl_running (lk_relay l) = false ∧ end_ = cursor_of (lk_relay l)) →
  (cl_running (lk_client l) = true → lk_queue l = map Ok frames ++ found ∧ cl_error (lk_client l) = None
     ∧ flow (ss_stream (lk_session l)) (cl_cursor (lk_client l)) (frames ++ rest) end_ fin) →
  Forall sendable rest →
  (rl_running (lk_relay l) = true → fin = false ∧ end_ = cursor_of (lk_relay l)) →
  (if lk_reading l then
     found = [] ∧ ∃ k, lk_wire l = take k (wire_of rest) ∧ (lk_connected l = true → (length (wire_of rest) <= k)%nat)
   else ∃ e, found = [Err e] ∧ transport_error ops e) →
  status ops running0 l.
Proof.
  intros Hfound Hst Hfin Hgo Hs Hend Hwire. unfold status, status_ok in *. destruct (cl_error _) as [e|] eqn:Ee.
  - destruct Hst as [Hrun [Hin|[message ->]]]; split; try done.
    + destruct (Hfound _ Hin) as (e' & [= <-] & ?). done.
    + by do 2 constructor.
  - destruct (cl_running (lk_client l)) eqn:Er.
    + destruct (Hgo eq_refl) as (Hq & _ & Hf). by exists frames, found, rest, end_, fin.
    + destruct Hst as [|(_ & Hc & Hfi)]; [done|]. right. right. destruct (Hfin Hfi) as [? <-]. by split.
Qed.

Lemma ack_requests acks id cursor : acks = [] ∨ acks = [AttachAppliedCursor id cursor] → Forall request_ok acks.
Proof. intros [-> | ->]; by repeat constructor. Qed.

Lemma draws_all_ok ops running0 start l size ending j es :
  link_ok ops running0 start l ending j es → len (ss_stream (lk_session l)) <= u64_max →
  ∃ ending' j' es', link_ok ops running0 start (link_step clock fuel l (LDraws size None)) ending' j' es'
    ∧ len es' <= len es + 9.
Proof.
  intros Hl Hle. cbn [link_step]. destruct (_ && _) eqn:Hguard; [|exists ending, j, es; split; [done|lia]].
  apply andb_true_iff in Hguard as [[Hint Hrun]%andb_true_iff Hne].
  pose proof Hl as [Hok Hsm Hp Hh Hreq Hpi Hd Hst].
  unfold status in Hst. rewrite Hrun in Hst.
  destruct (cl_error (lk_client l)) eqn:Herr; [by destruct Hst|].
  destruct Hst as (frames & found & rest & end_ & fin & Hq & Hs & Hf & Hfin & Hend & Hwire).
  assert (∀ x, x ∈ found → ∃ e, x = Err e ∧ transport_error ops e) as Hfound.
  { destruct (lk_reading l); [destruct Hwire as [-> _]; by intros ? ?%not_elem_of_nil|].
    destruct Hwire as (e & -> & He). intros x ->%list_elem_of_singleton. by exists e. }
  assert ((length found <= 1)%nat ∧ (frames ≠ [] ∨ found ≠ [])) as [Hone Hsome].
  { destruct (lk_reading l); [destruct Hwire as [-> _]|destruct Hwire as (e & -> & _); cbn; split; [lia|by right]].
    split; [cbn; lia|]. left. intros ->. rewrite Hq in Hne. by cbn in Hne. }
  pose proof (on_frames_ok (ss_stream (lk_session l)) start size found rest frames end_ fin (lk_client l) Hone) as Hon.
  rewrite <- Hq in Hon. destruct (on_frames size None (lk_queue l) (lk_client l)) as [[c acks] queue].
  destruct Hon as (Hd' & _ & _ & Hack & _ & frames' & Hst' & Hgo); [|done|done|by apply shown_drawn|done..|].
  { intros x Hx. destruct (Hfound x Hx) as (e & -> & _). done. }
  destruct (credits_same acks (l <| lk_client := c |> <| lk_queue := queue |>)) as (E1 & E2 & E3 & E4 & E5 & E6 & E7).
  eapply client_ok; [exact Hl|by rewrite E1|by rewrite E2| | |rewrite E6; by apply drawn_shown|].
  - apply credits_requests; [done|]. eapply ack_requests. destruct Hack as [[-> _]|[-> _]]; [by left|by right].
  - rewrite E3. cbn. congruence.
  - rewrite E7. apply (status_after ops running0 _ found frames' rest end_ fin); cbn; try done.

Qed.

Lemma piped_all_ok ops running0 start l ending j es :
  link_ok ops running0 start l ending j es → len (ss_stream (lk_session l)) <= u64_max →
  ∃ ending' j' es', link_ok ops running0 start (link_step clock fuel l (LPiped None)) ending' j' es'
    ∧ len es' <= len es + 9.
Proof.
  intros Hl Hle. cbn [link_step]. destruct (_ && _) eqn:Hguard; [|exists ending, j, es; split; [done|lia]].
  apply andb_true_iff in Hguard as [[Hint%negb_true_iff Hrun]%andb_true_iff _].
  pose proof Hl as [Hok Hsm Hp Hh Hreq Hpi Hd Hst]. destruct (Hpi Hint) as [Hq0 Hread].
  unfold status in Hst. rewrite Hrun in Hst.
  destruct (cl_error (lk_client l)) eqn:Herr; [by destruct Hst|].
  destruct Hst as (frames & found & rest & end_ & fin & Hq & Hs & Hf & Hfin & Hend & Hwire).
  rewrite Hread in Hwire. destruct Hwire as [-> (k & Hw & Hk)]. rewrite app_nil_r, Hq0 in Hq.
  symmetry in Hq. apply map_eq_nil in Hq as ->. cbn [app] in Hf.
  destruct (read_checked_attach_frame (lk_wire l)) as [wire r] eqn:Er.
  pose proof (fetch_ok rest k Hs) as Hfetch. rewrite <- Hw, Er in Hfetch.
  set (found := match r with Ok _ => [] | Err e => [Err e] end : list (result AppError AttachFrame)).
  set (rest' := match r with Ok _ => tail rest | Err e => rest end).
  pose proof (on_piped_frame_ok (ss_stream (lk_session l)) start found rest end_ fin (lk_client l) r rest') as Hon.
  assert (∀ x, x ∈ found → ∃ e, x = Err e ∧ transport_error ops e) as Hfound.
  { destruct Hfetch as [(f & rest0 & -> & _)|(e & -> & He)]; [by intros ? ?%not_elem_of_nil|].
    intros x ->%list_elem_of_singleton. exists e. split; [done|by constructor]. }
  destruct (on_piped_frame None r (lk_client l)) as [c acks] eqn:Eon.
  destruct Hon as (Hd' & _ & _ & Hack & _ & Hst' & Hgo); [done|by apply shown_drawn|done..| |].
  { destruct Hfetch as [(f & rest0 & -> & -> & _)|(e & -> & He)]; [left; by exists f|right].
    split_and!; [done|by left|done]. }
  destruct (credits_same acks (l <| lk_wire := wire |> <| lk_client := c |>)) as (E1 & E2 & E3 & E4 & E5 & E6 & E7).
  eapply client_ok; [exact Hl|by rewrite E1|by rewrite E2| | |rewrite E6; by apply drawn_shown|].
  - apply credits_requests; [done|]. eapply ack_requests. destruct Hack as [[-> _]|[-> _]]; [by left|by right].
  - rewrite E4, E5. cbn. done.
  - rewrite E7. destruct Hfetch as [(f & rest0 & -> & -> & -> & Hlen)|(e & -> & He)].
    + apply Forall_cons in Hs as [_ Hs].
      apply (status_after ops running0 _ found [] rest' end_ fin); cbn; try done.
      * intros Hr. destruct (Hgo Hr). by split_and!.
      * rewrite Hread. split; [done|]. eexists. split; [done|]. intros Hc. specialize (Hk Hc). cbn [map concat] in Hk.
        rewrite length_app in Hk. lia.
    + cbn in Eon. injection Eon as <- <-. unfold status. cbn. split; [done|by constructor].
Qed.

(** A write of a client fails. *)
Lemma torn_ok ops running0 start l l0 l' c kind ending j es ending0 j0 es0 :
  link_ok ops running0 start l ending j es → link_ok ops running0 start (credits l0.1 (l0.2 <| lk_client := c |>)) ending0 j0 es0 →
  lk_session l0.2 = lk_session l → lk_session l' = lk_session l → lk_relay l' = lk_relay l →
  lk_requests l' = lk_requests l → (lk_interactive l' = false → lk_queue l' = [] ∧ lk_reading l' = true) →
  torn kind c (lk_client l') →
  ∃ ending' j' es', link_ok ops running0 start l' ending' j' es' ∧ len es' <= len es + 9.
Proof.
  intros Hl [_ _ _ _ _ _ Hd _] Es0 Es Er Eq Hpi Ht.
  destruct (credits_same l0.1 (l0.2 <| lk_client := c |>)) as (E1 & _ & _ & _ & _ & E6 & _).
  rewrite E1, E6 in Hd. cbn in Hd. rewrite Es0 in Hd. eapply client_ok; [exact Hl|done|done| |done|by eapply torn_shown|].
  - rewrite Eq. apply Hl.
  - unfold status. destruct Ht as (-> & -> & _). split; [done|apply te_io].
Qed.

Lemma draws_ok ops running0 start l size fails ending j es :
  link_ok ops running0 start l ending j es → len (ss_stream (lk_session l)) <= u64_max →
  ∃ ending' j' es', link_ok ops running0 start (link_step clock fuel l (LDraws size fails)) ending' j' es'
    ∧ len es' <= len es + 9.
Proof.
  intros Hl Hle. pose proof (draws_all_ok _ _ _ _ size _ _ _ Hl Hle) as Hall. destruct fails as [[n kind]|]; [|exact Hall].
  cbn [link_step] in *. destruct (_ && _) eqn:Hguard; [|exact Hall].
  apply andb_true_iff in Hguard as [[Hint _]%andb_true_iff _].
  pose proof (on_frames_torn size n kind (lk_queue l) (lk_client l)) as Ht.
  destruct (on_frames size None _ _) as [[c0 acks0] queue0]. destruct (on_frames size (Some _) _ _) as [[c acks] queue].
  destruct Ht as [-> [[-> ->]|[Ht ->]]]; [exact Hall|]. destruct Hall as (e0 & j0 & es0 & Hall & _).
  eapply (torn_ok _ _ _ l (acks0, l <| lk_queue := queue0 |>) _ c0 kind); [exact Hl| |done|..].
  - cbn. exact Hall.
  - unfold credits. by destruct (lk_connected _).
  - unfold credits. by destruct (lk_connected _).
  - unfold credits. destruct (lk_connected _); [|done]. cbn. by rewrite app_nil_r.
  - unfold credits. destruct (lk_connected _); cbn; congruence.
  - unfold credits. by destruct (lk_connected _).
Qed.

Lemma piped_ok ops running0 start l fails ending j es :
  link_ok ops running0 start l ending j es → len (ss_stream (lk_session l)) <= u64_max →
  ∃ ending' j' es', link_ok ops running0 start (link_step clock fuel l (LPiped fails)) ending' j' es'
    ∧ len es' <= len es + 9.
Proof.
  intros Hl Hle. pose proof (piped_all_ok _ _ _ _ _ _ _ Hl Hle) as Hall. destruct fails as [[n kind]|]; [|exact Hall].
  cbn [link_step] in *. destruct (_ && _) eqn:Hguard; [|exact Hall].
  destruct (read_checked_attach_frame _) as [wire frame]. pose proof (on_piped_frame_torn n kind frame (lk_client l)) as Ht.
  destruct (on_piped_frame None _ _) as [c0 acks0]. destruct (on_piped_frame (Some _) _ _) as [c acks].
  destruct Ht as [[-> ->]|[Ht ->]]; [exact Hall|]. destruct Hall as (e0 & j0 & es0 & Hall & _).
  eapply (torn_ok _ _ _ l (acks0, l <| lk_wire := wire |>) _ c0 kind); [exact Hl| |done|..].
  - cbn. exact Hall.
  - unfold credits. by destruct (lk_connected _).
  - unfold credits. by destruct (lk_connected _).
  - unfold credits. destruct (lk_connected _); [|done]. cbn. by rewrite app_nil_r.
  - unfold credits. destruct (lk_connected _); cbn; apply Hl.
  - unfold credits. by destruct (lk_connected _).
Qed.

Lemma types_ok ops running0 start l event ending j es :
  link_ok ops running0 start l ending j es → LTypes event ∈ ops → typed_ok event →
  ∃ ending' j' es', link_ok ops running0 start (link_step clock fuel l (LTypes event)) ending' j' es'
    ∧ len es' <= len es + 9.
Proof.
  intros Hl Hin Hty. cbn [link_step]. destruct (lk_interactive l && _) eqn:Hguard; [|exists ending, j, es; split; [done|lia]].
  apply andb_true_iff in Hguard as [Hint Hrun].
  pose proof Hl as [Hok Hsm Hp Hh Hreq Hpi Hd Hst]. unfold types.
  pose proof (on_terminal_ok event (lk_client l)) as Ht.
  destruct (on_terminal event (lk_client l)) as [c requests]. destruct Ht as (Hcur & Hout & _ & _ & Hrs & Hcase).
  assert (shown (ss_stream (lk_session l)) start c) as Hd'.
  { destruct Hd as [Hpc Hc]. split; rewrite ?Hcur, ?Hout; [done|]. intros _. apply Hc. unfold status in Hst.
    rewrite Hrun in Hst. destruct (cl_error (lk_client l)); [by destruct Hst|done]. }
  assert (∀ l', lk_session l' = lk_session l → lk_relay l' = lk_relay l → lk_client l' = c → lk_queue l' = lk_queue l →
    lk_reading l' = lk_reading l → lk_wire l' = lk_wire l → lk_connected l' = lk_connected l → status ops running0 l') as Hst'.
  { intros l' E1 E2 E3 E4 E5 E6 E7. unfold status in *. rewrite E3. rewrite Hrun in Hst.
    destruct (cl_error (lk_client l)) eqn:Herr; [by destruct Hst|].
    destruct Hcase as [(-> & -> & _)|[(-> & -> & ->)|(key & e & -> & -> & ->)]]; [|by left|].
    - rewrite Hrun. destruct Hst as (frames & found & rest & end_ & fin & Hall). exists frames, found, rest, end_, fin.
      by rewrite E1, E2, E3, E4, E5, E6, E7, Hcur.
    - split; [done|]. by eapply te_clipboard. }
  destruct (lk_connected l) eqn:Hc; [|destruct (_ && _) eqn:Hio].
  - eapply client_ok; [exact Hl|done|done| |done|done|by apply Hst']. cbn. apply Forall_app. by split; [|apply Hrs].
  - eapply client_ok; [exact Hl|done|done|done|done| |]; [by destruct Hd'; split|].
    unfold status. cbn. split; [done|apply te_io].
  - eapply client_ok; [exact Hl|done|done|done|done|done|by apply Hst'].
Qed.

Lemma shutdown_ok ops running0 start l ending j es :
  link_ok ops running0 start l ending j es →
  ∃ ending' j' es', link_ok ops running0 start (link_step clock fuel l LShutdown) ending' j' es'
    ∧ len es' <= len es + 9.
Proof.
  intros Hl. cbn [link_step]. destruct (lk_interactive l && _) eqn:Hguard; [|exists ending, j, es; split; [done|lia]].
  apply andb_true_iff in Hguard as [Hint Hrun]. pose proof Hl as [Hok Hsm Hp Hh Hreq Hpi Hd Hst]. cbn [on_shutdown].
  set (c := lk_client l <| cl_detached := true |> <| cl_running := false |>).
  destruct (credits_same [AttachDetach (cl_id (lk_client l))] (l <| lk_client := c |>)) as (E1 & E2 & E3 & E4 & E5 & E6 & E7).
  eapply client_ok; [exact Hl|by rewrite E1|by rewrite E2| | |by rewrite E6; destruct Hd|].
  - apply credits_requests; [done|by repeat constructor].
  - by rewrite E3, E4, E5.
  - rewrite E7. unfold status in *. cbn. rewrite Hrun in Hst. destruct (cl_error _); [by destruct Hst|by left].
Qed.

Lemma input_end_ok ops running0 start l ending j es :
  link_ok ops running0 start l ending j es → LInputEnds ∈ ops →
  ∃ ending' j' es', link_ok ops running0 start (link_step clock fuel l LInputEnds) ending' j' es'
    ∧ len es' <= len es + 9.
Proof.
  intros Hl Hin. cbn [link_step]. destruct (lk_interactive l && _); [|exists ending, j, es; split; [done|lia]].
  pose proof Hl as [_ _ _ _ Hreq Hpi [Hd _] _]. eapply client_ok; [exact Hl|done|done|done|done|by split|].
  unfold status. cbn. split; [done|by apply te_input].
Qed.

(** *** Runs *)

(** What the program's types bound, and one read at a time. *)
Definition link_op_ok (op : LinkOp) : Prop :=
  match op with
  | LGoes op => op_ok op ∧ reads_fit op
  | LTypes event => typed_ok event
  | _ => True
  end.

(** No notice of a step is 4 GiB long. *)
Definition op_fits (l : Link) (op : LinkOp) : bool :=
  let r := lk_relay l in
  match op with
  | LMessage _ _ =>
      fits (ErrorResponse (message (rl_id r) ViewOnly)) && fits (ErrorResponse (message (rl_id r) StaleAttachment))
  | LPump t =>
      match notice_of (next_turn (readings_of clock fuel (rl_id r) (rl_cell r) (lk_session l) t) (rl_pump r)).2 with
      | Some notice => fits notice
      | None => true
      end
  | LResized yields =>
      match (recv_foreign yields (rl_resize_sub r)).2 with
      | Some (Some (rows, cols)) => fits (AttachResized rows cols)
      | _ => true
      end
  | _ => true
  end.

Fixpoint run_fits (l : Link) (ops : list LinkOp) : bool :=
  match ops with
  | [] => true
  | op :: ops => op_fits l op && run_fits (link_step clock fuel l op) ops
  end.

Lemma link_step_ok ops running0 start l op ending j es :
  link_ok ops running0 start l ending j es → op ∈ ops → link_op_ok op → op_fits l op = true →
  len (ss_stream (lk_session l)) <= u64_max → len es + 14 <= u64_max → (length es < fuel)%nat →
  ∃ ending' j' es', link_ok ops running0 start (link_step clock fuel l op) ending' j' es' ∧ len es' <= len es + 9.
Proof.
  intros Hl Hin Hop Hfit Hle Hmax Hfuel. pose proof Hl as [Hok Hsm Hp Hh Hreq _ _ _].
  destruct op as [op|now good|t|yields|n| |size fails|fails|event| |].
  - destruct Hop as [Hop Hrf]. destruct (goes_ok _ _ _ _ op _ _ _ Hl Hop Hrf ltac:(lia)) as (e1 & j1 & es1 & ? & ?).
    exists e1, j1, es1. split; [done|lia].
  - cbn [link_step]. destruct (next_message l) as [[msg requests]|] eqn:En; [|exists ending, j, es; split; [done|lia]].
    assert (Forall request_ok requests ∧ ∀ request, msg = Ok request → request_ok request) as [Hrs Hmsg].
    { unfold next_message in En. destruct (lk_requests l) as [|request rest].
      - destruct (_ && _); [done|]. by injection En as <- <-.
      - apply Forall_cons in Hreq as [Hr Hreq]. injection En as <- <-. split; [done|]. by intros ? [= <-]. }
    apply andb_true_iff in Hfit as [Hv Hst].
    apply (relayed_ok ops running0 start (l <| lk_requests := requests |>) _ ending j es);
      [by destruct Hl|done|]. cbn. intros Hrun. by apply message_ok.
  - apply (relayed_ok ops running0 start l _ ending j es); [done|done|]. intros Hrun.
    apply event_ok; try done; [by eapply readings_ok|by eapply readings_short; [..|apply Hsm]|].
    intros response Hn. cbn [op_fits] in Hfit. by rewrite Hn in Hfit.
  - apply (relayed_ok ops running0 start l _ ending j es); [done|done|]. intros Hrun.
    apply resized_ok; try done. cbn [op_fits] in Hfit. by destruct (recv_foreign _ _).2 as [[[rows cols]|]|].
  - by eapply breaks_ok.
  - by eapply fetch_step_ok.
  - by eapply draws_ok.
  - by eapply piped_ok.
  - by eapply types_ok.
  - by eapply input_end_ok.
  - by eapply shutdown_ok.
Qed.

Lemma on_store_stream {A} (s : Session) r (f : SessionStore → SessionStore * A) :
  ss_stream (on_store s r f).1 = ss_stream s.
Proof. unfold on_store. destruct (f _) as [st a]. cbn. unfold marked. by destruct (st_sessions st !! _). Qed.

Lemma stop_stream (s : Session) r : ss_stream (relay_stop s r).1 = ss_stream s.
Proof. apply on_store_stream. Qed.

Lemma written_stream up frame (s : Session) r : ss_stream (written up frame s r).1.1 = ss_stream s.
Proof. unfold written. destruct (write_frame _ _); [done|apply stop_stream]. Qed.

Lemma message_stream up now good msg (s : Session) r :
  ss_stream (relay_message up now good msg s r).1.1 = ss_stream s.
Proof.
  unfold relay_message. destruct msg as [[request|e]|]; [|apply stop_stream..].
  destruct request as [| id data wait a|id rows cols|id|id cursor|name]; try destruct (bytes_eqb _ _); try done; try apply stop_stream.
  - pose proof (on_store_stream s r (attach_input now id (Some (rl_attachment r)) data)) as Hs.
    destruct (on_store s r _) as [s1 [res|err]]; cbn [fst] in Hs; [done|].
    destruct (is_refusal err); [by rewrite written_stream|by etrans; [apply stop_stream|]].
  - set (r0 := r <| rl_resize_sub := _ |>).
    pose proof (on_store_stream s r0 (attach_resize now good id (Some (rl_attachment r0)) rows cols)) as Hs.
    destruct (on_store s r0 _) as [s1 [res|err]]; cbn [fst] in Hs; [done|].
    destruct (is_refusal err); [done|by etrans; [apply stop_stream|]].
  - apply on_store_stream.
Qed.

Lemma event_stream up readings (s : Session) r : ss_stream (relay_event up readings s r).1.1 = ss_stream s.
Proof.
  unfold relay_event. destruct (next_turn _ _) as [p [|[offset data|modes|code final|]|]];
    [done|apply written_stream..|apply stop_stream|apply stop_stream|done].
Qed.

Lemma resized_stream up yields (s : Session) r : ss_stream (relay_resized up yields s r).1.1 = ss_stream s.
Proof.
  unfold relay_resized. destruct (recv_foreign _ _) as [[sub rest] [[[rows cols]|]|]]; [apply written_stream|done|done].
Qed.

Lemma relayed_stream l step :
  (∀ s r, ss_stream (step s r).1.1 = ss_stream s) → ss_stream (lk_session (relayed l step)) = ss_stream (lk_session l).
Proof.
  intros Hs. unfold relayed. destruct (rl_running _); [|done]. specialize (Hs (lk_session l) (lk_relay l)).
  by destruct (step _ _) as [[s r] out].
Qed.

Lemma link_step_stream l op :
  ss_stream (lk_session l) `prefix_of` ss_stream (lk_session (link_step clock fuel l op)).
Proof.
  assert (∀ s1 s2 : Session, ss_stream s2 = ss_stream s1 → ss_stream s1 `prefix_of` ss_stream s2) as Heq by by intros ? ? ->.
  destruct op as [op|now good|t|yields|n| |size fails|fails|event| |]; cbn [link_step].
  - apply step_stream.
  - destruct (next_message l) as [[msg requests]|]; [|done]. apply Heq. rewrite relayed_stream by (intros; apply message_stream). done.
  - apply Heq, relayed_stream. intros. apply event_stream.
  - apply Heq, relayed_stream. intros. apply resized_stream.
  - by destruct (lk_connected l).
  - destruct (_ && _); [|done]. by destruct (read_checked_attach_frame _).
  - destruct (_ && _); [|done]. destruct (on_frames _ _ _ _) as [[c acks] queue]. apply Heq. by rewrite (proj1 (credits_same _ _)).
  - destruct (_ && _); [|done]. destruct (read_checked_attach_frame _) as [wire frame].
    destruct (on_piped_frame _ _ _) as [c acks]. apply Heq. by rewrite (proj1 (credits_same _ _)).
  - destruct (lk_interactive l && _); [|done]. unfold types. destruct (on_terminal _ _) as [c requests].
    destruct (lk_connected l); [done|]. by destruct (_ && _).
  - by destruct (lk_interactive l && _).
  - destruct (lk_interactive l && _); [|done]. cbn [on_shutdown]. apply Heq. by rewrite (proj1 (credits_same _ _)).
Qed.

Lemma link_run_stream l ops : ss_stream (lk_session l) `prefix_of` ss_stream (lk_session (link_run clock fuel l ops)).
Proof.
  revert l. induction ops as [|op ops IH]; intros l; [done|]. etrans; [apply link_step_stream|apply (IH (link_step clock fuel l op))].
Qed.

Lemma link_run_ok all ops running0 start l ending j es :
  link_ok all running0 start l ending j es → ops ⊆ all → Forall link_op_ok ops → run_fits l ops = true →
  len es + 9 * len ops + 5 <= u64_max → (N.to_nat (len es + 9 * len ops) < fuel)%nat →
  len (ss_stream (lk_session (link_run clock fuel l ops))) <= u64_max →
  ∃ ending' j' es', link_ok all running0 start (link_run clock fuel l ops) ending' j' es'.
Proof.
  revert l ending j es. induction ops as [|op ops IH]; intros l ending j es Hl Hsub Hops Hfit Hmax Hfuel Hle.
  { by exists ending, j, es. }
  apply Forall_cons in Hops as [Hop Hops]. cbn [run_fits] in Hfit. apply andb_true_iff in Hfit as [Hf Hfit].
  rewrite len_cons in Hmax, Hfuel. change (link_run clock fuel l (op :: ops)) with (link_run clock fuel (link_step clock fuel l op) ops) in *.
  pose proof (prefix_len _ _ (link_step_stream l op)) as Hs1.
  pose proof (prefix_len _ _ (link_run_stream (link_step clock fuel l op) ops)) as Hs2.
  destruct (link_step_ok all running0 start l op ending j es Hl) as (e1 & j1 & es1 & Hl1 & Hlen);
    [apply Hsub; by left|done|done|lia|lia|unfold len in *; lia|].
  eapply (IH _ e1 j1 es1); [done| |done|done|lia|lia|done]. intros x Hx. apply Hsub. by right.
Qed.

(** *** The handshake *)

Definition u16_option (n : option N) : Prop := match n with Some n => n <= u16_max | None => True end.

Lemma marked_io id (s : Session) st :
  ss_reader (marked id s st) = ss_reader s ∧ ss_broadcast (marked id s st) = ss_broadcast s
  ∧ ss_stream (marked id s st) = ss_stream s.
Proof. unfold marked. by destruct (st_sessions st !! id). Qed.

Lemma small_same (s s' : Session) :
  small s → ss_reader s' = ss_reader s → ss_broadcast s' = ss_broadcast s → small s'.
Proof. intros [Hs Ho Hp] Hr Hb. split; by rewrite ?Hr, ?Hb. Qed.

Lemma attach_small id from_offset incarnation credit (s s' : Session) r :
  attach clock fuel id from_offset incarnation credit s = Some (s', r) → small s → small s'.
Proof.
  unfold attach. destruct (subscribe_with_policy _ _ _ _ _ _ _ _ _) as [[st r']|]; cbn [mbind option_bind]; [|done].
  intros [= <- <-] Hs. destruct (marked_io id s st) as (Hr & Hb & _). by eapply small_same.
Qed.

Lemma handshake_ok up now good id from_offset incarnation rows cols role quoted credited scrollback (s : Session) ending j es :
  ok s ending j es → small s → len (ss_stream s) <= u64_max → len es + 8 <= u64_max → (length es + 3 < fuel)%nat →
  u16_option rows → u16_option cols →
  ∃ s1 response r,
    relay_start clock fuel up now good id from_offset incarnation rows cols role quoted credited scrollback s
      = Some (s1, (response, r))
    ∧ ss_stream s1 = ss_stream s
    ∧ match r with
      | None => (∃ text, response = ErrorResponse text) ∨ up = false
      | Some (relay, init) =>
          starts (ss_stream s) from_offset init
          ∧ (∃ seed attachment granted, response = AttachStreamInit (ai_data init) (ai_end_offset init) (ai_running init)
               (ai_modes init) seed (ai_incarnation init) attachment granted)
          ∧ ∃ ending' j' es', len es' <= len es + 3 ∧ ∀ ops interactive size granted,
              link_ok ops (ai_running init) (ai_end_offset init) (linked interactive size s1 relay init granted) ending' j' es'
      end.
Proof.
  intros Hok Hsm Hle Hmax Hfuel Hrows Hcols. unfold relay_start.
  destruct (role_parse role) as [role'|e]; [|by do 3 eexists; split_and!; [done|done|left; eexists]].
  unfold attach_register. rewrite lookup_one.
  set (viewport := viewport_of from_offset rows cols).
  destruct (register_attachment now good Cli role' viewport (ss_runtime s)) as [rt [[a granted] resized]] eqn:Ereg.
  rewrite marked_put. cbn [mbind option_bind].
  pose proof (behind_step limit inc ls s (OpAttach now good Cli role' viewport)) as Hb.
  cbn [session_step] in Hb. unfold on_runtime in Hb. cbn beta in Hb. rewrite Ereg in Hb. cbn [fst] in Hb.
  destruct Hb as [Hre Hbr Hss Hses].
  { cbn [asks_runtime]. unfold viewport, viewport_of. destruct from_offset, rows, cols; try done. cbn in *. by destruct (_ && _). }
  destruct (Hses ending j es Hok ltac:(lia)) as (e1 & j1 & es1 & Hok1 & Hlen1).
  set (s1 := s <| ss_runtime := rt |>) in *.
  destruct (attach_ok limit inc ls clock fuel id s1 from_offset incarnation (if credited then Credited a else Uncredited)
    e1 j1 es1 Hok1) as (s2 & r & Hat & Hok2 & Hss2 & Hr); [by rewrite Hss|unfold len in *; lia|].
  rewrite Hat. cbn [mbind option_bind]. rewrite Hss in Hss2. destruct r as [[p init]|err].
  - do 3 eexists. split; [reflexivity|]. split; [done|]. destruct up; [|by right]. destruct Hr as (Hp & Hheld & Hcur & Hstarts & _).
    rewrite Hss in Hp, Hstarts. split; [done|]. split; [by do 3 eexists|].
    exists e1, j1, es1. split; [done|]. intros ops interactive size granted'.
    assert (small s2) as Hsm2 by (eapply attach_small; [exact Hat|by eapply small_same]).
    split; cbn; try done.
    + by rewrite Hss2.
    + intros c Hc. congruence.
    + rewrite Hss2. split; cbn; [apply piece_nil; rewrite <- Hcur; apply Hp|by rewrite len_nil, N.add_0_r].
    + unfold status. cbn. destruct (ai_running init); [|by right; left].
      exists [], [], [], (ai_end_offset init), false. cbn. split_and!; [done|done|apply flow_nil|done|by rewrite Hcur|done|]. exists 0%nat. split; [done|]. cbn. lia.
  - do 3 eexists. split; [reflexivity|]. split; [|by left; eexists].
    destruct (marked_io id s2 (attach_detach id a (one_session id s2)).1) as (_ & _ & ->). done.
Qed.

Lemma spawned_small rt : small (spawned rt).
Proof. by split; [constructor| |]. Qed.

(** C2: The attach link draws the session.  Whatever the session, its other
    clients, the appender, the broadcast channel, the credit gate and the user
    do, in whatever pieces and batches frames are read, and wherever the
    socket breaks, what a client that attaches has drawn is one consecutive
    piece of the session's stream from the end of its initial data, also when
    a write to its output fails half-way.  A client that ends with an error has
    found its connection closed or a frame torn, too large or refused, could
    not write, had a clipboard error or lost its terminal: its cursor is never
    out of step.  One that ends without an error, and was not
    detached, has drawn everything up to where its pump ended. *)
Theorem link_draws_the_session now meta rows0 cols0 notifications history e j0 before id from_offset incarnation
    rows cols role quoted credited scrollback good up now' interactive size granted ops :
  @rc_log _ _ laws j0 [] → 0 < rows0 <= u16_max → 0 < cols0 <= u16_max →
  sm_ended_at meta = None → final_status (sm_status meta) = false →
  Forall op_ok before → Forall reads_fit before → Forall link_op_ok ops → u16_option rows → u16_option cols →
  3 * len before + 9 * len ops + 20 <= u64_max → (N.to_nat (3 * len before + 9 * len ops + 5) < fuel)%nat →
  let s0 := session_run (spawned (spawn_session now meta rows0 cols0 notifications history e j0)) before in
  len (ss_stream s0) <= u64_max →
  ∃ s1 response r,
    relay_start clock fuel up now' good id from_offset incarnation rows cols role quoted credited scrollback s0
      = Some (s1, (response, r)) ∧
  match r with
  | None => (∃ text, response = ErrorResponse text) ∨ up = false
  | Some (relay, init) =>
      starts (ss_stream s0) from_offset init
      ∧ (∃ seed attachment granted, response = AttachStreamInit (ai_data init) (ai_end_offset init) (ai_running init)
           (ai_modes init) seed (ai_incarnation init) attachment granted)
      ∧ let l0 := linked interactive size s1 relay init granted in
        let l := link_run clock fuel l0 ops in
        run_fits l0 ops = true → len (ss_stream (lk_session l)) <= u64_max →
        let c := lk_client l in
        ss_stream s0 `prefix_of` ss_stream (lk_session l)
        ∧ piece (ss_stream (lk_session l)) (ai_end_offset init) (cl_stdout c)
        ∧ match cl_error c with
          | Some err => cl_running c = false ∧ transport_error ops err
          | None => cl_running c = true ∨ cl_detached c = true ∨ ai_running init = false
                    ∨ rl_running (lk_relay l) = false
                      ∧ ai_end_offset init + len (cl_stdout c) = cursor_of (lk_relay l)
          end
  end.
Proof.
  intros Hl Hrows Hcols Hend Hst Hb Hbf Hops Hr Hc Hmax Hfuel s0 Hle.
  destruct (reachable_ok (RecorderLaws0:=laws) now meta rows0 cols0 notifications history e j0 before)
    as (ending & j & es & Hok & Hlen); [done..|lia|]. fold s0 in Hok.
  assert (small s0) as Hsm by by apply run_small; [apply spawned_small|].
  destruct (handshake_ok up now' good id from_offset incarnation rows cols role quoted credited scrollback s0 ending j es
    Hok Hsm Hle) as (s1 & response & r & Hs & Hss & Hcase); [lia|unfold len in *; lia|done|done|].
  exists s1, response, r. split; [done|]. destruct r as [[relay init]|]; [|done].
  destruct Hcase as (Hstarts & Hresp & e1 & j1 & es1 & Hlen1 & Hlink). split; [done|]. split; [done|].
  intros l0 l Hfit Hle' c.
  destruct (link_run_ok ops ops (ai_running init) (ai_end_offset init) l0 e1 j1 es1) as (e2 & j2 & es2 & [_ _ _ _ _ _ [Hd Hcur] Hstat]);
    [apply Hlink|done|done|done|lia|unfold len in *; lia|done|].
  fold l in Hd, Hcur, Hstat. split; [|split; [exact Hd|]].
  { rewrite <- Hss. exact (link_run_stream l0 ops). }
  unfold status in Hstat. fold c in Hstat, Hcur. destruct (cl_error c); [done|].
  specialize (Hcur eq_refl). destruct (cl_running c); [by left|right]. destruct Hstat as [?|[?|[? Hc']]]; [by left|by right; left|].
  right. right. split; [done|]. by rewrite <- Hcur.
Qed.

(** A backlog ends the attach.  When the relay's pump has to make up for
    more than a MiB that the client missed, the whole window goes out as one
    frame, which the client's reader refuses: the client draws nothing of it
    and ends with an error, although the relay goes on. *)
Theorem backlog_ends_attach readings (s : Session) r c size data :
  rl_running r = true → pm_pending (rl_pump r) = [] → pm_resync (rl_pump r) = true →
  await_credit readings (rl_pump r) = Some None → cursor_of r <= u64_max →
  rd_window readings (cursor_of r) RESYNC_WINDOW_BYTES = Ok data → 1024 * 1024 < len data <= RESYNC_WINDOW_BYTES →
  cl_running c = true →
  let l := relayed (mk_link s r [] true true [] [] true c) (relay_event true readings) in
  let l' := link_step clock fuel (link_step clock fuel l LFetch) (LDraws size None) in
  rl_running (lk_relay l') = true
  ∧ cl_running (lk_client l') = false ∧ cl_stdout (lk_client l') = cl_stdout c
  ∧ cl_error (lk_client l')
    = Some (Protocol (bs "attach frame too large: " ++ show_dec (8 + len data) ++ bs " bytes (cap 1048584)")).
Proof.
  intros Hrun Hpend Hre Hcr Hcur Hwin Hlen Hc l.
  assert (∃ r1, rl_running r1 = true
    ∧ l = mk_link s r1 (write_attach_output_frame (cursor_of r) data) true true [] [] true c) as (r1 & Hr1 & El).
  { unfold l, relayed, relay_event. cbn [lk_relay lk_session]. rewrite Hrun. unfold next_turn. rewrite Hcr, Hpend, Hre.
    unfold resync_step. rewrite Hwin. rewrite (proj2 (N.eqb_neq (len data) 0)) by lia. cbn [negb].
    cbn. rewrite Hrun. by eexists; split; [|reflexivity]. }
  clearbody l. subst l.
  set (e := Protocol (bs "attach frame too large: " ++ show_dec (8 + len data) ++ bs " bytes (cap 1048584)")).
  assert (read_checked_attach_frame (write_attach_output_frame (cursor_of r) data)
    = (u64_le (cursor_of r) ++ data, Err e)) as Hread.
  { unfold read_checked_attach_frame. rewrite <- (app_nil_r (write_attach_output_frame _ _)).
    rewrite output_frame_read by (unfold RESYNC_WINDOW_BYTES, u32_max in *; lia). leb_to false.
    by rewrite app_nil_r. }
  assert (len (write_attach_output_frame (cursor_of r) data) ≠ 0) as Hne.
  { unfold write_attach_output_frame. rewrite !len_app, !len_le_bytes. lia. }
  assert (link_step clock fuel (mk_link s r1 (write_attach_output_frame (cursor_of r) data) true true [] [] true c) LFetch
    = mk_link s r1 (u64_le (cursor_of r) ++ data) true false [Err e] [] true c) as ->.
  { cbn [link_step]. unfold something_to_read. cbn [lk_interactive lk_reading lk_queue lk_wire lk_connected].
    rewrite (proj2 (N.eqb_neq _ 0) Hne), Hread. reflexivity. }
  clearbody e. cbn [link_step lk_interactive lk_client lk_queue]. rewrite Hc. cbn. by split_and!.
Qed.
End LinkTheorems.

(** ** Witnesses *)

#[local] Existing Instance csv_serde.
#[local] Existing Instance csv_laws.
#[local] Existing Instance no_base64.
#[local] Existing Instance plain_engine.
#[local] Instance response_json : Json RpcResponse := code_json RpcResponse.
#[local] Instance response_json_laws : JsonLaws RpcResponse := code_json_laws RpcResponse.

(** A client attaches after the first output; the session says more, the
    relay passes it on and the client draws it; the child ends. *)
Definition link_before : list (SessionOp (J:=Scheduled)) := [OpRead 1 (bs "hello"); OpBroadcast].
Definition link_ops : list LinkOp :=
  [LGoes (OpRead 3 (bs " world")); LGoes OpBroadcast; LPump (mk_turn 4 [] (Some (PickRecv 0)) []);
   LPump (mk_turn 5 [] (Some (PickRecv 1)) []); LFetch; LDraws (80, 24) None;
   LTypes (EvKey (mk_key Enter no_modifiers Press) (Ok None)); LMessage 6 true; LBreaks 0; LFetch; LDraws (80, 24) None].

#[local] Abbreviation linked_session :=
  (session_run (spawned (spawn_session 0 sample_meta 24 80 true 100 sample_engine
     (sample_journal (mk_world sample_storage [])))) link_before) (only parsing).

Definition link_outcome : option (N * bytes * option AppError * N) :=
  match relay_start 0 200 true 2 true (bs "abc1234") None None None None None [] true [] linked_session with
  | Some (s1, (_, Some (relay, init))) =>
      let l0 := linked true (80, 24) s1 relay init (bs "controller") in
      let l := link_run 0 200 l0 link_ops in
      if run_fits 0 200 l0 link_ops && (len (ss_stream (lk_session l)) <=? u64_max)
      then Some (ai_end_offset init, cl_stdout (lk_client l), cl_error (lk_client l), len (lk_requests l)) else None
  | _ => None
  end.

Lemma link_draws_the_session_witness :
  ∃ stream, piece stream 5 (bs " world")
    ∧ transport_error link_ops (Protocol (bs "daemon closed the connection")).
Proof.
  destruct (link_draws_the_session 4096 7 [] 0 200 0 sample_meta 24 80 true 100 sample_engine
    (sample_journal (mk_world sample_storage [])) link_before (bs "abc1234") None None None None None [] true []
    true true 2 true (80, 24) (bs "controller") link_ops)
    as (s1 & response & r & Hs & Hr).
  - by apply sample_journal_log.
  - done.
  - done.
  - done.
  - done.
  - by repeat constructor.
  - by repeat constructor.
  - by repeat constructor.
  - done.
  - done.
  - by vm_compute.
  - apply Nat.ltb_lt. by vm_compute.
  - by vm_compute.
  - assert (link_outcome = Some (5, bs " world", Some (Protocol (bs "daemon closed the connection")), 0)) as Hout
      by by vm_compute.
    unfold link_outcome in Hout. rewrite Hs in Hout. destruct r as [[relay init]|]; [|done].
    destruct Hr as (_ & _ & Hr). cbv zeta in Hout, Hr. set (l0 := linked _ _ _ _ _ _) in *. set (l := link_run _ _ _ _) in *.
    clearbody l. clearbody l0. destruct (run_fits 0 200 l0 link_ops); [|discriminate].
    destruct (N.leb_spec (len (ss_stream (lk_session l))) u64_max) as [Hle|]; [|done]. cbn [andb] in Hout.
    injection Hout as Hstart Hdraw Herr _. destruct (Hr eq_refl Hle) as (_ & Hp & He).
    rewrite Hstart, Hdraw in Hp. rewrite Herr in He. exists (ss_stream (lk_session l)).
    exact (conj Hp (proj2 He)).
Defined.

(** A pump that lagged, and the MiB and one byte it has missed. *)
Definition lagged_pump : AttachPump :=
  begin_resync (subscribed false (modes_load 0) 7 None).
Definition lagged_readings (data : bytes) : Readings :=
  mk_readings 0 0 [] (λ _ _, Ok data) None None [] 0.
Definition lagged_session : Session (J:=Scheduled) :=
  spawned (spawn_session 0 sample_meta 24 80 true 100 sample_engine (sample_journal (mk_world sample_storage []))).

Lemma backlog_ends_attach_witness :
  ∃ l : Link, cl_running (lk_client l) = false ∧ rl_running (lk_relay l) = true ∧ cl_stdout (lk_client l) = [].
Proof.
  set (data := replicate (N.to_nat (1024 * 1024 + 1)) x61).
  assert (len data = 1024 * 1024 + 1) as Hlen.
  { unfold data, len. by rewrite length_replicate, N2Nat.id. }
  clearbody data.
  destruct (backlog_ends_attach 0 0 (lagged_readings data) lagged_session
    (mk_relay (bs "abc1234") 1 None lagged_pump (new_subscriber None) true)
    (started (bs "abc1234") (bs "controller") 7 true sample_modes (80, 24)) (80, 24) data) as (H1 & H2 & H3 & _).
  - done.
  - done.
  - done.
  - done.
  - done.
  - done.
  - rewrite Hlen. by split.
  - done.
  - eexists. split; [exact H2|]. split; [exact H1|exact H3].
Defined.

(** A client that is gone when the init response is written stays attached. *)
Example unwritten_init_stays :
  match relay_start 0 200 false 2 true (bs "abc1234") None None None None None [] true [] linked_session with
  | Some (s1, (AttachStreamInit _ _ _ _ _ _ id _, None)) =>
      at_role <$> ar_attachments (rt_attachments (ss_runtime s1)) !! id = Some Controller
  | _ => False
  end.
Proof. by vm_compute. Qed.
