(* ===== verification/LogRecords.v ===== *)
(** * Log records

    [src/src/session/logs/index.rs]: the display stream of a session cut into
    records at line ends and at the escape sequences that move or clear the
    screen, and pages of those records for [oly logs] and the web interface.
    The theorems say that the records are the stream, whatever buffers it
    arrives in, that pages tile the records, and that a stretch of the journal
    that shows nothing ends the listing early. *)

From S2P Require Import Prelude Crc Utf8 Text RecordFormat SegmentScan Disk Manifest Open Retention.
From S2P Require Import Stream ProgramStatus Signals Scanner Replay.

Definition ESCAPE_BYTE : byte := x1b.
Definition OUTPUT_COLOR_RESET_SUFFIX : bytes :=
  x1b :: bs "[0m" ++ x1b :: bs "[39m" ++ x1b :: bs "[49m" ++ x1b :: bs "[?25h".
Definition LOG_RECORD_FALLBACK_BYTES : N := 2048.

(** ** The record scanner *)

(** [LogRecordScanner]: its state and what [on_record] was called with. *)
Record LogRecordScanner := mk_records {
  current_record : bytes;
  pending_escape : bytes;
  on_record : list bytes;
}.
Definition new_records : LogRecordScanner := mk_records [] [] [].

Inductive AnsiSequenceStatus := Incomplete | Complete | Invalid.

Definition ansi_sequence_status (l : bytes) : AnsiSequenceStatus :=
  match l with
  | a :: rest =>
      if negb (a =b ESCAPE_BYTE) then Invalid
      else match rest with
      | [] => Incomplete
      | second :: params =>
          if second =b x5b then
            if existsb (in_byte_range x40 x7e) params then Complete else Incomplete
          else if existsb (Byte.eqb second) [x5d; x50; x58; x5e; x5f] then
            if bytes_eqb (drop (length l - 1) l) [x07] || bytes_eqb (drop (length l - 2) l) [x1b; x5c]
            then Complete else Incomplete
          else Complete
      end
  | [] => Invalid
  end.

Definition is_alt_screen_toggle (params : bytes) (final_byte : byte) : bool :=
  ((final_byte =b x68) || (final_byte =b x6c))
  && (bytes_eqb params (bs "?1049") || bytes_eqb params (bs "?1047")).

Definition is_record_boundary_sequence (sequence : bytes) : bool :=
  if (len sequence <? 3) || negb (starts_with [ESCAPE_BYTE; x5b] sequence) then false
  else
    let final_byte := default x00 (last sequence) in
    let params := slice 2 (len sequence - 1) sequence in
    existsb (Byte.eqb final_byte) (bs "HfdGJK") || is_alt_screen_toggle params final_byte.

Definition flush_current_record (s : LogRecordScanner) : LogRecordScanner :=
  match current_record s with
  | [] => s
  | record => mk_records [] (pending_escape s) (on_record s ++ [record])
  end.

Definition flush_pending_escape (is_boundary : bool) (s : LogRecordScanner) : LogRecordScanner :=
  let s := if is_boundary && negb (len (current_record s) =? 0) then flush_current_record s else s in
  mk_records (current_record s ++ pending_escape s) [] (on_record s).

(** [utf8_boundary_at_or_before]. *)
Fixpoint utf8_candidate (l : bytes) (candidate : nat) : nat :=
  match candidate with
  | O => O
  | S smaller => if utf8_valid (take candidate l) then candidate else utf8_candidate l smaller
  end.
Definition utf8_boundary_at_or_before (l : bytes) (end_ : N) : N :=
  N.of_nat (utf8_candidate l (N.to_nat (N.min end_ (len l)))).

(** The loop of [push_plain_bytes]; a turn flushes a full record or takes at
    least one byte, so twice the bytes are turns enough. *)
Fixpoint push_loop (fuel : nat) (l : bytes) (s : LogRecordScanner) : LogRecordScanner :=
  match fuel with
  | O => s
  | S fuel =>
      match l with
      | [] => s
      | _ =>
          let available := LOG_RECORD_FALLBACK_BYTES - len (current_record s) in
          if available =? 0 then push_loop fuel l (flush_current_record s)
          else if len l <=? available then
            mk_records (current_record s ++ l) (pending_escape s) (on_record s)
          else
            let split_at := N.to_nat (N.max (utf8_boundary_at_or_before l available) 1) in
            let s := mk_records (current_record s ++ take split_at l) (pending_escape s) (on_record s) in
            push_loop fuel (drop split_at l) (flush_current_record s)
      end
  end.
Definition push_plain_bytes (l : bytes) (s : LogRecordScanner) : LogRecordScanner :=
  push_loop (2 * length l) l s.

(** The bytes consumed, and the scanner after them. *)
Fixpoint process_pending_escape_bytes (l : bytes) (s : LogRecordScanner) : nat * LogRecordScanner :=
  match l with
  | [] => (O, s)
  | b :: l =>
      let s := mk_records (current_record s) (pending_escape s ++ [b]) (on_record s) in
      match ansi_sequence_status (pending_escape s) with
      | Incomplete => let '(n, s) := process_pending_escape_bytes l s in (S n, s)
      | Complete => (1%nat, flush_pending_escape (is_record_boundary_sequence (pending_escape s)) s)
      | Invalid => (1%nat, flush_pending_escape false s)
      end
  end.

Definition is_line_end (b : byte) : bool := (b =b x0a) || (b =b x0d).
Definition is_special_record_byte (b : byte) : bool := is_line_end b || (b =b ESCAPE_BYTE).

(** The loop of [process_bytes]: every turn takes a byte, so a turn per byte
    is enough. *)
Fixpoint process_loop (fuel : nat) (remaining : bytes) (s : LogRecordScanner) : LogRecordScanner :=
  match fuel with
  | O => s
  | S fuel =>
      match remaining with
      | [] => s
      | _ =>
          if negb (len (pending_escape s) =? 0) then
            let '(consumed, s) := process_pending_escape_bytes remaining s in
            process_loop fuel (drop consumed remaining) s
          else
            let '(plain, rest) := span (λ b, negb (is_special_record_byte b)) remaining in
            let s := push_plain_bytes plain s in
            match rest with
            | [] => s
            | b :: rest =>
                process_loop fuel rest
                  (if is_line_end b
                   then flush_current_record (mk_records (current_record s ++ [b]) (pending_escape s) (on_record s))
                   else mk_records (current_record s) (pending_escape s ++ [ESCAPE_BYTE]) (on_record s))
            end
      end
  end.
Definition process_bytes (l : bytes) (s : LogRecordScanner) : LogRecordScanner :=
  process_loop (length l) l s.

Definition finish (s : LogRecordScanner) : LogRecordScanner :=
  flush_current_record (mk_records (current_record s ++ pending_escape s) [] (on_record s)).

(** ** Pages *)

Record PaginatedLogRecords := mk_page {
  pg_offset : N;
  pg_end : N;
  pg_total : N;
  pg_records : list bytes;
}.
Definition new_page (offset limit : N) : PaginatedLogRecords :=
  mk_page offset (u64_sat_add offset limit) 0 [].

Definition push (p : PaginatedLogRecords) (record : bytes) : PaginatedLogRecords :=
  match record with
  | [] => p
  | _ =>
      mk_page (pg_offset p) (pg_end p) (pg_total p + 1)
        (if (pg_offset p <=? pg_total p) && (pg_total p <? pg_end p)
         then pg_records p ++ [utf8_lossy record] else pg_records p)
  end.

Definition finish_page (p : PaginatedLogRecords) : list bytes * N := (pg_records p, pg_total p).

(** [BufReader]'s buffer. *)
Definition DEFAULT_BUF_SIZE : N := 8 * 1024.

Section Persisted.
Context `{Crc32Fast, Base64} (now : N).

(** [process_persisted_log_reader]: buffers until an empty one. *)
Fixpoint process_persisted_log_reader (fuel : nat) (d : Dir) (reader : ReplayReader)
    (s : LogRecordScanner) : option (io_result LogRecordScanner) :=
  match fuel with
  | O => None
  | S fuel =>
      '(reader, chunk) ← read now d DEFAULT_BUF_SIZE reader;
      match chunk with
      | Err e => Some (Err e)
      | Ok [] => Some (Ok s)
      | Ok chunk => process_persisted_log_reader fuel d reader (process_bytes chunk s)
      end
  end.

Definition scan_persisted_log_records (fuel : nat) (d : Dir) (reader : ReplayReader)
    : option (io_result (list bytes)) :=
  r ← process_persisted_log_reader fuel d reader new_records;
  Some (s ← r; Ok (on_record (finish s))).

(** What a page request meets with: no journal and no log, the log of an old
    release, a journal that cannot be read, or a page. *)
Inductive log_page :=
  | NoLog
  | OldFormat
  | Unreadable (e : io_error_kind)
  | Page (records : list bytes) (total : N).

(** [read_persisted_log_page] of a session directory with a journal or not,
    and an [output.log] or not. *)
Definition read_persisted_log_page (fuel : nat) (journal : option Dir) (output_log : bool)
    (offset limit : N) : option log_page :=
  match journal with
  | Some d =>
      match new_reader d with
      | Err e => Some (Unreadable e)
      | Ok reader =>
          r ← scan_persisted_log_records fuel d reader;
          Some match r with
               | Err e => Unreadable e
               | Ok records =>
                   let '(page, total) := finish_page (foldl push (new_page offset limit) records) in
                   Page page total
               end
      end
  | None => Some (if output_log then OldFormat else NoLog)
  end.
End Persisted.

(** ** Lines of a rendered screen *)

(** The loop of [split_rendered_log_output]: the lines so far and the bytes
    after the last line end. *)
Fixpoint line_chunks (l : bytes) (line : bytes) (chunks : list bytes) : list bytes * bytes :=
  match l with
  | [] => (chunks, line)
  | b :: l =>
      if b =b x0a then line_chunks l [] (chunks ++ [utf8_lossy (line ++ [b])])
      else line_chunks l (line ++ [b]) chunks
  end.

Definition split_rendered_log_output (output : bytes) : list bytes :=
  let output := default output (strip_suffix OUTPUT_COLOR_RESET_SUFFIX output) in
  let '(chunks, rest) := line_chunks output [] [] in
  match rest with
  | [] => chunks
  | _ =>
      match last chunks with
      | Some l => take (length chunks - 1) chunks ++ [l ++ utf8_lossy rest]
      | None => [utf8_lossy rest]
      end
  end.

(** ** The scanner, byte by byte *)

(** What one byte does where no record is cut for its length. *)
Definition feed (s : LogRecordScanner) (b : byte) : LogRecordScanner :=
  if negb (len (pending_escape s) =? 0) then
    let s := mk_records (current_record s) (pending_escape s ++ [b]) (on_record s) in
    match ansi_sequence_status (pending_escape s) with
    | Incomplete => s
    | Complete => flush_pending_escape (is_record_boundary_sequence (pending_escape s)) s
    | Invalid => flush_pending_escape false s
    end
  else if is_line_end b then
    flush_current_record (mk_records (current_record s ++ [b]) (pending_escape s) (on_record s))
  else if b =b ESCAPE_BYTE then mk_records (current_record s) (pending_escape s ++ [ESCAPE_BYTE]) (on_record s)
  else mk_records (current_record s ++ [b]) (pending_escape s) (on_record s).

(** The records of a stream none of whose records is cut for its length. *)
Definition log_records (stream : bytes) : list bytes :=
  on_record (finish (foldl feed new_records stream)).

(** Everything a scanner was given. *)
Definition contents (s : LogRecordScanner) : bytes :=
  concat (on_record s) ++ current_record s ++ pending_escape s.

(** A scanner whose records hold something. *)
Definition filled (s : LogRecordScanner) : Prop := Forall (λ r, r ≠ []) (on_record s).

(** [s'] is [s] after the bytes [l]. *)
Definition took (s : LogRecordScanner) (l : bytes) (s' : LogRecordScanner) : Prop :=
  contents s' = contents s ++ l ∧ (filled s → filled s').

Lemma took_nil s : took s [] s.
Proof. split; [by rewrite app_nil_r|done]. Qed.

Lemma took_trans {s l s' k s''} : took s l s' → took s' k s'' → took s (l ++ k) s''.
Proof. intros [Hc Hf] [Hc' Hf']. split; [by rewrite Hc', Hc, app_assoc|auto]. Qed.

Lemma took_flush {s} : took s [] (flush_current_record s).
Proof.
  split.
  - unfold contents, flush_current_record. destruct (current_record s) as [|b r] eqn:E; [by rewrite E, app_nil_r|].
    cbn [on_record current_record pending_escape]. rewrite concat_app. cbn [concat]. by rewrite !app_nil_r, <- app_assoc.
  - unfold filled, flush_current_record. destruct (current_record s); [done|]. intros Hf.
    apply Forall_app. split; [done|by repeat constructor].
Qed.

Lemma took_escape {b s} : took s [] (flush_pending_escape b s).
Proof.
  unfold flush_pending_escape.
  set (s1 := if b && negb (len (current_record s) =? 0) then flush_current_record s else s).
  assert (took s [] s1) as [H1 H2] by (unfold s1; destruct (_ && _); [apply took_flush|apply took_nil]).
  split; [|done]. rewrite <- H1. unfold contents. cbn [on_record current_record pending_escape].
  by rewrite app_nil_r.
Qed.

Lemma took_current s l : pending_escape s = [] →
  took s l (mk_records (current_record s ++ l) (pending_escape s) (on_record s)).
Proof.
  intros Hp. split; [|done]. unfold contents. cbn [on_record current_record pending_escape].
  by rewrite Hp, !app_nil_r, app_assoc.
Qed.

Lemma took_pending s l : took s l (mk_records (current_record s) (pending_escape s ++ l) (on_record s)).
Proof.
  split; [|done]. unfold contents. cbn [on_record current_record pending_escape]. by rewrite !app_assoc.
Qed.

Lemma took_finish s : took s [] (finish s).
Proof.
  unfold finish.
  eapply (took_trans (l := []) (k := []) (s' := mk_records (current_record s ++ pending_escape s) [] (on_record s))).
  - split; [|done]. unfold contents. cbn [on_record current_record pending_escape]. by rewrite !app_nil_r.
  - apply took_flush.
Qed.

Lemma feed_took s b : took s [b] (feed s b).
Proof.
  unfold feed. destruct (N.eqb_spec (len (pending_escape s)) 0) as [Hp|_]; cbn [negb].
  - apply len_0 in Hp. destruct (is_line_end b).
    + change [b] with ([b] ++ []). eapply took_trans; [by apply took_current|apply took_flush].
    + destruct (b =b ESCAPE_BYTE) eqn:Eb; [apply byte_eqb_eq in Eb as ->; apply took_pending|by apply took_current].
  - pose proof (took_pending s [b]) as Ht. cbv zeta.
    set (s1 := mk_records (current_record s) (pending_escape s ++ [b]) (on_record s)) in *.
    destruct (ansi_sequence_status _); [done| |]; change [b] with ([b] ++ []);
      (eapply took_trans; [done|apply took_escape]).
Qed.

Lemma foldl_feed_took s l : took s l (foldl feed s l).
Proof.
  revert s. induction l as [|b l IH]; intros s; [apply took_nil|].
  cbn [foldl]. change (b :: l) with ([b] ++ l). eapply took_trans; [apply feed_took|apply IH].
Qed.

(** ** The loops *)

Lemma escape_bytes_feed l s n s' :
  pending_escape s ≠ [] → process_pending_escape_bytes l s = (n, s') →
  s' = foldl feed s (take n l) ∧ (n <= length l)%nat ∧ (l ≠ [] → (0 < n)%nat).
Proof.
  revert s n. induction l as [|b l IH]; intros s n Hp; cbn [process_pending_escape_bytes]; [by intros [= <- <-]|].
  assert (feed s b = let s := mk_records (current_record s) (pending_escape s ++ [b]) (on_record s) in
    match ansi_sequence_status (pending_escape s) with
    | Incomplete => s
    | Complete => flush_pending_escape (is_record_boundary_sequence (pending_escape s)) s
    | Invalid => flush_pending_escape false s
    end) as Hf.
  { unfold feed. apply len_nonempty, N.eqb_neq in Hp. by rewrite Hp. }
  cbv zeta in *. set (s1 := mk_records (current_record s) (pending_escape s ++ [b]) (on_record s)) in *.
  assert (pending_escape s1 ≠ []) as Hp1 by (by destruct (pending_escape s)).
  destruct (ansi_sequence_status (pending_escape s1)).
  - destruct (process_pending_escape_bytes l s1) as [m s2] eqn:Hr. intros [= <- <-].
    destruct (IH s1 m Hp1 Hr) as (-> & Hle & _). cbn [take foldl length]. rewrite Hf. split_and!; [done|lia|lia].
  - intros [= <- <-]. cbn [take foldl length]. rewrite Hf. split_and!; [done|lia|lia].
  - intros [= <- <-]. cbn [take foldl length]. rewrite Hf. split_and!; [done|lia|lia].
Qed.

Lemma flush_pending_same s : pending_escape (flush_current_record s) = pending_escape s.
Proof. unfold flush_current_record. by destruct (current_record s). Qed.
Lemma flush_current_nil s : current_record (flush_current_record s) = [].
Proof. unfold flush_current_record. by destruct (current_record s) eqn:E. Qed.

Lemma push_loop_took fuel l s :
  pending_escape s = [] →
  (2 * length l <= fuel + (if (LOG_RECORD_FALLBACK_BYTES - len (current_record s) =? 0)%N then 0 else 1))%nat →
  took s l (push_loop fuel l s) ∧ pending_escape (push_loop fuel l s) = [].
Proof.
  revert l s. induction fuel as [|fuel IH]; intros l s Hp Hf.
  { destruct l; [split; [apply took_nil|done]|]. cbn in Hf. destruct (_ =? 0); lia. }
  cbn [push_loop]. destruct l as [|b l']; [split; [apply took_nil|done]|]. set (l := b :: l') in *.
  assert (length l = S (length l')) as Hlen by done. clearbody l. revert Hf.
  destruct (N.eqb_spec (LOG_RECORD_FALLBACK_BYTES - len (current_record s)) 0) as [Hfull|Hroom]; intros Hf.
  - destruct (IH l (flush_current_record s)) as [Ht Hn]; [by rewrite flush_pending_same| |].
    { rewrite flush_current_nil, len_nil. change (2 * length l <= fuel + 1)%nat; lia. }
    split; [|done]. change l with ([] ++ l). eapply took_trans; [apply took_flush|done].
  - destruct (len l <=? _); [split; [by apply took_current|done]|].
    set (k := N.to_nat _). assert (1 <= k)%nat as Hk by lia.
    set (s1 := mk_records _ _ _). destruct (IH (drop k l) (flush_current_record s1)) as [Ht Hn].
    { by rewrite flush_pending_same. }
    { rewrite flush_current_nil, len_nil, length_drop. change (2 * (length l - k) <= fuel + 1)%nat; lia. }
    split; [|done]. rewrite <- (take_drop k l) at 1. eapply took_trans; [by apply took_current|].
    change (drop k l) with ([] ++ drop k l). eapply took_trans; [apply took_flush|done].
Qed.

Lemma push_plain_took l s : pending_escape s = [] →
  took s l (push_plain_bytes l s) ∧ pending_escape (push_plain_bytes l s) = [].
Proof. intros Hp. apply push_loop_took; [done|]. lia. Qed.

Lemma process_loop_took fuel l s : (length l <= fuel)%nat → took s l (process_loop fuel l s).
Proof.
  revert l s. induction fuel as [|fuel IH]; intros l s Hf.
  { destruct l; [apply took_nil|cbn in Hf; lia]. }
  cbn [process_loop]. destruct l as [|b l']; [apply took_nil|]. set (l := b :: l') in *.
  assert (l ≠ []) as Hne by done. clearbody l. clear b l'.
  destruct (N.eqb_spec (len (pending_escape s)) 0) as [Hp|Hp]; cbn [negb].
  - apply len_0 in Hp. destruct (span _ l) as [plain rest] eqn:Hs. pose proof (span_app _ _ _ _ Hs) as ->.
    destruct (push_plain_took plain s Hp) as [Ht Hn]. set (s1 := push_plain_bytes plain s) in *. clearbody s1.
    destruct rest as [|b rest]; [by rewrite app_nil_r|].
    apply (took_trans Ht). change (b :: rest) with ([b] ++ rest). rewrite length_app in Hf. cbn in Hf.
    destruct (is_line_end b) eqn:Eb.
    + eapply took_trans; [|apply IH; lia]. change [b] with ([b] ++ []).
      eapply took_trans; [by apply took_current|apply took_flush].
    + apply span_stop, negb_false_iff in Hs. unfold is_special_record_byte in Hs. rewrite Eb in Hs.
      apply byte_eqb_eq in Hs as ->. eapply took_trans; [apply took_pending|apply IH; lia].
  - apply len_nonempty in Hp. destruct (process_pending_escape_bytes l s) as [n s1] eqn:Hr.
    destruct (escape_bytes_feed _ _ _ _ Hp Hr) as (-> & Hle & Hpos). rewrite <- (take_drop n l) at 1.
    eapply took_trans; [apply foldl_feed_took|]. apply IH. rewrite length_drop. specialize (Hpos Hne). lia.
Qed.

(** Nothing gets lost between the bytes and the records. *)
Lemma process_bytes_took l s : took s l (process_bytes l s).
Proof. by apply process_loop_took. Qed.

Lemma process_chunks_took chunks s :
  took s (concat chunks) (foldl (λ s c, process_bytes c s) s chunks).
Proof.
  revert s. induction chunks as [|c chunks IH]; intros s; [apply took_nil|].
  cbn [foldl concat]. eapply took_trans; [apply process_bytes_took|apply IH].
Qed.

(** ** Streams without over-long records *)

(** No record under way gets past the fallback size. *)
Definition short_records (s : LogRecordScanner) (l : bytes) : Prop :=
  ∀ a b, l = a ++ b → len (current_record (foldl feed s a)) <= LOG_RECORD_FALLBACK_BYTES.

Lemma short_later s a b : short_records s (a ++ b) → short_records (foldl feed s a) b.
Proof. intros Hs x y ->. rewrite <- foldl_app. apply (Hs (a ++ x) y). by rewrite app_assoc. Qed.

Lemma short_earlier s a b : short_records s (a ++ b) → short_records s a.
Proof. intros Hs x y ->. apply (Hs x (y ++ b)). by rewrite app_assoc. Qed.

Lemma feed_plain l s :
  pending_escape s = [] → forallb (λ b, negb (is_special_record_byte b)) l = true →
  foldl feed s l = mk_records (current_record s ++ l) [] (on_record s).
Proof.
  revert s. induction l as [|b l IH]; intros s Hp Hl.
  { destruct s. cbn in *. by rewrite Hp, app_nil_r. }
  cbn [forallb foldl] in *. apply andb_true_iff in Hl as [Hb Hl].
  assert (feed s b = mk_records (current_record s ++ [b]) [] (on_record s)) as ->.
  { unfold feed. rewrite Hp. cbn [len length N.of_nat N.eqb negb]. apply negb_true_iff in Hb.
    unfold is_special_record_byte in Hb. by apply orb_false_iff in Hb as [-> ->]. }
  rewrite IH by done. cbn [current_record on_record]. by rewrite <- app_assoc.
Qed.

Lemma push_plain_short l s :
  pending_escape s = [] → len (current_record s ++ l) <= LOG_RECORD_FALLBACK_BYTES →
  push_plain_bytes l s = mk_records (current_record s ++ l) [] (on_record s).
Proof.
  intros Hp Hs. rewrite len_app in Hs. unfold push_plain_bytes. destruct l as [|b l].
  { destruct s. cbn in *. by rewrite Hp, app_nil_r. }
  rewrite len_cons in Hs. replace (2 * length (b :: l))%nat with (S (S (2 * length l))) by (cbn; lia).
  cbn [push_loop]. eqb_to false. rewrite len_cons. leb_to true. by rewrite Hp.
Qed.

Lemma process_loop_short fuel l s :
  (length l <= fuel)%nat → short_records s l → process_loop fuel l s = foldl feed s l.
Proof.
  revert l s. induction fuel as [|fuel IH]; intros l s Hf Hs.
  { destruct l; [done|cbn in Hf; lia]. }
  cbn [process_loop]. destruct l as [|b l']; [done|]. set (l := b :: l') in *.
  assert (l ≠ []) as Hne by done. clearbody l. clear b l'.
  destruct (N.eqb_spec (len (pending_escape s)) 0) as [Hp|Hp]; cbn [negb].
  - apply len_0 in Hp. destruct (span _ l) as [plain rest] eqn:Hsp. pose proof (span_app _ _ _ _ Hsp) as ->.
    pose proof (feed_plain plain s Hp (span_all _ _ _ _ Hsp)) as Hfd.
    pose proof (Hs plain rest eq_refl) as Hlen. rewrite Hfd in Hlen. cbn [current_record] in Hlen.
    rewrite (push_plain_short plain s Hp Hlen), foldl_app, Hfd. apply short_later in Hs. rewrite Hfd in Hs.
    set (s1 := mk_records _ _ _) in *. destruct rest as [|b rest]; [done|]. cbn [foldl].
    rewrite length_app in Hf. cbn in Hf. change (b :: rest) with ([b] ++ rest) in Hs. apply short_later in Hs.
    cbn [foldl] in Hs.
    assert (feed s1 b = if is_line_end b
      then flush_current_record (mk_records (current_record s1 ++ [b]) (pending_escape s1) (on_record s1))
      else mk_records (current_record s1) (pending_escape s1 ++ [ESCAPE_BYTE]) (on_record s1)) as Hb.
    { unfold feed. subst s1. cbn [pending_escape len length N.of_nat N.eqb negb].
      destruct (is_line_end b) eqn:Eb; [done|]. apply span_stop, negb_false_iff in Hsp.
      unfold is_special_record_byte in Hsp. rewrite Eb in Hsp. cbn [orb] in Hsp. by rewrite Hsp. }
    rewrite <- Hb. apply IH; [lia|done].
  - apply len_nonempty in Hp. destruct (process_pending_escape_bytes l s) as [n s1] eqn:Hr.
    destruct (escape_bytes_feed _ _ _ _ Hp Hr) as (-> & Hle & Hpos). specialize (Hpos Hne).
    rewrite <- (take_drop n l) in Hs. rewrite IH; [|rewrite length_drop; lia|by apply short_later].
    rewrite <- foldl_app. by rewrite take_drop.
Qed.

Lemma process_chunks_short chunks s :
  short_records s (concat chunks) →
  foldl (λ s c, process_bytes c s) s chunks = foldl feed s (concat chunks).
Proof.
  revert s. induction chunks as [|c chunks IH]; intros s Hs; [done|]. cbn [foldl concat] in *.
  unfold process_bytes at 2. rewrite process_loop_short by (done || by eapply short_earlier).
  rewrite foldl_app. apply IH. by apply short_later.
Qed.

Lemma feed_keeps s b : on_record s `prefix_of` on_record (feed s b).
Proof.
  assert (∀ s, on_record s `prefix_of` on_record (flush_current_record s)) as Hf.
  { intros s'. unfold flush_current_record. destruct (current_record s'); [done|by eexists]. }
  assert (∀ x s, on_record s `prefix_of` on_record (flush_pending_escape x s)) as He.
  { intros x s'. unfold flush_pending_escape. destruct (_ && _); [apply Hf|done]. }
  unfold feed. destruct (negb _).
  - cbv zeta. destruct (ansi_sequence_status _); [done|apply (He _ (mk_records _ _ _))|apply (He _ (mk_records _ _ _))].
  - destruct (is_line_end b); [apply (Hf (mk_records _ _ _))|]. by destruct (b =b ESCAPE_BYTE).
Qed.

Lemma records_stay l s : on_record s `prefix_of` on_record (finish (foldl feed s l)).
Proof.
  revert s. induction l as [|b l IH]; intros s; cbn [foldl].
  - unfold finish, flush_current_record. destruct (current_record _ ++ _); [done|by eexists].
  - etrans; [apply feed_keeps|apply IH].
Qed.

(** A record under way becomes part of one. *)
Lemma current_in_records l s :
  current_record s ≠ [] →
  ∃ r, r ∈ on_record (finish (foldl feed s l)) ∧ current_record s `prefix_of` r.
Proof.
  revert s. induction l as [|b l IH]; intros s Hne; cbn [foldl].
  { unfold finish, flush_current_record. cbn [current_record pending_escape on_record].
    destruct (current_record s ++ pending_escape s) eqn:E; [by destruct (current_record s)|].
    cbn [on_record]. rewrite <- E. eexists. split; [apply elem_of_app; right; by left|by eexists]. }
  assert (∀ s', current_record s' ≠ [] → current_record s `prefix_of` current_record s' →
    ∃ r, r ∈ on_record (finish (foldl feed s' l)) ∧ current_record s `prefix_of` r) as Hgrow.
  { intros s' Hne' Hp. destruct (IH s' Hne') as (r & Hr & Hpr). exists r. split; [done|by etrans]. }
  assert (∀ s' r, r ∈ on_record s' → current_record s `prefix_of` r →
    ∃ r, r ∈ on_record (finish (foldl feed s' l)) ∧ current_record s `prefix_of` r) as Hout.
  { intros s' r Hr Hp. exists r. split; [|done]. destruct (records_stay l s') as [k ->].
    apply elem_of_app. by left. }
  assert (∀ s' x, current_record s' = current_record s → ∃ r,
    r ∈ on_record (finish (foldl feed (flush_pending_escape x s') l)) ∧ current_record s `prefix_of` r) as Hesc.
  { intros s' x Hc. unfold flush_pending_escape, flush_current_record. rewrite Hc.
    destruct (current_record s) as [|c r] eqn:Ec; [done|]. cbn [len length]. destruct x; cbn [andb negb].
    - replace (N.of_nat (S (length r)) =? 0) with false by (symmetry; apply N.eqb_neq; lia). cbn [negb].
      eapply Hout; [cbn [on_record]; apply elem_of_app; right; by left|done].
    - apply Hgrow; cbn [current_record]; rewrite Hc; [done|]. by eexists. }
  unfold feed. destruct (negb _).
  - cbv zeta. destruct (ansi_sequence_status _); [by apply Hgrow|by apply Hesc|by apply Hesc].
  - destruct (is_line_end b).
    + unfold flush_current_record. cbn [current_record]. destruct (current_record s ++ [b]) eqn:E; [by destruct (current_record s)|].
      rewrite <- E. eapply Hout; [cbn [on_record]; apply elem_of_app; right; by left|by eexists].
    + destruct (b =b ESCAPE_BYTE); [by apply Hgrow|]. apply Hgrow; cbn [current_record]; [by destruct (current_record s)|by eexists].
Qed.

Lemma short_of_records stream :
  Forall (λ r, len r <= LOG_RECORD_FALLBACK_BYTES) (log_records stream) → short_records new_records stream.
Proof.
  intros Hall a b ->. unfold log_records in Hall. rewrite foldl_app in Hall.
  destruct (current_record (foldl feed new_records a)) as [|c r] eqn:E; [rewrite len_nil; unfold LOG_RECORD_FALLBACK_BYTES; lia|].
  rewrite <- E. destruct (current_in_records b (foldl feed new_records a)) as (r' & Hr & [k ->]); [by rewrite E|].
  rewrite Forall_forall in Hall. specialize (Hall _ Hr). cbn in Hall. rewrite len_app in Hall. lia.
Qed.

(** ** Pages of records *)

Lemma push_all offset limit rs p :
  Forall (λ r, r ≠ []) rs → pg_total p + len rs <= u64_max → pg_offset p = offset → pg_end p = u64_sat_add offset limit →
  foldl push p rs = mk_page offset (pg_end p) (pg_total p + len rs)
    (pg_records p ++ map utf8_lossy (take (N.to_nat (offset + limit - N.max offset (pg_total p)))
      (drop (N.to_nat (offset - pg_total p)) rs))).
Proof.
  revert p. induction rs as [|r rs IH]; intros p Hne Hmax Ho He.
  { cbn [foldl]. rewrite drop_nil, take_nil. destruct p. cbn in *. subst. by rewrite len_nil, N.add_0_r, app_nil_r. }
  inversion_clear Hne as [|?? Hr Hrs]. rewrite len_cons in Hmax. cbn [foldl].
  assert (∀ p', push p r = p' → pg_total p' = pg_total p + 1 ∧ pg_offset p' = offset ∧ pg_end p' = pg_end p) as Hp.
  { intros p' <-. destruct r; [done|]. by rewrite <- Ho. }
  destruct (Hp _ eq_refl) as (Ht & Ho' & He'). rewrite IH by (done || lia || congruence).
  rewrite Ht, He', len_cons. f_equal; [lia|].
  assert (pg_records (push p r) = pg_records p ++
    (if (offset <=? pg_total p) && (pg_total p <? offset + limit) then [utf8_lossy r] else [])) as ->.
  { destruct r as [|b r]; [done|]. cbn [push pg_records]. rewrite Ho, He. unfold u64_sat_add.
    destruct (N.leb_spec offset (pg_total p)); cbn [andb]; [|by rewrite app_nil_r].
    destruct (N.ltb_spec (pg_total p) (offset + limit)).
    - ltb_to true. done.
    - ltb_to false. by rewrite app_nil_r. }
  rewrite <- app_assoc. f_equal. destruct (N.leb_spec offset (pg_total p)); cbn [andb].
  - replace (N.to_nat (offset - (pg_total p + 1))) with 0%nat by lia.
    replace (N.to_nat (offset - pg_total p)) with 0%nat by lia. rewrite !drop_0.
    rewrite !N.max_r by lia. destruct (N.ltb_spec (pg_total p) (offset + limit)).
    + replace (N.to_nat (offset + limit - pg_total p)) with (S (N.to_nat (offset + limit - (pg_total p + 1)))) by lia. done.
    + replace (N.to_nat (offset + limit - (pg_total p + 1))) with 0%nat by lia.
      replace (N.to_nat (offset + limit - pg_total p)) with 0%nat by lia. done.
  - replace (N.to_nat (offset - pg_total p)) with (S (N.to_nat (offset - (pg_total p + 1)))) by lia.
    rewrite !N.max_l by lia. done.
Qed.

Lemma page_of offset limit rs :
  Forall (λ r, r ≠ []) rs → len rs <= u64_max →
  finish_page (foldl push (new_page offset limit) rs)
  = (map utf8_lossy (take (N.to_nat limit) (drop (N.to_nat offset) rs)), len rs).
Proof.
  intros Hne Hmax. rewrite (push_all offset limit); [|done|done|done|done].
  unfold finish_page, new_page. cbn [pg_records pg_total app]. 
  rewrite N.add_0_l, N.sub_0_r, N.max_l by lia. by replace (offset + limit - offset) with limit by lia.
Qed.

(** ** Reading the journal *)

Section Reading.
Context `{Crc32Fast, !Crc32FastLaws, Base64} (now : N).
Context (d : Dir) (incarnation : N) (rss : list (list Rec)) (tail : bytes).
Hypothesis Hd : holds d incarnation rss tail.

(** A reader that has delivered [out]: what it holds back is the rest of what
    the records it has read show. *)
Record reader_at (rd : ReplayReader) (out : bytes) (seen later : list Rec) : Prop := {
  ra_records : concat rss = seen ++ later;
  ra_stream : ∃ stream, rr_stream rd = Some stream ∧ at_pos incarnation rss stream later
    ∧ (sm_done stream = true → later = []);
  ra_carried : pending (rr_scanner rd) = (shown [] seen).1;
  ra_shown : out ++ rr_pending rd = display_stream seen;
  ra_done : rr_done rd = true → later = [];
}.

(** The records seen end in some that show nothing. *)
Definition ends_quiet (seen : list Rec) : Prop :=
  ∃ before quiet, seen = before ++ quiet ∧ quiet ≠ [] ∧ display_stream before = display_stream seen.

Lemma queue_outputs rs sc p :
  let '(sc', p') := foldl (queue_output now) (sc, p) rs in
  pending sc' = (shown (pending sc) rs).1 ∧ p' = p ++ (shown (pending sc) rs).2.
Proof.
  revert sc p. induction rs as [|r rs IH]; intros sc p; cbn [foldl shown]; [by rewrite app_nil_r|].
  unfold queue_output at 2. case_bool_decide; [|apply IH].
  cbn [fst snd]. rewrite (scan_display now). destruct (scan false now sc (rec_payload r)) as [sc1 o].
  cbn [fst snd]. specialize (IH sc1 (p ++ filtered o)). destruct (foldl _ _ rs) as [sc' p'].
  destruct (shown (pending sc1) rs) as [c rest]. cbn [fst snd] in *. destruct IH as [-> ->]. by rewrite app_assoc.
Qed.

Lemma fill_spec rd out seen later :
  reader_at rd out seen later → rr_pending rd = [] →
  ∃ rd' seen' later', fill now d rd = Some (rd', Ok ()) ∧ reader_at rd' out seen' later'
    ∧ (rr_pending rd' = [] → later' = [] ∨ ends_quiet seen').
Proof.
  intros [Hr (stream & Hs & Hat & Hdone) Hc Hsh Hrd] Hp. unfold fill. rewrite Hp. change (len [] =? 0) with true.
  cbn [negb orb]. rewrite orb_false_r. destruct (rr_done rd) eqn:Ed.
  { exists rd, seen, later. split_and!; [done| |by left; auto]. split; eauto. }
  rewrite Hs. destruct (next_batch_spec d incarnation rss tail stream later REPLAY_BATCH_BYTES Hd Hat Hdone)
    as (s1 & batch & rest & -> & -> & Hat1 & _ & Hdone1 & Hempty).
  cbn [mbind option_bind]. destruct batch as [|r batch].
  - rewrite (Hdone1 (Hempty eq_refl)) in *. eexists _, seen, []. split_and!; [done| |by left].
    split; cbn; eauto 6. by rewrite Hp in Hsh.
  - cbv beta iota. set (rs := r :: batch) in *. assert (rs ≠ []) as Hne by done. clearbody rs.
    pose proof (queue_outputs rs (rr_scanner rd) []) as Hq.
    destruct (foldl _ _ rs) as [sc p]. destruct Hq as [Hsc ->]. rewrite Hc in Hsc.
    assert (display_stream (seen ++ rs) = display_stream seen ++ (shown (shown [] seen).1 rs).2
      ∧ (shown [] (seen ++ rs)).1 = (shown (shown [] seen).1 rs).1) as [Hds Hdc].
    { unfold display_stream. rewrite shown_app. destruct (shown [] seen) as [c1 o1]. cbn [fst snd].
      by split; destruct (shown c1 rs). }
    eexists _, (seen ++ rs), rest. split_and!; [done| |].
    + split; cbn [rr_stream rr_scanner rr_pending rr_done].
      * by rewrite <- app_assoc.
      * eauto.
      * by rewrite Hsc, Hdc.
      * rewrite Hp, app_nil_r in Hsh. cbn [app]. by rewrite Hsh, Hds, Hc.
      * congruence.
    + cbn [rr_pending app]. intros Hn. right. exists seen, rs. split_and!; [done|done|].
      by rewrite Hds, <- Hc, Hn, app_nil_r.
Qed.

Lemma read_spec rd out seen later n :
  0 < n → reader_at rd out seen later →
  ∃ rd' chunk seen' later', read now d n rd = Some (rd', Ok chunk) ∧ reader_at rd' (out ++ chunk) seen' later'
    ∧ (chunk = [] → out = display_stream seen' ∧ (later' = [] ∨ ends_quiet seen')).
Proof.
  intros Hn Hat. unfold read.
  assert (∃ rd' seen' later', (if len (rr_pending rd) =? 0 then fill now d rd else Some (rd, Ok ())) = Some (rd', Ok ())
    ∧ reader_at rd' out seen' later' ∧ (rr_pending rd' = [] → later' = [] ∨ ends_quiet seen')) as (rd1 & seen1 & later1 & -> & Hat1 & Hq).
  { destruct (N.eqb_spec (len (rr_pending rd)) 0) as [Hz|Hz].
    - by apply (fill_spec rd out seen later Hat), len_0.
    - apply len_nonempty in Hz. exists rd, seen, later. by split_and!. }
  cbn [mbind option_bind]. set (k := N.to_nat _). eexists _, _, seen1, later1. split_and!; [done| |].
  - destruct Hat1. split; cbn; try done. by rewrite <- app_assoc, take_drop.
  - intros Ht. assert (rr_pending rd1 = []) as He.
    { destruct (rr_pending rd1) as [|b l] eqn:E; [done|]. exfalso. unfold k in Ht. rewrite len_cons in Ht.
      destruct (N.to_nat (N.min (len l + 1) n)) eqn:Ek; [lia|done]. }
    split; [|by auto]. rewrite <- (ra_shown _ _ _ _ Hat1), He. by rewrite app_nil_r.
Qed.

(** The scanner of a whole reading is given what records up to some point
    show, in buffers; the point is the end, or follows records that show
    nothing. *)
Lemma reader_spec fuel rd out seen later s :
  reader_at rd out seen later → (length (display_stream (concat rss)) < fuel + length out)%nat →
  ∃ chunks seen' later', process_persisted_log_reader now fuel d rd s = Some (Ok (foldl (λ s c, process_bytes c s) s chunks))
    ∧ concat rss = seen' ++ later' ∧ out ++ concat chunks = display_stream seen' ∧ (later' = [] ∨ ends_quiet seen').
Proof.
  revert rd out seen later s. induction fuel as [|fuel IH]; intros rd out seen later s Hat Hf.
  { exfalso. destruct Hat as [Hr _ _ Hsh _]. cut (length out <= length (display_stream (concat rss)))%nat; [lia|].
    rewrite Hr. unfold display_stream in *. rewrite shown_app. destruct (shown [] seen) as [c1 o1], (shown c1 later).
    cbn [snd] in *. rewrite <- Hsh, !length_app. lia. }
  destruct (read_spec rd out seen later DEFAULT_BUF_SIZE ltac:(by vm_compute) Hat) as (rd1 & chunk & seen1 & later1 & Hr & Hat1 & Hq).
  cbn [process_persisted_log_reader]. rewrite Hr. cbn [mbind option_bind]. destruct chunk as [|b chunk].
  - destruct (Hq eq_refl) as [Ho Hend]. exists [], seen1, later1. split_and!; [done|by destruct Hat1|by rewrite app_nil_r|done].
  - set (c := b :: chunk) in *. destruct (IH rd1 (out ++ c) seen1 later1 (process_bytes c s) Hat1) as (chunks & seen2 & later2 & Hp & Hc & Ho & Hend).
    { rewrite length_app. subst c. cbn. lia. }
    exists (c :: chunks), seen2, later2. split_and!; [|done| |done].
    + rewrite Hp. done.
    + cbn [concat]. by rewrite app_assoc.
Qed.
End Reading.

Section PageTheorems.
Context `{Crc32Fast, !Crc32FastLaws, Base64} (now : N).

(** Pages tile the records, and the records are the stream.  On a
    journal that can be read, every page request is answered from one list of
    records, none of them empty, whose bytes put together are exactly what the
    journal's records up to some point show: the page holds the records from
    [offset] on, at most [limit], and the total is their number.  When none of
    the records that the stream divides into byte by byte is longer than the
    fallback size, the list is that division, however the buffers cut the
    stream.  The point is the end of the journal, unless the records before it
    end in some that show nothing. *)
Theorem log_pages_tile d incarnation rss tail output_log fuel :
  holds d incarnation rss tail → latest_incarnation d = Some incarnation →
  len (display_stream (concat rss)) <= u64_max → (length (display_stream (concat rss)) < fuel)%nat →
  ∃ seen later records, concat rss = seen ++ later ∧ (later = [] ∨ ends_quiet seen)
    ∧ concat records = display_stream seen ∧ Forall (λ r, r ≠ []) records
    ∧ (Forall (λ r, len r <= LOG_RECORD_FALLBACK_BYTES) (log_records (display_stream seen)) →
       records = log_records (display_stream seen))
    ∧ ∀ offset limit, read_persisted_log_page now fuel (Some d) output_log offset limit
        = Some (Page (map utf8_lossy (take (N.to_nat limit) (drop (N.to_nat offset) records))) (len records)).
Proof.
  intros Hd Hi Hmax Hf. destruct (resumes_open d incarnation rss tail Hd) as (stream & Ho & Hat & Hdone & _).
  assert (reader_at incarnation rss (mk_reader (Some stream) new_scanner [] false) [] [] (concat rss)) as Hra.
  { split; cbn; try done. exists stream. by rewrite Hdone. }
  destruct (reader_spec now d incarnation rss tail Hd fuel _ _ _ _ new_records Hra) as (chunks & seen & later & Hp & Hc & Hs & Hend); [cbn; lia|].
  cbn [app] in Hs. set (s := foldl (λ s c, process_bytes c s) new_records chunks) in *.
  destruct (took_trans (process_chunks_took chunks new_records) (took_finish _)) as [Hcon Hfill]. fold s in Hcon, Hfill.
  assert (concat (on_record (finish s)) = display_stream seen) as Hcat.
  { rewrite <- Hs. transitivity (contents (finish s)); [|by rewrite Hcon, app_nil_r].
    unfold contents, finish, flush_current_record. cbn [current_record pending_escape on_record].
    destruct (current_record s ++ pending_escape s) eqn:E; cbn [current_record pending_escape on_record].
    - by rewrite ?app_nil_r.
    - by rewrite ?concat_app, ?app_nil_r; cbn; rewrite ?app_nil_r. }
  assert (Forall (λ r, r ≠ []) (on_record (finish s))) as Hne by (apply Hfill; constructor).
  exists seen, later, (on_record (finish s)). split_and!; [done|done|done|done| |].
  - intros Hshort. unfold log_records. unfold s. rewrite process_chunks_short, Hs; [done|].
    rewrite Hs. by apply short_of_records.
  - intros offset limit. unfold read_persisted_log_page, new_reader. rewrite Hi, Ho.
    cbn [mbind result_bind]. unfold scan_persisted_log_records. rewrite Hp. cbn [mbind option_bind result_bind].
    rewrite page_of; [done|done|].
    assert (∀ rs : list bytes, Forall (λ r, r ≠ []) rs → len rs <= len (concat rs)) as Hcount.
    { induction 1 as [|r rs Hr Hrs IH]; [done|]. cbn [concat]. rewrite len_cons, len_app.
      apply len_nonempty in Hr. lia. }
    specialize (Hcount _ Hne). rewrite Hcat in Hcount.
    enough (len (display_stream seen) <= len (display_stream (concat rss))) by lia. rewrite Hc.
    unfold display_stream. rewrite shown_app. destruct (shown [] seen) as [c1 o1], (shown c1 later). cbn [snd].
    rewrite len_app. lia.
Qed.
End PageTheorems.

(** ** Where listings go wrong *)

#[local] Existing Instance no_base64.

(** A part that shows nothing hides the parts after it: the journal shows
    [hello], the listing is empty. *)
Lemma quiet_part_hides_log :
  read_persisted_log_page 0 100 (Some quiet_journal) false 0 10 = Some (Page [] 0)
  ∧ display_stream (concat quiet_rss) = bs "hello".
Proof. by vm_compute. Qed.

(** A character split between two buffers, in a line longer than a record,
    becomes two replacement characters. *)
Lemma buffers_split_characters :
  let line := repeat x61 8191 ++ [xc3; xa9] ++ repeat x62 2048 in
  let n := N.to_nat DEFAULT_BUF_SIZE in
  let cut := λ chunks, map utf8_lossy (on_record (finish (foldl (λ s c, process_bytes c s) new_records chunks))) in
  utf8_valid line = true
  ∧ concat (cut [line]) = line
  ∧ concat (cut [take n line; drop n line]) = repeat x61 8191 ++ REPLACEMENT ++ REPLACEMENT ++ repeat x62 2048.
Proof. by vm_compute. Qed.

(** ** Witness *)

Definition log_rss : list (list Rec) :=
  [[mk_record Output 1 0 (bs "one" ++ [x0a] ++ bs "two" ++ x1b :: bs "[2Jthree"); mk_record Output 2 5 [x0d; x0a]]].
Definition log_journal : Dir :=
  {[ segment_path 7 1 := encode_records (default [] (log_rss !! 0%nat)) ]}.

Lemma log_holds : holds log_journal 7 log_rss [].
Proof.
  split; [done|by vm_compute| |by repeat (constructor; [split_and!; by vm_compute|])|by vm_compute|by left].
  intros i rs Hi. destruct i as [|i]; [injection Hi as <-; by vm_compute|done].
Qed.

Lemma log_pages_tile_witness :
  ∃ seen later records, concat log_rss = seen ++ later
    ∧ concat records = display_stream seen
    ∧ read_persisted_log_page 0 100 (Some log_journal) false 1 2
      = Some (Page (map utf8_lossy (take 2 (drop 1 records))) (len records))
    ∧ read_persisted_log_page 0 100 (Some log_journal) false 1 2
      = Some (Page [bs "two"; x1b :: bs "[2Jthree" ++ [x0d]] 4).
Proof.
  assert (read_persisted_log_page 0 100 (Some log_journal) false 1 2
      = Some (Page [bs "two"; x1b :: bs "[2Jthree" ++ [x0d]] 4)) as H4 by by vm_compute.
  destruct (log_pages_tile 0 log_journal 7 log_rss [] false 100 log_holds) as (seen & later & records & H1 & _ & H2 & _ & _ & H3);
    [by vm_compute|by vm_compute|vm_compute; lia|].
  exists seen, later, records. exact (conj H1 (conj H2 (conj (H3 1 2) H4))).
Defined.
