(* ===== verification/LogTail.v ===== *)
(** * Log tails

    [src/src/session/logs/render.rs] and the tail windows of
    [src/src/session/logs/index.rs]: the last lines of a session's display
    stream, the resizes that go with them, and the rows of a replayed screen as
    [oly logs] prints them.  The terminal engine is an interface.  The theorems
    say that a tail read from checkpoints is the tail of the whole stream, that
    the resize history is cut to its bound without losing the geometry the
    tail starts with, that the engine is fed the stream whole and resized where
    the recording was, and which rows get printed. *)

From S2P Require Import Prelude Crc Utf8 Text RecordFormat SegmentScan Disk Manifest Open Retention.
From S2P Require Import Stream ProgramStatus Signals Scanner Replay LogRecords.

Definition PARSER_COLS : N := 2000.
Definition DEFAULT_ALT_SCREEN_ROWS : N := 24.
Definition MAX_LOG_RESIZE_EVENTS : N := 64.

Record ViewportSize := mk_viewport { vp_rows : N; vp_cols : N }.

Record ViewportReplayPlan := mk_plan {
  vr_initial : option LogResize;
  vr_resizes : list LogResize;
}.
Definition no_plan : ViewportReplayPlan := mk_plan None [].

(** ** Tail windows *)

(** The bytes after the [wanted]-th line end, counted from the end of the
    reversed bytes [r]: how many they are. *)
Fixpoint window_from_end (r : bytes) (wanted : N) : option nat :=
  match r with
  | [] => None
  | b :: r =>
      if b =b x0a then
        if wanted <=? 1 then Some 0%nat else S <$> window_from_end r (wanted - 1)
      else S <$> window_from_end r wanted
  end.

Definition lines_needed (l : bytes) (tail : N) : N :=
  u64_sat_add (N.max (N.min (tail * 2) u64_max) 100)
    (if bool_decide (last l = Some x0a) then 1 else 0).

(** [tail_window_bytes]: the window and where it starts. *)
Definition tail_window_bytes (l : bytes) (tail : N) : bytes * N :=
  match l with
  | [] => ([], 0)
  | _ =>
      match window_from_end (rev l) (lines_needed l tail) with
      | Some k => (drop (length l - k) l, len l - N.of_nat k)
      | None => (l, 0)
      end
  end.

Fixpoint plan_events (events : list LogResize) (start_offset end_offset : N) (plan : ViewportReplayPlan)
    : ViewportReplayPlan :=
  match events with
  | [] => plan
  | event :: events =>
      if lr_offset event <=? start_offset then
        plan_events events start_offset end_offset (mk_plan (Some event) (vr_resizes plan))
      else if lr_offset event <=? end_offset then
        plan_events events start_offset end_offset (mk_plan (vr_initial plan)
          (vr_resizes plan ++ [mk_resize (lr_offset event - start_offset) (lr_rows event) (lr_cols event)]))
      else plan
  end.
Definition viewport_resize_plan (events : list LogResize) (start_offset end_offset : N) : ViewportReplayPlan :=
  plan_events events start_offset end_offset no_plan.

(** [slice::partition_point] of a partitioned slice. *)
Fixpoint partition_point {A} (p : A → bool) (l : list A) : nat :=
  match l with
  | x :: l => if p x then S (partition_point p l) else O
  | [] => O
  end.

Definition bound_resize_history (events : list LogResize) (start_offset end_offset : N) : list LogResize :=
  let events := List.filter (λ e, lr_offset e <=? end_offset) events in
  if len events <=? MAX_LOG_RESIZE_EVENTS then events
  else
    let first_after_start := partition_point (λ e, lr_offset e <=? start_offset) events in
    let initial := match first_after_start with O => None | S i => events !! i end in
    let keep_after_start :=
      N.min (MAX_LOG_RESIZE_EVENTS - (if initial then 1 else 0)) (len events - N.of_nat first_after_start) in
    let recent_start := N.to_nat (len events - keep_after_start) in
    match initial with Some i => [i] | None => [] end ++ drop recent_start events.

(** ** Tails of the journal *)

Record FilteredTail := mk_tail {
  ft_bytes : bytes;
  ft_start_offset : N;
  ft_end_offset : N;
  ft_resizes : list LogResize;
}.

(** [bytes.is_empty() && start > 0 && anchor.is_some()] and [accepted] of one
    candidate start. *)
Definition widen_for_payload (l : bytes) (start : N) (anchor : option CheckpointAnchor) : bool :=
  (len l =? 0) && (0 <? start) && (if anchor then true else false).
Definition accepted (tail_start from_offset : N) (anchor : option CheckpointAnchor) : bool :=
  (0 <? tail_start) || (if anchor then false else true) || (0 <? from_offset).

(** The resizes of a window that starts at [start_offset]. *)
Definition window_resizes (anchors : list CheckpointAnchor) (start_offset : N) (resizes : list LogResize)
    : list LogResize :=
  let resize_start :=
    match rfind (λ a, an_filtered_offset a <=? start_offset) anchors with
    | Some a => an_filtered_offset a
    | None => 0
    end in
  let resize_end := u64_sat_add start_offset MAX_RESIZE_EVENTS_SCAN_BYTES in
  List.filter (λ r, (resize_start <=? lr_offset r) && (lr_offset r <=? resize_end)) resizes.

(** How a tail read can end: the log of an old release, or the journal's
    error. *)
Inductive tail_error := te_old_format | te_journal (e : io_error_kind).

Section Tails.
Context `{Crc32Fast, Base64} (now : N).

(** The candidate starts in turn, and the fallback so far. *)
Fixpoint tail_candidates (fuel : nat) (d : Dir) (desired_tail_lines from_offset : N)
    (anchors : list CheckpointAnchor) (starts : list (option CheckpointAnchor))
    (fallback : option FilteredTail) : option (io_result (option FilteredTail)) :=
  match starts with
  | [] => Some (Ok fallback)
  | anchor :: starts =>
      r ← filtered_stream_and_resizes_from_anchor now fuel d from_offset anchor;
      match r with
      | Err e => Some (Err e)
      | Ok (collected, end_, resizes, start) =>
          let '(tail_bytes, tail_start) := tail_window_bytes collected desired_tail_lines in
          if widen_for_payload collected start anchor then
            tail_candidates fuel d desired_tail_lines from_offset anchors starts fallback
          else if accepted tail_start from_offset anchor then
            let start_offset := start + tail_start in
            let window := mk_tail tail_bytes start_offset end_ (window_resizes anchors start_offset resizes) in
            if (0 <? tail_start) || (start =? 0) then Some (Ok (Some window))
            else tail_candidates fuel d desired_tail_lines from_offset anchors starts (Some window)
          else tail_candidates fuel d desired_tail_lines from_offset anchors starts fallback
      end
  end.

(** [replay_filtered_tail] of a session directory with a journal or not. *)
Definition replay_filtered_tail (fuel : nat) (journal : option Dir) (desired_tail_lines : N)
    : option (result tail_error FilteredTail) :=
  let from_offset := 0 in
  match journal with
  | None => Some (Err te_old_format)
  | Some d =>
      let anchors := match replay_anchors d with Ok anchors => anchors | Err _ => [] end in
      let unbounded := (desired_tail_lines =? u64_max) || (desired_tail_lines =? 0) in
      let starts :=
        if unbounded || (0 <? from_offset)
        then map Some (List.filter (λ a, an_filtered_offset a <=? from_offset) (rev anchors))
        else map Some (rev anchors) in
      r ← tail_candidates fuel d desired_tail_lines from_offset anchors (starts ++ [None]) None;
      Some match r with
           | Err e => Err (te_journal e)
           | Ok (Some tail) => Ok tail
           | Ok None => Ok (mk_tail [] 0 0 [])
           end
  end.
End Tails.

(** ** What a window holds *)

Definition line_ends (l : bytes) : N := len (List.filter (λ b, b =b x0a) l).

(** The lines of a window; what follows the last line end is one. *)
Definition line_count (l : bytes) : N :=
  line_ends l + (if bool_decide (last l = Some x0a) then 0 else 1).

Lemma line_ends_cons b l : line_ends (b :: l) = (if b =b x0a then 1 else 0) + line_ends l.
Proof. unfold line_ends. cbn [List.filter]. destruct (b =b x0a); rewrite ?len_cons; lia. Qed.
Lemma line_ends_app l k : line_ends (l ++ k) = line_ends l + line_ends k.
Proof. induction l as [|b l IH]; [done|]. cbn [app]. rewrite !line_ends_cons, IH. lia. Qed.
Lemma line_ends_rev l : line_ends (rev l) = line_ends l.
Proof.
  induction l as [|b l IH]; [done|]. cbn [rev]. rewrite line_ends_app, IH, (line_ends_cons b []), (line_ends_cons b l).
  change (line_ends []) with 0. lia.
Qed.
Lemma line_ends_len l : line_ends l <= len l.
Proof. induction l as [|b l IH]; [done|]. rewrite line_ends_cons, len_cons. destruct (b =b x0a); lia. Qed.

Lemma window_some r wanted k :
  1 <= wanted → window_from_end r wanted = Some k →
  ∃ a b, r = a ++ x0a :: b ∧ length a = k ∧ line_ends a = wanted - 1.
Proof.
  revert wanted k. induction r as [|c r IH]; intros wanted k Hw; [done|]. cbn [window_from_end].
  destruct (c =b x0a) eqn:Ec.
  - apply byte_eqb_eq in Ec as ->. destruct (N.leb_spec wanted 1).
    + intros [= <-]. exists [], r. split_and!; [done|done|]. change (line_ends []) with 0. lia.
    + intros (j & Hj & ->)%fmap_Some. destruct (IH (wanted - 1) j) as (a & b & -> & <- & Ha); [lia|done|].
      exists (x0a :: a), b. rewrite line_ends_cons, byte_eqb_refl. split_and!; [done|done|lia].
  - intros (j & Hj & ->)%fmap_Some. destruct (IH wanted j) as (a & b & -> & <- & Ha); [done|done|].
    exists (c :: a), b. rewrite line_ends_cons, Ec. by split_and!.
Qed.

Lemma window_none r wanted : 1 <= wanted → window_from_end r wanted = None → line_ends r < wanted.
Proof.
  revert wanted. induction r as [|c r IH]; intros wanted Hw; cbn [window_from_end]; [change (line_ends []) with 0; lia|].
  rewrite line_ends_cons. destruct (c =b x0a).
  - destruct (N.leb_spec wanted 1); [done|]. intros Hn%fmap_None. specialize (IH (wanted - 1) ltac:(lia) Hn). lia.
  - intros Hn%fmap_None. specialize (IH wanted Hw Hn). lia.
Qed.

Lemma window_app r r' wanted k : window_from_end r wanted = Some k → window_from_end (r ++ r') wanted = Some k.
Proof.
  revert wanted k. induction r as [|c r IH]; intros wanted k; [done|]. cbn [app window_from_end].
  destruct (c =b x0a); [destruct (_ <=? _); [done|]|]; by intros (j & ->%IH & ->)%fmap_Some.
Qed.

Lemma lines_needed_pos l tail : 100 <= lines_needed l tail.
Proof. unfold lines_needed, u64_sat_add, u64_max. lia. Qed.

(** A window starts at the beginning or after a line end, and has the lines
    asked for or is everything. *)
Lemma tail_window_spec l tail :
  len l < u64_max → let '(window, start) := tail_window_bytes l tail in
  ∃ skipped, l = skipped ++ window ∧ start = len skipped
    ∧ (skipped = [] ∨ last skipped = Some x0a ∧ N.max (2 * tail) 100 <= line_count window).
Proof.
  intros Hl. unfold tail_window_bytes. destruct l as [|b0 l0]; [by exists []; auto|]. set (l := b0 :: l0) in *.
  assert (l ≠ []) as Hne by done. clearbody l.
  pose proof (lines_needed_pos l tail) as Hpos.
  destruct (window_from_end (rev l) (lines_needed l tail)) as [k|] eqn:Hw; [|by exists []; auto].
  apply window_some in Hw as (a & b & Hr & <- & Ha); [|lia].
  assert (l = rev b ++ x0a :: rev a) as Hlr.
  { rewrite <- (rev_involutive l), Hr, rev_app_distr. cbn [rev]. by rewrite <- app_assoc. }
  exists (rev b ++ [x0a]). assert (length l = length (rev b) + S (length a))%nat as Hlen
    by (rewrite Hlr, length_app; cbn; by rewrite !length_rev).
  replace (length l - length a)%nat with (length (rev b ++ [x0a])) by (rewrite length_app; cbn; lia).
  assert (l = (rev b ++ [x0a]) ++ rev a) as Hsplit by by rewrite <- app_assoc.
  assert (drop (length (rev b ++ [x0a])) l = rev a) as -> by by rewrite Hsplit at 1; rewrite drop_app_length.
  split_and!; [done| |].
  - unfold len. rewrite length_app. cbn. lia.
  - right. split; [by rewrite last_snoc|].
    assert (line_ends l = line_ends b + 1 + line_ends a) as Hc.
    { rewrite Hlr, line_ends_app, line_ends_cons, byte_eqb_refl, !line_ends_rev. lia. }
    pose proof (line_ends_len l) as Hle. unfold line_count. rewrite line_ends_rev.
    unfold lines_needed, u64_sat_add in Ha. destruct a as [|c a].
    + rewrite (bool_decide_eq_false_2 (last (rev []) = _)) by done.
      rewrite bool_decide_eq_true_2 in Ha by (rewrite Hlr; cbn [rev]; by rewrite last_snoc). change (line_ends (rev [])) with 0. change (line_ends []) with 0 in Ha. lia.
    + assert (last l = last (rev (c :: a))) as Hlast.
      { rewrite Hlr. cbn [rev]. by rewrite app_comm_cons, app_assoc, !last_snoc. }
      rewrite Hlast in Ha. destruct (bool_decide (last _ = _)); unfold u64_max in *; lia.
Qed.

(** The window of a stream is in its last part, when that has the lines. *)
Lemma tail_window_suffix x y tail :
  y ≠ [] → 0 < (tail_window_bytes y tail).2 →
  tail_window_bytes (x ++ y) tail = ((tail_window_bytes y tail).1, len x + (tail_window_bytes y tail).2).
Proof.
  intros Hy. unfold tail_window_bytes. destruct y as [|c y']; [done|]. set (y := c :: y') in *.
  assert (lines_needed (x ++ y) tail = lines_needed y tail) as Hn.
  { unfold lines_needed. rewrite last_app. subst y. by destruct (last (c :: y')) eqn:E; [|apply last_None in E]. }
  destruct (window_from_end (rev y) (lines_needed y tail)) as [k|] eqn:Hw; [|cbn; lia].
  cbn [fst snd]. intros Hpos. assert (x ++ y ≠ []) as Hne by (by destruct x).
  destruct (x ++ y) as [|d l] eqn:E; [done|]. rewrite <- E in *. clear E d l.
  rewrite Hn, rev_app_distr, (window_app _ _ _ _ Hw). rewrite length_app, len_app. f_equal.
  - replace (length x + length y - k)%nat with (length x + (length y - k))%nat by (unfold len in *; lia).
    rewrite drop_app. rewrite (drop_ge x) by lia. cbn [app]. f_equal. lia.
  - lia.
Qed.

(** ** Tails from checkpoints *)

Section TailTheorems.
Context `{Crc32Fast, !Crc32FastLaws, Base64} (now : N).

Lemma resize_history_app carried pos x y :
  resize_history carried pos (x ++ y)
  = resize_history carried pos x ++ resize_history (shown carried x).1 (pos + len (shown carried x).2) y.
Proof.
  revert carried pos. induction x as [|r x IH]; intros carried pos; cbn [app resize_history shown].
  { cbn [fst snd app]. by rewrite (@len_nil byte), N.add_0_r. }
  case_bool_decide.
  - destruct (display carried (rec_payload r)) as [c out]. rewrite IH. destruct (shown c x) as [c1 o1].
    cbn [fst snd]. by rewrite len_app, N.add_assoc.
  - by rewrite IH, app_assoc.
Qed.

Lemma resize_history_before carried pos rs :
  Forall (λ r, lr_offset r <= pos + len (shown carried rs).2) (resize_history carried pos rs).
Proof.
  revert carried pos. induction rs as [|r rs IH]; intros carried pos; cbn [resize_history shown]; [constructor|].
  case_bool_decide.
  - destruct (display carried (rec_payload r)) as [c out]. specialize (IH c (pos + len out)).
    destruct (shown c rs) as [c1 o1]. cbn [fst snd] in *. by rewrite len_app, N.add_assoc.
  - apply Forall_app. split; [|apply IH]. unfold resize_at. case_bool_decide; [|constructor].
    destruct (decode_resize_payload _) as [[rows cols]|]; repeat constructor. cbn. lia.
Qed.

(** A resize inside the window that starts at [start]. *)
Definition inside (start : N) (r : LogResize) : bool :=
  (start <? lr_offset r) && (lr_offset r <=? u64_sat_add start MAX_RESIZE_EVENTS_SCAN_BYTES).

Lemma window_resizes_inside anchors start resizes :
  List.filter (inside start) (window_resizes anchors start resizes) = List.filter (inside start) resizes.
Proof.
  unfold window_resizes. set (lo := match rfind _ anchors with Some a => _ | None => 0 end).
  assert (lo <= start) as Hlo.
  { unfold lo. destruct (rfind _ anchors) as [a|] eqn:E; [|lia]. apply rfind_spec in E as [_ E]. by apply N.leb_le. }
  induction resizes as [|r rs IH]; [done|]. cbn [List.filter].
  destruct ((lo <=? lr_offset r) && _) eqn:E; cbn [List.filter]; rewrite IH; [done|].
  destruct (inside start r) eqn:Ei; [|done]. unfold inside in Ei. bool_prop.
  apply andb_false_iff in E as [E|E]; bool_prop; lia.
Qed.

Lemma earlier_not_inside start rs :
  Forall (λ r, lr_offset r <= start) rs → List.filter (inside start) rs = [].
Proof.
  induction 1 as [|r rs Hr _ IH]; [done|]. cbn [List.filter]. unfold inside at 1. ltb_to false. done.
Qed.

(** The tail of the whole stream, with the transitions of its window. *)
Definition tail_of_stream (rs : list Rec) (tail : N) (t : FilteredTail) : Prop :=
  (ft_bytes t, ft_start_offset t) = tail_window_bytes (display_stream rs) tail
  ∧ ft_end_offset t = len (display_stream rs)
  ∧ List.filter (inside (ft_start_offset t)) (ft_resizes t)
    = List.filter (inside (ft_start_offset t)) (resize_history [] 0 rs).

Lemma tail_candidates_spec d incarnation rss tail fuel desired anchors all starts fallback :
  holds d incarnation rss tail → latest_incarnation d = Some incarnation → honest (concat rss) →
  len (display_stream (concat rss)) < u64_max → (length (concat rss) < fuel)%nat →
  replay_anchors d = Ok all → (∀ a, a ∈ starts → a ∈ all) →
  ∃ t, tail_candidates now fuel d desired 0 anchors (map Some starts ++ [None]) fallback = Some (Ok (Some t))
    ∧ tail_of_stream (concat rss) desired t.
Proof.
  intros Hd Hi Hh Hmax Hfuel Hall Hin. revert fallback.
  assert (∀ anchor, (∀ a, anchor = Some a → a ∈ all) →
    let pos0 := match anchor with Some a => an_filtered_offset a | None => 0 end in
    ∃ y rs, display_stream (concat rss) = y ++ drop (N.to_nat pos0) (display_stream (concat rss)) ∧ len y = pos0
      ∧ filtered_stream_and_resizes_from_anchor now fuel d 0 anchor
        = Some (Ok (drop (N.to_nat pos0) (display_stream (concat rss)), len (display_stream (concat rss)), rs, pos0))
      ∧ ∀ start, pos0 <= start →
          List.filter (inside start) rs = List.filter (inside start) (resize_history [] 0 (concat rss))) as Hone.
  { intros anchor Ha pos0. destruct (from_anchor_spec now d incarnation rss tail 0 anchor fuel all) as (before & after & Hc & Hlen & Hidle & Hf);
      [done..|lia|done|done|done|]. fold pos0 in Hlen, Hf. rewrite N.max_r in Hf by lia.
    assert (display_stream (concat rss) = display_stream before ++ display_stream after) as Hds.
    { rewrite Hc. unfold display_stream in *. rewrite shown_app. destruct (shown [] before) as [c o]. cbn [fst snd] in *.
      subst c. by destruct (shown [] after). }
    exists (display_stream before), (resize_history [] pos0 after). split_and!; [|done|done|].
    - rewrite Hds at 2. rewrite drop_len_app by done. done.
    - intros start Hs. rewrite Hc, resize_history_app, Hidle, N.add_0_l.
      change (shown [] before).2 with (display_stream before). rewrite Hlen, List.filter_app.
      rewrite (earlier_not_inside start (resize_history [] 0 before)); [done|].
      eapply Forall_impl; [apply resize_history_before|]. intros r. cbn.
      change (shown [] before).2 with (display_stream before). rewrite Hlen. lia. }
  induction starts as [|a starts IH]; intros fallback; cbn [map app tail_candidates].
  - destruct (Hone None) as (y & rs & _ & Hy & -> & Hrs); [done|]. cbv zeta in Hrs. apply len_0 in Hy. subst y.
    cbn [mbind option_bind N.to_nat]. rewrite drop_0. destruct (tail_window_bytes _ desired) as [w st] eqn:Hw.
    unfold widen_for_payload, accepted. rewrite !andb_false_r, orb_true_r. cbn [orb]. rewrite N.eqb_refl, orb_true_r.
    eexists. split; [done|]. unfold tail_of_stream. cbn [ft_bytes ft_start_offset ft_end_offset ft_resizes].
    rewrite N.add_0_l. split_and!; [done|done|]. rewrite window_resizes_inside. apply Hrs. lia.
  - destruct (Hone (Some a)) as (y & rs & Hy & Hlen & -> & Hrs); [intros ? [= <-]; apply Hin; by left|].
    cbv zeta in *. cbn [mbind option_bind]. set (rest := drop _ (display_stream (concat rss))) in *.
    destruct (tail_window_bytes rest desired) as [w st] eqn:Hw.
    assert (∃ t, tail_candidates now fuel d desired 0 anchors (map Some starts ++ [None]) fallback = Some (Ok (Some t))
      ∧ tail_of_stream (concat rss) desired t) as Hnext by (apply IH; intros; apply Hin; by right).
    destruct (widen_for_payload _ _ _); [done|]. unfold accepted. rewrite !orb_false_r.
    destruct (N.ltb_spec 0 st) as [Hst|Hst]; cbn [orb]; [|done].
    eexists. split; [done|]. unfold tail_of_stream. cbn [ft_bytes ft_start_offset ft_end_offset ft_resizes].
    assert (rest ≠ []) as Hne by (intros E; rewrite E in Hw; cbn in Hw; injection Hw as <- <-; lia).
    pose proof (tail_window_suffix y rest desired Hne) as Hsuf. rewrite Hw in Hsuf. cbn [fst snd] in Hsuf.
    rewrite <- Hy in Hsuf. rewrite Hsuf, Hlen by done. split_and!; [done|done|].
    rewrite window_resizes_inside. apply Hrs. lia.
Qed.

(** C27: A tail read from checkpoints is the tail of the whole stream.  On
    a journal whose checkpoints are honest, for any number of lines wanted,
    the read succeeds, its bytes are exactly the window a scan of the whole
    display stream from its end gives, at its true offset and with the true
    end, and its resizes within the 64 MiB from that offset on are the
    recording's; the window begins at the start of the stream or right after a
    line end, and then holds at least twice the lines wanted, and at least a
    hundred. *)
Theorem tail_is_exact d incarnation rss tail desired fuel anchors :
  holds d incarnation rss tail → latest_incarnation d = Some incarnation → honest (concat rss) →
  len (display_stream (concat rss)) < u64_max → (length (concat rss) < fuel)%nat →
  replay_anchors d = Ok anchors →
  let stream := display_stream (concat rss) in
  ∃ t, replay_filtered_tail now fuel (Some d) desired = Some (Ok t)
    ∧ tail_of_stream (concat rss) desired t
    ∧ ∃ skipped, stream = skipped ++ ft_bytes t ∧ ft_start_offset t = len skipped ∧ ft_end_offset t = len stream
      ∧ (skipped = [] ∨ last skipped = Some x0a ∧ N.max (2 * desired) 100 <= line_count (ft_bytes t)).
Proof.
  intros Hd Hi Hh Hmax Hfuel Hall stream.
  assert (∃ t, replay_filtered_tail now fuel (Some d) desired = Some (Ok t) ∧ tail_of_stream (concat rss) desired t) as (t & Hr & Ht).
  { unfold replay_filtered_tail. rewrite Hall. set (wanted := if _ || _ then _ else _).
    assert (∃ starts, wanted = map Some starts ∧ ∀ a, a ∈ starts → a ∈ anchors) as (starts & -> & Hin).
    { assert (∀ a, a ∈ rev anchors → a ∈ anchors) as Hrev by (intros a; rewrite !list_elem_of_In; apply in_rev).
      unfold wanted. destruct (_ || _); eexists; (split; [done|]); [|done].
      intros a. rewrite !list_elem_of_In, filter_In, <- !list_elem_of_In. intros [Ha _]. by apply Hrev. }
    destruct (tail_candidates_spec d incarnation rss tail fuel desired anchors anchors starts None) as (t & -> & Ht); [done..|].
    by exists t. }
  exists t. split_and!; [done|done|]. destruct Ht as (Hw & He & _).
  pose proof (tail_window_spec (display_stream (concat rss)) desired Hmax) as Hs. rewrite <- Hw in Hs.
  destruct Hs as (skipped & H1' & H2' & H3'). by exists skipped.
Qed.
End TailTheorems.

(** ** Bounding the resize history *)

Section Bounds.

(** The offsets of a history never go back. *)
Definition in_order (events : list LogResize) : Prop :=
  StronglySorted (λ a b, lr_offset a <= lr_offset b) events.

(** A history in order: up to the start, inside the window, and after it. *)
Lemma in_order_split events lo hi :
  in_order events → lo <= hi →
  ∃ x y z, events = x ++ y ++ z ∧ Forall (λ e, lr_offset e <= lo) x
    ∧ Forall (λ e, lo < lr_offset e <= hi) y ∧ Forall (λ e, hi < lr_offset e) z.
Proof.
  intros Hs Hle. induction Hs as [|e events _ (x & y & z & -> & Hx & Hy & Hz) He]; [by exists [], [], []|].
  destruct (N.le_gt_cases (lr_offset e) lo) as [H1|H1].
  { exists (e :: x), y, z. split_and!; [done|by constructor|done|done]. }
  assert (x = []) as ->.
  { destruct x as [|f x]; [done|]. inversion Hx; subst. inversion He; subst. lia. }
  destruct (N.le_gt_cases (lr_offset e) hi) as [H2|H2].
  { exists [], (e :: y), z. split_and!; [done|constructor|by constructor; [lia|]|done]. }
  assert (y = []) as ->.
  { destruct y as [|f y]; [done|]. inversion Hy; subst. inversion He; subst. lia. }
  exists [], [], (e :: z). split_and!; [done|constructor|constructor|by constructor].
Qed.

Definition rebase (start : N) (e : LogResize) : LogResize :=
  mk_resize (lr_offset e - start) (lr_rows e) (lr_cols e).

Lemma plan_split x y z lo hi :
  Forall (λ e, lr_offset e <= lo) x → Forall (λ e, lo < lr_offset e <= hi) y →
  Forall (λ e, hi < lr_offset e) z → lo <= hi →
  viewport_resize_plan (x ++ y ++ z) lo hi = mk_plan (last x) (map (rebase lo) y).
Proof.
  intros Hx Hy Hz Hle. unfold viewport_resize_plan.
  assert (∀ p, plan_events (x ++ y ++ z) lo hi p
    = plan_events (y ++ z) lo hi (mk_plan (if last x is Some e then Some e else vr_initial p) (vr_resizes p))) as ->.
  { induction Hx as [|e x He _ IH]; intros p; cbn [app plan_events]; [by destruct p|].
    leb_to true. rewrite IH. cbn [vr_initial vr_resizes]. f_equal. f_equal. destruct x; [done|]. by rewrite last_cons_cons; destruct (last _) eqn:E; [|apply last_None in E]. }
  cbn [no_plan vr_initial vr_resizes]. assert ((if last x is Some e then Some e else None) = last x) as -> by by destruct (last x).
  assert (∀ p, plan_events (y ++ z) lo hi p = plan_events z lo hi (mk_plan (vr_initial p) (vr_resizes p ++ map (rebase lo) y))) as ->.
  { induction Hy as [|e y He _ IH]; intros p; cbn [app plan_events map]; [rewrite app_nil_r; by destruct p|].
    leb_to false. leb_to true. rewrite IH. cbn [vr_initial vr_resizes]. by rewrite <- app_assoc. }
  cbn [vr_initial vr_resizes app]. inversion_clear Hz as [|e z' He]; [done|]. cbn [plan_events].
  leb_to false. leb_to false. done.
Qed.

Lemma filter_split x y z lo hi :
  Forall (λ e, lr_offset e <= lo) x → Forall (λ e, lo < lr_offset e <= hi) y →
  Forall (λ e, hi < lr_offset e) z → lo <= hi →
  List.filter (λ e, lr_offset e <=? hi) (x ++ y ++ z) = x ++ y.
Proof.
  intros Hx Hy Hz Hle. rewrite !List.filter_app.
  assert (List.filter (λ e, lr_offset e <=? hi) z = []) as ->.
  { induction Hz as [|e z He _ IH]; [done|]. cbn [List.filter]. leb_to false. done. }
  assert (∀ l, Forall (λ e, lr_offset e <= hi) l → List.filter (λ e, lr_offset e <=? hi) l = l) as Hall.
  { induction 1 as [|e l He _ IH]; [done|]. cbn [List.filter]. leb_to true. by rewrite IH. }
  rewrite app_nil_r. f_equal; apply Hall; eapply Forall_impl; try done; cbn; lia.
Qed.

Lemma partition_split x y lo :
  Forall (λ e, lr_offset e <= lo) x → (∀ e, head y = Some e → lo < lr_offset e) →
  partition_point (λ e, lr_offset e <=? lo) (x ++ y) = length x.
Proof.
  intros Hx Hy. induction Hx as [|e x He _ IH]; cbn [app partition_point length].
  - destruct y as [|e y]; [done|]. specialize (Hy e eq_refl). cbn [partition_point]. leb_to false. done.
  - leb_to true. by rewrite IH.
Qed.

(** The resize history that goes out with a tail is bounded and
    enough.  Of a history in order, at most 64 events are kept; the
    geometry in effect where the tail starts is the same as with the whole
    history, and the transitions replayed inside the tail are the same, or the
    newest 63 of them at least. *)
Theorem resize_history_bounded events lo hi :
  in_order events → lo <= hi →
  let bounded := bound_resize_history events lo hi in
  let whole := viewport_resize_plan events lo hi in
  let plan := viewport_resize_plan bounded lo hi in
  len bounded <= MAX_LOG_RESIZE_EVENTS ∧ vr_initial plan = vr_initial whole
  ∧ ∃ older, vr_resizes whole = older ++ vr_resizes plan
      ∧ (older = [] ∨ MAX_LOG_RESIZE_EVENTS - 1 <= len (vr_resizes plan)).
Proof.
  intros Hs Hle bounded whole plan. destruct (in_order_split events lo hi Hs Hle) as (x & y & z & -> & Hx & Hy & Hz).
  assert (whole = mk_plan (last x) (map (rebase lo) y)) as -> by by apply plan_split.
  assert (∀ x' y', last x' = last x → Forall (λ e, lr_offset e <= lo) x' → Forall (λ e, lo < lr_offset e <= hi) y' →
    viewport_resize_plan (x' ++ y') lo hi = mk_plan (last x) (map (rebase lo) y')) as Hplan.
  { intros x' y' <- Hx' Hy'. rewrite <- (app_nil_r y') at 1. by apply plan_split. }
  unfold plan, bounded, bound_resize_history. rewrite (filter_split x y z lo hi) by done.
  destruct (N.leb_spec (len (x ++ y)) MAX_LOG_RESIZE_EVENTS) as [Hb|Hb].
  { rewrite Hplan by done. split_and!; [done|done|]. exists []. split; [done|by left]. }
  rewrite partition_split; [|done|intros e He; destruct y as [|f y]; [done|]; injection He as ->; by inversion Hy; lia].
  set (initial := match length x with O => None | S i => (x ++ y) !! i end).
  assert (initial = last x) as ->.
  { unfold initial. rewrite last_lookup. destruct x as [|f x]; [done|]. cbn [length pred]. apply lookup_app_l. cbn. lia. }
  rewrite (len_app x y) in *. set (keep := N.min (MAX_LOG_RESIZE_EVENTS - (if last x then 1 else 0)) (len x + len y - N.of_nat (length x))).
  assert (keep <= len y) as Hk by (unfold keep, len; lia).
  assert (drop (N.to_nat (len x + len y - keep)) (x ++ y) = drop (N.to_nat (len y - keep)) y) as ->.
  { rewrite drop_app. rewrite (drop_ge x) by (unfold len in *; lia). cbn [app]. f_equal. unfold len in *. lia. }
  set (recent := drop _ y). assert (len recent = keep) as Hlr by (unfold recent; rewrite len_drop; lia).
  set (front := match last x with Some i => [i] | None => [] end).
  assert (last front = last x ∧ Forall (λ e, lr_offset e <= lo) front ∧ len front = if last x then 1 else 0) as (Hf1 & Hf2 & Hf3).
  { unfold front. destruct (last x) as [i|] eqn:E; [|done]. split_and!; [done| |done]. constructor; [|constructor].
    apply last_Some in E as [x' ->]. apply Forall_app in Hx as [_ Hx]. by inversion Hx. }
  rewrite Hplan; [|done|done|by apply Forall_drop]. cbn [vr_initial vr_resizes]. split_and!; [|done|].
  - rewrite len_app, Hf3, Hlr. unfold keep, MAX_LOG_RESIZE_EVENTS. destruct (last x); lia.
  - exists (map (rebase lo) (take (N.to_nat (len y - keep)) y)). split.
    + unfold recent. by rewrite <- map_app, take_drop.
    + rewrite len_map, Hlr. destruct (N.eq_dec keep (len y)) as [->|Hne]; [left; by rewrite N.sub_diag|right].
      assert (keep = MAX_LOG_RESIZE_EVENTS - (if last x then 1 else 0)) as -> by (unfold keep, len in *; lia).
      unfold MAX_LOG_RESIZE_EVENTS. destruct (last x); lia.
Qed.
End Bounds.

(** ** Rows of a screen *)

Definition truncate_chars (text : bytes) (max : N) : bytes :=
  match utf8_decode text with
  | Some cs => utf8_encode (take (N.to_nat max) cs)
  | None => text
  end.

(** The loop of [trim_styled_row_end] on what is left of the row at [index]:
    where the content ends.  Every turn takes a byte. *)
Fixpoint styled_content_end (fuel : nat) (rest : bytes) (index last_content_end : nat) : nat :=
  match fuel with
  | O => last_content_end
  | S fuel =>
      match rest with
      | [] => last_content_end
      | b :: rest1 =>
          if starts_with [x1b; x5b] rest then
            let params := (span (λ c, negb (in_byte_range x40 x7e c)) (drop 2 rest)).1 in
            let step := (2 + length params + 1)%nat in
            styled_content_end fuel (drop step rest) (index + step)%nat last_content_end
          else
            styled_content_end fuel rest1 (S index)
              (if is_ascii_whitespace b then last_content_end else S index)
      end
  end.
Definition trim_styled_row_end (row : bytes) : bytes :=
  take (styled_content_end (length row) row 0 0) row.

Definition row_is_blank (row : bytes) : bool := len (trim_styled_row_end row) =? 0.

Definition trim_row_end (row : bytes) (keep_color : bool) : bytes :=
  if keep_color then trim_styled_row_end row else rev (trim_start is_ascii_whitespace (rev row)).

(** [position] and [rposition]. *)
Fixpoint position {A} (p : A → bool) (l : list A) : option nat :=
  match l with
  | [] => None
  | x :: l => if p x then Some O else S <$> position p l
  end.
Definition rposition {A} (p : A → bool) (l : list A) : option nat :=
  i ← position p (rev l); Some (length l - 1 - i)%nat.

Definition content_bounds (rows : list bytes) : option (nat * nat) :=
  first ← position (λ row, negb (row_is_blank row)) rows;
  Some (first, default first (rposition (λ row, negb (row_is_blank row)) rows)).

(** [rows[a..b]]. *)
Definition rows_from {A} (a b : nat) (rows : list A) : list A := take (b - a) (drop a rows).

(** Does a block from [first_content] on repeat what follows the blank row at
    [split]? *)
Definition repeats_before (rows : list bytes) (first_content last_content split : nat) : bool :=
  match rows !! split with
  | Some row =>
      if negb (row_is_blank row) then false
      else
        let suffix_start := S split in
        if (last_content <? suffix_start)%nat then false
        else
          let suffix := rows_from suffix_start (S last_content) rows in
          if (length suffix <? 2)%nat then false
          else
            existsb (λ candidate_start,
              let candidate_end := (candidate_start + length suffix)%nat in
              (candidate_end <=? split)%nat
              && bool_decide (rows_from candidate_start candidate_end rows = suffix))
              (seq first_content (split - first_content))
  | None => false
  end.

Definition trim_repeated_trailing_suffix (rows : list bytes) (first_content last_content : nat) : nat :=
  match find (repeats_before rows first_content last_content)
          (rev (seq (S first_content) (last_content - first_content))) with
  | Some split => (split - 1)%nat
  | None => last_content
  end.

Definition color_reset (keep_color : bool) : bytes :=
  if keep_color then OUTPUT_COLOR_RESET_SUFFIX else [].

Definition output_row (keep_color : bool) (row : bytes) : bytes :=
  trim_row_end row keep_color ++ (if keep_color then x1b :: bs "[0m" else []) ++ [x0a].

Definition format_rows_for_output (rows : list bytes) (keep_color : bool) : bytes :=
  match rows with
  | [] => color_reset keep_color
  | _ =>
      let '(first_content, last_content) := default (O, O) (content_bounds rows) in
      let last_content := trim_repeated_trailing_suffix rows first_content last_content in
      concat (map (output_row keep_color) (rows_from first_content (S last_content) rows))
        ++ color_reset keep_color
  end.

(** The rows a tail shows before they are formatted: the last [tail] of those
    between the first and the last that are not blank. *)
Definition finish_render (content_rows : list bytes) (tail : N) (keep_color : bool) : bytes :=
  let rows :=
    match content_bounds content_rows with
    | Some (first, last) =>
        let visible_rows := rows_from first (S last) content_rows in
        drop (N.to_nat (len visible_rows - tail)) visible_rows
    | None => []
    end in
  format_rows_for_output rows keep_color.

Definition format_history_rows (rows : list bytes) : option bytes :=
  '(first, last) ← content_bounds rows;
  Some (format_rows_for_output (rows_from first (S last) rows) true).

(** ** Frames *)

(** Where a slice occurs, in order. *)
Fixpoint subslice_positions (needle haystack : bytes) (index : N) : list N :=
  match haystack with
  | [] => []
  | _ :: rest =>
      (if starts_with needle haystack then [index] else []) ++ subslice_positions needle rest (index + 1)
  end.
Definition extend_subslice_positions (haystack needle : bytes) (starts : list N) : list N :=
  if (len needle =? 0) || (len haystack <? len needle) then starts
  else starts ++ subslice_positions needle haystack 0.

Definition esc (s : bytes) : bytes := x1b :: s.

Definition contains_alt_screen (l : bytes) : bool :=
  existsb (λ needle, match subslice_positions (esc needle) l 0 with [] => false | _ => true end)
    [bs "[?1049h"; bs "[?1049l"; bs "[?1047h"; bs "[?1047l"].

Definition frame_needles : list bytes :=
  [esc (bs "[H") ++ esc (bs "[2J"); esc (bs "[2J") ++ esc (bs "[H"); esc (bs "[?1049h");
   esc (bs "[?1047h"); esc (bs "[?1049l"); esc (bs "[?1047l")].

(** [Vec::dedup]. *)
Fixpoint dedup_runs (l : list N) : list N :=
  match l with
  | x :: rest =>
      match rest with
      | y :: _ => if x =? y then dedup_runs rest else x :: dedup_runs rest
      | [] => [x]
      end
  | [] => []
  end.

Definition frame_start_offsets (l : bytes) : list N :=
  dedup_runs (sort_by_key (λ i, i)
    (foldl (λ starts needle, extend_subslice_positions l needle starts) [] frame_needles)).

(** The frames from each start to the next, oldest first. *)
Fixpoint frames_between (l : bytes) (starts : list N) : list bytes :=
  match starts with
  | [] => []
  | start :: rest =>
      let end_ := match rest with next :: _ => next | [] => len l end in
      (if start <? end_ then [slice start end_ l] else []) ++ frames_between l rest
  end.

Definition frame_segments (l : bytes) : list bytes :=
  match frame_start_offsets l with
  | [] => [l]
  | starts => match rev (frames_between l starts) with [] => [l] | frames => frames end
  end.

Record RenderBytes := mk_render_bytes {
  frame : bytes;
  frame_has_alt_screen : bool;
}.

Definition prepare_render_bytes (l : bytes) : list RenderBytes :=
  if negb (contains_alt_screen l) then [mk_render_bytes l false]
  else map (λ f, mk_render_bytes f (contains_alt_screen f)) (frame_segments l).

(** ** The screen to replay on *)

Definition parse_csi_number (l : bytes) : option N :=
  match l with
  | [] => None
  | b :: _ =>
      if b =b x3f then None
      else
        let digits := (span is_ascii_digit l).1 in
        match digits with [] => None | _ => parse_unsigned u16_max digits end
  end.

Definition extract_absolute_row (params : bytes) (final_byte : byte) : option N :=
  if (final_byte =b x48) || (final_byte =b x66) then parse_csi_number (default [] (head (split_on x3b params)))
  else if final_byte =b x64 then parse_csi_number params
  else None.

(** The loop of [estimate_alt_screen_rows] on what is left at [index]; every
    turn takes a byte. *)
Fixpoint max_absolute_row (fuel : nat) (rest : bytes) (max_row : N) : N :=
  match fuel with
  | O => max_row
  | S fuel =>
      if len rest <=? 2 then max_row
      else if negb (starts_with [x1b; x5b] rest) then max_absolute_row fuel (drop 1 rest) max_row
      else
        let '(params, after) := span (λ c, negb (in_byte_range x40 x7e c)) (drop 2 rest) in
        match after with
        | [] => max_row
        | final_byte :: after =>
            max_absolute_row fuel after
              (match extract_absolute_row params final_byte with
               | Some row => N.max max_row row
               | None => max_row
               end)
        end
  end.

Definition estimate_alt_screen_rows (l : bytes) : option N :=
  let max_row := max_absolute_row (length l) l 0 in
  if max_row =? 0 then None else Some (N.max max_row DEFAULT_ALT_SCREEN_ROWS).

(** [or_else]. *)
Definition or_else {A} (a b : option A) : option A := match a with Some _ => a | None => b end.

Definition parser_rows (l : bytes) (has_alt_screen : bool) (tail : N) (viewport : option ViewportSize)
    (plan : ViewportReplayPlan) : N :=
  if has_alt_screen then
    default DEFAULT_ALT_SCREEN_ROWS
      (or_else (lr_rows <$> vr_initial plan)
        (or_else (vp_rows <$> viewport)
          (or_else (lr_rows <$> head (vr_resizes plan)) (estimate_alt_screen_rows l))))
  else N.min (N.max (u64_sat_add tail 1) 1) u16_max.

Definition parser_cols (has_alt_screen : bool) (term_cols : N) (viewport : option ViewportSize)
    (plan : ViewportReplayPlan) : N :=
  if has_alt_screen then
    default (N.max term_cols 1)
      (or_else (lr_cols <$> vr_initial plan)
        (or_else (vp_cols <$> viewport) (lr_cols <$> head (vr_resizes plan))))
  else PARSER_COLS.

(** ** Replaying on the engine *)

(** The calls of a replay on [Terminal]; [rt_feed] is [feed] with the events
    drained and dropped. *)
Class ReplayTerminal := {
  terminal : Type;
  rt_new : N → N → N → terminal;
  rt_feed : bytes → terminal → terminal;
  rt_resize_to : N → N → terminal → terminal;
  rt_screen_lines : terminal → list bytes;
  rt_styled_screen_rows : terminal → list bytes;
}.

Section Render.
Context `{ReplayTerminal}.

Definition engine_content_rows (engine : terminal) (keep_color : bool) (term_cols : N) : list bytes :=
  if keep_color then rt_styled_screen_rows engine
  else map (λ row, truncate_chars row term_cols) (rt_screen_lines engine).

(** A resize of the plan: what was not fed before its offset is, then the
    engine is resized. *)
Definition feed_to_resize (l : bytes) (st : terminal * N) (resize : LogResize) : terminal * N :=
  let '(engine, processed) := st in
  let resize_offset := N.min (lr_offset resize) (len l) in
  let '(engine, processed) :=
    if processed <? resize_offset then (rt_feed (slice processed resize_offset l) engine, resize_offset)
    else (engine, processed) in
  (rt_resize_to (lr_rows resize) (lr_cols resize) engine, processed).

Definition process_bytes_with_resizes (engine : terminal) (l : bytes) (plan : ViewportReplayPlan) : terminal :=
  let '(engine, processed) := foldl (feed_to_resize l) (engine, 0) (vr_resizes plan) in
  if processed <? len l then rt_feed (slice processed (len l) l) engine else engine.

Definition render_rows (rb : RenderBytes) (tail term_cols : N) (keep_color : bool)
    (viewport : option ViewportSize) (plan : ViewportReplayPlan) : list bytes :=
  let engine := rt_new
    (parser_rows (frame rb) (frame_has_alt_screen rb) tail viewport plan)
    (parser_cols (frame_has_alt_screen rb) term_cols viewport plan) 0 in
  let engine := process_bytes_with_resizes engine (frame rb) plan in
  let content_rows := engine_content_rows engine keep_color term_cols in
  match content_bounds content_rows with
  | Some (first, last) =>
      let first := N.to_nat (N.max (N.of_nat first) (N.of_nat last + 1 - tail)) in
      rows_from first (S last) content_rows
  | None => []
  end.

(** The first frame with content, else the first frame. *)
Fixpoint render_frames (rows_of : RenderBytes → list bytes) (keep_color : bool)
    (frames : list RenderBytes) (fallback_output : option bytes) : bytes :=
  match frames with
  | [] => default (format_rows_for_output [] keep_color) fallback_output
  | rb :: frames =>
      let rows := rows_of rb in
      let output := format_rows_for_output rows keep_color in
      match content_bounds rows with
      | Some _ => output
      | None =>
          render_frames rows_of keep_color frames
            (match fallback_output with None => Some output | _ => fallback_output end)
      end
  end.

Definition render_log_bytes (l : bytes) (tail : N) (keep_color : bool) (term_cols : N)
    (viewport : option ViewportSize) (plan : ViewportReplayPlan) : bytes :=
  render_frames (λ rb, render_rows rb tail term_cols keep_color viewport plan) keep_color
    (prepare_render_bytes l) None.

(** What a replay does to the engine. *)
Inductive ReplayStep := Fed (l : bytes) | ResizedTo (rows cols : N).

Definition replay_step (engine : terminal) (op : ReplayStep) : terminal :=
  match op with
  | Fed l => rt_feed l engine
  | ResizedTo rows cols => rt_resize_to rows cols engine
  end.

Definition fed (ops : list ReplayStep) : bytes :=
  concat (map (λ op, match op with Fed l => l | ResizedTo _ _ => [] end) ops).
Definition sizes (ops : list ReplayStep) : list (N * N) :=
  omap (λ op, match op with Fed _ => None | ResizedTo rows cols => Some (rows, cols) end) ops.

Lemma fed_app a b : fed (a ++ b) = fed a ++ fed b.
Proof. unfold fed. by rewrite map_app, concat_app. Qed.

Lemma sizes_app a b : sizes (a ++ b) = sizes a ++ sizes b.
Proof. apply omap_app. Qed.

(** Resizes in order, each within the bytes, come where they were recorded. *)
Lemma feeds_in_order l resizes engine processed :
  in_order resizes → (∀ r, r ∈ resizes → processed <= lr_offset r <= len l) → processed <= len l →
  ∃ ops, let '(engine', processed') := foldl (feed_to_resize l) (engine, processed) resizes in
    engine' = foldl replay_step engine ops ∧ processed' <= len l ∧ processed <= processed'
    ∧ fed ops = slice processed processed' l
    ∧ ∀ x r y, resizes = x ++ r :: y → ∃ before after, ops = before ++ ResizedTo (lr_rows r) (lr_cols r) :: after
        ∧ fed before = slice processed (lr_offset r) l ∧ length (sizes before) = length x.
Proof.
  intros Hs. revert engine processed. induction Hs as [|r rs Hs IH Hr]; intros engine processed Hin Hp.
  { exists []. cbn [foldl]. split_and!; [done|done|lia| |by intros []].
    unfold slice. by rewrite N.sub_diag, take_0. }
  cbn [foldl]. destruct (Hin r) as [H1 H2]; [by left|]. unfold feed_to_resize at 2. rewrite N.min_l by done.
  set (e1 := if processed <? lr_offset r then rt_feed (slice processed (lr_offset r) l) engine else engine).
  assert ((if processed <? lr_offset r then (rt_feed (slice processed (lr_offset r) l) engine, lr_offset r)
    else (engine, processed)) = (e1, lr_offset r)) as ->.
  { unfold e1. destruct (N.ltb_spec processed (lr_offset r)); [done|]. f_equal. lia. }
  cbv beta iota. set (front := if processed <? lr_offset r then [Fed (slice processed (lr_offset r) l)] else []).
  assert (e1 = foldl replay_step engine front ∧ fed front = slice processed (lr_offset r) l ∧ sizes front = []) as (He1 & Hf & Hsz).
  { unfold e1, front. destruct (N.ltb_spec processed (lr_offset r)) as [Hlt|Hge]; [split_and!; [done| |done]; unfold fed; cbn; by rewrite app_nil_r|].
    split_and!; [done| |done]. unfold slice. replace (lr_offset r - processed) with 0 by lia. by rewrite take_0. }
  destruct (IH (rt_resize_to (lr_rows r) (lr_cols r) e1) (lr_offset r)) as [ops Hops].
  { intros r' Hr'. rewrite Forall_forall in Hr. split; [by apply Hr|]. apply Hin. by right. }
  { done. }
  exists (front ++ ResizedTo (lr_rows r) (lr_cols r) :: ops).
  destruct (foldl (feed_to_resize l) _ rs) as [e' p'] eqn:Efold.
  destruct Hops as (-> & Hle & Hge & Hfed & Hat).
  assert (∀ k, lr_offset r <= k → k <= len l → slice processed (lr_offset r) l ++ slice (lr_offset r) k l = slice processed k l) as Hjoin.
  { intros k Hk1 Hk2. unfold slice. rewrite <- (take_drop (N.to_nat (lr_offset r - processed)) (take (N.to_nat (k - processed)) (drop (N.to_nat processed) l))).
    rewrite take_take, skipn_firstn_comm, drop_drop. f_equal; [f_equal; lia|]. f_equal; [lia|f_equal; lia]. }
  split_and!; [|done|lia| |].
  - rewrite foldl_app. cbn [foldl replay_step]. by rewrite He1.
  - rewrite fed_app, Hf. unfold fed at 1. cbn [map concat app]. fold (fed ops). rewrite Hfed. by apply Hjoin.
  - intros x r' y Heq. destruct x as [|r0 x]; injection Heq as <- Heq.
    + exists front, ops. by rewrite Hsz.
    + destruct (Hat x r' y Heq) as (before & after & -> & Hb & Hl).
      exists (front ++ ResizedTo (lr_rows r) (lr_cols r) :: before), after. split_and!.
      * by rewrite <- app_assoc.
      * rewrite fed_app, Hf. unfold fed at 1. cbn [map concat app]. fold (fed before). rewrite Hb.
        assert (r' ∈ rs) as Hr' by (rewrite Heq; apply elem_of_app; right; by left).
        apply Hjoin; [rewrite Forall_forall in Hr; by apply Hr|apply Hin; by right].
      * rewrite sizes_app, Hsz. change (S (length (sizes before)) = S (length x)). by rewrite Hl.
Qed.

(** A replay shows the recording at its own sizes.  For any terminal,
    and a plan in order whose resizes lie within the bytes, the engine is fed
    exactly the bytes, in order and once, and each resize of the plan is
    applied after exactly the bytes recorded before it. *)
Theorem replay_at_recorded_sizes engine l plan :
  in_order (vr_resizes plan) → Forall (λ r, lr_offset r <= len l) (vr_resizes plan) →
  ∃ ops, process_bytes_with_resizes engine l plan = foldl replay_step engine ops ∧ fed ops = l
    ∧ ∀ x r y, vr_resizes plan = x ++ r :: y →
        ∃ before after, ops = before ++ ResizedTo (lr_rows r) (lr_cols r) :: after
          ∧ fed before = take (N.to_nat (lr_offset r)) l ∧ length (sizes before) = length x.
Proof.
  intros Hs Hin. destruct (feeds_in_order l (vr_resizes plan) engine 0 Hs) as [ops Hops]; [|lia|].
  { intros r Hr. rewrite Forall_forall in Hin. split; [lia|by apply Hin]. }
  unfold process_bytes_with_resizes. destruct (foldl (feed_to_resize l) (engine, 0) _) as [e p].
  destruct Hops as (-> & Hle & _ & Hf & Hat).
  set (rest := if p <? len l then [Fed (slice p (len l) l)] else []). exists (ops ++ rest). split_and!.
  - rewrite foldl_app. unfold rest. by destruct (p <? len l).
  - rewrite fed_app, Hf. unfold rest. destruct (N.ltb_spec p (len l)) as [Hlt|Hge].
    + unfold fed. cbn. rewrite app_nil_r. unfold slice. rewrite !N.sub_0_r, drop_0.
      rewrite (take_ge (drop _ l)) by (rewrite length_drop; unfold len in *; lia). by rewrite take_drop.
    + cbn. rewrite app_nil_r. apply slice_all. lia.
  - intros x r y Heq. destruct (Hat x r y Heq) as (before & after & -> & Hb & Hl).
    exists before, (after ++ rest). split_and!; [by rewrite <- app_assoc| |done].
    rewrite Hb. unfold slice. by rewrite N.sub_0_r, drop_0.
Qed.
End Render.

(** ** What is printed *)

Lemma rows_from_join {A} a b c (l : list A) :
  (a <= b)%nat → (b <= c)%nat → rows_from a b l ++ rows_from b c l = rows_from a c l.
Proof.
  intros Hab Hbc. unfold rows_from. replace (c - a)%nat with ((b - a) + (c - b))%nat by lia.
  rewrite <- (take_take_drop (drop a l)), drop_drop. do 3 f_equal. lia.
Qed.

Lemma rows_from_end {A} a b (l : list A) : (length l <= b)%nat → rows_from a b l = drop a l.
Proof. intros Hb. unfold rows_from. apply take_ge. rewrite length_drop. lia. Qed.

Lemma position_some {A} (p : A → bool) l i :
  position p l = Some i → ∃ a x b, l = a ++ x :: b ∧ length a = i ∧ p x = true ∧ Forall (λ y, p y = false) a.
Proof.
  revert i. induction l as [|x l IH]; intros i; [done|]. cbn [position]. destruct (p x) eqn:E.
  - intros [= <-]. by exists [], x, l.
  - intros (j & Hj & ->)%fmap_Some. destruct (IH j Hj) as (a & y & b & -> & <- & Hy & Ha).
    exists (x :: a), y, b. split_and!; [done|done|done|by constructor].
Qed.

Lemma position_none {A} (p : A → bool) l : position p l = None → Forall (λ y, p y = false) l.
Proof.
  induction l as [|x l IH]; [constructor|]. cbn [position]. destruct (p x) eqn:E; [done|].
  intros Hn%fmap_None. constructor; auto.
Qed.

Definition shows (row : bytes) : bool := negb (row_is_blank row).
Definition blank_rows (rows : list bytes) : Prop := Forall (λ row, row_is_blank row = true) rows.

Lemma not_shown rows : Forall (λ row, shows row = false) rows → blank_rows rows.
Proof. intros Hall. eapply Forall_impl; [done|]. intros row. unfold shows. by destruct (row_is_blank row). Qed.

(** The rows between the first and the last with content. *)
Lemma content_split rows :
  match content_bounds rows with
  | Some (first, last_) =>
      ∃ a m b, rows = a ++ m ++ b ∧ blank_rows a ∧ blank_rows b ∧ length a = first ∧ length (a ++ m) = S last_
        ∧ (∃ x, head m = Some x ∧ shows x = true) ∧ (∃ x, last m = Some x ∧ shows x = true)
  | None => blank_rows rows
  end.
Proof.
  unfold content_bounds, rposition. fold shows. destruct (position shows rows) as [i|] eqn:Hp;
    [|by apply not_shown, position_none]. cbn [mbind option_bind].
  apply position_some in Hp as (a & x & c & -> & <- & Hx & Ha).
  destruct (position shows (rev (a ++ x :: c))) as [j|] eqn:Hr.
  2:{ apply position_none in Hr. rewrite Forall_forall in Hr. rewrite (Hr x) in Hx; [done|].
      apply list_elem_of_In, in_rev. rewrite rev_involutive. apply in_elt. }
  cbn [mbind option_bind default]. apply position_some in Hr as (b & y & d & Hrev & <- & Hy & Hb).
  assert (a ++ x :: c = rev d ++ y :: rev b) as Heq.
  { rewrite <- (rev_involutive (a ++ x :: c)), Hrev, rev_app_distr. cbn [rev]. by rewrite <- app_assoc. }
  assert (length a <= length (rev d))%nat as Hle.
  { destruct (Nat.le_gt_cases (length a) (length (rev d))) as [|Hlt]; [done|]. exfalso.
    assert ((a ++ x :: c) !! length (rev d) = Some y) as Hl by (rewrite Heq; by apply list_lookup_middle).
    rewrite lookup_app_l in Hl by done. rewrite Forall_lookup in Ha. specialize (Ha _ _ Hl). cbn in Ha. congruence. }
  exists a, (drop (length a) (rev d ++ [y])), (rev b).
  assert (take (length a) (rev d ++ [y]) = a) as Ht.
  { transitivity (take (length a) (a ++ x :: c)); [|by apply take_app_length].
    rewrite Heq. by rewrite !take_app_le. }
  assert (a ++ drop (length a) (rev d ++ [y]) = rev d ++ [y]) as Hm by (rewrite <- Ht at 1; apply take_drop).
  split_and!.
  - rewrite app_assoc, Hm, Heq, <- app_assoc. done.
  - by apply not_shown.
  - apply not_shown, Forall_rev. done.
  - done.
  - rewrite Hm, length_app. cbn.
    assert (length (a ++ x :: c) = length (rev d) + S (length b))%nat as -> by (rewrite Heq, length_app; cbn; by rewrite !length_rev). lia.
  - exists x. split; [|done]. rewrite head_lookup, lookup_drop, Nat.add_0_r.
    assert ((a ++ x :: c) !! length a = Some x) as Hl by by apply list_lookup_middle.
    rewrite Heq in Hl. change (y :: rev b) with ([y] ++ rev b) in Hl. rewrite app_assoc in Hl.
    rewrite lookup_app_l in Hl; [done|]. rewrite length_app. cbn. lia.
  - exists y. split; [|done]. rewrite drop_app_le by done. by rewrite last_snoc.
Qed.

(** A blank row and a block of at least two rows that [shown] has already. *)
Definition repeated (shown_rows hidden : list bytes) : Prop :=
  ∃ blank block x y, hidden = blank :: block ∧ row_is_blank blank = true ∧ (2 <= length block)%nat
    ∧ shown_rows = x ++ block ++ y.

Lemma trim_repeated_spec rows first :
  (first < length rows)%nat →
  ∃ shown_rows hidden, rows = take first rows ++ shown_rows ++ hidden
    ∧ rows_from first (S (trim_repeated_trailing_suffix rows first (length rows - 1))) rows = shown_rows
    ∧ (hidden = [] ∨ repeated shown_rows hidden) ∧ shown_rows ≠ [].
Proof.
  intros Hf. unfold trim_repeated_trailing_suffix. set (n := length rows) in *.
  destruct (find _ _) as [split_|] eqn:Hfind.
  2:{ exists (drop first rows), []. rewrite app_nil_r, take_drop, rows_from_end by lia. split_and!; [done|done|by left|].
      intros He%(f_equal length). rewrite length_drop in He. cbn in He. lia. }
  apply find_some in Hfind as [Hin Hrep]. rewrite <- in_rev in Hin. apply in_seq in Hin.
  unfold repeats_before in Hrep. destruct (rows !! split_) as [row|] eqn:Hrow; [|done].
  destruct (row_is_blank row) eqn:Hblank; cbn [negb] in Hrep; [|done].
  destruct (Nat.ltb_spec (n - 1) (S split_)) as [|Hlt]; [done|].
  rewrite (rows_from_end (S split_)) in Hrep by lia. set (block := drop (S split_) rows) in *.
  destruct (Nat.ltb_spec (length block) 2) as [|Hblock]; [done|].
  apply existsb_exists in Hrep as (cs & Hcs & [Hend Heq%bool_decide_eq_true_1]%andb_true_iff).
  apply Nat.leb_le in Hend. apply in_seq in Hcs.
  assert (rows_from first split_ rows ≠ []) as Hne.
  { intros He%(f_equal length). unfold rows_from in He. rewrite length_take, length_drop in He. cbn in He. lia. }
  exists (rows_from first split_ rows), (row :: block). split_and!; [|by replace (S (split_ - 1)) with split_ by lia| |done].
  - assert (row :: block = drop split_ rows) as -> by (symmetry; by apply drop_S).
    rewrite <- (rows_from_end split_ n) by lia. rewrite rows_from_join by lia.
    by rewrite rows_from_end, take_drop by lia.
  - right. exists row, block, (rows_from first cs rows), (rows_from (cs + length block) split_ rows).
    split_and!; [done|done|done|]. rewrite <- Heq at 1. by rewrite !rows_from_join by lia.
Qed.

(** What a rendered screen prints.  The text printed for a screen is a run of
    its rows, each trimmed and ended by a line end, at most [tail] of them, the
    first of which shows something.  Of the rows after that run only blank
    ones are left out, and at most one trailing repetition: a blank row
    followed by a block of two rows or more that the run contains already. *)
Theorem render_prints_rows rows tail keep_color :
  ∃ above shown_rows hidden below,
    rows = above ++ shown_rows ++ hidden ++ below ∧ blank_rows below
    ∧ finish_render rows tail keep_color = concat (map (output_row keep_color) shown_rows) ++ color_reset keep_color
    ∧ len (shown_rows ++ hidden) <= tail
    ∧ (blank_rows above ∨ tail <= len (above ++ shown_rows ++ hidden))
    ∧ (∀ row, head shown_rows = Some row → row_is_blank row = false)
    ∧ (hidden = [] ∨ repeated shown_rows hidden).
Proof.
  unfold finish_render. pose proof (content_split rows) as Hsplit.
  destruct (content_bounds rows) as [[f l]|].
  2:{ exists [], [], [], rows. split_and!; [done|done|done|apply N.le_0_l|by left; constructor|done|by left]. }
  destruct Hsplit as (a & m & b & -> & Ha & Hb & <- & Hl & (x & Hx & Hxs) & (z & Hz & Hzs)).
  assert (rows_from (length a) (S l) (a ++ m ++ b) = m) as ->.
  { rewrite <- Hl, length_app. unfold rows_from. rewrite drop_app_length. replace (length a + length m - length a)%nat with (length m) by lia.
    apply take_app_length. }
  set (k := N.to_nat (len m - tail)). destruct (drop k m) as [|r0 rs] eqn:Ek.
  { exists (a ++ m), [], [], b. split_and!; [by rewrite <- app_assoc|done|done|apply N.le_0_l| |done|by left].
    right. apply (f_equal length) in Ek. rewrite length_drop in Ek. cbn in Ek.
    rewrite !app_nil_r, len_app. unfold k in Ek. destruct m as [|m0 m]; [done|]. unfold len in *. cbn [length] in *. lia. }
  rewrite <- Ek. set (R := drop k m) in *. assert (len R <= tail) as HR by (unfold R, k; rewrite len_drop; unfold len; lia).
  assert (last R = Some z) as HzR.
  { assert (m = take k m ++ R) as Hm0 by (symmetry; apply take_drop). rewrite Hm0, last_app in Hz. by destruct (last R) eqn:E; [|apply last_None in E; rewrite E in Ek]. }
  assert (format_rows_for_output R keep_color = let '(first_content, last_content) := default (O, O) (content_bounds R) in
    concat (map (output_row keep_color) (rows_from first_content (S (trim_repeated_trailing_suffix R first_content last_content)) R))
      ++ color_reset keep_color) as -> by (unfold format_rows_for_output; by rewrite Ek).
  pose proof (content_split R) as Hsplit. destruct (content_bounds R) as [[f2 l2]|].
  2:{ exfalso. unfold blank_rows in Hsplit. rewrite Forall_forall in Hsplit. apply last_Some in HzR as [R' HR'].
      unfold shows in Hzs. rewrite Hsplit in Hzs; [done|]. rewrite HR'. apply elem_of_app. right. by left. }
  destruct Hsplit as (a2 & m2 & b2 & HRs & Ha2 & Hb2 & <- & Hl2 & (x2 & Hx2 & Hxs2) & _).
  assert (b2 = []) as ->.
  { destruct (last b2) as [w|] eqn:Ew; [|by apply last_None]. exfalso. rewrite HRs, !last_app, Ew in HzR. injection HzR as ->.
    apply last_Some in Ew as [b' ->]. apply Forall_app in Hb2 as [_ Hb2]. inversion Hb2. unfold shows in Hzs. by destruct (row_is_blank z). }
  rewrite app_nil_r in HRs. cbn [from_option id]. cbv beta iota zeta. assert (l2 = length R - 1)%nat as -> by (rewrite HRs; lia).
  assert (length a2 < length R)%nat as Hlt by (rewrite HRs, length_app; destruct m2; [done|cbn; lia]).
  destruct (trim_repeated_spec R (length a2) Hlt) as (shown_rows & hidden & Hsp & Hrows & Hrep & Hne).
  rewrite Hrows. assert (take (length a2) R = a2) as Hta by (rewrite HRs; by apply take_app_length).
  assert (shown_rows ++ hidden = m2) as Hm2.
  { rewrite Hta, HRs in Hsp. by apply app_inv_head in Hsp. }
  exists (a ++ take k m ++ a2), shown_rows, hidden, b.
  assert (take k m ++ a2 ++ shown_rows ++ hidden = m) as Hm.
  { rewrite Hm2, <- HRs. unfold R. apply take_drop. }
  split_and!; [|done|done| | | |done].
  - rewrite <- Hm at 1. by rewrite <- !app_assoc.
  - rewrite Hm2. rewrite HRs, len_app in HR. lia.
  - destruct (N.le_gt_cases (len m) tail).
    + left. replace k with 0%nat by (unfold k; lia). rewrite take_0. by apply Forall_app.
    + right. assert ((a ++ take k m ++ a2) ++ shown_rows ++ hidden = a ++ m) as ->.
      { rewrite <- Hm at 2. by rewrite <- !app_assoc. }
      rewrite len_app. lia.
  - intros row Hrow. assert (head m2 = Some row) as Hh by (rewrite <- Hm2; by destruct shown_rows).
    rewrite Hx2 in Hh. injection Hh as <-. unfold shows in Hxs2. by destruct (row_is_blank x2).
Qed.

(** A program that prints the same two lines twice is shown to have printed
    them once. *)
Lemma render_drops_output :
  finish_render [bs "a"; bs "b"; []; bs "a"; bs "b"] 10 false = bs "a" ++ [x0a] ++ bs "b" ++ [x0a].
Proof. by vm_compute. Qed.

(** ** Witnesses *)

#[local] Existing Instance no_base64.

Lemma tail_is_exact_witness :
  ∃ t, replay_filtered_tail 0 9 (Some replay_journal) 3 = Some (Ok t)
    ∧ ft_bytes t = bs "helloworld" ∧ ft_end_offset t = 10.
Proof.
  destruct (tail_is_exact 0 replay_journal 7 replay_rss [] 3 9 [mk_anchor 5 (mk_cursor 7 2) 1 111] replay_holds)
    as (t & Ht & (Hw & He & _) & _); [by vm_compute|apply replay_honest|by vm_compute|cbn; lia|by vm_compute|].
  exists t. assert (display_stream (concat replay_rss) = bs "helloworld") as Hs by by vm_compute.
  rewrite Hs in Hw, He. exact (conj Ht (conj (f_equal fst Hw) He)).
Defined.

Definition seventy_resizes : list LogResize := map (λ i, mk_resize i 24 80) (seqN 0 70).

Lemma seventy_in_order n k : in_order (map (λ i, mk_resize i 24 80) (seqN n k)).
Proof.
  revert n. induction k as [|k IH]; intros n; constructor; [apply IH|]. rewrite Forall_forall.
  intros r (i & -> & Hi%elem_of_seqN)%list_elem_of_fmap. cbn. lia.
Qed.

Lemma resize_history_bounded_witness :
  len (bound_resize_history seventy_resizes 2 65) <= 64 ∧ len (bound_resize_history seventy_resizes 2 65) = 64
  ∧ vr_initial (viewport_resize_plan (bound_resize_history seventy_resizes 2 65) 2 65) = Some (mk_resize 2 24 80).
Proof.
  assert (len (bound_resize_history seventy_resizes 2 65) = 64) as Hn by by vm_compute.
  assert (vr_initial (viewport_resize_plan seventy_resizes 2 65) = Some (mk_resize 2 24 80)) as Hi by by vm_compute.
  destruct (resize_history_bounded seventy_resizes 2 65) as (H1 & H2 & _).
  - apply seventy_in_order.
  - lia.
  - exact (conj H1 (conj Hn (eq_trans H2 Hi))).
Defined.

(** A terminal that remembers what was done to it. *)
#[local] Instance log_terminal : ReplayTerminal := {
  terminal := list ReplayStep;
  rt_new rows cols _ := [ResizedTo rows cols];
  rt_feed l t := t ++ [Fed l];
  rt_resize_to rows cols t := t ++ [ResizedTo rows cols];
  rt_screen_lines _ := [];
  rt_styled_screen_rows _ := [];
}.

Lemma replay_at_recorded_sizes_witness :
  let plan := mk_plan None [mk_resize 2 30 100; mk_resize 2 31 101] in
  (∃ ops, process_bytes_with_resizes (rt_new 24 80 0) (bs "hello") plan = foldl replay_step (rt_new 24 80 0) ops ∧ fed ops = bs "hello")
  ∧ process_bytes_with_resizes (rt_new 24 80 0) (bs "hello") plan
    = [ResizedTo 24 80; Fed (bs "he"); ResizedTo 30 100; ResizedTo 31 101; Fed (bs "llo")].
Proof.
  destruct (replay_at_recorded_sizes (rt_new 24 80 0) (bs "hello") (mk_plan None [mk_resize 2 30 100; mk_resize 2 31 101]))
    as (ops & H1 & H2 & _).
  - apply SSorted_cons; [apply SSorted_cons; [apply SSorted_nil|constructor]|].
    apply Forall_cons. split; [cbn; lia|constructor].
  - apply Forall_cons. split; [by apply N.leb_le|]. apply Forall_cons. split; [by apply N.leb_le|constructor].
  - split; [exists ops; exact (conj H1 H2)|reflexivity].
Defined.
