(* ===== verification/Stop.v ===== *)
(** * Stopping a session

    [terminate_runtime] of [src/src/session/store/lifecycle.rs] with the key
    schedule of [src/src/session/store/mod.rs]: soft-stop keys, then the
    process group's SIGTERM, then the forced kill, while the child may exit at
    any moment, the writer queue may be full and other holders of the runtime
    lock go on.  Times are milliseconds of one clock.  The theorems say that a
    stop ends within a number of turns its grace period fixes, and that it
    escalates in order and never early. *)

From S2P Require Import Prelude Crc Utf8 Text RecordFormat SegmentScan Disk Manifest Open Retention Sequencer.
From S2P Require Import Stream Appender Journal Pump ProgramStatus Signals Scanner Replay Registry Recorder Runtime Session.

(** ** The schedule *)

Definition SOFT_STOP_INPUTS : list bytes := [[x03]; [x03]; [x04]].
Definition DOUBLE_CTRL_C_DELAY : N := 500.
Definition DOUBLE_CTRL_C_DELAY_GRACE_DIVISOR : N := 4.
Definition TERMINATE_POLL_INTERVAL : N := 100.

(** What happens when: an input and its time. *)
Record Due := mk_due { du_at : N; du_input : bytes }.

Definition build_soft_stop_schedule (start grace : N) (requested_final_status : SessionStatus) : list Due :=
  if (grace =? 0) || negb (bool_decide (requested_final_status = Stopped)) then []
  else
    let offsets := [0; N.min DOUBLE_CTRL_C_DELAY (grace / DOUBLE_CTRL_C_DELAY_GRACE_DIVISOR); N.min 1000 (grace / 2)] in
    zip_with (λ offset input, mk_due (start + offset) input) offsets SOFT_STOP_INPUTS.

(** An input the writer queue took: when its turn looked at the soft deadline,
    when it found it due, and when it was in the queue. *)
Record Sent := mk_sent { se_soft : N; se_due : N; se_sent : N; se_input : bytes }.

Section Stop.
Context `{Base64, Engine} {J : Type} `{Recorder J}.

#[local] Abbreviation Runtime := (SessionRuntime (J:=J)).

(** [log_soft_stop_send] only logs. *)
Definition log_soft_stop_send (pty : PtyHandle) (input : bytes) : result TrySendError PtyHandle :=
  try_write_input input pty.

(** The locals of [terminate_runtime], the runtime behind its lock, and what
    the stop has done: the inputs the writer queue took, and the signals sent
    to the group, each with its time. *)
Record Stop := mk_stop {
  so_runtime : Runtime;
  so_schedule : list Due;
  so_next : nat;
  so_sigterm_at : option N;
  so_sent : list Sent;
  so_signals : list (N * N);
}.

(** One turn of the loop, as the rest of the world has it: what the other
    holders of the lock did before each of its sections, what [try_wait] and
    [process_id] answer, and the readings of the clock; at the deadline, what
    the kill and the poll after it answer. *)
Record Turn := mk_turn {
  tn_before : Runtime → Runtime;
  tn_between : Runtime → Runtime;
  tn_exited : io_result (option Z);
  tn_pid : option N;
  tn_loop : N;
  tn_poll : N;
  tn_soft : N;
  tn_due : N;
  tn_sent : N;
  tn_term : N;
  tn_wake : N;
  tn_kill : bool;
  tn_exited_after : io_result (option Z);
}.

Definition shift (lag : N) (d : Due) : Due := mk_due (du_at d + lag) (du_input d).

(** The read section: the next key, when it is due. *)
Definition send_due (soft_input_deadline : N) (t : Turn) (s : Stop) : Stop :=
  let next := if soft_input_deadline <=? tn_soft t then length (so_schedule s) else so_next s in
  let s := mk_stop (so_runtime s) (so_schedule s) next (so_sigterm_at s) (so_sent s) (so_signals s) in
  match so_schedule s !! next with
  | None => s
  | Some d =>
      if du_at d <=? tn_due t then
        match log_soft_stop_send (rt_pty (so_runtime s)) (du_input d) with
        | Ok pty =>
            let lag := tn_sent t - du_at d in
            mk_stop (so_runtime s <| rt_pty := pty |>)
              (take (S next) (so_schedule s) ++ map (shift lag) (drop (S next) (so_schedule s))) (S next)
              (so_sigterm_at s) (so_sent s ++ [mk_sent (tn_soft t) (tn_due t) (tn_sent t) (du_input d)]) (so_signals s)
        | Err Full => s
        | Err Disconnected =>
            mk_stop (so_runtime s) (so_schedule s) (length (so_schedule s)) (so_sigterm_at s) (so_sent s) (so_signals s)
        end
      else s
  end.

(** The group's SIGTERM, once its time has come. *)
Definition group_sigterm (t : Turn) (s : Stop) : Stop :=
  match so_sigterm_at s with
  | Some at_ =>
      if at_ <=? tn_term t then
        mk_stop (so_runtime s) (so_schedule s) (so_next s) None (so_sent s)
          (so_signals s ++ match tn_pid t with Some pid => [(tn_term t, pid)] | None => [] end)
      else s
  | None => s
  end.

Definition wake_at (deadline : N) (t : Turn) (s : Stop) : N :=
  let now := tn_wake t in
  let wake := N.min deadline (now + TERMINATE_POLL_INTERVAL) in
  let wake := match so_schedule s !! so_next s with
              | Some d => if now <? du_at d then N.min wake (du_at d) else wake
              | None => wake
              end in
  match so_sigterm_at s with Some at_ => N.min wake at_ | None => wake end.

(** A turn up to its sleep: the stop, and whether the child was found gone. *)
Definition stop_turn (soft_input_deadline : N) (t : Turn) (s : Stop) : Stop * bool :=
  let '(rt, completed) := refresh_status (tn_poll t) (tn_exited t) (tn_before t (so_runtime s)) in
  if completed then
    (mk_stop rt (so_schedule s) (so_next s) (so_sigterm_at s) (so_sent s) (so_signals s), true)
  else
    let s := mk_stop (tn_between t rt) (so_schedule s) (so_next s) (so_sigterm_at s) (so_sent s) (so_signals s) in
    (group_sigterm t (send_due soft_input_deadline t s), false).

(** How it ends: the child was found gone, at the end of the grace period
    too, or it was killed, with the operating system's answer. *)
Inductive outcome := Exited | Forced (at_ : N) (ok : bool).

Definition answer_of (o : outcome) : bool := match o with Exited => true | Forced _ ok => ok end.

(** After the deadline. *)
Definition force (t : Turn) (s : Stop) : Stop * outcome :=
  let with_runtime := λ rt, mk_stop rt (so_schedule s) (so_next s) (so_sigterm_at s) (so_sent s) (so_signals s) in
  let '(rt, completed) := refresh_status (tn_poll t) (tn_exited t) (tn_before t (so_runtime s)) in
  if completed then (with_runtime rt, Exited)
  else
    let rt := rt <| rt_pty := kill (rt_pty rt) |> in
    if tn_kill t then
      (with_runtime (refresh_status (tn_poll t) (tn_exited_after t) rt).1, Forced (tn_loop t) true)
    else (with_runtime rt, Forced (tn_loop t) false).

(** The loop over the turns the world allows it; [None] when they are used up
    and it has not ended. *)
Fixpoint stop_loop (soft_input_deadline deadline : N) (turns : list Turn) (s : Stop)
    : option (Stop * outcome) :=
  match turns with
  | [] => None
  | t :: turns =>
      if tn_loop t <? deadline then
        let '(s, completed) := stop_turn soft_input_deadline t s in
        if completed then Some (s, Exited) else stop_loop soft_input_deadline deadline turns s
      else Some (force t s)
  end.

Definition soft_deadline (start grace : N) : N := start + grace / 4 * 3.

(** [terminate_runtime] with a first poll that finds [exited]. *)
Definition begin_stop (start grace : N) (requested_final_status : SessionStatus) (rt : Runtime) : Stop :=
  mk_stop
    (rt <| rt_requested_final_status := Some requested_final_status |>
        <| rt_meta := rt_meta rt <| sm_status := Stopping |> |>)
    (build_soft_stop_schedule start grace requested_final_status) 0
    (if bool_decide (requested_final_status = Stopped) && negb (grace =? 0)
     then Some (soft_deadline start grace) else None) [] [].

Definition terminate_runtime (start grace : N) (requested_final_status : SessionStatus)
    (now : N) (exited : io_result (option Z)) (turns : list Turn) (rt : Runtime)
    : option (Runtime * bool * Stop) :=
  let '(rt, completed) := refresh_status now exited rt in
  let s := begin_stop start grace requested_final_status rt in
  if completed then Some (rt, true, s)
  else
    '(s, o) ← stop_loop (soft_deadline start grace) (start + grace) turns s;
    Some (so_runtime s, answer_of o, s).
End Stop.

(** ** A stop ends *)

Section Ending.
Context `{Base64, Engine} {J : Type} `{Recorder J}.

#[local] Abbreviation Stop := (Stop (J:=J)).
#[local] Abbreviation Turn := (Turn (J:=J)).

(** The readings of a turn are taken in this order. *)
Definition ordered (t : Turn) : Prop :=
  tn_loop t <= tn_soft t ∧ tn_soft t <= tn_due t ∧ tn_due t <= tn_sent t
  ∧ tn_sent t <= tn_term t ∧ tn_term t <= tn_wake t.

(** No sleep ends before its time: every turn begins at [wake] or later. *)
Fixpoint paced (soft deadline wake : N) (turns : list Turn) (s : Stop) : Prop :=
  match turns with
  | [] => True
  | t :: turns =>
      wake <= tn_loop t ∧ ordered t
      ∧ let '(s, completed) := stop_turn soft t s in
        (completed = false → paced soft deadline (wake_at deadline t s) turns s)
  end.

(** The work left at a time: polls, keys, the signal and the deadline. *)
Definition key_work (w : N) (s : Stop) : N :=
  match so_schedule s !! so_next s with
  | Some d => 2 * (len (so_schedule s) - N.of_nat (so_next s)) - (if du_at d <=? w then 1 else 0)
  | None => 0
  end.
Definition sig_work (w : N) (s : Stop) : N :=
  match so_sigterm_at s with Some at_ => if at_ <=? w then 1 else 2 | None => 0 end.
Definition work (deadline w : N) (s : Stop) : N :=
  (deadline - w) / TERMINATE_POLL_INTERVAL + key_work w s + sig_work w s + (if w <? deadline then 1 else 0).

Lemma lookup_below {A} (l : list A) i x : l !! i = Some x → N.of_nat i < len l.
Proof. intros Hl%lookup_lt_Some. unfold len. lia. Qed.

(** A stop whose key section is over with the key at [n] next. *)
Lemma key_work_at w s : key_work w s <= 2 * (len (so_schedule s) - N.of_nat (so_next s)).
Proof. unfold key_work. destruct (_ !! _); [destruct (_ <=? _)|]; lia. Qed.

Lemma key_work_same (s s' : Stop) w :
  so_schedule s' = so_schedule s → so_next s' = so_next s →
  (∀ u, w <= u → key_work u s' <= key_work w s)
  ∧ (∀ d, so_schedule s' !! so_next s' = Some d → w < du_at d → key_work (du_at d) s' < key_work w s).
Proof.
  intros Hs Hn. unfold key_work. rewrite Hs, Hn. split.
  - intros u Hu. destruct (_ !! _) as [d|]; [|lia]. destruct (N.leb_spec (du_at d) w), (N.leb_spec (du_at d) u); lia.
  - intros d Hd Hw. rewrite Hd, N.leb_refl. leb_to false. apply lookup_below in Hd. lia.
Qed.

Lemma key_work_later (s s' : Stop) w d :
  so_schedule s !! so_next s = Some d → len (so_schedule s') = len (so_schedule s) →
  (so_next s < so_next s')%nat → ∀ u, key_work u s' < key_work w s.
Proof.
  intros Hd Hl Hn u. pose proof (key_work_at u s') as Hu. pose proof (lookup_below _ _ _ Hd) as Hb.
  unfold key_work at 2. rewrite Hd. destruct (_ <=? _); lia.
Qed.

Lemma key_work_none (s : Stop) u : so_schedule s !! so_next s = None → key_work u s = 0.
Proof. unfold key_work. by intros ->. Qed.

(** The key section never adds work, and a key it waits for gives some. *)
Lemma send_due_work soft t (s : Stop) w :
  let s' := send_due soft t s in
  so_sigterm_at s' = so_sigterm_at s ∧ len (so_schedule s') = len (so_schedule s)
  ∧ (∀ u, w <= u → key_work u s' <= key_work w s)
  ∧ (∀ d, so_schedule s' !! so_next s' = Some d → w < du_at d → key_work (du_at d) s' < key_work w s).
Proof.
  intros s'. unfold s', send_due. destruct (soft <=? tn_soft t).
  { cbn [so_schedule]. rewrite (proj2 (lookup_ge_None (so_schedule s) _)) by lia. split_and!; [done|done| |].
    - intros u _. rewrite key_work_none; [lia|]. cbn. by apply lookup_ge_None.
    - cbn. intros d. by rewrite (proj2 (lookup_ge_None (so_schedule s) _)) by lia. }
  cbn [so_schedule so_next so_runtime]. destruct (so_schedule s !! so_next s) as [d|] eqn:Hd.
  2:{ split_and!; [done|done|by apply key_work_same..]. }
  destruct (du_at d <=? tn_due t); [|split_and!; [done|done|by apply key_work_same..]].
  destruct (log_soft_stop_send _ _) as [pty|[]].
  - split_and!; [done| | |].
    + cbn [so_schedule]. rewrite len_app, len_map, len_take, len_drop. unfold len. lia.
    + intros u _. apply N.lt_le_incl. eapply key_work_later; [done| |cbn; lia].
      cbn [so_schedule]. rewrite len_app, len_map, len_take, len_drop. unfold len. lia.
    + intros d' _ _. eapply key_work_later; [done| |cbn; lia].
      cbn [so_schedule]. rewrite len_app, len_map, len_take, len_drop. unfold len. lia.
  - split_and!; [done|done|by apply key_work_same..].
  - pose proof (lookup_lt_Some _ _ _ Hd). split_and!; [done|done| |]; intros; [apply N.lt_le_incl|]; by eapply key_work_later.
Qed.

(** Each turn before the deadline takes some of the work. *)
Lemma turn_works soft deadline t (s s' : Stop) w :
  w <= tn_loop t → tn_loop t < deadline → ordered t → stop_turn soft t s = (s', false) →
  w <= wake_at deadline t s' ∧ work deadline (wake_at deadline t s') s' < work deadline w s.
Proof.
  intros Hw Hd (Ho1 & Ho2 & Ho3 & Ho4 & Ho5). unfold stop_turn. destruct (refresh_status _ _ _) as [rt []]; [done|].
  set (s0 := mk_stop (tn_between t rt) _ _ _ _ _). intros [= <-].
  assert (∀ u, key_work u s0 = key_work u s) as Hk0 by done.
  destruct (send_due_work soft t s0 w) as (Hsig & _ & Hk & Hkd). set (s1 := send_due soft t s0) in *.
  rewrite Hk0 in Hk, Hkd. change (so_sigterm_at s0) with (so_sigterm_at s) in Hsig.
  set (s2 := group_sigterm t s1).
  assert (so_schedule s2 = so_schedule s1 ∧ so_next s2 = so_next s1) as [Hs2 Hn2]
    by (unfold s2, group_sigterm; destruct (so_sigterm_at s1); [destruct (_ <=? _)|]; done).
  assert (∀ u, key_work u s2 = key_work u s1) as Hk2 by (intros u; unfold key_work; by rewrite Hs2, Hn2).
  assert ((∀ u, w <= u → sig_work u s2 <= sig_work w s)
    ∧ ∀ a, so_sigterm_at s2 = Some a → tn_term t < a ∧ sig_work a s2 < sig_work w s) as [Hg Hga].
  { unfold s2, group_sigterm, sig_work. rewrite Hsig. destruct (so_sigterm_at s) as [a|]; [|rewrite Hsig; split; [lia|done]].
    destruct (N.leb_spec a (tn_term t)); cbn [so_sigterm_at]; [split; [intros; destruct (_ <=? _); lia|done]|].
    rewrite Hsig. split.
    - intros u Hu. destruct (N.leb_spec a w), (N.leb_spec a u); lia.
    - intros a' [= <-]. rewrite N.leb_refl. leb_to false. lia. }
  assert (∀ u, w <= u → work deadline u s2 + (if w <? deadline then 1 else 0) + (deadline - w) / TERMINATE_POLL_INTERVAL
    <= work deadline w s + (if u <? deadline then 1 else 0) + (deadline - u) / TERMINATE_POLL_INTERVAL) as Hmono.
  { intros u Hu. unfold work. rewrite Hk2. specialize (Hk u Hu). specialize (Hg u Hu). lia. }
  assert (∀ u, w <= u → (deadline - u) / TERMINATE_POLL_INTERVAL <= (deadline - w) / TERMINATE_POLL_INTERVAL) as Hdiv
    by (intros u Hu; apply N.Div0.div_le_mono; lia).
  assert ((if w <? deadline then 1 else 0) = 1) as Hwd by (ltb_to true; done). rewrite Hwd in Hmono.
  set (u := wake_at deadline t s2).
  assert (u = deadline ∨ u = tn_wake t + TERMINATE_POLL_INTERVAL
    ∨ (∃ d, so_schedule s1 !! so_next s1 = Some d ∧ tn_wake t < du_at d ∧ u = du_at d)
    ∨ so_sigterm_at s2 = Some u) as Hu.
  { unfold u, wake_at. rewrite Hs2, Hn2. destruct (so_schedule s1 !! so_next s1) as [d|] eqn:Hl.
    - destruct (N.ltb_spec (tn_wake t) (du_at d)).
      + assert (∃ x, N.min (N.min deadline (tn_wake t + TERMINATE_POLL_INTERVAL)) (du_at d) = x
          ∧ (x = deadline ∨ x = tn_wake t + TERMINATE_POLL_INTERVAL ∨ x = du_at d)) as (x & -> & Hx) by (eexists; split; [done|lia]).
        destruct (so_sigterm_at s2) as [a|]; [destruct (N.min_spec x a) as [[_ ->]|[_ ->]]; [|by auto]|];
          destruct Hx as [-> |[-> | ->]]; eauto 10.
      + destruct (so_sigterm_at s2) as [a|]; [destruct (N.min_spec (N.min deadline (tn_wake t + TERMINATE_POLL_INTERVAL)) a) as [[_ ->]|[_ ->]]; [|by auto]|];
          destruct (N.min_spec deadline (tn_wake t + TERMINATE_POLL_INTERVAL)) as [[_ ->]|[_ ->]]; auto.
    - destruct (so_sigterm_at s2) as [a|]; [destruct (N.min_spec (N.min deadline (tn_wake t + TERMINATE_POLL_INTERVAL)) a) as [[_ ->]|[_ ->]]; [|by auto]|];
        destruct (N.min_spec deadline (tn_wake t + TERMINATE_POLL_INTERVAL)) as [[_ ->]|[_ ->]]; auto. }
  clearbody u. assert (w <= u) as Hwu.
  { destruct Hu as [-> |[-> |[(d & _ & Hd1 & ->)|Ha]]]; [lia|lia|lia|]. destruct (Hga u Ha). lia. }
  split; [done|]. specialize (Hmono u Hwu). specialize (Hdiv u Hwu).
  destruct Hu as [-> |[-> |[(d & Hl & Hd1 & ->)|Ha]]].
  - rewrite (proj2 (N.ltb_ge deadline deadline)) in Hmono by lia. lia.
  - set (x := tn_wake t + TERMINATE_POLL_INTERVAL) in *. destruct (N.ltb_spec x deadline) as [Hx|Hx]; [|lia].
    assert ((deadline - x) / TERMINATE_POLL_INTERVAL + 1 <= (deadline - w) / TERMINATE_POLL_INTERVAL); [|lia].
    rewrite <- (N.div_add (deadline - x) 1 TERMINATE_POLL_INTERVAL) by done.
    apply N.Div0.div_le_mono. unfold x in *. lia.
  - unfold work in *. rewrite Hk2 in *. specialize (Hkd d Hl ltac:(lia)). specialize (Hg (du_at d) Hwu).
    rewrite Hwd. destruct (du_at d <? deadline); lia.
  - destruct (Hga u Ha) as [_ Hlt]. unfold work in *. rewrite Hk2 in *. specialize (Hk u Hwu).
    rewrite Hwd. destruct (u <? deadline); lia.
Qed.

Lemma stop_loop_ends soft deadline turns w (s : Stop) :
  paced soft deadline w turns s → work deadline w s < len turns →
  ∃ r, stop_loop soft deadline turns s = Some r.
Proof.
  revert w s. induction turns as [|t turns IH]; intros w s Hp Hlen; [rewrite len_nil in Hlen; lia|].
  cbn [stop_loop paced] in *. destruct Hp as (Hw & Ho & Hp).
  destruct (N.ltb_spec (tn_loop t) deadline) as [Hd|Hd]; [|by eexists].
  destruct (stop_turn soft t s) as [s' []] eqn:Ht; [by eexists|].
  destruct (turn_works soft deadline t s s' w Hw Hd Ho Ht) as [_ Hlt].
  rewrite len_cons in Hlen. apply (IH _ s' (Hp eq_refl)). lia.
Qed.

(** C28: A stop ends.  With a clock on which no sleep ends early, a stop
    with a grace period of [grace] milliseconds answers within a turn for
    every 100 milliseconds of it and ten more, whatever the child, the writer
    queue, the operating system and the other holders of the lock do. *)
Theorem stop_ends start grace requested now exited turns (rt : SessionRuntime (J:=J)) :
  paced (soft_deadline start grace) (start + grace) start turns
    (begin_stop start grace requested (refresh_status now exited rt).1) →
  grace / TERMINATE_POLL_INTERVAL + 10 <= len turns →
  ∃ r, terminate_runtime start grace requested now exited turns rt = Some r.
Proof.
  intros Hp Hlen. unfold terminate_runtime. destruct (refresh_status now exited rt) as [rt1 []]; [by eexists|].
  cbn [fst] in Hp. destruct (stop_loop_ends _ _ _ _ _ Hp) as [[s o] ->]; [|by eexists].
  set (s := begin_stop _ _ _ _) in *.
  assert (key_work start s <= 6) as Hk.
  { etrans; [apply key_work_at|]. unfold s, begin_stop, build_soft_stop_schedule. cbn [so_schedule so_next].
    destruct ((grace =? 0) || _); [by apply N.leb_le|]. change (2 * (3 - 0) <= 6). lia. }
  assert (sig_work start s <= 2) as Hs by (unfold sig_work; destruct (so_sigterm_at s); [destruct (_ <=? _)|]; lia).
  unfold work. replace (start + grace - start) with grace by lia. destruct (_ <? _); lia.
Qed.
End Ending.

(** ** It escalates in order *)

Section Order.
Context `{Base64, Engine} {J : Type} `{Recorder J}.

#[local] Abbreviation Stop := (Stop (J:=J)).
#[local] Abbreviation Turn := (Turn (J:=J)).

(** Where a pending key is due: as planned, or as long after the last one sent
    as planned. *)
Definition due_at (plan : list Due) (sent : list Sent) (d : Due) : N :=
  match last sent, plan !! (length sent - 1)%nat with
  | Some a, Some p => se_sent a + (du_at d - du_at p)
  | _, _ => du_at d
  end.

Record in_plan (plan : list Due) (soft : N) (s : Stop) : Prop := {
  ip_length : length (so_schedule s) = length plan;
  ip_next : so_next s = length (so_sent s) ∨ so_next s = length plan;
  ip_sent : map se_input (so_sent s) = map du_input (take (length (so_sent s)) plan);
  ip_enough : (length (so_sent s) <= length plan)%nat;
  ip_pending : ∀ i d p, (length (so_sent s) <= i)%nat → so_schedule s !! i = Some d → plan !! i = Some p →
    du_input d = du_input p ∧ du_at d = due_at plan (so_sent s) p;
  ip_spaced : ∀ i a b p q, so_sent s !! i = Some a → so_sent s !! S i = Some b → plan !! i = Some p → plan !! S i = Some q →
    se_sent a + (du_at q - du_at p) <= se_due b;
  ip_soft : Forall (λ a, se_soft a < soft) (so_sent s);
}.

Record signalled (soft : N) (allowed : bool) (s : Stop) : Prop := {
  sg_allowed : allowed = false → so_sigterm_at s = None ∧ so_signals s = [];
  sg_pending : ∀ a, so_sigterm_at s = Some a → a = soft ∧ so_signals s = [];
  sg_once : len (so_signals s) <= 1;
  sg_time : Forall (λ x, soft <= x.1) (so_signals s);
}.

Definition rising (plan : list Due) : Prop :=
  ∀ i j p q, (i <= j)%nat → plan !! i = Some p → plan !! j = Some q → du_at p <= du_at q.

Lemma due_at_snoc plan sent a d p :
  rising plan → plan !! length sent = Some p → (∃ i, (length sent < i)%nat ∧ plan !! i = Some d) →
  du_at (mk_due (due_at plan sent p) []) <= se_sent a →
  due_at plan sent d + (se_sent a - due_at plan sent p) = due_at plan (sent ++ [a]) d.
Proof.
  intros Hr Hp (i & Hi & Hd). cbn [du_at]. intros Hle. unfold due_at at 3. rewrite last_snoc, length_app. cbn [length].
  replace (length sent + 1 - 1)%nat with (length sent) by lia. rewrite Hp.
  pose proof (Hr _ _ _ _ (Nat.lt_le_incl _ _ Hi) Hp Hd) as Hpd. unfold due_at in *.
  destruct (last sent) as [b|] eqn:Hl; [|lia]. destruct (plan !! (length sent - 1)%nat) as [p0|] eqn:Hp0; [|lia].
  assert (du_at p0 <= du_at p) by (eapply (Hr (length sent - 1)%nat (length sent)); [lia|done|done]). lia.
Qed.

Lemma send_due_in_plan plan soft t (s : Stop) :
  rising plan → ordered t → in_plan plan soft s → in_plan plan soft (send_due soft t s).
Proof.
  intros Hr (_ & _ & Ho & _ & _) [Hlen Hnext Hsent Henough Hpend Hsp Hsoft]. unfold send_due.
  destruct (N.leb_spec soft (tn_soft t)) as [Hlate|Hearly].
  { cbn [so_schedule]. rewrite (proj2 (lookup_ge_None (so_schedule s) _)) by lia. split; cbn; try done. right. lia. }
  cbn [so_schedule so_next so_runtime]. destruct (so_schedule s !! so_next s) as [d|] eqn:Hd; [|by split].
  destruct (N.leb_spec (du_at d) (tn_due t)) as [Hdue|]; [|by split].
  pose proof (lookup_lt_Some _ _ _ Hd) as Hlt.
  assert (so_next s = length (so_sent s)) as Hn by (destruct Hnext; [done|lia]).
  destruct (log_soft_stop_send _ _) as [pty|[]]; [|by split|by split; cbn; try done; right; lia].
  destruct (lookup_lt_is_Some_2 plan (so_next s)) as [p Hp]; [lia|].
  rewrite Hn in *. destruct (Hpend _ d p (le_n _) Hd Hp) as [Hin Hat].
  set (n := length (so_sent s)) in *. set (a := mk_sent _ _ _ _).
  split; cbn [so_schedule so_next so_sent].
  - rewrite length_app, length_map, length_take, length_drop. lia.
  - left. rewrite length_app. cbn. lia.
  - rewrite length_app, map_app, Hsent. cbn [length map]. fold n. rewrite Nat.add_1_r, (take_S_r _ _ _ Hp), map_app. unfold a. cbn [map se_input]. by rewrite Hin.
  - rewrite length_app. cbn. lia.
  - intros i d' q Hi Hd' Hq. rewrite length_app in Hi. cbn in Hi. fold n in Hi.
    rewrite lookup_app_r in Hd' by (rewrite length_take; lia). rewrite length_take in Hd'.
    replace (i - Nat.min (S n) (length (so_schedule s)))%nat with (i - S n)%nat in Hd' by lia.
    change (map ?f ?l) with (f <$> l) in Hd'. rewrite list_lookup_fmap, lookup_drop in Hd'.
    replace (S n + (i - S n))%nat with i in Hd' by lia.
    destruct (so_schedule s !! i) as [d0|] eqn:Hd0; [|done]. injection Hd' as <-.
    destruct (Hpend i d0 q ltac:(lia) Hd0 Hq) as [Hi0 Ha0]. cbn [shift du_input du_at]. split; [done|].
    rewrite Ha0, Hat. change (tn_sent t) with (se_sent a). apply due_at_snoc; [done|done|exists i; split; [fold n; lia|done]|].
    cbn [du_at]. rewrite <- Hat. cbn. lia.
  - intros i b c q q' Hb Hc Hq Hq'. destruct (Nat.lt_ge_cases (S i) n) as [Hi|Hi].
    { rewrite lookup_app_l in Hb, Hc by (fold n; lia). by eapply Hsp. }
    assert (S i = n) as Hin'.
    { apply lookup_lt_Some in Hc. rewrite length_app in Hc. cbn in Hc. fold n in Hc. lia. }
    rewrite lookup_app_l in Hb by (fold n; lia). rewrite lookup_app_r in Hc by (fold n; lia). fold n in Hc.
    replace (S i - n)%nat with 0%nat in Hc by lia. injection Hc as <-. cbn [se_due a].
    etrans; [|done]. rewrite Hat. rewrite Hin', Hp in Hq'. injection Hq' as <-. unfold due_at.
    rewrite last_lookup. fold n. replace (pred n) with i by lia. rewrite Hb. replace (n - 1)%nat with i by lia. rewrite Hq. done.
  - apply Forall_app. split; [done|]. apply Forall_cons. split; [by cbn|constructor].
Qed.

Lemma group_sigterm_signalled soft allowed t (s : Stop) :
  signalled soft allowed s → signalled soft allowed (group_sigterm t s).
Proof.
  intros Hs. pose proof Hs as [Ha Hp Ho Ht]. unfold group_sigterm.
  destruct (so_sigterm_at s) as [a|] eqn:Es; [|done]. destruct (N.leb_spec a (tn_term t)); [|done].
  destruct (Hp a eq_refl) as [-> Hnone]. clear Hs. split; cbn [so_sigterm_at so_signals]; rewrite Hnone.
  - intros Hf. by destruct (Ha Hf).
  - done.
  - destruct (tn_pid t); by apply N.leb_le.
  - destruct (tn_pid t); repeat constructor. done.
Qed.

Lemma group_sigterm_plan plan soft t (s : Stop) : in_plan plan soft s → in_plan plan soft (group_sigterm t s).
Proof.
  intros Hs. unfold group_sigterm. destruct (so_sigterm_at s) as [a|]; [|done].
  destruct (_ <=? _); [|done]. by destruct Hs; split.
Qed.

Lemma send_due_signals soft t (s : Stop) :
  so_sigterm_at (send_due soft t s) = so_sigterm_at s ∧ so_signals (send_due soft t s) = so_signals s.
Proof.
  unfold send_due. set (n := if soft <=? tn_soft t then _ else _). clearbody n. cbn [so_schedule so_runtime].
  destruct (so_schedule s !! n) as [d|]; [|done]. destruct (_ <=? _); [|done].
  by destruct (log_soft_stop_send _ _) as [pty|[]].
Qed.

Lemma stop_turn_keeps plan soft allowed t (s s' : Stop) b :
  rising plan → ordered t → in_plan plan soft s ∧ signalled soft allowed s →
  stop_turn soft t s = (s', b) → in_plan plan soft s' ∧ signalled soft allowed s'.
Proof.
  intros Hr Ho [Hi Hs]. unfold stop_turn. destruct (refresh_status _ _ _) as [rt []]; intros [= <- <-].
  - split; [by destruct Hi; split|by destruct Hs; split].
  - set (s0 := mk_stop _ _ _ _ _ _).
    assert (in_plan plan soft (send_due soft t s0)) as Hp by (apply send_due_in_plan; [done|done|by destruct Hi; split]).
    split.
    + by apply group_sigterm_plan.
    + apply group_sigterm_signalled.
      assert (so_sigterm_at (send_due soft t s0) = so_sigterm_at s ∧ so_signals (send_due soft t s0) = so_signals s) as [E1 E2].
      { by destruct (send_due_signals soft t s0). }
      destruct Hs as [Ha Hpe Hon Hti]. split; rewrite ?E1, ?E2; done.
Qed.

(** A forced kill comes at the deadline or later. *)
Lemma stop_loop_in_order plan soft deadline allowed turns (s s' : Stop) o :
  rising plan → Forall ordered turns → in_plan plan soft s ∧ signalled soft allowed s →
  stop_loop soft deadline turns s = Some (s', o) →
  in_plan plan soft s' ∧ signalled soft allowed s' ∧ ∀ at_ ok, o = Forced at_ ok → deadline <= at_.
Proof.
  intros Hr Ho. revert s. induction Ho as [|t turns Ht Ho IH]; intros s Hs; cbn [stop_loop]; [done|].
  destruct (N.ltb_spec (tn_loop t) deadline) as [Hd|Hd].
  - destruct (stop_turn soft t s) as [s1 b] eqn:E. pose proof (stop_turn_keeps _ _ _ _ _ _ _ Hr Ht Hs E) as Hs1.
    destruct b; [intros [= <- <-]; by destruct Hs1|]. by apply IH.
  - destruct Hs as [Hi Hsg]. unfold force. destruct (refresh_status _ _ _) as [rt []].
    + intros [= <- <-]. split_and!; [by destruct Hi; split|by destruct Hsg; split|done].
    + destruct (tn_kill t); intros [= <- <-]; (split_and!; [by destruct Hi; split|by destruct Hsg; split|by intros ?? [= <- _]]).
Qed.

Lemma schedule_rising start grace requested : rising (build_soft_stop_schedule start grace requested).
Proof.
  intros i j p q Hij. unfold build_soft_stop_schedule, SOFT_STOP_INPUTS. destruct (_ || _); [done|]. cbn [zip_with].
  assert (N.min DOUBLE_CTRL_C_DELAY (grace / DOUBLE_CTRL_C_DELAY_GRACE_DIVISOR) <= N.min 1000 (grace / 2)) as Hm.
  { unfold DOUBLE_CTRL_C_DELAY, DOUBLE_CTRL_C_DELAY_GRACE_DIVISOR.
    assert (grace / 4 <= grace / 2) by (apply N.div_le_lower_bound; [done|]; pose proof (N.Div0.mul_div_le grace 4); lia). lia. }
  set (x := N.min DOUBLE_CTRL_C_DELAY _) in *. set (y := N.min 1000 _) in *. clearbody x y.
  destruct i as [|[|[|i]]], j as [|[|[|j]]]; try lia; intros [= <-] [= <-]; cbn [du_at]; lia.
Qed.

(** C29: A stop escalates in order, and never early.  When a stop of a
    session has answered: the keys the writer queue took are Ctrl-C, Ctrl-C,
    Ctrl-D or the first of them, none for a kill, each at least as long after
    the one before as planned and each from a turn that began its key section
    within three quarters of the grace period; the process group was sent at
    most one SIGTERM, none for a kill, and not before those three quarters
    were over; the forced kill came at the deadline or later; and the answer
    is no only when that kill failed. *)
Theorem stop_escalates start grace requested now exited turns (rt rt' : SessionRuntime (J:=J)) answer s :
  Forall ordered turns → (refresh_status now exited rt).2 = false →
  terminate_runtime start grace requested now exited turns rt = Some (rt', answer, s) →
  let plan := build_soft_stop_schedule start grace requested in
  let soft := soft_deadline start grace in
  (∃ n, map se_input (so_sent s) = take n (if bool_decide (requested = Stopped) then SOFT_STOP_INPUTS else []))
  ∧ Forall (λ a, se_soft a < soft) (so_sent s)
  ∧ (∀ i a b p q, so_sent s !! i = Some a → so_sent s !! S i = Some b → plan !! i = Some p → plan !! S i = Some q →
      se_sent a + (du_at q - du_at p) <= se_due b)
  ∧ len (so_signals s) <= 1 ∧ Forall (λ x, soft <= x.1) (so_signals s)
  ∧ (requested ≠ Stopped → so_signals s = [])
  ∧ ∃ begun o, stop_loop soft (start + grace) turns begun = Some (s, o) ∧ answer = answer_of o
      ∧ ∀ at_ ok, o = Forced at_ ok → start + grace <= at_.
Proof.
  intros Ho Hfirst. unfold terminate_runtime. destruct (refresh_status now exited rt) as [rt1 b]. cbn [snd] in Hfirst. subst b.
  set (s0 := begin_stop start grace requested rt1). destruct (stop_loop _ _ turns s0) as [[s1 o]|] eqn:Hl; [|done].
  cbn [mbind option_bind]. intros [= <- <- <-].
  set (plan := build_soft_stop_schedule start grace requested). set (soft := soft_deadline start grace).
  set (allowed := bool_decide (requested = Stopped) && negb (grace =? 0)).
  destruct (stop_loop_in_order plan soft (start + grace) allowed turns s0 s1 o) as ([Hlen Hnext Hsent Henough _ Hsp Hsoft] & [Hal Hpe Hon Hti] & Hf);
    [apply schedule_rising|done| |done|].
  { split.
    - split; cbn [so_schedule so_next so_sent s0 begin_stop length map take last]; [done|by left|done|lia| |done|constructor].
      intros i d p _ Hd Hp. fold plan in Hd. rewrite Hd in Hp. by injection Hp as ->.
    - split; cbn [so_sigterm_at so_signals s0 begin_stop]; fold allowed.
      + intros Hf. by rewrite Hf.
      + intros a. destruct allowed; [by intros [= <-]|done].
      + apply N.le_0_l.
      + constructor. }
  split_and!; [|done|done|done|done| |by exists s0, o].
  - rewrite Hsent. unfold plan, build_soft_stop_schedule. destruct (bool_decide (requested = Stopped)) eqn:Eb.
    + destruct (grace =? 0); cbn [orb negb]; [exists 0%nat; by rewrite take_nil|].
      exists (length (so_sent s1)). by rewrite <- firstn_map.
    + rewrite orb_true_r. exists 0%nat. by rewrite take_nil.
  - intros Hne. apply Hal. unfold allowed. by rewrite bool_decide_eq_false_2.
Qed.

(** The keys all come before the signal's time. *)
Lemma keys_before_signal start seconds :
  0 < seconds →
  Forall (λ d, du_at d < soft_deadline start (1000 * seconds)) (build_soft_stop_schedule start (1000 * seconds) Stopped).
Proof.
  intros Hs. unfold build_soft_stop_schedule, soft_deadline, SOFT_STOP_INPUTS, DOUBLE_CTRL_C_DELAY, DOUBLE_CTRL_C_DELAY_GRACE_DIVISOR.
  eqb_to false. cbn [orb negb bool_decide].
  replace (1000 * seconds / 4) with (250 * seconds) by (apply N.div_unique with 0; lia).
  replace (1000 * seconds / 2) with (500 * seconds) by (apply N.div_unique with 0; lia).
  destruct (negb _); [constructor|]. cbn [zip_with]. repeat constructor; cbn [du_at]; lia.
Qed.
End Order.

(** ** Witnesses *)

Section Deciding.
Context `{Base64, Engine} {J : Type} `{Recorder J}.

Definition orderedb (t : Turn (J:=J)) : bool :=
  (tn_loop t <=? tn_soft t) && (tn_soft t <=? tn_due t) && (tn_due t <=? tn_sent t)
  && (tn_sent t <=? tn_term t) && (tn_term t <=? tn_wake t).

Fixpoint pacedb (soft deadline wake : N) (turns : list (Turn (J:=J))) (s : Stop) : bool :=
  match turns with
  | [] => true
  | t :: turns =>
      (wake <=? tn_loop t) && orderedb t
      && (let '(s, completed) := stop_turn soft t s in
          completed || pacedb soft deadline (wake_at deadline t s) turns s)
  end.

Lemma orderedb_spec t : orderedb t = true → ordered t.
Proof. unfold orderedb, ordered. rewrite !andb_true_iff, !N.leb_le. tauto. Qed.

Lemma pacedb_spec soft deadline wake turns s : pacedb soft deadline wake turns s = true → paced soft deadline wake turns s.
Proof.
  revert wake s. induction turns as [|t turns IH]; intros wake s; cbn [pacedb paced]; [done|].
  intros [[Hw Ho]%andb_true_iff Hp]%andb_true_iff. split_and!; [by apply N.leb_le|by apply orderedb_spec|].
  destruct (stop_turn soft t s) as [s' completed]. intros ->. by apply IH.
Qed.
End Deciding.

#[local] Existing Instance no_base64.
#[local] Existing Instance plain_engine.
#[local] Existing Instance csv_serde.
#[local] Existing Instance csv_laws.

(** A turn in which nothing happens, and one whose child has exited. *)
Definition idle_turn (at_ : N) (exited : option Z) : Turn (J:=Scheduled) :=
  mk_turn (λ rt, rt) (λ rt, rt) (Ok exited) (Some 42) at_ at_ at_ at_ at_ at_ at_ true (Ok (Some 9%Z)).

Definition stopped_runtime : SessionRuntime (J:=Scheduled) :=
  ss_runtime (spawned (spawn_session 0 sample_meta 24 80 true 100 sample_engine
    (sample_journal (mk_world sample_storage [])))).

Lemma stop_ends_witness :
  let turns := map (λ at_, idle_turn at_ None) ([0; 50; 75; 200] ++ replicate 10 300) in
  ∃ r, terminate_runtime 0 100 Stopped 0 (Ok None) turns stopped_runtime = Some r.
Proof.
  apply (stop_ends 0 100 Stopped 0 (Ok None) (map (λ at_, idle_turn at_ None) ([0; 50; 75; 200] ++ replicate 10 300)) stopped_runtime).
  - apply pacedb_spec. by vm_compute.
  - by apply N.leb_le.
Defined.

(** Two keys, a full second's grace, and the child goes on the second. *)
Lemma stop_escalates_witness :
  let turns := [idle_turn 0 None; idle_turn 100 None; idle_turn 250 None; idle_turn 350 (Some 0%Z)] in
  match terminate_runtime 0 1000 Stopped 0 (Ok None) turns stopped_runtime with
  | Some (rt, answer, s) => map se_input (so_sent s) = [[x03]; [x03]] ∧ len (so_signals s) <= 1 ∧ answer = true
  | None => False
  end.
Proof.
  pose proof (stop_escalates 0 1000 Stopped 0 (Ok None)
    [idle_turn 0 None; idle_turn 100 None; idle_turn 250 None; idle_turn 350 (Some 0%Z)] stopped_runtime) as Hall.
  assert (match terminate_runtime 0 1000 Stopped 0 (Ok None)
      [idle_turn 0 None; idle_turn 100 None; idle_turn 250 None; idle_turn 350 (Some 0%Z)] stopped_runtime with
    | Some (rt, answer, s) => bool_decide (map se_input (so_sent s) = [[x03]; [x03]]) && answer
    | None => false end = true) as Hrun by by vm_compute.
  revert Hall Hrun. cbv zeta. destruct (terminate_runtime _ _ _ _ _ _ _) as [[[rt answer] s]|]; intros Hall Hrun; [|discriminate].
  destruct (Hall rt answer s) as (_ & _ & _ & Hone & _).
  - repeat (apply Forall_cons; split; [apply orderedb_spec; reflexivity|]). constructor.
  - by vm_compute.
  - reflexivity.
  - apply andb_true_iff in Hrun as [Hsent Ha]. exact (conj (bool_decide_eq_true_1 _ Hsent) (conj Hone Ha)).
Defined.
