(* ===== verification/Auth.v ===== *)
(** * Authentication

    [src/src/http/auth.rs] with the revocation watches of
    [src/src/http/ws.rs] and [src/src/http/sse.rs]: the session tokens of the
    web interface, the lockout of guessing clients, the token a request
    carries, and the streams that stay open after it.  Password hashing is the
    third-party crate [argon2]: whether a password verified is an argument.
    Times are seconds of one clock.  The theorems say which requests are
    served, how many guesses the lockout lets through, and which streams a
    logout closes. *)

From S2P Require Import Prelude Utf8 Text RecordFormat SegmentScan Disk.

Abbreviation by_token A :=
  (@gmap bytes (@list_eq_dec byte byte_eq_dec) (@list_countable byte byte_eq_dec byte_countable) A).

Definition MAX_FAILED_ATTEMPTS : N := 3.
Definition LOCKOUT_DURATION : N := 15 * 60.
Definition SESSION_TTL : N := 7 * 24 * 60 * 60.
Definition AUTH_COOKIE_NAME : bytes := bs "oly_auth_token".

(** ** Tokens in a request *)

(** [HeaderMap]: names in lower case; [get] is the first value. *)
Definition HeaderMap : Type := list (bytes * bytes).

(** [HeaderValue::to_str]: visible ASCII and tabs only. *)
Definition to_str (v : bytes) : option bytes :=
  if forallb (λ b, in_byte_range x20 x7e b || (b =b x09)) v then Some v else None.
Definition header (name : bytes) (headers : HeaderMap) : option bytes :=
  '(_, v) ← find (λ h, bytes_eqb h.1 name) headers; to_str v.

Definition extract_bearer_token (headers : HeaderMap) : option bytes :=
  v ← header (bs "authorization") headers; strip_prefix (bs "Bearer ") v.

(** [find_map] over the cookies of a header. *)
Fixpoint find_cookie (cookies : list bytes) : option bytes :=
  match cookies with
  | [] => None
  | cookie :: cookies =>
      match split_once x3d (trim cookie) with
      | Some (name, value) =>
          if bytes_eqb name AUTH_COOKIE_NAME && negb (len value =? 0) then Some value else find_cookie cookies
      | None => find_cookie cookies
      end
  end.
Definition extract_cookie_token (headers : HeaderMap) : option bytes :=
  raw ← header (bs "cookie") headers; find_cookie (split_on x3b raw).

Definition extract_query_token (query : option bytes) : option bytes :=
  q ← query;
  part ← find (starts_with (bs "token=")) (split_on x26 q);
  strip_prefix (bs "token=") part.

Definition extract_request_token_parts (headers : HeaderMap) (query : option bytes) : option bytes :=
  match extract_bearer_token headers with
  | Some token => Some token
  | None =>
      match extract_query_token query with
      | Some token => Some token
      | None => extract_cookie_token headers
      end
  end.

Definition build_auth_cookie (token : bytes) (secure : bool) : bytes :=
  AUTH_COOKIE_NAME ++ bs "=" ++ token ++ bs "; Path=/; Max-Age=" ++ show_dec SESSION_TTL
  ++ bs "; HttpOnly; SameSite=Lax" ++ (if secure then bs "; Secure" else []).
Definition clear_auth_cookie : bytes :=
  AUTH_COOKIE_NAME ++ bs "=; Path=/; HttpOnly; SameSite=Lax; Max-Age=0".


Definition request_is_tls (headers : HeaderMap) : bool :=
  match header (bs "x-forwarded-proto") headers with
  | Some v => eq_ignore_ascii_case v (bs "https")
  | None => false
  end.

(** [split_once("://")]. *)
Fixpoint split_scheme (l : bytes) : option (bytes * bytes) :=
  match l with
  | [] => None
  | b :: rest =>
      if starts_with (bs "://") l then Some ([], drop 3 l)
      else '(x, y) ← split_scheme rest; Some (b :: x, y)
  end.

Definition ws_origin_allowed (headers : HeaderMap) : bool :=
  match find (λ h, bytes_eqb h.1 (bs "origin")) headers with
  | None => true
  | Some (_, v) =>
      match to_str v with
      | None => false
      | Some origin =>
          let '(scheme, rest) := default ([], origin) (split_scheme origin) in
          let authority := ascii_lowercase (default [] (head (split_on x2f rest))) in
          if len authority =? 0 then false
          else
            let default_port :=
              if bytes_eqb scheme (bs "https") || bytes_eqb scheme (bs "wss") then bs ":443" else bs ":80" in
            let authority_no_default_port := strip_suffix default_port authority in
            let matches := λ candidate,
              let candidate := ascii_lowercase (trim candidate) in
              negb (len candidate =? 0)
              && (bytes_eqb candidate authority
                  || match authority_no_default_port with Some a => bytes_eqb candidate a | None => false end) in
            match header (bs "host") headers with Some host => matches host | None => false end
            || match header (bs "x-forwarded-host") headers with
               | Some xfh => existsb matches (split_on x2c xfh)
               | None => false
               end
      end
  end.

(** The paths [require_auth] lets through, and those where a token may come in
    the query. *)
Definition ends_with (s l : bytes) : bool := match strip_suffix s l with Some _ => true | None => false end.
Definition is_public (path : bytes) : bool :=
  bytes_eqb path (bs "/api/health") || bytes_eqb path (bs "/api/ready")
  || starts_with (bs "/api/auth/") path || negb (starts_with (bs "/api/") path).
Definition is_upgrade_path (path : bytes) : bool :=
  ends_with (bs "/attach") path || bytes_eqb path (bs "/api/sessions/events").

(** ** Sessions and lockouts *)

Section Auth.
Context {Ip : Type} `{Countable Ip}.

Record LockoutRecord := mk_lockout {
  lk_failed_attempts : N;
  lk_locked_until : option N;
}.

(** [AuthState]; the revocations are a [tokio::sync::watch] channel, of which
    only the version counts. *)
Record AuthState := mk_auth {
  au_sessions : by_token N;
  au_revocations : N;
  au_lockout : gmap Ip LockoutRecord;
}.
#[export] Instance AuthState_eta : Settable AuthState := λ a,
  mk_auth (au_sessions a) (au_revocations a) (au_lockout a).
Definition new_auth : AuthState := mk_auth ∅ 0 ∅.

(** One round of the background task. *)
Definition cleanup (now : N) (a : AuthState) : AuthState :=
  a <| au_lockout := filter (λ kr, match lk_locked_until kr.2 with None => true | Some t => now <? t end = true) (au_lockout a) |>
    <| au_sessions := filter (λ kt, now < kt.2) (au_sessions a) |>.

Definition issue_session (now : N) (token : bytes) (a : AuthState) : AuthState :=
  a <| au_sessions := <[token := now + SESSION_TTL]> (au_sessions a) |>.

Definition validate_token (now : N) (token : bytes) (a : AuthState) : AuthState * bool :=
  match au_sessions a !! token with
  | Some expires_at =>
      if now <? expires_at then (a, true)
      else (a <| au_sessions := delete token (au_sessions a) |>, false)
  | None => (a, false)
  end.

Definition revoke_token (token : bytes) (a : AuthState) : AuthState :=
  match au_sessions a !! token with
  | Some _ => a <| au_sessions := delete token (au_sessions a) |> <| au_revocations := au_revocations a + 1 |>
  | None => a
  end.

Definition locked_until (now : N) (ip : Ip) (a : AuthState) : AuthState * option N :=
  match au_lockout a !! ip with
  | Some record =>
      match lk_locked_until record with
      | Some t => if now <? t then (a, Some t) else (a <| au_lockout := delete ip (au_lockout a) |>, None)
      | None => (a, None)
      end
  | None => (a, None)
  end.

Inductive FailureOutcome :=
  | LockedOut (until_ : N)
  | AttemptsRemaining (n : N).

Definition record_failure (now : N) (ip : Ip) (a : AuthState) : AuthState * FailureOutcome :=
  let record := default (mk_lockout 0 None) (au_lockout a !! ip) in
  let failed_attempts := lk_failed_attempts record + 1 in
  if MAX_FAILED_ATTEMPTS <=? failed_attempts then
    let until_ := now + LOCKOUT_DURATION in
    (a <| au_lockout := <[ip := mk_lockout failed_attempts (Some until_)]> (au_lockout a) |>, LockedOut until_)
  else
    (a <| au_lockout := <[ip := mk_lockout failed_attempts (lk_locked_until record)]> (au_lockout a) |>,
     AttemptsRemaining (MAX_FAILED_ATTEMPTS - failed_attempts)).

(** [login] answers in two steps, as the password is verified between them
    and off the lock. *)
Inductive LoginAnswer :=
  | NoAuth
  | TooMany (retry_after_seconds : N)
  | InvalidPassword (attempts_remaining : N)
  | LoggedIn (token : bytes).

(** The check before the password is looked at: an answer, or go on. *)
Definition login_check (now : N) (ip : Ip) (a : AuthState) : AuthState * option LoginAnswer :=
  let '(a, locked) := locked_until now ip a in (a, (λ t, TooMany (t - now)) <$> locked).

(** What the password's verification leads to; [token] is what the random
    generator gives. *)
Definition login_finish (now : N) (ip : Ip) (verified : bool) (token : bytes) (a : AuthState)
    : AuthState * LoginAnswer :=
  if verified then
    (issue_session now token (a <| au_lockout := delete ip (au_lockout a) |>), LoggedIn token)
  else
    let '(a, outcome) := record_failure now ip a in
    (a, match outcome with
        | LockedOut until_ => TooMany (until_ - now)
        | AttemptsRemaining n => InvalidPassword n
        end).

(** A login nobody else's comes between. *)
Definition login (now : N) (ip : Ip) (verified : bool) (token : bytes) (auth : option AuthState)
    : option AuthState * LoginAnswer :=
  match auth with
  | None => (None, NoAuth)
  | Some a =>
      let '(a, answer) := login_check now ip a in
      match answer with
      | Some answer => (Some a, answer)
      | None => let '(a, answer) := login_finish now ip verified token a in (Some a, answer)
      end
  end.

Definition logout (headers : HeaderMap) (auth : option AuthState) : option AuthState :=
  match auth with
  | None => None
  | Some a =>
      Some match extract_request_token_parts headers None with
           | Some token => revoke_token token a
           | None => a
           end
  end.

(** [authorize_request]: is the request served? *)
Definition authorize_request (now : N) (token : option bytes) (auth : option AuthState)
    : option AuthState * bool :=
  match auth with
  | None => (None, true)
  | Some a =>
      match token with
      | Some token => let '(a, valid) := validate_token now token a in (Some a, valid)
      | None => (Some a, false)
      end
  end.

Definition require_auth (now : N) (path : bytes) (headers : HeaderMap) (query : option bytes)
    (auth : option AuthState) : option AuthState * bool :=
  if is_public path then (auth, true)
  else
    let query := if is_upgrade_path path then query else None in
    authorize_request now (extract_request_token_parts headers query) auth.

(** ** Open streams *)

(** A stream that watches for revocations: its token, empty when it watches
    nothing, and the version it has seen. *)
Record StreamWatch := mk_watch {
  sw_token : bytes;
  sw_seen : N;
}.

(** [handle_ws] starts [serve_attach] on a session of this daemon, or of the
    node [node]. *)
Definition open_attach (node : option bytes) (headers : HeaderMap) (a : AuthState) : StreamWatch :=
  let reconnect_token := default [] (extract_request_token_parts headers None) in
  match node with
  | Some _ => mk_watch reconnect_token (au_revocations a)
  | None => mk_watch [] (au_revocations a)
  end.

(** The revocation arm of [serve_attach]: does the stream close? *)
Definition attach_look (now : N) (w : StreamWatch) (a : AuthState) : AuthState * StreamWatch * bool :=
  match sw_token w with
  | [] => (a, w, false)
  | token =>
      if sw_seen w =? au_revocations a then (a, w, false)
      else
        let w := mk_watch token (au_revocations a) in
        let '(a, valid) := validate_token now token a in (a, w, negb valid)
  end.

(** The stop signal of the event stream: it validates first, then waits; it
    goes round once for each version it is woken by. *)
Definition open_events (now : N) (token : bytes) (a : AuthState) : AuthState * StreamWatch * bool :=
  let w := mk_watch token (au_revocations a) in
  let '(a, valid) := validate_token now token a in (a, w, negb valid).
Definition events_look (now : N) (w : StreamWatch) (a : AuthState) : AuthState * StreamWatch * bool :=
  if sw_seen w =? au_revocations a then (a, w, false)
  else
    let w := mk_watch (sw_token w) (au_revocations a) in
    let '(a, valid) := validate_token now (sw_token w) a in (a, w, negb valid).
End Auth.

(** ** Tokens over time *)

Section Tokens.
Context {Ip : Type} `{Countable Ip}.

(** One locked section of the authentication state. *)
Inductive AuthOp :=
  | OCheck (ip : Ip)
  | OFinish (ip : Ip) (verified : bool) (token : bytes)
  | OCleanup
  | OValidate (token : bytes)
  | ORevoke (token : bytes).

Definition auth_step (a : AuthState (Ip:=Ip)) (x : N * AuthOp) : AuthState (Ip:=Ip) :=
  let '(now, op) := x in
  match op with
  | OCheck ip => (login_check now ip a).1
  | OFinish ip verified token => (login_finish now ip verified token a).1
  | OCleanup => cleanup now a
  | OValidate token => (validate_token now token a).1
  | ORevoke token => revoke_token token a
  end.
Definition auth_run (xs : list (N * AuthOp)) (a : AuthState (Ip:=Ip)) : AuthState (Ip:=Ip) := foldl auth_step a xs.

(** When a token expires, if it was issued and not revoked since. *)
Definition stand (token : bytes) (expires : option N) (x : N * AuthOp) : option N :=
  match x.2 with
  | OFinish _ true t => if bytes_eqb t token then Some (x.1 + SESSION_TTL) else expires
  | ORevoke t => if bytes_eqb t token then None else expires
  | _ => expires
  end.
Definition standing (token : bytes) (xs : list (N * AuthOp)) : option N := foldl (stand token) None xs.

(** The times of the operations never go back. *)
Fixpoint in_time (from : N) (xs : list (N * AuthOp)) (until_ : N) : Prop :=
  match xs with
  | [] => from <= until_
  | x :: xs => from <= x.1 ∧ in_time x.1 xs until_
  end.

(** The state keeps what stands, until it has expired. *)
Definition keeps_standing (last : N) (a : AuthState (Ip:=Ip)) (expiry : bytes → option N) : Prop :=
  ∀ token, (∀ e, au_sessions a !! token = Some e → expiry token = Some e)
    ∧ (∀ e, expiry token = Some e → au_sessions a !! token = Some e ∨ e <= last).

Lemma keeps_standing_later last now a expiry : last <= now → keeps_standing last a expiry → keeps_standing now a expiry.
Proof. intros Hle Hk token. destruct (Hk token) as [Ha Hb]. split; [done|]. intros e [He|He]%Hb; [by left|right; lia]. Qed.

Lemma same_sessions last a a' expiry :
  au_sessions a' = au_sessions a → keeps_standing last a expiry → keeps_standing last a' expiry.
Proof. unfold keeps_standing. by intros ->. Qed.

(** Dropping expired tokens changes nothing that stands. *)
Lemma drop_expired last now a a' expiry :
  last <= now → keeps_standing last a expiry →
  (∀ t e, au_sessions a' !! t = Some e → au_sessions a !! t = Some e) →
  (∀ t e, au_sessions a !! t = Some e → au_sessions a' !! t = Some e ∨ e <= now) →
  keeps_standing now a' expiry.
Proof.
  intros Hle Hk Hsub Hkeep token. destruct (Hk token) as [Ha Hb]. split; [by eauto|].
  intros e [He|He]%Hb; [by apply Hkeep|right; lia].
Qed.

Lemma validate_keeps last now token a expiry :
  last <= now → keeps_standing last a expiry → keeps_standing now (validate_token now token a).1 expiry.
Proof.
  intros Hle Hk. unfold validate_token. destruct (au_sessions a !! token) as [e|] eqn:He; [|by eapply keeps_standing_later].
  destruct (N.ltb_spec now e); [by eapply keeps_standing_later|]. apply (drop_expired last now a); [done|done|..]; cbn.
  - intros t e' Ht. destruct (decide (t = token)) as [-> |Hne]; [by rewrite lookup_delete_eq in Ht|].
    by rewrite lookup_delete_ne in Ht by done.
  - intros t e' Ht. destruct (decide (t = token)) as [-> |Hne]; [right; rewrite He in Ht; injection Ht as <-; done|].
    left. by rewrite lookup_delete_ne by done.
Qed.

Lemma step_keeps last x a expiry :
  last <= x.1 → keeps_standing last a expiry →
  keeps_standing x.1 (auth_step a x) (λ token, stand token (expiry token) x).
Proof.
  destruct x as [now op]. cbn [fst]. intros Hle Hk. pose proof (keeps_standing_later _ _ _ _ Hle Hk) as Hk'.
  destruct op as [ip|ip verified token| |token|token]; cbn [auth_step].
  - assert (au_sessions (login_check now ip a).1 = au_sessions a) as Hs.
    { unfold login_check, locked_until. repeat case_match; simplify_eq/=; done. }
    by apply (same_sessions _ a).
  - destruct verified; cbn [login_finish].
    + intros t. unfold stand. cbn [snd fst issue_session au_sessions]. cbn. unfold bytes_eqb.
      destruct (decide (token = t)) as [-> |Hne].
      * rewrite bool_decide_eq_true_2 by done. rewrite lookup_insert_eq. split; [done|]. intros e [= <-]. by left.
      * rewrite bool_decide_eq_false_2 by done. rewrite lookup_insert_ne by done. apply Hk'.
    + apply (same_sessions _ a); [|done]. unfold record_failure. destruct (_ <=? _); done.
  - apply (drop_expired last now a); [done|done|..]; cbn.
    + intros t e Ht%map_lookup_filter_Some. by destruct Ht.
    + intros t e Ht. destruct (N.lt_ge_cases now e); [left; by apply map_lookup_filter_Some|by right].
  - by apply (validate_keeps last).
  - intros t. unfold stand, revoke_token. cbn [snd]. unfold bytes_eqb. destruct (Hk' t) as [Ha Hb].
    destruct (decide (token = t)) as [-> |Hne].
    + rewrite bool_decide_eq_true_2 by done. split; [|done]. intros e. destruct (au_sessions a !! t) eqn:Et; cbn; [|by rewrite Et].
      by rewrite lookup_delete_eq.
    + rewrite bool_decide_eq_false_2 by done. destruct (au_sessions a !! token) eqn:Et; cbn; [|by split].
      rewrite lookup_delete_ne by done. by split.
Qed.

Lemma run_keeps xs last a expiry until_ :
  in_time last xs until_ → keeps_standing last a expiry →
  keeps_standing until_ (auth_run xs a) (λ token, foldl (stand token) (expiry token) xs).
Proof.
  revert last a expiry. induction xs as [|x xs IH]; intros last a expiry; cbn [in_time foldl auth_run].
  { intros Hle. by apply keeps_standing_later. }
  intros [Hle Hin] Hk. by apply (IH x.1 _ (λ token, stand token (expiry token) x)), step_keeps with last.
Qed.

Lemma validate_standing now token a expiry :
  keeps_standing now a expiry →
  (validate_token now token a).2 = match expiry token with Some e => now <? e | None => false end.
Proof.
  intros Hk. destruct (Hk token) as [Ha Hb]. unfold validate_token. destruct (au_sessions a !! token) as [e|] eqn:He.
  - rewrite (Ha e eq_refl). by destruct (now <? e).
  - destruct (expiry token) as [e|] eqn:Ee; [|done]. destruct (Hb e eq_refl) as [Hs|Hle]; [done|].
    cbn. symmetry. by apply N.ltb_ge.
Qed.

(** C30: Requests need a standing token.  After any history of logins,
    failed ones, logouts, checked requests and cleanup rounds on one clock, a
    request on a protected path is served if and only if it carries a token
    that a login issued less than seven days ago and no logout has revoked
    since. *)
Theorem requests_need_standing_token xs now path headers query :
  in_time 0 xs now → is_public path = false →
  (require_auth now path headers query (Some (auth_run xs new_auth))).2
  = match extract_request_token_parts headers (if is_upgrade_path path then query else None) with
    | Some token => match standing token xs with Some expires => now <? expires | None => false end
    | None => false
    end.
Proof.
  intros Hin Hp. unfold require_auth. rewrite Hp. unfold authorize_request.
  destruct (extract_request_token_parts _ _) as [token|]; [|done].
  assert (keeps_standing now (auth_run xs new_auth) (λ t, standing t xs)) as Hk.
  { apply (run_keeps xs 0 new_auth (λ _, None)); [done|]. intros t. split; [|done]. by intros e. }
  pose proof (validate_standing now token _ _ Hk) as Hv. cbv beta in Hv. by destruct (validate_token _ _ _).
Qed.
End Tokens.

(** ** Guesses *)

Section Guesses.
Context {Ip : Type} `{Countable Ip} (ip : Ip).

(** Logins one at a time, cleanup rounds between them: a wrong guess of [ip],
    and what others do. *)
Inductive SerialOp :=
  | SGuess
  | SOther (other : Ip) (verified : bool) (token : bytes)
  | SCleanup.

(** The state, and how many guesses had their password looked at. *)
Definition serial_step (st : AuthState (Ip:=Ip) * N) (x : N * SerialOp) : AuthState * N :=
  let '(a, looked) := st in
  match x.2 with
  | SGuess =>
      let '(a, answer) := login_check x.1 ip a in
      match answer with
      | Some _ => (a, looked)
      | None => ((login_finish x.1 ip false [] a).1, looked + 1)
      end
  | SOther other verified token => (default a (login x.1 other verified token (Some a)).1, looked)
  | SCleanup => (cleanup x.1 a, looked)
  end.

Fixpoint serial_in_time (from : N) (xs : list (N * SerialOp)) (until_ : N) : Prop :=
  match xs with
  | [] => from <= until_
  | x :: xs => from <= x.1 ∧ serial_in_time x.1 xs until_
  end.

(** Rounds of three guesses, a lockout apart; within the current one, how many
    guesses failed, or until when the client is locked out. *)
Definition guessing (t0 last : N) (record : option LockoutRecord) (looked : N) : Prop :=
  ∃ rounds, t0 + LOCKOUT_DURATION * rounds <= last
    ∧ match record with
      | None => looked = 3 * rounds
      | Some (mk_lockout failed None) => failed < 3 ∧ looked = 3 * rounds + failed
      | Some (mk_lockout failed (Some u)) => looked = 3 * rounds + 3 ∧ t0 + LOCKOUT_DURATION * (rounds + 1) <= u
      end.

Lemma guessing_later t0 last now record looked : last <= now → guessing t0 last record looked → guessing t0 now record looked.
Proof. intros Hle (r & Hr & Hm). exists r. split; [lia|done]. Qed.

(** A lockout that is over can be forgotten. *)
Lemma guessing_over t0 last now failed u looked :
  last <= now → u <= now → guessing t0 last (Some (mk_lockout failed (Some u))) looked → guessing t0 now None looked.
Proof. intros Hle Hu (r & Hr & -> & Hr'). exists (r + 1). split; [lia|lia]. Qed.

Lemma other_same now other (verified : bool) token (a : AuthState (Ip:=Ip)) :
  other ≠ ip → au_lockout (default a (login now other verified token (Some a)).1) !! ip = au_lockout a !! ip.
Proof.
  intros Hne. unfold login, login_check, locked_until.
  assert (∀ a1 : AuthState (Ip:=Ip), au_lockout a1 !! ip = au_lockout a !! ip →
    au_lockout (login_finish now other verified token a1).1 !! ip = au_lockout a !! ip) as Hfin.
  { intros a1 <-. unfold login_finish, record_failure. destruct verified; cbn; [by rewrite lookup_delete_ne|].
    destruct (_ <=? _); cbn; by rewrite lookup_insert_ne. }
  assert (au_lockout (a <| au_lockout := delete other (au_lockout a) |>) !! ip = au_lockout a !! ip) as Hdel
    by (cbn; by rewrite lookup_delete_ne).
  destruct (au_lockout a !! other) as [[f [u|]]|]; cbn [lk_locked_until].
  - destruct (now <? u); cbn [fmap option_fmap option_map]; [done|].
    pose proof (Hfin _ Hdel) as Hf. by destruct (login_finish _ _ _ _ _).
  - cbn [fmap option_fmap option_map]. pose proof (Hfin a eq_refl) as Hf. by destruct (login_finish _ _ _ _ _).
  - cbn [fmap option_fmap option_map]. pose proof (Hfin a eq_refl) as Hf. by destruct (login_finish _ _ _ _ _).
Qed.

Lemma serial_step_ok t0 last a looked x :
  last <= x.1 → t0 <= last → (∀ o v t, x.2 = SOther o v t → o ≠ ip) →
  guessing t0 last (au_lockout a !! ip) looked →
  let '(a', looked') := serial_step (a, looked) x in guessing t0 x.1 (au_lockout a' !! ip) looked'.
Proof.
  destruct x as [now op]. cbn [fst snd]. intros Hle H0 Ho Hg. destruct op as [|other verified token|]; unfold serial_step; cbn [fst snd].
  - assert (∀ a1 : AuthState (Ip:=Ip), guessing t0 now (au_lockout a1 !! ip) looked →
      (∀ f u, au_lockout a1 !! ip ≠ Some (mk_lockout f (Some u))) →
      guessing t0 now (au_lockout (login_finish now ip false [] a1).1 !! ip) (looked + 1)) as Hfail.
    { intros a1 (r & Hr & Hm) Hnl. unfold login_finish, record_failure. set (rec := default _ _).
      assert (lk_failed_attempts rec < 3 ∧ looked = 3 * r + lk_failed_attempts rec ∧ lk_locked_until rec = None) as (Hf & -> & Hl).
      { unfold rec. destruct (au_lockout a1 !! ip) as [[f [u|]]|]; cbn; [by destruct (Hnl f u)|by destruct Hm|]. split_and!; [lia|lia|done]. }
      unfold MAX_FAILED_ATTEMPTS. destruct (N.leb_spec 3 (lk_failed_attempts rec + 1)); cbn [fst au_lockout];
        rewrite ?Hl; cbn; rewrite lookup_insert_eq; exists r; (split; [done|]); lia. }
    unfold login_check, locked_until. destruct (au_lockout a !! ip) as [[f [u|]]|] eqn:Er; cbn [lk_locked_until]; rewrite ?Er in Hg.
    + destruct (N.ltb_spec now u); cbn [fmap option_fmap option_map].
      * rewrite Er. by eapply (guessing_later t0 last now).
      * apply Hfail; cbn; rewrite lookup_delete_eq; first [by eapply (guessing_over t0 last now f u)|by intros ???].
    + cbn [fmap option_fmap option_map]. apply Hfail; rewrite Er; first [by eapply (guessing_later t0 last now)|by intros ???].
    + cbn [fmap option_fmap option_map]. apply Hfail; rewrite Er; first [by eapply (guessing_later t0 last now)|by intros ???].
  - rewrite other_same by by eapply Ho. by eapply (guessing_later t0 last now).
  - unfold cleanup. cbn. destruct (au_lockout a !! ip) as [[f [u|]]|] eqn:Er; rewrite ?Er in Hg.
    + destruct (N.lt_ge_cases now u) as [Hlt|Hge].
      * rewrite (map_lookup_filter_Some_2 _ _ _ _ Er) by (cbn; by apply N.ltb_lt). by eapply (guessing_later t0 last now).
      * assert (filter (λ kr : Ip * LockoutRecord, match lk_locked_until kr.2 with None => true | Some t => now <? t end = true) (au_lockout a) !! ip = None) as ->.
        { apply map_lookup_filter_None. right. intros x Hx. rewrite Er in Hx. injection Hx as <-. cbn. rewrite N.ltb_lt. lia. }
        by eapply (guessing_over t0 last now f u).
    + rewrite (map_lookup_filter_Some_2 _ _ _ _ Er) by done. by eapply (guessing_later t0 last now).
    + assert (filter (λ kr : Ip * LockoutRecord, match lk_locked_until kr.2 with None => true | Some t => now <? t end = true) (au_lockout a) !! ip = None) as ->
        by (apply map_lookup_filter_None; by left).
      by eapply (guessing_later t0 last now).
Qed.

Lemma serial_run_ok xs t0 last until_ (a : AuthState (Ip:=Ip)) looked :
  serial_in_time last xs until_ → t0 <= last → Forall (λ x, ∀ o v t, x.2 = SOther o v t → o ≠ ip) xs →
  guessing t0 last (au_lockout a !! ip) looked →
  let '(a', looked') := foldl serial_step (a, looked) xs in guessing t0 until_ (au_lockout a' !! ip) looked'.
Proof.
  revert last a looked. induction xs as [|x xs IH]; intros last a looked; cbn [serial_in_time foldl].
  { intros Hle _ _. by apply guessing_later. }
  intros [Hle Hin] H0 [Ho Hos]%Forall_cons Hg. pose proof (serial_step_ok t0 last a looked x Hle H0 Ho Hg) as Hs.
  destruct (serial_step (a, looked) x) as [a1 looked1]. apply (IH x.1); [done|lia|done|done].
Qed.

(** The lockout counts logins, not guesses under way.  Of the wrong
    guesses a client makes one after the other, whatever other clients and the
    cleanup do, at most three for each started quarter of an hour have their
    password looked at.  But the check comes before the password is verified
    and the failure is noted after: of any number of logins that pass the
    check together, every one has its password looked at, so the right one is
    let in after any number of wrong ones. *)
Theorem lockout_bounds_serial_guesses :
  (∀ xs t0 until_, serial_in_time t0 xs until_ → Forall (λ x, ∀ o v t, x.2 = SOther o v t → o ≠ ip) xs →
    (foldl serial_step (new_auth, 0) xs).2 <= 3 * ((until_ - t0) / LOCKOUT_DURATION + 1))
  ∧ (∀ n now token, let checked := Nat.iter (S n) (λ a, (login_check now ip a).1) new_auth in
      (∀ k, (k <= n)%nat → (login_check now ip (Nat.iter k (λ a, (login_check now ip a).1) new_auth)).2 = None)
      ∧ (login_finish now ip true token (Nat.iter n (λ a, (login_finish now ip false [] a).1) checked)).2 = LoggedIn token).
Proof.
  split.
  - intros xs t0 until_ Hin Ho. pose proof (serial_run_ok xs t0 t0 until_ new_auth 0 Hin (N.le_refl _) Ho) as Hrun.
    destruct (foldl serial_step _ xs) as [a looked]. cbn [snd]. destruct Hrun as (r & Hr & Hm).
    { exists 0. split; [lia|]. unfold new_auth. cbn [au_lockout]. by rewrite lookup_empty. }
    assert (looked <= 3 * r + 3) by (destruct (au_lockout a !! ip) as [[f [u|]]|]; lia).
    assert (r <= (until_ - t0) / LOCKOUT_DURATION) by (apply N.div_le_lower_bound; [done|lia]). lia.
  - intros n now token. assert (∀ k, Nat.iter k (λ a, (login_check now ip a).1) new_auth = new_auth) as Hk.
    { induction k as [|k IH]; [done|]. by rewrite Nat.iter_succ, IH. }
    cbv zeta. split; [intros k _; by rewrite Hk|done].
Qed.
End Guesses.

(** ** Streams and logouts *)

Section Streams.
Context {Ip : Type} `{Countable Ip}.

(** A token that stays in the table while nothing revokes it. *)
Definition leaves (token : bytes) (expires : N) (x : N * AuthOp (Ip:=Ip)) : Prop :=
  x.1 < expires ∧ ∀ ip, x.2 ≠ OFinish ip true token.

Lemma step_version (a : AuthState (Ip:=Ip)) x : au_revocations a <= au_revocations (auth_step a x).
Proof.
  destruct x as [now []]; cbn [auth_step].
  - unfold login_check, locked_until. repeat case_match; simplify_eq/=; done.
  - unfold login_finish, record_failure. destruct verified; [done|]. by destruct (_ <=? _).
  - done.
  - unfold validate_token. repeat case_match; done.
  - unfold revoke_token. case_match; cbn; lia.
Qed.

Definition revokes (token : bytes) (x : N * AuthOp (Ip:=Ip)) : bool :=
  match x.2 with ORevoke t => bytes_eqb t token | _ => false end.

(** Only a revocation takes it out, and then there is a new version. *)
Lemma step_leaves token expires (a : AuthState (Ip:=Ip)) x :
  leaves token expires x → (∀ e, au_sessions a !! token = Some e → e = expires) →
  let a' := auth_step a x in
  au_sessions a' !! token = (if revokes token x then None else au_sessions a !! token)
  ∧ (revokes token x = true → is_Some (au_sessions a !! token) → au_revocations a < au_revocations a').
Proof.
  destruct x as [now op]. intros [Hlt Hno] Ha. unfold revokes. cbn [fst snd] in *. cbv zeta.
  destruct op as [ip|ip verified t| |t|t]; cbn [auth_step].
  - split; [|done]. unfold login_check, locked_until. repeat case_match; simplify_eq/=; done.
  - split; [|done]. unfold login_finish. destruct verified.
    + cbn. rewrite lookup_insert_ne; [done|]. intros ->. by destruct (Hno ip).
    + unfold record_failure. by destruct (_ <=? _).
  - split; [|done]. cbn. destruct (au_sessions a !! token) as [e|] eqn:Et.
    + apply map_lookup_filter_Some. split; [done|]. cbn. by rewrite (Ha e eq_refl).
    + apply map_lookup_filter_None. by left.
  - split; [|done]. unfold validate_token. destruct (au_sessions a !! t) as [e|] eqn:Et; [|done].
    destruct (N.ltb_spec now e) as [Hl|Hl]; [done|]. cbn. destruct (decide (t = token)) as [-> |Hne]; [|by rewrite lookup_delete_ne].
    rewrite (Ha e Et) in Hl. lia.
  - unfold revoke_token, bytes_eqb. destruct (decide (t = token)) as [-> |Hne].
    + rewrite bool_decide_eq_true_2 by done. destruct (au_sessions a !! token) eqn:Et; cbn; [rewrite lookup_delete_eq|rewrite Et]; (split; [done|]).
      * intros _ _. lia.
      * by intros _ [].
    + rewrite bool_decide_eq_false_2 by done. split; [|done]. destruct (au_sessions a !! t); [|done]. cbn. by rewrite lookup_delete_ne.
Qed.

Lemma run_version (xs : list (N * AuthOp (Ip:=Ip))) a : au_revocations a <= au_revocations (auth_run xs a).
Proof.
  revert a. induction xs as [|x xs IH]; intros a; cbn [auth_run foldl]; [done|].
  etrans; [apply (step_version a x)|apply IH].
Qed.

Lemma run_gone token expires (xs : list (N * AuthOp (Ip:=Ip))) a :
  Forall (leaves token expires) xs → au_sessions a !! token = None → au_sessions (auth_run xs a) !! token = None.
Proof.
  intros Hxs. revert a. induction Hxs as [|x xs Hx _ IH]; intros a Ha; cbn [auth_run foldl]; [done|].
  apply IH. destruct (step_leaves token expires a x Hx) as [Hs _]; [by rewrite Ha|]. rewrite Hs, Ha. by destruct (revokes token x).
Qed.

Lemma run_revoked token expires (xs : list (N * AuthOp (Ip:=Ip))) a now :
  Forall (leaves token expires) xs → au_sessions a !! token = Some expires → (now, ORevoke token) ∈ xs →
  au_sessions (auth_run xs a) !! token = None ∧ au_revocations a < au_revocations (auth_run xs a).
Proof.
  intros Hxs. revert a. induction Hxs as [|x xs Hx Hxs IH]; intros a Ha Hin; [by apply elem_of_nil in Hin|].
  cbn [auth_run foldl]. destruct (step_leaves token expires a x Hx) as [Hs Hr]; [intros e; rewrite Ha; by intros [= ->]|].
  pose proof (step_version a x) as Hv. destruct (revokes token x) eqn:He.
  - split; [by apply (run_gone token expires)|]. pose proof (run_version xs (auth_step a x)) as Hv'.
    specialize (Hr eq_refl ltac:(by rewrite Ha)). unfold auth_run in Hv'. lia.
  - apply elem_of_cons in Hin as [<-|Hin]; [unfold revokes, bytes_eqb in He; cbn in He; by rewrite bool_decide_eq_true_2 in He|]. rewrite Ha in Hs. destruct (IH (auth_step a x) Hs Hin) as [H1' H2'].
    split; [done|]. unfold auth_run in H2'. lia.
Qed.

(** A logout closes the streams of its token, but those of this daemon's own
    sessions.  When a stream has been opened with a token that stands
    and, before it expires, the token is revoked, the next look of an event
    stream, or of an attach relayed to another node whose token did not come
    in the query, closes it, whatever else happened between; the attach of a
    session of this daemon watches no token and is never closed. *)
Theorem logout_closes_streams (a : AuthState (Ip:=Ip)) headers token expires xs now_out now node :
  extract_request_token_parts headers None = Some token → token ≠ [] →
  au_sessions a !! token = Some expires → Forall (leaves token expires) xs → (now_out, ORevoke token) ∈ xs →
  let after := auth_run xs a in
  (∀ opened, now < expires →
    let '(_, w, closed) := open_events now token a in closed = false ∧ (events_look opened w after).2 = true)
  ∧ (attach_look now (open_attach (Some node) headers a) after).2 = true
  ∧ (∀ any : AuthState (Ip:=Ip), (attach_look now (open_attach None headers a) any).2 = false).
Proof.
  intros Ht Hne Ha Hxs Hin after. destruct (run_revoked token expires xs a now_out Hxs Ha Hin) as [Hgone Hv].
  assert (∀ t, (validate_token t token after).2 = false) as Hinv by (intros t; unfold validate_token, after; by rewrite Hgone).
  fold after in Hv. split_and!.
  - intros opened Hnow. unfold open_events, validate_token. rewrite Ha. ltb_to true. split; [done|].
    unfold events_look. cbn [sw_seen sw_token]. eqb_to false. specialize (Hinv opened). destruct (validate_token opened token after) as [a' v].
    cbn [snd] in *. by rewrite Hinv.
  - unfold attach_look, open_attach. rewrite Ht. cbn [default sw_token sw_seen from_option id]. destruct token as [|b t] eqn:Et; [done|]. rewrite <- Et in *.
    eqb_to false. specialize (Hinv now). destruct (validate_token now token after) as [a' v]. cbn [snd] in *. by rewrite Hinv.
  - done.
Qed.
End Streams.

(** ** Witnesses *)

Definition cookie_headers (token : bytes) : HeaderMap := [(bs "cookie", bs "theme=dark; oly_auth_token=" ++ token)].

(** A login, a cleanup round, a wrong guess and a request, later. *)
Lemma requests_need_standing_token_witness :
  (require_auth (Ip:=N) 900 (bs "/api/sessions") (cookie_headers (bs "t1")) None
    (Some (auth_run [(10, OFinish 7 true (bs "t1")); (60, OCleanup); (61, OFinish 7 false [])] new_auth))).2 = true
  ∧ (require_auth (Ip:=N) 900 (bs "/api/sessions") (cookie_headers (bs "t1")) None
    (Some (auth_run [(10, OFinish 7 true (bs "t1")); (60, ORevoke (bs "t1"))] new_auth))).2 = false.
Proof.
  split.
  - rewrite requests_need_standing_token; [by vm_compute|cbn; lia|by vm_compute].
  - rewrite requests_need_standing_token; [by vm_compute|cbn; lia|by vm_compute].
Defined.

(** Client 7 guesses four times; the last is refused. *)
Lemma lockout_bounds_serial_guesses_witness :
  (foldl (serial_step 7) (new_auth, 0) [(10, SGuess); (11, SGuess); (12, SGuess); (13, SGuess)]).2 = 3
  ∧ (foldl (serial_step 7) (new_auth, 0) [(10, SGuess); (11, SGuess); (12, SGuess); (13, SGuess)]).2
    <= 3 * ((13 - 10) / LOCKOUT_DURATION + 1).
Proof.
  assert ((foldl (serial_step 7) (new_auth, 0) [(10, SGuess); (11, SGuess); (12, SGuess); (13, SGuess)]).2 = 3)
    by by vm_compute.
  split; [done|]. apply (lockout_bounds_serial_guesses 7); [cbn; lia|]. repeat (constructor; [by intros ???|]). constructor.
Defined.

(** Two browsers, one logs out. *)
Lemma logout_closes_streams_witness :
  let a := auth_run [(10, OFinish 7 true (bs "t1")); (11, OFinish 8 true (bs "t2"))] new_auth in
  (events_look 100 (open_events 20 (bs "t1") a).1.2 (auth_run [(30, OCheck 9); (40, ORevoke (bs "t1"))] a)).2 = true
  ∧ (attach_look 20 (open_attach (Some (bs "n1")) (cookie_headers (bs "t1")) a)
      (auth_run [(30, OCheck 9); (40, ORevoke (bs "t1"))] a)).2 = true.
Proof.
  cbv zeta. set (a := auth_run _ new_auth).
  assert (extract_request_token_parts (cookie_headers (bs "t1")) None = Some (bs "t1")) as Ht by by vm_compute.
  assert (au_sessions a !! bs "t1" = Some (10 + SESSION_TTL)) as Ha by by vm_compute.
  assert (Forall (leaves (bs "t1") (10 + SESSION_TTL)) [(30, OCheck 9); (40, ORevoke (bs "t1"))]) as Hl
    by (repeat (constructor; [split; [by vm_compute|by intros]|]); constructor).
  destruct (logout_closes_streams a (cookie_headers (bs "t1")) (bs "t1") _ _ 40 20 (bs "n1") Ht ltac:(done) Ha Hl
    ltac:(right; by left)) as (He & Hat & _).
  split; [|exact Hat]. specialize (He 100 ltac:(by vm_compute)).
  destruct (open_events 20 (bs "t1") a) as [[a' w] closed]. exact (proj2 He).
Defined.
