(* ===== verification/DiskGuard.v ===== *)
(** * The state volume

    [src/src/disk.rs]: the sampler that measures the volume and the state
    directory, the guard that admits new sessions by the last sample, and the
    alerts.  A directory tree is given with what every system call on it
    answers; it does not change during a scan.  Times are milliseconds.  The
    theorems say that a size scan is exact unless it says that it is partial,
    and then a lower bound that visited at most its budget of entries; when
    the guard admits; and that alerts alternate. *)

From S2P Require Import Prelude Utf8 Text.

Definition MAX_BREAKDOWN_ENTRIES : N := 250000.

(** ** The tree *)

(** An entry of a directory, by what its [file_type] and [metadata] answer: an
    entry that cannot be read, a file with its size if that can be read,
    neither a file nor a directory, or a directory; and what [read_scan_dir]
    finds at a path: nothing (or a symbolic link), an error, or entries. *)
Inductive Item :=
  | Broken
  | Regular (meta : option N)
  | Special
  | Folder (listing : Listing)
with Listing :=
  | Gone
  | Unreadable
  | Entries (items : list Item).

(** An entry of the sessions directory: a session has a journal and uploads. *)
Inductive SessionEntry :=
  | BrokenSession
  | NoSession
  | SessionDir (journal files : Listing).
Inductive SessionsListing :=
  | GoneSessions
  | UnreadableSessions
  | Sessions (entries : list SessionEntry).

(** What [symlink_metadata] says of the path of a file. *)
Inductive FileStat :=
  | IsFile (len : N)
  | NotAFile
  | Missing
  | StatFailed.

(** [PathsConfig], as far as the scan looks at it. *)
Record StateDir := mk_state_dir {
  sd_sessions : SessionsListing;
  sd_db : FileStat;
  sd_wal : FileStat;
  sd_shm : FileStat;
  sd_logs : Listing;
}.

(** The first reason for a scan to be partial; the path and the error in its
    text are left out. *)
Inductive PartialReason := FailedToScan | BudgetExhausted.

(** ** The scan *)

(** [get_or_insert_with]. *)
Definition note (reason : PartialReason) (partial : option PartialReason) : option PartialReason :=
  match partial with Some r => Some r | None => Some reason end.

Definition consume_entry (budget : N) (partial : option PartialReason) : N * option PartialReason * bool :=
  if budget =? 0 then (budget, note BudgetExhausted partial, false) else (budget - 1, partial, true).

(** Nothing to read, or the entries. *)
Definition read_scan_dir (l : Listing) (partial : option PartialReason)
    : option PartialReason * option (list Item) :=
  match l with
  | Gone => (partial, None)
  | Unreadable => (note FailedToScan partial, None)
  | Entries items => (partial, Some items)
  end.

(** The scan's running state: the budget, the reason, the total of a
    directory, and the directories to visit, the next one first. *)
Record Walk := mk_walk {
  wk_budget : N;
  wk_partial : option PartialReason;
  wk_total : N;
  wk_queue : list Listing;
}.

(** The entries of one directory; [false] when the budget is used up. *)
Fixpoint walk_entries (items : list Item) (w : Walk) : Walk * bool :=
  match items with
  | [] => (w, true)
  | item :: items =>
      let '(budget, partial, go_on) := consume_entry (wk_budget w) (wk_partial w) in
      if go_on then
        walk_entries items
          match item with
          | Broken | Regular None => mk_walk budget (note FailedToScan partial) (wk_total w) (wk_queue w)
          | Regular (Some n) => mk_walk budget partial (u64_sat_add (wk_total w) n) (wk_queue w)
          | Special => mk_walk budget partial (wk_total w) (wk_queue w)
          | Folder l => mk_walk budget partial (wk_total w) (l :: wk_queue w)
          end
      else (mk_walk budget partial (wk_total w) (wk_queue w), false)
  end.

Fixpoint walk (fuel : nat) (w : Walk) : option Walk :=
  match fuel with
  | O => None
  | S fuel =>
      match wk_queue w with
      | [] => Some w
      | l :: queue =>
          let '(partial, entries) := read_scan_dir l (wk_partial w) in
          let w := mk_walk (wk_budget w) partial (wk_total w) queue in
          match entries with
          | None => walk fuel w
          | Some items => let '(w, go_on) := walk_entries items w in if go_on then walk fuel w else Some w
          end
      end
  end.

(** Directories of a tree, the bound on the turns of the loop. *)
Fixpoint folders (l : Listing) : nat :=
  match l with
  | Gone | Unreadable => 1
  | Entries items =>
      S ((fix go (items : list Item) : nat :=
            match items with
            | [] => O
            | Folder l :: items => (folders l + go items)%nat
            | _ :: items => go items
            end) items)
  end.

Definition dir_size (path : Listing) (budget : N) (partial : option PartialReason)
    : option (N * N * option PartialReason) :=
  w ← walk (S (folders path)) (mk_walk budget partial 0 [path]); Some (wk_total w, wk_budget w, wk_partial w).

Definition file_size (path : FileStat) (partial : option PartialReason) : N * option PartialReason :=
  match path with
  | IsFile len => (len, partial)
  | NotAFile | Missing => (0, partial)
  | StatFailed => (0, note FailedToScan partial)
  end.

Record DiskBreakdown := mk_breakdown {
  db_journal_bytes : N;
  db_uploads_bytes : N;
  db_sqlite_bytes : N;
  db_logs_bytes : N;
}.

Fixpoint scan_sessions (entries : list SessionEntry) (journal uploads budget : N) (partial : option PartialReason)
    : option (N * N * N * option PartialReason) :=
  match entries with
  | [] => Some (journal, uploads, budget, partial)
  | entry :: entries =>
      let '(budget, partial, go_on) := consume_entry budget partial in
      if go_on then
        match entry with
        | BrokenSession => scan_sessions entries journal uploads budget (note FailedToScan partial)
        | NoSession => scan_sessions entries journal uploads budget partial
        | SessionDir j f =>
            '(jb, budget, partial) ← dir_size j budget partial;
            '(fb, budget, partial) ← dir_size f budget partial;
            scan_sessions entries (u64_sat_add journal jb) (u64_sat_add uploads fb) budget partial
        end
      else Some (journal, uploads, budget, partial)
  end.

Definition scan_breakdown_with_budget (paths : StateDir) (budget : N)
    : option (DiskBreakdown * option PartialReason) :=
  '(journal, uploads, budget, partial) ←
    match sd_sessions paths with
    | GoneSessions => Some (0, 0, budget, None)
    | UnreadableSessions => Some (0, 0, budget, Some FailedToScan)
    | Sessions entries => scan_sessions entries 0 0 budget None
    end;
  let '(db, partial) := file_size (sd_db paths) partial in
  let '(wal, partial) := file_size (sd_wal paths) partial in
  let '(shm, partial) := file_size (sd_shm paths) partial in
  '(logs, budget, partial) ← dir_size (sd_logs paths) budget partial;
  Some (mk_breakdown journal uploads (u64_sat_add (u64_sat_add db wal) shm) logs, partial).

Definition scan_breakdown (paths : StateDir) : option (DiskBreakdown * option PartialReason) :=
  scan_breakdown_with_budget paths MAX_BREAKDOWN_ENTRIES.

(** ** What a tree holds *)

(** The bytes of its readable files, its entries, and whether all of it can be
    read. *)
Fixpoint known_size (l : Listing) : N :=
  match l with
  | Gone | Unreadable => 0
  | Entries items =>
      (fix go (items : list Item) : N :=
         match items with
         | [] => 0
         | Regular (Some n) :: items => n + go items
         | Folder l :: items => known_size l + go items
         | _ :: items => go items
         end) items
  end.
Fixpoint entries (l : Listing) : N :=
  match l with
  | Gone | Unreadable => 0
  | Entries items =>
      (fix go (items : list Item) : N :=
         match items with
         | [] => 0
         | Folder l :: items => 1 + entries l + go items
         | _ :: items => 1 + go items
         end) items
  end.
Fixpoint readable (l : Listing) : bool :=
  match l with
  | Gone => true
  | Unreadable => false
  | Entries items =>
      (fix go (items : list Item) : bool :=
         match items with
         | [] => true
         | (Broken | Regular None) :: _ => false
         | Folder l :: items => readable l && go items
         | _ :: items => go items
         end) items
  end.

Definition sum_of {A} (f : A → N) (l : list A) : N := foldr (λ x n, f x + n) 0 l.

(** What is left to be found: in some entries, then in the queue. *)
Definition left_size (items : list Item) (w : Walk) : N := known_size (Entries items) + sum_of known_size (wk_queue w).
Definition left_entries (items : list Item) (w : Walk) : N := entries (Entries items) + sum_of entries (wk_queue w).
Definition left_readable (items : list Item) (w : Walk) : bool := readable (Entries items) && forallb readable (wk_queue w).
Definition left_folders (w : Walk) : nat := foldr (λ l n, folders l + n)%nat O (wk_queue w).

(** From [w], with [found] bytes so far, to [w'] with what was left. *)
Record walked (size count : N) (ok : bool) (found : N) (w w' : Walk) (found' : N) : Prop := {
  wd_total : wk_total w' = N.min found' u64_max;
  wd_bound : found' <= found + size;
  wd_exact : wk_partial w' = None → found' = found + size ∧ wk_budget w' + count = wk_budget w;
  wd_partial : wk_partial w' = None ↔ wk_partial w = None ∧ ok = true ∧ count <= wk_budget w;
  wd_budget : wk_budget w' <= wk_budget w;
}.

Lemma note_some r p : note r p ≠ None.
Proof. by destruct p. Qed.

Lemma sat_min found total n : total = N.min found u64_max → u64_sat_add total n = N.min (found + n) u64_max.
Proof. unfold u64_sat_add. lia. Qed.

Definition inner {A} (f : Listing → A) (none : A) (item : Item) : A := match item with Folder l => f l | _ => none end.
Definition own_size (item : Item) : N := match item with Regular (Some n) => n | _ => 0 end.
Definition own_readable (item : Item) : bool := match item with Broken | Regular None => false | _ => true end.

Lemma known_size_cons item items :
  known_size (Entries (item :: items)) = own_size item + inner known_size 0 item + known_size (Entries items).
Proof. destruct item as [|[]| |]; cbn -[N.add]; lia. Qed.
Lemma entries_cons item items :
  entries (Entries (item :: items)) = 1 + inner entries 0 item + entries (Entries items).
Proof. destruct item; cbn -[N.add]; lia. Qed.
Lemma readable_cons item items :
  readable (Entries (item :: items)) = own_readable item && inner readable true item && readable (Entries items).
Proof. by destruct item as [|[]| |]. Qed.
Lemma folders_cons item items :
  folders (Entries (item :: items)) = (inner folders O item + folders (Entries items))%nat.
Proof. destruct item; cbn; lia. Qed.

Lemma walk_entries_ok items : ∀ w found,
  wk_total w = N.min found u64_max →
  let '(w', go_on) := walk_entries items w in
  ∃ found', wk_total w' = N.min found' u64_max ∧ wk_budget w' <= wk_budget w ∧
    if go_on : bool then
      found' + left_size [] w' = found + left_size items w
      ∧ wk_budget w' + left_entries items w = wk_budget w + left_entries [] w'
      ∧ (wk_partial w' = None ∧ left_readable [] w' = true ↔ wk_partial w = None ∧ left_readable items w = true)
      ∧ S (left_folders w') = (folders (Entries items) + left_folders w)%nat
    else
      found' <= found + left_size items w ∧ wk_partial w' ≠ None ∧ wk_budget w < left_entries items w.
Proof.
  induction items as [|item items IH]; intros w found Hf; cbn [walk_entries].
  { exists found. split_and!; [done|done|done|lia|done|done]. }
  unfold consume_entry. destruct (N.eqb_spec (wk_budget w) 0) as [H0|H0].
  { exists found. cbn [wk_total wk_budget wk_partial]. split_and!; [done|lia|lia|apply note_some|].
    unfold left_entries. rewrite H0, entries_cons. lia. }
  set (w1 := match item with Broken => _ | _ => _ end).
  assert (∃ f1, wk_total w1 = N.min f1 u64_max ∧ wk_budget w1 = wk_budget w - 1
    ∧ f1 + left_size items w1 = found + left_size (item :: items) w
    ∧ left_entries (item :: items) w = 1 + left_entries items w1
    ∧ (wk_partial w1 = None ∧ left_readable items w1 = true ↔ wk_partial w = None ∧ left_readable (item :: items) w = true)
    ∧ (folders (Entries items) + left_folders w1 = folders (Entries (item :: items)) + left_folders w)%nat)
    as (f1 & Hf1 & Hb1 & Hs1 & He1 & Hp1 & Hn1).
  { unfold w1, left_size, left_entries, left_readable, left_folders, sum_of.
    rewrite known_size_cons, entries_cons, readable_cons, folders_cons.
    destruct item as [|[n|]| |l]; cbn [own_size own_readable inner wk_total wk_budget wk_partial wk_queue foldr forallb].
    - exists found. split_and!; [done|done|lia|lia| |done]. split; [by intros [?%note_some _]|by intros [_ ?]].
    - exists (found + n). split_and!; [by apply sat_min|done|lia|lia|done|done].
    - exists found. split_and!; [done|done|lia|lia| |done]. split; [by intros [?%note_some _]|by intros [_ ?]].
    - exists found. split_and!; [done|done|lia|lia|done|done].
    - exists found. split_and!; [done|done|lia|lia| |lia]. rewrite !andb_true_iff. tauto. }
  clearbody w1. specialize (IH w1 f1 Hf1). destruct (walk_entries items w1) as [w' []];
    destruct IH as (f' & Hf' & Hb' & IH); exists f'; (split; [done|]); (split; [lia|]).
  - destruct IH as (-> & Hb & Hp & Hn). split_and!; [lia|lia|by rewrite Hp|lia].
  - destruct IH as (Hle & Hp & Hb). split_and!; [lia|done|lia].
Qed.

Lemma walk_ok fuel : ∀ w found,
  wk_total w = N.min found u64_max → (left_folders w < fuel)%nat →
  ∃ w' found', walk fuel w = Some w'
    ∧ walked (left_size [] w) (left_entries [] w) (left_readable [] w) found w w' found'.
Proof.
  induction fuel as [|fuel IH]; intros w found Hf Hfuel; [lia|]. cbn [walk].
  destruct (wk_queue w) as [|l queue] eqn:Eq.
  { exists w, found. split; [done|]. unfold left_size, left_entries, left_readable. rewrite Eq. cbn.
    split; [done|lia|intros _; lia| |done]. split; [intros ->; split_and!; [done|done|lia]|by intros (? & _)]. }
  assert (left_size [] w = known_size l + sum_of known_size queue) as Hs by (unfold left_size; by rewrite Eq).
  assert (left_entries [] w = entries l + sum_of entries queue) as He by (unfold left_entries; by rewrite Eq).
  assert (left_readable [] w = readable l && forallb readable queue) as Hr by (unfold left_readable; by rewrite Eq).
  assert (left_folders w = folders l + foldr (λ l n, folders l + n)%nat O queue)%nat as Hn by (unfold left_folders; by rewrite Eq).
  rewrite Hs, He, Hr. destruct l as [| |items]; cbn [read_scan_dir].
  - destruct (IH (mk_walk (wk_budget w) (wk_partial w) (wk_total w) queue) found Hf) as (w' & f' & -> & Hw);
      [unfold left_folders; cbn in *; lia|]. exists w', f'. split; [done|]. destruct Hw. by split.
  - destruct (IH (mk_walk (wk_budget w) (note FailedToScan (wk_partial w)) (wk_total w) queue) found Hf) as (w' & f' & -> & []);
      [unfold left_folders; cbn in *; lia|]. exists w', f'. split; [done|].
    assert (wk_partial w' ≠ None) by (by intros [?%note_some _]%wd_partial0).
    split; [exact wd_total0|exact wd_bound0|done|split; [done|by intros (_ & ? & _)]|exact wd_budget0].
  - set (w0 := mk_walk _ _ _ queue). pose proof (walk_entries_ok items w0 found Hf) as Hi.
    change (known_size (Entries items) + sum_of known_size queue) with (left_size items w0).
    change (entries (Entries items) + sum_of entries queue) with (left_entries items w0).
    change (readable (Entries items) && forallb readable queue) with (left_readable items w0).
    change (foldr _ _ queue) with (left_folders w0) in Hn.
    change (wk_budget w) with (wk_budget w0).
    destruct (walk_entries items w0) as [w1 []]; destruct Hi as (f1 & Hf1 & Hb1 & Hi).
    + destruct Hi as (Hs1 & He1 & Hp1 & Hn1). destruct (IH w1 f1 Hf1) as (w' & f' & -> & []); [lia|].
      exists w', f'. split; [done|]. split; [done|lia| |rewrite wd_partial0|change (wk_budget w) with (wk_budget w0); lia].
      * intros Hw'. destruct (wd_exact0 Hw') as [-> ?]. change (wk_budget w) with (wk_budget w0). lia.
      * change (wk_partial w) with (wk_partial w0). change (wk_budget w) with (wk_budget w0). split.
        -- intros (Hpw & Hrw & Hc). destruct (proj1 Hp1 (conj Hpw Hrw)) as [? ?]. split_and!; [done|done|lia].
        -- intros (Hpw & Hrw & Hc). destruct (proj2 Hp1 (conj Hpw Hrw)) as [? ?]. split_and!; [done|done|lia].
    + destruct Hi as (Hs1 & Hp1 & Hc1). exists w1, f1. split; [done|].
      split; [done|done|done| |done].
      change (wk_budget w) with (wk_budget w0). split; [done|]. intros (_ & _ & ?). lia.
Qed.

(** The size of a directory. *)
Lemma dir_size_ok path budget partial :
  ∃ total budget' partial' found, dir_size path budget partial = Some (total, budget', partial')
    ∧ total = N.min found u64_max ∧ found <= known_size path ∧ budget' <= budget
    ∧ (partial' = None → found = known_size path ∧ budget' + entries path = budget)
    ∧ (partial' = None ↔ partial = None ∧ readable path = true ∧ entries path <= budget).
Proof.
  unfold dir_size. destruct (walk_ok (S (folders path)) (mk_walk budget partial 0 [path]) 0) as (w' & f' & -> & Hw).
  { by rewrite N.min_l by done. }
  { unfold left_folders. cbn [wk_queue foldr]. lia. }
  destruct Hw as [Ht Hb Hx Hp Hbu]. unfold left_size, left_entries, left_readable in *. cbn -[N.add known_size entries readable] in *.
  exists (wk_total w'), (wk_budget w'), (wk_partial w'), f'. cbn. rewrite andb_true_r in Hp.
  split_and!; [done|done|change (known_size (Entries [])) with 0 in *; lia|done| |].
  - intros Hn. destruct (Hx Hn) as [-> ?]. change (known_size (Entries [])) with 0. change (entries (Entries [])) with 0 in *. lia.
  - rewrite Hp. change (entries (Entries [])) with 0. by rewrite !N.add_0_l, N.add_0_r.
Qed.

(** ** The whole directory *)

Definition journal_size (e : SessionEntry) : N := match e with SessionDir j _ => known_size j | _ => 0 end.
Definition uploads_size (e : SessionEntry) : N := match e with SessionDir _ f => known_size f | _ => 0 end.
Definition session_entries (e : SessionEntry) : N :=
  1 + match e with SessionDir j f => entries j + entries f | _ => 0 end.
Definition session_readable (e : SessionEntry) : bool :=
  match e with BrokenSession => false | NoSession => true | SessionDir j f => readable j && readable f end.

Lemma scan_sessions_ok es : ∀ fj fu budget partial,
  ∃ fj' fu' budget' partial',
    scan_sessions es (N.min fj u64_max) (N.min fu u64_max) budget partial
      = Some (N.min fj' u64_max, N.min fu' u64_max, budget', partial')
    ∧ fj' <= fj + sum_of journal_size es ∧ fu' <= fu + sum_of uploads_size es ∧ budget' <= budget
    ∧ (partial' = None → fj' = fj + sum_of journal_size es ∧ fu' = fu + sum_of uploads_size es
        ∧ budget' + sum_of session_entries es = budget)
    ∧ (partial' = None ↔ partial = None ∧ forallb session_readable es = true ∧ sum_of session_entries es <= budget).
Proof.
  unfold sum_of. induction es as [|e es IH]; intros fj fu budget partial; cbn [scan_sessions foldr forallb].
  { exists fj, fu, budget, partial. split_and!; [done|lia|lia|done|intros _; lia|]. split; [intros ->; split_and!; [done|done|lia]|by intros [? _]]. }
  unfold consume_entry. destruct (N.eqb_spec budget 0) as [-> |Hb0].
  { exists fj, fu, 0, (note BudgetExhausted partial). split_and!; [done|lia|lia|done|by intros ?%note_some|].
    split; [by intros ?%note_some|]. unfold session_entries at 1. intros (_ & _ & ?). lia. }
  destruct e as [| |j f]; cbn [journal_size uploads_size session_readable]; unfold session_entries at 1 3.
  - destruct (IH fj fu (budget - 1) (note FailedToScan partial)) as (fj' & fu' & b' & p' & -> & Hj & Hu & Hb & Hx & Hp).
    exists fj', fu', b', p'. assert (p' ≠ None) by (by intros [?%note_some _]%Hp).
    split_and!; [done|lia|lia|lia|done|]. split; [done|by intros (_ & ? & _)].
  - destruct (IH fj fu (budget - 1) partial) as (fj' & fu' & b' & p' & -> & Hj & Hu & Hb & Hx & Hp).
    exists fj', fu', b', p'. split_and!; [done|lia|lia|lia| |].
    + intros Hn. destruct (Hx Hn) as (? & ? & ?). lia.
    + rewrite Hp. cbn [andb]. split; intros (? & ? & ?); (split_and!; [done|done|lia]).
  - destruct (dir_size_ok j (budget - 1) partial) as (jb & b1 & p1 & f1 & -> & -> & Hj1 & Hb1 & Hx1 & Hp1). cbn [mbind option_bind].
    destruct (dir_size_ok f b1 p1) as (fb & b2 & p2 & f2 & -> & -> & Hj2 & Hb2 & Hx2 & Hp2). cbn [mbind option_bind].
    replace (u64_sat_add (N.min fj u64_max) (N.min f1 u64_max)) with (N.min (fj + f1) u64_max) by (unfold u64_sat_add; lia).
    replace (u64_sat_add (N.min fu u64_max) (N.min f2 u64_max)) with (N.min (fu + f2) u64_max) by (unfold u64_sat_add; lia).
    destruct (IH (fj + f1) (fu + f2) b2 p2) as (fj' & fu' & b' & p' & -> & Hj & Hu & Hb & Hx & Hp).
    exists fj', fu', b', p'. split_and!; [done|lia|lia|lia| |].
    + intros Hn. destruct (Hx Hn) as (? & ? & ?). pose proof (proj1 (proj1 Hp Hn)) as Hn2. destruct (Hx2 Hn2) as (? & ?).
      pose proof (proj1 (proj1 Hp2 Hn2)) as Hn1. destruct (Hx1 Hn1) as (? & ?). lia.
    + rewrite Hp, !andb_true_iff. split.
      * intros (Hn2 & ? & ?). destruct (proj1 Hp2 Hn2) as (Hn1 & ? & ?). destruct (proj1 Hp1 Hn1) as (? & ? & ?).
        destruct (Hx2 Hn2), (Hx1 Hn1). split_and!; try done. lia.
      * intros (Hn & ((? & ?) & ?) & ?). assert (p1 = None) as Hn1 by (apply Hp1; split_and!; [done|done|lia]). destruct (Hx1 Hn1).
        assert (p2 = None) as Hn2 by (apply Hp2; split_and!; [done|done|lia]). destruct (Hx2 Hn2). split_and!; [done|done|lia].
Qed.

(** What the state directory holds. *)
Definition sessions_of (paths : StateDir) : list SessionEntry :=
  match sd_sessions paths with Sessions es => es | _ => [] end.
Definition stat_size (s : FileStat) : N := match s with IsFile len => len | _ => 0 end.
Definition stat_ok (s : FileStat) : bool := match s with StatFailed => false | _ => true end.

Definition all_readable (paths : StateDir) : bool :=
  match sd_sessions paths with UnreadableSessions => false | _ => true end
  && forallb session_readable (sessions_of paths)
  && stat_ok (sd_db paths) && stat_ok (sd_wal paths) && stat_ok (sd_shm paths) && readable (sd_logs paths).
Definition all_entries (paths : StateDir) : N :=
  sum_of session_entries (sessions_of paths) + entries (sd_logs paths).
Definition true_breakdown (paths : StateDir) : DiskBreakdown :=
  mk_breakdown (N.min (sum_of journal_size (sessions_of paths)) u64_max)
    (N.min (sum_of uploads_size (sessions_of paths)) u64_max)
    (N.min (stat_size (sd_db paths) + stat_size (sd_wal paths) + stat_size (sd_shm paths)) u64_max)
    (N.min (known_size (sd_logs paths)) u64_max).

Definition within (b b' : DiskBreakdown) : Prop :=
  db_journal_bytes b <= db_journal_bytes b' ∧ db_uploads_bytes b <= db_uploads_bytes b'
  ∧ db_sqlite_bytes b <= db_sqlite_bytes b' ∧ db_logs_bytes b <= db_logs_bytes b'.

Lemma file_size_ok path partial :
  (file_size path partial).1 = stat_size path
  ∧ ((file_size path partial).2 = None ↔ partial = None ∧ stat_ok path = true).
Proof. destruct path; cbn; (split; [done|]); try tauto. split; [by intros ?%note_some|by intros [_ ?]]. Qed.

(** C34: A size scan is exact or says that it is partial.  Every scan of
    the state directory ends.  It reports no reason to be partial exactly when
    everything could be read and there are at most 250000 entries, and then
    every category is its true size, up to what 64 bits hold; otherwise every
    category is at most its true size. *)
Theorem scan_is_exact_or_partial paths :
  ∃ b partial, scan_breakdown paths = Some (b, partial)
    ∧ (partial = None ↔ all_readable paths = true ∧ all_entries paths <= MAX_BREAKDOWN_ENTRIES)
    ∧ (partial = None → b = true_breakdown paths)
    ∧ within b (true_breakdown paths).
Proof.
  unfold scan_breakdown, scan_breakdown_with_budget. generalize MAX_BREAKDOWN_ENTRIES. intros budget.
  assert (∃ fj fu b1 p1, match sd_sessions paths with
      | GoneSessions => Some (0, 0, budget, None)
      | UnreadableSessions => Some (0, 0, budget, Some FailedToScan)
      | Sessions entries => scan_sessions entries 0 0 budget None
      end = Some (N.min fj u64_max, N.min fu u64_max, b1, p1)
    ∧ fj <= sum_of journal_size (sessions_of paths) ∧ fu <= sum_of uploads_size (sessions_of paths) ∧ b1 <= budget
    ∧ (p1 = None → fj = sum_of journal_size (sessions_of paths) ∧ fu = sum_of uploads_size (sessions_of paths)
        ∧ b1 + sum_of session_entries (sessions_of paths) = budget)
    ∧ (p1 = None ↔ match sd_sessions paths with UnreadableSessions => false | _ => true end
        && forallb session_readable (sessions_of paths) = true ∧ sum_of session_entries (sessions_of paths) <= budget))
    as (fj & fu & b1 & p1 & -> & Hj & Hu & Hb & Hx & Hp).
  { unfold sessions_of. destruct (sd_sessions paths) as [| |es].
    - exists 0, 0, budget, None. unfold sum_of; cbn. split_and!; try done; [intros _; split_and!; [done|done|lia]|]. split; [intros _; split; [done|lia]|done].
    - exists 0, 0, budget, (Some FailedToScan). unfold sum_of; cbn. split_and!; try done. split; [done|by intros [? _]].
    - destruct (scan_sessions_ok es 0 0 budget None) as (fj & fu & b1 & p1 & Hs & Hj & Hu & Hb & Hx & Hp).
      exists fj, fu, b1, p1. split_and!; try done. rewrite Hp. cbn [andb]. tauto. }
  cbn [mbind option_bind]. 
  destruct (file_size_ok (sd_db paths) p1) as [Hd1 Hd2]. destruct (file_size _ p1) as [db p2]. cbn [fst snd] in *.
  destruct (file_size_ok (sd_wal paths) p2) as [Hw1 Hw2]. destruct (file_size _ p2) as [wal p3]. cbn [fst snd] in *.
  destruct (file_size_ok (sd_shm paths) p3) as [Hm1 Hm2]. destruct (file_size _ p3) as [shm p4]. cbn [fst snd] in *.
  destruct (dir_size_ok (sd_logs paths) b1 p4) as (lb & b5 & p5 & fl & -> & -> & Hl & Hb5 & Hx5 & Hp5). cbn [mbind option_bind].
  subst db wal shm. eexists _, _. split; [done|]. unfold all_readable, all_entries, true_breakdown, within. cbn.
  assert (u64_sat_add (u64_sat_add (stat_size (sd_db paths)) (stat_size (sd_wal paths))) (stat_size (sd_shm paths))
    = N.min (stat_size (sd_db paths) + stat_size (sd_wal paths) + stat_size (sd_shm paths)) u64_max) as -> by (unfold u64_sat_add; lia).
  assert (p5 = None → p1 = None ∧ b1 + sum_of session_entries (sessions_of paths) = budget) as H1'.
  { intros Hn. assert (p1 = None) as Hn1 by tauto. by destruct (Hx Hn1) as (_ & _ & ?). }
  split_and!; [| |lia..].
  - split.
    + intros Hn. destruct (H1' Hn) as [Hn1 Hb1]. destruct (Hx5 Hn) as [_ Hb2]. rewrite !andb_true_iff in *. split; [tauto|lia].
    + rewrite !andb_true_iff in *. intros (Hr & He).
      assert (p1 = None) as Hn1 by (apply Hp; split; [tauto|lia]). destruct (Hx Hn1) as (_ & _ & Hb1).
      apply Hp5. split_and!; [tauto|tauto|lia].
  - intros Hn. destruct (H1' Hn) as [Hn1 _]. destruct (Hx Hn1) as (-> & -> & _). by destruct (Hx5 Hn) as [-> _].
Qed.

(** ** Samples, guard and alerts *)

(** [DiskSample]; [LimitsConfig] as far as the guard reads it. *)
Record DiskSample := mk_sample {
  ds_sampled_at : N;
  ds_free_bytes : option N;
  ds_free_unknown_reason : option bytes;
  ds_breakdown : DiskBreakdown;
  ds_breakdown_partial_reason : option PartialReason;
}.
Record Limits := mk_limits {
  disk_guard_enabled : bool;
  disk_sample_max_age_seconds : N;
  disk_min_free_bytes : N;
  disk_warn_free_bytes : N;
}.

(** A clock that went back makes a sample new. *)
Definition age (now : N) (s : DiskSample) : N := now - ds_sampled_at s.
Definition max_age (limits : Limits) : N := 1000 * disk_sample_max_age_seconds limits.

Inductive DiskGuardDecision :=
  | Disabled
  | Allowed (free_bytes : N)
  | Unknown (reason : bytes)
  | Stale (age max_age : N)
  | BelowMinimum (free_bytes min_bytes : N).

Definition refusal_reason (d : DiskGuardDecision) : option bytes :=
  match d with
  | Disabled | Allowed _ => None
  | Unknown reason =>
      Some (bs "state volume free space is unknown (" ++ reason
            ++ bs "); wait for a successful sample or disable disk_guard_enabled")
  | Stale age max_age =>
      Some (bs "state volume sample is stale (age " ++ show_dec (age / 1000) ++ bs "s, max " ++ show_dec (max_age / 1000)
            ++ bs "s); wait for a fresh sample or raise disk_sample_max_age_seconds")
  | BelowMinimum free_bytes min_bytes =>
      Some (bs "state volume free space " ++ show_dec free_bytes ++ bs " B is below the floor " ++ show_dec min_bytes ++ bs " B")
  end.

Definition sample_is_stale (limits : Limits) (now : N) (s : DiskSample) : bool := max_age limits <? age now s.

Definition guard_decision (limits : Limits) (now : N) (latest : option DiskSample) : DiskGuardDecision :=
  if negb (disk_guard_enabled limits) then Disabled
  else
    match latest with
    | None => Unknown (bs "no disk sample has been taken yet")
    | Some s =>
        if sample_is_stale limits now s then Stale (age now s) (max_age limits)
        else
          match ds_free_bytes s with
          | None => Unknown (default (bs "free space probe failed") (ds_free_unknown_reason s))
          | Some free =>
              if free <? disk_min_free_bytes limits then BelowMinimum free (disk_min_free_bytes limits) else Allowed free
          end
    end.

Definition warning (limits : Limits) (now : N) (latest : option DiskSample) : option N :=
  s ← latest;
  if sample_is_stale limits now s then None
  else free ← ds_free_bytes s; if free <? disk_warn_free_bytes limits then Some free else None.

(** [sample]: the probe's answer first, then the scan. *)
Definition sample (now : N) (probe : result bytes N) (paths : StateDir) : option DiskSample :=
  let '(free, reason) := match probe with Ok bytes => (Some bytes, None) | Err reason => (None, Some reason) end in
  '(b, partial) ← scan_breakdown paths; Some (mk_sample now free reason b partial).

Inductive Alert := LowSpace (free_bytes : N) | Recovered.

Definition emit_alerts (limits : Limits) (s : DiskSample) (warned : bool) : bool * list Alert :=
  match ds_free_bytes s with
  | None => (warned, [])
  | Some free =>
      let low := free <? disk_warn_free_bytes limits in
      (low, if low && negb warned then [LowSpace free] else if negb low && warned then [Recovered] else [])
  end.

(** The monitor refreshed with a sample after the other. *)
Definition refresh (limits : Limits) (st : bool * list Alert) (s : DiskSample) : bool * list Alert :=
  let '(warned, alerts) := emit_alerts limits s st.1 in (warned, st.2 ++ alerts).
Definition refreshes (limits : Limits) (samples : list DiskSample) (warned : bool) : bool * list Alert :=
  foldl (refresh limits) (warned, []) samples.

(** Low, recovered, low, ... as long as it goes. *)
Fixpoint alternating (low : bool) (alerts : list Alert) : Prop :=
  match alerts with
  | [] => True
  | LowSpace _ :: alerts => low = true ∧ alternating false alerts
  | Recovered :: alerts => low = false ∧ alternating true alerts
  end.

Lemma alternating_snoc alerts a : ∀ low,
  alternating low (alerts ++ [a]) ↔
  alternating low alerts
  ∧ xorb low (Nat.odd (length alerts)) = match a with LowSpace _ => true | Recovered => false end.
Proof.
  induction alerts as [|b alerts IH]; intros low; cbn [app alternating length].
  - rewrite xorb_false_r. destruct a; cbn; tauto.
  - rewrite Nat.odd_succ, <- Nat.negb_odd. destruct b; rewrite IH; destruct low, (Nat.odd (length alerts)); cbn; naive_solver.
Qed.

(** A guard that is on admits only what it has seen, and alerts
    alternate.  The guard lets a session start exactly when it is off or the
    last sample is no older than allowed and found at least the minimum of
    free bytes; and over any samples the alerts are a warning, a recovery, a
    warning and so on, where samples that could not see the free space change
    nothing. *)
Theorem guard_trusts_samples limits :
  (∀ now latest, refusal_reason (guard_decision limits now latest) = None ↔
    disk_guard_enabled limits = false
    ∨ ∃ s free, latest = Some s ∧ now <= ds_sampled_at s + 1000 * disk_sample_max_age_seconds limits
        ∧ ds_free_bytes s = Some free ∧ disk_min_free_bytes limits <= free)
  ∧ (∀ samples, let '(warned, alerts) := refreshes limits samples false in
      alternating true alerts ∧ warned = Nat.odd (length alerts)
      ∧ refreshes limits (filter (λ s, is_Some (ds_free_bytes s)) samples) false = (warned, alerts)).
Proof.
  split.
  - intros now latest. unfold guard_decision, sample_is_stale, age, max_age. destruct (disk_guard_enabled limits); cbn [negb].
    2:{ split; [by left|done]. }
    destruct latest as [s|]; [|split; [done|by intros [?|(? & ? & ? & _)]]].
    destruct (N.ltb_spec (1000 * disk_sample_max_age_seconds limits) (now - ds_sampled_at s)).
    { split; [done|]. intros [?|(s' & free & [= <-] & ? & _)]; [done|lia]. }
    destruct (ds_free_bytes s) as [free|] eqn:Ef; [|split; [done|by intros [?|(? & ? & [= <-] & _ & ? & _)]; [|rewrite Ef in *]]].
    destruct (N.ltb_spec free (disk_min_free_bytes limits)).
    + split; [done|]. intros [?|(s' & free' & [= <-] & _ & Hf & ?)]; [done|]. rewrite Ef in Hf. injection Hf as <-. lia.
    + split; [|done]. intros _. right. exists s, free. split_and!; [done|lia|done|done].
  - intros samples. unfold refreshes. induction samples as [|s samples IH] using rev_ind; [done|].
    rewrite foldl_snoc, filter_app. destruct (foldl _ _ samples) as [warned alerts]. destruct IH as (Ha & -> & Hf).
    destruct (ds_free_bytes s) as [free|] eqn:Ef.
    + rewrite filter_cons_True by by rewrite Ef. cbn [filter list_filter]. rewrite foldl_snoc, Hf.
      unfold refresh, emit_alerts. cbn [fst snd]. rewrite Ef.
      destruct (free <? disk_warn_free_bytes limits) eqn:El, (Nat.odd (length alerts)) eqn:Eo; cbn [andb negb];
        rewrite ?app_nil_r, ?length_app; cbn [length]; rewrite ?Nat.add_1_r, ?Nat.odd_succ, <- ?Nat.negb_odd, ?Eo; split_and!; try done;
        apply alternating_snoc; by rewrite Eo.
    + rewrite filter_cons_False by (rewrite Ef; by intros []). cbn [filter list_filter].
      unfold refresh, emit_alerts. cbn [fst snd]. by rewrite Ef, !app_nil_r.
Qed.

(** A scan cut by its budget, and one of all. *)
Example small_scan :
  let logs := Entries [Regular (Some 10); Folder (Entries [Regular (Some 5); Special]); Regular None] in
  let paths := mk_state_dir (Sessions [SessionDir (Entries [Regular (Some 7)]) Gone; NoSession]) (IsFile 100) Missing NotAFile logs in
  scan_breakdown paths = Some (mk_breakdown 7 0 100 15, Some FailedToScan)
  ∧ scan_breakdown_with_budget paths 2 = Some (mk_breakdown 7 0 100 0, Some BudgetExhausted).
Proof. by vm_compute. Qed.
