(* ===== verification/Lifecycle.v ===== *)
(** * Starting, deleting and evicting sessions

    [src/src/session/store/lifecycle.rs] with the statements of
    [src/src/db.rs] it runs: the steps of a start from its reservation to the
    session map, restarting, deleting, the maintenance sweep and the
    reconciliation at startup.  The sessions table is a map from ids to rows
    and every statement, like every file operation, may fail instead of having
    its effect; the errors are given at each call.  A start is a machine whose
    steps are its locked sections and awaited calls, so that starts interleave.
    Times are milliseconds.  The theorems say what a start, a deletion and a
    sweep leave behind on every path, that no start keeps its reservation
    unless it is dropped half-way, and what the limit of running sessions is
    worth. *)

From S2P Require Import Prelude DiskGuard Crc Utf8 Text RecordFormat SegmentScan Disk Manifest Open Retention.
From S2P Require Import Sequencer Stream Appender Journal Pump ProgramStatus Signals Scanner Replay Registry Recorder Runtime Session Mouse.
From S2P Require Import Wire Attach Stop.

Abbreviation id_set :=
  (@gset bytes (@list_eq_dec byte byte_eq_dec) (@list_countable byte byte_eq_dec byte_countable)).

Section Lifecycle.
Context `{Crc32Fast, Base64, Engine} {J : Type} `{Recorder J}.

#[local] Abbreviation Runtime := (SessionRuntime (J:=J)).

(** [SessionHandle], with the two fields of the runtime only the sweep uses. *)
Record Handle := mk_handle {
  hd_runtime : Runtime;
  hd_persisted : bool;
  hd_resume_scanned : bool;
}.

(** The events of [event_tx]; a summary is made from the metadata. *)
Inductive SessionEvent :=
  | SessionCreated (summary : SessionMeta)
  | SessionUpdated (summary : SessionMeta)
  | SessionDeleted (id : bytes).

(** The session map, [StoreMutableState], the sessions table, the session
    directories that exist, and the events sent. *)
Record Store := mk_lifecycle {
  ls_sessions : by_id Handle;
  ls_starting : id_set;
  ls_evicted : by_id N;
  ls_rows : by_id SessionMeta;
  ls_dirs : id_set;
  ls_events : list SessionEvent;
}.

#[export] Instance Handle_eta : Settable Handle := λ h, mk_handle (hd_runtime h) (hd_persisted h) (hd_resume_scanned h).
#[export] Instance Store_eta : Settable Store := λ st,
  mk_lifecycle (ls_sessions st) (ls_starting st) (ls_evicted st) (ls_rows st) (ls_dirs st) (ls_events st).

(** The store the attach surface works on. *)
Definition attach_view (st : Store) : SessionStore (J:=J) :=
  mk_store (hd_runtime <$> ls_sessions st) (ls_evicted st) ∅.

Definition send (e : SessionEvent) (st : Store) : Store := st <| ls_events := ls_events st ++ [e] |>.
Definition get_summary (id : bytes) (st : Store) : option SessionMeta :=
  h ← ls_sessions st !! id; Some (rt_meta (hd_runtime h)).

(** ** The sessions table *)

(** [err]: the statement fails with this text. *)
Definition insert_session (err : option bytes) (meta : SessionMeta) (st : Store) : Store * result AppError unit :=
  match err with
  | Some e => (st, Err (Sqlx e))
  | None =>
      match ls_rows st !! sm_id meta with
      | Some _ => (st, Err (Sqlx (bs "UNIQUE constraint failed: sessions.id")))
      | None => (st <| ls_rows := <[sm_id meta := meta]> (ls_rows st) |>, Ok tt)
      end
  end.

(** The columns of [UPDATE]: all but the id, the creation time and the resume
    hint. *)
Definition updated_row (meta row : SessionMeta) : SessionMeta :=
  meta <| sm_created_at := sm_created_at row |> <| sm_resume_command := sm_resume_command row |>.
Definition update_session (err : option bytes) (meta : SessionMeta) (st : Store) : Store * result AppError unit :=
  match err with
  | Some e => (st, Err (Sqlx e))
  | None => (st <| ls_rows := alter (updated_row meta) (sm_id meta) (ls_rows st) |>, Ok tt)
  end.

Definition set_resume_command (err : option bytes) (id command : bytes) (st : Store) : Store * result AppError unit :=
  match err with
  | Some e => (st, Err (Sqlx e))
  | None => (st <| ls_rows := alter (λ m, m <| sm_resume_command := Some command |>) id (ls_rows st) |>, Ok tt)
  end.

Definition db_delete_session (err : option bytes) (id : bytes) (st : Store) : Store * result AppError unit :=
  match err with
  | Some e => (st, Err (Sqlx e))
  | None => (st <| ls_rows := delete id (ls_rows st) |>, Ok tt)
  end.

Definition get_session (err : option bytes) (id : bytes) (st : Store) : result AppError (option SessionMeta) :=
  match err with Some e => Err (Sqlx e) | None => Ok (ls_rows st !! id) end.

(** A failed query counts as no row; [get_session_dir] is built on it and
    never fails. *)
Definition session_exists (err : option bytes) (id : bytes) (st : Store) : bool :=
  match err with Some _ => false | None => bool_decide (is_Some (ls_rows st !! id)) end.
Definition get_session_dir (err : option bytes) (id : bytes) (st : Store) : result AppError bool :=
  Ok (session_exists err id st).

Definition load_sessions_with_status (err : option bytes) (statuses : list SessionStatus) (st : Store)
    : result AppError (list (bytes * SessionMeta)) :=
  match err with
  | Some e => Err (Sqlx e)
  | None => Ok (filter (λ r, sm_status r.2 ∈ statuses) (map_to_list (ls_rows st)))
  end.

(** [remove_dir_all] of a session's directory, where [NotFound] is fine. *)
Definition remove_session_dir (err : option io_error_kind) (id : bytes) (st : Store) : Store * result AppError unit :=
  if bool_decide (id ∈ ls_dirs st) then
    match err with
    | None => (st <| ls_dirs := ls_dirs st ∖ {[id]} |>, Ok tt)
    | Some NotFound => (st, Ok tt)
    | Some e => (st, Err (Io e))
    end
  else (st, Ok tt).

(** ** Starting *)

Record StartSpec := mk_spec {
  sp_title : option bytes;
  sp_tags : list bytes;
  sp_cmd : bytes;
  sp_args : list bytes;
  sp_cwd : option bytes;
  sp_rows : option N;
  sp_cols : option N;
  sp_notifications_enabled : bool;
}.

Definition normalize_session_title (title : option bytes) : option bytes :=
  value ← title; let trimmed := trim value in if len trimmed =? 0 then None else Some trimmed.

Fixpoint normalize_tags (seen : list bytes) (tags : list bytes) : list bytes :=
  match tags with
  | [] => []
  | tag :: tags =>
      let trimmed := trim tag in
      let key := ascii_lowercase trimmed in
      if (len trimmed =? 0) || existsb (bytes_eqb key) seen then normalize_tags seen tags
      else trimmed :: normalize_tags (key :: seen) tags
  end.
Definition normalize_session_tags (tags : list bytes) : list bytes := normalize_tags [] tags.

Definition validate_session_metadata (title : option bytes) (tags : list bytes)
    : result AppError (option bytes * list bytes) :=
  let title := normalize_session_title title in
  if match title with
     | Some t => match utf8_decode t with Some cs => (MAX_SESSION_TITLE_LEN <? length cs)%nat | None => false end
     | None => false
     end
  then Err (Protocol (bs "session title is too long (max 256 characters)"))
  else Ok (title, normalize_session_tags tags).

(** The sample the disk guard goes by, when there is a monitor. *)
Definition check_disk_guard (now : N) (monitor : option (Limits * option DiskSample)) : result AppError unit :=
  match monitor with
  | None => Ok tt
  | Some (limits, latest) =>
      match refusal_reason (guard_decision limits now latest) with
      | Some reason => Err (Wire.DiskGuard reason)
      | None => Ok tt
      end
  end.

(** The candidates the random generator gives; [None] while none is new. *)
Definition generate_session_id (exists_ : bytes → bool) (candidates : list bytes) : option bytes :=
  find (λ c, negb (exists_ c)) candidates.

Record PreparedStart := mk_prepared {
  pp_meta : SessionMeta;
  pp_rows : N;
  pp_cols : N;
  pp_notifications_enabled : bool;
}.

(** What the world answers to one step: the clock, random ids, the monitor,
    the errors of up to three statements and of the file operation, the bound
    of [AppConfig::limits], and for the spawn its error or the process, the
    engine and the journal, and whether the directory was made first. *)
Record Answers := mk_answers {
  an_now : N;
  an_ids : list bytes;
  an_monitor : option (Limits * option DiskSample);
  an_db : option bytes;
  an_db_second : option bytes;
  an_db_third : option bytes;
  an_db_fourth : option bytes;
  an_rmdir : option io_error_kind;
  an_mkdir : bool;
  an_spawn : result AppError (N * engine * J);
}.

(** [max_running_sessions] and [screen_scrollback_rows]. *)
Record StartLimits := mk_start_limits { max_running_sessions : N; screen_scrollback_rows : N }.

Definition is_live (h : Handle) : bool := negb (is_completed (hd_runtime h)).
Definition running_count (sessions : by_id Handle) : N :=
  N.of_nat (size (filter (λ kh, is_live kh.2 = true) sessions)).

(** [prepare_start_session] under the lock, with the count and the map it
    loaded before; [None] while no id is new. *)
Definition reserve (limits : StartLimits) (spec : StartSpec) (running : N) (seen : by_id Handle) (a : Answers)
    (st : Store) : option (Store * result AppError PreparedStart) :=
  if max_running_sessions limits <=? running + N.of_nat (size (ls_starting st)) then
    Some (st, Err (MaxSessionsReached (max_running_sessions limits)))
  else
    match check_disk_guard (an_now a) (an_monitor a) with
    | Err e => Some (st, Err e)
    | Ok _ =>
        id ← generate_session_id
               (λ c, bool_decide (is_Some (seen !! c)) || bool_decide (c ∈ ls_starting st)) (an_ids a);
        match validate_session_metadata (sp_title spec) (sp_tags spec) with
        | Err e => Some (st, Err e)
        | Ok (title, tags) =>
            let meta := {| sm_id := id; sm_title := title; sm_tags := tags; sm_command := sp_cmd spec;
                           sm_args := sp_args spec; sm_cwd := sp_cwd spec; sm_created_at := an_now a;
                           sm_started_at := Some (an_now a); sm_ended_at := None; sm_resume_command := None;
                           sm_status := Running; sm_pid := None; sm_exit_code := None;
                           sm_notifications_enabled := sp_notifications_enabled spec;
                           sm_foreground_color := None; sm_background_color := None |} in
            Some (st <| ls_starting := {[id]} ∪ ls_starting st |>,
                  Ok (mk_prepared meta (N.max (default 24 (sp_rows spec)) 1) (N.max (default 80 (sp_cols spec)) 1)
                        (sp_notifications_enabled spec)))
        end
    end.

Definition unreserve (id : bytes) (st : Store) : Store := st <| ls_starting := ls_starting st ∖ {[id]} |>.

(** The blocking worker: the guard again, then [spawn_session]. *)
Definition spawn_worker (limits : StartLimits) (p : PreparedStart) (a : Answers) (st : Store)
    : Store * result AppError (SessionMeta * Runtime) :=
  match check_disk_guard (an_now a) (an_monitor a) with
  | Err e => (st, Err e)
  | Ok _ =>
      let id := sm_id (pp_meta p) in
      match an_spawn a with
      | Err e => ((if an_mkdir a then st <| ls_dirs := {[id]} ∪ ls_dirs st |> else st), Err e)
      | Ok (pid, e, journal) =>
          let meta := pp_meta p <| sm_notifications_enabled := pp_notifications_enabled p |> <| sm_pid := Some pid |> in
          (st <| ls_dirs := {[id]} ∪ ls_dirs st |>,
           Ok (meta, spawn_session (an_now a) meta (pp_rows p) (pp_cols p) (pp_notifications_enabled p)
                       (screen_scrollback_rows limits) e journal))
      end
  end.

(** The end of [commit_started_session]. *)
Definition publish (meta : SessionMeta) (rt : Runtime) (st : Store) : Store :=
  st <| ls_sessions := <[sm_id meta := mk_handle rt false false]> (ls_sessions st) |>.

(** The row of an aborted start goes, or is marked as failed. *)
Definition delete_or_mark_failed (id : bytes) (a : Answers) (st : Store) : Store * result AppError unit :=
  let '(st, deleted) := db_delete_session (an_db_second a) id st in
  match deleted with
  | Ok _ => (st, Ok tt)
  | Err persist_err =>
      match get_session (an_db_third a) id st with
      | Err e => (st, Err e)
      | Ok None => (st, Err persist_err)
      | Ok (Some meta) =>
          let meta := meta <| sm_status := Failed |> <| sm_pid := None |> <| sm_ended_at := Some (an_now a) |> in
          let '(st, marked) := update_session (an_db_fourth a) meta st in
          (st, match marked with Ok _ => Err persist_err | Err e => Err e end)
      end
  end.

(** The calls of [abort_started_session] after it gave the reservation back;
    its answer is ignored. *)
Definition abort_cleanup (id : bytes) (a : Answers) (st : Store) : Store * result AppError unit :=
  match get_session_dir (an_db a) id st with
  | Err e => (st, Err e)
  | Ok has_dir =>
      let '(st, removed) := if has_dir : bool then remove_session_dir (an_rmdir a) id st else (st, Ok tt) in
      match removed with
      | Err e => (st, Err e)
      | Ok _ => delete_or_mark_failed id a st
      end
  end.

(** Where a start has got to: what it does next. *)
Inductive StartPhase :=
  | Counting
  | Admitting (running : N) (seen : by_id Handle)
  | Inserting (p : PreparedStart)
  | Releasing (id : bytes) (e : AppError)
  | Spawning (p : PreparedStart)
  | Committing (meta : SessionMeta) (rt : Runtime)
  | Committed (meta : SessionMeta) (rt : Runtime) (updated : result AppError unit)
  | Publishing (meta : SessionMeta) (rt : Runtime)
  | Announcing (id : bytes)
  | Aborting (id : bytes) (e : AppError) (discarded : option Runtime)
  | Cleaning (id : bytes) (e : AppError) (discarded : option Runtime)
  | Finished (answer : result AppError bytes) (discarded : option Runtime).

(** One step of [start_session_via_handle]. *)
Definition start_step (limits : StartLimits) (spec : StartSpec) (a : Answers) (p : StartPhase) (st : Store)
    : StartPhase * Store :=
  match p with
  | Counting => (Admitting (running_count (ls_sessions st)) (ls_sessions st), st)
  | Admitting running seen =>
      match reserve limits spec running seen a st with
      | None => (p, st)
      | Some (st, Err e) => (Finished (Err e) None, st)
      | Some (st, Ok prepared) => (Inserting prepared, st)
      end
  | Inserting prepared =>
      let '(st, inserted) := insert_session (an_db a) (pp_meta prepared) st in
      match inserted with
      | Ok _ => (Spawning prepared, st)
      | Err e => (Releasing (sm_id (pp_meta prepared)) e, st)
      end
  | Releasing id e => (Finished (Err e) None, unreserve id st)
  | Spawning prepared =>
      let '(st, spawned) := spawn_worker limits prepared a st in
      match spawned with
      | Ok (meta, rt) => (Committing meta rt, st)
      | Err e => (Aborting (sm_id (pp_meta prepared)) e None, st)
      end
  | Committing meta rt =>
      let '(st, updated) := update_session (an_db a) meta st in (Committed meta rt updated, st)
  | Committed meta rt updated =>
      (match updated with
       | Ok _ => Publishing meta rt
       | Err e => Aborting (sm_id meta) e (Some (mark_completed (an_now a) Failed None (rt <| rt_pty := kill (rt_pty rt) |>)))
       end, unreserve (sm_id meta) st)
  | Publishing meta rt => (Announcing (sm_id meta), publish meta rt st)
  | Announcing id =>
      (Finished (Ok id) None, match get_summary id st with Some summary => send (SessionCreated summary) st | None => st end)
  | Aborting id e discarded => (Cleaning id e discarded, unreserve id st)
  | Cleaning id e discarded => (Finished (Err e) discarded, (abort_cleanup id a st).1)
  | Finished _ _ => (p, st)
  end.

(** A start nothing else comes between. *)
Definition run_start (limits : StartLimits) (spec : StartSpec) (answers : list Answers) (p : StartPhase) (st : Store)
    : StartPhase * Store :=
  foldl (λ pst a, start_step limits spec a pst.1 pst.2) (p, st) answers.

Definition start_session_via_handle (limits : StartLimits) (spec : StartSpec) (answers : list Answers) (st : Store)
    : option (Store * result AppError bytes) :=
  match run_start limits spec answers Counting st with
  | (Finished answer _, st) => Some (st, answer)
  | _ => None
  end.

(** ** Stopping *)

(** What a stop finds: its first reading, its first poll, and its turns. *)
Record StopWorld := mk_stop_world {
  tw_start : N;
  tw_exited : io_result (option Z);
  tw_turns : list (Turn (J:=J));
}.

Definition set_runtime (id : bytes) (rt : Runtime) (st : Store) : Store :=
  st <| ls_sessions := alter (λ h, h <| hd_runtime := rt |>) id (ls_sessions st) |>.

(** [terminate_runtime] on a session of the map; [None] while it has not
    answered. *)
Definition terminate (id : bytes) (grace_seconds : N) (requested : SessionStatus) (w : StopWorld) (rt : Runtime)
    (st : Store) : option (Store * bool) :=
  '(rt, terminated, _) ←
    terminate_runtime (tw_start w) (1000 * grace_seconds) requested (tw_start w) (tw_exited w) (tw_turns w) rt;
  Some (set_runtime id rt st, terminated).

Definition send_updated (id : bytes) (st : Store) : Store :=
  match get_summary id st with Some summary => send (SessionUpdated summary) st | None => st end.

Definition terminate_session (id : bytes) (grace_seconds : N) (requested : SessionStatus) (w : StopWorld) (st : Store)
    : option (Store * bool) :=
  match lookup_runtime id (attach_view st) with
  | Err _ => Some (st, false)
  | Ok rt =>
      '(st, terminated) ← terminate id grace_seconds requested w rt st;
      Some (if terminated : bool then send_updated id st else st, terminated)
  end.
Definition stop_session (id : bytes) (grace_seconds : N) (w : StopWorld) (st : Store) : option (Store * bool) :=
  terminate_session id grace_seconds Stopped w st.
Definition kill_session (id : bytes) (w : StopWorld) (st : Store) : option (Store * bool) :=
  terminate_session id 0 Killed w st.

(** The sessions stop side by side, each on its own runtime. *)
Definition stop_all_sessions (grace_seconds : N) (worlds : bytes → StopWorld) (st : Store) : option (Store * bool) :=
  foldl (λ acc kh, '(st, all_) ← acc;
           '(st, terminated) ← terminate kh.1 grace_seconds Stopped (worlds kh.1) (hd_runtime kh.2) st;
           Some (st, all_ && terminated))
    (Some (st, true)) (map_to_list (ls_sessions st)).

(** ** Restarting *)

Definition being_created (id : bytes) : AppError :=
  Protocol (bs "session is still being created and cannot be restarted: " ++ id).

(** The checks on the source: its metadata, and whether it has to be killed. *)
Definition restart_source (id : bytes) (force_ : bool) (now : N) (exited : io_result (option Z)) (err : option bytes)
    (st : Store) : Store * result AppError (SessionMeta * bool) :=
  match ls_sessions st !! id with
  | Some h =>
      if bool_decide (sm_status (rt_meta (hd_runtime h)) = Created) then (st, Err (being_created id))
      else
        let '(rt, _) := refresh_status now exited (hd_runtime h) in
        (set_runtime id rt st,
         match sm_status (rt_meta rt) with
         | Running | Stopping =>
             if force_ then Ok (rt_meta rt, true)
             else Err (Protocol (bs "session is still running: " ++ id
                                 ++ bs ". Stop it first, or pass --force to kill it before restarting."))
         | Stopped | Killed | Failed => Ok (rt_meta rt, false)
         | Created => Err (being_created id)
         end)
  | None =>
      (st,
       match get_session err id st with
       | Err e => Err e
       | Ok None => Err (Protocol (bs "session not found: " ++ id))
       | Ok (Some source) =>
           match sm_status source with
           | Created => Err (being_created id)
           | Running | Stopping =>
               Err (Protocol (bs "session is marked " ++ status_as_str (sm_status source)
                              ++ bs " but has no live runtime: " ++ id))
           | Stopped | Killed | Failed => Ok (source, false)
           end
       end)
  end.

(** [path.exists()] and [path.is_dir()]. *)
Definition check_cwd (cwd : option bytes) (exists_ is_dir : bool) : result AppError unit :=
  match cwd with
  | None => Ok tt
  | Some cwd =>
      if negb exists_ then Err (Protocol (bs "working directory does not exist: " ++ cwd))
      else if negb is_dir then Err (Protocol (bs "working directory is not a directory: " ++ cwd))
      else Ok tt
  end.

(** The command of the source; the size of the terminal is not kept. *)
Definition restart_spec (source : SessionMeta) : StartSpec :=
  mk_spec (sm_title source) (sm_tags source) (sm_command source) (sm_args source) (sm_cwd source) None None
    (sm_notifications_enabled source).

Record RestartWorld := mk_restart_world {
  rw_now : N;
  rw_exited : io_result (option Z);
  rw_db : option bytes;
  rw_cwd_exists : bool;
  rw_cwd_is_dir : bool;
  rw_stop : StopWorld;
  rw_start : list Answers;
}.

(** [show]: the text of an error. *)
Definition restart_session_via_handle (show : AppError → bytes) (limits : StartLimits) (id : bytes) (force_ : bool)
    (w : RestartWorld) (st : Store) : option (Store * result AppError bytes) :=
  let '(st, checked) := restart_source id force_ (rw_now w) (rw_exited w) (rw_db w) st in
  match checked with
  | Err e => Some (st, Err e)
  | Ok (source, needs_termination) =>
      match check_cwd (sm_cwd source) (rw_cwd_exists w) (rw_cwd_is_dir w) with
      | Err e => Some (st, Err e)
      | Ok _ =>
          '(st, terminated) ←
            match (if needs_termination : bool then ls_sessions st !! id else None) with
            | Some h => terminate id 0 Killed (rw_stop w) (hd_runtime h) st
            | None => Some (st, true)
            end;
          if negb terminated then
            Some (st, Err (Protocol (bs "failed to kill source session before restart: " ++ id)))
          else
            let st := if needs_termination then send_updated id st else st in
            '(st, answer) ← start_session_via_handle limits (restart_spec source) (rw_start w) st;
            Some (st, match answer with
                      | Ok new_id => Ok new_id
                      | Err e =>
                          if needs_termination
                          then Err (Protocol (bs "source session " ++ id
                                              ++ bs " was killed, but its replacement failed to start: " ++ show e))
                          else Err e
                      end)
      end
  end.

(** ** Deleting *)

Record DeleteWorld := mk_delete_world {
  dw_now : N;
  dw_exited : io_result (option Z);
  dw_stop : StopWorld;
  dw_exists : option bytes;
  dw_dir : option bytes;
  dw_rmdir : option io_error_kind;
  dw_delete : option bytes;
}.

(** The directory, then the row, then the handle and the tombstone. *)
Definition remove_all (had_handle : bool) (id : bytes) (w : DeleteWorld) (st : Store) : Store * result AppError bool :=
  match get_session_dir (dw_dir w) id st with
  | Err e => (st, Err e)
  | Ok has_dir =>
      let '(st, removed) := if has_dir : bool then remove_session_dir (dw_rmdir w) id st else (st, Ok tt) in
      match removed with
      | Err e => (st, Err e)
      | Ok _ =>
          let '(st, deleted) := db_delete_session (dw_delete w) id st in
          match deleted with
          | Err e => (st, Err e)
          | Ok _ =>
              let st := if had_handle then st <| ls_sessions := delete id (ls_sessions st) |> else st in
              let st := st <| ls_evicted := delete id (ls_evicted st) |> in
              (send (SessionDeleted id) st, Ok true)
          end
      end
  end.

Definition delete_session (id : bytes) (force_ : bool) (w : DeleteWorld) (st : Store)
    : option (Store * result AppError bool) :=
  match ls_sessions st !! id with
  | Some h =>
      let '(rt, _) := refresh_status (dw_now w) (dw_exited w) (hd_runtime h) in
      let st := set_runtime id rt st in
      if is_completed rt then Some (remove_all true id w st)
      else if negb force_ then
        Some (st, Err (Protocol (bs "session is still running: " ++ id
                                 ++ bs ". Stop it first, or pass --force to kill and delete it.")))
      else
        '(st, _) ← terminate id 0 Killed (dw_stop w) rt st;
        Some (remove_all true id w st)
  | None =>
      if negb (session_exists (dw_exists w) id st) && bool_decide (ls_evicted st !! id = None)
      then Some (st, Ok false)
      else Some (remove_all false id w st)
  end.

(** ** The sweep *)

(** What the scan for a resume hint finds. *)
Inductive HintAnswer := Hint (command : option bytes) | HintFailed.

(** The clock, and for every session its poll, the error of its update, the
    scan for its hint, and the error of storing it. *)
Record SweepWorld := mk_sweep_world {
  pw_now : N;
  pw_exited : bytes → io_result (option Z);
  pw_update : bytes → option bytes;
  pw_hint : bytes → HintAnswer;
  pw_set : bytes → option bytes;
}.

(** The first pass over a handle: the metadata to persist, and whether its
    journal can be scanned. *)
Definition sweep_handle (now : N) (exited : io_result (option Z)) (h : Handle) : Handle * option SessionMeta * bool :=
  let rt := (refresh_status now exited (hd_runtime h)).1 in
  let persist := is_completed rt && negb (hd_persisted h) in
  let to_persist := if persist then Some (rt_meta rt) else None in
  let persisted := if persist then true else hd_persisted h in
  if is_completed rt && rt_output_closed rt && negb (hd_resume_scanned h) then
    match rt_journal rt with
    | None => (mk_handle rt persisted false, to_persist, true)
    | Some journal =>
        let journal := rc_poll journal in
        let journal := if rc_fully_durable journal then journal else rc_sync journal in
        let rt := rt <| rt_journal := Some journal |> in
        if rc_degraded journal then (mk_handle rt persisted true, to_persist, false)
        else (mk_handle rt persisted false, to_persist, rc_fully_durable journal)
    end
  else (mk_handle rt persisted (hd_resume_scanned h), to_persist, false).

Definition persist_all (w : SweepWorld) (to_persist : list SessionMeta) (st : Store) : Store :=
  foldl (λ st meta, (update_session (pw_update w (sm_id meta)) meta st).1) st to_persist.

(** One candidate: a failure leaves it for the next sweep. *)
Definition scan_hint (w : SweepWorld) (st : Store) (id : bytes) : Store :=
  match pw_hint w id with
  | Hint (Some command) =>
      let '(st, stored) := set_resume_command (pw_set w id) id command st in
      match stored with
      | Err _ => st
      | Ok _ =>
          send_updated id
            (st <| ls_sessions := alter (λ h, h <| hd_resume_scanned := true |>
                   <| hd_runtime := hd_runtime h <| rt_meta := rt_meta (hd_runtime h) <| sm_resume_command := Some command |> |> |>)
                   id (ls_sessions st) |>)
      end
  | Hint None => st <| ls_sessions := alter (λ h, h <| hd_resume_scanned := true |>) id (ls_sessions st) |>
  | HintFailed => st
  end.

(** The second pass. *)
Definition settle (now : N) (h : Handle) : Handle :=
  let rt := hd_runtime h in
  if is_completed rt
  then h <| hd_runtime := rt <| rt_completed_at := Some (default now (rt_completed_at rt)) |> |>
  else h.
Definition expired (now ttl : N) (h : Handle) : bool :=
  let rt := hd_runtime h in
  is_completed rt && (ttl <=? now - default now (rt_completed_at rt))
  && (negb (rt_output_closed rt) || hd_resume_scanned h).

Definition evict_old_tombstones (now eviction_ttl : N) (evicted : by_id N) : by_id N :=
  filter (λ ka, now - ka.2 < eviction_ttl) evicted.

Definition prune_evicted_sessions (eviction_ttl : N) (w : SweepWorld) (st : Store) : Store :=
  let now := pw_now w in
  let swept := map_imap (λ id h, Some (sweep_handle now (pw_exited w id) h)) (ls_sessions st) in
  let found := map_to_list swept in
  let st := st <| ls_sessions := (λ x, x.1.1) <$> swept |> in
  let st := persist_all w (omap (λ kx, kx.2.1.2) found) st in
  let st := foldl (scan_hint w) st (map fst (filter (λ kx, kx.2.2 = true) found)) in
  let sessions := settle now <$> ls_sessions st in
  let old := filter (λ kh, expired now eviction_ttl kh.2 = true) sessions in
  let st := st <| ls_sessions := filter (λ kh, expired now eviction_ttl kh.2 = false) sessions |> in
  st <| ls_evicted := evict_old_tombstones now eviction_ttl (((λ _, now) <$> old) ∪ ls_evicted st) |>.

Definition run_maintenance := prune_evicted_sessions.

(** Up to twenty sweeps before the daemon goes away. *)
Fixpoint flush_resume_hints_on_shutdown (eviction_ttl : N) (worlds : list SweepWorld) (st : Store) : Store :=
  match worlds with
  | [] => st
  | w :: worlds =>
      let st := prune_evicted_sessions eviction_ttl w st in
      if existsb (λ kh, is_completed (hd_runtime kh.2) && negb (hd_resume_scanned kh.2)) (map_to_list (ls_sessions st))
      then flush_resume_hints_on_shutdown eviction_ttl worlds st
      else st
  end.

(** ** Startup *)

Definition reconciled (meta : SessionMeta) : SessionMeta := meta <| sm_status := Failed |> <| sm_exit_code := None |>.
Definition load_running_stopping_sessions (err : option bytes) (errs : bytes → option bytes) (st : Store)
    : Store * list SessionMeta :=
  match load_sessions_with_status err [Running; Stopping] st with
  | Err _ => (st, [])
  | Ok rows =>
      foldl (λ acc row, let meta := reconciled row.2 in
               ((update_session (errs (sm_id meta)) meta acc.1).1, acc.2 ++ [meta])) (st, []) rows
  end.
End Lifecycle.

(** ** Starts side by side *)

Section Pool.
Context `{Crc32Fast, Base64, Engine} {J : Type} `{Recorder J}.

#[local] Abbreviation Store := (Store (J:=J)).
#[local] Abbreviation StartPhase := (StartPhase (J:=J)).
#[local] Abbreviation Answers := (Answers (J:=J)).

(** A start under way; [sx_dropped]: whoever awaited it is gone. *)
Record Start := mk_start {
  sx_limits : StartLimits;
  sx_spec : StartSpec;
  sx_phase : StartPhase;
  sx_dropped : bool;
}.

(** What happens: a new start, a step of one, its caller going away, or
    anything else that leaves the reservations alone. *)
Inductive PoolOp :=
  | PNew (limits : StartLimits) (spec : StartSpec)
  | PStep (i : nat) (a : Answers)
  | PDrop (i : nat)
  | POther (f : Store → Store).

(** A caller is dropped where its start awaits; a worker already under way
    runs on. *)
Definition droppable (p : StartPhase) : bool :=
  match p with Publishing _ _ | Announcing _ | Finished _ _ => false | _ => true end.
Definition runs (x : Start) : bool :=
  negb (sx_dropped x) || match sx_phase x with Spawning _ => true | _ => false end.

Definition pool_step (op : PoolOp) (s : list Start * Store) : list Start * Store :=
  let '(starts, st) := s in
  match op with
  | PNew limits spec => (starts ++ [mk_start limits spec Counting false], st)
  | PStep i a =>
      match starts !! i with
      | Some x =>
          if runs x then
            let '(p, st) := start_step (sx_limits x) (sx_spec x) a (sx_phase x) st in
            (<[i := mk_start (sx_limits x) (sx_spec x) p (sx_dropped x)]> starts, st)
          else s
      | None => s
      end
  | PDrop i =>
      match starts !! i with
      | Some x => if droppable (sx_phase x)
                  then (<[i := mk_start (sx_limits x) (sx_spec x) (sx_phase x) true]> starts, st) else s
      | None => s
      end
  | POther f => (starts, f st)
  end.
Definition pool_run (ops : list PoolOp) (s : list Start * Store) : list Start * Store :=
  foldl (λ s op, pool_step op s) s ops.

Definition leaves_reservations (op : PoolOp) : Prop :=
  match op with POther f => ∀ st, ls_starting (f st) = ls_starting st | _ => True end.

(** The reservation a start still has to give back. *)
Definition held (p : StartPhase) : option bytes :=
  match p with
  | Inserting p | Spawning p => Some (sm_id (pp_meta p))
  | Committing meta _ | Committed meta _ _ => Some (sm_id meta)
  | Releasing id _ | Aborting id _ _ => Some id
  | _ => None
  end.

(** No statement and no file operation touches the reservations. *)
Lemma update_starting err meta (st : Store) : ls_starting (update_session err meta st).1 = ls_starting st.
Proof. by destruct err. Qed.
Lemma insert_starting err meta (st : Store) : ls_starting (insert_session err meta st).1 = ls_starting st.
Proof. unfold insert_session. by repeat case_match. Qed.
Lemma remove_dir_starting err id (st : Store) : ls_starting (remove_session_dir err id st).1 = ls_starting st.
Proof. unfold remove_session_dir. by repeat case_match. Qed.
Lemma delete_row_starting err id (st : Store) : ls_starting (db_delete_session err id st).1 = ls_starting st.
Proof. by destruct err. Qed.
Lemma spawn_starting limits p a (st : Store) : ls_starting (spawn_worker limits p a st).1 = ls_starting st.
Proof. unfold spawn_worker. by repeat case_match. Qed.
Lemma mark_starting id a (st : Store) : ls_starting (delete_or_mark_failed id a st).1 = ls_starting st.
Proof.
  unfold delete_or_mark_failed. pose proof (delete_row_starting (an_db_second a) id st) as Hd.
  destruct (db_delete_session _ _ st) as [st2 [?|?]]; [exact Hd|]. cbn [fst] in Hd. rewrite <- Hd.
  destruct (get_session _ _ st2) as [[meta|]|]; [|done..].
  match goal with |- context [update_session ?e ?m ?s] => pose proof (update_starting e m s) as Hu; by destruct (update_session e m s) end.
Qed.
Lemma cleanup_starting id a (st : Store) : ls_starting (abort_cleanup id a st).1 = ls_starting st.
Proof.
  unfold abort_cleanup, get_session_dir. destruct (session_exists _ _ _); [|apply mark_starting].
  pose proof (remove_dir_starting (an_rmdir a) id st) as Hr. destruct (remove_session_dir _ _ _) as [st1 [?|?]]; [|exact Hr].
  rewrite mark_starting. exact Hr.
Qed.

Lemma reserve_starting limits spec running seen a (st st' : Store) r :
  reserve limits spec running seen a st = Some (st', r) →
  match r with
  | Ok p => ls_starting st' = {[sm_id (pp_meta p)]} ∪ ls_starting st ∧ (sm_id (pp_meta p) ∉ ls_starting st)
      ∧ running + N.of_nat (size (ls_starting st)) < max_running_sessions limits
  | Err _ => st' = st
  end.
Proof.
  unfold reserve. destruct (N.leb_spec (max_running_sessions limits) (running + N.of_nat (size (ls_starting st)))) as [Hm|Hm].
  { by intros [= <- <-]. }
  destruct (check_disk_guard _ _); [|by intros [= <- <-]].
  destruct (generate_session_id _ _) as [id|] eqn:Eg; cbn [mbind option_bind]; [|done].
  destruct (validate_session_metadata _ _) as [[title tags]|]; intros [= <- <-]; [|done]. cbn [pp_meta sm_id]. split_and!; [done| |done].
  unfold generate_session_id in Eg. apply find_some in Eg as [_ Hc]. apply negb_true_iff, orb_false_iff in Hc as [_ Hc].
  by apply bool_decide_eq_false in Hc.
Qed.

(** What a step does to the reservations: they stay, with the start's own, or
    it gives its own back, or it takes a new one. *)
Definition reserves (p p' : StartPhase) (st st' : Store) : Prop :=
  (∀ id, id ∈ ls_starting st' → held p' = Some id ∨ (id ∈ ls_starting st ∧ held p ≠ Some id))
  ∧ (∀ id, id ∈ ls_starting st → held p ≠ Some id → id ∈ ls_starting st')
  ∧ (∀ id, held p' = Some id → held p = Some id ∨ id ∉ ls_starting st).

Lemma reserves_same p p' (st st' : Store) : held p' = held p → ls_starting st' = ls_starting st → reserves p p' st st'.
Proof.
  intros Hh Hs. unfold reserves. rewrite Hs, Hh. split_and!; [|done|by left].
  intros id Hi. destruct (decide (held p = Some id)); [by left|by right].
Qed.
Lemma reserves_back id p p' (st : Store) :
  held p = Some id → held p' = None ∨ held p' = Some id → reserves p p' st (unreserve id st).
Proof.
  intros Hh Hh'. unfold reserves, unreserve. cbn. rewrite Hh. split_and!.
  - intros i [Hi Hn]%elem_of_difference. right. split; [done|]. intros [= ->]. by apply Hn, elem_of_singleton.
  - intros i Hi Hn. apply elem_of_difference. split; [done|]. intros ->%elem_of_singleton. by apply Hn.
  - intros i Hi. left. destruct Hh' as [Hh'|Hh']; by rewrite Hh' in Hi.
Qed.

Lemma start_step_reserves limits spec a p (st : Store) :
  reserves p (start_step limits spec a p st).1 st (start_step limits spec a p st).2.
Proof.
  destruct p as [|running seen|p|id e|p|meta rt|meta rt u|meta rt|id|id e d|id e d|ans d]; cbn [start_step].
  - by apply reserves_same.
  - destruct (reserve _ _ _ _ _ _) as [[st' [p|e]]|] eqn:Er; [| |by apply reserves_same].
    + apply reserve_starting in Er as (Hs & Hn & _). cbn [fst snd]. unfold reserves. rewrite Hs. cbn [held]. split_and!.
      * intros id [->%elem_of_singleton|Hi]%elem_of_union; [by left|by right].
      * intros id Hi _. by apply elem_of_union_r.
      * intros id [= <-]. by right.
    + apply reserve_starting in Er as ->. by apply reserves_same.
  - pose proof (insert_starting (an_db a) (pp_meta p) st) as Hs.
    destruct (insert_session _ _ st) as [st' [?|?]]; by apply reserves_same.
  - by apply (reserves_back id); [|left].
  - pose proof (spawn_starting limits p a st) as Hs. destruct (spawn_worker _ _ _ _) as [st' [[meta rt]|e]] eqn:Ew;
      (apply reserves_same; [|done]); [|done].
    cbn [held fst]. unfold spawn_worker in Ew. repeat case_match; simplify_eq/=; done.
  - pose proof (update_starting (an_db a) meta st) as Hs. destruct (update_session _ _ st) as [st' u]. by apply reserves_same.
  - cbn [fst snd]. destruct u; (apply reserves_back; [done|]); [by left|by right].
  - by apply reserves_same.
  - destruct (get_summary id st); by apply reserves_same.
  - by apply (reserves_back id); [|left].
  - cbn [fst snd]. apply reserves_same; [done|apply cleanup_starting].
  - by apply reserves_same.
Qed.

(** Every reservation is held by a start. *)
Definition accounted (s : list Start * Store) : Prop :=
  ∀ id, id ∈ ls_starting s.2 → ∃ x, x ∈ s.1 ∧ held (sx_phase x) = Some id.

Lemma replaced_holds (starts : list Start) i x y id :
  starts !! i = Some x → (held (sx_phase x) = Some id → held (sx_phase y) = Some id) →
  (∃ z, z ∈ starts ∧ held (sx_phase z) = Some id) → ∃ z, z ∈ <[i := y]> starts ∧ held (sx_phase z) = Some id.
Proof.
  intros Hi Hxy (z & [j Hj]%list_elem_of_lookup & Hz). destruct (decide (i = j)) as [<- |Hne].
  - exists y. rewrite Hi in Hj. injection Hj as <-. split; [|by apply Hxy].
    apply (list_elem_of_lookup_2 _ i). apply list_lookup_insert_eq. by eapply lookup_lt_Some.
  - exists z. split; [|done]. apply (list_elem_of_lookup_2 _ j). by rewrite list_lookup_insert_ne.
Qed.

Lemma pool_step_accounted op s : leaves_reservations op → accounted s → accounted (pool_step op s).
Proof.
  destruct s as [starts st]. intros Hop Ha. unfold accounted in *. destruct op as [limits spec|i a|i|f]; cbn [pool_step].
  - intros id (x & Hx & Hh)%Ha. exists x. split; [|done]. cbn in *. apply elem_of_app. by left.
  - destruct (starts !! i) as [x|] eqn:Hi; [|done]. destruct (runs x); [|done].
    pose proof (start_step_reserves (sx_limits x) (sx_spec x) a (sx_phase x) st) as (H1' & _ & _).
    destruct (start_step _ _ _ _ _) as [p' st']. cbn [fst snd] in *. intros id [Hh|[Hid Hne]]%H1'.
    + exists (mk_start (sx_limits x) (sx_spec x) p' (sx_dropped x)). split; [|exact Hh]. apply (list_elem_of_lookup_2 _ i), list_lookup_insert_eq. by eapply lookup_lt_Some.
    + apply (replaced_holds starts i x); [done|by intros ?|by apply Ha].
  - destruct (starts !! i) as [x|] eqn:Hi; [|done]. destruct (droppable (sx_phase x)); [|done]. cbn [fst snd] in *.
    intros id Hid. apply (replaced_holds starts i x); [done|done|by apply Ha].
  - cbn [fst snd] in *. intros id. rewrite Hop. apply Ha.
Qed.

(** Reservations whose starts have gone: no start that runs holds them. *)
Definition lost (ids : id_set) (s : list Start * Store) : Prop :=
  ids ⊆ ls_starting s.2 ∧ ∀ x id, x ∈ s.1 → runs x = true → held (sx_phase x) = Some id → id ∉ ids.

Lemma pool_step_lost op ids s : leaves_reservations op → lost ids s → lost ids (pool_step op s).
Proof.
  destruct s as [starts st]. intros Hop [Hsub Hfree]. unfold lost in *. cbn [fst snd] in *.
  destruct op as [limits spec|i a|i|f]; cbn [pool_step].
  - split; [done|]. intros x id [Hx| ->%list_elem_of_singleton]%elem_of_app; [by eapply Hfree|done].
  - destruct (starts !! i) as [x|] eqn:Hi; [|done]. destruct (runs x) eqn:Hr; [|done].
    pose proof (start_step_reserves (sx_limits x) (sx_spec x) a (sx_phase x) st) as (_ & H2' & H3').
    destruct (start_step _ _ _ _ _) as [p' st']. cbn [fst snd] in *.
    assert (x ∈ starts) as Hx by by eapply list_elem_of_lookup_2. split.
    + intros id Hid. apply H2'; [by apply Hsub|]. intros Hh. by apply (Hfree x id).
    + intros y id Hy Hry Hh. apply list_elem_of_lookup in Hy as [j Hj]. destruct (decide (i = j)) as [<- |Hne].
      * rewrite list_lookup_insert_eq in Hj by by eapply lookup_lt_Some. injection Hj as <-. cbn in Hh.
        destruct (H3' id Hh) as [Hh'|Hn]; [by apply (Hfree x id)|]. intros Hid. by apply Hn, Hsub.
      * rewrite list_lookup_insert_ne in Hj by done. apply (Hfree y id); [by eapply list_elem_of_lookup_2|done|done].
  - destruct (starts !! i) as [x|] eqn:Hi; [|done]. destruct (droppable (sx_phase x)); [|done]. cbn [fst snd]. split; [done|].
    intros y id Hy Hry Hh. apply list_elem_of_lookup in Hy as [j Hj]. destruct (decide (i = j)) as [<- |Hne].
    + rewrite list_lookup_insert_eq in Hj by by eapply lookup_lt_Some. injection Hj as <-. cbn in Hh.
      apply (Hfree x id); [by eapply list_elem_of_lookup_2| |done]. unfold runs in *. cbn in *. by rewrite Hry, orb_true_r.
    + rewrite list_lookup_insert_ne in Hj by done. apply (Hfree y id); [by eapply list_elem_of_lookup_2|done|done].
  - cbn [fst snd]. by rewrite Hop.
Qed.

Lemma pool_run_keeps (P : list Start * Store → Prop) ops s :
  (∀ op s, leaves_reservations op → P s → P (pool_step op s)) → Forall leaves_reservations ops → P s → P (pool_run ops s).
Proof.
  intros Hstep Hops. revert s. induction Hops as [|op ops Hop _ IH]; intros s Hs; [done|]. cbn [pool_run foldl].
  by apply IH, Hstep.
Qed.

(** C32: A start gives its reservation back, unless it is dropped.  Of any
    starts side by side, whatever else happens: each reservation is held by a
    start that has not finished, so when all have, none is left.  But when the
    callers of some starts go away while these wait, their reservations stay
    for good: no start that gets as far is admitted any more once there are as
    many of them as sessions may run. *)
Theorem starts_return_reservations (st0 : Store) ops :
  ls_starting st0 = ∅ → Forall leaves_reservations ops →
  let '(starts, st) := pool_run ops ([], st0) in
  (∀ id, id ∈ ls_starting st → ∃ x, x ∈ starts ∧ held (sx_phase x) = Some id)
  ∧ (Forall (λ x, ∃ r d, sx_phase x = Finished r d) starts → ls_starting st = ∅)
  ∧ ∀ gone more, lost gone (starts, st) → Forall leaves_reservations more →
      let '(starts', st') := pool_run more (starts, st) in
      gone ⊆ ls_starting st'
      ∧ ∀ x running seen a, x ∈ starts' → sx_phase x = Admitting running seen →
          max_running_sessions (sx_limits x) <= N.of_nat (size gone) →
          start_step (sx_limits x) (sx_spec x) a (sx_phase x) st'
          = (Finished (Err (MaxSessionsReached (max_running_sessions (sx_limits x)))) None, st').
Proof.
  intros H0' Hops. pose proof (pool_run_keeps accounted ops ([], st0) pool_step_accounted Hops) as Ha.
  destruct (pool_run ops _) as [starts st]. assert (accounted (starts, st)) as Hacc.
  { apply Ha. intros id. cbn. rewrite H0'. by intros ?%elem_of_empty. }
  split_and!; [exact Hacc| |].
  - intros Hall. apply set_eq. intros id. split; [|by intros ?%elem_of_empty]. intros (x & Hx & Hh)%Hacc.
    destruct (proj1 (Forall_forall _ _) Hall x Hx) as (r & d & Hp). by rewrite Hp in Hh.
  - intros gone more Hl Hmore. pose proof (pool_run_keeps (lost gone) more (starts, st) (λ op s, pool_step_lost op gone s) Hmore Hl) as Hl'.
    destruct (pool_run more _) as [starts' st']. destruct Hl' as [Hsub _]. cbn [snd] in Hsub. split; [done|].
    intros x running seen a _ -> Hm. cbn [start_step]. unfold reserve.
    assert (size gone <= size (ls_starting st'))%nat by by apply subseteq_size. by leb_to true.
Qed.
End Pool.

(** ** Runtimes that have ended *)

Section Ended.
Context `{Crc32Fast, Base64, Engine} {J : Type} `{Recorder J}.

#[local] Abbreviation Runtime := (SessionRuntime (J:=J)).

(** The parts of a runtime the records it writes do not touch. *)
Definition shown (rt : Runtime) : SessionMeta * PtyHandle * bool * option N :=
  (rt_meta rt, rt_pty rt, rt_output_closed rt, rt_completed_at rt).

Lemma journal_event_shown f (rt : Runtime) : shown (journal_event f rt) = shown rt.
Proof. unfold journal_event. by repeat case_match. Qed.

Lemma queue_completion_shown now code exit_code detail (rt : Runtime) :
  shown (queue_journal_completion now code exit_code detail rt) = shown rt.
Proof.
  unfold queue_journal_completion, journal_terminal_end, journal_lifecycle. destruct (rt_output_closed rt) eqn:E; [|done].
  match goal with |- context [journal_event ?f rt] => pose proof (journal_event_shown f rt) as Hs; set (rt1 := journal_event f rt) in * end.
  by destruct (rt_journal rt1).
Qed.

Lemma mark_completed_ends now status exit_code (rt : Runtime) :
  let rt' := mark_completed now status exit_code rt in
  sm_status (rt_meta rt') = status ∧ ph_kills (rt_pty rt') = ph_kills (rt_pty rt)
  ∧ rt_output_closed rt' = rt_output_closed rt ∧ rt_completed_at rt' = Some (default now (rt_completed_at rt))
  ∧ sm_id (rt_meta rt') = sm_id (rt_meta rt) ∧ sm_resume_command (rt_meta rt') = sm_resume_command (rt_meta rt).
Proof.
  cbv zeta. unfold mark_completed. cbv zeta. set (rt1 := teardown_pty _).
  assert (shown rt1 = (rt_meta rt1, rt_pty rt1, rt_output_closed rt1, rt_completed_at rt1)) as Hs by done.
  assert (sm_status (rt_meta rt1) = status ∧ ph_kills (rt_pty rt1) = ph_kills (rt_pty rt)
    ∧ rt_output_closed rt1 = rt_output_closed rt ∧ rt_completed_at rt1 = Some (default now (rt_completed_at rt))
    ∧ sm_id (rt_meta rt1) = sm_id (rt_meta rt) ∧ sm_resume_command (rt_meta rt1) = sm_resume_command (rt_meta rt)) as H1'.
  { unfold rt1. cbn. case_bool_decide; destruct (rt_completed_at rt) eqn:E, exit_code; cbn; rewrite ?E; done. }
  clearbody rt1. destruct (bool_decide _); [|done]. destruct (end_code _) as [code|]; [|done].
  pose proof (queue_completion_shown now code exit_code (end_detail (rt_meta rt1)) rt1) as Hq.
  unfold shown in Hq. by injection Hq as -> -> -> ->.
Qed.

Lemma refresh_ends now exited (rt : Runtime) :
  let rt' := (refresh_status now exited rt).1 in
  (is_completed rt = true → is_completed rt' = true)
  ∧ rt_output_closed rt' = rt_output_closed rt
  ∧ (is_completed rt' = true → rt_completed_at rt' = Some (default now (rt_completed_at rt)))
  ∧ sm_id (rt_meta rt') = sm_id (rt_meta rt) ∧ sm_resume_command (rt_meta rt') = sm_resume_command (rt_meta rt).
Proof.
  cbv zeta. unfold refresh_status. cbv zeta. set (rt1 := match rt_journal rt with Some _ => _ | None => rt end).
  assert (shown rt1 = shown rt) as Hs by (unfold rt1; by destruct (rt_journal rt)). unfold shown in Hs. injection Hs as Hm Hp Ho Hc.
  clearbody rt1. assert (is_completed rt1 = is_completed rt) as Hi by (unfold is_completed; by rewrite Hm). rewrite Hi.
  rewrite <- Hm, <- Ho, <- Hc, <- Hi. clear Hi. destruct (is_completed rt1) eqn:E.
  - destruct (rt_completed_at rt1) eqn:Ec; cbn [fst]; unfold is_completed in *; cbn; rewrite ?E, ?Ec; split_and!; try done.
  - destruct exited as [[code|]|e]; cbn [fst].
    + destruct (mark_completed_ends now (default (if (code =? 0)%Z then Stopped else Failed) (rt_requested_final_status rt1)) (Some code) rt1)
        as (_ & _ & ? & ? & ? & ?). split_and!; done.
    + case_bool_decide as Hst; [rewrite E; by split_and!|]. unfold is_completed. cbn. by split_and!.
    + destruct (mark_completed_ends now Failed None rt1) as (_ & _ & ? & ? & ? & ?). split_and!; done.
Qed.
End Ended.

(** ** What a start leaves behind *)

Section Outcome.
Context `{Crc32Fast, Base64, Engine} {J : Type} `{Recorder J}.
Context (limits : StartLimits) (spec : StartSpec) (st0 : Store (J:=J)).

(** The store [st0] with the start's reservation, row and directory. *)
Definition with_start (starting : id_set) (rows : by_id SessionMeta) (dirs : id_set) : Store (J:=J) :=
  mk_lifecycle (ls_sessions st0) starting (ls_evicted st0) rows dirs (ls_events st0).

(** Live sessions and reservations. *)
Definition occupancy (st : Store (J:=J)) : N := running_count (ls_sessions st) + N.of_nat (size (ls_starting st)).

(** An id nobody has. *)
Definition fresh (id : bytes) : Prop := ls_sessions st0 !! id = None ∧ id ∉ ls_starting st0.
(** What a start began with: its metadata, and room for it. *)
Definition launched (meta : SessionMeta) : Prop :=
  occupancy st0 < max_running_sessions limits
  ∧ sm_command meta = sp_cmd spec ∧ sm_args meta = sp_args spec ∧ sm_cwd meta = sp_cwd spec
  ∧ sm_notifications_enabled meta = sp_notifications_enabled spec ∧ sm_status meta = Running
  ∧ sm_resume_command meta = None ∧ sm_ended_at meta = None ∧ sm_exit_code meta = None.

(** The directory was made, or not yet. *)
Definition maybe_dir (id : bytes) (dirs : id_set) : Prop := dirs = ls_dirs st0 ∨ dirs = {[id]} ∪ ls_dirs st0.

(** What a start has done when it is at a phase, [used] being the answers it
    has had. *)
Definition so_far (used : list Answers) (p : StartPhase) (st : Store (J:=J)) : Prop :=
  match p with
  | Counting => st = st0
  | Admitting running seen => st = st0 ∧ seen = ls_sessions st0 ∧ running = running_count (ls_sessions st0)
  | Inserting p =>
      fresh (sm_id (pp_meta p)) ∧ launched (pp_meta p) ∧ pp_notifications_enabled p = sp_notifications_enabled spec
      ∧ st = with_start ({[sm_id (pp_meta p)]} ∪ ls_starting st0) (ls_rows st0) (ls_dirs st0)
  | Releasing id _ => fresh id ∧ st = with_start ({[id]} ∪ ls_starting st0) (ls_rows st0) (ls_dirs st0)
  | Spawning p =>
      let id := sm_id (pp_meta p) in
      fresh id ∧ ls_rows st0 !! id = None ∧ launched (pp_meta p) ∧ pp_notifications_enabled p = sp_notifications_enabled spec
      ∧ st = with_start ({[id]} ∪ ls_starting st0) (<[id := pp_meta p]> (ls_rows st0)) (ls_dirs st0)
  | Committing meta rt =>
      let id := sm_id meta in
      fresh id ∧ ls_rows st0 !! id = None ∧ launched meta ∧ rt_meta rt = meta
      ∧ ∃ row, sm_id row = id ∧ sm_created_at row = sm_created_at meta ∧ sm_resume_command row = sm_resume_command meta
          ∧ st = with_start ({[id]} ∪ ls_starting st0) (<[id := row]> (ls_rows st0)) ({[id]} ∪ ls_dirs st0)
  | Committed meta rt updated =>
      let id := sm_id meta in
      fresh id ∧ ls_rows st0 !! id = None ∧ launched meta ∧ rt_meta rt = meta
      ∧ ∃ row, sm_id row = id ∧ (updated = Ok tt → row = meta)
          ∧ st = with_start ({[id]} ∪ ls_starting st0) (<[id := row]> (ls_rows st0)) ({[id]} ∪ ls_dirs st0)
  | Publishing meta rt =>
      let id := sm_id meta in
      fresh id ∧ ls_rows st0 !! id = None ∧ launched meta ∧ rt_meta rt = meta
      ∧ st = with_start (ls_starting st0) (<[id := meta]> (ls_rows st0)) ({[id]} ∪ ls_dirs st0)
  | Announcing id =>
      ∃ meta rt, sm_id meta = id ∧ fresh id ∧ ls_rows st0 !! id = None ∧ launched meta ∧ rt_meta rt = meta
        ∧ st = publish meta rt (with_start (ls_starting st0) (<[id := meta]> (ls_rows st0)) ({[id]} ∪ ls_dirs st0))
  | Aborting id _ discarded =>
      fresh id ∧ ls_rows st0 !! id = None
      ∧ (∀ rt, discarded = Some rt → is_completed rt = true ∧ 0 < ph_kills (rt_pty rt))
      ∧ ∃ row dirs starting, sm_id row = id ∧ maybe_dir id dirs ∧ (starting = ls_starting st0 ∨ starting = {[id]} ∪ ls_starting st0)
          ∧ st = with_start starting (<[id := row]> (ls_rows st0)) dirs
  | Cleaning id _ discarded =>
      fresh id ∧ ls_rows st0 !! id = None
      ∧ (∀ rt, discarded = Some rt → is_completed rt = true ∧ 0 < ph_kills (rt_pty rt))
      ∧ ∃ row dirs, sm_id row = id ∧ maybe_dir id dirs ∧ st = with_start (ls_starting st0) (<[id := row]> (ls_rows st0)) dirs
  | Finished (Ok id) _ =>
      ∃ meta rt, sm_id meta = id ∧ fresh id ∧ ls_rows st0 !! id = None ∧ launched meta ∧ rt_meta rt = meta
        ∧ st = send (SessionCreated meta)
                 (publish meta rt (with_start (ls_starting st0) (<[id := meta]> (ls_rows st0)) ({[id]} ∪ ls_dirs st0)))
  | Finished (Err _) discarded =>
      (∀ rt, discarded = Some rt → is_completed rt = true ∧ 0 < ph_kills (rt_pty rt))
      ∧ (st = st0
         ∨ ∃ id row dirs a, sm_id row = id ∧ fresh id ∧ ls_rows st0 !! id = None ∧ maybe_dir id dirs ∧ a ∈ used
             ∧ st = (abort_cleanup id a (with_start (ls_starting st0) (<[id := row]> (ls_rows st0)) dirs)).1)
  end.

Lemma with_start_same : with_start (ls_starting st0) (ls_rows st0) (ls_dirs st0) = st0.
Proof. unfold with_start. by destruct st0. Qed.

Lemma so_far_more used a p st : so_far used p st → so_far (used ++ [a]) p st.
Proof.
  destruct p as [| | | | | | | | | | |[]]; try done. intros (Hd & [?|(id & row & dirs & b & ? & ? & ? & ? & ? & ?)]); (split; [done|]); [by left|right].
  exists id, row, dirs, b. split_and!; try done. apply elem_of_app. by left.
Qed.

Lemma reserve_fresh a st' r :
  reserve limits spec (running_count (ls_sessions st0)) (ls_sessions st0) a st0 = Some (st', r) →
  match r with
  | Ok p => fresh (sm_id (pp_meta p)) ∧ launched (pp_meta p) ∧ pp_notifications_enabled p = sp_notifications_enabled spec
      ∧ st' = with_start ({[sm_id (pp_meta p)]} ∪ ls_starting st0) (ls_rows st0) (ls_dirs st0)
  | Err _ => st' = st0
  end.
Proof.
  unfold reserve. destruct (N.leb_spec (max_running_sessions limits) (running_count (ls_sessions st0) + N.of_nat (size (ls_starting st0)))) as [|Hroom];
    [by intros [= <- <-]|]. destruct (check_disk_guard _ _); [|by intros [= <- <-]].
  destruct (generate_session_id _ _) as [id|] eqn:Eg; cbn [mbind option_bind]; [|done].
  destruct (validate_session_metadata _ _) as [[title tags]|]; intros [= <- <-]; [|done]. cbn [pp_meta pp_notifications_enabled sm_id].
  unfold generate_session_id in Eg. apply find_some in Eg as [_ Hc]. apply negb_true_iff, orb_false_iff in Hc as [Hn Hc].
  apply bool_decide_eq_false in Hc, Hn. apply eq_None_not_Some in Hn. by split_and!.
Qed.

Lemma unreserve_own id rows dirs : id ∉ ls_starting st0 →
  unreserve id (with_start ({[id]} ∪ ls_starting st0) rows dirs) = with_start (ls_starting st0) rows dirs.
Proof.
  intros Hn. assert (({[id]} ∪ ls_starting st0) ∖ {[id]} = ls_starting st0) as Hs.
  { apply set_eq. intros x. rewrite elem_of_difference, elem_of_union, elem_of_singleton.
    split; [tauto|]. intros Hx. split; [by right|]. by intros ->. }
  unfold unreserve. cbn [ls_starting with_start]. by rewrite Hs.
Qed.
Lemma unreserve_none id rows dirs : id ∉ ls_starting st0 →
  unreserve id (with_start (ls_starting st0) rows dirs) = with_start (ls_starting st0) rows dirs.
Proof.
  intros Hn. assert (ls_starting st0 ∖ {[id]} = ls_starting st0) as Hs.
  { apply set_eq. intros x. rewrite elem_of_difference, elem_of_singleton.
    split; [tauto|]. intros Hx. split; [done|]. by intros ->. }
  unfold unreserve. cbn [ls_starting with_start]. by rewrite Hs.
Qed.

Lemma commit_updates err meta row starting dirs :
  sm_id row = sm_id meta → sm_created_at row = sm_created_at meta → sm_resume_command row = sm_resume_command meta →
  let '(st, updated) := update_session err meta (with_start starting (<[sm_id meta := row]> (ls_rows st0)) dirs) in
  ∃ row', sm_id row' = sm_id meta ∧ (updated = Ok tt → row' = meta)
    ∧ st = with_start starting (<[sm_id meta := row']> (ls_rows st0)) dirs.
Proof.
  intros Hi Hc Hr. destruct err; cbn [update_session]; [by exists row|]. exists meta. split_and!; [done|done|].
  assert (updated_row meta row = meta) as Hu by (unfold updated_row; rewrite Hc, Hr; by destruct meta).
  cbn [ls_rows with_start]. by rewrite alter_insert_eq, Hu.
Qed.

(** A step goes on from what the start has done. *)
Lemma so_far_step used a p st :
  so_far used p st → let '(p', st') := start_step limits spec a p st in so_far (used ++ [a]) p' st'.
Proof.
  destruct p as [|running seen|p|id e|p|meta rt|meta rt u|meta rt|id|id e d|id e d|ans d]; cbn [start_step so_far].
  - by intros ->.
  - intros (-> & -> & ->). destruct (reserve _ _ _ _ _ _) as [[st' [p|e]]|] eqn:Er; [|..|done].
    + apply reserve_fresh in Er. done.
    + apply reserve_fresh in Er as ->. cbn. split; [done|by left].
  - intros (Hf & Hl & Hn & ->). unfold insert_session. destruct (an_db a); [done|]. cbn [ls_rows with_start].
    destruct (ls_rows st0 !! _) eqn:Er; [done|]. done.
  - intros [[_ Hf] ->]. cbn [so_far]. split; [done|left]. rewrite unreserve_own by done. apply with_start_same.
  - intros (Hf & Hr & Hl & Hn & ->). unfold spawn_worker. destruct (check_disk_guard _ _).
    + destruct (an_spawn a) as [[[pid e] j]|e]; cbn [so_far].
      * cbn [sm_id]. split_and!; try done.
        -- destruct Hl as (? & ? & ? & ? & ? & ? & ? & ? & ?). by split_and!.
        -- exists (pp_meta p). by split_and!.
      * split_and!; try done. exists (pp_meta p), (if an_mkdir a then {[sm_id (pp_meta p)]} ∪ ls_dirs st0 else ls_dirs st0),
          ({[sm_id (pp_meta p)]} ∪ ls_starting st0). destruct (an_mkdir a); (split_and!; [done| |by right|done]); [by right|by left].
    + cbn [so_far]. split_and!; try done. exists (pp_meta p), (ls_dirs st0), ({[sm_id (pp_meta p)]} ∪ ls_starting st0).
      split_and!; [done|by left|by right|done].
  - intros (Hf & Hr & Hl & Hm & row & Hid & Hc & Hrs & ->).
    pose proof (commit_updates (an_db a) meta row ({[sm_id meta]} ∪ ls_starting st0) ({[sm_id meta]} ∪ ls_dirs st0) Hid Hc Hrs) as Hu.
    destruct (update_session _ _ _) as [st' u]. by split_and!.
  - intros ((Hf & Hns) & Hr & Hl & Hm & row & Hid & Hrow & ->). rewrite unreserve_own by done. destruct u as [[]|e]; cbn [so_far].
    + rewrite Hrow by done. by split_and!.
    + split_and!; try done.
      * intros rt' [= <-]. destruct (mark_completed_ends (an_now a) Failed None (rt <| rt_pty := kill (rt_pty rt) |>)) as (Hs & Hk & _).
        unfold is_completed. rewrite Hs, Hk. split; [done|]. cbn. lia.
      * exists row, ({[sm_id meta]} ∪ ls_dirs st0), (ls_starting st0). split_and!; [done|by right|by left|done].
  - intros (Hf & Hr & Hl & Hm & ->). by exists meta, rt.
  - intros (meta & rt & <- & Hf & Hr & Hl & Hm & ->). unfold get_summary. cbn [ls_sessions publish with_start]. cbn.
    rewrite lookup_insert_eq. cbn [mbind option_bind hd_runtime]. rewrite Hm. by exists meta, rt.
  - intros ((Hf & Hns) & Hr & Hd & row & dirs & starting & Hid & Hdirs & Hst & ->). split_and!; try done. exists row, dirs. split_and!; [done|done|].
    destruct Hst as [-> | ->]; [by rewrite unreserve_none|by rewrite unreserve_own].
  - intros (Hf & Hr & Hd & row & dirs & Hid & Hdirs & ->). split; [done|]. right. exists id, row, dirs, a. split_and!; try done.
    apply elem_of_app. right. by apply elem_of_cons; left.
  - apply (so_far_more used a (Finished ans d)).
Qed.

Lemma run_start_so_far answers used p st :
  so_far used p st → let '(p', st') := run_start limits spec answers p st in so_far (used ++ answers) p' st'.
Proof.
  revert used p st. induction answers as [|a answers IH]; intros used p st Hs; cbn [run_start foldl]; [by rewrite app_nil_r|].
  pose proof (so_far_step used a p st Hs) as Hstep. unfold run_start in IH. cbn [fst snd].
  destruct (start_step limits spec a p st) as [p' st']. specialize (IH (used ++ [a]) p' st' Hstep). by rewrite <- app_assoc in IH.
Qed.

(** What is the same outside a start's own row and directory. *)
Definition untouched (id : bytes) (st : Store (J:=J)) : Prop :=
  ls_sessions st = ls_sessions st0 ∧ ls_starting st = ls_starting st0 ∧ ls_evicted st = ls_evicted st0
  ∧ ls_events st = ls_events st0
  ∧ ∀ i, i ≠ id → ls_rows st !! i = ls_rows st0 !! i ∧ (i ∈ ls_dirs st ↔ i ∈ ls_dirs st0).

(** What the cleanup [a] leaves of a start. *)
Definition cleaned (id : bytes) (a : Answers (J:=J)) (st : Store (J:=J)) : Prop :=
  (an_db a = None → an_rmdir a = None → ls_dirs st = ls_dirs st0 ∖ {[id]})
  ∧ (an_db a ≠ None → maybe_dir id (ls_dirs st))
  ∧ (an_rmdir a = None → an_db_second a = None → ls_rows st = ls_rows st0)
  ∧ (an_rmdir a = None → an_db_second a ≠ None → an_db_third a = None → an_db_fourth a = None →
       ∃ row, ls_rows st !! id = Some row ∧ sm_status row = Failed ∧ sm_pid row = None).

Lemma maybe_dir_other id dirs i : maybe_dir id dirs → i ≠ id → i ∈ dirs ↔ i ∈ ls_dirs st0.
Proof. intros [-> | ->] Hne; [done|]. rewrite elem_of_union, elem_of_singleton. tauto. Qed.

Lemma maybe_dir_without id dirs : maybe_dir id dirs → dirs ∖ {[id]} = ls_dirs st0 ∖ {[id]}.
Proof.
  intros Hd. apply set_eq. intros i. rewrite !elem_of_difference, !elem_of_singleton.
  split; intros [Hi Hne]; (split; [|done]); by apply (maybe_dir_other id dirs i).
Qed.

Lemma mark_ok id (a : Answers (J:=J)) row dirs :
  ls_rows st0 !! id = None → sm_id row = id →
  ∃ rows, (delete_or_mark_failed id a (with_start (ls_starting st0) (<[id := row]> (ls_rows st0)) dirs)).1
      = with_start (ls_starting st0) rows dirs
    ∧ (∀ i, i ≠ id → rows !! i = ls_rows st0 !! i)
    ∧ (an_db_second a = None → rows = ls_rows st0)
    ∧ (an_db_second a ≠ None → an_db_third a = None → an_db_fourth a = None →
        ∃ row', rows !! id = Some row' ∧ sm_status row' = Failed ∧ sm_pid row' = None).
Proof.
  intros Hr Hid. assert (∀ (row : SessionMeta) i, i ≠ id → <[id := row]> (ls_rows st0) !! i = ls_rows st0 !! i) as Hne
    by (intros r i Hi; by rewrite lookup_insert_ne).
  unfold delete_or_mark_failed. destruct (an_db_second a) as [e|]; cbn [db_delete_session].
  2:{ exists (ls_rows st0). split_and!; try done. cbn [ls_rows with_start fst]. by rewrite delete_insert_id. }
  destruct (an_db_third a) as [e'|]; cbn [get_session ls_rows with_start]; [by eexists; split_and!; [done|apply Hne| |]|].
  rewrite lookup_insert_eq. destruct (an_db_fourth a) as [e'|]; cbn [update_session]; [by eexists; split_and!; [done|apply Hne| |]|].
  set (m := row <| sm_status := Failed |> <| sm_pid := None |> <| sm_ended_at := Some (an_now a) |>).
  cbn [fst ls_rows with_start]. change (sm_id m) with (sm_id row). rewrite Hid, alter_insert_eq.
  exists (<[id := updated_row m row]> (ls_rows st0)). split_and!; [done| |done|].
  - apply Hne.
  - intros _ _ _. rewrite lookup_insert_eq. eexists. split_and!; [done|done|done].
Qed.

Lemma cleanup_ok id (a : Answers (J:=J)) row dirs :
  ls_rows st0 !! id = None → sm_id row = id → maybe_dir id dirs →
  let st := (abort_cleanup id a (with_start (ls_starting st0) (<[id := row]> (ls_rows st0)) dirs)).1 in
  untouched id st ∧ cleaned id a st.
Proof.
  intros Hr Hid Hd. cbv zeta. unfold abort_cleanup, get_session_dir, session_exists. cbn [ls_rows with_start].
  rewrite lookup_insert_eq. unfold untouched, cleaned. destruct (an_db a) as [e|]; [|rewrite bool_decide_eq_true_2 by done].
  - destruct (mark_ok id a row dirs Hr Hid) as (rows & -> & Ho & H1' & H2'). cbn. split_and!; try done.
    intros i Hi. split; [by apply Ho|]. by apply (maybe_dir_other id).
  - unfold remove_session_dir. cbn [ls_dirs with_start]. case_bool_decide as Hin.
    + destruct (an_rmdir a) as [k|] eqn:Ek.
      * assert (∀ st, st = with_start (ls_starting st0) (<[id:=row]> (ls_rows st0)) dirs → untouched id st) as Hu.
        { intros st ->. unfold untouched. cbn. split_and!; try done. intros i Hi. rewrite lookup_insert_ne by done. split; [done|]. by apply (maybe_dir_other id). }
        destruct (mark_ok id a row dirs Hr Hid) as (rows & Hmk & Ho & H1' & H2').
        destruct k; cbn [fst]; try (split; [by apply Hu|done]). rewrite Hmk. cbn. split_and!; try done.
        intros i Hi. split; [by apply Ho|]. by apply (maybe_dir_other id).
      * destruct (mark_ok id a row (dirs ∖ {[id]}) Hr Hid) as (rows & Hmk & Ho & H1' & H2'). cbn [fst].
        change (with_start (ls_starting st0) (<[id:=row]> (ls_rows st0)) dirs <| ls_dirs := dirs ∖ {[id]} |>)
          with (with_start (ls_starting st0) (<[id:=row]> (ls_rows st0)) (dirs ∖ {[id]})). rewrite Hmk. cbn.
        rewrite (maybe_dir_without id dirs Hd). split_and!; try done.
        intros i Hi. split; [by apply Ho|]. rewrite elem_of_difference, elem_of_singleton. tauto.
    + destruct (mark_ok id a row dirs Hr Hid) as (rows & -> & Ho & H1' & H2'). cbn. split_and!; try done.
      * intros i Hi. split; [by apply Ho|]. by apply (maybe_dir_other id).
      * intros _ _. rewrite <- (maybe_dir_without id dirs Hd). apply set_eq. intros i. rewrite elem_of_difference, elem_of_singleton.
        split; [|tauto]. intros Hi. split; [done|]. by intros ->.
Qed.

(** Steps to the end. *)
Definition rank (p : StartPhase (J:=J)) : nat :=
  match p with
  | Counting => 8
  | Admitting _ _ => 7
  | Inserting _ => 6
  | Spawning _ => 5
  | Committing _ _ => 4
  | Committed _ _ _ => 3
  | Publishing _ _ | Aborting _ _ _ => 2
  | Announcing _ | Cleaning _ _ _ | Releasing _ _ => 1
  | Finished _ _ => 0
  end.

(** The generator offers an id that nobody has. *)
Definition offers_id (a : Answers (J:=J)) : Prop := ∃ c, c ∈ an_ids a ∧ fresh c.

Lemma start_step_rank used a p st :
  so_far used p st → offers_id a → rank p ≠ O → (rank (start_step limits spec a p st).1 < rank p)%nat.
Proof.
  intros Hs (c & Hc & Hfr & Hns) Hp. destruct p as [|running seen|p|id e|p|meta rt|meta rt u|meta rt|id|id e d|id e d|ans d]; cbn [start_step].
  - cbn. lia.
  - destruct Hs as (-> & -> & ->). destruct (reserve _ _ _ _ _ _) as [[st' [p|e]]|] eqn:Er; [cbn; lia..|]. exfalso. revert Er.
    unfold reserve. destruct (_ <=? _); [done|]. destruct (check_disk_guard _ _); [|done].
    destruct (generate_session_id _ _) eqn:Eg; cbn [mbind option_bind]; [by destruct (validate_session_metadata _ _) as [[]|]|]. intros _.
    unfold generate_session_id in Eg. apply list_elem_of_In in Hc. apply (find_none _ _ Eg) in Hc.
    apply negb_false_iff, orb_true_iff in Hc as [Hc|Hc]; apply bool_decide_eq_true in Hc; [rewrite Hfr in Hc; by destruct Hc|done].
  - destruct (insert_session _ _ _) as [? []]; cbn; lia.
  - cbn. lia.
  - destruct (spawn_worker _ _ _ _) as [? [[]|]]; cbn; lia.
  - destruct (update_session _ _ _). cbn. lia.
  - destruct u; cbn; lia.
  - cbn. lia.
  - cbn. lia.
  - cbn. lia.
  - cbn. lia.
  - done.
Qed.

Lemma run_start_finishes answers used p st :
  so_far used p st → Forall offers_id answers → (rank p <= length answers)%nat → rank (run_start limits spec answers p st).1 = O.
Proof.
  revert used p st. induction answers as [|a answers IH]; intros used p st Hs Ho Hr; cbn [run_start foldl length] in *.
  { cbn. lia. }
  apply Forall_cons in Ho as [Ha Ho]. pose proof (so_far_step used a p st Hs) as Hstep. cbn [fst snd].
  destruct (decide (rank p = O)) as [Hz|Hz].
  - destruct p; try done. cbn [start_step]. apply (IH (used ++ [a])); [by apply so_far_more|done|rewrite Hz; lia].
  - pose proof (start_step_rank used a p st Hs Ha Hz) as Hlt. destruct (start_step _ _ _ _ _) as [p' st']. cbn [fst] in Hlt.
    apply (IH (used ++ [a])); [done|done|lia].
Qed.

(** C31: A start ends, and leaves a session or nothing.  A start that
    nothing else comes between answers within eight steps once the generator
    offers a new id.  When it succeeds there is one more session under a new
    id, live, with the command of its spec, one row with its metadata, its
    directory, one event, and no reservation.  When it fails, whatever failed,
    the sessions, reservations, tombstones and events are as before and a
    child that had been spawned has been killed; all that can be left are a
    row or a directory of the new id, and they are left only when a call of
    the cleanup failed too: the directory also when only the query for the row
    failed, which counts as no row.  A row that cannot be deleted is marked
    as failed. *)
Theorem start_leaves_session_or_nothing answers :
  Forall offers_id answers → (8 <= length answers)%nat →
  ∃ answer discarded st, run_start limits spec answers Counting st0 = (Finished answer discarded, st)
    ∧ match answer with
      | Ok id =>
          ∃ meta rt, sm_id meta = id ∧ fresh id ∧ ls_rows st0 !! id = None ∧ launched meta ∧ rt_meta rt = meta
            ∧ is_live (mk_handle rt false false) = true
            ∧ st = mk_lifecycle (<[id := mk_handle rt false false]> (ls_sessions st0)) (ls_starting st0) (ls_evicted st0)
                     (<[id := meta]> (ls_rows st0)) ({[id]} ∪ ls_dirs st0) (ls_events st0 ++ [SessionCreated meta])
      | Err _ =>
          (∀ rt, discarded = Some rt → is_completed rt = true ∧ 0 < ph_kills (rt_pty rt))
          ∧ (st = st0 ∨ ∃ id a, a ∈ answers ∧ fresh id ∧ ls_rows st0 !! id = None ∧ untouched id st ∧ cleaned id a st)
      end.
Proof.
  intros Ho Hlen. pose proof (run_start_so_far answers [] Counting st0 eq_refl) as Hs.
  pose proof (run_start_finishes answers [] Counting st0 eq_refl Ho Hlen) as Hr.
  destruct (run_start _ _ _ _ _) as [p st]. cbn [fst] in Hr. destruct p as [| | | | | | | | | | |answer discarded]; try done.
  exists answer, discarded, st. split; [done|]. cbn [app] in Hs. destruct answer as [id|e]; cbn [so_far] in Hs.
  - destruct Hs as (meta & rt & <- & Hf & Hn & Hl & Hm & ->). exists meta, rt. split_and!; try done.
    unfold is_live, is_completed. cbn [hd_runtime]. rewrite Hm. by destruct Hl as (_ & _ & _ & _ & _ & -> & _).
  - destruct Hs as (Hd & [-> |(id & row & dirs & a & Hid & Hf & Hn & Hdirs & Ha & ->)]); (split; [done|]); [by left|right].
    destruct (cleanup_ok id a row dirs Hn Hid Hdirs) as [Hu Hc]. by exists id, a.
Qed.
End Outcome.

(** ** The limit of running sessions *)

Section Limit.
Context `{Crc32Fast, Base64, Engine} {J : Type} `{Recorder J}.

#[local] Abbreviation Store := (Store (J:=J)).
#[local] Abbreviation Handle := (Handle (J:=J)).

(** Every live session was one before. *)
Definition no_more_live (before after : by_id Handle) : Prop :=
  ∀ id h', after !! id = Some h' → is_live h' = true → ∃ h, before !! id = Some h ∧ is_live h = true.

Lemma no_more_live_trans m1 m2 m3 : no_more_live m1 m2 → no_more_live m2 m3 → no_more_live m1 m3.
Proof. intros H1' H2' id h Hh Hl. destruct (H2' id h Hh Hl) as (h2 & Hh2 & Hl2). by apply (H1' id h2). Qed.

Lemma running_count_le before after : no_more_live before after → running_count after <= running_count before.
Proof.
  intros Hm. unfold running_count. rewrite <- !size_dom.
  assert (dom (filter (λ kh : bytes * Handle, is_live kh.2 = true) after)
          ⊆ dom (filter (λ kh : bytes * Handle, is_live kh.2 = true) before)) as Hs%subseteq_size; [|lia].
  intros id [h' Hh']%elem_of_dom. apply map_lookup_filter_Some in Hh' as [Hh' Hl]. cbn in Hl.
  destruct (Hm id h' Hh' Hl) as (h & Hh & Hlh). apply elem_of_dom. exists h. by apply map_lookup_filter_Some.
Qed.

Lemma running_count_insert id h (m : by_id Handle) :
  m !! id = None → is_live h = true → running_count (<[id := h]> m) = running_count m + 1.
Proof.
  intros Hn Hl. unfold running_count. rewrite map_filter_insert_True by done. rewrite map_size_insert_None; [lia|].
  apply map_lookup_filter_None. by left.
Qed.

Lemma no_more_alter f id (m : by_id Handle) :
  (∀ h, m !! id = Some h → is_live (f h) = true → is_live h = true) → no_more_live m (alter f id m).
Proof.
  intros Hf i h' Hh' Hl. destruct (decide (id = i)) as [-> |Hne].
  - rewrite lookup_alter_eq in Hh'. destruct (m !! i) as [h|] eqn:Eh; [|done]. injection Hh' as <-. exists h. split; [done|]. by apply Hf.
  - rewrite lookup_alter_ne in Hh' by done. by exists h'.
Qed.

Lemma update_sessions err meta (st : Store) : ls_sessions (update_session err meta st).1 = ls_sessions st.
Proof. by destruct err. Qed.

Lemma persist_sessions w metas (st : Store) :
  ls_sessions (persist_all w metas st) = ls_sessions st ∧ ls_starting (persist_all w metas st) = ls_starting st
  ∧ ls_evicted (persist_all w metas st) = ls_evicted st.
Proof.
  unfold persist_all. revert st. induction metas as [|m metas IH]; intros st; cbn [foldl]; [done|].
  destruct (IH (update_session (pw_update w (sm_id m)) m st).1) as (-> & -> & ->). by destruct (pw_update w (sm_id m)).
Qed.

Lemma sweep_handle_live now exited (h : Handle) : is_live (sweep_handle now exited h).1.1 = true → is_live h = true.
Proof.
  unfold sweep_handle. destruct (refresh_ends now exited (hd_runtime h)) as (Hc & _). set (rt := (refresh_status _ _ _).1) in *.
  assert (∀ h' : Handle, rt_meta (hd_runtime h') = rt_meta rt → is_live h' = true → is_live h = true) as Hl.
  { intros h' Hm. unfold is_live, is_completed in *. rewrite Hm. rewrite !negb_true_iff. intros Hf.
    destruct (sm_status (rt_meta (hd_runtime h))); try done; by rewrite Hc in Hf. }
  cbv zeta. destruct (_ && _ && _); [|by apply Hl]. destruct (rt_journal rt) as [j|]; [|by apply Hl].
  destruct (rc_degraded _); by apply Hl.
Qed.

(** A scan for a hint changes no status. *)
Lemma scan_hint_facts w (st : Store) id :
  ls_starting (scan_hint w st id) = ls_starting st ∧ ls_evicted (scan_hint w st id) = ls_evicted st
  ∧ ∃ f, ls_sessions (scan_hint w st id) = alter f id (ls_sessions st)
      ∧ ∀ h, sm_status (rt_meta (hd_runtime (f h))) = sm_status (rt_meta (hd_runtime h)).
Proof.
  unfold scan_hint. assert (alter (λ h, h) id (ls_sessions st) = ls_sessions st) as Hid.
  { apply map_eq. intros i. destruct (decide (id = i)) as [-> |Hne]; [rewrite lookup_alter_eq; by destruct (ls_sessions st !! i)|by rewrite lookup_alter_ne]. }
  destruct (pw_hint w id) as [[command|]|].
  - destruct (pw_set w id); cbn [set_resume_command].
    + split_and!; [done|done|]. exists (λ h, h). by rewrite Hid.
    + unfold send_updated. destruct (get_summary _ _); cbn; (split_and!; [done|done|]); eexists; (split; [done|]); done.
  - split_and!; [done|done|]. eexists. split; [done|]. done.
  - split_and!; [done|done|]. exists (λ h, h). by rewrite Hid.
Qed.

Lemma prune_no_more_live ttl w (st : Store) :
  no_more_live (ls_sessions st) (ls_sessions (prune_evicted_sessions ttl w st))
  ∧ ls_starting (prune_evicted_sessions ttl w st) = ls_starting st.
Proof.
  unfold prune_evicted_sessions. cbv zeta. set (swept := map_imap _ _). set (found := map_to_list swept).
  set (st1 := st <| ls_sessions := _ |>). set (st2 := persist_all _ _ st1). set (ids := map fst _).
  assert (no_more_live (ls_sessions st) (ls_sessions st2) ∧ ls_starting st2 = ls_starting st) as [Hn2 Hs2].
  { unfold st2. match goal with |- context [persist_all w ?ms st1] => destruct (persist_sessions w ms st1) as (-> & -> & _) end. split; [|done]. intros id h' Hh' Hl.
    unfold st1 in Hh'. cbn in Hh'. rewrite lookup_fmap in Hh'. unfold swept in Hh'. rewrite map_lookup_imap in Hh'.
    destruct (ls_sessions st !! id) as [h|]; [|done]. injection Hh' as <-. exists h. split; [done|]. by eapply sweep_handle_live. }
  assert (no_more_live (ls_sessions st) (ls_sessions (foldl (scan_hint w) st2 ids)) ∧ ls_starting (foldl (scan_hint w) st2 ids) = ls_starting st) as [Hn3 Hs3].
  { clearbody ids. clearbody st2. clear st1 found swept. revert st2 Hn2 Hs2. induction ids as [|id ids IH]; intros st2 Hn2 Hs2; cbn [foldl]; [done|].
    destruct (scan_hint_facts w st2 id) as (Hs & _ & f & Hf & Hst). apply IH; [|by rewrite Hs].
    rewrite Hf. eapply no_more_live_trans; [exact Hn2|]. apply no_more_alter. intros h _. unfold is_live, is_completed. by rewrite Hst. }
  split; [|exact Hs3]. eapply no_more_live_trans; [exact Hn3|]. intros id h' Hh' Hl. cbn in Hh'.
  apply map_lookup_filter_Some in Hh' as [Hh' _]. rewrite lookup_fmap in Hh'.
  destruct (ls_sessions (foldl _ _ _) !! id) as [h|]; [|done]. injection Hh' as <-. exists h. split; [done|].
  unfold settle in Hl. destruct (is_completed (hd_runtime h)) eqn:E; [|exact Hl]. unfold is_live in *. exact Hl.
Qed.

Lemma remove_all_facts had id w (st : Store) :
  no_more_live (ls_sessions st) (ls_sessions (remove_all had id w st).1) ∧ ls_starting (remove_all had id w st).1 = ls_starting st.
Proof.
  unfold remove_all, get_session_dir. assert (∀ m : by_id Handle, no_more_live m m) as Hrefl by (intros m i h ? ?; by exists h).
  destruct (match (if session_exists (dw_dir w) id st then remove_session_dir (dw_rmdir w) id st else (st, Ok tt)) with
            | (st1, r) => (st1, r) end) as [st1 r] eqn:E.
  assert (ls_sessions st1 = ls_sessions st ∧ ls_starting st1 = ls_starting st) as [Hs1 Ht1].
  { destruct (session_exists _ _ _); [|by injection E as <- <-]. unfold remove_session_dir in E.
    repeat case_match; simplify_eq/=; done. }
  assert ((if session_exists (dw_dir w) id st then remove_session_dir (dw_rmdir w) id st else (st, Ok tt)) = (st1, r)) as ->
    by (destruct (if session_exists _ _ _ then _ else _); exact E).
  destruct r as [|e]; [|cbn [fst]; rewrite Hs1; by split]. destruct (dw_delete w); cbn [db_delete_session fst]; [rewrite Hs1; by split|].
  destruct had; cbn; rewrite ?Hs1; (split; [|done]); [|done]. intros i h Hh Hl. apply lookup_delete_Some in Hh as [_ Hh]. by exists h.
Qed.

Lemma delete_no_more_live id force_ w (st st' : Store) r :
  delete_session id force_ w st = Some (st', r) →
  no_more_live (ls_sessions st) (ls_sessions st') ∧ ls_starting st' = ls_starting st.
Proof.
  unfold delete_session. destruct (ls_sessions st !! id) as [h|] eqn:Eh.
  - destruct (refresh_ends (dw_now w) (dw_exited w) (hd_runtime h)) as (Hc & _).
    destruct (refresh_status _ _ _) as [rt b]. cbn [fst] in Hc.
    assert (∀ rt' m, (is_completed rt' = true ∨ is_completed rt = false) → m !! id = Some h →
      no_more_live m (alter (λ h : Handle, h <| hd_runtime := rt' |>) id m)) as Halter.
    { intros rt' m Hr Hm. apply no_more_alter. intros h0 Hh0. rewrite Hm in Hh0. injection Hh0 as <-. unfold is_live. cbn.
      rewrite !negb_true_iff. intros Hrt'. destruct Hr as [Hr|Hr]; [by rewrite Hr in Hrt'|].
      destruct (is_completed (hd_runtime h)); [specialize (Hc eq_refl); congruence|done]. }
    destruct (is_completed rt) eqn:Ert.
    + intros [= Hr]. pose proof (remove_all_facts true id w (set_runtime id rt st)) as [Hn Hs]. rewrite Hr in Hn, Hs. cbn [fst] in *.
      split; [|exact Hs]. eapply no_more_live_trans; [|exact Hn]. cbn. by apply Halter; [left|].
    + destruct (negb force_); [intros [= <- <-]; split; [|done]; cbn; by apply Halter; [right|]|].
      unfold terminate. destruct (terminate_runtime _ _ _ _ _ _ rt) as [[[rt' ok] s]|]; cbn [mbind option_bind]; [|done].
      intros [= Hr]. set (st1 := set_runtime id rt' (set_runtime id rt st)) in *.
      pose proof (remove_all_facts true id w st1) as [Hn Hs]. rewrite Hr in Hn, Hs. cbn [fst] in *.
      split; [|exact Hs]. eapply no_more_live_trans; [|exact Hn]. intros i h' Hh' Hl. unfold st1 in Hh'. cbn in Hh'.
      destruct (decide (id = i)) as [<- |Hne].
      * exists h. split; [done|]. unfold is_live. destruct (is_completed (hd_runtime h)) eqn:Ec; [specialize (Hc eq_refl); congruence|done].
      * rewrite !lookup_alter_ne in Hh' by done. by exists h'.
  - assert (∀ m : by_id Handle, no_more_live m m) as Hrefl by (intros m i h ? ?; by exists h).
    destruct (_ && _); [by intros [= <- <-]|]. intros [= Hr].
    pose proof (remove_all_facts false id w st) as [Hn Hs]. by rewrite Hr in Hn, Hs.
Qed.

(** Starts one after the other, between sweeps, deletions and whatever
    happens to the sessions; [None] when a start has not ended. *)
Inductive SerialOp :=
  | OpStart (spec : StartSpec) (answers : list (Answers (J:=J)))
  | OpSweep (eviction_ttl : N) (w : SweepWorld)
  | OpDelete (id : bytes) (force_ : bool) (w : DeleteWorld (J:=J))
  | OpRuntime (id : bytes) (f : SessionRuntime (J:=J) → SessionRuntime (J:=J)).

Definition serial_step (limits : StartLimits) (st : option Store) (op : SerialOp) : option Store :=
  st ← st;
  match op with
  | OpStart spec answers =>
      match run_start limits spec answers Counting st with (Finished _ _, st) => Some st | _ => None end
  | OpSweep ttl w => Some (prune_evicted_sessions ttl w st)
  | OpDelete id force_ w => '(st, _) ← delete_session id force_ w st; Some st
  | OpRuntime id f => Some (st <| ls_sessions := alter (λ h, h <| hd_runtime := f (hd_runtime h) |>) id (ls_sessions st) |>)
  end.

(** No ended session goes on. *)
Definition no_revival (op : SerialOp) : Prop :=
  match op with OpRuntime _ f => ∀ rt, is_completed rt = true → is_completed (f rt) = true | _ => True end.

Lemma serial_step_none limits ops : foldl (serial_step limits) None ops = None.
Proof. by induction ops. Qed.

Lemma no_more_occupancy (st st' : Store) :
  no_more_live (ls_sessions st) (ls_sessions st') → ls_starting st' = ls_starting st → occupancy st' <= occupancy st.
Proof. intros Hn Hs. unfold occupancy. rewrite Hs. pose proof (running_count_le _ _ Hn). lia. Qed.

Lemma start_occupancy limits spec answers (st st' : Store) answer d :
  run_start limits spec answers Counting st = (Finished answer d, st') →
  occupancy st' <= N.max (occupancy st) (max_running_sessions limits).
Proof.
  intros Hr. pose proof (run_start_so_far limits spec st answers [] Counting st eq_refl) as Hs. rewrite Hr in Hs.
  destruct answer as [id|e]; cbn [so_far] in Hs.
  - destruct Hs as (meta & rt & <- & [Hn _] & _ & Hl & Hm & ->). unfold occupancy. cbn [ls_sessions ls_starting publish send with_start]. cbn.
    rewrite running_count_insert; [|done|].
    + destruct Hl as (Hroom & _). unfold occupancy in Hroom. lia.
    + unfold is_live, is_completed. cbn [hd_runtime]. rewrite Hm. by destruct Hl as (_ & _ & _ & _ & _ & -> & _).
  - destruct Hs as (_ & [-> |(id & row & dirs & a & Hid & Hf & Hn & Hdirs & _ & ->)]); [lia|].
    destruct (cleanup_ok st id a row dirs Hn Hid Hdirs) as [(Hs & Ht & _) _]. unfold occupancy. rewrite Hs, Ht. lia.
Qed.

Lemma serial_step_occupancy limits op (st st' : Store) :
  no_revival op → serial_step limits (Some st) op = Some st' →
  occupancy st' <= N.max (occupancy st) (max_running_sessions limits).
Proof.
  intros Hop. cbn [serial_step mbind option_bind]. destruct op as [spec answers|ttl w|id force_ w|id f].
  - destruct (run_start _ _ _ _ _) as [p st1] eqn:Er. destruct p; try done. intros [= <-]. by eapply start_occupancy.
  - intros [= <-]. destruct (prune_no_more_live ttl w st) as [Hn Hs]. pose proof (no_more_occupancy _ _ Hn Hs). lia.
  - destruct (delete_session _ _ _ _) as [[st1 r]|] eqn:Ed; cbn [mbind option_bind]; [|done]. intros [= <-].
    destruct (delete_no_more_live _ _ _ _ _ _ Ed) as [Hn Hs]. pose proof (no_more_occupancy _ _ Hn Hs). lia.
  - intros [= <-]. match goal with |- occupancy ?s <= _ => assert (occupancy s <= occupancy st); [|lia] end.
    apply no_more_occupancy; [|done]. apply no_more_alter. intros h _. unfold is_live. cbn. rewrite !negb_true_iff.
    intros Hf. destruct (is_completed (hd_runtime h)) eqn:E; [by rewrite (Hop _ E) in Hf|done].
Qed.

(** A start for which everything goes well. *)
Definition good_answers (id : bytes) (e : engine) (journal : J) : Answers :=
  mk_answers 0 [id] None None None None None None true (Ok (1, e, journal)).
Definition empty_store : Store := mk_lifecycle ∅ ∅ ∅ ∅ ∅ [].

Lemma run_start_cons limits spec a answers p (st : Store) :
  run_start limits spec (a :: answers) p st
  = let '(p', st') := start_step limits spec a p st in run_start limits spec answers p' st'.
Proof. unfold run_start. cbn [foldl fst snd]. by destruct (start_step _ _ _ _ _). Qed.

(** What such a start prepares. *)
Definition good_meta (spec : StartSpec) (id : bytes) (titled : option bytes * list bytes) : SessionMeta :=
  {| sm_id := id; sm_title := titled.1; sm_tags := titled.2; sm_command := sp_cmd spec; sm_args := sp_args spec;
     sm_cwd := sp_cwd spec; sm_created_at := 0; sm_started_at := Some 0; sm_ended_at := None; sm_resume_command := None;
     sm_status := Running; sm_pid := None; sm_exit_code := None; sm_notifications_enabled := sp_notifications_enabled spec;
     sm_foreground_color := None; sm_background_color := None |}.

Lemma good_reserve limits spec titled (st : Store) id e journal :
  1 <= max_running_sessions limits → validate_session_metadata (sp_title spec) (sp_tags spec) = Ok titled →
  ls_starting st = ∅ →
  reserve limits spec 0 ∅ (good_answers id e journal) st
  = Some (st <| ls_starting := {[id]} ∪ ls_starting st |>,
          Ok (mk_prepared (good_meta spec id titled) (N.max (default 24 (sp_rows spec)) 1) (N.max (default 80 (sp_cols spec)) 1)
                (sp_notifications_enabled spec))).
Proof.
  intros Hmax Hv Hst. unfold reserve. rewrite Hst, size_empty. change (0 + N.of_nat 0) with 0. leb_to false.
  cbn [good_answers an_now an_monitor check_disk_guard an_ids generate_session_id find].
  rewrite lookup_empty, (bool_decide_eq_false_2 (is_Some None)) by (by intros []).
  rewrite (bool_decide_eq_false_2 (id ∈ ∅)) by by intros ?%elem_of_empty. cbn [orb negb mbind option_bind]. rewrite Hv. by destruct titled.
Qed.

(** A start that counted when there was no session yet. *)
Lemma late_start limits spec titled (st : Store) id e journal :
  1 <= max_running_sessions limits → validate_session_metadata (sp_title spec) (sp_tags spec) = Ok titled →
  ls_starting st = ∅ → ls_sessions st !! id = None → ls_rows st !! id = None →
  ∃ h row dirs events,
    run_start limits spec (repeat (good_answers id e journal) 7) (Admitting 0 ∅) st
      = (Finished (Ok id) None,
         mk_lifecycle (<[id := h]> (ls_sessions st)) ∅ (ls_evicted st) (<[id := row]> (ls_rows st)) dirs events)
    ∧ is_live h = true.
Proof.
  intros Hmax Hv Hst Hs Hr. cbn [repeat]. rewrite run_start_cons. unfold start_step at 1.
  rewrite (good_reserve limits spec titled) by done. cbv iota. rewrite Hst.
  set (meta := good_meta spec id titled). set (rows := N.max (default 24 _) 1). set (cols := N.max (default 80 _) 1).
  set (prepared := mk_prepared _ _ _ _). rewrite run_start_cons. unfold start_step at 1, insert_session.
  cbn [good_answers an_db]. change (ls_rows (st <| ls_starting := {[id]} ∪ ∅ |>)) with (ls_rows st).
  change (sm_id (pp_meta prepared)) with id. rewrite Hr. cbv iota.
  rewrite run_start_cons. unfold start_step at 1, spawn_worker. cbn [good_answers an_monitor an_spawn check_disk_guard an_now]. cbv iota.
  set (meta1 := _ <| sm_pid := Some 1 |>). set (rt := spawn_session _ _ _ _ _ _ _ _).
  rewrite run_start_cons. unfold start_step at 1, update_session. cbn [good_answers an_db]. cbv iota.
  rewrite run_start_cons. unfold start_step at 1. cbv iota. rewrite run_start_cons. unfold start_step at 1. cbv iota.
  rewrite run_start_cons. unfold start_step at 1, get_summary. change (sm_id meta1) with id. cbn [ls_sessions publish unreserve]. cbn.
  rewrite lookup_insert_eq. cbn.
  assert (({[id]} ∪ ∅) ∖ {[id]} = (∅ : id_set)) as Hd.
  { apply set_eq. intros i. rewrite elem_of_difference, elem_of_union, elem_of_singleton. split; [tauto|by intros ?%elem_of_empty]. }
  eexists (mk_handle rt false false), _, _, _. split; [|done]. unfold unreserve. cbn. rewrite Hd, alter_insert_eq. done.
Qed.

(** The limit holds for starts made one at a time.  While every start
    ends before the next begins, and whatever is swept, deleted or goes on
    between them, there are never more live sessions and reservations than
    may run.  Starts made together are not held to it: the sessions are
    counted before the lock is taken, so any number of starts that counted
    when there was none get in one after the other, with a limit of one
    too. *)
Theorem limit_holds_one_start_at_a_time limits :
  (∀ ops (st st' : Store), foldl (serial_step limits) (Some st) ops = Some st' → Forall no_revival ops →
    occupancy st <= max_running_sessions limits → occupancy st' <= max_running_sessions limits)
  ∧ (∀ spec titled ids e journal,
      1 <= max_running_sessions limits → validate_session_metadata (sp_title spec) (sp_tags spec) = Ok titled → NoDup ids →
      (∀ a, start_step limits spec a Counting empty_store = (Admitting 0 ∅, empty_store))
      ∧ let st := foldl (λ st id, (run_start limits spec (repeat (good_answers id e journal) 7) (Admitting 0 ∅) st).2)
                    empty_store ids in
        running_count (ls_sessions st) = len ids).
Proof.
  split.
  - intros ops st st' Hrun Hops. revert st Hrun. induction Hops as [|op ops Hop _ IH]; intros st; cbn [foldl]; [by intros [= ->]|].
    destruct (serial_step limits (Some st) op) as [st1|] eqn:E; [|by rewrite serial_step_none]. intros Hrun Hle.
    apply (IH st1 Hrun). pose proof (serial_step_occupancy limits op st st1 Hop E). lia.
  - intros spec titled ids e journal Hmax Hv Hnd. split; [done|]. cbv zeta.
    assert (∀ ids (st : Store), NoDup ids → ls_starting st = ∅ →
      (∀ id, id ∈ ids → ls_sessions st !! id = None ∧ ls_rows st !! id = None) →
      running_count (ls_sessions (foldl (λ st id, (run_start limits spec (repeat (good_answers id e journal) 7) (Admitting 0 ∅) st).2) st ids))
      = running_count (ls_sessions st) + len ids) as Hall.
    { clear ids Hnd. induction ids as [|id ids IH]; intros st Hnd Hst Hnew; cbn [foldl]; [rewrite len_nil; lia|].
      apply NoDup_cons in Hnd as [Hni Hnd]. destruct (Hnew id ltac:(by left)) as [Hs Hr].
      destruct (late_start limits spec titled st id e journal Hmax Hv Hst Hs Hr) as (h & row & dirs & events & -> & Hl). cbn [snd].
      rewrite IH; [|done|done|].
      - cbn [ls_sessions]. rewrite running_count_insert by done. rewrite len_cons. lia.
      - intros i Hi. cbn [ls_sessions ls_rows]. destruct (Hnew i ltac:(by right)). by rewrite !lookup_insert_ne by (by intros ->). }
    rewrite Hall; [|done|done|by intros].
    unfold empty_store, running_count. cbn [ls_sessions]. by rewrite map_filter_empty, map_size_empty.
Qed.
End Limit.

(** ** Deleting *)

Section Deleting.
Context `{Crc32Fast, Base64, Engine} {J : Type} `{Recorder J}.

(** The directory's removal touches no map. *)
Lemma remove_session_dir_same err id (st : Store (J:=J)) :
  let '(st', r) := remove_session_dir err id st in
  st' = st <| ls_dirs := ls_dirs st' |> ∧ (∀ i, i ≠ id → i ∈ ls_dirs st' ↔ i ∈ ls_dirs st)
  ∧ (r = Ok tt → err ≠ Some NotFound → id ∉ ls_dirs st').
Proof.
  unfold remove_session_dir. case_bool_decide as Hin; [|by destruct st].
  destruct err as [[]|]; try by destruct st. cbn. split_and!; [by destruct st| |].
  - intros i Hi. rewrite elem_of_difference, elem_of_singleton. tauto.
  - intros _ _. rewrite elem_of_difference, elem_of_singleton. tauto.
Qed.

(** What a deletion of [id] leaves, from the store it started its removal
    with. *)
Definition deleted (id : bytes) (st st' : Store (J:=J)) : Prop :=
  ls_rows st' = delete id (ls_rows st) ∧ ls_evicted st' = delete id (ls_evicted st)
  ∧ ls_sessions st' = delete id (ls_sessions st) ∧ ls_starting st' = ls_starting st
  ∧ ls_events st' = ls_events st ++ [SessionDeleted id]
  ∧ ∀ i, i ≠ id → i ∈ ls_dirs st' ↔ i ∈ ls_dirs st.

Lemma remove_all_ok had id w (st : Store (J:=J)) :
  (had = false → ls_sessions st !! id = None) →
  let '(st', r) := remove_all had id w st in
  match r with
  | Ok b => b = true ∧ deleted id st st'
      ∧ (dw_dir w = None → is_Some (ls_rows st !! id) → dw_rmdir w ≠ Some NotFound → id ∉ ls_dirs st')
      ∧ (dw_dir w ≠ None → ls_dirs st' = ls_dirs st)
  | Err _ => st' = st <| ls_dirs := ls_dirs st' |>
      ∧ (dw_delete w ≠ None ∨ (st' = st ∧ dw_rmdir w ≠ None))
  end.
Proof.
  intros Hhad. unfold remove_all, get_session_dir.
  assert (∃ st1 r1, (if session_exists (dw_dir w) id st then remove_session_dir (dw_rmdir w) id st else (st, Ok tt)) = (st1, r1)
    ∧ st1 = st <| ls_dirs := ls_dirs st1 |> ∧ (∀ i, i ≠ id → i ∈ ls_dirs st1 ↔ i ∈ ls_dirs st)
    ∧ (r1 = Ok tt → dw_dir w = None → is_Some (ls_rows st !! id) → dw_rmdir w ≠ Some NotFound → id ∉ ls_dirs st1)
    ∧ (dw_dir w ≠ None → ls_dirs st1 = ls_dirs st)
    ∧ (∀ e, r1 = Err e → st1 = st ∧ dw_rmdir w ≠ None)) as (st1 & r1 & -> & Hst1 & Ho & Hd & Hq & He).
  { unfold session_exists. destruct (dw_dir w) as [q|].
    - exists st, (Ok tt). split_and!; try done. by destruct st.
    - case_bool_decide as Hrow.
      + pose proof (remove_session_dir_same (dw_rmdir w) id st) as Hr.
        assert (∀ e, (remove_session_dir (dw_rmdir w) id st).2 = Err e → (remove_session_dir (dw_rmdir w) id st).1 = st ∧ dw_rmdir w ≠ None) as Hre
          by (intros e; unfold remove_session_dir; case_bool_decide; [destruct (dw_rmdir w) as [[]|]|]; cbn; done).
        destruct (remove_session_dir _ _ _) as [st1 r1]. exists st1, r1. destruct Hr as (? & ? & ?). split_and!; try done. by eauto.
      + exists st, (Ok tt). split_and!; try done. by destruct st. }
  destruct r1 as [[]|e]; [|split; [done|right; by eapply He]]. destruct (dw_delete w) as [q|]; cbn [db_delete_session]; [split; [done|by left]|].
  split; [done|]. split; [|destruct had; cbn; by eauto].
  unfold deleted. rewrite Hst1. destruct had; cbn; split_and!; try done. by rewrite (fin_maps.delete_id _ id) by auto.
Qed.

(** C33: A deletion leaves nothing, or what it needs to be tried again.
    When it answers yes, the row, the handle and the tombstone are gone,
    everything of other sessions is as it was and one event was sent; the
    directory is gone too, unless the query for the row failed, which counts as
    no row, and then the directory stays with nothing that names it.  When it
    answers with an error the row and the handle are still there and no event
    was sent.  A forced deletion does not ask whether the process could be
    killed. *)
Theorem delete_leaves_nothing id force_ w (st : Store (J:=J)) :
  match delete_session id force_ w st with
  | Some (st', Ok true) =>
      ls_rows st' = delete id (ls_rows st) ∧ ls_sessions st' = delete id (ls_sessions st)
      ∧ ls_evicted st' = delete id (ls_evicted st) ∧ ls_starting st' = ls_starting st
      ∧ ls_events st' = ls_events st ++ [SessionDeleted id]
      ∧ (∀ i, i ≠ id → i ∈ ls_dirs st' ↔ i ∈ ls_dirs st)
      ∧ (dw_dir w = None → is_Some (ls_rows st !! id) → dw_rmdir w ≠ Some NotFound → id ∉ ls_dirs st')
      ∧ (dw_dir w ≠ None → ls_dirs st' = ls_dirs st)
  | Some (st', Ok false) => st' = st ∧ ls_sessions st !! id = None ∧ ls_evicted st !! id = None
      ∧ (ls_rows st !! id = None ∨ dw_exists w ≠ None)
  | Some (st', Err _) => ls_rows st' = ls_rows st ∧ dom (ls_sessions st') = dom (ls_sessions st)
      ∧ ls_evicted st' = ls_evicted st ∧ ls_starting st' = ls_starting st ∧ ls_events st' = ls_events st
  | None => force_ = true
  end
  ∧ ∀ h rt rt' killed s, ls_sessions st !! id = Some h →
      refresh_status (dw_now w) (dw_exited w) (hd_runtime h) = (rt, false) → is_completed rt = false →
      terminate_runtime (tw_start (dw_stop w)) 0 Killed (tw_start (dw_stop w)) (tw_exited (dw_stop w)) (tw_turns (dw_stop w)) rt
        = Some (rt', killed, s) →
      dw_rmdir w = None → dw_delete w = None → ∃ st', delete_session id true w st = Some (st', Ok true).
Proof.
  assert (∀ rt (st0 : Store (J:=J)), dom (ls_sessions (set_runtime id rt st0)) = dom (ls_sessions st0)) as Hdom
    by (intros rt st0; unfold set_runtime; cbn; apply dom_alter_L).
  assert (∀ rt (st0 : Store (J:=J)), delete id (ls_sessions (set_runtime id rt st0)) = delete id (ls_sessions st0)) as Hdel.
  { intros rt st0. unfold set_runtime. cbn. apply delete_alter_eq. }
  assert (∀ had st0, (had = false → ls_sessions st0 !! id = None) →
    ls_rows st0 = ls_rows st → delete id (ls_sessions st0) = delete id (ls_sessions st) → dom (ls_sessions st0) = dom (ls_sessions st) →
    ls_evicted st0 = ls_evicted st → ls_starting st0 = ls_starting st → ls_events st0 = ls_events st → ls_dirs st0 = ls_dirs st →
    match remove_all had id w st0 with
    | (st', Ok true) =>
      ls_rows st' = delete id (ls_rows st) ∧ ls_sessions st' = delete id (ls_sessions st)
      ∧ ls_evicted st' = delete id (ls_evicted st) ∧ ls_starting st' = ls_starting st
      ∧ ls_events st' = ls_events st ++ [SessionDeleted id]
      ∧ (∀ i, i ≠ id → i ∈ ls_dirs st' ↔ i ∈ ls_dirs st)
      ∧ (dw_dir w = None → is_Some (ls_rows st !! id) → dw_rmdir w ≠ Some NotFound → id ∉ ls_dirs st')
      ∧ (dw_dir w ≠ None → ls_dirs st' = ls_dirs st)
    | (_, Ok false) => False
    | (st', Err _) => ls_rows st' = ls_rows st ∧ dom (ls_sessions st') = dom (ls_sessions st)
      ∧ ls_evicted st' = ls_evicted st ∧ ls_starting st' = ls_starting st ∧ ls_events st' = ls_events st
    end) as Hrm.
  { intros had st0 Hhad Hr Hs Hd He Ht Hev Hdi. pose proof (remove_all_ok had id w st0 Hhad) as Hok.
    destruct (remove_all _ _ _ _) as [st' [[]|e]]; [|by destruct Hok|].
    - destruct Hok as (_ & (Hr' & He' & Hs' & Ht' & Hev' & Hdi') & Hgone & Hstay).
      rewrite Hr', He', Hs', Ht', Hev', Hr, He, Hs, Ht, Hev. rewrite Hr in Hgone. rewrite Hdi in Hstay. split_and!; try done.
      intros i Hi. rewrite <- Hdi. by apply Hdi'.
    - destruct Hok as [-> _]. by split_and!. }
  split.
  - unfold delete_session. destruct (ls_sessions st !! id) as [h|] eqn:Eh.
    + destruct (refresh_status _ _ _) as [rt b]. destruct (is_completed rt).
      { specialize (Hrm true (set_runtime id rt st)). destruct (remove_all true id w _) as [st' [[]|e]]; [by apply Hrm|by destruct Hrm|by apply Hrm]. }
      destruct force_; cbn [negb].
      2:{ cbn [ls_rows ls_evicted]. by split_and!. }
      unfold terminate. destruct (terminate_runtime _ _ _ _ _ _ rt) as [[[rt' ok] s]|]; cbn [mbind option_bind]; [|done].
      specialize (Hrm true (set_runtime id rt' (set_runtime id rt st))).
      destruct (remove_all true id w _) as [st' [[]|e]]; [apply Hrm|destruct Hrm|apply Hrm]; try done; by rewrite ?Hdel, ?Hdom, ?Hdel, ?Hdom.
    + unfold session_exists. destruct (negb _ && _) eqn:Eb.
      * apply andb_true_iff in Eb as [Hx Hev]. apply bool_decide_eq_true in Hev. split_and!; try done.
        destruct (dw_exists w); [by right|left]. apply negb_true_iff, bool_decide_eq_false in Hx. by apply eq_None_not_Some.
      * specialize (Hrm false st). destruct (remove_all false id w _) as [st' [[]|e]]; [by apply Hrm|by destruct Hrm|by apply Hrm].
  - intros h rt rt' killed s Hh Hrefresh Hc Hterm Hrd Hdd. unfold delete_session. rewrite Hh, Hrefresh, Hc. cbn [negb].
    unfold terminate. change (1000 * 0) with 0. rewrite Hterm. cbn [mbind option_bind].
    set (st1 := set_runtime id rt' _). pose proof (remove_all_ok true id w st1 ltac:(done)) as Hok.
    destruct (remove_all true id w st1) as [st' [[]|e]]; [by eexists|by destruct Hok|].
    destruct Hok as [_ [?|[_ ?]]]; done.
Qed.
End Deleting.

(** ** Sweeping *)

Section Sweeping.
Context `{Crc32Fast, Base64, Engine} {J : Type} `{Recorder J}.

#[local] Abbreviation Store := (Store (J:=J)).
#[local] Abbreviation Handle := (Handle (J:=J)).

(** What the scan for a hint does to its handle. *)
Definition hinted (w : SweepWorld) (id : bytes) (h : Handle) : Handle :=
  match pw_hint w id with
  | Hint (Some command) =>
      match pw_set w id with
      | Some _ => h
      | None =>
          h <| hd_resume_scanned := true |>
            <| hd_runtime := hd_runtime h <| rt_meta := rt_meta (hd_runtime h) <| sm_resume_command := Some command |> |> |>
      end
  | Hint None => h <| hd_resume_scanned := true |>
  | HintFailed => h
  end.

Definition keeps_status (rows rows' : by_id SessionMeta) : Prop :=
  ∀ i, sm_status <$> (rows' !! i) = sm_status <$> (rows !! i).

Lemma scan_hint_ok w (st : Store) id :
  (∀ i, ls_sessions (scan_hint w st id) !! i = if decide (i = id) then hinted w id <$> ls_sessions st !! i else ls_sessions st !! i)
  ∧ ls_evicted (scan_hint w st id) = ls_evicted st
  ∧ keeps_status (ls_rows st) (ls_rows (scan_hint w st id))
  ∧ (∀ i r, ls_rows (scan_hint w st id) !! i = Some r → ∃ r0, ls_rows st !! i = Some r0 ∧ sm_id r = sm_id r0).
Proof.
  assert (∀ (m : by_id Handle) f i, alter f id m !! i = if decide (i = id) then f <$> m !! i else m !! i) as Halter.
  { intros m f i. destruct (decide (i = id)) as [-> |Hne]; [by rewrite lookup_alter_eq|by rewrite lookup_alter_ne]. }
  assert (∀ i, ls_sessions st !! i = if decide (i = id) then (λ h, h) <$> ls_sessions st !! i else ls_sessions st !! i) as Hsame.
  { intros i. destruct (decide _); [by destruct (ls_sessions st !! i)|done]. }
  unfold scan_hint, hinted, keeps_status. destruct (pw_hint w id) as [[command|]|].
  - destruct (pw_set w id); cbn [set_resume_command].
    + split_and!; [done|done|done|]. by intros i r Hr; exists r.
    + assert (∀ st0 : Store, ls_sessions (send_updated id st0) = ls_sessions st0 ∧ ls_evicted (send_updated id st0) = ls_evicted st0
        ∧ ls_rows (send_updated id st0) = ls_rows st0) as Hsend by (intros st0; unfold send_updated; by destruct (get_summary id st0)).
      cbv beta iota. match goal with |- context [send_updated id ?s] => destruct (Hsend s) as (-> & -> & ->) end.
      cbn. split_and!; [by apply Halter|done| |].
      * intros i. destruct (decide (i = id)) as [-> |Hne]; [rewrite lookup_alter_eq; by destruct (ls_rows st !! id)|by rewrite lookup_alter_ne].
      * intros i r Hr. destruct (decide (i = id)) as [-> |Hne]; [|rewrite lookup_alter_ne in Hr by done; by exists r].
        rewrite lookup_alter_eq in Hr. destruct (ls_rows st !! id) as [r0|]; [|done]. injection Hr as <-. by exists r0.
  - cbn. split_and!; [by apply Halter|done|done|]. by intros i r Hr; exists r.
  - split_and!; [done|done|done|]. by intros i r Hr; exists r.
Qed.

Lemma scan_hints_ok w ids (st : Store) : NoDup ids →
  let st' := foldl (scan_hint w) st ids in
  (∀ i, ls_sessions st' !! i = if decide (i ∈ ids) then hinted w i <$> ls_sessions st !! i else ls_sessions st !! i)
  ∧ ls_evicted st' = ls_evicted st ∧ keeps_status (ls_rows st) (ls_rows st')
  ∧ (∀ i r, ls_rows st' !! i = Some r → ∃ r0, ls_rows st !! i = Some r0 ∧ sm_id r = sm_id r0).
Proof.
  cbv zeta. revert st. induction ids as [|id ids IH]; intros st Hnd; cbn [foldl].
  { split_and!; [|done|done|by intros i r Hr; exists r]. intros i. rewrite decide_False by (by intros ?%elem_of_nil). done. }
  apply NoDup_cons in Hnd as [Hni Hnd]. destruct (scan_hint_ok w st id) as (Hs & He & Hr & Hk).
  destruct (IH (scan_hint w st id) Hnd) as (Hs' & He' & Hr' & Hk'). split_and!.
  - intros i. rewrite Hs', Hs. destruct (decide (i = id)) as [-> |Hne].
    + rewrite decide_False by done. by rewrite decide_True by by left.
    + destruct (decide (i ∈ ids)); [by rewrite decide_True by by right|]. rewrite decide_False; [done|]. by intros [?|?]%elem_of_cons.
  - by rewrite He'.
  - intros i. by rewrite Hr', Hr.
  - intros i r (r1 & Hr1 & Hid)%Hk'. destruct (Hk i r1 Hr1) as (r0 & Hr0 & Hid0). exists r0. split; [done|congruence].
Qed.

(** The rows after the updates. *)
Definition persisted_rows (w : SweepWorld) (metas : list SessionMeta) (rows : by_id SessionMeta) : by_id SessionMeta :=
  foldl (λ rows m, match pw_update w (sm_id m) with
                   | None => alter (updated_row m) (sm_id m) rows
                   | Some _ => rows
                   end) rows metas.
Lemma persist_rows w metas (st : Store) : ls_rows (persist_all w metas st) = persisted_rows w metas (ls_rows st).
Proof.
  unfold persist_all, persisted_rows. revert st. induction metas as [|m metas IH]; intros st; cbn [foldl]; [done|].
  rewrite IH. by destruct (pw_update w (sm_id m)).
Qed.

(** A handle after the first two passes, and before the eviction. *)
Definition swept_handle (w : SweepWorld) (id : bytes) (h : Handle) : Handle :=
  let x := sweep_handle (pw_now w) (pw_exited w id) h in
  settle (pw_now w) (if x.2 then hinted w id x.1.1 else x.1.1).

Lemma left_absorb_L_union (x : N) (o : option N) : Some x ∪ o = Some x.
Proof. by destruct o. Qed.

Lemma prune_stages ttl w (st : Store) :
  ∃ metas st2,
    (∀ i, ls_sessions st2 !! i = (λ h, (sweep_handle (pw_now w) (pw_exited w i) h).1.1) <$> ls_sessions st !! i)
    ∧ (∀ m, m ∈ metas → ∃ i h, ls_sessions st !! i = Some h ∧ (sweep_handle (pw_now w) (pw_exited w i) h).1.2 = Some m)
    ∧ ls_rows st2 = persisted_rows w metas (ls_rows st) ∧ ls_evicted st2 = ls_evicted st
    ∧ keeps_status (ls_rows st2) (ls_rows (prune_evicted_sessions ttl w st))
    ∧ (∀ i r, ls_rows (prune_evicted_sessions ttl w st) !! i = Some r → ∃ r0, ls_rows st2 !! i = Some r0 ∧ sm_id r = sm_id r0)
    ∧ (∀ i, ls_sessions (prune_evicted_sessions ttl w st) !! i =
        match ls_sessions st !! i with
        | Some h => if expired (pw_now w) ttl (swept_handle w i h) then None else Some (swept_handle w i h)
        | None => None
        end)
    ∧ (∀ i, ls_evicted (prune_evicted_sessions ttl w st) !! i =
        match ls_sessions st !! i with
        | Some h =>
            if expired (pw_now w) ttl (swept_handle w i h) then (if 0 <? ttl then Some (pw_now w) else None)
            else (at_ ← ls_evicted st !! i; if pw_now w - at_ <? ttl then Some at_ else None)
        | None => at_ ← ls_evicted st !! i; if pw_now w - at_ <? ttl then Some at_ else None
        end).
Proof.
  unfold prune_evicted_sessions. cbv zeta. set (swept := map_imap _ _). set (found := map_to_list swept).
  set (metas := omap _ found). set (st1 := st <| ls_sessions := _ |>). set (st2 := persist_all _ _ st1).
  set (ids := map fst _).
  assert (∀ i, swept !! i = (λ h, sweep_handle (pw_now w) (pw_exited w i) h) <$> ls_sessions st !! i) as Hsw.
  { intros i. unfold swept. rewrite map_lookup_imap. by destruct (ls_sessions st !! i). }
  assert (∀ i, ls_sessions st2 !! i = (λ h, (sweep_handle (pw_now w) (pw_exited w i) h).1.1) <$> ls_sessions st !! i) as Hs2.
  { intros i. destruct (persist_sessions w metas st1) as (Hp & _ & _). unfold st2. rewrite Hp. unfold st1. cbn.
    rewrite lookup_fmap, Hsw. by destruct (ls_sessions st !! i). }
  assert (NoDup ids) as Hnd.
  { unfold ids, found. apply (NoDup_fmap_fst (filter (λ kx : bytes * (Handle * option SessionMeta * bool), kx.2.2 = true) (map_to_list swept))).
    - intros k x y [_ Hx]%list_elem_of_filter [_ Hy]%list_elem_of_filter. apply elem_of_map_to_list in Hx, Hy. congruence.
    - apply NoDup_filter, NoDup_map_to_list. }
  assert (∀ i h, ls_sessions st !! i = Some h → i ∈ ids ↔ (sweep_handle (pw_now w) (pw_exited w i) h).2 = true) as Hids.
  { intros i h Hh. unfold ids. rewrite list_elem_of_fmap. split.
    - intros ([k x] & -> & [Hc Hx]%list_elem_of_filter). cbn in *. apply elem_of_map_to_list in Hx. rewrite Hsw, Hh in Hx. by injection Hx as <-.
    - intros Hc. exists (i, sweep_handle (pw_now w) (pw_exited w i) h). split; [done|]. apply list_elem_of_filter. split; [done|].
      apply elem_of_map_to_list. by rewrite Hsw, Hh. }
  destruct (scan_hints_ok w ids st2 Hnd) as (Hs3 & He3 & Hr3 & Hk3). set (st3 := foldl (scan_hint w) st2 ids) in *.
  assert (∀ i, (settle (pw_now w) <$> ls_sessions st3) !! i = swept_handle w i <$> ls_sessions st !! i) as Hs4.
  { intros i. rewrite lookup_fmap, Hs3, Hs2. destruct (ls_sessions st !! i) as [h|] eqn:Eh; cbn [fmap option_fmap option_map].
    - unfold swept_handle. specialize (Hids i h Eh). destruct (decide (i ∈ ids)) as [Hi|Hi].
      + by rewrite (proj1 Hids Hi).
      + destruct (sweep_handle _ _ h).2 eqn:Ec; [by destruct Hi; apply Hids|done].
    - by destruct (decide _). }
  exists metas, st2. split_and!.
  - exact Hs2.
  - intros m Hm. unfold metas in Hm. apply list_elem_of_omap in Hm as ([i x] & Hx & Hxm). unfold found in Hx. apply elem_of_map_to_list in Hx.
    cbn in Hxm. rewrite Hsw in Hx. destruct (ls_sessions st !! i) as [h|] eqn:Eh; [|done]. injection Hx as <-. by exists i, h.
  - unfold st2. by rewrite persist_rows.
  - destruct (persist_sessions w metas st1) as (_ & _ & He). unfold st2. by rewrite He.
  - exact Hr3.
  - exact Hk3.
  - intros i. cbn. rewrite map_lookup_filter, Hs4. destruct (ls_sessions st !! i) as [h|]; cbn [fmap option_fmap option_map mbind option_bind]; [|done].
    cbn. destruct (expired _ _ _); by case_guard.
  - intros i. cbn. unfold evict_old_tombstones. rewrite map_lookup_filter, lookup_union, lookup_fmap, map_lookup_filter, Hs4, He3.
    assert (ls_evicted st2 = ls_evicted st) as -> by (destruct (persist_sessions w metas st1) as (_ & _ & He); unfold st2; by rewrite He).
    assert ((x ← ls_evicted st !! i; guard (pw_now w - (i, x).2 < ttl);; Some x)
      = (at_ ← ls_evicted st !! i; if pw_now w - at_ <? ttl then Some at_ else None)) as Hold.
    { destruct (ls_evicted st !! i) as [a|]; [|done]. cbn. destruct (N.ltb_spec (pw_now w - a) ttl); case_guard; done || lia. }
    destruct (ls_sessions st !! i) as [h|]; cbn [fmap option_fmap option_map mbind option_bind].
    + change ((i, swept_handle w i h).2) with (swept_handle w i h). destruct (expired _ _ _); case_guard as Hg; try done.
      * cbn [fmap option_fmap option_map mbind option_bind]. rewrite (left_absorb_L_union (pw_now w)).
        cbn [mbind option_bind snd]. replace (pw_now w - pw_now w) with 0 by lia. destruct (N.ltb_spec 0 ttl); case_guard; done || lia.
      * etrans; [|exact Hold]. by destruct (ls_evicted st !! i).
    + etrans; [|exact Hold]. by destruct (ls_evicted st !! i).
Qed.

(** The scan for a hint is over. *)
Definition hint_done (w : SweepWorld) (id : bytes) : bool :=
  match pw_hint w id with
  | Hint (Some _) => bool_decide (pw_set w id = None)
  | Hint None => true
  | HintFailed => false
  end.

(** Nothing is expected from the session any more: its output goes on, which
    the sweep does not wait for, its hint was looked for before, or its journal
    is broken, or whole on disk and searched now. *)
Definition released (w : SweepWorld) (id : bytes) (h : Handle) (rt : SessionRuntime (J:=J)) : bool :=
  negb (rt_output_closed rt) || hd_resume_scanned h
  || match rt_journal rt with
     | None => hint_done w id
     | Some journal =>
         let journal := rc_poll journal in
         let journal := if rc_fully_durable journal then journal else rc_sync journal in
         rc_degraded journal || (rc_fully_durable journal && hint_done w id)
     end.

Lemma hinted_facts w id (h : Handle) :
  hd_resume_scanned (hinted w id h) = hint_done w id || hd_resume_scanned h
  ∧ is_completed (hd_runtime (hinted w id h)) = is_completed (hd_runtime h)
  ∧ rt_completed_at (hd_runtime (hinted w id h)) = rt_completed_at (hd_runtime h)
  ∧ rt_output_closed (hd_runtime (hinted w id h)) = rt_output_closed (hd_runtime h)
  ∧ sm_id (rt_meta (hd_runtime (hinted w id h))) = sm_id (rt_meta (hd_runtime h))
  ∧ hd_persisted (hinted w id h) = hd_persisted h.
Proof.
  unfold hinted, hint_done. destruct (pw_hint w id) as [[command|]|]; [|done|done].
  destruct (pw_set w id); [rewrite bool_decide_eq_false_2 by done|rewrite bool_decide_eq_true_2 by done]; done.
Qed.

Lemma expired_settle now ttl (h : Handle) :
  expired now ttl (settle now h)
  = is_completed (hd_runtime h) && (ttl <=? now - default now (rt_completed_at (hd_runtime h)))
    && (negb (rt_output_closed (hd_runtime h)) || hd_resume_scanned h).
Proof.
  unfold settle. destruct (is_completed (hd_runtime h)) eqn:E; [|unfold expired; by rewrite E].
  unfold expired. cbn [hd_runtime]. cbn. change (is_completed _) with (is_completed (hd_runtime h)). by rewrite E.
Qed.

Lemma expired_swept ttl w id (h : Handle) :
  let rt := (refresh_status (pw_now w) (pw_exited w id) (hd_runtime h)).1 in
  expired (pw_now w) ttl (swept_handle w id h)
  = is_completed rt && (ttl <=? pw_now w - default (pw_now w) (rt_completed_at rt)) && released w id h rt.
Proof.
  cbv zeta. unfold swept_handle, sweep_handle. set (rt := (refresh_status _ _ _).1). cbv zeta. rewrite expired_settle.
  unfold released. destruct (is_completed rt) eqn:Ec; cbn [andb].
  2:{ cbn [snd fst hd_runtime]. by rewrite Ec. }
  destruct (rt_output_closed rt) eqn:Eo; cbn [andb negb orb].
  2:{ cbn [snd fst hd_runtime]. rewrite Ec, Eo. done. }
  destruct (hd_resume_scanned h) eqn:Es; cbn [andb negb orb].
  { cbn [snd fst hd_runtime hd_resume_scanned]. by rewrite Ec, Eo. }
  destruct (rt_journal rt) as [j|].
  - set (j1 := if rc_fully_durable _ then _ else _). destruct (rc_degraded j1); cbn [snd fst].
    + cbn [hd_runtime hd_resume_scanned]. change (is_completed (rt <| rt_journal := Some j1 |>)) with (is_completed rt). rewrite Ec. cbn. by rewrite Eo.
    + destruct (rc_fully_durable j1); cbn [orb andb].
      * match goal with |- context [hinted w id ?h'] => destruct (hinted_facts w id h') as (-> & -> & -> & -> & _) end. cbn [hd_runtime hd_resume_scanned].
        change (is_completed (rt <| rt_journal := Some j1 |>)) with (is_completed rt). rewrite Ec. cbn. by rewrite Eo, orb_false_r.
      * cbn [hd_runtime hd_resume_scanned]. change (is_completed (rt <| rt_journal := Some j1 |>)) with (is_completed rt).
        rewrite Ec. cbn. by rewrite Eo.
  - cbn [snd fst]. match goal with |- context [hinted w id ?h'] => destruct (hinted_facts w id h') as (-> & -> & -> & -> & _) end. cbn [hd_runtime hd_resume_scanned]. by rewrite Ec, Eo, orb_false_r.
Qed.

(** The sweep takes exactly the sessions that are settled.  A sweep
    takes a session out of memory if and only if its process has ended, at
    least the retention time ago, and nothing is expected from it any more: its
    output stream is still open, or it was searched for a resume hint, which is
    done only when the whole journal is on disk or the journal is broken.
    Clients that ask for it are told that it was evicted; a session that goes
    on is only polled; no tombstone is older than the retention time. *)
Theorem sweep_evicts_settled_sessions ttl w (st : Store) id h :
  0 < ttl → ls_sessions st !! id = Some h →
  let now := pw_now w in
  let rt := (refresh_status now (pw_exited w id) (hd_runtime h)).1 in
  let st' := prune_evicted_sessions ttl w st in
  (ls_sessions st' !! id = None ↔
     is_completed rt = true ∧ (∃ at_, rt_completed_at rt = Some at_ ∧ ttl <= now - at_) ∧ released w id h rt = true)
  ∧ (ls_sessions st' !! id = None → lookup_runtime id (attach_view st') = Err Evicted)
  ∧ (is_completed rt = false → ls_sessions st' !! id = Some (h <| hd_runtime := rt |>))
  ∧ (∀ i at_, ls_evicted st' !! i = Some at_ → now - at_ < ttl).
Proof.
  intros Httl Hh. cbv zeta. destruct (prune_stages ttl w st) as (metas & st2 & _ & _ & _ & _ & _ & _ & Hs & He).
  pose proof (expired_swept ttl w id h) as Hx. cbv zeta in Hx. pose proof (Hs id) as Hsid. rewrite Hh in Hsid.
  pose proof (refresh_ends (pw_now w) (pw_exited w id) (hd_runtime h)) as (_ & _ & Hat & _).
  set (rt := (refresh_status _ _ _).1) in *. split_and!.
  - rewrite Hsid, Hx. destruct (is_completed rt) eqn:Ec; cbn [andb].
    + rewrite (Hat eq_refl). set (at_ := default _ (rt_completed_at _)). change (default (pw_now w) (Some at_)) with at_. split.
      * destruct (N.leb_spec ttl (pw_now w - at_)) as [Hle|]; cbn [andb]; [|done]. destruct (released w id h rt); [|done]. intros _. split_and!; [done| |done]. by exists at_.
      * intros (_ & (a & [= <-] & Hle) & ->). leb_to true. done.
    + split; [done|by intros []].
  - intros Hn. unfold lookup_runtime, attach_view. cbn [st_sessions st_evicted_sessions]. rewrite lookup_fmap, Hn. cbn [fmap option_fmap option_map].
    rewrite He, Hh. rewrite Hn in Hsid. destruct (expired _ _ _); [|done]. ltb_to true. by rewrite bool_decide_eq_true_2 by done.
  - intros Hc. rewrite Hsid, Hx, Hc. cbn [andb]. f_equal. unfold swept_handle, sweep_handle. fold rt. cbv zeta. rewrite Hc. cbn [andb snd fst].
    unfold settle. cbn [hd_runtime]. rewrite Hc. done.
  - intros i at_ Hi. rewrite He in Hi. assert (∀ o : option N, (a ← o; if pw_now w - a <? ttl then Some a else None) = Some at_ → pw_now w - at_ < ttl) as Hold.
    { intros [a|]; [|done]. cbn. destruct (N.ltb_spec (pw_now w - a) ttl); [|done]. by intros [= <-]. }
    destruct (ls_sessions st !! i) as [h'|]; [|by eapply Hold].
    destruct (expired (pw_now w) ttl (swept_handle w i h')); [|by eapply Hold].
    destruct (0 <? ttl); [|done]. injection Hi as <-. lia.
Qed.
End Sweeping.

(** ** Rows and sweeps *)

Section Rows.
Context `{Crc32Fast, Base64, Engine} {J : Type} `{Recorder J}.

#[local] Abbreviation Store := (Store (J:=J)).

(** Sessions and rows are filed under their ids. *)
Definition well_filed (st : Store) : Prop :=
  (∀ id h, ls_sessions st !! id = Some h → sm_id (rt_meta (hd_runtime h)) = id)
  ∧ (∀ id row, ls_rows st !! id = Some row → sm_id row = id).

Lemma sweep_handle_facts now exited (h : Handle (J:=J)) :
  let x := sweep_handle now exited h in
  sm_id (rt_meta (hd_runtime x.1.1)) = sm_id (rt_meta (hd_runtime h))
  ∧ (hd_persisted h = true → x.1.2 = None ∧ hd_persisted x.1.1 = true)
  ∧ (∀ m, x.1.2 = Some m → sm_id m = sm_id (rt_meta (hd_runtime h)))
  ∧ (is_completed (refresh_status now exited (hd_runtime h)).1 = true → hd_persisted x.1.1 = true).
Proof.
  cbv zeta. unfold sweep_handle. pose proof (refresh_ends now exited (hd_runtime h)) as (_ & _ & _ & Hid & _).
  set (rt := (refresh_status _ _ _).1) in *. cbv zeta.
  assert (∀ (h' : Handle (J:=J)) (b : bool) (m : option SessionMeta) (c : Handle (J:=J) * option SessionMeta * bool),
    rt_meta (hd_runtime h') = rt_meta rt →
    hd_persisted h' = (if is_completed rt && negb (hd_persisted h) then true else hd_persisted h) →
    m = (if is_completed rt && negb (hd_persisted h) then Some (rt_meta rt) else None) → c = (h', m, b) →
    sm_id (rt_meta (hd_runtime c.1.1)) = sm_id (rt_meta (hd_runtime h))
    ∧ (hd_persisted h = true → c.1.2 = None ∧ hd_persisted c.1.1 = true)
    ∧ (∀ m, c.1.2 = Some m → sm_id m = sm_id (rt_meta (hd_runtime h)))
    ∧ (is_completed rt = true → hd_persisted c.1.1 = true)) as Hall.
  { intros h' b m c Hm Hp -> ->. cbn [fst snd]. rewrite Hm, Hp. split_and!; [done| | |].
    - intros ->. cbn [negb]. by rewrite andb_false_r.
    - destruct (is_completed rt && negb (hd_persisted h)); [by intros m [= <-]|done].
    - intros ->. by destruct (hd_persisted h). }
  destruct (_ && _ && _); [|by refine (Hall _ _ _ _ _ _ _ eq_refl)].
  destruct (rt_journal rt) as [j|]; [|by refine (Hall _ _ _ _ _ _ _ eq_refl)].
  destruct (rc_degraded _); by refine (Hall _ _ _ _ _ _ _ eq_refl).
Qed.

Lemma swept_handle_facts w id (h : Handle (J:=J)) :
  sm_id (rt_meta (hd_runtime (swept_handle w id h))) = sm_id (rt_meta (hd_runtime h))
  ∧ hd_persisted (swept_handle w id h) = hd_persisted (sweep_handle (pw_now w) (pw_exited w id) h).1.1.
Proof.
  unfold swept_handle. destruct (sweep_handle_facts (pw_now w) (pw_exited w id) h) as (Hid & _).
  destruct (sweep_handle _ _ h) as [[h1 m] c]. cbn [fst snd] in *. rewrite <- Hid.
  destruct (hinted_facts w id h1) as (_ & _ & _ & _ & Hi & Hp). unfold settle.
  destruct c; (destruct (is_completed _); cbn; [|by rewrite ?Hi, ?Hp]); by rewrite ?Hi, ?Hp.
Qed.

(** Updates touch the rows of their own ids only. *)
Lemma persisted_rows_ok w metas (rows : by_id SessionMeta) :
  (∀ i, (∀ m, m ∈ metas → sm_id m = i → is_Some (pw_update w i)) → persisted_rows w metas rows !! i = rows !! i)
  ∧ ((∀ i r, rows !! i = Some r → sm_id r = i) → ∀ i r, persisted_rows w metas rows !! i = Some r → sm_id r = i)
  ∧ dom (persisted_rows w metas rows) = dom rows.
Proof.
  unfold persisted_rows. revert rows. induction metas as [|m metas IH]; intros rows; cbn [foldl]; [done|].
  set (rows1 := match pw_update w (sm_id m) with Some _ => rows | None => _ end).
  assert ((∀ i, (sm_id m = i → is_Some (pw_update w i)) → rows1 !! i = rows !! i)
    ∧ ((∀ i r, rows !! i = Some r → sm_id r = i) → ∀ i r, rows1 !! i = Some r → sm_id r = i) ∧ dom rows1 = dom rows) as (Ha & Hb & Hc).
  { unfold rows1. destruct (pw_update w (sm_id m)) as [e|] eqn:Eu; [done|]. split_and!; [| |apply dom_alter_L].
    - intros i Hi. destruct (decide (sm_id m = i)) as [<- |Hne]; [|by rewrite lookup_alter_ne].
      destruct (Hi eq_refl) as [x Hx]. by rewrite Hx in Eu.
    - intros Hk i r. destruct (decide (sm_id m = i)) as [<- |Hne]; [|rewrite lookup_alter_ne by done; apply Hk].
      rewrite lookup_alter_eq. destruct (rows !! sm_id m); [|done]. by intros [= <-]. }
  destruct (IH rows1) as (Ha' & Hb' & Hc'). split_and!; [| |by rewrite Hc'].
  - intros i Hi. rewrite Ha'; [apply Ha; intros Hm; apply (Hi m); [by left|done]|]. intros m' Hm'. apply Hi. by right.
  - intros Hk. by apply Hb', Hb.
Qed.

Lemma prune_well_filed ttl w (st : Store) : well_filed st → well_filed (prune_evicted_sessions ttl w st).
Proof.
  intros [Hs Hr]. destruct (prune_stages ttl w st) as (metas & st2 & _ & Hm & Hr2 & _ & _ & Hr3 & Hs3 & _). split.
  - intros id h Hh. rewrite Hs3 in Hh. destruct (ls_sessions st !! id) as [h0|] eqn:E; [|done].
    destruct (expired _ _ _); [done|]. injection Hh as <-. destruct (swept_handle_facts w id h0) as [-> _]. by apply Hs.
  - intros id row (r0 & Hr0 & ->)%Hr3. rewrite Hr2 in Hr0. by apply (persisted_rows_ok w metas (ls_rows st)).
Qed.

(** A persisted session's row keeps its status, and so does that of a session
    out of memory. *)
Definition row_settled (id : bytes) (st : Store) : Prop :=
  ∀ h, ls_sessions st !! id = Some h → hd_persisted h = true.

Lemma prune_settled ttl w (st : Store) id :
  well_filed st → (row_settled id st ∨ is_Some (pw_update w id)) →
  sm_status <$> (ls_rows (prune_evicted_sessions ttl w st) !! id) = sm_status <$> (ls_rows st !! id)
  ∧ (row_settled id st → row_settled id (prune_evicted_sessions ttl w st)).
Proof.
  intros [Hs Hr] Hset. destruct (prune_stages ttl w st) as (metas & st2 & _ & Hm & Hr2 & _ & Hk & _ & Hs3 & _). split.
  - rewrite Hk, Hr2. destruct (persisted_rows_ok w metas (ls_rows st)) as (Hrow & _). rewrite Hrow; [done|].
    intros m Hin Hid. destruct Hset as [Hset|?]; [|done]. destruct (Hm m Hin) as (i & h & Hh & Hx).
    destruct (sweep_handle_facts (pw_now w) (pw_exited w i) h) as (_ & Hp & Hmid & _).
    assert (i = id) as ->. { rewrite <- (Hs i h Hh), <- Hid. symmetry. by apply Hmid. }
    destruct (Hp (Hset h Hh)) as [Hnone _]. by rewrite Hnone in Hx.
  - intros Hset' h Hh. rewrite Hs3 in Hh. destruct (ls_sessions st !! id) as [h0|] eqn:E; [|done].
    destruct (expired _ _ _); [done|]. injection Hh as <-. destruct (swept_handle_facts w id h0) as [_ ->].
    destruct (sweep_handle_facts (pw_now w) (pw_exited w id) h0) as (_ & Hp & _). by apply Hp, Hset'.
Qed.

Lemma prunes_settled later (st : Store) id :
  well_filed st → row_settled id st →
  let st' := foldl (λ st x, prune_evicted_sessions x.1 x.2 st) st later in
  well_filed st' ∧ sm_status <$> (ls_rows st' !! id) = sm_status <$> (ls_rows st !! id).
Proof.
  cbv zeta. revert st. induction later as [|[ttl w] later IH]; intros st Hw Hset; cbn [foldl fst snd]; [done|].
  destruct (prune_settled ttl w st id Hw (or_introl Hset)) as [Hst Hset']. rewrite <- Hst.
  apply IH; [by apply prune_well_filed|by apply Hset'].
Qed.

(** Reconciling marks the rows that still claim to run. *)
Lemma reconcile_rows rows (st : Store) acc :
  NoDup rows.*1 → (∀ i r, (i, r) ∈ rows → sm_id r = i ∧ ls_rows st !! i = Some r) →
  let st' := (foldl (λ acc row, let meta := reconciled row.2 in
                 ((update_session None meta acc.1).1, acc.2 ++ [meta])) (st, acc) rows).1 in
  ∀ i, sm_status <$> (ls_rows st' !! i) = if decide (i ∈ rows.*1) then Some Failed else sm_status <$> (ls_rows st !! i).
Proof.
  cbv zeta. revert st acc. induction rows as [|[i r] rows IH]; intros st acc Hnd Hin k; cbn [foldl fst snd].
  { rewrite decide_False by (by intros ?%elem_of_nil). done. }
  cbn in Hnd. apply NoDup_cons in Hnd as [Hni Hnd]. destruct (Hin i r ltac:(by left)) as [Hi Hr]. cbn [update_session fst].
  rewrite IH; [|done|].
  - change (sm_id (reconciled r)) with (sm_id r). cbn [ls_rows]. rewrite Hi. cbn. destruct (decide (k = i)) as [-> |Hne].
    + rewrite decide_False by done. rewrite decide_True by by left. by rewrite lookup_alter_eq, Hr.
    + rewrite lookup_alter_ne by done. destruct (decide (k ∈ rows.*1)); [by rewrite decide_True by by right|].
      rewrite decide_False; [done|]. by intros [?|?]%elem_of_cons.
  - intros i' r' Hin'. destruct (Hin i' r' ltac:(by right)) as [Hi' Hr']. split; [done|].
    change (sm_id (reconciled r)) with (sm_id r). rewrite Hi. cbn. rewrite lookup_alter_ne; [done|].
    intros <-. apply Hni, list_elem_of_fmap. by exists (i, r').
Qed.

(** A missed update is never made up for.  When the row of a session
    that has ended cannot be written in the sweep that notices, no later sweep
    writes it, whatever they do: the row says for good what it said before,
    and a row that said running is, at the next start of the daemon, turned
    into a failed session, however it ended. *)
Theorem missed_update_is_final ttl w (st : Store) id h e later :
  well_filed st → ls_sessions st !! id = Some h → hd_persisted h = false →
  is_completed (refresh_status (pw_now w) (pw_exited w id) (hd_runtime h)).1 = true → pw_update w id = Some e →
  let st' := foldl (λ st x, prune_evicted_sessions x.1 x.2 st) (prune_evicted_sessions ttl w st) later in
  sm_status <$> (ls_rows st' !! id) = sm_status <$> (ls_rows st !! id)
  ∧ (sm_status <$> (ls_rows st !! id) = Some Running →
     sm_status <$> (ls_rows (load_running_stopping_sessions None (λ _, None) st').1 !! id) = Some Failed).
Proof.
  intros Hw Hh Hp Hc Hu. cbv zeta. pose proof (prune_well_filed ttl w st Hw) as Hw1.
  destruct (prune_settled ttl w st id Hw (or_intror (mk_is_Some _ _ Hu))) as [Hst _].
  assert (row_settled id (prune_evicted_sessions ttl w st)) as Hset.
  { destruct (prune_stages ttl w st) as (metas & st2 & _ & _ & _ & _ & _ & _ & Hs3 & _). intros h' Hh'. rewrite Hs3, Hh in Hh'.
    destruct (expired _ _ _); [done|]. injection Hh' as <-. destruct (swept_handle_facts w id h) as [_ ->].
    destruct (sweep_handle_facts (pw_now w) (pw_exited w id) h) as (_ & _ & _ & Hpc). by apply Hpc. }
  destruct (prunes_settled later _ id Hw1 Hset) as [Hw2 Hst2]. cbv zeta in Hst2. rewrite Hst2, Hst. split; [done|]. intros Hrun.
  rewrite <- Hst, <- Hst2 in Hrun. set (st' := foldl _ _ later) in *. unfold load_running_stopping_sessions, load_sessions_with_status.
  set (rows := filter _ _). destruct Hw2 as [_ Hrows].
  assert (∀ i r, (i, r) ∈ rows ↔ ls_rows st' !! i = Some r ∧ sm_status r ∈ [Running; Stopping]) as Hin.
  { intros i r. unfold rows. rewrite list_elem_of_filter, elem_of_map_to_list. cbn. tauto. }
  rewrite reconcile_rows.
  - rewrite decide_True; [done|]. destruct (ls_rows st' !! id) as [r|] eqn:Er; [|done]. injection Hrun as Hrs.
    apply list_elem_of_fmap. exists (id, r). split; [done|]. apply Hin. split; [done|]. rewrite Hrs. by left.
  - unfold rows. apply NoDup_fmap_fst; [|apply NoDup_filter, NoDup_map_to_list].
    intros k x y [Hx _]%Hin [Hy _]%Hin. congruence.
  - intros i r [Hi _]%Hin. split; [by apply Hrows|done].
Qed.
End Rows.

(** ** Witnesses *)

#[local] Existing Instance no_base64.
#[local] Existing Instance csv_serde.
#[local] Existing Instance csv_laws.
#[local] Existing Instance plain_engine.

Definition a_spec : StartSpec := mk_spec (Some (bs " build ")) [bs "CI"; bs "ci "] (bs "make") [bs "all"] None None None true.
Definition one_session : StartLimits := mk_start_limits 1 100.
Definition an_answer (id : bytes) : Answers (J:=Scheduled) :=
  good_answers id sample_engine (sample_journal (mk_world sample_storage [])).

(** Two starts; the first is dropped when it has reserved its id, and with a
    limit of one the second is refused. *)
Lemma starts_return_reservations_witness :
  let s := pool_run [PNew one_session a_spec; PStep 0 (an_answer plain_id); PStep 0 (an_answer plain_id); PDrop 0] ([], empty_store) in
  let s' := pool_run [PNew one_session a_spec; PStep 1 (an_answer (bs "xyz0000"))] s in
  match s'.1 !! 1%nat with
  | Some x => start_step (sx_limits x) (sx_spec x) (an_answer (bs "xyz0000")) (sx_phase x) s'.2
              = (Finished (Err (MaxSessionsReached 1)) None, s'.2)
  | None => False
  end.
Proof.
  cbv zeta. set (ops := [PNew one_session a_spec; PStep 0 _; PStep 0 _; PDrop 0]). set (more := [PNew one_session a_spec; PStep 1 _]).
  assert (Forall leaves_reservations ops) as Hops by by repeat constructor.
  assert (Forall leaves_reservations more) as Hmore by by repeat constructor.
  assert (bool_decide ({[plain_id]} ⊆ ls_starting (pool_run ops ([], empty_store)).2) = true) as Hin by by vm_compute.
  assert (existsb runs (pool_run ops ([], empty_store)).1 = false) as Hruns by by vm_compute.
  assert (match (pool_run more (pool_run ops ([], empty_store))).1 !! 1%nat with
          | Some x => match sx_phase x with Admitting _ _ => max_running_sessions (sx_limits x) =? 1 | _ => false end
          | None => false end = true) as Hph by by vm_compute.
  pose proof (starts_return_reservations empty_store ops eq_refl Hops) as Hall.
  destruct (pool_run ops ([], empty_store)) as [starts st]. cbn [fst snd] in *.
  destruct Hall as (_ & _ & Hall). specialize (Hall {[plain_id]} more). destruct (pool_run more (starts, st)) as [starts' st'].
  cbn [fst snd] in *. destruct (starts' !! 1%nat) as [x|] eqn:Ex; [|discriminate].
  destruct (sx_phase x) as [|running seen| | | | | | | | | |] eqn:Ep; try discriminate. apply N.eqb_eq in Hph.
  destruct Hall as [_ Hall]; [|exact Hmore|].
  - split; [by apply bool_decide_eq_true in Hin|]. intros y i Hy Hr. exfalso.
    assert (existsb runs starts = true) as He by (apply existsb_exists; exists y; split; [by apply list_elem_of_In|done]).
    by rewrite He in Hruns.
  - rewrite <- Hph. rewrite <- Ep. eapply Hall; [by eapply list_elem_of_lookup_2|exact Ep|].
    rewrite Hph. by apply N.leb_le.
Defined.

(** A start that goes well, and one whose update fails. *)
Lemma start_leaves_session_or_nothing_witness :
  ∃ meta rt, (start_session_via_handle one_session a_spec (repeat (an_answer plain_id) 8) empty_store)
    = Some (mk_lifecycle {[plain_id := mk_handle rt false false]} ∅ ∅ {[plain_id := meta]} {[plain_id]} [SessionCreated meta], Ok plain_id)
    ∧ sm_title meta = Some (bs "build") ∧ sm_tags meta = [bs "CI"] ∧ is_completed rt = false.
Proof.
  assert (match (run_start one_session a_spec (repeat (an_answer plain_id) 8) Counting empty_store) with
          | (Finished (Ok id) _, st) => bytes_eqb id plain_id
              && match ls_rows st !! id with Some m => bool_decide (sm_title m = Some (bs "build") ∧ sm_tags m = [bs "CI"]) | None => false end
          | _ => false end = true) as Hc by by vm_compute.
  destruct (start_leaves_session_or_nothing one_session a_spec empty_store (repeat (an_answer plain_id) 8)) as (answer & d & st & Hr & Ho).
  - apply Forall_forall. intros a Ha. exists plain_id. apply list_elem_of_In, repeat_spec in Ha as ->.
    split; [by left|]. split; [apply lookup_empty|by intros ?%elem_of_empty].
  - by apply leb_complete.
  - unfold start_session_via_handle. rewrite Hr in *. destruct answer as [i|e]; [|discriminate].
    apply andb_true_iff in Hc as [Hi Hc]. unfold bytes_eqb in Hi. apply bool_decide_eq_true in Hi as ->.
    destruct Ho as (meta & rt & Hid & _ & _ & _ & _ & Hl & ->). exists meta, rt. cbn [ls_rows] in Hc. rewrite lookup_insert_eq in Hc.
    apply bool_decide_eq_true in Hc as [Ht Hg]. apply negb_true_iff in Hl. cbn [hd_runtime] in Hl.
    assert ({[plain_id]} ∪ ls_dirs (J:=Scheduled) empty_store = {[plain_id]}) as Hd.
    { apply set_eq. intros x. cbn. rewrite elem_of_union, elem_of_empty. tauto. }
    rewrite Hd. exact (conj eq_refl (conj Ht (conj Hg Hl))).
Defined.

(** A session that ended at 0, whose output is drained and was searched. *)
Definition ended_handle : Handle (J:=Scheduled) :=
  mk_handle (plain_runtime <| rt_meta := rt_meta plain_runtime <| sm_status := Stopped |> <| sm_id := plain_id |> |>
              <| rt_completed_at := Some 0 |> <| rt_output_closed := true |>) false true.
Definition quiet_sweep (now : N) (err : option bytes) : SweepWorld :=
  mk_sweep_world now (λ _, Ok None) (λ _, err) (λ _, Hint None) (λ _, None).
Definition ended_store : Store (J:=Scheduled) :=
  mk_lifecycle {[plain_id := ended_handle]} ∅ ∅
    {[plain_id := rt_meta (hd_runtime ended_handle) <| sm_status := Running |>]} {[plain_id]} [].

Lemma sweep_evicts_settled_sessions_witness :
  lookup_runtime plain_id (attach_view (prune_evicted_sessions 50 (quiet_sweep 100 None) ended_store)) = Err Evicted.
Proof.
  destruct (sweep_evicts_settled_sessions 50 (quiet_sweep 100 None) ended_store plain_id ended_handle) as (Hiff & Hev & _).
  - done.
  - unfold ended_store. cbn [ls_sessions]. apply lookup_singleton_eq.
  - apply Hev, Hiff. split_and!; [by vm_compute| |by vm_compute]. exists 0. split; [by vm_compute|by apply N.leb_le].
Defined.

(** The update fails once. *)
Lemma missed_update_is_final_witness :
  sm_status <$> (ls_rows (load_running_stopping_sessions None (λ _, None)
    (prune_evicted_sessions 500 (quiet_sweep 200 None)
      (prune_evicted_sessions 500 (quiet_sweep 100 (Some (bs "database is locked"))) ended_store))).1 !! plain_id) = Some Failed.
Proof.
  destruct (missed_update_is_final 500 (quiet_sweep 100 (Some (bs "database is locked"))) ended_store plain_id ended_handle
    (bs "database is locked") [(500, quiet_sweep 200 None)]) as [_ Hf].
  - split.
    + intros i h. unfold ended_store. cbn [ls_sessions]. rewrite lookup_singleton_Some. by intros [<- <-].
    + intros i r. unfold ended_store. cbn [ls_rows]. rewrite lookup_singleton_Some. by intros [<- <-].
  - unfold ended_store. cbn [ls_sessions]. apply lookup_singleton_eq.
  - done.
  - by vm_compute.
  - done.
  - apply Hf. unfold ended_store. cbn [ls_rows]. by rewrite lookup_singleton_eq.
Defined.
