(* ===== verification/Federation.v ===== *)
(** * Sealed channels between nodes

    [src/src/federation_crypto.rs] with the payload codec of
    [src/src/protocol.rs]: identities and their textual form, the handshake
    transcript, the keys derived from it, and the sealed channel that carries
    everything after the handshake.  AES-GCM, SHA-256, HKDF, Ed25519, X25519,
    base64, gzip and JSON are parameters.  A network that may drop, repeat,
    reorder, reflect and invent frames stands between the two ends; what it
    cannot do is seal: a frame that decrypts under a key of the channel was
    sealed with that key by one of the parties, in this connection or in
    another one.  The theorem says what the ends make of that: each end
    receives, in order and once, what the other one sent, and the first frame
    that is anything else ends the channel for good. *)

From S2P Require Import Prelude Utf8 Text Disk Pump Wire.

(** ** Big-endian integers *)

Definition be_bytes (n : nat) (x : N) : bytes := rev (le_bytes n x).
Definition be_value (l : bytes) : N := le_value (rev l).

Lemma length_be_bytes n x : length (be_bytes n x) = n.
Proof. unfold be_bytes. by rewrite length_rev, length_le_bytes. Qed.
Lemma len_be_bytes n x : len (be_bytes n x) = N.of_nat n.
Proof. unfold len. by rewrite length_be_bytes. Qed.
Lemma be_value_bytes n x : x < 256 ^ N.of_nat n → be_value (be_bytes n x) = x.
Proof. intros. unfold be_value, be_bytes. rewrite rev_involutive. by apply le_value_bytes. Qed.
Lemma be_bytes_inj n x y :
  x < 256 ^ N.of_nat n → y < 256 ^ N.of_nat n → be_bytes n x = be_bytes n y → x = y.
Proof. intros Hx Hy He. rewrite <- (be_value_bytes n x), <- (be_value_bytes n y) by done. by rewrite He. Qed.

Abbreviation u64_be := (be_bytes 8).
Abbreviation u32_be := (be_bytes 4).
Abbreviation u16_be := (be_bytes 2).

(** Appending after prefixes of one length loses nothing. *)
Lemma app_inj_len {A} (a b c d : list A) : len a = len c → a ++ b = c ++ d → a = c ∧ b = d.
Proof. intros Hl He. apply app_inj_1; [|done]. unfold len in Hl. lia. Qed.

(** ** The primitives *)

(** Seeds, keys, nonces, hashes and signatures are bytes.  [decompress] gives
    the canonical encoding of the point an encoding stands for; the texts are
    those of the libraries' errors. *)
Class Crypto := {
  B64_encode : bytes → bytes;
  B64_decode : bytes → result bytes bytes;
  Aes256Gcm_encrypt : ∀ key nonce aad msg : bytes, option bytes;
  Aes256Gcm_decrypt : ∀ key nonce aad ct : bytes, option bytes;
  aead_error : bytes;
  Sha256 : bytes → bytes;
  hkdf_expand : ∀ salt secret info : bytes, result bytes bytes;
  verifying_key : bytes → bytes;
  sign : ∀ seed msg : bytes, bytes;
  verify_strict : ∀ key msg signature : bytes, bool;
  VerifyingKey_from_bytes : bytes → result bytes unit;
  is_weak : bytes → bool;
  decompress : bytes → option bytes;
  is_torsion_free : bytes → bool;
  to_montgomery : bytes → bytes;
  to_scalar_bytes : bytes → bytes;
  diffie_hellman : ∀ secret public : bytes, bytes;
  gzip : bytes → bytes;
  gunzip : N → bytes → result bytes bytes;
}.

(** What they promise: encodings decode, what was encrypted decrypts, hashes
    and keys have their lengths, the two sides of a key agreement agree, and
    decompression stops at the length asked for. *)
Class CryptoLaws `{Crypto} := {
  base64_decodes l : B64_decode (trim (B64_encode l)) = Ok l;
  gcm_decrypts key nonce aad msg ct :
    Aes256Gcm_encrypt key nonce aad msg = Some ct → Aes256Gcm_decrypt key nonce aad ct = Some msg ∧ len ct = len msg + 16;
  sha256_len l : len (Sha256 l) = 32;
  verifying_key_len seed : len (verifying_key seed) = 32;
  secrets_agree s t :
    diffie_hellman (to_scalar_bytes s) (to_montgomery (verifying_key t))
    = diffie_hellman (to_scalar_bytes t) (to_montgomery (verifying_key s));
  gzip_inflates n l : gunzip n (gzip l) = Ok (take (N.to_nat n) l);
}.

Definition PUBKEY_TAG : bytes := bs "ed25519".
Definition NODE_JOIN_CONTEXT : bytes := bs "oly-node-join-v2".
Definition CHANNEL_INFO_PREFIX : bytes := bs "oly-channel-v2".
Definition AEAD_KEY_LEN : N := 32.
Definition FRAME_TAG_SEALED : byte := x21.
Definition SEALED_HEADER_LEN : N := 1 + 8.
Definition GCM_TAG_LEN : N := 16.
Definition MIN_SEALED_FRAME_LEN : N := SEALED_HEADER_LEN + GCM_TAG_LEN.
Definition MAX_SEQUENCE : N := u64_max - 1.
Definition NONCE_PREFIX : bytes := [x00; x00; x00; x00].

Section Channel.
Context `{Crypto}.

(** ** Identities *)

Definition b64_decode (s : bytes) : result AppError bytes :=
  match B64_decode (trim s) with
  | Ok raw => Ok raw
  | Err e => Err (Protocol (bs "invalid base64: " ++ e))
  end.

(** [split_whitespace]: the runs of characters that are not white space. *)
Fixpoint words (word : list N) (cs : list N) : list (list N) :=
  match cs with
  | [] => match word with [] => [] | _ => [word] end
  | c :: cs =>
      if is_whitespace c then match word with [] => words [] cs | _ => word :: words [] cs end
      else words (word ++ [c]) cs
  end.
Definition split_whitespace (s : bytes) : list bytes :=
  match utf8_decode s with Some cs => map utf8_encode (words [] cs) | None => [] end.

Definition to_line (key : bytes) : bytes := PUBKEY_TAG ++ bs " " ++ B64_encode key.

(** [show] is the quoting of [{:?}]. *)
Definition parse_public_key (show : bytes → bytes) (input : bytes) : result AppError bytes :=
  let expected := bs "expected public key in the form `ed25519 <base64>`, got" in
  match split_whitespace (trim input) with
  | _ :: _ :: _ :: _ => Err (Protocol (expected ++ bs " extra tokens after " ++ show input))
  | [tag; encoded] =>
      if negb (bytes_eqb tag PUBKEY_TAG) then Err (Protocol (expected ++ bs " token '" ++ tag ++ bs "'"))
      else
        raw ← b64_decode encoded;
        if negb (len raw =? 32) then Err (Protocol (bs "public-key decode length must be 32 bytes"))
        else
          match VerifyingKey_from_bytes raw with
          | Err e => Err (Protocol (bs "public key is not a valid Ed25519 point (" ++ e
                                    ++ bs "); the peer may have provided a small-subgroup or non-canonical encoding"))
          | Ok _ =>
              match decompress raw with
              | None => Err (Protocol (bs "invalid Ed25519 point"))
              | Some point =>
                  if is_weak raw || negb (is_torsion_free raw) || negb (bytes_eqb point raw)
                  then Err (Protocol (bs "weak or non-canonical node identity"))
                  else Ok raw
              end
          end
  | _ => Err (Protocol (expected ++ bs ": " ++ show input))
  end.

Definition public_key_line (seed : bytes) : bytes := PUBKEY_TAG ++ bs " " ++ B64_encode (verifying_key seed).

(** ** The transcript *)

Definition transcript_field (field : bytes) : bytes := u32_be (len field) ++ field.
Definition build_transcript (federation_version : N) (role name secondary_pub primary_pub secondary_nonce primary_nonce : bytes)
    : bytes :=
  concat (map transcript_field
    [NODE_JOIN_CONTEXT; u16_be federation_version; role; bs "secondary"; bs "primary"; name;
     secondary_pub; primary_pub; secondary_nonce; primary_nonce]).

Definition sign_transcript (seed transcript : bytes) : bytes := B64_encode (sign seed transcript).

Definition verify_transcript (public_key signature_b64 transcript : bytes) : bool :=
  match b64_decode signature_b64 with
  | Ok sig_bytes =>
      (len sig_bytes =? 64) && is_ok (VerifyingKey_from_bytes public_key) && verify_strict public_key transcript sig_bytes
  | Err _ => false
  end.

(** ** Keys *)

Record DerivedKeys := mk_keys { dk_c2s : bytes; dk_s2c : bytes }.

Definition order_pair (a b : bytes) : bytes * bytes := if bytes_leb a b then (a, b) else (b, a).

Definition derive_channel_keys (local_x peer_x transcript local_ed peer_ed : bytes) : result AppError DerivedKeys :=
  let shared := diffie_hellman local_x peer_x in
  if bytes_eqb shared (repeat x00 32) then
    Err (Protocol (bs "X25519 key agreement produced a zero shared secret; refusing to derive keys"))
  else
    let '(lo, hi) := order_pair local_ed peer_ed in
    let expand label :=
      match hkdf_expand (Sha256 transcript) shared
              (CHANNEL_INFO_PREFIX ++ bs "|" ++ lo ++ bs "|" ++ hi ++ bs "|" ++ label) with
      | Ok key => Ok key
      | Err e => Err (Protocol (bs "HKDF expand for channel keys failed: " ++ e))
      end in
    c2s ← expand (bs "c2s");
    s2c ← expand (bs "s2c");
    Ok (mk_keys c2s s2c).

(** ** One direction *)

Definition nonce_for (sequence : N) : bytes := NONCE_PREFIX ++ u64_be sequence.
Definition frame_aad (context : bytes) (seq : N) : bytes := context ++ [FRAME_TAG_SEALED] ++ u64_be seq.

Record ChannelSide := mk_side { cs_key : bytes; cs_send_seq : N; cs_recv_seq : N; cs_failed : bool }.
#[export] Instance ChannelSide_eta : Settable ChannelSide := λ s,
  mk_side (cs_key s) (cs_send_seq s) (cs_recv_seq s) (cs_failed s).

Definition ChannelSide_new (key : bytes) : ChannelSide := mk_side key 0 0 false.

Definition seal (aad plaintext : bytes) (s : ChannelSide) : ChannelSide * result AppError bytes :=
  if cs_failed s || (MAX_SEQUENCE <=? cs_send_seq s) then
    (s <| cs_failed := true |>, Err (Protocol (bs "sealed send counter near exhaustion; closing connection")))
  else
    let seq := cs_send_seq s in
    let s := s <| cs_send_seq := seq + 1 |> in
    match Aes256Gcm_encrypt (cs_key s) (nonce_for seq) (frame_aad aad seq) plaintext with
    | None => (s <| cs_failed := true |>, Err (Protocol (bs "sealed frame encryption failed: " ++ aead_error)))
    | Some ct => (s, Ok ([FRAME_TAG_SEALED] ++ u64_be seq ++ ct))
    end.

(** The checks before decryption; what is left is the sequence number of the
    frame and its ciphertext. *)
Definition open_header (hex : byte → bytes) (expected : N) (frame : bytes) : result AppError (N * bytes) :=
  if len frame <? MIN_SEALED_FRAME_LEN then
    Err (Protocol (bs "sealed frame too short (" ++ show_dec (len frame) ++ bs " bytes, need at least "
                   ++ show_dec MIN_SEALED_FRAME_LEN ++ bs ")"))
  else
    match frame with
    | tag :: rest =>
        if negb (tag =b FRAME_TAG_SEALED) then
          Err (Protocol (bs "sealed frame missing 0x" ++ hex FRAME_TAG_SEALED ++ bs " tag, got 0x" ++ hex tag))
        else
          let seq := be_value (take 8 rest) in
          if negb (seq =? expected) then
            Err (Protocol (bs "sealed frame sequence mismatch: received " ++ show_dec seq ++ bs ", expected "
                           ++ show_dec expected))
          else Ok (seq, drop 8 rest)
    | [] => Err (Protocol [])
    end.

Definition open_validated {T} (hex : byte → bytes) (aad frame : bytes) (parse : bytes → result AppError T) (s : ChannelSide)
    : ChannelSide * result AppError T :=
  if cs_failed s || (MAX_SEQUENCE <=? cs_recv_seq s) then
    (s <| cs_failed := true |>, Err (Protocol (bs "sealed channel failed or exhausted")))
  else
    let poisoned := s <| cs_failed := true |> in
    match open_header hex (cs_recv_seq s) frame with
    | Err e => (poisoned, Err e)
    | Ok (seq, ct) =>
        match Aes256Gcm_decrypt (cs_key s) (nonce_for seq) (frame_aad aad seq) ct with
        | None => (poisoned, Err (Protocol (bs "sealed frame AEAD verification failed: " ++ aead_error)))
        | Some plain =>
            match parse plain with
            | Err e => (poisoned, Err e)
            | Ok parsed => (s <| cs_recv_seq := cs_recv_seq s + 1 |>, Ok parsed)
            end
        end
    end.

(** ** Both directions *)

Record Channel := mk_channel {
  ch_send : ChannelSide;
  ch_recv : ChannelSide;
  ch_send_aad : bytes;
  ch_recv_aad : bytes;
  ch_transcript_hash : bytes;
}.
#[export] Instance Channel_eta : Settable Channel := λ c,
  mk_channel (ch_send c) (ch_recv c) (ch_send_aad c) (ch_recv_aad c) (ch_transcript_hash c).

Definition context (hash direction : bytes) : bytes := bs "oly-node-frame-v2" ++ hash ++ direction.

Definition Channel_new (local peer transcript : bytes) (secondary : bool) : result AppError Channel :=
  match VerifyingKey_from_bytes peer with
  | Err e => Err (Protocol e)
  | Ok _ =>
      keys ← derive_channel_keys (to_scalar_bytes local) (to_montgomery peer) transcript (verifying_key local) peer;
      let hash := Sha256 transcript in
      let '(send, recv, send_label, recv_label) :=
        if secondary then (dk_c2s keys, dk_s2c keys, bs "c2s", bs "s2c")
        else (dk_s2c keys, dk_c2s keys, bs "s2c", bs "c2s") in
      Ok (mk_channel (ChannelSide_new send) (ChannelSide_new recv) (context hash send_label) (context hash recv_label) hash)
  end.

Definition encode (payload : bytes) (c : Channel) : Channel * result AppError bytes :=
  if cs_failed (ch_recv c) then (c, Err (Protocol (bs "sealed channel failed")))
  else
    let '(s, sealed) := seal (ch_send_aad c) payload (ch_send c) in
    (c <| ch_send := s |>, sealed).

Definition decode {T} (hex : byte → bytes) (frame : bytes) (parse : bytes → result AppError T) (c : Channel)
    : Channel * result AppError T :=
  if cs_failed (ch_send c) then (c, Err (Protocol (bs "sealed channel failed")))
  else
    let '(s, opened) := open_validated hex (ch_recv_aad c) frame parse (ch_recv c) in
    (c <| ch_recv := s |>, opened).

End Channel.

(** ** Messages between nodes *)

(** Embedded JSON values and forwarded events are their compact texts. *)
Inductive NodeWsMessage :=
  | Hello (version : N) (name public_key nonce : bytes)
  | Challenge (nonce : bytes)
  | Join (signature : bytes)
  | KeyConfirm (transcript_hash : bytes)
  | Ready (transcript_hash : bytes)
  | Joined
  | NodeError (message : bytes)
  | Rpc (id request : bytes)
  | NodeRpcResponse (id response : bytes)
  | RpcStreamFrame (id response : bytes) (done : bool)
  | RpcStreamMessage (id request : bytes)
  | NodeNotification (payload : bytes)
  | NodeSessionEvent (payload : bytes)
  | Ping
  | Pong.

#[export] Instance NodeWsMessage_eq_dec : EqDecision NodeWsMessage.
Proof. solve_decision. Defined.

Definition NODE_WS_BINARY_COMPRESS_MIN_BYTES : N := 256.
Definition NODE_WS_BINARY_MAGIC : bytes := bs "ONW1".
Definition MAX_NODE_WS_DECOMPRESSED_BYTES : N := 64 * 1024 * 1024.
Definition MAX_HANDSHAKE_BYTES : N := 4096.

Section Payload.
Context `{Crypto, Json NodeWsMessage}.

Definition encode_node_ws_payload (message : NodeWsMessage) : bytes :=
  let json := to_vec message in
  if len json <? NODE_WS_BINARY_COMPRESS_MIN_BYTES then json
  else
    let compressed := gzip json in
    if len json <=? len compressed then json else NODE_WS_BINARY_MAGIC ++ compressed.

(** What the derived [Deserialize] checks besides the shape: the ranges of
    integers and the lengths of arrays. *)
Definition well_typed (message : NodeWsMessage) : bool :=
  match message with
  | Hello version _ _ nonce => (version <=? u16_max) && (len nonce =? 32)
  | Challenge nonce => len nonce =? 32
  | KeyConfirm hash | Ready hash => len hash =? 32
  | _ => true
  end.
Definition from_json (json : bytes) : option NodeWsMessage :=
  message ← from_slice json; if well_typed message then Some message else None.

Definition decode_node_ws_payload (payload : bytes) : result AppError NodeWsMessage :=
  match
    (if starts_with NODE_WS_BINARY_MAGIC payload
     then gunzip (MAX_NODE_WS_DECOMPRESSED_BYTES + 1) (drop (length NODE_WS_BINARY_MAGIC) payload)
     else Ok payload)
  with
  | Err _ => Err (Io Other)
  | Ok json =>
      if MAX_NODE_WS_DECOMPRESSED_BYTES <? len json then Err (Io Other)
      else match from_json json with Some message => Ok message | None => Err (Io Other) end
  end.

Definition encode_message (message : NodeWsMessage) (c : Channel) : Channel * result AppError bytes :=
  encode (encode_node_ws_payload message) c.
Definition decode_message (hex : byte → bytes) (frame : bytes) (c : Channel) : Channel * result AppError NodeWsMessage :=
  decode hex frame decode_node_ws_payload c.

Definition encode_handshake (message : NodeWsMessage) : result AppError bytes :=
  let bytes := to_vec message in
  if MAX_HANDSHAKE_BYTES <? len bytes then Err (Protocol (bs "handshake frame too large")) else Ok bytes.
Definition decode_handshake (bytes : bytes) : result AppError NodeWsMessage :=
  if MAX_HANDSHAKE_BYTES <? len bytes then Err (Protocol (bs "handshake frame too large"))
  else parsed (from_json bytes).

(** A message of at most the limit survives the codec.  A text that begins
    with a brace is not taken for a compressed one. *)
Lemma payload_roundtrip `{!CryptoLaws, !JsonLaws NodeWsMessage} message :
  (∃ rest, to_vec message = x7b :: rest) → len (to_vec message) <= MAX_NODE_WS_DECOMPRESSED_BYTES → well_typed message = true →
  decode_node_ws_payload (encode_node_ws_payload message) = Ok message.
Proof.
  intros [rest Hbrace] Hlen Ht.
  assert (from_json (to_vec message) = Some message) as Hjson.
  { unfold from_json. rewrite json_parse. cbn [mbind option_bind]. by rewrite Ht. }
  assert (decode_node_ws_payload (to_vec message) = Ok message) as Hplain.
  { unfold decode_node_ws_payload.
    assert (starts_with NODE_WS_BINARY_MAGIC (to_vec message) = false) as -> by by rewrite Hbrace.
    ltb_to false. by rewrite Hjson. }
  unfold encode_node_ws_payload. case_match; [done|]. case_match; [done|].
  unfold decode_node_ws_payload. rewrite (proj2 (starts_with_spec _ _)) by by eexists.
  rewrite drop_app_length, gzip_inflates, firstn_all2 by (unfold len in Hlen; lia).
  ltb_to false. by rewrite Hjson.
Qed.

End Payload.

(** ** Two ends and a hostile network *)

Section Network.
Context `{Crypto} {T : Type} (hex : byte → bytes) (parse : bytes → result AppError T).

(** What was passed to the cipher and what came out. *)
Record Sealed := mk_sealed { se_key : bytes; se_nonce : bytes; se_aad : bytes; se_ct : bytes }.

(** One end, with the payloads it sealed and what it received. *)
Record End := mk_end { en_channel : Channel; en_sent : list bytes; en_got : list T }.
(** The two ends, and all that was ever sealed. *)
Record Net := mk_net { nt_secondary : End; nt_primary : End; nt_log : list Sealed }.

Definition side (secondary : bool) (n : Net) : End := if secondary then nt_secondary n else nt_primary n.
Definition set_side (secondary : bool) (e : End) (n : Net) : Net :=
  if secondary then mk_net e (nt_primary n) (nt_log n) else mk_net (nt_secondary n) e (nt_log n).

(** An end sends a payload, or the network hands it any frame. *)
Inductive NetOp :=
  | Send (secondary : bool) (payload : bytes)
  | Deliver (secondary : bool) (frame : bytes).

(** The sealed record a frame of this channel is. *)
Definition record_of (c : Channel) (seq : N) (frame : bytes) : Sealed :=
  mk_sealed (cs_key (ch_send c)) (nonce_for seq) (frame_aad (ch_send_aad c) seq) (drop 9 frame).

Definition net_step (op : NetOp) (n : Net) : Net :=
  match op with
  | Send who payload =>
      let e := side who n in
      let '(c, sealed) := encode payload (en_channel e) in
      match sealed with
      | Ok frame =>
          let n := set_side who (mk_end c (en_sent e ++ [payload]) (en_got e)) n in
          mk_net (nt_secondary n) (nt_primary n)
            (record_of (en_channel e) (cs_send_seq (ch_send (en_channel e))) frame :: nt_log n)
      | Err _ => set_side who (mk_end c (en_sent e) (en_got e)) n
      end
  | Deliver who frame =>
      let e := side who n in
      let '(c, opened) := decode hex frame parse (en_channel e) in
      set_side who (mk_end c (en_sent e) (match opened with Ok t => en_got e ++ [t] | Err _ => en_got e end)) n
  end.
Definition net_run (ops : list NetOp) (n : Net) : Net := fold_left (λ n op, net_step op n) ops n.

(** What the receiver decrypts was sealed by somebody who has the key. *)
Definition unforged (who : bool) (frame : bytes) (n : Net) : Prop :=
  let c := en_channel (side who n) in
  let seq := cs_recv_seq (ch_recv c) in
  let r := mk_sealed (cs_key (ch_recv c)) (nonce_for seq) (frame_aad (ch_recv_aad c) seq) (drop 9 frame) in
  is_Some (Aes256Gcm_decrypt (se_key r) (se_nonce r) (se_aad r) (se_ct r)) → r ∈ nt_log n.
Fixpoint authentic (ops : list NetOp) (n : Net) : Prop :=
  match ops with
  | [] => True
  | op :: ops =>
      match op with Deliver who frame => unforged who frame n | Send _ _ => True end ∧ authentic ops (net_step op n)
  end.

(** Sealed in a connection with another transcript. *)
Definition foreign (hash : bytes) (r : Sealed) : Prop :=
  ∃ hash' direction seq, len hash' = 32 ∧ hash' ≠ hash ∧ se_aad r = frame_aad (context hash' direction) seq.

(** The ends of one handshake: the keys and directions are each other's. *)
Definition mirrored (hash : bytes) (cs cp : Channel) : Prop :=
  ∃ c2s s2c,
    cs = mk_channel (ChannelSide_new c2s) (ChannelSide_new s2c) (context hash (bs "c2s")) (context hash (bs "s2c")) hash
    ∧ cp = mk_channel (ChannelSide_new s2c) (ChannelSide_new c2s) (context hash (bs "s2c")) (context hash (bs "c2s")) hash.

Definition connected (cs cp : Channel) (log : list Sealed) : Net := mk_net (mk_end cs [] []) (mk_end cp [] []) log.

(** The channel of an end still works. *)
Definition works (e : End) : bool :=
  negb (cs_failed (ch_send (en_channel e))) && negb (cs_failed (ch_recv (en_channel e))).

End Network.

(** ** Proofs *)

Section NetworkProofs.
Context `{CryptoLaws} {T : Type} (hex : byte → bytes) (parse : bytes → result AppError T).

#[local] Abbreviation Net := (Net (T:=T)).
#[local] Abbreviation End := (End (T:=T)).
#[local] Abbreviation net_step := (net_step hex parse).
#[local] Abbreviation net_run := (net_run hex parse).

Lemma max_sequence_lt n : n < MAX_SEQUENCE → n < 256 ^ N.of_nat 8.
Proof. unfold MAX_SEQUENCE, u64_max. change (256 ^ N.of_nat 8) with 18446744073709551616. lia. Qed.

Lemma frame_aad_inj ctx ctx' i j :
  len ctx = len ctx' → i < MAX_SEQUENCE → j < MAX_SEQUENCE → frame_aad ctx i = frame_aad ctx' j → ctx = ctx' ∧ i = j.
Proof.
  intros Hl Hi%max_sequence_lt Hj%max_sequence_lt [-> He]%app_inj_len; [|done]. split; [done|].
  apply app_inv_head in He. by apply be_bytes_inj in He.
Qed.

Lemma context_hash_inj hash hash' d d' i j :
  len hash = 32 → len hash' = 32 → frame_aad (context hash d) i = frame_aad (context hash' d') j → hash = hash'.
Proof.
  unfold frame_aad, context. rewrite <- !app_assoc. intros Hl Hl' [_ He]%app_inj_len; [|done].
  apply app_inj_len in He as [? _]; [done|congruence].
Qed.

Definition direction (sender : bool) : bytes := if sender then bs "c2s" else bs "s2c".

Lemma directed_inj hash who who' i j :
  i < MAX_SEQUENCE → j < MAX_SEQUENCE →
  frame_aad (context hash (direction who)) i = frame_aad (context hash (direction who')) j → who = who' ∧ i = j.
Proof.
  intros Hi Hj [He ->]%frame_aad_inj; [|unfold context; rewrite !len_app; by destruct who, who'|done..].
  unfold context in He. apply app_inv_head, app_inv_head in He. by destruct who, who'.
Qed.

(** A record that one of the two ends of this connection sealed. *)
Definition ours (hash : bytes) (n : Net) (r : Sealed) : Prop :=
  ∃ who i m, en_sent (side who n) !! N.to_nat i = Some m ∧ i < MAX_SEQUENCE
    ∧ se_aad r = frame_aad (context hash (direction who)) i
    ∧ Aes256Gcm_encrypt (se_key r) (se_nonce r) (se_aad r) m = Some (se_ct r).

(** What holds of the direction from one end to the other. *)
Record flows (hash : bytes) (n : Net) (who : bool) : Prop := {
  fl_send_aad : ch_send_aad (en_channel (side who n)) = context hash (direction who);
  fl_recv_aad : ch_recv_aad (en_channel (side (negb who) n)) = context hash (direction who);
  fl_keys : cs_key (ch_send (en_channel (side who n))) = cs_key (ch_recv (en_channel (side (negb who) n)));
  fl_sent : cs_failed (ch_send (en_channel (side who n))) = false →
            cs_send_seq (ch_send (en_channel (side who n))) = len (en_sent (side who n));
  fl_got : Forall2 (λ m t, parse m = Ok t)
             (take (N.to_nat (cs_recv_seq (ch_recv (en_channel (side (negb who) n))))) (en_sent (side who n)))
             (en_got (side (negb who) n));
  fl_recv : cs_recv_seq (ch_recv (en_channel (side (negb who) n))) <= len (en_sent (side who n));
}.

Record net_inv (hash : bytes) (n : Net) : Prop := {
  ni_flows who : flows hash n who;
  ni_log r : r ∈ nt_log n → foreign hash r ∨ ours hash n r;
}.

Lemma side_set_side who who' e (n : Net) : side who (set_side who' e n) = if eqb who who' then e else side who n.
Proof. by destruct who, who'. Qed.
Lemma log_set_side who e (n : Net) : nt_log (set_side who e n) = nt_log n.
Proof. by destruct who. Qed.

Lemma ours_mono hash n n' r :
  (∀ who, en_sent (side who n) `prefix_of` en_sent (side who n')) → ours hash n r → ours hash n' r.
Proof.
  intros Hp (who & i & m & Hm & Hi & Ha & He). exists who, i, m. split; [|done]. by eapply prefix_lookup_Some.
Qed.

(** A step that leaves sealed payloads and the sending halves alone, and the
    receiving half but for a poisoning. *)
Lemma flows_ext hash n n' who :
  flows hash n who →
  en_sent (side who n') = en_sent (side who n) →
  en_got (side (negb who) n') = en_got (side (negb who) n) →
  ch_send_aad (en_channel (side who n')) = ch_send_aad (en_channel (side who n)) →
  ch_recv_aad (en_channel (side (negb who) n')) = ch_recv_aad (en_channel (side (negb who) n)) →
  cs_key (ch_send (en_channel (side who n'))) = cs_key (ch_send (en_channel (side who n))) →
  cs_key (ch_recv (en_channel (side (negb who) n'))) = cs_key (ch_recv (en_channel (side (negb who) n))) →
  cs_recv_seq (ch_recv (en_channel (side (negb who) n'))) = cs_recv_seq (ch_recv (en_channel (side (negb who) n))) →
  (cs_failed (ch_send (en_channel (side who n'))) = false →
     cs_failed (ch_send (en_channel (side who n))) = false
     ∧ cs_send_seq (ch_send (en_channel (side who n'))) = cs_send_seq (ch_send (en_channel (side who n)))) →
  flows hash n' who.
Proof.
  intros [Ha Hb Hk Hs Hg Hr] E1 E2 E3 E4 E5 E6 E7 E8.
  split; rewrite ?E1, ?E2, ?E3, ?E4, ?E5, ?E6, ?E7; try done.
  intros Hf. apply E8 in Hf as [Hf ->]. by apply Hs.
Qed.

(** What sealing does to an end. *)
Inductive sealed_as (payload : bytes) (c : Channel) : Channel * result AppError bytes → Prop :=
  | sealed_ok ct :
      cs_failed (ch_send c) = false → cs_failed (ch_recv c) = false → cs_send_seq (ch_send c) < MAX_SEQUENCE →
      Aes256Gcm_encrypt (cs_key (ch_send c)) (nonce_for (cs_send_seq (ch_send c)))
        (frame_aad (ch_send_aad c) (cs_send_seq (ch_send c))) payload = Some ct →
      sealed_as payload c (c <| ch_send := ch_send c <| cs_send_seq := cs_send_seq (ch_send c) + 1 |> |>,
                           Ok ([FRAME_TAG_SEALED] ++ u64_be (cs_send_seq (ch_send c)) ++ ct))
  | sealed_not s e :
      cs_key s = cs_key (ch_send c) →
      (cs_failed s = false → s = ch_send c ∧ cs_failed (ch_recv c) = true) →
      sealed_as payload c (c <| ch_send := s |>, Err e).

Lemma encode_spec payload c : sealed_as payload c (encode payload c).
Proof.
  unfold encode, seal. destruct (cs_failed (ch_recv c)) eqn:Er.
  { replace c with (c <| ch_send := ch_send c |>) at 2 by by destruct c. by constructor. }
  destruct (cs_failed (ch_send c) || (MAX_SEQUENCE <=? cs_send_seq (ch_send c))) eqn:Eg; [by constructor|].
  apply orb_false_iff in Eg as [Ef Em%N.leb_gt].
  change (cs_key (ch_send c <| cs_send_seq := cs_send_seq (ch_send c) + 1 |>)) with (cs_key (ch_send c)).
  destruct (Aes256Gcm_encrypt _ _ _ payload) as [ct|] eqn:Ee; [by eapply sealed_ok|by constructor].
Qed.

Inductive opened_as (frame : bytes) (c : Channel) : Channel * result AppError T → Prop :=
  | opened_ok plain t :
      cs_failed (ch_send c) = false → cs_failed (ch_recv c) = false → cs_recv_seq (ch_recv c) < MAX_SEQUENCE →
      Aes256Gcm_decrypt (cs_key (ch_recv c)) (nonce_for (cs_recv_seq (ch_recv c)))
        (frame_aad (ch_recv_aad c) (cs_recv_seq (ch_recv c))) (drop 9 frame) = Some plain →
      parse plain = Ok t →
      opened_as frame c (c <| ch_recv := ch_recv c <| cs_recv_seq := cs_recv_seq (ch_recv c) + 1 |> |>, Ok t)
  | opened_not s e :
      cs_key s = cs_key (ch_recv c) → cs_recv_seq s = cs_recv_seq (ch_recv c) →
      cs_failed s = true ∨ cs_failed (ch_send c) = true ∧ s = ch_recv c →
      opened_as frame c (c <| ch_recv := s |>, Err e).

Lemma open_header_ok expected frame seq ct :
  open_header hex expected frame = Ok (seq, ct) →
  seq = expected ∧ ct = drop 9 frame ∧ 25 <= len frame ∧ ∃ rest, frame = FRAME_TAG_SEALED :: rest ∧ be_value (take 8 rest) = expected.
Proof.
  unfold open_header. change MIN_SEALED_FRAME_LEN with 25.
  destruct (len frame <? 25) eqn:El; [done|]. apply N.ltb_ge in El. destruct frame as [|tag rest]; [done|].
  destruct (tag =b FRAME_TAG_SEALED) eqn:Et; cbn [negb]; [|done]. apply byte_eqb_eq in Et as ->.
  destruct (be_value (take 8 rest) =? expected) eqn:Es; cbn [negb]; [|done]. apply N.eqb_eq in Es.
  intros [= <- <-]. split_and!; [done..|]. by exists rest.
Qed.

Lemma decode_spec frame c : opened_as frame c (decode hex frame parse c).
Proof.
  unfold decode, open_validated. destruct (cs_failed (ch_send c)) eqn:Es.
  { replace c with (c <| ch_recv := ch_recv c |>) at 2 by by destruct c. constructor; auto. }
  destruct (cs_failed (ch_recv c) || (MAX_SEQUENCE <=? cs_recv_seq (ch_recv c))) eqn:Eg; [constructor; auto|].
  apply orb_false_iff in Eg as [Ef Em%N.leb_gt].
  destruct (open_header hex _ frame) as [ct|] eqn:Eh; [|constructor; auto].
  destruct ct as [seq ct]. apply open_header_ok in Eh as (-> & -> & _).
  destruct (Aes256Gcm_decrypt _ _ _ _) as [plain|] eqn:Ed; [|constructor; auto].
  destruct (parse plain) as [t|] eqn:Ep; [by eapply opened_ok|constructor; auto].
Qed.

Lemma flows_send hash (n : Net) who payload ct c log :
  (∀ w, flows hash n w) → c = en_channel (side who n) →
  cs_failed (ch_send c) = false →
  let c' := c <| ch_send := ch_send c <| cs_send_seq := cs_send_seq (ch_send c) + 1 |> |> in
  let n' := set_side who (mk_end c' (en_sent (side who n) ++ [payload]) (en_got (side who n))) n in
  ∀ w, flows hash (mk_net (nt_secondary n') (nt_primary n') (ct :: log)) w.
Proof.
  intros Hf -> Hok c' n' w. assert (∀ v, side v (mk_net (nt_secondary n') (nt_primary n') (ct :: log)) = side v n') as Hside by by intros [].
  destruct (eqb w who) eqn:Ew; [apply eqb_prop in Ew as ->|apply eqb_false_iff in Ew].
  - destruct (Hf who) as [Ha Hb Hk Hs Hg Hr].
    assert (side who n' = mk_end c' (en_sent (side who n) ++ [payload]) (en_got (side who n))) as E1
      by by (unfold n'; rewrite side_set_side, eqb_reflx).
    assert (side (negb who) n' = side (negb who) n) as E2 by (unfold n'; rewrite side_set_side; by destruct who).
    split; rewrite !Hside, ?E1, ?E2; cbn; try done.
    + intros _. rewrite (Hs Hok), len_app. done.
    + rewrite take_app_le; [done|]. unfold len in Hr. lia.
    + rewrite len_app. lia.
  - assert (who = negb w) as -> by by destruct w, who.
    assert (side w n' = side w n) as E1 by (unfold n'; rewrite side_set_side; by destruct w).
    assert (side (negb w) n' = mk_end c' (en_sent (side (negb w) n) ++ [payload]) (en_got (side (negb w) n))) as E2
      by (unfold n'; rewrite side_set_side; by destruct w).
    eapply flows_ext; [apply (Hf w)|rewrite !Hside, ?E1, ?E2; done..|rewrite !Hside, E1; auto].
Qed.

Lemma flows_poison_send hash (n : Net) who s :
  (∀ w, flows hash n w) → cs_key s = cs_key (ch_send (en_channel (side who n))) →
  (cs_failed s = false → s = ch_send (en_channel (side who n))) →
  ∀ w, flows hash (set_side who (mk_end (en_channel (side who n) <| ch_send := s |>) (en_sent (side who n)) (en_got (side who n))) n) w.
Proof.
  intros Hf Hk Hs w. eapply flows_ext; [apply (Hf w)|..]; rewrite !side_set_side; destruct w, who; cbn in *; auto;
    intros He; rewrite <- (Hs He); auto.
Qed.

Lemma flows_poison_recv hash (n : Net) who s :
  (∀ w, flows hash n w) → cs_key s = cs_key (ch_recv (en_channel (side who n))) →
  cs_recv_seq s = cs_recv_seq (ch_recv (en_channel (side who n))) →
  ∀ w, flows hash (set_side who (mk_end (en_channel (side who n) <| ch_recv := s |>) (en_sent (side who n)) (en_got (side who n))) n) w.
Proof.
  intros Hf Hk Hq w. eapply flows_ext; [apply (Hf w)|..]; rewrite !side_set_side; destruct w, who; cbn; auto.
Qed.

Lemma flows_receive hash (n : Net) who m t :
  (∀ w, flows hash n w) → let c := en_channel (side who n) in
  en_sent (side (negb who) n) !! N.to_nat (cs_recv_seq (ch_recv c)) = Some m → parse m = Ok t →
  ∀ w, flows hash (set_side who (mk_end (c <| ch_recv := ch_recv c <| cs_recv_seq := cs_recv_seq (ch_recv c) + 1 |> |>)
                                        (en_sent (side who n)) (en_got (side who n) ++ [t])) n) w.
Proof.
  intros Hf c Hm Ht w. destruct (eqb w who) eqn:Ew; [apply eqb_prop in Ew as ->|apply eqb_false_iff in Ew].
  - eapply flows_ext; [apply (Hf who)|..]; rewrite !side_set_side; destruct who; cbn; auto.
  - assert (w = negb who) as -> by by destruct w, who.
    destruct (Hf (negb who)) as [Ha Hb Hk Hs Hg Hr]. rewrite negb_involutive in *. fold c in Hb, Hk, Hg, Hr.
    assert (∀ e, side (negb who) (set_side who e n) = side (negb who) n) as E1 by (intros e; rewrite side_set_side; by destruct who).
    assert (∀ e, side who (set_side who e n) = e) as E2 by (intros e; by rewrite side_set_side, eqb_reflx).
    split; rewrite ?negb_involutive, ?E1, ?E2; cbn; try done.
    + rewrite N.add_1_r, N2Nat.inj_succ, (take_S_r _ _ _ Hm). apply Forall2_app; [done|]. by repeat constructor.
    + apply lookup_lt_Some in Hm. unfold len. lia.
Qed.

Lemma net_inv_send hash n who payload : net_inv hash n → net_inv hash (net_step (Send who payload) n).
Proof.
  intros [Hf Hlog]. cbn [net_step]. destruct (encode_spec payload (en_channel (side who n))) as [ct Hs _ Hseq He|s e Hk Hs].
  - split; [by apply flows_send|]. cbn [nt_log].
    assert (∀ r, foreign hash r ∨ ours hash n r →
      foreign hash r ∨ ours hash (mk_net (nt_secondary (set_side who (mk_end (en_channel (side who n) <| ch_send := ch_send (en_channel (side who n)) <| cs_send_seq := cs_send_seq (ch_send (en_channel (side who n))) + 1 |> |>) (en_sent (side who n) ++ [payload]) (en_got (side who n))) n))
        (nt_primary (set_side who (mk_end (en_channel (side who n) <| ch_send := ch_send (en_channel (side who n)) <| cs_send_seq := cs_send_seq (ch_send (en_channel (side who n))) + 1 |> |>) (en_sent (side who n) ++ [payload]) (en_got (side who n))) n)) (nt_log n)) r) as Hold.
    { intros r [?|Ho]; [by left|right]. eapply ours_mono, Ho. intros w.
      destruct who, w; cbn; try done; by apply prefix_app_r. }
    intros r [->|Hin]%elem_of_cons; [right|].
    + destruct (Hf who) as [Ha _ _ Hl _ _]. specialize (Hl Hs).
      exists who, (cs_send_seq (ch_send (en_channel (side who n)))), payload. cbn [record_of se_aad se_key se_nonce se_ct].
      split_and!; [|done|by rewrite Ha|].
      * rewrite Hl, to_nat_len. destruct who; cbn; by rewrite lookup_app_r, Nat.sub_diag by lia.
      * exact He.
    + rewrite log_set_side in Hin. destruct (Hold r (Hlog r Hin)) as [?|(w & i & m & Hm & Hrest)]; [by left|right].
      by exists w, i, m.
  - split; [apply flows_poison_send; [done|done|intros Hsf; by apply Hs]|].
    intros r. rewrite log_set_side. intros [?|Ho]%Hlog; [by left|right]. eapply ours_mono, Ho. intros w. by destruct who, w.
Qed.

Lemma net_inv_deliver hash n who frame :
  len hash = 32 → net_inv hash n → unforged who frame n → net_inv hash (net_step (Deliver who frame) n).
Proof.
  intros Hh [Hf Hlog] Hu. cbn [net_step]. unfold unforged in Hu.
  assert (∀ e, en_sent e = en_sent (side who n) → ∀ r, r ∈ nt_log (set_side who e n) → foreign hash r ∨ ours hash (set_side who e n) r) as Hlog'.
  { intros e He r. rewrite log_set_side. intros [?|Ho]%Hlog; [by left|right]. eapply ours_mono, Ho. intros w.
    destruct who, w; cbn in *; by rewrite ?He. }
  destruct (decode_spec frame (en_channel (side who n))) as [plain t _ _ Hseq Hd Hp|s e Hk Hq _]; (split; [|by apply Hlog']).
  - pose proof (Hf (negb who)) as [_ Hb Hkey _ _ _]. rewrite negb_involutive in Hb, Hkey.
    cbn [se_key se_nonce se_aad se_ct] in Hu. rewrite Hd in Hu. specialize (Hu ltac:(by eexists)).
    destruct (Hlog _ Hu) as [(hash' & d & i & Hl & Hne & Ha)|(w & i & m & Hm & Hi & Ha & He)]; cbn [se_key se_nonce se_aad se_ct] in *;
      rewrite Hb in Ha.
    + apply context_hash_inj in Ha; [by subst|done..].
    + apply directed_inj in Ha as [<- <-]; [|done..]. apply gcm_decrypts in He as [He _]. rewrite Hd in He. injection He as ->.
      by eapply flows_receive.
  - by apply flows_poison_recv.
Qed.

Lemma net_inv_run hash ops n : len hash = 32 → net_inv hash n → authentic hex parse ops n → net_inv hash (net_run ops n).
Proof.
  intros Hh. revert n. induction ops as [|op ops IH]; [done|]. intros n Hn [Hop Hrest]. apply IH; [|done].
  destruct op; [by apply net_inv_send|by apply net_inv_deliver].
Qed.

Lemma net_inv_connected hash cs cp old :
  mirrored hash cs cp → Forall (foreign hash) old → net_inv hash (connected cs cp old).
Proof.
  intros (c2s & s2c & -> & ->) Hold. split.
  - intros []; (split; [done..|by constructor|done]).
  - intros r Hr. left. by eapply Forall_forall in Hold.
Qed.

(** A side whose channel failed sends and receives nothing any more. *)
Lemma broken_step op n who :
  works (side who n) = false →
  works (side who (net_step op n)) = false
  ∧ en_sent (side who (net_step op n)) = en_sent (side who n)
  ∧ en_got (side who (net_step op n)) = en_got (side who n).
Proof.
  unfold works. intros Hw.
  assert (cs_failed (ch_send (en_channel (side who n))) = true ∨ cs_failed (ch_recv (en_channel (side who n))) = true) as Hb.
  { destruct (cs_failed (ch_send _)), (cs_failed (ch_recv _)); auto. }
  clear Hw. destruct op as [w payload|w frame]; cbn [net_step]; destruct (decide (w = who)) as [->|Hne].
  - destruct (encode_spec payload (en_channel (side who n))) as [ct H1 H2|s e _ Hs].
    + destruct Hb; congruence.
    + rewrite side_set_side, eqb_reflx. cbn. split; [|done]. destruct (cs_failed s) eqn:Es; [done|].
      destruct (Hs eq_refl) as [-> ->]. by rewrite andb_false_r.
  - assert (negb w = who) as <- by by destruct w, who.
    destruct (encode _ _) as [c []]; [|rewrite side_set_side]; destruct w; cbn in *; destruct Hb as [-> | ->]; by rewrite ?andb_false_r.
  - destruct (decode_spec frame (en_channel (side who n))) as [plain t H1 H2|s e _ _ Hs].
    + destruct Hb; congruence.
    + rewrite side_set_side, eqb_reflx. cbn. split; [|done]. destruct Hs as [->|[-> ->]]; by rewrite ?andb_false_r.
  - assert (negb w = who) as <- by by destruct w, who.
    destruct (decode hex frame parse _) as [c o]. rewrite side_set_side. destruct w; cbn in *; destruct Hb as [-> | ->]; by rewrite ?andb_false_r.
Qed.

Lemma broken_run ops n who :
  works (side who n) = false →
  en_sent (side who (net_run ops n)) = en_sent (side who n) ∧ en_got (side who (net_run ops n)) = en_got (side who n).
Proof.
  revert n. induction ops as [|op ops IH]; intros n Hw; [done|].
  destruct (broken_step op n who Hw) as (Hw' & <- & <-). by apply IH.
Qed.

Lemma rejected_breaks who frame n :
  en_got (side who (net_step (Deliver who frame) n)) = en_got (side who n) →
  works (side who (net_step (Deliver who frame) n)) = false.
Proof.
  cbn [net_step]. destruct (decode_spec frame (en_channel (side who n))) as [plain t _ _ _ _ _|s e _ _ Hs];
    rewrite side_set_side, eqb_reflx; cbn.
  - intros Hg%(f_equal length). rewrite length_app in Hg. cbn in Hg. lia.
  - intros _. unfold works. cbn. destruct Hs as [->|[-> ->]]; by rewrite ?andb_false_r.
Qed.

(** C35: Whatever the network does, short of forging ciphertexts, each end receives
    a prefix of what the other end sent, in order and without repetition,
    frames of other connections and its own frames included; and an end that
    rejected one frame neither sends nor receives anything afterwards. *)
Theorem channel_delivers_in_order hash cs cp old ops :
  len hash = 32 → mirrored hash cs cp → Forall (foreign hash) old →
  authentic hex parse ops (connected cs cp old) →
  let n := net_run ops (connected cs cp old) in
  (∀ who, ∃ k, Forall2 (λ m t, parse m = Ok t) (take k (en_sent (side who n))) (en_got (side (negb who) n)))
  ∧ (∀ before who frame after, ops = before ++ Deliver who frame :: after →
       let rejecting := net_run before (connected cs cp old) in
       en_got (side who (net_step (Deliver who frame) rejecting)) = en_got (side who rejecting) →
       en_got (side who n) = en_got (side who rejecting)
       ∧ en_sent (side who n) = en_sent (side who rejecting)).
Proof.
  intros Hh Hm Hold Ha n. split.
  - intros who. pose proof (net_inv_run hash ops _ Hh (net_inv_connected hash cs cp old Hm Hold) Ha) as [Hf _].
    eexists. apply (fl_got hash _ who (Hf who)).
  - intros before who frame after -> rejecting Hrej. unfold n, Federation.net_run. rewrite fold_left_app. fold (net_run before).
    cbn [fold_left]. change (fold_left (λ n op, net_step op n) before (connected cs cp old)) with rejecting.
    destruct (broken_run after (net_step (Deliver who frame) rejecting) who (rejected_breaks _ _ _ Hrej)) as [Hs Hg].
    unfold Federation.net_run in Hs, Hg. rewrite Hs, Hg. split; [done|].
    cbn [Federation.net_step]. destruct (decode _ _ _ _). by rewrite side_set_side, eqb_reflx.
Qed.

End NetworkProofs.

(** ** The keys of the two ends *)

Section Keys.
Context `{CryptoLaws}.

Lemma order_pair_comm a b : order_pair a b = order_pair b a.
Proof.
  unfold order_pair. destruct (bytes_leb a b) eqn:Hab, (bytes_leb b a) eqn:Hba; [|done..|].
  - by rewrite (bytes_leb_antisym a b).
  - destruct (bytes_leb_total a b); congruence.
Qed.

(** Both ends derive the same pair of keys. *)
Lemma derive_agrees s t transcript :
  derive_channel_keys (to_scalar_bytes s) (to_montgomery (verifying_key t)) transcript (verifying_key s) (verifying_key t)
  = derive_channel_keys (to_scalar_bytes t) (to_montgomery (verifying_key s)) transcript (verifying_key t) (verifying_key s).
Proof. unfold derive_channel_keys. by rewrite secrets_agree, order_pair_comm. Qed.

Lemma channels_mirror s p transcript cs cp :
  Channel_new s (verifying_key p) transcript true = Ok cs →
  Channel_new p (verifying_key s) transcript false = Ok cp →
  mirrored (Sha256 transcript) cs cp.
Proof.
  unfold Channel_new. intros Hs Hp. destruct (VerifyingKey_from_bytes (verifying_key p)); [|done].
  destruct (VerifyingKey_from_bytes (verifying_key s)); [|done].
  rewrite derive_agrees in Hs. destruct (derive_channel_keys _ _ _ _ _) as [keys|]; [|done].
  injection Hs as <-. injection Hp as <-. by exists (dk_c2s keys), (dk_s2c keys).
Qed.

(** ** An honest network *)

Context {T : Type} (hex : byte → bytes).

Fixpoint encode_all (ms : list bytes) (c : Channel) : Channel * result AppError (list bytes) :=
  match ms with
  | [] => (c, Ok [])
  | m :: ms =>
      let '(c, sealed) := encode m c in
      match sealed with
      | Err e => (c, Err e)
      | Ok frame => let '(c, rest) := encode_all ms c in (c, frames ← rest; Ok (frame :: frames))
      end
  end.
Fixpoint decode_all (parse : bytes → result AppError T) (frames : list bytes) (c : Channel) : Channel * result AppError (list T) :=
  match frames with
  | [] => (c, Ok [])
  | frame :: frames =>
      let '(c, opened) := decode hex frame parse c in
      match opened with
      | Err e => (c, Err e)
      | Ok t => let '(c, rest) := decode_all parse frames c in (c, ts ← rest; Ok (t :: ts))
      end
  end.

(** The sending half of one end and the receiving half of the other, at the
    same frame. *)
Record in_step (c d : Channel) : Prop := {
  is_live : cs_failed (ch_send c) = false ∧ cs_failed (ch_recv c) = false ∧ cs_failed (ch_send d) = false ∧ cs_failed (ch_recv d) = false;
  is_key : cs_key (ch_send c) = cs_key (ch_recv d);
  is_seq : cs_send_seq (ch_send c) = cs_recv_seq (ch_recv d);
  is_aad : ch_send_aad c = ch_recv_aad d;
}.

Lemma mirrored_in_step hash cs cp : mirrored hash cs cp → in_step cs cp ∧ in_step cp cs.
Proof. by intros (c2s & s2c & -> & ->). Qed.

Lemma sealed_frame_opens (parse : bytes → result AppError T) c d m t :
  in_step c d → cs_send_seq (ch_send c) < MAX_SEQUENCE → parse m = Ok t →
  (∀ key nonce aad msg, is_Some (Aes256Gcm_encrypt key nonce aad msg)) →
  ∃ c' d' frame, encode m c = (c', Ok frame) ∧ decode hex frame parse d = (d', Ok t) ∧ in_step c' d'
    ∧ cs_send_seq (ch_send c') = cs_send_seq (ch_send c) + 1.
Proof.
  intros [(H1 & H2 & H3 & H4) Hk Hq Ha] Hseq Hp Htotal.
  destruct (Htotal (cs_key (ch_send c)) (nonce_for (cs_send_seq (ch_send c))) (frame_aad (ch_send_aad c) (cs_send_seq (ch_send c))) m) as [ct He].
  pose proof (gcm_decrypts _ _ _ _ _ He) as [Hd Hl].
  eexists _, _, ([FRAME_TAG_SEALED] ++ u64_be (cs_send_seq (ch_send c)) ++ ct).
  unfold encode, seal, decode, open_validated. rewrite H2, H3, H1, H4, <- Hq. leb_to false. cbn [orb].
  change (cs_key (ch_send c <| cs_send_seq := cs_send_seq (ch_send c) + 1 |>)) with (cs_key (ch_send c)). rewrite He.
  split; [reflexivity|]. unfold open_header. change MIN_SEALED_FRAME_LEN with 25.
  rewrite !len_app, len_be_bytes, Hl. change (len [FRAME_TAG_SEALED]) with 1. change (N.of_nat 8) with 8. ltb_to false.
  cbn [app]. rewrite byte_eqb_refl. cbn [negb].
  rewrite take_app_length', drop_app_length' by by rewrite length_be_bytes.
  rewrite be_value_bytes by by apply max_sequence_lt. rewrite N.eqb_refl. cbn [negb].
  rewrite <- Hk, <- Ha, Hd, Hp. split; [reflexivity|]. split; [|done]. split; cbn; auto.
Qed.

Lemma sealed_frames_open (parse : bytes → result AppError T) ms ts : ∀ c d,
  in_step c d → cs_send_seq (ch_send c) + len ms <= MAX_SEQUENCE → Forall2 (λ m t, parse m = Ok t) ms ts →
  (∀ key nonce aad msg, is_Some (Aes256Gcm_encrypt key nonce aad msg)) →
  ∃ c' d' frames, encode_all ms c = (c', Ok frames) ∧ decode_all parse frames d = (d', Ok ts) ∧ in_step c' d'.
Proof.
  intros c d Hs Hl Hf Htotal. revert c d Hs Hl.
  induction Hf as [|m t ms ts Hp Hf IH]; intros c d Hs Hl; [by exists c, d, []|]. rewrite len_cons in Hl.
  destruct (sealed_frame_opens parse c d m t Hs ltac:(lia) Hp Htotal) as (c1 & d1 & frame & He & Hd & Hs1 & Hq).
  destruct (IH c1 d1 Hs1 ltac:(lia)) as (c2 & d2 & frames & He2 & Hd2 & Hs2).
  exists c2, d2, (frame :: frames). cbn [encode_all decode_all]. by rewrite He, He2, Hd, Hd2.
Qed.

End Keys.

Section Messages.
Context `{CryptoLaws, JsonLaws NodeWsMessage} (hex : byte → bytes).

(** Two daemons that ran a handshake with each other over the same transcript
    derive the same keys, and over a network that hands every frame on, each
    message of one of them arrives at the other one as it was, compressed or
    not, as many as there are sequence numbers. *)
Theorem sealed_messages_arrive s p transcript cs cp messages (from_secondary : bool) :
  Channel_new s (verifying_key p) transcript true = Ok cs →
  Channel_new p (verifying_key s) transcript false = Ok cp →
  (∀ key nonce aad msg, is_Some (Aes256Gcm_encrypt key nonce aad msg)) →
  Forall (λ m, (∃ rest, to_vec m = x7b :: rest) ∧ len (to_vec m) <= MAX_NODE_WS_DECOMPRESSED_BYTES ∧ well_typed m = true) messages →
  len messages <= MAX_SEQUENCE →
  let '(sender, receiver) := if from_secondary then (cs, cp) else (cp, cs) in
  ∃ sender' receiver' frames,
    encode_all (map encode_node_ws_payload messages) sender = (sender', Ok frames)
    ∧ decode_all hex decode_node_ws_payload frames receiver = (receiver', Ok messages)
    ∧ in_step sender' receiver'.
Proof.
  intros Hs Hp Htotal Hm Hl. destruct (mirrored_in_step _ _ _ (channels_mirror s p transcript cs cp Hs Hp)) as [Hin Hin2].
  pose proof (channels_mirror s p transcript cs cp Hs Hp) as (c2s & s2c & Ecs & Ecp).
  assert (Forall2 (λ m t, decode_node_ws_payload m = Ok t) (map encode_node_ws_payload messages) messages) as Hf.
  { clear Hl. induction Hm as [|m ms (Hb & Hlen & Ht) _ IH]; cbn; constructor; [by apply payload_roundtrip|apply IH]. }
  destruct from_secondary; apply sealed_frames_open; try done; rewrite len_map; by rewrite ?Ecs, ?Ecp.
Qed.

End Messages.

(** ** An instance

    Every byte is written as two letters; the hash adds up, keys agree by
    multiplication, and the cipher appends a checksum.  It keeps the laws and
    nothing secret. *)

Definition letter (n : N) : byte := byte_of (97 + n).
Fixpoint spell (l : bytes) : bytes :=
  match l with
  | [] => []
  | b :: l => letter (byte_val b / 16) :: letter (byte_val b mod 16) :: spell l
  end.
Fixpoint read (l : bytes) : option bytes :=
  match l with
  | [] => Some []
  | a :: b :: l =>
      if in_byte_range x61 x70 a && in_byte_range x61 x70 b then
        rest ← read l; Some (byte_of ((byte_val a - 97) * 16 + (byte_val b - 97)) :: rest)
      else None
  | _ => None
  end.

Lemma letter_val n : n < 16 → byte_val (letter n) = 97 + n.
Proof. intros. unfold letter. rewrite byte_val_of, N.mod_small; lia. Qed.
Lemma letter_range n : n < 16 → in_byte_range x61 x70 (letter n) = true.
Proof.
  intros Hn. unfold in_byte_range. rewrite letter_val by done. change (byte_val x61) with 97. change (byte_val x70) with 112.
  apply andb_true_iff. split; apply N.leb_le; lia.
Qed.

Lemma spell_letters l : forallb (in_byte_range x61 x70) (spell l) = true.
Proof.
  induction l as [|b l IH]; [done|]. cbn [spell forallb]. pose proof (byte_val_lt b).
  rewrite !letter_range, IH; [done|apply N.mod_lt; lia|]. apply N.Div0.div_lt_upper_bound. lia.
Qed.

Lemma read_spell l : read (spell l) = Some l.
Proof.
  induction l as [|b l IH]; [done|]. cbn [spell read]. pose proof (byte_val_lt b) as Hb.
  assert (byte_val b / 16 < 16) as H1 by (apply N.Div0.div_lt_upper_bound; lia).
  assert (byte_val b mod 16 < 16) as H2 by (apply N.mod_lt; lia).
  rewrite !letter_range, IH, !letter_val by done. cbn [andb mbind option_bind]. do 2 f_equal.
  apply byte_val_inj. rewrite byte_val_of. pose proof (N.div_mod' (byte_val b) 16) as Hd.
  revert H1 H2 Hd. generalize (byte_val b / 16), (byte_val b mod 16). intros q r H1 H2 Hd.
  rewrite N.mod_small; lia.
Qed.

Lemma letters_ascii l : forallb (in_byte_range x61 x70) l = true → forallb (λ b, byte_val b <? 128) l = true.
Proof.
  rewrite !forallb_forall. intros Hl b Hb. apply Hl in Hb. unfold in_byte_range in Hb.
  change (byte_val x61) with 97 in Hb. change (byte_val x70) with 112 in Hb.
  apply andb_true_iff in Hb as [_ Hb%N.leb_le]. apply N.ltb_lt. lia.
Qed.

Lemma trim_letters l : forallb (in_byte_range x61 x70) l = true → trim l = l.
Proof.
  intros Hl. rewrite trim_ascii by by apply letters_ascii. apply trim_matches_all_out.
  rewrite forallb_forall in *. intros b Hb. apply Hl in Hb. unfold in_byte_range in Hb.
  change (byte_val x61) with 97 in Hb. change (byte_val x70) with 112 in Hb.
  apply andb_true_iff in Hb as [H1%N.leb_le H2%N.leb_le]. apply negb_true_iff. unfold is_whitespace.
  repeat (apply orb_false_iff; split); try apply andb_false_iff; rewrite ?N.leb_gt, ?N.eqb_neq; lia.
Qed.

Definition modulus : N := 65536.
Definition sum_hash (l : bytes) : N := foldr (λ b h, (h * 257 + byte_val b + 1) mod modulus) 7 l.
Definition checksum (key nonce aad msg : bytes) : bytes := be_bytes 16 (sum_hash (key ++ nonce ++ aad ++ msg)).

Definition toy_key (seed : bytes) : bytes := be_bytes 32 ((be_value seed * 5) mod modulus).

(** Signatures verify for the messages that were signed at all. *)
Definition toy_crypto (signed : list bytes) : Crypto := {|
  B64_encode := spell;
  B64_decode l := match read l with Some x => Ok x | None => Err (bs "Invalid symbol") end;
  Aes256Gcm_encrypt key nonce aad msg := Some (msg ++ checksum key nonce aad msg);
  Aes256Gcm_decrypt key nonce aad ct :=
    let msg := take (length ct - 16) ct in
    if bytes_eqb (drop (length ct - 16) ct) (checksum key nonce aad msg) then Some msg else None;
  aead_error := bs "aead::Error";
  Sha256 l := be_bytes 32 (sum_hash l);
  hkdf_expand salt secret info := Ok (be_bytes 32 (sum_hash (salt ++ secret ++ info)));
  verifying_key := toy_key;
  sign seed msg := be_bytes 64 (sum_hash (toy_key seed ++ msg));
  verify_strict key msg signature := bytes_eqb signature (be_bytes 64 (sum_hash (key ++ msg))) && existsb (bytes_eqb msg) signed;
  VerifyingKey_from_bytes _ := Ok tt;
  is_weak _ := false;
  decompress key := Some key;
  is_torsion_free _ := true;
  to_montgomery key := key;
  to_scalar_bytes seed := seed;
  diffie_hellman secret public := be_bytes 32 ((be_value secret * be_value public) mod modulus);
  gzip l := l;
  gunzip n l := Ok (take (N.to_nat n) l);
|}.

Lemma toy_crypto_laws signed : @CryptoLaws (toy_crypto signed).
Proof.
  assert (∀ x, be_value (be_bytes 32 (x mod modulus)) = x mod modulus) as Hv.
  { intros x. apply be_value_bytes. apply (N.lt_trans _ modulus); [by apply N.mod_lt|done]. }
  split; cbn [toy_crypto B64_encode B64_decode Aes256Gcm_encrypt Aes256Gcm_decrypt Sha256 sign verify_strict verifying_key
              diffie_hellman to_scalar_bytes to_montgomery gzip gunzip].
  - intros l. rewrite trim_letters by apply spell_letters. by rewrite read_spell.
  - intros key nonce aad msg ct [= <-].
    assert (length (checksum key nonce aad msg) = 16%nat) as Hc by apply length_be_bytes.
    rewrite length_app, Hc, Nat.add_sub, take_app_length, drop_app_length. unfold bytes_eqb.
    rewrite bool_decide_eq_true_2 by done. split; [done|]. rewrite len_app. unfold len at 2. rewrite Hc. done.
  - intros l. apply (len_be_bytes 32).
  - intros seed. apply (len_be_bytes 32).
  - intros s t. unfold toy_key. rewrite !Hv, !N.Div0.mul_mod_idemp_r. do 2 f_equal. lia.
  - done.
Qed.

(** A text for each message: a brace, a letter for the constructor, the
    fields spelled and ended by commas, a brace. *)
Definition number (n : N) : bytes := code_bits (N.succ_pos n).
Definition read_number (l : bytes) : N := Pos.pred_N (bits_code l).
Definition parts (m : NodeWsMessage) : N * list bytes :=
  match m with
  | Hello v n k x => (0, [number v; n; k; x])
  | Challenge n => (1, [n])
  | Join s => (2, [s])
  | KeyConfirm h => (3, [h])
  | Ready h => (4, [h])
  | Joined => (5, [])
  | NodeError e => (6, [e])
  | Rpc i r => (7, [i; r])
  | NodeRpcResponse i r => (8, [i; r])
  | RpcStreamFrame i r d => (9, [i; r; if d : bool then [x31] else []])
  | RpcStreamMessage i r => (10, [i; r])
  | NodeNotification p => (11, [p])
  | NodeSessionEvent p => (12, [p])
  | Ping => (13, [])
  | Pong => (14, [])
  end.
Definition of_parts (p : N * list bytes) : option NodeWsMessage :=
  match p with
  | (0, [v; n; k; x]) => Some (Hello (read_number v) n k x)
  | (1, [n]) => Some (Challenge n)
  | (2, [s]) => Some (Join s)
  | (3, [h]) => Some (KeyConfirm h)
  | (4, [h]) => Some (Ready h)
  | (5, []) => Some Joined
  | (6, [e]) => Some (NodeError e)
  | (7, [i; r]) => Some (Rpc i r)
  | (8, [i; r]) => Some (NodeRpcResponse i r)
  | (9, [i; r; d]) => Some (RpcStreamFrame i r (negb (len d =? 0)))
  | (10, [i; r]) => Some (RpcStreamMessage i r)
  | (11, [p]) => Some (NodeNotification p)
  | (12, [p]) => Some (NodeSessionEvent p)
  | (13, []) => Some Ping
  | (14, []) => Some Pong
  | _ => None
  end.

Lemma of_parts_parts m : of_parts (parts m) = Some m.
Proof.
  destruct m; try reflexivity.
  - cbn. unfold read_number, number. by rewrite bits_code_bits, N.pos_pred_succ.
  - by destruct done.
Qed.

Fixpoint read_fields (l : bytes) (field : bytes) : option (list bytes) :=
  match l with
  | [b] => if b =b x7d then match field with [] => Some [] | _ => None end else None
  | b :: l =>
      if b =b x2c then x ← read field; rest ← read_fields l []; Some (x :: rest)
      else read_fields l (field ++ [b])
  | [] => None
  end.
Definition fields_text (fields : list bytes) : bytes := concat (map (λ f, spell f ++ [x2c]) fields).
Definition node_json : Json NodeWsMessage := {|
  to_vec m := let '(tag, fields) := parts m in x7b :: letter tag :: fields_text fields ++ [x7d];
  from_slice l :=
    match l with
    | open :: tag :: l => if open =b x7b then fields ← read_fields l []; of_parts (byte_val tag - 97, fields) else None
    | _ => None
    end;
|}.

Lemma read_fields_spelled l acc rest :
  forallb (in_byte_range x61 x70) l = true →
  read_fields (l ++ x2c :: rest) acc = (x ← read (acc ++ l); xs ← read_fields rest []; Some (x :: xs)).
Proof.
  revert acc. induction l as [|b l IH]; intros acc Hl.
  - cbn [app read_fields]. rewrite app_nil_r. destruct rest; [by destruct (read acc)|done].
  - cbn [forallb] in Hl. apply andb_true_iff in Hl as [Hb Hl]. cbn [app read_fields].
    assert ((b =b x2c) = false) as Hc.
    { apply byte_eqb_neq. intros ->. by vm_compute in Hb. }
    rewrite Hc. replace (acc ++ b :: l) with ((acc ++ [b]) ++ l) by by rewrite <- app_assoc.
    rewrite <- (IH (acc ++ [b]) Hl). destruct l; [|done]. done.
Qed.

Lemma read_fields_text fields : read_fields (fields_text fields ++ [x7d]) [] = Some fields.
Proof.
  unfold fields_text. induction fields as [|f fields IH]; [done|]. cbn [map concat]. rewrite <- !app_assoc. cbn [app].
  rewrite read_fields_spelled by apply spell_letters. cbn [app]. by rewrite read_spell, IH.
Qed.

Definition plain_byte (b : byte) : bool := in_byte_range x61 x70 b || (b =b x2c).
Lemma plain_text fields : forallb plain_byte (fields_text fields) = true.
Proof.
  assert (∀ f, forallb plain_byte (spell f) = true) as Hs.
  { intros f. rewrite forallb_forall. intros b Hb. pose proof (spell_letters f) as Hs. rewrite forallb_forall in Hs.
    unfold plain_byte. by rewrite Hs. }
  unfold fields_text. induction fields as [|f fields IH]; [done|]. cbn [map concat]. by rewrite !forallb_app, Hs, IH.
Qed.

Lemma parts_tag m : (parts m).1 < 16.
Proof. destruct m; cbn; lia. Qed.

Lemma node_json_laws : @JsonLaws NodeWsMessage node_json.
Proof.
  assert (∀ b, plain_byte b = true → byte_val b < 128 ∧ b ≠ x0a) as Hplain.
  { intros b. unfold plain_byte, in_byte_range. change (byte_val x61) with 97. change (byte_val x70) with 112.
    intros [[H1%N.leb_le H2%N.leb_le]%andb_true_iff|Hb%byte_eqb_eq]%orb_true_iff.
    - split; [lia|]. intros ->. by vm_compute in H1.
    - by subst. }
  assert (∀ n, n < 16 → plain_byte (letter n) = true) as Hletter.
  { intros n Hn. unfold plain_byte. by rewrite letter_range. }
  split; intros a; pose proof (parts_tag a) as Ht; pose proof (of_parts_parts a) as Hp; cbn [to_vec from_slice node_json];
    destruct (parts a) as [tag fields]; cbn [fst] in Ht.
  - change (x7b =b x7b) with true. cbv match. rewrite read_fields_text. cbn [mbind option_bind].
    rewrite letter_val by done. by rewrite N.add_comm, N.add_sub.
  - apply utf8_valid_ascii. cbn [forallb]. pose proof (plain_text fields) as Hf. rewrite forallb_forall in Hf.
    rewrite forallb_app. apply andb_true_iff. split; [done|]. apply andb_true_iff. split; [apply N.ltb_lt, Hplain, Hletter; done|].
    rewrite andb_true_r, forallb_forall. intros b Hb. by apply N.ltb_lt, Hplain, Hf.
  - by exists (x7b :: letter tag :: fields_text fields).
  - unfold contains_byte. cbn [existsb]. apply orb_false_iff. split; [done|]. apply orb_false_iff. split.
    + apply byte_eqb_neq, Hplain, Hletter. done.
    + rewrite existsb_app. apply orb_false_iff. split; [|done]. destruct (existsb _ (fields_text fields)) eqn:Ee; [|done].
      apply existsb_exists in Ee as (b & Hb & ->%byte_eqb_eq). pose proof (plain_text fields) as Hf. rewrite forallb_forall in Hf.
      destruct (Hplain _ (Hf _ Hb)). done.
Qed.

(** ** Witnesses *)

Section Witnesses.
#[local] Instance plain_crypto : Crypto := toy_crypto [].
#[local] Instance plain_crypto_laws : CryptoLaws := toy_crypto_laws [].
#[local] Existing Instance node_json.
#[local] Existing Instance node_json_laws.

Definition plain_hex (b : byte) : bytes := [b].
Definition a_hash : bytes := repeat x01 32.
Definition a_channel (secondary : bool) : Channel :=
  let '(mine, other) := if secondary then (bs "c2s", bs "s2c") else (bs "s2c", bs "c2s") in
  mk_channel (ChannelSide_new (bs "key " ++ mine)) (ChannelSide_new (bs "key " ++ other))
    (context a_hash mine) (context a_hash other) a_hash.
Definition an_old_record : Sealed :=
  mk_sealed (bs "key c2s") (nonce_for 1) (frame_aad (context (repeat x02 32) (bs "c2s")) 1) (bs "old").
Definition frame_of (payload : bytes) (c : Channel) : bytes :=
  match (encode payload c).2 with Ok frame => frame | Err _ => [] end.

#[local] Instance Sealed_eq_dec : EqDecision Sealed.
Proof. solve_decision. Defined.

Lemma unforged_dec {T} who frame (n : Net (T:=T)) :
  (let c := en_channel (side who n) in
   let seq := cs_recv_seq (ch_recv c) in
   match Aes256Gcm_decrypt (cs_key (ch_recv c)) (nonce_for seq) (frame_aad (ch_recv_aad c) seq) (drop 9 frame) with
   | Some _ => bool_decide (mk_sealed (cs_key (ch_recv c)) (nonce_for seq) (frame_aad (ch_recv_aad c) seq) (drop 9 frame) ∈ nt_log n)
   | None => true
   end) = true → unforged who frame n.
Proof.
  unfold unforged. intros Hb [plain Hd]. cbn [se_key se_nonce se_aad se_ct] in Hd. cbv zeta in Hb. rewrite Hd in Hb.
  by apply bool_decide_eq_true in Hb.
Qed.

(** The first of two frames is delivered twice; the second one no more. *)
Lemma channel_delivers_in_order_witness :
  let first := frame_of (bs "first") (a_channel true) in
  let second := frame_of (bs "second") (encode (bs "first") (a_channel true)).1 in
  let ops := [Send true (bs "first"); Send true (bs "second"); Deliver false first; Deliver false first; Deliver false second] in
  en_got (side false (net_run plain_hex (Ok (E:=AppError)) ops (connected (a_channel true) (a_channel false) [an_old_record]))) = [bs "first"].
Proof.
  intros first second ops.
  destruct (channel_delivers_in_order plain_hex (Ok (E:=AppError)) a_hash (a_channel true) (a_channel false) [an_old_record] ops)
    as [_ Hrej].
  - done.
  - by exists (bs "key c2s"), (bs "key s2c").
  - constructor; [|constructor]. exists (repeat x02 32), (bs "c2s"), 1. split_and!; [done|discriminate|done].
  - unfold ops. cbn [authentic]. repeat split; apply unforged_dec; by vm_compute.
  - destruct (Hrej [Send true (bs "first"); Send true (bs "second"); Deliver false first] false first [Deliver false second] eq_refl) as [Hg _];
      [by vm_compute|]. etransitivity; [exact Hg|]. by vm_compute.
Defined.

Definition two_channels : result AppError (Channel * Channel) :=
  let transcript := build_transcript 2 (bs "secondary-proof") (bs "worker") (verifying_key (bs "seed a")) (verifying_key (bs "seed b"))
                      (repeat x01 32) (repeat x02 32) in
  cs ← Channel_new (bs "seed a") (verifying_key (bs "seed b")) transcript true;
  cp ← Channel_new (bs "seed b") (verifying_key (bs "seed a")) transcript false;
  Ok (cs, cp).

(** A ping and an answer, from the primary. *)
Lemma sealed_messages_arrive_witness :
  match two_channels with
  | Ok (cs, cp) =>
      ∃ cp' cs' frames, encode_all (map encode_node_ws_payload [Ping; NodeRpcResponse (bs "1") (bs "{}")]) cp = (cp', Ok frames)
        ∧ decode_all plain_hex decode_node_ws_payload frames cs = (cs', Ok [Ping; NodeRpcResponse (bs "1") (bs "{}")])
  | Err _ => False
  end.
Proof.
  destruct two_channels as [[cs cp]|e] eqn:Ec; [|by vm_compute in Ec].
  unfold two_channels in Ec. cbv zeta in Ec.
  destruct (Channel_new (bs "seed a") _ _ true) as [cs0|] eqn:Es; [|discriminate]. cbn [mbind result_bind] in Ec.
  destruct (Channel_new (bs "seed b") _ _ false) as [cp0|] eqn:Ep; [|discriminate]. injection Ec as -> ->.
  destruct (sealed_messages_arrive plain_hex (bs "seed a") (bs "seed b") _ cs cp [Ping; NodeRpcResponse (bs "1") (bs "{}")] false Es Ep)
    as (cp' & cs' & frames & He & Hd & _).
  - intros key nonce aad msg. by eexists.
  - do 2 (apply Forall_cons_2; [split; [by eexists|split; by vm_compute]|]). apply Forall_nil_2.
  - by vm_compute.
  - exact (ex_intro _ cp' (ex_intro _ cs' (ex_intro _ frames (conj He Hd)))).
Defined.

End Witnesses.
