(* ===== verification/Nodes.v ===== *)
(** * Nodes: configuration, handshake and registry

    [src/src/node/config.rs], [src/src/node/registry.rs],
    [src/src/daemon/node_manager.rs], the join handler of
    [src/src/http/nodes.rs] and the connecting half of
    [src/src/daemon/rpc_nodes.rs], with the statements on the nodes table of
    [src/src/db.rs].  Both halves of the handshake are programs over a
    conversation: what the other side sends is given, what is sent is
    recorded.  The daemon that accepts joins is a machine whose steps are
    management requests, each under the configuration lock, and the awaited
    parts of any number of joins, in any order.  The theorems say that two
    daemons that finish a handshake agree on names, keys and nonces and hold
    the two ends of one channel, and that whoever is connected is authorized
    by the configuration as it stands. *)

From S2P Require Import Prelude Utf8 Text Disk Pump Wire Attach Federation.

(** ** Configuration *)

Inductive NodeRole := Primary | Secondary.
#[export] Instance NodeRole_eq_dec : EqDecision NodeRole.
Proof. solve_decision. Defined.

Record NodeConfig := mk_node_config {
  nc_name : bytes;
  nc_role : NodeRole;
  nc_key : bytes;
  nc_url : option bytes;
  nc_as_name : option bytes;
  nc_enabled : bool;
  nc_revision : bytes;
}.
#[export] Instance NodeConfig_eta : Settable NodeConfig := λ c,
  mk_node_config (nc_name c) (nc_role c) (nc_key c) (nc_url c) (nc_as_name c) (nc_enabled c) (nc_revision c).
#[export] Instance NodeConfig_eq_dec : EqDecision NodeConfig.
Proof. solve_decision. Defined.

(** [reqwest::Url] as far as it is looked at; [url_text] is its display. *)
Record Url := mk_url {
  url_scheme : bytes;
  url_host : option bytes;
  url_username : bytes;
  url_password : option bytes;
  url_query : option bytes;
  url_fragment : option bytes;
  url_text : bytes;
}.
Class UrlParser := url_parse : bytes → result bytes Url.

Definition validate_name (name : bytes) : result AppError unit :=
  if (len name =? 0) || (256 <? len name)
     || match utf8_decode name with Some cs => existsb (λ c, is_control c || is_whitespace c) cs | None => false end
  then Err (Protocol (bs "node names must be 1" ++ [xe2; x80; x93] ++ bs "256 bytes without whitespace or control characters"))
  else Ok tt.

Definition is_none {A} (o : option A) : bool := match o with None => true | Some _ => false end.

Section Config.
Context `{Crypto, UrlParser} (show : bytes → bytes).

Definition validate_url (raw : bytes) : result AppError bytes :=
  match url_parse raw with
  | Err e => Err (Protocol (bs "invalid node URL: " ++ e))
  | Ok url =>
      if negb (bytes_eqb (url_scheme url) (bs "http") || bytes_eqb (url_scheme url) (bs "https"))
         || is_none (url_host url) || negb (len (url_username url) =? 0) || negb (is_none (url_password url))
         || negb (is_none (url_query url)) || negb (is_none (url_fragment url))
      then Err (Protocol (bs "node URL must be an http(s) base URL without credentials, query, or fragment"))
      else Ok (rev (trim_start (λ b, b =b x2f) (rev (url_text url))))
  end.

Definition validate (c : NodeConfig) : result AppError NodeConfig :=
  _ ← validate_name (nc_name c);
  key ← parse_public_key show (trim (nc_key c));
  let c := c <| nc_key := to_line key |> in
  match nc_role c with
  | Primary =>
      as_name ← ok_or (nc_as_name c) (Protocol (bs "primary peers require --as <local-name>"));
      _ ← validate_name as_name;
      raw ← ok_or (nc_url c) (Protocol (bs "primary peers require --url <url>"));
      url ← validate_url raw;
      Ok (c <| nc_url := Some url |>)
  | Secondary =>
      if negb (is_none (nc_url c)) || negb (is_none (nc_as_name c))
      then Err (Protocol (bs "secondary peers do not accept --url or --as"))
      else Ok c
  end.

Record PrimaryConnection := mk_primary { pc_name : bytes; pc_as_name : bytes; pc_url : bytes; pc_key : bytes }.

Definition try_from (c : NodeConfig) : result AppError PrimaryConnection :=
  if bool_decide (nc_role c ≠ Primary) then Err (Protocol (bs "only primary peers have outbound connectors"))
  else
    c ← validate c;
    Ok (mk_primary (nc_name c) (default [] (nc_as_name c)) (default [] (nc_url c)) (nc_key c)).

Record NodeUpdate := mk_update { nu_key : option bytes; nu_url : option bytes; nu_as_name : option bytes }.

Definition apply_update (u : NodeUpdate) (c : NodeConfig) : result AppError NodeConfig :=
  if is_none (nu_key u) && is_none (nu_url u) && is_none (nu_as_name u)
  then Err (Protocol (bs "node update requires --key, --url, or --as"))
  else
    let c := match nu_key u with Some key => c <| nc_key := key |> | None => c end in
    let c := match nu_url u with Some url => c <| nc_url := Some url |> | None => c end in
    let c := match nu_as_name u with Some name => c <| nc_as_name := Some name |> | None => c end in
    validate c.

(** ** The nodes table *)

Abbreviation Rows := (by_id NodeConfig).

Definition unique_key (name key : bytes) (rows : Rows) : bool :=
  forallb (λ r, bytes_eqb r.1 name || negb (bytes_eqb (nc_key r.2) key)) (map_to_list rows).

Definition get_node (err : option bytes) (name : bytes) (rows : Rows) : result AppError (option NodeConfig) :=
  match err with
  | Some e => Err (Sqlx e)
  | None => match rows !! name with None => Ok None | Some row => c ← validate row; Ok (Some c) end
  end.

Definition insert_node (err : option bytes) (c : NodeConfig) (rows : Rows) : Rows * result AppError unit :=
  match err with
  | Some e => (rows, Err (Sqlx e))
  | None =>
      if negb (is_none (rows !! nc_name c)) then (rows, Err (Sqlx (bs "UNIQUE constraint failed: nodes.name")))
      else if unique_key (nc_name c) (nc_key c) rows then (<[nc_name c := c]> rows, Ok tt)
      else (rows, Err (Sqlx (bs "UNIQUE constraint failed: nodes.public_key")))
  end.

(** The columns of [UPDATE]: all but the name and the role. *)
Definition updated_node (c row : NodeConfig) : NodeConfig :=
  mk_node_config (nc_name row) (nc_role row) (nc_key c) (nc_url c) (nc_as_name c) (nc_enabled c) (nc_revision c).
Definition update_node (err : option bytes) (c : NodeConfig) (rows : Rows) : Rows * result AppError unit :=
  match err with
  | Some e => (rows, Err (Sqlx e))
  | None =>
      if unique_key (nc_name c) (nc_key c) rows then (alter (updated_node c) (nc_name c) rows, Ok tt)
      else (rows, Err (Sqlx (bs "UNIQUE constraint failed: nodes.public_key")))
  end.

Definition remove_node (err : option bytes) (name : bytes) (rows : Rows) : Rows * result AppError unit :=
  match err with
  | Some e => (rows, Err (Sqlx e))
  | None => (delete name rows, Ok tt)
  end.

End Config.

(** ** State and errors *)

Definition ST (S A : Type) : Type := S → S * result AppError A.
#[export] Instance st_ret {S} : MRet (ST S) := λ A a s, (s, Ok a).
#[export] Instance st_bind {S} : MBind (ST S) := λ A B f m s,
  match m s with (s, Ok a) => f a s | (s, Err e) => (s, Err e) end.
Definition lift {S A} (r : result AppError A) : ST S A := λ s, (s, r).
Definition fail {S A} (message : bytes) : ST S A := lift (Err (Protocol message)).

Lemma st_bind_ok {S A B} (m : ST S A) (f : A → ST S B) s s' b :
  (m ≫= f) s = (s', Ok b) → ∃ s1 a, m s = (s1, Ok a) ∧ f a s1 = (s', Ok b).
Proof. unfold mbind, st_bind. destruct (m s) as [s1 [a|e]]; [|done]. eauto. Qed.

(** ** The handshake *)

Definition FEDERATION_VERSION : N := 2.

(** A conversation: the binary frames still to come ([None] is any other
    frame), what was sent, and for each send to come the error it ends in. *)
Record Conversation := mk_conversation {
  cv_inbound : list (option bytes);
  cv_outbound : list bytes;
  cv_sends : list (option bytes);
}.
Abbreviation Talk := (ST Conversation).

Definition read_handshake_frame : Talk bytes := λ cv,
  match cv_inbound cv with
  | Some frame :: rest =>
      let cv := mk_conversation rest (cv_outbound cv) (cv_sends cv) in
      if len frame <=? MAX_HANDSHAKE_BYTES then (cv, Ok frame)
      else (cv, Err (Protocol (bs "expected bounded binary handshake frame")))
  | None :: rest =>
      (mk_conversation rest (cv_outbound cv) (cv_sends cv), Err (Protocol (bs "expected bounded binary handshake frame")))
  | [] => (cv, Err (Protocol (bs "expected bounded binary handshake frame")))
  end.

Definition send_frame (frame : bytes) : Talk unit := λ cv,
  match cv_sends cv with
  | Some e :: sends => (mk_conversation (cv_inbound cv) (cv_outbound cv) sends, Err (Protocol e))
  | sends => (mk_conversation (cv_inbound cv) (cv_outbound cv ++ [frame]) (tail sends), Ok tt)
  end.

Section Handshake.
Context `{Crypto, UrlParser, Json NodeWsMessage} (show : bytes → bytes) (hex : byte → bytes) (display : AppError → bytes).

(** Sealing and opening within a conversation: the channel goes along. *)
Definition seal_message (message : NodeWsMessage) (c : Channel) : Talk (Channel * bytes) :=
  let '(c, sealed) := encode_message message c in frame ← lift sealed; mret (c, frame).
Definition open_message (frame : bytes) (c : Channel) : Talk (Channel * NodeWsMessage) :=
  let '(c, opened) := decode_message hex frame c in message ← lift opened; mret (c, message).
Definition map_err {A} (f : AppError → AppError) (m : Talk A) : Talk A := λ cv,
  match m cv with (cv, Err e) => (cv, Err (f e)) | r => r end.

(** *** The connecting side *)

Definition challenge_nonce (challenge : NodeWsMessage) : Talk bytes :=
  match challenge with
  | Challenge nonce => mret nonce
  | NodeError message => fail (bs "join rejected: " ++ message)
  | _ => fail (bs "expected freshness challenge, not success")
  end.

(** Up to the transcript that is signed. *)
Definition secondary_proof (seed : bytes) (join : PrimaryConnection) (primary secondary_nonce : bytes) : Talk bytes :=
  hello ← lift (encode_handshake (Hello FEDERATION_VERSION (pc_as_name join) (public_key_line seed) secondary_nonce));
  _ ← send_frame hello;
  frame ← read_handshake_frame;
  challenge ← lift (decode_handshake frame);
  primary_nonce ← challenge_nonce challenge;
  mret (build_transcript FEDERATION_VERSION (bs "secondary-proof") (pc_as_name join) (verifying_key seed) primary
          secondary_nonce primary_nonce).

(** From the proof on; the channel is returned as it is made and as it is at
    the end. *)
Definition secondary_confirm (seed primary transcript : bytes) : Talk (Channel * Channel) :=
  proof ← lift (encode_handshake (Join (sign_transcript seed transcript)));
  _ ← send_frame proof;
  made ← lift (Channel_new seed primary transcript true);
  let hash := ch_transcript_hash made in
  frame ← read_handshake_frame;
  confirmed ← map_err (λ err, Protocol (bs "primary identity confirmation failed; verify the configured pin: " ++ display err))
                (open_message frame made);
  let '(channel, confirmation) := (confirmed : Channel * NodeWsMessage) in
  match confirmation with
  | KeyConfirm transcript_hash =>
      if bytes_eqb transcript_hash hash then
        sealed ← seal_message (Ready hash) channel;
        let '(channel, ready) := (sealed : Channel * bytes) in
        _ ← send_frame ready;
        frame ← read_handshake_frame;
        acknowledged ← map_err (λ err, Protocol (bs "encrypted Joined verification failed: " ++ display err))
                         (open_message frame channel);
        let '(channel, acknowledgement) := (acknowledged : Channel * NodeWsMessage) in
        match acknowledgement with
        | Joined => mret (made, channel)
        | NodeError message => fail (bs "join rejected: " ++ message)
        | _ => fail (bs "expected encrypted Joined")
        end
      else fail (bs "expected encrypted primary key confirmation")
  | _ => fail (bs "expected encrypted primary key confirmation")
  end.

(** [seed]: the identity file; [connected]: the outcome of the connection. *)
Definition secondary_handshake (seed : result AppError bytes) (join : PrimaryConnection) (secondary_nonce : bytes)
    (connected : result bytes unit) : Talk Channel :=
  seed ← lift seed;
  primary ← lift (parse_public_key show (pc_key join));
  _ ← lift (match connected with Ok _ => Ok tt | Err e => Err (Protocol (bs "WebSocket connect failed: " ++ e)) end);
  transcript ← secondary_proof seed join primary secondary_nonce;
  '(_, channel) ← secondary_confirm seed primary transcript;
  mret channel.

(** *** The accepting side *)

Definition valid_hello_name (name : bytes) : bool :=
  negb ((len name =? 0) || (256 <? len name)
        || match utf8_decode name with Some cs => existsb is_control cs | None => false end).

Definition authorizes (key : bytes) (node : NodeConfig) : bool :=
  bool_decide (nc_role node = Secondary) && nc_enabled node && bytes_eqb (nc_key node) (to_line key).

(** What the handshake knows after the proof was demanded. *)
Record Challenged := mk_challenged {
  cg_name : bytes;
  cg_peer : bytes;
  cg_registered : option NodeConfig;
  cg_transcript : bytes;
}.

(** Up to the challenge: the configuration is looked up before it is sent. *)
Definition primary_challenge (seed : bytes) (lookup_node : bytes → result AppError (option NodeConfig)) (primary_nonce : bytes)
    : Talk Challenged :=
  frame ← read_handshake_frame;
  hello ← lift (decode_handshake frame);
  match hello with
  | Hello version name public_key nonce =>
      if negb (version =? FEDERATION_VERSION) then fail (bs "unsupported federation version")
      else if negb (valid_hello_name name) then fail (bs "invalid node name")
      else
        peer ← lift (parse_public_key show public_key);
        found ← lift (lookup_node name);
        let registered := node ← (found : option NodeConfig); if authorizes peer node then Some node else None in
        challenge ← lift (encode_handshake (Challenge primary_nonce));
        _ ← send_frame challenge;
        mret (mk_challenged name peer registered
                (build_transcript version (bs "secondary-proof") name peer (verifying_key seed) nonce primary_nonce))
  | _ => fail (bs "expected hello")
  end.

Definition primary_confirm (seed : bytes) (cg : Challenged) : Talk (NodeConfig * Channel * Channel) :=
  frame ← read_handshake_frame;
  join ← lift (decode_handshake frame);
  match join with
  | Join signature =>
      registered ← lift (ok_or (cg_registered cg) (Protocol (bs "unauthorized node identity or transcript")));
      if negb (verify_transcript (cg_peer cg) signature (cg_transcript cg))
      then fail (bs "unauthorized node identity or transcript")
      else
        made ← lift (Channel_new seed (cg_peer cg) (cg_transcript cg) false);
        let hash := ch_transcript_hash made in
        sealed ← seal_message (KeyConfirm hash) made;
        let '(channel, confirmation) := (sealed : Channel * bytes) in
        _ ← send_frame confirmation;
        frame ← read_handshake_frame;
        opened ← open_message frame channel;
        let '(channel, message) := (opened : Channel * NodeWsMessage) in
        match message with
        | Ready transcript_hash =>
            if bytes_eqb transcript_hash hash then mret (registered, made, channel)
            else fail (bs "expected encrypted readiness for this transcript")
        | _ => fail (bs "expected encrypted readiness for this transcript")
        end
  | _ => fail (bs "expected identity join proof")
  end.

Definition primary_handshake (seed : option bytes) (lookup_node : bytes → result AppError (option NodeConfig))
    (primary_nonce : bytes) : Talk (NodeConfig * Channel) :=
  seed ← lift (ok_or seed (Protocol (bs "node identity unavailable; federation disabled")));
  challenged ← primary_challenge seed lookup_node primary_nonce;
  '(registered, _, channel) ← primary_confirm seed challenged;
  mret (registered, channel).

End Handshake.

(** ** Agreement *)

Section Agreement.
Context `{CryptoLaws, UrlParser, Json NodeWsMessage} (show : bytes → bytes) (hex : byte → bytes) (display : AppError → bytes).

Lemma to_line_inj key key' : to_line key = to_line key' → key = key'.
Proof.
  unfold to_line. intros He%app_inv_head%app_inv_head. pose proof (base64_decodes key) as Hd. rewrite He, base64_decodes in Hd. congruence.
Qed.

Lemma parse_public_key_len input key :
  parse_public_key show input = Ok key → len key = 32 ∧ VerifyingKey_from_bytes key = Ok tt.
Proof.
  unfold parse_public_key. intros Hp.
  destruct (split_whitespace (trim input)) as [|tag [|encoded []]]; try done. destruct (bytes_eqb tag PUBKEY_TAG); [|done].
  destruct (b64_decode encoded) as [raw|]; [|done]. cbn [negb mbind result_bind] in Hp.
  destruct (len raw =? 32) eqn:El; [|done]. apply N.eqb_eq in El. cbn [negb] in Hp.
  destruct (VerifyingKey_from_bytes raw) as [[]|] eqn:Ev; [|done]. destruct (decompress raw); [|done].
  destruct (is_weak raw || _ || _); [done|]. by injection Hp as <-.
Qed.

Lemma transcript_field_inj f f' rest rest' :
  len f < 256 ^ 4 → len f' < 256 ^ 4 → transcript_field f ++ rest = transcript_field f' ++ rest' → f = f' ∧ rest = rest'.
Proof.
  unfold transcript_field. rewrite <- !app_assoc. intros Hf Hf' [Hl He]%app_inj_len; [|by rewrite !len_be_bytes].
  apply be_bytes_inj in Hl; [|done..]. by apply app_inj_len in He.
Qed.

(** The length prefixes make the transcript unambiguous. *)
Lemma build_transcript_inj v role name sp pp sn pn name' sp' pp' sn' pn' :
  len name <= 256 → len name' <= 256 →
  Forall (λ f : bytes, len f = 32) [sp; pp; sn; pn; sp'; pp'; sn'; pn'] →
  build_transcript v role name sp pp sn pn = build_transcript v role name' sp' pp' sn' pn' →
  name = name' ∧ sp = sp' ∧ pp = pp' ∧ sn = sn' ∧ pn = pn'.
Proof.
  intros Hn Hn' Hall He. repeat (apply Forall_cons in Hall as [? Hall]).
  unfold build_transcript in He. cbn [map concat] in He. rewrite !app_nil_r in He.
  do 5 apply app_inv_head in He.
  assert (256 < 256 ^ 4) by done. assert (32 < 256 ^ 4) by done.
  apply transcript_field_inj in He as [<- He]; [|lia..].
  do 3 (apply transcript_field_inj in He as [<- He]; [|lia..]).
  apply (f_equal (λ l, l ++ [])), transcript_field_inj in He as [<- _]; [done|lia..].
Qed.

(** A run of the connecting side with the pin of a validated configuration
    that got as far as signing a transcript. *)
Record proves (seed transcript : bytes) (join : PrimaryConnection) (primary nonce : bytes) : Prop := {
  pv_join : ∃ c, try_from show c = Ok join;
  pv_pin : parse_public_key show (pc_key join) = Ok primary;
  pv_nonce : len nonce = 32;
  pv_run : ∃ cv cv', secondary_proof seed join primary nonce cv = (cv', Ok transcript);
}.

(** A run of the accepting side that got as far as sealing its confirmation. *)
Record accepts (seed : bytes) (lookup_node : bytes → result AppError (option NodeConfig)) (nonce : bytes) (cg : Challenged)
    (node : NodeConfig) (made : Channel) : Prop := {
  ac_run : ∃ cv cv', primary_challenge show seed lookup_node nonce cv = (cv', Ok cg);
  ac_nonce : len nonce = 32;
  ac_registered : cg_registered cg = Some node;
  ac_proof : ∃ signature, verify_transcript (cg_peer cg) signature (cg_transcript cg) = true;
  ac_made : Channel_new seed (cg_peer cg) (cg_transcript cg) false = Ok made;
}.

(** The keys and directions of two channels are each other's. *)
Definition ends (c d : Channel) : Prop :=
  cs_key (ch_send c) = cs_key (ch_recv d) ∧ cs_key (ch_recv c) = cs_key (ch_send d)
  ∧ ch_send_aad c = ch_recv_aad d ∧ ch_recv_aad c = ch_send_aad d ∧ ch_transcript_hash c = ch_transcript_hash d.

Lemma mirrored_ends hash cs cp : mirrored hash cs cp → ends cs cp.
Proof. by intros (c2s & s2c & -> & ->). Qed.

Lemma validate_name_len name r : validate_name name = Ok r → len name <= 256.
Proof.
  unfold validate_name. intros Hv. apply N.le_ngt. intros Hlt%N.ltb_lt. by rewrite Hlt, orb_true_r in Hv.
Qed.

Lemma try_from_as_name c join : try_from show c = Ok join → len (pc_as_name join) <= 256.
Proof.
  unfold try_from. case_bool_decide as Hrole; [done|]. intros (c' & Hc & Hj)%result_bind_ok. injection Hj as <-. cbn [pc_as_name].
  unfold validate in Hc. apply result_bind_ok in Hc as (? & _ & Hc). apply result_bind_ok in Hc as (key & _ & Hc). cbn [nc_role] in Hc.
  change (nc_role (c <| nc_key := to_line key |>)) with (nc_role c) in Hc.
  destruct (nc_role c) eqn:Er; [|done]. apply result_bind_ok in Hc as (as_name & Ha & Hc). apply result_bind_ok in Hc as (u & Hv & Hc).
  apply result_bind_ok in Hc as (raw & _ & Hc). apply result_bind_ok in Hc as (url & _ & Hc). injection Hc as <-.
  cbn in *. destruct (nc_as_name c) as [n|]; [|done]. cbn in *. injection Ha as ->. by eapply validate_name_len.
Qed.

Lemma decode_handshake_typed frame m : decode_handshake frame = Ok m → well_typed m = true.
Proof.
  unfold decode_handshake, from_json. destruct (_ <? _); [done|]. destruct (from_slice frame) as [m'|]; [|done].
  cbn [mbind option_bind]. destruct (well_typed m') eqn:Et; [|done]. by intros [= <-].
Qed.

Lemma proves_transcript seed transcript join primary nonce :
  proves seed transcript join primary nonce →
  ∃ primary_nonce, len primary_nonce = 32 ∧ len (pc_as_name join) <= 256 ∧ len primary = 32
    ∧ transcript = build_transcript FEDERATION_VERSION (bs "secondary-proof") (pc_as_name join) (verifying_key seed) primary
                     nonce primary_nonce.
Proof.
  intros [[c Hc] Hpin _ (cv & cv' & Hrun)]. unfold secondary_proof in Hrun.
  apply st_bind_ok in Hrun as (cv1 & hello & _ & Hrun). apply st_bind_ok in Hrun as (cv2 & ? & _ & Hrun).
  apply st_bind_ok in Hrun as (cv3 & frame & _ & Hrun). apply st_bind_ok in Hrun as (cv4 & challenge & Hd & Hrun).
  apply st_bind_ok in Hrun as (cv5 & pn & Hn & Hrun). injection Hrun as _ <-. injection Hd as _ Hd.
  apply decode_handshake_typed in Hd. unfold challenge_nonce in Hn.
  destruct challenge; try done. injection Hn as _ ->. apply N.eqb_eq in Hd.
  exists pn. split_and!; [done|by eapply try_from_as_name|by eapply parse_public_key_len|done].
Qed.

Lemma challenge_transcript seed lookup_node np cv cv' cg :
  primary_challenge show seed lookup_node np cv = (cv', Ok cg) →
  ∃ nonce, len nonce = 32 ∧ len (cg_name cg) <= 256 ∧ len (cg_peer cg) = 32 ∧ VerifyingKey_from_bytes (cg_peer cg) = Ok tt
    ∧ cg_transcript cg = build_transcript FEDERATION_VERSION (bs "secondary-proof") (cg_name cg) (cg_peer cg) (verifying_key seed)
                           nonce np
    ∧ ∀ node, cg_registered cg = Some node →
        lookup_node (cg_name cg) = Ok (Some node) ∧ nc_role node = Secondary ∧ nc_enabled node = true
        ∧ nc_key node = to_line (cg_peer cg).
Proof.
  unfold primary_challenge. intros Hr. apply st_bind_ok in Hr as (cv1 & frame & _ & Hr).
  apply st_bind_ok in Hr as (cv2 & hello & Hd & Hr). injection Hd as _ Hd. apply decode_handshake_typed in Hd.
  destruct hello as [version name public_key nonce| | | | | | | | | | | | | |]; try done.
  cbn [well_typed] in Hd. apply andb_true_iff in Hd as [_ Hd%N.eqb_eq].
  destruct (version =? FEDERATION_VERSION) eqn:Ev; [|done]. apply N.eqb_eq in Ev as ->. cbn [negb] in Hr.
  destruct (valid_hello_name name) eqn:Hname; [|done]. cbn [negb] in Hr.
  apply st_bind_ok in Hr as (cv3 & peer & Hp & Hr). injection Hp as _ Hp.
  apply st_bind_ok in Hr as (cv4 & found & Hf & Hr). injection Hf as _ Hf.
  apply st_bind_ok in Hr as (cv5 & challenge & _ & Hr). apply st_bind_ok in Hr as (cv6 & ? & _ & Hr). injection Hr as _ <-.
  cbn [cg_name cg_peer cg_registered cg_transcript]. apply parse_public_key_len in Hp as [Hlen Hok]. exists nonce.
  split_and!; try done.
  - unfold valid_hello_name in Hname. apply N.le_ngt. intros Hlt%N.ltb_lt. by rewrite Hlt, orb_true_r in Hname.
  - intros node. destruct found as [node'|]; [|done]. cbn [mbind option_bind]. unfold authorizes.
    destruct (bool_decide _ && _ && _) eqn:Ea; [|done]. intros [= ->].
    apply andb_true_iff in Ea as [[Hr%bool_decide_eq_true He]%andb_true_iff Hk%bool_decide_eq_true]. done.
Qed.

(** What a finished run of the accepting side went through. *)
Lemma primary_confirm_ok seed cg cv cv' node made channel :
  primary_confirm hex seed cg cv = (cv', Ok (node, made, channel)) →
  cg_registered cg = Some node
  ∧ (∃ signature, verify_transcript (cg_peer cg) signature (cg_transcript cg) = true)
  ∧ Channel_new seed (cg_peer cg) (cg_transcript cg) false = Ok made
  ∧ ∃ ready c1 c2 frame1, encode_message (KeyConfirm (ch_transcript_hash made)) made = (c1, Ok frame1)
    ∧ decode_message hex ready c1 = (c2, Ok (Ready (ch_transcript_hash made))) ∧ channel = c2.
Proof.
  unfold primary_confirm. intros Hr. apply st_bind_ok in Hr as (cv1 & frame & _ & Hr).
  apply st_bind_ok in Hr as (cv2 & join & _ & Hr). destruct join; try done.
  apply st_bind_ok in Hr as (cv3 & registered & Hreg & Hr). injection Hreg as _ Hreg.
  destruct (cg_registered cg) as [node'|]; [|done]. injection Hreg as ->.
  destruct (verify_transcript (cg_peer cg) signature (cg_transcript cg)) eqn:Hv; [|done]. cbn [negb] in Hr.
  apply st_bind_ok in Hr as (cv4 & made' & Hm & Hr). injection Hm as _ Hm.
  apply st_bind_ok in Hr as (cv5 & [c1 confirmation] & Hs & Hr). apply st_bind_ok in Hr as (cv6 & ? & _ & Hr).
  apply st_bind_ok in Hr as (cv7 & ready & _ & Hr). apply st_bind_ok in Hr as (cv8 & [c2 message] & Ho & Hr).
  destruct message; try done. destruct (bytes_eqb transcript_hash (ch_transcript_hash made')) eqn:Eh; [|done].
  apply bool_decide_eq_true in Eh as ->. injection Hr as _ <- <- <-. split_and!; [done|by eexists|done|].
  unfold seal_message in Hs. destruct (encode_message _ made') as [c1' sealed] eqn:Es.
  apply st_bind_ok in Hs as (? & ? & Hl & Hs). injection Hl as _ ->. injection Hs as _ -> ->.
  unfold open_message in Ho. destruct (decode_message hex ready c1) as [c2' opened] eqn:Eo.
  apply st_bind_ok in Ho as (? & ? & Hl & Ho). injection Hl as _ ->. injection Ho as _ -> ->.
  by exists ready, c1, c2, confirmation.
Qed.

(** Sealing and opening keep keys and directions. *)
Lemma encode_ends payload c d c' r : ends d c → encode payload c = (c', r) → ends d c'.
Proof.
  intros (Ha & Hb & Hc & Hd & Hf) He. pose proof (encode_spec payload c) as Hs. rewrite He in Hs.
  unfold ends. inversion Hs; subst; cbn; split_and!; try done. congruence.
Qed.
Lemma decode_ends {T} (parse : bytes → result AppError T) frame c d c' r :
  ends d c → decode hex frame parse c = (c', r) → ends d c'.
Proof.
  intros (Ha & Hb & Hc & Hd & Hf) He. pose proof (decode_spec hex parse frame c) as Hs. rewrite He in Hs.
  unfold ends. inversion Hs; subst; cbn; split_and!; try done. congruence.
Qed.

Lemma Channel_new_made seed peer transcript secondary :
  VerifyingKey_from_bytes peer = Ok tt →
  (∃ keys, derive_channel_keys (to_scalar_bytes seed) (to_montgomery peer) transcript (verifying_key seed) peer = Ok keys) →
  ∃ c, Channel_new seed peer transcript secondary = Ok c.
Proof. intros Hv [keys Hk]. unfold Channel_new. rewrite Hv, Hk. destruct secondary; by eexists. Qed.
Lemma Channel_new_keys seed peer transcript secondary c :
  Channel_new seed peer transcript secondary = Ok c →
  ∃ keys, derive_channel_keys (to_scalar_bytes seed) (to_montgomery peer) transcript (verifying_key seed) peer = Ok keys.
Proof.
  unfold Channel_new. destruct (VerifyingKey_from_bytes peer); [|done]. intros (keys & Hk & _)%result_bind_ok. by exists keys.
Qed.
Lemma Channel_new_hash seed peer transcript secondary c :
  Channel_new seed peer transcript secondary = Ok c →
  ch_transcript_hash c = Sha256 transcript
  ∧ ch_send_aad c = context (Sha256 transcript) (direction secondary)
  ∧ ch_recv_aad c = context (Sha256 transcript) (direction (negb secondary)).
Proof.
  unfold Channel_new. destruct (VerifyingKey_from_bytes peer); [|done]. intros (keys & _ & Hc)%result_bind_ok.
  destruct secondary; by injection Hc as <-.
Qed.

(** Two transcripts of one handshake name the same parties and nonces. *)
Lemma transcripts_agree name name' sp pp sn pn sp' pp' sn' pn' :
  len name <= 256 → len name' <= 256 →
  len sp = 32 → len pp = 32 → len sn = 32 → len pn = 32 → len sp' = 32 → len pp' = 32 → len sn' = 32 → len pn' = 32 →
  build_transcript FEDERATION_VERSION (bs "secondary-proof") name sp pp sn pn
  = build_transcript FEDERATION_VERSION (bs "secondary-proof") name' sp' pp' sn' pn' →
  name = name' ∧ sp = sp' ∧ pp = pp' ∧ sn = sn' ∧ pn = pn'.
Proof. intros. eapply build_transcript_inj; [done|done| |done]. by repeat constructor. Qed.

(** C36: A daemon that accepts a join from a registered node accepts the node: if
    only the holder of the registered key can sign with it, then that node ran
    the connecting side with this daemon's key pinned, advertising the name
    that was looked up and answering the challenge of this very run, and the
    two hold the two ends of one channel. *)
Theorem accepting_agrees p s lookup_node np cv cv' node channel :
  primary_handshake show hex (Some p) lookup_node np cv = (cv', Ok (node, channel)) →
  len np = 32 → nc_key node = to_line (verifying_key s) →
  (∀ message signature, verify_strict (verifying_key s) message signature = true →
     ∃ join primary nonce, proves s message join primary nonce) →
  ∃ join nonce transcript made,
    proves s transcript join (verifying_key p) nonce
    ∧ lookup_node (pc_as_name join) = Ok (Some node) ∧ nc_role node = Secondary ∧ nc_enabled node = true
    ∧ transcript = build_transcript FEDERATION_VERSION (bs "secondary-proof") (pc_as_name join) (verifying_key s) (verifying_key p) nonce np
    ∧ Channel_new s (verifying_key p) transcript true = Ok made ∧ ends made channel.
Proof.
  intros Hr Hnp Hkey Hunforged. unfold primary_handshake in Hr. apply st_bind_ok in Hr as (cv1 & seed & Hs & Hr). injection Hs as _ <-.
  apply st_bind_ok in Hr as (cv2 & cg & Hc & Hr). apply st_bind_ok in Hr as (cv3 & [[node' made] channel'] & Hk & Hr).
  injection Hr as _ <- <-. apply challenge_transcript in Hc as (nonce & Hn & Hname & Hpeer & Hok & Ht & Hreg).
  apply primary_confirm_ok in Hk as (Hrn & [sig Hsig] & Hmade & ready & c1 & c2 & frame1 & He & Hd & ->).
  destruct (Hreg _ Hrn) as (Hl & Hrole & Hen & Hk). rewrite Hk in Hkey. apply to_line_inj in Hkey. rewrite Hkey in *.
  unfold verify_transcript in Hsig. destruct (b64_decode sig) as [raw|]; [|done].
  apply andb_true_iff in Hsig as [_ Hsig]. destruct (Hunforged _ _ Hsig) as (join & primary & nonce' & Hp).
  pose proof Hp as [_ Hpin Hn' _]. destruct (proves_transcript _ _ _ _ _ Hp) as (pn & Hpn & Has & Hprim & Ht').
  rewrite Ht in Ht'. apply transcripts_agree in Ht' as (Hnames & _ & <- & <- & <-); try done; try apply verifying_key_len.
  rewrite Hnames in *.
  destruct (Channel_new_keys _ _ _ _ _ Hmade) as [keys Hkeys]. rewrite <- derive_agrees in Hkeys.
  destruct (Channel_new_made s (verifying_key p) (cg_transcript cg) true) as [made' Hmade'];
    [by eapply parse_public_key_len|by eexists|].
  exists join, nonce, (cg_transcript cg), made'. split_and!; try done.
  eapply decode_ends, Hd. eapply encode_ends, He. eapply mirrored_ends, channels_mirror; done.
Qed.

(** What a finished run of the connecting side went through. *)
Lemma secondary_confirm_ok seed primary transcript cv cv' made channel :
  secondary_confirm hex display seed primary transcript cv = (cv', Ok (made, channel)) →
  Channel_new seed primary transcript true = Ok made
  ∧ ∃ frame c1, decode_message hex frame made = (c1, Ok (KeyConfirm (ch_transcript_hash made))).
Proof.
  unfold secondary_confirm. intros Hr. apply st_bind_ok in Hr as (cv1 & proof & _ & Hr). apply st_bind_ok in Hr as (cv2 & ? & _ & Hr).
  apply st_bind_ok in Hr as (cv3 & made' & Hm & Hr). injection Hm as _ Hm.
  apply st_bind_ok in Hr as (cv4 & frame & _ & Hr). apply st_bind_ok in Hr as (cv5 & [c1 confirmation] & Ho & Hr).
  unfold map_err, open_message in Ho. destruct (decode_message hex frame made') as [c1' opened] eqn:Eo.
  destruct opened as [m|e]; [|done]. injection Ho as _ -> ->.
  destruct confirmation; try done. destruct (bytes_eqb transcript_hash (ch_transcript_hash made')) eqn:Eh; [|done].
  apply bool_decide_eq_true in Eh as ->.
  assert (made = made') as ->; [|split; [done|]; by exists frame, c1].
  apply st_bind_ok in Hr as (cv6 & [c2 ready] & _ & Hr). apply st_bind_ok in Hr as (cv7 & ? & _ & Hr).
  apply st_bind_ok in Hr as (cv8 & frame2 & _ & Hr). apply st_bind_ok in Hr as (cv9 & [c3 ack] & _ & Hr).
  destruct ack; try done. by injection Hr as _ <- <-.
Qed.

(** A daemon that connects to the primary whose key it pinned reaches that
    primary: if only runs of the primary seal what opens under its key of this
    connection, and their transcripts do not collide with this one, then the
    primary went through the accepting side with the same nonces, had the
    advertised name registered, enabled, with this daemon's key, and verified
    its proof, before this side said that it is connected. *)
Theorem connecting_agrees s p join nonce transcript cv cv' made channel :
  proves s transcript join (verifying_key p) nonce →
  secondary_confirm hex display s (verifying_key p) transcript cv = (cv', Ok (made, channel)) →
  (∀ ct plain,
     Aes256Gcm_decrypt (cs_key (ch_recv made)) (nonce_for 0) (frame_aad (ch_recv_aad made) 0) ct = Some plain →
     ∃ lookup_node np cg node made',
       accepts p lookup_node np cg node made' ∧ frame_aad (ch_recv_aad made) 0 = frame_aad (ch_send_aad made') 0
       ∧ (Sha256 (cg_transcript cg) = Sha256 transcript → cg_transcript cg = transcript)) →
  ∃ lookup_node np cg node made',
    accepts p lookup_node np cg node made'
    ∧ cg_transcript cg = transcript
    ∧ cg_name cg = pc_as_name join ∧ cg_peer cg = verifying_key s
    ∧ lookup_node (pc_as_name join) = Ok (Some node) ∧ nc_role node = Secondary ∧ nc_enabled node = true
    ∧ nc_key node = to_line (verifying_key s)
    ∧ ends made made'.
Proof.
  intros Hp Hr Hsealed. pose proof (proves_transcript _ _ _ _ _ Hp) as (pn & Hpn & Has & Hprim & Ht).
  apply secondary_confirm_ok in Hr as (Hmade & frame & c1 & Hd).
  pose proof (decode_spec hex decode_node_ws_payload frame made) as Hs. unfold decode_message in Hd. rewrite Hd in Hs.
  inversion Hs as [plain t _ _ _ Hdec _|]; subst t.
  destruct (Channel_new_hash _ _ _ _ _ Hmade) as (_ & _ & Hraad).
  assert (cs_recv_seq (ch_recv made) = 0) as Hz.
  { revert Hmade. unfold Channel_new. destruct (VerifyingKey_from_bytes _); [|done].
    intros (keys & _ & Hc)%result_bind_ok. by injection Hc as <-. }
  rewrite Hz in Hdec. destruct (Hsealed _ _ Hdec) as (lookup_node & np & cg & node & made' & Hacc & Haad & Hcoll).
  pose proof Hacc as [(cv1 & cv2 & Hrun) Hnp Hreg _ Hmade'].
  destruct (challenge_transcript _ _ _ _ _ _ Hrun) as (nonce' & Hn' & Hname & Hpeer & _ & Ht' & Hauth).
  destruct (Channel_new_hash _ _ _ _ _ Hmade') as (_ & Hsaad & _).
  assert (cg_transcript cg = transcript) as Hsame.
  { apply Hcoll. rewrite Hraad, Hsaad in Haad. eapply context_hash_inj; [apply sha256_len|apply sha256_len|]. by symmetry. }
  pose proof Hp as [_ _ Hnonce _].
  assert (cg_name cg = pc_as_name join ∧ cg_peer cg = verifying_key s ∧ verifying_key p = verifying_key p ∧ nonce' = nonce ∧ np = pn)
    as (Hnm & Hpr & _).
  { apply transcripts_agree; try done; try apply verifying_key_len. by rewrite <- Ht', <- Ht. }
  destruct (Hauth _ Hreg) as (Hl & Hrole & Hen & Hk). rewrite Hpr in *. rewrite Hnm in Hl.
  exists lookup_node, np, cg, node, made'. split_and!; try done.
  rewrite Hsame in Hmade'. eapply mirrored_ends, channels_mirror; done.
Qed.

End Agreement.

(** ** The registry *)

(** What is connected under a name: the generation that may remove it, and the
    join whose channels the handle is. *)
Record RegisteredNode := mk_registered { rn_generation : bytes; rn_join : nat }.

(** Where a join is: before its configuration is looked up, with the
    challenge sent, past the handshake, registered, over. *)
Inductive JoinPhase :=
  | Greeting
  | Proving (peer : bytes) (captured : option NodeConfig)
  | Confirmed (authorized : NodeConfig)
  | Connected (authorized : NodeConfig) (generation : bytes)
  | Closed.

(** A join with the receiving end of its stop channel. *)
Record JoinTask := mk_join { jn_ip : N; jn_phase : JoinPhase; jn_stopped : bool }.

Inductive NodeStatus := NodeConnected | NodeConnecting | NodeRetrying | NodeWaiting | NodeDisabled.
#[export] Instance NodeStatus_eq_dec : EqDecision NodeStatus.
Proof. solve_decision. Defined.
Record ConnectorState := mk_connector_state { ct_status : NodeStatus; ct_last_error : option bytes; ct_next_retry_at : option N }.
Record NodeSummary := mk_node_summary { su_config : NodeConfig; su_state : ConnectorState }.

(** The [NodeState] events. *)
Record NodeEvent := mk_node_event { ne_node : bytes; ne_connected : bool }.

Abbreviation by_ip A := (gmap N A).

(** The nodes table, the outbound connectors, [NodeRegistry] and the joins. *)
Record NodesState := mk_nodes {
  ns_rows : by_id NodeConfig;
  ns_connectors : by_id PrimaryConnection;
  ns_nodes : by_id RegisteredNode;
  ns_failures : by_ip (N * N);
  ns_joins : list JoinTask;
  ns_events : list NodeEvent;
}.
#[export] Instance NodesState_eta : Settable NodesState := λ s,
  mk_nodes (ns_rows s) (ns_connectors s) (ns_nodes s) (ns_failures s) (ns_joins s) (ns_events s).

Definition JOIN_FAILURE_WINDOW : N := 60000.
Definition MAX_JOIN_FAILURES : N := 8.
Definition MAX_JOIN_ADDRESSES : N := 1024.

Definition announce (name : bytes) (connected : bool) (s : NodesState) : NodesState :=
  s <| ns_events := ns_events s ++ [mk_node_event name connected] |>.

Definition connect (name : bytes) (join : nat) (generation : bytes) : ST NodesState bytes := λ s,
  match ns_nodes s !! name with
  | Some _ => (s, Err (Protocol (bs "name '" ++ name ++ bs "' is already connected")))
  | None => (announce name true (s <| ns_nodes := <[name := mk_registered generation join]> (ns_nodes s) |>), Ok generation)
  end.

Definition disconnect (name generation : bytes) (s : NodesState) : NodesState :=
  match ns_nodes s !! name with
  | Some node =>
      if bytes_eqb (rn_generation node) generation
      then announce name false (s <| ns_nodes := delete name (ns_nodes s) |>)
      else s
  | None => s
  end.

Definition stop_join (i : nat) (s : NodesState) : NodesState :=
  s <| ns_joins := alter (λ j, mk_join (jn_ip j) (jn_phase j) true) i (ns_joins s) |>.

Definition revoke (name : bytes) (s : NodesState) : NodesState :=
  match ns_nodes s !! name with
  | Some node => announce name false (stop_join (rn_join node) (s <| ns_nodes := delete name (ns_nodes s) |>))
  | None => s
  end.

(** [failures.retain]: times are milliseconds. *)
Definition recent (now : N) (failures : by_ip (N * N)) : by_ip (N * N) :=
  filter (λ f, now - f.2.1 < JOIN_FAILURE_WINDOW) failures.

Definition join_rate_limited (ip now : N) (s : NodesState) : NodesState * bool :=
  let failures := recent now (ns_failures s) in
  (s <| ns_failures := failures |>,
   match failures !! ip with Some (_, count) => MAX_JOIN_FAILURES <=? count | None => false end
   || ((MAX_JOIN_ADDRESSES <=? N.of_nat (size failures)) && is_none (failures !! ip))).

Definition record_join_failure (ip now : N) (s : NodesState) : NodesState :=
  let failures := recent now (ns_failures s) in
  let failures :=
    if (N.of_nat (size failures) <? MAX_JOIN_ADDRESSES) || negb (is_none (failures !! ip)) then
      let '(start, count) := default (now, 0) (failures !! ip) in
      <[ip := (start, N.min (count + 1) u32_max)]> failures
    else failures in
  s <| ns_failures := failures |>.

Section Manager.
Context `{Crypto, UrlParser} (show : bytes → bytes).

(** ** Management requests *)

(** What the world answers: the errors of the queries and of the write, the
    states of the connectors, and the identifier drawn for a revision. *)
Record ManagerWorld := mk_manager_world {
  mw_get : option bytes;
  mw_write : option bytes;
  mw_connector_state : bytes → ConnectorState;
  mw_uuid : bytes;
}.

Definition manager_stop (name : bytes) (s : NodesState) : NodesState :=
  revoke name (s <| ns_connectors := delete name (ns_connectors s) |>).

Definition reconcile (c : NodeConfig) : ST NodesState unit := λ s,
  let s := manager_stop (nc_name c) s in
  if nc_enabled c && bool_decide (nc_role c = Primary) then
    match try_from show c with
    | Err e => (s, Err e)
    | Ok join => (s <| ns_connectors := <[nc_name c := join]> (ns_connectors s) |>, Ok tt)
    end
  else (s, Ok tt).

Definition summary (w : ManagerWorld) (c : NodeConfig) (s : NodesState) : NodeSummary :=
  mk_node_summary c
    (if nc_enabled c then
       match nc_role c with
       | Primary =>
           match ns_connectors s !! nc_name c with
           | Some _ => mw_connector_state w (nc_name c)
           | None => mk_connector_state NodeRetrying (Some (bs "outbound connector is not running")) None
           end
       | Secondary =>
           match ns_nodes s !! nc_name c with
           | Some _ => mk_connector_state NodeConnected None None
           | None => mk_connector_state NodeWaiting None None
           end
       end
     else mk_connector_state NodeDisabled None None).

Definition query {A} (f : by_id NodeConfig → result AppError A) : ST NodesState A := λ s, (s, f (ns_rows s)).
Definition write (f : by_id NodeConfig → by_id NodeConfig * result AppError unit) : ST NodesState unit := λ s,
  let '(rows, r) := f (ns_rows s) in (s <| ns_rows := rows |>, r).
Definition answer (w : ManagerWorld) (c : NodeConfig) : ST NodesState (option NodeSummary) := λ s, (s, Ok (Some (summary w c s))).

Definition require (w : ManagerWorld) (name : bytes) : ST NodesState NodeConfig :=
  found ← query (get_node show (mw_get w) name);
  lift (ok_or found (Protocol (bs "node not found: " ++ name))).

(** Persist a new version under a new revision, then restart what depends on
    it. *)
Definition persist (w : ManagerWorld) (c : NodeConfig) : ST NodesState NodeConfig :=
  let c := c <| nc_revision := mw_uuid w |> in
  _ ← write (update_node (mw_write w) c);
  _ ← reconcile c;
  mret c.

(** The requests about one node; the list of all of them changes nothing. *)
Inductive NodeRequest :=
  | NodeInfo (name : bytes)
  | NodeAdd (config : NodeConfig)
  | NodeUpdateReq (name : bytes) (update : NodeUpdate)
  | NodeSetEnabled (name : bytes) (enabled : bool)
  | NodeRemove (name : bytes).

Definition stopped (name : bytes) : ST NodesState (option NodeSummary) := λ s, (manager_stop name s, Ok None).

(** [None] is the bare acknowledgement. *)
Definition handle (request : NodeRequest) (w : ManagerWorld) : ST NodesState (option NodeSummary) :=
  match request with
  | NodeInfo name => c ← require w name; answer w c
  | NodeAdd config =>
      c ← lift (validate show (config <| nc_enabled := true |>));
      found ← query (get_node show (mw_get w) (nc_name c));
      match (found : option NodeConfig) with
      | Some _ => fail (bs "node '" ++ nc_name c ++ bs "' already exists; use node update")
      | None =>
          let c := c <| nc_revision := mw_uuid w |> in
          _ ← write (insert_node (mw_write w) c);
          _ ← reconcile c;
          answer w c
      end
  | NodeUpdateReq name update =>
      previous ← require w name;
      c ← lift (apply_update show update previous);
      if bool_decide (c = previous) then answer w c
      else c ← persist w c; answer w c
  | NodeSetEnabled name enabled =>
      c ← require w name;
      if eqb (nc_enabled c) enabled then answer w c
      else c ← persist w (c <| nc_enabled := enabled |>); answer w c
  | NodeRemove name =>
      _ ← require w name;
      _ ← write (remove_node (mw_write w) name);
      stopped name
  end.

(** ** Joins *)

Definition set_phase (i : nat) (phase : JoinPhase) (s : NodesState) : NodesState :=
  s <| ns_joins := alter (λ j, mk_join (jn_ip j) phase (jn_stopped j)) i (ns_joins s) |>.

Definition join_handler (ip now : N) (s : NodesState) : NodesState :=
  let '(s, limited) := join_rate_limited ip now s in
  if limited : bool then s else s <| ns_joins := ns_joins s ++ [mk_join ip Greeting false] |>.

(** The registration under the configuration lock. *)
Definition register (i : nat) (authorized : NodeConfig) (err : option bytes) (uuid : bytes) : ST NodesState bytes :=
  found ← query (get_node show err (nc_name authorized));
  if bool_decide (found = Some authorized) then connect (nc_name authorized) i uuid
  else fail (bs "node authorization changed during handshake").

(** The steps of the daemon: a management request holds the lock from its
    first query to its answer; a join is one step per awaited part.  [err] is
    the failure of a query; a failed, late or interrupted part of the
    handshake is [HandshakeFails]; [RelayEnds] is the end of a connection for
    whatever reason, a stop among them. *)
Inductive NodesOp :=
  | Manage (request : NodeRequest) (w : ManagerWorld)
  | Arrive (ip now : N)
  | LookUp (i : nat) (name peer : bytes) (err : option bytes)
  | HandshakeEnds (i : nat)
  | HandshakeFails (i : nat) (now : N)
  | Register (i : nat) (err : option bytes) (uuid : bytes)
  | RelayEnds (i : nat).

Definition nodes_step (op : NodesOp) (s : NodesState) : NodesState :=
  match op with
  | Manage request w => (handle request w s).1
  | Arrive ip now => join_handler ip now s
  | LookUp i name peer err =>
      match jn_phase <$> ns_joins s !! i, get_node show err name (ns_rows s) with
      | Some Greeting, Ok found =>
          set_phase i (Proving peer (node ← found; if authorizes peer node then Some node else None)) s
      | _, _ => s
      end
  | HandshakeEnds i =>
      match jn_phase <$> ns_joins s !! i with
      | Some (Proving _ (Some node)) => set_phase i (Confirmed node) s
      | _ => s
      end
  | HandshakeFails i now =>
      match ns_joins s !! i with
      | Some j =>
          match jn_phase j with
          | Greeting | Proving _ _ => record_join_failure (jn_ip j) now (set_phase i Closed s)
          | _ => s
          end
      | None => s
      end
  | Register i err uuid =>
      match jn_phase <$> ns_joins s !! i with
      | Some (Confirmed authorized) =>
          match register i authorized err uuid s with
          | (s, Ok generation) => set_phase i (Connected authorized generation) s
          | (s, Err _) => set_phase i Closed s
          end
      | _ => s
      end
  | RelayEnds i =>
      match jn_phase <$> ns_joins s !! i with
      | Some (Connected authorized generation) =>
          disconnect (nc_name authorized) generation (set_phase i Closed s)
      | _ => s
      end
  end.
Definition nodes_run (ops : list NodesOp) (s : NodesState) : NodesState := fold_left (λ s op, nodes_step op s) ops s.

End Manager.

(** ** Who is connected *)

Section Registry.
Context `{Crypto, UrlParser} (show : bytes → bytes).

#[local] Abbreviation nodes_step := (nodes_step show).
#[local] Abbreviation nodes_run := (nodes_run show).

Lemma config_validate_keeps c c' :
  validate show c = Ok c' → nc_name c' = nc_name c ∧ nc_revision c' = nc_revision c.
Proof.
  unfold validate. intros Hv. apply result_bind_ok in Hv as (? & _ & Hv). apply result_bind_ok in Hv as (key & _ & Hv).
  change (nc_role (c <| nc_key := to_line key |>)) with (nc_role c) in Hv. destruct (nc_role c).
  - apply result_bind_ok in Hv as (? & _ & Hv). apply result_bind_ok in Hv as (? & _ & Hv).
    apply result_bind_ok in Hv as (? & _ & Hv). apply result_bind_ok in Hv as (? & _ & Hv). by injection Hv as <-.
  - destruct (_ || _); [done|]. by injection Hv as <-.
Qed.

Lemma get_node_row err name rows c :
  get_node show err name rows = Ok (Some c) →
  err = None ∧ ∃ row, rows !! name = Some row ∧ validate show row = Ok c.
Proof.
  unfold get_node. destruct err; [done|]. destruct (rows !! name) as [row|]; [|done].
  intros (c' & Hv & Hc)%result_bind_ok. injection Hc as ->. split; [done|]. by exists row.
Qed.

Lemma get_node_ext err name rows rows' :
  rows !! name = rows' !! name → get_node show err name rows = get_node show err name rows'.
Proof. unfold get_node. by intros ->. Qed.

(** A join's configuration from the look-up on. *)
Definition held_config (p : JoinPhase) : option NodeConfig :=
  match p with
  | Proving _ captured => captured
  | Confirmed c | Connected c _ => Some c
  | Greeting | Closed => None
  end.
Definition pending (p : JoinPhase) : Prop :=
  match p with Greeting | Proving _ _ | Confirmed _ => True | Connected _ _ | Closed => False end.

(** What a request that was carried out changes: one row, which gets the new
    revision or goes, and whatever was connected under its name. *)
Record changed (name uuid : bytes) (s s' : NodesState) : Prop := {
  cg_others other : other ≠ name → ns_rows s' !! other = ns_rows s !! other;
  cg_row r : ns_rows s' !! name = Some r → nc_name r = name ∧ nc_revision r = uuid;
  cg_nodes : ns_nodes s' = delete name (ns_nodes s);
  cg_joins : ns_joins s' = match ns_nodes s !! name with
                           | Some node => alter (λ j, mk_join (jn_ip j) (jn_phase j) true) (rn_join node) (ns_joins s)
                           | None => ns_joins s
                           end;
}.
Definition same_view (s s' : NodesState) : Prop :=
  ns_rows s' = ns_rows s ∧ ns_nodes s' = ns_nodes s ∧ ns_joins s' = ns_joins s.

Definition filed (s : NodesState) : Prop := ∀ k r, ns_rows s !! k = Some r → nc_name r = k.

Lemma changed_view name uuid s s1 s2 : changed name uuid s s1 → same_view s1 s2 → changed name uuid s s2.
Proof. intros [Ho Hr Hn Hj] (E1 & E2 & E3). split; by rewrite ?E1, ?E2, ?E3. Qed.

Lemma manager_stop_changes name uuid rows s :
  (∀ other, other ≠ name → rows !! other = ns_rows s !! other) →
  (∀ row, rows !! name = Some row → nc_name row = name ∧ nc_revision row = uuid) →
  changed name uuid s (manager_stop name (s <| ns_rows := rows |>)).
Proof.
  intros Ho Hr. unfold manager_stop, revoke.
  change (ns_nodes (_ <| ns_connectors := _ |>)) with (ns_nodes s).
  destruct (ns_nodes s !! name) as [node|] eqn:En; split; cbn; rewrite ?En; try done. by rewrite delete_id.
Qed.

Lemma reconcile_changes c uuid rows s s' r :
  (∀ other, other ≠ nc_name c → rows !! other = ns_rows s !! other) →
  (∀ row, rows !! nc_name c = Some row → nc_name row = nc_name c ∧ nc_revision row = uuid) →
  reconcile show c (s <| ns_rows := rows |>) = (s', r) → changed (nc_name c) uuid s s'.
Proof.
  intros Ho Hr Hrec. eapply changed_view; [by apply (manager_stop_changes _ uuid rows)|]. revert Hrec. unfold reconcile.
  case_match; [|by intros [= <- <-]]. by case_match; intros [= <- <-].
Qed.

Lemma require_same w name s s' r : require show w name s = (s', r) → s' = s ∧ (∀ c, r = Ok c → ∃ row, ns_rows s !! name = Some row ∧ validate show row = Ok c).
Proof.
  unfold require, query, mbind, st_bind, lift. destruct (get_node show (mw_get w) name (ns_rows s)) as [[c|]|] eqn:Eg; cbn;
    intros [= <- <-]; (split; [done|]); try done. intros ? [= <-]. by apply get_node_row in Eg as [_ Hrow].
Qed.

Lemma persist_changes w c s s' r :
  filed s → persist show w c s = (s', r) → same_view s s' ∨ changed (nc_name c) (mw_uuid w) s s'.
Proof.
  intros Hf. unfold persist, write, mbind, st_bind.
  destruct (update_node (mw_write w) _ (ns_rows s)) as [rows written] eqn:Eu. unfold update_node in Eu.
  destruct (mw_write w); [injection Eu as <- <-; intros [= <- <-]; by left|].
  destruct (unique_key _ _ _); [|injection Eu as <- <-; intros [= <- <-]; by left]. injection Eu as <- <-.
  match goal with |- context [reconcile show ?c0 ?s0] => destruct (reconcile show c0 s0) as [s1 r1] eqn:Er end.
  apply (reconcile_changes _ (mw_uuid w)) in Er.
  - intros Hres. right. destruct r1; by injection Hres as <- <-.
  - intros other Hne. by rewrite lookup_alter_ne.
  - intros row. rewrite lookup_alter_eq. destruct (ns_rows s !! _) as [row0|] eqn:E0; [|done]. cbn. intros [= <-].
    split; [|done]. by apply Hf in E0.
Qed.

Lemma handle_changes request w s s' r :
  filed s → handle show request w s = (s', r) → same_view s s' ∨ ∃ name, changed name (mw_uuid w) s s'.
Proof.
  intros Hf. destruct request as [name|config|name update|name enabled|name]; cbn [handle].
  - unfold mbind, st_bind. destruct (require show w name s) as [s1 r1] eqn:Er. apply require_same in Er as [-> _].
    destruct r1; intros [= <- <-]; by left.
  - unfold mbind at 1, st_bind at 1, lift at 1. destruct (validate show _) as [c|]; [|intros [= <- <-]; by left].
    unfold mbind at 1, st_bind at 1, query. destruct (get_node show _ _ _) as [[c0|]|]; [intros [= <- <-]; by left| |intros [= <- <-]; by left].
    unfold mbind at 1, st_bind at 1, write.
    destruct (insert_node (mw_write w) _ (ns_rows s)) as [rows written] eqn:Ei. unfold insert_node in Ei.
    destruct (mw_write w); [injection Ei as <- <-; intros [= <- <-]; by left|].
    destruct (negb _); [injection Ei as <- <-; intros [= <- <-]; by left|].
    destruct (unique_key _ _ _); [|injection Ei as <- <-; intros [= <- <-]; by left]. injection Ei as <- <-.
    unfold mbind, st_bind. match goal with |- context [reconcile show ?c0 ?s0] => destruct (reconcile show c0 s0) as [s1 r1] eqn:Er end.
    apply (reconcile_changes _ (mw_uuid w)) in Er.
    + intros Hres. right. exists (nc_name c). destruct r1; by injection Hres as <- <-.
    + intros other Hne. by rewrite lookup_insert_ne.
    + intros row. rewrite lookup_insert_eq. by intros [= <-].
  - unfold mbind at 1, st_bind at 1. destruct (require show w name s) as [s1 r1] eqn:Er. apply require_same in Er as [-> _].
    destruct r1 as [previous|]; [|intros [= <- <-]; by left]. unfold mbind at 1, st_bind at 1, lift.
    destruct (apply_update show update previous) as [c|]; [|intros [= <- <-]; by left].
    case_bool_decide; [intros [= <- <-]; by left|]. unfold mbind, st_bind. destruct (persist show w c s) as [s1 r1] eqn:Ep.
    apply persist_changes in Ep; [|done]. destruct r1; intros [= <- <-]; destruct Ep; eauto.
  - unfold mbind at 1, st_bind at 1. destruct (require show w name s) as [s1 r1] eqn:Er. apply require_same in Er as [-> _].
    destruct r1 as [c|]; [|intros [= <- <-]; by left]. destruct (eqb _ _); [intros [= <- <-]; by left|].
    unfold mbind, st_bind. destruct (persist show w _ s) as [s1 r1] eqn:Ep.
    apply persist_changes in Ep; [|done]. destruct r1; intros [= <- <-]; destruct Ep; eauto.
  - unfold mbind at 1, st_bind at 1. destruct (require show w name s) as [s1 r1] eqn:Er. apply require_same in Er as [-> _].
    destruct r1 as [c|]; [|intros [= <- <-]; by left]. unfold mbind, st_bind, write, remove_node.
    destruct (mw_write w); [intros [= <- <-]; by left|]. unfold stopped. intros [= <- <-]. right. exists name.
    apply manager_stop_changes.
    + intros other Hne. by rewrite lookup_delete_ne.
    + intros row. by rewrite lookup_delete_eq.
Qed.

(** [used]: the identifiers drawn so far and the revisions of the table. *)
Record nodes_inv (used : list bytes) (s : NodesState) : Prop := {
  ni_filed k r : ns_rows s !! k = Some r → nc_name r = k ∧ nc_revision r ∈ used;
  ni_connected name n : ns_nodes s !! name = Some n →
    ∃ ip c, ns_joins s !! rn_join n = Some (mk_join ip (Connected c (rn_generation n)) false)
      ∧ nc_name c = name ∧ get_node show None name (ns_rows s) = Ok (Some c);
  ni_live i ip c g : ns_joins s !! i = Some (mk_join ip (Connected c g) false) →
    ns_nodes s !! nc_name c = Some (mk_registered g i);
  ni_generation i j c g : ns_joins s !! i = Some j → jn_phase j = Connected c g → g ∈ used;
  ni_distinct i i' j j' c c' g : ns_joins s !! i = Some j → ns_joins s !! i' = Some j' →
    jn_phase j = Connected c g → jn_phase j' = Connected c' g → i = i';
  ni_pending i j : ns_joins s !! i = Some j → pending (jn_phase j) → jn_stopped j = false;
  ni_held i j c : ns_joins s !! i = Some j → held_config (jn_phase j) = Some c →
    nc_revision c ∈ used ∧ nc_role c = Secondary ∧ nc_enabled c = true;
}.

Lemma nodes_inv_mono used used' s s' :
  same_view s s' → (∀ x, x ∈ used → x ∈ used') → nodes_inv used s → nodes_inv used' s'.
Proof.
  intros (E1 & E2 & E3) Hu [H1 H2 H3 H4 H5 H6 H7]. split; rewrite ?E1, ?E2, ?E3; try done.
  - intros k r Hr. destruct (H1 k r Hr). auto.
  - intros i j c g Hj Hp. eauto.
  - intros i j c Hj Hc. destruct (H7 i j c Hj Hc) as (? & ? & ?). auto.
Qed.

(** A join that leaves the phases before a registration, or stays in them. *)
Lemma nodes_inv_phase used s i phase :
  nodes_inv used s → (∀ j, ns_joins s !! i = Some j → pending (jn_phase j)) →
  (∀ c, held_config phase = Some c → nc_revision c ∈ used ∧ nc_role c = Secondary ∧ nc_enabled c = true) →
  (∀ c g, phase ≠ Connected c g) →
  nodes_inv used (set_phase i phase s).
Proof.
  intros [I1 I2 I3 I4 I5 I6 I7] Hp Hh Hn.
  assert (∀ k j, alter (λ j, mk_join (jn_ip j) phase (jn_stopped j)) i (ns_joins s) !! k = Some j →
    ∃ j0, ns_joins s !! k = Some j0 ∧ jn_stopped j = jn_stopped j0 ∧ (k ≠ i ∧ j = j0 ∨ k = i ∧ jn_phase j = phase)) as Hl.
  { intros k j. destruct (decide (k = i)) as [->|Hne]; [rewrite list_lookup_alter_eq|rewrite list_lookup_alter_ne by done].
    - destruct (ns_joins s !! i) as [j0|]; [|done]. cbn. intros [= <-]. exists j0. auto.
    - intros Hj. exists j. auto. }
  assert (ns_joins (set_phase i phase s) = alter (λ j, mk_join (jn_ip j) phase (jn_stopped j)) i (ns_joins s)) as Ej by done.
  split; rewrite ?Ej; try done.
  - intros name n Hnode. destruct (I2 name n Hnode) as (ip & c & Hj & Hc & Hg). exists ip, c. split; [|done].
    rewrite list_lookup_alter_ne; [done|]. intros ->. by apply Hp in Hj.
  - intros k ip c g Hj. destruct (Hl _ _ Hj) as (j0 & Hj0 & _ & [[_ <-]|[_ Hph]]); [by eapply I3|]. by cbn in Hph; subst phase; edestruct Hn.
  - intros k j c g Hj Hc. destruct (Hl _ _ Hj) as (j0 & Hj0 & _ & [[_ ->]|[_ Hph]]); [by eapply I4|]. by edestruct Hn; rewrite <- Hph.
  - intros k k' j j' c c' g Hj Hj' Hc Hc'. destruct (Hl _ _ Hj) as (j0 & Hj0 & _ & [[_ ->]|[_ Hph]]); [|by edestruct Hn; rewrite <- Hph].
    destruct (Hl _ _ Hj') as (j1 & Hj1 & _ & [[_ ->]|[_ Hph]]); [by eapply I5|by edestruct Hn; rewrite <- Hph].
  - intros k j Hj Hpe. destruct (Hl _ _ Hj) as (j0 & Hj0 & Hs & [[_ ->]|[-> _]]); [by eapply I6|]. rewrite Hs. by eapply I6, Hp.
  - intros k j c Hj Hc. destruct (Hl _ _ Hj) as (j0 & Hj0 & _ & [[_ ->]|[_ Hph]]); [by eapply I7|]. apply Hh. by rewrite <- Hph.
Qed.

Lemma nodes_inv_changed used name uuid s s' :
  nodes_inv used s → changed name uuid s s' → nodes_inv (uuid :: used) s'.
Proof.
  intros [I1 I2 I3 I4 I5 I6 I7] [Ho Hr Hn Hj].
  assert (∀ k j, ns_joins s' !! k = Some j → ∃ j0, ns_joins s !! k = Some j0 ∧ jn_phase j = jn_phase j0 ∧ jn_ip j = jn_ip j0
    ∧ (jn_stopped j = jn_stopped j0 ∨ jn_stopped j = true ∧ ∃ c g, jn_phase j = Connected c g)) as Hl.
  { intros k j. rewrite Hj. destruct (ns_nodes s !! name) as [node|] eqn:En; [|eauto 6].
    destruct (decide (k = rn_join node)) as [->|Hne]; [rewrite list_lookup_alter_eq|rewrite list_lookup_alter_ne by done; eauto 6].
    destruct (I2 _ _ En) as (ip & c & Hjn & _). rewrite Hjn. cbn. intros [= <-]. eexists. eauto 8. }
  split.
  - intros k r Hk. destruct (decide (k = name)) as [->|Hne].
    + destruct (Hr r Hk) as [? ->]. by rewrite elem_of_cons; auto.
    + rewrite Ho in Hk by done. destruct (I1 k r Hk). rewrite elem_of_cons. auto.
  - intros other n. rewrite Hn. intros [Hne Hnode]%lookup_delete_Some. destruct (I2 _ _ Hnode) as (ip & c & Hjn & Hc & Hg).
    exists ip, c. split; [|split; [done|by rewrite (get_node_ext _ _ _ (ns_rows s)) by (apply Ho; congruence)]].
    rewrite Hj. destruct (ns_nodes s !! name) as [node|] eqn:En; [|done].
    destruct (I2 _ _ En) as (ip' & c' & Hjn' & Hc' & _). rewrite list_lookup_alter_ne; [done|].
    intros He. rewrite He, Hjn in Hjn'. congruence.
  - intros i ip c g Hi. destruct (Hl _ _ Hi) as ([ip0 p0 st0] & Hi0 & Hp & Hip & Hst). cbn in *. subst p0 ip0.
    destruct Hst as [Hst|[Hst _]]; [|done]. subst st0. pose proof (I3 _ _ _ _ Hi0) as Hnode. rewrite Hn. apply lookup_delete_Some.
    split; [|done]. intros ->. rewrite Hj, Hnode in Hi. cbn [rn_join] in Hi. rewrite list_lookup_alter_eq, Hi0 in Hi. discriminate.
  - intros i j c g Hi Hc. destruct (Hl _ _ Hi) as (j0 & Hi0 & Hp & _). rewrite Hp in Hc. apply elem_of_cons. right. by eapply I4.
  - intros i i' j j' c c' g Hi Hi' Hc Hc'. destruct (Hl _ _ Hi) as (j0 & Hi0 & Hp & _). destruct (Hl _ _ Hi') as (j1 & Hi1 & Hp' & _).
    rewrite Hp in Hc. rewrite Hp' in Hc'. by eapply (I5 i i' j0 j1).
  - intros i j Hi Hpe. destruct (Hl _ _ Hi) as (j0 & Hi0 & Hp & _ & [->|[_ (c & g & Hc)]]).
    + rewrite Hp in Hpe. by eapply I6.
    + by rewrite Hc in Hpe.
  - intros i j c Hi Hc. destruct (Hl _ _ Hi) as (j0 & Hi0 & Hp & _). rewrite Hp in Hc.
    destruct (I7 _ _ _ Hi0 Hc) as (? & ? & ?). rewrite elem_of_cons. auto.
Qed.

Definition op_ids (op : NodesOp) : list bytes :=
  match op with Manage _ w => [mw_uuid w] | Register _ _ uuid => [uuid] | _ => [] end.

Lemma nodes_inv_register used s i ip c uuid :
  nodes_inv used s → uuid ∉ used → ns_joins s !! i = Some (mk_join ip (Confirmed c) false) →
  ns_nodes s !! nc_name c = None → get_node show None (nc_name c) (ns_rows s) = Ok (Some c) →
  nodes_inv (uuid :: used)
    (set_phase i (Connected c uuid) (announce (nc_name c) true (s <| ns_nodes := <[nc_name c := mk_registered uuid i]> (ns_nodes s) |>))).
Proof.
  intros [I1 I2 I3 I4 I5 I6 I7] Hu Hi Hfree Hget.
  match goal with |- nodes_inv _ ?x => set (s' := x) end.
  assert (ns_rows s' = ns_rows s ∧ ns_nodes s' = <[nc_name c := mk_registered uuid i]> (ns_nodes s)) as [Er En] by done.
  assert (ns_joins s' !! i = Some (mk_join ip (Connected c uuid) false)) as Hnew.
  { change (ns_joins s') with (alter (λ j, mk_join (jn_ip j) (Connected c uuid) (jn_stopped j)) i (ns_joins s)).
    by rewrite list_lookup_alter_eq, Hi. }
  assert (∀ k, k ≠ i → ns_joins s' !! k = ns_joins s !! k) as Hold by (intros k Hk; by apply list_lookup_alter_ne).
  assert (∀ k j, ns_joins s' !! k = Some j → k = i ∧ j = mk_join ip (Connected c uuid) false ∨ k ≠ i ∧ ns_joins s !! k = Some j) as Hl.
  { intros k j. destruct (decide (k = i)) as [->|Hne]; [rewrite Hnew; intros [= <-]; by left|rewrite Hold by done; by right]. }
  split; rewrite ?Er, ?En.
  - intros k r Hr. destruct (I1 _ _ Hr). rewrite elem_of_cons. auto.
  - intros name n [[<- <-]|[Hne Hn]]%lookup_insert_Some; [by exists ip, c|].
    destruct (I2 _ _ Hn) as (ip' & c' & Hj & Hc & Hg). exists ip', c'. split; [|done]. rewrite Hold; [done|].
    intros He. rewrite He, Hi in Hj. discriminate.
  - intros k ip' c' g Hj. destruct (Hl _ _ Hj) as [[-> [= <- <- <-]]|[Hne Hj']]; [by rewrite lookup_insert_eq|].
    apply I3 in Hj'. apply lookup_insert_Some. right. split; [|done]. intros Heq. rewrite Heq in Hfree. congruence.
  - intros k j c' g Hj Hc. destruct (Hl _ _ Hj) as [[-> ->]|[Hne Hj']]; rewrite elem_of_cons; [left; by injection Hc|right; by eapply I4].
  - intros k k' j j' c1 c2 g Hj Hj' Hc Hc'. destruct (Hl _ _ Hj) as [[-> ->]|[Hne Hj1]], (Hl _ _ Hj') as [[-> ->]|[Hne' Hj2]]; [done|..].
    + injection Hc as <- <-. destruct Hu. by eapply I4.
    + injection Hc' as <- <-. destruct Hu. by eapply I4.
    + by eapply (I5 k k' j j').
  - intros k j Hj Hp. destruct (Hl _ _ Hj) as [[-> ->]|[Hne Hj']]; [done|by eapply I6].
  - intros k j c' Hj Hc. destruct (Hl _ _ Hj) as [[-> ->]|[Hne Hj']]; rewrite elem_of_cons.
    + injection Hc as <-. destruct (I7 _ _ c Hi eq_refl) as (? & ? & ?). auto.
    + destruct (I7 _ _ c' Hj' Hc) as (? & ? & ?). auto.
Qed.

Lemma nodes_inv_ends used s i j c g :
  nodes_inv used s → ns_joins s !! i = Some j → jn_phase j = Connected c g →
  nodes_inv used (disconnect (nc_name c) g (set_phase i Closed s)).
Proof.
  intros [I1 I2 I3 I4 I5 I6 I7] Hi Hc. set (s1 := set_phase i Closed s).
  assert (ns_joins (disconnect (nc_name c) g s1) = ns_joins s1 ∧ ns_rows (disconnect (nc_name c) g s1) = ns_rows s
    ∧ ns_nodes (disconnect (nc_name c) g s1) =
        (if match ns_nodes s !! nc_name c with Some n => bytes_eqb (rn_generation n) g | None => false end
         then delete (nc_name c) (ns_nodes s) else ns_nodes s)) as (Ej & Er & En).
  { unfold disconnect. change (ns_nodes s1) with (ns_nodes s). destruct (ns_nodes s !! nc_name c) as [n|]; [|done].
    by destruct (bytes_eqb (rn_generation n) g). }
  assert (∀ k j', ns_joins s1 !! k = Some j' → k ≠ i ∧ ns_joins s !! k = Some j' ∨ jn_phase j' = Closed) as Hl.
  { intros k j'. change (ns_joins s1) with (alter (λ j, mk_join (jn_ip j) Closed (jn_stopped j)) i (ns_joins s)).
    destruct (decide (k = i)) as [->|Hne]; [rewrite list_lookup_alter_eq, Hi; intros [= <-]; by right|].
    rewrite list_lookup_alter_ne by done. auto. }
  assert (∀ name n, ns_nodes (disconnect (nc_name c) g s1) !! name = Some n →
    ns_nodes s !! name = Some n ∧ rn_join n ≠ i) as Hnodes.
  { intros name n. rewrite En. destruct (ns_nodes s !! nc_name c) as [n0|] eqn:E0.
    - destruct (bytes_eqb (rn_generation n0) g) eqn:Eg.
      + intros [Hne Hn]%lookup_delete_Some. split; [done|]. intros He. destruct (I2 _ _ Hn) as (ip & c' & Hj & Hc' & _).
        rewrite He, Hi in Hj. injection Hj as ->. cbn in Hc. congruence.
      + intros Hn. split; [done|]. intros He. destruct (I2 _ _ Hn) as (ip & c' & Hj & Hc' & _).
        rewrite He, Hi in Hj. injection Hj as ->. cbn in Hc. injection Hc as -> Hgen. subst name. rewrite E0 in Hn. injection Hn as ->.
        apply bool_decide_eq_false in Eg. done.
    - intros Hn. split; [done|]. intros He. destruct (I2 _ _ Hn) as (ip & c' & Hj & Hc' & _).
      rewrite He, Hi in Hj. injection Hj as ->. cbn in Hc. injection Hc as -> _. congruence. }
  split; rewrite ?Er, ?Ej.
  - done.
  - intros name n Hn. apply Hnodes in Hn as [Hn Hne]. destruct (I2 _ _ Hn) as (ip & c' & Hj & Hrest). exists ip, c'. split; [|done].
    by rewrite <- Hj; apply list_lookup_alter_ne.
  - intros k ip c' g' Hj. destruct (Hl _ _ Hj) as [[Hne Hj']|Hcl]; [|done]. pose proof (I3 _ _ _ _ Hj') as Hn. rewrite En.
    destruct (ns_nodes s !! nc_name c) as [n0|] eqn:E0; [|done]. destruct (bytes_eqb (rn_generation n0) g) eqn:Eg; [|done].
    apply bool_decide_eq_true in Eg. apply lookup_delete_Some. split; [|done]. intros Heq. rewrite Heq, Hn in E0. injection E0 as <-.
    cbn in Eg. subst g'. by apply Hne, (I5 k i _ j c' c g Hj' Hi).
  - intros k j' c' g' Hj Hc'. destruct (Hl _ _ Hj) as [[Hne Hj']|Hcl]; [by eapply I4|congruence].
  - intros k k' j1 j2 c1 c2 g' Hj1 Hj2 Hc1 Hc2. destruct (Hl _ _ Hj1) as [[_ Hj1']|Hcl]; [|congruence].
    destruct (Hl _ _ Hj2) as [[_ Hj2']|Hcl]; [by eapply (I5 k k' j1 j2)|congruence].
  - intros k j' Hj Hp. destruct (Hl _ _ Hj) as [[_ Hj']|Hcl]; [by eapply I6|by rewrite Hcl in Hp].
  - intros k j' c' Hj Hh. destruct (Hl _ _ Hj) as [[_ Hj']|Hcl]; [by eapply I7|by rewrite Hcl in Hh].
Qed.

Lemma inv_filed used s : nodes_inv used s → filed s.
Proof. intros I k r Hr. by apply (ni_filed _ _ I) in Hr as [Hn _]. Qed.

Lemma nodes_inv_same used s s' : nodes_inv used s → same_view s s' → nodes_inv used s'.
Proof. intros I Hs. by eapply nodes_inv_mono. Qed.

Lemma phase_lookup s i p : jn_phase <$> ns_joins s !! i = Some p → ∃ j, ns_joins s !! i = Some j ∧ jn_phase j = p.
Proof. destruct (ns_joins s !! i) as [j|]; [|done]. intros [= <-]. by exists j. Qed.

Lemma nodes_inv_step used op s :
  nodes_inv used s → NoDup (op_ids op ++ used) → nodes_inv (op_ids op ++ used) (nodes_step op s).
Proof.
  intros I Hnd. destruct op as [request w|ip now|i name peer err|i|i now|i err uuid|i]; cbn [Nodes.nodes_step op_ids app] in *.
  - destruct (handle show request w s) as [s' r] eqn:Eh. cbn [fst].
    apply handle_changes in Eh as [Hs|[name Hc]]; [|by eapply nodes_inv_changed|by eapply inv_filed].
    eapply nodes_inv_mono; [exact Hs| |exact I]. intros x. rewrite elem_of_cons. auto.
  - unfold join_handler, join_rate_limited. destruct (_ || _); [by eapply nodes_inv_same|].
    set (s1 := s <| ns_failures := _ |>). assert (nodes_inv used s1) as [I1 I2 I3 I4 I5 I6 I7] by by eapply nodes_inv_same.
    set (s2 := s1 <| ns_joins := _ |>). assert (ns_joins s2 = ns_joins s1 ++ [mk_join ip Greeting false]) as Ej by done.
    assert (∀ k j, ns_joins s2 !! k = Some j → ns_joins s1 !! k = Some j ∨ j = mk_join ip Greeting false) as Hl.
    { intros k j. rewrite Ej. intros [Hk|[_ Hk]]%lookup_app_Some; [by left|]. right.
      destruct (k - length (ns_joins s1))%nat as [|n]; [by injection Hk|]. by destruct n. }
    split; try done.
    + intros name n Hn. destruct (I2 _ _ Hn) as (ip' & c & Hj & Hrest). exists ip', c. split; [|done]. rewrite Ej. by apply lookup_app_l_Some.
    + intros k ip' c g Hk. destruct (Hl _ _ Hk) as [Hk'|Hnew]; [by eapply I3|done].
    + intros k j c g Hk Hc. destruct (Hl _ _ Hk) as [Hk'| ->]; [by eapply I4|done].
    + intros k k' j j' c c' g Hk Hk' Hc Hc'. destruct (Hl _ _ Hk) as [Hj| ->]; [|done]. destruct (Hl _ _ Hk') as [Hj'| ->]; [by eapply (I5 k k')|done].
    + intros k j Hk Hp. destruct (Hl _ _ Hk) as [Hk'| ->]; [by eapply I6|done].
    + intros k j c Hk Hc. destruct (Hl _ _ Hk) as [Hk'| ->]; [by eapply I7|done].
  - destruct (jn_phase <$> ns_joins s !! i) as [p|] eqn:Ep; [|done]. destruct p; try done.
    destruct (get_node show err name (ns_rows s)) as [found|] eqn:Eg; [|done]. apply phase_lookup in Ep as (j & Hj & Hp).
    apply nodes_inv_phase; [done|by rewrite Hj; intros ? [= <-]; rewrite Hp| |done].
    intros c. cbn [held_config]. destruct found as [c'|]; [|done]. cbn [mbind option_bind]. unfold authorizes.
    destruct (_ && _ && _) eqn:Ea; [|done]. intros [= ->]. apply get_node_row in Eg as [_ (row & Hrow & Hv)].
    apply andb_true_iff in Ea as [[Hr%bool_decide_eq_true He]%andb_true_iff _]. apply config_validate_keeps in Hv as [_ ->].
    apply (ni_filed _ _ I) in Hrow as [_ Hu]. done.
  - destruct (jn_phase <$> ns_joins s !! i) as [p|] eqn:Ep; [|done]. destruct p as [|peer [c|]| | |]; try done.
    apply phase_lookup in Ep as (j & Hj & Hp).
    apply nodes_inv_phase; [done|by rewrite Hj; intros ? [= <-]; rewrite Hp| |done].
    intros c' [= <-]. eapply (ni_held _ _ I); [exact Hj|]. by rewrite Hp.
  - destruct (ns_joins s !! i) as [j|] eqn:Ej; [|done].
    assert (pending (jn_phase j) → nodes_inv used (record_join_failure (jn_ip j) now (set_phase i Closed s))) as Hclose.
    { intros Hp. eapply nodes_inv_same; [apply (nodes_inv_phase used s i Closed); [done| |done|done]|done].
      rewrite Ej. by intros ? [= <-]. }
    destruct (jn_phase j) eqn:Ep; try done; by apply Hclose.
  - assert (nodes_inv (uuid :: used) s) as I' by (eapply nodes_inv_mono; [| |exact I]; [done|intros x; rewrite elem_of_cons; auto]).
    destruct (jn_phase <$> ns_joins s !! i) as [p|] eqn:Ep; [|done]. destruct p; try done.
    apply phase_lookup in Ep as (j & Hj & Hp).
    assert (nodes_inv (uuid :: used) (set_phase i Closed s)) as Hclosed.
    { apply nodes_inv_phase; [done|by rewrite Hj; intros ? [= <-]; rewrite Hp|done|done]. }
    unfold register, query, mbind, st_bind. destruct (get_node show err (nc_name authorized) (ns_rows s)) as [found|] eqn:Eg; [|done].
    case_bool_decide as Hf; [|done]. subst found. apply get_node_row in Eg as [-> (row & Hrow & Hv)].
    unfold connect. destruct (ns_nodes s !! nc_name authorized) eqn:En; [done|]. apply NoDup_cons in Hnd as [Hu _].
    assert (jn_stopped j = false) as Hst by (eapply (ni_pending _ _ I); [exact Hj|by rewrite Hp]).
    destruct j as [ip p st]. cbn in Hp, Hst. subst p st. eapply nodes_inv_register; try done.
    unfold get_node. by rewrite Hrow, Hv.
  - destruct (jn_phase <$> ns_joins s !! i) as [p|] eqn:Ep; [|done]. destruct p; try done.
    apply phase_lookup in Ep as (j & Hj & Hp). by eapply nodes_inv_ends.
Qed.

Definition ops_ids (ops : list NodesOp) : list bytes := concat (map op_ids ops).
Definition revisions (rows : by_id NodeConfig) : list bytes := map (λ r, nc_revision r.2) (map_to_list rows).

Lemma nodes_inv_run ops : ∀ used s,
  nodes_inv used s → NoDup (used ++ ops_ids ops) → ∃ used', used' ≡ₚ used ++ ops_ids ops ∧ nodes_inv used' (nodes_run ops s).
Proof.
  induction ops as [|op ops IH]; intros used s I Hnd.
  - exists used. by rewrite app_nil_r.
  - unfold ops_ids in Hnd. cbn [map concat] in Hnd.
    assert (NoDup (op_ids op ++ used)) as Hnd1.
    { rewrite app_assoc in Hnd. apply NoDup_app in Hnd as [Hnd _]. by rewrite Permutation_app_comm. }
    destruct (IH (op_ids op ++ used) (nodes_step op s)) as (used' & Hu & I'); [by apply nodes_inv_step| |].
    + by rewrite (Permutation_app_comm (op_ids op)), <- app_assoc.
    + exists used'. split; [|done]. rewrite Hu. unfold ops_ids. cbn [map concat].
      by rewrite (Permutation_app_comm (op_ids op)), <- app_assoc.
Qed.

Definition idle (rows : by_id NodeConfig) (connectors : by_id PrimaryConnection) : NodesState := mk_nodes rows connectors ∅ ∅ [] [].

Lemma nodes_inv_idle rows connectors :
  (∀ k r, rows !! k = Some r → nc_name r = k) → nodes_inv (revisions rows) (idle rows connectors).
Proof.
  intros Hf. split; cbn; try done.
  intros k r Hr. split; [by apply Hf|]. unfold revisions. apply list_elem_of_In, in_map_iff.
  exists (k, r). split; [done|]. by apply list_elem_of_In, elem_of_map_to_list.
Qed.

(** A join whose configuration was looked up before a change of that row. *)
Record fenced (bound : list bytes) (i : nat) (s : NodesState) : Prop := {
  fe_join : ∃ j, ns_joins s !! i = Some j ∧
    (jn_phase j = Closed ∨ ∃ c, held_config (jn_phase j) = Some c ∧ pending (jn_phase j) ∧ nc_revision c ∈ bound
       ∧ ∀ r, ns_rows s !! nc_name c = Some r → nc_revision r ∉ bound);
}.

Lemma fenced_step used bound op s i :
  nodes_inv used s → NoDup (op_ids op ++ used) → (∀ x, x ∈ bound → x ∈ used) →
  fenced bound i s → fenced bound i (nodes_step op s).
Proof.
  intros I Hnd Hb [(j & Hj & Hcase)].
  assert (∀ s', ns_rows s' = ns_rows s → ns_joins s' !! i = ns_joins s !! i → fenced bound i s') as Hsame.
  { intros s' Er Ejs. split. exists j. rewrite Ejs, Er. done. }
  assert (∀ s', ns_joins s' !! i = Some (mk_join (jn_ip j) Closed (jn_stopped j)) → fenced bound i s') as Hclosed.
  { intros s' Ejs. split. eexists. split; [exact Ejs|by left]. }
  assert (∀ k p s0, ns_joins s0 = ns_joins s → k ≠ i → ns_joins (set_phase k p s0) !! i = ns_joins s !! i) as Hother.
  { intros k p s0 E0 Hk. change (ns_joins (set_phase k p s0)) with (alter (λ j, mk_join (jn_ip j) p (jn_stopped j)) k (ns_joins s0)).
    rewrite E0. by apply list_lookup_alter_ne. }
  assert (∀ p, ns_joins (set_phase i p s) !! i = Some (mk_join (jn_ip j) p (jn_stopped j))) as Hthis.
  { intros p. change (ns_joins (set_phase i p s)) with (alter (λ j, mk_join (jn_ip j) p (jn_stopped j)) i (ns_joins s)).
    by rewrite list_lookup_alter_eq, Hj. }
  destruct op as [request w|ip now|k name peer err|k|k now|k err uuid|k]; cbn [Nodes.nodes_step op_ids app] in *.
  - destruct (handle show request w s) as [s' r] eqn:Eh. cbn [fst].
    apply handle_changes in Eh as [(Er & _ & Ejs)|[name [Ho Hr Hn Hjs]]]; [by apply Hsame; rewrite ?Ejs| |by eapply inv_filed].
    assert (∃ j', ns_joins s' !! i = Some j' ∧ jn_phase j' = jn_phase j) as (j' & Hj' & Hp').
    { rewrite Hjs. destruct (ns_nodes s !! name) as [node|]; [|by exists j].
      destruct (decide (i = rn_join node)) as [->|Hne]; [rewrite list_lookup_alter_eq, Hj; by eexists|].
      rewrite list_lookup_alter_ne by done. by exists j. }
    split. exists j'. split; [done|]. rewrite Hp'. destruct Hcase as [Hclo|(c & Hc & Hpe & Hin & Hrow)]; [by left|right].
    exists c. split_and!; try done. intros row Hk. destruct (decide (nc_name c = name)) as [He|Hne].
    + rewrite He in Hk. destruct (Hr _ Hk) as [_ ->]. apply NoDup_cons in Hnd as [Hu _]. auto.
    + rewrite Ho in Hk by done. by apply Hrow.
  - unfold join_handler, join_rate_limited. destruct (_ || _); apply Hsame; try done.
    change (ns_joins _) with (ns_joins s ++ [mk_join ip Greeting false]) at 1. rewrite lookup_app_l; [done|]. by eapply lookup_lt_Some.
  - destruct (decide (k = i)) as [->|Hne].
    + rewrite Hj. cbn [fmap option_fmap option_map]. destruct Hcase as [Hc|(c & Hc & Hpe & _)].
      * rewrite Hc. by apply Hsame.
      * destruct (jn_phase j) eqn:Ep; try done; by apply Hsame.
    + destruct (jn_phase <$> ns_joins s !! k) as [p|]; [|by apply Hsame]. destruct p; try by apply Hsame.
      destruct (get_node _ _ _ _); apply Hsame; try done. by apply Hother.
  - destruct (decide (k = i)) as [->|Hne].
    + rewrite Hj. cbn [fmap option_fmap option_map]. destruct (jn_phase j) as [|peer [c0|]| | |] eqn:Ep; try by apply Hsame.
      destruct Hcase as [Hclo|(c & Hc & _ & Hin & Hrow)]; [done|]. injection Hc as <-.
      split. eexists. split; [apply Hthis|]. right. exists c0. done.
    + destruct (jn_phase <$> ns_joins s !! k) as [p|]; [|by apply Hsame]. destruct p as [|peer [c0|]| | |]; try by apply Hsame.
      apply Hsame; [done|]. by apply Hother.
  - destruct (decide (k = i)) as [->|Hne].
    + rewrite Hj. destruct (jn_phase j); try (by apply Hsame); apply Hclosed; exact (Hthis Closed).
    + destruct (ns_joins s !! k) as [jk|]; [|by apply Hsame].
      destruct (jn_phase jk); try (by apply Hsame); (apply Hsame; [done|]; exact (Hother k Closed s eq_refl Hne)).
  - destruct (decide (k = i)) as [->|Hne].
    + rewrite Hj. cbn [fmap option_fmap option_map]. destruct (jn_phase j) as [| |c0| |] eqn:Ep; try by apply Hsame.
      destruct Hcase as [Hclo|(c & Hc & _ & Hin & Hrow)]; [done|]. injection Hc as <-.
      unfold register, query, mbind, st_bind.
      destruct (get_node show err (nc_name c0) (ns_rows s)) as [found|] eqn:Eg; [|by apply Hclosed, Hthis].
      case_bool_decide as Hf; [|by apply Hclosed, Hthis]. subst found. apply get_node_row in Eg as [_ (row & Hr & Hv)].
      apply config_validate_keeps in Hv as [_ Hv]. exfalso. apply (Hrow row Hr). by rewrite <- Hv.
    + destruct (jn_phase <$> ns_joins s !! k) as [p|]; [|by apply Hsame]. destruct p; try by apply Hsame.
      unfold register, query, mbind, st_bind. destruct (get_node _ _ _ _) as [found|]; [|by apply Hsame; [|apply Hother]].
      case_bool_decide; [|by apply Hsame; [|apply Hother]]. unfold connect.
      destruct (ns_nodes s !! _); by apply Hsame; [|apply Hother].
  - destruct (decide (k = i)) as [->|Hne].
    + rewrite Hj. cbn [fmap option_fmap option_map]. destruct Hcase as [Hc|(c & Hc & Hpe & _)].
      * rewrite Hc. by apply Hsame.
      * destruct (jn_phase j) eqn:Ep; try done; by apply Hsame.
    + destruct (jn_phase <$> ns_joins s !! k) as [p|]; [|by apply Hsame]. destruct p; try by apply Hsame.
      unfold disconnect. case_match; [case_match|]; apply Hsame; try done; by apply Hother.
Qed.

Lemma fenced_run bound ops : ∀ used s i,
  nodes_inv used s → NoDup (used ++ ops_ids ops) → (∀ x, x ∈ bound → x ∈ used) → fenced bound i s → fenced bound i (nodes_run ops s).
Proof.
  induction ops as [|op ops IH]; intros used s i I Hnd Hb Hf; [done|].
  unfold ops_ids in Hnd. cbn [map concat] in Hnd.
  assert (NoDup (op_ids op ++ used)) as Hnd1.
  { rewrite app_assoc in Hnd. apply NoDup_app in Hnd as [Hnd _]. by rewrite Permutation_app_comm. }
  apply (IH (op_ids op ++ used) (nodes_step op s)).
  - by apply nodes_inv_step.
  - by rewrite (Permutation_app_comm (op_ids op)), <- app_assoc.
  - intros x Hx. apply elem_of_app. auto.
  - by eapply fenced_step.
Qed.

Lemma fenced_by_change used s request w i j c :
  nodes_inv used s → NoDup (mw_uuid w :: used) →
  ns_joins s !! i = Some j → pending (jn_phase j) → held_config (jn_phase j) = Some c →
  ns_rows (nodes_step (Manage request w) s) !! nc_name c ≠ ns_rows s !! nc_name c →
  fenced used i (nodes_step (Manage request w) s).
Proof.
  intros I [Hu _]%NoDup_cons Hj Hp Hc. cbn [Nodes.nodes_step].
  destruct (handle show request w s) as [s' r] eqn:Eh. cbn [fst].
  apply handle_changes in Eh as [(Er & _ & _)|[name [Ho Hr Hn Hjs]]]; [by rewrite Er| |by eapply inv_filed].
  intros Hne. assert (nc_name c = name) as He.
  { destruct (decide (nc_name c = name)) as [|Hd]; [done|]. by rewrite Ho in Hne. }
  assert (∃ j', ns_joins s' !! i = Some j' ∧ jn_phase j' = jn_phase j) as (j' & Hj' & Hp').
  { rewrite Hjs. destruct (ns_nodes s !! name) as [node|]; [|by exists j].
    destruct (decide (i = rn_join node)) as [->|Hni]; [rewrite list_lookup_alter_eq, Hj; by eexists|].
    rewrite list_lookup_alter_ne by done. by exists j. }
  split. exists j'. split; [done|]. right. exists c. rewrite Hp'. split_and!; [done|done|by eapply ni_held|].
  intros row Hk. rewrite He in Hk. by destruct (Hr _ Hk) as [_ ->].
Qed.

(** C37: Whatever requests and joins come in any order, a node is connected exactly
    if its join was registered and not stopped since, and then the
    configuration the join was authorized by is the one in the table, of an
    enabled secondary; and a handshake that was under way when its node's
    configuration changed is never registered, not even when the change was
    undone. *)
Theorem registry_follows_configuration rows connectors ops :
  (∀ k r, rows !! k = Some r → nc_name r = k) → NoDup (revisions rows ++ ops_ids ops) →
  let s := nodes_run ops (idle rows connectors) in
  (∀ name n, ns_nodes s !! name = Some n →
     ∃ ip c, ns_joins s !! rn_join n = Some (mk_join ip (Connected c (rn_generation n)) false)
       ∧ nc_name c = name ∧ get_node show None name (ns_rows s) = Ok (Some c) ∧ nc_role c = Secondary ∧ nc_enabled c = true)
  ∧ (∀ i ip c g, ns_joins s !! i = Some (mk_join ip (Connected c g) false) → ns_nodes s !! nc_name c = Some (mk_registered g i))
  ∧ (∀ before request w after i j c, ops = before ++ Manage request w :: after →
       let s1 := nodes_run before (idle rows connectors) in
       ns_joins s1 !! i = Some j → pending (jn_phase j) → held_config (jn_phase j) = Some c →
       ns_rows (nodes_step (Manage request w) s1) !! nc_name c ≠ ns_rows s1 !! nc_name c →
       ∀ j' c' g, ns_joins s !! i = Some j' → jn_phase j' ≠ Connected c' g).
Proof.
  intros Hrows Hnd s. pose proof (nodes_inv_idle rows connectors Hrows) as I0. split_and!.
  - destruct (nodes_inv_run ops _ _ I0 Hnd) as (used & _ & I). intros name n Hn.
    destruct (ni_connected _ _ I _ _ Hn) as (ip & c & Hj & Hname & Hg). exists ip, c.
    destruct (ni_held _ _ I _ _ c Hj eq_refl) as (_ & Hrole & Hen). done.
  - destruct (nodes_inv_run ops _ _ I0 Hnd) as (used & _ & I). apply (ni_live _ _ I).
  - intros before request w after i j c -> s1 Hj Hp Hc Hne j' c' g Hj'.
    unfold ops_ids in Hnd. rewrite map_app, concat_app in Hnd. cbn [map concat op_ids] in Hnd.
    destruct (nodes_inv_run before _ _ I0) as (used & Hu & I).
    { rewrite app_assoc in Hnd. by apply NoDup_app in Hnd as [Hnd' _]. }
    fold s1 in I. rewrite app_assoc in Hnd. fold (ops_ids before) in Hnd. rewrite <- Hu in Hnd. cbn [app] in Hnd.
    assert (NoDup (mw_uuid w :: used)) as Hnd1.
    { apply NoDup_app in Hnd as (Hnu & Hdis & _). apply NoDup_cons. split; [|done].
      intros Hin. apply (Hdis _ Hin). apply elem_of_cons. by left. }
    assert (fenced used i s) as [(j2 & Hj2 & Hcase)].
    { unfold s, Nodes.nodes_run. rewrite fold_left_app. cbn [fold_left].
      apply (fenced_run used after (mw_uuid w :: used)).
      - apply (nodes_inv_step used (Manage request w) s1); done.
      - rewrite <- Permutation_middle in Hnd. exact Hnd.
      - intros x Hx. apply elem_of_cons. by right.
      - by apply (fenced_by_change used s1 request w i j c). }
    rewrite Hj' in Hj2. injection Hj2 as <-. intros Heq. rewrite Heq in Hcase. destruct Hcase as [Hclo|(c0 & _ & Hpe & _)]; done.
Qed.

End Registry.

(** ** Witnesses *)

Section Witnesses.

Definition seed_a : bytes := bs "seed a".
Definition seed_b : bytes := bs "seed b".
Definition nonce_a : bytes := repeat x11 32.
Definition nonce_b : bytes := repeat x22 32.
Definition one_transcript : bytes :=
  build_transcript FEDERATION_VERSION (bs "secondary-proof") (bs "worker") (toy_key seed_a) (toy_key seed_b) nonce_a nonce_b.

#[local] Instance node_crypto : Crypto := toy_crypto [one_transcript].
#[local] Instance node_crypto_laws : CryptoLaws := toy_crypto_laws [one_transcript].
#[local] Existing Instance node_json.
#[local] Instance one_url : UrlParser := λ text, Ok (mk_url (bs "https") (Some (bs "hub")) [] None None None text).

Definition quoted (s : bytes) : bytes := s.
Definition hex_of (b : byte) : bytes := [b].
Definition text_of (e : AppError) : bytes := [].

Definition hub_config : NodeConfig :=
  mk_node_config (bs "hub") Primary (to_line (toy_key seed_b)) (Some (bs "https://hub/")) (Some (bs "worker")) true (bs "r0").
Definition worker_config : NodeConfig :=
  mk_node_config (bs "worker") Secondary (to_line (toy_key seed_a)) None None true (bs "r1").
Definition hub_join : PrimaryConnection := mk_primary (bs "hub") (bs "worker") (bs "https://hub") (to_line (toy_key seed_b)).
Definition lookup_worker (name : bytes) : result AppError (option NodeConfig) :=
  Ok (if bytes_eqb name (bs "worker") then Some worker_config else None).

Definition channel_of (seed peer : bytes) (secondary : bool) : Channel :=
  match Channel_new seed peer one_transcript secondary with
  | Ok c => c
  | Err _ => mk_channel (ChannelSide_new []) (ChannelSide_new []) [] [] []
  end.
Definition made_a : Channel := channel_of seed_a (toy_key seed_b) true.
Definition made_b : Channel := channel_of seed_b (toy_key seed_a) false.
Definition sealed_message (m : NodeWsMessage) (c : Channel) : Channel * bytes :=
  match encode_message m c with (c, Ok frame) => (c, frame) | (c, Err _) => (c, []) end.

Definition hello_text : bytes := to_vec (Hello FEDERATION_VERSION (bs "worker") (to_line (toy_key seed_a)) nonce_a).
Definition challenge_text : bytes := to_vec (Challenge nonce_b).
Definition proof_text : bytes := to_vec (Join (sign_transcript seed_a one_transcript)).
Definition confirm_frame : bytes := (sealed_message (KeyConfirm (ch_transcript_hash made_b)) made_b).2.
Definition joined_frame : bytes := (sealed_message Joined (sealed_message (KeyConfirm (ch_transcript_hash made_b)) made_b).1).2.
Definition ready_frame : bytes := (sealed_message (Ready (ch_transcript_hash made_a)) made_a).2.

Definition at_primary : Conversation := mk_conversation [Some hello_text; Some proof_text; Some ready_frame] [] [].
Definition at_secondary : Conversation := mk_conversation [Some challenge_text] [] [].

#[local] Instance result_eq_dec {A} `{EqDecision A} : EqDecision (result AppError A).
Proof. solve_decision. Defined.
#[local] Instance PrimaryConnection_eq_dec : EqDecision PrimaryConnection.
Proof. solve_decision. Defined.

Lemma a_proves : proves quoted seed_a one_transcript hub_join (toy_key seed_b) nonce_a.
Proof.
  split.
  - exists hub_config. apply (bool_decide_unpack _). by vm_compute.
  - apply (bool_decide_unpack _). by vm_compute.
  - done.
  - assert ((secondary_proof seed_a hub_join (toy_key seed_b) nonce_a at_secondary).2 = Ok one_transcript) as Hrun
      by (apply (bool_decide_unpack _); by vm_compute).
    destruct (secondary_proof seed_a hub_join (toy_key seed_b) nonce_a at_secondary) as [cv' r] eqn:Er. cbn [snd] in Hrun.
    subst r. exists at_secondary, cv'. exact Er.
Qed.

(** The hub accepts the worker. *)
Lemma accepting_agrees_witness :
  match primary_handshake quoted hex_of (Some seed_b) lookup_worker nonce_b at_primary with
  | (_, Ok (node, channel)) =>
      nc_name node = bs "worker" ∧ ∃ join nonce transcript made, proves quoted seed_a transcript join (toy_key seed_b) nonce ∧ ends made channel
  | (_, Err _) => False
  end.
Proof.
  assert (match primary_handshake quoted hex_of (Some seed_b) lookup_worker nonce_b at_primary with
          | (_, Ok (node, _)) => bool_decide (node = worker_config) | _ => false end = true) as Hok by by vm_compute.
  destruct (primary_handshake quoted hex_of (Some seed_b) lookup_worker nonce_b at_primary) as [cv' [[node channel]|e]] eqn:Er; [|discriminate].
  apply bool_decide_eq_true in Hok. subst node. split; [reflexivity|].
  destruct (accepting_agrees quoted hex_of seed_b seed_a lookup_worker nonce_b at_primary cv' worker_config channel Er eq_refl eq_refl)
    as (join & nonce & transcript & made & Hp & _ & _ & _ & _ & _ & He).
  - intros message signature. cbn [verify_strict node_crypto toy_crypto existsb]. rewrite orb_false_r.
    intros [_ Hm]%andb_true_iff. apply bool_decide_eq_true in Hm as ->. exists hub_join, (toy_key seed_b), nonce_a. apply a_proves.
  - exists join, nonce, transcript, made. split; [exact Hp|exact He].
Defined.

Definition at_hub : Conversation := mk_conversation [Some hello_text] [] [].
Definition at_worker : Conversation := mk_conversation [Some confirm_frame; Some joined_frame] [] [].

Lemma b_accepts : ∃ cg, accepts quoted seed_b lookup_worker nonce_b cg worker_config made_b ∧ cg_transcript cg = one_transcript.
Proof.
  assert (match (primary_challenge quoted seed_b lookup_worker nonce_b at_hub).2 with
          | Ok cg => bool_decide (cg_transcript cg = one_transcript ∧ cg_registered cg = Some worker_config ∧ cg_peer cg = toy_key seed_a)
          | Err _ => false end = true) as Hok by by vm_compute.
  destruct (primary_challenge quoted seed_b lookup_worker nonce_b at_hub) as [cv' [cg|e]] eqn:Er; [|discriminate].
  cbn [snd] in Hok. apply bool_decide_eq_true in Hok as (Ht & Hreg & Hpeer). exists cg. split; [|exact Ht].
  split.
  - exists at_hub, cv'. exact Er.
  - done.
  - exact Hreg.
  - exists (sign_transcript seed_a one_transcript). rewrite Ht, Hpeer. by vm_compute.
  - rewrite Ht, Hpeer. unfold made_b, channel_of.
    destruct (Channel_new seed_b (toy_key seed_a) one_transcript false) as [c|e] eqn:Ec; [reflexivity|by vm_compute in Ec].
Qed.

(** The worker reaches the hub. *)
Lemma connecting_agrees_witness :
  match secondary_confirm hex_of text_of seed_a (toy_key seed_b) one_transcript at_worker with
  | (_, Ok (made, _)) => ∃ lookup_node np cg node made',
      accepts quoted seed_b lookup_node np cg node made' ∧ cg_name cg = bs "worker" ∧ ends made made'
  | (_, Err _) => False
  end.
Proof.
  assert (match (secondary_confirm hex_of text_of seed_a (toy_key seed_b) one_transcript at_worker).2 with
          | Ok (made, _) => bool_decide (ch_recv_aad made = ch_send_aad made_b) | Err _ => false end = true) as Hok by by vm_compute.
  destruct (secondary_confirm hex_of text_of seed_a (toy_key seed_b) one_transcript at_worker) as [cv' [[made channel]|e]] eqn:Er; [|discriminate].
  cbn [snd] in Hok. apply bool_decide_eq_true in Hok.
  destruct (connecting_agrees quoted hex_of text_of seed_a seed_b hub_join nonce_a one_transcript at_worker cv' made channel a_proves Er)
    as (lookup_node & np & cg & node & made' & Hacc & _ & Hname & _ & _ & _ & _ & _ & He).
  - intros ct plain _. destruct b_accepts as (cg & Hacc & Ht). exists lookup_worker, nonce_b, cg, worker_config, made_b.
    split; [exact Hacc|]. split; [by rewrite Hok|]. intros _. exact Ht.
  - exists lookup_node, np, cg, node, made'. split; [exact Hacc|]. split; [exact Hname|exact He].
Defined.

Definition quiet_manager (uuid : bytes) : ManagerWorld :=
  mk_manager_world None None (λ _, mk_connector_state NodeConnecting None None) uuid.
Definition hub_rows : by_id NodeConfig := {[bs "worker" := worker_config]}.

(** A handshake under way while the node is disabled and enabled again. *)
Definition fenced_ops : list NodesOp :=
  [Arrive 1 0; LookUp 0 (bs "worker") (toy_key seed_a) None; HandshakeEnds 0;
   Manage (NodeSetEnabled (bs "worker") false) (quiet_manager (bs "r2"));
   Manage (NodeSetEnabled (bs "worker") true) (quiet_manager (bs "r3"));
   Register 0 None (bs "g1")].

Lemma registry_follows_configuration_witness :
  ¬ ∃ j c g, ns_joins (nodes_run quoted fenced_ops (idle hub_rows ∅)) !! 0%nat = Some j ∧ jn_phase j = Connected c g.
Proof.
  intros (j & c & g & Hj & Hphase_j). revert Hphase_j.
  assert (jn_phase <$> ns_joins (nodes_run quoted [Arrive 1 0; LookUp 0 (bs "worker") (toy_key seed_a) None; HandshakeEnds 0] (idle hub_rows ∅)) !! 0%nat
          = Some (Confirmed worker_config)) as Hphase by by vm_compute.
  assert (bool_decide (ns_rows (nodes_step quoted (Manage (NodeSetEnabled (bs "worker") false) (quiet_manager (bs "r2")))
            (nodes_run quoted [Arrive 1 0; LookUp 0 (bs "worker") (toy_key seed_a) None; HandshakeEnds 0] (idle hub_rows ∅))) !! bs "worker"
          = ns_rows (nodes_run quoted [Arrive 1 0; LookUp 0 (bs "worker") (toy_key seed_a) None; HandshakeEnds 0] (idle hub_rows ∅)) !! bs "worker")
          = false) as Hrow by by vm_compute.
  apply bool_decide_eq_false in Hrow.
  destruct (registry_follows_configuration quoted hub_rows ∅ fenced_ops) as (_ & _ & Hfence).
  - intros k r. unfold hub_rows. intros [<- <-]%lookup_singleton_Some. reflexivity.
  - apply (bool_decide_unpack _). by vm_compute.
  - apply phase_lookup in Hphase as (j0 & Hj0 & Hp0).
    refine (Hfence [Arrive 1 0; LookUp 0 (bs "worker") (toy_key seed_a) None; HandshakeEnds 0] (NodeSetEnabled (bs "worker") false)
      (quiet_manager (bs "r2")) [Manage (NodeSetEnabled (bs "worker") true) (quiet_manager (bs "r3")); Register 0 None (bs "g1")]
      0%nat j0 worker_config eq_refl Hj0 _ _ Hrow j c g Hj); by rewrite Hp0.
Defined.
End Witnesses.
