(* ===== verification/Notify.v ===== *)
(** * Notifications

    [src/src/session/store/notify.rs], [src/src/notification/] and the monitor
    task: which sessions have gone silent, what is announced of them, and how
    an announcement reaches its channels.  Once a tick the monitor reads its
    settings and the clock, looks at the sessions one after the other, renders
    off the lock, and commits each candidate under the lock of its session, so
    that between any two of these steps anything may happen to a session: the
    machine below interleaves them with the operations of [Session].  Times
    are milliseconds.  Regular expressions, the rows of the terminal engine and
    the Unicode tables are interfaces.  The theorems say that an announcement is about a session that was left alone,
    that nothing is announced twice while nothing changed, how far apart
    announcements are, that a silent session is announced, and that a hook gets
    the words it was configured with. *)

From S2P Require Import Prelude Crc Utf8 Text RecordFormat SegmentScan Disk Manifest Open Retention.
From S2P Require Import Sequencer Stream Appender Journal Pump ProgramStatus Signals Scanner Replay Registry Recorder Runtime Session.
From S2P Require Import LogRecords LogTail Wire Mouse Attach.

(** ** Text *)

Class RegexEngine := {
  regex : Type;
  re_new : bytes → option regex;
  re_as_str : regex → bytes;
  re_is_match : regex → bytes → bool;
  re_remove_all : regex → bytes → bytes;
}.

(** [char::is_alphanumeric]. *)
Class CharTable := char_is_alphanumeric : N → bool.

(** A function on the characters of a string. *)
Definition on_chars (f : list N → list N) (l : bytes) : bytes :=
  match utf8_decode l with Some cs => utf8_encode (f cs) | None => l end.

(** [Vec::join]. *)
Fixpoint join (sep : bytes) (l : list bytes) : bytes :=
  match l with
  | [] => []
  | [x] => x
  | x :: l => x ++ sep ++ join sep l
  end.

(** [str::replace] of a pattern that is not empty; [skip] counts the bytes of
    an occurrence that are left. *)
Fixpoint replace_from (skip : nat) (pattern by_ l : bytes) : bytes :=
  match l with
  | [] => []
  | b :: rest =>
      match skip with
      | S skip => replace_from skip pattern by_ rest
      | O =>
          if starts_with pattern l then by_ ++ replace_from (length pattern - 1) pattern by_ rest
          else b :: replace_from 0 pattern by_ rest
      end
  end.
Definition replace (pattern by_ l : bytes) : bytes := replace_from 0 pattern by_ l.

(** Where [strip_ansi] is: in text, after an escape, in a control sequence, in
    a string (was the last character an escape?). *)
Inductive AnsiState := InText | AfterEscape | InCsi | InOsc (prev_esc : bool).

Fixpoint strip_ansi_from (state : AnsiState) (cs : list N) : list N :=
  match cs with
  | [] => []
  | c :: cs =>
      match state with
      | InText => if c =? 27 then strip_ansi_from AfterEscape cs else c :: strip_ansi_from InText cs
      | AfterEscape =>
          strip_ansi_from (if c =? 91 then InCsi else if c =? 93 then InOsc false else InText) cs
      | InCsi => strip_ansi_from (if (64 <=? c) && (c <=? 126) then InText else InCsi) cs
      | InOsc prev_esc =>
          strip_ansi_from (if (c =? 7) || (prev_esc && (c =? 92)) then InText else InOsc (c =? 27)) cs
      end
  end.
Definition strip_ansi (input : bytes) : bytes := on_chars (strip_ansi_from InText) input.

(** The quotation mark and the backslash are written by number. *)
Definition COMMON_PUNCTUATION : bytes :=
  bs ".,;:!?'-_()[]{}" ++ [x22] ++ bs "/@#&+*=<>%$" ++ [x5c] ++ bs "|".
Definition is_common_punctuation (c : N) : bool := (c <? 128) && contains_byte (byte_of c) COMMON_PUNCTUATION.

Section Text.
Context `{RegexEngine, CharTable}.

Definition compile_prompt_patterns (patterns : list bytes) : list regex := omap re_new patterns.

(** The first pattern that matches the first line any of them matches. *)
Definition find_prompt_match (raw_excerpt : bytes) (patterns : list regex) : option bytes :=
  let matched line := re_as_str <$> find (λ re, re_is_match re line) patterns in
  head (omap matched (filter (λ line, len (trim line) ≠ 0) (lines (strip_ansi raw_excerpt)))).

Definition BARE_CPR : bytes := [x5c] ++ bs "x1b" ++ [x5c] ++ bs "[" ++ [x5c] ++ bs "??" ++ [x5c] ++ bs "d+;" ++ [x5c] ++ bs "d+R|"
  ++ [x5c] ++ bs "[" ++ [x5c] ++ bs "??" ++ [x5c] ++ bs "d+;" ++ [x5c] ++ bs "d+R".
Definition strip_ansi_for_body (input : bytes) : bytes :=
  match re_new BARE_CPR with Some re => strip_ansi (re_remove_all re input) | None => strip_ansi input end.

Fixpoint sanitize_chars (last_was_space : bool) (cs : list N) : list N :=
  match cs with
  | [] => []
  | c :: cs =>
      if char_is_alphanumeric c || is_common_punctuation c then c :: sanitize_chars false cs
      else if is_whitespace c then if last_was_space then sanitize_chars true cs else 32 :: sanitize_chars true cs
      else sanitize_chars last_was_space cs
  end.
Definition sanitize_body (s : bytes) : bytes := trim (on_chars (sanitize_chars false) s).

Definition sanitize_notification_excerpt (input : bytes) : bytes :=
  join [x0a] (filter (λ line, len line ≠ 0) (map (λ line, sanitize_body (trim line)) (lines (strip_ansi_for_body input)))).
End Text.

(** ** Events *)

Inductive NotificationKind := InputNeeded | ProgramStatusKind | StartupRecovery | Manual.
Definition kind_as_str (k : NotificationKind) : bytes :=
  match k with
  | InputNeeded => bs "input_needed"
  | ProgramStatusKind => bs "program_status"
  | StartupRecovery => bs "startup_recovery"
  | Manual => bs "manual"
  end.

Inductive TriggerRule := OsSignal | ProgramStatusRule | RegexPattern | Silence | LlmCheck.
Definition rule_as_str (r : TriggerRule) : bytes :=
  match r with
  | OsSignal => bs "os_signal"
  | ProgramStatusRule => bs "program_status"
  | RegexPattern => bs "regex_pattern"
  | Silence => bs "silence"
  | LlmCheck => bs "llm_check"
  end.
Definition rule_parse (value : bytes) : option TriggerRule :=
  if bytes_eqb value (bs "os_signal") then Some OsSignal
  else if bytes_eqb value (bs "program_status") then Some ProgramStatusRule
  else if bytes_eqb value (bs "regex_pattern") then Some RegexPattern
  else if bytes_eqb value (bs "silence") then Some Silence
  else if bytes_eqb value (bs "llm_check") then Some LlmCheck
  else None.

Record NotificationEvent := mk_event {
  ne_kind : NotificationKind;
  ne_title : bytes;
  ne_description : bytes;
  ne_body : bytes;
  ne_navigation_url : option bytes;
  ne_session_ids : list bytes;
  ne_trigger_rule : option TriggerRule;
  ne_trigger_detail : option bytes;
  ne_node : option bytes;
}.
#[export] Instance NotificationEvent_eta : Settable NotificationEvent := λ e,
  mk_event (ne_kind e) (ne_title e) (ne_description e) (ne_body e) (ne_navigation_url e) (ne_session_ids e)
    (ne_trigger_rule e) (ne_trigger_detail e) (ne_node e).

Definition session_display_name (session_id : bytes) (session_title : option bytes) : bytes :=
  match trim <$> session_title with
  | Some title => if len title =? 0 then session_id else title
  | None => session_id
  end.
Definition session_navigation_url (session_id : bytes) : bytes := bs "/session/" ++ session_id.
Definition non_empty_or (value fallback : bytes) : bytes :=
  let trimmed := trim value in if len trimmed =? 0 then fallback else trimmed.
Definition normalize_optional_text (value : option bytes) : bytes := default [] (trim <$> value).

Definition input_needed_with_trigger (session_id : bytes) (session_title : option bytes) (body : bytes)
    (trigger_rule : TriggerRule) (trigger_detail : option bytes) : NotificationEvent :=
  let name := session_display_name session_id session_title in
  {| ne_kind := InputNeeded;
     ne_title := bs "Input required";
     ne_description :=
       name ++ match trigger_rule with
               | RegexPattern => bs " matched a prompt and is waiting for input."
               | Silence => bs " went quiet and may be waiting for input."
               | LlmCheck => bs " looks like it is waiting for input."
               | OsSignal | ProgramStatusRule => bs " reported that it needs input."
               end;
     ne_body := non_empty_or body (bs "Open the session to review the latest output.");
     ne_navigation_url := Some (session_navigation_url session_id ++ bs "?mode=attach");
     ne_session_ids := [session_id];
     ne_trigger_rule := Some trigger_rule;
     ne_trigger_detail := trigger_detail;
     ne_node := None |}.

(** The name of the variant, lower case. *)
Definition state_debug (s : ProgramState) : bytes :=
  match s with
  | Idle => bs "idle" | Working => bs "working" | ProgramStatus.Done => bs "done"
  | Blocked => bs "blocked" | ProgramStatus.Error => bs "error"
  end.

(** The title of a report that is not a request for input, and the same in
    lower case. *)
Definition report_label (s : ProgramState) : option (bytes * bytes) :=
  match s with
  | Idle => Some (bs "Ready for instruction", bs "ready for instruction")
  | ProgramStatus.Done => Some (bs "Task completed", bs "task completed")
  | ProgramStatus.Error => Some (bs "Task error", bs "task error")
  | Working | Blocked => None
  end.

Definition program_status_event (session_id : bytes) (session_title : option bytes) (report : ProgramStatus)
    (fallback_body : bytes) : NotificationEvent :=
  let event := input_needed_with_trigger session_id session_title (default fallback_body (ps_msg report))
                 ProgramStatusRule (Some (state_debug (ps_state report))) in
  match report_label (ps_state report) with
  | Some (label, lower) =>
      event <| ne_kind := ProgramStatusKind |> <| ne_title := label |>
            <| ne_description := session_display_name session_id session_title ++ bs " reported: " ++ lower ++ bs "." |>
  | None => event
  end.

Definition startup_recovery (sessions : list SessionMeta) : NotificationEvent :=
  let count := len sessions in
  let examples := map (λ meta, default (sm_id meta) (sm_title meta)) (take 3 sessions) in
  {| ne_kind := StartupRecovery;
     ne_title := bs "Startup recovery";
     ne_description := bs "Marked " ++ show_dec count ++ bs " stale session(s) as failed during startup.";
     ne_body := bs "Recovered session(s): " ++ join (bs ", ") examples
                ++ (if count <=? 3 then [] else bs " (+" ++ show_dec (count - 3) ++ bs " more)");
     ne_navigation_url := match sessions with [meta] => Some (session_navigation_url (sm_id meta)) | _ => None end;
     ne_session_ids := map sm_id sessions;
     ne_trigger_rule := None; ne_trigger_detail := None; ne_node := None |}.

Definition manual (source_session_id : option bytes) (title : bytes) (description body url : option bytes)
    : NotificationEvent :=
  {| ne_kind := Manual;
     ne_title := trim title;
     ne_description := normalize_optional_text description;
     ne_body := normalize_optional_text body;
     ne_navigation_url :=
       match url with
       | Some url => Some url
       | None => (λ id, session_navigation_url id ++ bs "?mode=attach") <$> source_session_id
       end;
     ne_session_ids := match source_session_id with Some id => [id] | None => [] end;
     ne_trigger_rule := None; ne_trigger_detail := None; ne_node := None |}.

(** [SessionEvent::SessionNotification]. *)
Record SessionNotification := mk_notification {
  sn_kind : bytes;
  sn_title : bytes;
  sn_description : bytes;
  sn_body : bytes;
  sn_navigation_url : option bytes;
  sn_session_ids : list bytes;
  sn_trigger_rule : option bytes;
  sn_trigger_detail : option bytes;
  sn_node : option bytes;
  sn_last_total_bytes : N;
  sn_enabled_for_channels : bool;
}.

Definition into_session_event (e : NotificationEvent) (last_total_bytes : N) (enabled_for_channels : bool)
    : SessionNotification :=
  mk_notification (kind_as_str (ne_kind e)) (ne_title e) (ne_description e) (ne_body e) (ne_navigation_url e)
    (ne_session_ids e) (rule_as_str <$> ne_trigger_rule e) (ne_trigger_detail e) (ne_node e)
    last_total_bytes enabled_for_channels.

Definition rendered_body (e : NotificationEvent) : bytes :=
  let description := trim (ne_description e) in
  let body := trim (ne_body e) in
  match len description =? 0, len body =? 0 with
  | true, true => []
  | false, true => description
  | true, false => body
  | false, false => description ++ [x0a] ++ body
  end.

(** ** Channels *)

(** What a channel answers to one event: [Err] with its error. *)
Record DispatchOutcome := mk_outcome {
  do_attempted : N;
  do_delivered : N;
  do_failed_channels : list bytes;
}.
Definition any_delivered (o : DispatchOutcome) : bool := 0 <? do_delivered o.

(** A channel is its name and what its [send] returns for an event. *)
Definition NotificationChannel : Type := bytes * (NotificationEvent → result AppError unit).

Fixpoint dispatch_to (channels : list NotificationChannel) (event : NotificationEvent) (delivered : N)
    (failed_channels : list bytes) : N * list bytes :=
  match channels with
  | [] => (delivered, failed_channels)
  | (name, send) :: channels =>
      match send event with
      | Ok _ => dispatch_to channels event (delivered + 1) failed_channels
      | Err _ => dispatch_to channels event delivered (failed_channels ++ [name])
      end
  end.
Definition dispatch (channels : list NotificationChannel) (event : NotificationEvent) : DispatchOutcome :=
  let '(delivered, failed_channels) := dispatch_to channels event 0 [] in
  mk_outcome (len channels) delivered failed_channels.

(** ** Silent sessions *)

Definition USER_ACTIVITY_WINDOW : N := 3000.
Definition SUPPRESSION_WINDOW : N := 5000.

Section Monitor.
Context `{RegexEngine, CharTable, Base64, Engine} {J : Type} `{Recorder J}.

(** [Terminal::screen_lines]. *)
Context (screen_lines : engine → list bytes).

(** What a tick reads of the live configuration. *)
Record Settings := mk_settings {
  silence_seconds : N;
  min_interval_seconds : N;
  prompt_patterns : list bytes;
}.
Definition silence_of (s : Settings) : N := 1000 * silence_seconds s.
Definition interval_of (s : Settings) : N := 1000 * min_interval_seconds s.

(** A session of the map, with the field of its runtime only this file uses. *)
Record Watched := mk_watched {
  wt_session : Session (J:=J);
  wt_last_notified_at : option N;
}.
#[export] Instance Watched_eta : Settable Watched := λ w, mk_watched (wt_session w) (wt_last_notified_at w).
Definition wt_runtime (w : Watched) : SessionRuntime (J:=J) := ss_runtime (wt_session w).

Record SilentCandidate := mk_candidate {
  sc_session_id : bytes;
  sc_session_title : option bytes;
  sc_excerpt : bytes;
  sc_program_status : option ProgramStatus;
  sc_output_epoch : N;
  sc_user_activity_epoch : option N;
  sc_silence_epoch : N;
  sc_should_notify : bool;
  sc_enabled_for_channels : bool;
  sc_last_total_bytes : N;
}.

Definition status_of (rt : SessionRuntime (J:=J)) : option ProgramStatus :=
  ProgramStatus.current (program_statuses (rt_terminal_signals rt)).

Definition reported (p : ProgramState → bool) (status : option ProgramStatus) : bool :=
  match status with Some report => p (ps_state report) | None => false end.

Definition excerpt_of (rt : SessionRuntime (J:=J)) : bytes :=
  utf8_lossy (finish_render (map (λ row, truncate_chars row u16_max) (screen_lines (rt_engine rt))) 15 false).

Definition activity_driven (last_output : N) (user_activity : option N) : bool :=
  match user_activity with
  | Some activity => (last_output <=? activity) || (last_output - activity <=? USER_ACTIVITY_WINDOW)
  | None => false
  end.

Definition candidate_of (now window min_interval : N) (w : Watched) : option SilentCandidate :=
  let rt := wt_runtime w in
  let program_status := status_of rt in
  if is_completed rt
     && negb (reported (λ s, match s with ProgramStatus.Done | ProgramStatus.Error => true | _ => false end) program_status)
  then None
  else
    let last_output := effective_output_epoch rt in
    if reported (λ s, match s with Working => true | _ => false end) program_status then None
    else
      let user_activity := user_activity_epoch rt in
      let silence_epoch := match user_activity with Some activity => N.max activity last_output | None => last_output end in
      if now - silence_epoch <? window then None
      else
        let should_notify :=
          match program_status with
          | Some _ => match user_activity with Some activity => activity <? last_output | None => true end
          | None => negb (activity_driven last_output user_activity)
          end in
        if should_notify && match wt_last_notified_at w with Some last => now - last <? min_interval | None => false end
        then None
        else if bool_decide (rt_notified_output_epoch rt = Some last_output) then None
        else Some (mk_candidate (sm_id (rt_meta rt)) (sm_title (rt_meta rt)) (excerpt_of rt) program_status last_output
                     user_activity silence_epoch should_notify (rt_notifications_enabled rt) (rt_last_total_bytes rt)).

Definition is_current (c : SilentCandidate) (rt : SessionRuntime (J:=J)) : bool :=
  (effective_output_epoch rt =? sc_output_epoch c)
  && bool_decide (user_activity_epoch rt = sc_user_activity_epoch c)
  && negb (bool_decide (rt_notified_output_epoch rt = Some (sc_output_epoch c))).

Definition set_notified (epoch : N) (w : Watched) : Watched :=
  w <| wt_session := session_step (wt_session w) (OpNotify epoch) |>.

Definition mark_notified (c : SilentCandidate) (notified_at : N) (sessions : by_id Watched) : by_id Watched * bool :=
  match sessions !! sc_session_id c with
  | Some w =>
      if negb (is_current c (wt_runtime w)) then (sessions, false)
      else (<[sc_session_id c := set_notified (sc_output_epoch c) w <| wt_last_notified_at := Some notified_at |>]> sessions,
            true)
  | None => (sessions, false)
  end.

(** [Some]: the summary sent with [SessionUpdated]. *)
Definition mark_input_required (c : SilentCandidate) (sessions : by_id Watched)
    : by_id Watched * option SessionMeta :=
  match sessions !! sc_session_id c with
  | Some w =>
      if negb (is_current c (wt_runtime w)) then (sessions, None)
      else
        let w := set_notified (sc_output_epoch c) w in
        (<[sc_session_id c := w]> sessions, Some (rt_meta (wt_runtime w)))
  | None => (sessions, None)
  end.

(** ** The monitor *)

Definition evaluate_llm_direct_trigger (excerpt : bytes) : option bytes := None.

Definition trigger_of (settings : Settings) (now : N) (c : SilentCandidate) : option (TriggerRule * option bytes) :=
  match sc_program_status c with
  | Some _ => Some (ProgramStatusRule, None)
  | None =>
      match find_prompt_match (sc_excerpt c) (compile_prompt_patterns (prompt_patterns settings)) with
      | Some pattern => Some (RegexPattern, Some pattern)
      | None =>
          match evaluate_llm_direct_trigger (sc_excerpt c) with
          | Some detail => Some (LlmCheck, Some detail)
          | None => if silence_of settings <=? now - sc_silence_epoch c then Some (Silence, None) else None
          end
      end
  end.

Definition event_of (c : SilentCandidate) (rule : TriggerRule) (detail : option bytes) : NotificationEvent :=
  let body := sanitize_notification_excerpt (sc_excerpt c) in
  match sc_program_status c with
  | Some report => program_status_event (sc_session_id c) (sc_session_title c) report body
  | None => input_needed_with_trigger (sc_session_id c) (sc_session_title c) body rule detail
  end.

Inductive MonitorEvent :=
  | SessionUpdated (summary : SessionMeta)
  | Notified (notification : SessionNotification).

(** An announcement: the session, when, and what [notification_tx] carried. *)
Record Announcement := mk_announcement {
  an_session : bytes;
  an_at : N;
  an_event : NotificationEvent;
}.

(** The session map; the settings and the clock of this tick, the sessions
    still to be looked at and the candidates still to be handled; what was sent
    on [event_tx], what was announced and what went to the channels. *)
Record Monitor := mk_monitor {
  mn_sessions : by_id Watched;
  mn_settings : Settings;
  mn_now : N;
  mn_looking : list bytes;
  mn_pending : list SilentCandidate;
  mn_events : list MonitorEvent;
  mn_announced : list Announcement;
  mn_dispatched : list NotificationEvent;
}.
#[export] Instance Monitor_eta : Settable Monitor := λ m,
  mk_monitor (mn_sessions m) (mn_settings m) (mn_now m) (mn_looking m) (mn_pending m) (mn_events m) (mn_announced m) (mn_dispatched m).

(** One turn of the inner loop: the clock is read at [now] and again at
    [later] for the commit. *)
Definition handle_candidate (now later : N) (c : SilentCandidate) (m : Monitor) : Monitor :=
  if negb (sc_should_notify c) then
    if now - sc_silence_epoch c <? silence_of (mn_settings m) then m
    else
      let '(sessions, summary) := mark_input_required c (mn_sessions m) in
      m <| mn_sessions := sessions |>
        <| mn_events := mn_events m ++ match summary with Some summary => [SessionUpdated summary] | None => [] end |>
  else
    match trigger_of (mn_settings m) now c with
    | None => m
    | Some (rule, detail) =>
        let event := event_of c rule detail in
        let '(sessions, committed) := mark_notified c later (mn_sessions m) in
        if negb committed then m
        else
          m <| mn_sessions := sessions |>
            <| mn_dispatched := mn_dispatched m ++ (if sc_enabled_for_channels c then [event] else []) |>
            <| mn_announced := mn_announced m ++ [mk_announcement (sc_session_id c) later event] |>
            <| mn_events := mn_events m
                 ++ [Notified (into_session_event event (sc_last_total_bytes c) (sc_enabled_for_channels c))] |>
    end.

(** A tick starts: the settings and the clock are read once, and the map as it
    is will be walked, in any order. *)
Definition start_tick (now : N) (settings : Settings) (m : Monitor) : Monitor :=
  match mn_looking m, mn_pending m with
  | [], [] =>
      m <| mn_settings := settings |> <| mn_now := now |> <| mn_looking := map fst (map_to_list (mn_sessions m)) |>
  | _, _ => m
  end.

(** [silent_candidates]: the next session is looked at under its lock, against
    the clock of the tick.  One that was removed meanwhile is passed over: its
    candidate could not be committed. *)
Definition look_next (m : Monitor) : Monitor :=
  match mn_looking m with
  | [] => m
  | id :: looking =>
      let m := m <| mn_looking := looking |> in
      match mn_sessions m !! id with
      | Some w =>
          match candidate_of (mn_now m) SUPPRESSION_WINDOW (interval_of (mn_settings m)) w with
          | Some c => m <| mn_pending := mn_pending m ++ [c] |>
          | None => m
          end
      | None => m
      end
  end.

(** Rendering the candidates failed: the tick is skipped. *)
Definition skip_tick (m : Monitor) : Monitor :=
  match mn_looking m with [] => m <| mn_pending := [] |> | _ => m end.

Definition handle_next (now later : N) (m : Monitor) : Monitor :=
  match mn_looking m, mn_pending m with
  | [], c :: pending => handle_candidate now later c (m <| mn_pending := pending |>)
  | _, _ => m
  end.

(** The monitor ticks, looks and handles; anything else happens to sessions. *)
Inductive MonitorOp :=
  | Tick (now : N) (settings : Settings)
  | LookNext
  | RenderFails
  | HandleNext (now later : N)
  | SessionDoes (id : bytes) (op : SessionOp (J:=J))
  | SessionBusy (id : bytes) (now : N)
  | SetEnabled (id : bytes) (enabled : bool)
  | InsertSession (id : bytes) (session : Session (J:=J))
  | RemoveSession (id : bytes).

Definition on_session (id : bytes) (f : Session (J:=J) → Session (J:=J)) (m : Monitor) : Monitor :=
  m <| mn_sessions := alter (λ w, w <| wt_session := f (wt_session w) |>) id (mn_sessions m) |>.

Definition monitor_step (m : Monitor) (op : MonitorOp) : Monitor :=
  match op with
  | Tick now settings => start_tick now settings m
  | LookNext => look_next m
  | RenderFails => skip_tick m
  | HandleNext now later => handle_next now later m
  | SessionDoes id op => on_session id (λ s, session_step s op) m
  | SessionBusy id now =>
      on_session id (on_runtime (λ rt, mark_attach_activity now rt <| rt_last_output_epoch := Some now |>)) m
  | SetEnabled id enabled => on_session id (on_runtime (set_notifications_enabled enabled)) m
  | InsertSession id session => m <| mn_sessions := <[id := mk_watched session None]> (mn_sessions m) |>
  | RemoveSession id => m <| mn_sessions := delete id (mn_sessions m) |>
  end.

Definition monitor_run (ops : list MonitorOp) (m : Monitor) : Monitor := foldl monitor_step m ops.

(** ** What the other operations leave alone *)

(** The part of a runtime the suppression of repeats rests on. *)
Definition identity (rt : SessionRuntime (J:=J)) : bytes * option N := (sm_id (rt_meta rt), rt_notified_output_epoch rt).
Definition frame (rt : SessionRuntime (J:=J)) : (bytes * option N) * TerminalSignals := (identity rt, rt_terminal_signals rt).

Lemma frame_identity rt rt' : frame rt' = frame rt → identity rt' = identity rt.
Proof. intros [= ? ? ?]. unfold identity. by f_equal. Qed.

Lemma journal_event_frame record rt : frame (journal_event record rt) = frame rt.
Proof. unfold journal_event. repeat case_match; done. Qed.

Lemma feed_engine_frame raw rt : frame (feed_engine raw rt).1 = frame rt.
Proof. unfold feed_engine. by destruct (eng_feed raw (rt_engine rt)). Qed.

Lemma push_output_frame now data n rt : frame (push_output now data n rt) = frame rt.
Proof. unfold push_output. by repeat case_match. Qed.

Lemma journal_modes_frame now rt : frame (journal_modes_if_changed now rt) = frame rt.
Proof.
  unfold journal_modes_if_changed. case_match; [done|].
  by rewrite <- (journal_event_frame (record_policy_event now (bs "modes") (modes_value (modes_load (rt_shared_modes rt)))) rt).
Qed.

Lemma journal_checkpoint_frame now anchored rt : frame (journal_checkpoint now anchored rt) = frame rt.
Proof.
  unfold journal_checkpoint. destruct (rt_journal rt); [|done].
  by rewrite <- (journal_event_frame (rc_record now CheckpointRef (encode_checkpoint (checkpoint_of anchored rt))) rt).
Qed.

Lemma journal_checkpoint_if_due_frame now idle rt : frame (journal_checkpoint_if_due now idle rt) = frame rt.
Proof. unfold journal_checkpoint_if_due. case_match; [apply journal_checkpoint_frame|done]. Qed.

Lemma resize_pty_frame now ok rows cols rt : frame (resize_pty now ok rows cols rt).1 = frame rt.
Proof.
  unfold resize_pty. repeat case_match; try done. cbn -[journal_resize].
  match goal with |- frame (?r <| rt_resizes_sent := ?f |>) = _ => change (frame r = frame rt) end.
  unfold journal_resize. by rewrite journal_event_frame.
Qed.

Lemma register_attachment_frame now ok kind role viewport rt :
  frame (register_attachment now ok kind role viewport rt).1 = frame rt.
Proof.
  unfold register_attachment. destruct (register now kind role viewport _) as [registry [id r]].
  destruct r; [done|]. destruct viewport as [[rows cols]|]; [|done]. case_match; [|done].
  match goal with |- context [resize_pty ?a ?b ?c ?d ?e] => pose proof (resize_pty_frame a b c d e) as Hf; destruct (resize_pty a b c d e) end.
  exact Hf.
Qed.

Lemma unregister_attachment_frame id rt : frame (unregister_attachment id rt) = frame rt.
Proof. unfold unregister_attachment. by case_match. Qed.

Lemma journal_terminal_end_frame now code exit detail rt : frame (journal_terminal_end now code exit detail rt) = frame rt.
Proof.
  unfold journal_terminal_end. rewrite <- (journal_event_frame (rc_record now Lifecycle (encode_lifecycle_payload code exit detail)) rt).
  fold (journal_lifecycle now code exit detail rt). by case_match.
Qed.

Lemma mark_completed_frame now status exit rt : frame (mark_completed now status exit rt) = frame rt.
Proof.
  unfold mark_completed. set (newly := bool_decide _).
  match goal with |- context [if newly then _ else ?r] => assert (frame r = frame rt) as Hr; [|set (done_rt := r) in *] end.
  { clearbody newly. unfold frame, identity, teardown_pty. destruct exit, newly; cbn; by destruct (rt_completed_at rt). }
  destruct newly; [|exact Hr]. destruct (end_code _); [|exact Hr].
  unfold queue_journal_completion. case_match; [|exact Hr]. by rewrite journal_terminal_end_frame.
Qed.

Lemma refresh_status_frame now exited rt : frame (refresh_status now exited rt).1 = frame rt.
Proof.
  unfold refresh_status. set (polled := match rt_journal rt with Some journal => _ | None => rt end).
  assert (frame polled = frame rt) as <- by (unfold polled; by case_match).
  case_match; [cbn; by case_match|]. destruct exited as [[code|]|]; cbn [fst]; try apply mark_completed_frame.
  by case_match.
Qed.

Lemma close_output_identity now detail idle rt :
  identity (close_output_stream_at_boundary now detail idle rt) = identity rt.
Proof.
  unfold close_output_stream_at_boundary. case_match; [done|].
  match goal with |- context [journal_checkpoint now idle ?r] => pose proof (journal_checkpoint_frame now idle r) as Hc end.
  apply frame_identity in Hc. unfold journal_lifecycle in Hc at 2.
  match type of Hc with context [journal_event ?f ?r] => pose proof (frame_identity _ _ (journal_event_frame f r)) as He end.
  rewrite He in Hc. clear He.
  destruct (rt_pending_journal_completion _) as [[[code exit] d]|]; [|exact Hc].
  match goal with |- identity (journal_terminal_end ?a ?b ?c ?e ?r) = _ => rewrite (frame_identity _ _ (journal_terminal_end_frame a b c e r)) end.
  exact Hc.
Qed.

Lemma publish_identity signals rt :
  let rt' := (publish_terminal_signals signals rt).1 in
  sm_id (rt_meta rt') = sm_id (rt_meta rt)
  ∧ (status_of rt' = status_of rt → rt_notified_output_epoch rt' = rt_notified_output_epoch rt).
Proof.
  unfold publish_terminal_signals.
  assert (∀ t r, frame (apply_terminal_title t r).1 = frame r) as Ht.
  { intros t r. unfold apply_terminal_title. destruct (rt_title_user_set r); [done|]. destruct (len _ =? 0); [done|]. by case_bool_decide. }
  assert (∀ r, frame (apply_terminal_colors signals r).1 = frame r) as Hc.
  { intros r. unfold apply_terminal_colors. case_bool_decide; cbn; by case_bool_decide. }
  destruct (match title signals with Some t => apply_terminal_title t rt | None => (rt, false) end) as [rt1 adopted] eqn:E1.
  assert (frame rt1 = frame rt) as Hf1.
  { destruct (title signals) as [t|]; [|by injection E1 as <- <-]. pose proof (Ht t rt) as Hf. by rewrite E1 in Hf. }
  pose proof (Hc rt1) as Hf2. destruct (apply_terminal_colors signals rt1) as [rt2 changed]. cbn [fst] in Hf2.
  rewrite Hf1 in Hf2. unfold frame, identity in Hf2. injection Hf2 as Hid Hnot Hsig. cbn [fst].
  unfold status_of. rewrite <- Hsig.
  case_bool_decide as Heq; cbn; [by split|]. split; [done|]. intros Hsame. by rewrite Hsame in Heq.
Qed.

(** The session keeps its id, and the mark is only taken away when the
    selected status changes. *)
Definition calm (rt rt' : SessionRuntime (J:=J)) : Prop :=
  sm_id (rt_meta rt') = sm_id (rt_meta rt)
  ∧ (status_of rt' = status_of rt → rt_notified_output_epoch rt' = rt_notified_output_epoch rt).

Lemma calm_identity rt rt' : identity rt' = identity rt → calm rt rt'.
Proof. intros [= Hid Hn]. by split. Qed.

Lemma calm_frame rt rt' : frame rt' = frame rt → calm rt rt'.
Proof. intros Hf. by apply calm_identity, frame_identity. Qed.

Lemma calm_framed rt rt1 rt2 rt' : frame rt1 = frame rt → calm rt1 rt2 → frame rt' = frame rt2 → calm rt rt'.
Proof.
  intros [= Hi1 Hn1 Hs1] [Hi Hn] [= Hi2 Hn2 Hs2]. unfold calm, status_of in *.
  rewrite Hi2, Hn2, Hs2, <- Hi1, <- Hn1, <- Hs1. by split.
Qed.

Lemma ingest_calm now data shown n signals idle rt : calm rt (ingest now data shown n signals idle rt).1.
Proof.
  unfold ingest. pose proof (journal_event_frame (rc_record now Output data) rt) as Hj.
  pose proof (feed_engine_frame data (journal_output now data rt)) as Hf.
  destruct (feed_engine data (journal_output now data rt)) as [fed responses]. cbn [fst] in Hf.
  set (published := match signals with Some s => (publish_terminal_signals s fed).1 | None => fed end).
  assert (calm fed published) as Hp by (unfold published; destruct signals; [apply publish_identity|by apply calm_frame]).
  cbv zeta. set (pushed := push_output now shown n published).
  set (ended := journal_checkpoint_if_due now idle (journal_modes_if_changed now pushed)).
  assert (frame ended = frame published) as He.
  { unfold ended. rewrite journal_checkpoint_if_due_frame, journal_modes_frame. apply push_output_frame. }
  apply (calm_framed rt fed published); [by etrans; [|exact Hj]|done|]. by destruct (rt_journal_failed ended).
Qed.

Lemma read_chunk_calm now data s : calm (ss_runtime s) (ss_runtime (read_chunk now data s)).
Proof.
  unfold read_chunk. destruct (negb _); [by apply calm_frame|]. destruct (scan _ _ _ _) as [scanner out].
  destruct (take_changed_signals scanner) as [changed scanner'].
  match goal with |- context [ingest ?a ?b ?c ?d ?e ?f ?g] => pose proof (ingest_calm a b c d e f g) as Hi; destruct (ingest a b c d e f g) as [rt [[responses offset] [stop|]]] end;
    exact Hi.
Qed.

Definition notifies (op : SessionOp (J:=J)) : bool := match op with OpNotify _ => true | _ => false end.

Lemma session_step_calm op s : notifies op = false → calm (ss_runtime s) (ss_runtime (session_step s op)).
Proof.
  destruct op; intros Hop; try discriminate Hop; cbn [session_step].
  - apply read_chunk_calm.
  - unfold broadcast_chunk. by case_match; apply calm_frame.
  - unfold answer. repeat case_match; by apply calm_frame.
  - unfold end_reading. case_match; by apply calm_frame.
  - unfold close_out. case_match; [apply calm_identity, close_output_identity|by apply calm_frame].
  - cbn. case_match; by apply calm_frame.
  - apply calm_frame; reflexivity.
  - apply calm_frame; reflexivity.
  - apply calm_frame, register_attachment_frame.
  - apply calm_frame, unregister_attachment_frame.
  - apply calm_frame; reflexivity.
  - apply calm_frame, resize_pty_frame.
  - apply calm_frame; reflexivity.
  - cbn. case_match; by apply calm_frame.
  - apply calm_frame, refresh_status_frame.
  - apply calm_frame, mark_completed_frame.
  - cbn. case_match; by apply calm_frame.
Qed.

(** ** The state between looking and committing *)

(** The clock moves on, nothing else writes the mark, and a session is filed
    under its id. *)
Fixpoint proper (t : N) (ops : list MonitorOp) : Prop :=
  match ops with
  | [] => True
  | Tick now _ :: ops => t <= now ∧ proper now ops
  | HandleNext now later :: ops => t <= now ∧ now <= later ∧ proper later ops
  | SessionDoes _ op :: ops => notifies op = false ∧ proper t ops
  | InsertSession id s :: ops => sm_id (rt_meta (ss_runtime s)) = id ∧ proper t ops
  | _ :: ops => proper t ops
  end.
Definition clock_after (t : N) (op : MonitorOp) : N :=
  match op with Tick now _ => now | HandleNext _ later => later | _ => t end.

Definition filed (sessions : by_id Watched) : Prop :=
  ∀ id w, sessions !! id = Some w → sm_id (rt_meta (wt_runtime w)) = id.
Definition past (t : N) (sessions : by_id Watched) : Prop :=
  ∀ id w last, sessions !! id = Some w → wt_last_notified_at w = Some last → last <= t.

(** What looking at [t] or before made sure of. *)
Record taken (t : N) (c : SilentCandidate) : Prop := {
  tk_epoch : sc_output_epoch c + SUPPRESSION_WINDOW <= t;
  tk_user : ∀ a, sc_user_activity_epoch c = Some a → a + SUPPRESSION_WINDOW <= t;
  tk_silence : sc_silence_epoch c = match sc_user_activity_epoch c with
                                    | Some a => N.max a (sc_output_epoch c) | None => sc_output_epoch c end;
  tk_alone : sc_should_notify c = true → ∀ a, sc_user_activity_epoch c = Some a →
      a < sc_output_epoch c ∧ (sc_program_status c = None → a + USER_ACTIVITY_WINDOW < sc_output_epoch c);
}.
Definition apart (min_interval t : N) (sessions : by_id Watched) (c : SilentCandidate) : Prop :=
  sc_should_notify c = true → ∀ w last,
    sessions !! sc_session_id c = Some w → wt_last_notified_at w = Some last → last + min_interval <= t.

Record monitor_inv (t : N) (m : Monitor) : Prop := {
  mi_filed : filed (mn_sessions m);
  mi_past : past t (mn_sessions m);
  mi_now : mn_now m <= t;
  mi_look : mn_looking m ≠ [] → past (mn_now m) (mn_sessions m);
  mi_taken : Forall (taken t) (mn_pending m);
  mi_apart : Forall (apart (interval_of (mn_settings m)) t (mn_sessions m)) (mn_pending m);
  mi_distinct : NoDup (map sc_session_id (mn_pending m) ++ mn_looking m);
}.

Lemma candidate_taken now min_interval w c :
  candidate_of now SUPPRESSION_WINDOW min_interval w = Some c → (∀ last, wt_last_notified_at w = Some last → last <= now) →
  sc_session_id c = sm_id (rt_meta (wt_runtime w)) ∧ taken now c
  ∧ (sc_should_notify c = true → ∀ last, wt_last_notified_at w = Some last → last + min_interval <= now).
Proof.
  unfold candidate_of. intros Hc Hlast. unfold SUPPRESSION_WINDOW, USER_ACTIVITY_WINDOW, activity_driven in *.
  destruct (is_completed _ && _); [done|]. destruct (reported _ _); [done|].
  destruct (_ <? 5000) eqn:Hwin in Hc; [done|]. apply N.ltb_ge in Hwin.
  destruct (_ && match wt_last_notified_at w with Some _ => _ | None => _ end) eqn:Hint in Hc; [done|].
  case_bool_decide; [done|]. injection Hc as <-. cbn.
  split; [done|]. split.
  - split; cbn; unfold SUPPRESSION_WINDOW, USER_ACTIVITY_WINDOW.
    + destruct (user_activity_epoch _); lia.
    + intros a Ha. rewrite Ha in Hwin. lia.
    + done.
    + intros Hs a Ha. rewrite Ha in Hs. destruct (status_of _).
      * apply N.ltb_lt in Hs. by split.
      * apply negb_true_iff, orb_false_iff in Hs as [?%N.leb_gt ?%N.leb_gt]. split; [done|]. intros _. lia.
  - intros Hs last Hl. rewrite Hs, Hl in Hint. cbn in Hint. apply N.ltb_ge in Hint. specialize (Hlast _ Hl). lia.
Qed.

(** ** Steps of the monitor *)

Definition committed (c : SilentCandidate) (w : Watched) (later : N) : Watched :=
  set_notified (sc_output_epoch c) w <| wt_last_notified_at := Some later |>.
Definition acknowledged (c : SilentCandidate) (w : Watched) : Watched := set_notified (sc_output_epoch c) w.

(** The three ends of a turn. *)
Inductive handled (now later : N) (c : SilentCandidate) (m : Monitor) : Monitor → Prop :=
  | HandledNothing : handled now later c m m
  | HandledInput w :
      mn_sessions m !! sc_session_id c = Some w → is_current c (wt_runtime w) = true → sc_should_notify c = false →
      silence_of (mn_settings m) <= now - sc_silence_epoch c →
      handled now later c m
        (m <| mn_sessions := <[sc_session_id c := acknowledged c w]> (mn_sessions m) |>
           <| mn_events := mn_events m ++ [SessionUpdated (rt_meta (wt_runtime (acknowledged c w)))] |>)
  | HandledAnnounced w rule detail :
      mn_sessions m !! sc_session_id c = Some w → is_current c (wt_runtime w) = true → sc_should_notify c = true →
      trigger_of (mn_settings m) now c = Some (rule, detail) →
      let event := event_of c rule detail in
      handled now later c m
        (m <| mn_sessions := <[sc_session_id c := committed c w later]> (mn_sessions m) |>
           <| mn_dispatched := mn_dispatched m ++ (if sc_enabled_for_channels c then [event] else []) |>
           <| mn_announced := mn_announced m ++ [mk_announcement (sc_session_id c) later event] |>
           <| mn_events := mn_events m
                ++ [Notified (into_session_event event (sc_last_total_bytes c) (sc_enabled_for_channels c))] |>).

Lemma monitor_eta_events m : m <| mn_sessions := mn_sessions m |> <| mn_events := mn_events m ++ [] |> = m.
Proof. destruct m. cbn. by rewrite app_nil_r. Qed.

Lemma handle_handled now later c m : handled now later c m (handle_candidate now later c m).
Proof.
  unfold handle_candidate. destruct (sc_should_notify c) eqn:Es; cbn [negb].
  - destruct (trigger_of (mn_settings m) now c) as [[rule detail]|] eqn:Et; [|constructor]. unfold mark_notified.
    destruct (mn_sessions m !! sc_session_id c) as [w|] eqn:Ew; [|constructor].
    destruct (is_current c (wt_runtime w)) eqn:Ec; cbn [negb]; [|constructor]. by apply (HandledAnnounced now later c m w rule detail).
  - destruct (_ <? silence_of _) eqn:El; [constructor|]. apply N.ltb_ge in El. unfold mark_input_required.
    destruct (mn_sessions m !! sc_session_id c) as [w|] eqn:Ew; [|rewrite monitor_eta_events; constructor].
    destruct (is_current c (wt_runtime w)) eqn:Ec; cbn [negb]; [|rewrite monitor_eta_events; constructor].
    by apply (HandledInput now later c m w).
Qed.

Lemma set_notified_id epoch w : sm_id (rt_meta (wt_runtime (set_notified epoch w))) = sm_id (rt_meta (wt_runtime w)).
Proof. done. Qed.

(** Time passes and candidates are taken off the list. *)
Lemma inv_pending t t' m pending :
  monitor_inv t m → t <= t' → pending `sublist_of` mn_pending m → monitor_inv t' (m <| mn_pending := pending |>).
Proof.
  intros [Hf Hp Hnow Hlk Htk Hap Hnd] Ht Hsub. split; cbn; [done| |lia|done| | |].
  - intros i x last Hx Hl. specialize (Hp _ _ _ Hx Hl). lia.
  - eapply Forall_sublist; [|exact Hsub]. eapply Forall_impl; [exact Htk|]. intros c [? Hu ? ?]. split; [lia| |done..].
    intros a Ha. specialize (Hu a Ha). lia.
  - eapply Forall_sublist; [|exact Hsub]. eapply Forall_impl; [exact Hap|]. intros c Hc Hs w last Hw Hl.
    specialize (Hc Hs w last Hw Hl). lia.
  - eapply sublist_NoDup; [exact Hnd|]. apply sublist_app; [|done]. by apply (fmap_sublist sc_session_id).
Qed.

Lemma inv_time t t' m : monitor_inv t m → t <= t' → monitor_inv t' m.
Proof. intros I Ht. destruct m. by apply (inv_pending t t' _ _ I Ht). Qed.

(** A session replaces the one under its id, announced by now at the latest;
    if it was announced meanwhile, no candidate of it is left. *)
Lemma inv_insert t m id w w' :
  monitor_inv t m → mn_sessions m !! id = Some w → sm_id (rt_meta (wt_runtime w')) = sm_id (rt_meta (wt_runtime w)) →
  (wt_last_notified_at w' = wt_last_notified_at w
   ∨ wt_last_notified_at w' = Some t ∧ id ∉ map sc_session_id (mn_pending m) ∧ mn_looking m = []) →
  monitor_inv t (m <| mn_sessions := <[id := w']> (mn_sessions m) |>).
Proof.
  intros [Hf Hp Hnow Hlk Htk Hap Hnd] Hw Hid Hcase.
  assert (∀ b, past b (mn_sessions m) → (t <= b ∨ wt_last_notified_at w' = wt_last_notified_at w) →
    past b (<[id := w']> (mn_sessions m))) as Hpast.
  { intros b Hb Hor i x last. destruct (decide (id = i)) as [<-|]; [rewrite lookup_insert_eq|rewrite lookup_insert_ne by done; by apply Hb].
    intros [= <-] Hl. destruct Hcase as [Heq|(Heq & _)]; [rewrite Heq in Hl; by apply (Hb id w)|].
    rewrite Heq in Hl. injection Hl as <-. destruct Hor as [?|Hsame]; [lia|].
    apply (Hb id w t Hw). by rewrite <- Hsame. }
  split; cbn; [|apply Hpast; [done|by left]|done| |done| |done].
  - intros i x. destruct (decide (id = i)) as [<-|]; [rewrite lookup_insert_eq|rewrite lookup_insert_ne by done; by apply Hf].
    intros [= <-]. rewrite Hid. by apply Hf.
  - intros Hne. apply Hpast; [by apply Hlk|]. destruct Hcase as [?|(_ & _ & ?)]; [by right|done].
  - rewrite Forall_forall in Hap |- *. intros c Hc Hs x last.
    destruct (decide (id = sc_session_id c)) as [->|]; [rewrite lookup_insert_eq|rewrite lookup_insert_ne by done; by apply Hap].
    intros [= <-] Hl. destruct Hcase as [Heq|(_ & Hnin & _)]; [rewrite Heq in Hl; by apply (Hap c Hc Hs w)|].
    exfalso. apply Hnin, list_elem_of_fmap. by exists c.
Qed.

(** Fields the invariant does not mention. *)
Lemma inv_sent t m m' :
  monitor_inv t m → mn_sessions m' = mn_sessions m → mn_pending m' = mn_pending m → mn_looking m' = mn_looking m →
  mn_settings m' = mn_settings m → mn_now m' = mn_now m → monitor_inv t m'.
Proof. intros [] Es Ep El Ec En. split; by rewrite ?Es, ?Ep, ?El, ?Ec, ?En. Qed.

Lemma inv_handle t now later c pending m :
  monitor_inv t m → mn_looking m = [] → mn_pending m = c :: pending → t <= now → now <= later →
  monitor_inv later (handle_candidate now later c (m <| mn_pending := pending |>)).
Proof.
  intros I Hlook Hpend Ht Hl. assert (c.(sc_session_id) ∉ map sc_session_id pending) as Hnin.
  { pose proof (mi_distinct _ _ I) as Hnd. rewrite Hpend, Hlook, app_nil_r in Hnd. by apply NoDup_cons in Hnd as [? _]. }
  assert (monitor_inv later (m <| mn_pending := pending |>)) as I'.
  { apply (inv_pending t); [done|lia|]. rewrite Hpend. by apply sublist_cons. }
  destruct (handle_handled now later c (m <| mn_pending := pending |>)) as [|w Hw|w rule detail Hw]; [done| |].
  - refine (inv_sent later _ _ (inv_insert later _ _ w (acknowledged c w) I' Hw _ _) _ _ _ _ _); [done|by left|done..].
  - refine (inv_sent later _ _ (inv_insert later _ _ w (committed c w later) I' Hw _ _) _ _ _ _ _); [done|by right|done..].
Qed.

(** An operation on one session. *)
Lemma inv_on_session t id f m :
  monitor_inv t m → (∀ s, sm_id (rt_meta (ss_runtime (f s))) = sm_id (rt_meta (ss_runtime s))) →
  monitor_inv t (on_session id f m).
Proof.
  intros I Hf. unfold on_session. destruct (mn_sessions m !! id) as [w|] eqn:Ew.
  - assert (alter (λ w, w <| wt_session := f (wt_session w) |>) id (mn_sessions m)
            = <[id := w <| wt_session := f (wt_session w) |>]> (mn_sessions m)) as ->.
    { apply map_eq. intros i. destruct (decide (i = id)) as [->|].
      - by rewrite lookup_alter_eq, lookup_insert_eq, Ew.
      - by rewrite lookup_alter_ne, lookup_insert_ne by done. }
    apply (inv_insert t m id w); [done|done|apply Hf|by left].
  - eapply inv_sent; [exact I| |done..]. cbn. apply map_eq. intros i. destruct (decide (i = id)) as [->|].
    + by rewrite lookup_alter_eq, Ew.
    + by rewrite lookup_alter_ne.
Qed.

(** The walk over the sessions. *)
Lemma inv_tick t now settings m : monitor_inv t m → t <= now → monitor_inv now (start_tick now settings m).
Proof.
  intros I Ht. unfold start_tick. destruct (mn_looking m) eqn:El; [|by apply (inv_time t)].
  destruct (mn_pending m) eqn:Ep; [|by apply (inv_time t)]. destruct I as [Hf Hp Hnow Hlk Htk Hap Hnd].
  assert (past now (mn_sessions m)) as Hpast by (intros i w last Hw Hl; specialize (Hp _ _ _ Hw Hl); lia).
  split; cbn; rewrite ?Ep; try done. apply NoDup_fst_map_to_list.
Qed.

Lemma inv_look t m : monitor_inv t m → monitor_inv t (look_next m).
Proof.
  intros I. unfold look_next. destruct (mn_looking m) as [|id looking] eqn:El; [done|].
  destruct I as [Hf Hp Hnow Hlk Htk Hap Hnd]. rewrite El in Hnd, Hlk. specialize (Hlk ltac:(done)).
  assert (monitor_inv t (m <| mn_looking := looking |>)) as I'.
  { split; cbn; try done. apply NoDup_app in Hnd as (Hn1 & Hn2 & [_ Hn3]%NoDup_cons). apply NoDup_app. split_and!; [done| |done].
    intros x Hx Hin. apply (Hn2 x Hx). by right. }
  cbn. destruct (mn_sessions m !! id) as [w|] eqn:Hw; [|done]. destruct (candidate_of _ _ _ w) as [c|] eqn:Hc; [|done].
  destruct (candidate_taken _ _ _ _ Hc (λ last, Hlk id w last Hw)) as (Hid & [Hep Hus Hsi Hal] & Hapt). rewrite (Hf _ _ Hw) in Hid.
  destruct I' as [_ _ _ Hlk' _ _ _]. split; cbn; try done.
  - apply Forall_app. split; [done|]. apply Forall_singleton. split; [lia| |done..]. intros a Ha. specialize (Hus a Ha). lia.
  - apply Forall_app. split; [done|]. apply Forall_singleton. intros Hs w' last Hw' Hl. rewrite Hid, Hw in Hw'.
    injection Hw' as <-. specialize (Hapt Hs last Hl). lia.
  - rewrite map_app, <- app_assoc. cbn. by rewrite Hid.
Qed.

Lemma inv_step t m op :
  monitor_inv t m → proper t [op] → monitor_inv (clock_after t op) (monitor_step m op).
Proof.
  intros I Hop. destruct op as [now settings| | |now later|id op|id now|id enabled|id s|id]; cbn [proper clock_after monitor_step] in *.
  - apply (inv_tick t); [done|apply Hop].
  - by apply inv_look.
  - unfold skip_tick. destruct (mn_looking m); [|done]. apply (inv_pending t); [done|done|apply sublist_nil_l].
  - destruct Hop as (Ht & Hl & _). unfold handle_next. destruct (mn_looking m) eqn:El; [|apply (inv_time t); [done|lia]].
    destruct (mn_pending m) as [|c l] eqn:Ep; [apply (inv_time t); [done|lia]|by apply (inv_handle t)].
  - destruct Hop as [Hn _]. apply inv_on_session; [done|]. intros s. by apply session_step_calm.
  - by apply inv_on_session.
  - apply inv_on_session; [done|]. intros s. cbn. unfold set_notifications_enabled. by case_bool_decide.
  - destruct Hop as [Hid _]. destruct I as [Hf Hp Hnow Hlk Htk Hap Hnd].
    assert (∀ b, past b (mn_sessions m) → past b (<[id := mk_watched s None]> (mn_sessions m))) as Hpast.
    { intros b Hb i w last. destruct (decide (id = i)) as [<-|]; [rewrite lookup_insert_eq|rewrite lookup_insert_ne by done; by apply Hb].
      by intros [= <-]. }
    split; cbn; [|by apply Hpast|done|intros Hne; by apply Hpast, Hlk|done| |done].
    + intros i w. destruct (decide (id = i)) as [<-|]; [rewrite lookup_insert_eq|rewrite lookup_insert_ne by done; by apply Hf].
      by intros [= <-].
    + eapply Forall_impl; [exact Hap|]. intros c Hc Hs w last.
      destruct (decide (id = sc_session_id c)) as [->|]; [rewrite lookup_insert_eq|rewrite lookup_insert_ne by done; by apply Hc].
      by intros [= <-].
  - destruct I as [Hf Hp Hnow Hlk Htk Hap Hnd].
    assert (∀ b, past b (mn_sessions m) → past b (delete id (mn_sessions m))) as Hpast.
    { intros b Hb i w last [_ Hw]%lookup_delete_Some. by apply (Hb i). }
    split; cbn; [|by apply Hpast|done|intros Hne; by apply Hpast, Hlk|done| |done].
    + intros i w [_ Hw]%lookup_delete_Some. by apply Hf.
    + eapply Forall_impl; [exact Hap|]. intros c Hc Hs w last [_ Hw]%lookup_delete_Some. by apply Hc.
Qed.

(** ** Announcements *)

Lemma proper_app t a b : proper t (a ++ b) ↔ proper t a ∧ proper (foldl clock_after t a) b.
Proof.
  revert t. induction a as [|op a IH]; intros t; [cbn; tauto|].
  destruct op; cbn [app proper foldl clock_after]; rewrite IH; tauto.
Qed.

Lemma inv_run t ops m :
  monitor_inv t m → proper t ops → monitor_inv (foldl clock_after t ops) (monitor_run ops m).
Proof.
  revert t m. induction ops as [|op ops IH]; intros t m I Hp; [done|]. change (op :: ops) with ([op] ++ ops) in Hp.
  apply proper_app in Hp as [Hop Hops]. cbn. apply IH; [|done]. by apply inv_step.
Qed.

(** Between two ticks. *)
Definition idle (m : Monitor) : Prop := mn_looking m = [] ∧ mn_pending m = [].

(** A monitor that starts: the sessions are filed and were announced before. *)
Definition starting (t : N) (m : Monitor) : Prop :=
  filed (mn_sessions m) ∧ past t (mn_sessions m) ∧ mn_now m <= t ∧ idle m ∧ mn_announced m = [].

Lemma starting_inv t m : starting t m → monitor_inv t m.
Proof.
  intros (Hf & Hp & Hn & [El Ep] & _). split; rewrite ?El, ?Ep; try done. apply NoDup_nil_2.
Qed.

Definition announces (settings : Settings) (id : bytes) (t : N) (w : Watched) (event : NotificationEvent) : Prop :=
  let rt := wt_runtime w in
  let output := effective_output_epoch rt in
  output + SUPPRESSION_WINDOW <= t
  ∧ (∀ u, user_activity_epoch rt = Some u →
       u + SUPPRESSION_WINDOW <= t ∧ u < output
       ∧ (ne_trigger_rule event ≠ Some ProgramStatusRule → u + USER_ACTIVITY_WINDOW < output))
  ∧ (ne_trigger_rule event = Some Silence → output + silence_of settings <= t)
  ∧ rt_notified_output_epoch rt ≠ Some output
  ∧ (∀ last, wt_last_notified_at w = Some last → last + interval_of settings <= t)
  ∧ ne_session_ids event = [id].

Lemma event_rule c rule detail :
  ne_session_ids (event_of c rule detail) = [sc_session_id c]
  ∧ ne_trigger_rule (event_of c rule detail) = Some (match sc_program_status c with Some _ => ProgramStatusRule | None => rule end).
Proof.
  unfold event_of, program_status_event. destruct (sc_program_status c) as [report|]; [|done].
  by destruct (report_label _) as [[? ?]|].
Qed.

Lemma is_current_spec c rt :
  is_current c rt = true →
  effective_output_epoch rt = sc_output_epoch c ∧ user_activity_epoch rt = sc_user_activity_epoch c
  ∧ rt_notified_output_epoch rt ≠ Some (sc_output_epoch c).
Proof.
  unfold is_current. intros [[H1'%N.eqb_eq H2'%bool_decide_eq_true]%andb_true_iff H3'%negb_true_iff%bool_decide_eq_false]%andb_true_iff.
  done.
Qed.

Lemma on_session_marks id f m i w' :
  mn_sessions (on_session id f m) !! i = Some w' →
  ∃ w, mn_sessions m !! i = Some w ∧ wt_last_notified_at w' = wt_last_notified_at w.
Proof. cbn. intros [(<- & w & Hw & ->)|[_ Hw]]%lookup_alter_Some; by eexists. Qed.

(** The only step that announces, and what holds then. *)
Lemma step_announces t m op :
  monitor_inv t m → proper t [op] →
  mn_announced (monitor_step m op) = mn_announced m
  ∧ (∀ id, (∀ s, op ≠ InsertSession id s) →
       ∀ w', mn_sessions (monitor_step m op) !! id = Some w' →
         ∃ w, mn_sessions m !! id = Some w ∧ wt_last_notified_at w' = wt_last_notified_at w)
  ∨ ∃ now later id w event,
      op = HandleNext now later ∧ mn_sessions m !! id = Some w ∧ announces (mn_settings m) id later w event
      ∧ mn_announced (monitor_step m op) = mn_announced m ++ [mk_announcement id later event]
      ∧ mn_sessions (monitor_step m op)
        = <[id := set_notified (effective_output_epoch (wt_runtime w)) w <| wt_last_notified_at := Some later |>]> (mn_sessions m).
Proof.
  intros I Hop.
  assert (∀ m', mn_announced m' = mn_announced m → mn_sessions m' = mn_sessions m →
    mn_announced m' = mn_announced m ∧ (∀ id, (∀ s, op ≠ InsertSession id s) →
       ∀ w', mn_sessions m' !! id = Some w' → ∃ w, mn_sessions m !! id = Some w ∧ wt_last_notified_at w' = wt_last_notified_at w)) as Hsame.
  { intros m' Ea Es. split; [done|]. intros i _ w'. rewrite Es. by exists w'. }
  destruct op as [now settings| | |now later|id op|id now|id enabled|id s|id]; cbn [monitor_step].
  - left. unfold start_tick. destruct (mn_looking m), (mn_pending m); by apply Hsame.
  - left. unfold look_next. destruct (mn_looking m) as [|id l]; [by apply Hsame|]. cbn.
    destruct (mn_sessions m !! id); [|by apply Hsame]. destruct (candidate_of _ _ _ _); by apply Hsame.
  - left. unfold skip_tick. destruct (mn_looking m); by apply Hsame.
  - unfold handle_next. destruct (mn_looking m); [|left; by apply Hsame].
    destruct (mn_pending m) as [|c l] eqn:Ep; [left; by apply Hsame|].
    pose proof (mi_taken _ _ I) as Htk. pose proof (mi_apart _ _ I) as Hap. rewrite Ep in Htk, Hap.
    apply Forall_cons in Htk as [[Hep Hus Hsi Hal] _]. apply Forall_cons in Hap as [Hap _]. destruct Hop as (Ht & Hl & _).
    destruct (handle_handled now later c (m <| mn_pending := l |>)) as [|w Hw|w rule detail Hw Hc Hs Htr event].
    + left. by apply Hsame.
    + left. split; [done|]. intros i _ w' Hw'. cbn in Hw'.
      destruct (decide (sc_session_id c = i)) as [<-|]; [rewrite lookup_insert_eq in Hw'|rewrite lookup_insert_ne in Hw' by done; by exists w'].
      injection Hw' as <-. by exists w.
    + right. exists now, later, (sc_session_id c), w, event.
      apply is_current_spec in Hc as (Eo & Eu & Hn). destruct (event_rule c rule detail) as [Eids Erule].
      split_and!; [done|done| |done|by rewrite Eo]. unfold announces. rewrite Eo, Eu. split_and!; [lia| | |done| |done].
      * intros u Hu. specialize (Hus u Hu). destruct (Hal Hs u Hu) as [Hlt Hnone]. split_and!; [lia|done|].
        fold event in Erule. rewrite Erule. destruct (sc_program_status c); [by intros Hne|]. intros _. by apply Hnone.
      * fold event in Erule. rewrite Erule. revert Htr. unfold trigger_of. destruct (sc_program_status c); [by intros _ ?|].
        destruct (find_prompt_match _ _); [by intros [= <- <-] ?|]. cbn. destruct (silence_of (mn_settings m) <=? _) eqn:El; [|done].
        intros _ _. apply N.leb_le in El. rewrite Hsi in El. destruct (sc_user_activity_epoch c); lia.
      * intros last Hlast. specialize (Hap Hs w last Hw Hlast). lia.
  - left. split; [done|]. intros i _ w'. apply on_session_marks.
  - left. split; [done|]. intros i _ w'. apply on_session_marks.
  - left. split; [done|]. intros i _ w'. apply on_session_marks.
  - left. split; [done|]. intros i Hi w'. cbn. destruct (decide (id = i)) as [<-|]; [by destruct (Hi s)|].
    rewrite lookup_insert_ne by done. intros Hw'. by exists w'.
  - left. split; [done|]. intros i _ w'. cbn. intros [_ Hw]%lookup_delete_Some. by exists w'.
Qed.

(** When a session was announced. *)
Definition times (id : bytes) (l : list Announcement) : list N :=
  map an_at (filter (λ a, an_session a = id) l).

Lemma times_snoc id l a : times id (l ++ [a]) = times id l ++ (if decide (an_session a = id) then [an_at a] else []).
Proof. unfold times. rewrite filter_app, map_app. f_equal. by rewrite filter_cons; case_decide. Qed.

Lemma StronglySorted_snoc {A} (R : A → A → Prop) l x :
  StronglySorted R l → Forall (λ y, R y x) l → StronglySorted R (l ++ [x]).
Proof.
  induction 1 as [|y l Hl IH Hy]; intros Hx; [by repeat constructor|]. apply Forall_cons in Hx as [Hyx Hx].
  cbn. constructor; [by apply IH|]. apply Forall_app. by split; [|constructor].
Qed.

(** The announcements of a session so far are spaced, and the session
    remembers the latest. *)
Definition spaced (min_interval : N) (id : bytes) (m : Monitor) : Prop :=
  StronglySorted (λ a b, a + min_interval <= b) (times id (mn_announced m))
  ∧ ∀ w, mn_sessions m !! id = Some w →
      Forall (λ x, ∃ last, wt_last_notified_at w = Some last ∧ x <= last) (times id (mn_announced m)).

(** No tick reads a shorter interval. *)
Definition at_least (min_interval : N) (op : MonitorOp) : Prop :=
  match op with Tick _ settings => min_interval <= interval_of settings | _ => True end.
Definition ticking (min_interval : N) (m : Monitor) : Prop := idle m ∨ min_interval <= interval_of (mn_settings m).

Lemma handle_candidate_tick now later c m :
  let m' := handle_candidate now later c m in
  mn_looking m' = mn_looking m ∧ mn_pending m' = mn_pending m ∧ mn_settings m' = mn_settings m.
Proof. cbn. by destruct (handle_handled now later c m). Qed.

Lemma ticking_step min_interval m op :
  at_least min_interval op → ticking min_interval m → ticking min_interval (monitor_step m op).
Proof.
  intros Hop Ht. destruct op as [now settings| | |now later|id op|id now|id enabled|id s|id]; cbn [monitor_step]; try exact Ht.
  - unfold start_tick. destruct (mn_looking m); [|exact Ht]. destruct (mn_pending m); [|exact Ht]. by right.
  - unfold look_next. destruct (mn_looking m) as [|id l] eqn:El; [exact Ht|].
    destruct Ht as [[El' _]|Ht]; [congruence|right]. cbn. destruct (mn_sessions m !! id); [|done].
    by destruct (candidate_of _ _ _ _).
  - unfold skip_tick. destruct (mn_looking m) eqn:El; [|exact Ht]. left. by split.
  - unfold handle_next. destruct (mn_looking m) eqn:El; [|exact Ht]. destruct (mn_pending m) as [|c l] eqn:Ep; [exact Ht|].
    destruct (handle_candidate_tick now later c (m <| mn_pending := l |>)) as (_ & _ & Es).
    destruct Ht as [[_ Ep']|Ht]; [congruence|right]. by rewrite Es.
Qed.

Lemma spaced_step min_interval t id m op :
  monitor_inv t m → proper t [op] → ticking min_interval m → (∀ s, op ≠ InsertSession id s) →
  spaced min_interval id m → spaced min_interval id (monitor_step m op).
Proof.
  intros I Hop Htick Hid [Hs Hl].
  destruct (step_announces t m op I Hop) as [[Ea Hw]|(now & later & i & w & event & -> & Hw & Han & Ea & Es)]; unfold spaced; rewrite Ea.
  - split; [done|]. intros w' Hw'. destruct (Hw id Hid w' Hw') as (w & Hw0 & Heq). rewrite Heq. by apply Hl.
  - rewrite Es, times_snoc. cbn [an_session an_at]. case_decide as Hi; [subst i|].
    + assert (Forall (λ y, y + min_interval <= later) (times id (mn_announced m))) as Hall.
      { assert (min_interval <= interval_of (mn_settings m)).
        { destruct Htick as [[El Ep]|]; [|done]. exfalso. apply (f_equal length) in Ea. revert Ea. cbn [monitor_step].
          unfold handle_next. rewrite El, Ep, length_app. cbn. lia. }
        eapply Forall_impl; [by apply (Hl w)|]. intros x (last & Hlast & Hx).
        destruct Han as (_ & _ & _ & _ & Hgap & _). specialize (Hgap last Hlast). lia. }
      split; [by apply StronglySorted_snoc|]. intros w'. rewrite lookup_insert_eq. intros [= <-].
      apply Forall_app. split; [|constructor; [|constructor]; by exists later].
      eapply Forall_impl; [exact Hall|]. intros x Hx. exists later. cbn in Hx. split; [done|lia].
    + rewrite app_nil_r. split; [done|]. intros w'. rewrite lookup_insert_ne by done. apply Hl.
Qed.

(** C38: Whatever happens between the monitor's looking and its committing, and
    however its settings are changed from tick to tick: a session is announced
    only while it has neither shown anything nor been used for five seconds,
    when its last output was not an answer to its user (three seconds without a
    status report), and, by silence alone, after the time configured in that
    tick; the event names the session; and the announcements of one session are
    at least as far apart as the shortest interval any tick has read. *)
Theorem announcements_are_due t ops m :
  starting t m → proper t ops →
  (∀ before op after, ops = before ++ op :: after →
     ∀ a, mn_announced (monitor_step (monitor_run before m) op) = mn_announced (monitor_run before m) ++ [a] →
       ∃ w, mn_sessions (monitor_run before m) !! an_session a = Some w
            ∧ announces (mn_settings (monitor_run before m)) (an_session a) (an_at a) w (an_event a))
  ∧ ∀ id min_interval, (∀ s, InsertSession id s ∉ ops) → Forall (at_least min_interval) ops →
      StronglySorted (λ a b, a + min_interval <= b) (times id (mn_announced (monitor_run ops m))).
Proof.
  intros Hstart Hp. pose proof (starting_inv t m Hstart) as I. split.
  - intros before op after -> a Ha. apply proper_app in Hp as [Hb Hop]. change (op :: after) with ([op] ++ after) in Hop.
    apply proper_app in Hop as [Hop _]. pose proof (inv_run t before m I Hb) as I'.
    destruct (step_announces _ _ _ I' Hop) as [[Ea _]|(now & later & i & w & event & -> & Hw & Han & Ea & _)]; rewrite Ea in Ha.
    + apply (f_equal length) in Ha. rewrite length_app in Ha. cbn in Ha. lia.
    + apply app_inj_tail in Ha as [_ <-]. by exists w.
  - intros id min_interval Hid Hmin. destruct Hstart as (_ & _ & _ & Hidle & Ea).
    assert (spaced min_interval id m) as Hs by (unfold spaced; rewrite Ea; split; [constructor|]; intros w _; constructor).
    assert (ticking min_interval m) as Htick by by left.
    cut (spaced min_interval id (monitor_run ops m)); [by intros []|]. clear Hidle Ea. revert t m I Hp Hid Hs Htick.
    induction Hmin as [|op ops Hop1 _ IH]; intros t m I Hp Hid Hs Htick; [done|]. change (op :: ops) with ([op] ++ ops) in Hp.
    apply proper_app in Hp as [Hop Hops]. cbn. apply (IH (clock_after t op)).
    + by apply inv_step.
    + exact Hops.
    + intros s Hin. apply (Hid s). by right.
    + apply (spaced_step min_interval t); [done|done|done| |done]. intros s ->. apply (Hid s). by left.
    + by apply ticking_step.
Qed.

(** ** Once *)

(** The session is still marked for the output it has and the status it
    reports. *)
Definition settled (id : bytes) (e : N) (status : option ProgramStatus) (m : Monitor) : Prop :=
  ∀ w, mn_sessions m !! id = Some w →
    rt_notified_output_epoch (wt_runtime w) = Some e ∧ effective_output_epoch (wt_runtime w) = e
    ∧ status_of (wt_runtime w) = status.
Definition unchanged (id : bytes) (e : N) (status : option ProgramStatus) (m : Monitor) : Prop :=
  ∀ w, mn_sessions m !! id = Some w → effective_output_epoch (wt_runtime w) = e ∧ status_of (wt_runtime w) = status.

Lemma settled_step t id e status m op :
  monitor_inv t m → proper t [op] → (∀ s, op ≠ InsertSession id s) → settled id e status m →
  unchanged id e status (monitor_step m op) →
  settled id e status (monitor_step m op) ∧ times id (mn_announced (monitor_step m op)) = times id (mn_announced m).
Proof.
  intros I Hop Hid Hset Hun.
  assert (∀ w, mn_sessions (monitor_step m op) !! id = Some w → rt_notified_output_epoch (wt_runtime w) = Some e →
            rt_notified_output_epoch (wt_runtime w) = Some e ∧ effective_output_epoch (wt_runtime w) = e ∧ status_of (wt_runtime w) = status) as Hkeep.
  { intros w Hw He. split; [done|]. by apply Hun. }
  assert (∀ i f, op = op → mn_sessions (monitor_step m op) = mn_sessions (on_session i f m) →
            (∀ s, calm (ss_runtime s) (ss_runtime (f s))) → settled id e status (monitor_step m op)) as Hon.
  { intros i f _ Hs Hcalm w Hw. apply Hkeep; [done|]. rewrite Hs in Hw. cbn in Hw.
    apply lookup_alter_Some in Hw as [(-> & w0 & Hw0 & ->)|[_ Hw0]]; [|by apply Hset in Hw0 as [? _]].
    destruct (Hset w0 Hw0) as (Hn & He & Hst). destruct (Hcalm (wt_session w0)) as [_ Hc].
    rewrite <- Hn. apply Hc. change (status_of (wt_runtime (w0 <| wt_session := f (wt_session w0) |>)) = status_of (wt_runtime w0)).
    rewrite Hst. apply Hun. rewrite Hs. cbn. by rewrite lookup_alter_eq, Hw0. }
  assert (∀ m', mn_sessions m' = mn_sessions m → mn_announced m' = mn_announced m →
    settled id e status m' ∧ times id (mn_announced m') = times id (mn_announced m)) as Hsame.
  { intros m' Es Ea. unfold settled. by rewrite Es, Ea. }
  destruct op as [now settings| | |now later|i op|i now|i enabled|i s|i].
  - cbn. unfold start_tick. destruct (mn_looking m), (mn_pending m); by apply Hsame.
  - cbn. unfold look_next. destruct (mn_looking m) as [|i l]; [by apply Hsame|]. cbn.
    destruct (mn_sessions m !! i); [|by apply Hsame]. destruct (candidate_of _ _ _ _); by apply Hsame.
  - cbn. unfold skip_tick. destruct (mn_looking m); by apply Hsame.
  - clear Hon. cbn [monitor_step] in *. unfold handle_next in *. destruct (mn_looking m); [|by apply Hsame].
    destruct (mn_pending m) as [|c l]; [by apply Hsame|].
    destruct (handle_handled now later c (m <| mn_pending := l |>)) as [|w Hw Hc|w rule detail Hw Hc Hs Htr event]; [by split| |].
    all: apply is_current_spec in Hc as (Eo & _ & Hn).
    all: assert (sc_session_id c ≠ id) as Hne by (intros <-; destruct (Hset w Hw) as (Hm & He & _); congruence).
    + split; [|done]. intros w'. cbn. rewrite lookup_insert_ne by done. apply Hset.
    + split; [|etrans; [exact (times_snoc id (mn_announced m) (mk_announcement (sc_session_id c) later event))|];
               cbn [an_session]; by rewrite decide_False, app_nil_r].
      intros w'. cbn. rewrite lookup_insert_ne by done. apply Hset.
  - destruct Hop as [Hn _]. split; [|done]. apply (Hon i (λ s, session_step s op)); [done|done|]. intros s. by apply session_step_calm.
  - split; [|done]. eapply (Hon i); [done|done|]. intros s. by apply calm_frame.
  - split; [|done]. eapply (Hon i); [done|done|]. intros s. apply calm_frame. cbn. unfold set_notifications_enabled. by case_bool_decide.
  - split; [|done]. intros w. cbn. destruct (decide (i = id)) as [->|]; [by destruct (Hid s)|].
    rewrite lookup_insert_ne by done. apply Hset.
  - split; [|done]. intros w. cbn. intros [_ Hw]%lookup_delete_Some. by apply Hset.
Qed.

Lemma settled_run t id e status ops m :
  monitor_inv t m → proper t ops → (∀ s, InsertSession id s ∉ ops) → settled id e status m →
  (∀ k, unchanged id e status (monitor_run (take k ops) m)) →
  times id (mn_announced (monitor_run ops m)) = times id (mn_announced m).
Proof.
  revert t m. induction ops as [|op ops IH]; intros t m I Hp Hid Hset Hun; [done|]. change (op :: ops) with ([op] ++ ops) in Hp.
  apply proper_app in Hp as [Hop Hops].
  destruct (settled_step t id e status m op I Hop) as [Hset' Ht]; [|done|apply (Hun 1%nat)|].
  { intros s ->. apply (Hid s). by left. }
  rewrite <- Ht. cbn. apply (IH (clock_after t op)); [by apply inv_step|exact Hops| |done|].
  - intros s Hin. apply (Hid s). by right.
  - intros k. apply (Hun (S k)).
Qed.

(** A session that was just announced is not announced again while its output
    and the status it reports stay what they are, whatever else happens to it
    and however often the monitor looks. *)
Theorem announced_once t before op after m a :
  starting t m → proper t (before ++ op :: after) →
  let m1 := monitor_run before m in
  let m2 := monitor_step m1 op in
  mn_announced m2 = mn_announced m1 ++ [a] →
  (∀ s, InsertSession (an_session a) s ∉ after) →
  (∀ k w w', mn_sessions m2 !! an_session a = Some w → mn_sessions (monitor_run (take k after) m2) !! an_session a = Some w' →
     effective_output_epoch (wt_runtime w') = effective_output_epoch (wt_runtime w)
     ∧ status_of (wt_runtime w') = status_of (wt_runtime w)) →
  times (an_session a) (mn_announced (monitor_run after m2)) = times (an_session a) (mn_announced m2).
Proof.
  intros Hstart Hp m1 m2 Ha Hid Hun. apply proper_app in Hp as [Hb Hop]. change (op :: after) with ([op] ++ after) in Hop.
  apply proper_app in Hop as [Hop Hafter]. pose proof (inv_run t before m (starting_inv t m Hstart) Hb) as I. fold m1 in I.
  destruct (step_announces _ _ _ I Hop) as [[Ea _]|(now & later & i & w & event & -> & Hw & Han & Ea & Es)]; fold m2 in Ea.
  { rewrite Ea in Ha. apply (f_equal length) in Ha. rewrite length_app in Ha. cbn in Ha. lia. }
  rewrite Ea in Ha. apply app_inj_tail in Ha as [_ <-]. cbn [an_session] in *. fold m2 in Es.
  set (marked := set_notified (effective_output_epoch (wt_runtime w)) w <| wt_last_notified_at := Some later |>) in *.
  assert (mn_sessions m2 !! i = Some marked) as Hm by (rewrite Es; apply lookup_insert_eq).
  apply (settled_run (clock_after (foldl clock_after t before) (HandleNext now later)) i
           (effective_output_epoch (wt_runtime marked)) (status_of (wt_runtime marked))).
  - by apply inv_step.
  - exact Hafter.
  - exact Hid.
  - intros w'. rewrite Hm. by intros [= <-].
  - intros k w' Hw'. by apply (Hun k marked w').
Qed.

(** ** Silent sessions are announced *)

(** What a session must look like at [now] to be announced: it has not been
    marked for its output, nothing of it or its user is new, its last
    announcement is long enough ago; and with a status report the user has not
    been back since, without one its output was no answer to its user and the
    configured time has passed. *)
Definition gone_quiet (settings : Settings) (now : N) (w : Watched) : Prop :=
  let rt := wt_runtime w in
  let output := effective_output_epoch rt in
  let activity := user_activity_epoch rt in
  rt_notified_output_epoch rt ≠ Some output
  ∧ output + SUPPRESSION_WINDOW <= now
  ∧ (∀ u, activity = Some u → u + SUPPRESSION_WINDOW <= now)
  ∧ (∀ last, wt_last_notified_at w = Some last → last + interval_of settings <= now)
  ∧ match status_of rt with
    | Some report =>
        match ps_state report with
        | Working => False
        | ProgramStatus.Done | ProgramStatus.Error => True
        | Idle | Blocked => is_completed rt = false
        end
        ∧ ∀ u, activity = Some u → u < output
    | None =>
        is_completed rt = false ∧ output + silence_of settings <= now
        ∧ ∀ u, activity = Some u → u + silence_of settings <= now ∧ u + USER_ACTIVITY_WINDOW < output
    end.

(** The rules an announcement may name. *)
Definition rule_for (w : Watched) (rule : TriggerRule) : Prop :=
  match status_of (wt_runtime w) with
  | Some _ => rule = ProgramStatusRule
  | None => rule = RegexPattern ∨ rule = Silence
  end.

Lemma gone_quiet_candidate settings now w :
  gone_quiet settings now w →
  ∃ c, candidate_of now SUPPRESSION_WINDOW (interval_of settings) w = Some c
    ∧ sc_should_notify c = true ∧ is_current c (wt_runtime w) = true
    ∧ sc_session_id c = sm_id (rt_meta (wt_runtime w)) ∧ sc_enabled_for_channels c = rt_notifications_enabled (wt_runtime w)
    ∧ sc_program_status c = status_of (wt_runtime w)
    ∧ ∀ later, now <= later → ∃ rule detail, trigger_of settings later c = Some (rule, detail) ∧ rule_for w rule.
Proof.
  unfold gone_quiet, candidate_of, rule_for, SUPPRESSION_WINDOW, USER_ACTIVITY_WINDOW. set (rt := wt_runtime w).
  intros (Hn & Hw & Hu & Hl & Hst).
  set (silence_epoch := match user_activity_epoch rt with Some _ => _ | None => _ end).
  assert (silence_epoch + 5000 <= now) as Hw'.
  { unfold silence_epoch. destruct (user_activity_epoch rt) as [u|]; [|done]. specialize (Hu u eq_refl). lia. }
  replace (now - silence_epoch <? 5000) with false by (symmetry; apply N.ltb_ge; lia).
  replace (match wt_last_notified_at w with Some last => now - last <? interval_of settings | None => false end) with false;
    [|destruct (wt_last_notified_at w) as [last|]; [specialize (Hl last eq_refl); symmetry; apply N.ltb_ge; lia|done]].
  rewrite andb_false_r, (bool_decide_false _ Hn).
  assert (∀ c, sc_output_epoch c = effective_output_epoch rt → sc_user_activity_epoch c = user_activity_epoch rt →
    is_current c rt = true) as Hcur.
  { intros c Eo Eu. unfold is_current. rewrite Eo, Eu, N.eqb_refl, bool_decide_true, bool_decide_false by done. done. }
  destruct (status_of rt) as [report|].
  - destruct Hst as [Hstate Hact].
    assert (is_completed rt && negb (reported (λ s, match s with ProgramStatus.Done | ProgramStatus.Error => true | _ => false end) (Some report)) = false
      ∧ reported (λ s, match s with Working => true | _ => false end) (Some report) = false) as [-> ->].
    { unfold reported. destruct (ps_state report); try done; by rewrite ?Hstate, ?andb_false_r. }
    eexists. split; [done|]. cbn. split_and!; [|by apply Hcur|done..|].
    + destruct (user_activity_epoch rt) as [u|]; [|done]. apply N.ltb_lt. by apply Hact.
    + intros later _. by eexists _, _.
  - destruct Hst as (-> & Hs & Hact). cbn [andb reported].
    assert (activity_driven (effective_output_epoch rt) (user_activity_epoch rt) = false) as ->.
    { unfold activity_driven, USER_ACTIVITY_WINDOW. destruct (user_activity_epoch rt) as [u|]; [|done].
      destruct (Hact u eq_refl) as [_ ?]. apply orb_false_iff. split; apply N.leb_gt; lia. }
    eexists. split; [done|]. cbn. split_and!; [done|by apply Hcur|done..|]. intros later Hlater.
    assert (silence_epoch + silence_of settings <= now).
    { unfold silence_epoch. destruct (user_activity_epoch rt) as [u|]; [|done]. destruct (Hact u eq_refl). lia. }
    unfold trigger_of. cbn. destruct (find_prompt_match _ _) as [p|]; [by exists RegexPattern, (Some p); split; [|left]|].
    exists Silence, None. split; [|by right]. destruct (silence_of settings <=? _) eqn:El; [done|]. apply N.leb_gt in El. lia.
Qed.

(** Handling the candidate of another session. *)
Lemma other_handled id now later c m :
  sc_session_id c ≠ id →
  let m' := handle_candidate now later c m in
  mn_sessions m' !! id = mn_sessions m !! id
  ∧ mn_announced m `prefix_of` mn_announced m' ∧ mn_dispatched m `prefix_of` mn_dispatched m'.
Proof.
  intros Hne. destruct (handle_handled now later c m) as [|w Hw|w rule detail Hw]; cbn; rewrite ?lookup_insert_ne by done;
    split_and!; try done; by apply prefix_app_r.
Qed.

(** The turn of a candidate that is current and due. *)
Lemma handle_announces now later c w rule detail m :
  mn_sessions m !! sc_session_id c = Some w → is_current c (wt_runtime w) = true → sc_should_notify c = true →
  trigger_of (mn_settings m) now c = Some (rule, detail) →
  let event := event_of c rule detail in
  let m' := handle_candidate now later c m in
  mn_sessions m' = <[sc_session_id c := committed c w later]> (mn_sessions m)
  ∧ mk_announcement (sc_session_id c) later event ∈ mn_announced m'
  ∧ (sc_enabled_for_channels c = true → event ∈ mn_dispatched m').
Proof.
  intros Hw Hcur Hs Htr event. unfold handle_candidate, mark_notified. rewrite Hs, Htr, Hw, Hcur. cbn.
  split_and!; [done|apply elem_of_app; right; by left|]. intros ->. apply elem_of_app. right. by left.
Qed.

(** The session was announced, at [now] or later. *)
Definition told (id : bytes) (now : N) (w : Watched) (m : Monitor) : Prop :=
  ∃ at_ event rule w', mk_announcement id at_ event ∈ mn_announced m ∧ now <= at_
    ∧ ne_trigger_rule event = Some rule ∧ rule_for w rule
    ∧ (rt_notifications_enabled (wt_runtime w) = true → event ∈ mn_dispatched m)
    ∧ mn_sessions m !! id = Some w' ∧ wt_last_notified_at w' = Some at_
    ∧ rt_notified_output_epoch (wt_runtime w') = Some (effective_output_epoch (wt_runtime w')).

(** Nothing happens to the session, and the tick goes on. *)
Definition leaves_alone (id : bytes) (op : MonitorOp) : Prop :=
  match op with
  | Tick _ _ | RenderFails => False
  | LookNext | HandleNext _ _ => True
  | SessionDoes i _ | SessionBusy i _ | SetEnabled i _ | InsertSession i _ | RemoveSession i => i ≠ id
  end.

(** A session that has gone quiet is still to be looked at, is a candidate, or
    was announced. *)
Inductive on_its_way (settings : Settings) (now : N) (id : bytes) (w : Watched) (m : Monitor) : Prop :=
  | ow_unseen : id ∈ mn_looking m → mn_sessions m !! id = Some w → on_its_way settings now id w m
  | ow_seen c :
      c ∈ mn_pending m → candidate_of now SUPPRESSION_WINDOW (interval_of settings) w = Some c →
      mn_sessions m !! id = Some w → on_its_way settings now id w m
  | ow_told :
      id ∉ map sc_session_id (mn_pending m) ++ mn_looking m → told id now w m → on_its_way settings now id w m.

Lemma told_kept id now w m m' :
  told id now w m → mn_sessions m' !! id = mn_sessions m !! id → mn_announced m `prefix_of` mn_announced m' →
  mn_dispatched m `prefix_of` mn_dispatched m' → told id now w m'.
Proof.
  intros (at_ & event & rule & w' & Ha & Ht & Hr & Hf & Hd & Hs & Hrest) Es Ea Ed. exists at_, event, rule, w'.
  split_and!; [by eapply elem_of_prefix|done..| |by rewrite Es|apply Hrest|apply Hrest].
  intros He. eapply elem_of_prefix; [by apply Hd|done].
Qed.

Lemma way_kept settings now id w m m' :
  on_its_way settings now id w m → mn_sessions m' !! id = mn_sessions m !! id →
  mn_looking m' = mn_looking m → mn_pending m' = mn_pending m → mn_announced m' = mn_announced m →
  mn_dispatched m' = mn_dispatched m → on_its_way settings now id w m'.
Proof.
  intros Hway Es El Ep Ea Ed. destruct Hway as [Hin Hw|c Hin Hc Hw|Hnin Ht].
  - apply ow_unseen; by rewrite ?El, ?Es.
  - apply (ow_seen _ _ _ _ _ c); by rewrite ?Ep, ?Es.
  - apply ow_told; [by rewrite El, Ep|]. apply (told_kept id now w m); by rewrite ?Ea, ?Ed.
Qed.

Lemma on_session_other i id f m : i ≠ id → mn_sessions (on_session i f m) !! id = mn_sessions m !! id.
Proof. intros Hne. cbn. by rewrite lookup_alter_ne. Qed.

Lemma look_way settings now id w t m :
  monitor_inv t m → gone_quiet settings now w → sm_id (rt_meta (wt_runtime w)) = id →
  mn_settings m = settings → mn_now m = now → on_its_way settings now id w m → on_its_way settings now id w (look_next m).
Proof.
  intros I Hq Hid Eset Enow Hway. unfold look_next. destruct (mn_looking m) as [|i l] eqn:El; [exact Hway|].
  cbn. rewrite Eset, Enow. destruct (gone_quiet_candidate _ _ _ Hq) as (c & Hc & _ & _ & Hcid & _).
  destruct Hway as [Hin Hw|c' Hin Hc' Hw|Hnin Ht].
  - rewrite El in Hin. apply elem_of_cons in Hin as [<-|Hin].
    + rewrite Hw, Hc. apply (ow_seen _ _ _ _ _ c); [apply elem_of_app; right; by left|done|done].
    + destruct (mn_sessions m !! i) as [x|]; [destruct (candidate_of _ _ _ x)|]; by apply ow_unseen.
  - destruct (mn_sessions m !! i) as [x|]; [destruct (candidate_of _ _ _ x)|]; (apply (ow_seen _ _ _ _ _ c'); [|done|done]); try done.
    apply elem_of_app. by left.
  - rewrite El in Hnin. apply not_elem_of_app in Hnin as [Hn1 [Hne Hn2]%not_elem_of_cons].
    destruct (mn_sessions m !! i) as [x|] eqn:Hx; [destruct (candidate_of _ _ _ x) as [c'|] eqn:Hc'|].
    + apply ow_told; [|done]. cbn. rewrite map_app. rewrite !not_elem_of_app. split_and!; [done| |done].
      cbn. assert (mn_looking m ≠ []) as Hl by by rewrite El. pose proof (mi_look _ _ I Hl i x) as Hlast. rewrite Enow in Hlast.
      destruct (candidate_taken _ _ _ _ Hc' (λ last, Hlast last Hx)) as (-> & _). rewrite (mi_filed _ _ I _ _ Hx).
      apply not_elem_of_cons. split; [done|apply not_elem_of_nil].
    + apply ow_told; [|done]. by apply not_elem_of_app.
    + apply ow_told; [|done]. by apply not_elem_of_app.
Qed.

Lemma handle_way settings now id w t now' later m :
  monitor_inv t m → now <= t → t <= now' → now' <= later → gone_quiet settings now w → sm_id (rt_meta (wt_runtime w)) = id →
  mn_settings m = settings → on_its_way settings now id w m → on_its_way settings now id w (handle_next now' later m).
Proof.
  intros I Ht1 Ht2 Ht3 Hq Hid Eset Hway. unfold handle_next. destruct (mn_looking m) eqn:El; [|exact Hway].
  destruct (mn_pending m) as [|c l] eqn:Ep; [exact Hway|].
  pose proof (mi_distinct _ _ I) as Hnd. rewrite Ep, El, app_nil_r in Hnd. apply NoDup_cons in Hnd as [Hcl Hnd].
  set (m1 := m <| mn_pending := l |>). destruct (handle_candidate_tick now' later c m1) as (E1 & E2 & _).
  destruct (gone_quiet_candidate _ _ _ Hq) as (c1 & Hc1 & Hs1 & Hcur1 & Hid1 & Hen1 & Hst1 & Htr1). rewrite Hid in Hid1.
  destruct Hway as [Hin Hw|c' Hin Hc' Hw|Hnin Ht].
  - rewrite El in Hin. by apply not_elem_of_nil in Hin.
  - assert (c' = c1) as -> by congruence. rewrite Ep in Hin. apply elem_of_cons in Hin as [->|Hin].
    + destruct (Htr1 now') as (rule & detail & Htr & Hrule); [lia|]. rewrite <- Eset in Htr.
      assert (mn_sessions m1 !! sc_session_id c = Some w) as Hw1 by by rewrite Hid1.
      destruct (handle_announces now' later c w rule detail m1 Hw1 Hcur1 Hs1 Htr) as (Es & Ha & Hd).
      apply ow_told; [rewrite E1, E2; cbn; rewrite El, app_nil_r; by rewrite <- Hid1|].
      exists later, (event_of c rule detail), rule, (committed c w later). rewrite Hid1 in Ha, Es.
      split_and!; [done|lia| |done|by rewrite <- Hen1|by rewrite Es, lookup_insert_eq|done|].
      * rewrite (proj2 (event_rule c rule detail)), Hst1. unfold rule_for in Hrule. by destruct (status_of _); [rewrite Hrule|].
      * apply is_current_spec in Hcur1 as (Eo & _). cbn. by rewrite <- Eo.
    + assert (sc_session_id c ≠ id) as Hne.
      { intros E. apply Hcl, list_elem_of_fmap. exists c1. by rewrite E, Hid1. }
      destruct (other_handled id now' later c m1 Hne) as (Es & _ & _).
      apply (ow_seen _ _ _ _ _ c1); [by rewrite E2|done|by rewrite Es].
  - rewrite Ep, El, app_nil_r in Hnin. apply not_elem_of_cons in Hnin as [Hne Hnin].
    destruct (other_handled id now' later c m1) as (Es & Ea & Ed); [by intros E; apply Hne|].
    apply ow_told; [rewrite E1, E2; cbn; by rewrite El, app_nil_r|]. by apply (told_kept id now w m).
Qed.

Lemma way_step settings now id w t m op :
  monitor_inv t m → now <= t → proper t [op] → gone_quiet settings now w → sm_id (rt_meta (wt_runtime w)) = id →
  leaves_alone id op → mn_settings m = settings → mn_now m = now → on_its_way settings now id w m →
  let m' := monitor_step m op in
  mn_settings m' = settings ∧ mn_now m' = now ∧ on_its_way settings now id w m'.
Proof.
  intros I Ht Hop Hq Hid Hal Eset Enow Hway.
  destruct op as [now' settings'| | |now' later|i op|i now'|i enabled|i s|i]; try done; cbn [monitor_step leaves_alone] in *.
  - split_and!; [..|by eapply look_way]; unfold look_next; destruct (mn_looking m); try done; cbn; destruct (mn_sessions m !! _);
      try done; by destruct (candidate_of _ _ _ _).
  - destruct Hop as (Ht1 & Ht2 & _). split_and!; [..|by eapply handle_way].
    + unfold handle_next. destruct (mn_looking m); [|done]. destruct (mn_pending m) as [|c l]; [done|].
      destruct (handle_candidate_tick now' later c (m <| mn_pending := l |>)) as (_ & _ & ->). done.
    + unfold handle_next. destruct (mn_looking m); [|done]. destruct (mn_pending m) as [|c l]; [done|].
      by destruct (handle_handled now' later c (m <| mn_pending := l |>)).
  - split_and!; [done|done|]. eapply way_kept; [exact Hway|by apply on_session_other|done..].
  - split_and!; [done|done|]. eapply way_kept; [exact Hway|by apply on_session_other|done..].
  - split_and!; [done|done|]. eapply way_kept; [exact Hway|by apply on_session_other|done..].
  - split_and!; [done|done|]. eapply way_kept; [exact Hway| |done..]. cbn. by rewrite lookup_insert_ne.
  - split_and!; [done|done|]. eapply way_kept; [exact Hway| |done..]. cbn. by rewrite lookup_delete_ne.
Qed.

Lemma clock_after_le t op : proper t [op] → t <= clock_after t op.
Proof. destruct op; cbn; lia. Qed.

Lemma way_run settings now id w t ops m :
  monitor_inv t m → now <= t → proper t ops → gone_quiet settings now w → sm_id (rt_meta (wt_runtime w)) = id →
  Forall (leaves_alone id) ops → mn_settings m = settings → mn_now m = now → on_its_way settings now id w m →
  on_its_way settings now id w (monitor_run ops m).
Proof.
  intros I Ht Hp Hq Hid Hal. revert t m I Ht Hp. induction Hal as [|op ops Hop Hal IH]; intros t m I Ht Hp Eset Enow Hway; [done|].
  change (op :: ops) with ([op] ++ ops) in Hp. apply proper_app in Hp as [Hp1 Hps].
  destruct (way_step settings now id w t m op I Ht Hp1 Hq Hid Hop Eset Enow Hway) as (E1 & E2 & Hway').
  pose proof (clock_after_le t op Hp1). apply (IH (clock_after t op)); [by apply inv_step|lia|exact Hps|done..].
Qed.

(** A tick that is not held up comes to its end. *)
Lemma looks_end m :
  mn_looking (monitor_run (repeat LookNext (length (mn_looking m))) m) = [].
Proof.
  remember (mn_looking m) as l eqn:El. revert m El. induction l as [|i l IH]; intros m El; [done|]. cbn [length repeat monitor_run foldl].
  apply IH. cbn [monitor_step]. unfold look_next. rewrite <- El. cbn. destruct (mn_sessions m !! i); [|done].
  by destruct (candidate_of _ _ _ _).
Qed.

Lemma handles_end now m : mn_looking m = [] → idle (monitor_run (repeat (HandleNext now now) (length (mn_pending m))) m).
Proof.
  remember (mn_pending m) as l eqn:Ep. revert m Ep. induction l as [|c l IH]; intros m Ep El; [by split|].
  cbn [length repeat monitor_run foldl]. destruct (handle_candidate_tick now now c (m <| mn_pending := l |>)) as (E1 & E2 & _).
  assert (monitor_step m (HandleNext now now) = handle_candidate now now c (m <| mn_pending := l |>)) as ->
    by (cbn [monitor_step]; unfold handle_next; by rewrite El, <- Ep).
  apply IH; by rewrite ?E1, ?E2.
Qed.

Lemma tick_inv now settings m :
  filed (mn_sessions m) → past now (mn_sessions m) → idle m →
  monitor_inv now (start_tick now settings m) ∧ mn_sessions (start_tick now settings m) = mn_sessions m
  ∧ mn_settings (start_tick now settings m) = settings ∧ mn_now (start_tick now settings m) = now
  ∧ mn_looking (start_tick now settings m) = map fst (map_to_list (mn_sessions m)).
Proof.
  intros Hf Hp [El Ep]. unfold start_tick. rewrite El, Ep. split_and!; [|done..].
  split; cbn; rewrite ?Ep; try done. apply NoDup_fst_map_to_list.
Qed.

(** C39: A program that has gone quiet, or whose report the user has not seen, is
    announced in the tick that finds it so, whatever happens to other sessions
    in the course of the tick: on the channels if the session has them
    enabled, and as a session that needs input.  The tick does come to its end,
    if only the monitor runs. *)
Theorem silence_is_announced now settings ops m id w :
  filed (mn_sessions m) → past now (mn_sessions m) → idle m →
  mn_sessions m !! id = Some w → gone_quiet settings now w →
  let ticked := monitor_step m (Tick now settings) in
  (∃ looks turns, idle (monitor_run (repeat LookNext looks ++ repeat (HandleNext now now) turns) ticked))
  ∧ (proper now ops → Forall (leaves_alone id) ops → idle (monitor_run ops ticked) → told id now w (monitor_run ops ticked)).
Proof.
  intros Hf Hpast Hidle Hw Hq. cbn [monitor_step].
  destruct (tick_inv now settings m Hf Hpast Hidle) as (I & Es & Eset & Enow & El). split.
  - exists (length (mn_looking (start_tick now settings m))).
    eexists. unfold monitor_run. rewrite foldl_app. apply handles_end, looks_end.
  - intros Hp Hal Hend. assert (on_its_way settings now id w (start_tick now settings m)) as Hway.
    { apply ow_unseen; [|by rewrite Es]. rewrite El. apply list_elem_of_fmap. exists (id, w). split; [done|]. by apply elem_of_map_to_list. }
    destruct (way_run settings now id w now ops _ I (N.le_refl _) Hp Hq (Hf _ _ Hw) Hal Eset Enow Hway) as [Hin _|c Hin|_ Ht]; [..|exact Ht].
    + rewrite (proj1 Hend) in Hin. by apply not_elem_of_nil in Hin.
    + rewrite (proj2 Hend) in Hin. by apply not_elem_of_nil in Hin.
Qed.
End Monitor.

(** ** The hook *)

(** Where [split_hook_command] is. *)
Inductive HookState := Bare | SingleQuoted | DoubleQuoted.

Definition separates (c : N) : bool := (c =? 32) || (c =? 9) || (c =? 10) || (c =? 13).

(** [current] is the token so far, [in_token] whether there is one. *)
Fixpoint hook_tokens (state : HookState) (in_token : bool) (current : list N) (cs : list N) : list (list N) :=
  match cs with
  | [] => if in_token then [current] else []
  | c :: cs =>
      match state with
      | Bare =>
          if separates c then if in_token then current :: hook_tokens Bare false [] cs else hook_tokens Bare false current cs
          else if c =? 39 then hook_tokens SingleQuoted true current cs
          else if c =? 34 then hook_tokens DoubleQuoted true current cs
          else if c =? 92 then
            match cs with
            | next :: rest =>
                if (next =? 39) || (next =? 34) || (next =? 92) || is_whitespace next
                then hook_tokens Bare true (current ++ [next]) rest
                else hook_tokens Bare true (current ++ [92]) cs
            | [] => hook_tokens Bare true (current ++ [92]) cs
            end
          else hook_tokens Bare true (current ++ [c]) cs
      | SingleQuoted =>
          if c =? 39 then hook_tokens Bare true current cs else hook_tokens SingleQuoted true (current ++ [c]) cs
      | DoubleQuoted =>
          if c =? 34 then hook_tokens Bare true current cs
          else if c =? 92 then
            match cs with
            | next :: rest =>
                hook_tokens DoubleQuoted true
                  (current ++ (if (next =? 34) || (next =? 92) then [next] else [92; next])) rest
            | [] => [current]
            end
          else hook_tokens DoubleQuoted true (current ++ [c]) cs
      end
  end.

Definition split_hook_command (s : bytes) : option (list bytes) :=
  match utf8_decode s with
  | Some cs =>
      match hook_tokens Bare false [] cs with
      | [] => None
      | tokens => Some (map utf8_encode tokens)
      end
  | None => None
  end.

Definition event_session_ids (e : NotificationEvent) : bytes := join (bs ",") (ne_session_ids e).
Definition event_trigger_rule (e : NotificationEvent) : bytes := default [] (rule_as_str <$> ne_trigger_rule e).

(** The placeholders in the order they are replaced. *)
Definition placeholders (e : NotificationEvent) : list (bytes * bytes) :=
  [(bs "{kind}", kind_as_str (ne_kind e)); (bs "{title}", ne_title e); (bs "{summary}", ne_title e);
   (bs "{description}", ne_description e); (bs "{body}", ne_body e);
   (bs "{navigation_url}", default [] (ne_navigation_url e)); (bs "{node}", default [] (ne_node e));
   (bs "{session_ids}", event_session_ids e); (bs "{trigger_rule}", event_trigger_rule e);
   (bs "{trigger_detail}", default [] (ne_trigger_detail e))].

Definition substitute (e : NotificationEvent) (s : bytes) : bytes :=
  foldl (λ s '(pattern, value), replace pattern value s) s (placeholders e).

Definition hook_env (e : NotificationEvent) : list (bytes * bytes) :=
  [(bs "OLY_EVENT_KIND", kind_as_str (ne_kind e)); (bs "OLY_EVENT_TITLE", ne_title e);
   (bs "OLY_EVENT_SUMMARY", ne_title e); (bs "OLY_EVENT_DESCRIPTION", ne_description e);
   (bs "OLY_EVENT_BODY", ne_body e); (bs "OLY_EVENT_NAVIGATION_URL", default [] (ne_navigation_url e));
   (bs "OLY_EVENT_NODE", default [] (ne_node e)); (bs "OLY_EVENT_SESSION_IDS", event_session_ids e);
   (bs "OLY_EVENT_TRIGGER_RULE", event_trigger_rule e);
   (bs "OLY_EVENT_TRIGGER_DETAIL", default [] (ne_trigger_detail e))].

(** The program that is spawned, its arguments and its environment; [None]
    when the command is empty. *)
Definition run_hook (hook : bytes) (e : NotificationEvent) : option (bytes * list bytes * list (bytes * bytes)) :=
  match map (substitute e) <$> split_hook_command hook with
  | Some (program :: args) => Some (program, args, hook_env e)
  | _ => None
  end.

(** The channel of the local machine: a hook is always delivered, otherwise
    the desktop's answer counts. *)
Definition local_os_send (hook : option bytes) (shown : option bytes) : result AppError unit :=
  match hook, shown with
  | Some _, _ | None, None => Ok tt
  | None, Some err => Err (Protocol (bs "OS notification delivery failed: " ++ err))
  end.

(** Writing a word so that it is read back. *)
Definition quote_char (c : N) : list N := if (c =? 34) || (c =? 92) then [92; c] else [c].
Definition quote_word (w : list N) : list N := [34] ++ concat (map quote_char w) ++ [34].
Fixpoint quote_words (ws : list (list N)) : list N :=
  match ws with
  | [] => []
  | [w] => quote_word w
  | w :: ws => quote_word w ++ [32] ++ quote_words ws
  end.

(** *** Reading a quoted command *)

Lemma hook_tokens_quoted w current rest :
  hook_tokens DoubleQuoted true current (concat (map quote_char w) ++ 34 :: rest) = hook_tokens Bare true (current ++ w) rest.
Proof.
  revert current. induction w as [|c w IH]; intros current; cbn [map concat].
  - by rewrite app_nil_r.
  - unfold quote_char. destruct (c =? 34) eqn:E34; [|destruct (c =? 92) eqn:E92]; cbn [orb app hook_tokens].
    + apply N.eqb_eq in E34 as ->. cbn. rewrite IH. by rewrite <- app_assoc.
    + apply N.eqb_eq in E92 as ->. cbn. rewrite IH. by rewrite <- app_assoc.
    + rewrite E34, E92, IH. by rewrite <- app_assoc.
Qed.

Lemma hook_tokens_word w rest : hook_tokens Bare false [] (quote_word w ++ rest) = hook_tokens Bare true w rest.
Proof. unfold quote_word. rewrite <- !app_assoc. exact (hook_tokens_quoted w [] rest). Qed.

Lemma hook_tokens_words ws : hook_tokens Bare false [] (quote_words ws) = ws.
Proof.
  induction ws as [|w [|w' ws] IH]; [done| |].
  - cbn [quote_words]. rewrite <- (app_nil_r (quote_word w)), hook_tokens_word. done.
  - cbn [quote_words] in IH |- *. rewrite hook_tokens_word. cbn [app hook_tokens separates]. by f_equal.
Qed.

Lemma quoted_scalars ws : Forall (Forall scalar) ws → Forall scalar (quote_words ws).
Proof.
  assert (∀ w, Forall scalar w → Forall scalar (quote_word w)) as Hw.
  { intros w Hw. unfold quote_word. apply Forall_app. split; [by repeat constructor|]. apply Forall_app. split; [|by repeat constructor].
    apply Forall_concat, Forall_map. eapply Forall_impl; [exact Hw|]. intros c Hc. unfold quote_char. cbn.
    destruct (_ || _); repeat constructor; try done. }
  induction ws as [|w [|w' ws] IH]; intros Hall; [constructor| |]; apply Forall_cons in Hall as [Hword Hall]; [by apply Hw|].
  cbn [quote_words] in *. apply Forall_app. split; [by apply Hw|]. constructor; [done|]. by apply IH.
Qed.

(** *** Substitution *)

(** [str::contains] of a pattern that is not empty. *)
Fixpoint contains_str (pattern l : bytes) : bool :=
  match l with
  | [] => false
  | _ :: rest => starts_with pattern l || contains_str pattern rest
  end.

Lemma replace_absent pattern by_ l : contains_str pattern l = false → replace pattern by_ l = l.
Proof.
  unfold replace. induction l as [|b l IH]; [done|]. cbn -[starts_with].
  intros [Hs Hc]%orb_false_iff. rewrite Hs. by rewrite IH.
Qed.

Lemma no_brace_absent pattern l : x7b ∉ l → contains_str (x7b :: pattern) l = false.
Proof.
  induction l as [|b l IH]; [done|]. intros [Hb Hl]%not_elem_of_cons. cbn [contains_str starts_with].
  rewrite IH by done. rewrite (proj2 (byte_eqb_neq x7b b)) by done. done.
Qed.

Lemma replace_skip k pattern by_ l : replace_from k pattern by_ l = replace_from 0 pattern by_ (drop k l).
Proof. revert k. induction l as [|b l IH]; intros [|k]; try done. cbn [replace_from drop]. apply IH. Qed.

Lemma replace_whole pattern by_ : pattern ≠ [] → replace pattern by_ pattern = by_.
Proof.
  intros Hne. unfold replace. assert (starts_with pattern pattern = true) as Hs by by apply starts_with_spec.
  destruct pattern as [|b rest]; [done|]. change (replace_from 0 (b :: rest) by_ (b :: rest))
    with (if starts_with (b :: rest) (b :: rest) then by_ ++ replace_from (length (b :: rest) - 1) (b :: rest) by_ rest
          else b :: replace_from 0 (b :: rest) by_ rest).
  rewrite Hs, replace_skip, drop_ge by (cbn; lia). apply app_nil_r.
Qed.

Lemma replace_all_absent (ps : list (bytes * bytes)) l :
  Forall (λ n, contains_str n l = false) (map fst ps) → foldl (λ s '(pattern, value), replace pattern value s) l ps = l.
Proof.
  induction ps as [|[p v] ps IH]; [done|]. intros [Hp Hps]%Forall_cons. cbn. rewrite replace_absent by done. by apply IH.
Qed.

Definition hook_names : list bytes :=
  [bs "{kind}"; bs "{title}"; bs "{summary}"; bs "{description}"; bs "{body}"; bs "{navigation_url}"; bs "{node}";
   bs "{session_ids}"; bs "{trigger_rule}"; bs "{trigger_detail}"].

Lemma placeholder_names e : map fst (placeholders e) = hook_names.
Proof. done. Qed.

Lemma hook_names_open : Forall (λ n, ∃ r, n = x7b :: r) hook_names.
Proof. repeat constructor; eexists; reflexivity. Qed.

(** No name occurs in a later one. *)
Lemma hook_names_apart i n :
  hook_names !! i = Some n → Forall (λ q, contains_str q n = false) (take i hook_names).
Proof. intros Hi. do 10 (destruct i as [|i]; [injection Hi as <-; repeat constructor|]). done. Qed.

Lemma substitute_plain e l : x7b ∉ l → substitute e l = l.
Proof.
  intros Hl. apply replace_all_absent. rewrite placeholder_names.
  eapply Forall_impl; [exact hook_names_open|]. intros n (r & ->). by apply no_brace_absent.
Qed.

Lemma substitute_name e name value : (name, value) ∈ placeholders e → x7b ∉ value → substitute e name = value.
Proof.
  intros (i & Hi)%list_elem_of_lookup Hv. unfold substitute.
  rewrite <- (take_drop_middle _ _ _ Hi), foldl_app. cbn [foldl].
  assert (hook_names !! i = Some name) as Hn by (change hook_names with (fst <$> placeholders e); by rewrite list_lookup_fmap, Hi).
  rewrite (replace_all_absent (take i (placeholders e)) name).
  - cbv beta iota. rewrite replace_whole.
    + apply replace_all_absent. change (map fst) with (fmap (M:=list) (@fst bytes bytes)).
      rewrite fmap_drop. change (fmap fst (placeholders e)) with hook_names.
      apply Forall_drop. eapply Forall_impl; [exact hook_names_open|]. intros n (r & ->). by apply no_brace_absent.
    + pose proof hook_names_open as Ho. rewrite Forall_lookup in Ho. by destruct (Ho i name Hn) as (r & ->).
  - change (map fst) with (fmap (M:=list) (@fst bytes bytes)). rewrite fmap_take.
    by apply hook_names_apart.
Qed.

(** A hook written as quoted words is run with those words, whatever they
    contain and whatever the event says: a word without placeholder unchanged, a
    word that is a placeholder replaced by the field, and never more or fewer
    arguments. *)
Theorem hook_gets_its_words words e :
  words ≠ [] → Forall (Forall scalar) words →
  ∃ program args,
    run_hook (utf8_encode (quote_words words)) e = Some (program, args, hook_env e)
    ∧ program :: args = map (λ w, substitute e (utf8_encode w)) words
    ∧ (∀ w, w ∈ words → x7b ∉ utf8_encode w → substitute e (utf8_encode w) = utf8_encode w)
    ∧ (∀ name value, (name, value) ∈ placeholders e → x7b ∉ value → substitute e name = value).
Proof.
  intros Hne Hs. unfold run_hook, split_hook_command.
  rewrite utf8_decode_encode by by apply quoted_scalars. rewrite hook_tokens_words.
  destruct words as [|w ws]; [done|]. cbn [map fmap option_fmap option_map].
  eexists _, _. split; [reflexivity|]. split; [by rewrite map_map|].
  split; [intros ? _; apply substitute_plain|apply substitute_name].
Qed.

(** What a field contains is looked through again: a title that names a
    placeholder is replaced by that field's text. *)
Lemma hook_substitutes_twice :
  substitute (manual None (bs "see {body}") None (Some (bs "secret")) None) (bs "{title}") = bs "see secret".
Proof. vm_compute. reflexivity. Qed.

(** ** Web push *)

(** What the other side says to one subscription: whether token and payload
    could be made, the answer to the request, and to its repetition. *)
Record PushAnswer := mk_push_answer {
  pa_prepared : result AppError unit;
  pa_first : result AppError (N * bytes);
  pa_again : result AppError (N * bytes);
}.

Definition char_count (s : bytes) : N := match utf8_decode s with Some cs => len cs | None => 0 end.
Definition body_summary (body : bytes) : bytes :=
  let body := trim body in
  if len body =? 0 then []
  else bs ": " ++ take_chars 300 body ++ (if 300 <? char_count body then bs "..." else []).
Definition push_refused (status : N) (body : bytes) : AppError :=
  Protocol (bs "push service returned HTTP " ++ show_dec status ++ body_summary body).

(** The outcome of one subscription: what is returned, whether it was
    delivered, whether the subscription is removed. *)
Definition push_status (answer : result AppError (N * bytes)) : result AppError unit * (bool * bool) :=
  match answer with
  | Err e => (Err e, (false, false))
  | Ok (status, body) =>
      if (200 <=? status) && (status <? 300) then (Ok tt, (true, false))
      else if status =? 410 then (Ok tt, (false, true))
      else (Err (push_refused status body), (false, false))
  end.

Definition deliver_one (a : PushAnswer) : result AppError unit * (bool * bool) :=
  match pa_prepared a with
  | Err e => (Err e, (false, false))
  | Ok _ =>
      match pa_first a with
      | Ok (403, body) =>
          if contains_str (bs "BadJwtToken") body then push_status (pa_again a)
          else (Err (push_refused 403 body), (false, false))
      | first => push_status first
      end
  end.

(** The loop over the subscriptions: was any delivered, did any fail, which
    endpoints are removed. *)
Definition deliver_all (answers : bytes → PushAnswer) (subscriptions : list bytes) : bool * bool * list bytes :=
  foldl (λ '(any_delivered, had_failure, removed) endpoint,
    let '(r, (delivered, gone)) := deliver_one (answers endpoint) in
    (any_delivered || delivered, had_failure || negb (is_ok r), removed ++ (if gone : bool then [endpoint] else [])))
    (false, false, []) subscriptions.

Definition web_push_send (subscriptions : result AppError (list bytes)) (answers : bytes → PushAnswer)
    : result AppError unit * list bytes :=
  match subscriptions with
  | Err e => (Err e, [])
  | Ok subscriptions =>
      let '(any_delivered, had_failure, removed) := deliver_all answers subscriptions in
      (if any_delivered || negb had_failure then Ok tt else Err (Protocol (bs "all web push deliveries failed")), removed)
  end.

(** A push fails only if it reached nobody and somebody could not be reached;
    only subscriptions the service calls gone are removed. *)
Lemma web_push_outcome subscriptions answers :
  let outcome e := deliver_one (answers e) in
  is_ok (web_push_send (Ok subscriptions) answers).1
  = existsb (λ e, (outcome e).2.1) subscriptions || forallb (λ e, is_ok (outcome e).1) subscriptions
  ∧ (web_push_send (Ok subscriptions) answers).2 = filter (λ e, (outcome e).2.2 = true) subscriptions.
Proof.
  intros outcome.
  assert (deliver_all answers subscriptions
          = (existsb (λ e, (outcome e).2.1) subscriptions, negb (forallb (λ e, is_ok (outcome e).1) subscriptions),
             filter (λ e, (outcome e).2.2 = true) subscriptions)) as E.
  { unfold deliver_all. induction subscriptions as [|e l IH] using rev_ind; [done|].
    rewrite foldl_app, IH, existsb_app, forallb_app, filter_app. cbn [foldl existsb forallb].
    fold (outcome e). rewrite filter_cons, filter_nil. destruct (outcome e) as [r [delivered gone]]. cbn.
    rewrite orb_false_r, andb_true_r, negb_andb. by destruct gone. }
  cbn [web_push_send]. rewrite E. cbn. split; [|done]. rewrite negb_involutive. by destruct (_ || _).
Qed.

(** ** Activity *)

Record ActivityFingerprint := mk_fingerprint {
  af_last_total_bytes : N;
  af_last_output_at : option N;
}.
#[export] Instance ActivityFingerprint_eq_dec : EqDecision ActivityFingerprint.
Proof. solve_decision. Defined.

(** [as_last_output_at] is on the wall clock. *)
Record ActivitySample := mk_sample {
  as_id : bytes;
  as_last_total_bytes : N;
  as_last_output_at : option Z;
}.

(** One session: nothing is read while its writer holds the lock. *)
Definition sample_session (now_wall : Z) (now_inst : N) (acc : by_id ActivityFingerprint * list ActivitySample)
    (entry : bytes * option ActivityFingerprint) : by_id ActivityFingerprint * list ActivitySample :=
  let '(last_seen, samples) := acc in
  match entry with
  | (id, Some fingerprint) =>
      let changed :=
        match last_seen !! id with
        | Some prev =>
            negb (af_last_total_bytes prev =? af_last_total_bytes fingerprint)
            || negb (bool_decide (af_last_output_at prev = af_last_output_at fingerprint))
        | None => 0 <? af_last_total_bytes fingerprint
        end in
      let sample := mk_sample id (af_last_total_bytes fingerprint)
                      ((λ t, now_wall - Z.of_N (now_inst - t))%Z <$> af_last_output_at fingerprint) in
      (<[id := fingerprint]> last_seen, if changed then samples ++ [sample] else samples)
  | (_, None) => acc
  end.

(** A tick over the sessions as they can be read; [[]] sends nothing. *)
Definition activity_tick (now_wall : Z) (now_inst : N) (sessions : by_id (option ActivityFingerprint))
    (last_seen : by_id ActivityFingerprint) : by_id ActivityFingerprint * list ActivitySample :=
  let last_seen := filter (λ '(id, _), is_Some (sessions !! id)) last_seen in
  foldl (sample_session now_wall now_inst) (last_seen, []) (map_to_list sessions).

(** A client that applies the batches it gets. *)
Definition apply_batch (samples : list ActivitySample) (known : by_id N) : by_id N :=
  foldl (λ known s, <[as_id s := as_last_total_bytes s]> known) known samples.

Definition activity_step (state : by_id ActivityFingerprint * by_id N)
    (tick : Z * N * by_id (option ActivityFingerprint)) : by_id ActivityFingerprint * by_id N :=
  let '(now_wall, now_inst, sessions) := tick in
  let '(last_seen, samples) := activity_tick now_wall now_inst sessions state.1 in
  (last_seen, apply_batch samples state.2).

(** The client knows what the sampler has seen. *)
Definition follows (last_seen : by_id ActivityFingerprint) (known : by_id N) : Prop :=
  ∀ id f, last_seen !! id = Some f → 0 < af_last_total_bytes f → known !! id = Some (af_last_total_bytes f).

Lemma sample_session_follows wall inst last_seen samples known entry :
  follows last_seen (apply_batch samples known) →
  let '(last_seen', samples') := sample_session wall inst (last_seen, samples) entry in
  follows last_seen' (apply_batch samples' known)
  ∧ (∀ f, entry.2 = Some f → last_seen' !! entry.1 = Some f)
  ∧ (∀ i, i ≠ entry.1 → last_seen' !! i = last_seen !! i).
Proof.
  intros Hf. destruct entry as [id [f|]]; cbn [sample_session]; [|done].
  split; [|split; [intros ? [= <-]; apply lookup_insert_eq|intros i Hi; by apply lookup_insert_ne]].
  set (changed := match last_seen !! id with Some _ => _ | None => _ end).
  intros i g. destruct (decide (i = id)) as [->|Hne].
  - rewrite lookup_insert_eq. intros [= <-] Hpos. destruct changed eqn:Ech.
    + unfold apply_batch. rewrite foldl_app. apply lookup_insert_eq.
    + unfold changed in Ech. destruct (last_seen !! id) as [prev|] eqn:Ep.
      * apply orb_false_iff in Ech as [Eb%negb_false_iff%N.eqb_eq _]. rewrite <- Eb in Hpos |- *. by apply Hf.
      * apply N.ltb_ge in Ech. lia.
  - rewrite lookup_insert_ne by done. intros Hg Hpos. specialize (Hf i g Hg Hpos).
    destruct changed; [|done]. unfold apply_batch in *. rewrite foldl_app. cbn. by rewrite lookup_insert_ne.
Qed.

Lemma sample_all_follows wall inst l last_seen samples known :
  NoDup l.*1 → follows last_seen (apply_batch samples known) →
  let '(last_seen', samples') := foldl (sample_session wall inst) (last_seen, samples) l in
  follows last_seen' (apply_batch samples' known)
  ∧ (∀ i, (i ∉ l.*1) → last_seen' !! i = last_seen !! i)
  ∧ ∀ i g, (i, Some g) ∈ l → last_seen' !! i = Some g.
Proof.
  revert last_seen samples. induction l as [|[i o] l IH]; intros last_seen samples Hnd Hf;
    [cbn; split_and!; [done..|]; by intros ? ? ?%elem_of_nil|].
  cbn [fmap list_fmap fst] in Hnd. apply NoDup_cons in Hnd as [Hni Hnd]. cbn [foldl].
  pose proof (sample_session_follows wall inst last_seen samples known (i, o) Hf) as Hs.
  destruct (sample_session wall inst (last_seen, samples) (i, o)) as [ls1 sm1]. destruct Hs as (Hf1 & Hset & Hother).
  specialize (IH ls1 sm1 Hnd Hf1). destruct (foldl _ (ls1, sm1) l) as [ls2 sm2]. destruct IH as (Hf2 & Hkeep & Hin).
  split; [done|]. split.
  - intros j Hj. cbn [fmap list_fmap fst] in Hj. apply not_elem_of_cons in Hj as [Hne Hj]. rewrite Hkeep by done. by apply Hother.
  - intros j g [[= -> <-]|Hj]%elem_of_cons; [|by apply Hin]. rewrite Hkeep by done. by apply Hset.
Qed.

Lemma activity_step_follows state tick :
  follows state.1 state.2 →
  let state' := activity_step state tick in
  follows state'.1 state'.2 ∧ ∀ i g, tick.2 !! i = Some (Some g) → state'.1 !! i = Some g.
Proof.
  destruct state as [last_seen known], tick as [[wall inst] ss]. intros Hf. unfold activity_step, activity_tick. cbn [fst snd] in *.
  pose proof (sample_all_follows wall inst (map_to_list ss) (filter (λ '(i, _), is_Some (ss !! i)) last_seen) [] known
    (NoDup_fst_map_to_list ss)) as Hall.
  destruct (foldl _ _ _) as [ls sm]. destruct Hall as (Hf' & _ & Hin).
  { intros i g [Hg _]%map_lookup_filter_Some Hp. by apply Hf. }
  split; [done|]. intros i g Hg. apply Hin. by apply elem_of_map_to_list.
Qed.

(** What the activity events carry is enough: after any sequence of ticks, a
    client that started with nothing and applied every batch has the byte count
    of each session that the last tick could read and that has any. *)
Theorem activity_reaches_clients ticks now_wall now_inst sessions id f :
  sessions !! id = Some (Some f) → 0 < af_last_total_bytes f →
  (foldl activity_step (∅, ∅) (ticks ++ [(now_wall, now_inst, sessions)])).2 !! id = Some (af_last_total_bytes f).
Proof.
  intros Hid Hpos.
  assert (follows (foldl activity_step (∅, ∅) ticks).1 (foldl activity_step (∅, ∅) ticks).2) as Hbefore.
  { induction ticks as [|tick ticks IH] using rev_ind; [by intros i g Hg|]. rewrite foldl_app. cbn [foldl]. by apply activity_step_follows. }
  rewrite foldl_app. cbn [foldl]. destruct (activity_step_follows _ (now_wall, now_inst, sessions) Hbefore) as [Hf Hlast].
  apply Hf; [|done]. by apply Hlast.
Qed.

(** ** Witnesses *)

Section Witnesses.
#[local] Existing Instance no_base64.
#[local] Existing Instance csv_serde.
#[local] Existing Instance csv_laws.
#[local] Existing Instance plain_engine.

(** Patterns that are plain texts. *)
#[local] Instance plain_regex : RegexEngine :=
  {| regex := bytes; re_new := Some; re_as_str := λ re, re; re_is_match := contains_str; re_remove_all := λ _ l, l |}.
#[local] Instance ascii_table : CharTable := λ c, (c <? 128) && is_ascii_alphanumeric (byte_of c).

Definition quiet_settings : Settings := mk_settings 10 30 [bs "word:"].

(** A prompt on the screen of every session. *)
Definition one_line (e : engine) : list bytes := [bs "Password:"].

Definition quiet_session : Watched (J:=Scheduled) := mk_watched (spawned plain_runtime) None.
Definition quiet_store : Monitor (J:=Scheduled) := 
  mk_monitor {[sm_id sample_meta := quiet_session]} quiet_settings 0 [] [] [] [] [].
Definition one_tick : list (MonitorOp (J:=Scheduled)) := [Tick 20000 quiet_settings; LookNext; HandleNext 20000 20001].
Definition quiet_run (ops : list (MonitorOp (J:=Scheduled))) : Monitor (J:=Scheduled) :=
  monitor_run one_line ops quiet_store.

Lemma quiet_filed : filed (mn_sessions quiet_store).
Proof. intros id w. cbn. intros [<- <-]%lookup_singleton_Some. reflexivity. Qed.

Lemma quiet_past t : past t (mn_sessions quiet_store).
Proof. intros id w last. cbn. intros [<- <-]%lookup_singleton_Some. discriminate. Qed.

Lemma quiet_starting : starting 0 quiet_store.
Proof. split_and!; [exact quiet_filed|apply quiet_past|done..]. Qed.

Lemma announcements_are_due_witness :
  match mn_announced (quiet_run one_tick) with
  | [a] => an_session a = sm_id sample_meta
           ∧ ∃ w, mn_sessions (quiet_run [Tick 20000 quiet_settings; LookNext]) !! an_session a = Some w
                  ∧ announces quiet_settings (an_session a) (an_at a) w (an_event a)
  | _ => False
  end.
Proof.
  assert (match mn_announced (quiet_run one_tick) with [a] => bytes_eqb (an_session a) (sm_id sample_meta) | _ => false end = true) as Hone
    by by vm_compute.
  destruct (announcements_are_due one_line 0 one_tick quiet_store quiet_starting) as [Hdue _].
  { cbn. split_and!; lia || done. }
  destruct (mn_announced (quiet_run one_tick)) as [|a [|]] eqn:E; [discriminate Hone| |discriminate Hone].
  split; [by apply bool_decide_eq_true in Hone|].
  by apply (Hdue [Tick 20000 quiet_settings; LookNext] (HandleNext 20000 20001) [] eq_refl a).
Defined.

Lemma quiet_tick :
  quiet_run one_tick
  = monitor_step one_line (monitor_run one_line [Tick 20000 quiet_settings; LookNext] quiet_store) (HandleNext 20000 20001).
Proof. unfold quiet_run, one_tick, monitor_run. cbn [foldl]. reflexivity. Qed.

Lemma announced_once_witness :
  let after := [Tick 90000 quiet_settings; LookNext; HandleNext 90000 90000; SessionDoes (sm_id sample_meta) (OpApplied 7 9);
                Tick 95000 quiet_settings] in
  match mn_announced (quiet_run one_tick) with
  | [a] => times (an_session a) (mn_announced (monitor_run one_line after (quiet_run one_tick))) = [20001]
  | _ => False
  end.
Proof.
  intros after.
  assert (match mn_announced (quiet_run one_tick) with [a] => bytes_eqb (an_session a) (sm_id sample_meta) && (an_at a =? 20001) | _ => false end = true) as Hone
    by by vm_compute.
  destruct (mn_announced (quiet_run one_tick)) as [|a [|]] eqn:E; [discriminate Hone| |discriminate Hone].
  apply andb_true_iff in Hone as [Hid%bool_decide_eq_true Hat%N.eqb_eq].
  pose proof (announced_once one_line 0 [Tick 20000 quiet_settings; LookNext] (HandleNext 20000 20001) after quiet_store a quiet_starting) as Ho.
  cbv zeta in Ho. rewrite <- quiet_tick in Ho. rewrite Ho.
  - rewrite E. unfold times. rewrite filter_cons_True by done. cbn. by rewrite Hat.
  - cbn. split_and!; lia || done.
  - rewrite E. assert (mn_announced (quiet_run [Tick 20000 quiet_settings; LookNext]) = []) as E0 by (vm_compute; reflexivity).
    unfold quiet_run in E0. rewrite E0. reflexivity.
  - intros s Hin. do 5 (apply elem_of_cons in Hin as [Hin|Hin]; [discriminate Hin|]). by apply elem_of_nil in Hin.
  - intros k w w'. rewrite Hid.
    assert (∀ k, match mn_sessions (monitor_run one_line (take k after) (quiet_run one_tick)) !! sm_id sample_meta with
            | Some w => (effective_output_epoch (wt_runtime w) =? 0) && bool_decide (status_of (wt_runtime w) = None) | None => false end = true) as Hall.
    { intros j. do 6 (destruct j as [|j]; [by vm_compute|]). by vm_compute. }
    assert (match mn_sessions (quiet_run one_tick) !! sm_id sample_meta with
            | Some w => (effective_output_epoch (wt_runtime w) =? 0) && bool_decide (status_of (wt_runtime w) = None) | None => false end = true) as H0
      by by vm_compute.
    intros Hw Hw'.
    rewrite Hw in H0. pose proof (Hall k) as Hk. rewrite Hw' in Hk.
    apply andb_true_iff in H0 as [E1%N.eqb_eq S1%bool_decide_eq_true], Hk as [E2%N.eqb_eq S2%bool_decide_eq_true].
    clear -E1 E2 S1 S2. rewrite E1, E2, S1, S2. split; reflexivity.
Defined.

Lemma silence_is_announced_witness :
  let m' := quiet_run one_tick in
  gone_quiet quiet_settings 20000 quiet_session ∧ idle m' ∧ told (sm_id sample_meta) 20000 quiet_session m'.
Proof.
  assert (gone_quiet quiet_settings 20000 quiet_session) as Hq.
  { assert (user_activity_epoch (wt_runtime quiet_session) = None) as Hu by by vm_compute.
    assert (status_of (wt_runtime quiet_session) = None) as Hst by by vm_compute.
    unfold gone_quiet. rewrite Hu, Hst. split_and!; [done|by vm_compute|done|done|by vm_compute|by vm_compute|done]. }
  assert (idle (quiet_run one_tick)) as Hidle by (split; vm_compute; reflexivity).
  split; [exact Hq|]. split; [exact Hidle|].
  destruct (silence_is_announced one_line 20000 quiet_settings [LookNext; HandleNext 20000 20001] quiet_store (sm_id sample_meta)
    quiet_session quiet_filed (quiet_past 20000)) as [_ Ht].
  - split; reflexivity.
  - apply lookup_singleton_eq.
  - exact Hq.
  - apply Ht; [cbn; split_and!; lia || done|by repeat constructor|exact Hidle].
Defined.

Lemma hook_gets_its_words_witness :
  ∃ program args,
    run_hook (bs "'notify me' {title}") (manual None (bs "it works; done") None None None) = Some (program, args, hook_env (manual None (bs "it works; done") None None None))
    ∧ substitute (manual None (bs "it works; done") None None None) (bs "{title}") = bs "it works; done"
    ∧ ∃ program' args', run_hook (utf8_encode (quote_words [[110; 32; 34]; [123; 116; 105; 116; 108; 101; 125]]))
        (manual None (bs "it works; done") None None None) = Some (program', args', hook_env (manual None (bs "it works; done") None None None))
        ∧ length args' = 1%nat.
Proof.
  destruct (hook_gets_its_words [[110; 32; 34]; [123; 116; 105; 116; 108; 101; 125]] (manual None (bs "it works; done") None None None))
    as (program & args & Hrun & Hwords & _ & Hname).
  - done.
  - repeat constructor.
  - exists (bs "notify me"), [bs "it works; done"]. split; [by vm_compute|]. split.
    + apply Hname; [by right; left|]. apply (bool_decide_unpack _). by vm_compute.
    + exists program, args. split; [exact Hrun|]. by injection Hwords as _ ->.
Defined.

Lemma activity_reaches_clients_witness :
  (foldl activity_step (∅, ∅) ([] ++ [(1000%Z, 500, {[bs "a" := Some (mk_fingerprint 12 (Some 400))]})])).2 !! bs "a" = Some 12.
Proof.
  apply (activity_reaches_clients [] 1000%Z 500 {[bs "a" := Some (mk_fingerprint 12 (Some 400))]} (bs "a") (mk_fingerprint 12 (Some 400))).
  - apply lookup_singleton_eq.
  - by vm_compute.
Defined.

(** Clearing a report brings an old silence back: the output announced at
    20001 is announced a second time when the program takes its status away. *)
Definition status_osc (body : bytes) : bytes := x1b :: bs "]7501;" ++ body ++ [x07].
Definition cleared_ops : list (MonitorOp (J:=Scheduled)) :=
  one_tick ++ [SessionDoes (sm_id sample_meta) (OpRead 60000 (status_osc (bs "state=working")));
               SessionDoes (sm_id sample_meta) OpBroadcast; SessionDoes (sm_id sample_meta) OpAnswer;
               SessionDoes (sm_id sample_meta) (OpRead 61000 (status_osc (bs "state=clear")));
               Tick 61001 quiet_settings; LookNext; HandleNext 61001 61002].
Lemma clearing_announces_again : times (sm_id sample_meta) (mn_announced (quiet_run cleared_ops)) = [20001; 61002].
Proof. vm_compute. reflexivity. Qed.
End Witnesses.
