(* ===== verification/Supervision.v ===== *)
(** * Supervised components, readiness and the retention sweeper

    [src/src/daemon/components.rs], the readiness of [src/src/daemon/health.rs]
    and [src/src/daemon/journal_retention.rs].  A component is a task the
    daemon keeps running: a supervisor starts it, and starts it again a bounded
    number of times when it ends.  The supervisors of all components and the
    registry they write to are one machine whose steps are the ends of tasks,
    the ends of pauses and what the daemon registers, in any order.  The sweeper
    works on the store of [Lifecycle].  The theorems say how often a component
    is started and what readiness is worth, and which sessions a sweep may
    delete. *)

From S2P Require Import Prelude Crc Utf8 Text RecordFormat SegmentScan Disk Manifest Open Retention.
From S2P Require Import Sequencer Stream Appender Journal Pump ProgramStatus Signals Scanner Replay Registry Recorder Runtime Session Mouse.
From S2P Require Import Wire Attach Stop DiskGuard Lifecycle.

(** ** The registry of components *)

Definition MAX_COMPONENT_RESTARTS : N := 3.

Inductive ComponentState := Starting | CRunning | Restarting | CFailed | CDisabled.
#[export] Instance ComponentState_eq_dec : EqDecision ComponentState.
Proof. solve_decision. Defined.

Definition component_state_as_str (s : ComponentState) : bytes :=
  match s with
  | Starting => bs "starting"
  | CRunning => bs "running"
  | Restarting => bs "restarting"
  | CFailed => bs "failed"
  | CDisabled => bs "disabled"
  end.
Definition satisfied (s : ComponentState) : bool := match s with CRunning | CDisabled => true | _ => false end.

Record ComponentFailure := mk_failure { cf_reason : bytes; cf_at : N }.

Record ComponentSlot := mk_slot {
  sl_state : ComponentState;
  sl_ready_critical : bool;
  sl_last_success_at : option N;
  sl_failures : N;
  sl_last_failure : option ComponentFailure;
}.
#[export] Instance ComponentSlot_eta : Settable ComponentSlot := λ s,
  mk_slot (sl_state s) (sl_ready_critical s) (sl_last_success_at s) (sl_failures s) (sl_last_failure s).
Definition ComponentSlot_new (ready_critical : bool) : ComponentSlot := mk_slot Starting ready_critical None 0 None.

(** A map in the order of its keys, as [BTreeMap] iterates. *)
Definition name_le {A} (a b : bytes * A) : Prop := bytes_leb a.1 b.1 = true.
#[local] Instance name_le_dec {A} : RelDecision (name_le (A:=A)).
Proof. intros a b. unfold name_le. apply _. Defined.
Definition in_order {A} (m : by_id A) : list (bytes * A) := merge_sort name_le (map_to_list m).

#[local] Abbreviation Slots := (by_id ComponentSlot).

(** [entry(name).or_insert_with], then a change. *)
Definition on_slot (ready_critical : bool) (f : ComponentSlot → ComponentSlot) (name : bytes) (slots : Slots) : Slots :=
  <[name := f (default (ComponentSlot_new ready_critical) (slots !! name))]> slots.

Definition register_component (name : bytes) (ready_critical : bool) : Slots → Slots := on_slot ready_critical (λ s, s) name.
Definition mark_disabled : bytes → Slots → Slots := on_slot false (λ s, s <| sl_state := CDisabled |>).
Definition mark_running (now : N) : bytes → Slots → Slots :=
  on_slot true (λ s, s <| sl_state := CRunning |> <| sl_last_success_at := Some now |>).
Definition failed_slot (now : N) (reason : bytes) (s : ComponentSlot) : ComponentSlot :=
  s <| sl_failures := N.min (sl_failures s + 1) u32_max |> <| sl_last_failure := Some (mk_failure reason now) |>
    <| sl_state := Restarting |>.
Definition record_failure (now : N) (reason : bytes) : bytes → Slots → Slots := on_slot true (failed_slot now reason).
Definition mark_failed (now : N) (reason : bytes) (name : bytes) (slots : Slots) : Slots :=
  alter (λ s, s <| sl_state := CFailed |>) name (record_failure now reason name slots).

Definition reports (slots : Slots) : list (bytes * ComponentSlot) := in_order slots.

Record Readiness := mk_readiness { rd_ready : bool; rd_reasons : list bytes }.

Definition unready (entry : bytes * ComponentSlot) : bool := sl_ready_critical entry.2 && negb (satisfied (sl_state entry.2)).
Definition unready_reason (include_details : bool) (entry : bytes * ComponentSlot) : bytes :=
  bs "component '" ++ entry.1 ++ bs "' is " ++ component_state_as_str (sl_state entry.2)
  ++ match sl_last_failure entry.2 with
     | Some failure => if include_details then bs ": " ++ cf_reason failure else []
     | None => []
     end.
Definition readiness_with_details (include_details : bool) (slots : Slots) : Readiness :=
  let reasons := map (unready_reason include_details) (filter (λ e, unready e = true) (in_order slots)) in
  mk_readiness (len reasons =? 0) reasons.
Definition readiness : Slots → Readiness := readiness_with_details true.
Definition public_readiness : Slots → Readiness := readiness_with_details false.

(** [DaemonHealth]: the disk guard counts too. *)
Definition decision_label (d : DiskGuardDecision) : bytes :=
  match d with
  | Disabled => bs "disabled"
  | Allowed _ => bs "allowed"
  | Unknown _ => bs "unknown"
  | Stale _ _ => bs "stale"
  | BelowMinimum _ _ => bs "below_minimum"
  end.
Definition with_disk_readiness (decision : DiskGuardDecision) (r : Readiness) (include_details : bool) : Readiness :=
  match refusal_reason decision with
  | Some reason =>
      mk_readiness false (rd_reasons r ++ [if include_details then bs "disk guard: " ++ reason
                                           else bs "disk guard is " ++ decision_label decision])
  | None => r
  end.
Definition daemon_readiness (decision : DiskGuardDecision) (slots : Slots) : Readiness :=
  with_disk_readiness decision (readiness slots) true.
Definition daemon_public_readiness (decision : DiskGuardDecision) (slots : Slots) : Readiness :=
  with_disk_readiness decision (public_readiness slots) false.

(** ** Supervisors *)

Definition restart_backoff (restarts : N) : N := 500 * 2 ^ N.min restarts 3.

(** Where the supervisor's task is: it has what the factory returned, it waits
    for the component, it pauses, it has given up. *)
Inductive SupervisorPhase :=
  | Made (future : result bytes unit)
  | Waiting
  | Paused (backoff : N)
  | GaveUp.

(** [sv_calls] is how often the factory was called. *)
Record Supervisor := mk_supervisor {
  sv_restarts : N;
  sv_phase : SupervisorPhase;
  sv_calls : N;
}.
#[export] Instance Supervisor_eta : Settable Supervisor := λ s, mk_supervisor (sv_restarts s) (sv_phase s) (sv_calls s).

Record Components := mk_components {
  co_slots : Slots;
  co_supervisors : by_id Supervisor;
}.
#[export] Instance Components_eta : Settable Components := λ c, mk_components (co_slots c) (co_supervisors c).

Inductive ComponentOp :=
  | SpawnSupervised (name : bytes) (ready_critical : bool) (made : result bytes unit)
  | PollSupervisor (name : bytes) (now : N)
  | ComponentEnds (name : bytes) (now : N) (run : result bytes unit)
  | PauseEnds (name : bytes) (made : result bytes unit)
  | RegisterDisabled (name : bytes) (ready_critical : bool).

Definition exit_reason (run : result bytes unit) : bytes :=
  match run with Ok _ => bs "component exited unexpectedly" | Err reason => reason end.

(** What follows the end of a run. *)
Definition component_stopped (name : bytes) (now : N) (reason : bytes) (sv : Supervisor) (c : Components) : Components :=
  if MAX_COMPONENT_RESTARTS <=? sv_restarts sv then
    mk_components (mark_failed now reason name (co_slots c)) (<[name := sv <| sv_phase := GaveUp |>]> (co_supervisors c))
  else
    let restarts := sv_restarts sv + 1 in
    mk_components (record_failure now reason name (co_slots c))
      (<[name := sv <| sv_restarts := restarts |> <| sv_phase := Paused (restart_backoff restarts) |>]> (co_supervisors c)).

(** [components] of the daemon have different names; a panic of a factory is
    its [Err]. *)
Definition component_step (c : Components) (op : ComponentOp) : Components :=
  match op with
  | SpawnSupervised name ready_critical made =>
      mk_components (register_component name ready_critical (co_slots c))
        (<[name := mk_supervisor 0 (Made made) 1]> (co_supervisors c))
  | PollSupervisor name now =>
      match co_supervisors c !! name with
      | Some sv =>
          match sv_phase sv with
          | Made (Ok _) =>
              mk_components (mark_running now name (co_slots c)) (<[name := sv <| sv_phase := Waiting |>]> (co_supervisors c))
          | Made (Err reason) => component_stopped name now reason sv c
          | _ => c
          end
      | None => c
      end
  | ComponentEnds name now run =>
      match co_supervisors c !! name with
      | Some sv => match sv_phase sv with Waiting => component_stopped name now (exit_reason run) sv c | _ => c end
      | None => c
      end
  | PauseEnds name made =>
      match co_supervisors c !! name with
      | Some sv =>
          match sv_phase sv with
          | Paused _ => c <| co_supervisors := <[name := sv <| sv_phase := Made made |> <| sv_calls := sv_calls sv + 1 |>]> (co_supervisors c) |>
          | _ => c
          end
      | None => c
      end
  | RegisterDisabled name ready_critical =>
      c <| co_slots := mark_disabled name (register_component name ready_critical (co_slots c)) |>
  end.
Definition component_run (ops : list ComponentOp) : Components := foldl component_step (mk_components ∅ ∅) ops.

(** ** Retention *)

Definition DAY : N := 86400000.

Section Retention.
Context `{Crc32Fast, Base64, Engine} {J : Type} `{Recorder J}.

(** [list_stopped_sessions_older_than]. *)
Definition list_stopped_sessions_older_than (err : option bytes) (cutoff : N) (st : Store (J:=J))
    : result AppError (list (bytes * SessionMeta)) :=
  match err with
  | Some e => Err (Sqlx e)
  | None =>
      Ok (filter (λ r, (match sm_ended_at r.2 with Some ended => ended <? cutoff | None => false end) = true
                       ∧ sm_status r.2 ∈ [Stopped; Killed; Failed]) (map_to_list (ls_rows st)))
  end.

(** The letters of an id leave only a single component of a path; the empty
    path has none. *)
Definition safe_session_dir (session_id : bytes) : bool :=
  forallb (λ b, is_ascii_alphanumeric b || (b =b x2d) || (b =b x5f)) session_id && negb (len session_id =? 0).

(** The answers to one deletion. *)
Record SweepAnswers := mk_sweep_answers {
  sa_dir : option io_error_kind;
  sa_db : option bytes;
}.

Definition sweep_one (session_id : bytes) (a : SweepAnswers) (st : Store (J:=J)) : Store (J:=J) * result AppError unit :=
  if negb (safe_session_dir session_id) then
    (st, Err (Protocol (bs "refusing to sweep session with an unsafe id: " ++ session_id)))
  else
    let '(st, removed) := remove_session_dir (sa_dir a) session_id st in
    match removed with
    | Err e => (st, Err e)
    | Ok _ => db_delete_session (sa_db a) session_id st
    end.

Definition is_final (s : SessionStatus) : bool := match s with Killed | Failed | Stopped => true | _ => false end.

(** The loop over the candidates: the sessions evicted and the number
    skipped. *)
Fixpoint sweep_candidates (answers : bytes → SweepAnswers) (candidates : list (bytes * SessionMeta)) (st : Store (J:=J))
    : Store (J:=J) * (list bytes * N) :=
  match candidates with
  | [] => (st, ([], 0))
  | (id, meta) :: candidates =>
      let '(st, ok) :=
        if sm_notifications_enabled meta && negb (is_final (sm_status meta)) then (st, false)
        else let '(st, r) := sweep_one id (answers id) st in (st, is_ok r) in
      let '(st, (evicted, skipped)) := sweep_candidates answers candidates st in
      (st, if ok : bool then (id :: evicted, skipped) else (evicted, skipped + 1))
  end.

(** One turn of the sweeper; [0] days turn it off. *)
Definition retention_sweep (retention_days now : N) (err : option bytes) (answers : bytes → SweepAnswers)
    (st : Store (J:=J)) : Store (J:=J) * (list bytes * N) :=
  if retention_days =? 0 then (st, ([], 0))
  else
    match list_stopped_sessions_older_than err (now - retention_days * DAY) st with
    | Ok candidates => sweep_candidates answers candidates st
    | Err _ => (st, ([], 0))
    end.
End Retention.

(** ** What the registry says *)

Section Supervised.

Definition named (op : ComponentOp) : option bytes :=
  match op with
  | SpawnSupervised name _ _ | RegisterDisabled name _ => Some name
  | _ => None
  end.

(** A supervisor and its slot: every failure but the last was followed by
    another call of the factory, and the fourth is final. *)
Definition tied (sv : Supervisor) (slot : ComponentSlot) : Prop :=
  match sv_phase sv with
  | Made _ =>
      sl_state slot = (if sv_restarts sv =? 0 then Starting else Restarting)
      ∧ sl_failures slot = sv_restarts sv ∧ sv_calls sv = sv_restarts sv + 1 ∧ sv_restarts sv <= MAX_COMPONENT_RESTARTS
  | Waiting =>
      sl_state slot = CRunning
      ∧ sl_failures slot = sv_restarts sv ∧ sv_calls sv = sv_restarts sv + 1 ∧ sv_restarts sv <= MAX_COMPONENT_RESTARTS
  | Paused backoff =>
      sl_state slot = Restarting ∧ sl_failures slot = sv_restarts sv ∧ sv_calls sv = sv_restarts sv
      ∧ 0 < sv_restarts sv <= MAX_COMPONENT_RESTARTS ∧ backoff = restart_backoff (sv_restarts sv)
      ∧ is_Some (sl_last_failure slot)
  | GaveUp =>
      sl_state slot = CFailed ∧ sl_failures slot = MAX_COMPONENT_RESTARTS + 1 ∧ sv_calls sv = MAX_COMPONENT_RESTARTS + 1
      ∧ is_Some (sl_last_failure slot)
  end.

Record supervised (names : list bytes) (c : Components) : Prop := {
  su_tied : ∀ name sv, co_supervisors c !! name = Some sv → ∃ slot, co_slots c !! name = Some slot ∧ tied sv slot;
  su_disabled : ∀ name slot, co_slots c !! name = Some slot → co_supervisors c !! name = None → sl_state slot = CDisabled;
  su_names : ∀ name, is_Some (co_slots c !! name) → name ∈ names;
}.

(** A change of one supervised component and its slot. *)
Lemma supervised_update names c name sv slot :
  supervised names c → tied sv slot → is_Some (co_supervisors c !! name) ∨ co_slots c !! name = None →
  supervised (name :: names) (mk_components (<[name := slot]> (co_slots c)) (<[name := sv]> (co_supervisors c))).
Proof.
  intros [Ht Hd Hn] Htied _. split; cbn.
  - intros n x. destruct (decide (name = n)) as [<-|]; [rewrite lookup_insert_eq|rewrite lookup_insert_ne by done].
    + intros [= <-]. exists slot. by rewrite lookup_insert_eq.
    + intros Hx. rewrite lookup_insert_ne by done. by apply Ht.
  - intros n x. destruct (decide (name = n)) as [<-|]; [by rewrite !lookup_insert_eq|rewrite !lookup_insert_ne by done]. apply Hd.
  - intros n. destruct (decide (name = n)) as [<-|]; [by left|rewrite lookup_insert_ne by done]. right. by apply Hn.
Qed.

Lemma supervised_names names names' c : supervised names c → (∀ n, is_Some (co_slots c !! n) → n ∈ names → n ∈ names') → supervised names' c.
Proof. intros [Ht Hd Hn] Hsub. split; [done|done|]. intros n Hs. apply Hsub; [done|]. by apply Hn. Qed.

(** A supervised component keeps its name. *)
Lemma supervised_in names c name sv slot :
  supervised names c → tied sv slot → is_Some (co_supervisors c !! name) →
  supervised names (mk_components (<[name := slot]> (co_slots c)) (<[name := sv]> (co_supervisors c))).
Proof.
  intros I Ht [x Hx]. apply (supervised_names (name :: names)); [by apply supervised_update; [..|left; eexists]|].
  intros n _ [->|Hn]%elem_of_cons; [|done]. apply (su_names _ _ I). by destruct (su_tied _ _ I name x Hx) as (? & -> & _).
Qed.

Lemma stopped_supervised names c name now reason sv slot :
  supervised names c → co_supervisors c !! name = Some sv → co_slots c !! name = Some slot →
  sl_failures slot = sv_restarts sv → sv_calls sv = sv_restarts sv + 1 → sv_restarts sv <= MAX_COMPONENT_RESTARTS →
  supervised names (component_stopped name now reason sv c).
Proof.
  intros I Hsv Hslot Hf Hc Hr. unfold component_stopped, MAX_COMPONENT_RESTARTS in *.
  assert (N.min (sv_restarts sv + 1) u32_max = sv_restarts sv + 1) as Hmin by (unfold u32_max; lia).
  assert (is_Some (co_supervisors c !! name)) as His by by eexists.
  destruct (3 <=? sv_restarts sv) eqn:E; [apply N.leb_le in E|apply N.leb_gt in E].
  - assert (mark_failed now reason name (co_slots c)
            = <[name := failed_slot now reason slot <| sl_state := CFailed |>]> (co_slots c)) as ->.
    { unfold mark_failed, record_failure, on_slot. rewrite Hslot. apply map_eq. intros i. destruct (decide (i = name)) as [->|].
      - by rewrite lookup_alter_eq, !lookup_insert_eq.
      - by rewrite lookup_alter_ne, !lookup_insert_ne. }
    apply supervised_in; [done| |done]. unfold tied, MAX_COMPONENT_RESTARTS. cbn. rewrite Hf, Hmin.
    split_and!; [done|lia|lia|by eexists].
  - unfold record_failure, on_slot. rewrite Hslot. apply supervised_in; [done| |done].
    unfold tied, MAX_COMPONENT_RESTARTS. cbn. rewrite Hf, Hmin. split_and!; [done|lia|lia|lia|lia|done|by eexists].
Qed.

Lemma component_step_supervised names c op :
  supervised names c → (∀ n, named op = Some n → n ∉ names) →
  supervised (match named op with Some n => n :: names | None => names end) (component_step c op).
Proof.
  intros I Hnew. destruct op as [name critical made|name now|name now run|name made|name critical]; cbn [named component_step].
  - assert (co_slots c !! name = None) as Hnone.
    { destruct (co_slots c !! name) as [x|] eqn:E; [|done]. exfalso. apply (Hnew name eq_refl), (su_names _ _ I). by eexists. }
    unfold register_component, on_slot. rewrite Hnone. apply supervised_update; [done| |by right].
    unfold tied, MAX_COMPONENT_RESTARTS. cbn. split_and!; [done|done|done|lia].
  - destruct (co_supervisors c !! name) as [sv|] eqn:Esv; [|done].
    destruct (su_tied _ _ I name sv Esv) as (slot & Hslot & Ht). unfold tied in Ht.
    destruct (sv_phase sv) as [[[]|reason]| | |] eqn:Ep; try done; destruct Ht as (_ & Hf & Hc & Hr).
    + unfold mark_running, on_slot. rewrite Hslot. apply supervised_in; [done| |by eexists]. unfold tied. cbn. done.
    + by apply (stopped_supervised names c name now reason sv slot).
  - destruct (co_supervisors c !! name) as [sv|] eqn:Esv; [|done].
    destruct (su_tied _ _ I name sv Esv) as (slot & Hslot & Ht). unfold tied in Ht.
    destruct (sv_phase sv) eqn:Ep; try done. destruct Ht as (_ & Hf & Hc & Hr).
    by apply (stopped_supervised names c name now (exit_reason run) sv slot).
  - destruct (co_supervisors c !! name) as [sv|] eqn:Esv; [|done].
    destruct (su_tied _ _ I name sv Esv) as (slot & Hslot & Ht). unfold tied in Ht.
    destruct (sv_phase sv) eqn:Ep; try done. destruct Ht as (Hs & Hf & Hc & Hr & _).
    pose proof (supervised_in names c name (sv <| sv_phase := Made made |> <| sv_calls := sv_calls sv + 1 |>) slot I) as Hin.
    rewrite insert_id in Hin by done. apply Hin; [|by eexists]. unfold tied. cbn.
    replace (sv_restarts sv =? 0) with false by (symmetry; apply N.eqb_neq; lia). split_and!; [done|done|lia|lia].
  - assert (co_slots c !! name = None) as Hnone.
    { destruct (co_slots c !! name) as [x|] eqn:E; [|done]. exfalso. apply (Hnew name eq_refl), (su_names _ _ I). by eexists. }
    destruct I as [Ht Hd Hn]. unfold mark_disabled, register_component, on_slot. rewrite Hnone, insert_insert_eq. split; cbn.
    + intros n sv Hsv. destruct (Ht n sv Hsv) as (slot & Hslot & Htied). exists slot. split; [|done].
      rewrite lookup_insert_ne; [done|]. intros <-. congruence.
    + intros n x. destruct (decide (name = n)) as [<-|]; [rewrite lookup_insert_eq; by intros [= <-]|rewrite lookup_insert_ne by done]. apply Hd.
    + intros n. destruct (decide (name = n)) as [<-|]; [by left|rewrite lookup_insert_ne by done]. right. by apply Hn.
Qed.

Lemma components_supervised ops names :
  NoDup (omap named ops) → (∀ n, n ∈ omap named ops → n ∉ names) → ∀ c, supervised names c →
  ∃ names', supervised names' (foldl component_step c ops).
Proof.
  revert names. induction ops as [|op ops IH]; intros names Hnd Hnew c I; [by exists names|]. cbn [foldl].
  assert (NoDup (omap named ops)) as Hnd' by (cbn in Hnd; destruct (named op); [by apply NoDup_cons in Hnd as [_ ?]|done]).
  assert (∀ n, named op = Some n → n ∈ omap named (op :: ops)) as Hin.
  { intros n Hn. cbn. rewrite Hn. by left. }
  apply (IH (match named op with Some n => n :: names | None => names end) Hnd').
  - intros n Hn. destruct (named op) as [m|] eqn:En.
    + cbn in Hnd, Hnew. rewrite En in Hnd, Hnew. apply NoDup_cons in Hnd as [Hm _].
      intros [->|Hold]%elem_of_cons; [done|]. apply (Hnew n); [by right|done].
    + apply Hnew. cbn. by rewrite En.
  - apply component_step_supervised; [done|]. intros n Hn. by apply Hnew, Hin.
Qed.

Lemma elem_of_in_order {A} (m : by_id A) name x : (name, x) ∈ in_order m ↔ m !! name = Some x.
Proof. unfold in_order. rewrite merge_sort_Permutation. apply elem_of_map_to_list. Qed.

Lemma ready_iff details slots :
  rd_ready (readiness_with_details details slots) = true
  ↔ ∀ name slot, slots !! name = Some slot → sl_ready_critical slot = true → satisfied (sl_state slot) = true.
Proof.
  unfold readiness_with_details. cbn [rd_ready]. rewrite N.eqb_eq, len_0. split.
  - intros Hnil name slot Hslot Hc. destruct (satisfied (sl_state slot)) eqn:Es; [done|]. exfalso.
    assert ((name, slot) ∈ filter (λ e, unready e = true) (in_order slots)) as Hin.
    { apply list_elem_of_filter. split; [unfold unready; cbn; by rewrite Hc, Es|by apply elem_of_in_order]. }
    destruct (filter _ _); [by apply elem_of_nil in Hin|done].
  - intros Hall. assert (filter (λ e, unready e = true) (in_order slots) = []) as ->; [|done].
    destruct (filter _ (in_order slots)) as [|[name slot] l] eqn:E; [done|]. exfalso.
    assert ((name, slot) ∈ filter (λ e, unready e = true) (in_order slots)) as [Hu Hin%elem_of_in_order]%list_elem_of_filter by (rewrite E; by left).
    unfold unready in Hu. cbn in Hu. apply andb_true_iff in Hu as [Hc Hs]. by rewrite (Hall name slot Hin Hc) in Hs.
Qed.

(** What the registry and readiness say about components, in any order of
    registrations, starts, failures and pauses: a component's factory is called
    once more than it failed, at most four times; it is failed exactly when its
    supervisor has given up, with the last reason kept; and the daemon is ready,
    publicly and in detail, exactly when the disk guard has no objection and
    every ready-critical component that is not disabled is running. *)
Theorem components_are_supervised ops decision :
  NoDup (omap named ops) →
  let c := component_run ops in
  (∀ name sv, co_supervisors c !! name = Some sv → ∃ slot, co_slots c !! name = Some slot ∧ tied sv slot)
  ∧ (∀ name slot, co_slots c !! name = Some slot →
       (sl_state slot = CFailed ↔ ∃ sv, co_supervisors c !! name = Some sv ∧ sv_phase sv = GaveUp)
       ∧ (sl_state slot = CRunning ↔ ∃ sv, co_supervisors c !! name = Some sv ∧ sv_phase sv = Waiting))
  ∧ (rd_ready (daemon_readiness decision (co_slots c)) = true ↔
       refusal_reason decision = None
       ∧ ∀ name slot, co_slots c !! name = Some slot → sl_ready_critical slot = true →
           sl_state slot = CDisabled ∨ ∃ sv, co_supervisors c !! name = Some sv ∧ sv_phase sv = Waiting)
  ∧ rd_ready (daemon_public_readiness decision (co_slots c)) = rd_ready (daemon_readiness decision (co_slots c)).
Proof.
  intros Hnd c. destruct (components_supervised ops [] Hnd) with (c := mk_components ∅ ∅) as (names & I).
  { intros n _ Hin. by apply elem_of_nil in Hin. }
  { split; cbn; [intros n x; by rewrite lookup_empty|intros n x; by rewrite lookup_empty|intros n; rewrite lookup_empty; by intros []]. }
  change (foldl component_step (mk_components ∅ ∅) ops) with c in I.
  assert (∀ name slot, co_slots c !! name = Some slot →
       (sl_state slot = CFailed ↔ ∃ sv, co_supervisors c !! name = Some sv ∧ sv_phase sv = GaveUp)
       ∧ (sl_state slot = CRunning ↔ ∃ sv, co_supervisors c !! name = Some sv ∧ sv_phase sv = Waiting)) as Hstate.
  { intros name slot Hslot. destruct (co_supervisors c !! name) as [sv|] eqn:Esv.
    - destruct (su_tied _ _ I name sv Esv) as (slot' & Hslot' & Ht). rewrite Hslot in Hslot'. injection Hslot' as <-.
      unfold tied in Ht. split; (split; [|intros (sv' & [= <-] & Ep); rewrite Ep in Ht; by destruct Ht as [-> _]]); intros Hs; exists sv;
        (split; [done|]); rewrite Hs in Ht; destruct (sv_phase sv); try done; destruct Ht as [Hs' _]; try done; by destruct (_ =? _).
    - rewrite (su_disabled _ _ I name slot Hslot Esv). split; (split; [done|]); by intros (? & ? & _). }
  split_and!; [apply (su_tied _ _ I)|exact Hstate| |].
  - unfold daemon_readiness, with_disk_readiness. destruct (refusal_reason decision); cbn [rd_ready]; [split; [done|by intros []]|].
    unfold readiness. rewrite ready_iff. split.
    + intros Hall. split; [done|]. intros name slot Hslot Hc. specialize (Hall name slot Hslot Hc).
      destruct (sl_state slot) eqn:Es; try done; [|by left]. right. by apply (Hstate name slot Hslot).
    + intros [_ Hall] name slot Hslot Hc. destruct (Hall name slot Hslot Hc) as [->|Hw]; [done|].
      by rewrite (proj2 (proj2 (Hstate name slot Hslot)) Hw).
  - unfold daemon_public_readiness, daemon_readiness, with_disk_readiness. destruct (refusal_reason decision); [done|].
    unfold public_readiness, readiness. apply eq_true_iff_eq. by rewrite !ready_iff.
Qed.
End Supervised.

(** ** What a sweep deletes *)

Section Swept.
Context `{Crc32Fast, Base64, Engine} {J : Type} `{Recorder J}.

(** Deleted sessions leave nothing but the rows and directories of others;
    what the database refused to delete keeps its row. *)
Record spares (may : bytes → Prop) (st st' : Store (J:=J)) : Prop := {
  sp_rows : ∀ id, ls_rows st' !! id = ls_rows st !! id ∨ may id ∧ ls_rows st' !! id = None ∧ id ∉ ls_dirs st';
  sp_dirs : ls_dirs st' ⊆ ls_dirs st ∧ ∀ id, id ∈ ls_dirs st → id ∉ ls_dirs st' → may id;
  sp_rest : ls_sessions st' = ls_sessions st ∧ ls_starting st' = ls_starting st ∧ ls_evicted st' = ls_evicted st;
}.

Lemma spares_refl (may : bytes → Prop) (st : Store (J:=J)) : spares may st st.
Proof. split; [by left|by split|done]. Qed.

Lemma spares_trans may (st1 st2 st3 : Store (J:=J)) : spares may st1 st2 → spares may st2 st3 → spares may st1 st3.
Proof.
  intros [R1 [D1 M1] (S1 & T1 & E1)] [R2 [D2 M2] (S2 & T2 & E2)]. split.
  - intros id. destruct (R2 id) as [->|(Hm & Hn & Hd)]; [|by right].
    destruct (R1 id) as [->|(Hm & Hn & Hd)]; [by left|]. right. split_and!; [done|done|]. intros Hin. by apply Hd, D2.
  - split; [by etrans|]. intros id Hin Hout. destruct (decide (id ∈ ls_dirs st2)); [by apply M2|by apply M1].
  - split_and!; congruence.
Qed.


(** One deletion, on every answer. *)
Lemma sweep_one_spec id a (st : Store (J:=J)) :
  sa_dir a ≠ Some NotFound →
  let '(st', r) := sweep_one id a st in
  spares (λ i, i = id ∧ safe_session_dir id = true) st st'
  ∧ (is_ok r = true → safe_session_dir id = true ∧ ls_rows st' !! id = None ∧ id ∉ ls_dirs st')
  ∧ (safe_session_dir id = true → sa_dir a = None → sa_db a = None → is_ok r = true).
Proof.
  intros Hnf. unfold sweep_one. destruct (safe_session_dir id) eqn:Esafe; cbn [negb]; [|split_and!; [apply spares_refl|done|done]].
  assert (∀ st1 : Store (J:=J), spares (λ i, i = id ∧ true = true) st st1 → id ∉ ls_dirs st1 →
    let '(st', r) := db_delete_session (sa_db a) id st1 in
    spares (λ i, i = id ∧ true = true) st st' ∧ (is_ok r = true → true = true ∧ ls_rows st' !! id = None ∧ id ∉ ls_dirs st')
    ∧ (true = true → sa_dir a = None → sa_db a = None → is_ok r = true)) as Hdelete.
  { intros st1 Hs Hd. unfold db_delete_session. destruct (sa_db a) as [e|]; [by split_and!|]. split; [|split; [|done]].
    - eapply spares_trans; [exact Hs|]. split; cbn; [|by split|done]. intros i.
      destruct (decide (i = id)) as [->|Hne]; [right; by rewrite lookup_delete_eq|left; by rewrite lookup_delete_ne].
    - intros _. cbn. by rewrite lookup_delete_eq. }
  unfold remove_session_dir. case_bool_decide as Hin; [|by apply Hdelete; [apply spares_refl|]].
  destruct (sa_dir a) as [e|]; [destruct e; try done; split_and!; (apply spares_refl || done)|].
  apply Hdelete; [|cbn; set_solver]. split; cbn; [by left| |done]. split; [set_solver|]. intros i Hi Hout.
  destruct (decide (i = id)) as [->|Hne]; [done|]. exfalso. apply Hout, elem_of_difference. split; [done|]. by rewrite elem_of_singleton.
Qed.

Definition due_for_eviction (retention_days now : N) (st : Store (J:=J)) (id : bytes) : Prop :=
  retention_days ≠ 0 ∧ safe_session_dir id = true
  ∧ ∃ meta ended, ls_rows st !! id = Some meta ∧ sm_ended_at meta = Some ended ∧ ended < now - retention_days * DAY
      ∧ sm_status meta ∈ [Stopped; Killed; Failed].

Lemma spares_weaken (may may' : bytes → Prop) (st st' : Store (J:=J)) :
  (∀ id, may id → may' id) → spares may st st' → spares may' st st'.
Proof.
  intros Hw [R [D M] S]. split; [|split; [done|]|done].
  - intros id. destruct (R id) as [?|(Hm & ? & ?)]; [by left|right; split_and!; [by apply Hw|done|done]].
  - intros id Hi Ho. by apply Hw, M.
Qed.

Lemma sweep_candidates_spec answers l (st : Store (J:=J)) (may : bytes → Prop) :
  (∀ id, sa_dir (answers id) ≠ Some NotFound) →
  (∀ id meta, (id, meta) ∈ l → is_final (sm_status meta) = true ∧ (safe_session_dir id = true → may id)) →
  let '(st', (evicted, _)) := sweep_candidates answers l st in
  spares may st st'
  ∧ (∀ id, id ∈ evicted → may id ∧ ls_rows st' !! id = None ∧ id ∉ ls_dirs st')
  ∧ (∀ id meta, (id, meta) ∈ l → safe_session_dir id = true → sa_dir (answers id) = None → sa_db (answers id) = None → id ∈ evicted).
Proof.
  intros Hnf. revert st. induction l as [|[id meta] l IH]; intros st Hl.
  { cbn. split_and!; [apply spares_refl|by intros ? ?%elem_of_nil|by intros ? ? ?%elem_of_nil]. }
  cbn [sweep_candidates]. destruct (Hl id meta) as [Hfin Hmay]; [by left|]. rewrite Hfin, andb_false_r.
  pose proof (sweep_one_spec id (answers id) st (Hnf id)) as Hone. destruct (sweep_one id (answers id) st) as [st1 r].
  destruct Hone as (Hs1 & Hgone & Hgood).
  assert (spares may st st1) as Hs1' by (apply (spares_weaken _ _ _ _ (fun i '(conj E Hsafe) => eq_ind_r may (Hmay Hsafe) E) Hs1)).
  specialize (IH st1 (λ i m Hin, Hl i m (list_elem_of_further _ _ _ Hin))).
  destruct (sweep_candidates answers l st1) as [st2 [evicted skipped]]. destruct IH as (Hs2 & Hev & Hall).
  assert (∀ i, ls_rows st1 !! i = None → i ∉ ls_dirs st1 → ls_rows st2 !! i = None ∧ i ∉ ls_dirs st2) as Hstay.
  { intros i Hr Hd. destruct Hs2 as [R [D _] _]. split; [|intros Hin; by apply Hd, D].
    destruct (R i) as [->|(_ & ? & _)]; done. }
  assert (spares may st st2) as Hs by by eapply spares_trans.
  destruct (is_ok r) eqn:Er; (split; [exact Hs|split]).
  - intros i [->|Hi]%elem_of_cons; [|by apply Hev]. destruct (Hgone eq_refl) as (Hsafe & Hr & Hd). split; [by apply Hmay|by apply Hstay].
  - intros i m [[= -> ->]|Hi]%elem_of_cons Hsafe Ha Hb; [by left|]. right. by apply (Hall i m).
  - exact Hev.
  - intros i m [[= -> ->]|Hi]%elem_of_cons Hsafe Ha Hb; [|by apply (Hall i m)].
    discriminate (Hgood Hsafe Ha Hb).
Qed.

(** C40: A sweep deletes sessions that ended before the retention time and whose id
    names one directory, each with its row and its directory, and changes
    nothing else, whatever fails on the way; a session whose deletion works is
    gone afterwards, so one that failed half-way is deleted by a later sweep. *)
Theorem retention_sweep_spares_live retention_days now err answers (st : Store (J:=J)) :
  (∀ id, sa_dir (answers id) ≠ Some NotFound) →
  let '(st', (evicted, _)) := retention_sweep retention_days now err answers st in
  spares (due_for_eviction retention_days now st) st st'
  ∧ (∀ id, id ∈ evicted → due_for_eviction retention_days now st id ∧ ls_rows st' !! id = None ∧ id ∉ ls_dirs st')
  ∧ (∀ id, due_for_eviction retention_days now st id → err = None → sa_dir (answers id) = None → sa_db (answers id) = None →
       id ∈ evicted)
  ∧ (∀ id, due_for_eviction retention_days now st id → is_Some (ls_rows st' !! id) → due_for_eviction retention_days now st' id).
Proof.
  intros Hnf.
  assert (∀ (st' : Store (J:=J)), spares (due_for_eviction retention_days now st) st st' → ∀ id,
            due_for_eviction retention_days now st id → is_Some (ls_rows st' !! id) → due_for_eviction retention_days now st' id) as Hagain.
  { intros st' [R _ _] id (Hd & Hsafe & meta & ended & Hr & Hrest) [m Hm]. split_and!; [done|done|]. exists meta, ended.
    split; [|done]. destruct (R id) as [->|(_ & Hn & _)]; [done|congruence]. }
  unfold retention_sweep. destruct (retention_days =? 0) eqn:E0.
  { apply N.eqb_eq in E0. split_and!; [apply spares_refl|by intros ? ?%elem_of_nil|by intros ? []|]. apply Hagain, spares_refl. }
  apply N.eqb_neq in E0. unfold list_stopped_sessions_older_than. destruct err as [e|].
  { split_and!; [apply spares_refl|by intros ? ?%elem_of_nil|done|]. apply Hagain, spares_refl. }
  match goal with |- context [sweep_candidates answers ?l st] => set (candidates := l) end.
  assert (∀ id meta, (id, meta) ∈ candidates ↔ ls_rows st !! id = Some meta
            ∧ (∃ ended, sm_ended_at meta = Some ended ∧ ended < now - retention_days * DAY) ∧ sm_status meta ∈ [Stopped; Killed; Failed]) as Hin.
  { intros id meta. unfold candidates. rewrite list_elem_of_filter, elem_of_map_to_list. cbn. split.
    - intros [[He Hs] Hr]. split_and!; [done| |done]. destruct (sm_ended_at meta) as [ended|]; [|done]. exists ended. by apply N.ltb_lt in He.
    - intros (Hr & (ended & -> & Hlt) & Hs). split_and!; [by apply N.ltb_lt|done|done]. }
  pose proof (sweep_candidates_spec answers candidates st (due_for_eviction retention_days now st) Hnf) as Hspec.
  destruct (sweep_candidates answers candidates st) as [st' [evicted skipped]]. destruct Hspec as (Hs & Hev & Hall).
  - intros id meta (Hr & (ended & He & Hlt) & Hst)%Hin. split.
    + by repeat (apply elem_of_cons in Hst as [->|Hst]; [done|]); apply elem_of_nil in Hst.
    + intros Hsafe. split_and!; [done|done|]. by exists meta, ended.
  - split_and!; [exact Hs|exact Hev| |by apply Hagain]. intros id (_ & Hsafe & meta & ended & Hr & He & Hlt & Hst) _ Ha Hb.
    apply (Hall id meta); [|done..]. apply Hin. split_and!; [done|by exists ended|done].
Qed.
End Swept.

(** ** Witnesses *)

(** A component that ends three times and whose factory panics once. *)
Definition flaky_ops : list ComponentOp :=
  [RegisterDisabled (bs "push") true; SpawnSupervised (bs "http") true (Ok tt); PollSupervisor (bs "http") 1;
   ComponentEnds (bs "http") 2 (Err (bs "boom")); PauseEnds (bs "http") (Err (bs "factory panicked"));
   PollSupervisor (bs "http") 3; PauseEnds (bs "http") (Ok tt); PollSupervisor (bs "http") 4;
   ComponentEnds (bs "http") 5 (Ok tt); PauseEnds (bs "http") (Ok tt); PollSupervisor (bs "http") 6].

Lemma components_are_supervised_witness :
  rd_ready (daemon_readiness Disabled (co_slots (component_run flaky_ops))) = true
  ∧ ∃ sv slot, co_supervisors (component_run (flaky_ops ++ [ComponentEnds (bs "http") 7 (Ok tt)])) !! bs "http" = Some sv
      ∧ tied sv slot ∧ sl_state slot = CFailed ∧ sv_calls sv = 4.
Proof.
  assert (NoDup [bs "push"; bs "http"]) as Hnd
    by (apply NoDup_cons; split; [rewrite list_elem_of_singleton; discriminate|apply NoDup_singleton]).
  pose proof (Hnd : NoDup (omap (M:=list) named (flaky_ops ++ [ComponentEnds (bs "http") 7 (Ok tt)]))) as Hnd'.
  split.
  - destruct (components_are_supervised flaky_ops Disabled Hnd) as (_ & Hstate & Hready & _). apply Hready. split; [done|].
    intros name slot Hslot _.
    assert (forallb (λ e : bytes * ComponentSlot, satisfied (sl_state e.2)) (map_to_list (co_slots (component_run flaky_ops))) = true) as Hall
      by by vm_compute.
    rewrite forallb_forall in Hall.
    specialize (Hall (name, slot) (proj1 (list_elem_of_In _ _) (proj2 (elem_of_map_to_list _ _ _) Hslot))). cbn in Hall.
    destruct (sl_state slot) eqn:Es; try discriminate Hall; [right|by left]. by apply (Hstate name slot).
  - destruct (components_are_supervised _ Disabled Hnd') as (Htied & _).
    assert (match co_supervisors (component_run (flaky_ops ++ [ComponentEnds (bs "http") 7 (Ok tt)])) !! bs "http" with
            | Some sv => match sv_phase sv with GaveUp => true | _ => false end | None => false end = true) as Hup by by vm_compute.
    destruct (co_supervisors (component_run (flaky_ops ++ [ComponentEnds (bs "http") 7 (Ok tt)])) !! bs "http") as [sv|] eqn:Esv; [|discriminate Hup].
    destruct (Htied _ _ Esv) as (slot & _ & Ht). exists sv, slot. split; [reflexivity|]. split; [exact Ht|]. clear -Ht Hup.
    unfold tied in Ht. destruct (sv_phase sv); try discriminate Hup. destruct Ht as (-> & _ & -> & _). split; reflexivity.
Defined.

Section Witnesses.
#[local] Existing Instance no_base64.
#[local] Existing Instance csv_serde.
#[local] Existing Instance csv_laws.
#[local] Existing Instance plain_engine.

Definition old_meta (status : SessionStatus) : SessionMeta := sample_meta <| sm_status := status |> <| sm_ended_at := Some 5 |>.

(** One session long ended and one that runs. *)
Definition retained_store : Store (J:=Scheduled) :=
  mk_lifecycle ∅ ∅ ∅ {[bs "old" := old_meta Killed; bs "live" := old_meta Running]} {[bs "old"; bs "live"]} [].

Lemma retention_sweep_spares_live_witness :
  let '(st', (evicted, _)) := retention_sweep 1 (2 * DAY) None (λ _, mk_sweep_answers None None) retained_store in
  ls_rows st' !! bs "old" = None ∧ bs "old" ∉ ls_dirs st' ∧ ls_rows st' !! bs "live" = Some (old_meta Running) ∧ bs "live" ∈ ls_dirs st'.
Proof.
  pose proof (retention_sweep_spares_live 1 (2 * DAY) None (λ _, mk_sweep_answers None None) retained_store) as Hsweep.
  destruct (retention_sweep 1 (2 * DAY) None (λ _, mk_sweep_answers None None) retained_store) as [st' [evicted skipped]].
  assert (∀ id : bytes, sa_dir (mk_sweep_answers None None) ≠ Some NotFound) as Hnf by done.
  destruct (Hsweep Hnf) as ([Hrows [_ Hdirs] _] & Hev & Hall & _).
  assert (¬ due_for_eviction 1 (2 * DAY) retained_store (bs "live")) as Hlive.
  { intros (_ & _ & meta & ended & Hr & _ & _ & Hs).
    assert (ls_rows retained_store !! bs "live" = Some (old_meta Running)) as Hl by reflexivity.
    rewrite Hl in Hr. injection Hr as <-. revert Hs. cbn. intros Hs. repeat (apply elem_of_cons in Hs as [Hs|Hs]; [discriminate Hs|]).
    by apply elem_of_nil in Hs. }
  assert (bs "old" ∈ evicted) as Hold.
  { apply Hall; [|done..]. split_and!; [done|by vm_compute|]. exists (old_meta Killed), 5. split_and!; [reflexivity|done|by vm_compute|].
    cbn. right. left. }
  destruct (Hev _ Hold) as (_ & Hr & Hd). split_and!; [done|done| |].
  - destruct (Hrows (bs "live")) as [->|[? _]]; [reflexivity|done].
  - destruct (decide (bs "live" ∈ ls_dirs st')); [done|]. exfalso. apply Hlive, Hdirs; [|done]. apply (bool_decide_unpack _). by vm_compute.
Defined.
End Witnesses.
