(* ===== verification/Send.v ===== *)
(** * Sending input from the command line

    [oly send] ([src/src/client/send.rs]): the classification of the
    arguments, the names of keys, and the requests that are sent.  What the
    daemon answers, the clipboard and the local files are inputs.  The
    theorems say that the arguments reach the session once each and in order,
    up to the first that fails; that a key has the same bytes by name as from
    the keyboard of an attached terminal; and that hexadecimal input is exact,
    although a spec that is not ASCII can make the command panic. *)

From S2P Require Import Prelude Utf8 Text Disk Wire Mouse Client.

(** ** Key specs *)

(** A function that can index a string inside a character. *)
Inductive outcome (A : Type) :=
  | Returns (a : A)
  | Panics.
Arguments Returns {A} a.
Arguments Panics {A}.

(** The arms of [named_key_sequence], in order. *)
Definition key_names : list (list bytes * bytes) := [
  ([bs "enter"; bs "return"; bs "cr"], [x0d]);
  ([bs "lf"; bs "linefeed"], [x0a]);
  ([bs "tab"], [x09]);
  ([bs "backspace"; bs "bs"], [x08]);
  ([bs "esc"; bs "escape"], [x1b]);
  ([bs "up"], ESC :: bs "[A");
  ([bs "down"], ESC :: bs "[B");
  ([bs "right"], ESC :: bs "[C");
  ([bs "left"], ESC :: bs "[D");
  ([bs "home"], ESC :: bs "[H");
  ([bs "end"], ESC :: bs "[F");
  ([bs "delete"; bs "del"], ESC :: bs "[3~");
  ([bs "insert"; bs "ins"], ESC :: bs "[2~");
  ([bs "pageup"; bs "pgup"], ESC :: bs "[5~");
  ([bs "pagedown"; bs "pgdn"], ESC :: bs "[6~");
  ([bs "f1"], ESC :: bs "OP");
  ([bs "f2"], ESC :: bs "OQ");
  ([bs "f3"], ESC :: bs "OR");
  ([bs "f4"], ESC :: bs "OS");
  ([bs "f5"], ESC :: bs "[15~");
  ([bs "f6"], ESC :: bs "[17~");
  ([bs "f7"], ESC :: bs "[18~");
  ([bs "f8"], ESC :: bs "[19~");
  ([bs "f9"], ESC :: bs "[20~");
  ([bs "f10"], ESC :: bs "[21~");
  ([bs "f11"], ESC :: bs "[23~");
  ([bs "f12"], ESC :: bs "[24~")].

Definition named_key_sequence (normalized : bytes) : option bytes :=
  snd <$> find (λ arm : list bytes * bytes, existsb (bytes_eqb normalized) arm.1) key_names.

(** [strip_prefix(a).or_else(..)] *)
Fixpoint strip_any (prefixes : list bytes) (l : bytes) : option bytes :=
  match prefixes with
  | [] => None
  | p :: prefixes => match strip_prefix p l with Some rest => Some rest | None => strip_any prefixes l end
  end.

(** The only character of a string. *)
Definition only_char (l : bytes) : option N :=
  match utf8_decode l with Some [ch] => Some ch | _ => None end.

Definition parse_ctrl_key (normalized : bytes) : option N :=
  key_char ← strip_any [bs "ctrl+"; bs "ctrl-"] normalized;
  ch ← only_char key_char;
  if 128 <=? ch then None else Some (N.land (to_ascii_lowercase ch) 0x1f).

(** [u8::from_str_radix(.., 16)] *)
Definition hex_digit (b : byte) : option N :=
  if is_ascii_digit b then Some (byte_val b - 48)
  else if in_byte_range x61 x66 b then Some (byte_val b - 87)
  else if in_byte_range x41 x46 b then Some (byte_val b - 55)
  else None.

Fixpoint hex_value (acc : N) (l : bytes) : option N :=
  match l with
  | [] => Some acc
  | b :: l => d ← hex_digit b; if acc * 16 + d <=? 255 then hex_value (acc * 16 + d) l else None
  end.

Definition u8_from_hex (l : bytes) : option N :=
  match l with
  | [] => None
  | b :: rest => if b =b x2b then match rest with [] => None | _ => hex_value 0 rest end else hex_value 0 l
  end.

(** [is_char_boundary] where [l] is what is left of the string. *)
Definition at_boundary (l : bytes) : bool := match l with b :: _ => negb (cont b) | [] => true end.

(** The loop of [parse_hex_bytes]: the slice [payload[idx..idx + 2]] panics
    inside a character. *)
Fixpoint hex_pairs (payload : bytes) : outcome (option bytes) :=
  match payload with
  | a :: b :: rest =>
      if at_boundary rest then
        match u8_from_hex [a; b] with
        | Some byte =>
            match hex_pairs rest with
            | Returns (Some bytes) => Returns (Some (byte_of byte :: bytes))
            | other => other
            end
        | None => Returns None
        end
      else Panics
  | _ => Returns (Some [])
  end.

Definition parse_hex_bytes (normalized : bytes) : outcome (option bytes) :=
  match strip_prefix (bs "hex:") normalized with
  | Some payload =>
      if (len payload =? 0) || negb (len payload mod 2 =? 0) then Returns None else hex_pairs payload
  | None => Returns None
  end.

Definition parse_alt_key (normalized : bytes) : option bytes :=
  payload ← strip_any [bs "alt+"; bs "alt-"; bs "meta+"; bs "meta-"] normalized;
  match named_key_sequence payload with
  | Some sequence => Some (ESC :: sequence)
  | None =>
      match parse_ctrl_key payload with
      | Some control_char => Some (ESC :: utf8_encode1 control_char)
      | None => ch ← only_char payload; Some (ESC :: utf8_encode1 ch)
      end
  end.

Definition unsupported_key (spec : bytes) : bytes :=
  bs "unsupported key `" ++ spec ++ bs "`; use named keys (enter, tab, esc, backspace, up/down/left/right, "
  ++ bs "home/end, pgup/pgdn, del/ins, f1-f12), ctrl+<char>, alt+<char|key>, shift+tab, or hex:<bytes>".

Definition modifier_only : bytes :=
  bs "modifier-only key is not allowed; use forms like key:ctrl+c, key:alt+x, key:shift+tab".

(** After the hexadecimal form. *)
Definition parse_modified (spec normalized : bytes) : result AppError bytes :=
  match parse_ctrl_key normalized with
  | Some control_char => Ok [byte_of control_char]
  | None =>
      match parse_alt_key normalized with
      | Some alt => Ok alt
      | None =>
          if existsb (bytes_eqb normalized) [bs "shift+tab"; bs "shift-tab"] then Ok (ESC :: bs "[Z")
          else if existsb (bytes_eqb normalized) [bs "shift"; bs "alt"; bs "meta"; bs "ctrl"] then
            Err (Protocol modifier_only)
          else Err (Protocol (unsupported_key spec))
      end
  end.

Definition parse_key_spec (spec : bytes) : outcome (result AppError bytes) :=
  let normalized := ascii_lowercase (trim spec) in
  if len normalized =? 0 then Returns (Err (Protocol (bs "empty key spec is not allowed")))
  else match named_key_sequence normalized with
  | Some sequence => Returns (Ok sequence)
  | None =>
      match parse_hex_bytes normalized with
      | Panics => Panics
      | Returns (Some hex) => Returns (Ok hex)
      | Returns None => Returns (parse_modified spec normalized)
      end
  end.

(** ** Chunks and requests *)

Inductive Chunk :=
  | Literal (text : bytes)
  | Key (spec : bytes)
  | MouseChunk (spec : bytes)
  | Clipboard
  | File (path : bytes).

Definition parse_chunk (chunk : bytes) : Chunk :=
  match strip_prefix (bs "key:") chunk with
  | Some spec => Key spec
  | None =>
      match strip_prefix (bs "mouse:") chunk with
      | Some spec => MouseChunk spec
      | None =>
          if eq_ignore_ascii_case chunk (bs "oly-clipboard") then Clipboard
          else match strip_prefix (bs "oly-file:") chunk with
               | Some path => File path
               | None => Literal chunk
               end
      end
  end.

(** The requests this command makes. *)
Inductive Request :=
  | InputRequest (id data : bytes) (wait_for_change : bool) (attachment_id : option N)
  | MouseRequest (id spec : bytes)
  | UploadRequest (id path contents : bytes) (dedupe : bool)
  | NodeProxy (node : bytes) (inner : Request).

Inductive Reply :=
  | Ack
  | Uploaded (path : bytes)
  | OtherReply.

Definition routed (node : option bytes) (inner : Request) : Request :=
  match node with Some node => NodeProxy node inner | None => inner end.

(** What [oly-file:] finds at a path. *)
Record LocalFile := mk_file {
  file_exists : bool;
  file_metadata : result AppError bool;     (** [is_file] *)
  file_name : option bytes;                 (** as [to_string_lossy] gives it *)
  file_contents : result AppError bytes;
}.

(** What [collect_remote_clipboard_transfer] gives. *)
Inductive RemoteClipboardTransfer :=
  | TransferText (text : bytes)
  | TransferFiles (files : list (bytes * bytes)).

(** The machine the command runs on, and the daemon, whose answer may depend
    on what it was sent before. *)
Record World := mk_world {
  local_file : bytes → LocalFile;
  local_clipboard : result AppError (option bytes);
  remote_clipboard : result AppError (option RemoteClipboardTransfer);
  send_request_checked : list Request → Request → result AppError Reply;
}.

(** Requests already sent are threaded through; an error or a panic ends the
    command. *)
Definition Sending (A : Type) : Type := list Request → list Request * outcome (result AppError A).

Definition pure {A} (r : result AppError A) : Sending A := λ sent, (sent, Returns r).

Definition and_then {A B} (m : Sending A) (f : A → Sending B) : Sending B := λ sent,
  match m sent with
  | (sent, Returns (Ok a)) => f a sent
  | (sent, Returns (Err e)) => (sent, Returns (Err e))
  | (sent, Panics) => (sent, Panics)
  end.

#[local] Notation "'let!' x := m 'in' f" := (and_then m (λ x, f)) (at level 200, x pattern, m at level 100, f at level 200).

Section Send.
Context (w : World) (id : bytes) (node : option bytes).

Definition request (req : Request) : Sending Reply := λ sent,
  (sent ++ [req], Returns (send_request_checked w sent req)).

Definition unexpected {A} : result AppError A := Err (Protocol (bs "unexpected response type")).

(** [send_request] *)
Definition expect_ack (req : Request) : Sending unit :=
  let! reply := request req in
  pure match reply with Ack => Ok tt | _ => unexpected end.

Definition send_mouse (spec : bytes) : Sending unit := expect_ack (routed node (MouseRequest id spec)).

Definition send_data (data : bytes) : Sending unit :=
  expect_ack (routed node (InputRequest id data true None)).

Definition upload_file (name contents : bytes) : Sending bytes :=
  let! reply := request (routed node (UploadRequest id name contents true)) in
  pure match reply with Uploaded path => Ok path | _ => unexpected end.

Definition upload_local_file (path : bytes) : Sending bytes :=
  let file := local_file w path in
  if len path =? 0 then pure (Err (Protocol (bs "empty oly-file path is not allowed")))
  else if negb (file_exists file) then pure (Err (Io NotFound))
  else
    let! is_file := pure (file_metadata file) in
    if negb is_file then pure (Err (Io InvalidInput))
    else match file_name file with
         | None => pure (Err (Io InvalidInput))
         | Some name => let! contents := pure (file_contents file) in upload_file name contents
         end.

Definition nothing_in_clipboard {A} : result AppError A :=
  Err (Protocol (bs "clipboard did not contain any text, files, or image data")).

Fixpoint upload_all (files : list (bytes * bytes)) : Sending (list bytes) :=
  match files with
  | [] => pure (Ok [])
  | (name, contents) :: files =>
      let! path := upload_file name contents in
      let! paths := upload_all files in
      pure (Ok (path :: paths))
  end.

(** [join("\n")] *)
Fixpoint join_lines (paths : list bytes) : bytes :=
  match paths with
  | [] => []
  | [path] => path
  | path :: paths => path ++ x0a :: join_lines paths
  end.

Definition resolve_remote_clipboard_content : Sending bytes :=
  let! transfer := pure (remote_clipboard w) in
  match transfer with
  | Some (TransferText text) => pure (Ok text)
  | Some (TransferFiles files) => let! paths := upload_all files in pure (Ok (join_lines paths))
  | None => pure nothing_in_clipboard
  end.

Definition resolve_clipboard_chunk : Sending bytes :=
  match node with
  | Some _ => resolve_remote_clipboard_content
  | None =>
      let! found := pure (local_clipboard w) in
      pure match found with Some text => Ok text | None => nothing_in_clipboard end
  end.

Definition resolve_chunk (chunk : bytes) : Sending bytes :=
  match parse_chunk chunk with
  | Key spec => λ sent, (sent, parse_key_spec spec)
  | MouseChunk _ =>
      pure (Err (Protocol (bs "mouse is an input action, not text; use `--` or stdin to send literal text")))
  | Clipboard => resolve_clipboard_chunk
  | File path => upload_local_file path
  | Literal text => pure (Ok text)
  end.

(** One turn of the loop over the chunks. *)
Definition send_chunk (chunk : bytes) : Sending unit :=
  match parse_chunk chunk with
  | MouseChunk spec => send_mouse spec
  | _ => let! data := resolve_chunk chunk in send_data data
  end.

Fixpoint send_chunks (chunks : list bytes) : Sending unit :=
  match chunks with
  | [] => pure (Ok tt)
  | chunk :: chunks => let! _ := send_chunk chunk in send_chunks chunks
  end.

(** Standard input: a terminal, or what reading it to the end gives. *)
Definition Stdin : Type := option (result AppError bytes).

Definition no_input : bytes :=
  bs "no input provided; pass text/key chunks or pipe stdin. Example: oly send <id> " ++ [x22] ++ bs "hello"
  ++ [x22] ++ bs " key:enter".

(** [free_text]: what follows [--].  The value is [sent_any]. *)
Definition run_send (chunks : list bytes) (free_text : option bytes) (stdin : Stdin) : Sending bool :=
  let has_chunks := negb (len chunks =? 0) in
  let blob := match free_text with Some s => if len s =? 0 then None else Some s | None => None end in
  let has_free_text := match blob with Some _ => true | None => false end in
  let had_separator := match free_text with Some _ => true | None => false end in
  let stdin_is_terminal := match stdin with None => true | Some _ => false end in
  if negb has_chunks && negb has_free_text && stdin_is_terminal then pure (Err (Protocol no_input))
  else if had_separator && negb has_free_text then
    pure (Err (Protocol (bs "trailing `--` was not followed by any free-text arguments")))
  else
    let! _ := send_chunks chunks in
    let! _ := match blob with Some blob => send_data blob | None => pure (Ok tt) end in
    let sent_any := has_chunks || has_free_text in
    match stdin with
    | Some read =>
        if negb has_chunks && negb had_separator then
          let! data := pure read in
          if len data =? 0 then pure (Ok sent_any) else let! _ := send_data data in pure (Ok true)
        else pure (Ok sent_any)
    | None => pure (Ok sent_any)
    end.

End Send.

(** Inputs in the same order, for a session of this machine. *)
Definition ack_world : World :=
  mk_world (λ _, mk_file true (Ok true) (Some (bs "a.txt")) (Ok (bs "data"))) (Ok None) (Ok None)
    (λ _ req, match req with NodeProxy _ (UploadRequest _ _ _ _) | UploadRequest _ _ _ _ => Ok (Uploaded (bs "/s/a.txt"))
                           | _ => Ok Ack end).

(** ** Order *)

(** What a request makes the session do. *)
Inductive action :=
  | Types (data : bytes)
  | Points (spec : bytes).

Fixpoint action_of (req : Request) : option action :=
  match req with
  | InputRequest _ data _ _ => Some (Types data)
  | MouseRequest _ spec => Some (Points spec)
  | UploadRequest _ _ _ _ => None
  | NodeProxy _ inner => action_of inner
  end.

Definition actions (sent : list Request) : list action := omap (M:=list) action_of sent.

Definition chunk_action (chunk : bytes) (a : action) : Prop :=
  match parse_chunk chunk with
  | Literal text => a = Types text
  | Key spec => ∃ data, parse_key_spec spec = Returns (Ok data) ∧ a = Types data
  | MouseChunk spec => a = Points spec
  | Clipboard | File _ => ∃ data, a = Types data
  end.

(** The requests go to the session on its node, and ask for no control. *)
Definition addressed (id : bytes) (req : Request) : Prop :=
  match req with
  | InputRequest i _ wait_for_change attachment => i = id ∧ wait_for_change = true ∧ attachment = None
  | MouseRequest i _ => i = id
  | UploadRequest i _ _ dedupe => i = id ∧ dedupe = true
  | NodeProxy _ _ => False
  end.

Definition reaches (id : bytes) (node : option bytes) (req : Request) : Prop :=
  ∃ inner, addressed id inner ∧ req = routed node inner.

(** What is sent after the chunks, or the error of reading it. *)
Definition last_input (chunks : list bytes) (free_text : option bytes) (stdin : Stdin) : result AppError (option bytes) :=
  match free_text, chunks, stdin with
  | Some blob, _, _ => Ok (Some blob)
  | None, [], Some (Err e) => Err e
  | None, [], Some (Ok (b :: data)) => Ok (Some (b :: data))
  | _, _, _ => Ok None
  end.

(** The command line is refused as a whole. *)
Definition usage_error (chunks : list bytes) (free_text : option bytes) (stdin : Stdin) : option AppError :=
  match chunks, free_text, stdin with
  | [], (None | Some []), None => Some (Protocol no_input)
  | _, Some [], _ => Some (Protocol (bs "trailing `--` was not followed by any free-text arguments"))
  | _, _, _ => None
  end.

Definition succeeded {A} (r : outcome (result AppError A)) : Prop := ∃ a, r = Returns (Ok a).

Lemma not_ok_error {A} e : ¬ succeeded (Returns (@Err _ A e)).
Proof. by intros [a [=]]. Qed.

Lemma not_ok_panics {A} : ¬ succeeded (@Panics (result AppError A)).
Proof. by intros [a [=]]. Qed.

Section Order.
Context (w : World) (id : bytes) (node : option bytes).

(** [m] only adds requests for the session, whose actions and result are
    as [P] says. *)
Definition runs {A} (m : Sending A) (P : list action → outcome (result AppError A) → Prop) : Prop :=
  ∀ sent, ∃ new, (m sent).1 = sent ++ new ∧ Forall (reaches id node) new ∧ P (actions new) (m sent).2.

Lemma runs_pure {A} (r : outcome (result AppError A)) P : P [] r → runs (λ sent, (sent, r)) P.
Proof. intros HP sent. exists []. by rewrite app_nil_r. Qed.

Lemma runs_mono {A} (m : Sending A) (P Q : _ → _ → Prop) : runs m P → (∀ acts r, P acts r → Q acts r) → runs m Q.
Proof. intros Hm HPQ sent. destruct (Hm sent) as (new & Hs & Hr & HP). exists new. auto. Qed.

Lemma runs_bind {A B} (m : Sending A) (f : A → Sending B) P Q (R : _ → _ → Prop) :
  runs m P → (∀ a, runs (f a) (Q a)) →
  (∀ acts acts' a r, P acts (Returns (Ok a)) → Q a acts' r → R (acts ++ acts') r) →
  (∀ acts e, P acts (Returns (Err e)) → R acts (Returns (Err e))) →
  (∀ acts, P acts Panics → R acts Panics) → runs (and_then m f) R.
Proof.
  intros Hm Hf Hok Herr Hpanic sent. destruct (Hm sent) as (new & Hs & Hr & HP). unfold and_then.
  destruct (m sent) as [sent' [[a|e]|]]; cbn in Hs, HP; subst sent'; [|(exists new; split_and!; [done|done|cbn; by auto])..].
  destruct (Hf a (sent ++ new)) as (new' & Hs' & Hr' & HQ). exists (new ++ new').
  rewrite Hs', <- app_assoc. split; [done|]. split; [by apply Forall_app|].
  unfold actions. rewrite omap_app. by eapply Hok.
Qed.

(** Nothing reaches the session. *)
Definition silent {A} (acts : list action) (r : outcome (result AppError A)) : Prop := acts = [].

Lemma runs_silent {A B} (m : Sending A) (f : A → Sending B) :
  runs m silent → (∀ a, runs (f a) silent) → runs (and_then m f) silent.
Proof. intros Hm Hf. eapply runs_bind; [done|exact Hf|..]; unfold silent; intros; by subst. Qed.

Lemma runs_request req : addressed id req →
  runs (request w (routed node req)) (λ acts _, acts = actions [routed node req]).
Proof. intros Ha sent. eexists. split; [done|]. split; [|done]. repeat constructor. by exists req. Qed.

Lemma action_routed req : action_of (routed node req) = action_of req.
Proof. by destruct node. Qed.

Lemma runs_ack req a : addressed id req → action_of req = Some a →
  runs (expect_ack w (routed node req)) (λ acts _, acts = [a]).
Proof.
  intros Ha Hact. eapply runs_bind with (Q := λ _ acts _, acts = []); [by apply runs_request|..]; cbn.
  - intros reply. by apply runs_pure.
  - intros acts acts' reply r -> ->. by rewrite action_routed, Hact.
  - intros acts e ->. by rewrite action_routed, Hact.
  - intros acts ->. by rewrite action_routed, Hact.
Qed.

Lemma runs_send_data data : runs (send_data w id node data) (λ acts _, acts = [Types data]).
Proof. by apply runs_ack. Qed.

Lemma runs_upload name contents : runs (upload_file w id node name contents) silent.
Proof.
  eapply runs_silent; [eapply runs_mono; [by apply runs_request|]|intros; by apply runs_pure].
  intros acts r ->. cbn. by rewrite action_routed.
Qed.

Lemma runs_upload_all files : runs (upload_all w id node files) silent.
Proof.
  induction files as [|[name contents] files IH]; [by apply runs_pure|]. cbn.
  apply runs_silent; [apply runs_upload|intros path]. apply runs_silent; [apply IH|intros; by apply runs_pure].
Qed.

Lemma runs_upload_local path : runs (upload_local_file w id node path) silent.
Proof.
  unfold upload_local_file. destruct (len path =? 0); [by apply runs_pure|].
  destruct (negb (file_exists _)); [by apply runs_pure|]. apply runs_silent; [by apply runs_pure|intros is_file].
  destruct (negb is_file); [by apply runs_pure|]. destruct (file_name _) as [name|]; [|by apply runs_pure].
  apply runs_silent; [by apply runs_pure|intros contents; apply runs_upload].
Qed.

Lemma runs_clipboard : runs (resolve_clipboard_chunk w id node) silent.
Proof.
  unfold resolve_clipboard_chunk. enough (∀ o : option bytes, runs (match o with
    | Some _ => resolve_remote_clipboard_content w id node
    | None => let! found := pure (local_clipboard w) in
              pure match found with Some text => Ok text | None => nothing_in_clipboard end
    end) silent) as Ho by exact (Ho node).
  intros [_|]; apply runs_silent; try (by apply runs_pure); intros found; [|by apply runs_pure].
  destruct found as [[text|files]|]; try by apply runs_pure.
  apply runs_silent; [apply runs_upload_all|intros; by apply runs_pure].
Qed.

Lemma runs_resolve chunk :
  runs (resolve_chunk w id node chunk)
    (λ acts r, acts = [] ∧ ∀ data, r = Returns (Ok data) → chunk_action chunk (Types data)).
Proof.
  unfold resolve_chunk, chunk_action. destruct (parse_chunk chunk); try (apply runs_pure; split; [done|]).
  - by intros data [= ->].
  - intros data Hd. by exists data.
  - by intros data [=].
  - eapply runs_mono; [apply runs_clipboard|]. intros acts r ->. split; [done|]. intros data _. by exists data.
  - eapply runs_mono; [apply runs_upload_local|]. intros acts r ->. split; [done|]. intros data _. by exists data.
Qed.

(** A chunk acts at most once, and if it succeeds exactly once. *)
Lemma runs_chunk chunk :
  runs (send_chunk w id node chunk)
    (λ acts r, (acts = [] ∧ ¬ succeeded r) ∨ ∃ a, acts = [a] ∧ chunk_action chunk a).
Proof.
  assert (runs (let! data := resolve_chunk w id node chunk in send_data w id node data)
    (λ acts r, (acts = [] ∧ ¬ succeeded r) ∨ ∃ a, acts = [a] ∧ chunk_action chunk a)) as Hplain.
  { eapply runs_bind; [apply runs_resolve|apply runs_send_data|..]; cbn.
    - intros acts acts' data r [-> Hd] ->. right. exists (Types data). auto.
    - intros acts e [-> _]. left. split; [done|]. by intros [a [=]].
    - intros acts [-> _]. left. split; [done|]. by intros [a [=]]. }
  unfold send_chunk. destruct (parse_chunk chunk) as [| |spec| |] eqn:Hp; try exact Hplain.
  eapply runs_mono; [by apply runs_ack|]. cbn. intros acts r ->. right. exists (Points spec).
  unfold chunk_action. by rewrite Hp.
Qed.

(** *** What a chunk stands for *)

(** The files are uploaded in order, each to the path the daemon names. *)
Inductive uploads : list Request → list (bytes * bytes) → list bytes → list Request → Prop :=
  | uploads_none sent : uploads sent [] [] sent
  | uploads_file sent name contents path files paths sent' :
      send_request_checked w sent (routed node (UploadRequest id name contents true)) = Ok (Uploaded path) →
      uploads (sent ++ [routed node (UploadRequest id name contents true)]) files paths sent' →
      uploads sent ((name, contents) :: files) (path :: paths) sent'.

(** [data] is what is typed for a chunk, after uploads that take [sent] to
    [sent']. *)
Definition resolves (sent : list Request) (chunk data : bytes) (sent' : list Request) : Prop :=
  match parse_chunk chunk with
  | Literal text => data = text ∧ sent' = sent
  | Key spec => parse_key_spec spec = Returns (Ok data) ∧ sent' = sent
  | MouseChunk _ => False
  | File path =>
      path ≠ [] ∧ ∃ name contents, local_file w path = mk_file true (Ok true) (Some name) (Ok contents)
                                   ∧ uploads sent [(name, contents)] [data] sent'
  | Clipboard =>
      match node with
      | None => local_clipboard w = Ok (Some data) ∧ sent' = sent
      | Some _ =>
          match remote_clipboard w with
          | Ok (Some (TransferText text)) => data = text ∧ sent' = sent
          | Ok (Some (TransferFiles files)) => ∃ paths, uploads sent files paths sent' ∧ data = join_lines paths
          | _ => False
          end
      end
  end.

(** The request a chunk ends in. *)
Definition chunk_request (sent : list Request) (chunk : bytes) (req : Request) (sent' : list Request) : Prop :=
  match parse_chunk chunk with
  | MouseChunk spec => req = routed node (MouseRequest id spec) ∧ sent' = sent
  | _ => ∃ data, resolves sent chunk data sent' ∧ req = routed node (InputRequest id data true None)
  end.

(** Chunk after chunk, each acknowledged before the next. *)
Inductive sends_all : list Request → list bytes → list Request → Prop :=
  | sends_none sent : sends_all sent [] sent
  | sends_chunk sent chunk chunks req sent1 sent' :
      chunk_request sent chunk req sent1 → send_request_checked w sent1 req = Ok Ack →
      sends_all (sent1 ++ [req]) chunks sent' → sends_all sent (chunk :: chunks) sent'.

(** A chunk that cannot be sent: its request cannot be made, or is not
    acknowledged. *)
Definition refused (sent : list Request) (chunk : bytes) : Prop :=
  ∀ req sent1, chunk_request sent chunk req sent1 → send_request_checked w sent1 req ≠ Ok Ack.

Definition ack_result {A} (a : A) (reply : result AppError Reply) : result AppError A :=
  match reply with Ok Ack => Ok a | Ok _ => unexpected | Err e => Err e end.

Lemma expect_ack_is req sent :
  expect_ack w req sent = (sent ++ [req], Returns (ack_result tt (send_request_checked w sent req))).
Proof. unfold expect_ack, and_then, request, pure. by destruct (send_request_checked w sent req) as [[]|]. Qed.

Lemma upload_file_is name contents sent sent' path :
  upload_file w id node name contents sent = (sent', Returns (Ok path)) ↔
  send_request_checked w sent (routed node (UploadRequest id name contents true)) = Ok (Uploaded path)
  ∧ sent' = sent ++ [routed node (UploadRequest id name contents true)].
Proof.
  unfold upload_file, and_then, request, pure. destruct (send_request_checked w sent _) as [[| |]|]; cbn;
    (split; [by intros [=]; subst|intros [[=] ->]; by subst]).
Qed.

Lemma upload_all_is files sent sent' paths :
  upload_all w id node files sent = (sent', Returns (Ok paths)) ↔ uploads sent files paths sent'.
Proof.
  revert sent paths. induction files as [|[name contents] files IH]; intros sent paths; cbn [upload_all].
  - split; [intros [= <- <-]; constructor|inversion 1; by subst].
  - unfold and_then at 1. split.
    + destruct (upload_file w id node name contents sent) as [sent1 [[path|e]|]] eqn:Hu; try done.
      apply upload_file_is in Hu as [Hreq ->]. unfold and_then, pure.
      destruct (upload_all w id node files _) as [sent2 [[paths2|e]|]] eqn:Ha; try done. intros [= <- <-].
      constructor; [done|by apply IH].
    + inversion 1 as [|? ? ? ? ? ? ? Hreq Hrest]; subst.
      rewrite (proj2 (upload_file_is _ _ _ _ _) (conj Hreq eq_refl)). unfold and_then.
      by rewrite (proj2 (IH _ _) Hrest).
Qed.
Lemma uploads_one sent name contents path sent' :
  uploads sent [(name, contents)] [path] sent' ↔ upload_file w id node name contents sent = (sent', Returns (Ok path)).
Proof.
  rewrite upload_file_is. split.
  - inversion 1 as [|? ? ? ? ? ? ? Hreq Hrest]; subst. by inversion Hrest; subst.
  - intros [Hreq ->]. by repeat constructor.
Qed.

Lemma resolve_clipboard_is sent data sent' :
  resolve_clipboard_chunk w id node sent = (sent', Returns (Ok data)) ↔
  match node with
  | None => local_clipboard w = Ok (Some data) ∧ sent' = sent
  | Some _ =>
      match remote_clipboard w with
      | Ok (Some (TransferText text)) => data = text ∧ sent' = sent
      | Ok (Some (TransferFiles files)) => ∃ paths, uploads sent files paths sent' ∧ data = join_lines paths
      | _ => False
      end
  end.
Proof.
  unfold resolve_clipboard_chunk, resolve_remote_clipboard_content, and_then, pure. destruct node as [b|] eqn:Hn.
  - destruct (remote_clipboard w) as [[[text|files]|]|]; try done; [naive_solver|]. rewrite <- Hn. split.
    + destruct (upload_all w id node files sent) as [sent1 [[paths|e]|]] eqn:Ha; try done. intros [= <- <-].
      exists paths. split; [by apply upload_all_is|done].
    + intros (paths & Hu%upload_all_is & ->). by rewrite Hu.
  - destruct (local_clipboard w) as [[text|]|]; (split; [by intros [= <- <-]|by intros [[= ->] ->]]).
Qed.

Lemma resolve_is sent chunk data sent' :
  resolve_chunk w id node chunk sent = (sent', Returns (Ok data)) ↔ resolves sent chunk data sent'.
Proof.
  unfold resolve_chunk, resolves. destruct (parse_chunk chunk) as [text|spec|spec| |path].
  - unfold pure. naive_solver.
  - split; [by intros [= <- ->]|by intros [-> ->]].
  - by unfold pure; split; [intros [=]|].
  - apply resolve_clipboard_is.
  - unfold upload_local_file, pure. destruct (local_file w path) as [ex meta name contents].
    cbn [file_exists file_metadata file_name file_contents].
    destruct (N.eqb_spec (len path) 0) as [Hp%len_0|Hp]; [by split; [intros [=]|intros []]|].
    assert (path ≠ []) as Hne by (by intros ->).
    destruct ex; cbn [negb]; [|split; [by intros [=]|by intros (_ & ? & ? & [=] & _)]].
    unfold and_then. destruct meta as [[]|]; cbn [negb]; [|split; [by intros [=]|by intros (_ & ? & ? & [=] & _)]..].
    destruct name as [name|]; [|split; [by intros [=]|by intros (_ & ? & ? & [=] & _)]].
    destruct contents as [contents|]; [|split; [by intros [=]|by intros (_ & ? & ? & [=] & _)]].
    rewrite <- uploads_one. split; [intros Hu; split; [done|]; by eexists _, _|by intros (_ & ? & ? & [= <- <-] & ?)].
Qed.

(** [send_chunk] sends the request of the chunk, or fails. *)
Lemma send_chunk_is sent chunk req sent1 : chunk_request sent chunk req sent1 →
  send_chunk w id node chunk sent = (sent1 ++ [req], Returns (ack_result tt (send_request_checked w sent1 req))).
Proof.
  unfold chunk_request, send_chunk. destruct (parse_chunk chunk) eqn:Hp;
    try (intros [-> ->]; apply expect_ack_is); intros (data & Hres%resolve_is & ->);
    unfold and_then at 1; rewrite Hres; apply expect_ack_is.
Qed.

Lemma send_chunk_ok sent chunk sent' : send_chunk w id node chunk sent = (sent', Returns (Ok tt)) →
  ∃ req sent1, chunk_request sent chunk req sent1 ∧ send_request_checked w sent1 req = Ok Ack ∧ sent' = sent1 ++ [req].
Proof.
  assert (∀ req sent1, expect_ack w req sent1 = (sent', Returns (Ok tt)) →
    send_request_checked w sent1 req = Ok Ack ∧ sent' = sent1 ++ [req]) as Hack.
  { intros req sent1. rewrite expect_ack_is. destruct (send_request_checked w sent1 req) as [[]|]; by intros [= <-]. }
  unfold chunk_request, send_chunk. destruct (parse_chunk chunk) eqn:Hp;
    try (by intros H%Hack; eexists _, _; split; [split; reflexivity|exact H]);
    (unfold and_then at 1; destruct (resolve_chunk w id node chunk sent) as [sent1 [[data|e]|]] eqn:Hres; try done;
     intros H%Hack; eexists _, sent1; split; [exists data; split; [by apply resolve_is|reflexivity]|exact H]).
Qed.

Lemma send_chunk_fails sent chunk sent' r :
  send_chunk w id node chunk sent = (sent', r) → ¬ succeeded r → refused sent chunk.
Proof.
  intros Hs Hr req sent1 Hreq Hack. rewrite (send_chunk_is _ _ _ _ Hreq), Hack in Hs. apply Hr. exists tt. by injection Hs as _ <-.
Qed.

(** The same end, of commands that give different values. *)
Definition fails_as {A B} (r : outcome (result AppError A)) (r' : outcome (result AppError B)) : Prop :=
  match r, r' with
  | Returns (Err e), Returns (Err e') => e = e'
  | Panics, Panics => True
  | _, _ => False
  end.

(** The loop stops at the first chunk that is refused. *)
Lemma send_chunks_spec chunks sent : let '(sent', r) := send_chunks w id node chunks sent in
  (r = Returns (Ok tt) ∧ sends_all sent chunks sent')
  ∨ ∃ k chunk sent1 r1, chunks !! k = Some chunk ∧ sends_all sent (take k chunks) sent1
      ∧ refused sent1 chunk ∧ send_chunk w id node chunk sent1 = (sent', r1) ∧ fails_as r1 r.
Proof.
  revert sent. induction chunks as [|chunk chunks IH]; intros sent; cbn [send_chunks].
  { left. split; [done|constructor]. }
  unfold and_then at 1. destruct (send_chunk w id node chunk sent) as [sent1 r1] eqn:Hc.
  destruct r1 as [[[]|e]|].
  - apply send_chunk_ok in Hc as (req & sent2 & Hreq & Hack & ->). specialize (IH (sent2 ++ [req])).
    destruct (send_chunks w id node chunks (sent2 ++ [req])) as [sent' r].
    destruct IH as [[-> Hall]|(k & ck & s1 & r1 & Hk & Hall & Hrest)].
    + left. split; [done|]. by econstructor.
    + right. exists (S k), ck, s1, r1. split_and!; [done|by econstructor|apply Hrest..].
  - right. exists O, chunk, sent, (Returns (Err e)).
    split_and!; [done|constructor|by eapply send_chunk_fails, not_ok_error|done|done].
  - right. exists O, chunk, sent, Panics.
    split_and!; [done|constructor|by eapply send_chunk_fails, not_ok_panics|done|done].
Qed.
(** *** The whole command *)

Definition reach {A} (m : Sending A) : Prop := runs m (λ _ _, True).

Lemma reach_bind {A B} (m : Sending A) (f : A → Sending B) : reach m → (∀ a, reach (f a)) → reach (and_then m f).
Proof. intros Hm Hf. by eapply runs_bind with (Q := λ _ _ _, True); [exact Hm|exact Hf|..]. Qed.

Lemma reach_pure {A} (r : result AppError A) : reach (pure r).
Proof. by apply runs_pure. Qed.

Lemma reach_data data : reach (send_data w id node data).
Proof. by eapply runs_mono; [apply runs_send_data|]. Qed.

Lemma reach_chunks chunks : reach (send_chunks w id node chunks).
Proof.
  induction chunks as [|chunk chunks IH]; [apply reach_pure|]. apply reach_bind; [|done].
  by eapply runs_mono; [apply runs_chunk|].
Qed.

Lemma reach_send chunks free_text stdin : reach (run_send w id node chunks free_text stdin).
Proof.
  unfold run_send. cbv zeta. destruct (_ && _ && _); [apply reach_pure|]. destruct (_ && _); [apply reach_pure|].
  apply reach_bind; [apply reach_chunks|intros _]. apply reach_bind.
  { destruct free_text as [blob|]; [destruct (len blob =? 0)|]; (apply reach_pure || apply reach_data). }
  intros _. destruct stdin as [read|]; [|apply reach_pure]. destruct (_ && _); [|apply reach_pure].
  apply reach_bind; [apply reach_pure|intros data]. destruct (len data =? 0); [apply reach_pure|].
  apply reach_bind; [apply reach_data|intros _; apply reach_pure].
Qed.

(** What follows the chunks. *)
Definition ends_with (chunks : list bytes) (free_text : option bytes) (stdin : Stdin) (sent1 sent : list Request)
    (r : outcome (result AppError bool)) : Prop :=
  match last_input chunks free_text stdin with
  | Err e => sent = sent1 ∧ r = Returns (Err e)
  | Ok None => sent = sent1 ∧ r = Returns (Ok (negb (len chunks =? 0)))
  | Ok (Some data) =>
      let req := routed node (InputRequest id data true None) in
      sent = sent1 ++ [req] ∧ r = Returns (ack_result true (send_request_checked w sent1 req))
  end.

Lemma send_data_then {B} data (b : B) sent1 :
  (let! _ := send_data w id node data in pure (Ok b)) sent1
  = (let req := routed node (InputRequest id data true None) in
     (sent1 ++ [req], Returns (ack_result b (send_request_checked w sent1 req)))).
Proof. unfold and_then, send_data. rewrite expect_ack_is. unfold pure. by destruct (send_request_checked _ _ _) as [[]|]. Qed.

Lemma run_send_spec chunks free_text stdin sent : let '(sent', r) := run_send w id node chunks free_text stdin sent in
  match usage_error chunks free_text stdin with
  | Some e => sent' = sent ∧ r = Returns (Err e)
  | None =>
      (∃ k chunk sent1 r1, chunks !! k = Some chunk ∧ sends_all sent (take k chunks) sent1
         ∧ refused sent1 chunk ∧ send_chunk w id node chunk sent1 = (sent', r1) ∧ fails_as r1 r)
      ∨ ∃ sent1, sends_all sent chunks sent1 ∧ ends_with chunks free_text stdin sent1 sent' r
  end.
Proof.
  assert (∀ f : unit → Sending bool,
    (∀ sent1, let '(sent', r) := f tt sent1 in ends_with chunks free_text stdin sent1 sent' r) →
    let '(sent', r) := and_then (send_chunks w id node chunks) f sent in
    (∃ k chunk sent1 r1, chunks !! k = Some chunk ∧ sends_all sent (take k chunks) sent1
         ∧ refused sent1 chunk ∧ send_chunk w id node chunk sent1 = (sent', r1) ∧ fails_as r1 r)
    ∨ ∃ sent1, sends_all sent chunks sent1 ∧ ends_with chunks free_text stdin sent1 sent' r) as Hchunks.
  { intros f Hf. unfold and_then at 1. pose proof (send_chunks_spec chunks sent) as Hs.
    destruct (send_chunks w id node chunks sent) as [sent1 r1]. destruct Hs as [[-> Hall]|(k & chunk & s1 & r1' & Hk & Hall & Href & Hc & Hfail)].
    - specialize (Hf sent1). destruct (f tt sent1) as [sent' r]. right. by exists sent1.
    - destruct r1 as [[[]|e]|], r1' as [[[]|e']|]; try done; left; by eexists k, chunk, s1, _. }
  unfold run_send. cbv zeta.
  destruct free_text as [[|b blob]|].
  - destruct chunks as [|chunk chunks]; [by destruct stdin|]. cbn [usage_error].
    rewrite len_cons. by eqb_to false.
  - assert (usage_error chunks (Some (b :: blob)) stdin = None) as -> by (by destruct chunks).
    rewrite len_cons. eqb_to false. cbn [negb andb]. rewrite ?andb_false_r. cbn [andb]. apply Hchunks. intros sent1.
    unfold ends_with. cbn [last_input]. destruct stdin; rewrite ?andb_false_r, ?orb_true_r; by rewrite send_data_then.
  - cbn [negb andb]. rewrite !andb_true_r, orb_false_r. destruct chunks as [|chunk chunks].
    + change (negb (negb (len (@nil bytes) =? 0))) with true. cbn [andb]. destruct stdin as [read|]; cbn [usage_error]; [|done].
      apply Hchunks. intros sent1. unfold ends_with. cbn [last_input]. unfold and_then at 1, pure at 1.
      unfold and_then at 1, pure at 1. destruct read as [[|b data]|e]; [done| |done].
      rewrite len_cons. eqb_to false. by rewrite send_data_then.
    + assert (usage_error (chunk :: chunks) None stdin = None) as -> by (by destruct stdin).
      rewrite len_cons. eqb_to false. cbn [negb andb]. apply Hchunks. intros sent1.
      unfold ends_with. cbn [last_input]. rewrite len_cons. eqb_to false. by destruct stdin.
Qed.
End Order.

(** A daemon that takes all input. *)
Definition takes_input (w : World) : Prop :=
  ∀ sent req, action_of req ≠ None → send_request_checked w sent req = Ok Ack.

(** A chunk that needs neither the clipboard nor a file. *)
Definition plain_chunk (chunk : bytes) : Prop :=
  match parse_chunk chunk with
  | Literal _ | MouseChunk _ => True
  | Key spec => ∃ data, parse_key_spec spec = Returns (Ok data)
  | _ => False
  end.

Lemma taken w node req sent : takes_input w → action_of req ≠ None →
  expect_ack w (routed node req) sent = (sent ++ [routed node req], Returns (Ok tt)).
Proof.
  intros Hw Hreq. unfold expect_ack, and_then, request. by rewrite Hw by by rewrite action_routed.
Qed.

Lemma plain_chunks_taken w id node chunks sent : takes_input w → Forall plain_chunk chunks →
  ∃ sent', send_chunks w id node chunks sent = (sent', Returns (Ok tt)).
Proof.
  intros Hw Hplain. revert sent. induction Hplain as [|chunk chunks Hc _ IH]; intros sent; [by eexists|].
  cbn [send_chunks]. unfold and_then at 1.
  enough (∃ sent', send_chunk w id node chunk sent = (sent', Returns (Ok tt))) as [sent' ->] by apply IH.
  unfold plain_chunk in Hc. unfold send_chunk, resolve_chunk, send_mouse, send_data, and_then, pure.
  destruct (parse_chunk chunk) as [text|spec|spec| |path]; try done.
  - rewrite taken by done. by eexists.
  - destruct Hc as [data ->]. rewrite taken by done. by eexists.
  - rewrite taken by done. by eexists.
Qed.

(** C20: What [oly send] sends, and in which order.  All requests go to the
    session, on its node if one is named, without an attachment.  A command
    line without input is refused before anything is sent.  Otherwise the
    arguments are sent one after the other, each as it stands: text as it is,
    keys by their sequences, mouse actions, a file as the path the daemon gave
    its upload, the clipboard as its text or the paths of its files; each is
    acknowledged before the next, and the first that cannot be sent ends the
    command with its error and keeps what follows from being sent.  When all
    were sent, the text after [--] or, when there is neither, what was read
    from a pipe goes last, byte for byte.  With arguments that are text, keys
    or mouse actions, a daemon that takes them makes the command succeed. *)
Theorem input_in_order w id node chunks free_text stdin :
  let '(sent, r) := run_send w id node chunks free_text stdin [] in
  Forall (reaches id node) sent
  ∧ match usage_error chunks free_text stdin with
    | Some e => sent = [] ∧ r = Returns (Err e)
    | None =>
        (∃ k chunk sent1 new, chunks !! k = Some chunk ∧ sends_all w id node [] (take k chunks) sent1
           ∧ refused w id node sent1 chunk ∧ sent = sent1 ++ new
           ∧ (actions new = [] ∨ ∃ a, actions new = [a] ∧ chunk_action chunk a)
           ∧ fails_as (send_chunk w id node chunk sent1).2 r)
        ∨ ∃ sent1, sends_all w id node [] chunks sent1 ∧ ends_with w id node chunks free_text stdin sent1 sent r
    end
  ∧ (takes_input w ∧ Forall plain_chunk chunks ∧ chunks ≠ [] ∧ free_text ≠ Some [] → r = Returns (Ok true)).
Proof.
  pose proof (reach_send w id node chunks free_text stdin []) as (new & Hs & Hr & _).
  pose proof (run_send_spec w id node chunks free_text stdin []) as Hspec.
  destruct (run_send w id node chunks free_text stdin []) as [sent r] eqn:E. cbn in Hs. subst sent.
  split_and!; [done| |].
  - destruct (usage_error chunks free_text stdin); [done|].
    destruct Hspec as [(k & chunk & sent1 & r1 & Hk & Hall & Href & Hc & Hf)|?]; [left|by right].
    destruct (runs_chunk w id node chunk sent1) as (new1 & Hn & _ & Ha). rewrite Hc in Hn, Ha. cbn in Hn, Ha.
    exists k, chunk, sent1, new1. rewrite Hc. split_and!; [done..|destruct Ha as [[? _]|?]; by auto|done].
  - intros (Hw & Hplain & Hc & Hf).
    destruct (plain_chunks_taken w id node chunks [] Hw Hplain) as [sent Hsent].
    apply len_nonempty in Hc. revert E. unfold run_send. cbv zeta. eqb_to false. cbn [negb andb].
    destruct free_text as [[|b blob]|]; [done| |].
    + rewrite len_cons. eqb_to false. cbn [negb andb]. unfold and_then at 1. rewrite Hsent.
      unfold send_data. unfold and_then at 1. rewrite taken by done. by destruct stdin; intros [= _ <-].
    + cbn [negb andb]. unfold and_then at 1. rewrite Hsent. by destruct stdin; intros [= _ <-].
Qed.

Lemma input_in_order_witness :
  let '(sent, r) := run_send ack_world (bs "s") (Some (bs "n")) [bs "ls"; bs "key:enter"] (Some (bs "key:x")) None [] in
  actions sent = [Types (bs "ls"); Types [x0d]; Types (bs "key:x")] ∧ r = Returns (Ok true)
  ∧ Forall (reaches (bs "s") (Some (bs "n"))) sent.
Proof.
  pose proof (input_in_order ack_world (bs "s") (Some (bs "n")) [bs "ls"; bs "key:enter"] (Some (bs "key:x")) None) as H.
  assert (takes_input ack_world) as Hw.
  { intros sent req. cbn. destruct req as [| | |? []]; done. }
  destruct (run_send _ _ _ _ _ _ _) as [sent r] eqn:E. destruct H as (Hr & _ & Hok).
  split_and!; [revert E; vm_compute; by intros [= <- _]| |exact Hr]. apply Hok. split_and!; [exact Hw| |done|done].
  repeat constructor; unfold plain_chunk; cbn; by eexists.
Defined.

(** ** Keys by name and from the keyboard *)

(** The key a name stands for. *)
Definition key_of_name : list (bytes * KeyEvent) := [
  (bs "enter", mk_key Enter no_modifiers Press); (bs "return", mk_key Enter no_modifiers Press);
  (bs "cr", mk_key Enter no_modifiers Press); (bs "tab", mk_key Tab no_modifiers Press);
  (bs "esc", mk_key Esc no_modifiers Press); (bs "escape", mk_key Esc no_modifiers Press);
  (bs "up", mk_key KUp no_modifiers Press); (bs "down", mk_key KDown no_modifiers Press);
  (bs "right", mk_key KRight no_modifiers Press); (bs "left", mk_key KLeft no_modifiers Press);
  (bs "home", mk_key Home no_modifiers Press); (bs "end", mk_key End no_modifiers Press);
  (bs "delete", mk_key Delete no_modifiers Press); (bs "del", mk_key Delete no_modifiers Press);
  (bs "insert", mk_key Insert no_modifiers Press); (bs "ins", mk_key Insert no_modifiers Press);
  (bs "pageup", mk_key PageUp no_modifiers Press); (bs "pgup", mk_key PageUp no_modifiers Press);
  (bs "pagedown", mk_key PageDown no_modifiers Press); (bs "pgdn", mk_key PageDown no_modifiers Press);
  (bs "shift+tab", mk_key BackTab no_modifiers Press); (bs "shift-tab", mk_key BackTab no_modifiers Press)]
  ++ map (λ n, (bs "f" ++ show_dec n, mk_key (F n) no_modifiers Press)) (seqN 1 12).

Definition only_control : KeyModifiers := mk_modifiers false true false.
Definition only_alt : KeyModifiers := mk_modifiers false false true.

(** The same bytes as the key pressed at an attached terminal. *)
Definition by_name_agrees (name : bytes) (key : KeyEvent) : bool :=
  match parse_key_spec name, map_key_to_input key false with
  | Returns (Ok a), Some b => bytes_eqb a b
  | _, _ => false
  end.

Definition is_upper (c : N) : bool := (65 <=? c) && (c <=? 90).
Definition is_legacy_digit (c : N) : bool := (50 <=? c) && (c <=? 56).

(** Keys by name.  Every named key but [backspace] sends what the key sends
    from an attached terminal whose cursor keys are in normal mode.
    [ctrl+] and a printable character send what the keyboard sends except for
    the digits 2 to 8, where the keyboard follows xterm; and [alt+] except
    for capitals, since the whole spec is lowercased. *)
Theorem keys_by_name :
  Forall (λ x : bytes * KeyEvent, by_name_agrees x.1 x.2 = true) key_of_name
  ∧ by_name_agrees (bs "backspace") (mk_key Backspace no_modifiers Press) = false
  ∧ Forall (λ c, by_name_agrees (bs "ctrl+" ++ [byte_of c]) (mk_key (Char c) only_control Press)
                 = negb (is_legacy_digit c)) (seqN 33 94)
  ∧ Forall (λ c, by_name_agrees (bs "alt+" ++ [byte_of c]) (mk_key (Char c) only_alt Press)
                 = negb (is_upper c)) (seqN 33 94).
Proof. split_and!; apply (bool_decide_unpack _); by vm_compute. Qed.

(** ** Hexadecimal input *)

Definition hex_char (d : N) : byte := byte_of (if d <? 10 then 48 + d else 87 + d).
Definition show_hex (data : bytes) : bytes :=
  concat (map (λ b, [hex_char (byte_val b / 16); hex_char (byte_val b mod 16)]) data).

Definition hex_byte_ok (b : byte) : bool :=
  let pair := [hex_char (byte_val b / 16); hex_char (byte_val b mod 16)] in
  bool_decide (u8_from_hex pair = Some (byte_val b))
  && forallb (λ c, negb (cont c) && (byte_val c <? 128) && (lower c =b c) && negb (is_whitespace (byte_val c))) pair.

Lemma hex_byte_true b : hex_byte_ok b = true.
Proof. by destruct b; vm_compute. Qed.

Lemma hex_byte_spec b :
  let pair := [hex_char (byte_val b / 16); hex_char (byte_val b mod 16)] in
  u8_from_hex pair = Some (byte_val b)
  ∧ Forall (λ c, cont c = false ∧ byte_val c < 128 ∧ lower c = c ∧ is_whitespace (byte_val c) = false) pair.
Proof.
  pose proof (hex_byte_true b) as Hb. unfold hex_byte_ok in Hb. cbv zeta in *.
  apply andb_true_iff in Hb as [Hu%bool_decide_eq_true Hall]. split; [exact Hu|].
  rewrite forallb_forall in Hall. apply Forall_forall. intros c Hc%list_elem_of_In%Hall.
  apply andb_true_iff in Hc as [[[Hc%negb_true_iff Ha%N.ltb_lt]%andb_true_iff Hl%byte_eqb_eq]%andb_true_iff Hw%negb_true_iff].
  auto.
Qed.

Lemma show_hex_chars data :
  Forall (λ c, cont c = false ∧ byte_val c < 128 ∧ lower c = c ∧ is_whitespace (byte_val c) = false) (show_hex data).
Proof.
  induction data as [|b data IH]; [constructor|]. unfold show_hex. cbn [map concat].
  apply Forall_app. split; [apply hex_byte_spec|exact IH].
Qed.

Lemma show_hex_boundary data : at_boundary (show_hex data) = true.
Proof. pose proof (show_hex_chars data) as Hc. destruct Hc as [|c l [Hc _] _]; [done|]. cbn. by rewrite Hc. Qed.

Lemma hex_pairs_show data : hex_pairs (show_hex data) = Returns (Some data).
Proof.
  induction data as [|b data IH]; [done|]. unfold show_hex. cbn [map concat app hex_pairs]. fold (show_hex data).
  rewrite show_hex_boundary. destruct (hex_byte_spec b) as [-> _]. rewrite IH. by rewrite byte_of_val.
Qed.

Lemma len_show_hex data : len (show_hex data) = 2 * len data.
Proof.
  induction data as [|b data IH]; [done|]. unfold show_hex in *. cbn [map concat app]. rewrite !len_cons, IH. lia.
Qed.

(** The whole of a spec without capitals or spaces is looked at. *)
Lemma normalized_show_hex data :
  ascii_lowercase (trim (bs "hex:" ++ show_hex data)) = bs "hex:" ++ show_hex data.
Proof.
  assert (Forall (λ c, byte_val c < 128 ∧ lower c = c ∧ is_whitespace (byte_val c) = false)
            (bs "hex:" ++ show_hex data)) as Hall.
  { apply Forall_app. split; [by repeat constructor|].
    eapply Forall_impl; [apply show_hex_chars|]. cbn. by intros c (_ & ? & ? & ?). }
  rewrite trim_ascii. rewrite trim_matches_all_out.
  - unfold ascii_lowercase. induction Hall as [|c l (_ & Hl & _) _ IH]; [done|]. cbn [map]. by rewrite Hl, IH.
  - apply forallb_forall. intros c Hc%list_elem_of_In. rewrite Forall_forall in Hall. by destruct (Hall c Hc) as (_ & _ & ->).
  - apply forallb_forall. intros c Hc%list_elem_of_In. rewrite Forall_forall in Hall. destruct (Hall c Hc) as (Hv & _).
    by apply N.ltb_lt.
Qed.

Lemma no_key_is_hex l : named_key_sequence (bs "hex:" ++ l) = None.
Proof. done. Qed.

(** ASCII never makes the loop panic. *)
Lemma hex_pairs_ascii l : ascii_bytes l = true → hex_pairs l ≠ Panics.
Proof.
  revert l. fix IH 1. intros [|a [|b l]]; [done..|]. unfold ascii_bytes. cbn [forallb hex_pairs].
  intros [_ [_ Hl]%andb_true_iff]%andb_true_iff.
  assert (at_boundary l = true) as ->.
  { destruct l as [|c l]; [done|]. cbn in *. apply andb_true_iff in Hl as [Hc%N.ltb_lt _]. unfold cont, in_range.
    by rewrite (proj2 (N.leb_gt 128 _)). }
  destruct (u8_from_hex [a; b]); [|done]. specialize (IH l Hl). by destruct (hex_pairs l) as [[]|].
Qed.

Lemma ascii_lower b : byte_val b < 128 → byte_val (lower b) < 128.
Proof.
  enough ((128 <=? byte_val b) || (byte_val (lower b) <? 128) = true) as [H%N.leb_le|H%N.ltb_lt]%orb_true_iff by lia.
  by destruct b.
Qed.

Lemma ascii_normalized spec : ascii_bytes spec = true → ascii_bytes (ascii_lowercase (trim spec)) = true.
Proof.
  intros Hs. rewrite trim_ascii by done. unfold ascii_bytes in *. rewrite forallb_forall in *.
  intros b (c & <- & Hc%trim_matches_in%Hs)%in_map_iff. apply N.ltb_lt, ascii_lower. by apply N.ltb_lt.
Qed.

Lemma parse_key_spec_ascii spec : ascii_bytes spec = true → parse_key_spec spec ≠ Panics.
Proof.
  intros Hs%ascii_normalized. unfold parse_key_spec. cbv zeta. destruct (_ =? 0); [done|].
  destruct (named_key_sequence _); [done|]. unfold parse_hex_bytes.
  destruct (strip_prefix _ _) as [payload|] eqn:Hp; [|done]. destruct (_ || _); [done|].
  assert (ascii_bytes payload = true) as Ha.
  { unfold strip_prefix in Hp. destruct (starts_with _ _); [|done]. injection Hp as <-.
    unfold ascii_bytes in *. rewrite forallb_forall in *. intros b Hb. apply Hs.
    by eapply list_elem_of_In, subseteq_drop, list_elem_of_In. }
  pose proof (hex_pairs_ascii _ Ha). by destruct (hex_pairs payload) as [[]|].
Qed.

(** Hexadecimal input.  [key:hex:] and the digits of any bytes sends these
    bytes, exactly.  No spec of ASCII characters makes the command panic, but
    a character of two bytes at an odd place among the digits does; and a
    plus sign is taken for part of a number. *)
Theorem hex_input_exact :
  (∀ data, data ≠ [] → parse_key_spec (bs "hex:" ++ show_hex data) = Returns (Ok data))
  ∧ (∀ spec, ascii_bytes spec = true → parse_key_spec spec ≠ Panics)
  ∧ parse_key_spec (bs "hex:a" ++ utf8_encode1 0xe9 ++ bs "b") = Panics
  ∧ parse_key_spec (bs "hex:+f") = Returns (Ok [x0f]).
Proof.
  split_and!; [|exact parse_key_spec_ascii|by vm_compute|by vm_compute].
  intros data Hd. unfold parse_key_spec. rewrite normalized_show_hex, no_key_is_hex.
  rewrite len_app. change (len (bs "hex:")) with 4. eqb_to false.
  unfold parse_hex_bytes. rewrite strip_prefix_app. apply len_nonempty in Hd. rewrite len_show_hex.
  rewrite (proj2 (N.eqb_neq _ _)) by lia.
  replace (2 * len data mod 2) with 0 by (rewrite N.mul_comm; symmetry; apply N.Div0.mod_mul). cbn [orb negb N.eqb].
  by rewrite hex_pairs_show.
Qed.

Lemma hex_input_exact_witness :
  parse_key_spec (bs "hex:" ++ show_hex [x1b; xff; x00]) = Returns (Ok [x1b; xff; x00])
  ∧ parse_key_spec (bs "hex:zz") ≠ Panics.
Proof.
  destruct hex_input_exact as (Hshow & Hascii & _).
  split; [apply Hshow; discriminate|apply Hascii; reflexivity].
Defined.

(** ** An example *)

Example sends_in_order :
  run_send ack_world (bs "s") None [bs "ls"; bs "key:enter"; bs "oly-file:a"; bs "mouse:left@1,1"] (Some (bs "key:x")) None [] =
  ([InputRequest (bs "s") (bs "ls") true None; InputRequest (bs "s") [x0d] true None;
    UploadRequest (bs "s") (bs "a.txt") (bs "data") true; InputRequest (bs "s") (bs "/s/a.txt") true None;
    MouseRequest (bs "s") (bs "left@1,1"); InputRequest (bs "s") (bs "key:x") true None], Returns (Ok true)).
Proof. by vm_compute. Qed.
