(* ===== verification/Console.v ===== *)
(** * Console input

    The keyboard of an attach on Windows
    ([src/src/client/attach_input.rs]): the UTF-16 units, win32-input-mode
    records and bracketed pastes of the console's key records, and the
    terminal events made of them.  The theorems say that the decoder of
    pastes and escape sequences keeps every character in order, splits no
    escape sequence and holds back little, that a bracketed paste arrives
    verbatim as one paste (from console records, when its text has no Escape),
    and that UTF-16 text is decoded exactly.  The events are taken until the receiver
    refuses one, which ends the reader. *)

From S2P Require Import Prelude Utf8 Text Disk Wire Mouse Client.

(** ** Pastes and escape sequences *)

(** Strings being read are lists of characters. *)
Inductive DecodedInput :=
  | Raw (data : bytes)
  | Paste (text : list N).

Record PasteDecoder := mk_decoder {
  pending : list N;
  paste : option (list N);
}.

Definition decoder_default : PasteDecoder := mk_decoder [] None.

Definition START : list N := [27; 91; 50; 48; 48; 126].
Definition END_ : list N := [27; 91; 50; 48; 49; 126].

Fixpoint chars_start_with (p l : list N) : bool :=
  match p, l with
  | [], _ => true
  | a :: p, b :: l => (a =? b) && chars_start_with p l
  | _ :: _, [] => false
  end.

Definition vt_sequence_complete (sequence : list N) : bool :=
  let bytes := utf8_encode sequence in
  if 256 <? len bytes then true
  else match drop 1 bytes with
  | [] => false
  | b :: body =>
      if (b =b x5b) && match body with c :: _ => c =b x4d | [] => false end then 6 <=? len sequence
      else if (b =b x5b) || (b =b x4f) then existsb (λ c, negb (in_byte_range x20 x3f c)) body
      else true
  end.

(** The loop of [push]; every turn that goes on drops a pending character. *)
Fixpoint push_loop (fuel : nat) (d : PasteDecoder) (out : list DecodedInput) : PasteDecoder * list DecodedInput :=
  match fuel with
  | O => (d, out)
  | S fuel =>
      let marker := match paste d with Some _ => END_ | None => START end in
      if bool_decide (pending d = marker) then
        match paste d with
        | Some text => (mk_decoder [] None, out ++ [Paste text])
        | None => (mk_decoder [] (Some []), out)
        end
      else if chars_start_with (pending d) marker then (d, out)
      else
        if match paste d with None => chars_start_with [27] (pending d) | Some _ => false end then
          if vt_sequence_complete (pending d) then (mk_decoder [] None, out ++ [Raw (utf8_encode (pending d))])
          else (d, out)
        else match pending d with
             | [] => (d, out)
             | ch :: rest =>
                 match paste d with
                 | Some text => push_loop fuel (mk_decoder rest (Some (text ++ [ch]))) out
                 | None => push_loop fuel (mk_decoder rest None) (out ++ [Raw (utf8_encode1 ch)])
                 end
             end
  end.

Definition push (d : PasteDecoder) (ch : N) : PasteDecoder * list DecodedInput :=
  push_loop (length (pending d) + 2) (mk_decoder (pending d ++ [ch]) (paste d)) [].

(** Several characters. *)
Fixpoint push_all (d : PasteDecoder) (text : list N) : PasteDecoder * list DecodedInput :=
  match text with
  | [] => (d, [])
  | ch :: text =>
      let '(d, out) := push d ch in
      let '(d, more) := push_all d text in
      (d, out ++ more)
  end.

(** ** UTF-16 *)

(** [char::decode_utf16] of a few units, lossily. *)
Definition is_high (unit : N) : bool := (0xd800 <=? unit) && (unit <=? 0xdbff).
Definition is_low (unit : N) : bool := (0xdc00 <=? unit) && (unit <=? 0xdfff).
Definition REPLACEMENT_CHAR : N := 0xfffd.

Fixpoint decode_utf16 (units : list N) : list N :=
  match units with
  | [] => []
  | u :: units =>
      if is_high u then
        match units with
        | v :: rest =>
            if is_low v then (0x10000 + (u - 0xd800) * 0x400 + (v - 0xdc00)) :: decode_utf16 rest
            else REPLACEMENT_CHAR :: decode_utf16 units
        | [] => [REPLACEMENT_CHAR]
        end
      else if is_low u then REPLACEMENT_CHAR :: decode_utf16 units
      else u :: decode_utf16 units
  end.

Definition decode_utf16_unit (surrogate : option N) (unit : N) : option N * list N :=
  if is_high unit then (Some unit, match surrogate with Some _ => [REPLACEMENT_CHAR] | None => [] end)
  else match surrogate with
       | Some high => (None, decode_utf16 [high; unit])
       | None => (None, decode_utf16 [unit])
       end.

(** [str::encode_utf16] *)
Definition encode_utf16_1 (c : N) : list N :=
  if c <? 0x10000 then [c]
  else [0xd800 + (c - 0x10000) / 0x400; 0xdc00 + (c - 0x10000) mod 0x400].

Definition encode_utf16 (cs : list N) : list N := concat (map encode_utf16_1 cs).

(** ** Key records *)

(** [KEY_EVENT_RECORD] *)
Record KeyRecord := mk_record {
  bKeyDown : bool;
  wRepeatCount : N;
  wVirtualKeyCode : N;
  wVirtualScanCode : N;
  UnicodeChar : N;
  dwControlKeyState : N;
}.

Fixpoint parse_all (pieces : list bytes) : option (list N) :=
  match pieces with
  | [] => Some []
  | piece :: pieces => n ← parse_unsigned u32_max piece; ns ← parse_all pieces; Some (n :: ns)
  end.

Definition try_u16 (n : N) : option N := if n <=? u16_max then Some n else None.

(** Windows Terminal's [Vk;Sc;Uc;Kd;Cs;Rc_]. *)
Definition parse_win32_key (l : bytes) : option KeyRecord :=
  rest ← strip_prefix (ESC :: bs "[") l;
  body ← strip_suffix (bs "_") rest;
  values ← parse_all (split_on x3b body);
  match values with
  | [vk; scan; unit; down; mods; repeat_] =>
      if 1 <? down then None
      else
        repeat_ ← try_u16 repeat_; vk ← try_u16 vk; scan ← try_u16 scan; unit ← try_u16 unit;
        Some (mk_record (negb (down =? 0)) repeat_ vk scan unit mods)
  | _ => None
  end.

Definition SHIFT_PRESSED : N := 0x10.
Definition LEFT_ALT_PRESSED : N := 0x2.
Definition RIGHT_ALT_PRESSED : N := 0x1.
Definition LEFT_CTRL_PRESSED : N := 0x8.
Definition RIGHT_CTRL_PRESSED : N := 0x4.

Definition has_flag (state flags : N) : bool := negb (N.land state flags =? 0).

Definition modifiers (state : N) : KeyModifiers :=
  mk_modifiers (has_flag state SHIFT_PRESSED)
    (has_flag state (N.lor LEFT_CTRL_PRESSED RIGHT_CTRL_PRESSED))
    (has_flag state (N.lor LEFT_ALT_PRESSED RIGHT_ALT_PRESSED)).

(** [EvResize]: what [size()] says; an error of it ends the reader. *)
Inductive InputEvent :=
  | EvRaw (data : bytes)
  | EvText (text : list N)
  | EvKey (key : KeyEvent)
  | EvResize (cols rows : N)
  | EvFocus (gained : bool)
  | EvMouse (mouse : MouseEvent).

(** The variables of [read_events]. *)
Record Reader := mk_reader {
  decoder : PasteDecoder;
  surrogate : option N;
  buttons : N;
  clipboard_key_down : bool;
  insert_key_down : bool;
  native_keys : list KeyRecord;
  transport : list N;
}.

#[export] Instance Reader_eta : Settable Reader := λ r,
  mk_reader (decoder r) (surrogate r) (buttons r) (clipboard_key_down r) (insert_key_down r) (native_keys r)
    (transport r).

Definition reader_default : Reader := mk_reader decoder_default None 0 false false [] [].

(** What may still become a win32 key. *)
Definition win32_prefix (transport : list N) : bool :=
  chars_start_with [27] transport
  && (bool_decide (transport = [27]) || bool_decide (transport = [27; 91])
      || (chars_start_with [27; 91] transport
          && forallb (λ b, is_ascii_digit b || (b =b x3b)) (drop 2 (utf8_encode transport)))).

Definition transport_char (r : Reader) (ch : N) : Reader :=
  let t := transport r ++ [ch] in
  if (len (utf8_encode t) <=? 256) && win32_prefix t then r <| transport := t |>
  else
    r <| native_keys := native_keys r ++
           match parse_win32_key (utf8_encode t) with
           | Some key => [key]
           | None => map (λ unit, mk_record true 1 0 0 unit 0) (encode_utf16 t)
           end |>
      <| transport := [] |>.

Definition on_transport (key : KeyRecord) (r : Reader) : Reader :=
  if negb (bKeyDown key) then r
  else
    let '(s, chars) := decode_utf16_unit (surrogate r) (UnicodeChar key) in
    fold_left transport_char chars (r <| surrogate := s |>).

Definition press (code : KeyCode) (mods : KeyModifiers) : InputEvent := EvKey (mk_key code mods Press).

Definition ctrl : KeyModifiers := mk_modifiers false true false.
Definition shifted : KeyModifiers := mk_modifiers true false false.

Definition decoded_event (decoded : DecodedInput) (r : Reader) : Reader * InputEvent :=
  match decoded with
  | Paste text => (r, EvText text)
  | Raw data =>
      if bytes_eqb data [x04] then (r, press (Char 100) ctrl)
      else if bytes_eqb data [x16] then (r <| clipboard_key_down := true |>, press (Char 118) ctrl)
      else if bytes_eqb data (ESC :: bs "[2;2~") then (r <| insert_key_down := true |>, press Insert shifted)
      else (r, EvRaw data)
  end.

Fixpoint decoded_events (out : list DecodedInput) (r : Reader) : Reader * list InputEvent :=
  match out with
  | [] => (r, [])
  | decoded :: out =>
      let '(r, event) := decoded_event decoded r in
      let '(r, events) := decoded_events out r in
      (r, event :: events)
  end.

Fixpoint on_chars (chars : list N) (r : Reader) : Reader * list InputEvent :=
  match chars with
  | [] => (r, [])
  | ch :: chars =>
      let '(d, out) := push (decoder r) ch in
      let '(r, events) := decoded_events out (r <| decoder := d |>) in
      let '(r, more) := on_chars chars r in
      (r, events ++ more)
  end.

(** Input without a virtual key, and all input inside a paste. *)
Definition on_vt (key : KeyRecord) (r : Reader) : Reader * list InputEvent :=
  if negb (bKeyDown key) || ((UnicodeChar key =? 0) && negb (wVirtualKeyCode key =? 0)) then (r, [])
  else
    let '(s, chars) := decode_utf16_unit (surrogate r) (UnicodeChar key) in
    on_chars chars (r <| surrogate := s |>).

Definition key_kind_of (key : KeyRecord) : KeyEventKind := if bKeyDown key then Press else Release.

(** [for _ in 0..key.wRepeatCount.max(1)] *)
Definition repeated (key : KeyRecord) (event : InputEvent) : list InputEvent :=
  replicate (N.to_nat (N.max (wRepeatCount key) 1)) event.

(** The keys with a code of their own; [None] for the others. *)
Definition named_code (vk : N) (mods : KeyModifiers) : option KeyCode :=
  if vk =? 0x08 then Some Backspace
  else if vk =? 0x09 then Some (if shift mods then BackTab else Tab)
  else if vk =? 0x0d then Some Enter
  else if vk =? 0x1b then Some Esc
  else if vk =? 0x21 then Some PageUp
  else if vk =? 0x22 then Some PageDown
  else if vk =? 0x23 then Some End
  else if vk =? 0x24 then Some Home
  else if vk =? 0x25 then Some KLeft
  else if vk =? 0x26 then Some KUp
  else if vk =? 0x27 then Some KRight
  else if vk =? 0x28 then Some KDown
  else if vk =? 0x2d then Some Insert
  else if vk =? 0x2e then Some Delete
  else if (0x70 <=? vk) && (vk <=? 0x87) then Some (F (vk - 0x6f))
  else None.

(** The clipboard shortcuts, whose key-down the terminal may have consumed. *)
Definition is_clipboard_v (vk : N) (mods : KeyModifiers) : bool :=
  (vk =? 0x56) && control mods && negb (alt mods || shift mods).
Definition is_clipboard_insert (vk : N) (mods : KeyModifiers) : bool :=
  (vk =? 0x2d) && shift mods && negb (alt mods || control mods).

Definition on_native (key : KeyRecord) (r : Reader) : Reader * list InputEvent :=
  let vk := wVirtualKeyCode key in
  let mods := modifiers (dwControlKeyState key) in
  let down := bKeyDown key in
  if is_clipboard_v vk mods then
    (r <| clipboard_key_down := down |>,
     if down || negb (clipboard_key_down r) then [press (Char 118) ctrl] else [])
  else if is_clipboard_insert vk mods then
    (r <| insert_key_down := down |>,
     if down || negb (insert_key_down r) then [press Insert shifted] else [])
  else if (0x10 <=? vk) && (vk <=? 0x12) then (r, [])
  else match named_code vk mods with
  | Some code => (r, repeated key (EvKey (mk_key code mods (key_kind_of key))))
  | None =>
      if control mods && (UnicodeChar key <=? 26) && ((0x41 <=? vk) && (vk <=? 0x5a)) then
        (r, repeated key (EvKey (mk_key (Char (vk + 0x20)) mods (key_kind_of key))))
      else
        let '(s, chars) := decode_utf16_unit (surrogate r) (UnicodeChar key) in
        (r <| surrogate := s |>,
         concat (map (λ ch, repeated key (EvKey (mk_key (Char ch) mods (key_kind_of key)))) chars))
  end.

(** The [KEY_EVENT] arm of [read_events]. *)
Definition on_key_record (from_transport : bool) (key : KeyRecord) (r : Reader) : Reader * list InputEvent :=
  if negb from_transport && (wVirtualKeyCode key =? 0) then (on_transport key r, [])
  else if (wVirtualKeyCode key =? 0) || match paste (decoder r) with Some _ => true | None => false end then
    on_vt key r
  else on_native key r.

(** The queue is emptied before the console is read again. *)
Fixpoint drain (keys : list KeyRecord) (r : Reader) : Reader * list InputEvent :=
  match keys with
  | [] => (r, [])
  | key :: keys =>
      let '(r, events) := on_key_record true key r in
      let '(r, more) := drain keys r in
      (r, events ++ more)
  end.

(** ** Other records *)

Definition MOUSE_MOVED : N := 1.
Definition DOUBLE_CLICK : N := 2.
Definition MOUSE_WHEELED : N := 4.
Definition MOUSE_HWHEELED : N := 8.

Record MouseRecord := mk_mouse_record {
  dwButtonState : N;
  dwEventFlags : N;
  dwMouseState : N;         (** [dwControlKeyState] *)
  dwMousePosition : Z * Z;
}.

(** [as i16 > 0] of the high half. *)
Definition wheel_forward (state : N) : bool :=
  let high := N.shiftr state 16 in (0 <? high) && (high <? 0x8000).

Definition first_button (state : N) : MouseButton :=
  if N.testbit state 0 then Left else if N.testbit state 1 then Right else Middle.

(** [(Y - top).max(0) as u16], wrapping as release builds do. *)
Definition i16_wrap (z : Z) : Z := ((z + 32768) mod 65536 - 32768)%Z.
Definition clamp_u16 (z : Z) : N := Z.to_N (Z.max z 0).

Definition mouse_kind (buttons next flags state : N) : option MouseEventKind :=
  if flags =? MOUSE_WHEELED then Some (if wheel_forward state then ScrollUp else ScrollDown)
  else if flags =? MOUSE_HWHEELED then Some (if wheel_forward state then ScrollRight else ScrollLeft)
  else if flags =? MOUSE_MOVED then Some (if negb (next =? 0) then Drag (first_button next) else Moved)
  else if ((flags =? 0) || (flags =? DOUBLE_CLICK)) && negb (N.ldiff next buttons =? 0) then
    Some (Down (first_button next))
  else if (flags =? 0) && negb (N.ldiff buttons next =? 0) then Some (Up (first_button buttons))
  else None.

(** [top]: the first visible row, [0] when the console does not say. *)
Definition on_mouse (mouse : MouseRecord) (top : Z) (r : Reader) : Reader * list InputEvent :=
  let next := N.land (dwButtonState mouse) 0x1f in
  (r <| buttons := next |>,
   match mouse_kind (buttons r) next (dwEventFlags mouse) (dwButtonState mouse) with
   | Some kind =>
       [EvMouse (mk_event kind (clamp_u16 (dwMousePosition mouse).1)
                  (clamp_u16 (i16_wrap ((dwMousePosition mouse).2 - top)))
                  (modifiers (dwMouseState mouse)))]
   | None => []
   end).

Inductive ConsoleRecord :=
  | KeyRec (key : KeyRecord)
  | SizeRec (cols rows : N)
  | FocusRec (gained : bool)
  | MouseRec (mouse : MouseRecord) (top : Z)
  | OtherRec.

(** One record read from the console, with the keys it queues. *)
Definition on_record (rec : ConsoleRecord) (r : Reader) : Reader * list InputEvent :=
  match rec with
  | KeyRec key =>
      let '(r, events) := on_key_record false key r in
      let '(r, more) := drain (native_keys r) (r <| native_keys := [] |>) in
      (r, events ++ more)
  | SizeRec cols rows => (r, [EvResize cols rows])
  | FocusRec gained => (r, [EvFocus gained])
  | MouseRec mouse top => on_mouse mouse top r
  | OtherRec => (r, [])
  end.

(** Fifty milliseconds without a record: what is held is let go. *)
Definition on_timeout (r : Reader) : Reader * list InputEvent :=
  match paste (decoder r) with
  | None =>
      if negb (len (pending (decoder r)) =? 0) || negb (len (transport r) =? 0) then
        (r <| decoder := mk_decoder [] None |> <| transport := [] |>,
         [EvRaw (utf8_encode (pending (decoder r)) ++ utf8_encode (transport r))])
      else (r, [])
  | Some _ => (r, [])
  end.

Fixpoint on_records (recs : list ConsoleRecord) (r : Reader) : Reader * list InputEvent :=
  match recs with
  | [] => (r, [])
  | rec :: recs =>
      let '(r, events) := on_record rec r in
      let '(r, more) := on_records recs r in
      (r, events ++ more)
  end.

(** What the console reports for VT input. *)
Definition vt_records (text : list N) : list ConsoleRecord :=
  map (λ unit, KeyRec (mk_record true 1 0 0 unit 0)) (encode_utf16 text).

(** ** The decoder *)

(** What an output stands for on the wire, and what is not output yet. *)
Definition wire (decoded : DecodedInput) : bytes :=
  match decoded with
  | Raw data => data
  | Paste text => utf8_encode START ++ utf8_encode text ++ utf8_encode END_
  end.

Definition held (d : PasteDecoder) : list N :=
  match paste d with Some text => START ++ text | None => [] end ++ pending d.

Definition kept (d : PasteDecoder) (out : list DecodedInput) : bytes := concat (map wire out) ++ utf8_encode (held d).

Definition is_char (c : N) : Prop := c < 0xd800 ∨ 0xe000 <= c < 0x110000.

(** The bytes [0x20..=0x3f]. *)
Definition param (c : N) : Prop := 0x20 <= c <= 0x3f.

#[export] Instance param_decision c : Decision (param c) := ltac:(unfold param; apply _).

(** The escape sequences of a terminal's input: Escape and a character; CSI or
    SS3 with its parameters and a final character; the legacy mouse report,
    CSI M and three characters; and a CSI or SS3 cut off at 257 bytes. *)
Inductive escape_sequence : list N → Prop :=
  | escape_char c : c ≠ 91 → c ≠ 79 → escape_sequence [27; c]
  | escape_final i params final :
      i = 91 ∨ i = 79 → Forall param params → (length params <= 254)%nat → ¬ param final →
      ¬ (i = 91 ∧ params = [] ∧ final = 77) → escape_sequence (27 :: i :: params ++ [final])
  | escape_mouse a b c : escape_sequence [27; 91; 77; a; b; c]
  | escape_overlong i params :
      i = 91 ∨ i = 79 → Forall param params → length params = 255%nat → escape_sequence (27 :: i :: params).

(** Their beginnings. *)
Inductive unfinished : list N → Prop :=
  | unfinished_escape : unfinished [27]
  | unfinished_params i params :
      i = 91 ∨ i = 79 → Forall param params → (length params <= 254)%nat → unfinished (27 :: i :: params)
  | unfinished_mouse l : (length l < 3)%nat → unfinished (27 :: 91 :: 77 :: l).

(** An input frame is a character or a whole escape sequence. *)
Definition frame (decoded : DecodedInput) : Prop :=
  match decoded with
  | Raw data => (∃ c, c ≠ 27 ∧ data = utf8_encode1 c) ∨ ∃ sequence, escape_sequence sequence ∧ data = utf8_encode sequence
  | Paste _ => True
  end.

(** What may be pending: part of a marker, or of an escape sequence. *)
Definition waiting (d : PasteDecoder) : Prop :=
  let marker := match paste d with Some _ => END_ | None => START end in
  chars_start_with (pending d) marker = true ∧ pending d ≠ marker
  ∨ paste d = None ∧ vt_sequence_complete (pending d) = false.

Lemma utf8_encode_app a b : utf8_encode (a ++ b) = utf8_encode a ++ utf8_encode b.
Proof. unfold utf8_encode. by rewrite map_app, concat_app. Qed.

Lemma utf8_encode_cons c l : utf8_encode (c :: l) = utf8_encode1 c ++ utf8_encode l.
Proof. done. Qed.

Lemma kept_app d out more : kept d (out ++ more) = concat (map wire out) ++ kept d more.
Proof. unfold kept. by rewrite map_app, concat_app, <- app_assoc. Qed.

Lemma chars_start_with_cons c l : chars_start_with [27] (c :: l) = (27 =? c).
Proof. cbn. by rewrite andb_true_r. Qed.

Lemma push_loop_spec fuel d out :
  (length (pending d) < fuel)%nat →
  let '(d', out') := push_loop fuel d out in
  kept d' out' = kept d out ∧ waiting d'.
Proof.
  revert d out. induction fuel as [|fuel IH]; intros [pend pas] out Hf; [lia|]. cbn [push_loop pending paste].
  case_bool_decide as Hm.
  { subst pend. destruct pas as [text|]; cbn [kept].
    - split; [|by left].
      rewrite kept_app. unfold kept, held. cbn [paste pending app map concat wire]. rewrite !app_nil_r, !utf8_encode_app.
      by rewrite <- !app_assoc.
    - split; [by unfold kept, held; rewrite !app_nil_r|by left]. }
  destruct (chars_start_with pend _) eqn:Hp; [split; [done|by left]|].
  destruct pas as [text|].
  - destruct pend as [|ch rest]; [done|]. cbn in Hf.
    specialize (IH (mk_decoder rest (Some (text ++ [ch]))) out). destruct (push_loop _ _ _) as [d' out'].
    destruct IH as (-> & Hw); [cbn; lia|]. split; [|done].
    unfold kept, held. cbn [paste pending]. by rewrite <- !app_assoc.
  - destruct pend as [|ch rest]; [done|]. rewrite chars_start_with_cons. destruct (N.eqb_spec 27 ch) as [<-|Hch].
    + destruct (vt_sequence_complete _) eqn:Hv; [|split; [done|by right]]. split; [|by left].
      rewrite kept_app. unfold kept, held. cbn [paste pending app map concat wire]. by rewrite !app_nil_r.
    + cbn in Hf. specialize (IH (mk_decoder rest None) (out ++ [Raw (utf8_encode1 ch)])).
      destruct (push_loop _ _ _) as [d' out']. destruct IH as (-> & Hw); [cbn; lia|].
      split; [|done]. rewrite kept_app. unfold kept, held. cbn [paste pending app map concat wire].
      by rewrite app_nil_r, utf8_encode_cons.
Qed.

Lemma push_spec d ch :
  let '(d', out) := push d ch in
  kept d' out = utf8_encode (held d ++ [ch]) ∧ waiting d'.
Proof.
  unfold push. pose proof (push_loop_spec (length (pending d) + 2) (mk_decoder (pending d ++ [ch]) (paste d)) []) as Hs.
  destruct (push_loop _ _ _) as [d' out]. destruct Hs as (-> & Hw); [cbn; rewrite length_app; cbn; lia|].
  split; [|done]. unfold kept, held. cbn [map concat app paste pending]. by rewrite app_assoc.
Qed.

Lemma push_all_spec d text :
  waiting d →
  let '(d', out) := push_all d text in
  kept d' out = utf8_encode (held d ++ text) ∧ waiting d'.
Proof.
  revert d. induction text as [|ch text IH]; intros d Hd; cbn [push_all].
  - split; [by unfold kept; rewrite app_nil_r|done].
  - pose proof (push_spec d ch) as Hs. destruct (push d ch) as [d1 out]. destruct Hs as (Hk & Hw).
    specialize (IH d1 Hw). destruct (push_all d1 text) as [d2 more]. destruct IH as (Hk' & Hw').
    split; [|done]. rewrite kept_app, Hk', utf8_encode_app, app_assoc.
    change (concat (map wire out) ++ utf8_encode (held d1)) with (kept d1 out). rewrite Hk.
    by rewrite <- utf8_encode_app, <- app_assoc.
Qed.

Lemma incomplete_short l : vt_sequence_complete l = false → len (utf8_encode l) <= 256.
Proof. unfold vt_sequence_complete. destruct (N.ltb_spec 256 (len (utf8_encode l))); [done|lia]. Qed.

Lemma prefix_short p l : chars_start_with p l = true → ∃ rest, l = p ++ rest.
Proof.
  revert l. induction p as [|c p IH]; intros l; [by exists l|]. destruct l as [|b l]; [done|]. cbn.
  intros [<-%N.eqb_eq [rest ->]%IH]%andb_true_iff. by exists rest.
Qed.

Lemma waiting_short d : waiting d → len (utf8_encode (pending d)) <= 256.
Proof.
  intros [[[rest Hp]%prefix_short _]|[_ Hv%incomplete_short]]; [|done].
  assert (len (utf8_encode (pending d ++ rest)) <= 6) as Hl by (rewrite <- Hp; by destruct (paste d)).
  rewrite utf8_encode_app, len_app in Hl. lia.
Qed.

(** *** Whole sequences *)

Lemma encode1_ascii c : c < 128 → utf8_encode1 c = [byte_of c] ∧ byte_val (byte_of c) = c.
Proof.
  intros Hc. unfold utf8_encode1. destruct (N.ltb_spec c 128); [|lia]. split; [done|]. by rewrite byte_val_of, N.mod_small by lia.
Qed.

(** Other characters: no byte of theirs is one of ASCII. *)
Lemma encode1_other c : 128 <= c → is_char c →
  ∃ b l, utf8_encode1 c = b :: l ∧ 128 <= byte_val b ∧ (length l <= 3)%nat.
Proof.
  intros Hc Hch. assert (c < 0x110000) as Hm by (destruct Hch; lia). unfold utf8_encode1.
  destruct (N.ltb_spec c 128); [lia|].
  destruct (N.ltb_spec c 2048).
  { assert (c / 64 < 32) by (apply N.Div0.div_lt_upper_bound; lia).
    eexists _, _. split; [done|]. rewrite byte_val_of, N.mod_small by lia. split; [apply N.le_trans with (2 := N.le_add_r _ _); by vm_compute|by repeat constructor]. }
  destruct (N.ltb_spec c 65536).
  { assert (c / 4096 < 16) by (apply N.Div0.div_lt_upper_bound; lia).
    eexists _, _. split; [done|]. rewrite byte_val_of, N.mod_small by lia. split; [apply N.le_trans with (2 := N.le_add_r _ _); by vm_compute|by repeat constructor]. }
  assert (c / 262144 < 5) by (apply N.Div0.div_lt_upper_bound; lia).
  eexists _, _. split; [done|]. rewrite byte_val_of, N.mod_small by lia. split; [apply N.le_trans with (2 := N.le_add_r _ _); by vm_compute|by repeat constructor].
Qed.

Lemma params_encode params : Forall param params →
  len (utf8_encode params) = len params ∧ existsb (λ b, negb (in_byte_range x20 x3f b)) (utf8_encode params) = false
  ∧ match utf8_encode params with b :: _ => b =b x4d | [] => false end = false.
Proof.
  induction 1 as [|c params Hc _ (IH & IHx & _)]; [done|]. destruct (encode1_ascii c) as [E V]; [unfold param in Hc; lia|].
  rewrite utf8_encode_cons, E. cbn [app]. rewrite !len_cons, IH. split; [done|]. cbn [existsb]. rewrite IHx.
  unfold param in Hc. split.
  - unfold in_byte_range. rewrite V. change (byte_val x20) with 32. change (byte_val x3f) with 63.
    destruct (N.leb_spec 32 c), (N.leb_spec c 63); (done || lia).
  - apply byte_eqb_neq. intros Hb. rewrite Hb in V. change (byte_val x4d) with 77 in V. lia.
Qed.
(** The first byte of a character tells it apart from an ASCII one. *)
Lemma encode1_first c a l : is_char c → a < 128 →
  match utf8_encode1 c ++ l with b :: _ => b =b byte_of a | [] => false end = (c =? a).
Proof.
  intros Hc Ha. assert (byte_val (byte_of a) = a) as Va by (rewrite byte_val_of; apply N.mod_small; lia).
  destruct (N.lt_ge_cases c 128) as [Hl|Hl].
  - destruct (encode1_ascii c Hl) as [-> V]. cbn [app]. destruct (N.eqb_spec c a) as [->|Hne]; [by rewrite byte_eqb_refl|].
    apply byte_eqb_neq. intros E. rewrite E in V. congruence.
  - destruct (encode1_other c Hl Hc) as (b & l' & -> & Hb & _). cbn [app].
    replace (c =? a) with false by (symmetry; apply N.eqb_neq; lia). apply byte_eqb_neq. intros ->. lia.
Qed.

(** A character that is not a parameter ends a CSI. *)
Lemma encode1_final c : is_char c → existsb (λ b, negb (in_byte_range x20 x3f b)) (utf8_encode1 c) = negb (bool_decide (param c)).
Proof.
  intros Hc. unfold in_byte_range, param. change (byte_val x20) with 32. change (byte_val x3f) with 63.
  destruct (N.lt_ge_cases c 128) as [Hl|Hl].
  - destruct (encode1_ascii c Hl) as [-> V]. cbn [existsb]. rewrite V, orb_false_r.
    case_bool_decide as Hp; destruct (N.leb_spec 32 c), (N.leb_spec c 63); (done || (exfalso; lia) || (exfalso; apply Hp; lia)).
  - destruct (encode1_other c Hl Hc) as (b & l & -> & Hb & _). cbn [existsb].
    destruct (N.leb_spec (byte_val b) 63); [lia|]. rewrite andb_false_r, bool_decide_eq_false_2 by lia. done.
Qed.

Lemma len_encode1 c : is_char c → 1 <= len (utf8_encode1 c) <= 4.
Proof.
  intros Hc. destruct (N.lt_ge_cases c 128) as [Hl|Hl].
  - destruct (encode1_ascii c Hl) as [-> _]. by vm_compute.
  - destruct (encode1_other c Hl Hc) as (b & l & -> & _ & Hlen). rewrite len_cons. unfold len. lia.
Qed.

Lemma len_encode_short l : Forall is_char l → len (utf8_encode l) <= 4 * len l.
Proof.
  induction 1 as [|c l Hc _ IH]; [done|]. rewrite utf8_encode_cons, len_app, len_cons. pose proof (len_encode1 c Hc). lia.
Qed.

(** What [vt_sequence_complete] says of a sequence that has grown by a
    character. *)
Lemma complete_escape c : is_char c → vt_sequence_complete [27; c] = negb ((c =? 91) || (c =? 79)).
Proof.
  intros Hc. unfold vt_sequence_complete. pose proof (len_encode1 c Hc) as Hlen.
  rewrite utf8_encode_cons. cbn [utf8_encode map concat]. rewrite app_nil_r.
  change (utf8_encode1 27) with [x1b]. cbn [app drop]. rewrite len_cons.
  destruct (N.ltb_spec 256 (len (utf8_encode1 c) + 1)); [lia|].
  pose proof (encode1_first c 91 [] Hc ltac:(lia)) as E1. pose proof (encode1_first c 79 [] Hc ltac:(lia)) as E2.
  rewrite app_nil_r in E1, E2. change (byte_of 91) with x5b in E1. change (byte_of 79) with x4f in E2.
  destruct (N.lt_ge_cases c 128) as [Hl|Hl].
  - destruct (encode1_ascii c Hl) as [E _]. rewrite E in *. cbv beta iota delta [drop] in E1, E2 |- *. rewrite E1, E2, andb_false_r. cbn [existsb].
    by destruct ((c =? 91) || (c =? 79)).
  - destruct (encode1_other c Hl Hc) as (b & l & E & _). rewrite E in *. cbv beta iota delta [drop] in E1, E2 |- *. rewrite E1, E2.
    replace (c =? 91) with false by (symmetry; apply N.eqb_neq; lia).
    by replace (c =? 79) with false by (symmetry; apply N.eqb_neq; lia).
Qed.

Lemma complete_params i params c : i = 91 ∨ i = 79 → Forall param params → (length params <= 254)%nat → is_char c →
  vt_sequence_complete (27 :: i :: params ++ [c])
  = if (i =? 91) && (len params =? 0) && (c =? 77) then false
    else negb (bool_decide (param c)) || bool_decide (length params = 254%nat).
Proof.
  intros Hi Hp Hlen Hc. unfold vt_sequence_complete. pose proof (len_encode1 c Hc) as Hl1.
  destruct (params_encode params Hp) as (Hplen & Hpx & Hpm).
  rewrite !utf8_encode_cons, utf8_encode_app. change (utf8_encode [c]) with (utf8_encode1 c ++ []). rewrite app_nil_r.
  assert (utf8_encode1 27 = [x1b] ∧ utf8_encode1 i = [byte_of i] ∧ byte_of i = (if i =? 91 then x5b else x4f)) as (-> & -> & ->)
    by (by destruct Hi as [->| ->]).
  cbn [app drop]. rewrite !len_cons, len_app, Hplen, existsb_app, Hpx, orb_false_l, (encode1_final c Hc).
  assert (((if i =? 91 then x5b else x4f) =b x5b) = (i =? 91)) as -> by (by destruct Hi as [->| ->]).
  assert (((if i =? 91 then x5b else x4f) =b x4f) = (i =? 79)) as -> by (by destruct Hi as [->| ->]).
  assert ((i =? 91) || (i =? 79) = true) as -> by (by destruct Hi as [->| ->]).
  assert (match utf8_encode params ++ utf8_encode1 c with c0 :: _ => c0 =b x4d | [] => false end
          = (len params =? 0) && (c =? 77)) as ->.
  { destruct params as [|q params].
    - cbn. rewrite <- (app_nil_r (utf8_encode1 c)). exact (encode1_first c 77 [] Hc ltac:(lia)).
    - rewrite len_cons. eqb_to false. destruct (utf8_encode (q :: params)) as [|b l] eqn:E; [|exact Hpm].
      rewrite len_cons, len_nil in Hplen. lia. }
  rewrite <- andb_assoc. unfold len in Hplen |- *.
  destruct ((i =? 91) && _) eqn:Hm.
  - apply andb_true_iff in Hm as [_ [Hz%N.eqb_eq _]%andb_true_iff]. unfold len in *.
    destruct (N.ltb_spec 256 (N.of_nat (length params) + N.of_nat (length (utf8_encode1 c)) + 1 + 1)); [lia|].
    cbn [length]. rewrite !length_app. cbn [length]. apply N.leb_gt. lia.
  - case_bool_decide as Hpc; cbn [negb orb].
    + assert (length (utf8_encode1 c) = 1%nat) as ->.
      { destruct (encode1_ascii c) as [-> _]; [unfold param in Hpc; lia|done]. }
      case_bool_decide as H254; destruct (N.ltb_spec 256 (N.of_nat (length params) + N.of_nat 1 + 1 + 1)); (done || lia).
    + by destruct (256 <? _).
Qed.

Lemma complete_mouse l c : (length l < 3)%nat → Forall is_char l → is_char c →
  vt_sequence_complete (27 :: 91 :: 77 :: l ++ [c]) = bool_decide (length l = 2%nat).
Proof.
  intros Hl Hcs Hc. unfold vt_sequence_complete. rewrite !utf8_encode_cons.
  change (utf8_encode1 27) with [x1b]. change (utf8_encode1 91) with [x5b]. change (utf8_encode1 77) with [x4d].
  cbn [app drop]. rewrite !len_cons. pose proof (len_encode_short (l ++ [c])) as Hs.
  rewrite Forall_app, len_app in Hs. specialize (Hs (conj Hcs (proj2 (Forall_singleton _ _) Hc))).
  assert (len l < 3) by (unfold len; lia). assert (len [c] = 1) as E1 by done. rewrite E1 in Hs.
  destruct (N.ltb_spec 256 (len (utf8_encode (l ++ [c])) + 1 + 1 + 1)); [lia|].
  rewrite !byte_eqb_refl. cbn [andb]. rewrite len_app, E1. unfold len.
  case_bool_decide; [apply N.leb_le|apply N.leb_gt]; lia.
Qed.

(** A sequence grows until it is whole. *)
Lemma sequence_grows p c : unfinished p → Forall is_char p → is_char c →
  if vt_sequence_complete (p ++ [c]) then escape_sequence (p ++ [c]) else unfinished (p ++ [c]).
Proof.
  intros Hp Hcs Hc. destruct Hp as [|i params Hi Hp Hlen|l Hl]; cbn [app].
  - rewrite complete_escape by done. destruct (N.eqb_spec c 91) as [->|H1]; [by apply unfinished_params; [left|..|cbn; lia]|].
    destruct (N.eqb_spec c 79) as [->|H2]; [by apply unfinished_params; [right|..|cbn; lia]|]. by apply escape_char.
  - rewrite complete_params, <- andb_assoc by done. destruct ((i =? 91) && _) eqn:Hm.
    + apply andb_true_iff in Hm as [->%N.eqb_eq [Hz%N.eqb_eq ->%N.eqb_eq]%andb_true_iff].
      apply len_0 in Hz as ->. by apply (unfinished_mouse []); cbn; lia.
    + case_bool_decide as Hpc; cbn [negb orb].
      * assert (Forall param (params ++ [c])) as Hall by (apply Forall_app; split; [done|by apply Forall_singleton]).
        case_bool_decide as H254; [apply escape_overlong|apply unfinished_params]; try done; rewrite length_app; cbn; lia.
      * apply escape_final; try done. intros (-> & -> & ->). done.
  - rewrite !Forall_cons in Hcs. destruct Hcs as (_ & _ & _ & Hcs). rewrite complete_mouse by done.
    case_bool_decide as H2; [|by apply unfinished_mouse; rewrite length_app; cbn; lia].
    destruct l as [|a [|b [|]]]; try done. apply escape_mouse.
Qed.

Lemma marker_unfinished p : chars_start_with p START = true → p ≠ START → p = [] ∨ unfinished p.
Proof.
  intros [rest Hp]%prefix_short Hne. unfold START in Hp, Hne.
  destruct p as [|? [|? [|? [|? [|? [|? [|? p]]]]]]]; simplify_eq/=; auto; right.
  - constructor.
  - apply unfinished_params; [by left|constructor|cbn; lia].
  - apply unfinished_params; [by left| |cbn; lia]. apply Forall_singleton. unfold param. lia.
  - apply unfinished_params; [by left| |cbn; lia]. repeat (apply Forall_cons; split; [unfold param; lia|]). constructor.
  - apply unfinished_params; [by left| |cbn; lia]. repeat (apply Forall_cons; split; [unfold param; lia|]). constructor.
Qed.

(** What is pending outside of a paste. *)
Definition begun (d : PasteDecoder) : Prop :=
  Forall is_char (pending d) ∧ (paste d = None → pending d = [] ∨ unfinished (pending d)).

Definition grown (d : PasteDecoder) : Prop :=
  Forall is_char (pending d)
  ∧ (paste d = None → pending d = [] ∨ ∃ p c, pending d = p ++ [c] ∧ (p = [] ∨ unfinished p)).

Lemma push_loop_frames fuel d out :
  (length (pending d) < fuel)%nat → grown d → Forall frame out →
  let '(d', out') := push_loop fuel d out in Forall frame out' ∧ begun d'.
Proof.
  revert d out. induction fuel as [|fuel IH]; intros [pend pas] out Hf [Hcs Hg] Hout; [lia|].
  cbn [push_loop pending paste] in *. case_bool_decide as Hm.
  { destruct pas; (split; [|split; [constructor|by left]]); [|done]. apply Forall_app. split; [done|by apply Forall_singleton]. }
  destruct (chars_start_with pend _) eqn:Hp.
  { split; [done|]. split; [done|]. intros Hpas. cbn in Hpas. subst pas. by apply marker_unfinished. }
  destruct pas as [text|].
  - destruct pend as [|ch rest]; [done|]. cbn in Hf. apply Forall_cons in Hcs as [_ Hcs].
    apply IH; [cbn; lia|by split|done].
  - destruct (Hg eq_refl) as [->|(p & c & -> & Hor)]; [done|]. clear Hg. apply Forall_app in Hcs as Hcs'.
    destruct Hcs' as [Hps [Hc _]%Forall_cons]. destruct Hor as [->|Hun].
    + cbn [app] in *. rewrite chars_start_with_cons. destruct (N.eqb_spec 27 c) as [<-|Hne]; [done|].
      apply IH; [cbn in *; lia|by split; [constructor|left]|]. apply Forall_app. split; [done|]. apply Forall_singleton. left. by exists c.
    + pose proof (sequence_grows p c Hun Hps Hc) as Hgrow.
      assert (chars_start_with [27] (p ++ [c]) = true) as -> by (by destruct Hun).
      destruct (vt_sequence_complete (p ++ [c])); [|split; [done|by split; [|right]]].
      split; [|split; [constructor|by left]]. apply Forall_app. split; [done|]. apply Forall_singleton. right. by eexists.
Qed.

Lemma push_frames d ch : begun d → is_char ch → let '(d', out) := push d ch in Forall frame out ∧ begun d'.
Proof.
  intros [Hcs Hb] Hc. apply push_loop_frames; [cbn; rewrite length_app; cbn; lia| |constructor]. split; cbn [pending paste].
  - apply Forall_app. split; [done|by apply Forall_singleton].
  - intros Hpas. right. by exists (pending d), ch; split; [|apply Hb].
Qed.

Lemma push_all_frames d text : begun d → Forall is_char text →
  let '(d', out) := push_all d text in Forall frame out ∧ begun d'.
Proof.
  intros Hd Hcs. revert d Hd. induction Hcs as [|ch text Hc _ IH]; intros d Hd; cbn [push_all]; [by split|].
  pose proof (push_frames d ch Hd Hc) as Hs. destruct (push d ch) as [d1 out]. destruct Hs as [Hf Hd1].
  specialize (IH d1 Hd1). destruct (push_all d1 text) as [d2 more]. destruct IH as [Hf' Hd2]. split; [by apply Forall_app|done].
Qed.

(** C21: No character of the console is lost, doubled or moved.  The frames made
    of any text, pastes written with their markers, followed by what the
    decoder still holds, are the text, and never more than 256 bytes wait
    outside of a paste.  A frame is a single character other than Escape or
    one whole escape sequence of the grammar above, so that no sequence is
    split or run into the next; and what waits outside of a paste is the
    beginning of one. *)
Theorem console_text_is_kept text :
  let '(d, out) := push_all decoder_default text in
  concat (map wire out) ++ utf8_encode (held d) = utf8_encode text
  ∧ len (utf8_encode (pending d)) <= 256
  ∧ (Forall is_char text → Forall frame out ∧ (paste d = None → pending d = [] ∨ unfinished (pending d))).
Proof.
  pose proof (push_all_spec decoder_default text) as Hs. pose proof (push_all_frames decoder_default text) as Hf.
  destruct (push_all _ _) as [d out]. destruct Hs as (Hk & Hw); [by left|].
  split_and!; [exact Hk|by apply waiting_short|]. intros Hcs. destruct Hf as [Hf [_ Hb]]; [by split; [constructor|left]|done|done].
Qed.

Lemma console_text_is_kept_witness :
  let '(d, out) := push_all decoder_default ([97; 27; 91; 49; 59; 50; 65; 27; 79; 80] ++ START ++ [98] ++ END_ ++ [27; 91; 77; 32]) in
  out = [Raw (bs "a"); Raw (ESC :: bs "[1;2A"); Raw (ESC :: bs "OP"); Paste [98]] ∧ Forall frame out ∧ unfinished (pending d).
Proof.
  pose proof (console_text_is_kept ([97; 27; 91; 49; 59; 50; 65; 27; 79; 80] ++ START ++ [98] ++ END_ ++ [27; 91; 77; 32])) as Ht.
  destruct (push_all _ _) as [d out] eqn:E. destruct Ht as (_ & _ & Hf). destruct Hf as [Hf Hp].
  { repeat (apply Forall_cons; split; [left; by vm_compute|]). constructor. }
  vm_compute in E. injection E as <- <-. split; [reflexivity|]. split; [exact Hf|]. by destruct (Hp eq_refl).
Defined.

(** ** Bracketed pastes *)

(** The proper prefixes of the end marker. *)
Definition prefixes : list (list N) :=
  [[]; [27]; [27; 91]; [27; 91; 50]; [27; 91; 50; 48]; [27; 91; 50; 48; 49]].

Definition marker_chars : list N := [27; 91; 50; 48; 49; 126].

#[local] Ltac elem := repeat first [apply list_elem_of_here|apply list_elem_of_further].

(** A character of no marker flushes what was pending. *)
Lemma push_other p t ch : p ∈ prefixes → ch ∉ marker_chars →
  push (mk_decoder p (Some t)) ch = (mk_decoder [] (Some (t ++ p ++ [ch])), []).
Proof.
  intros Hp Hch. assert (∀ k, k ∈ marker_chars → ch =? k = false) as Hk.
  { intros k Hk. apply N.eqb_neq. by intros ->. }
  pose proof (Hk 27 ltac:(elem)) as E1. pose proof (Hk 91 ltac:(elem)) as E2.
  pose proof (Hk 50 ltac:(elem)) as E3. pose proof (Hk 48 ltac:(elem)) as E4.
  pose proof (Hk 49 ltac:(elem)) as E5. pose proof (Hk 126 ltac:(elem)) as E6. clear Hk.
  assert (∀ fuel l t, ch ∈ l → chars_start_with l END_ = false →
    push_loop (S fuel) (mk_decoder l (Some t)) []
    = push_loop fuel (mk_decoder (drop 1 l) (Some (t ++ take 1 l))) []) as Hskip.
  { intros fuel [|c l] t' Hin Hl; [by apply not_elem_of_nil in Hin|]. cbn [push_loop pending paste]. rewrite Hl.
    rewrite bool_decide_eq_false_2; [done|]. intros E. rewrite E in Hin. by apply Hch. }
  unfold prefixes in Hp. set_unfold in Hp.
  destruct Hp as [->|[->|[->|[->|[->|[->|[]]]]]]]; unfold push; cbn [length pending paste app Nat.add];
    repeat (rewrite Hskip; [|by elem|cbn; by rewrite ?E1, ?E2, ?E3, ?E4, ?E5, ?E6]; cbn [drop take]);
    cbn; by rewrite <- ?app_assoc.
Qed.

(** One character of a paste. *)
Lemma push_paste p t ch : p ∈ prefixes →
  let '(d, out) := push (mk_decoder p (Some t)) ch in
  (p ++ [ch] = END_ ∧ d = decoder_default ∧ out = [Paste t])
  ∨ (p ++ [ch] ≠ END_ ∧ out = [] ∧ ∃ t' p', d = mk_decoder p' (Some (t ++ t')) ∧ p' ∈ prefixes ∧ t' ++ p' = p ++ [ch]).
Proof.
  intros Hp. destruct (decide (ch ∈ marker_chars)) as [Hch|Hch].
  - unfold prefixes, marker_chars in *. set_unfold in Hp. set_unfold in Hch.
    destruct Hp as [->|[->|[->|[->|[->|[->|[]]]]]]], Hch as [->|[->|[->|[->|[->|[->|[]]]]]]]; cbn;
      first [by left|right; split_and!; [done|done|]; repeat rewrite <- app_assoc; cbn [app];
        match goal with
        | |- ∃ _ _, mk_decoder ?p (Some (?t ++ ?x)) = _ ∧ _ => exists x, p; by split_and!; [|elem|]
        | |- ∃ _ _, mk_decoder ?p (Some _) = _ ∧ _ => exists [], p; rewrite app_nil_r; by split_and!; [|elem|]
        end].
  - rewrite push_other by done. right. split_and!; [|done|].
    + intros E. apply Hch. by destruct (app_inj_2 p [27; 91; 50; 48; 49] [ch] [126] eq_refl E) as [_ [= ->]]; elem.
    + exists (p ++ [ch]), []. rewrite app_nil_r. by split_and!; [|elem|].
Qed.

Definition no_end (text : list N) : Prop := ¬ ∃ a b, text = a ++ END_ ++ b.

Lemma no_end_suffix a text : no_end (a ++ text) → no_end text.
Proof. intros Hn (x & y & ->). apply Hn. exists (a ++ x), y. by rewrite app_assoc. Qed.

(** Without the marker, all becomes text. *)
Lemma push_all_paste text p t :
  p ∈ prefixes → no_end (p ++ text) →
  ∃ t' p', push_all (mk_decoder p (Some t)) text = (mk_decoder p' (Some (t ++ t')), []) ∧ p' ∈ prefixes
    ∧ t' ++ p' = p ++ text.
Proof.
  revert p t. induction text as [|ch text IH]; intros p t Hp Hn.
  - exists [], p. by rewrite !app_nil_r.
  - pose proof (push_paste p t ch Hp) as Hs. cbn [push_all]. destruct (push _ _) as [d out].
    change (ch :: text) with ([ch] ++ text) in *. rewrite app_assoc in Hn. rewrite app_assoc.
    destruct Hs as [(He & _)|(_ & -> & t1 & p1 & -> & Hp1 & E)].
    + destruct Hn. exists [], text. by rewrite He.
    + rewrite <- E in *. rewrite <- app_assoc in Hn. apply no_end_suffix in Hn.
      destruct (IH p1 (t ++ t1) Hp1 Hn) as (t' & p' & -> & Hp' & E'). exists (t1 ++ t'), p'.
      rewrite <- app_assoc. split_and!; [done|done|]. by rewrite <- !app_assoc, E'.
Qed.

Lemma push_all_app d a b :
  push_all d (a ++ b) = let '(d1, out) := push_all d a in let '(d2, more) := push_all d1 b in (d2, out ++ more).
Proof.
  revert d. induction a as [|ch a IH]; intros d; cbn [push_all app].
  - by destruct (push_all d b).
  - destruct (push d ch) as [d1 out]. rewrite IH. destruct (push_all d1 a) as [d2 more].
    destruct (push_all d2 b) as [d3 last]. by rewrite app_assoc.
Qed.

(** The marker ends a paste whatever was pending. *)
Lemma push_all_end p t : p ∈ prefixes → push_all (mk_decoder p (Some t)) END_ = (decoder_default, [Paste (t ++ p)]).
Proof.
  unfold prefixes. intros Hp. set_unfold in Hp.
  destruct Hp as [->|[->|[->|[->|[->|[->|[]]]]]]]; cbn; repeat rewrite <- app_assoc; cbn [app]; by rewrite ?app_nil_r.
Qed.

Lemma decoder_pastes text rest : no_end text →
  push_all decoder_default (START ++ text ++ END_ ++ rest)
  = let '(d, out) := push_all decoder_default rest in (d, Paste text :: out).
Proof.
  intros Hn.
  rewrite push_all_app. change (push_all decoder_default START) with (mk_decoder [] (Some []), @nil DecodedInput). cbv match.
  rewrite push_all_app. destruct (push_all_paste text [] [] ltac:(elem) Hn) as (t & p & -> & Hp & E).
  rewrite push_all_app, push_all_end by done. cbn [app] in *. rewrite E. by destruct (push_all decoder_default rest).
Qed.

(** ** UTF-16 text *)

Fixpoint decode_units (surrogate : option N) (units : list N) : option N * list N :=
  match units with
  | [] => (surrogate, [])
  | unit :: units =>
      let '(s, chars) := decode_utf16_unit surrogate unit in
      let '(s, more) := decode_units s units in
      (s, chars ++ more)
  end.

Lemma decode_units_app s a b :
  decode_units s (a ++ b) =
  let '(s1, x) := decode_units s a in let '(s2, y) := decode_units s1 b in (s2, x ++ y).
Proof.
  revert s. induction a as [|u a IH]; intros s; cbn [decode_units app].
  - by destruct (decode_units s b).
  - destruct (decode_utf16_unit s u) as [s1 x]. rewrite IH. destruct (decode_units s1 a) as [s2 y].
    destruct (decode_units s2 b) as [s3 z]. by rewrite app_assoc.
Qed.

(** A [char]. *)

(** Neither kind of surrogate. *)
Lemma plain_units c : is_char c → c < 0x10000 → is_high c = false ∧ is_low c = false.
Proof. unfold is_char, is_high, is_low. intros Hc Hl. split; apply andb_false_iff; rewrite !N.leb_gt; lia. Qed.

Lemma astral_units c : 0x10000 <= c → is_char c →
  let high := 0xd800 + (c - 0x10000) / 0x400 in
  let low := 0xdc00 + (c - 0x10000) mod 0x400 in
  is_high high = true ∧ is_high low = false ∧ is_low low = true
  ∧ 0x10000 + (high - 0xd800) * 0x400 + (low - 0xdc00) = c.
Proof.
  unfold is_char, is_high, is_low. intros Hl Hc.
  pose proof (N.mod_lt (c - 0x10000) 0x400 ltac:(done)) as H. pose proof (N.div_mod' (c - 0x10000) 0x400) as H0.
  assert ((c - 0x10000) / 0x400 < 0x400) as H1 by (apply N.Div0.div_lt_upper_bound; lia). cbv zeta.
  revert H H0 H1. generalize ((c - 65536) / 1024), ((c - 65536) mod 1024). intros q m Hm Hqm Hq.
  split_and!; rewrite ?andb_true_iff, ?andb_false_iff, ?N.leb_le, ?N.leb_gt; lia.
Qed.

Lemma plain_unit c : is_char c → c < 0x10000 → decode_utf16_unit None c = (None, [c]).
Proof.
  intros Hc Hl. destruct (plain_units c Hc Hl) as [Eh El]. unfold decode_utf16_unit. cbn [decode_utf16]. by rewrite Eh, El.
Qed.

Lemma surrogate_pair c : 0x10000 <= c → is_char c →
  let high := 0xd800 + (c - 0x10000) / 0x400 in
  let low := 0xdc00 + (c - 0x10000) mod 0x400 in
  decode_utf16_unit None high = (Some high, []) ∧ decode_utf16_unit (Some high) low = (None, [c]).
Proof.
  intros Hl Hc high low. destruct (astral_units c Hl Hc) as (Eh & Eh' & El & Ec). fold high low in Eh, Eh', El, Ec.
  unfold decode_utf16_unit. rewrite Eh, Eh'. cbn [decode_utf16]. by rewrite Eh, El, Ec.
Qed.

Lemma decode_units_1 c : is_char c → decode_units None (encode_utf16_1 c) = (None, [c]).
Proof.
  intros Hc. unfold encode_utf16_1. destruct (N.ltb_spec c 0x10000) as [Hl|Hl]; cbn [decode_units].
  - by rewrite plain_unit.
  - destruct (surrogate_pair c Hl Hc) as [-> E]. by rewrite E.
Qed.

Lemma decode_units_spec text : Forall is_char text → decode_units None (encode_utf16 text) = (None, text).
Proof.
  induction 1 as [|c text Hc _ IH]; [done|]. unfold encode_utf16 in *. cbn [map concat].
  by rewrite decode_units_app, decode_units_1, IH.
Qed.

(** ** Text through the console *)

#[local] Arguments decode_utf16_unit : simpl never.
#[local] Arguments push : simpl never.
#[local] Arguments transport_char : simpl never.
#[local] Arguments is_char : simpl never.

Definition idle (r : Reader) : Prop :=
  surrogate r = None ∧ native_keys r = [] ∧ transport r = [].

Lemma not_win32 c : is_char c → parse_win32_key (utf8_encode [c]) = None.
Proof.
  intros Hc. unfold parse_win32_key, strip_prefix.
  assert (starts_with (ESC :: bs "[") (utf8_encode [c]) = false) as ->; [|done].
  assert (∀ n l, 128 <= n < 256 → starts_with (ESC :: bs "[") (byte_of n :: l) = false) as Hbig.
  { intros n l Hn. cbn [starts_with]. apply andb_false_iff. left. apply byte_eqb_neq. intros E.
    apply (f_equal byte_val) in E. rewrite byte_val_of, N.mod_small in E by lia. change (byte_val ESC) with 27 in E. lia. }
  unfold is_char in Hc. unfold utf8_encode, utf8_encode1. cbn [map concat].
  destruct (N.ltb_spec c 128); [cbn; apply andb_false_r|].
  assert (∀ d k m, 128 <= k → 0 < d → c < m * d → k + m <= 256 → 128 <= k + c / d < 256) as Hdiv.
  { intros d k m Hk Hd Hm Hkm. assert (c / d < m) by (apply N.Div0.div_lt_upper_bound; lia).
    split; [apply N.le_trans with k; [done|apply N.le_add_r]|lia]. }
  destruct (N.ltb_spec c 2048); [apply Hbig, (Hdiv 64 192 32); lia|].
  destruct (N.ltb_spec c 65536); apply Hbig; [apply (Hdiv 4096 224 16); lia|apply (Hdiv 262144 240 5); lia].
Qed.

(** A character that is not Escape is not held for a win32 key. *)
Lemma transport_plain r c : is_char c → c ≠ 27 → native_keys r = [] → transport r = [] →
  transport_char r c = r <| native_keys := map (λ unit, mk_record true 1 0 0 unit 0) (encode_utf16 [c]) |>.
Proof.
  intros Hc Hne Hn Ht. unfold transport_char, win32_prefix. rewrite Ht, Hn. cbn [app].
  rewrite chars_start_with_cons. rewrite (proj2 (N.eqb_neq 27 c)) by done. cbn [andb]. rewrite andb_false_r, not_win32 by done.
  destruct r; cbn in *. by subst.
Qed.

Lemma set_surrogate d s b ck ik nk tr x :
  mk_reader d s b ck ik nk tr <| surrogate := x |> = mk_reader d x b ck ik nk tr.
Proof. done. Qed.
Lemma set_native d s b ck ik nk tr x :
  mk_reader d s b ck ik nk tr <| native_keys := x |> = mk_reader d s b ck ik x tr.
Proof. done. Qed.

Lemma plain_char r c : idle r → is_char c → c ≠ 27 → on_records (vt_records [c]) r = on_chars [c] r.
Proof.
  intros (Hs & Hn & Ht) Hc Hne. pose proof (transport_plain r c Hc Hne Hn Ht) as Hplain. revert Hplain.
  unfold vt_records, encode_utf16. cbn [map concat]. rewrite app_nil_r. unfold encode_utf16_1.
  destruct r as [d s b ck ik nk tr]. cbn in Hs, Hn, Ht. subst s nk tr.
  destruct (N.ltb_spec c 0x10000) as [Hl|Hl]; intros Hplain.
  - pose proof (plain_unit c Hc Hl) as E. rewrite set_native in Hplain. cbn. unfold on_transport. cbn.
    rewrite E. cbn. rewrite set_surrogate, Hplain. cbn. rewrite set_native. unfold on_key_record, on_vt. cbn. rewrite andb_false_r, E. cbn.
    rewrite set_surrogate. destruct (push d c) as [d1 out]. destruct (decoded_events _ _) as [r1 ev]. by rewrite !app_nil_r.
  - destruct (surrogate_pair c Hl Hc) as [E1 E2]. revert Hplain E1 E2.
    generalize (55296 + (c - 65536) / 1024), (56320 + (c - 65536) mod 1024). intros low high Hplain E1 E2.
    rewrite set_native in Hplain. cbn. unfold on_transport. cbn.
    rewrite E1. cbn. rewrite !set_surrogate, set_native. cbn. rewrite E2. cbn. rewrite set_surrogate, Hplain. cbn.
    rewrite set_native. unfold on_key_record, on_vt. cbn. rewrite andb_false_r, E1. cbn. rewrite set_surrogate. cbn.
    rewrite andb_false_r, E2. cbn.
    rewrite set_surrogate. destruct (push d c) as [d1 out]. destruct (decoded_events _ _) as [r1 ev]. by rewrite !app_nil_r.
Qed.

Lemma on_records_app a b r :
  on_records (a ++ b) r = let '(r1, x) := on_records a r in let '(r2, y) := on_records b r1 in (r2, x ++ y).
Proof.
  revert r. induction a as [|rec a IH]; intros r; cbn [on_records app].
  - by destruct (on_records b r).
  - destruct (on_record rec r) as [r1 x]. rewrite IH. destruct (on_records a r1) as [r2 y].
    destruct (on_records b r2) as [r3 z]. by rewrite app_assoc.
Qed.

Lemma vt_records_app a b : vt_records (a ++ b) = vt_records a ++ vt_records b.
Proof. unfold vt_records, encode_utf16. by rewrite map_app, concat_app, map_app. Qed.

(** Text of a paste without Escape is never held. *)
Lemma push_plain_paste t c : c ≠ 27 → push (mk_decoder [] (Some t)) c = (mk_decoder [] (Some (t ++ [c])), []).
Proof.
  intros Hc. pose proof (push_paste [] t c ltac:(elem)) as Hp. destruct (push _ _) as [d out].
  destruct Hp as [(Hp & _)|(_ & -> & t' & p' & -> & Hp' & E)]; [done|].
  destruct p' as [|b p']; [by rewrite app_nil_r in E; subst|].
  destruct t' as [|b' t']; [|by destruct t']. cbn in E. injection E as -> ->.
  unfold prefixes in Hp'. set_unfold in Hp'. by destruct Hp' as [|[[= ->]|[|[|[|[|[]]]]]]].
Qed.

Lemma paste_text_records text r t :
  Forall is_char text → 27 ∉ text → idle r → decoder r = mk_decoder [] (Some t) →
  on_records (vt_records text) r = (r <| decoder := mk_decoder [] (Some (t ++ text)) |>, []).
Proof.
  intros Hc. revert r t. induction Hc as [|c text Hc _ IH]; intros r t Hne Hr Hd.
  - rewrite app_nil_r, <- Hd. by destruct r.
  - apply not_elem_of_cons in Hne as [Hne Hne']. change (c :: text) with ([c] ++ text).
    rewrite vt_records_app, on_records_app, plain_char by done. cbn [on_chars]. rewrite Hd, push_plain_paste by done.
    cbn [decoded_events app]. rewrite (IH _ (t ++ [c])); [|done|by destruct r|done]. rewrite <- app_assoc. by destruct r.
Qed.

(** C22: A bracketed paste arrives verbatim.  Whatever text is put between the
    markers, escape sequences and parts of markers included, is one paste of
    exactly this text, provided that it does not contain the end marker
    itself, and what follows is decoded alike.  From the console's records,
    where each character is one or two UTF-16 units, a pasted text without
    Escape is a single paste event with these characters, and the reader is
    as before.  An Escape still waiting for its sequence, though, hides the
    start of a paste: the markers and the text become key input. *)
Theorem pastes_are_verbatim :
  (∀ text rest, no_end text →
    push_all decoder_default (START ++ text ++ END_ ++ rest)
    = let '(d, out) := push_all decoder_default rest in (d, Paste text :: out))
  ∧ (∀ text r, Forall is_char text → 27 ∉ text → idle r → decoder r = decoder_default →
    on_records (vt_records (START ++ text ++ END_)) r = (r, [EvText text]))
  ∧ (push_all decoder_default (27 :: START ++ [114; 109; 13] ++ END_)).2
    = [Raw [ESC; ESC]; Raw (bs "["); Raw (bs "2"); Raw (bs "0"); Raw (bs "0"); Raw (bs "~"); Raw (bs "r"); Raw (bs "m");
       Raw [x0d]; Raw (ESC :: bs "[201~")].
Proof.
  split_and!; [exact decoder_pastes| |by vm_compute].
  intros text [d s b ck ik nk tr] Hc Hne (Hs & Hn & Ht) Hd. cbn in Hs, Hn, Ht, Hd. subst s nk tr d.
  rewrite !vt_records_app, on_records_app.
  assert (on_records (vt_records START) (mk_reader decoder_default None b ck ik [] [])
          = (mk_reader (mk_decoder [] (Some [])) None b ck ik [] [], [])) as -> by by vm_compute.
  rewrite on_records_app, (paste_text_records _ _ []) by done. by vm_compute.
Qed.

Lemma pastes_are_verbatim_witness :
  push_all decoder_default (START ++ [27; 91; 50; 27; 27; 91; 50; 48; 49] ++ END_ ++ [])
  = (decoder_default, [Paste [27; 91; 50; 27; 27; 91; 50; 48; 49]])
  ∧ on_records (vt_records (START ++ [104; 0x1f600] ++ END_)) reader_default = (reader_default, [EvText [104; 0x1f600]]).
Proof.
  destruct pastes_are_verbatim as (Hv & Hr & _). split.
  - apply (Hv [27; 91; 50; 27; 27; 91; 50; 48; 49] []).
    intros (a & b & E). do 9 (destruct a as [|? a]; [discriminate|]; apply (f_equal (drop 1)) in E; cbn in E). by destruct a.
  - apply Hr; [repeat constructor; unfold is_char; lia|by apply (bool_decide_unpack _); vm_compute|done|done].
Defined.

(** ** The clipboard shortcut *)

Definition with_down (down : bool) (key : KeyRecord) : KeyRecord :=
  mk_record down (wRepeatCount key) (wVirtualKeyCode key) (wVirtualScanCode key) (UnicodeChar key) (dwControlKeyState key).

Lemma clipboard_record down key r :
  is_clipboard_v (wVirtualKeyCode key) (modifiers (dwControlKeyState key)) = true → idle r → paste (decoder r) = None →
  on_record (KeyRec (with_down down key)) r
  = (r <| clipboard_key_down := down |>, if down || negb (clipboard_key_down r) then [press (Char 118) ctrl] else []).
Proof.
  intros Hv (Hs & Hn & Ht) Hp. destruct r as [d s b ck ik nk tr]. cbn in Hs, Hn, Ht, Hp. subst s nk tr.
  assert (wVirtualKeyCode key =? 0 = false) as Hk.
  { unfold is_clipboard_v in Hv. by apply andb_true_iff in Hv as [[->%N.eqb_eq _]%andb_true_iff _]. }
  cbn [on_record]. unfold on_key_record. cbn [wVirtualKeyCode with_down]. rewrite Hk. cbn [negb andb orb decoder]. rewrite Hp.
  unfold on_native. cbn [wVirtualKeyCode dwControlKeyState bKeyDown with_down]. rewrite Hv. cbn. by rewrite app_nil_r.
Qed.

(** Control+V pastes once.  When the terminal lets the key-downs through, a
    press that repeats [n] times is [n] pastes and its release none; when the
    terminal swallows the key-down, the release alone is one paste; and a
    key-down delivered as a control character counts as seen. *)
Theorem clipboard_key_counts n key r :
  is_clipboard_v (wVirtualKeyCode key) (modifiers (dwControlKeyState key)) = true →
  idle r → decoder r = decoder_default → clipboard_key_down r = false →
  on_records (replicate n (KeyRec (with_down true key)) ++ [KeyRec (with_down false key)]) r
    = (r, replicate (Nat.max n 1) (press (Char 118) ctrl))
  ∧ on_records (vt_records [0x16] ++ [KeyRec (with_down false key)]) r = (r, [press (Char 118) ctrl]).
Proof.
  intros Hv Hr Hd Hck.
  assert (∀ r, idle r → decoder r = decoder_default → on_records [KeyRec (with_down false key)] r
    = (r <| clipboard_key_down := false |>, if negb (clipboard_key_down r) then [press (Char 118) ctrl] else [])) as Hup.
  { intros r' Hr' Hd'. cbn [on_records]. rewrite clipboard_record by (done || by rewrite Hd'). by rewrite app_nil_r. }
  assert (∀ m r, idle r → decoder r = decoder_default →
    on_records (replicate (S m) (KeyRec (with_down true key))) r
    = (r <| clipboard_key_down := true |>, replicate (S m) (press (Char 118) ctrl))) as Hdown.
  { induction m as [|m IH]; intros r' Hr' Hd'; rewrite replicate_S; cbn [on_records];
      rewrite clipboard_record by (done || by rewrite Hd'); [done|]. by rewrite IH. }
  destruct r as [d s b ck ik nk tr] eqn:Er. cbn in Hck, Hd. subst d ck. split.
  - destruct n as [|m]; [cbn [replicate app]; rewrite Hup by done; done|].
    rewrite on_records_app, Hdown by done. rewrite Hup by done. 
    match goal with |- (_, _ ++ ?l) = _ => change l with (@nil InputEvent) end. rewrite app_nil_r.
    by rewrite Nat.max_l by lia.
  - rewrite on_records_app. destruct Hr as (Hs & Hn & Ht). cbn in Hs, Hn, Ht. subst s nk tr.
    assert (on_records (vt_records [0x16]) (mk_reader decoder_default None b false ik [] [])
      = (mk_reader decoder_default None b true ik [] [], [press (Char 118) ctrl])) as -> by by vm_compute.
    rewrite Hup by done. done.
Qed.

Lemma clipboard_key_counts_witness :
  let key := mk_record true 1 0x56 47 22 LEFT_CTRL_PRESSED in
  on_records [KeyRec (with_down false key)] reader_default = (reader_default, [press (Char 118) ctrl]).
Proof.
  intros key. apply (clipboard_key_counts 0 key reader_default); [by vm_compute|done|done|done].
Defined.

(** ** Examples *)

Example a_paste :
  (on_records (vt_records ([97] ++ START ++ [104; 0x1f600] ++ END_ ++ [27; 91; 65])) reader_default).2
  = [EvRaw (bs "a"); EvText [104; 0x1f600]; EvRaw (ESC :: bs "[A")].
Proof. by vm_compute. Qed.

Example an_encoded_key :
  (on_records (vt_records (map byte_val (ESC :: bs "[86;47;22;0;8;1_"))) reader_default).2 = [press (Char 118) ctrl].
Proof. by vm_compute. Qed.
