(* ===== verification/Proxy.v ===== *)
(** * Calls to other nodes

    The calls a daemon makes on its secondaries: [proxy_rpc],
    [proxy_rpc_stream] and the table of pending calls of
    [src/src/node/registry.rs], the relay loops at both ends of a node
    connection ([handle_join] of [src/src/http/nodes.rs] and
    [connect_and_relay] of [src/src/daemon/rpc_nodes.rs]), the task that
    serves a remote attach from a local one, and the writing of its frames to
    the local client.  A state is one generation of a connection, from the
    moment the node has joined; the two directions of the socket are queues,
    as [Federation] shows of the sealed channel, and every locked section, or
    await that went through, is a step.  Here it is shown that a call has the
    answer to its own request or an error, and that a request is run at most
    once; [ProxyStream] follows the streams. *)

From S2P Require Import Prelude Utf8 Text Disk Pump Wire Attach Federation.

(** ** Requests *)

Definition request_name (request : RpcRequest) : bytes :=
  match request with
  | AttachSubscribe _ _ _ _ _ _ _ => bs "attach_subscribe"
  | AttachInput _ _ _ _ => bs "attach_input"
  | AttachResize _ _ _ => bs "attach_resize"
  | AttachDetach _ => bs "attach_detach"
  | AttachAppliedCursor _ _ => bs "attach_applied_cursor"
  | OtherRequest name => name
  end.

(** The arms of [is_supported_proxied_rpc]. *)
Definition supported_names : list bytes := [
  bs "health"; bs "daemon_status"; bs "list"; bs "start"; bs "session_info"; bs "session_metadata_set";
  bs "notify_set"; bs "notify_send"; bs "attach_subscribe"; bs "attach_input"; bs "attach_mouse";
  bs "session_cursor"; bs "observe_window"; bs "attach_busy"; bs "upload_file"; bs "attach_resize";
  bs "attach_detach"; bs "stop"; bs "restart"; bs "kill"; bs "remove"; bs "logs_read"; bs "logs_tail";
  bs "logs_pagination"].

Definition is_supported_proxied_rpc (request : RpcRequest) : bool :=
  existsb (bytes_eqb (request_name request)) supported_names.

Definition is_stream_message_relayable (request : RpcRequest) : bool :=
  match request with
  | AttachInput _ _ _ _ | AttachResize _ _ _ | AttachAppliedCursor _ _ | AttachDetach _ => true
  | _ => false
  end.

Definition is_subscribe (request : RpcRequest) : bool :=
  match request with AttachSubscribe _ _ _ _ _ _ _ => true | _ => false end.

Definition is_detach (request : RpcRequest) : bool :=
  match request with AttachDetach _ => true | _ => false end.

(** What ends a stream. *)
Definition is_done (response : RpcResponse) : bool :=
  match response with AttachStreamDone _ _ | ErrorResponse _ => true | _ => false end.

(** Seconds. *)
Definition NODE_RPC_TIMEOUT : N := 30.
Definition NODE_RPC_LOGS_READ_TIMEOUT : N := 300.

Definition rpc_deadline_for (request : RpcRequest) : N :=
  if bytes_eqb (request_name request) (bs "logs_read") then NODE_RPC_LOGS_READ_TIMEOUT else NODE_RPC_TIMEOUT.

Definition deadline_error (node : bytes) (request : RpcRequest) : AppError :=
  Protocol (bs "node '" ++ node ++ bs "' did not answer '" ++ request_name request ++ bs "' within "
    ++ show_dec (rpc_deadline_for request) ++ bs "s").

Definition unsupported_rpc (request : RpcRequest) : RpcResponse :=
  ErrorResponse (bs "unsupported proxied RPC method: " ++ request_name request).

Definition relay_stream_interrupted_response (err : bytes) : RpcResponse :=
  ErrorResponse (bs "relay stream interrupted: " ++ err).

Definition node_stream_interrupted_response (node : bytes) : RpcResponse :=
  ErrorResponse (bs "node '" ++ node ++ bs "' stream closed before completion").

(** ** State *)

(** The senders of a call's answers. *)
Inductive PendingRpc := OneShot | Stream.

(** [proxy_rpc] between its awaits. *)
Inductive CallPhase :=
  | Looked
  | Registered
  | Asked
  | Returned (r : result AppError RpcResponse).

(** [ca_slot]: what was sent to the oneshot channel. *)
Record Call := mk_call {
  ca_request : RpcRequest;
  ca_phase : CallPhase;
  ca_slot : option (result AppError RpcResponse);
}.

#[export] Instance Call_eta : Settable Call := λ c, mk_call (ca_request c) (ca_phase c) (ca_slot c).

(** [proxy_rpc_stream] and what its caller does with the stream: what is in
    the channel, what was taken from it, whether its loop was left and the
    receiver is gone. *)
Inductive OpenPhase :=
  | OpenLooked
  | OpenRegistered
  | Opened
  | OpenFailed (e : AppError).

Record StreamCall := mk_stream {
  so_request : RpcRequest;
  so_phase : OpenPhase;
  so_queue : list (result AppError RpcResponse);
  so_read : list (result AppError RpcResponse);
  so_ended : bool;
  so_left : bool;
  so_dropped : bool;
}.

#[export] Instance StreamCall_eta : Settable StreamCall := λ s,
  mk_stream (so_request s) (so_phase s) (so_queue s) (so_read s) (so_ended s) (so_left s) (so_dropped s).

(** The primary's task of the connection ([px_revoked]: the registry has
    dropped it before the task did): its relay loop, the end of the loop, the draining of the pending calls, the removal from the registry,
    and its return. *)
Inductive Serving := Up | Ended | Drained | Unlisted | Gone.

(** [relay_streaming_rpc]: connecting to the own daemon, the loop with
    [msgs_open], and its end. *)
Inductive NestedPhase :=
  | Connecting
  | Relaying (msgs_open : bool)
  | NestedOver.

Record Nested := mk_nested {
  ne_request : RpcRequest;
  ne_phase : NestedPhase;
  ne_mail : list RpcRequest;
  ne_written : list RpcRequest;
}.

#[export] Instance Nested_eta : Settable Nested := λ n,
  mk_nested (ne_request n) (ne_phase n) (ne_mail n) (ne_written n).

(** One generation of a connection.  [sx_load] counts the tasks in the
    [JoinSet], [sx_finished] those of them that are over.  The last four
    fields only record: which request has which id, what the secondary's
    daemon answered, the frames of the nested streams, and the messages sent
    to them. *)
Record Proxy := mk_proxy {
  px_phase : Serving;
  px_revoked : bool;
  px_pending : by_id PendingRpc;
  px_calls : by_id Call;
  px_streams : by_id StreamCall;
  px_send : list NodeWsMessage;
  px_down : list NodeWsMessage;
  px_up : list NodeWsMessage;
  sx_running : bool;
  sx_streams : by_id ();
  sx_tasks : list (bytes * RpcRequest);
  sx_nested : by_id Nested;
  sx_load : nat;
  sx_finished : nat;
  sx_rpc : list (bytes * RpcResponse);
  sx_frames : list (bytes * RpcResponse * bool);
  px_requests : by_id RpcRequest;
  px_executed : list (bytes * RpcRequest * RpcResponse);
  px_framed : list (bytes * RpcResponse);
  px_mailed : list (bytes * RpcRequest);
}.

#[export] Instance Proxy_eta : Settable Proxy := λ p,
  mk_proxy (px_phase p) (px_revoked p) (px_pending p) (px_calls p) (px_streams p) (px_send p) (px_down p) (px_up p)
    (sx_running p) (sx_streams p) (sx_tasks p) (sx_nested p) (sx_load p) (sx_finished p) (sx_rpc p) (sx_frames p)
    (px_requests p) (px_executed p) (px_framed p) (px_mailed p).

Definition proxy_connected : Proxy :=
  mk_proxy Up false ∅ ∅ ∅ [] [] [] true ∅ [] ∅ 0 0 [] [] ∅ [] [] [].

(** What happens: the callers on the primary, its relay loop, and the
    secondary with its daemon. *)
Inductive ProxyOp :=
  | Lookup (id : bytes) (request : RpcRequest)
  | LookupStream (id : bytes) (request : RpcRequest)
  | Enlist (id : bytes)
  | Ask (id : bytes)
  | TakeAnswer (id : bytes)
  | Deadline (id : bytes)
  | ReadStream (id : bytes)
  | StreamClosed (id : bytes)
  | StreamCut (id : bytes)
  | LeaveStream (id : bytes)
  | RemovePending (id : bytes)
  | DropReceiver (id : bytes)
  | SendMessage (id : bytes) (request : RpcRequest)
  | RelayOut
  | RelayIn
  | RelayStalls
  | RelayKeepalive
  | RelayEnds
  | Drain
  | Unlist
  | RelayReturns
  | Revoke
  | NodeIn
  | NodeJoins
  | NodeAnswers (id : bytes) (answer : result bytes RpcResponse)
  | NodeConnects (id : bytes) (connected : result bytes ())
  | NodeMails (id : bytes) (written : bool)
  | NodeMailClosed (id : bytes)
  | NodeReads (id : bytes) (frame : result bytes RpcResponse)
  | NodeRpcOut
  | NodeFrameOut
  | NodeEvent (payload : bytes)
  | NodeEnds.

(** ** The local client of a remote attach *)

(** [handle_node_proxy_streaming] writes lines until the initial answer, and
    frames after it. *)
Inductive ClientWrite :=
  | Line (response : RpcResponse)
  | OutputFrame (offset : N) (data : bytes)
  | ControlFrame (response : RpcResponse).

Definition is_init (response : RpcResponse) : bool :=
  match response with AttachStreamInit _ _ _ _ _ _ _ _ => true | _ => false end.

Definition client_write (stream_binary : bool) (response : RpcResponse) : ClientWrite :=
  if stream_binary then
    match response with
    | AttachStreamChunk offset data => OutputFrame offset data
    | other => ControlFrame other
    end
  else Line response.

Definition client_error (stream_binary : bool) (response : RpcResponse) : ClientWrite :=
  if stream_binary then ControlFrame response else Line response.

(** The first arm of the loop over what the stream gives; [ended]: nothing
    more will come, or the loop was interrupted between two writes.  [show] displays an error. *)
Fixpoint client_writes (show : AppError → bytes) (node : bytes) (ended stream_binary : bool)
    (items : list (result AppError RpcResponse)) : list ClientWrite :=
  match items with
  | [] => if ended then [client_error stream_binary (node_stream_interrupted_response node)] else []
  | Ok response :: items =>
      client_write stream_binary response
        :: if is_done response then []
           else client_writes show node ended (stream_binary || is_init response) items
  | Err e :: _ => [client_error stream_binary (ErrorResponse (show e))]
  end.

Section Proxy.
Context `{Json RpcRequest, Json RpcResponse} (node : bytes).

Definition not_connected : AppError := NodeNotConnected node.

(** Is the connection in the registry? *)
Definition listed (p : Proxy) : bool :=
  negb (px_revoked p) && match px_phase p with Up | Ended | Drained => true | _ => false end.

(** [send_tx]: the receiver lives as long as the task; [None] waits for
    room. *)
Definition send_to_relay (message : NodeWsMessage) (p : Proxy) : option (result AppError Proxy) :=
  match px_phase p with
  | Gone => Some (Err not_connected)
  | _ => if (length (px_send p) <? 64)%nat then Some (Ok (p <| px_send := px_send p ++ [message] |>)) else None
  end.

(** ** The callers *)

Definition set_call (id : bytes) (c : Call) (p : Proxy) : Proxy := p <| px_calls := <[id:=c]> (px_calls p) |>.
Definition set_stream (id : bytes) (s : StreamCall) (p : Proxy) : Proxy :=
  p <| px_streams := <[id:=s]> (px_streams p) |>.
Definition set_pending (id : bytes) (q : PendingRpc) (p : Proxy) : Proxy :=
  p <| px_pending := <[id:=q]> (px_pending p) |>.
Definition remove_pending (id : bytes) (p : Proxy) : Proxy := p <| px_pending := delete id (px_pending p) |>.

(** [Uuid::new_v4]: the id of a call was never used. *)
Definition lookup (id : bytes) (request : RpcRequest) (p : Proxy) : option Proxy :=
  match px_requests p !! id with
  | Some _ => None
  | None =>
      let phase := if listed p then Looked else Returned (Err not_connected) in
      Some (set_call id (mk_call request phase None) (p <| px_requests := <[id:=request]> (px_requests p) |>))
  end.

Definition lookup_stream (id : bytes) (request : RpcRequest) (p : Proxy) : option Proxy :=
  match px_requests p !! id with
  | Some _ => None
  | None =>
      let phase := if listed p then OpenLooked else OpenFailed not_connected in
      Some (set_stream id (mk_stream request phase [] [] false false false)
              (p <| px_requests := <[id:=request]> (px_requests p) |>))
  end.

Definition enlist (id : bytes) (p : Proxy) : option Proxy :=
  match px_calls p !! id, px_streams p !! id with
  | Some c, _ =>
      match ca_phase c with
      | Looked => Some (set_pending id OneShot (set_call id (c <| ca_phase := Registered |>) p))
      | _ => None
      end
  | None, Some s =>
      match so_phase s with
      | OpenLooked => Some (set_pending id Stream (set_stream id (s <| so_phase := OpenRegistered |>) p))
      | _ => None
      end
  | None, None => None
  end.

Definition ask (id : bytes) (p : Proxy) : option Proxy :=
  match px_calls p !! id, px_streams p !! id with
  | Some c, _ =>
      match ca_phase c with
      | Registered =>
          sent ← send_to_relay (Rpc id (to_vec (ca_request c))) p;
          Some match sent with
               | Ok p => set_call id (c <| ca_phase := Asked |>) p
               | Err e => set_call id (c <| ca_phase := Returned (Err e) |>) p
               end
      | _ => None
      end
  | None, Some s =>
      match so_phase s with
      | OpenRegistered =>
          sent ← send_to_relay (Rpc id (to_vec (so_request s))) p;
          Some match sent with
               | Ok p => set_stream id (s <| so_phase := Opened |>) p
               | Err e => set_stream id (s <| so_phase := OpenFailed e |> <| so_dropped := true |>) p
               end
      | _ => None
      end
  | None, None => None
  end.

Definition take_answer (id : bytes) (p : Proxy) : option Proxy :=
  c ← px_calls p !! id;
  match ca_phase c, ca_slot c with
  | Asked, Some r => Some (set_call id (c <| ca_phase := Returned r |>) p)
  | _, _ => None
  end.

Definition deadline (id : bytes) (p : Proxy) : option Proxy :=
  c ← px_calls p !! id;
  match ca_phase c, ca_slot c with
  | Asked, None =>
      Some (remove_pending id (set_call id (c <| ca_phase := Returned (Err (deadline_error node (ca_request c))) |>) p))
  | _, _ => None
  end.

Definition read_stream (id : bytes) (p : Proxy) : option Proxy :=
  s ← px_streams p !! id;
  match so_phase s, so_left s || so_ended s, so_queue s with
  | Opened, false, r :: queue =>
      Some (set_stream id (s <| so_queue := queue |> <| so_read := so_read s ++ [r] |>) p)
  | _, _, _ => None
  end.

(** The channel is empty and its sender gone: removed, or the table itself
    freed with the task of the connection and the calls that hold it. *)
Definition freed (p : Proxy) : bool :=
  match px_phase p with
  | Gone => forallb (λ c : bytes * Call, match ca_phase c.2 with Returned _ => true | _ => false end)
              (map_to_list (px_calls p))
  | _ => false
  end.

Definition stream_closed (id : bytes) (p : Proxy) : option Proxy :=
  s ← px_streams p !! id;
  match so_phase s, so_left s, so_queue s, px_pending p !! id with
  | Opened, false, [], None => Some (set_stream id (s <| so_ended := true |>) p)
  | Opened, false, [], Some _ => if freed p then Some (set_stream id (s <| so_ended := true |>) p) else None
  | _, _, _, _ => None
  end.

(** [interrupt_on_revocation]: the sender of [cancelled] is in the registry,
    and leaves it with the connection. *)
Definition stream_cut (id : bytes) (p : Proxy) : option Proxy :=
  s ← px_streams p !! id;
  match so_phase s, so_left s, listed p with
  | Opened, false, false => Some (set_stream id (s <| so_ended := true |>) p)
  | _, _, _ => None
  end.

(** The loop of the caller is over: it was told the end, its client left or
    cannot be written. *)
Definition leave_stream (id : bytes) (p : Proxy) : option Proxy :=
  s ← px_streams p !! id;
  match so_phase s with Opened => Some (set_stream id (s <| so_left := true |>) p) | _ => None end.

(** [remove_pending], after the loop, finds the table only through the
    registry. *)
Definition remove_pending_of (id : bytes) (p : Proxy) : option Proxy :=
  s ← px_streams p !! id;
  match so_phase s, so_left s with
  | Opened, true => Some (if listed p then remove_pending id p else p)
  | _, _ => None
  end.

Definition drop_receiver (id : bytes) (p : Proxy) : option Proxy :=
  s ← px_streams p !! id;
  match so_phase s, so_left s with
  | Opened, true => Some (set_stream id (s <| so_dropped := true |>) p)
  | _, _ => None
  end.

(** [proxy_rpc_stream_message]; its callers ignore the error. *)
Definition send_message (id : bytes) (request : RpcRequest) (p : Proxy) : option Proxy :=
  s ← px_streams p !! id;
  match so_phase s with
  | Opened =>
      if listed p then
        sent ← send_to_relay (RpcStreamMessage id (to_vec request)) p;
        Some match sent with
             | Ok p => p <| px_mailed := px_mailed p ++ [(id, request)] |>
             | Err _ => p
             end
      else Some p
  | _ => None
  end.

(** ** The primary's end of the connection *)

(** [tx.send] of a oneshot; a caller that returned is not there.  The caller
    of a oneshot holds the table, so its sender is never dropped unused. *)
Definition fill_slot (id : bytes) (r : result AppError RpcResponse) (p : Proxy) : Proxy :=
  match px_calls p !! id with
  | Some c => match ca_phase c with
              | Returned _ => p
              | _ => set_call id (c <| ca_slot := Some r |>) p
              end
  | None => p
  end.

(** [tx.send] of a stream with room; [None] waits, an error is [false]. *)
Definition feed (id : bytes) (r : result AppError RpcResponse) (p : Proxy) : option (bool * Proxy) :=
  match px_streams p !! id with
  | Some s =>
      if so_dropped s then Some (false, p)
      else if (length (so_queue s) <? 256)%nat then
        Some (true, set_stream id (s <| so_queue := so_queue s ++ [r] |>) p)
      else None
  | None => Some (false, p)
  end.

(** The last answer of a call: its sender leaves the table. *)
Definition resolve (id : bytes) (response : RpcResponse) (p : Proxy) : option Proxy :=
  match px_pending p !! id with
  | None => Some p
  | Some OneShot => Some (fill_slot id (Ok response) (remove_pending id p))
  | Some Stream => match feed id (Ok response) (remove_pending id p) with Some (_, p) => Some p | None => None end
  end.

Definition on_stream_frame (id : bytes) (response : RpcResponse) (done : bool) (p : Proxy) : option Proxy :=
  if done then resolve id response p
  else match px_pending p !! id with
       | Some Stream =>
           match feed id (Ok response) p with
           | Some (sent, p) => Some (if sent then p else remove_pending id p)
           | None => None
           end
       | _ => Some p
       end.

Definition primary_receive (message : NodeWsMessage) (p : Proxy) : option Proxy :=
  match message with
  | NodeRpcResponse id text =>
      match from_slice text with Some response => resolve id response p | None => Some p end
  | RpcStreamFrame id text done =>
      match from_slice text with Some response => on_stream_frame id response done p | None => Some p end
  | Ping => Some (p <| px_down := px_down p ++ [Pong] |>)
  | NodeNotification _ | NodeSessionEvent _ | Pong => Some p
  | _ => Some (p <| px_phase := Ended |>)
  end.

(** The head of the queue, for the loop that runs. *)
Definition relay_in (p : Proxy) : option Proxy :=
  match px_phase p, px_up p with
  | Up, message :: up => primary_receive message (p <| px_up := up |>)
  | _, _ => None
  end.

(** A full stream channel for fifteen seconds ends the loop; a sender of a
    last frame has left the table by then. *)
Definition relay_stalls (p : Proxy) : option Proxy :=
  match px_phase p, px_up p with
  | Up, message :: up =>
      match relay_in p with
      | Some _ => None
      | None =>
          let p := p <| px_up := up |> <| px_phase := Ended |> in
          Some match message with
               | NodeRpcResponse id _ | RpcStreamFrame id _ true => remove_pending id p
               | _ => p
               end
      end
  | _, _ => None
  end.

Definition relay_out (p : Proxy) : option Proxy :=
  match px_phase p, px_send p with
  | Up, message :: rest => Some (p <| px_send := rest |> <| px_down := px_down p ++ [message] |>)
  | _, _ => None
  end.

(** All pending calls get an error; a full stream channel is passed over. *)
Definition drain_call (pending : by_id PendingRpc) (id : bytes) (c : Call) : option Call :=
  Some match pending !! id, ca_phase c with
       | Some OneShot, Returned _ => c
       | Some OneShot, _ => c <| ca_slot := Some (Err not_connected) |>
       | _, _ => c
       end.

Definition drain_stream (pending : by_id PendingRpc) (id : bytes) (s : StreamCall) : option StreamCall :=
  Some match pending !! id with
       | Some Stream =>
           if so_dropped s || (256 <=? length (so_queue s))%nat then s
           else s <| so_queue := so_queue s ++ [Err not_connected] |>
       | _ => s
       end.

Definition drain (p : Proxy) : Proxy :=
  p <| px_calls := map_imap (drain_call (px_pending p)) (px_calls p) |>
    <| px_streams := map_imap (drain_stream (px_pending p)) (px_streams p) |>
    <| px_pending := ∅ |> <| px_phase := Drained |>.

(** ** The secondary's end of the connection *)

Definition set_nested (id : bytes) (n : Nested) (p : Proxy) : Proxy := p <| sx_nested := <[id:=n]> (sx_nested p) |>.
Definition send_up (message : NodeWsMessage) (p : Proxy) : Proxy := p <| px_up := px_up p ++ [message] |>.
Definition node_ends (p : Proxy) : Proxy := p <| sx_running := false |>.

(** A request, in a task of its own if it is one for the daemon.  The cause
    that follows the colon of the last error is left out. *)
Definition node_rpc (id text : bytes) (p : Proxy) : Proxy :=
  if (64 <=? sx_load p)%nat then node_ends p
  else match from_slice text with
       | Some request =>
           if is_supported_proxied_rpc request then
             if is_subscribe request then
               set_nested id (mk_nested request Connecting [] []) p
                 <| sx_streams := <[id:=()]> (sx_streams p) |> <| sx_load := S (sx_load p) |>
             else p <| sx_tasks := sx_tasks p ++ [(id, request)] |> <| sx_load := S (sx_load p) |>
           else send_up (NodeRpcResponse id (to_vec (unsupported_rpc request))) p
       | None => send_up (NodeRpcResponse id (to_vec (ErrorResponse (bs "invalid proxied RPC request: ")))) p
       end.

(** A message for an open stream; [None] waits for room in its queue. *)
Definition node_stream_message (id text : bytes) (p : Proxy) : option Proxy :=
  match from_slice text with
  | Some request =>
      if is_stream_message_relayable request then
        match sx_streams p !! id, sx_nested p !! id with
        | Some _, Some n =>
            match ne_phase n with
            | NestedOver => Some (p <| sx_streams := delete id (sx_streams p) |>)
            | _ =>
                if (length (ne_mail n) <? 64)%nat then Some (set_nested id (n <| ne_mail := ne_mail n ++ [request] |>) p)
                else None
            end
        | _, _ => Some p
        end
      else Some p
  | None => Some p
  end.

Definition node_receive (message : NodeWsMessage) (p : Proxy) : option Proxy :=
  match message with
  | Rpc id text => Some (node_rpc id text p)
  | RpcStreamMessage id text => node_stream_message id text p
  | Ping => Some (send_up Pong p)
  | Pong => Some p
  | _ => Some (node_ends p)
  end.

Definition node_in (p : Proxy) : option Proxy :=
  match px_down p with
  | message :: down => node_receive message (p <| px_down := down |>)
  | [] => None
  end.

(** The first task of an id, and the others. *)
Fixpoint take_task (id : bytes) (tasks : list (bytes * RpcRequest)) : option (RpcRequest * list (bytes * RpcRequest)) :=
  match tasks with
  | [] => None
  | (i, request) :: tasks =>
      if bytes_eqb i id then Some (request, tasks)
      else match take_task id tasks with
           | Some (found, rest) => Some (found, (i, request) :: rest)
           | None => None
           end
  end.

(** [ipc::send_request] on the secondary's own daemon. *)
Definition node_answers (id : bytes) (answer : result bytes RpcResponse) (p : Proxy) : option Proxy :=
  if (length (sx_rpc p) <? 64)%nat then
    match take_task id (sx_tasks p) with
    | Some (request, tasks) =>
        let response := match answer with Ok response => response | Err e => ErrorResponse e end in
        Some (p <| sx_tasks := tasks |> <| sx_finished := S (sx_finished p) |>
                <| sx_rpc := sx_rpc p ++ [(id, response)] |>
                <| px_executed := px_executed p ++ [(id, request, response)] |>)
    | None => None
    end
  else None.

(** [frame_tx.send], with room. *)
Definition send_frame (id : bytes) (response : RpcResponse) (done : bool) (p : Proxy) : option Proxy :=
  if (length (sx_frames p) <? 256)%nat then
    Some (p <| sx_frames := sx_frames p ++ [(id, response, done)] |>
            <| px_framed := px_framed p ++ [(id, response)] |>)
  else None.

Definition finish_nested (id : bytes) (n : Nested) (p : Proxy) : Proxy :=
  set_nested id (n <| ne_phase := NestedOver |>) p <| sx_finished := S (sx_finished p) |>.

Definition node_connects (id : bytes) (connected : result bytes ()) (p : Proxy) : option Proxy :=
  n ← sx_nested p !! id;
  match ne_phase n with
  | Connecting =>
      match connected with
      | Ok _ => Some (set_nested id (n <| ne_phase := Relaying true |>) p)
      | Err e => p ← send_frame id (ErrorResponse e) true p; Some (finish_nested id n p)
      end
  | _ => None
  end.

(** The first arm of the loop: a message goes to the daemon, or, when the
    write fails, the task is over. *)
Definition node_mails (id : bytes) (written : bool) (p : Proxy) : option Proxy :=
  n ← sx_nested p !! id;
  match ne_phase n, ne_mail n with
  | Relaying true, request :: mail =>
      Some (if written then
              set_nested id (n <| ne_mail := mail |> <| ne_written := ne_written n ++ [request] |>
                               <| ne_phase := Relaying (negb (is_detach request)) |>) p
            else finish_nested id n p)
  | _, _ => None
  end.

Definition node_mail_closed (id : bytes) (p : Proxy) : option Proxy :=
  n ← sx_nested p !! id;
  match ne_phase n, ne_mail n, sx_streams p !! id with
  | Relaying true, [], None => Some (set_nested id (n <| ne_phase := Relaying false |>) p)
  | _, _, _ => None
  end.

(** The second arm: a frame of the daemon, or the end of the connection. *)
Definition node_reads (id : bytes) (frame : result bytes RpcResponse) (p : Proxy) : option Proxy :=
  n ← sx_nested p !! id;
  match ne_phase n with
  | Relaying _ =>
      match frame with
      | Ok response =>
          p ← send_frame id response (is_done response) p;
          Some (if is_done response then finish_nested id n p else p)
      | Err e => p ← send_frame id (relay_stream_interrupted_response e) true p; Some (finish_nested id n p)
      end
  | _ => None
  end.

Definition node_rpc_out (p : Proxy) : option Proxy :=
  match sx_rpc p with
  | (id, response) :: rest => Some (send_up (NodeRpcResponse id (to_vec response)) p <| sx_rpc := rest |>)
  | [] => None
  end.

Definition node_frame_out (p : Proxy) : option Proxy :=
  match sx_frames p with
  | (id, response, done) :: rest =>
      let p := if done then p <| sx_streams := delete id (sx_streams p) |> else p in
      Some (send_up (RpcStreamFrame id (to_vec response) done) p <| sx_frames := rest |>)
  | [] => None
  end.

Definition node_joins (p : Proxy) : option Proxy :=
  match sx_finished p, sx_load p with
  | S finished, S load => Some (p <| sx_finished := finished |> <| sx_load := load |>)
  | _, _ => None
  end.

(** ** Steps *)

Definition in_phase (phase : Serving) (p : Proxy) (q : Proxy) : option Proxy :=
  match px_phase p, phase with
  | Up, Up | Ended, Ended | Drained, Drained | Unlisted, Unlisted => Some q
  | _, _ => None
  end.

Definition when_running (p : Proxy) (q : option Proxy) : option Proxy := if sx_running p then q else None.

Definition proxy_step (op : ProxyOp) (p : Proxy) : option Proxy :=
  match op with
  | Lookup id request => lookup id request p
  | LookupStream id request => lookup_stream id request p
  | Enlist id => enlist id p
  | Ask id => ask id p
  | TakeAnswer id => take_answer id p
  | Deadline id => deadline id p
  | ReadStream id => read_stream id p
  | StreamClosed id => stream_closed id p
  | StreamCut id => stream_cut id p
  | LeaveStream id => leave_stream id p
  | RemovePending id => remove_pending_of id p
  | DropReceiver id => drop_receiver id p
  | SendMessage id request => send_message id request p
  | RelayOut => relay_out p
  | RelayIn => relay_in p
  | RelayStalls => relay_stalls p
  | RelayKeepalive => in_phase Up p (p <| px_down := px_down p ++ [Ping] |>)
  | RelayEnds => in_phase Up p (p <| px_phase := Ended |>)
  | Drain => in_phase Ended p (drain p)
  | Unlist => in_phase Drained p (p <| px_phase := Unlisted |>)
  | RelayReturns => in_phase Unlisted p (p <| px_phase := Gone |>)
  | Revoke => Some (p <| px_revoked := true |>)
  | NodeIn => when_running p (node_in p)
  | NodeJoins => when_running p (node_joins p)
  | NodeAnswers id answer => when_running p (node_answers id answer p)
  | NodeConnects id connected => when_running p (node_connects id connected p)
  | NodeMails id written => when_running p (node_mails id written p)
  | NodeMailClosed id => when_running p (node_mail_closed id p)
  | NodeReads id frame => when_running p (node_reads id frame p)
  | NodeRpcOut => when_running p (node_rpc_out p)
  | NodeFrameOut => when_running p (node_frame_out p)
  | NodeEvent payload => when_running p (Some (send_up (NodeSessionEvent payload) p))
  | NodeEnds => Some (node_ends p)
  end.

Fixpoint proxy_run (ops : list ProxyOp) (p : Proxy) : option Proxy :=
  match ops with
  | [] => Some p
  | op :: ops => p ← proxy_step op p; proxy_run ops p
  end.

End Proxy.

(** ** What a call is told *)

Section Genuine.
Context `{Json RpcRequest, Json RpcResponse, !JsonLaws RpcRequest, !JsonLaws RpcResponse} (node : bytes).

#[local] Abbreviation step := (proxy_step node).
#[local] Abbreviation run := (proxy_run node).
#[local] Abbreviation refused := (not_connected node).

(** What has happened so far. *)
Record History := mk_history {
  h_requests : by_id RpcRequest;
  h_executed : list (bytes * RpcRequest * RpcResponse);
  h_framed : list (bytes * RpcResponse);
}.

Definition history (p : Proxy) : History := mk_history (px_requests p) (px_executed p) (px_framed p).

Definition before (h k : History) : Prop :=
  h_requests h ⊆ h_requests k ∧ h_executed h ⊆ h_executed k ∧ h_framed h ⊆ h_framed k.

(** An answer the secondary gives to this very request: what its daemon
    answered, or the refusal of the relay. *)
Definition answered (h : History) (id : bytes) (response : RpcResponse) : Prop :=
  ∃ request, h_requests h !! id = Some request
    ∧ ((id, request, response) ∈ h_executed h
       ∨ is_supported_proxied_rpc request = false ∧ response = unsupported_rpc request).

(** A frame of its nested stream. *)
Definition framed (h : History) (id : bytes) (response : RpcResponse) : Prop :=
  ∃ request, h_requests h !! id = Some request ∧ is_subscribe request = true ∧ (id, response) ∈ h_framed h.

Definition genuine (h : History) (id : bytes) (response : RpcResponse) : Prop :=
  answered h id response ∨ framed h id response.

Definition call_ok (h : History) (id : bytes) (c : Call) : Prop :=
  h_requests h !! id = Some (ca_request c)
  ∧ match ca_slot c with
    | Some (Ok response) => genuine h id response
    | Some (Err e) => e = refused
    | None => True
    end
  ∧ match ca_phase c with
    | Returned (Ok response) => genuine h id response
    | Returned (Err e) => e = refused ∨ e = deadline_error node (ca_request c)
    | _ => True
    end.

Definition stream_ok (h : History) (id : bytes) (s : StreamCall) : Prop := h_requests h !! id = Some (so_request s).

Definition down_ok (h : History) (m : NodeWsMessage) : Prop :=
  match m with Rpc id text => ∃ request, h_requests h !! id = Some request ∧ text = to_vec request | _ => True end.

Definition task_ok (h : History) (x : bytes * RpcRequest) : Prop :=
  h_requests h !! x.1 = Some x.2 ∧ is_supported_proxied_rpc x.2 = true ∧ is_subscribe x.2 = false.

Definition nested_ok (h : History) (id : bytes) (n : Nested) : Prop :=
  h_requests h !! id = Some (ne_request n) ∧ is_subscribe (ne_request n) = true.

Definition rpc_ok (h : History) (x : bytes * RpcResponse) : Prop := answered h x.1 x.2.
Definition frame_ok (h : History) (x : bytes * RpcResponse * bool) : Prop :=
  framed h x.1.1 x.1.2 ∧ x.2 = is_done x.1.2.

Definition up_ok (h : History) (m : NodeWsMessage) : Prop :=
  match m with
  | NodeRpcResponse id text => ∃ response, text = to_vec response ∧ answered h id response
  | RpcStreamFrame id text done => ∃ response, text = to_vec response ∧ framed h id response ∧ done = is_done response
  | _ => True
  end.

Record genuine_inv (p : Proxy) : Prop := mk_genuine {
  gi_calls : map_Forall (call_ok (history p)) (px_calls p);
  gi_streams : map_Forall (stream_ok (history p)) (px_streams p);
  gi_send : Forall (down_ok (history p)) (px_send p);
  gi_down : Forall (down_ok (history p)) (px_down p);
  gi_up : Forall (up_ok (history p)) (px_up p);
  gi_tasks : Forall (task_ok (history p)) (sx_tasks p);
  gi_nested : map_Forall (nested_ok (history p)) (sx_nested p);
  gi_rpc : Forall (rpc_ok (history p)) (sx_rpc p);
  gi_frames : Forall (frame_ok (history p)) (sx_frames p);
  gi_executed : Forall (λ x, task_ok (history p) x.1) (px_executed p);
}.

Lemma answered_mono h k id r : before h k → answered h id r → answered k id r.
Proof.
  intros (Hr & He & _) (q & Hq & Ha). exists q. split; [by eapply lookup_weaken|].
  destruct Ha as [Ha|Ha]; [left; by apply He|by right].
Qed.

Lemma framed_mono h k id r : before h k → framed h id r → framed k id r.
Proof. intros (Hr & _ & Hf) (q & Hq & Hs & Hin). exists q. split_and!; [by eapply lookup_weaken|done|by apply Hf]. Qed.

Lemma genuine_mono h k id r : before h k → genuine h id r → genuine k id r.
Proof. intros Hb [Ha|Ha]; [left; by eapply answered_mono|right; by eapply framed_mono]. Qed.

Lemma call_ok_mono h k id c : before h k → call_ok h id c → call_ok k id c.
Proof.
  intros Hb (Hq & Hs & Hp). split_and!; [destruct Hb; by eapply lookup_weaken| |].
  - destruct (ca_slot c) as [[]|]; [by eapply genuine_mono|done|done].
  - destruct (ca_phase c) as [| | |[]]; [done..|by eapply genuine_mono|done].
Qed.

Lemma stream_ok_mono h k id s : before h k → stream_ok h id s → stream_ok k id s.
Proof. intros (Hr & _) Hs. by eapply lookup_weaken. Qed.

Lemma down_ok_mono h k m : before h k → down_ok h m → down_ok k m.
Proof. intros (Hr & _). destruct m; try done. intros (q & Hq & ->). exists q. split; [by eapply lookup_weaken|done]. Qed.

Lemma task_ok_mono h k x : before h k → task_ok h x → task_ok k x.
Proof. intros (Hr & _) (Hq & Hs). split; [by eapply lookup_weaken|done]. Qed.

Lemma nested_ok_mono h k id n : before h k → nested_ok h id n → nested_ok k id n.
Proof. intros (Hr & _) (Hq & Hs). split; [by eapply lookup_weaken|done]. Qed.

Lemma up_ok_mono h k m : before h k → up_ok h m → up_ok k m.
Proof.
  intros Hb. destruct m; try done.
  - intros (r & -> & Ha). exists r. split; [done|by eapply answered_mono].
  - intros (r & -> & Ha & Hd). exists r. split_and!; [done|by eapply framed_mono|done].
Qed.

(** Only the history grew. *)
Lemma genuine_inv_mono p q :
  genuine_inv p → before (history p) (history q) →
  px_calls q = px_calls p → px_streams q = px_streams p → px_send q = px_send p → px_down q = px_down p →
  px_up q = px_up p → sx_tasks q = sx_tasks p → sx_nested q = sx_nested p → sx_rpc q = sx_rpc p →
  sx_frames q = sx_frames p → Forall (λ x, task_ok (history q) x.1) (px_executed q) → genuine_inv q.
Proof.
  intros [] Hb E1 E2 E3 E4 E5 E6 E7 E8 E9 He. split; rewrite ?E1, ?E2, ?E3, ?E4, ?E5, ?E6, ?E7, ?E8, ?E9; [..|done].
  - eapply map_Forall_impl; [done|]. intros. by eapply call_ok_mono.
  - eapply map_Forall_impl; [done|]. intros. by eapply stream_ok_mono.
  - eapply Forall_impl; [done|]. intros. by eapply down_ok_mono.
  - eapply Forall_impl; [done|]. intros. by eapply down_ok_mono.
  - eapply Forall_impl; [done|]. intros. by eapply up_ok_mono.
  - eapply Forall_impl; [done|]. intros. by eapply task_ok_mono.
  - eapply map_Forall_impl; [done|]. intros. by eapply nested_ok_mono.
  - eapply Forall_impl; [done|]. intros [] ?. by eapply answered_mono.
  - eapply Forall_impl; [done|]. intros [[] ?] [? ?]. split; [by eapply framed_mono|done].
Qed.

(** Updates that keep the history. *)
#[local] Ltac kept := match goal with Hp : genuine_inv _ |- _ => destruct Hp; split; try assumption end.

Lemma stream_cut_cases p q id : stream_cut id p = Some q →
  ∃ s, px_streams p !! id = Some s ∧ so_phase s = Opened ∧ so_left s = false ∧ q = set_stream id (s <| so_ended := true |>) p.
Proof.
  unfold stream_cut. destruct (px_streams p !! id) as [s|]; [|done]. cbn [mbind option_bind].
  destruct (so_phase s) eqn:Hph; try done. destruct (so_left s) eqn:Hd; [done|]. destruct (listed p); [done|].
  intros [= <-]. by exists s.
Qed.

Lemma set_call_ok p id c : genuine_inv p → call_ok (history p) id c → genuine_inv (set_call id c p).
Proof. intros Hp Hc. kept. by apply map_Forall_insert_2. Qed.

Lemma set_stream_ok p id s : genuine_inv p → stream_ok (history p) id s → genuine_inv (set_stream id s p).
Proof. intros Hp Hs. kept. by apply map_Forall_insert_2. Qed.

Lemma set_nested_ok p id n : genuine_inv p → nested_ok (history p) id n → genuine_inv (set_nested id n p).
Proof. intros Hp Hn. kept. by apply map_Forall_insert_2. Qed.

Lemma set_pending_ok p id q : genuine_inv p → genuine_inv (set_pending id q p).
Proof. intros Hp. kept. Qed.

Lemma remove_pending_ok p id : genuine_inv p → genuine_inv (remove_pending id p).
Proof. intros Hp. kept. Qed.

Lemma send_up_ok p m : genuine_inv p → up_ok (history p) m → genuine_inv (send_up m p).
Proof. intros Hp Hm. kept. apply Forall_app. split; [done|by apply Forall_singleton]. Qed.

Lemma set_phase_ok p v : genuine_inv p → genuine_inv (p <| px_phase := v |>).
Proof. intros Hp. kept. Qed.

Lemma calls_request p id c : genuine_inv p → px_calls p !! id = Some c → call_ok (history p) id c.
Proof. intros [] Hc. by eapply map_Forall_lookup_1 in Hc. Qed.

Lemma streams_request p id s : genuine_inv p → px_streams p !! id = Some s → stream_ok (history p) id s.
Proof. intros [] Hc. by eapply map_Forall_lookup_1 in Hc. Qed.

Lemma nested_request p id n : genuine_inv p → sx_nested p !! id = Some n → nested_ok (history p) id n.
Proof. intros [] Hc. by eapply map_Forall_lookup_1 in Hc. Qed.

(** A call in another phase, not returned. *)
Lemma call_moves h id c v : call_ok h id c → (∀ r, v ≠ Returned r) → call_ok h id (c <| ca_phase := v |>).
Proof. intros (Hq & Hs & _) Hv. split_and!; [done|done|]. cbn. destruct v as [| | |r]; [done..|]. by destruct (Hv r). Qed.

Lemma fresh_request p id request : px_requests p !! id = None →
  before (history p) (history (p <| px_requests := <[id:=request]> (px_requests p) |>)).
Proof. intros Hid. split_and!; [by apply insert_subseteq|done|done]. Qed.

Lemma requested_ok p id request : genuine_inv p → px_requests p !! id = None →
  genuine_inv (p <| px_requests := <[id:=request]> (px_requests p) |>).
Proof.
  intros Hp Hid. pose proof (fresh_request p id request Hid) as Hb. apply (genuine_inv_mono p _ Hp Hb); try done.
  eapply Forall_impl; [exact (gi_executed p Hp)|]. intros x. by apply task_ok_mono.
Qed.

Lemma lookup_ok p q id request : genuine_inv p → lookup node id request p = Some q → genuine_inv q.
Proof.
  unfold lookup. intros Hp. destruct (px_requests p !! id) eqn:Hid; [done|]. intros [= <-].
  apply set_call_ok; [by apply requested_ok|].
  split_and!; [by apply lookup_insert_eq|done|]. cbn. by destruct (listed p); [|left].
Qed.

Lemma lookup_stream_ok p q id request : genuine_inv p → lookup_stream node id request p = Some q → genuine_inv q.
Proof.
  unfold lookup_stream. intros Hp. destruct (px_requests p !! id) eqn:Hid; [done|]. intros [= <-].
  apply set_stream_ok; [by apply requested_ok|].
  by apply lookup_insert_eq.
Qed.

Lemma enlist_ok p q id : genuine_inv p → enlist id p = Some q → genuine_inv q.
Proof.
  unfold enlist. intros Hp. destruct (px_calls p !! id) as [c|] eqn:Hc.
  - destruct (ca_phase c); try done. intros [= <-]. apply set_pending_ok, set_call_ok; [done|].
    apply call_moves; [by eapply calls_request|done].
  - destruct (px_streams p !! id) as [s|] eqn:Hs; [|done]. destruct (so_phase s); try done. intros [= <-].
    apply set_pending_ok, set_stream_ok; [done|]. by apply (streams_request _ _ _ Hp Hs).
Qed.

Lemma send_to_relay_ok p m r : genuine_inv p → down_ok (history p) m → send_to_relay node m p = Some r →
  match r with Ok q => genuine_inv q ∧ history q = history p | Err e => e = refused end.
Proof.
  unfold send_to_relay. intros Hp Hm.
  assert (genuine_inv (p <| px_send := px_send p ++ [m] |>)) as Hq.
  { kept. apply Forall_app. split; [done|by apply Forall_singleton]. }
  destruct (px_phase p); try (destruct (_ <? 64)%nat; [|done]); by intros [= <-].
Qed.

Lemma ask_ok p q id : genuine_inv p → ask node id p = Some q → genuine_inv q.
Proof.
  unfold ask. intros Hp. destruct (px_calls p !! id) as [c|] eqn:Hc.
  - pose proof (calls_request _ _ _ Hp Hc) as Hok. destruct (ca_phase c); try done.
    destruct (send_to_relay _ _ p) as [r|] eqn:Hr; [|done]. cbn. intros [= <-].
    apply send_to_relay_ok in Hr; [|done|by exists (ca_request c); destruct Hok]. destruct r as [q'|e].
    + destruct Hr as [Hq Hh]. apply set_call_ok; [done|]. rewrite Hh. by apply call_moves.
    + subst e. apply set_call_ok; [done|]. destruct Hok as (? & ? & _). split_and!; [done|done|by left].
  - destruct (px_streams p !! id) as [s|] eqn:Hs; [|done]. pose proof (streams_request _ _ _ Hp Hs) as Hok.
    destruct (so_phase s); try done. destruct (send_to_relay _ _ p) as [r|] eqn:Hr; [|done]. cbn. intros [= <-].
    apply send_to_relay_ok in Hr; [|done|by exists (so_request s)]. destruct r as [q'|e].
    + destruct Hr as [Hq Hh]. apply set_stream_ok; [done|]. rewrite Hh. exact Hok.
    + apply set_stream_ok; [done|exact Hok].
Qed.

(** What only changes a stream's queues. *)
Lemma feed_ok p id r b q : genuine_inv p → feed id r p = Some (b, q) → genuine_inv q ∧ history q = history p.
Proof.
  unfold feed. intros Hp. destruct (px_streams p !! id) as [s|] eqn:Hs; [|by intros [= _ <-]].
  destruct (so_dropped s); [by intros [= _ <-]|]. destruct (_ <? 256)%nat; [|done]. intros [= _ <-].
  split; [|done]. apply set_stream_ok; [done|]. by apply (streams_request _ _ _ Hp Hs).
Qed.

Lemma fill_slot_ok p id r : genuine_inv p → genuine (history p) id r → genuine_inv (fill_slot id (Ok r) p).
Proof.
  unfold fill_slot. intros Hp Hr. destruct (px_calls p !! id) as [c|] eqn:Hc; [|done].
  destruct (calls_request _ _ _ Hp Hc) as (Hq & _ & Hph).
  destruct (ca_phase c) eqn:Hca; try done; apply set_call_ok; try done; split_and!; cbn; rewrite ?Hca; done.
Qed.

Lemma resolve_ok p q id r : genuine_inv p → genuine (history p) id r → resolve id r p = Some q → genuine_inv q.
Proof.
  unfold resolve. intros Hp Hr. destruct (px_pending p !! id) as [[]|]; [| |by intros [= <-]].
  - intros [= <-]. apply fill_slot_ok; [by apply remove_pending_ok|done].
  - destruct (feed _ _ _) as [[b q']|] eqn:Hf; [|done]. intros [= <-].
    apply feed_ok in Hf; [by destruct Hf|by apply remove_pending_ok].
Qed.

Lemma stream_frame_ok p q id r done_ :
  genuine_inv p → genuine (history p) id r → on_stream_frame id r done_ p = Some q → genuine_inv q.
Proof.
  unfold on_stream_frame. intros Hp Hr. destruct done_; [by apply resolve_ok|].
  destruct (px_pending p !! id) as [[]|]; [by intros [= <-]| |by intros [= <-]].
  destruct (feed _ _ _) as [[b q']|] eqn:Hf; [|done]. intros [= <-]. apply feed_ok in Hf as [Hq _]; [|done].
  destruct b; [done|by apply remove_pending_ok].
Qed.

Lemma primary_receive_ok p q m :
  genuine_inv p → up_ok (history p) m → primary_receive m p = Some q → genuine_inv q.
Proof.
  intros Hp Hm. destruct m; cbn [primary_receive]; try (intros [= <-]; kept; fail).
  - destruct Hm as (r & -> & Ha). rewrite json_parse. apply resolve_ok; [done|by left].
  - destruct Hm as (r & -> & Hf & _). rewrite json_parse. apply stream_frame_ok; [done|by right].
  - intros [= <-]. kept. apply Forall_app. split; [done|by apply Forall_singleton].
Qed.

Lemma relay_in_ok p q : genuine_inv p → relay_in p = Some q → genuine_inv q.
Proof.
  unfold relay_in. intros Hp. destruct (px_phase p); try done. destruct (px_up p) as [|m up] eqn:Hup; [done|].
  assert (up_ok (history p) m ∧ Forall (up_ok (history p)) up) as [Hm Hrest].
  { destruct Hp as [_ _ _ _ Hu]. rewrite Hup in Hu. by apply Forall_cons in Hu. }
  apply primary_receive_ok; [|done]. kept.
Qed.

Lemma relay_stalls_ok p q : genuine_inv p → relay_stalls p = Some q → genuine_inv q.
Proof.
  unfold relay_stalls. intros Hp. destruct (px_phase p); try done. destruct (px_up p) as [|m up] eqn:Hup; [done|].
  destruct (relay_in p); [done|].
  assert (genuine_inv (p <| px_up := up |> <| px_phase := Ended |>)) as Hq.
  { destruct Hp as [? ? ? ? Hu]. rewrite Hup in Hu. apply Forall_cons in Hu as [_ Hu]. by split. }
  intros [= <-]. destruct m; try done; [by apply remove_pending_ok|]. destruct done; [by apply remove_pending_ok|exact Hq].
Qed.

Lemma relay_out_ok p q : genuine_inv p → relay_out p = Some q → genuine_inv q.
Proof.
  unfold relay_out. intros Hp. destruct (px_phase p); try done. destruct (px_send p) as [|m rest] eqn:Hs; [done|].
  intros [= <-]. destruct Hp as [? ? Hsend ? ?]. rewrite Hs in Hsend. apply Forall_cons in Hsend as [Hm Hrest].
  split; try assumption. apply Forall_app. split; [done|by apply Forall_singleton].
Qed.

Lemma drained_ok p : genuine_inv p → genuine_inv (drain node p).
Proof.
  intros Hp. assert (Hc := gi_calls _ Hp). assert (Hs := gi_streams _ Hp). kept.
  - intros id c. cbn. rewrite map_lookup_imap. destruct (px_calls p !! id) as [c0|] eqn:Hc0; [|done]. cbn.
    intros [= <-]. specialize (Hc id c0 Hc0). unfold drain_call.
    destruct (px_pending p !! id) as [[]|]; try exact Hc. pose proof Hc as (Hq & _ & Hph).
    destruct (ca_phase c0) eqn:Hca; [..|exact Hc]; split_and!; cbn; rewrite ?Hca; done.
  - intros id s. cbn. rewrite map_lookup_imap. destruct (px_streams p !! id) as [s0|] eqn:Hs0; [|done]. cbn.
    intros [= <-]. specialize (Hs id s0 Hs0). unfold drain_stream. destruct (px_pending p !! id) as [[]|]; try exact Hs.
    by destruct (so_dropped s0 || _).
Qed.

Lemma node_rpc_ok p id text : genuine_inv p → down_ok (history p) (Rpc id text) → genuine_inv (node_rpc id text p).
Proof.
  unfold node_rpc. intros Hp (request & Hq & ->). destruct (64 <=? sx_load p)%nat; [by kept|].
  rewrite json_parse. destruct (is_supported_proxied_rpc request) eqn:Hs.
  - destruct (is_subscribe request) eqn:Hsub.
    + assert (genuine_inv (set_nested id (mk_nested request Connecting [] []) p)) as Hn by by apply set_nested_ok.
      destruct Hn. by split.
    + kept. apply Forall_app. split; [done|]. apply Forall_singleton. by split_and!.
  - apply send_up_ok; [done|]. exists (unsupported_rpc request). split; [done|]. exists request. auto.
Qed.

Lemma node_stream_message_ok p q id text : genuine_inv p → node_stream_message id text p = Some q → genuine_inv q.
Proof.
  unfold node_stream_message. intros Hp. destruct (from_slice text) as [request|]; [|by intros [= <-]].
  destruct (is_stream_message_relayable request); [|by intros [= <-]].
  destruct (sx_streams p !! id); [|by intros [= <-]].
  destruct (sx_nested p !! id) as [n|] eqn:Hn; [|by intros [= <-]].
  pose proof (nested_request _ _ _ Hp Hn) as Hok.
  destruct (ne_phase n); try (destruct (_ <? 64)%nat; [|done]); intros [= <-]; [..|by kept];
    apply set_nested_ok; try done; exact Hok.
Qed.

Lemma node_in_ok p q : genuine_inv p → node_in p = Some q → genuine_inv q.
Proof.
  unfold node_in. intros Hp. destruct (px_down p) as [|m down] eqn:Hd; [done|].
  assert (down_ok (history p) m) as Hm.
  { destruct Hp as [_ _ _ Hdown]. rewrite Hd in Hdown. by apply Forall_cons in Hdown as []. }
  assert (genuine_inv (p <| px_down := down |>)) as Hq.
  { destruct Hp as [? ? ? Hdown]. rewrite Hd in Hdown. apply Forall_cons in Hdown as [_ Hdown]. by split. }
  destruct m; cbn [node_receive]; try (intros [= <-]; clear Hp; kept; fail).
  - intros [= <-]. by apply node_rpc_ok.
  - by apply node_stream_message_ok.
  - intros [= <-]. by apply send_up_ok.
Qed.

Lemma take_task_spec id tasks request rest :
  take_task id tasks = Some (request, rest) → ∃ a b, tasks = a ++ (id, request) :: b ∧ rest = a ++ b.
Proof.
  revert rest. induction tasks as [|[i r] tasks IH]; intros rest; [done|]. cbn [take_task].
  destruct (bytes_eqb i id) eqn:Hi.
  - apply bool_decide_eq_true in Hi as ->. intros [= -> ->]. by exists [], rest.
  - destruct (take_task id tasks) as [[found rest']|]; [|done]. intros [= -> <-].
    destruct (IH rest' eq_refl) as (a & b & -> & ->). by exists ((i, r) :: a), b.
Qed.

Lemma node_answers_ok p q id answer : genuine_inv p → node_answers id answer p = Some q → genuine_inv q.
Proof.
  unfold node_answers. intros Hp. destruct (_ <? 64)%nat; [|done].
  destruct (take_task id (sx_tasks p)) as [[request tasks]|] eqn:Ht; [|done].
  set (response := match answer with Ok response => response | Err e => ErrorResponse e end).
  intros [= <-]. apply take_task_spec in Ht as (a & b & Ht & ->).
  assert (task_ok (history p) (id, request) ∧ Forall (task_ok (history p)) (a ++ b)) as [Htask Hrest].
  { destruct Hp as [_ _ _ _ _ Htasks]. rewrite Ht in Htasks. apply Forall_app in Htasks as [Ha Hb].
    apply Forall_cons in Hb as [Hx Hb]. split; [done|]. by apply Forall_app. }
  assert (before (history p) (history (p <| px_executed := px_executed p ++ [(id, request, response)] |>))) as Hb.
  { split_and!; [done| |done]. cbn. set_solver. }
  assert (genuine_inv (p <| px_executed := px_executed p ++ [(id, request, response)] |>)) as Hq.
  { apply (genuine_inv_mono p _ Hp Hb); try done. cbn. apply Forall_app. split; [exact (gi_executed p Hp)|].
    by apply Forall_singleton. }
  destruct Hq. split; try assumption.
  apply Forall_app. split; [done|]. apply Forall_singleton. exists request. split; [apply Htask|].
  left. cbn. apply elem_of_app. right. by apply list_elem_of_singleton.
Qed.

Lemma send_frame_ok p q id n r done_ : genuine_inv p → sx_nested p !! id = Some n → done_ = is_done r →
  send_frame id r done_ p = Some q → genuine_inv q ∧ px_requests q = px_requests p ∧ sx_nested q = sx_nested p.
Proof.
  unfold send_frame. intros Hp Hn Hd. destruct (_ <? 256)%nat; [|done]. intros [= <-]. split; [|done].
  assert (before (history p) (history (p <| px_framed := px_framed p ++ [(id, r)] |>))) as Hb.
  { split_and!; [done|done|]. cbn. set_solver. }
  assert (genuine_inv (p <| px_framed := px_framed p ++ [(id, r)] |>)) as Hq.
  { apply (genuine_inv_mono p _ Hp Hb); try done. exact (gi_executed p Hp). }
  destruct (nested_request _ _ _ Hp Hn) as [Hr Hs]. destruct Hq. split; try assumption.
  apply Forall_app. split; [done|]. apply Forall_singleton. split; [|exact Hd].
  exists (ne_request n). split_and!; [done|done|]. cbn. apply elem_of_app. right. by apply list_elem_of_singleton.
Qed.

Lemma finish_nested_ok p id n : genuine_inv p → nested_ok (history p) id n → genuine_inv (finish_nested id n p).
Proof.
  intros Hp Hn. assert (genuine_inv (set_nested id (n <| ne_phase := NestedOver |>) p)) as Hq by by apply set_nested_ok.
  destruct Hq. by split.
Qed.

Lemma frame_then_over p q id n r : genuine_inv p → sx_nested p !! id = Some n → is_done r = true →
  (p ← send_frame id r true p; Some (finish_nested id n p)) = Some q → genuine_inv q.
Proof.
  intros Hp Hn Hd. destruct (send_frame id r true p) as [q'|] eqn:Hf; [|done]. intros [= <-].
  eapply send_frame_ok in Hf as (Hq & Hr & _); [|done|done|done]. apply finish_nested_ok; [done|].
  destruct (nested_request _ _ _ Hp Hn). split; [cbn; by rewrite Hr|done].
Qed.

Lemma node_connects_ok p q id connected : genuine_inv p → node_connects id connected p = Some q → genuine_inv q.
Proof.
  unfold node_connects. intros Hp. destruct (sx_nested p !! id) as [n|] eqn:Hn; [|done]. cbn [mbind option_bind].
  destruct (ne_phase n); try done. destruct connected as [u|e]; [|by apply frame_then_over].
  intros [= <-]. apply set_nested_ok; [done|]. exact (nested_request _ _ _ Hp Hn).
Qed.

Lemma node_mails_ok p q id written : genuine_inv p → node_mails id written p = Some q → genuine_inv q.
Proof.
  unfold node_mails. intros Hp. destruct (sx_nested p !! id) as [n|] eqn:Hn; [|done]. cbn [mbind option_bind].
  pose proof (nested_request _ _ _ Hp Hn) as Hok. destruct (ne_phase n) as [|[]|]; try done.
  destruct (ne_mail n); [done|]. intros [= <-]. destruct written; [by apply set_nested_ok|by apply finish_nested_ok].
Qed.

Lemma node_mail_closed_ok p q id : genuine_inv p → node_mail_closed id p = Some q → genuine_inv q.
Proof.
  unfold node_mail_closed. intros Hp. destruct (sx_nested p !! id) as [n|] eqn:Hn; [|done]. cbn [mbind option_bind].
  pose proof (nested_request _ _ _ Hp Hn) as Hok. destruct (ne_phase n) as [|[]|]; try done.
  destruct (ne_mail n); [|done]. destruct (sx_streams p !! id); [done|]. intros [= <-]. by apply set_nested_ok.
Qed.

Lemma node_reads_ok p q id frame : genuine_inv p → node_reads id frame p = Some q → genuine_inv q.
Proof.
  unfold node_reads. intros Hp. destruct (sx_nested p !! id) as [n|] eqn:Hn; [|done]. cbn [mbind option_bind].
  destruct (ne_phase n); try done. destruct frame as [r|e]; [|by apply frame_then_over].
  destruct (is_done r) eqn:Hd; [by apply frame_then_over|].
  destruct (send_frame id r false p) as [q'|] eqn:Hf; [|done]. intros [= <-].
  by eapply send_frame_ok in Hf as (Hq & _).
Qed.

Lemma node_rpc_out_ok p q : genuine_inv p → node_rpc_out p = Some q → genuine_inv q.
Proof.
  unfold node_rpc_out. intros Hp. destruct (sx_rpc p) as [|[id r] rest] eqn:Hr; [done|]. intros [= <-].
  assert (answered (history p) id r ∧ Forall (rpc_ok (history p)) rest) as [Ha Hrest].
  { destruct Hp as [_ _ _ _ _ _ _ Hrpc]. rewrite Hr in Hrpc. by apply Forall_cons in Hrpc. }
  assert (genuine_inv (send_up (NodeRpcResponse id (to_vec r)) p)) as Hq by (apply send_up_ok; [done|by exists r]).
  destruct Hq. by split.
Qed.

Lemma node_frame_out_ok p q : genuine_inv p → node_frame_out p = Some q → genuine_inv q.
Proof.
  unfold node_frame_out. intros Hp. destruct (sx_frames p) as [|[[id r] d] rest] eqn:Hr; [done|]. intros [= <-].
  assert (framed (history p) id r ∧ d = is_done r ∧ Forall (frame_ok (history p)) rest) as (Ha & Hd & Hrest).
  { destruct Hp as [_ _ _ _ _ _ _ _ Hfr]. rewrite Hr in Hfr. by apply Forall_cons in Hfr as [[] ?]. }
  assert (genuine_inv (send_up (RpcStreamFrame id (to_vec r) d) p)) as Hq by (apply send_up_ok; [done|by exists r]).
  destruct Hq. destruct d; by split.
Qed.

Lemma genuine_step op p q : genuine_inv p → step op p = Some q → genuine_inv q.
Proof.
  intros Hp. destruct op; cbn [proxy_step]; unfold when_running; try (destruct (sx_running p); [|done]).
  - by apply lookup_ok.
  - by apply lookup_stream_ok.
  - by apply enlist_ok.
  - by apply ask_ok.
  - unfold take_answer. destruct (px_calls p !! id) as [c|] eqn:Hc; [|done]. cbn [mbind option_bind].
    destruct (calls_request _ _ _ Hp Hc) as (Hq & Hs & Hph). destruct (ca_phase c); try done.
    destruct (ca_slot c) as [r|] eqn:Hr; [|done]. intros [= <-]. apply set_call_ok; [done|].
    split_and!; [done|cbn; by rewrite Hr|]. cbn. destruct r; [done|by left].
  - unfold deadline. destruct (px_calls p !! id) as [c|] eqn:Hc; [|done]. cbn [mbind option_bind].
    destruct (calls_request _ _ _ Hp Hc) as (Hq & Hs & Hph). destruct (ca_phase c); try done.
    destruct (ca_slot c) as [r|] eqn:Hr; [done|]. intros [= <-]. apply remove_pending_ok, set_call_ok; [done|].
    split_and!; [done|cbn; by rewrite Hr|]. by right.
  - unfold read_stream. destruct (px_streams p !! id) as [s|] eqn:Hs; [|done]. cbn [mbind option_bind].
    pose proof (streams_request _ _ _ Hp Hs). destruct (so_phase s); try done. destruct (so_left s || so_ended s); [done|].
    destruct (so_queue s); [done|]. intros [= <-]. by apply set_stream_ok.
  - unfold stream_closed. destruct (px_streams p !! id) as [s|] eqn:Hs; [|done]. cbn [mbind option_bind].
    pose proof (streams_request _ _ _ Hp Hs). destruct (so_phase s); try done. destruct (so_left s); [done|].
    destruct (so_queue s); [|done]. destruct (px_pending p !! id); [destruct (freed p); [|done]|];
      intros [= <-]; by apply set_stream_ok.
  - intros (s & Hs & _ & _ & ->)%stream_cut_cases. pose proof (streams_request _ _ _ Hp Hs). by apply set_stream_ok.
  - unfold leave_stream. destruct (px_streams p !! id) as [s|] eqn:Hs; [|done]. cbn [mbind option_bind].
    pose proof (streams_request _ _ _ Hp Hs). destruct (so_phase s); try done. intros [= <-]. by apply set_stream_ok.
  - unfold remove_pending_of. destruct (px_streams p !! id) as [s|] eqn:Hs; [|done]. cbn [mbind option_bind].
    destruct (so_phase s); try done. destruct (so_left s); [|done]. intros [= <-].
    destruct (listed p); [by apply remove_pending_ok|done].
  - unfold drop_receiver. destruct (px_streams p !! id) as [s|] eqn:Hs; [|done]. cbn [mbind option_bind].
    pose proof (streams_request _ _ _ Hp Hs). destruct (so_phase s); try done. destruct (so_left s); [|done].
    intros [= <-]. by apply set_stream_ok.
  - unfold send_message. destruct (px_streams p !! id) as [s|] eqn:Hs; [|done]. cbn [mbind option_bind].
    destruct (so_phase s); try done. destruct (listed p); [|by intros [= <-]].
    destruct (send_to_relay _ _ p) as [r|] eqn:Hr; [|done]. intros [= <-].
    apply send_to_relay_ok in Hr; [|done|done]. destruct r as [q'|e]; [|done]. destruct Hr as [Hq _]. destruct Hq. by split.
  - by apply relay_out_ok.
  - by apply relay_in_ok.
  - by apply relay_stalls_ok.
  - unfold in_phase. destruct (px_phase p); try done. intros [= <-]. kept. apply Forall_app. split; [done|by apply Forall_singleton].
  - unfold in_phase. destruct (px_phase p); try done. intros [= <-]. by apply set_phase_ok.
  - unfold in_phase. destruct (px_phase p); try done. intros [= <-]. by apply drained_ok.
  - unfold in_phase. destruct (px_phase p); try done. intros [= <-]. by apply set_phase_ok.
  - unfold in_phase. destruct (px_phase p); try done. intros [= <-]. by apply set_phase_ok.
  - intros [= <-]. kept.
  - by apply node_in_ok.
  - unfold node_joins. destruct (sx_finished p), (sx_load p); try done. intros [= <-]. kept.
  - by apply node_answers_ok.
  - by apply node_connects_ok.
  - by apply node_mails_ok.
  - by apply node_mail_closed_ok.
  - by apply node_reads_ok.
  - by apply node_rpc_out_ok.
  - by apply node_frame_out_ok.
  - intros [= <-]. by apply send_up_ok.
  - intros [= <-]. kept.
Qed.

Lemma genuine_connected : genuine_inv proxy_connected.
Proof. split; done. Qed.

Lemma genuine_run ops p q : genuine_inv p → run ops p = Some q → genuine_inv q.
Proof.
  revert p. induction ops as [|op ops IH]; intros p Hp; [by intros [= <-]|]. cbn [proxy_run].
  destruct (step op p) as [p1|] eqn:Hs; [|done]. cbn [mbind option_bind]. apply IH. by eapply genuine_step.
Qed.

End Genuine.

(** ** A request is run once *)

Section Once.
Context `{Json RpcRequest, Json RpcResponse, !JsonLaws RpcRequest} (node : bytes).

Fixpoint count {A} (f : A → bool) (l : list A) : nat :=
  match l with [] => 0 | x :: l => (if f x then 1 else 0) + count f l end.

Lemma count_app {A} (f : A → bool) a b : count f (a ++ b) = (count f a + count f b)%nat.
Proof. induction a as [|x a IH]; [done|]. cbn. rewrite IH. lia. Qed.

Definition is_rpc (id : bytes) (m : NodeWsMessage) : bool := match m with Rpc i _ => bytes_eqb i id | _ => false end.

Definition call_waits (c : option Call) : nat :=
  match c with Some c => match ca_phase c with Looked | Registered => 1 | _ => 0 end | None => 0 end.
Definition stream_waits (s : option StreamCall) : nat :=
  match s with Some s => match so_phase s with OpenLooked | OpenRegistered => 1 | _ => 0 end | None => 0 end.
Definition present {A} (o : option A) : nat := match o with Some _ => 1 | None => 0 end.

(** Where the request of an id is: with its caller, on the way, with a task,
    or done. *)
Definition places (id : bytes) (p : Proxy) : nat :=
  call_waits (px_calls p !! id) + stream_waits (px_streams p !! id)
  + count (is_rpc id) (px_send p) + count (is_rpc id) (px_down p)
  + count (λ x, bytes_eqb x.1 id) (sx_tasks p) + count (λ x, bytes_eqb x.1.1 id) (px_executed p)
  + present (sx_nested p !! id).

Definition once (p : Proxy) : Prop := ∀ id, (places id p <= present (px_requests p !! id))%nat.

(** No step but the making of a request adds to the places. *)
Definition no_more (p q : Proxy) : Prop :=
  px_requests q = px_requests p ∧ ∀ id, (places id q <= places id p)%nat.

Lemma no_more_once p q : once p → no_more p q → once q.
Proof. intros Hp [E Hn] id. rewrite E. etrans; [apply Hn|apply Hp]. Qed.

Lemma no_more_trans p q r : no_more p q → no_more q r → no_more p r.
Proof. intros [E1 H1] [E2 H2]. split; [by rewrite E2|]. intros id. etrans; [apply H2|apply H1]. Qed.

(** The places of an id for updates of the maps. *)
Lemma set_call_more p id c : (call_waits (Some c) <= call_waits (px_calls p !! id))%nat → no_more p (set_call id c p).
Proof.
  intros Hc. split; [done|]. intros i. unfold places. cbn. destruct (decide (i = id)) as [->|Hi].
  - rewrite lookup_insert_eq. lia.
  - by rewrite lookup_insert_ne.
Qed.

Lemma set_stream_more p id s :
  (stream_waits (Some s) <= stream_waits (px_streams p !! id))%nat → no_more p (set_stream id s p).
Proof.
  intros Hc. split; [done|]. intros i. unfold places. cbn. destruct (decide (i = id)) as [->|Hi].
  - rewrite lookup_insert_eq. lia.
  - by rewrite lookup_insert_ne.
Qed.

Lemma set_nested_more p id n : is_Some (sx_nested p !! id) → no_more p (set_nested id n p).
Proof.
  intros [n0 Hn]. split; [done|]. intros i. unfold places. cbn. destruct (decide (i = id)) as [->|Hi].
  - rewrite lookup_insert_eq, Hn. cbn. lia.
  - by rewrite lookup_insert_ne.
Qed.

Lemma send_to_relay_more p m r : send_to_relay node m p = Some r →
  match r with
  | Ok q => px_requests q = px_requests p ∧ px_calls q = px_calls p ∧ px_streams q = px_streams p
            ∧ px_send q = px_send p ++ [m] ∧ px_down q = px_down p ∧ sx_tasks q = sx_tasks p
            ∧ px_executed q = px_executed p ∧ sx_nested q = sx_nested p ∧ px_pending q = px_pending p
            ∧ px_up q = px_up p ∧ sx_frames q = sx_frames p ∧ px_framed q = px_framed p
            ∧ px_mailed q = px_mailed p ∧ sx_streams q = sx_streams p ∧ sx_running q = sx_running p
            ∧ px_phase q = px_phase p
  | Err _ => px_phase p = Gone
  end.
Proof.
  unfold send_to_relay. destruct (px_phase p) eqn:Hph; try (destruct (_ <? 64)%nat; [|done]); intros [= <-]; first [done|by split_and!].
Qed.

Lemma count_1 {A} (f : A → bool) x : count f [x] = (if f x then 1 else 0)%nat.
Proof. cbn. lia. Qed.

Lemma bytes_eqb_refl i : bytes_eqb i i = true.
Proof. by apply bool_decide_eq_true. Qed.

Lemma bytes_eqb_ne i j : i ≠ j → bytes_eqb i j = false.
Proof. apply bool_decide_eq_false_2. Qed.

Lemma ask_more p q id : ask node id p = Some q → no_more p q.
Proof.
  unfold ask. destruct (px_calls p !! id) as [c|] eqn:Hc.
  - destruct (ca_phase c) eqn:Hph; try done. destruct (send_to_relay _ _ p) as [r|] eqn:Hr; [|done]. intros [= <-].
    apply send_to_relay_more in Hr. destruct r as [q'|e].
    + destruct Hr as (E1 & E2 & E3 & E4 & E5 & E6 & E7 & E8 & _). split; [exact E1|]. intros i.
      unfold places. cbn. rewrite E2, E3, E4, E5, E6, E7, E8, count_app, count_1. cbn [is_rpc].
      destruct (decide (i = id)) as [->|Hi].
      * rewrite lookup_insert_eq, Hc, bytes_eqb_refl. unfold call_waits. rewrite Hph. cbn. lia.
      * rewrite lookup_insert_ne, bytes_eqb_ne by done. lia.
    + apply set_call_more. cbn. lia.
  - destruct (px_streams p !! id) as [s|] eqn:Hs; [|done].
    destruct (so_phase s) eqn:Hph; try done. destruct (send_to_relay _ _ p) as [r|] eqn:Hr; [|done]. intros [= <-].
    apply send_to_relay_more in Hr. destruct r as [q'|e].
    + destruct Hr as (E1 & E2 & E3 & E4 & E5 & E6 & E7 & E8 & _). split; [exact E1|]. intros i.
      unfold places. cbn. rewrite E2, E3, E4, E5, E6, E7, E8, count_app, count_1. cbn [is_rpc].
      destruct (decide (i = id)) as [->|Hi].
      * rewrite lookup_insert_eq, Hs, bytes_eqb_refl. unfold stream_waits. rewrite Hph. cbn. lia.
      * rewrite lookup_insert_ne, bytes_eqb_ne by done. lia.
    + apply set_stream_more. cbn. lia.
Qed.

Lemma feed_more p id r b q : feed id r p = Some (b, q) → no_more p q.
Proof.
  unfold feed. destruct (px_streams p !! id) as [s|] eqn:Hs; [|by intros [= _ <-]].
  destruct (so_dropped s); [by intros [= _ <-]|]. destruct (_ <? 256)%nat; [|done]. intros [= _ <-].
  apply set_stream_more. by rewrite Hs.
Qed.

Lemma fill_slot_more p id r : no_more p (fill_slot id r p).
Proof.
  unfold fill_slot. destruct (px_calls p !! id) as [c|] eqn:Hc; [|done].
  destruct (ca_phase c) eqn:Hph; try done; apply set_call_more; by rewrite Hc.
Qed.

Lemma remove_more p id : no_more p (remove_pending id p).
Proof. done. Qed.

Lemma resolve_more p q id r : resolve id r p = Some q → no_more p q.
Proof.
  unfold resolve. destruct (px_pending p !! id) as [[]|]; [| |by intros [= <-]].
  - intros [= <-]. eapply no_more_trans; [apply remove_more|apply fill_slot_more].
  - destruct (feed _ _ _) as [[b q']|] eqn:Hf; [|done]. intros [= <-].
    eapply no_more_trans; [apply remove_more|by eapply feed_more].
Qed.

Lemma primary_receive_more p q m : primary_receive m p = Some q → no_more p q.
Proof.
  destruct m; cbn [primary_receive]; try (by intros [= <-]).
  - destruct (from_slice _); [apply resolve_more|by intros [= <-]].
  - destruct (from_slice _); [|by intros [= <-]]. unfold on_stream_frame. destruct done; [apply resolve_more|].
    destruct (px_pending p !! id) as [[]|]; try (by intros [= <-]).
    destruct (feed _ _ _) as [[b q']|] eqn:Hf; [|done]. intros [= <-]. apply feed_more in Hf. by destruct b.
  - intros [= <-]. split; [done|]. intros i. unfold places. cbn. rewrite count_app, count_1. cbn. lia.
Qed.

Lemma drain_more p : no_more p (drain node p).
Proof.
  split; [done|]. intros i. unfold places. cbn. rewrite !map_lookup_imap.
  assert (∀ o, call_waits (o ≫= drain_call node (px_pending p) i) = call_waits o) as ->.
  { intros [c|]; [|done]. cbn. destruct (px_pending p !! i) as [[]|]; try done. by destruct (ca_phase c) eqn:Hc; cbn; rewrite ?Hc. }
  assert (∀ o, stream_waits (o ≫= drain_stream node (px_pending p) i) = stream_waits o) as ->; [|lia].
  intros [s|]; [|done]. cbn. destruct (px_pending p !! i) as [[]|]; try done. by destruct (so_dropped s || _).
Qed.

Lemma node_in_more p q : node_in p = Some q → no_more p q.
Proof.
  unfold node_in. destruct (px_down p) as [|m down] eqn:Hd; [done|].
  assert (no_more p (p <| px_down := down |>)) as Hpop.
  { split; [done|]. intros i. unfold places. cbn. rewrite Hd. cbn. lia. }
  destruct m; cbn [node_receive]; try (intros [= <-]; exact Hpop).
  - intros [= <-]. unfold node_rpc. destruct (64 <=? _)%nat; [exact Hpop|].
    destruct (from_slice request) as [request'|]; [|exact Hpop].
    destruct (is_supported_proxied_rpc request'); [|exact Hpop].
    destruct (is_subscribe request'); (split; [done|]; intros i; unfold places; cbn; rewrite Hd; cbn).
    + destruct (decide (i = id)) as [->|Hi]; [rewrite lookup_insert_eq, bytes_eqb_refl; cbn; lia|].
      rewrite lookup_insert_ne, bytes_eqb_ne by done. lia.
    + rewrite count_app, count_1. cbn. lia.
  - intros Hq. eapply no_more_trans; [exact Hpop|]. revert Hq. unfold node_stream_message.
    destruct (from_slice _) as [request'|]; [|by intros [= <-]].
    destruct (is_stream_message_relayable request'); [|by intros [= <-]].
    destruct (sx_streams _ !! id); [|by intros [= <-]].
    destruct (sx_nested _ !! id) as [n|] eqn:Hn; [|by intros [= <-]].
    destruct (ne_phase n); try (destruct (_ <? 64)%nat; [|done]); intros [= <-]; [..|done];
      apply set_nested_more; by exists n.
Qed.

Lemma node_answers_more p q id answer : node_answers id answer p = Some q → no_more p q.
Proof.
  unfold node_answers. destruct (_ <? 64)%nat; [|done].
  destruct (take_task id (sx_tasks p)) as [[request tasks]|] eqn:Ht; [|done]. intros [= <-].
  apply take_task_spec in Ht as (a & b & Ht & ->). split; [done|]. intros i. unfold places. cbn.
  rewrite Ht, !count_app, count_1. cbn. lia.
Qed.

Lemma send_frame_more p q id r d : send_frame id r d p = Some q → no_more p q ∧ sx_nested q = sx_nested p.
Proof. unfold send_frame. destruct (_ <? 256)%nat; [|done]. by intros [= <-]. Qed.

Lemma finish_more p id n : is_Some (sx_nested p !! id) → no_more p (finish_nested id n p).
Proof. intros Hn. exact (set_nested_more p id (n <| ne_phase := NestedOver |>) Hn). Qed.

Lemma frame_over_more p q id n r : sx_nested p !! id = Some n →
  (p ← send_frame id r true p; Some (finish_nested id n p)) = Some q → no_more p q.
Proof.
  intros Hn. destruct (send_frame id r true p) as [q'|] eqn:Hf; [|done]. intros [= <-].
  apply send_frame_more in Hf as [Hm Hf]. eapply no_more_trans; [exact Hm|]. apply finish_more. rewrite Hf. by exists n.
Qed.

Lemma once_step op p q : once p → proxy_step node op p = Some q → once q.
Proof.
  intros Hp. destruct op; cbn [proxy_step]; unfold when_running; try (destruct (sx_running p); [|done]).
  - unfold lookup. destruct (px_requests p !! id) eqn:Hid; [done|]. intros [= <-] i. specialize (Hp i). revert Hp.
    unfold places. cbn. destruct (decide (i = id)) as [->|Hi].
    + rewrite !lookup_insert_eq, Hid. cbn. destruct (listed p); cbn; lia.
    + by rewrite !lookup_insert_ne.
  - unfold lookup_stream. destruct (px_requests p !! id) eqn:Hid; [done|]. intros [= <-] i. specialize (Hp i). revert Hp.
    unfold places. cbn. destruct (decide (i = id)) as [->|Hi].
    + rewrite !lookup_insert_eq, Hid. cbn. destruct (listed p); cbn; lia.
    + by rewrite !lookup_insert_ne.
  - intros Hq. eapply no_more_once; [exact Hp|]. revert Hq. unfold enlist. destruct (px_calls p !! id) as [c|] eqn:Hc.
    + destruct (ca_phase c) eqn:Hph; try done. intros [= <-]. apply (set_call_more p). rewrite Hc. cbn. by rewrite Hph.
    + destruct (px_streams p !! id) as [s|] eqn:Hs; [|done]. destruct (so_phase s) eqn:Hph; try done. intros [= <-].
      apply (set_stream_more p). rewrite Hs. cbn. by rewrite Hph.
  - intros Hq. eapply no_more_once; [exact Hp|by eapply ask_more].
  - intros Hq. eapply no_more_once; [exact Hp|]. revert Hq. unfold take_answer.
    destruct (px_calls p !! id) as [c|] eqn:Hc; [|done]. cbn [mbind option_bind].
    destruct (ca_phase c); try done. destruct (ca_slot c); [|done]. intros [= <-]. apply set_call_more. cbn. lia.
  - intros Hq. eapply no_more_once; [exact Hp|]. revert Hq. unfold deadline.
    destruct (px_calls p !! id) as [c|] eqn:Hc; [|done]. cbn [mbind option_bind].
    destruct (ca_phase c); try done. destruct (ca_slot c); [done|]. intros [= <-]. apply (set_call_more p). cbn. lia.
  - intros Hq. eapply no_more_once; [exact Hp|]. revert Hq. unfold read_stream.
    destruct (px_streams p !! id) as [s|] eqn:Hs; [|done]. cbn [mbind option_bind].
    destruct (so_phase s) eqn:Hph; try done. destruct (so_left s || so_ended s); [done|]. destruct (so_queue s); [done|]. intros [= <-].
    apply set_stream_more. cbn. rewrite Hph. lia.
  - intros Hq. eapply no_more_once; [exact Hp|]. revert Hq. unfold stream_closed.
    destruct (px_streams p !! id) as [s|] eqn:Hs; [|done]. cbn [mbind option_bind].
    destruct (so_phase s) eqn:Hph; try done. destruct (so_left s); [done|]. destruct (so_queue s); [|done].
    destruct (px_pending p !! id); [destruct (freed p); [|done]|]; intros [= <-]; apply set_stream_more; cbn; rewrite Hph; lia.
  - intros (s & Hs & Hph & _ & ->)%stream_cut_cases. eapply no_more_once; [exact Hp|]. apply set_stream_more. cbn. rewrite Hph. lia.
  - intros Hq. eapply no_more_once; [exact Hp|]. revert Hq. unfold leave_stream.
    destruct (px_streams p !! id) as [s|] eqn:Hs; [|done]. cbn [mbind option_bind].
    destruct (so_phase s) eqn:Hph; try done. intros [= <-]. apply set_stream_more. cbn. rewrite Hph. lia.
  - intros Hq. eapply no_more_once; [exact Hp|]. revert Hq. unfold remove_pending_of.
    destruct (px_streams p !! id) as [s|] eqn:Hs; [|done]. cbn [mbind option_bind].
    destruct (so_phase s); try done. destruct (so_left s); [|done]. intros [= <-]. by destruct (listed p).
  - intros Hq. eapply no_more_once; [exact Hp|]. revert Hq. unfold drop_receiver.
    destruct (px_streams p !! id) as [s|] eqn:Hs; [|done]. cbn [mbind option_bind].
    destruct (so_phase s) eqn:Hph; try done. destruct (so_left s); [|done]. intros [= <-].
    apply set_stream_more. cbn. rewrite Hph. lia.
  - intros Hq. eapply no_more_once; [exact Hp|]. revert Hq. unfold send_message.
    destruct (px_streams p !! id) as [s|] eqn:Hs; [|done]. cbn [mbind option_bind].
    destruct (so_phase s); try done. destruct (listed p); [|by intros [= <-]].
    destruct (send_to_relay _ _ p) as [r|] eqn:Hr; [|done]. intros [= <-].
    apply send_to_relay_more in Hr. destruct r as [q'|e]; [|done].
    destruct Hr as (E1 & E2 & E3 & E4 & E5 & E6 & E7 & E8 & _). split; [exact E1|]. intros i.
    unfold places. cbn. rewrite E2, E3, E4, E5, E6, E7, E8, count_app, count_1. cbn. lia.
  - intros Hq. eapply no_more_once; [exact Hp|]. revert Hq. unfold relay_out.
    destruct (px_phase p); try done. destruct (px_send p) as [|m rest] eqn:Hs; [done|]. intros [= <-].
    split; [done|]. intros i. unfold places. cbn. rewrite Hs, count_app, count_1. cbn. lia.
  - intros Hq. eapply no_more_once; [exact Hp|]. revert Hq. unfold relay_in.
    destruct (px_phase p); try done. destruct (px_up p); [done|]. apply primary_receive_more.
  - intros Hq. eapply no_more_once; [exact Hp|]. revert Hq. unfold relay_stalls.
    destruct (px_phase p); try done. destruct (px_up p); [done|]. destruct (relay_in p); [done|]. intros [= <-].
    destruct n; try done. by destruct done.
  - unfold in_phase. destruct (px_phase p); try done. intros [= <-]. eapply no_more_once; [exact Hp|].
    split; [done|]. intros i. unfold places. cbn. rewrite count_app, count_1. cbn. lia.
  - unfold in_phase. destruct (px_phase p); try done. intros [= <-]. exact Hp.
  - unfold in_phase. destruct (px_phase p); try done. intros [= <-]. eapply no_more_once; [exact Hp|apply drain_more].
  - unfold in_phase. destruct (px_phase p); try done. intros [= <-]. exact Hp.
  - unfold in_phase. destruct (px_phase p); try done. intros [= <-]. exact Hp.
  - intros [= <-]. exact Hp.
  - intros Hq. eapply no_more_once; [exact Hp|by apply node_in_more].
  - unfold node_joins. destruct (sx_finished p), (sx_load p); try done. intros [= <-]. exact Hp.
  - intros Hq. eapply no_more_once; [exact Hp|by eapply node_answers_more].
  - intros Hq. eapply no_more_once; [exact Hp|]. revert Hq. unfold node_connects.
    destruct (sx_nested p !! id) as [n|] eqn:Hn; [|done]. cbn [mbind option_bind].
    destruct (ne_phase n); try done. destruct connected; [|by apply frame_over_more].
    intros [= <-]. apply set_nested_more. by exists n.
  - intros Hq. eapply no_more_once; [exact Hp|]. revert Hq. unfold node_mails.
    destruct (sx_nested p !! id) as [n|] eqn:Hn; [|done]. cbn [mbind option_bind].
    destruct (ne_phase n) as [|[]|]; try done. destruct (ne_mail n); [done|]. intros [= <-].
    destruct written; [apply set_nested_more|apply finish_more]; by exists n.
  - intros Hq. eapply no_more_once; [exact Hp|]. revert Hq. unfold node_mail_closed.
    destruct (sx_nested p !! id) as [n|] eqn:Hn; [|done]. cbn [mbind option_bind].
    destruct (ne_phase n) as [|[]|]; try done. destruct (ne_mail n); [|done]. destruct (sx_streams p !! id); [done|].
    intros [= <-]. apply set_nested_more. by exists n.
  - intros Hq. eapply no_more_once; [exact Hp|]. revert Hq. unfold node_reads.
    destruct (sx_nested p !! id) as [n|] eqn:Hn; [|done]. cbn [mbind option_bind].
    destruct (ne_phase n); try done. destruct frame as [r|e]; [|by apply frame_over_more].
    destruct (is_done r) eqn:Hd; [by apply frame_over_more|].
    destruct (send_frame id r false p) as [q'|] eqn:Hf; [|done]. intros [= <-]. by apply send_frame_more in Hf as [].
  - unfold node_rpc_out. destruct (sx_rpc p) as [|[id r] rest]; [done|]. intros [= <-]. exact Hp.
  - unfold node_frame_out. destruct (sx_frames p) as [|[[id r] d] rest]; [done|]. intros [= <-]. by destruct d.
  - intros [= <-]. exact Hp.
  - intros [= <-]. exact Hp.
Qed.

Lemma once_connected : once proxy_connected.
Proof. intros id. unfold places. cbn. by rewrite !lookup_empty. Qed.

Lemma once_run ops p q : once p → proxy_run node ops p = Some q → once q.
Proof.
  revert p. induction ops as [|op ops IH]; intros p Hp; [by intros [= <-]|]. cbn [proxy_run].
  destruct (proxy_step node op p) as [p1|] eqn:Hs; [|done]. cbn [mbind option_bind]. apply IH. by eapply once_step.
Qed.

End Once.

(** ** Answers *)

Section Answers.
Context `{Json RpcRequest, Json RpcResponse, !JsonLaws RpcRequest, !JsonLaws RpcResponse} (node : bytes).

(** C12: A call made through a node connection returns what the daemon of the node
    answered to that very request, the relay's refusal of it, or an error
    that says that the node is not connected or did not answer in time; the
    node serves only what was asked, and nothing twice: for each id there is
    at most one task, answer or nested stream. *)
Theorem answers_are_genuine ops p id : proxy_run node ops proxy_connected = Some p →
  (∀ c r, px_calls p !! id = Some c → ca_phase c = Returned r →
    match r with
    | Ok response =>
        (id, ca_request c, response) ∈ px_executed p
        ∨ is_supported_proxied_rpc (ca_request c) = false ∧ response = unsupported_rpc (ca_request c)
        ∨ is_subscribe (ca_request c) = true ∧ (id, response) ∈ px_framed p
    | Err e => e = NodeNotConnected node ∨ e = deadline_error node (ca_request c)
    end)
  ∧ (∀ request response, (id, request, response) ∈ px_executed p →
      px_requests p !! id = Some request ∧ is_supported_proxied_rpc request = true)
  ∧ (count (λ x, bytes_eqb x.1 id) (sx_tasks p) + count (λ x, bytes_eqb x.1.1 id) (px_executed p)
      + present (sx_nested p !! id) <= 1)%nat.
Proof.
  intros Hrun. pose proof (genuine_run node ops _ p (genuine_connected node) Hrun) as Hg.
  pose proof (once_run node ops _ p once_connected Hrun) as Ho. split_and!.
  - intros c r Hc Hr. destruct (calls_request _ _ _ _ Hg Hc) as (Hq & _ & Hph). rewrite Hr in Hph.
    destruct r as [response|e]; [|exact Hph]. cbn in Hq.
    destruct Hph as [(q & Hq' & Ha)|(q & Hq' & Hs & Hin)]; cbn in *; assert (q = ca_request c) as -> by congruence;
      [destruct Ha; by auto|by auto].
  - intros request response Hin. pose proof (gi_executed _ _ Hg) as He. rewrite Forall_forall in He.
    by destruct (He _ Hin) as (? & ? & _).
  - specialize (Ho id). unfold places in Ho. destruct (px_requests p !! id); cbn in Ho; lia.
Qed.

End Answers.

(** ** Examples *)

#[local] Instance request_json : Json RpcRequest := code_json _.
#[local] Instance request_json_laws : JsonLaws RpcRequest := code_json_laws _.
#[local] Instance response_json : Json RpcResponse := code_json _.
#[local] Instance response_json_laws : JsonLaws RpcResponse := code_json_laws _.

Definition health : RpcRequest := OtherRequest (bs "health").
Definition healthy : RpcResponse := OtherResponse (bs "health").

(** Two calls, one of which the node's daemon answers too late. *)
Definition sample_calls : list ProxyOp := [
  Lookup (bs "1") health; Lookup (bs "2") health; Enlist (bs "1"); Enlist (bs "2"); Ask (bs "2"); Ask (bs "1");
  RelayOut; RelayOut; NodeIn; NodeIn; NodeAnswers (bs "1") (Ok healthy); NodeRpcOut; RelayIn; TakeAnswer (bs "1");
  Deadline (bs "2"); NodeAnswers (bs "2") (Ok healthy); NodeRpcOut; RelayIn].

Definition outcome (id : bytes) (ops : list ProxyOp) : option CallPhase :=
  p ← proxy_run (bs "w") ops proxy_connected; ca_phase <$> px_calls p !! id.

(** A call that the draining misses is told nothing until its deadline. *)
Definition late_call : list ProxyOp := [
  Lookup (bs "1") health; RelayEnds; Drain; Enlist (bs "1"); Ask (bs "1"); Unlist; RelayReturns].

Lemma answers_are_genuine_witness :
  ∃ p, proxy_run (bs "w") sample_calls proxy_connected = Some p ∧ (bs "1", health, healthy) ∈ px_executed p.
Proof.
  assert (outcome (bs "1") sample_calls = Some (Returned (Ok healthy))) as Hout by by vm_compute. unfold outcome in Hout.
  destruct (proxy_run (bs "w") sample_calls proxy_connected) as [p|] eqn:Hp; [|discriminate]. exists p. split; [done|].
  destruct (answers_are_genuine (bs "w") sample_calls p (bs "1") Hp) as (Hret & _ & _). cbn [mbind option_bind] in Hout.
  destruct (px_calls p !! bs "1") as [c|] eqn:Hc; [|discriminate]. injection Hout as Hph.
  assert (ca_request c = health) as Hca.
  { assert (match proxy_run (bs "w") sample_calls proxy_connected with
            | Some p => ca_request <$> px_calls p !! bs "1" | None => None end = Some health) as Hr by by vm_compute.
    rewrite Hp, Hc in Hr. by injection Hr. }
  specialize (Hret c _ eq_refl Hph). cbn in Hret. rewrite Hca in Hret.
  destruct Hret as [Hin|[[Hno _]|[Hno _]]]; [exact Hin|by vm_compute in Hno|by vm_compute in Hno].
Defined.

Example slow_call_is_told :
  outcome (bs "2") sample_calls = Some (Returned (Err (deadline_error (bs "w") health))).
Proof. by vm_compute. Qed.

Example late_call_waits :
  outcome (bs "1") late_call = Some Asked
  ∧ outcome (bs "1") (late_call ++ [TakeAnswer (bs "1")]) = None
  ∧ outcome (bs "1") (late_call ++ [Deadline (bs "1")]) = Some (Returned (Err (deadline_error (bs "w") health))).
Proof. by vm_compute. Qed.
