(* ===== verification/ProxyStream.v ===== *)
(** * Streams from other nodes

    What becomes of a remote attach that goes through the connection of
    [Proxy]: the frames of the nested attach on their way to the caller, and
    the caller's messages on their way to the nested attach.  Each has an
    invariant over the parts of the state that concern one id, its [view] and
    its [mail_view]; [proxy_inv] joins them to those of [Proxy]. *)

From S2P Require Import Prelude Utf8 Text Disk Pump Wire Attach Federation Proxy.

(** ** Streams *)

Section Streams.
Context `{Json RpcRequest, Json RpcResponse, !JsonLaws RpcRequest, !JsonLaws RpcResponse} (node : bytes).

#[local] Abbreviation refused := (not_connected node).

(** What belongs to an id. *)
Fixpoint those {A} (id : bytes) (l : list (bytes * A)) : list A :=
  match l with [] => [] | (i, a) :: l => if bytes_eqb i id then a :: those id l else those id l end.

Fixpoint frames_up (id : bytes) (l : list NodeWsMessage) : list RpcResponse :=
  match l with
  | RpcStreamFrame i text _ :: l =>
      if bytes_eqb i id then
        match from_slice text with Some response => response :: frames_up id l | None => frames_up id l end
      else frames_up id l
  | _ :: l => frames_up id l
  | [] => []
  end.

Lemma those_app {A} id (a b : list (bytes * A)) : those id (a ++ b) = those id a ++ those id b.
Proof. induction a as [|[i x] a IH]; [done|]. cbn. case_match; cbn; by rewrite IH. Qed.

Lemma those_1 {A} id i (x : A) : those id [(i, x)] = if bytes_eqb i id then [x] else [].
Proof. done. Qed.

Lemma those_in {A} id (l : list (bytes * A)) x : x ∈ those id l ↔ (id, x) ∈ l.
Proof.
  induction l as [|[i y] l IH]; [by rewrite !elem_of_nil|]. cbn. rewrite elem_of_cons.
  destruct (bytes_eqb i id) eqn:Hi.
  - apply bool_decide_eq_true in Hi as ->. rewrite elem_of_cons, IH. naive_solver.
  - apply bool_decide_eq_false in Hi. rewrite IH. naive_solver.
Qed.

Lemma frames_up_app id a b : frames_up id (a ++ b) = frames_up id a ++ frames_up id b.
Proof.
  induction a as [|m a IH]; [done|]. cbn. destruct m; cbn; rewrite ?IH; try done.
  destruct (bytes_eqb _ _); [|done]. by destruct (from_slice _).
Qed.

(** What the invariant of a stream looks at. *)
Record View := mk_view {
  vw_up : bool;
  vw_stream : option StreamCall;
  vw_call : option Call;
  vw_pending : option PendingRpc;
  vw_flying : list RpcResponse;
  vw_framed : list RpcResponse;
}.

Definition is_up (phase : Serving) : bool := match phase with Up => true | _ => false end.

Definition view (id : bytes) (p : Proxy) : View :=
  mk_view (is_up (px_phase p)) (px_streams p !! id) (px_calls p !! id) (px_pending p !! id)
    (frames_up id (px_up p) ++ those id (map fst (sx_frames p))) (those id (px_framed p)).

(** The caller is still in its loop, or on its way to it. *)
Definition taking (s : StreamCall) : bool := match so_phase s with OpenFailed _ => false | _ => negb (so_left s) end.

(** What the caller was given are frames in order, all but those in flight
    as long as it can still be given more, and at the end an error.  A stream
    that left the table before its caller did has had its last frame. *)
Definition delivered (v : View) (s : StreamCall) : Prop :=
  vw_call v = None
  ∧ (so_phase s = OpenLooked → vw_pending v = None ∧ so_read s ++ so_queue s = [])
  ∧ (so_dropped s = true → taking s = false)
  ∧ ∃ got tail, so_read s ++ so_queue s = map Ok got ++ tail ∧ got `prefix_of` vw_framed v
    ∧ match vw_pending v with
      | Some Stream =>
          tail = [] ∧ (vw_up v = true → so_dropped s = false → got ++ vw_flying v = vw_framed v)
      | Some OneShot => False
      | None =>
          (tail = [] ∨ tail = [Err refused])
          ∧ (vw_up v = true → taking s = true → so_phase s ≠ OpenLooked →
             tail = [] ∧ got ++ vw_flying v = vw_framed v ∧ existsb is_done got = true)
      end.

Definition view_ok (v : View) : Prop :=
  match vw_stream v with
  | Some s => is_subscribe (so_request s) = true → delivered v s
  | None => vw_call v = None → vw_pending v = None
  end.

Definition streams_ok (p : Proxy) : Prop := ∀ id, view_ok (view id p).

Lemma subscribe_supported request : is_subscribe request = true → is_supported_proxied_rpc request = true.
Proof. by destruct request. Qed.

Lemma answered_no_subscribe p id s r :
  genuine_inv node p → px_streams p !! id = Some s → is_subscribe (so_request s) = true → ¬ answered (history p) id r.
Proof.
  intros Hp Hs Hsub (q & Hq & Ha). pose proof (streams_request _ _ _ _ Hp Hs) as Hr. unfold stream_ok in Hr.
  assert (q = so_request s) as -> by congruence. destruct Ha as [Ha|[Ha _]].
  - pose proof (gi_executed _ _ Hp) as He. rewrite Forall_forall in He. destruct (He _ Ha) as (_ & _ & Hn).
    cbn in Hn. congruence.
  - apply subscribe_supported in Hsub. congruence.
Qed.

(** Steps that leave a view alone, or all of it but one part. *)
Lemma feed_view p q id i r b : i ≠ id → feed i r p = Some (b, q) → view id q = view id p.
Proof.
  intros Hi. unfold feed. destruct (px_streams p !! i) as [s|]; [|by intros [= _ <-]].
  destruct (so_dropped s); [by intros [= _ <-]|]. destruct (_ <? 256)%nat; [|done]. intros [= _ <-].
  unfold view. cbn. by rewrite lookup_insert_ne.
Qed.

Lemma remove_view p id i : i ≠ id → view id (remove_pending i p) = view id p.
Proof. intros Hi. unfold view. cbn. by rewrite lookup_delete_ne. Qed.

Lemma fill_slot_view p id i r : i ≠ id → view id (fill_slot i r p) = view id p.
Proof.
  intros Hi. unfold fill_slot. destruct (px_calls p !! i) as [c|]; [|done].
  destruct (ca_phase c); try done; unfold view; cbn; by rewrite lookup_insert_ne.
Qed.

Lemma resolve_view p q id i r : i ≠ id → resolve i r p = Some q → view id q = view id p.
Proof.
  intros Hi. unfold resolve. destruct (px_pending p !! i) as [[]|]; [| |by intros [= <-]].
  - intros [= <-]. by rewrite fill_slot_view, remove_view.
  - destruct (feed _ _ _) as [[b q']|] eqn:Hf; [|done]. intros [= <-]. apply (feed_view _ _ id) in Hf; [|done].
    by rewrite Hf, remove_view.
Qed.

Lemma stream_frame_view p q id i r d : i ≠ id → on_stream_frame i r d p = Some q → view id q = view id p.
Proof.
  intros Hi. unfold on_stream_frame. destruct d; [by apply resolve_view|].
  destruct (px_pending p !! i) as [[]|]; try (by intros [= <-]).
  destruct (feed _ _ _) as [[b q']|] eqn:Hf; [|done]. intros [= <-]. apply (feed_view _ _ id) in Hf; [|done].
  destruct b; [done|]. by rewrite remove_view.
Qed.

(** The life of a nested stream: silent, then its frames, then its end. *)
Definition done_last (l : list RpcResponse) : Prop := ∀ a r b, l = a ++ r :: b → is_done r = true → b = [].

Definition nested_life (n : option Nested) (l : list RpcResponse) : Prop :=
  match n with
  | None => l = []
  | Some n =>
      match ne_phase n with
      | Connecting => l = []
      | Relaying _ => Forall (λ r, is_done r = false) l
      | NestedOver => done_last l
      end
  end.

Definition lives (p : Proxy) : Prop := ∀ id, nested_life (sx_nested p !! id) (those id (px_framed p)).

Lemma done_last_snoc l r : Forall (λ r, is_done r = false) l → done_last (l ++ [r]).
Proof.
  intros Hl a x b E Hx. destruct (decide (b = [])) as [|Hb]; [done|].
  destruct (exists_last Hb) as (b' & y & ->). rewrite app_comm_cons, app_assoc in E. apply app_inj_2 in E as [-> _]; [|done].
  apply Forall_app in Hl as [_ Hl]. apply Forall_cons in Hl as [Hl _]. congruence.
Qed.

Lemma done_last_none l : Forall (λ r, is_done r = false) l → done_last l.
Proof. intros Hl a x b -> Hx. apply Forall_app in Hl as [_ Hl]. apply Forall_cons in Hl as [Hl _]. congruence. Qed.

Lemma framed_done_last p id : lives p → done_last (those id (px_framed p)).
Proof.
  intros Hl. specialize (Hl id). unfold nested_life in Hl. destruct (sx_nested p !! id) as [n|].
  - destruct (ne_phase n); [rewrite Hl|by apply done_last_none|done]. by intros [|? a] x b [=].
  - rewrite Hl. by intros [|? a] x b [=].
Qed.

(** The next frame of a stream arrives. *)
Lemma frame_given v s r flying pd :
  delivered v s → vw_up v = true → vw_pending v = Some Stream → so_dropped s = false → vw_flying v = r :: flying →
  pd = None ∧ is_done r = true ∨ pd = Some Stream →
  delivered (mk_view true (Some (s <| so_queue := so_queue s ++ [Ok r] |>)) (vw_call v) pd flying (vw_framed v))
    (s <| so_queue := so_queue s ++ [Ok r] |>).
Proof.
  intros (Hc & Hl & Hd & got & tail & Hgot & Hpre & Hm) Hup Hpd Hdrop Hfly Hor. rewrite Hpd in Hm, Hl.
  destruct Hm as [-> Heq]. specialize (Heq Hup Hdrop). rewrite Hfly in Heq. rewrite app_nil_r in Hgot.
  split_and!; [done| |exact Hd|].
  - intros Hs. by destruct (Hl Hs).
  - exists (got ++ [r]), []. cbn. split_and!.
    + by rewrite app_assoc, Hgot, map_app, app_nil_r.
    + exists flying. by rewrite <- Heq, <- app_assoc.
    + assert ((got ++ [r]) ++ flying = vw_framed v) as Hall by (by rewrite <- Heq, <- app_assoc).
      destruct Hor as [[-> Hr]| ->]; [|by split]. split; [by left|]. intros _ _ _. split_and!; [done..|].
      by rewrite existsb_app, orb_true_iff; right; cbn; rewrite Hr.
Qed.

(** A stream that is given nothing more. *)
Lemma delivered_cut v s w t :
  delivered v s → vw_call w = vw_call v → so_read t ++ so_queue t = so_read s ++ so_queue s →
  vw_framed v `prefix_of` vw_framed w →
  (so_phase t = OpenLooked → vw_pending w = None ∧ so_phase s = OpenLooked) → (so_dropped t = true → taking t = false) →
  vw_pending w = None ∧ (vw_up w = false ∨ taking t = false)
  ∨ vw_pending w = vw_pending v ∧ (vw_up w = false ∨ so_dropped t = true) →
  delivered w t.
Proof.
  intros (Hc & Hl & _ & got & tail & Hgot & Hpre & Hm) Ec Eq Ef Ht Hd Hw. split_and!; [by rewrite Ec| |exact Hd|].
  - intros Hs. destruct (Ht Hs) as [? Hs']. destruct (Hl Hs'). by rewrite Eq.
  - exists got, tail. rewrite Eq. split_and!; [done|by etrans|].
    destruct Hw as [[-> Hw]|[-> Hw]].
    + split; [destruct (vw_pending v) as [[]|]; [done|left; apply Hm|apply Hm]|]. intros Hu Htk. destruct Hw; congruence.
    + destruct (vw_pending v) as [[]|]; [done|split; [apply Hm|]|split; [apply Hm|]].
      * intros Hu Hd'. destruct Hw; congruence.
      * intros Hu Htk. destruct Hw as [Hw|Hw%Hd]; congruence.
Qed.

Lemma feed_cases p id r b q : feed id r p = Some (b, q) →
  match px_streams p !! id with
  | Some s => so_dropped s = true ∧ b = false ∧ q = p
              ∨ so_dropped s = false ∧ b = true ∧ q = set_stream id (s <| so_queue := so_queue s ++ [r] |>) p
  | None => b = false ∧ q = p
  end.
Proof.
  unfold feed. destruct (px_streams p !! id) as [s|]; [|by intros [= <- <-]].
  destruct (so_dropped s); [intros [= <- <-]; by left|]. destruct (length _ <? 256)%nat; [|done].
  intros [= <- <-]. by right.
Qed.

Lemma feed_pending p id r b q : feed id r p = Some (b, q) → px_pending q = px_pending p.
Proof.
  intros Hf%feed_cases. destruct (px_streams p !! id); [destruct Hf as [(_ & _ & ->)|(_ & _ & ->)]|destruct Hf as [_ ->]]; done.
Qed.

Lemma fill_slot_streams id i r p : px_streams (fill_slot i r p) !! id = px_streams p !! id.
Proof. unfold fill_slot. destruct (px_calls p !! i) as [c|]; [|done]. by destruct (ca_phase c). Qed.

Lemma fill_slot_calls id i r p : px_calls (fill_slot i r p) !! id = None → px_calls p !! id = None.
Proof.
  unfold fill_slot. destruct (px_calls p !! i) as [c|] eqn:Hc; [|done].
  destruct (ca_phase c); try done; cbn; by intros [? ?]%lookup_insert_None.
Qed.

(** The view after a stream was fed by a frame at the head of the queue. *)
Lemma fed_view p id r up pending b q :
  view_ok (view id p) → is_up (px_phase p) = true → px_pending p !! id = Some Stream →
  frames_up id (px_up p) = r :: frames_up id up →
  feed id (Ok r) (p <| px_up := up |> <| px_pending := pending |>) = Some (b, q) →
  (pending !! id = None ∧ is_done r = true ∨ pending !! id = Some Stream) →
  view_ok (view id (if b then q else remove_pending id q)).
Proof.
  intros Hv Hup Hpd Hfly Hf Hor. apply feed_cases in Hf. cbn in Hf. unfold view_ok in *. cbn [view vw_stream] in Hv.
  destruct (px_streams p !! id) as [s|] eqn:Hs.
  - destruct Hf as [(Hd & -> & ->)|(Hd & -> & ->)]; cbn.
    + rewrite Hs. intros Hsub. pose proof (proj1 (proj2 (proj2 (Hv Hsub)))) as Htk.
      eapply delivered_cut; [exact (Hv Hsub)|done|done|done| |done|left; cbn; rewrite lookup_delete_eq; split; [done|right; by apply Htk]].
      intros Hl. cbn. by rewrite lookup_delete_eq.
    + rewrite lookup_insert_eq. intros Hsub. unfold view. cbn. rewrite lookup_insert_eq, Hup.
      refine (frame_given _ _ _ _ (pending !! id) (Hv Hsub) Hup Hpd Hd _ Hor). cbn. by rewrite Hfly.
  - destruct Hf as [-> ->]. cbn. rewrite Hs. intros _. cbn. by rewrite lookup_delete_eq.
Qed.

Lemma frame_arrives p q id r up :
  view_ok (view id p) → done_last (those id (px_framed p)) → is_up (px_phase p) = true →
  frames_up id (px_up p) = r :: frames_up id up →
  on_stream_frame id r (is_done r) (p <| px_up := up |>) = Some q → view_ok (view id q).
Proof.
  intros Hv Hlast Hup Hfly. destruct (px_pending p !! id) as [[]|] eqn:Hpd.
  - intros Hq. assert (px_streams q !! id = px_streams p !! id ∧ (px_calls q !! id = None → px_calls p !! id = None))
      as [Es Ec].
    { revert Hq. unfold on_stream_frame, resolve. cbn. rewrite Hpd. destruct (is_done r); intros [= <-]; [|done].
      split; [by rewrite fill_slot_streams|by intros Hc%fill_slot_calls]. }
    unfold view_ok in *. cbn [view vw_stream vw_call vw_pending] in *. rewrite Es. destruct (px_streams p !! id) as [s|];
      [|intros Hc; specialize (Hv (Ec Hc)); congruence].
    intros Hsub. destruct (Hv Hsub) as (_ & _ & _ & got & tail & _ & _ & Hm). cbn in Hm. by rewrite Hpd in Hm.
  - unfold on_stream_frame, resolve. cbn. rewrite Hpd. destruct (is_done r) eqn:Hdone.
    + destruct (feed _ _ _) as [[b q']|] eqn:Hf; [|done]. intros [= <-].
      pose proof (feed_pending _ _ _ _ _ Hf) as Hpend. eapply (fed_view p id r up) in Hf; try done; [|left; split; [by apply lookup_delete_eq|done]].
      destruct b; [done|]. replace (view id q') with (view id (remove_pending id q')); [done|].
      unfold view. cbn. rewrite Hpend. cbn. by rewrite !lookup_delete_eq.
    + destruct (feed _ _ _) as [[b q']|] eqn:Hf; [|done]. intros [= <-].
      eapply (fed_view p id r up (px_pending p)) in Hf; try done. by right.
  - unfold on_stream_frame, resolve. cbn. rewrite Hpd. assert (Some (p <| px_up := up |>) = Some q → view_ok (view id q)) as Hn.
    { intros [= <-]. unfold view_ok in *. cbn in *. destruct (px_streams p !! id) as [s|]; [|by intros _].
      intros Hsub. pose proof (Hv Hsub) as (Hc & Hl & Hd & got & tail & Hgot & Hpre & Hm). cbn in Hc, Hl, Hpre, Hm. rewrite Hpd in Hm, Hl.
      split_and!; [exact Hc|cbn; by rewrite Hpd|exact Hd|]. exists got, tail. cbn. rewrite Hpd. split_and!; [done..|apply Hm|].
      intros _ Htk Hlk. exfalso. destruct (proj2 Hm Hup Htk Hlk) as (_ & Hall & Hex). rewrite Hfly in Hall.
      apply existsb_exists in Hex as (x & (a & b & ->)%in_split & Hx). rewrite <- Hall, <- app_assoc in Hlast.
      by destruct (proj1 (app_nil _ _) (Hlast a x _ eq_refl Hx)) as [_ ?]. }
    by destruct (is_done r).
Qed.

(** The same, with the frames of a step in flight. *)
Lemma delivered_grow v w s t l :
  delivered v s → vw_call w = vw_call v → vw_pending w = vw_pending v → vw_up w = vw_up v →
  vw_flying w = vw_flying v ++ l → vw_framed w = vw_framed v ++ l →
  so_read t ++ so_queue t = so_read s ++ so_queue s → so_dropped t = so_dropped s →
  (so_phase t = OpenLooked ↔ so_phase s = OpenLooked) → (taking t = true → taking s = true) → delivered w t.
Proof.
  intros (Hc & Hl & Hd & got & tail & Hgot & Hpre & Hm) Ec Ep Eu Efl Ef Eq Ed Eph Etk. split_and!; [by rewrite Ec| | |].
  - intros Hs. rewrite Ep, Eq. by apply Hl, Eph.
  - rewrite Ed. intros Hs%Hd. destruct (taking t); [|done]. by rewrite Etk in Hs.
  - exists got, tail. rewrite Eq, Ep, Eu, Efl, Ef, Ed. split_and!; [done|by apply prefix_app_r|].
    destruct (vw_pending v) as [[]|]; [done| |].
    + destruct Hm as [-> Hm]. split; [done|]. intros Hu Hdr. by rewrite app_assoc, Hm.
    + destruct Hm as [Ht Hm]. split; [done|]. intros Hu Htk Hlk. rewrite Eph in Hlk.
      destruct (Hm Hu (Etk Htk) Hlk) as (-> & <- & Hex). split_and!; [done| |done]. by rewrite app_assoc.
Qed.

Lemma lives_insert p q id n :
  lives p → px_framed q = px_framed p → sx_nested q = <[id:=n]> (sx_nested p) →
  nested_life (Some n) (those id (px_framed p)) → lives q.
Proof.
  intros Hp Ef En Hn i. rewrite Ef, En. destruct (decide (i = id)) as [->|Hi]; [by rewrite lookup_insert_eq|].
  rewrite lookup_insert_ne by done. apply Hp.
Qed.

Lemma lives_frame p q id n r :
  lives p → px_framed q = px_framed p ++ [(id, r)] → sx_nested q = <[id:=n]> (sx_nested p) →
  nested_life (Some n) (those id (px_framed p) ++ [r]) → lives q.
Proof.
  intros Hp Ef En Hn i. rewrite Ef, En, those_app, those_1. destruct (decide (i = id)) as [->|Hi].
  - by rewrite lookup_insert_eq, bytes_eqb_refl.
  - rewrite lookup_insert_ne, bytes_eqb_ne, app_nil_r by done. apply Hp.
Qed.

Lemma lives_same p q : lives p → px_framed q = px_framed p → sx_nested q = sx_nested p → lives q.
Proof. intros Hp Ef En i. rewrite Ef, En. apply Hp. Qed.

End Streams.

(** ** Streams along a run *)

Section Run.
Context `{Json RpcRequest, Json RpcResponse, !JsonLaws RpcRequest, !JsonLaws RpcResponse} (node : bytes).

(** The primary's table and calls aside, nothing changed. *)
Definition others_same (p q : Proxy) : Prop :=
  sx_nested q = sx_nested p ∧ px_framed q = px_framed p ∧ sx_streams q = sx_streams p ∧ sx_running q = sx_running p
  ∧ px_mailed q = px_mailed p ∧ px_send q = px_send p ∧ px_down q = px_down p.

Lemma feed_others p id r b q : feed id r p = Some (b, q) → others_same p q.
Proof.
  intros Hf%feed_cases. destruct (px_streams p !! id); [destruct Hf as [(_ & _ & ->)|(_ & _ & ->)]|destruct Hf as [_ ->]];
    by split_and!.
Qed.

Lemma fill_slot_others p id r : others_same p (fill_slot id r p).
Proof. unfold fill_slot. destruct (px_calls p !! id) as [c|]; [destruct (ca_phase c)|]; by split_and!. Qed.

Lemma resolve_others p q id r : resolve id r p = Some q → others_same p q.
Proof.
  unfold resolve. destruct (px_pending p !! id) as [[]|]; [| |intros [= <-]; by split_and!].
  - intros [= <-]. exact (fill_slot_others (remove_pending id p) id (Ok r)).
  - destruct (feed _ _ _) as [[b q']|] eqn:Hf; [|done]. intros [= <-]. by apply feed_others in Hf.
Qed.

Lemma frame_others p q id r d : on_stream_frame id r d p = Some q → others_same p q.
Proof.
  unfold on_stream_frame. destruct d; [apply resolve_others|].
  destruct (px_pending p !! id) as [[]|]; try (intros [= <-]; by split_and!).
  destruct (feed _ _ _) as [[b q']|] eqn:Hf; [|done]. intros [= <-]. apply feed_others in Hf. by destruct b.
Qed.

(** The relay of the primary only adds keepalives to the wire. *)
Definition quiet (m : NodeWsMessage) : bool := match m with Rpc _ _ | RpcStreamMessage _ _ => false | _ => true end.

Definition relay_same (p q : Proxy) : Prop :=
  sx_nested q = sx_nested p ∧ px_framed q = px_framed p ∧ sx_streams q = sx_streams p ∧ sx_running q = sx_running p
  ∧ px_mailed q = px_mailed p ∧ px_send q = px_send p
  ∧ ∃ extra, px_down q = px_down p ++ extra ∧ Forall (λ m, quiet m = true) extra.

Lemma others_relay p q : others_same p q → relay_same p q.
Proof.
  intros (E1 & E2 & E3 & E4 & E5 & E6 & E7). split_and!; [done..|]. exists []. split; [by rewrite app_nil_r|done].
Qed.

Lemma primary_receive_same p q m : primary_receive m p = Some q → relay_same p q.
Proof.
  destruct m; cbn [primary_receive]; try (intros [= <-]; by apply others_relay; split_and!).
  - destruct (from_slice _); [|intros [= <-]; by apply others_relay; split_and!]. intros Hq. by eapply others_relay, resolve_others.
  - destruct (from_slice _); [|intros [= <-]; by apply others_relay; split_and!]. intros Hq. by eapply others_relay, frame_others.
  - intros [= <-]. split_and!; [done..|]. exists [Pong]. split; [done|by apply Forall_singleton].
Qed.

(** What a step can do to the nested streams. *)
Definition caller_or_relay (op : ProxyOp) : bool :=
  match op with
  | Lookup _ _ | LookupStream _ _ | Enlist _ | Ask _ | TakeAnswer _ | Deadline _ | ReadStream _ | StreamClosed _ | StreamCut _
  | LeaveStream _ | RemovePending _ | DropReceiver _ | SendMessage _ _ | RelayOut | RelayIn | RelayStalls | RelayKeepalive
  | RelayEnds | Drain | Unlist | RelayReturns | Revoke | NodeJoins | NodeAnswers _ _ | NodeRpcOut | NodeFrameOut | NodeEvent _
  | NodeEnds => true
  | _ => false
  end.

Lemma nested_kept op p q : caller_or_relay op = true → proxy_step node op p = Some q →
  sx_nested q = sx_nested p ∧ px_framed q = px_framed p.
Proof.
  intros Hop. destruct op; try done; cbn [proxy_step]; unfold when_running; try (destruct (sx_running p); [|done]).
  - unfold lookup. destruct (px_requests p !! id); [done|]. by intros [= <-].
  - unfold lookup_stream. destruct (px_requests p !! id); [done|]. by intros [= <-].
  - unfold enlist. destruct (px_calls p !! id) as [c|]; [destruct (ca_phase c); try done; by intros [= <-]|].
    destruct (px_streams p !! id) as [s|]; [|done]. destruct (so_phase s); try done. by intros [= <-].
  - unfold ask. destruct (px_calls p !! id) as [c|].
    + destruct (ca_phase c); try done. destruct (send_to_relay _ _ p) as [r|] eqn:Hr; [|done]. intros [= <-].
      apply send_to_relay_more in Hr. destruct r; [|done]. cbn. naive_solver.
    + destruct (px_streams p !! id) as [s|]; [|done]. destruct (so_phase s); try done.
      destruct (send_to_relay _ _ p) as [r|] eqn:Hr; [|done]. intros [= <-].
      apply send_to_relay_more in Hr. destruct r; [|done]. cbn. naive_solver.
  - unfold take_answer. destruct (px_calls p !! id) as [c|]; [|done]. cbn [mbind option_bind].
    destruct (ca_phase c); try done. destruct (ca_slot c); [|done]. by intros [= <-].
  - unfold deadline. destruct (px_calls p !! id) as [c|]; [|done]. cbn [mbind option_bind].
    destruct (ca_phase c); try done. destruct (ca_slot c); [done|]. by intros [= <-].
  - unfold read_stream. destruct (px_streams p !! id) as [s|]; [|done]. cbn [mbind option_bind].
    destruct (so_phase s); try done. destruct (so_left s || so_ended s); [done|]. destruct (so_queue s); [done|]. by intros [= <-].
  - unfold stream_closed. destruct (px_streams p !! id) as [s|]; [|done]. cbn [mbind option_bind].
    destruct (so_phase s); try done. destruct (so_left s); [done|]. destruct (so_queue s); [|done].
    destruct (px_pending p !! id); [destruct (freed p); [|done]|]; by intros [= <-].
  - by intros (s & _ & _ & _ & ->)%stream_cut_cases.
  - unfold leave_stream. destruct (px_streams p !! id) as [s|]; [|done]. cbn [mbind option_bind].
    destruct (so_phase s); try done. by intros [= <-].
  - unfold remove_pending_of. destruct (px_streams p !! id) as [s|]; [|done]. cbn [mbind option_bind].
    destruct (so_phase s); try done. destruct (so_left s); [|done]. intros [= <-]. by destruct (listed p).
  - unfold drop_receiver. destruct (px_streams p !! id) as [s|]; [|done]. cbn [mbind option_bind].
    destruct (so_phase s); try done. destruct (so_left s); [|done]. by intros [= <-].
  - unfold send_message. destruct (px_streams p !! id) as [s|]; [|done]. cbn [mbind option_bind].
    destruct (so_phase s); try done. destruct (listed p); [|by intros [= <-]].
    destruct (send_to_relay _ _ p) as [r|] eqn:Hr; [|done]. intros [= <-].
    apply send_to_relay_more in Hr. destruct r; [|done]. cbn. naive_solver.
  - unfold relay_out. destruct (px_phase p); try done. destruct (px_send p); [done|]. by intros [= <-].
  - unfold relay_in. destruct (px_phase p); try done. destruct (px_up p); [done|].
    intros (? & ? & _)%primary_receive_same. done.
  - unfold relay_stalls. destruct (px_phase p); try done. destruct (px_up p); [done|]. destruct (relay_in p); [done|].
    intros [= <-]. destruct n; try done. by destruct done.
  - unfold in_phase. destruct (px_phase p); try done. by intros [= <-].
  - unfold in_phase. destruct (px_phase p); try done. by intros [= <-].
  - unfold in_phase. destruct (px_phase p); try done. by intros [= <-].
  - unfold in_phase. destruct (px_phase p); try done. by intros [= <-].
  - unfold in_phase. destruct (px_phase p); try done. by intros [= <-].
  - by intros [= <-].
  - unfold node_joins. destruct (sx_finished p), (sx_load p); try done. by intros [= <-].
  - unfold node_answers. destruct (length _ <? 64)%nat; [|done]. destruct (take_task _ _) as [[? ?]|]; [|done]. by intros [= <-].
  - unfold node_rpc_out. destruct (sx_rpc p) as [|[]]; [done|]. by intros [= <-].
  - unfold node_frame_out. destruct (sx_frames p) as [|[[] d]]; [done|]. intros [= <-]. by destruct d.
  - by intros [= <-].
  - by intros [= <-].
Qed.

Lemma send_frame_framed p q id r d : send_frame id r d p = Some q →
  px_framed q = px_framed p ++ [(id, r)] ∧ sx_nested q = sx_nested p.
Proof. unfold send_frame. destruct (length _ <? 256)%nat; [|done]. by intros [= <-]. Qed.

Lemma frame_over_lives p q id n r : lives p → sx_nested p !! id = Some n → is_done r = true →
  Forall (λ r, is_done r = false) (those id (px_framed p)) →
  (p ← send_frame id r true p; Some (finish_nested id n p)) = Some q → lives q.
Proof.
  intros Hp Hn Hd Hl. destruct (send_frame id r true p) as [q'|] eqn:Hf; [|done]. intros [= <-].
  apply send_frame_framed in Hf as [Ef En]. eapply (lives_frame p); [done|exact Ef|cbn; by rewrite En|].
  by apply done_last_snoc.
Qed.

(** A message for a stream is dropped, finds its task over, or is queued. *)
Lemma stream_message_cases p q id text : node_stream_message id text p = Some q →
  q = p ∧ (match from_slice text with Some r => is_stream_message_relayable r = false | None => True end
           ∨ sx_streams p !! id = None ∨ sx_nested p !! id = None)
  ∨ (∃ n, sx_nested p !! id = Some n ∧ ne_phase n = NestedOver) ∧ q = p <| sx_streams := delete id (sx_streams p) |>
  ∨ ∃ n request, sx_nested p !! id = Some n ∧ sx_streams p !! id = Some () ∧ ne_phase n ≠ NestedOver
      ∧ from_slice text = Some request ∧ is_stream_message_relayable request = true
      ∧ q = set_nested id (n <| ne_mail := ne_mail n ++ [request] |>) p.
Proof.
  unfold node_stream_message. destruct (from_slice text) as [request|] eqn:Ht; [|intros [= <-]; by auto].
  destruct (is_stream_message_relayable request) eqn:Hrel; [|intros [= <-]; by auto].
  destruct (sx_streams p !! id) as [[]|]; [|intros [= <-]; by auto].
  destruct (sx_nested p !! id) as [n|]; [|intros [= <-]; by auto].
  destruct (ne_phase n) eqn:Hph; try (destruct (length (ne_mail n) <? 64)%nat; [|done]); intros [= <-];
    [right; right; exists n, request; by rewrite Hph..|right; left; split; [by exists n|done]].
Qed.

Lemma lives_step op p q : once p → lives p → proxy_step node op p = Some q → lives q.
Proof.
  intros Honce Hp. destruct (caller_or_relay op) eqn:Hop.
  { intros Hq. destruct (nested_kept _ _ _ Hop Hq). by eapply lives_same. }
  assert (∀ id n, sx_nested p !! id = Some n → nested_life (Some n) (those id (px_framed p))) as Hlife.
  { intros id n Hn. specialize (Hp id). by rewrite Hn in Hp. }
  destruct op; try done; cbn [proxy_step]; unfold when_running; (destruct (sx_running p); [|done]).
  - unfold node_in. destruct (px_down p) as [|m down] eqn:Hdown; [done|].
    destruct m; cbn [node_receive]; try (intros [= <-]; by eapply (lives_same p)).
    + intros [= <-]. unfold node_rpc. destruct (64 <=? _)%nat; [by eapply (lives_same p)|].
      destruct (from_slice request) as [request'|]; [|by eapply (lives_same p)].
      destruct (is_supported_proxied_rpc request'); [|by eapply (lives_same p)].
      destruct (is_subscribe request'); [|by eapply (lives_same p)].
      eapply (lives_insert p); [done|done|reflexivity|]. cbn. specialize (Hp id). specialize (Honce id).
      unfold places in Honce. rewrite Hdown in Honce. cbn in Honce. rewrite bytes_eqb_refl in Honce.
      destruct (sx_nested p !! id); [|exact Hp]. cbn in Honce. destruct (px_requests p !! id); cbn in Honce; lia.
    + intros [[-> _]|[[_ ->]|(n & request' & Hn & _ & _ & _ & _ & ->)]]%stream_message_cases; [by eapply (lives_same p)..|].
      cbn in Hn. specialize (Hlife _ _ Hn). eapply (lives_insert p); [done|done|reflexivity|exact Hlife].
  - unfold node_connects. destruct (sx_nested p !! id) as [n|] eqn:Hn; [|done]. cbn [mbind option_bind].
    specialize (Hlife _ _ Hn). unfold nested_life in Hlife. destruct (ne_phase n); try done.
    destruct connected; [|apply frame_over_lives; try done; by rewrite Hlife].
    intros [= <-]. eapply (lives_insert p); [done|done|reflexivity|]. cbn. by rewrite Hlife.
  - unfold node_mails. destruct (sx_nested p !! id) as [n|] eqn:Hn; [|done]. cbn [mbind option_bind].
    specialize (Hlife _ _ Hn). unfold nested_life in Hlife. destruct (ne_phase n) as [|[]|]; try done.
    destruct (ne_mail n); [done|]. intros [= <-]. destruct written; (eapply (lives_insert p); [done|done|reflexivity|]); [exact Hlife|].
    by apply done_last_none.
  - unfold node_mail_closed. destruct (sx_nested p !! id) as [n|] eqn:Hn; [|done]. cbn [mbind option_bind].
    specialize (Hlife _ _ Hn). unfold nested_life in Hlife. destruct (ne_phase n) as [|[]|]; try done.
    destruct (ne_mail n); [|done]. destruct (sx_streams p !! id); [done|].
    intros [= <-]. eapply (lives_insert p); [done|done|reflexivity|]. exact Hlife.
  - unfold node_reads. destruct (sx_nested p !! id) as [n|] eqn:Hn; [|done]. cbn [mbind option_bind].
    specialize (Hlife _ _ Hn). unfold nested_life in Hlife. destruct (ne_phase n) eqn:Hph; try done.
    destruct frame as [r|e]; [|by apply frame_over_lives].
    destruct (is_done r) eqn:Hd; [by apply frame_over_lives|].
    destruct (send_frame id r false p) as [q'|] eqn:Hf; [|done]. intros [= <-].
    apply send_frame_framed in Hf as [Ef En]. eapply (lives_frame p _ id n); [done|exact Ef|by rewrite En, insert_id|].
    unfold nested_life. rewrite Hph. apply Forall_app. split; [done|by apply Forall_singleton].
Qed.

(** *** What the caller of a stream is given *)

Lemma silent_stream p id s :
  genuine_inv node p → once p → lives p → px_streams p !! id = Some s → stream_waits (Some s) = 1%nat →
  vw_flying (view id p) = [] ∧ vw_framed (view id p) = [].
Proof.
  intros Hg Honce Hl Hs Hw. assert (sx_nested p !! id = None) as Hn.
  { specialize (Honce id). unfold places in Honce. rewrite Hs, Hw in Honce.
    destruct (sx_nested p !! id); [|done]. cbn in Honce. destruct (px_requests p !! id); cbn in Honce; lia. }
  specialize (Hl id). rewrite Hn in Hl. cbn in Hl. split; [|exact Hl].
  assert (∀ r, ¬ framed (history p) id r) as Hno.
  { intros r (q & _ & _ & Hin). apply (proj2 (those_in _ _ _)) in Hin. cbn in Hin. rewrite Hl in Hin. by apply not_elem_of_nil in Hin. }
  cbn. apply app_nil. split.
  - pose proof (gi_up _ _ Hg) as Hup. induction Hup as [|m up Hm _ IH]; [done|]. cbn. destruct m; try exact IH.
    destruct (bytes_eqb id0 id) eqn:Hi; [|exact IH]. apply bool_decide_eq_true in Hi as ->.
    destruct Hm as (r & -> & Hf & _). by destruct (Hno r).
  - pose proof (gi_frames _ _ Hg) as Hfr. induction Hfr as [|[[i r] d] l [Hf _] _ IH]; [done|]. cbn.
    destruct (bytes_eqb i id) eqn:Hi; [|exact IH]. apply bool_decide_eq_true in Hi as ->. by destruct (Hno r).
Qed.

Lemma streams_same p q : streams_ok node p → (∀ id, view id q = view id p) → streams_ok node q.
Proof. intros Hp Hv id. rewrite Hv. apply Hp. Qed.

(** A step on the stream of one id. *)
Lemma streams_at p q id :
  streams_ok node p → (∀ i, i ≠ id → view i q = view i p) → view_ok node (view id q) → streams_ok node q.
Proof. intros Hp Hv Hid i. destruct (decide (i = id)) as [->|Hi]; [done|]. rewrite Hv by done. apply Hp. Qed.

Lemma set_stream_view p id i s : i ≠ id → view i (set_stream id s p) = view i p.
Proof. intros Hi. unfold view. cbn. by rewrite lookup_insert_ne. Qed.

(** A caller that goes on with its stream. *)
Lemma caller_step p q id s t :
  streams_ok node p → px_streams p !! id = Some s → so_request t = so_request s →
  so_read t ++ so_queue t = so_read s ++ so_queue s →
  so_dropped t = so_dropped s ∨ so_dropped t = true ∧ taking t = false →
  so_phase s ≠ OpenLooked → so_phase t ≠ OpenLooked → (taking t = true → taking s = true) →
  (∀ i, view i q = view i (set_stream id t p)) → streams_ok node q.
Proof.
  intros Hp Hs Er Eq Ed Ephs Eph Etk Hv. apply (streams_at p q id Hp).
  - intros i Hi. by rewrite Hv, set_stream_view.
  - rewrite Hv. specialize (Hp id). unfold view_ok in *. cbn [view vw_stream set_stream] in *. rewrite Hs in Hp.
    cbn. rewrite lookup_insert_eq, Er. intros Hsub. specialize (Hp Hsub). destruct Ed as [Ed|[Ed Etf]].
    + eapply delivered_grow with (l := []); [exact Hp|done|done|done|..]; rewrite ?app_nil_r; done.
    + eapply delivered_cut; [exact Hp|done|done|done|done|done|]. right. split; [done|by right].
Qed.

(** The head of the queue goes to another stream, or to a call. *)
Lemma frames_up_cons_other id m up :
  match m with RpcStreamFrame i _ _ => i ≠ id | _ => True end → frames_up id (m :: up) = frames_up id up.
Proof. destruct m; try done. intros Hi. cbn. by rewrite bytes_eqb_ne. Qed.

Lemma pop_view p id m up : px_up p = m :: up → match m with RpcStreamFrame i _ _ => i ≠ id | _ => True end →
  view id (p <| px_up := up |>) = view id p.
Proof. intros Hup Hm. unfold view. cbn. by rewrite Hup, frames_up_cons_other. Qed.

Lemma resolve_no_stream p q id r : genuine_inv node p → answered (history p) id r → streams_ok node p →
  resolve id r p = Some q → view_ok node (view id q).
Proof.
  intros Hg Ha Hp Hq. specialize (Hp id). unfold view_ok in *.
  assert (∀ s, px_streams p !! id = Some s → is_subscribe (so_request s) = true → False) as Hno.
  { intros s Hs Hsub. by apply (answered_no_subscribe _ _ _ _ r Hg Hs Hsub). }
  revert Hq. unfold resolve. destruct (px_pending p !! id) as [[]|] eqn:Hpd.
  - intros [= <-]. cbn [view vw_stream]. rewrite fill_slot_streams. cbn. cbn in Hp.
    destruct (px_streams p !! id) as [s|] eqn:Hs; [intros Hsub; by destruct (Hno s)|].
    intros Hc%fill_slot_calls. cbn in Hc. specialize (Hp Hc). congruence.
  - destruct (feed _ _ _) as [[b q']|] eqn:Hf; [|done]. intros [= <-]. apply feed_cases in Hf. cbn in Hf, Hp.
    destruct (px_streams p !! id) as [s|] eqn:Hs.
    + specialize (Hno s eq_refl). destruct Hf as [(_ & _ & ->)|(_ & _ & ->)]; cbn; rewrite ?lookup_insert_eq, ?Hs; intros Hsub;
        by destruct (Hno Hsub).
    + destruct Hf as [_ ->]. cbn. rewrite Hs. intros _. cbn. by rewrite lookup_delete_eq.
  - by intros [= <-].
Qed.

(** The loop of the primary is over. *)
Lemma over_streams p q :
  streams_ok node p → is_up (px_phase q) = false → px_streams q = px_streams p → px_calls q = px_calls p →
  px_framed q = px_framed p → (∀ id, px_pending q !! id = px_pending p !! id ∨ px_pending q !! id = None) →
  streams_ok node q.
Proof.
  intros Hp Hup Es Ec Ef Epd id. specialize (Hp id). unfold view_ok in *.
  cbn [view vw_stream vw_call vw_pending] in *. rewrite Es, Ec. destruct (px_streams p !! id) as [s|].
  - intros Hsub. specialize (Hp Hsub). eapply delivered_cut; [exact Hp|cbn; by rewrite Ec|done|cbn; by rewrite Ef| | |].
    + intros Hl. split; [|done]. destruct Hp as (_ & Hp & _). destruct (Hp Hl) as [Hn _]. cbn in *.
      by destruct (Epd id) as [->| ->].
    + apply Hp.
    + cbn. destruct (Epd id) as [->| ->]; [right; split; [done|by left]|left; split; [done|by left]].
  - intros Hc. specialize (Hp Hc). by destruct (Epd id) as [->| ->].
Qed.

Lemma relay_in_streams p q : genuine_inv node p → lives p → streams_ok node p → relay_in p = Some q → streams_ok node q.
Proof.
  intros Hg Hl Hp. unfold relay_in. destruct (px_phase p) eqn:Hph; try done. destruct (px_up p) as [|m up] eqn:Hup; [done|].
  assert (up_ok (history p) m) as Hm.
  { pose proof (gi_up _ _ Hg) as Hu. rewrite Hup in Hu. by apply Forall_cons in Hu as []. }
  assert (genuine_inv node (p <| px_up := up |>)) as Hg'.
  { destruct Hg as [? ? ? ? Hu]. rewrite Hup in Hu. apply Forall_cons in Hu as [_ Hu]. by split. }
  assert (∀ id, match m with RpcStreamFrame i _ _ => i ≠ id | _ => True end →
    view id (p <| px_up := up |>) = view id p) as Hpop by (intros id; by apply (pop_view p id m up)).
  destruct m; cbn [primary_receive];
    try (intros [= <-]; intros i; specialize (Hp i); rewrite <- (Hpop i I) in Hp; exact Hp);
    try (intros [= <-]; apply (over_streams p); by auto).
  - destruct Hm as (r & -> & Ha). rewrite json_parse. intros Hq.
    assert (streams_ok node (p <| px_up := up |>)) as Hp' by (intros i; rewrite Hpop by done; apply Hp).
    apply (streams_at (p <| px_up := up |>) q id Hp').
    + intros i Hi. by apply (resolve_view _ _ i id r).
    + by eapply resolve_no_stream.
  - destruct Hm as (r & -> & Hf & ->). rewrite json_parse. intros Hq. apply (streams_at p q id Hp).
    + intros i Hi. rewrite (stream_frame_view _ _ i id r _ ltac:(done) Hq). by apply Hpop.
    + eapply (frame_arrives node p q id r up); [apply Hp|by apply framed_done_last|by rewrite Hph| |exact Hq].
      rewrite Hup. cbn. by rewrite bytes_eqb_refl, json_parse.
Qed.

Lemma call_at p q id c :
  streams_ok node p → px_calls p !! id = Some c → (∀ i, i ≠ id → view i q = view i p) →
  px_streams q !! id = px_streams p !! id → is_Some (px_calls q !! id) → streams_ok node q.
Proof.
  intros Hp Hc Hv Es [c' Hc']. apply (streams_at p q id Hp Hv). specialize (Hp id). unfold view_ok in *.
  cbn [view vw_stream vw_call] in *. rewrite Es, Hc'. destruct (px_streams p !! id) as [s|]; [|done].
  intros Hsub. destruct (Hp Hsub) as [Hn _]. cbn in Hn. congruence.
Qed.

Lemma set_call_view p id i c : i ≠ id → view i (set_call id c p) = view i p.
Proof. intros Hi. unfold view. cbn. by rewrite lookup_insert_ne. Qed.

Lemma relay_view p r m id : send_to_relay node m p = Some r →
  match r with Ok q => view id q = view id p | Err _ => True end.
Proof.
  intros Hr%send_to_relay_more. destruct r; [|done].
  destruct Hr as (_ & E2 & E3 & _ & _ & _ & _ & _ & E9 & E10 & E11 & E12 & _ & _ & _ & E16).
  unfold view. by rewrite E2, E3, E9, E10, E11, E12, E16.
Qed.

Lemma up_view p id m : match m with RpcStreamFrame _ _ _ => False | _ => True end → view id (send_up m p) = view id p.
Proof. intros Hm. unfold view. cbn. rewrite frames_up_app. destruct m; try done; cbn; by rewrite app_nil_r. Qed.

Lemma node_rpc_view p id i text : view id (node_rpc i text p) = view id p.
Proof.
  unfold node_rpc. destruct (64 <=? _)%nat; [done|]. destruct (from_slice text) as [request|]; [|by apply up_view].
  destruct (is_supported_proxied_rpc request); [|by apply up_view]. by destruct (is_subscribe request).
Qed.

Lemma node_in_view p q id : node_in p = Some q → view id q = view id p.
Proof.
  unfold node_in. destruct (px_down p) as [|m down]; [done|]. destruct m; cbn [node_receive]; try (by intros [= <-]).
  - intros [= <-]. by rewrite node_rpc_view.
  - by intros [[-> _]|[[_ ->]|(n & request' & _ & _ & _ & _ & _ & ->)]]%stream_message_cases.
  - intros [= <-]. by rewrite up_view.
Qed.

Lemma send_frame_streams p q id r d : streams_ok node p → send_frame id r d p = Some q → streams_ok node q.
Proof.
  intros Hp. unfold send_frame. destruct (length _ <? 256)%nat; [|done]. intros [= <-]. intros i.
  specialize (Hp i). unfold view_ok in *. cbn [view vw_stream vw_call vw_pending] in *.
  destruct (px_streams p !! i) as [s|] eqn:Hs; [|cbn; rewrite Hs; exact Hp]. cbn. rewrite Hs. intros Hsub.
  eapply (delivered_grow node _ _ s s (those i [(id, r)])); [exact (Hp Hsub)|done|done|done| | |done|done|done|done].
  - cbn. rewrite map_app, those_app, app_assoc. done.
  - cbn. by rewrite those_app.
Qed.

Lemma drain_streams p : streams_ok node p → streams_ok node (drain node p).
Proof.
  intros Hp id. specialize (Hp id). unfold view_ok in *. cbn [view vw_stream vw_call vw_pending drain] in *. cbn.
  rewrite !map_lookup_imap. destruct (px_streams p !! id) as [s|] eqn:Hs; cbn; [|by rewrite lookup_empty].
  intros Hsub. assert (is_subscribe (so_request s) = true) as Hsub'.
  { revert Hsub. destruct (px_pending p !! id) as [[]|]; try done. by destruct (so_dropped s || _). }
  destruct (Hp Hsub') as (Hc & Hl & Hdt & got & tail & Hgot & Hpre & Hm). cbn in Hc, Hl, Hpre, Hm. split_and!.
  - cbn. by rewrite map_lookup_imap, Hc.
  - cbn. rewrite lookup_empty. intros Hph. split; [done|]. revert Hph.
    destruct (px_pending p !! id) as [[]|] eqn:Hpd; try (intros Hph; by destruct (Hl Hph)).
    destruct (so_dropped s || _); intros Hph; by destruct (Hl Hph).
  - by destruct (px_pending p !! id) as [[]|]; [| destruct (so_dropped s || _)|].
  - cbn. rewrite lookup_empty. destruct (px_pending p !! id) as [[]|] eqn:Hpd; [done| |by exists got, tail; split_and!; [..|apply Hm|]].
    destruct Hm as [-> _]. rewrite app_nil_r in Hgot.
    destruct (so_dropped s || _); cbn; [exists got, []|exists got, [Err (not_connected node)]]; rewrite ?app_assoc, Hgot, ?app_nil_r;
      split_and!; auto; by intros [=].
Qed.

Lemma frame_over_streams p q id n r : streams_ok node p →
  (p ← send_frame id r true p; Some (finish_nested id n p)) = Some q → streams_ok node q.
Proof.
  intros Hp. destruct (send_frame id r true p) as [q'|] eqn:Hf; [|done]. intros [= <-].
  eapply streams_same; [by eapply send_frame_streams|done].
Qed.

Lemma streams_step op p q :
  genuine_inv node p → once p → lives p → streams_ok node p → proxy_step node op p = Some q → streams_ok node q.
Proof.
  intros Hg Honce Hl Hp. destruct op; cbn [proxy_step]; unfold when_running; try (destruct (sx_running p); [|done]).
  - unfold lookup. destruct (px_requests p !! id) eqn:Hid; [done|]. intros [= <-]. apply (streams_at p _ id Hp).
    + intros i Hi. by rewrite set_call_view.
    + unfold view_ok. cbn. rewrite lookup_insert_eq. destruct (px_streams p !! id) as [s|] eqn:Hs; [|done].
      pose proof (streams_request _ _ _ _ Hg Hs) as Hr. unfold stream_ok in Hr. cbn in Hr. congruence.
  - unfold lookup_stream. destruct (px_requests p !! id) eqn:Hid; [done|]. intros [= <-]. apply (streams_at p _ id Hp).
    + intros i Hi. by rewrite set_stream_view.
    + assert (px_calls p !! id = None) as Hc.
      { destruct (px_calls p !! id) as [c|] eqn:Hc; [|done]. destruct (calls_request _ _ _ _ Hg Hc) as [Hr _]. cbn in Hr. congruence. }
      assert (px_streams p !! id = None) as Hs.
      { destruct (px_streams p !! id) as [s|] eqn:Hs; [|done]. pose proof (streams_request _ _ _ _ Hg Hs) as Hr.
        unfold stream_ok in Hr. cbn in Hr. congruence. }
      specialize (Hp id). unfold view_ok in *. cbn in *. rewrite Hs in Hp. specialize (Hp Hc).
      rewrite lookup_insert_eq. intros _. split_and!; [done|done|done|]. exists [], []. cbn. rewrite Hp.
      split_and!; [done|apply prefix_nil|by left|unfold taking; cbn; by destruct (listed p)].
  - unfold enlist. destruct (px_calls p !! id) as [c|] eqn:Hc.
    + destruct (ca_phase c); try done. intros [= <-]. eapply call_at; [exact Hp|exact Hc| |done|].
      * intros i Hi. unfold view. cbn. by rewrite !lookup_insert_ne.
      * cbn. rewrite lookup_insert_eq. by eexists.
    + destruct (px_streams p !! id) as [s|] eqn:Hs; [|done]. destruct (so_phase s) eqn:Hph; try done. intros [= <-].
      apply (streams_at p _ id Hp).
      * intros i Hi. unfold view. cbn. by rewrite !lookup_insert_ne.
      * specialize (Hp id). unfold view_ok in *. cbn [view vw_stream] in Hp. rewrite Hs in Hp. cbn.
        rewrite lookup_insert_eq. intros Hsub. destruct (Hp Hsub) as (_ & Hlk & Hdt & _). destruct (Hlk Hph) as [_ Hnil].
        destruct (silent_stream p id s Hg Honce Hl Hs) as [Hfl Hfr]; [cbn; by rewrite Hph|].
        split_and!; [done|done|cbn; intros Hd; specialize (Hdt Hd); unfold taking in *; by rewrite Hph in Hdt|].
        exists [], []. cbn in *. rewrite lookup_insert_eq, Hfl, Hfr.
        split_and!; [exact Hnil|done|done|by intros].
  - unfold ask. destruct (px_calls p !! id) as [c|] eqn:Hc.
    + destruct (ca_phase c) eqn:Hph; try done. destruct (send_to_relay _ _ p) as [r|] eqn:Hr; [|done]. intros [= <-].
      eapply call_at; [exact Hp|exact Hc|..].
      * intros i Hi. pose proof (relay_view p _ _ i Hr). destruct r; by rewrite set_call_view.
      * pose proof (send_to_relay_more _ _ _ _ Hr) as Hm. destruct r; [|done]. cbn. by destruct Hm as (_ & _ & -> & _).
      * destruct r; cbn; rewrite lookup_insert_eq; by eexists.
    + destruct (px_streams p !! id) as [s|] eqn:Hs; [|done]. destruct (so_phase s) eqn:Hph; try done.
      destruct (send_to_relay _ _ p) as [r|] eqn:Hr; [|done]. intros [= <-]. destruct r as [q'|e].
      * eapply (caller_step p _ id s (s <| so_phase := Opened |>)); [done..|by left|congruence|done|unfold taking; cbn; by rewrite Hph|].
        intros i. pose proof (relay_view p _ _ i Hr) as Hv. cbn in Hv. unfold view in *. cbn. injection Hv as -> E -> -> -> ->.
        destruct (decide (i = id)) as [->|Hi]; [by rewrite !lookup_insert_eq|by rewrite !lookup_insert_ne, E].
      * by eapply (caller_step p _ id s (s <| so_phase := OpenFailed e |> <| so_dropped := true |>)); [..|right|rewrite Hph| | |].
  - unfold take_answer. destruct (px_calls p !! id) as [c|] eqn:Hc; [|done]. cbn [mbind option_bind].
    destruct (ca_phase c); try done. destruct (ca_slot c); [|done]. intros [= <-].
    eapply call_at; [exact Hp|exact Hc|intros i Hi; by apply set_call_view|done|]. cbn. rewrite lookup_insert_eq. by eexists.
  - unfold deadline. destruct (px_calls p !! id) as [c|] eqn:Hc; [|done]. cbn [mbind option_bind].
    destruct (ca_phase c); try done. destruct (ca_slot c); [done|]. intros [= <-].
    eapply call_at; [exact Hp|exact Hc| |done|cbn; rewrite lookup_insert_eq; by eexists].
    intros i Hi. by rewrite remove_view, set_call_view.
  - unfold read_stream. destruct (px_streams p !! id) as [s|] eqn:Hs; [|done]. cbn [mbind option_bind].
    destruct (so_phase s) eqn:Hph; try done. destruct (so_left s || so_ended s); [done|].
    destruct (so_queue s) as [|r queue] eqn:Hq; [done|]. intros [= <-].
    eapply (caller_step p _ id s (s <| so_queue := queue |> <| so_read := so_read s ++ [r] |>) Hp Hs);
      [done| |by left|congruence|cbn; congruence|done|done].
    cbn. by rewrite Hq, <- app_assoc.
  - unfold stream_closed. destruct (px_streams p !! id) as [s|] eqn:Hs; [|done]. cbn [mbind option_bind].
    destruct (so_phase s) eqn:Hph; try done. destruct (so_left s) eqn:Hd; [done|]. destruct (so_queue s) eqn:Hq; [|done].
    intros Hc. assert (q = set_stream id (s <| so_ended := true |>) p) as ->.
    { destruct (px_pending p !! id); [destruct (freed p); [|done]|]; by injection Hc as <-. }
    eapply (caller_step p _ id s (s <| so_ended := true |>) Hp Hs); [done|done|by left|congruence|cbn; congruence|done|done].
  - intros (s & Hs & Hph & _ & ->)%stream_cut_cases.
    eapply (caller_step p _ id s (s <| so_ended := true |>) Hp Hs); [done|done|by left|congruence|cbn; congruence|done|done].
  - unfold leave_stream. destruct (px_streams p !! id) as [s|] eqn:Hs; [|done]. cbn [mbind option_bind].
    destruct (so_phase s) eqn:Hph; try done. intros [= <-].
    eapply (caller_step p _ id s (s <| so_left := true |>) Hp Hs); [done|done|by left|congruence|cbn; congruence| |done].
    unfold taking. cbn. by rewrite Hph.
  - unfold remove_pending_of. destruct (px_streams p !! id) as [s|] eqn:Hs; [|done]. cbn [mbind option_bind].
    destruct (so_phase s) eqn:Hph; try done. destruct (so_left s) eqn:Hleft; [|done]. intros [= <-].
    assert (taking s = false) as Htk by (unfold taking; by rewrite Hph, Hleft).
    destruct (listed p); [|done]. apply (streams_at p _ id Hp).
    + intros i Hi. by apply remove_view.
    + specialize (Hp id). unfold view_ok in *. cbn [view vw_stream] in *. cbn. rewrite Hs in *. intros Hsub.
      eapply delivered_cut; [exact (Hp Hsub)|done|done|done|congruence|done|left; cbn; split; [by apply lookup_delete_eq|by right]].
  - unfold drop_receiver. destruct (px_streams p !! id) as [s|] eqn:Hs; [|done]. cbn [mbind option_bind].
    destruct (so_phase s) eqn:Hph; try done. destruct (so_left s) eqn:Hleft; [|done]. intros [= <-].
    eapply (caller_step p _ id s (s <| so_dropped := true |>) Hp Hs); [done|done|right|congruence|cbn; congruence|done|done].
    split; [done|]. unfold taking. cbn. by rewrite Hph, Hleft.
  - unfold send_message. destruct (px_streams p !! id) as [s|] eqn:Hs; [|done]. cbn [mbind option_bind].
    destruct (so_phase s); try done. destruct (listed p); [|by intros [= <-]].
    destruct (send_to_relay _ _ p) as [r|] eqn:Hr; [|done]. intros [= <-]. destruct r as [q'|e]; [|done].
    apply (streams_same p); [done|]. intros i. exact (relay_view p _ _ i Hr).
  - unfold relay_out. destruct (px_phase p) eqn:Hph; try done. destruct (px_send p); [done|]. intros [= <-]. by apply (streams_same p).
  - by apply relay_in_streams.
  - unfold relay_stalls. destruct (px_phase p) eqn:Hph; try done. destruct (px_up p) as [|m up]; [done|]. destruct (relay_in p); [done|].
    intros [= <-]. apply (over_streams p); [done|by destruct m as [| | | | | | | | |? ? []| | | | |]..|].
    intros i. destruct m as [| | | | | | | |j ?|j ? []| | | | |]; cbn; try (by left);
      (destruct (decide (i = j)) as [->|Hi]; [right; by apply lookup_delete_eq|left; by apply lookup_delete_ne]).
  - unfold in_phase. destruct (px_phase p) eqn:Hph; try done. intros [= <-]. by apply (streams_same p).
  - unfold in_phase. destruct (px_phase p) eqn:Hph; try done. intros [= <-]. apply (over_streams p); by auto.
  - unfold in_phase. destruct (px_phase p) eqn:Hph; try done. intros [= <-]. by apply drain_streams.
  - unfold in_phase. destruct (px_phase p) eqn:Hph; try done. intros [= <-]. apply (over_streams p); by auto.
  - unfold in_phase. destruct (px_phase p) eqn:Hph; try done. intros [= <-]. apply (over_streams p); by auto.
  - intros [= <-]. by apply (streams_same p).
  - intros Hq. apply (streams_same p); [done|]. intros i. by apply node_in_view.
  - unfold node_joins. destruct (sx_finished p), (sx_load p); try done. intros [= <-]. by apply (streams_same p).
  - unfold node_answers. destruct (length _ <? 64)%nat; [|done]. destruct (take_task _ _) as [[? ?]|]; [|done].
    intros [= <-]. by apply (streams_same p).
  - unfold node_connects. destruct (sx_nested p !! id) as [n|] eqn:Hn; [|done]. cbn [mbind option_bind].
    destruct (ne_phase n); try done. destruct connected; [|by apply frame_over_streams].
    intros [= <-]. by apply (streams_same p).
  - unfold node_mails. destruct (sx_nested p !! id) as [n|] eqn:Hn; [|done]. cbn [mbind option_bind].
    destruct (ne_phase n) as [|[]|]; try done. destruct (ne_mail n); [done|]. intros [= <-].
    destruct written; by apply (streams_same p).
  - unfold node_mail_closed. destruct (sx_nested p !! id) as [n|] eqn:Hn; [|done]. cbn [mbind option_bind].
    destruct (ne_phase n) as [|[]|]; try done. destruct (ne_mail n); [|done]. destruct (sx_streams p !! id); [done|].
    intros [= <-]. by apply (streams_same p).
  - unfold node_reads. destruct (sx_nested p !! id) as [n|] eqn:Hn; [|done]. cbn [mbind option_bind].
    destruct (ne_phase n); try done. destruct frame as [r|e]; [|by apply frame_over_streams].
    destruct (is_done r) eqn:Hd; [by apply frame_over_streams|].
    destruct (send_frame id r false p) as [q'|] eqn:Hf; [|done]. intros [= <-]. by eapply send_frame_streams.
  - unfold node_rpc_out. destruct (sx_rpc p) as [|[id r] rest]; [done|]. intros [= <-].
    apply (streams_same p); [done|]. intros i. exact (up_view p i (NodeRpcResponse id (to_vec r)) I).
  - unfold node_frame_out. destruct (sx_frames p) as [|[[id r] d] rest] eqn:Hf; [done|]. intros [= <-].
    apply (streams_same p); [done|]. intros i.
    assert (∀ q, q = (if d then p <| sx_streams := delete id (sx_streams p) |> else p) →
      view i (send_up (RpcStreamFrame id (to_vec r) d) q <| sx_frames := rest |>) = view i p) as Hv; [|by apply Hv].
    intros q ->. unfold view. destruct d; cbn; rewrite Hf, frames_up_app, <- app_assoc; cbn; rewrite json_parse;
      by destruct (bytes_eqb id i).
  - intros [= <-]. apply (streams_same p); [done|]. intros i. by apply up_view.
  - intros [= <-]. by apply (streams_same p).
Qed.

(** *** What the nested attach is told *)

(** The messages for an id among those on the way: the request, and what
    follows it. *)
Fixpoint trace (id : bytes) (l : list NodeWsMessage) : list (option RpcRequest) :=
  match l with
  | [] => []
  | Rpc i _ :: l => if bytes_eqb i id then None :: trace id l else trace id l
  | RpcStreamMessage i text :: l =>
      if bytes_eqb i id then
        match from_slice text with
        | Some request => if is_stream_message_relayable request then Some request :: trace id l else trace id l
        | None => trace id l
        end
      else trace id l
  | _ :: l => trace id l
  end.

Lemma trace_app id a b : trace id (a ++ b) = trace id a ++ trace id b.
Proof.
  induction a as [|m a IH]; [done|]. cbn. destruct m; cbn; rewrite ?IH; try done; destruct (bytes_eqb _ _); try done.
  destruct (from_slice _); [|done]. by destruct (is_stream_message_relayable _).
Qed.

Lemma trace_quiet id l : Forall (λ m, quiet m = true) l → trace id l = [].
Proof. induction 1 as [|m l Hm _ IH]; [done|]. by destruct m. Qed.

Lemma trace_no_rpc id l : count (is_rpc id) l = 0%nat → None ∉ trace id l.
Proof.
  induction l as [|m l IH]; [intros _; apply not_elem_of_nil|]. cbn. destruct m; cbn; try exact IH.
  - destruct (bytes_eqb id0 id); [done|exact IH].
  - intros Hc. specialize (IH Hc). destruct (bytes_eqb id0 id); [|done]. destruct (from_slice _); [|done].
    destruct (is_stream_message_relayable _); [|done]. rewrite elem_of_cons. naive_solver.
Qed.

Fixpoint the_mail (l : list (option RpcRequest)) : list RpcRequest :=
  match l with [] => [] | Some request :: l => request :: the_mail l | None :: l => the_mail l end.

Lemma the_mail_app a b : the_mail (a ++ b) = the_mail a ++ the_mail b.
Proof. induction a as [|[x|] a IH]; [done| |exact IH]. cbn. by rewrite IH. Qed.

Lemma the_mail_Some l : the_mail (map Some l) = l.
Proof. induction l as [|x l IH]; [done|]. cbn. by rewrite IH. Qed.

Lemma the_mail_nil l : None ∉ l → the_mail l = [] → l = [].
Proof. destruct l as [|[x|] l]; [done..|]. rewrite elem_of_cons. naive_solver. Qed.

Definition sent (id : bytes) (p : Proxy) : list RpcRequest :=
  List.filter is_stream_message_relayable (those id (px_mailed p)).

(** What the invariant looks at. *)
Record MailView := mk_mail_view {
  mv_stream : option (RpcRequest * OpenPhase);
  mv_nested : option Nested;
  mv_open : option ();
  mv_running : bool;
  mv_way : list (option RpcRequest);
  mv_sent : list RpcRequest;
}.

Definition stream_head (s : StreamCall) : RpcRequest * OpenPhase := (so_request s, so_phase s).

Definition mail_view (id : bytes) (p : Proxy) : MailView :=
  mk_mail_view (stream_head <$> px_streams p !! id) (sx_nested p !! id) (sx_streams p !! id) (sx_running p)
    (trace id (px_down p ++ px_send p)) (sent id p).

(** The request goes before its messages, and the messages stay in order
    until the nested attach is over. *)
Definition mailed (v : MailView) : Prop :=
  match mv_nested v with
  | Some n =>
      ne_written n `prefix_of` mv_sent v
      ∧ (mv_running v = true → ne_phase n ≠ NestedOver →
         mv_open v = Some () ∧ ne_written n ++ ne_mail n ++ the_mail (mv_way v) = mv_sent v)
  | None =>
      mv_running v = true →
      match mv_stream v with
      | Some (_, Opened) => mv_way v = None :: map Some (mv_sent v)
      | _ => mv_way v = [] ∧ mv_sent v = []
      end
  end.

Definition mail_view_ok (v : MailView) : Prop :=
  match mv_stream v with
  | Some (request, _) => is_subscribe request = true → mailed v
  | None => the_mail (mv_way v) = [] ∧ mv_sent v = []
  end.

Definition mail_ok (p : Proxy) : Prop := ∀ id, mail_view_ok (mail_view id p).

Lemma mail_same p q : mail_ok p → (∀ id, mail_view id q = mail_view id p) → mail_ok q.
Proof. intros Hp Hv id. rewrite Hv. apply Hp. Qed.

Lemma mail_at p q id :
  mail_ok p → (∀ i, i ≠ id → mail_view i q = mail_view i p) → mail_view_ok (mail_view id q) → mail_ok q.
Proof. intros Hp Hv Hid i. destruct (decide (i = id)) as [->|Hi]; [done|]. rewrite Hv by done. apply Hp. Qed.

(** The fields that matter. *)
Lemma mail_fields p q :
  mail_ok p → (∀ id, stream_head <$> px_streams q !! id = stream_head <$> px_streams p !! id) →
  sx_nested q = sx_nested p → sx_streams q = sx_streams p → sx_running q = sx_running p → px_mailed q = px_mailed p →
  (∀ id, trace id (px_down q ++ px_send q) = trace id (px_down p ++ px_send p)) → mail_ok q.
Proof.
  intros Hp Es En Eo Er Em Et. apply (mail_same p); [done|]. intros id. unfold mail_view, sent.
  by rewrite Es, En, Eo, Er, Em, Et.
Qed.

Lemma set_stream_heads id s t p i : px_streams p !! id = Some s → stream_head t = stream_head s →
  stream_head <$> px_streams (set_stream id t p) !! i = stream_head <$> px_streams p !! i.
Proof.
  intros Hs Et. cbn. destruct (decide (i = id)) as [->|Hi]; [rewrite lookup_insert_eq, Hs; exact (f_equal Some Et)|by rewrite lookup_insert_ne].
Qed.

Lemma feed_heads p id r b q i : feed id r p = Some (b, q) →
  stream_head <$> px_streams q !! i = stream_head <$> px_streams p !! i.
Proof.
  intros Hf%feed_cases. destruct (px_streams p !! id) as [s|] eqn:Hs.
  - destruct Hf as [(_ & _ & ->)|(_ & _ & ->)]; [done|]. by apply (set_stream_heads id s).
  - by destruct Hf as [_ ->].
Qed.

Lemma resolve_heads p q id r i : resolve id r p = Some q →
  stream_head <$> px_streams q !! i = stream_head <$> px_streams p !! i.
Proof.
  unfold resolve. destruct (px_pending p !! id) as [[]|]; [| |by intros [= <-]].
  - intros [= <-]. by rewrite fill_slot_streams.
  - destruct (feed _ _ _) as [[b q']|] eqn:Hf; [|done]. intros [= <-]. by apply (feed_heads _ _ _ _ _ i) in Hf.
Qed.

Lemma primary_receive_heads p q m i : primary_receive m p = Some q →
  stream_head <$> px_streams q !! i = stream_head <$> px_streams p !! i.
Proof.
  destruct m; cbn [primary_receive]; try (by intros [= <-]).
  - destruct (from_slice _); [apply resolve_heads|by intros [= <-]].
  - destruct (from_slice _); [|by intros [= <-]]. unfold on_stream_frame. destruct done; [apply resolve_heads|].
    destruct (px_pending p !! id) as [[]|]; try (by intros [= <-]).
    destruct (feed _ _ _) as [[b q']|] eqn:Hf; [|done]. intros [= <-]. apply (feed_heads _ _ _ _ _ i) in Hf. by destruct b.
Qed.

Lemma drain_heads p i : stream_head <$> px_streams (drain node p) !! i = stream_head <$> px_streams p !! i.
Proof.
  cbn. rewrite map_lookup_imap. destruct (px_streams p !! i) as [s|]; [|done]. cbn.
  destruct (px_pending p !! i) as [[]|]; try done. by destruct (so_dropped s || _).
Qed.

Lemma quiet_between id a extra b : Forall (λ m, quiet m = true) extra → trace id ((a ++ extra) ++ b) = trace id (a ++ b).
Proof. intros Hq. by rewrite <- app_assoc, !trace_app, (trace_quiet id extra). Qed.

(** The nested attach of an id goes on. *)
Lemma nested_mail p q id n n' :
  mail_ok p → sx_nested p !! id = Some n → sx_running p = true → ne_phase n ≠ NestedOver →
  sx_nested q = <[id:=n']> (sx_nested p) → (∀ i, px_streams q !! i = px_streams p !! i) → sx_streams q = sx_streams p →
  sx_running q = sx_running p → px_mailed q = px_mailed p → px_down q = px_down p → px_send q = px_send p →
  (ne_written n' = ne_written n ∧ ne_phase n' = NestedOver ∨ ne_written n' ++ ne_mail n' = ne_written n ++ ne_mail n) →
  mail_ok q.
Proof.
  intros Hp Hn Hrun Hph En Es Eo Er Em Ed Esend Hor. apply (mail_at p q id Hp).
  - intros i Hi. unfold mail_view, sent. rewrite Es, En, Eo, Er, Em, Ed, Esend, lookup_insert_ne by done. done.
  - specialize (Hp id). unfold mail_view_ok, mailed, mail_view in *.
    cbn [mv_stream mv_nested mv_open mv_running mv_way mv_sent] in *. unfold sent in *.
    rewrite Es, En, Eo, Er, Em, Ed, Esend, lookup_insert_eq. rewrite Hn in Hp.
    destruct (stream_head <$> _) as [[request phase]|]; [|exact Hp]. intros Hsub. destruct (Hp Hsub) as [Hpre Hall].
    destruct (Hall Hrun Hph) as [Ho Heq]. destruct Hor as [[-> ->]|Hw]; [by split|].
    assert (ne_written n' ++ ne_mail n' ++ the_mail (trace id (px_down p ++ px_send p)) = sent id p) as Heq'.
    { rewrite app_assoc, Hw, <- app_assoc. exact Heq. }
    split; [|by intros]. unfold sent in Heq'. rewrite <- Heq'. by apply prefix_app_r.
Qed.

(** A node that has stopped writes nothing more. *)
Lemma mail_stops p q :
  mail_ok p → sx_running q = false → (∀ i, px_streams q !! i = px_streams p !! i) → sx_nested q = sx_nested p →
  px_mailed q = px_mailed p → (∀ id, the_mail (trace id (px_down p ++ px_send p)) = [] →
                                     the_mail (trace id (px_down q ++ px_send q)) = []) → mail_ok q.
Proof.
  intros Hp Hr Es En Em Et id. specialize (Hp id). unfold mail_view_ok, mailed, mail_view in *.
  cbn [mv_stream mv_nested mv_open mv_running mv_way mv_sent] in *. unfold sent in *. rewrite Es, En, Em, Hr.
  destruct (stream_head <$> _) as [[request phase]|]; [|destruct Hp; by auto]. intros Hsub. specialize (Hp Hsub).
  destruct (sx_nested p !! id) as [n|]; [|done]. destruct Hp. by split.
Qed.

Lemma trace_cons id m l : trace id (m :: l) = trace id [m] ++ trace id l.
Proof. exact (trace_app id [m] l). Qed.

(** The request is not on its way twice. *)
Lemma no_rpc_on_the_way p id : once p →
  (1 <= call_waits (px_calls p !! id) + stream_waits (px_streams p !! id))%nat
  ∨ px_requests p !! id = None ∨ is_Some (sx_nested p !! id) → None ∉ trace id (px_down p ++ px_send p).
Proof.
  intros Ho Hor. apply trace_no_rpc. rewrite count_app. specialize (Ho id). unfold places in Ho.
  destruct Hor as [Hw|[Hw|[n Hw]]]; rewrite ?Hw in Ho; cbn in Ho; destruct (px_requests p !! id); cbn in Ho; lia.
Qed.

Lemma subscribe_no_call p id s :
  streams_ok node p → px_streams p !! id = Some s → is_subscribe (so_request s) = true → px_calls p !! id = None.
Proof. intros Hp Hs Hsub. specialize (Hp id). unfold view_ok in Hp. cbn [view vw_stream] in Hp. rewrite Hs in Hp. by destruct (Hp Hsub). Qed.

(** Another message on the way to the node. *)
Lemma message_mail p q m i : mail_view_ok (mail_view i p) → px_send q = px_send p ++ [m] → px_down q = px_down p →
  trace i [m] = [] → stream_head <$> px_streams q !! i = stream_head <$> px_streams p !! i →
  sx_nested q = sx_nested p → sx_streams q = sx_streams p → sx_running q = sx_running p →
  those i (px_mailed q) = those i (px_mailed p) → mail_view_ok (mail_view i q).
Proof.
  intros Hp E1 E2 Et E3 E4 E5 E6 E7. unfold mail_view, sent in *.
  by rewrite E1, E2, E3, E4, E5, E6, E7, app_assoc, trace_app, Et, app_nil_r.
Qed.

Lemma rpc_trace id i text : trace i [Rpc id text] = if bytes_eqb id i then [None] else [].
Proof. done. Qed.

Lemma ask_mail p q id : once p → streams_ok node p → mail_ok p → ask node id p = Some q → mail_ok q.
Proof.
  intros Ho Hso Hp. unfold ask. destruct (px_calls p !! id) as [c|] eqn:Hc.
  - destruct (ca_phase c) eqn:Hph; try done. destruct (send_to_relay _ _ p) as [r|] eqn:Hr; [|done]. intros [= <-].
    apply send_to_relay_more in Hr. destruct r as [q'|e]; [|by apply (mail_same p)].
    destruct Hr as (_ & _ & E3 & E4 & E5 & _ & _ & E8 & _ & _ & _ & _ & E13 & E14 & E15 & _). intros i.
    destruct (decide (id = i)) as [->|Hi];
      [|eapply message_mail; [apply Hp|exact E4|exact E5|by rewrite rpc_trace, bytes_eqb_ne|cbn; by rewrite ?E3, ?E13..]].
    specialize (Hp i). unfold mail_view_ok, mail_view in *. cbn [mv_stream mv_way mv_sent] in *. unfold sent in *. cbn.
    rewrite E3, E4, E5, E13, app_assoc, trace_app, rpc_trace, bytes_eqb_refl, the_mail_app. cbn. rewrite app_nil_r.
    destruct (px_streams p !! i) as [s|] eqn:Hs; [|exact Hp]. cbn. intros Hsub.
    pose proof (subscribe_no_call _ _ _ Hso Hs Hsub). congruence.
  - destruct (px_streams p !! id) as [s|] eqn:Hs; [|done]. destruct (so_phase s) eqn:Hph; try done.
    destruct (send_to_relay _ _ p) as [r|] eqn:Hr; [|done]. intros [= <-].
    assert (∀ i, id ≠ i → ∀ t q, stream_head <$> px_streams (set_stream id t q) !! i = stream_head <$> px_streams q !! i) as Hne.
    { intros i Hi t q. cbn. by rewrite lookup_insert_ne. }
    assert (sx_nested p !! id = None) as Hn.
    { specialize (Ho id). unfold places in Ho. rewrite Hs in Ho. unfold stream_waits in Ho. rewrite Hph in Ho.
      destruct (sx_nested p !! id); [|done]. cbn in Ho. destruct (px_requests p !! id); cbn in Ho; lia. }
    apply send_to_relay_more in Hr. pose proof (Hp id) as Hid.
    unfold mail_view_ok, mailed, mail_view in Hid. cbn [mv_stream mv_nested mv_running mv_way mv_sent] in Hid.
    rewrite Hs, Hn in Hid. cbn in Hid. rewrite Hph in Hid. destruct r as [q'|e].
    + destruct Hr as (_ & _ & E3 & E4 & E5 & _ & _ & E8 & _ & _ & _ & _ & E13 & E14 & E15 & _). intros i.
      destruct (decide (id = i)) as [->|Hi];
        [|eapply message_mail; [apply Hp|exact E4|exact E5|by rewrite rpc_trace, bytes_eqb_ne|by rewrite Hne, E3|cbn; by rewrite ?E13..]].
      unfold mail_view_ok, mailed, mail_view. cbn [mv_stream mv_nested mv_running mv_way mv_sent]. cbn. unfold sent in *. cbn.
      rewrite lookup_insert_eq, E8, Hn, E4, E5, E13, E15, app_assoc, trace_app, rpc_trace, bytes_eqb_refl. cbn.
      intros Hsub Hrun. destruct (Hid Hsub Hrun) as [-> ->]. done.
    + apply (mail_at p _ id Hp).
      * intros i Hi. unfold mail_view. by rewrite Hne.
      * unfold mail_view_ok, mailed, mail_view. cbn [mv_stream mv_nested mv_running mv_way mv_sent]. cbn.
        rewrite lookup_insert_eq, Hn. exact Hid.
Qed.

Lemma send_message_mail p q id request : mail_ok p → send_message node id request p = Some q → mail_ok q.
Proof.
  intros Hp. unfold send_message. destruct (px_streams p !! id) as [s|] eqn:Hs; [|done]. cbn [mbind option_bind].
  destruct (so_phase s) eqn:Hph; try done. destruct (listed p); [|by intros [= <-]].
  destruct (send_to_relay _ _ p) as [r|] eqn:Hr; [|done]. intros [= <-].
  apply send_to_relay_more in Hr. destruct r as [q'|e]; [|done].
  destruct Hr as (_ & _ & E3 & E4 & E5 & _ & _ & E8 & _ & _ & _ & _ & E13 & E14 & E15 & _). intros i.
  destruct (decide (id = i)) as [->|Hi].
  2: { eapply message_mail; [apply Hp|exact E4|exact E5|cbn; by rewrite bytes_eqb_ne|cbn; by rewrite ?E3|done..|].
       cbn. by rewrite E13, those_app, those_1, bytes_eqb_ne, app_nil_r. }
  specialize (Hp i). unfold mail_view_ok, mailed, mail_view in *.
  cbn [mv_stream mv_nested mv_open mv_running mv_way mv_sent] in *. unfold sent in *. cbn.
  rewrite E3, E4, E5, E8, E13, E14, E15, app_assoc, trace_app, those_app, those_1, bytes_eqb_refl, List.filter_app, Hs. cbn.
  rewrite bytes_eqb_refl, json_parse. rewrite Hs in Hp. cbn in Hp.
  destruct (is_stream_message_relayable request); rewrite ?app_nil_r; [|exact Hp]. intros Hsub. specialize (Hp Hsub).
  destruct (sx_nested p !! i) as [n|].
  - destruct Hp as [Hpre Hall]. split; [by apply prefix_app_r|]. intros Hrun Hover. destruct (Hall Hrun Hover) as [Ho <-].
    split; [done|]. by rewrite the_mail_app, <- !app_assoc.
  - intros Hrun. specialize (Hp Hrun). rewrite Hph in *. by rewrite Hp, map_app.
Qed.

Lemma the_mail_tail id a b : the_mail (trace id (a ++ b)) = [] → the_mail (trace id b) = [].
Proof. rewrite trace_app, the_mail_app. by intros [_ ?]%app_nil. Qed.

Lemma down_stops p q down m : mail_ok p → px_down p = m :: down → sx_running q = false →
  px_streams q = px_streams p → sx_nested q = sx_nested p → px_mailed q = px_mailed p → px_send q = px_send p →
  px_down q = down → mail_ok q.
Proof.
  intros Hp Hd Hr Es En Em Esend Ed. apply (mail_stops p); try done; [by intros i; rewrite Es|].
  intros id. rewrite Hd, Ed, Esend. exact (the_mail_tail id [m] (down ++ px_send p)).
Qed.

(** The request of a stream arrives. *)
Lemma subscribe_mail p q id text request down :
  genuine_inv node p → once p → mail_ok p → sx_running p = true → px_down p = Rpc id text :: down →
  from_slice text = Some request → is_subscribe request = true →
  sx_nested q = <[id:=mk_nested request Connecting [] []]> (sx_nested p) → sx_streams q = <[id:=()]> (sx_streams p) →
  px_streams q = px_streams p → sx_running q = sx_running p → px_mailed q = px_mailed p → px_down q = down →
  px_send q = px_send p → mail_ok q.
Proof.
  intros Hg Ho Hp Hrun Hd Htext Hsub En Eo Es Er Em Ed Esend.
  assert (∀ i, i ≠ id → trace i (px_down p) = trace i down) as Htr.
  { intros i Hi. rewrite Hd, trace_cons, rpc_trace, bytes_eqb_ne by done. done. }
  apply (mail_at p q id Hp).
  - intros i Hi. unfold mail_view, sent. by rewrite En, Eo, Es, Er, Em, Ed, Esend, !trace_app, Htr, !lookup_insert_ne.
  - specialize (Hp id). unfold mail_view_ok, mailed, mail_view in *.
    cbn [mv_stream mv_nested mv_open mv_running mv_way mv_sent] in *. unfold sent in *.
    rewrite Hd, <- app_comm_cons, trace_cons, rpc_trace, bytes_eqb_refl in Hp. cbn in Hp.
    rewrite En, Eo, Es, Er, Em, Ed, Esend, !lookup_insert_eq. cbn.
    destruct (px_streams p !! id) as [s|] eqn:Hs; [|exact Hp]. cbn in *. intros Hsub'. specialize (Hp Hsub').
    assert (sx_nested p !! id = None) as Hn.
    { specialize (Ho id). unfold places in Ho. rewrite Hd in Ho. cbn in Ho. rewrite bytes_eqb_refl in Ho.
      destruct (sx_nested p !! id); [|done]. cbn in Ho. destruct (px_requests p !! id); cbn in Ho; lia. }
    rewrite Hn in Hp. specialize (Hp Hrun). split; [apply prefix_nil|]. intros _ _. split; [done|].
    destruct (so_phase s); first [by destruct Hp as [[=] _]|injection Hp as ->; apply the_mail_Some].
Qed.

(** A message of a stream arrives. *)
Lemma message_arrives_mail p q id text down :
  once p → mail_ok p → sx_running p = true → px_down p = RpcStreamMessage id text :: down →
  node_stream_message id text (p <| px_down := down |>) = Some q → mail_ok q.
Proof.
  intros Ho Hp Hrun Hd Hq. pose proof (Hp id) as Hid.
  assert (∀ i, i ≠ id → trace i (px_down p) = trace i down) as Htr.
  { intros i Hi. rewrite Hd. cbn. by rewrite bytes_eqb_ne. }
  unfold mail_view_ok, mailed, mail_view in Hid. cbn [mv_stream mv_nested mv_open mv_running mv_way mv_sent] in Hid.
  rewrite Hd, <- app_comm_cons in Hid. cbn in Hid. rewrite bytes_eqb_refl in Hid.
  apply stream_message_cases in Hq as [[-> Hwhy]|[[(n & Hn & Hover) ->]|(n & request & Hn & Hopen & Hph & Ht & Hrel & ->)]].
  - apply (mail_at p _ id Hp); [intros i Hi; unfold mail_view; cbn; by rewrite !trace_app, Htr|].
    unfold mail_view_ok, mailed, mail_view. cbn [mv_stream mv_nested mv_open mv_running mv_way mv_sent]. cbn. unfold sent in *.
    cbn in *. destruct (from_slice text) as [request|]; [|exact Hid].
    destruct (is_stream_message_relayable request); [|exact Hid].
    destruct (px_streams p !! id) as [s|] eqn:Hs; [|by destruct Hid as [[=] _]]. cbn in *. intros Hsub. specialize (Hid Hsub).
    destruct (sx_nested p !! id) as [n|] eqn:Hn.
    + destruct Hid as [Hpre Hall]. split; [done|]. intros _ Hover. destruct (Hall Hrun Hover) as [Hop _].
      destruct Hwhy as [|[Hwhy|]]; [done|congruence|done].
    + specialize (Hid Hrun). destruct (so_phase s); first [discriminate Hid|by destruct Hid as [[=] _]].
  - apply (mail_at p _ id Hp).
    { intros i Hi. unfold mail_view. cbn. by rewrite !trace_app, Htr, lookup_delete_ne. }
    unfold mail_view_ok, mailed, mail_view. cbn [mv_stream mv_nested mv_open mv_running mv_way mv_sent]. cbn. unfold sent in *.
    cbn in *. rewrite Hn in *. destruct (px_streams p !! id) as [s|] eqn:Hs.
    + cbn in *. intros Hsub. destruct (Hid Hsub) as [Hpre _]. by split.
    + cbn in *. destruct (from_slice text) as [request|]; [|exact Hid].
      destruct (is_stream_message_relayable request); [by destruct Hid as [[=] _]|exact Hid].
  - cbn in Hn, Hopen. apply (mail_at p _ id Hp).
    { intros i Hi. unfold mail_view. cbn. by rewrite !trace_app, Htr, lookup_insert_ne. }
    unfold mail_view_ok, mailed, mail_view. cbn [mv_stream mv_nested mv_open mv_running mv_way mv_sent]. cbn. unfold sent in *.
    cbn in *. rewrite lookup_insert_eq. rewrite Ht, Hrel, Hn in Hid.
    destruct (px_streams p !! id) as [s|] eqn:Hs; [|by destruct Hid as [[=] _]]. cbn in *. intros Hsub.
    destruct (Hid Hsub) as [Hpre Hall]. split; [done|]. intros _ _. destruct (Hall Hrun Hph) as [Hop <-].
    split; [done|]. by rewrite <- !app_assoc.
Qed.

Lemma node_in_mail p q :
  genuine_inv node p → once p → mail_ok p → sx_running p = true → node_in p = Some q → mail_ok q.
Proof.
  intros Hg Ho Hp Hrun. unfold node_in. destruct (px_down p) as [|m down] eqn:Hd; [done|].
  destruct m; cbn [node_receive]; try (intros [= <-]; by eapply down_stops).
  - intros [= <-]. unfold node_rpc. destruct (64 <=? _)%nat; [by eapply down_stops|].
    pose proof (gi_down _ _ Hg) as Hdown. rewrite Hd in Hdown. apply Forall_cons in Hdown as [(request' & Hreq & ->) _].
    rewrite json_parse. destruct (is_subscribe request') eqn:Hsub.
    + rewrite (subscribe_supported _ Hsub). by apply (subscribe_mail p _ id (to_vec request') request' down); rewrite ?json_parse.
    + assert (∀ q, px_streams q = px_streams p → sx_nested q = sx_nested p → sx_streams q = sx_streams p →
        sx_running q = sx_running p → px_mailed q = px_mailed p → px_down q = down → px_send q = px_send p → mail_ok q) as Hq.
      { intros q Es En Eo Er Em Ed Esend i. specialize (Hp i). unfold mail_view_ok, mailed, mail_view in *.
        cbn [mv_stream mv_nested mv_open mv_running mv_way mv_sent] in *. unfold sent in *.
        rewrite Es, En, Eo, Er, Em, Ed, Esend. rewrite Hd, <- app_comm_cons, trace_cons, rpc_trace in Hp.
        destruct (bytes_eqb id i) eqn:Hi; [|exact Hp]. apply bool_decide_eq_true in Hi as ->. cbn in Hp.
        destruct (px_streams p !! i) as [s|] eqn:Hs; [|exact Hp]. cbn in *. intros Hsub'.
        pose proof (streams_request _ _ _ _ Hg Hs) as Hr. unfold stream_ok in Hr. cbn in Hr, Hreq. congruence. }
      by destruct (is_supported_proxied_rpc request'); apply Hq.
  - by apply message_arrives_mail.
  - intros [= <-]. apply (mail_fields p); try done. intros i. cbn. by rewrite Hd.
  - intros [= <-]. apply (mail_fields p); try done. intros i. cbn. by rewrite Hd.
Qed.

Lemma frame_over_mail p q id n r : mail_ok p → sx_running p = true → sx_nested p !! id = Some n → ne_phase n ≠ NestedOver →
  (p ← send_frame id r true p; Some (finish_nested id n p)) = Some q → mail_ok q.
Proof.
  intros Hp Hrun Hn Hph. unfold send_frame. destruct (length _ <? 256)%nat; [|done]. intros [= <-].
  apply (nested_mail p _ id n (n <| ne_phase := NestedOver |>)); try done. by left.
Qed.

Lemma frame_out_mail p q : genuine_inv node p → lives p → mail_ok p → node_frame_out p = Some q → mail_ok q.
Proof.
  intros Hg Hl Hp. unfold node_frame_out. destruct (sx_frames p) as [|[[id r] d] rest] eqn:Hf; [done|]. intros [= <-].
  destruct d; [|by apply (mail_same p)]. apply (mail_at p _ id Hp).
  { intros i Hi. unfold mail_view. cbn. by rewrite lookup_delete_ne. }
  pose proof (gi_frames _ _ Hg) as Hfr. rewrite Hf in Hfr. apply Forall_cons in Hfr as [[(request & _ & _ & Hin) Hd] _].
  cbn in Hin, Hd. apply (proj2 (those_in _ _ _)) in Hin. specialize (Hl id). specialize (Hp id).
  unfold mail_view_ok, mailed, mail_view in *. cbn [mv_stream mv_nested mv_open mv_running mv_way mv_sent] in *. cbn. unfold sent in *.
  cbn. destruct (px_streams p !! id) as [s|] eqn:Hs; [|exact Hp]. cbn in *. intros Hsub. specialize (Hp Hsub).
  destruct (sx_nested p !! id) as [n|] eqn:Hn; [|exact Hp]. destruct Hp as [Hpre _]. split; [done|]. intros _ Hph.
  unfold nested_life in Hl. destruct (ne_phase n); [|rewrite Forall_forall in Hl; specialize (Hl _ Hin); congruence|done].
  rewrite Hl in Hin. by apply not_elem_of_nil in Hin.
Qed.

Lemma phase_mail p id s t : mail_ok p → px_streams p !! id = Some s → so_request t = so_request s →
  so_phase s ≠ Opened → so_phase t ≠ Opened → mail_ok (set_stream id t p).
Proof.
  intros Hp Hs Er Hph Hph'. apply (mail_at p _ id Hp).
  - intros i Hi. unfold mail_view. cbn. by rewrite lookup_insert_ne.
  - specialize (Hp id). unfold mail_view_ok, mailed, mail_view in *.
    cbn [mv_stream mv_nested mv_open mv_running mv_way mv_sent] in *. cbn. rewrite lookup_insert_eq. rewrite Hs in Hp.
    cbn in *. rewrite Er. intros Hsub. specialize (Hp Hsub). destruct (sx_nested p !! id); [exact Hp|].
    intros Hrun. specialize (Hp Hrun). by destruct (so_phase s), (so_phase t).
Qed.

Lemma mail_step op p q :
  genuine_inv node p → once p → lives p → streams_ok node p → mail_ok p → proxy_step node op p = Some q → mail_ok q.
Proof.
  intros Hg Ho Hl Hso Hp. destruct op; cbn [proxy_step]; unfold when_running; try (destruct (sx_running p) eqn:Hrun; [|done]).
  - unfold lookup. destruct (px_requests p !! id); [done|]. intros [= <-]. by apply (mail_same p).
  - unfold lookup_stream. destruct (px_requests p !! id) eqn:Hid; [done|]. intros [= <-]. apply (mail_at p _ id Hp).
    { intros i Hi. unfold mail_view. cbn. by rewrite lookup_insert_ne. }
    pose proof (no_rpc_on_the_way p id Ho ltac:(by auto)) as Hno. specialize (Hp id). specialize (Ho id). unfold places in Ho.
    unfold mail_view_ok, mailed, mail_view in *. cbn [mv_stream mv_nested mv_open mv_running mv_way mv_sent] in *. cbn.
    rewrite lookup_insert_eq. cbn. intros _. rewrite Hid in Ho. cbn in Ho.
    destruct (sx_nested p !! id); [cbn in Ho; lia|]. intros _.
    destruct (px_streams p !! id) as [s|] eqn:Hs.
    + pose proof (streams_request _ _ _ _ Hg Hs) as Hr. unfold stream_ok in Hr. cbn in Hr. congruence.
    + cbn in Hp. destruct Hp as [Hm%the_mail_nil Hsent]; [|done]. by destruct (listed p).
  - unfold enlist. destruct (px_calls p !! id) as [c|]; [destruct (ca_phase c); try done; intros [= <-]; by apply (mail_same p)|].
    destruct (px_streams p !! id) as [s|] eqn:Hs; [|done]. destruct (so_phase s) eqn:Hph; try done. intros [= <-].
    apply (mail_same (set_stream id (s <| so_phase := OpenRegistered |>) p)); [|done]. apply (phase_mail p id s); try done; cbn; congruence.
  - by apply ask_mail.
  - unfold take_answer. destruct (px_calls p !! id) as [c|]; [|done]. cbn [mbind option_bind].
    destruct (ca_phase c); try done. destruct (ca_slot c); [|done]. intros [= <-]. by apply (mail_same p).
  - unfold deadline. destruct (px_calls p !! id) as [c|]; [|done]. cbn [mbind option_bind].
    destruct (ca_phase c); try done. destruct (ca_slot c); [done|]. intros [= <-]. by apply (mail_same p).
  - unfold read_stream. destruct (px_streams p !! id) as [s|] eqn:Hs; [|done]. cbn [mbind option_bind].
    destruct (so_phase s); try done. destruct (so_left s || so_ended s); [done|]. destruct (so_queue s); [done|]. intros [= <-].
    apply (mail_fields p); try done. intros i. by apply (set_stream_heads id s).
  - unfold stream_closed. destruct (px_streams p !! id) as [s|] eqn:Hs; [|done]. cbn [mbind option_bind].
    destruct (so_phase s); try done. destruct (so_left s); [done|]. destruct (so_queue s); [|done].
    intros Hq. apply (mail_fields p); try done; destruct (px_pending p !! id); try (destruct (freed p); [|done]);
      injection Hq as <-; try done; intros i; by apply (set_stream_heads id s).
  - intros (s & Hs & _ & _ & ->)%stream_cut_cases. apply (mail_fields p); try done. intros i. by apply (set_stream_heads id s).
  - unfold leave_stream. destruct (px_streams p !! id) as [s|] eqn:Hs; [|done]. cbn [mbind option_bind].
    destruct (so_phase s); try done. intros [= <-]. apply (mail_fields p); try done. intros i. by apply (set_stream_heads id s).
  - unfold remove_pending_of. destruct (px_streams p !! id) as [s|]; [|done]. cbn [mbind option_bind].
    destruct (so_phase s); try done. destruct (so_left s); [|done]. intros [= <-]. destruct (listed p); [by apply (mail_same p)|done].
  - unfold drop_receiver. destruct (px_streams p !! id) as [s|] eqn:Hs; [|done]. cbn [mbind option_bind].
    destruct (so_phase s); try done. destruct (so_left s); [|done]. intros [= <-]. apply (mail_fields p); try done. intros i. by apply (set_stream_heads id s).
  - by apply send_message_mail.
  - unfold relay_out. destruct (px_phase p); try done. destruct (px_send p) as [|m rest] eqn:Hs; [done|]. intros [= <-].
    apply (mail_fields p); try done. intros i. cbn. by rewrite Hs, <- app_assoc.
  - unfold relay_in. destruct (px_phase p); try done. destruct (px_up p) as [|m up]; [done|]. intros Hq.
    pose proof (primary_receive_same _ _ _ Hq) as (E1 & _ & E3 & E4 & E5 & E6 & extra & E7 & Hx).
    apply (mail_fields p); try done; [by intros i; rewrite (primary_receive_heads _ _ _ i Hq)|].
    intros i. rewrite E6, E7. exact (quiet_between i _ _ _ Hx).
  - unfold relay_stalls. destruct (px_phase p); try done. destruct (px_up p) as [|m up]; [done|]. destruct (relay_in p); [done|].
    intros [= <-]. apply (mail_same p); [done|]. intros i. by destruct m as [| | | | | | | | |? ? []| | | | |].
  - unfold in_phase. destruct (px_phase p); try done. intros [= <-]. apply (mail_fields p); try done.
    intros i. cbn. apply quiet_between. by apply Forall_singleton.
  - unfold in_phase. destruct (px_phase p); try done. intros [= <-]. by apply (mail_same p).
  - unfold in_phase. destruct (px_phase p); try done. intros [= <-]. apply (mail_fields p); try done. apply drain_heads.
  - unfold in_phase. destruct (px_phase p); try done. intros [= <-]. by apply (mail_same p).
  - unfold in_phase. destruct (px_phase p); try done. intros [= <-]. by apply (mail_same p).
  - intros [= <-]. by apply (mail_same p).
  - by apply node_in_mail.
  - unfold node_joins. destruct (sx_finished p), (sx_load p); try done. intros [= <-]. by apply (mail_same p).
  - unfold node_answers. destruct (length _ <? 64)%nat; [|done]. destruct (take_task _ _) as [[? ?]|]; [|done].
    intros [= <-]. by apply (mail_same p).
  - unfold node_connects. destruct (sx_nested p !! id) as [n|] eqn:Hn; [|done]. cbn [mbind option_bind].
    destruct (ne_phase n) eqn:Hph; try done. destruct connected; [|apply frame_over_mail; by rewrite ?Hph].
    intros [= <-]. apply (nested_mail p _ id n (n <| ne_phase := Relaying true |>)); try done; [by rewrite Hph|by right].
  - unfold node_mails. destruct (sx_nested p !! id) as [n|] eqn:Hn; [|done]. cbn [mbind option_bind].
    destruct (ne_phase n) as [|[]|] eqn:Hph; try done. destruct (ne_mail n) as [|request mail] eqn:Hm; [done|]. intros [= <-].
    destruct written.
    + eapply (nested_mail p _ id n); try done; [by rewrite Hph|]. right. cbn. by rewrite Hm, <- app_assoc.
    + apply (nested_mail p _ id n (n <| ne_phase := NestedOver |>)); try done; [by rewrite Hph|by left].
  - unfold node_mail_closed. destruct (sx_nested p !! id) as [n|] eqn:Hn; [|done]. cbn [mbind option_bind].
    destruct (ne_phase n) as [|[]|] eqn:Hph; try done. destruct (ne_mail n) eqn:Hm; [|done]. destruct (sx_streams p !! id); [done|].
    intros [= <-]. apply (nested_mail p _ id n (n <| ne_phase := Relaying false |>)); try done; [by rewrite Hph|by right].
  - unfold node_reads. destruct (sx_nested p !! id) as [n|] eqn:Hn; [|done]. cbn [mbind option_bind].
    destruct (ne_phase n) eqn:Hph; try done. destruct frame as [r|e]; [|apply frame_over_mail; by rewrite ?Hph].
    destruct (is_done r) eqn:Hd; [apply frame_over_mail; by rewrite ?Hph|].
    unfold send_frame. destruct (length _ <? 256)%nat; [|done]. intros [= <-]. by apply (mail_same p).
  - unfold node_rpc_out. destruct (sx_rpc p) as [|[id r] rest]; [done|]. intros [= <-]. by apply (mail_same p).
  - by apply frame_out_mail.
  - intros [= <-]. by apply (mail_same p).
  - intros [= <-]. by apply (mail_stops p).
Qed.

(** *** Runs *)

Record proxy_inv (p : Proxy) : Prop := mk_proxy_inv {
  pi_genuine : genuine_inv node p;
  pi_once : once p;
  pi_lives : lives p;
  pi_streams : streams_ok node p;
  pi_mail : mail_ok p;
}.

Lemma proxy_inv_connected : proxy_inv proxy_connected.
Proof.
  split.
  - apply genuine_connected.
  - apply once_connected.
  - intros id. cbn. by rewrite lookup_empty.
  - intros id. unfold view_ok. cbn. by rewrite !lookup_empty.
  - intros id. unfold mail_view_ok, mail_view. cbn. by rewrite !lookup_empty.
Qed.

Lemma proxy_inv_step op p q : proxy_inv p → proxy_step node op p = Some q → proxy_inv q.
Proof.
  intros [Hg Ho Hl Hs Hm] Hq. split; [by eapply genuine_step|by eapply once_step|by eapply lives_step
    |by eapply (streams_step op p)|by eapply (mail_step op p)].
Qed.

Lemma proxy_inv_run ops p q : proxy_inv p → proxy_run node ops p = Some q → proxy_inv q.
Proof.
  revert p. induction ops as [|op ops IH]; intros p Hp; cbn; [by intros [= <-]|].
  destruct (proxy_step node op p) as [p'|] eqn:Hs; [|done]. cbn. apply IH. by eapply proxy_inv_step.
Qed.

End Run.

(** ** What the local client is written *)

Definition written (w : ClientWrite) : RpcResponse :=
  match w with
  | Line response | ControlFrame response => response
  | OutputFrame offset data => AttachStreamChunk offset data
  end.

Lemma client_write_written b response : written (client_write b response) = response.
Proof. destruct b; [|done]. by destruct response. Qed.

Lemma client_error_written b response : written (client_error b response) = response.
Proof. by destruct b. Qed.

Lemma done_last_cons r l : done_last (r :: l) → done_last l ∧ (is_done r = true → l = []).
Proof. intros Hl. split; [intros a x b ->; exact (Hl (r :: a) x b eq_refl)|exact (Hl [] r l eq_refl)]. Qed.

Lemma done_last_prefix a b : a `prefix_of` b → done_last b → done_last a.
Proof.
  intros [k ->] Hb x r y -> Hr. assert (y ++ k = []) as Hn; [|by apply app_nil in Hn as []].
  apply (Hb x r); [|done]. by rewrite <- app_assoc.
Qed.

Definition last_words (show : AppError → bytes) (node : bytes) (ended : bool) (tail : list (result AppError RpcResponse)) :
    list RpcResponse :=
  match tail with
  | [] => if ended then [node_stream_interrupted_response node] else []
  | Err e :: _ => [ErrorResponse (show e)]
  | Ok response :: _ => [response]
  end.

Lemma client_writes_written show node ended b seen tail : done_last seen →
  tail = [] ∨ (∃ e, tail = [Err e]) →
  map written (client_writes show node ended b (map Ok seen ++ tail))
  = seen ++ (if existsb is_done seen then [] else last_words show node ended tail).
Proof.
  intros Hd Ht. revert b. induction seen as [|r seen IH]; intros b; cbn.
  - destruct Ht as [->|[e ->]]; cbn; [destruct ended; cbn|]; by rewrite ?client_error_written.
  - apply done_last_cons in Hd as [Hd Hr]. rewrite client_write_written. f_equal. destruct (is_done r) eqn:Hdr; cbn.
    + by rewrite Hr.
    + by apply IH.
Qed.

Lemma read_part {E A} (a b : list (result E A)) got tail : a ++ b = map Ok got ++ tail → tail = [] ∨ (∃ e, tail = [Err e]) →
  ∃ seen t, a = map Ok seen ++ t ∧ seen `prefix_of` got ∧ (t = [] ∨ t = tail).
Proof.
  intros Heq Ht. apply app_eq_app in Heq as (l & [[-> Hl]|[Hl ->]]).
  - exists got, l. split_and!; [done|done|]. destruct Ht as [->|[e ->]]; [left; by symmetry in Hl; apply app_eq_nil in Hl as []|].
    destruct l as [|x l]; [by left|]. injection Hl as <- Hl. right. by symmetry in Hl; apply app_eq_nil in Hl as [-> _].
  - apply map_eq_app in Hl as (k1 & k2 & -> & <- & _). exists k1, []. split_and!; [by rewrite app_nil_r|by exists k2|by left].
Qed.

(** ** Streams end to end *)

Section Relayed.
Context `{Json RpcRequest, Json RpcResponse, !JsonLaws RpcRequest, !JsonLaws RpcResponse} (node : bytes).

(** C11: A remote attach is a local one, as far as the connection lasts.  The
    caller reads the frames of the nested attach in order, and after them at
    most one error, that the node is not connected; while the connection is
    up and the caller in its loop, what was read, what waits and what is in
    flight are all the frames there are, the last one included.  Its local client is written exactly what was read, and last
    the end of the stream or what it was interrupted by.  The nested attach
    is written the caller's messages of an attach, in order; while it runs
    none is lost. *)
Theorem streams_are_relayed show ops p id s : proxy_run node ops proxy_connected = Some p →
  px_streams p !! id = Some s → is_subscribe (so_request s) = true →
  (∃ seen tail, so_read s = map Ok seen ++ tail
    ∧ seen `prefix_of` those id (px_framed p)
    ∧ (tail = [] ∨ tail = [Err (NodeNotConnected node)])
    ∧ map written (client_writes show node (so_ended s) false (so_read s))
      = seen ++ if existsb is_done seen then [] else last_words show node (so_ended s) tail)
  ∧ (px_phase p = Up → so_phase s = Opened → so_left s = false →
      so_read s ++ so_queue s ++ map Ok (frames_up id (px_up p) ++ those id (map fst (sx_frames p)))
      = map Ok (those id (px_framed p)))
  ∧ ∀ n, sx_nested p !! id = Some n →
      ne_written n `prefix_of` sent id p
      ∧ (sx_running p = true → ne_phase n ≠ NestedOver →
          ne_written n ++ ne_mail n ++ the_mail (trace id (px_down p ++ px_send p)) = sent id p).
Proof.
  intros Hrun Hs Hsub. destruct (proxy_inv_run node ops _ p (proxy_inv_connected node) Hrun) as [_ _ Hl Hst Hm].
  specialize (Hst id). unfold view_ok in Hst. cbn [view vw_stream] in Hst. rewrite Hs in Hst.
  destruct (Hst Hsub) as (_ & _ & Hdt & got & tail & Hgot & Hpre & Htail). cbn in Hpre, Htail. split_and!.
  - assert (tail = [] ∨ tail = [Err (NodeNotConnected node)]) as Ht.
    { destruct (px_pending p !! id) as [[]|]; [done|left; apply Htail|apply Htail]. }
    destruct (read_part _ _ _ _ Hgot) as (seen & t & Hread & Hseen & Hor); [destruct Ht as [->| ->]; by eauto|].
    exists seen, t. assert (t = [] ∨ t = [Err (NodeNotConnected node)]) as Ht' by (destruct Hor as [->| ->]; by auto).
    split_and!; [done|by etrans|done|]. rewrite Hread. apply client_writes_written.
    + eapply done_last_prefix; [|by apply framed_done_last]. by etrans.
    + destruct Ht' as [->| ->]; by eauto.
  - intros Hup Hph Hleft. assert (taking s = true) as Htk by (unfold taking; by rewrite Hph, Hleft).
    rewrite Hup in Htail. assert (tail = [] ∧ got ++ frames_up id (px_up p) ++ those id (map fst (sx_frames p)) = those id (px_framed p))
      as [-> Heq].
    { destruct (px_pending p !! id) as [[]|]; [done| |destruct Htail as [_ Htail]; destruct Htail as (? & ? & _); [done..|by rewrite Hph|done]].
      destruct Htail as [-> Heq]. split; [done|]. apply Heq; [done|]. destruct (so_dropped s); [|done]. by rewrite Hdt in Htk. }
    by rewrite app_assoc, Hgot, app_nil_r, <- map_app, Heq.
  - intros n Hn. specialize (Hm id). unfold mail_view_ok, mailed, mail_view in Hm.
    cbn [mv_stream mv_nested mv_open mv_running mv_way mv_sent] in Hm. rewrite Hs, Hn in Hm. cbn in Hm.
    destruct (Hm Hsub) as [Hpre' Hall]. split; [done|]. intros Hr Hph. by apply Hall.
Qed.

End Relayed.

(** ** Examples *)

#[local] Instance request_json : Json RpcRequest := code_json _.
#[local] Instance request_json_laws : JsonLaws RpcRequest := code_json_laws _.
#[local] Instance response_json : Json RpcResponse := code_json _.
#[local] Instance response_json_laws : JsonLaws RpcResponse := code_json_laws _.

Definition subscribe : RpcRequest := AttachSubscribe [] None true None None None None.
Definition keys : RpcRequest := AttachInput [] [] false None.
Definition output : RpcResponse := AttachStreamChunk 0 [].
Definition finished : RpcResponse := ErrorResponse [].

(** An attach that has ended on its node. *)
Definition sample_attach : list ProxyOp := [
  LookupStream [] subscribe; Enlist []; Ask []; RelayOut; NodeIn; NodeConnects [] (Ok ());
  NodeReads [] (Ok output); NodeReads [] (Ok finished); NodeFrameOut; NodeFrameOut; RelayIn; RelayIn; ReadStream []].

(** The write of a message to the nested attach fails. *)
Definition broken_attach : list ProxyOp := [
  LookupStream [] subscribe; Enlist []; Ask []; SendMessage [] keys; RelayOut; RelayOut; NodeIn; NodeIn;
  NodeConnects [] (Ok ()); NodeMails [] false; NodeJoins].

Definition attached (ops : list ProxyOp) : option (Proxy * StreamCall) :=
  p ← proxy_run [] ops proxy_connected; s ← px_streams p !! []; Some (p, s).

Lemma streams_are_relayed_witness :
  ∃ p s seen tail, proxy_run [] sample_attach proxy_connected = Some p ∧ px_streams p !! [] = Some s
    ∧ px_pending p !! [] = None ∧ length (so_read s) = 1%nat ∧ length (so_queue s) = 1%nat
    ∧ so_read s = map Ok seen ++ tail ∧ seen `prefix_of` those [] (px_framed p)
    ∧ so_read s ++ so_queue s ++ map Ok (frames_up [] (px_up p) ++ those [] (map fst (sx_frames p)))
      = map Ok (those [] (px_framed p)).
Proof.
  assert (((λ x, (is_subscribe (so_request x.2), is_up (px_phase x.1), so_phase x.2, so_left x.2, px_pending x.1 !! [],
      length (so_read x.2), length (so_queue x.2))) <$> attached sample_attach)
    = Some (true, true, Opened, false, None, 1%nat, 1%nat)) as Hout by (vm_compute; reflexivity).
  unfold attached in Hout. destruct (proxy_run [] sample_attach proxy_connected) as [p|] eqn:Hp; [|discriminate].
  cbn [mbind option_bind] in Hout. destruct (px_streams p !! []) as [s|] eqn:Hs; [|discriminate].
  injection Hout as Hsub Hup Hph Hleft Hpd Hread Hqueue. cbn [fst snd] in *.
  assert (px_phase p = Up) as Hup' by (destruct (px_phase p); [reflexivity|discriminate..]).
  destruct (streams_are_relayed [] (λ _, []) sample_attach p [] s Hp Hs Hsub) as ((seen & tail & H1 & H2 & _) & H3 & _).
  exists p, s, seen, tail.
  exact (conj eq_refl (conj Hs (conj Hpd (conj Hread (conj Hqueue (conj H1 (conj H2 (H3 Hup' Hph Hleft)))))))).
Defined.

(** The nested attach is over and its caller is told nothing: no frame is on
    its way, and its channel stays open. *)
Example end_is_not_told :
  ((λ x, (px_phase x.1, px_pending x.1 !! [], px_up x.1, sx_frames x.1, so_queue x.2, so_read x.2,
      ne_phase <$> sx_nested x.1 !! [])) <$> attached broken_attach)
    = Some (Up, Some Stream, [], [], [], [], Some NestedOver)
  ∧ attached (broken_attach ++ [ReadStream []]) = None
  ∧ attached (broken_attach ++ [StreamClosed []]) = None.
Proof. by vm_compute. Qed.
